(* ===== verification/_CoqProject ===== *)
-Q . S2P
Prelude.v
Bytes.v
Base64.v
Frame.v
RegexSyntax.v
RegexVM.v
RegexCompile.v
RegexSearch.v
Uri.v
OrdMap.v
Calendar.v
Timestamp.v
Doubles.v
Decimal.v
Headers.v
Router.v
Http1.v
Forwarded.v
TraceContext.v
Retry.v
Cbor.v
WebSocketPair.v
SessionQueue.v
SessionRegistry.v
RegistryEntries.v
SessionDelivery.v
SessionLifecycle.v
Effects.v
Middleware.v
ServerDispatch.v
SocketServer.v
Utf8.v
StreamRouter.v
AccessLog.v
Uuid.v
Pagination.v
Exposition.v
Metrics.v
MetricsState.v
MetricsText.v
MetricsServer.v
Json.v
Serde.v
Envelope.v
StreamFrames.v
StreamGrammar.v
WsSession.v
WsInvariants.v
WsSessionSpec.v
Binary32.v
JsonValues.v
WeatherSerde.v
WeatherServer.v
WeatherClient.v
Transports.v
WeatherCalls.v
WeatherSpec.v
BeastClient.v
BeastClientSpec.v
BeastRetries.v
BeastPool.v
BeastWire.v
BeastServer.v
BeastServerSteps.v
BeastServerSpec.v
BeastDial.v
SessionHandles.v
EventSessions.v
