(* ===== verification/Prelude.v ===== *)
(** Verification of the opal C++ runtime.

    opal-cpp generates C++ clients and servers from Smithy models; the code
    they share is the runtime library under src/runtime/.  This development
    models that library's core logic, file by file, and proves what each part
    promises to the others.  Names follow the source: the operation
    [ParseRequestTarget] of http/uri.cc is [Uri.ParseRequestTarget].

    ** The program and how its parts interact

    A client call becomes an [HttpRequest] (http/message.h, http/headers.cc)
    addressed by an endpoint and a request target (http/uri.cc), carried by a
    transport (http/socket_transport.cc, http/http1.cc) under a retry policy
    (client/retry.cc) that runs interceptors and propagates trace context
    (http/trace_context.cc).  The server reads the message, matches the target
    against its routes (server/router.cc), decides whose address to believe
    (http/forwarded.cc), and answers.  Bodies are documents, encoded as CBOR
    (cbor/cbor.cc), with timestamps in three text formats (core/timestamp.cc),
    blobs in base64 (core/base64.cc) and strings constrained by regular
    expressions (core/regex.cc).  Streaming operations exchange event-stream
    messages (eventstream/frame.cc) over WebSocket sessions; the in-memory pair
    (http/websocket_pair.cc) is the reference session and the session registry
    (server/session_registry.h) fans events out to many of them.

    ** Files

    - Prelude.v: bytes, integers of fixed width with their wrap-around, lists;
      the [Error] and [Outcome] of core/error.h and core/outcome.h as an error
      monad, the notations of [opal_scope], the hint database [opal].
    - Bytes.v: the [std::string_view] operations and integer text the runtime
      uses; OrdMap.v: [std::map] with string keys; Calendar.v and Doubles.v:
      the parts of std::chrono and of binary64 that the code relies on.
    - Base64.v: core/base64.cc.  Timestamp.v: core/timestamp.cc.
    - RegexSyntax.v, RegexVM.v, RegexCompile.v, RegexSearch.v: core/regex.cc,
      its parser, its compiler and Pike VM, the meaning of patterns and
      compiler correctness, and the correctness and cost of [Search].
    - Cbor.v: core/document.h and cbor/cbor.cc.
    - Frame.v: eventstream/frame.cc.
    - Uri.v, Headers.v, Http1.v, Forwarded.v, TraceContext.v: the files of
      http/ with those names; Http1.v also has the request and response writers
      and readers of http/socket_transport.cc, whose accept loop and exchange
      are SocketServer.v.
    - Router.v: server/router.cc.
    - Retry.v: client/retry.cc, client/interceptor.h, client/observability.cc
      and the default streaming send of http/transport.h.
    - WebSocketPair.v: http/websocket_pair.cc as a state machine whose steps are
      the regions between lock and unlock (or between two waits).
    - SessionQueue.v, SessionRegistry.v, RegistryEntries.v, SessionDelivery.v,
      SessionLifecycle.v: server/session_registry.h likewise: the bounded
      queue, the steps, what a step does to one entry, and the properties of
      delivery and of membership.
    - Effects.v: computations with a log and exceptions (std::clog, try/catch of
      core/exception_guard.h); Middleware.v: server/middleware.cc over them;
      ServerDispatch.v: http/server_dispatch.cc and server/origin_gate.cc.
    - Utf8.v: core/text.cc and the UTF-8 check of the access log; AccessLog.v:
      server/access_log.cc with a strict reader of the lines it writes.
    - Json.v: json/json.cc over the tree type of the JSON library; Serde.v:
      core/document_serde.cc.
    - Envelope.v: eventstream/envelope.cc and the interface [JsonCodec], which
      json.cc's model implements; StreamFrames.v: eventstream/json_frame.cc and
      jsonrpc_frame.cc over that interface; StreamGrammar.v: the grammar of
      the JSON-RPC wire, which its decoder reads exactly.
    - Decimal.v: shortest decimal text of a double; Exposition.v: the text
      format of metrics with a strict reader of it; Metrics.v, MetricsState.v,
      MetricsText.v, MetricsServer.v: the metrics registry of
      server/metrics.cc, the consistency of its state, the page it exposes and
      the middleware and handler that feed and serve it.
    - StreamRouter.v: the WebSocket upgrade router; Uuid.v: core/uuid.cc;
      Pagination.v: the page iterator.
    - WsSession.v, WsInvariants.v, WsSessionSpec.v: the production WebSocket
      session of http/beast_transport.cc as a step machine over Beast's
      operations, its invariants, and what its callers may rely on.
    - Binary32.v, JsonValues.v, WeatherSerde.v, WeatherServer.v,
      WeatherClient.v, Transports.v, WeatherCalls.v, WeatherSpec.v: the code
      generated for the weather example (its serde, server and client), the
      interface [Transport] between a client and a server, and the service as
      its caller sees it.
    - BeastClient.v: [BeastHttpClient] of http/beast_transport.cc;
      BeastClientSpec.v: the traces of a send; BeastRetries.v: sends under a
      retry policy; BeastPool.v: concurrent sends on the shared pool.
    - BeastWire.v: the messages of [BeastServerTransport], the subprotocol offer
      and the ALPN choice; BeastServer.v: the server, one definition per
      completion handler, and [perform], which runs one of them;
      BeastServerSteps.v: each action as a step of a relation on the state
      without its environment; BeastServerSpec.v: counts, drain, abort of
      sessions, bound on the work after [Stop].  BeastDial.v:
      [BeastWebSocketClient], the dial of a session.
    - SessionHandles.v: the shared handles of an event-stream session;
      EventSessions.v: the WebSocket interface, the JSON-RPC socket over it,
      typed event streams and the awaitables of
      eventstream/async_event_stream.h.

    ** What the theorems show

    - Codecs are exact: the event-stream decoder accepts a buffer if and only
      if it starts with an encoding of the message it returns, its answer does
      not change when more bytes arrive, and no bit flip caught by the CRC
      passes; base64 decodes exactly the image of the encoder; CBOR documents,
      the three timestamp formats, request targets, HTTP/1.1 messages and
      trace parents round-trip.  Each encoder theorem states the bounds it
      needs.
    - Untrusted input is contained: every parser is total on all inputs, message
      framing admits one reading of a request (no smuggling), header checks
      stop injection, and an address outside the trusted proxies cannot be
      forged through x-forwarded-for.
    - Regular expressions: patterns parse within a fuel computed from their
      length, the compiled program is well formed and bounded, [Search] answers
      exactly whether a substring matches, in time linear in the text.
    - Routing: the most specific matching pattern is chosen, the table refuses
      ambiguous patterns, and an answer of 404 or 405 means what it says.
    - Retries: the attempts and delays of a call are a prefix of the policy's
      schedule, delays are bounded, and a streaming sink starts at most once.
    - Concurrency: on every interleaving of lock regions, the WebSocket pair
      delivers in order, completes every call once, loses no wakeup and drains
      before a close; the registry bounds its queues, has one deliverer per
      session, keeps reliable events in order, reports each expiry once, and
      lets a waiting [Resume] through.
    - The socket transport: however the two streams are cut, a request gets one
      guarded call of the handler and the client reads back the framing of its
      answer.
    - Server pipeline: no chain of the middlewares lets an unauthenticated
      request through, observations are paired even through exceptions, probes
      and handlers that throw are contained, every request carries one trace
      identity, and an access-log line is read back as the fields it was made
      of, whatever bytes they hold.
    - Documents on text wires: JSON documents round-trip up to what JSON has no
      node for, typed values survive both wires, and the JSON and JSON-RPC
      event-stream frames carry the messages of the binary wire, accept exactly
      their grammar, and answer every violation.
    - Metrics: the registry's families stay consistent under every operation
      (counters do not fall, buckets add up, kinds and label sets agree), and
      the page served is that state, whatever the labels hold.
    - WebSocket sessions: each wire has at most one operation of a kind
      outstanding, calls complete once with the messages in order, a close
      leaves a waiting receive to its deadline, every waiter has something that
      will wake it; handles never outlive their session; a JSON-RPC socket is a
      socket of event messages that answers violations; an await resumes once.
    - A generated service: a client's call over any faithful transport is the
      handler's answer, errors included, and its pages end.
    - The Beast client: a send's trace is one that its specification allows, a
      body that reached the caller is never sent for again, no connection is
      shared by two sends.
    - The Beast server: connections are counted and capped and the accept loop
      goes on, [Stop] waits for exactly the pending responses, every session is
      aborted whatever the race, the work left once it stops is bounded, and an
      answer's framing, its Connection field included, is the transport's.  A dialer and a server agree on the wire
      of the session.

    ** Conventions of the model

    Bytes are [Byte.byte], a [string_view] is the list of its bytes, a cursor
    is the unread suffix.  Fixed-width integers are [Z] with [wrap] where the
    code can wrap; sizes are [Z] or [nat].  An [Outcome] carries either a value
    or an [Error], whose message is the code's.  A recursion that is not
    structural takes fuel: the parser of patterns [parse_fuel] (four per byte:
    each nested call of the four mutually recursive methods consumes a byte
    within that many calls), the closure of the VM [closure_fuel] (two entries
    per instruction are pushed at most), loops over text the text's length (each
    turn consumes a byte), CBOR nesting its 128-level limit, the retry loop the
    policy's attempts, the admission loop the deadline divided by its interval;
    where running out would be visible a theorem shows it does not happen.
    Doubles are [spec_float]s of the standard library, or 64-bit patterns where
    the code only moves them.

    ** What is a parameter

    Code outside src/ is an argument of the model.  The address functions
    [inet_pton] and [inet_ntop] are the class [Forwarded.InetLib] with laws
    [InetLaws]; transports, interceptors, sinks, sleeping and jitter are
    functions on an abstract world in Retry.v; random engines are the lists of
    words they yield; byte sources are the sequences of results their reads
    return; sockets under the registry answer as the step says; time is a
    number each step may advance.  [strtod] is modelled as a correctly rounded
    conversion, the library function the language documents.
    nlohmann's parser and serializer are the class [Json.JsonLib]; the frames
    see a JSON codec only through [Envelope.JsonCodec] and its laws, which
    [Envelope.json_codec_laws] derives from the library's; [getnameinfo] and
    [std::to_chars] are functions; handlers, probes and observation callbacks
    are arbitrary computations of [Effects].
    Boost.Asio and Beast are the records [BeastClient.Beast],
    [BeastServer.Asio] and [BeastDial.DialLib] and the class [BeastWire.Messages], whose laws
    [MessageLaws] are the documented behaviour of [bhttp::message]; the
    completions that Beast reports are the actions of the machines.  The
    WebSocket under a JSON-RPC socket or a typed stream is the record
    [EventSessions.WebSocket], the transport under a generated client the class
    [Transports.Transport].

    ** What is not modelled

    Memory ordering, allocation failure, timers as such (a deadline is an error
    its operation may report at any time) and destructors' timing.  Of
    http/beast_transport.cc: the join of threads after [Stop] has halted the
    executors, the thread of a dialed session, and what Beast throws while a client
    request is laid out (the send contains it as a failure of its own).
    compression/gzip.cc drives zlib's stream object.  The coroutine types of
    eventstream/stream_task.h, debug printing, hashing and the small value
    wrappers of core/ have no behaviour beyond the language's.  The transport
    factory of client/config.h picks a library client.  Of the generated code
    the weather service stands for the others: protocol tests and the other
    examples are outputs of the same templates.  The code generator is Java.
*)
From Stdlib Require Import ZArith Lia String.
From Stdlib Require Import Strings.Byte.
From stdpp Require Export base numbers option sets list.

Export String.StringSyntax.
Local Open Scope Z_scope.

Declare Scope opal_scope.
Delimit Scope opal_scope with opal.
Create HintDb opal discriminated.

(** [lia] also decides goals with division and remainder by constants. *)
#[export] Ltac Zify.zify_post_hook ::= Z.to_euclidean_division_equations.

(** ** Bytes *)

Abbreviation bytes := (list Byte.byte).

#[global] Instance byte_eq_dec : EqDecision Byte.byte := Byte.byte_eq_dec.
#[global] Instance byte_inhabited : Inhabited Byte.byte := populate Byte.x00.

(** The unsigned value of a byte, and [static_cast<std::uint8_t>]: reduction
    modulo 256 of an integer. *)
Definition b2z (b : Byte.byte) : Z := Z.of_N (Byte.to_N b).

Definition z2b (z : Z) : Byte.byte :=
  match Byte.of_N (Z.to_N (z mod 256)) with Some b => b | None => Byte.x00 end.

Lemma b2z_range b : 0 <= b2z b < 256.
Proof. unfold b2z. pose proof (Byte.to_N_bounded b). lia. Qed.

Lemma z2b_b2z b : z2b (b2z b) = b.
Proof.
  unfold z2b. rewrite Z.mod_small by apply b2z_range.
  unfold b2z. rewrite N2Z.id, Byte.of_to_N. done.
Qed.

Lemma b2z_z2b z : b2z (z2b z) = z mod 256.
Proof.
  pose proof (Z.mod_pos_bound z 256 eq_refl) as Hb.
  unfold z2b. destruct (Byte.of_N _) as [b|] eqn:E.
  - unfold b2z. apply Byte.to_of_N in E. rewrite E. lia.
  - apply Byte.of_N_None_iff in E. lia.
Qed.

Lemma b2z_z2b_small z : 0 <= z < 256 -> b2z (z2b z) = z.
Proof. intros H. rewrite b2z_z2b. by apply Z.mod_small. Qed.

#[global] Instance b2z_inj : Inj (=) (=) b2z.
Proof. intros x y H. rewrite <- (z2b_b2z x), <- (z2b_b2z y). by f_equal. Qed.

Lemma b2z_eq_iff x y : b2z x = b2z y <-> x = y.
Proof. split; [apply b2z_inj | by intros ->]. Qed.

Lemma z2b_mod z : z2b (z mod 256) = z2b z.
Proof. unfold z2b. by rewrite Z.mod_mod. Qed.

(** Byte equality as the code's [==] on [char]. *)
Definition byte_eqb (x y : Byte.byte) : bool := Z.eqb (b2z x) (b2z y).

Lemma byte_eqb_spec x y : reflect (x = y) (byte_eqb x y).
Proof.
  unfold byte_eqb. destruct (Z.eqb_spec (b2z x) (b2z y)) as [E|E]; constructor.
  - by apply b2z_inj.
  - intros ->. congruence.
Qed.

Lemma byte_eqb_eq x y : byte_eqb x y = true <-> x = y.
Proof. destruct (byte_eqb_spec x y); naive_solver. Qed.

Lemma byte_eqb_refl x : byte_eqb x x = true.
Proof. by apply byte_eqb_eq. Qed.

(** Reflection over the 256 bytes: a boolean fact checked on all of them. *)
Definition all_bytes : bytes := (fun n => z2b (Z.of_nat n)) <$> seq 0 256.

Lemma elem_of_all_bytes b : b ∈ all_bytes.
Proof.
  apply list_elem_of_fmap. pose proof (b2z_range b).
  exists (Z.to_nat (b2z b)). split.
  - rewrite Z2Nat.id by lia. by rewrite z2b_b2z.
  - apply elem_of_seq. lia.
Qed.

Lemma byte_forall (p : Byte.byte -> bool) :
  forallb p all_bytes = true -> forall b, p b = true.
Proof.
  intros H b. rewrite forallb_forall in H. apply H.
  apply list_elem_of_In, elem_of_all_bytes.
Qed.

Lemma byte_implb (p q : Byte.byte -> bool) :
  forallb (fun b => implb (p b) (q b)) all_bytes = true -> forall b, p b = true -> q b = true.
Proof. intros H b Hp. pose proof (byte_forall _ H b) as Hb. simpl in Hb. by rewrite Hp in Hb. Qed.

(** String literals of the source. *)
Definition lit (s : string) : bytes := String.list_byte_of_string s.
Arguments lit s%_string : simpl never.

(** [std::string::size()]. *)
Definition len {A} (l : list A) : Z := Z.of_nat (length l).

(** ** Errors and outcomes (core/error.h, core/outcome.h) *)

Inductive ErrorKind := kTransport | kSerialization | kValidation | kModeled | kUnknown.

#[global] Instance ErrorKind_eq_dec : EqDecision ErrorKind.
Proof. solve_decision. Defined.

(** [Error] without its [detail_] payload, which [operator==] ignores. *)
Record Error := mkError {
  err_kind : ErrorKind;
  err_code : bytes;
  err_message : bytes;
  err_retryable : bool
}.

#[global] Instance Error_eq_dec : EqDecision Error.
Proof. solve_decision. Defined.

Definition Error_Transport (message : bytes) (retryable : bool) : Error :=
  mkError kTransport (lit "TransportError") message retryable.
Definition Error_Timeout (message : bytes) : Error :=
  mkError kTransport (lit "TimeoutError") message true.
Definition Error_Serialization (message : bytes) : Error :=
  mkError kSerialization (lit "SerializationError") message false.
Definition Error_Validation (message : bytes) : Error :=
  mkError kValidation (lit "ValidationError") message false.
Definition Error_Modeled (code message : bytes) (retryable : bool) : Error :=
  mkError kModeled code message retryable.
Definition Error_Unknown (message : bytes) : Error :=
  mkError kUnknown (lit "UnknownError") message false.

(** [Outcome<T>]: a value or an error, as a monad whose bind is the code's
    [if (!x) return std::move(x).error();]. *)
Inductive Outcome (A : Type) : Type :=
| Ok (a : A)
| Err (e : Error).
Arguments Ok {A} _.
Arguments Err {A} _.

#[global] Instance Outcome_ret : MRet Outcome := fun A a => Ok a.
#[global] Instance Outcome_bind : MBind Outcome := fun A B f m =>
  match m with Ok a => f a | Err e => Err e end.
#[global] Instance Outcome_fmap : FMap Outcome := fun A B f m =>
  match m with Ok a => Ok (f a) | Err e => Err e end.

#[global] Instance Outcome_eq_dec `{EqDecision A} : EqDecision (Outcome A).
Proof. solve_decision. Defined.

Lemma Ok_inj {A} (a b : A) : Ok a = Ok b -> a = b.
Proof. congruence. Qed.

Definition is_ok {A} (m : Outcome A) : bool :=
  match m with Ok _ => true | Err _ => false end.

(** [guard_err c e k]: the early return [if (c) return e;] before [k]. *)
Notation "'fail_if' c 'with' e ; k" := (if c then Err e else k)
  (at level 100, c at level 99, e at level 99, k at level 200,
   right associativity, format "'fail_if'  c  'with'  e ;  '/' k") : opal_scope.

Lemma bind_Ok {A B} (m : Outcome A) (f : A -> Outcome B) b :
  (m ≫= f) = Ok b <-> exists a, m = Ok a /\ f a = Ok b.
Proof. destruct m; simpl; naive_solver. Qed.

Lemma bind_Err {A B} (m : Outcome A) (f : A -> Outcome B) e :
  (m ≫= f) = Err e <-> m = Err e \/ exists a, m = Ok a /\ f a = Err e.
Proof. destruct m; simpl; naive_solver. Qed.

(** What a codec promises to the layers that ride on it: decoding what was
    encoded gives the value back, on the values the codec supports. *)
Class Codec {A B : Type} (enc : A -> Outcome B) (dec : B -> Outcome A) (wf : A -> Prop) :=
  codec_roundtrip : forall a b, wf a -> enc a = Ok b -> dec b = Ok a.

Lemma codec_enc_inj `{Codec A B enc dec wf} a a' b :
  wf a -> wf a' -> enc a = Ok b -> enc a' = Ok b -> a = a'.
Proof.
  intros Ha Ha' E E'.
  apply codec_roundtrip in E; [|done]. apply codec_roundtrip in E'; [|done]. congruence.
Qed.

(** ** Tactics *)

(** Inverts the equations [_ = Ok _] that a run through the monad leaves. *)
Ltac outcome_inv :=
  repeat match goal with
  | H : Ok _ = Ok _ |- _ => injection H as H; subst
  | H : Err _ = Ok _ |- _ => discriminate H
  | H : Ok _ = Err _ |- _ => discriminate H
  | H : (_ ≫= _) = Ok _ |- _ => apply bind_Ok in H; destruct H as (? & ? & ?)
  | H : (if ?c then Err _ else _) = Ok _ |- _ => let E := fresh "E" in destruct c eqn:E; [discriminate H|]
  end.

(** Turns the boolean comparisons of the code into propositions. *)
Ltac zbool :=
  repeat match goal with
  | H : _ && _ = true |- _ => apply andb_prop in H; destruct H
  | H : _ || _ = false |- _ => apply orb_false_elim in H; destruct H
  | H : negb _ = true |- _ => apply negb_true_iff in H
  | H : negb _ = false |- _ => apply negb_false_iff in H
  | H : (_ =? _) = true |- _ => apply Z.eqb_eq in H
  | H : (_ =? _) = false |- _ => apply Z.eqb_neq in H
  | H : (_ <? _) = true |- _ => apply Z.ltb_lt in H
  | H : (_ <? _) = false |- _ => apply Z.ltb_ge in H
  | H : (_ <=? _) = true |- _ => apply Z.leb_le in H
  | H : (_ <=? _) = false |- _ => apply Z.leb_gt in H
  | H : (_ >? _) = true |- _ => rewrite Z.gtb_ltb in H
  | H : (_ >? _) = false |- _ => rewrite Z.gtb_ltb in H
  | H : (_ >=? _) = true |- _ => rewrite Z.geb_leb in H
  | H : (_ >=? _) = false |- _ => rewrite Z.geb_leb in H
  end.

(** Evaluates the comparisons of closed integers in the goal. *)
Ltac zeval_term t :=
  let v := eval vm_compute in t in
  match v with true => change t with true | false => change t with false end.
Ltac zeval :=
  repeat match goal with
  | |- context [?a <? ?b] => zeval_term (a <? b)
  | |- context [?a <=? ?b] => zeval_term (a <=? b)
  | |- context [?a =? ?b] => zeval_term (a =? b)
  end.

(** ** Machine integers *)

Definition wrap (w : Z) (z : Z) : Z := z mod 2 ^ w.

(** [static_cast<std::intN_t>]: two's complement. *)
Definition swrap (w : Z) (z : Z) : Z := (z + 2 ^ (w - 1)) mod 2 ^ w - 2 ^ (w - 1).

Lemma pow2_pos w : 0 <= w -> 0 < 2 ^ w.
Proof. intros. by apply Z.pow_pos_nonneg. Qed.

Lemma wrap_range w z : 0 <= w -> 0 <= wrap w z < 2 ^ w.
Proof. intros H. apply Z.mod_pos_bound. by apply pow2_pos. Qed.

Lemma wrap_small w z : 0 <= z < 2 ^ w -> wrap w z = z.
Proof. apply Z.mod_small. Qed.

Lemma pow2_half w : 0 < w -> 2 ^ w = 2 * 2 ^ (w - 1).
Proof. intros. replace w with (Z.succ (w - 1)) at 1 by lia. rewrite Z.pow_succ_r; lia. Qed.

Lemma swrap_range w z : 0 < w -> - 2 ^ (w - 1) <= swrap w z < 2 ^ (w - 1).
Proof.
  intros H. unfold swrap.
  pose proof (Z.mod_pos_bound (z + 2 ^ (w - 1)) (2 ^ w) (pow2_pos w ltac:(lia))).
  pose proof (pow2_half w H). lia.
Qed.

Lemma swrap_small w z : 0 < w -> - 2 ^ (w - 1) <= z < 2 ^ (w - 1) -> swrap w z = z.
Proof.
  intros H Hz. unfold swrap. pose proof (pow2_half w H). rewrite Z.mod_small; lia.
Qed.

Lemma swrap_wrap w z : 0 < w -> swrap w (wrap w z) = swrap w z.
Proof.
  intros H. unfold swrap, wrap. f_equal. rewrite Zplus_mod_idemp_l. done.
Qed.

Lemma wrap_swrap w z : 0 < w -> wrap w (swrap w z) = wrap w z.
Proof.
  intros H. unfold swrap, wrap. rewrite Zminus_mod_idemp_l. f_equal. lia.
Qed.

Lemma len_app {A} (a b : list A) : len (a ++ b) = len a + len b.
Proof. unfold len. rewrite length_app. lia. Qed.

Lemma len_cons {A} (x : A) l : len (x :: l) = 1 + len l.
Proof. unfold len. simpl length. lia. Qed.

Lemma len_nonneg {A} (l : list A) : 0 <= len l.
Proof. unfold len. lia. Qed.

#[export] Hint Rewrite @len_app @len_cons : len.

(** [n]-bit values: bitwise characterisation and closure under [xor]. *)
Lemma bits_bound n a :
  0 <= n -> (0 <= a < 2 ^ n <-> 0 <= a /\ forall i, n <= i -> Z.testbit a i = false).
Proof.
  intros Hn. split.
  - intros [H0 H1]. split; [done|]. intros i Hi.
    rewrite <- (Z.mod_small a (2 ^ n)) by lia. by apply Z.mod_pow2_bits_high; lia.
  - intros [H0 H1]. split; [done|].
    assert (E : a = a mod 2 ^ n).
    { apply Z.bits_inj'. intros i Hi. destruct (Z.ltb_spec i n).
      - by rewrite Z.mod_pow2_bits_low by lia.
      - rewrite Z.mod_pow2_bits_high by lia. by apply H1. }
    rewrite E. apply Z.mod_pos_bound, pow2_pos. done.
Qed.

Lemma lxor_range n a b :
  0 <= n -> 0 <= a < 2 ^ n -> 0 <= b < 2 ^ n -> 0 <= Z.lxor a b < 2 ^ n.
Proof.
  intros Hn Ha Hb. apply bits_bound in Ha as [Ha Ha']; [|done].
  apply bits_bound in Hb as [Hb Hb']; [|done]. apply bits_bound; [done|]. split.
  - apply Z.lxor_nonneg. tauto.
  - intros i Hi. by rewrite Z.lxor_spec, Ha', Hb'.
Qed.

Lemma shiftr_range n k a : 0 <= k <= n -> 0 <= a < 2 ^ n -> 0 <= Z.shiftr a k < 2 ^ (n - k).
Proof.
  intros Hk Ha. rewrite Z.shiftr_div_pow2 by lia. split.
  - apply Z.div_pos; [lia|]. apply pow2_pos. lia.
  - apply Z.div_lt_upper_bound; [apply pow2_pos; lia|].
    rewrite <- Z.pow_add_r by lia. replace (k + (n - k)) with n by lia. lia.
Qed.

Lemma forallb_Forall {A} (p : A -> bool) l :
  forallb p l = true <-> Forall (fun x => p x = true) l.
Proof.
  induction l as [|x l IH]; simpl; [done|]. rewrite andb_true_iff, IH, Forall_cons. done.
Qed.

(** Concatenations equal up to associativity. *)
Ltac solve_app := repeat first [rewrite <- app_assoc | rewrite <- app_comm_cons]; reflexivity.
