(* ===== verification/Bytes.v ===== *)
(** Byte-string operations of the language library that the runtime uses:
    big-endian integers written and read byte by byte, and the searching,
    prefix, suffix and substring operations of [std::string_view].  A view is
    the list of its bytes; [substr(i, n)] is [take n (drop i s)] and a cursor
    into a buffer is the unread suffix. *)
From Stdlib Require Import ZArith Lia.
From S2P Require Import Prelude.

Local Open Scope Z_scope.

(** ** Big-endian integers *)

(** [for (shift = (n-1)*8; shift >= 0; shift -= 8) push_back(v >> shift)]. *)
Fixpoint be_bytes (n : nat) (v : Z) : bytes :=
  match n with
  | O => []
  | S m => z2b (Z.shiftr v (8 * Z.of_nat m)) :: be_bytes m v
  end.

(** [for (byte : bytes) value = (value << 8) | byte] on a [uint64_t]. *)
Definition be_step (value : Z) (b : Byte.byte) : Z :=
  Z.lor (wrap 64 (Z.shiftl value 8)) (b2z b).

Definition be_value (l : bytes) : Z := fold_left be_step l 0.

Lemma length_be_bytes n v : length (be_bytes n v) = n.
Proof. induction n; simpl; auto. Qed.

(** Disjoint bit ranges: [(v << k) | b] is addition when [b] has [k] bits. *)
Lemma lor_shiftl v k b : 0 <= k -> 0 <= b < 2 ^ k -> Z.lor (Z.shiftl v k) b = v * 2 ^ k + b.
Proof.
  intros Hk Hb.
  assert (E : Z.land (Z.shiftl v k) b = 0).
  { apply Z.bits_inj'. intros n Hn. rewrite Z.land_spec, Z.bits_0, Z.shiftl_spec by lia.
    destruct (Z.ltb_spec n k).
    - rewrite (Z.testbit_neg_r v) by lia. done.
    - rewrite <- (Z.mod_small b (2 ^ k)) by lia.
      rewrite (Z.mod_pow2_bits_high b k n) by lia. apply andb_false_r. }
  rewrite <- Z.lxor_lor by done. rewrite <- Z.add_nocarry_lxor by done.
  by rewrite Z.shiftl_mul_pow2.
Qed.

Lemma lor_shift8 v b : 0 <= b < 256 -> Z.lor (Z.shiftl v 8) b = v * 256 + b.
Proof. intros. apply (lor_shiftl v 8 b); lia. Qed.

(** The fold as arithmetic, while the accumulator fits. *)
Lemma be_fold_arith l acc :
  0 <= acc -> acc < 2 ^ (64 - 8 * Z.of_nat (length l)) -> (length l <= 8)%nat ->
  fold_left be_step l acc = fold_left (fun v b => v * 256 + b2z b) l acc.
Proof.
  revert acc. induction l as [|b l IH]; intros acc H0 H1 Hl; [done|].
  simpl in *.
  assert (E64 : acc * 256 + 255 < 2 ^ (64 - 8 * Z.of_nat (length l))).
  { replace (64 - 8 * Z.of_nat (length l))
      with (8 + (64 - 8 * Z.of_nat (S (length l)))) by lia.
    rewrite Z.pow_add_r by lia. change (2 ^ 8) with 256. lia. }
  assert (Hle : 2 ^ (64 - 8 * Z.of_nat (length l)) <= 2 ^ 64)
    by (apply Z.pow_le_mono_r; lia).
  assert (Es : be_step acc b = acc * 256 + b2z b).
  { unfold be_step. rewrite wrap_small.
    - apply lor_shift8, b2z_range.
    - rewrite Z.shiftl_mul_pow2 by lia. change (2 ^ 8) with 256. lia. }
  rewrite Es. pose proof (b2z_range b). apply IH; lia.
Qed.

Lemma fold_arith_be n v acc :
  fold_left (fun v b => v * 256 + b2z b) (be_bytes n v) acc
  = acc * 2 ^ (8 * Z.of_nat n) + v mod 2 ^ (8 * Z.of_nat n).
Proof.
  revert acc. induction n as [|n IH]; intros acc.
  - simpl. rewrite Z.mod_1_r. lia.
  - cbn [be_bytes fold_left]. rewrite IH, b2z_z2b.
    replace (8 * Z.of_nat (S n)) with (8 * Z.of_nat n + 8) by lia.
    rewrite Z.pow_add_r by lia. change (2 ^ 8) with 256.
    rewrite Z.shiftr_div_pow2 by lia.
    pose proof (pow2_pos (8 * Z.of_nat n) ltac:(lia)).
    rewrite (Z.rem_mul_r v (2 ^ (8 * Z.of_nat n)) 256) by lia. lia.
Qed.

Lemma be_value_be_bytes n v :
  (n <= 8)%nat -> be_value (be_bytes n v) = v mod 2 ^ (8 * Z.of_nat n).
Proof.
  intros Hn. unfold be_value. rewrite be_fold_arith, fold_arith_be; [lia|lia| |].
  - apply pow2_pos. rewrite length_be_bytes. lia.
  - rewrite length_be_bytes. lia.
Qed.

Lemma be_value_small n v :
  (n <= 8)%nat -> 0 <= v < 2 ^ (8 * Z.of_nat n) -> be_value (be_bytes n v) = v.
Proof. intros. rewrite be_value_be_bytes by done. by apply Z.mod_small. Qed.

Lemma be_value_range l :
  (length l <= 8)%nat -> 0 <= be_value l < 2 ^ (8 * len l).
Proof.
  intros Hl. unfold be_value. rewrite be_fold_arith; [|lia| |lia].
  2:{ apply pow2_pos. lia. }
  clear Hl. unfold len. induction l as [|b l IH] using rev_ind; [simpl; lia|].
  rewrite fold_left_app, length_app. simpl. pose proof (b2z_range b).
  replace (8 * Z.of_nat (length l + 1)) with (8 * Z.of_nat (length l) + 8) by lia.
  rewrite Z.pow_add_r by lia. change (2 ^ 8) with 256. lia.
Qed.

Lemma be_bytes_mod n v : be_bytes n (v mod 2 ^ (8 * Z.of_nat n)) = be_bytes n v.
Proof.
  assert (H : forall k m, (m <= k)%nat ->
    be_bytes m (v mod 2 ^ (8 * Z.of_nat k)) = be_bytes m v).
  { intros k m. induction m as [|m IH]; intros Hm; [done|].
    cbn [be_bytes]. rewrite IH by lia. f_equal.
    rewrite <- (z2b_mod (Z.shiftr v _)), <- z2b_mod. f_equal.
    change 256 with (2 ^ 8). rewrite <- !Z.land_ones by lia.
    apply Z.bits_inj'. intros i Hi.
    rewrite !Z.land_spec, !Z.shiftr_spec, Z.land_spec by lia.
    destruct (Z.ltb_spec i 8).
    - rewrite (Z.ones_spec_low (8 * Z.of_nat k)) by lia. by rewrite andb_true_r.
    - rewrite (Z.ones_spec_high 8) by lia. by rewrite !andb_false_r. }
  by apply H.
Qed.

Lemma be_bytes_be_value l : (length l <= 8)%nat -> be_bytes (length l) (be_value l) = l.
Proof.
  intros Hl. unfold be_value. rewrite be_fold_arith; [|lia| |lia].
  2:{ apply pow2_pos. lia. }
  clear Hl.
  assert (Hb : forall n v x, be_bytes (S n) (v * 256 + b2z x) = be_bytes n v ++ [x]).
  { intros n v x. pose proof (b2z_range x) as Hx.
    induction n as [|n IH].
    - simpl. rewrite Z.shiftr_0_r, <- z2b_mod.
      rewrite Z.add_comm, Z.mod_add by lia. by rewrite z2b_mod, z2b_b2z.
    - change (be_bytes (S (S n)) (v * 256 + b2z x)) with
        (z2b (Z.shiftr (v * 256 + b2z x) (8 * Z.of_nat (S n))) :: be_bytes (S n) (v * 256 + b2z x)).
      rewrite IH. cbn [be_bytes app]. do 2 f_equal.
      replace (8 * Z.of_nat (S n)) with (8 + 8 * Z.of_nat n) by lia.
      rewrite <- Z.shiftr_shiftr by lia. f_equal.
      rewrite Z.shiftr_div_pow2 by lia. change (2 ^ 8) with 256.
      rewrite Z.div_add_l by lia. rewrite Z.div_small; lia. }
  induction l as [|b l IH] using rev_ind; [done|].
  rewrite fold_left_app, length_app. simpl.
  replace (length l + 1)%nat with (S (length l)) by lia. by rewrite Hb, IH.
Qed.

(** ** Searching *)

Definition is_byte (c b : Byte.byte) : bool := byte_eqb b c.

Fixpoint find_if (p : Byte.byte -> bool) (s : bytes) : option nat :=
  match s with
  | [] => None
  | b :: s' => if p b then Some O else S <$> find_if p s'
  end.

(** [s.find(c)]; [None] is [npos]. *)
Definition find_byte (c : Byte.byte) (s : bytes) : option nat := find_if (is_byte c) s.

(** [s.rfind(c)]. *)
Definition rfind_byte (c : Byte.byte) (s : bytes) : option nat :=
  (fun i => (length s - 1 - i)%nat) <$> find_byte c (reverse s).

Fixpoint starts_with (p s : bytes) : bool :=
  match p, s with
  | [], _ => true
  | _, [] => false
  | x :: p', y :: s' => byte_eqb x y && starts_with p' s'
  end.

(** [s.find(pat)] for a byte string. *)
Fixpoint find_sub (pat s : bytes) : option nat :=
  if starts_with pat s then Some O else
  match s with
  | [] => None
  | _ :: s' => S <$> find_sub pat s'
  end.

(** [while (!s.empty() && p(s.front())) s.remove_prefix(1);] *)
Fixpoint drop_while (p : Byte.byte -> bool) (s : bytes) : bytes :=
  match s with
  | [] => []
  | b :: s' => if p b then drop_while p s' else s
  end.

(** [while (!s.empty() && p(s.back())) s.remove_suffix(1);] *)
Definition rdrop_while (p : Byte.byte -> bool) (s : bytes) : bytes :=
  reverse (drop_while p (reverse s)).

Definition ends_with_byte (c : Byte.byte) (s : bytes) : bool :=
  match last s with Some b => byte_eqb b c | None => false end.

Definition bytes_eqb (a b : bytes) : bool := bool_decide (a = b).

(** A literal of the source that holds double quotes, written with single
    ones. *)
Definition quoted (text : bytes) : bytes := map (fun c => if byte_eqb c Byte.x27 then Byte.x22 else c) text.

Abbreviation quoted_lit s := (quoted (lit s)).

Lemma bytes_eqb_eq a b : bytes_eqb a b = true <-> a = b.
Proof. unfold bytes_eqb. by rewrite bool_decide_eq_true. Qed.

Lemma find_if_Some p s i :
  find_if p s = Some i <->
  exists pre b post, s = pre ++ b :: post /\ length pre = i /\ p b = true
    /\ Forall (fun x => p x = false) pre.
Proof.
  revert i. induction s as [|x s IH]; intros i; simpl.
  - split; [done|]. intros ([|? ?] & ? & ? & ? & ?); done.
  - destruct (p x) eqn:E.
    + split.
      * intros [= <-]. exists [], x, s. auto.
      * intros (pre & b & post & H & <- & Hb & Hf).
        destruct pre as [|y pre]; simpl in *; [done|].
        injection H as <- ->. apply Forall_cons in Hf as [Hf _]. congruence.
    + rewrite fmap_Some. split.
      * intros (j & Hj & ->). apply IH in Hj as (pre & b & post & -> & <- & Hb & Hf).
        exists (x :: pre), b, post. rewrite Forall_cons. auto.
      * intros (pre & b & post & H & <- & Hb & Hf).
        destruct pre as [|y pre]; simpl in *.
        { injection H as <- <-. congruence. }
        injection H as <- ->. apply Forall_cons in Hf as [_ Hf].
        exists (length pre). split; [|done]. apply IH. eauto 10.
Qed.

Lemma find_if_None p s :
  find_if p s = None <-> Forall (fun x => p x = false) s.
Proof.
  induction s as [|x s IH]; simpl; [done|].
  rewrite Forall_cons. destruct (p x) eqn:E; [naive_solver|].
  rewrite fmap_None, IH. naive_solver.
Qed.

Lemma is_byte_eq c b : is_byte c b = true <-> b = c.
Proof. apply byte_eqb_eq. Qed.

Lemma is_byte_false c s : Forall (fun x => is_byte c x = false) s <-> c ∉ s.
Proof.
  induction s as [|x s IH]; [split; [set_solver|done]|].
  rewrite Forall_cons, IH, not_elem_of_cons. unfold is_byte.
  destruct (byte_eqb_spec x c); naive_solver.
Qed.

Lemma find_byte_Some c s i :
  find_byte c s = Some i <->
  exists pre post, s = pre ++ c :: post /\ length pre = i /\ c ∉ pre.
Proof.
  unfold find_byte. rewrite find_if_Some. split.
  - intros (pre & b & post & -> & Hl & Hb & Hf).
    apply is_byte_eq in Hb as ->. apply is_byte_false in Hf. eauto.
  - intros (pre & post & -> & Hl & Hf). exists pre, c, post.
    rewrite is_byte_eq, is_byte_false. auto.
Qed.

Lemma find_byte_None c s : find_byte c s = None <-> c ∉ s.
Proof. unfold find_byte. by rewrite find_if_None, is_byte_false. Qed.

Lemma find_byte_app c pre post :
  c ∉ pre -> find_byte c (pre ++ c :: post) = Some (length pre).
Proof. intros H. apply find_byte_Some. eauto. Qed.

Lemma starts_with_spec p s : starts_with p s = true <-> exists t, s = p ++ t.
Proof.
  revert s. induction p as [|x p IH]; intros s; simpl.
  - split; [eauto|done].
  - destruct s as [|y s]; [naive_solver|].
    rewrite andb_true_iff, byte_eqb_eq, IH. naive_solver.
Qed.

Lemma find_sub_Some pat s i :
  find_sub pat s = Some i ->
  exists pre post, s = pre ++ pat ++ post /\ length pre = i.
Proof.
  revert i. induction s as [|x s IH]; intros i; cbn [find_sub];
    destruct (starts_with pat _) eqn:E.
  - intros [= <-]. apply starts_with_spec in E as [t Ht]. by exists [], t.
  - done.
  - intros [= <-]. apply starts_with_spec in E as [t Ht]. by exists [], t.
  - rewrite fmap_Some. intros (j & Hj & ->).
    apply IH in Hj as (pre & post & -> & <-). by exists (x :: pre), post.
Qed.

Lemma find_sub_first pat s i j :
  find_sub pat s = Some i -> starts_with pat (drop j s) = true -> (i <= j)%nat.
Proof.
  revert i j. induction s as [|x s IH]; intros i j; cbn [find_sub];
    destruct (starts_with pat _) eqn:E; try done; try (intros [= <-]; lia).
  rewrite fmap_Some. intros (k & Hk & ->) Hj.
  destruct j as [|j]; simpl in Hj; [congruence|].
  specialize (IH _ _ Hk Hj). lia.
Qed.

Lemma find_sub_None pat s j :
  find_sub pat s = None -> (j <= length s)%nat -> starts_with pat (drop j s) = false.
Proof.
  revert j. induction s as [|x s IH]; intros j; cbn [find_sub];
    destruct (starts_with pat _) eqn:E; try done.
  - intros _ Hj. by destruct j.
  - rewrite fmap_None. intros Hn Hj. destruct j as [|j]; [done|]. simpl in *. apply IH; [done|lia].
Qed.

Lemma drop_while_suffix p s :
  exists pre, s = pre ++ drop_while p s /\ Forall (fun b => p b = true) pre.
Proof.
  induction s as [|x s (pre & E & Hf)]; simpl; [by exists []|].
  destruct (p x) eqn:Ex; [|by exists []].
  exists (x :: pre). rewrite Forall_cons. simpl. split; [congruence|done].
Qed.

Lemma drop_while_head p s b : head (drop_while p s) = Some b -> p b = false.
Proof.
  induction s as [|x s IH]; simpl; [done|].
  destruct (p x) eqn:E; [done|]. simpl. congruence.
Qed.

Lemma drop_while_id p s :
  (forall b, head s = Some b -> p b = false) -> drop_while p s = s.
Proof. destruct s as [|x s]; simpl; [done|]. intros H. by rewrite (H x eq_refl). Qed.

(** ** Decimal text: [std::to_string] and digit loops *)

Definition is_digit (b : Byte.byte) : bool := (48 <=? b2z b) && (b2z b <=? 57).
Definition digit_byte (d : Z) : Byte.byte := z2b (48 + d).
Definition digit_value (b : Byte.byte) : Z := b2z b - 48.

Lemma is_digit_digit_byte d : 0 <= d <= 9 -> is_digit (digit_byte d) = true.
Proof. intros H. unfold is_digit, digit_byte. rewrite b2z_z2b_small by lia. lia. Qed.

Lemma digit_value_byte d : 0 <= d <= 9 -> digit_value (digit_byte d) = d.
Proof. intros H. unfold digit_value, digit_byte. rewrite b2z_z2b_small by lia. lia. Qed.

Lemma is_digit_range b : is_digit b = true -> 0 <= digit_value b <= 9.
Proof. unfold is_digit, digit_value. intros. zbool. lia. Qed.

Definition dec_value (s : bytes) : Z := fold_left (fun v c => v * 10 + digit_value c) s 0.

Fixpoint dec_aux (fuel : nat) (z : Z) (acc : bytes) : bytes :=
  match fuel with
  | O => acc
  | S f =>
    let acc' := digit_byte (z mod 10) :: acc in
    if z <? 10 then acc' else dec_aux f (z / 10) acc'
  end.

(** [std::to_string] of an unsigned integer: the fuel bounds its digits. *)
Definition to_string (z : Z) : bytes := dec_aux (S (Z.to_nat (Z.log2 z))) z [].

(** [%0<n>d] on a value of at most [n] digits. *)
Fixpoint pad_digits (n : nat) (z : Z) : bytes :=
  match n with
  | O => []
  | S m => pad_digits m (z / 10) ++ [digit_byte (z mod 10)]
  end.

Lemma dec_aux_acc fuel z acc : dec_aux fuel z acc = dec_aux fuel z [] ++ acc.
Proof.
  revert z acc. induction fuel as [|f IH]; intros z acc; [done|]. cbn [dec_aux].
  destruct (z <? 10); [done|].
  rewrite (IH _ (_ :: acc)), (IH _ [_]), <- app_assoc. done.
Qed.

Lemma dec_value_snoc s c : dec_value (s ++ [c]) = dec_value s * 10 + digit_value c.
Proof. unfold dec_value. by rewrite fold_left_app. Qed.

Lemma dec_aux_spec fuel z :
  0 <= z -> z < 2 ^ Z.of_nat fuel ->
  dec_value (dec_aux fuel z []) = z /\ Forall (fun c => is_digit c = true) (dec_aux fuel z []).
Proof.
  revert z. induction fuel as [|f IH]; intros z H0 H1.
  { simpl in H1. assert (z = 0) as -> by lia. done. }
  pose proof (Z.mod_pos_bound z 10 eq_refl).
  assert (Hd : is_digit (digit_byte (z mod 10)) = true) by (apply is_digit_digit_byte; lia).
  cbn [dec_aux]. destruct (Z.ltb_spec z 10).
  - split; [|by repeat constructor].
    cbn. rewrite digit_value_byte by lia. rewrite Z.mod_small; lia.
  - rewrite dec_aux_acc, dec_value_snoc, digit_value_byte by lia.
    rewrite Nat2Z.inj_succ, Z.pow_succ_r in H1 by lia.
    destruct (IH (z / 10)) as [E F].
    + apply Z.div_pos; lia.
    + apply Z.div_lt_upper_bound; lia.
    + rewrite E. split; [pose proof (Z_div_mod_eq_full z 10); lia|].
      apply Forall_app. by repeat constructor.
Qed.

Lemma to_string_spec z :
  0 <= z -> dec_value (to_string z) = z /\ Forall (fun c => is_digit c = true) (to_string z).
Proof.
  intros H. apply dec_aux_spec; [done|]. rewrite Nat2Z.inj_succ, Z2Nat.id by apply Z.log2_nonneg.
  destruct (Z.eq_dec z 0) as [->|]; [simpl; lia|]. apply Z.log2_spec. lia.
Qed.

Lemma to_string_nonempty z : to_string z <> [].
Proof. unfold to_string. cbn [dec_aux]. destruct (z <? 10); [done|]. rewrite dec_aux_acc. by destruct (dec_aux _ _ _). Qed.

Lemma length_pad_digits n z : length (pad_digits n z) = n.
Proof. revert z. induction n; intros; simpl; rewrite ?length_app, ?IHn; simpl; lia. Qed.

Lemma pad_digits_spec n z :
  0 <= z < 10 ^ Z.of_nat n ->
  dec_value (pad_digits n z) = z /\ Forall (fun c => is_digit c = true) (pad_digits n z).
Proof.
  revert z. induction n as [|n IH]; intros z H.
  - simpl in *. split; [unfold dec_value; simpl; lia|done].
  - rewrite Nat2Z.inj_succ, Z.pow_succ_r in H by lia.
    pose proof (Z.mod_pos_bound z 10 eq_refl).
    destruct (IH (z / 10)) as [E F].
    { split; [apply Z.div_pos; lia | apply Z.div_lt_upper_bound; lia]. }
    cbn [pad_digits]. rewrite dec_value_snoc, E, digit_value_byte by lia. split.
    + pose proof (Z_div_mod_eq_full z 10). lia.
    + apply Forall_app. split; [done|]. repeat constructor. apply is_digit_digit_byte; lia.
Qed.

#[global] Arguments be_bytes : simpl never.
#[global] Arguments to_string : simpl never.
#[global] Arguments pad_digits : simpl never.

(** ** Substrings *)

(** [s.substr(pos, n)]. *)
Definition substr (pos n : Z) (s : bytes) : bytes := take (Z.to_nat n) (drop (Z.to_nat pos) s).

Lemma substr_mid pos n a b c : len a = pos -> len b = n -> substr pos n (a ++ b ++ c) = b.
Proof.
  intros <- <-. unfold substr, len. rewrite !Nat2Z.id, drop_app_length, take_app_length. done.
Qed.

Lemma substr_tail pos n a b : len a = pos -> len b = n -> substr pos n (a ++ b) = b.
Proof. intros Ha Hb. rewrite <- (app_nil_r b) at 1. by apply substr_mid. Qed.

Lemma substr_head n a b : len a = n -> substr 0 n (a ++ b) = a.
Proof. intros H. by apply (substr_mid 0 n [] a b). Qed.

Lemma len_substr pos n s : 0 <= pos -> 0 <= n -> pos + n <= len s -> len (substr pos n s) = n.
Proof. unfold substr, len. intros. rewrite length_take, length_drop. lia. Qed.

(** A buffer cut at [n]. *)
Lemma substr_split n s : 0 <= n <= len s -> s = substr 0 n s ++ drop (Z.to_nat n) s.
Proof. intros H. unfold substr. by rewrite drop_0, take_drop. Qed.

Lemma substr_add pos n m s :
  0 <= pos -> 0 <= n -> 0 <= m -> substr pos (n + m) s = substr pos n s ++ substr (pos + n) m s.
Proof.
  intros. unfold substr. rewrite !Z2Nat.inj_add by lia.
  rewrite <- drop_drop. rewrite <- (take_drop (Z.to_nat n) (take (Z.to_nat n + Z.to_nat m) _)).
  rewrite take_take, Nat.min_l by lia. f_equal. rewrite skipn_firstn_comm. f_equal. lia.
Qed.

Lemma substr_app_l pos n s t :
  0 <= pos -> 0 <= n -> pos + n <= len s -> substr pos n (s ++ t) = substr pos n s.
Proof.
  intros. unfold substr, len in *. rewrite drop_app_le by lia.
  rewrite take_app_le; [done|]. rewrite length_drop. lia.
Qed.

(** ** Splitting at a separator *)

(** [find(c)] and the text before and after it; no rest when it is absent. *)
Definition cut (c : Byte.byte) (s : bytes) : bytes * option bytes :=
  match find_byte c s with
  | Some i => (take i s, Some (drop (S i) s))
  | None => (s, None)
  end.

(** The loop [while (!s.empty()) { ...find(c)...; if npos break;
    s.remove_prefix(i + 1); }]: the pieces it visits.  With [trailing] an empty
    rest after a separator is one more piece. *)
Fixpoint pieces_loop (fuel : nat) (trailing : bool) (c : Byte.byte) (s : bytes) : list bytes :=
  match fuel, s with
  | S fuel', _ :: _ =>
    match cut c s with
    | (piece, None) => [piece]
    | (piece, Some []) => if trailing then [piece; []] else [piece]
    | (piece, Some rest) => piece :: pieces_loop fuel' trailing c rest
    end
  | _, _ => []
  end.

Definition pieces (trailing : bool) (c : Byte.byte) (s : bytes) : list bytes :=
  pieces_loop (length s) trailing c s.

Fixpoint join (c : Byte.byte) (l : list bytes) : bytes :=
  match l with
  | [] => []
  | [s] => s
  | s :: l' => s ++ c :: join c l'
  end.

Lemma cut_app c a b : c ∉ a -> cut c (a ++ c :: b) = (a, Some b).
Proof.
  intros H. unfold cut. rewrite find_byte_app by done. rewrite take_app_length.
  replace (S (length a)) with (length a + 1)%nat by lia.
  rewrite <- drop_drop, drop_app_length. done.
Qed.

Lemma cut_none c s : c ∉ s -> cut c s = (s, None).
Proof. intros H. unfold cut. apply find_byte_None in H. by rewrite H. Qed.

Lemma cut_cases c s :
  (c ∉ s /\ cut c s = (s, None))
  \/ exists a b, s = a ++ c :: b /\ c ∉ a /\ cut c s = (a, Some b).
Proof.
  destruct (find_byte c s) as [i|] eqn:E.
  - right. apply find_byte_Some in E as (a & b & -> & _ & Ha). exists a, b.
    split; [done|]. split; [done|]. by apply cut_app.
  - left. apply find_byte_None in E. split; [done|]. by apply cut_none.
Qed.

Lemma join_cons c s l : l <> [] -> join c (s :: l) = s ++ c :: join c l.
Proof. by destruct l. Qed.

Lemma pieces_loop_fuel trailing c : forall fuel fuel' s,
  (length s <= fuel)%nat -> (length s <= fuel')%nat ->
  pieces_loop fuel trailing c s = pieces_loop fuel' trailing c s.
Proof.
  induction fuel as [|fuel IH]; intros [|fuel'] [|x s] H1 H2; simpl in H1, H2; try lia; try done.
  cbn [pieces_loop]. destruct (cut_cases c (x :: s)) as [[_ ->]|(a & b & E & _ & ->)]; [done|].
  destruct b as [|y b]; [done|]. f_equal. apply (f_equal length) in E.
  rewrite length_app in E. simpl in E. apply IH; simpl; lia.
Qed.

Lemma pieces_nil trailing c : pieces trailing c [] = [].
Proof. done. Qed.

Lemma pieces_step trailing c a y b :
  c ∉ a -> pieces trailing c (a ++ c :: y :: b) = a :: pieces trailing c (y :: b).
Proof.
  intros Ha. unfold pieces. destruct (a ++ c :: y :: b) as [|x s] eqn:E; [by destruct a|].
  cbn [length pieces_loop]. rewrite <- E, cut_app by done. f_equal.
  apply (f_equal length) in E. rewrite length_app in E. simpl in E.
  apply (pieces_loop_fuel trailing c _ (S (length b)) (y :: b)); simpl; lia.
Qed.

Lemma pieces_end trailing c a :
  c ∉ a -> pieces trailing c (a ++ [c]) = if trailing then [a; []] else [a].
Proof.
  intros Ha. unfold pieces. destruct (a ++ [c]) as [|x s] eqn:E; [by destruct a|].
  cbn [length pieces_loop]. by rewrite <- E, cut_app by done.
Qed.

Lemma pieces_last trailing c a : c ∉ a -> a <> [] -> pieces trailing c a = [a].
Proof.
  intros Ha Hne. unfold pieces. destruct a as [|x s] eqn:E; [done|]. cbn [length pieces_loop].
  by rewrite cut_none by done.
Qed.

(** Splitting what was joined: any list of pieces without the separator, but
    for the list whose join is empty. *)
Lemma pieces_join c l :
  Forall (fun s => c ∉ s) l -> l <> [[]] -> pieces true c (join c l) = l.
Proof.
  induction 1 as [|s l Hs Hl IH]; intros Hne; [done|].
  destruct l as [|s2 l]; [apply pieces_last; [done|congruence]|].
  rewrite join_cons by done. destruct (join c (s2 :: l)) as [|y b] eqn:E.
  - destruct s2 as [|z s2]; [|by destruct l]. destruct l; [|done]. by apply pieces_end.
  - rewrite pieces_step by done. f_equal. apply IH. intros [= -> ->]. done.
Qed.

Lemma pieces_join_nonempty c l :
  Forall (fun s => c ∉ s /\ s <> []) l -> pieces false c (join c l) = l.
Proof.
  induction 1 as [|s l [Hs Hn] Hl IH]; [done|].
  destruct l as [|s2 l]; [by apply pieces_last|].
  rewrite join_cons by done. destruct (join c (s2 :: l)) as [|y b] eqn:E.
  - apply Forall_cons in Hl as [[_ Hs2] _]. destruct s2; [done|]. by destruct l.
  - rewrite pieces_step by done. f_equal. done.
Qed.

Lemma mapM_Ok_map {A B C} (f : B -> Outcome C) (g : A -> B) (h : A -> C) l :
  (forall x, x ∈ l -> f (g x) = Ok (h x)) -> mapM f (map g l) = Ok (map h l).
Proof.
  induction l as [|x l IH]; intros H; [done|]. simpl. rewrite H by by left.
  simpl. rewrite IH; [done|]. intros y Hy. apply H. by right.
Qed.

(** Joining the pieces gives the text back; a text that does not end in the
    separator has a last piece that is not empty. *)
Lemma pieces_spec_len c : forall n s,
  (length s <= n)%nat -> s <> [] ->
  join c (pieces true c s) = s /\ Forall (fun p => c ∉ p) (pieces true c s)
    /\ pieces true c s <> []
    /\ (ends_with_byte c s = false -> last (pieces true c s) <> Some []).
Proof.
  induction n as [|n IH]; intros s Hn Hne; [by destruct s; simpl in *; [|lia]|].
  destruct (cut_cases c s) as [[Hc _]|(a & b & -> & Ha & _)].
  { rewrite pieces_last by done. split; [done|]. split; [by constructor|]. split; [done|].
    intros _. simpl. congruence. }
  destruct b as [|y b].
  { rewrite pieces_end by done. split; [done|]. split; [repeat constructor; [done|set_solver]|].
    split; [done|]. unfold ends_with_byte. rewrite last_snoc, byte_eqb_refl. done. }
  rewrite length_app in Hn. simpl in Hn.
  destruct (IH (y :: b) ltac:(simpl; lia) ltac:(done)) as (H1 & H2 & H3 & H4).
  rewrite pieces_step by done. rewrite join_cons, H1 by done. split; [done|].
  split; [by constructor|]. split; [done|]. intros He.
  assert (El : last (a ++ c :: y :: b) = last (y :: b)).
  { change (a ++ c :: y :: b) with (a ++ [c] ++ y :: b). rewrite app_assoc. by rewrite last_app_cons. }
  unfold ends_with_byte in *. rewrite El in He. specialize (H4 He).
  destruct (pieces true c (y :: b)); done.
Qed.

Lemma pieces_spec c s :
  s <> [] -> join c (pieces true c s) = s /\ Forall (fun p => c ∉ p) (pieces true c s)
    /\ pieces true c s <> []
    /\ (ends_with_byte c s = false -> last (pieces true c s) <> Some []).
Proof. by apply (pieces_spec_len c (length s)). Qed.
