(* ===== verification/Base64.v ===== *)
(** core/base64.cc: the base64 codec of blobs.  [Base64Encode] walks the bytes
    three at a time, [Base64Decode] the text four characters at a time through
    a 256-entry table; the theorems show that the decoder accepts exactly what
    the encoder emits. *)
From Stdlib Require Import ZArith Lia.
From S2P Require Import Prelude Bytes.

Local Open Scope Z_scope.

Definition kAlphabet : bytes :=
  lit "ABCDEFGHIJKLMNOPQRSTUVWXYZabcdefghijklmnopqrstuvwxyz0123456789+/".

(** [kAlphabet[i]] for an index below 64. *)
Definition alphabet_at (i : Z) : Byte.byte := kAlphabet !!! Z.to_nat i.

(** The table starts as 256 entries of -1; entry [kAlphabet[i]] becomes [i]. *)
Definition BuildDecodeTable : list Z :=
  fold_left (fun table i => <[Z.to_nat (b2z (alphabet_at i)) := i]> table)
    (Z.of_nat <$> seq 0 64) (replicate 256 (-1)).

Definition kDecode : list Z := Eval vm_compute in BuildDecodeTable.

Definition decode_char (c : Byte.byte) : Z := kDecode !!! Z.to_nat (b2z c).

Definition kPad : Byte.byte := Byte.x3d.

(** The sextet [(group >> shift) & 0x3F] as a character. *)
Definition sextet (group shift : Z) : Byte.byte :=
  alphabet_at (Z.land (Z.shiftr group shift) 63).

(** The three-byte group [b0 << 16 | b1 << 8 | b2]. *)
Definition group_of (b0 b1 b2 : Byte.byte) : Z :=
  Z.lor (Z.lor (Z.shiftl (b2z b0) 16) (Z.shiftl (b2z b1) 8)) (b2z b2).

Fixpoint Base64Encode (l : bytes) : bytes :=
  match l with
  | b0 :: b1 :: b2 :: rest =>
    let g := group_of b0 b1 b2 in
    sextet g 18 :: sextet g 12 :: sextet g 6 :: sextet g 0 :: Base64Encode rest
  | [b0; b1] =>
    let g := Z.lor (Z.shiftl (b2z b0) 16) (Z.shiftl (b2z b1) 8) in
    [sextet g 18; sextet g 12; sextet g 6; kPad]
  | [b0] =>
    let g := Z.shiftl (b2z b0) 16 in
    [sextet g 18; sextet g 12; kPad; kPad]
  | [] => []
  end.

(** The inner loop over the characters [j..3] of one group: [c3] is
    [text[i + 3]], the result the padding count and the 24-bit group. *)
Fixpoint group_loop (last : bool) (c3 : Byte.byte) (j : Z) (cs : bytes)
    (padding group : Z) : Outcome (Z * Z) :=
  match cs with
  | [] => Ok (padding, group)
  | c :: cs' =>
    if byte_eqb c kPad then
      if negb last || (j <? 2) || ((j =? 2) && negb (byte_eqb c3 kPad)) then
        Err (Error_Serialization (lit "base64: misplaced padding"))
      else group_loop last c3 (j + 1) cs' (padding + 1) (wrap 32 (Z.shiftl group 6))
    else
      let value := decode_char c in
      if value <? 0 then Err (Error_Serialization (lit "base64: invalid character"))
      else group_loop last c3 (j + 1) cs' padding
             (Z.lor (wrap 32 (Z.shiftl group 6)) value)
  end.

Definition group_bytes (padding group : Z) : bytes :=
  z2b (Z.land (Z.shiftr group 16) 255) ::
  (if padding <? 2 then [z2b (Z.land (Z.shiftr group 8) 255)] else []) ++
  (if padding <? 1 then [z2b (Z.land group 255)] else []).

(** The outer loop: the text after the size check, four characters a turn. *)
Fixpoint decode_loop (text : bytes) : Outcome bytes :=
  match text with
  | c0 :: c1 :: c2 :: c3 :: rest =>
    let last := match rest with [] => true | _ => false end in
    '(padding, group) ← group_loop last c3 0 [c0; c1; c2; c3] 0 0;
    if ((padding =? 1) && negb (Z.land group 255 =? 0))
       || ((padding =? 2) && negb (Z.land group 65535 =? 0)) then
      Err (Error_Serialization (lit "base64: non-canonical trailing bits"))
    else
      out ← decode_loop rest;
      Ok (group_bytes padding group ++ out)
  | _ => Ok []
  end.

Definition Base64Decode (text : bytes) : Outcome bytes :=
  if negb (len text mod 4 =? 0) then
    Err (Error_Serialization (lit "base64: length must be a multiple of 4"))
  else decode_loop text.

(** ** The alphabet and its inverse table *)

Lemma kDecode_eq : kDecode = BuildDecodeTable.
Proof. by vm_compute. Qed.

Lemma decode_alphabet i : 0 <= i < 64 -> decode_char (alphabet_at i) = i.
Proof.
  intros H.
  assert (F : forallb (fun n => decode_char (alphabet_at (Z.of_nat n)) =? Z.of_nat n)
                (seq 0 64) = true) by by vm_compute.
  rewrite forallb_forall in F. specialize (F (Z.to_nat i)).
  rewrite Z2Nat.id in F by lia. apply Z.eqb_eq, F, in_seq. lia.
Qed.

Lemma alphabet_decode c : 0 <= decode_char c -> alphabet_at (decode_char c) = c /\ decode_char c < 64.
Proof.
  assert (F : forall b, (decode_char b <? 0) ||
     (byte_eqb (alphabet_at (decode_char b)) b && (decode_char b <? 64)) = true).
  { apply byte_forall. by vm_compute. }
  intros H. specialize (F c). rewrite orb_true_iff, andb_true_iff, byte_eqb_eq in F.
  destruct F as [F|[F F2]]; zbool; [lia|done].
Qed.

Lemma alphabet_not_pad i : 0 <= i < 64 -> byte_eqb (alphabet_at i) kPad = false.
Proof.
  intros H.
  assert (F : forallb (fun n => negb (byte_eqb (alphabet_at (Z.of_nat n)) kPad))
                (seq 0 64) = true) by by vm_compute.
  rewrite forallb_forall in F. specialize (F (Z.to_nat i)).
  rewrite Z2Nat.id in F by lia. apply negb_true_iff, F, in_seq. lia.
Qed.

(** ** Groups as arithmetic *)

Lemma group_of_arith b0 b1 b2 :
  group_of b0 b1 b2 = b2z b0 * 65536 + b2z b1 * 256 + b2z b2.
Proof.
  pose proof (b2z_range b0). pose proof (b2z_range b1). pose proof (b2z_range b2).
  unfold group_of.
  rewrite (lor_shiftl (b2z b0) 16) by (rewrite ?Z.shiftl_mul_pow2; lia).
  rewrite Z.shiftl_mul_pow2 by lia.
  replace (b2z b0 * 2 ^ 16 + b2z b1 * 2 ^ 8) with (Z.shiftl (b2z b0 * 256 + b2z b1) 8)
    by (rewrite Z.shiftl_mul_pow2; lia).
  rewrite lor_shift8 by lia. lia.
Qed.

Lemma sextet_arith g s : 0 <= s -> sextet g s = alphabet_at (g / 2 ^ s mod 64).
Proof.
  intros H. unfold sextet. change 63 with (Z.ones 6).
  by rewrite Z.land_ones, Z.shiftr_div_pow2 by lia.
Qed.

Lemma group_step g v : 0 <= v < 64 -> 0 <= g < 2 ^ 26 ->
  Z.lor (wrap 32 (Z.shiftl g 6)) v = g * 64 + v.
Proof.
  intros Hv Hg. rewrite wrap_small.
  - apply (lor_shiftl g 6 v); lia.
  - rewrite Z.shiftl_mul_pow2; lia.
Qed.

Lemma group_pad g : 0 <= g < 2 ^ 26 -> wrap 32 (Z.shiftl g 6) = g * 64.
Proof. intros. rewrite wrap_small; rewrite Z.shiftl_mul_pow2; lia. Qed.

Lemma group_bytes_arith padding g :
  group_bytes padding g =
  z2b (g / 65536 mod 256) ::
  (if padding <? 2 then [z2b (g / 256 mod 256)] else []) ++
  (if padding <? 1 then [z2b (g mod 256)] else []).
Proof.
  unfold group_bytes. change 255 with (Z.ones 8).
  rewrite !Z.land_ones, !Z.shiftr_div_pow2 by lia. done.
Qed.

(** Taking one alphabet character into the group. *)
Lemma group_loop_sextet last c3 j i cs p g :
  0 <= i < 64 -> 0 <= g < 2 ^ 26 ->
  group_loop last c3 j (alphabet_at i :: cs) p g
  = group_loop last c3 (j + 1) cs p (g * 64 + i).
Proof.
  intros Hi Hg. cbn [group_loop].
  rewrite alphabet_not_pad, decode_alphabet by done.
  destruct (Z.ltb_spec i 0); [lia|]. by rewrite group_step.
Qed.

(** The four sextets of a 24-bit group, and the group back from them. *)
Lemma sextets_of g : 0 <= g < 2 ^ 24 ->
  exists i0 i1 i2 i3,
    (0 <= i0 < 64 /\ 0 <= i1 < 64 /\ 0 <= i2 < 64 /\ 0 <= i3 < 64)
    /\ sextet g 18 = alphabet_at i0 /\ sextet g 12 = alphabet_at i1
    /\ sextet g 6 = alphabet_at i2 /\ sextet g 0 = alphabet_at i3
    /\ g = ((i0 * 64 + i1) * 64 + i2) * 64 + i3.
Proof.
  intros Hg. rewrite !sextet_arith by lia.
  change (2 ^ 18) with 262144. change (2 ^ 12) with 4096.
  change (2 ^ 6) with 64. change (2 ^ 0) with 1.
  exists (g / 262144 mod 64), (g / 4096 mod 64), (g / 64 mod 64), (g / 1 mod 64).
  rewrite Z.div_1_r.
  assert (E1 : g / 4096 = g / 64 / 64) by by rewrite Z.div_div.
  assert (E2 : g / 262144 = g / 4096 / 64) by by rewrite Z.div_div.
  repeat split; try (apply Z.mod_pos_bound; lia).
  rewrite (Z.mod_small (g / 262144)) by (split; [apply Z.div_pos|apply Z.div_lt_upper_bound]; lia).
  rewrite E2. pose proof (Z.div_mod (g / 4096) 64). pose proof (Z.div_mod (g / 64) 64).
  pose proof (Z.div_mod g 64). lia.
Qed.

Ltac group_loop_run :=
  repeat (rewrite group_loop_sextet by lia); cbn [group_loop].

Lemma decode_full_group last g : 0 <= g < 2 ^ 24 ->
  group_loop last (sextet g 0) 0 [sextet g 18; sextet g 12; sextet g 6; sextet g 0] 0 0 = Ok (0, g).
Proof.
  intros Hg. destruct (sextets_of g Hg) as (i0 & i1 & i2 & i3 & Hi & -> & -> & -> & -> & Eg).
  group_loop_run. repeat f_equal. lia.
Qed.

Lemma mod_tail m x r : 0 <= r < m -> (x * m + r) mod m = 0 -> r = 0.
Proof. intros Hr. rewrite Z.add_comm, Z.mod_add, Z.mod_small by lia. done. Qed.

Lemma decode_two_group g : 0 <= g < 2 ^ 24 -> g mod 64 = 0 ->
  group_loop true kPad 0 [sextet g 18; sextet g 12; sextet g 6; kPad] 0 0 = Ok (1, g).
Proof.
  intros Hg Hm. destruct (sextets_of g Hg) as (i0 & i1 & i2 & i3 & Hi & -> & -> & -> & _ & Eg).
  group_loop_run. rewrite byte_eqb_refl. zeval. cbn [negb orb andb].
  rewrite group_pad by lia. rewrite Eg in Hm. apply mod_tail in Hm; [|lia].
  do 2 f_equal. lia.
Qed.

Lemma decode_one_group g : 0 <= g < 2 ^ 24 -> g mod 4096 = 0 ->
  group_loop true kPad 0 [sextet g 18; sextet g 12; kPad; kPad] 0 0 = Ok (2, g).
Proof.
  intros Hg Hm. destruct (sextets_of g Hg) as (i0 & i1 & i2 & i3 & Hi & -> & -> & _ & _ & Eg).
  replace g with ((i0 * 64 + i1) * 4096 + (i2 * 64 + i3)) in Hm by lia.
  apply mod_tail in Hm; [|lia].
  group_loop_run. rewrite !byte_eqb_refl. zeval. cbn [negb orb andb].
  rewrite (group_pad (_ * 64 + i1)), group_pad by lia. do 2 f_equal. lia.
Qed.

(** ** Round trip *)

(** Induction three at a time, as the encoder walks. *)
Lemma bytes_ind3 (P : bytes -> Prop) :
  P [] -> (forall a, P [a]) -> (forall a b, P [a; b]) ->
  (forall a b c l, P l -> P (a :: b :: c :: l)) -> forall l, P l.
Proof.
  intros H0 H1 H2 H3. fix IH 1. intros [|a [|b [|c l]]];
    [exact H0 | exact (H1 a) | exact (H2 a b) | exact (H3 a b c l (IH l))].
Qed.

Lemma land_255 x : Z.land x 255 = x mod 256.
Proof. change 255 with (Z.ones 8). by rewrite Z.land_ones by lia. Qed.
Lemma land_65535 x : Z.land x 65535 = x mod 65536.
Proof. change 65535 with (Z.ones 16). by rewrite Z.land_ones by lia. Qed.

Ltac group_bytes_run :=
  zeval; cbn [orb andb negb decode_loop mbind Outcome_bind];
  rewrite group_bytes_arith; zeval; cbn [app].

Lemma z2b_eq z b : z mod 256 = b2z b -> z2b z = b.
Proof. intros H. by rewrite <- z2b_mod, H, z2b_b2z. Qed.

Lemma decode_loop_encode l : decode_loop (Base64Encode l) = Ok l.
Proof.
  induction l as [|a|a b|a b c l IH] using bytes_ind3; [done| | |].
  - pose proof (b2z_range a). cbn [Base64Encode decode_loop].
    rewrite Z.shiftl_mul_pow2, decode_one_group by lia.
    cbn [mbind Outcome_bind]. rewrite land_65535.
    replace (b2z a * 2 ^ 16 mod 65536) with 0 by lia.
    group_bytes_run. repeat f_equal; apply z2b_eq; lia.
  - pose proof (b2z_range a). pose proof (b2z_range b). cbn [Base64Encode decode_loop].
    rewrite (lor_shiftl (b2z a) 16) by (rewrite ?Z.shiftl_mul_pow2; lia).
    rewrite Z.shiftl_mul_pow2, decode_two_group by lia.
    cbn [mbind Outcome_bind]. rewrite land_255.
    replace ((b2z a * 2 ^ 16 + b2z b * 2 ^ 8) mod 256) with 0 by lia.
    group_bytes_run. repeat f_equal; apply z2b_eq; lia.
  - pose proof (b2z_range a). pose proof (b2z_range b). pose proof (b2z_range c).
    cbn [Base64Encode decode_loop]. rewrite decode_full_group.
    2:{ rewrite group_of_arith. lia. }
    cbn [mbind Outcome_bind]. rewrite IH.
    group_bytes_run. rewrite group_of_arith. repeat f_equal; apply z2b_eq; lia.
Qed.

Lemma length_encode l :
  len (Base64Encode l) = (len l + 2) / 3 * 4.
Proof.
  unfold len. induction l as [|a|a b|a b c l IH] using bytes_ind3; [done..|].
  cbn [Base64Encode length]. rewrite !Nat2Z.inj_succ, IH. lia.
Qed.

(** ** Canonicity: the decoder accepts nothing but encodings *)

Definition sext (i : Z) : Prop := 0 <= i < 64.

(** One character of the inner loop: padding where the code allows it, or an
    alphabet character shifted into the group. *)
Lemma group_loop_cons last c3 j c cs p g p' g' :
  0 <= g < 2 ^ 26 ->
  group_loop last c3 j (c :: cs) p g = Ok (p', g') ->
  (c = kPad /\ last = true /\ 2 <= j /\ (j = 2 -> c3 = kPad)
   /\ group_loop last c3 (j + 1) cs (p + 1) (g * 64) = Ok (p', g'))
  \/ (exists i, sext i /\ c = alphabet_at i
      /\ group_loop last c3 (j + 1) cs p (g * 64 + i) = Ok (p', g')).
Proof.
  intros Hg. cbn [group_loop]. destruct (byte_eqb_spec c kPad) as [->|Hc].
  - destruct last; [|done]. cbn [negb orb].
    destruct (Z.ltb_spec j 2); [done|]. cbn [orb].
    destruct (Z.eqb_spec j 2) as [->|Hj]; destruct (byte_eqb_spec c3 kPad); cbn [andb negb];
      try done; rewrite group_pad by lia; intros; left; auto with lia.
  - destruct (Z.ltb_spec (decode_char c) 0); [done|].
    destruct (alphabet_decode c) as [E L]; [lia|].
    rewrite group_step by lia. intros. right. exists (decode_char c). unfold sext. auto with lia.
Qed.

Lemma group_loop_inv last c0 c1 c2 c3 p g :
  group_loop last c3 0 [c0; c1; c2; c3] 0 0 = Ok (p, g) ->
  exists i0 i1 i2 i3, sext i0 /\ sext i1 /\ sext i2 /\ sext i3
    /\ c0 = alphabet_at i0 /\ c1 = alphabet_at i1 /\ g = ((i0 * 64 + i1) * 64 + i2) * 64 + i3
    /\ ((p = 0 /\ c2 = alphabet_at i2 /\ c3 = alphabet_at i3)
        \/ (p = 1 /\ last = true /\ c2 = alphabet_at i2 /\ c3 = kPad /\ i3 = 0)
        \/ (p = 2 /\ last = true /\ c2 = kPad /\ c3 = kPad /\ i2 = 0 /\ i3 = 0)).
Proof.
  unfold sext. intros H.
  apply group_loop_cons in H as [(?&?&?&?&?)|(i0&?&E0&H)]; [lia| |lia].
  apply group_loop_cons in H as [(?&?&?&?&?)|(i1&?&E1&H)]; [lia| |unfold sext in *; lia].
  unfold sext in *.
  apply group_loop_cons in H as [(E2&?&?&Hp&H)|(i2&?&E2&H)]; [| |lia];
  apply group_loop_cons in H as [(E3&?&?&?&H)|(i3&?&E3&H)]; unfold sext in *; try lia;
    cbn in H; injection H as <- <-.
  - exists i0, i1, 0, 0. repeat split; try done; try lia. auto 10.
  - exfalso. rewrite Hp in E3 by lia. pose proof (alphabet_not_pad i3 ltac:(lia)) as E.
    rewrite <- E3, byte_eqb_refl in E. done.
  - exists i0, i1, i2, 0. repeat split; try done; try lia. auto 10.
  - exists i0, i1, i2, i3. repeat split; try done; try lia. auto 10.
Qed.

(** The sextets of the group are the characters it was read from. *)
Lemma sextets_unique g i0 i1 i2 i3 :
  sext i0 -> sext i1 -> sext i2 -> sext i3 -> g = ((i0 * 64 + i1) * 64 + i2) * 64 + i3 ->
  sextet g 18 = alphabet_at i0 /\ sextet g 12 = alphabet_at i1
  /\ sextet g 6 = alphabet_at i2 /\ sextet g 0 = alphabet_at i3.
Proof.
  unfold sext. intros H0 H1 H2 H3 ->. rewrite !sextet_arith by lia.
  repeat split; f_equal; lia.
Qed.

Lemma group_of_bytes g : 0 <= g < 2 ^ 24 ->
  group_of (z2b (g / 65536)) (z2b (g / 256)) (z2b g) = g.
Proof. intros H. rewrite group_of_arith, !b2z_z2b. lia. Qed.

Lemma group_two_bytes g : 0 <= g < 2 ^ 24 -> g mod 256 = 0 ->
  Z.lor (Z.shiftl (b2z (z2b (g / 65536))) 16) (Z.shiftl (b2z (z2b (g / 256))) 8) = g.
Proof.
  intros H H0. rewrite lor_shiftl by (rewrite ?Z.shiftl_mul_pow2, ?b2z_z2b; lia).
  rewrite Z.shiftl_mul_pow2, !b2z_z2b; lia.
Qed.

Lemma group_one_byte g : 0 <= g < 2 ^ 24 -> g mod 65536 = 0 ->
  Z.shiftl (b2z (z2b (g / 65536))) 16 = g.
Proof. intros H H0. rewrite Z.shiftl_mul_pow2, b2z_z2b; lia. Qed.

(** Induction four at a time, as the decoder walks. *)
Lemma bytes_ind4 (P : bytes -> Prop) :
  (forall l, (length l < 4)%nat -> P l) ->
  (forall a b c d l, P l -> P (a :: b :: c :: d :: l)) -> forall l, P l.
Proof.
  intros H0 H4. fix IH 1.
  intros [|a [|b [|c [|d l]]]]; try (apply H0; simpl; lia). exact (H4 a b c d l (IH l)).
Qed.

Lemma encode_decode_loop t l :
  decode_loop t = Ok l -> len t mod 4 = 0 -> Base64Encode l = t.
Proof.
  revert l. induction t as [t Ht|c0 c1 c2 c3 t IH] using bytes_ind4; intros l.
  - unfold len. destruct t as [|? [|? [|? [|? ?]]]]; simpl in *; try lia.
    by intros [= <-].
  - cbn [decode_loop]. intros H Hm. apply bind_Ok in H as ([p g] & Hg & H).
    apply group_loop_inv in Hg as (i0&i1&i2&i3&S0&S1&S2&S3&E0&E1&Eg&Hc).
    destruct (sextets_unique g i0 i1 i2 i3) as (X0&X1&X2&X3); try done.
    assert (Hg : 0 <= g < 2 ^ 24) by (unfold sext in *; lia).
    rewrite land_255, land_65535 in H.
    destruct (_ || _) eqn:Et; [done|]. apply bind_Ok in H as (out & Ho & H).
    apply Ok_inj in H as <-. rewrite group_bytes_arith.
    assert (Hl : len t mod 4 = 0) by (unfold len in *; simpl in Hm; lia).
    destruct Hc as [(->&E2&E3)|[(->&Hlast&E2&E3&Hi)|(->&Hlast&E2&E3&Hi2&Hi3)]];
      zeval; cbn [app]; rewrite !z2b_mod.
    + cbn [Base64Encode]. rewrite group_of_bytes by done.
      rewrite (IH out), X0, X1, X2, X3 by done. congruence.
    + destruct t; [|done]. injection Ho as <-. cbn [Base64Encode app] in *.
      rewrite group_two_bytes; [congruence|done|].
      cbn in Et. apply orb_false_elim in Et as [Et _]. by zbool.
    + destruct t; [|done]. injection Ho as <-. cbn [Base64Encode app] in *.
      rewrite group_one_byte; [congruence|done|].
      cbn in Et. by zbool.
Qed.

Lemma Base64Decode_Encode l : Base64Decode (Base64Encode l) = Ok l.
Proof. unfold Base64Decode. rewrite length_encode, Z.mod_mul by lia. apply decode_loop_encode. Qed.

(** base64 text and blobs are in bijection: [Base64Decode] returns the
    blob [l] on exactly the text [Base64Encode l], so every blob survives the
    round trip and every other text (wrong length, a foreign character,
    misplaced padding, non-zero trailing bits) is refused. *)
Theorem Base64Decode_iff t l : Base64Decode t = Ok l <-> Base64Encode l = t.
Proof.
  unfold Base64Decode. split.
  - intros H. outcome_inv. zbool. by eapply encode_decode_loop.
  - intros <-. apply Base64Decode_Encode.
Qed.

#[export] Instance base64_codec :
  Codec (fun l => Ok (Base64Encode l)) Base64Decode (fun _ => True).
Proof.
  intros l t _ H. apply Ok_inj in H as <-. unfold Base64Decode.
  rewrite length_encode, Z.mod_mul by lia. apply decode_loop_encode.
Qed.
