(* ===== verification/Frame.v ===== *)
(** eventstream/frame.h and frame.cc: the event-stream message framing.
    [EncodeMessage] lays a message out as a CRC-guarded prelude, a block of
    typed headers, the payload and a message CRC; [DecodeMessage] reads one
    message from the front of a buffer, answering "feed me more" on a prefix.
    The wire-type tags, the bounds and the order of the checks are the code's;
    the block cursor is the unread suffix of the block. *)
From Stdlib Require Import ZArith Lia.
From S2P Require Import Prelude Bytes.

Local Open Scope Z_scope.

(** ** Data *)

(** [HeaderValue], one constructor per alternative of the variant.  The
    timestamp is its epoch milliseconds, the UUID its sixteen bytes. *)
Inductive HeaderValue :=
| HBool (b : bool)
| HByte (v : Z)
| HShort (v : Z)
| HInt (v : Z)
| HLong (v : Z)
| HBlob (v : bytes)
| HString (v : bytes)
| HTimestamp (ms : Z)
| HUuid (v : bytes).

Record Header := mkHeader { hd_name : bytes; hd_value : HeaderValue }.

Record Message := mkMessage { msg_headers : list Header; msg_payload : bytes }.

#[global] Instance HeaderValue_eq_dec : EqDecision HeaderValue.
Proof. solve_decision. Defined.
#[global] Instance Header_eq_dec : EqDecision Header.
Proof. solve_decision. Defined.
#[global] Instance Message_eq_dec : EqDecision Message.
Proof. solve_decision. Defined.

(** The C++ types of the alternatives: integers at their width, a UUID of
    sixteen bytes. *)
Definition int_range (w v : Z) : bool := (- 2 ^ (w - 1) <=? v) && (v <? 2 ^ (w - 1)).

Definition value_typed (v : HeaderValue) : bool :=
  match v with
  | HByte v => int_range 8 v
  | HShort v => int_range 16 v
  | HInt v => int_range 32 v
  | HLong v | HTimestamp v => int_range 64 v
  | HUuid u => len u =? 16
  | HBool _ | HBlob _ | HString _ => true
  end.

Definition message_typed (m : Message) : bool :=
  forallb (fun h => value_typed (hd_value h)) (msg_headers m).

Definition kMaxHeaderBlockBytes : Z := 128 * 1024.
Definition kMaxMessageBytes : Z := 16 * 1024 * 1024.
Definition kPreludeBytes : Z := 12.
Definition kFrameOverheadBytes : Z := kPreludeBytes + 4.

(** ** CRC32 *)

(** One table entry: eight steps of the reflected polynomial. *)
Fixpoint crc_bits (n : nat) (c : Z) : Z :=
  match n with
  | O => c
  | S n' => crc_bits n' (if negb (Z.land c 1 =? 0) then Z.lxor 3988292384 (Z.shiftr c 1)
                         else Z.shiftr c 1)
  end.

Definition kTable : list Z := Eval vm_compute in
  (fun i => crc_bits 8 (Z.of_nat i)) <$> seq 0 256.

Definition crc_step (crc : Z) (b : Byte.byte) : Z :=
  Z.lxor (kTable !!! Z.to_nat (Z.land (Z.lxor crc (b2z b)) 255)) (Z.shiftr crc 8).

Definition Crc32 (l : bytes) : Z := Z.lxor (fold_left crc_step l 4294967295) 4294967295.

(** ** Encoding *)

(** The bytes [EncodeValue] appends, [None] for its [false]. *)
Definition EncodeValue (value : HeaderValue) : option bytes :=
  match value with
  | HBool b => Some [z2b (if b then 0 else 1)]
  | HByte v => Some [z2b 2; z2b v]
  | HShort v => Some (z2b 3 :: be_bytes 2 (wrap 16 v))
  | HInt v => Some (z2b 4 :: be_bytes 4 (wrap 32 v))
  | HLong v => Some (z2b 5 :: be_bytes 8 (wrap 64 v))
  | HBlob v => if len v >? 65535 then None else Some (z2b 6 :: be_bytes 2 (len v) ++ v)
  | HString v => if len v >? 65535 then None else Some (z2b 7 :: be_bytes 2 (len v) ++ v)
  | HTimestamp ms => Some (z2b 8 :: be_bytes 8 (wrap 64 ms))
  | HUuid v => Some (z2b 9 :: v)
  end.

Fixpoint encode_headers (hs : list Header) : Outcome bytes :=
  match hs with
  | [] => Ok []
  | h :: hs' =>
    if (len (hd_name h) =? 0) || (len (hd_name h) >? 255) then
      Err (Error_Validation (lit "eventstream: header name must be 1..255 bytes"))
    else
      match EncodeValue (hd_value h) with
      | None => Err (Error_Validation (lit "eventstream: header value over 64 KiB: " ++ hd_name h))
      | Some value =>
        rest ← encode_headers hs';
        Ok (z2b (len (hd_name h)) :: hd_name h ++ value ++ rest)
      end
  end.

(** The frame of an encoded header block and a payload of [total] bytes. *)
Definition lay_out (total : Z) (headers payload : bytes) : bytes :=
  let frame := be_bytes 4 total ++ be_bytes 4 (len headers) in
  let frame := frame ++ be_bytes 4 (Crc32 frame) in
  let frame := frame ++ headers ++ payload in
  frame ++ be_bytes 4 (Crc32 frame).

Definition EncodeMessage (m : Message) : Outcome bytes :=
  headers ← encode_headers (msg_headers m);
  if len headers >? kMaxHeaderBlockBytes then
    Err (Error_Validation (lit "eventstream: header block over the 128 KiB limit"))
  else
    let total := kFrameOverheadBytes + len headers + len (msg_payload m) in
    if total >? kMaxMessageBytes then
      Err (Error_Validation (lit "eventstream: message over the 16 MiB limit"))
    else Ok (lay_out total headers (msg_payload m)).

(** ** Decoding *)

(** The lambda [fixed]: the next [n] bytes and the suffix after them. *)
Definition fixed (n : Z) (s : bytes) : option (bytes * bytes) :=
  if len s <? n then None else Some (take (Z.to_nat n) s, drop (Z.to_nat n) s).

Definition DecodeValue (block : bytes) : option (HeaderValue * bytes) :=
  match block with
  | [] => None
  | tag :: s =>
    let type := b2z tag in
    if type =? 0 then Some (HBool true, s)
    else if type =? 1 then Some (HBool false, s)
    else if type =? 2 then '(v, s) ← fixed 1 s; Some (HByte (swrap 8 (be_value v)), s)
    else if type =? 3 then '(v, s) ← fixed 2 s; Some (HShort (swrap 16 (be_value v)), s)
    else if type =? 4 then '(v, s) ← fixed 4 s; Some (HInt (swrap 32 (be_value v)), s)
    else if type =? 5 then '(v, s) ← fixed 8 s; Some (HLong (swrap 64 (be_value v)), s)
    else if type =? 6 then
      '(n, s) ← fixed 2 s; '(v, s) ← fixed (be_value n) s; Some (HBlob v, s)
    else if type =? 7 then
      '(n, s) ← fixed 2 s; '(v, s) ← fixed (be_value n) s; Some (HString v, s)
    else if type =? 8 then '(v, s) ← fixed 8 s; Some (HTimestamp (swrap 64 (be_value v)), s)
    else if type =? 9 then '(v, s) ← fixed 16 s; Some (HUuid v, s)
    else None
  end.

Definition Malformed (what : bytes) : Error := Error_Serialization (lit "eventstream: " ++ what).

(** The header loop.  Every turn consumes at least two bytes, so the length of
    the block is fuel enough ([decode_headers_fuel]). *)
Fixpoint decode_headers (fuel : nat) (block : bytes) : option (Outcome (list Header)) :=
  match block with
  | [] => Some (Ok [])
  | n :: s =>
    match fuel with
    | O => None
    | S fuel' =>
      let name_length := b2z n in
      if (name_length =? 0) || (len s <? name_length) then
        Some (Err (Malformed (lit "malformed header name")))
      else
        let name := take (Z.to_nat name_length) s in
        match DecodeValue (drop (Z.to_nat name_length) s) with
        | None => Some (Err (Malformed (lit "malformed header value")))
        | Some (value, s) =>
          hs ← decode_headers fuel' s;
          Some (hs ← hs; Ok (mkHeader name value :: hs))
        end
    end
  end.

Definition DecodeMessage (buffer : bytes) : Outcome (option (Message * Z)) :=
  if len buffer <? kPreludeBytes then Ok None
  else
    let prelude_crc := wrap 32 (be_value (substr 8 4 buffer)) in
    if negb (Crc32 (substr 0 8 buffer) =? prelude_crc) then
      Err (Malformed (lit "prelude CRC mismatch"))
    else
      let total := be_value (substr 0 4 buffer) in
      let headers_length := be_value (substr 4 4 buffer) in
      if (total >? kMaxMessageBytes) || (total <? kFrameOverheadBytes)
         || (headers_length >? kMaxHeaderBlockBytes)
         || (headers_length >? total - kFrameOverheadBytes) then
        Err (Malformed (lit "declared lengths out of bounds"))
      else if len buffer <? total then Ok None
      else
        let message_crc := wrap 32 (be_value (substr (total - 4) 4 buffer)) in
        if negb (Crc32 (substr 0 (total - 4) buffer) =? message_crc) then
          Err (Malformed (lit "message CRC mismatch"))
        else
          let block := substr kPreludeBytes headers_length buffer in
          match decode_headers (length block) block with
          | None => Err (Malformed (lit "out of fuel"))
          | Some r =>
            headers ← r;
            let payload := substr (kPreludeBytes + headers_length)
                             (total - kFrameOverheadBytes - headers_length) buffer in
            Ok (Some (mkMessage headers payload, total))
          end.

(** [Message::FindHeader] and [Message::FindString]. *)
Definition FindHeader (m : Message) (name : bytes) : option HeaderValue :=
  hd_value <$> find (fun h => bytes_eqb (hd_name h) name) (msg_headers m).

Definition FindString (m : Message) (name : bytes) : option bytes :=
  match FindHeader m name with Some (HString s) => Some s | _ => None end.

(** ** Values *)

Lemma fixed_app n v s : len v = n -> fixed n (v ++ s) = Some (v, s).
Proof.
  intros <-. unfold fixed. autorewrite with len. pose proof (len_nonneg s).
  destruct (Z.ltb_spec (len v + len s) (len v)); [lia|].
  unfold len. rewrite Nat2Z.id, take_app_length, drop_app_length. done.
Qed.

Lemma fixed_Some n blk v s : 0 <= n -> fixed n blk = Some (v, s) -> blk = v ++ s /\ len v = n.
Proof.
  unfold fixed. intros Hn. destruct (Z.ltb_spec (len blk) n); [done|].
  intros [= <- <-]. rewrite take_drop. split; [done|].
  unfold len in *. rewrite length_take. lia.
Qed.

Lemma len_be_bytes n v : len (be_bytes n v) = Z.of_nat n.
Proof. unfold len. by rewrite length_be_bytes. Qed.

(** A signed integer through [n] big-endian bytes, both ways. *)
Lemma int_wire w n v :
  w = 8 * Z.of_nat n -> (0 < n <= 8)%nat -> int_range w v = true ->
  swrap w (be_value (be_bytes n (wrap w v))) = v.
Proof.
  intros -> Hn Hv. unfold int_range in Hv. zbool.
  rewrite be_value_small by (try apply wrap_range; lia).
  rewrite swrap_wrap by lia. apply swrap_small; lia.
Qed.

Lemma wire_int w n l :
  w = 8 * Z.of_nat n -> (0 < n <= 8)%nat -> length l = n ->
  be_bytes n (wrap w (swrap w (be_value l))) = l.
Proof.
  intros -> Hn <-. rewrite wrap_swrap by lia. unfold wrap.
  rewrite be_bytes_mod. apply be_bytes_be_value. lia.
Qed.

Lemma int_range_swrap w z : 0 < w -> int_range w (swrap w z) = true.
Proof. intros H. unfold int_range. pose proof (swrap_range w z H). lia. Qed.

Lemma length_of_len (l : bytes) n : len l = Z.of_nat n -> length l = n.
Proof. unfold len. lia. Qed.

Lemma be_value_len2 n : len n = 2 -> 0 <= be_value n < 65536.
Proof.
  intros H. pose proof (be_value_range n ltac:(unfold len in H; lia)) as Hr.
  rewrite H in Hr. done.
Qed.

Lemma wire_byte_int l : len l = 1 -> [z2b (swrap 8 (be_value l))] = l.
Proof.
  intros H. apply (length_of_len l 1) in H.
  rewrite <- (wire_int 8 1 l) at 2 by (done || lia).
  unfold be_bytes. rewrite Z.shiftr_0_r. unfold wrap.
  change (2 ^ 8) with 256. by rewrite z2b_mod.
Qed.

Lemma DecodeValue_EncodeValue v e s :
  value_typed v = true -> EncodeValue v = Some e -> DecodeValue (e ++ s) = Some (v, s).
Proof.
  destruct v as [[]|v|v|v|v|v|v|v|v]; cbn [EncodeValue value_typed]; intros Ht He;
    try (destruct (Z.gtb_spec (len v) 65535); [done|]);
    apply (inj Some) in He as <-; rewrite <- ?app_comm_cons, <- ?app_assoc;
    cbn [DecodeValue]; rewrite b2z_z2b_small by lia; zeval; cbn iota; try done;
    try (rewrite fixed_app by (rewrite ?len_be_bytes; try done; by zbool); cbn [mbind option_bind]).
  - assert (E : [z2b v] = be_bytes 1 (wrap 8 v)).
    { unfold be_bytes. rewrite Z.shiftr_0_r. unfold wrap. change (2 ^ 8) with 256. by rewrite z2b_mod. }
    rewrite app_nil_l. change (z2b v :: s) with ([z2b v] ++ s).
    rewrite E, fixed_app by (by rewrite len_be_bytes). cbn [mbind option_bind].
    rewrite int_wire by (done || lia). done.
  - rewrite (int_wire 16) by (done || lia). done.
  - rewrite (int_wire 32) by (done || lia). done.
  - rewrite (int_wire 64) by (done || lia). done.
  - rewrite be_value_small by (pose proof (len_nonneg v); lia). by rewrite fixed_app.
  - rewrite be_value_small by (pose proof (len_nonneg v); lia). by rewrite fixed_app.
  - rewrite (int_wire 64) by (done || lia). done.
  - done.
Qed.

(** What each kind of read leaves of the block. *)
Lemma read_int w n (mk : Z -> HeaderValue) tag blk v s :
  w = 8 * Z.of_nat n -> (0 < n <= 8)%nat ->
  (forall x, int_range w x = true -> value_typed (mk x) = true) ->
  (forall x, EncodeValue (mk x) = Some (z2b tag :: be_bytes n (wrap w x))) ->
  ('(l, s) ← fixed (Z.of_nat n) blk; Some (mk (swrap w (be_value l)), s)) = Some (v, s) ->
  value_typed v = true /\ exists e, EncodeValue v = Some e /\ z2b tag :: blk = e ++ s.
Proof.
  intros Hw Hn Ht He H. apply bind_Some in H as ([l s'] & Hf & H).
  apply (inj Some) in H. injection H as <- ->.
  apply fixed_Some in Hf as [-> Hl]; [|lia]. apply length_of_len in Hl.
  split; [apply Ht, int_range_swrap; lia|].
  eexists. split; [apply He|]. by rewrite wire_int.
Qed.

Lemma read_sized (mk : bytes -> HeaderValue) tag blk v s :
  (forall x, value_typed (mk x) = true) ->
  (forall x, len x <= 65535 -> EncodeValue (mk x) = Some (z2b tag :: be_bytes 2 (len x) ++ x)) ->
  ('(n, s) ← fixed 2 blk; '(l, s) ← fixed (be_value n) s; Some (mk l, s)) = Some (v, s) ->
  value_typed v = true /\ exists e, EncodeValue v = Some e /\ z2b tag :: blk = e ++ s.
Proof.
  intros Ht He H. apply bind_Some in H as ([n s1] & Hn & H).
  apply bind_Some in H as ([l s2] & Hl & H).
  apply (inj Some) in H. injection H as <- ->.
  apply fixed_Some in Hn as [-> Hn]; [|lia]. pose proof (be_value_len2 n Hn).
  apply fixed_Some in Hl as [-> Hl]; [|lia].
  split; [apply Ht|]. eexists. split; [apply He; lia|].
  rewrite Hl. pose proof (be_bytes_be_value n) as E. apply (length_of_len _ 2) in Hn.
  rewrite Hn in E. rewrite E by lia. by rewrite <- app_comm_cons, <- app_assoc.
Qed.

Lemma EncodeValue_sized v :
  len v <= 65535 ->
  EncodeValue (HBlob v) = Some (z2b 6 :: be_bytes 2 (len v) ++ v)
  /\ EncodeValue (HString v) = Some (z2b 7 :: be_bytes 2 (len v) ++ v).
Proof. intros H. cbn [EncodeValue]. destruct (Z.gtb_spec (len v) 65535); [lia|done]. Qed.

Lemma DecodeValue_inv blk v s :
  DecodeValue blk = Some (v, s) ->
  value_typed v = true /\ exists e, EncodeValue v = Some e /\ blk = e ++ s.
Proof.
  destruct blk as [|tag blk]; [done|]. cbn [DecodeValue].
  assert (Htag : z2b (b2z tag) = tag) by apply z2b_b2z. revert Htag.
  generalize (b2z tag) as t. intros t <-.
  destruct (Z.eqb_spec t 0) as [->|_]; [intros [= <- <-]; split; [done|by eexists]|].
  destruct (Z.eqb_spec t 1) as [->|_]; [intros [= <- <-]; split; [done|by eexists]|].
  destruct (Z.eqb_spec t 2) as [->|_].
  { intros H. eapply (read_int 8 1 HByte) in H; [exact H|done|lia|done|].
    intros x. cbn [EncodeValue]. do 2 f_equal. unfold be_bytes, wrap.
    rewrite Z.shiftr_0_r. by rewrite <- z2b_mod. }
  destruct (Z.eqb_spec t 3) as [->|_]; [apply (read_int 16 2 HShort); done || lia|].
  destruct (Z.eqb_spec t 4) as [->|_]; [apply (read_int 32 4 HInt); done || lia|].
  destruct (Z.eqb_spec t 5) as [->|_]; [apply (read_int 64 8 HLong); done || lia|].
  destruct (Z.eqb_spec t 6) as [->|_].
  { apply read_sized; [done|]. intros x Hx. by apply EncodeValue_sized. }
  destruct (Z.eqb_spec t 7) as [->|_].
  { apply read_sized; [done|]. intros x Hx. by apply EncodeValue_sized. }
  destruct (Z.eqb_spec t 8) as [->|_]; [apply (read_int 64 8 HTimestamp); done || lia|].
  destruct (Z.eqb_spec t 9) as [->|_]; [|done].
  intros H. apply bind_Some in H as ([l s'] & Hf & H).
  apply (inj Some) in H. injection H as <- ->.
  apply fixed_Some in Hf as [-> Hl]; [|lia].
  split; [by apply Z.eqb_eq|]. by eexists.
Qed.

(** ** Header blocks *)

Lemma EncodeValue_nonempty v e : EncodeValue v = Some e -> e <> [].
Proof. destruct v; cbn [EncodeValue]; try case_match; intros [= <-]; done. Qed.

Lemma DecodeValue_consumes blk v s : DecodeValue blk = Some (v, s) -> (length s < length blk)%nat.
Proof.
  intros H. apply DecodeValue_inv in H as (_ & e & He & ->).
  apply EncodeValue_nonempty in He. destruct e; [done|]. rewrite length_app. simpl. lia.
Qed.

Lemma decode_headers_fuel fuel blk :
  (length blk <= fuel)%nat -> decode_headers fuel blk <> None.
Proof.
  revert blk. induction fuel as [|fuel IH]; intros [|n s] Hl; try done; simpl in Hl; [lia|].
  cbn [decode_headers]. destruct (_ || _); [done|].
  destruct (DecodeValue _) as [[v s']|] eqn:E; [|done].
  apply DecodeValue_consumes in E. rewrite length_drop in E.
  destruct (decode_headers fuel s') eqn:E'; [done|]. apply IH in E'; [done|lia].
Qed.

Lemma decode_headers_encode hs blk fuel :
  forallb (fun h => value_typed (hd_value h)) hs = true ->
  encode_headers hs = Ok blk -> (length blk <= fuel)%nat ->
  decode_headers fuel blk = Some (Ok hs).
Proof.
  revert blk fuel. induction hs as [|[name value] hs IH]; intros blk fuel Ht He Hf.
  - injection He as <-. by destruct fuel.
  - simpl in Ht. zbool. cbn [encode_headers hd_name hd_value] in He.
    destruct (Z.eqb_spec (len name) 0); [done|]. cbn [orb] in He.
    destruct (Z.gtb_spec (len name) 255); [done|].
    destruct (EncodeValue value) as [e|] eqn:Ev; [|done].
    apply bind_Ok in He as (rest & Hr & Hb). apply Ok_inj in Hb as <-.
    simpl in Hf. rewrite !length_app in Hf. destruct fuel as [|fuel]; [lia|].
    pose proof (len_nonneg name). pose proof (len_nonneg (e ++ rest)).
    cbn [decode_headers]. rewrite b2z_z2b_small by lia.
    destruct (Z.eqb_spec (len name) 0); [done|]. cbn [orb].
    destruct (Z.ltb_spec (len (name ++ e ++ rest)) (len name)); [rewrite (len_app name) in *; lia|].
    unfold len. rewrite Nat2Z.id, take_app_length, drop_app_length.
    rewrite (DecodeValue_EncodeValue value e rest) by done.
    rewrite (IH rest fuel) by (done || lia). done.
Qed.

Lemma decode_headers_inv fuel blk hs :
  decode_headers fuel blk = Some (Ok hs) ->
  forallb (fun h => value_typed (hd_value h)) hs = true /\ encode_headers hs = Ok blk.
Proof.
  revert blk hs. induction fuel as [|fuel IH]; intros [|n s] hs H; cbn [decode_headers] in H;
    try done; try (injection H as <-; done).
  destruct (Z.eqb_spec (b2z n) 0); [done|]. cbn [orb] in H.
  destruct (Z.ltb_spec (len s) (b2z n)); [done|].
  destruct (DecodeValue _) as [[v s']|] eqn:E; [|done].
  apply bind_Some in H as (r & Hr & H). apply (inj Some) in H.
  apply bind_Ok in H as (hs' & -> & H). apply Ok_inj in H as <-.
  apply IH in Hr as [Ht He]. apply DecodeValue_inv in E as (Hv & e & Ee & Eb).
  pose proof (b2z_range n) as Hn.
  assert (Hl : len (take (Z.to_nat (b2z n)) s) = b2z n).
  { unfold len in *. rewrite length_take. lia. }
  cbn [forallb encode_headers hd_name hd_value]. rewrite Hv, Ht, Hl, Ee, He.
  split; [done|]. destruct (Z.eqb_spec (b2z n) 0); [done|].
  destruct (Z.gtb_spec (b2z n) 255); [lia|]. cbn. rewrite z2b_b2z, <- Eb, take_drop. done.
Qed.

(** ** CRC values *)

Lemma kTable_range i : 0 <= i < 256 -> 0 <= kTable !!! Z.to_nat i < 2 ^ 32.
Proof.
  intros H.
  assert (F : forallb (fun n => (0 <=? kTable !!! n) && (kTable !!! n <? 2 ^ 32)) (seq 0 256) = true)
    by by vm_compute.
  rewrite forallb_forall in F. specialize (F (Z.to_nat i)).
  rewrite in_seq, andb_true_iff, Z.leb_le, Z.ltb_lt in F. apply F. lia.
Qed.

Lemma land_255_range x : 0 <= Z.land x 255 < 256.
Proof. change 255 with (Z.ones 8). rewrite Z.land_ones by lia. apply Z.mod_pos_bound. lia. Qed.

Lemma crc_step_range crc b : 0 <= crc < 2 ^ 32 -> 0 <= crc_step crc b < 2 ^ 32.
Proof.
  intros H. apply lxor_range; [lia| |].
  - apply kTable_range, land_255_range.
  - pose proof (shiftr_range 32 8 crc ltac:(lia) H). lia.
Qed.

Lemma crc_fold_range l crc : 0 <= crc < 2 ^ 32 -> 0 <= fold_left crc_step l crc < 2 ^ 32.
Proof. revert crc. induction l; intros; simpl; [done|]. by apply IHl, crc_step_range. Qed.

Lemma Crc32_range l : 0 <= Crc32 l < 2 ^ 32.
Proof. apply lxor_range; [lia|apply crc_fold_range; lia|lia]. Qed.

Lemma be4_roundtrip v : 0 <= v < 2 ^ 32 -> be_value (be_bytes 4 v) = v.
Proof. intros. apply be_value_small; [lia|done]. Qed.

Lemma be4_inv l : len l = 4 -> be_bytes 4 (be_value l) = l /\ 0 <= be_value l < 2 ^ 32.
Proof.
  intros H. assert (Hl : length l = 4%nat) by (unfold len in H; lia). split.
  - rewrite <- Hl. apply be_bytes_be_value. lia.
  - pose proof (be_value_range l ltac:(lia)) as Hr. by rewrite H in Hr.
Qed.

(** ** Messages *)

Lemma lay_out_eq total h p :
  lay_out total h p =
  be_bytes 4 total ++ be_bytes 4 (len h)
  ++ be_bytes 4 (Crc32 (be_bytes 4 total ++ be_bytes 4 (len h))) ++ h ++ p
  ++ be_bytes 4 (Crc32 (be_bytes 4 total ++ be_bytes 4 (len h)
       ++ be_bytes 4 (Crc32 (be_bytes 4 total ++ be_bytes 4 (len h))) ++ h ++ p)).
Proof. unfold lay_out. by rewrite <- !app_assoc. Qed.

Lemma len_lay_out total h p : len (lay_out total h p) = kFrameOverheadBytes + len h + len p.
Proof.
  rewrite lay_out_eq. autorewrite with len. rewrite !len_be_bytes.
  unfold kFrameOverheadBytes, kPreludeBytes. lia.
Qed.

Lemma EncodeMessage_Ok m f :
  EncodeMessage m = Ok f <->
  exists h, encode_headers (msg_headers m) = Ok h
    /\ len h <= kMaxHeaderBlockBytes
    /\ kFrameOverheadBytes + len h + len (msg_payload m) <= kMaxMessageBytes
    /\ f = lay_out (kFrameOverheadBytes + len h + len (msg_payload m)) h (msg_payload m).
Proof.
  unfold EncodeMessage. rewrite bind_Ok. split.
  - intros (h & Hh & H). exists h. split; [done|].
    destruct (Z.gtb_spec (len h) kMaxHeaderBlockBytes); [done|].
    destruct (Z.gtb_spec (kFrameOverheadBytes + len h + len (msg_payload m)) kMaxMessageBytes);
      [done|]. apply Ok_inj in H as <-. auto with lia.
  - intros (h & Hh & H1 & H2 & ->). exists h. split; [done|].
    destruct (Z.gtb_spec (len h) kMaxHeaderBlockBytes); [lia|].
    by destruct (Z.gtb_spec (kFrameOverheadBytes + len h + len (msg_payload m)) kMaxMessageBytes);
      [lia|].
Qed.

(** A buffer in the shape of a frame: what each check of the decoder reads. *)
Section shape.
Context (A L P h p M rest : bytes).
Context (HA : len A = 4) (HL : len L = 4) (HP : len P = 4) (HM : len M = 4).
Let buffer := A ++ L ++ P ++ h ++ p ++ M ++ rest.
Let total := kFrameOverheadBytes + len h + len p.

Lemma shape_reads :
  substr 0 4 buffer = A /\ substr 4 4 buffer = L /\ substr 8 4 buffer = P
  /\ substr 0 8 buffer = A ++ L /\ substr kPreludeBytes (len h) buffer = h
  /\ substr (kPreludeBytes + len h) (len p) buffer = p
  /\ substr 0 (total - 4) buffer = A ++ L ++ P ++ h ++ p
  /\ substr (total - 4) 4 buffer = M
  /\ len buffer = total + len rest.
Proof using HA HL HP HM.
  unfold buffer, total, kFrameOverheadBytes, kPreludeBytes. repeat split.
  - by apply substr_head.
  - by apply substr_mid.
  - rewrite (app_assoc A L). apply substr_mid; autorewrite with len; lia.
  - rewrite (app_assoc A L). apply substr_head; autorewrite with len; lia.
  - rewrite (app_assoc L P), (app_assoc A). apply substr_mid; autorewrite with len; lia.
  - rewrite (app_assoc P h), (app_assoc L), (app_assoc A).
    apply substr_mid; autorewrite with len; lia.
  - rewrite (app_assoc h p), (app_assoc P), (app_assoc L), (app_assoc A).
    apply substr_head; autorewrite with len; lia.
  - rewrite (app_assoc h p), (app_assoc P), (app_assoc L), (app_assoc A).
    apply substr_mid; autorewrite with len; lia.
  - autorewrite with len. lia.
Qed.

Lemma DecodeMessage_shape :
  be_value A = total -> be_value L = len h ->
  total <= kMaxMessageBytes -> len h <= kMaxHeaderBlockBytes ->
  DecodeMessage buffer =
  if negb (Crc32 (A ++ L) =? be_value P) then Err (Malformed (lit "prelude CRC mismatch"))
  else if negb (Crc32 (A ++ L ++ P ++ h ++ p) =? be_value M) then
    Err (Malformed (lit "message CRC mismatch"))
  else match decode_headers (length h) h with
       | None => Err (Malformed (lit "out of fuel"))
       | Some r => headers ← r; Ok (Some (mkMessage headers p, total))
       end.
Proof using HA HL HP HM.
  intros EA EL Ht Hh.
  destruct shape_reads as (R0 & R4 & R8 & R08 & Rh & Rp & Rm & RM & Rl).
  pose proof (len_nonneg rest). pose proof (len_nonneg h). pose proof (len_nonneg p).
  unfold DecodeMessage. rewrite R0, R4, R8, R08, EA, EL, Rm, RM, Rl.
  replace (total - kFrameOverheadBytes - len h) with (len p) by (unfold total; lia).
  rewrite Rh, Rp.
  rewrite (wrap_small 32 (be_value P)) by (apply be4_inv; done).
  rewrite (wrap_small 32 (be_value M)) by (apply be4_inv; done).
  destruct (Z.ltb_spec (total + len rest) kPreludeBytes);
    [unfold total, kFrameOverheadBytes in *; lia|].
  destruct (negb _); [done|].
  destruct (Z.gtb_spec total kMaxMessageBytes); [lia|].
  destruct (Z.ltb_spec total kFrameOverheadBytes); [unfold total in *; lia|].
  destruct (Z.gtb_spec (len h) kMaxHeaderBlockBytes); [lia|].
  destruct (Z.gtb_spec (len h) (total - kFrameOverheadBytes)); [unfold total in *; lia|].
  cbn [orb]. destruct (Z.ltb_spec (total + len rest) total); [lia|]. done.
Qed.
End shape.

Lemma decode_encode_message m f rest :
  message_typed m = true -> EncodeMessage m = Ok f ->
  DecodeMessage (f ++ rest) = Ok (Some (m, len f)).
Proof.
  intros Ht He. apply EncodeMessage_Ok in He as (h & Hh & H1 & H2 & ->).
  pose proof (len_nonneg h). pose proof (len_nonneg (msg_payload m)).
  rewrite len_lay_out, lay_out_eq, <- !app_assoc.
  rewrite DecodeMessage_shape; rewrite ?len_be_bytes; try done.
  - rewrite !be4_roundtrip by apply Crc32_range. rewrite !Z.eqb_refl. cbn [negb].
    rewrite (decode_headers_encode (msg_headers m)) by done. by destruct m.
  - apply be4_roundtrip. unfold kMaxMessageBytes, kFrameOverheadBytes, kPreludeBytes in *. lia.
  - apply be4_roundtrip. unfold kMaxHeaderBlockBytes in *. lia.
Qed.

(** Any buffer that passes the length checks has the shape of a frame. *)
Lemma shape_of buffer total hl :
  kFrameOverheadBytes <= total -> 0 <= hl <= total - kFrameOverheadBytes -> total <= len buffer ->
  let h := substr kPreludeBytes hl buffer in
  let p := substr (kPreludeBytes + hl) (total - kFrameOverheadBytes - hl) buffer in
  buffer = substr 0 4 buffer ++ substr 4 4 buffer ++ substr 8 4 buffer ++ h ++ p
           ++ substr (total - 4) 4 buffer ++ drop (Z.to_nat total) buffer
  /\ len (substr 0 4 buffer) = 4 /\ len (substr 4 4 buffer) = 4
  /\ len (substr 8 4 buffer) = 4 /\ len (substr (total - 4) 4 buffer) = 4
  /\ len h = hl /\ total = kFrameOverheadBytes + len h + len p.
Proof.
  unfold kFrameOverheadBytes, kPreludeBytes. intros Ht Hh Hb. cbv zeta.
  rewrite !len_substr by lia. split; [|repeat split; lia].
  rewrite (substr_split total buffer) at 1 by lia. rewrite !app_assoc. f_equal.
  replace total with (4 + (4 + (4 + (hl + (total - (12 + 4) - hl + 4))))) at 1 by lia.
  rewrite !substr_add by lia. rewrite <- !app_assoc. do 5 f_equal. f_equal; lia.
Qed.

Lemma decode_message_inv buffer m n :
  DecodeMessage buffer = Ok (Some (m, n)) ->
  message_typed m = true
  /\ exists f rest, EncodeMessage m = Ok f /\ buffer = f ++ rest /\ n = len f.
Proof.
  unfold DecodeMessage.
  destruct (Z.ltb_spec (len buffer) kPreludeBytes) as [|Hp]; [done|].
  set (total := be_value (substr 0 4 buffer)). set (hl := be_value (substr 4 4 buffer)).
  destruct (Z.eqb_spec (Crc32 (substr 0 8 buffer)) (wrap 32 (be_value (substr 8 4 buffer)))) as [C1|];
    [cbn [negb]|done].
  destruct (Z.gtb_spec total kMaxMessageBytes) as [|T1]; [done|].
  destruct (Z.ltb_spec total kFrameOverheadBytes) as [|T2]; [done|].
  destruct (Z.gtb_spec hl kMaxHeaderBlockBytes) as [|T3]; [done|].
  destruct (Z.gtb_spec hl (total - kFrameOverheadBytes)) as [|T4]; [done|]. cbn [orb].
  destruct (Z.ltb_spec (len buffer) total) as [|T5]; [done|].
  destruct (Z.eqb_spec (Crc32 (substr 0 (total - 4) buffer))
              (wrap 32 (be_value (substr (total - 4) 4 buffer)))) as [C2|]; [cbn [negb]|done].
  unfold kPreludeBytes in Hp.
  assert (H4 : forall pos, 0 <= pos -> pos + 4 <= len buffer -> len (substr pos 4 buffer) = 4)
    by (intros; apply len_substr; lia).
  assert (Hhl : 0 <= hl) by (apply be4_inv, H4; lia).
  destruct (shape_of buffer total hl ltac:(done) ltac:(done) ltac:(done))
    as (Eb & LA & LL & LP & LM & Lh & Et).
  set (h := substr kPreludeBytes hl buffer) in *.
  set (p := substr (kPreludeBytes + hl) (total - kFrameOverheadBytes - hl) buffer) in *.
  destruct (shape_reads _ _ _ h p _ (drop (Z.to_nat total) buffer) LA LL LP LM)
    as (_ & _ & _ & R08 & _ & _ & Rm & _). rewrite <- Eb, <- Et in Rm. rewrite <- Eb in R08.
  rewrite R08 in C1. rewrite Rm in C2.
  destruct (decode_headers (length h) h) as [r|] eqn:Ed; [|done].
  intros H. apply bind_Ok in H as (hs & -> & H). apply Ok_inj in H. injection H as <- <-.
  apply decode_headers_inv in Ed as [Ht Ee]. split; [done|].
  exists (lay_out total h p), (drop (Z.to_nat total) buffer).
  rewrite wrap_small in C1, C2 by (by apply be4_inv).
  rewrite len_lay_out. split; [|split; [|lia]].
  - apply EncodeMessage_Ok. exists h. cbn [msg_headers msg_payload].
    rewrite Ee, <- Et. repeat split; lia.
  - rewrite lay_out_eq, <- !app_assoc. rewrite Lh.
    destruct (be4_inv _ LA) as [EA _]. destruct (be4_inv _ LL) as [EL _].
    destruct (be4_inv _ LP) as [EP _]. destruct (be4_inv _ LM) as [EM _].
    fold total in EA. fold hl in EL. rewrite EA, EL, C1, EP, C2, EM. exact Eb.
Qed.

(** ** Feeding more bytes *)

Lemma DecodeMessage_more b c r :
  DecodeMessage b = r -> r <> Ok None -> DecodeMessage (b ++ c) = r.
Proof.
  intros <-. unfold DecodeMessage. pose proof (len_nonneg c). rewrite len_app.
  destruct (Z.ltb_spec (len b) kPreludeBytes) as [|Hp]; [done|].
  unfold kPreludeBytes in Hp.
  destruct (Z.ltb_spec (len b + len c) kPreludeBytes); [unfold kPreludeBytes in *; lia|].
  rewrite (substr_app_l 0 8), (substr_app_l 8 4), (substr_app_l 0 4), (substr_app_l 4 4) by lia.
  destruct (negb _); [done|].
  set (total := be_value (substr 0 4 b)). set (hl := be_value (substr 4 4 b)).
  destruct (Z.gtb_spec total kMaxMessageBytes); [done|].
  destruct (Z.ltb_spec total kFrameOverheadBytes) as [|T2]; [done|].
  unfold kFrameOverheadBytes, kPreludeBytes in *.
  destruct (Z.gtb_spec hl kMaxHeaderBlockBytes); [done|].
  destruct (Z.gtb_spec hl (total - (12 + 4))); [done|]. cbn [orb].
  assert (0 <= hl) by (apply be4_inv, len_substr; lia).
  destruct (Z.ltb_spec (len b) total); [done|].
  destruct (Z.ltb_spec (len b + len c) total); [lia|].
  rewrite !substr_app_l by lia. done.
Qed.

Lemma decode_strict_prefix m f b c :
  message_typed m = true -> EncodeMessage m = Ok f -> f = b ++ c -> c <> [] ->
  DecodeMessage b = Ok None.
Proof.
  intros Ht He -> Hc. pose proof (decode_encode_message m (b ++ c) [] Ht He) as Hd.
  rewrite app_nil_r in Hd.
  destruct (decide (DecodeMessage b = Ok None)) as [|Hn]; [done|exfalso].
  pose proof (DecodeMessage_more b c _ eq_refl Hn) as Hm. rewrite Hd in Hm. symmetry in Hm.
  apply decode_message_inv in Hm as (_ & f' & rest & _ & Eb & Hl).
  apply (f_equal len) in Eb. autorewrite with len in *. pose proof (len_nonneg rest).
  destruct c; [done|]. rewrite len_cons in *. pose proof (len_nonneg c). lia.
Qed.

(** ** Corruption *)

(** The index of a table entry is recoverable from its top byte. *)
Definition crc_index (t : Z) : Z :=
  from_option Z.of_nat 0 (fst <$> list_find (fun e => Z.shiftr e 24 = Z.shiftr t 24) kTable).

Lemma crc_index_table i : 0 <= i < 256 -> crc_index (kTable !!! Z.to_nat i) = i.
Proof.
  intros H.
  assert (F : forallb (fun n => crc_index (kTable !!! n) =? Z.of_nat n) (seq 0 256) = true)
    by by vm_compute.
  rewrite forallb_forall in F. specialize (F (Z.to_nat i)).
  rewrite in_seq, Z.eqb_eq in F. rewrite F; lia.
Qed.

Lemma crc_step_index crc b :
  0 <= crc < 2 ^ 32 -> crc_index (crc_step crc b) = Z.land (Z.lxor crc (b2z b)) 255.
Proof.
  intros H. rewrite <- (crc_index_table _ (land_255_range _)). unfold crc_index.
  assert (E : Z.shiftr (crc_step crc b) 24
              = Z.shiftr (kTable !!! Z.to_nat (Z.land (Z.lxor crc (b2z b)) 255)) 24).
  { unfold crc_step. rewrite Z.shiftr_lxor, Z.shiftr_shiftr by lia.
    rewrite (Z.shiftr_div_pow2 crc) by lia. rewrite (Z.div_small crc) by lia.
    by rewrite Z.lxor_0_r. }
  by rewrite E.
Qed.

Lemma lxor_cancel_r a b c : Z.lxor a c = Z.lxor b c -> a = b.
Proof.
  intros H. rewrite <- (Z.lxor_0_r a), <- (Z.lxor_0_r b), <- (Z.lxor_nilpotent c).
  by rewrite <- !Z.lxor_assoc, H.
Qed.

Lemma lxor_cancel_l a b c : Z.lxor c a = Z.lxor c b -> a = b.
Proof. rewrite !(Z.lxor_comm c). apply lxor_cancel_r. Qed.

Lemma land_255_lxor a b : Z.land (Z.lxor a b) 255 = Z.lxor (Z.land a 255) (Z.land b 255).
Proof.
  apply Z.bits_inj'. intros n Hn. rewrite Z.land_spec, !Z.lxor_spec, !Z.land_spec.
  destruct (Z.testbit a n), (Z.testbit b n), (Z.testbit 255 n); done.
Qed.

Lemma land_255_byte b : Z.land (b2z b) 255 = b2z b.
Proof.
  change 255 with (Z.ones 8). rewrite Z.land_ones by lia. apply Z.mod_small, b2z_range.
Qed.

Lemma crc_step_inj_state c c' b :
  0 <= c < 2 ^ 32 -> 0 <= c' < 2 ^ 32 -> crc_step c b = crc_step c' b -> c = c'.
Proof.
  intros H H' E. pose proof (crc_step_index c b H) as I. rewrite E, crc_step_index in I by done.
  unfold crc_step in E. rewrite I in E. apply lxor_cancel_l in E.
  rewrite !land_255_lxor in I. apply lxor_cancel_r in I.
  change 255 with (Z.ones 8) in I. rewrite !Z.land_ones in I by lia.
  rewrite !Z.shiftr_div_pow2 in E by lia.
  rewrite (Z.div_mod c (2 ^ 8)), (Z.div_mod c' (2 ^ 8)) by lia. congruence.
Qed.

Lemma crc_step_inj_byte c b b' :
  0 <= c < 2 ^ 32 -> crc_step c b = crc_step c b' -> b = b'.
Proof.
  intros H E. pose proof (crc_step_index c b H) as I. rewrite E, crc_step_index in I by done.
  rewrite !land_255_lxor in I. apply lxor_cancel_l in I. rewrite !land_255_byte in I.
  by apply b2z_inj.
Qed.

(** A CRC over the same length tells any two texts apart that differ in one
    byte. *)
Lemma Crc32_one_byte pre x y post :
  Crc32 (pre ++ x :: post) = Crc32 (pre ++ y :: post) -> x = y.
Proof.
  unfold Crc32. intros H. apply lxor_cancel_r in H. rewrite !fold_left_app in H. simpl in H.
  assert (Hr : 0 <= fold_left crc_step pre 4294967295 < 2 ^ 32) by (apply crc_fold_range; lia).
  set (c := fold_left crc_step pre 4294967295) in *. clearbody c.
  assert (Hi : forall c c', 0 <= c < 2 ^ 32 -> 0 <= c' < 2 ^ 32 ->
    fold_left crc_step post c = fold_left crc_step post c' -> c = c').
  { clear. induction post as [|z post IH]; intros c c' Hc Hc' E; [done|]. simpl in E.
    apply IH in E; try (by apply crc_step_range). by apply crc_step_inj_state in E. }
  apply Hi in H; try (by apply crc_step_range). by apply crc_step_inj_byte in H.
Qed.

Lemma be4_one_byte pre x y post :
  len (pre ++ x :: post) = 4 ->
  be_value (pre ++ x :: post) = be_value (pre ++ y :: post) -> x = y.
Proof.
  intros H E. assert (H' : len (pre ++ y :: post) = 4) by (autorewrite with len in *; lia).
  apply be4_inv in H as [H _]. apply be4_inv in H' as [H' _].
  apply (f_equal (be_bytes 4)) in E. rewrite H, H' in E.
  apply app_inv_head in E. congruence.
Qed.

(** Where a byte of [a ++ b] sits. *)
Lemma app_cons_split {A} (a b pre post : list A) x :
  a ++ b = pre ++ x :: post ->
  (exists q, a = pre ++ x :: q /\ post = q ++ b)
  \/ (exists q, b = q ++ x :: post /\ pre = a ++ q).
Proof.
  revert pre. induction a as [|y a IH]; intros pre H; [right; by exists pre|].
  destruct pre as [|z pre]; simpl in H; injection H as -> H.
  - left. by exists a.
  - destruct (IH _ H) as [(q & -> & ->)|(q & -> & ->)]; [left|right]; by exists q.
Qed.

Lemma len_swap {A} (pre post : list A) x y : len (pre ++ x :: post) = len (pre ++ y :: post).
Proof. autorewrite with len. lia. Qed.

Lemma prelude_crc_mismatch A L P rest :
  len A = 4 -> len L = 4 -> len P = 4 -> be_value P <> Crc32 (A ++ L) ->
  DecodeMessage (A ++ L ++ P ++ rest) = Err (Malformed (lit "prelude CRC mismatch")).
Proof.
  intros HA HL HP Hc. unfold DecodeMessage. pose proof (len_nonneg rest).
  destruct (Z.ltb_spec (len (A ++ L ++ P ++ rest)) kPreludeBytes);
    [autorewrite with len in *; unfold kPreludeBytes in *; lia|].
  rewrite (app_assoc A L), (substr_mid 8 4 (A ++ L)), (substr_head 8 (A ++ L))
    by (autorewrite with len; lia).
  rewrite wrap_small by (by apply be4_inv).
  destruct (Z.eqb_spec (Crc32 (A ++ L)) (be_value P)); [congruence|]. done.
Qed.

Lemma message_crc_mismatch A L P h p M rest :
  len A = 4 -> len L = 4 -> len P = 4 -> len M = 4 ->
  be_value A = kFrameOverheadBytes + len h + len p -> be_value L = len h ->
  kFrameOverheadBytes + len h + len p <= kMaxMessageBytes -> len h <= kMaxHeaderBlockBytes ->
  be_value P = Crc32 (A ++ L) -> be_value M <> Crc32 (A ++ L ++ P ++ h ++ p) ->
  DecodeMessage (A ++ L ++ P ++ h ++ p ++ M ++ rest)
  = Err (Malformed (lit "message CRC mismatch")).
Proof.
  intros. rewrite DecodeMessage_shape by done.
  destruct (Z.eqb_spec (Crc32 (A ++ L)) (be_value P)); [|congruence]. cbn [negb].
  destruct (Z.eqb_spec (Crc32 (A ++ L ++ P ++ h ++ p)) (be_value M)); [congruence|]. done.
Qed.

(** The fields of an encoded frame, and one byte [x] of it replaced by [y]. *)
Section corrupt.
Context (A L P h p M rest : bytes) (x y : Byte.byte).
Context (LA : len A = 4) (LL : len L = 4) (LP : len P = 4) (LM : len M = 4).
Context (EP : be_value P = Crc32 (A ++ L)) (EM : be_value M = Crc32 (A ++ L ++ P ++ h ++ p)).
Context (Hy : y <> x).

Lemma corrupt_lengths pre q :
  A ++ L = pre ++ x :: q ->
  DecodeMessage ((pre ++ y :: q) ++ P ++ h ++ p ++ M ++ rest)
  = Err (Malformed (lit "prelude CRC mismatch")).
Proof using LA LL LP EP Hy.
  intros Eq. set (AL := pre ++ y :: q).
  assert (HAL : len AL = 8) by (unfold AL; rewrite (len_swap pre q y x), <- Eq, len_app; lia).
  rewrite (substr_split 4 AL), <- app_assoc by lia.
  apply prelude_crc_mismatch; [apply len_substr; lia| |done|].
  - unfold len in *. rewrite length_drop. lia.
  - rewrite <- substr_split by lia. unfold AL. rewrite EP, Eq. intros E.
    apply Crc32_one_byte in E. congruence.
Qed.

Lemma corrupt_prelude_crc q q' :
  P = q ++ x :: q' ->
  DecodeMessage (A ++ L ++ (q ++ y :: q') ++ h ++ p ++ M ++ rest)
  = Err (Malformed (lit "prelude CRC mismatch")).
Proof using LA LL LP EP Hy.
  intros Eq. apply prelude_crc_mismatch; try done.
  - rewrite <- LP, Eq. apply len_swap.
  - rewrite <- EP, Eq. intros E. symmetry in E. apply be4_one_byte in E; [congruence|].
    by rewrite <- Eq.
Qed.

Context (EA : be_value A = kFrameOverheadBytes + len h + len p) (EL : be_value L = len h).
Context (H1 : len h <= kMaxHeaderBlockBytes)
  (H2 : kFrameOverheadBytes + len h + len p <= kMaxMessageBytes).

Lemma corrupt_body q q' h' p' :
  h ++ p = q ++ x :: q' -> h' ++ p' = q ++ y :: q' -> len h' = len h ->
  DecodeMessage (A ++ L ++ P ++ h' ++ p' ++ M ++ rest)
  = Err (Malformed (lit "message CRC mismatch")).
Proof using LA LL LP LM EP EM Hy EA EL H1 H2.
  intros Eq Eq' Eh.
  assert (Ep : len p' = len p).
  { apply (f_equal len) in Eq. apply (f_equal len) in Eq'.
    rewrite (len_swap q q' y x) in Eq'. rewrite len_app in *. lia. }
  apply message_crc_mismatch; try done; rewrite ?Eh, ?Ep; try done.
  rewrite EM, Eq, Eq'. intros E.
  rewrite !(app_assoc A), !(app_assoc (A ++ L)), !(app_assoc ((A ++ L) ++ P)) in E.
  apply Crc32_one_byte in E. congruence.
Qed.

Lemma corrupt_message_crc q q' :
  M = q ++ x :: q' ->
  DecodeMessage (A ++ L ++ P ++ h ++ p ++ (q ++ y :: q') ++ rest)
  = Err (Malformed (lit "message CRC mismatch")).
Proof using LA LL LP LM EP EM Hy EA EL H1 H2.
  intros Eq. apply message_crc_mismatch; try done.
  - rewrite <- LM, Eq. apply len_swap.
  - rewrite <- EM, Eq. intros E. symmetry in E. apply be4_one_byte in E; [congruence|].
    by rewrite <- Eq.
Qed.

(** The byte sits in one of the fields. *)
Lemma corrupt_field pre post :
  A ++ L ++ P ++ h ++ p ++ M = pre ++ x :: post ->
  exists what, DecodeMessage ((pre ++ y :: post) ++ rest) = Err (Malformed what).
Proof using LA LL LP LM EP EM Hy EA EL H1 H2.
  intros Hf. rewrite (app_assoc A) in Hf.
  apply app_cons_split in Hf as [(q & Eq & ->)|(q & Hf & ->)].
  { eexists. rewrite <- (corrupt_lengths _ _ Eq). f_equal. solve_app. }
  apply app_cons_split in Hf as [(q' & Eq & ->)|(q' & Hf & ->)].
  { eexists. rewrite <- (corrupt_prelude_crc _ _ Eq). f_equal. solve_app. }
  apply app_cons_split in Hf as [(q & Eq & ->)|(q & Hf & ->)].
  { eexists. rewrite <- (corrupt_body q' (q ++ p) (q' ++ y :: q) p);
      [f_equal; solve_app | rewrite Eq; solve_app | solve_app | rewrite Eq; apply len_swap]. }
  apply app_cons_split in Hf as [(q'' & Eq & ->)|(q'' & Hf & ->)].
  { eexists. rewrite <- (corrupt_body (h ++ q) q'' h (q ++ y :: q''));
      [f_equal; solve_app | rewrite Eq; solve_app | solve_app | done]. }
  eexists. rewrite <- (corrupt_message_crc _ _ Hf). f_equal. solve_app.
Qed.
End corrupt.

(** C1: an encoded message, followed by anything, decodes to that message and
    to the length of its frame; and whatever [DecodeMessage] surfaces is the
    well-typed message whose encoding is exactly the consumed bytes.  So the
    decoder accepts the encoder's frames and nothing else. *)
Theorem DecodeMessage_iff buffer m n :
  DecodeMessage buffer = Ok (Some (m, n)) <->
  message_typed m = true
  /\ exists f rest, EncodeMessage m = Ok f /\ buffer = f ++ rest /\ n = len f.
Proof.
  split; [apply decode_message_inv|].
  intros (Ht & f & rest & He & -> & ->). by apply decode_encode_message.
Qed.

(** a strict prefix of a frame is never an error and never a message:
    the decoder asks for more bytes. *)
Theorem DecodeMessage_prefix m f b c :
  message_typed m = true -> EncodeMessage m = Ok f -> f = b ++ c -> c <> [] ->
  DecodeMessage b = Ok None.
Proof. apply decode_strict_prefix. Qed.

(** the decoder's decisions are final: once a buffer yields a message or
    an error, it yields the same whatever bytes arrive later. *)
Theorem DecodeMessage_stable b c :
  DecodeMessage b <> Ok None -> DecodeMessage (b ++ c) = DecodeMessage b.
Proof. by apply DecodeMessage_more. Qed.

(** C2: an encoded frame with any one byte changed, in the lengths, the
    headers, the payload or either CRC, is refused as malformed. *)
Theorem DecodeMessage_corrupt m f pre x y post rest :
  EncodeMessage m = Ok f -> f = pre ++ x :: post -> y <> x ->
  exists what, DecodeMessage ((pre ++ y :: post) ++ rest) = Err (Malformed what).
Proof.
  intros He Hf Hy. apply EncodeMessage_Ok in He as (h & Hh & H1 & H2 & ->).
  rewrite lay_out_eq in Hf.
  pose proof (len_nonneg h). pose proof (len_nonneg (msg_payload m)).
  eapply corrupt_field in Hf; try done; rewrite ?len_be_bytes; try done;
    try apply be4_roundtrip; try apply Crc32_range;
    unfold kMaxHeaderBlockBytes, kMaxMessageBytes, kFrameOverheadBytes, kPreludeBytes in *; lia.
Qed.

#[export] Instance frame_codec :
  Codec EncodeMessage
    (fun f => r ← DecodeMessage f;
              match r with Some (m, _) => Ok m | None => Err (Malformed (lit "incomplete")) end)
    (fun m => message_typed m = true).
Proof.
  intros m f Ht He. pose proof (decode_encode_message m f [] Ht He) as E.
  rewrite app_nil_r in E. by rewrite E.
Qed.

(** ** Witnesses *)

Definition sample_message : Message :=
  mkMessage [mkHeader (lit ":event-type") (HString (lit "ping")); mkHeader (lit "n") (HInt (-7))]
    (lit "hello").

Definition sample_frame : bytes :=
  match EncodeMessage sample_message with Ok f => f | Err _ => [] end.

Lemma DecodeMessage_prefix_witness : DecodeMessage (take 20 sample_frame) = Ok None.
Proof.
  apply (DecodeMessage_prefix sample_message sample_frame _ (drop 20 sample_frame)).
  - vm_compute. reflexivity.
  - vm_compute. reflexivity.
  - symmetry. apply take_drop.
  - vm_compute. discriminate.
Defined.

Lemma DecodeMessage_stable_witness :
  DecodeMessage (sample_frame ++ lit "more") = DecodeMessage sample_frame.
Proof. apply DecodeMessage_stable. vm_compute. discriminate. Defined.

Lemma DecodeMessage_corrupt_witness :
  exists what, DecodeMessage ((take 40 sample_frame ++ Byte.x00 :: drop 41 sample_frame) ++ [])
               = Err (Malformed what).
Proof.
  apply (DecodeMessage_corrupt sample_message sample_frame _ (sample_frame !!! 40%nat)).
  - vm_compute. reflexivity.
  - vm_compute. reflexivity.
  - vm_compute. discriminate.
Defined.
