(* ===== verification/RegexSyntax.v ===== *)
(** core/regex.cc, the pattern side: byte classes, the parse tree and the
    recursive-descent [Parser].  A parser state is the unread suffix of the
    pattern; the mutually recursive methods share a fuel argument, [None] is
    "out of fuel", and [Parse_total] shows that [Parse] never runs out. *)
From Stdlib Require Import ZArith Lia Strings.Byte.
From S2P Require Import Prelude Bytes.

Local Open Scope Z_scope.

(** ** Byte classes: [std::bitset<256>] as the integer of its bits *)

Definition bitset := Z.
Definition bs_set (s : bitset) (c : Z) : bitset := Z.setbit s c.
Definition bs_reset (s : bitset) (c : Z) : bitset := Z.clearbit s c.
Definition bs_test (s : bitset) (b : Byte.byte) : bool := Z.testbit s (b2z b).
Definition bs_all : bitset := Z.ones 256.
Definition bs_flip (s : bitset) : bitset := Z.lxor s bs_all.
Definition bs_range (s : bitset) (lo hi : Z) : bitset :=
  fold_left (fun s i => bs_set s (lo + Z.of_nat i)) (seq 0 (Z.to_nat (hi - lo + 1))) s.

Definition IsWordByte (c : Byte.byte) : bool :=
  let z := b2z c in
  ((97 <=? z) && (z <=? 122)) || ((65 <=? z) && (z <=? 90)) || ((48 <=? z) && (z <=? 57))
  || (z =? 95).

Definition DigitClass : bitset := Eval vm_compute in bs_range 0 48 57.
Definition WordClass : bitset := Eval vm_compute in
  fold_left (fun s c => if IsWordByte c then bs_set s (b2z c) else s) all_bytes 0.
Definition SpaceClass : bitset := Eval vm_compute in
  fold_left (fun s c => bs_set s c) [32; 9; 10; 13; 12; 11] 0.
Definition DotClass : bitset := Eval vm_compute in bs_reset (bs_reset bs_all 10) 13.

(** ** The parse tree *)

Inductive Assert := kInputStart | kInputEnd | kWordBoundary | kNotWordBoundary.

#[global] Instance Assert_eq_dec : EqDecision Assert.
Proof. solve_decision. Defined.

(** [Node], one constructor per [Kind]; [max < 0] is unbounded. *)
Inductive Node :=
| kEmpty
| kByte (b : Byte.byte)
| kClass (cls : bitset)
| kConcat (children : list Node)
| kAlt (children : list Node)
| kRepeat (min max : Z) (child : Node)
| kAssert (k : Assert).

(** Induction through the children lists. *)
Fixpoint Node_ind' (P : Node -> Prop)
    (He : P kEmpty) (Hb : forall b, P (kByte b)) (Hc : forall c, P (kClass c))
    (Hcc : forall l, Forall P l -> P (kConcat l)) (Ha : forall l, Forall P l -> P (kAlt l))
    (Hr : forall min max n, P n -> P (kRepeat min max n)) (Hs : forall k, P (kAssert k))
    (n : Node) : P n :=
  let rec := Node_ind' P He Hb Hc Hcc Ha Hr Hs in
  let all := fix all (l : list Node) : Forall P l :=
    match l with [] => Forall_nil_2 P | x :: l' => Forall_cons_2 P x l' (rec x) (all l') end in
  match n with
  | kEmpty => He
  | kByte b => Hb b
  | kClass c => Hc c
  | kConcat l => Hcc l (all l)
  | kAlt l => Ha l (all l)
  | kRepeat min max n => Hr min max n (rec n)
  | kAssert k => Hs k
  end.

(** ** The parser *)

Definition kMaxRepeatCount : Z := 1024.
Definition kMaxGroupDepth : Z := 128.

(** What a parser method returns: out of fuel, an error, or a value and the
    unread suffix. *)
Definition PResult (A : Type) := option (Outcome (A * bytes)).

Definition success {A} (a : A) (s : bytes) : PResult A := Some (Ok (a, s)).
Definition Fail {A} (why : bytes) : PResult A :=
  Some (Err (Error_Serialization (lit "Regex: " ++ why))).

Definition pbind {A B} (m : PResult A) (f : A -> bytes -> PResult B) : PResult B :=
  match m with
  | None => None
  | Some (Err e) => Some (Err e)
  | Some (Ok (a, s)) => f a s
  end.

Notation "'let*' ( x , s ) := m 'in' k" := (pbind m (fun x s => k))
  (at level 200, x name, s name, m at level 100, k at level 200, right associativity) : opal_scope.
Local Open Scope opal_scope.

(** [Eat(c)]: the suffix after [c], if it is next. *)
Definition Eat (c : Byte.byte) (s : bytes) : option bytes :=
  match s with
  | x :: s' => if byte_eqb x c then Some s' else None
  | [] => None
  end.

(** [!AtEnd() && Peek() == c]. *)
Definition at_byte (c : Byte.byte) (s : bytes) : bool :=
  match s with x :: _ => byte_eqb x c | [] => false end.

(** The digit loop of [ParseInt], from the value read so far. *)
Fixpoint int_loop (value : Z) (s : bytes) : option (Z * bytes) :=
  match s with
  | c :: s' =>
    if is_digit c then
      let value := value * 10 + digit_value c in
      if value >? kMaxRepeatCount then None else int_loop value s'
    else Some (value, s)
  | [] => Some (value, [])
  end.

Definition ParseInt (s : bytes) : option (Z * bytes) :=
  match s with
  | c :: _ => if is_digit c then int_loop 0 s else None
  | [] => None
  end.

(** [ParseBoundedQuantifier] after the '{'; [None] when it is not one. *)
Definition ParseBoundedQuantifier (s : bytes) : option (Z * Z * bytes) :=
  '(n, s) ← ParseInt s;
  match Eat "}"%byte s with
  | Some s => Some (n, n, s)
  | None =>
    s ← Eat ","%byte s;
    match Eat "}"%byte s with
    | Some s => Some (n, -1, s)
    | None =>
      '(m, s) ← ParseInt s;
      s ← Eat "}"%byte s;
      if m <? n then None else Some (n, m, s)
    end
  end.

Definition hex_digit (c : Byte.byte) : Z :=
  let z := b2z c in
  if (48 <=? z) && (z <=? 57) then z - 48
  else if (97 <=? z) && (z <=? 102) then z - 97 + 10
  else if (65 <=? z) && (z <=? 70) then z - 65 + 10
  else -1.

Fixpoint hex_loop (digits : nat) (value : Z) (s : bytes) : option (Z * bytes) :=
  match digits with
  | O => Some (value, s)
  | S digits' =>
    match s with
    | [] => None
    | c :: s' => let d := hex_digit c in
                 if d <? 0 then None else hex_loop digits' (value * 16 + d) s'
    end
  end.

Definition ParseHex (digits : nat) (s : bytes) : option (Z * bytes) := hex_loop digits 0 s.

(** [SimpleEscapeByte]; [None] is the code's -1. *)
Definition SimpleEscapeByte (c : Byte.byte) (s : bytes) : option (Z * bytes) :=
  match c with
  | "n"%byte => Some (10, s)
  | "r"%byte => Some (13, s)
  | "t"%byte => Some (9, s)
  | "f"%byte => Some (12, s)
  | "v"%byte => Some (11, s)
  | "0"%byte => Some (0, s)
  | "x"%byte => ParseHex 2 s
  | _ => if IsWordByte c then None else Some (b2z c, s)
  end.

Definition unsupported_escape (c : Byte.byte) : bytes :=
  lit "unsupported escape '\" ++ [c] ++ lit "'".

(** [ParseClassEscape]: a class ([inl]) or a single byte ([inr]). *)
Definition ParseClassEscape (s : bytes) : PResult (bitset + Z) :=
  match s with
  | [] => Fail (lit "dangling escape")
  | c :: s =>
    match c with
    | "d"%byte => success (inl DigitClass) s
    | "D"%byte => success (inl (bs_flip DigitClass)) s
    | "w"%byte => success (inl WordClass) s
    | "W"%byte => success (inl (bs_flip WordClass)) s
    | "s"%byte => success (inl SpaceClass) s
    | "S"%byte => success (inl (bs_flip SpaceClass)) s
    | "b"%byte => success (inr 8) s
    | _ => match SimpleEscapeByte c s with
           | None => Fail (unsupported_escape c)
           | Some (b, s) => success (inr b) s
           end
    end
  end.

(** One class member: a literal byte or an escape. *)
Definition class_member (c : Byte.byte) (s : bytes) : PResult (bitset + Z) :=
  if byte_eqb c "\"%byte then ParseClassEscape s else success (inr (b2z c)) s.

(** The member loop of [ParseClass]: every turn takes a byte. *)
Fixpoint class_loop (fuel : nat) (first : bool) (cls : bitset) (s : bytes) : PResult bitset :=
  match fuel with
  | O => None
  | S fuel' =>
    match s with
    | [] => Fail (lit "unterminated character class")
    | c :: s =>
      if byte_eqb c "]"%byte && negb first then success cls s
      else
        let* (lo, s) := class_member c s in
        match lo with
        | inl lo_class => class_loop fuel' false (Z.lor cls lo_class) s
        | inr lo =>
          match s with
          | x :: h :: s' =>
            if byte_eqb x "-"%byte && negb (byte_eqb h "]"%byte) then
              let* (hi, s) := class_member h s' in
              match hi with
              | inl _ => Fail (lit "class escape cannot end a range")
              | inr hi =>
                if hi <? lo then Fail (lit "character range is out of order")
                else class_loop fuel' false (bs_range cls lo hi) s
              end
            else class_loop fuel' false (bs_set cls lo) s
          | _ => class_loop fuel' false (bs_set cls lo) s
          end
        end
    end
  end.

Definition ParseClass (s : bytes) : PResult Node :=
  let (negate, s) := match Eat "^"%byte s with Some s => (true, s) | None => (false, s) end in
  let* (cls, s) := class_loop (S (length s)) true 0 s in
  success (kClass (if negate then bs_flip cls else cls)) s.

(** [Utf8Literal]: the UTF-8 bytes of a BMP code point. *)
Definition Utf8Literal (code : Z) (s : bytes) : PResult Node :=
  if (55296 <=? code) && (code <=? 57343) then
    Fail (lit "surrogate \u escapes are not supported")
  else if code <? 128 then success (kByte (z2b code)) s
  else if code <? 2048 then
    success (kConcat [kByte (z2b (Z.lor 192 (Z.shiftr code 6)));
                   kByte (z2b (Z.lor 128 (Z.land code 63)))]) s
  else
    success (kConcat [kByte (z2b (Z.lor 224 (Z.shiftr code 12)));
                   kByte (z2b (Z.lor 128 (Z.land (Z.shiftr code 6) 63)));
                   kByte (z2b (Z.lor 128 (Z.land code 63)))]) s.

Definition ParseEscape (s : bytes) : PResult Node :=
  match s with
  | [] => Fail (lit "dangling escape")
  | c :: s =>
    match c with
    | "d"%byte => success (kClass DigitClass) s
    | "D"%byte => success (kClass (bs_flip DigitClass)) s
    | "w"%byte => success (kClass WordClass) s
    | "W"%byte => success (kClass (bs_flip WordClass)) s
    | "s"%byte => success (kClass SpaceClass) s
    | "S"%byte => success (kClass (bs_flip SpaceClass)) s
    | "b"%byte => success (kAssert kWordBoundary) s
    | "B"%byte => success (kAssert kNotWordBoundary) s
    | "1"%byte | "2"%byte | "3"%byte | "4"%byte | "5"%byte
    | "6"%byte | "7"%byte | "8"%byte | "9"%byte =>
      Fail (lit "backreferences are not supported by the linear-time engine")
    | "u"%byte =>
      match ParseHex 4 s with
      | None => Fail (lit "malformed \uHHHH escape")
      | Some (code, s) => Utf8Literal code s
      end
    | _ => match SimpleEscapeByte c s with
           | None => Fail (unsupported_escape c)
           | Some (b, s) => success (kByte (z2b b)) s
           end
    end
  end.

(** The head of [ParseGroup], after '(' and the depth test: the suffix where
    the body starts. *)
Definition group_prefix (s : bytes) : PResult unit :=
  match Eat "?"%byte s with
  | None => success tt s
  | Some s =>
    match Eat ":"%byte s with
    | Some s => success tt s
    | None =>
      if at_byte "="%byte s || at_byte "!"%byte s then
        Fail (lit "lookahead is not supported by the linear-time engine")
      else
        match Eat "<"%byte s with
        | Some s =>
          if at_byte "="%byte s || at_byte "!"%byte s then
            Fail (lit "lookbehind is not supported by the linear-time engine")
          else
            match Eat ">"%byte (drop_while (fun b => negb (byte_eqb b ">"%byte)) s) with
            | Some s => success tt s
            | None => Fail (lit "unterminated group name")
            end
        | None => Fail (lit "unsupported group syntax '(?'")
        end
    end
  end.

(** The quantifier after an atom: [None] when there is none, else the bounds
    and the suffix after it. *)
Definition quantifier (s : bytes) : option (Z * Z * bytes) :=
  match s with
  | "*"%byte :: s => Some (0, -1, s)
  | "+"%byte :: s => Some (1, -1, s)
  | "?"%byte :: s => Some (0, 1, s)
  | "{"%byte :: s => ParseBoundedQuantifier s
  | _ => None
  end.

Definition is_assert (n : Node) : bool := match n with kAssert _ => true | _ => false end.

(** [ParseRepeat] once its atom is read. *)
Definition apply_quantifier (atom : Node) (s : bytes) : PResult Node :=
  match quantifier s with
  | None => success atom s
  | Some (min, max, s) =>
    if is_assert atom then Fail (lit "quantifier applied to an assertion")
    else
      let s := match Eat "?"%byte s with Some s => s | None => s end in
      if at_byte "*"%byte s || at_byte "+"%byte s then Fail (lit "double quantifier")
      else success (kRepeat min max atom) s
  end.

(** [ParseConcat]'s result from the pieces it read. *)
Definition concat_node (pieces : list Node) : Node :=
  match pieces with
  | [] => kEmpty
  | [n] => n
  | _ => kConcat pieces
  end.

Fixpoint ParseAlternation (fuel : nat) (depth : Z) (s : bytes) {struct fuel} : PResult Node :=
  match fuel with
  | O => None
  | S f =>
    let* (first, s) := ParseConcat f depth [] s in
    if at_byte "|"%byte s then
      let* (branches, s) := alt_loop f depth [first] s in success (kAlt branches) s
    else success first s
  end

(** [while (Eat('|'))]: the branches so far are an accumulator. *)
with alt_loop (fuel : nat) (depth : Z) (acc : list Node) (s : bytes) {struct fuel}
    : PResult (list Node) :=
  match fuel with
  | O => None
  | S f =>
    match Eat "|"%byte s with
    | None => success acc s
    | Some s =>
      let* (branch, s) := ParseConcat f depth [] s in
      alt_loop f depth (acc ++ [branch]) s
    end
  end

with ParseConcat (fuel : nat) (depth : Z) (acc : list Node) (s : bytes) {struct fuel}
    : PResult Node :=
  match fuel with
  | O => None
  | S f =>
    match s with
    | [] => success (concat_node acc) []
    | c :: s' =>
      if byte_eqb c "|"%byte || byte_eqb c ")"%byte then success (concat_node acc) s
      else
        let* (atom, s) := ParseAtom f depth c s' in
        let* (piece, s) := apply_quantifier atom s in
        ParseConcat f depth (acc ++ [piece]) s
    end
  end

(** [ParseAtom] on the byte it takes. *)
with ParseAtom (fuel : nat) (depth : Z) (c : Byte.byte) (s : bytes) {struct fuel} : PResult Node :=
  match fuel with
  | O => None
  | S f =>
    match c with
    | "^"%byte => success (kAssert kInputStart) s
    | "$"%byte => success (kAssert kInputEnd) s
    | "."%byte => success (kClass DotClass) s
    | "("%byte =>
      if depth >=? kMaxGroupDepth then Fail (lit "groups nested too deeply")
      else
        let* (u, s) := group_prefix s in
        let* (body, s) := ParseAlternation f (depth + 1) s in
        match Eat ")"%byte s with
        | Some s => success body s
        | None => Fail (lit "missing ')'")
        end
    | "["%byte => ParseClass s
    | "\"%byte => ParseEscape s
    | "*"%byte | "+"%byte | "?"%byte => Fail (lit "quantifier with nothing to repeat")
    | _ => success (kByte c) s
    end
  end.

(** The fuel of a whole pattern: four calls at most per byte read. *)
Definition parse_fuel (pattern : bytes) : nat := (4 * length pattern + 4)%nat.

Definition Parse (pattern : bytes) : option (Outcome Node) :=
  match ParseAlternation (parse_fuel pattern) 0 pattern with
  | None => None
  | Some (Err e) => Some (Err e)
  | Some (Ok (node, [])) => Some (Ok node)
  | Some (Ok (_, _ :: _)) =>
    Some (Err (Error_Serialization (lit "Regex: unbalanced ')'")))
  end.

(** ** What a parse tree promises *)

Definition set_ok (s : bitset) : bool := (0 <=? s) && (s <? 2 ^ 256).

(** Classes hold bytes only, concatenations and alternations have at least two
    children, repetition bounds are within the cap and never on an assertion. *)
Fixpoint node_ok (n : Node) : bool :=
  match n with
  | kEmpty | kByte _ | kAssert _ => true
  | kClass cls => set_ok cls
  | kConcat l | kAlt l => (2 <=? len l) && forallb node_ok l
  | kRepeat min max n =>
    (0 <=? min) && (min <=? kMaxRepeatCount)
    && ((max =? -1) || ((min <=? max) && (max <=? kMaxRepeatCount)))
    && negb (is_assert n) && node_ok n
  end.

Fixpoint node_height (n : Node) : nat :=
  match n with
  | kEmpty | kByte _ | kAssert _ | kClass _ => O
  | kConcat l | kAlt l => S (fold_right (fun n h => Nat.max (node_height n) h) O l)
  | kRepeat _ _ n => S (node_height n)
  end.

(** The height an alternation parsed at a group depth can have. *)
Definition height_bound (depth : Z) : nat := (3 * Z.to_nat (kMaxGroupDepth - depth) + 4)%nat.

(** A parser result: not out of fuel, and a value satisfying [Q] with at most
    [n] bytes left. *)
Definition parses {A} (Q : A -> Prop) (n : nat) (r : PResult A) : Prop :=
  match r with
  | None => False
  | Some (Err _) => True
  | Some (Ok (a, s)) => Q a /\ (length s <= n)%nat
  end.

Lemma parses_bind {A B} (Q : A -> Prop) (R : B -> Prop) n k (m : PResult A) f :
  parses Q n m -> (forall a s, Q a -> (length s <= n)%nat -> parses R k (f a s)) ->
  parses R k (pbind m f).
Proof. destruct m as [[[a s]|e]|]; simpl; naive_solver. Qed.

Lemma parses_mono {A} (Q R : A -> Prop) n k (m : PResult A) :
  parses Q n m -> (forall a, Q a -> R a) -> (n <= k)%nat -> parses R k m.
Proof. destruct m as [[[a s]|e]|]; simpl; [|done..]. intros [? ?]. split; [auto|lia]. Qed.

Lemma parses_fail {A} (Q : A -> Prop) n why : parses Q n (Fail why).
Proof. done. Qed.

Lemma parses_success {A} (Q : A -> Prop) n a s : Q a -> (length s <= n)%nat -> parses Q n (success a s).
Proof. done. Qed.

#[export] Hint Resolve parses_fail : opal.

(** ** Classes stay within 256 bits *)

Lemma set_ok_bits s : set_ok s = true <-> 0 <= s /\ forall i, 256 <= i -> Z.testbit s i = false.
Proof. unfold set_ok. rewrite <- (bits_bound 256 s) by lia. rewrite andb_true_iff. lia. Qed.

Lemma set_ok_lor s t : set_ok s = true -> set_ok t = true -> set_ok (Z.lor s t) = true.
Proof.
  rewrite !set_ok_bits. intros [? H] [? H']. split; [by apply Z.lor_nonneg|].
  intros i Hi. by rewrite Z.lor_spec, H, H'.
Qed.

Lemma set_ok_set s c : set_ok s = true -> 0 <= c < 256 -> set_ok (bs_set s c) = true.
Proof.
  intros Hs Hc. unfold bs_set. rewrite Z.setbit_spec'. apply set_ok_lor; [done|].
  unfold set_ok. pose proof (pow2_pos c ltac:(lia)).
  pose proof (Z.pow_lt_mono_r 2 c 256). lia.
Qed.

Lemma set_ok_range s lo hi :
  set_ok s = true -> 0 <= lo -> hi < 256 -> set_ok (bs_range s lo hi) = true.
Proof.
  intros Hs Hl Hh. unfold bs_range.
  assert (H : Forall (fun i => lo + Z.of_nat i < 256) (seq 0 (Z.to_nat (hi - lo + 1)))).
  { apply Forall_seq. lia. }
  revert s Hs H. generalize (seq 0 (Z.to_nat (hi - lo + 1))) as l.
  induction l as [|i l IH]; intros s Hs H; [done|].
  apply Forall_cons in H as [Hi H]. apply IH; [|done]. apply set_ok_set; [done|lia].
Qed.

Lemma set_ok_flip s : set_ok s = true -> set_ok (bs_flip s) = true.
Proof.
  unfold set_ok, bs_flip. intros H. zbool.
  pose proof (lxor_range 256 s bs_all ltac:(lia) ltac:(lia)) as Hr.
  assert (0 <= bs_all < 2 ^ 256) by (split; [done|reflexivity]). specialize (Hr ltac:(done)). lia.
Qed.

Lemma set_ok_classes :
  set_ok DigitClass = true /\ set_ok WordClass = true /\ set_ok SpaceClass = true
  /\ set_ok DotClass = true.
Proof. by vm_compute. Qed.

(** ** Consumption and ranges of the leaf parsers *)

Lemma Eat_Some c s s' : Eat c s = Some s' -> s = c :: s'.
Proof.
  destruct s as [|x s]; simpl; [done|]. destruct (byte_eqb_spec x c); [|done]. congruence.
Qed.

Lemma int_loop_Some v s n s' :
  0 <= v <= kMaxRepeatCount -> int_loop v s = Some (n, s') ->
  0 <= n <= kMaxRepeatCount /\ (length s' <= length s)%nat.
Proof.
  revert v. induction s as [|c s IH]; intros v Hv; simpl; [intros [= <- <-]; done|].
  destruct (is_digit c) eqn:Ed; [|intros [= <- <-]; done].
  apply is_digit_range in Ed.
  destruct (Z.gtb_spec (v * 10 + digit_value c) kMaxRepeatCount); [done|].
  intros H'. apply IH in H'; [|lia]. split; [tauto|lia].
Qed.

Lemma ParseInt_Some s n s' :
  ParseInt s = Some (n, s') -> 0 <= n <= kMaxRepeatCount /\ (length s' <= length s)%nat.
Proof.
  unfold ParseInt. destruct s as [|c s]; [done|]. destruct (is_digit c); [|done].
  apply int_loop_Some. unfold kMaxRepeatCount. lia.
Qed.

Definition bounds_ok (min max : Z) : Prop :=
  0 <= min <= kMaxRepeatCount /\ (max = -1 \/ min <= max <= kMaxRepeatCount).

Ltac eat_step :=
  match goal with
  | H : match Eat ?c ?s with _ => _ end = Some _ |- _ =>
      let E := fresh "E" in destruct (Eat c s) eqn:E; [apply Eat_Some in E; subst|clear E]
  | H : (Eat ?c ?s ≫= _) = Some _ |- _ =>
      apply bind_Some in H; let E := fresh "E" in destruct H as (? & E & H);
      apply Eat_Some in E; subst
  | H : (ParseInt ?s ≫= _) = Some _ |- _ =>
      apply bind_Some in H; let E := fresh "E" in destruct H as ([? ?] & E & H);
      apply ParseInt_Some in E
  end.

Lemma ParseBoundedQuantifier_Some s min max s' :
  ParseBoundedQuantifier s = Some (min, max, s') ->
  bounds_ok min max /\ (length s' <= length s)%nat.
Proof.
  unfold ParseBoundedQuantifier, bounds_ok. intros H. repeat eat_step.
  - injection H as <- <- <-. simpl in *. lia.
  - injection H as <- <- <-. simpl in *. lia.
  - destruct (Z.ltb_spec z0 z); [done|]. injection H as <- <- <-. simpl in *. lia.
Qed.

Lemma quantifier_Some s min max s' :
  quantifier s = Some (min, max, s') -> bounds_ok min max /\ (length s' <= length s)%nat.
Proof.
  unfold quantifier, bounds_ok, kMaxRepeatCount.
  destruct s as [|c s]; [done|].
  destruct c; try done;
    try (intros [= <- <- <-]; simpl; lia).
  intros H. apply ParseBoundedQuantifier_Some in H. unfold bounds_ok, kMaxRepeatCount in H.
  simpl. split; [tauto|lia].
Qed.

Lemma hex_digit_range c : hex_digit c < 16.
Proof.
  apply Z.ltb_lt. revert c. apply (byte_forall (fun c => hex_digit c <? 16)). by vm_compute.
Qed.

Lemma hex_loop_Some k v s n s' :
  0 <= v -> hex_loop k v s = Some (n, s') ->
  0 <= n < (v + 1) * 16 ^ Z.of_nat k /\ (length s' <= length s)%nat.
Proof.
  revert v s. induction k as [|k IH]; intros v s Hv; cbn [hex_loop].
  - intros [= <- <-]. simpl. lia.
  - destruct s as [|c s]; [done|]. destruct (Z.ltb_spec (hex_digit c) 0); [done|].
    pose proof (hex_digit_range c). intros H'. apply IH in H'; [|lia].
    rewrite Nat2Z.inj_succ, Z.pow_succ_r by lia. simpl.
    pose proof (Z.pow_pos_nonneg 16 (Z.of_nat k)). nia.
Qed.

Lemma SimpleEscapeByte_Some c s b s' :
  SimpleEscapeByte c s = Some (b, s') -> 0 <= b < 256 /\ (length s' <= length s)%nat.
Proof.
  assert (Hx : ParseHex 2 s = Some (b, s') -> 0 <= b < 256 /\ (length s' <= length s)%nat).
  { intros H. apply hex_loop_Some in H; [|lia]. simpl in H. lia. }
  assert (Hd : forall z, 0 <= z < 256 -> Some (z, s) = Some (b, s') ->
    0 <= b < 256 /\ (length s' <= length s)%nat).
  { intros z Hz [= <- <-]. lia. }
  assert (Hw : (if IsWordByte c then None else Some (b2z c, s)) = Some (b, s') ->
    0 <= b < 256 /\ (length s' <= length s)%nat).
  { destruct (IsWordByte c); [done|]. apply Hd, b2z_range. }
  unfold SimpleEscapeByte. destruct c; first [exact Hw | exact Hx | apply Hd; lia].
Qed.

Definition member_ok (m : bitset + Z) : Prop :=
  match m with inl s => set_ok s = true | inr b => 0 <= b < 256 end.

Lemma SimpleEscapeByte_parses c s :
  parses member_ok (length s)
    match SimpleEscapeByte c s with
    | None => Fail (unsupported_escape c)
    | Some (b, s) => success (inr b) s
    end.
Proof.
  destruct (SimpleEscapeByte c s) as [[b s']|] eqn:E; [|done].
  apply SimpleEscapeByte_Some in E as [H1 H2]. by apply parses_success.
Qed.

Lemma ParseClassEscape_parses s : parses member_ok (length s) (ParseClassEscape s).
Proof.
  destruct set_ok_classes as (Hd & Hw & Hs & _). destruct s as [|c s]; [done|].
  apply (parses_mono member_ok _ (length s)); [|done|simpl; lia].
  pose proof (SimpleEscapeByte_parses c s) as Hdef. unfold ParseClassEscape.
  destruct c; try exact Hdef; apply parses_success; try done; try lia; simpl;
    try (by apply set_ok_flip); lia.
Qed.

Lemma class_member_parses c s : parses member_ok (length s) (class_member c s).
Proof.
  unfold class_member. destruct (byte_eqb c _); [apply ParseClassEscape_parses|].
  apply parses_success; [apply b2z_range|lia].
Qed.

Lemma class_loop_parses fuel first cls s n :
  (length s < fuel)%nat -> (length s <= n)%nat -> set_ok cls = true ->
  parses (fun s => set_ok s = true) n (class_loop fuel first cls s).
Proof.
  revert first cls s. induction fuel as [|f IH]; intros first cls s Hf Hn Hc; [lia|].
  cbn [class_loop]. destruct s as [|c s]; [done|]. simpl in *.
  destruct (_ && negb first); [apply parses_success; [done|lia]|].
  eapply parses_bind; [apply class_member_parses|].
  intros [lo|lo] s' Hlo Hl; simpl in Hlo.
  { apply IH; [lia|lia|by apply set_ok_lor]. }
  assert (Hset : parses (fun s => set_ok s = true) n (class_loop f false (bs_set cls lo) s')).
  { apply IH; [lia|lia|by apply set_ok_set]. }
  destruct s' as [|x [|h s']]; try done. simpl in Hl.
  destruct (byte_eqb x "-" && _); [|done].
  eapply parses_bind; [apply class_member_parses|].
  intros [hi|hi] s'' Hhi Hl'; [done|]. simpl in Hhi.
  destruct (hi <? lo); [done|]. apply IH; [lia|lia|]. apply set_ok_range; lia || done.
Qed.

(** A parsed node: well formed and no higher than [h]. *)
Definition good (h : nat) (n : Node) : Prop := node_ok n = true /\ (node_height n <= h)%nat.

Lemma ParseClass_parses s : parses (good 0) (length s) (ParseClass s).
Proof.
  unfold ParseClass.
  assert (Hl : forall (s' : bytes) (negate : bool), (length s' <= length s)%nat ->
    parses (good 0) (length s)
      (let* (cls, s) := class_loop (S (length s')) true 0 s' in
       success (kClass (if negate then bs_flip cls else cls)) s)).
  { intros s' negate Hs'. eapply parses_bind.
    - apply (class_loop_parses _ _ _ _ (length s')); [lia|lia|done].
    - intros cls r Hc Hr. apply parses_success; [|lia]. split; [|done].
      simpl. destruct negate; [by apply set_ok_flip|done]. }
  destruct (Eat _ s) as [s'|] eqn:E; [|by apply (Hl s false)].
  apply Eat_Some in E as ->. apply (Hl s' true). simpl. lia.
Qed.

Lemma Utf8Literal_parses code s : parses (good 1) (length s) (Utf8Literal code s).
Proof.
  unfold Utf8Literal.
  repeat case_match; [done|..]; (apply parses_success; [split; simpl; auto|lia]).
Qed.

Lemma ParseEscape_parses s : parses (good 1) (length s) (ParseEscape s).
Proof.
  destruct set_ok_classes as (Hd & Hw & Hs & _). destruct s as [|c s]; [done|].
  apply (parses_mono (good 1) _ (length s)); [|done|simpl; lia].
  assert (Hu : parses (good 1) (length s)
    match ParseHex 4 s with
    | None => Fail (lit "malformed \uHHHH escape")
    | Some (code, s) => Utf8Literal code s
    end).
  { destruct (ParseHex 4 s) as [[code s']|] eqn:E; [|done].
    apply hex_loop_Some in E; [|lia]. eapply parses_mono; [apply Utf8Literal_parses|done|lia]. }
  assert (Hdef : parses (good 1) (length s)
    match SimpleEscapeByte c s with
    | None => Fail (unsupported_escape c)
    | Some (b, s) => success (kByte (z2b b)) s
    end).
  { destruct (SimpleEscapeByte c s) as [[b s']|] eqn:E; [|done].
    apply SimpleEscapeByte_Some in E. apply parses_success; [|lia]. split; simpl; auto. }
  unfold ParseEscape.
  destruct c; try exact Hdef; try exact Hu; try exact I; apply parses_success; try lia;
    split; simpl; try done; try lia; try (by apply set_ok_flip).
Qed.

Lemma drop_while_length p s : (length (drop_while p s) <= length s)%nat.
Proof. induction s as [|x s IH]; simpl; [lia|]. destruct (p x); simpl; lia. Qed.

Lemma group_prefix_parses s : parses (fun _ => True) (length s) (group_prefix s).
Proof.
  unfold group_prefix. destruct (Eat "?" s) as [s1|] eqn:E1; [|by apply parses_success].
  apply Eat_Some in E1 as ->. destruct (Eat ":" s1) as [s2|] eqn:E2.
  { apply Eat_Some in E2 as ->. apply parses_success; [done|simpl; lia]. }
  destruct (_ || _); [done|]. destruct (Eat "<" s1) as [s3|] eqn:E3; [|done].
  apply Eat_Some in E3 as ->. destruct (_ || _); [done|].
  destruct (Eat ">" _) as [s4|] eqn:E4; [|done]. apply Eat_Some in E4.
  pose proof (drop_while_length (fun b => negb (byte_eqb b ">"%byte)) s3) as H.
  rewrite E4 in H. apply parses_success; [done|]. simpl in *. lia.
Qed.

Lemma apply_quantifier_parses h atom s :
  good h atom -> parses (good (S h)) (length s) (apply_quantifier atom s).
Proof.
  intros [Hok Hh]. unfold apply_quantifier.
  destruct (quantifier s) as [[[min max] s']|] eqn:E.
  2:{ apply parses_success; [split; [done|lia]|lia]. }
  apply quantifier_Some in E as [[Hmin Hmax] Hl].
  destruct (is_assert atom) eqn:Ea; [done|].
  set (s2 := match Eat "?" s' with Some s => s | None => s' end).
  assert (Hs2 : (length s2 <= length s')%nat).
  { unfold s2. destruct (Eat "?" s') eqn:E2; [apply Eat_Some in E2 as ->; simpl; lia|lia]. }
  destruct (_ || _); [done|]. apply parses_success; [|lia].
  split; [|simpl; lia]. simpl. rewrite Hok, Ea. lia.
Qed.

(** ** The recursive descent *)

Lemma children_height h l :
  Forall (good h) l -> (fold_right (fun n h => Nat.max (node_height n) h) 0 l <= h)%nat.
Proof. induction 1 as [|n l [_ Hn] _ IH]; simpl; lia. Qed.

Lemma children_ok h l : Forall (good h) l -> forallb node_ok l = true.
Proof. induction 1 as [|n l [Hn _] _ IH]; simpl; [done|]. by rewrite Hn. Qed.

Lemma good_list h (mk : list Node -> Node) l :
  (forall l, node_ok (mk l) = (2 <=? len l) && forallb node_ok l) ->
  (forall l, node_height (mk l) = S (fold_right (fun n h => Nat.max (node_height n) h) O l)) ->
  2 <= len l -> Forall (good h) l -> good (S h) (mk l).
Proof.
  intros H1 H2 Hl Hf. split.
  - rewrite H1, (children_ok h) by done. lia.
  - rewrite H2. apply le_n_S. by apply children_height.
Qed.

Lemma concat_node_good h acc : Forall (good h) acc -> good (S h) (concat_node acc).
Proof.
  intros H. destruct acc as [|n [|m acc]]; [split; simpl; auto; lia| |].
  - apply Forall_singleton in H as [H1 H2]. split; [done|simpl; lia].
  - apply (good_list h kConcat); try done. autorewrite with len. pose proof (len_nonneg acc). lia.
Qed.

Lemma height_bound_S depth :
  depth < kMaxGroupDepth -> height_bound depth = (3 + height_bound (depth + 1))%nat.
Proof. unfold height_bound, kMaxGroupDepth. lia. Qed.

(** The claims of the four mutual methods, at one amount of fuel. *)
Definition alternation_parses fuel : Prop := forall depth s,
  (4 * length s + 3 <= fuel)%nat ->
  parses (good (height_bound depth)) (length s) (ParseAlternation fuel depth s).

Definition alt_loop_parses fuel : Prop := forall depth acc s h,
  height_bound depth = S h -> (4 * length s + 2 <= fuel)%nat -> Forall (good h) acc ->
  parses (fun l => Forall (good h) l
                   /\ len acc + (if at_byte "|"%byte s then 1 else 0) <= len l)
    (length s) (alt_loop fuel depth acc s).

Definition concat_parses fuel : Prop := forall depth acc s h,
  height_bound depth = S (S h) -> (4 * length s + 2 <= fuel)%nat -> Forall (good h) acc ->
  parses (good (S h)) (length s) (ParseConcat fuel depth acc s).

Definition atom_parses fuel : Prop := forall depth c s h,
  height_bound depth = S (S (S h)) -> (4 * length s + 4 <= fuel)%nat ->
  parses (good h) (length s) (ParseAtom fuel depth c s).

Lemma height_bound_3 depth : exists h, height_bound depth = S (S (S (S h))).
Proof. unfold height_bound. exists (3 * Z.to_nat (kMaxGroupDepth - depth))%nat. lia. Qed.

Lemma alternation_step f : alt_loop_parses f -> concat_parses f -> alternation_parses (S f).
Proof.
  intros Hl Hc depth s Hf. destruct (height_bound_3 depth) as [h Hh]. cbn [ParseAlternation].
  eapply parses_bind; [by apply (Hc depth [] s (S (S h))); [|lia|]|].
  intros first s1 Hfirst Hs1. destruct (at_byte "|" s1) eqn:Eb.
  - eapply parses_bind.
    { apply (Hl depth [first] s1 (S (S (S h)))); [done|lia|].
      apply Forall_singleton. done. }
    rewrite Eb. intros branches s2 [Hb Hlen] Hs2. apply parses_success; [|lia].
    rewrite Hh. apply (good_list _ kAlt); try done.
  - apply parses_success; [|lia]. rewrite Hh. destruct Hfirst. split; [done|lia].
Qed.

Lemma alt_loop_step f : alt_loop_parses f -> concat_parses f -> alt_loop_parses (S f).
Proof.
  intros Hl Hc depth acc s h Hh Hf Hacc. cbn [alt_loop].
  destruct (Eat "|" s) as [s1|] eqn:E.
  - apply Eat_Some in E as ->. simpl in Hf.
    destruct (height_bound_3 depth) as [h0 Hh0]. assert (h = S (S (S h0))) as -> by congruence.
    eapply parses_bind; [by apply (Hc depth [] s1 (S (S h0))); [|lia|]|].
    intros branch s2 Hb Hs2. eapply parses_mono.
    + apply (Hl depth (acc ++ [branch]) s2 (S (S (S h0)))); [done|lia|].
      apply Forall_app. split; [done|]. by apply Forall_singleton.
    + intros l [Hfl Hlen]. split; [done|]. autorewrite with len in Hlen.
      simpl. change (len ([] : list Node)) with 0 in Hlen. repeat case_match; lia.
    + simpl. lia.
  - apply parses_success; [|lia]. split; [done|].
    destruct s as [|x s]; simpl in *; [lia|]. destruct (byte_eqb x "|"); [done|lia].
Qed.

Lemma concat_step f : concat_parses f -> atom_parses f -> concat_parses (S f).
Proof.
  intros Hc Ha depth acc s h Hh Hf Hacc. cbn [ParseConcat].
  destruct s as [|c s']; [apply parses_success; [by apply concat_node_good|done]|].
  simpl in Hf. destruct (_ || _); [apply parses_success; [by apply concat_node_good|done]|].
  destruct (height_bound_3 depth) as [h0 Hh0]. assert (h = S (S h0)) as -> by congruence.
  eapply parses_bind; [apply (Ha depth c s' (S h0)); [done|lia]|].
  intros atom s1 Hatom Hs1. eapply parses_bind; [by apply (apply_quantifier_parses (S h0))|].
  intros piece s2 Hp Hs2. eapply parses_mono.
  - apply (Hc depth (acc ++ [piece]) s2 (S (S h0))); [done|lia|].
    apply Forall_app. split; [done|]. by apply Forall_singleton.
  - done.
  - simpl. lia.
Qed.

Lemma atom_step f : alternation_parses f -> atom_parses (S f).
Proof.
  intros Ha depth c s h Hh Hf. cbn [ParseAtom].
  assert (Hg : parses (good h) (length s)
    (if depth >=? kMaxGroupDepth then Fail (lit "groups nested too deeply")
     else let* (_u, s) := group_prefix s in
          let* (body, s) := ParseAlternation f (depth + 1) s in
          match Eat ")"%byte s with
          | Some s => success body s
          | None => Fail (lit "missing ')'")
          end)).
  { destruct (Z.geb_spec depth kMaxGroupDepth); [done|].
    eapply parses_bind; [apply group_prefix_parses|]. intros _u s1 _ Hs1.
    eapply parses_bind; [apply Ha; lia|]. intros body s2 Hb Hs2.
    destruct (Eat ")" s2) as [s3|] eqn:E; [|done]. apply Eat_Some in E as ->.
    rewrite (height_bound_S depth) in Hh by lia. injection Hh as <-.
    apply parses_success; [done|simpl in *; lia]. }
  destruct (height_bound_3 depth) as [h0 Hh0].
  assert (Hleaf : forall n, good 0 n -> parses (good h) (length s) (success n s)).
  { intros n [H1 H2]. apply parses_success; [split; [done|lia]|lia]. }
  assert (Hcls : parses (good h) (length s) (ParseClass s)).
  { eapply parses_mono; [apply ParseClass_parses| |done]. intros n [H1 H2]. split; [done|lia]. }
  assert (Hesc : parses (good h) (length s) (ParseEscape s)).
  { eapply parses_mono; [apply ParseEscape_parses| |done]. intros n [H1 H2]. split; [done|lia]. }
  destruct set_ok_classes as (_ & _ & _ & Hdot).
  destruct c; try exact I; try exact Hg; try exact Hcls; try exact Hesc;
    apply Hleaf; split; try exact Hdot; simpl; auto.
Qed.

Lemma parser_parses f :
  alternation_parses f /\ alt_loop_parses f /\ concat_parses f /\ atom_parses f.
Proof.
  induction f as [|f (IHa & IHl & IHc & IHt)].
  { repeat split; repeat intro; lia. }
  repeat split.
  - by apply alternation_step.
  - by apply alt_loop_step.
  - by apply concat_step.
  - by apply atom_step.
Qed.

Lemma Parse_ok pattern :
  match Parse pattern with
  | None => False
  | Some (Err _) => True
  | Some (Ok n) => node_ok n = true /\ (node_height n <= 388)%nat
  end.
Proof.
  unfold Parse. destruct (parser_parses (parse_fuel pattern)) as (Ha & _).
  specialize (Ha 0 pattern ltac:(unfold parse_fuel; lia)).
  destruct (ParseAlternation _ 0 pattern) as [[[n [|x s]]|e]|]; simpl in *; try done.
  destruct Ha as [[H1 H2] _]. split; [done|]. exact H2.
Qed.

(** [Parse] always finishes, with an error or a well-formed tree: every
    class inside the 256 bytes, concatenations and alternations of two or more
    children, repetition bounds ordered and at most 1024 and never on an
    assertion, and a height the group-depth cap bounds. *)
Theorem Parse_total pattern :
  exists r, Parse pattern = Some r
    /\ match r with
       | Ok n => node_ok n = true /\ (node_height n <= 388)%nat
       | Err _ => True
       end.
Proof.
  pose proof (Parse_ok pattern) as H. destruct (Parse pattern) as [r|]; [|done].
  exists r. split; [done|]. by destruct r.
Qed.
