(* ===== verification/RegexVM.v ===== *)
(** core/regex.cc, the program side: [RegexCompiler] (parse tree to Thompson
    program) and the Pike VM [Regex::AddThread] / [Regex::Search].  Program
    counters are nat ([kMaxProgramSize] keeps them far below 2^32), stamps are
    32-bit; an access outside the program or the class table is [None]. *)
From Stdlib Require Import ZArith Lia Strings.Byte.
From S2P Require Import Prelude Bytes RegexSyntax.

Local Open Scope Z_scope.

(** ** Programs *)

Definition kMaxProgramSize : Z := 65536.

(** [Regex::Inst]: one constructor per [Op], with the operand it uses. *)
Inductive Inst :=
| iByte (b : Byte.byte)
| iClass (arg : nat)
| iSplit (arg : nat)
| iJmp (arg : nat)
| iAssert (k : Assert)
| iMatch.

Record Regex := mkRegex { program : list Inst; classes : list bitset }.

Definition Here (re : Regex) : nat := length (program re).
Definition ProgramSize (re : Regex) : nat := length (program re).

(** ** The compiler *)

Definition Add (i : Inst) (re : Regex) : Outcome Regex :=
  if len (program re) >=? kMaxProgramSize
  then Err (Error_Serialization (lit "Regex: pattern compiles to too large a program"))
  else Ok (mkRegex (program re ++ [i]) (classes re)).

(** The search loop of [AddClass], from index [i] on. *)
Fixpoint find_class (cls : bitset) (l : list bitset) (i : nat) : option nat :=
  match l with
  | [] => None
  | c :: l' => if c =? cls then Some i else find_class cls l' (S i)
  end.

Definition AddClass (cls : bitset) (re : Regex) : nat * Regex :=
  match find_class cls (classes re) 0 with
  | Some i => (i, re)
  | None => (length (classes re), mkRegex (program re) (classes re ++ [cls]))
  end.

(** [program_[pc].arg = arg]. *)
Definition set_arg (arg : nat) (i : Inst) : Inst :=
  match i with
  | iClass _ => iClass arg
  | iSplit _ => iSplit arg
  | iJmp _ => iJmp arg
  | _ => i
  end.

Definition patch (pc arg : nat) (re : Regex) : Regex :=
  mkRegex (alter (set_arg arg) pc (program re)) (classes re).

(** [for (pc : pcs) program_[pc].arg = Here()]. *)
Definition patch_all (pcs : list nat) (re : Regex) : Regex :=
  fold_left (fun r pc => patch pc (Here re) r) pcs re.

Section emit.
  Context (Emit : Node -> Regex -> Outcome Regex).

Fixpoint emit_all (l : list Node) (re : Regex) : Outcome Regex :=
  match l with
  | [] => Ok re
  | n :: l' => re ← Emit n re; emit_all l' re
  end.

(** split; A; jmp end; split; B; jmp end; ...; C *)
Fixpoint emit_alt (l : list Node) (jumps_to_end : list nat) (re : Regex) : Outcome Regex :=
  match l with
  | [] => Ok (patch_all jumps_to_end re)
  | [n] => re ← Emit n re; Ok (patch_all jumps_to_end re)
  | n :: l' =>
    let split_pc := Here re in
    re ← Add (iSplit 0) re;
    re ← Emit n re;
    let jmp_pc := Here re in
    re ← Add (iJmp 0) re;
    emit_alt l' (jumps_to_end ++ [jmp_pc]) (patch split_pc (Here re) re)
  end.

End emit.

Section emit_repeat.
  (* [Emit(body)] *)
  Context (body : Regex -> Outcome Regex).

(** The [min] mandatory copies of a repeated body. *)
Fixpoint emit_times (count : nat) (re : Regex) : Outcome Regex :=
  match count with
  | O => Ok re
  | S count' => re ← body re; emit_times count' re
  end.

(** body{min,}: one looping optional copy. *)
Definition emit_loop (re : Regex) : Outcome Regex :=
  let loop := Here re in
  re ← Add (iSplit 0) re;
  re ← body re;
  re ← Add (iJmp loop) re;
  Ok (patch loop (Here re) re).

(** body{min,max}: [max - min] nested optional copies. *)
Fixpoint emit_optional (count : nat) (splits : list nat) (re : Regex) : Outcome Regex :=
  match count with
  | O => Ok (patch_all splits re)
  | S count' =>
    let split_pc := Here re in
    re ← Add (iSplit 0) re;
    re ← body re;
    emit_optional count' (splits ++ [split_pc]) re
  end.

Definition EmitRepeat (min max : Z) (re : Regex) : Outcome Regex :=
  re ← emit_times (Z.to_nat min) re;
  if max <? 0 then emit_loop re else emit_optional (Z.to_nat (max - min)) [] re.

End emit_repeat.

Fixpoint Emit (n : Node) (re : Regex) {struct n} : Outcome Regex :=
  match n with
  | kEmpty => Ok re
  | kByte b => Add (iByte b) re
  | kClass cls => let '(arg, re) := AddClass cls re in Add (iClass arg) re
  | kAssert k => Add (iAssert k) re
  | kConcat l => emit_all Emit l re
  | kAlt l => emit_alt Emit l [] re
  | kRepeat min max body => EmitRepeat (Emit body) min max re
  end.

Definition Compile (pattern : bytes) : option (Outcome Regex) :=
  match Parse pattern with
  | None => None
  | Some r => Some (tree ← r; re ← Emit tree (mkRegex [] []); Add iMatch re)
  end.

(** ** The Pike VM *)

Record Threads := mkThreads {
  tlist : list nat;   (* [*list], the threads waiting for a byte *)
  tseen : list Z;     (* [*seen_stamp] *)
  tsteps : Z          (* [*steps] *)
}.

Definition word_at (t : bytes) (i : nat) : bool :=
  match t !! i with Some b => IsWordByte b | None => false end.

Definition assert_holds (t : bytes) (pos : nat) (k : Assert) : bool :=
  let before := match pos with O => false | S p => word_at t p end in
  let after := word_at t pos in
  match k with
  | kInputStart => Nat.eqb pos 0
  | kInputEnd => Nat.eqb pos (length t)
  | kWordBoundary => negb (Bool.eqb before after)
  | kNotWordBoundary => Bool.eqb before after
  end.

(** What one processed instruction does: match, wait for a byte, or push the
    listed counters (the last is popped first). *)
Definition closure_step (t : bytes) (pos at_ : nat) (i : Inst) : option (list nat) :=
  match i with
  | iMatch => None
  | iJmp a => Some [a]
  | iSplit a => Some [a; S at_]
  | iAssert k => Some (if assert_holds t pos k then [S at_] else [])
  | iByte _ | iClass _ => Some []
  end.

Definition is_consuming (i : Inst) : bool :=
  match i with iByte _ | iClass _ => true | _ => false end.

Fixpoint AddThread_loop (fuel : nat) (re : Regex) (stamp : Z) (t : bytes) (pos : nat)
    (work : list nat) (th : Threads) : option (bool * Threads) :=
  match fuel with
  | O => None
  | S fuel' =>
    match work with
    | [] => Some (false, th)
    | at_ :: work =>
      s ← tseen th !! at_;
      if s =? stamp then AddThread_loop fuel' re stamp t pos work th
      else
        i ← program re !! at_;
        let seen := <[at_ := stamp]> (tseen th) in
        let steps := tsteps th + 1 in
        let list := if is_consuming i then tlist th ++ [at_] else tlist th in
        let th := mkThreads list seen steps in
        match closure_step t pos at_ i with
        | None => Some (true, th)
        | Some push => AddThread_loop fuel' re stamp t pos (push ++ work) th
        end
    end
  end.

(** Each turn drops a counter or marks an instruction and pushes two. *)
Definition closure_fuel (re : Regex) : nat := (2 * length (program re) + 2)%nat.

Definition AddThread (re : Regex) (stamp : Z) (pc : nat) (t : bytes) (pos : nat) (th : Threads)
    : option (bool * Threads) :=
  AddThread_loop (closure_fuel re) re stamp t pos [pc] th.

(** [static_cast<std::uint32_t>(pos) + k]. *)
Definition stamp_at (pos : nat) (k : Z) : Z := wrap 32 (wrap 32 (Z.of_nat pos) + k).

(** Whether a waiting instruction takes byte [c]. *)
Definition inst_matches (re : Regex) (i : Inst) (c : Byte.byte) : option bool :=
  match i with
  | iByte b => Some (byte_eqb b c)
  | iClass arg => cls ← classes re !! arg; Some (bs_test cls c)
  | _ => None
  end.

(** The [for (pc : current)] loop: [th] is (next, seen_stamp, steps). *)
Fixpoint advance (re : Regex) (t : bytes) (pos : nat) (c : Byte.byte) (current : list nat)
    (th : Threads) : option (bool * Threads) :=
  match current with
  | [] => Some (false, th)
  | pc :: current =>
    i ← program re !! pc;
    m ← inst_matches re i c;
    if (m : bool) then
      '(hit, th) ← AddThread re (stamp_at pos 2) (S pc) t (S pos) th;
      if (hit : bool) then Some (true, th) else advance re t pos c current th
    else advance re t pos c current th
  end.

(** The loop over positions; [rest] is the text from [pos] on, [th] is
    (current, seen_stamp, steps). *)
Fixpoint Search_loop (re : Regex) (t : bytes) (pos : nat) (rest : bytes) (th : Threads)
    : option (bool * Z) :=
  '(hit, th) ← AddThread re (stamp_at pos 1) 0 t pos th;
  if (hit : bool) then Some (true, tsteps th)
  else
    match rest with
    | [] => Some (false, tsteps th)
    | c :: rest =>
      '(hit, th) ← advance re t pos c (tlist th) (mkThreads [] (tseen th) (tsteps th));
      if (hit : bool) then Some (true, tsteps th) else Search_loop re t (S pos) rest th
    end.

(** [Search(text, &steps)]. *)
Definition Search_steps (re : Regex) (text : bytes) : option (bool * Z) :=
  match program re with
  | [] => Some (false, 0)
  | _ => Search_loop re text 0 text (mkThreads [] (repeat 0 (length (program re))) 0)
  end.

Definition Search (re : Regex) (text : bytes) : option bool := fst <$> Search_steps re text.

(** Compile a pattern and search a text with it. *)
Definition regex_search (pattern text : bytes) : option (Outcome bool) :=
  match Compile pattern with
  | Some (Ok re) => Ok <$> Search re text
  | Some (Err e) => Some (Err e)
  | None => None
  end.

Example regex_search_group : regex_search (lit "^([0-9]+)+$") (lit "0123") = Some (Ok true).
Proof. by vm_compute. Qed.
Example regex_search_no : regex_search (lit "^([0-9]+)+$") (lit "0123x") = Some (Ok false).
Proof. by vm_compute. Qed.
Example regex_search_bounds :
  regex_search (lit "a(b|\d){2,3}\b[^x]") (lit "zzab9b-") = Some (Ok true).
Proof. by vm_compute. Qed.
