(* ===== verification/RegexCompile.v ===== *)
(** The compiler of core/regex.cc against the meaning of patterns: [matches]
    says which spans of a text a parse tree matches, [code] which program
    fragment implements a tree, and the two directions of compiler
    correctness relate the spans to the paths through the fragment. *)
From Stdlib Require Import ZArith Lia Strings.Byte.
From stdpp Require Import relations.
From S2P Require Import Prelude Bytes RegexSyntax RegexVM.

Local Open Scope Z_scope.

(** ** The language of a parse tree *)

Section language.
  Context (t : bytes).

(** [k] consecutive spans of [R]. *)
Fixpoint span_iter (R : nat -> nat -> Prop) (k : nat) (i j : nat) : Prop :=
  match k with
  | O => i = j
  | S k' => exists m, R i m /\ span_iter R k' m j
  end.

Section children.
  Context (M : Node -> nat -> nat -> Prop).

Fixpoint matches_seq (l : list Node) (i j : nat) : Prop :=
  match l with
  | [] => i = j
  | n :: l' => exists m, M n i m /\ matches_seq l' m j
  end.

Fixpoint matches_any (l : list Node) (i j : nat) : Prop :=
  match l with
  | [] => False
  | n :: l' => M n i j \/ matches_any l' i j
  end.

End children.

(** [matches n i j]: [n] matches the bytes of the text from [i] to [j]. *)
Fixpoint matches (n : Node) (i j : nat) {struct n} : Prop :=
  match n with
  | kEmpty => i = j
  | kByte b => t !! i = Some b /\ j = S i
  | kClass cls => exists b, t !! i = Some b /\ bs_test cls b = true /\ j = S i
  | kAssert k => assert_holds t i k = true /\ i = j
  | kConcat l => matches_seq matches l i j
  | kAlt l => matches_any matches l i j
  | kRepeat min max body =>
    exists k, min <= Z.of_nat k /\ (max < 0 \/ Z.of_nat k <= max)
      /\ span_iter (matches body) k i j
  end.

(** A pattern is found when it matches some span of the text. *)
Definition found (n : Node) : Prop := exists i j, (i <= length t)%nat /\ matches n i j.

Lemma span_iter_app R k1 k2 i j :
  span_iter R (k1 + k2) i j <-> exists m, span_iter R k1 i m /\ span_iter R k2 m j.
Proof.
  revert i. induction k1 as [|k IH]; intros i; simpl; [naive_solver|].
  setoid_rewrite IH. naive_solver.
Qed.

(** ** Program paths *)

Section paths.
  Context (P : list Inst) (C : list bitset).

(** One step of a thread: counter and position. *)
Inductive vm_step : nat * nat -> nat * nat -> Prop :=
| step_byte pc i b :
    P !! pc = Some (iByte b) -> t !! i = Some b -> vm_step (pc, i) (S pc, S i)
| step_class pc i arg cls b :
    P !! pc = Some (iClass arg) -> C !! arg = Some cls -> t !! i = Some b ->
    bs_test cls b = true -> vm_step (pc, i) (S pc, S i)
| step_split_next pc i a : P !! pc = Some (iSplit a) -> vm_step (pc, i) (S pc, i)
| step_split_arg pc i a : P !! pc = Some (iSplit a) -> vm_step (pc, i) (a, i)
| step_jmp pc i a : P !! pc = Some (iJmp a) -> vm_step (pc, i) (a, i)
| step_assert pc i k :
    P !! pc = Some (iAssert k) -> assert_holds t i k = true -> vm_step (pc, i) (S pc, i).

(** [code n a b]: the counters from [a] to [b] implement [n]. *)
Section code_of.
  Context (code : Node -> nat -> nat -> Prop).

Fixpoint code_seq (l : list Node) (a b : nat) : Prop :=
  match l with
  | [] => a = b
  | n :: l' => exists m, code n a m /\ code_seq l' m b
  end.

(** Alternatives from [a]; all but the last end in a jump to [e]. *)
Fixpoint code_alt (l : list Node) (a e : nat) : Prop :=
  match l with
  | [] => a = e
  | [n] => code n a e
  | n :: l' =>
    exists m, P !! a = Some (iSplit (S m)) /\ code n (S a) m
      /\ P !! m = Some (iJmp e) /\ code_alt l' (S m) e
  end.

End code_of.

Fixpoint code_times (body : nat -> nat -> Prop) (k : nat) (a b : nat) : Prop :=
  match k with
  | O => a = b
  | S k' => exists m, body a m /\ code_times body k' m b
  end.

Definition code_loop (body : nat -> nat -> Prop) (a b : nat) : Prop :=
  exists m, P !! a = Some (iSplit b) /\ body (S a) m /\ P !! m = Some (iJmp a) /\ b = S m.

Fixpoint code_optional (body : nat -> nat -> Prop) (k : nat) (a e : nat) : Prop :=
  match k with
  | O => a = e
  | S k' => exists m, P !! a = Some (iSplit e) /\ body (S a) m /\ code_optional body k' m e
  end.

Fixpoint code (n : Node) (a b : nat) {struct n} : Prop :=
  match n with
  | kEmpty => a = b
  | kByte c => P !! a = Some (iByte c) /\ b = S a
  | kClass cls => (exists arg, P !! a = Some (iClass arg) /\ C !! arg = Some cls) /\ b = S a
  | kAssert k => P !! a = Some (iAssert k) /\ b = S a
  | kConcat l => code_seq code l a b
  | kAlt l => code_alt code l a b
  | kRepeat min max body =>
    exists m, code_times (code body) (Z.to_nat min) a m
      /\ if max <? 0 then code_loop (code body) m b
         else code_optional (code body) (Z.to_nat (max - min)) m b
  end.

(** ** From paths to spans *)

(** Every path from [a] that leaves the fragment does so through [b], having
    read a span of [R]. *)
Definition exits (R : nat -> nat -> Prop) (a b : nat) : Prop :=
  forall k i pc j, nsteps vm_step k (a, i) (pc, j) -> ~ (a <= pc < b)%nat ->
  exists k' m, (k' <= k)%nat /\ R i m /\ nsteps vm_step k' (b, m) (pc, j).

(** Every span of [R] is a path from [a] to [b]. *)
Definition enters (R : nat -> nat -> Prop) (a b : nat) : Prop :=
  forall i j, R i j -> rtc vm_step (a, i) (b, j).

Ltac step_inv H :=
  let x := fresh "x" in let y := fresh "y" in let z := fresh "z" in
  let H1 := fresh "Hs" in let H2 := fresh "Hn" in let E1 := fresh in let E2 := fresh in
  inversion H as [?|? x y z H1 H2 E1 E2]; subst; clear H; try lia;
  inversion H1; simplify_eq; clear H1.

Lemma exits_le R a b b' : exits R a b -> b = b' -> exits R a b'.
Proof. by intros ? <-. Qed.

Lemma exits_mono (R R' : nat -> nat -> Prop) a b :
  exits R a b -> (forall i j, R i j -> R' i j) -> exits R' a b.
Proof. intros H HR k i pc j Hk Hpc. destruct (H k i pc j Hk Hpc) as (k' & m & ? & ? & ?).
  exists k', m. auto.
Qed.

Lemma exits_refl a : exits eq a a.
Proof. intros k i pc j Hk _. by exists k, i. Qed.

Lemma exits_seq R1 R2 a m b :
  (a <= m <= b)%nat -> exits R1 a m -> exits R2 m b ->
  exits (fun i j => exists k, R1 i k /\ R2 k j) a b.
Proof.
  intros Hm H1 H2 k i pc j Hk Hpc.
  destruct (H1 _ _ _ _ Hk ltac:(lia)) as (k1 & x & Hk1 & Hx & Hp1).
  destruct (H2 _ _ _ _ Hp1 ltac:(lia)) as (k2 & y & Hk2 & Hy & Hp2).
  exists k2, y. split; [lia|]. eauto.
Qed.

Lemma exits_times body R k a b :
  (forall a b, body a b -> (a <= b)%nat) -> (forall a b, body a b -> exits R a b) ->
  code_times body k a b -> (a <= b)%nat /\ exits (span_iter R k) a b.
Proof.
  intros Hle He. revert a. induction k as [|k IH]; intros a; simpl.
  - intros <-. split; [done|]. apply exits_refl.
  - intros (m & Hb & Hc). destruct (IH m Hc) as [Hm HI]. pose proof (Hle _ _ Hb).
    split; [lia|]. apply (exits_seq R (span_iter R k) a m b); auto.
Qed.

Lemma exits_loop (body : nat -> nat -> Prop) R a b :
  (forall a b, body a b -> (a <= b)%nat) -> (forall a b, body a b -> exits R a b) ->
  code_loop body a b -> (a <= b)%nat /\ exits (fun i j => exists c, span_iter R c i j) a b.
Proof.
  intros Hle He (m & Hsplit & Hb & Hjmp & ->). pose proof (Hle _ _ Hb). split; [lia|].
  intros k. induction (lt_wf k) as [k _ IH]. intros i pc j Hk Hpc. step_inv Hk.
  - destruct (He _ _ Hb _ _ _ _ Hn ltac:(lia)) as (k1 & x & Hk1 & Hx & Hp). step_inv Hp.
    edestruct IH as (k2 & y & Hk2 & [c Hc] & Hp2); [|exact Hn0|exact Hpc|]; [lia|].
    exists k2, y. split; [lia|]. split; [|done]. exists (S c). simpl. eauto.
  - exists n, i. split; [lia|]. split; [|done]. by exists O.
Qed.

Lemma exits_optional (body : nat -> nat -> Prop) R k a b :
  (forall a b, body a b -> (a <= b)%nat) -> (forall a b, body a b -> exits R a b) ->
  code_optional body k a b ->
  (a <= b)%nat /\ exits (fun i j => exists c, (c <= k)%nat /\ span_iter R c i j) a b.
Proof.
  intros Hle He. revert a. induction k as [|k IH]; intros a; simpl.
  { intros <-. split; [done|]. eapply exits_mono; [apply exits_refl|]. intros i j <-. by exists O. }
  intros (m & Hsplit & Hb & Hc). destruct (IH m Hc) as [Hm HI]. pose proof (Hle _ _ Hb).
  split; [lia|]. intros n i pc j Hk Hpc. step_inv Hk.
  - destruct (He _ _ Hb _ _ _ _ Hn ltac:(lia)) as (k1 & x & Hk1 & Hx & Hp1).
    destruct (HI _ _ _ _ Hp1 ltac:(lia)) as (k2 & y & Hk2 & (c & Hck & Hcs) & Hp2).
    exists k2, y. split; [lia|]. split; [|done]. exists (S c). split; [lia|]. simpl. eauto.
  - exists n0, i. split; [lia|]. split; [|done]. exists O. split; [lia|done].
Qed.

(** What the induction gives for each child. *)
Definition implements (M : Node -> nat -> nat -> Prop) (cd : Node -> nat -> nat -> Prop)
    (n : Node) : Prop :=
  forall a b, cd n a b -> (a <= b)%nat /\ exits (M n) a b.

Lemma exits_seq_list M cd l :
  Forall (implements M cd) l ->
  forall a b, code_seq cd l a b -> (a <= b)%nat /\ exits (matches_seq M l) a b.
Proof.
  induction 1 as [|n l Hn _ IH]; intros a b; simpl.
  - intros <-. split; [done|]. apply exits_refl.
  - intros (m & Hc & Hl). destruct (Hn _ _ Hc), (IH _ _ Hl). split; [lia|].
    apply (exits_seq (M n) (matches_seq M l) a m b); auto.
Qed.

Lemma exits_alt M cd l :
  Forall (implements M cd) l -> l <> [] ->
  forall a b, code_alt cd l a b -> (a <= b)%nat /\ exits (matches_any M l) a b.
Proof.
  induction 1 as [|n l Hn Hl IH]; intros Hne a b; [done|]. destruct l as [|n2 l].
  { simpl. intros Hc. destruct (Hn _ _ Hc) as [Hle He]. split; [done|].
    eapply exits_mono; [exact He|]. auto. }
  intros (m & Hsplit & Hc & Hjmp & Hcs).
  destruct (IH ltac:(done) _ _ Hcs) as [Hle2 He2]. destruct (Hn _ _ Hc) as [Hle1 He1].
  split; [lia|]. intros k i pc j Hk Hpc. step_inv Hk.
  - destruct (He1 _ _ _ _ Hn0 ltac:(lia)) as (k1 & x & Hk1 & Hx & Hp). step_inv Hp.
    exists n1, x. split; [lia|]. split; [by left|done].
  - destruct (He2 _ _ _ _ Hn0 ltac:(lia)) as (k1 & x & Hk1 & Hx & Hp).
    exists k1, x. split; [lia|]. split; [by right|done].
Qed.

Lemma exits_one a b (R : nat -> nat -> Prop) :
  (forall i y, vm_step (a, i) y -> exists m, y = (b, m) /\ R i m) -> (a < b)%nat ->
  exits R a b.
Proof.
  intros H Hab k i pc j Hk Hpc. inversion Hk as [|? x [y1 y2] z Hs Hn]; subst; [lia|].
  destruct (H _ _ Hs) as (m & [= -> ->] & HR). exists n, m. auto.
Qed.

Lemma children_hold (Q : Node -> Prop) l :
  Forall (fun n => node_ok n = true -> Q n) l -> forallb node_ok l = true -> Forall Q l.
Proof.
  rewrite forallb_forall, !Forall_forall. intros H Hok n Hn. apply H; [done|].
  apply Hok. by apply list_elem_of_In.
Qed.

Lemma code_exits n : node_ok n = true -> implements matches code n.
Proof.
  induction n as [|b|cls|l IH|l IH|min max n IH|k] using Node_ind'; intros Hok a e Hc.
  - simpl in Hc. subst. split; [done|]. apply exits_refl.
  - destruct Hc as [Hb ->]. split; [lia|]. apply exits_one; [|lia].
    intros i y Hs. inversion Hs; simplify_eq. eexists. split; [done|]. done.
  - destruct Hc as [(arg & Ha & Hcls) ->]. split; [lia|]. apply exits_one; [|lia].
    intros i y Hs. inversion Hs; simplify_eq. eexists. split; [done|]. simpl. eauto.
  - simpl in Hok. zbool. apply (exits_seq_list matches code); [|done]. by apply children_hold.
  - simpl in Hok. zbool. apply (exits_alt matches code); [by apply children_hold| |done].
    by intros ->.
  - simpl in Hok. zbool. destruct Hc as (m & Ht & Hc).
    assert (Hle : forall a b, code n a b -> (a <= b)%nat) by (intros; by apply IH).
    assert (He : forall a b, code n a b -> exits (matches n) a b) by (intros; by apply IH).
    destruct (exits_times _ _ _ _ _ Hle He Ht) as [Hle1 He1].
    assert (Hrest : (m <= e)%nat /\ exits (fun i j => exists c,
      (max < 0 \/ min + Z.of_nat c <= max) /\ span_iter (matches n) c i j) m e).
    { destruct (Z.ltb_spec max 0) as [Hm|Hm].
      - destruct (exits_loop _ _ _ _ Hle He Hc) as [Hl2 Hx2]. split; [done|].
        eapply exits_mono; [exact Hx2|]. intros i j [c Hcs]. eauto.
      - destruct (exits_optional _ _ _ _ _ Hle He Hc) as [Hl2 Hx2]. split; [done|].
        eapply exits_mono; [exact Hx2|]. intros i j (c & Hcm & Hcs). exists c.
        split; [right; lia|done]. }
    destruct Hrest as [Hle2 He2]. split; [lia|].
    eapply exits_mono; [apply (exits_seq _ _ a m e ltac:(lia) He1 He2)|].
    intros i j (x & Hx1 & c & Hb & Hx2). exists (Z.to_nat min + c)%nat.
    split; [lia|]. split; [lia|]. apply span_iter_app. eauto.
  - destruct Hc as [Ha ->]. split; [lia|]. apply exits_one; [|lia].
    intros i y Hs. inversion Hs; simplify_eq. eexists. split; [done|]. done.
Qed.

(** ** From spans to paths *)

Lemma rtc_step_1 x y z : vm_step x y -> rtc vm_step y z -> rtc vm_step x z.
Proof. apply rtc_l. Qed.

Lemma enters_span_loop (body : nat -> nat -> Prop) R a b :
  (forall a b, body a b -> enters R a b) -> code_loop body a b ->
  forall c, enters (span_iter R c) a b.
Proof.
  intros He (m & Hsplit & Hb & Hjmp & ->) c. induction c as [|c IH]; intros i j; simpl.
  - intros <-. apply rtc_once. by apply step_split_arg with (a := S m).
  - intros (x & HR & Hc). eapply rtc_l; [by eapply step_split_next|].
    etrans; [by apply (He _ _ Hb)|]. eapply rtc_l; [by eapply step_jmp|]. by apply IH.
Qed.

Lemma enters_times (body : nat -> nat -> Prop) R k a b :
  (forall a b, body a b -> enters R a b) -> code_times body k a b -> enters (span_iter R k) a b.
Proof.
  intros He. revert a. induction k as [|k IH]; intros a; simpl.
  - by intros <- i j <-.
  - intros (m & Hb & Hc) i j (x & HR & Hx). etrans; [by apply (He _ _ Hb)|]. by apply (IH m).
Qed.

Lemma enters_optional (body : nat -> nat -> Prop) R k a b :
  (forall a b, body a b -> enters R a b) -> code_optional body k a b ->
  forall c, (c <= k)%nat -> enters (span_iter R c) a b.
Proof.
  intros He. revert a. induction k as [|k IH]; intros a; simpl.
  - intros <- c Hc i j. assert (c = O) as -> by lia. by intros <-.
  - intros (m & Hsplit & Hb & Hc) [|c] Hle i j; simpl.
    + intros <-. apply rtc_once. by apply step_split_arg with (a := b).
    + intros (x & HR & Hx). eapply rtc_l; [by eapply step_split_next|].
      etrans; [by apply (He _ _ Hb)|]. apply (IH m Hc c); [lia|done].
Qed.

Definition follows (M : Node -> nat -> nat -> Prop) (cd : Node -> nat -> nat -> Prop)
    (n : Node) : Prop := forall a b, cd n a b -> enters (M n) a b.

Lemma enters_alt M cd l :
  Forall (follows M cd) l -> forall a b, code_alt cd l a b -> enters (matches_any M l) a b.
Proof.
  induction 1 as [|n l Hn Hl IH]; intros a b Hc i j Hm; [done|]. destruct l as [|n2 l].
  { destruct Hm as [Hm|[]]. by apply (Hn _ _ Hc). }
  destruct Hc as (m & Hsplit & Hc & Hjmp & Hcs). destruct Hm as [Hm|Hm].
  - eapply rtc_l; [by eapply step_split_next|]. etrans; [by apply (Hn _ _ Hc)|].
    apply rtc_once. by apply step_jmp with (a := b).
  - eapply rtc_l; [by apply step_split_arg with (a := S m)|]. by apply (IH _ _ Hcs).
Qed.

Lemma enters_seq_list M cd l :
  Forall (follows M cd) l -> forall a b, code_seq cd l a b -> enters (matches_seq M l) a b.
Proof.
  induction 1 as [|n l Hn Hl IH]; intros a b; simpl.
  - by intros <- i j <-.
  - intros (m & Hc & Hcs) i j (x & Hx & Hxs). etrans; [by apply (Hn _ _ Hc)|]. by apply (IH _ _ Hcs).
Qed.

Lemma code_follows n : node_ok n = true -> follows matches code n.
Proof.
  induction n as [|b|cls|l IH|l IH|min max n IH|k] using Node_ind'; intros Hok a e Hc i j Hm.
  - simpl in *. by subst.
  - destruct Hc as [Hb ->], Hm as [Ht ->]. apply rtc_once. by eapply step_byte.
  - destruct Hc as [(arg & Ha & Hcls) ->], Hm as (b & Ht & Hb & ->). apply rtc_once.
    by eapply step_class.
  - simpl in Hok. zbool. eapply enters_seq_list; [by apply children_hold|done|done].
  - simpl in Hok. zbool. eapply enters_alt; [by apply children_hold|done|done].
  - simpl in Hok. zbool. destruct Hc as (m & Ht & Hc), Hm as (c & Hmin & Hmax & Hs).
    assert (He : forall a b, code n a b -> enters (matches n) a b) by (intros; by apply IH).
    replace c with (Z.to_nat min + (c - Z.to_nat min))%nat in Hs by lia.
    apply span_iter_app in Hs as (x & Hs1 & Hs2).
    etrans; [by apply (enters_times _ _ _ _ _ He Ht)|].
    destruct (Z.ltb_spec max 0); [by eapply enters_span_loop|].
    eapply enters_optional; [done|done| |done]. lia.
  - destruct Hc as [Ha ->], Hm as [Hm <-]. apply rtc_once. by eapply step_assert.
Qed.

(** A whole program: the fragment of [n] from 0, then [iMatch]. *)
Lemma code_found n e :
  node_ok n = true -> code n O e ->
  (exists i j, (i <= length t)%nat /\ rtc vm_step (O, i) (e, j)) <-> found n.
Proof.
  intros Hok Hc. split; intros (i & j & Hi & H); exists i.
  - apply rtc_nsteps in H as [k Hk].
    destruct (code_exits n Hok O e Hc) as [_ He].
    destruct (He k i e j Hk ltac:(lia)) as (k' & m & _ & Hm & _). eauto.
  - exists j. split; [done|]. by apply (code_follows n Hok).
Qed.

End paths.
End language.

(** ** The fragment stays inside itself *)

Section closed.
  Context (P : list Inst) (C : list bitset).

Definition inst_in (e : nat) (i : Inst) : Prop :=
  match i with
  | iSplit a | iJmp a => (a <= e)%nat
  | iClass arg => is_Some (C !! arg)
  | iMatch => False
  | _ => True
  end.

(** Every instruction from [a] to [b] is there and leads no further than [b]. *)
Definition closed (a b : nat) : Prop :=
  (a <= b)%nat
  /\ forall pc, (a <= pc < b)%nat -> exists i, P !! pc = Some i /\ inst_in b i.

Lemma inst_in_mono e e' i : (e <= e')%nat -> inst_in e i -> inst_in e' i.
Proof. destruct i; simpl; auto; lia. Qed.

Lemma closed_refl a : closed a a.
Proof. split; [done|]. lia. Qed.

Lemma closed_one a i : P !! a = Some i -> inst_in (S a) i -> closed a (S a).
Proof. intros H1 H2. split; [lia|]. intros pc Hpc. assert (pc = a) as -> by lia. eauto. Qed.

Lemma closed_seq a m b : closed a m -> closed m b -> closed a b.
Proof.
  intros [Hl1 H1] [Hl2 H2]. split; [lia|]. intros pc Hpc. destruct (decide (pc < m)%nat).
  - destruct (H1 pc ltac:(lia)) as (i & ? & ?). exists i. split; [done|].
    by apply (inst_in_mono m).
  - apply H2. lia.
Qed.

(** An instruction before a closed fragment, leading into it. *)
Lemma closed_cons a b i : P !! a = Some i -> inst_in b i -> closed (S a) b -> closed a b.
Proof.
  intros H1 H2 [Hl H]. split; [lia|]. intros pc Hpc.
  destruct (decide (pc = a)) as [->|]; [by eauto|]. apply H. lia.
Qed.

Lemma closed_times (body : nat -> nat -> Prop) k a b :
  (forall a b, body a b -> closed a b) -> code_times body k a b -> closed a b.
Proof.
  intros Hb. revert a. induction k as [|k IH]; intros a; simpl.
  - intros <-. apply closed_refl.
  - intros (m & H1 & H2). apply (closed_seq a m); auto.
Qed.

Lemma closed_loop (body : nat -> nat -> Prop) a b :
  (forall a b, body a b -> closed a b) -> code_loop P body a b -> closed a b.
Proof.
  intros Hb (m & H1 & H2 & H3 & ->). apply Hb in H2. pose proof H2 as [? _].
  apply (closed_cons _ _ _ H1); [simpl; lia|]. apply (closed_seq _ m); [done|].
  apply (closed_one _ _ H3). simpl. lia.
Qed.

Lemma closed_optional (body : nat -> nat -> Prop) k a b :
  (forall a b, body a b -> closed a b) -> code_optional P body k a b -> closed a b.
Proof.
  intros Hb. revert a. induction k as [|k IH]; intros a; simpl.
  - intros <-. apply closed_refl.
  - intros (m & H1 & H2 & H3). apply (closed_cons _ _ _ H1); [by simpl|].
    apply (closed_seq _ m); auto.
Qed.

Lemma closed_seq_list (cd : Node -> nat -> nat -> Prop) l a b :
  Forall (fun n => forall a b, cd n a b -> closed a b) l -> code_seq cd l a b -> closed a b.
Proof.
  intros Hl. revert a. induction Hl as [|n l Hn _ IH]; intros a; simpl.
  - intros <-. apply closed_refl.
  - intros (m & H1 & H2). apply (closed_seq _ m); auto.
Qed.

Lemma closed_alt (cd : Node -> nat -> nat -> Prop) l a b :
  Forall (fun n => forall a b, cd n a b -> closed a b) l -> code_alt P cd l a b -> closed a b.
Proof.
  intros Hl. revert a. induction Hl as [|n l Hn _ IH]; intros a; simpl.
  { intros <-. apply closed_refl. }
  destruct l as [|n2 l]; [by apply Hn|]. intros (m & H1 & H2 & H3 & H4).
  apply IH in H4. pose proof H4 as [? _]. apply (closed_cons _ _ _ H1); [by simpl|].
  apply (closed_seq _ m); [by apply Hn|]. apply (closed_cons _ _ _ H3); [by simpl|done].
Qed.

Lemma code_closed n a b : code P C n a b -> closed a b.
Proof.
  revert a b. induction n as [|c|cls|l IH|l IH|min max n IH|k] using Node_ind'; intros a b Hc.
  - simpl in Hc. subst. apply closed_refl.
  - destruct Hc as [Hc ->]. by apply (closed_one _ _ Hc I).
  - destruct Hc as [(arg & Ha & Hcls) ->]. apply (closed_one _ _ Ha). by eexists.
  - by eapply closed_seq_list.
  - by eapply closed_alt.
  - destruct Hc as (m & H1 & H2). apply (closed_seq _ m); [by eapply closed_times|].
    destruct (max <? 0); [by eapply closed_loop|by eapply closed_optional].
  - destruct Hc as [Hc ->]. by apply (closed_one _ _ Hc I).
Qed.

End closed.

(** ** Fragments do not depend on the rest of the program *)

(** [P'] and [C'] keep the fragment from [a] to [b]. *)
Definition keeps (P P' : list Inst) (C C' : list bitset) (a b : nat) : Prop :=
  (forall pc, (a <= pc < b)%nat -> P' !! pc = P !! pc)
  /\ (forall k cls, C !! k = Some cls -> C' !! k = Some cls).

Lemma keeps_sub P P' C C' a b a' b' :
  keeps P P' C C' a b -> (a <= a')%nat -> (b' <= b)%nat -> keeps P P' C C' a' b'.
Proof. intros [H1 H2] Ha Hb. split; [|done]. intros pc Hpc. apply H1. lia. Qed.

Section keeps.
  Context (P P' : list Inst) (C C' : list bitset).
  Notation kept := (keeps P P' C C').

Definition stable (cd cd' : nat -> nat -> Prop) : Prop :=
  forall a b, cd a b -> (a <= b)%nat /\ (kept a b -> cd' a b).

Lemma stable_times cd cd' k : stable cd cd' -> stable (code_times cd k) (code_times cd' k).
Proof.
  intros Hs. induction k as [|k IH]; intros a b; simpl; [intros ->; auto|].
  intros (m & H1 & H2). destruct (Hs _ _ H1) as [Hl1 Hk1], (IH _ _ H2) as [Hl2 Hk2].
  split; [lia|]. intros Hk. exists m.
  split; [apply Hk1|apply Hk2]; (eapply keeps_sub; [done|lia|lia]).
Qed.

Lemma stable_loop cd cd' : stable cd cd' -> stable (code_loop P cd) (code_loop P' cd').
Proof.
  intros Hs a b (m & H1 & H2 & H3 & ->). destruct (Hs _ _ H2) as [Hl Hk']. split; [lia|].
  intros Hk. pose proof Hk as [Hp _]. exists m. rewrite !Hp by lia.
  repeat split; try done. apply Hk'. eapply keeps_sub; [done|lia|lia].
Qed.

Lemma stable_optional cd cd' k :
  stable cd cd' -> stable (code_optional P cd k) (code_optional P' cd' k).
Proof.
  intros Hs. induction k as [|k IH]; intros a b; simpl; [intros ->; auto|].
  intros (m & H1 & H2 & H3). destruct (Hs _ _ H2) as [Hl1 Hk1], (IH _ _ H3) as [Hl2 Hk2].
  split; [lia|]. intros Hk. pose proof Hk as [Hp _]. exists m. rewrite Hp by lia.
  split; [done|]. split; [apply Hk1|apply Hk2]; (eapply keeps_sub; [done|lia|lia]).
Qed.

Lemma stable_seq (cd cd' : Node -> nat -> nat -> Prop) l :
  Forall (fun n => stable (cd n) (cd' n)) l -> stable (code_seq cd l) (code_seq cd' l).
Proof.
  induction 1 as [|n l Hn _ IH]; intros a b; simpl; [intros ->; auto|].
  intros (m & H1 & H2). destruct (Hn _ _ H1) as [Hl1 Hk1], (IH _ _ H2) as [Hl2 Hk2].
  split; [lia|]. intros Hk. exists m.
  split; [apply Hk1|apply Hk2]; (eapply keeps_sub; [done|lia|lia]).
Qed.

Lemma stable_alt (cd cd' : Node -> nat -> nat -> Prop) l :
  Forall (fun n => stable (cd n) (cd' n)) l -> stable (code_alt P cd l) (code_alt P' cd' l).
Proof.
  induction 1 as [|n l Hn _ IH]; intros a b; [intros Hc; simpl in *; subst; auto|].
  destruct l as [|n2 l]; [by apply Hn|]. intros (m & H1 & H2 & H3 & H4).
  destruct (Hn _ _ H2) as [Hl1 Hk1], (IH _ _ H4) as [Hl2 Hk2].
  split; [lia|]. intros Hk. pose proof Hk as [Hp _]. exists m. rewrite !Hp by lia.
  split; [done|]. split; [apply Hk1; eapply keeps_sub; [done|lia|lia]|].
  split; [done|]. apply Hk2. eapply keeps_sub; [done|lia|lia].
Qed.

Lemma code_stable n : stable (code P C n) (code P' C' n).
Proof.
  induction n as [|c|cls|l IH|l IH|min max n IH|k] using Node_ind'; intros a b Hc.
  - simpl in Hc. subst. split; [done|]. by intros _.
  - destruct Hc as [Hc ->]. split; [lia|]. intros [Hp _]. split; [|done]. by rewrite Hp by lia.
  - destruct Hc as [(arg & Ha & Hcls) ->]. split; [lia|]. intros [Hp HC]. split; [|done].
    exists arg. rewrite Hp by lia. auto.
  - by apply (stable_seq (code P C) (code P' C')).
  - by apply (stable_alt (code P C) (code P' C')).
  - destruct Hc as (m & H1 & H2).
    destruct (stable_times _ _ _ IH _ _ H1) as [Hl1 Hk1].
    assert (H2' : (m <= b)%nat /\ (kept m b ->
      if max <? 0 then code_loop P' (code P' C' n) m b
      else code_optional P' (code P' C' n) (Z.to_nat (max - min)) m b)).
    { destruct (max <? 0); [by apply (stable_loop _ _ IH)|by apply (stable_optional _ _ _ IH)]. }
    destruct H2' as [Hl2 Hk2]. split; [lia|]. intros Hk. exists m.
    split; [apply Hk1|apply Hk2]; (eapply keeps_sub; [done|lia|lia]).
  - destruct Hc as [Hc ->]. split; [lia|]. intros [Hp _]. split; [|done]. by rewrite Hp by lia.
Qed.

End keeps.

(** ** What emission does to the program *)

(** [re'] is [re] with more instructions and classes, and with the targets of
    the counters in [jumps] set to its end. *)
Record extends (jumps : list nat) (re re' : Regex) : Prop := {
  ext_le : (Here re <= Here re')%nat;
  ext_old pc : (pc < Here re)%nat ->
    program re' !! pc
    = (if decide (pc ∈ jumps) then set_arg (Here re') else id) <$> program re !! pc;
  ext_class k cls : classes re !! k = Some cls -> classes re' !! k = Some cls;
  ext_size : len (program re) <= kMaxProgramSize -> len (program re') <= kMaxProgramSize
}.

Lemma extends_refl re : extends [] re re.
Proof. split; try done. intros pc _. rewrite decide_False by set_solver. by rewrite option_fmap_id. Qed.

Lemma extends_old re re' pc :
  extends [] re re' -> (pc < Here re)%nat -> program re' !! pc = program re !! pc.
Proof.
  intros H Hpc. rewrite (ext_old _ _ _ H pc Hpc), decide_False by set_solver.
  apply option_fmap_id.
Qed.

Lemma extends_trans J re1 re2 re3 : extends [] re1 re2 -> extends J re2 re3 -> extends J re1 re3.
Proof.
  intros H1 H2. pose proof (ext_le _ _ _ H1). pose proof (ext_le _ _ _ H2). split.
  - lia.
  - intros pc Hpc. rewrite (ext_old _ _ _ H2) by lia. by rewrite (extends_old re1 re2) by done.
  - intros k cls Hk. by apply (ext_class _ _ _ H2), (ext_class _ _ _ H1).
  - intros Hs. by apply (ext_size _ _ _ H2), (ext_size _ _ _ H1).
Qed.

(** Only the jumps below the start matter. *)
Lemma extends_jumps J J' re re' :
  (forall pc, (pc < Here re)%nat -> pc ∈ J <-> pc ∈ J') -> extends J re re' -> extends J' re re'.
Proof.
  intros HJ H. split; try apply H. intros pc Hpc. rewrite (ext_old _ _ _ H pc Hpc).
  by rewrite (decide_ext _ _ _ _ (HJ pc Hpc)).
Qed.

Lemma extends_keeps J re re' a b :
  extends J re re' -> (b <= Here re)%nat -> (forall pc, (a <= pc)%nat -> pc ∈ J -> False) ->
  keeps (program re) (program re') (classes re) (classes re') a b.
Proof.
  intros H Hb HJ. split; [|apply H]. intros pc Hpc. rewrite (ext_old _ _ _ H) by lia.
  rewrite decide_False by (intros ?; apply (HJ pc); [lia|done]). apply option_fmap_id.
Qed.

Lemma Add_Ok i re re' :
  Add i re = Ok re' ->
  extends [] re re' /\ Here re' = S (Here re) /\ program re' !! Here re = Some i.
Proof.
  unfold Add. intros H. destruct (Z.geb_spec (len (program re)) kMaxProgramSize); [done|].
  injection H as <-. unfold Here. simpl. rewrite length_app. simpl. split; [split|split].
  - unfold Here. simpl. rewrite length_app. lia.
  - intros pc Hpc. rewrite decide_False by set_solver. simpl. rewrite option_fmap_id.
    by apply lookup_app_l.
  - done.
  - simpl. rewrite len_app. change (len [i]) with 1. lia.
  - lia.
  - rewrite lookup_app_r, Nat.sub_diag by lia. done.
Qed.

Lemma Here_patch pc a re : Here (patch pc a re) = Here re.
Proof. unfold Here, patch. simpl. apply length_alter. Qed.

Lemma lookup_patch pc a re k :
  program (patch pc a re) !! k
  = (if decide (k = pc) then set_arg a else id) <$> program re !! k.
Proof.
  unfold patch. simpl. destruct (decide (k = pc)) as [->|].
  - apply list_lookup_alter_eq.
  - rewrite list_lookup_alter_ne by congruence. by rewrite option_fmap_id.
Qed.

Lemma set_arg_twice a i : set_arg a (set_arg a i) = set_arg a i.
Proof. by destruct i. Qed.

Lemma fold_patch e pcs re :
  let re' := fold_left (fun r pc => patch pc e r) pcs re in
  Here re' = Here re /\ classes re' = classes re
  /\ forall k, program re' !! k
     = (if decide (k ∈ pcs) then set_arg e else id) <$> program re !! k.
Proof.
  revert re. induction pcs as [|pc pcs IH]; intros re; cbn [fold_left].
  - split; [done|]. split; [done|]. intros k. rewrite decide_False by set_solver.
    by rewrite option_fmap_id.
  - destruct (IH (patch pc e re)) as (H1 & H2 & H3). rewrite Here_patch in H1.
    split; [done|]. split; [done|]. intros k. rewrite H3, lookup_patch.
    destruct (program re !! k) as [i|]; simpl; [|done]. f_equal.
    repeat case_decide; simpl; try done; try set_solver. apply set_arg_twice.
Qed.

Lemma patch_all_extends pcs re re' :
  extends [] re re' -> extends pcs re (patch_all pcs re') /\ Here (patch_all pcs re') = Here re'.
Proof.
  intros H. destruct (fold_patch (Here re') pcs re') as (H1 & H2 & H3). fold (patch_all pcs re') in *.
  split; [|done]. split.
  - rewrite H1. apply H.
  - intros pc Hpc. rewrite H3, H1. f_equal. by apply extends_old.
  - rewrite H2. apply H.
  - intros Hs. pose proof (ext_size _ _ _ H Hs). unfold Here in H1. unfold len in *. lia.
Qed.

Lemma patch_extends pc a re re' :
  extends [] re re' -> (Here re <= pc)%nat -> extends [] re (patch pc a re').
Proof.
  intros H Hpc. split.
  - rewrite Here_patch. apply H.
  - intros k Hk. rewrite lookup_patch, !decide_False by (set_solver || lia).
    rewrite !option_fmap_id. by apply extends_old.
  - apply H.
  - intros Hs. pose proof (ext_size _ _ _ H Hs). pose proof (Here_patch pc a re').
    unfold Here in *. unfold len in *. lia.
Qed.

(** ** Each emitter writes the fragment it should *)

Notation fragment := (list Inst -> list bitset -> nat -> nat -> Prop).

Definition emits (f : Regex -> Outcome Regex) (cd : fragment) : Prop :=
  forall re re', f re = Ok re' ->
  extends [] re re' /\ cd (program re') (classes re') (Here re) (Here re').

Definition movable (cd : fragment) : Prop :=
  forall P P' C C' a b, cd P C a b -> (a <= b)%nat /\ (keeps P P' C C' a b -> cd P' C' a b).

Lemma code_movable n : movable (fun P C => code P C n).
Proof. intros P P' C C' a b. apply code_stable. Qed.

(** A fragment written by one step survives a later one. *)
Lemma movable_later cd J re1 re2 a :
  movable cd -> extends J re1 re2 -> (forall pc, (a <= pc)%nat -> pc ∈ J -> False) ->
  forall b, b = Here re1 -> cd (program re1) (classes re1) a b ->
  cd (program re2) (classes re2) a b.
Proof.
  intros Hm He HJ b -> Hc. apply (Hm _ _ _ _ _ _ Hc). by apply (extends_keeps J).
Qed.

Lemma emits_loop f cd :
  emits f cd -> movable cd -> emits (emit_loop f) (fun P C => code_loop P (cd P C)).
Proof.
  intros Hf Hm re re' H. unfold emit_loop in H.
  apply bind_Ok in H as (re1 & H1 & H). apply bind_Ok in H as (re2 & H2 & H).
  apply bind_Ok in H as (re3 & H3 & H). apply Ok_inj in H as <-.
  apply Add_Ok in H1 as (E1 & L1 & I1). apply Hf in H2 as (E2 & Hc).
  apply Add_Ok in H3 as (E3 & L3 & I3).
  pose proof (ext_le _ _ _ E2).
  assert (E : extends [] re re3) by (eapply extends_trans; [done|by eapply extends_trans]).
  assert (E4 : extends [] re1 re3) by by eapply extends_trans.
  split; [by apply patch_extends|].
  rewrite Here_patch. exists (Here re2). rewrite !lookup_patch.
  rewrite decide_True, decide_False by lia.
  rewrite (extends_old re1 re3), I1, I3 by (done || lia).
  split; [done|]. split; [|done]. rewrite L1 in Hc.
  apply (Hm _ _ _ _ _ _ Hc). split; [|apply E3]. intros pc Hpc. rewrite lookup_patch, decide_False by lia.
  rewrite option_fmap_id. apply extends_old; [done|lia].
Qed.

Lemma emits_times f cd k :
  emits f cd -> movable cd -> emits (emit_times f k) (fun P C => code_times (cd P C) k).
Proof.
  intros Hf Hm. induction k as [|k IH]; intros re re' H; cbn [emit_times] in H.
  - apply Ok_inj in H as <-. split; [apply extends_refl|done].
  - apply bind_Ok in H as (re1 & H1 & H). apply Hf in H1 as [E1 C1]. apply IH in H as [E2 C2].
    split; [by eapply extends_trans|]. exists (Here re1). split; [|done].
    eapply (movable_later cd); [done|exact E2|set_solver|done|done].
Qed.

Lemma emits_optional f cd k :
  emits f cd -> movable cd -> forall splits re re',
  emit_optional f k splits re = Ok re' -> (forall pc, pc ∈ splits -> (pc < Here re)%nat) ->
  extends splits re re'
  /\ code_optional (program re') (cd (program re') (classes re')) k (Here re) (Here re').
Proof.
  intros Hf Hm. induction k as [|k IH]; intros splits re re' H Hlt; cbn [emit_optional] in H.
  { apply Ok_inj in H as <-. destruct (patch_all_extends splits re re (extends_refl re)) as [E L].
    split; [done|]. simpl. by rewrite L. }
  apply bind_Ok in H as (re1 & H1 & H). apply bind_Ok in H as (re2 & H2 & H).
  apply Add_Ok in H1 as (E1 & L1 & I1). apply Hf in H2 as (E2 & Hc).
  pose proof (ext_le _ _ _ E1). pose proof (ext_le _ _ _ E2).
  assert (E : extends [] re re2) by by eapply extends_trans.
  apply IH in H as [E3 C3]; [|intros pc; rewrite elem_of_app, list_elem_of_singleton; intros [Hp| ->];
    [apply Hlt in Hp|]; lia].
  split.
  - eapply extends_jumps; [|eapply extends_trans; [exact E|exact E3]].
    intros pc Hpc. rewrite elem_of_app, list_elem_of_singleton. split; [intros [?| ->]; [done|lia]|auto].
  - exists (Here re2). split; [|split; [|done]].
    + rewrite (ext_old _ _ _ E3), decide_True by (set_solver || lia).
      by rewrite (extends_old re1 re2), I1 by (done || lia).
    + rewrite <- L1. eapply (movable_later cd); [done|exact E3| |done|done].
      intros pc Hpc. rewrite elem_of_app, list_elem_of_singleton. intros [Hp| ->]; [|lia].
      apply Hlt in Hp. lia.
Qed.

Lemma emits_repeat f cd min max :
  emits f cd -> movable cd ->
  emits (EmitRepeat f min max) (fun P C a b => exists m, code_times (cd P C) (Z.to_nat min) a m
    /\ if max <? 0 then code_loop P (cd P C) m b
       else code_optional P (cd P C) (Z.to_nat (max - min)) m b).
Proof.
  intros Hf Hm re re' H. unfold EmitRepeat in H. apply bind_Ok in H as (re1 & H1 & H).
  apply (emits_times f cd _ Hf Hm) in H1 as [E1 C1].
  assert (H2 : extends [] re1 re' /\ if max <? 0
    then code_loop (program re') (cd (program re') (classes re')) (Here re1) (Here re')
    else code_optional (program re') (cd (program re') (classes re')) (Z.to_nat (max - min))
           (Here re1) (Here re')).
  { destruct (max <? 0); [by apply (emits_loop f cd Hf Hm)|].
    apply (emits_optional f cd _ Hf Hm) in H; [done|set_solver]. }
  destruct H2 as [E2 C2]. split; [by eapply extends_trans|]. exists (Here re1). split; [|done].
  eapply (movable_later (fun P C => code_times (cd P C) (Z.to_nat min)));
    [|exact E2|set_solver|done|done].
  intros P P' C C' a b. apply (stable_times P P' C C'). intros a' b'. apply Hm.
Qed.

Lemma emits_all (cd : Node -> fragment) l :
  Forall (fun n => emits (Emit n) (cd n)) l -> (forall n, movable (cd n)) ->
  emits (emit_all Emit l) (fun P C => code_seq (fun n => cd n P C) l).
Proof.
  intros Hl Hm. induction Hl as [|n l Hn _ IH]; intros re re' H; cbn [emit_all] in H.
  - apply Ok_inj in H as <-. split; [apply extends_refl|done].
  - apply bind_Ok in H as (re1 & H1 & H). apply Hn in H1 as [E1 C1]. apply IH in H as [E2 C2].
    split; [by eapply extends_trans|]. exists (Here re1). split; [|done].
    eapply (movable_later (cd n)); [done|exact E2|set_solver|done|done].
Qed.

Lemma emits_alt (cd : Node -> fragment) l :
  Forall (fun n => emits (Emit n) (cd n)) l -> (forall n, movable (cd n)) ->
  forall jumps re re',
  emit_alt Emit l jumps re = Ok re' -> (forall pc, pc ∈ jumps -> (pc < Here re)%nat) ->
  extends jumps re re'
  /\ code_alt (program re') (fun n => cd n (program re') (classes re')) l (Here re) (Here re').
Proof.
  intros Hl Hm. induction Hl as [|n l Hn _ IH]; intros jumps re re' H Hlt.
  { apply Ok_inj in H as <-.
    destruct (patch_all_extends jumps re re (extends_refl re)) as [E L].
    split; [done|]. simpl. by rewrite L. }
  destruct l as [|n2 l].
  { cbn [emit_alt] in H. apply bind_Ok in H as (re1 & H1 & H). apply Hn in H1 as [E1 C1].
    apply Ok_inj in H as <-. destruct (patch_all_extends jumps re re1 E1) as [E L].
    split; [done|]. cbn [code_alt]. rewrite L.
    apply (Hm _ _ _ _ _ _ _ C1).
    destruct (fold_patch (Here re1) jumps re1) as (_ & HC & HP).
    fold (patch_all jumps re1) in HC, HP. split; [|by rewrite HC].
    intros pc Hpc. rewrite HP, decide_False by (intros Hj; apply Hlt in Hj; lia).
    apply option_fmap_id. }
  remember (n2 :: l) as l2 eqn:El. cbn [emit_alt code_alt] in *. rewrite El in H |- *.
  rewrite <- El in *.
  apply bind_Ok in H as (re1 & H1 & H). apply bind_Ok in H as (re2 & H2 & H).
  apply bind_Ok in H as (re3 & H3 & H).
  apply Add_Ok in H1 as (E1 & L1 & I1). apply Hn in H2 as (E2 & C2).
  apply Add_Ok in H3 as (E3 & L3 & I3).
  pose proof (ext_le _ _ _ E2).
  assert (E13 : extends [] re1 re3) by by eapply extends_trans.
  assert (E03 : extends [] re re3) by by eapply extends_trans.
  set (re4 := patch (Here re) (Here re3) re3) in *.
  assert (L4 : Here re4 = Here re3) by apply Here_patch.
  assert (E04 : extends [] re re4) by by apply patch_extends.
  apply IH in H as [E C]; [|intros pc; rewrite elem_of_app, list_elem_of_singleton;
    intros [Hp| ->]; [apply Hlt in Hp|]; lia].
  assert (Hj : forall pc, (Here re <= pc)%nat -> pc ∈ jumps ++ [Here re2] -> pc = Here re2).
  { intros pc Hpc. rewrite elem_of_app, list_elem_of_singleton. intros [Hp| ->]; [|done].
    apply Hlt in Hp. lia. }
  split.
  - eapply extends_jumps; [|eapply extends_trans; [exact E04|exact E]].
    intros pc Hpc. rewrite elem_of_app, list_elem_of_singleton.
    split; [intros [?| ->]; [done|lia]|auto].
  - exists (Here re2). rewrite <- L3, <- L4. split; [|split; [|split; [|done]]].
    + rewrite (ext_old _ _ _ E), decide_False by (try lia; intros Hp; apply Hj in Hp; lia).
      unfold re4 at 1. rewrite lookup_patch, decide_True by done.
      rewrite (extends_old re1 re3), I1 by (done || lia). by rewrite L4.
    + rewrite <- L1. apply (Hm _ _ _ _ _ _ _ C2). split.
      * intros pc Hpc. rewrite (ext_old _ _ _ E), decide_False
          by (try lia; intros Hp; apply Hj in Hp; lia).
        rewrite option_fmap_id. unfold re4. rewrite lookup_patch, decide_False by lia.
        rewrite option_fmap_id. apply (extends_old re2 re3); [done|lia].
      * intros k cls Hk. apply (ext_class _ _ _ E), (ext_class _ _ _ E3). exact Hk.
    + assert (Hin : Here re2 ∈ jumps ++ [Here re2])
        by (apply elem_of_app; right; by apply list_elem_of_singleton).
      rewrite (ext_old _ _ _ E) by lia. rewrite decide_True by exact Hin.
      unfold re4 at 1. rewrite lookup_patch, decide_False, I3 by lia. done.
Qed.

(** ** The compiler theorem *)

Lemma find_class_Some cls l i k :
  find_class cls l i = Some k -> (i <= k)%nat /\ l !! (k - i)%nat = Some cls.
Proof.
  revert i. induction l as [|c l IH]; intros i; cbn [find_class]; [done|].
  destruct (Z.eqb_spec c cls) as [->|].
  - intros [= ->]. by rewrite Nat.sub_diag.
  - intros H. apply IH in H as [? H]. split; [lia|].
    replace (k - i)%nat with (S (k - S i)) by lia. done.
Qed.

Lemma AddClass_spec cls re arg re1 :
  AddClass cls re = (arg, re1) -> extends [] re re1 /\ Here re1 = Here re
    /\ classes re1 !! arg = Some cls.
Proof.
  unfold AddClass. destruct (find_class _ _ _) as [k|] eqn:E; intros [= <- <-].
  - apply find_class_Some in E as [_ E]. rewrite Nat.sub_0_r in E.
    split; [apply extends_refl|done].
  - split; [|split; [done|]].
    + split; try done.
      * intros pc Hpc. rewrite decide_False by set_solver. by rewrite option_fmap_id.
      * intros k c Hk. by apply lookup_app_l_Some.
    + simpl. by rewrite lookup_app_r, Nat.sub_diag by done.
Qed.

Lemma Emit_code n : emits (Emit n) (fun P C => code P C n).
Proof.
  induction n as [|c|cls|l IH|l IH|min max n IH|k] using Node_ind'; intros re re' H; simpl in H.
  - apply Ok_inj in H as <-. split; [apply extends_refl|done].
  - apply Add_Ok in H as (E & L & I). done.
  - destruct (AddClass cls re) as [arg re1] eqn:Ec.
    apply AddClass_spec in Ec as (E1 & L1 & I1). apply Add_Ok in H as (E2 & L2 & I2).
    split; [by eapply extends_trans|]. split; [|by rewrite L2, L1]. exists arg.
    rewrite <- L1. split; [done|]. by apply (ext_class _ _ _ E2).
  - by apply (emits_all (fun n P C => code P C n) l IH code_movable).
  - apply (emits_alt (fun n P C => code P C n) l IH code_movable) in H; [done|set_solver].
  - by apply (emits_repeat _ _ min max IH (code_movable n)).
  - apply Add_Ok in H as (E & L & I). done.
Qed.

(** A compiled pattern: the tree's fragment from 0, then the only [iMatch],
    every instruction leading inside the program. *)
Record compiled (n : Node) (re : Regex) : Prop := {
  compiled_ok : node_ok n = true;
  compiled_code : code (program re) (classes re) n 0 (Here re - 1);
  compiled_size : (0 < Here re)%nat /\ len (program re) <= kMaxProgramSize;
  compiled_match : program re !! (Here re - 1)%nat = Some iMatch;
  compiled_in pc : (pc < Here re - 1)%nat ->
    exists i, program re !! pc = Some i /\ inst_in (classes re) (Here re - 1) i
}.

Lemma Compile_compiled p re :
  Compile p = Some (Ok re) -> exists n, Parse p = Some (Ok n) /\ compiled n re.
Proof.
  unfold Compile. pose proof (Parse_ok p) as Hp. destruct (Parse p) as [[n|e]|]; [|done..].
  intros H. exists n. split; [done|]. destruct Hp as [Hok _]. apply (inj Some) in H.
  apply bind_Ok in H as (n' & Hn & H). apply Ok_inj in Hn as <-.
  apply bind_Ok in H as (re1 & H1 & H2). apply Emit_code in H1 as [E1 C1].
  apply Add_Ok in H2 as (E2 & L2 & I2). change (Here (mkRegex [] [])) with O in *.
  assert (Hc : code (program re) (classes re) n 0 (Here re1)).
  { eapply (movable_later (fun P C => code P C n)); [apply code_movable|exact E2|set_solver|done|done]. }
  split; rewrite ?L2; replace (S (Here re1) - 1)%nat with (Here re1) by lia; try done.
  - split; [lia|]. apply (ext_size _ _ _ E2), (ext_size _ _ _ E1). done.
  - destruct (code_closed _ _ _ _ _ Hc) as [_ Hin]. intros pc Hpc. apply Hin. lia.
Qed.
