(* ===== verification/RegexSearch.v ===== *)
(** The Pike VM of core/regex.cc: [Regex::Search] against the meaning of the
    pattern it was compiled from.  One closure ([AddThread]) is described by
    [closes], the state between bytes by [frontier]; together with the compiler
    theorem they give [Search_correct]. *)
From Stdlib Require Import ZArith Lia Strings.Byte.
From stdpp Require Import relations.
From S2P Require Import Prelude Bytes RegexSyntax RegexVM RegexCompile.

Local Open Scope Z_scope.

(** ** Counting stamps *)

Definition marked (s : Z) (seen : list Z) : nat := length (filter (fun x => x = s) seen).

Lemma marked_le s seen : (marked s seen <= length seen)%nat.
Proof. apply length_filter. Qed.

Lemma marked_cons s x seen :
  marked s (x :: seen) = ((if decide (x = s) then 1 else 0) + marked s seen)%nat.
Proof. unfold marked. rewrite filter_cons. by case_decide. Qed.

Lemma marked_insert s seen at_ s' :
  seen !! at_ = Some s' -> s' <> s -> marked s (<[at_ := s]> seen) = S (marked s seen).
Proof.
  revert at_. induction seen as [|x seen IH]; intros [|at_]; simpl; try done.
  - intros [= ->] Hne. rewrite !marked_cons, decide_True, decide_False by done. lia.
  - intros H Hne. rewrite !marked_cons, IH by done. lia.
Qed.

Section search.
  Context (n : Node) (re : Regex) (Hre : compiled n re) (t : bytes).
  Notation P := (program re).
  Notation C := (classes re).
  Notation size := (length (program re)).
  Notation step := (vm_step t P C).

(** ** Instructions stay in the program *)

Lemma inst_at pc :
  (pc < size)%nat ->
  exists i, P !! pc = Some i
    /\ (i = iMatch /\ pc = (size - 1)%nat \/ inst_in C (size - 1) i /\ (S pc < size)%nat).
Proof.
  intros Hpc. destruct (decide (pc = (size - 1)%nat)) as [->|].
  - exists iMatch. split; [apply (compiled_match _ _ Hre)|auto].
  - destruct (compiled_in _ _ Hre pc) as (i & H1 & H2); [unfold Here; lia|].
    exists i. split; [done|]. right. split; [done|lia].
Qed.

(** The zero-width steps of the VM are the pushes of the closure. *)
Lemma closure_step_steps pos pc i push pc' :
  P !! pc = Some i -> closure_step t pos pc i = Some push ->
  pc' ∈ push <-> step (pc, pos) (pc', pos).
Proof.
  intros Hi Hs. split.
  - destruct i; simpl in Hs; try case_match; simplify_eq;
      rewrite ?elem_of_cons, ?elem_of_nil; intros Hin; destruct_or?; subst; try done;
      eauto using vm_step.
  - inversion 1; simplify_eq; simpl in *; simplify_eq; try lia;
      try (apply list_elem_of_singleton; reflexivity);
      rewrite ?elem_of_cons; auto.
    case_match; simplify_eq. by apply list_elem_of_singleton.
Qed.

Lemma push_in_range pos pc i push :
  (pc < size)%nat -> P !! pc = Some i -> closure_step t pos pc i = Some push ->
  (length push <= 2)%nat /\ Forall (fun pc' => (pc' < size)%nat) push.
Proof.
  intros Hpc Hi Hs. destruct (inst_at pc Hpc) as (i' & Hi' & [[-> _]|[Hin Hlt]]);
    simplify_eq.
  destruct i; simpl in *; try case_match; simplify_eq; simpl; (split; [lia|]);
    repeat constructor; lia.
Qed.
(** ** One closure *)

Definition at_stamp (th : Threads) (s : Z) (pc : nat) : Prop := tseen th !! pc = Some s.
Definition consuming (pc : nat) : Prop := exists i, P !! pc = Some i /\ is_consuming i = true.

(** What a closure from the counters [work] at [pos] makes of [th]. *)
Record closes (s : Z) (pos : nat) (work : list nat) (th : Threads) (hit : bool) (th' : Threads)
    : Prop := {
  cl_length : length (tseen th') = length (tseen th);
  cl_steps : tsteps th' - tsteps th
             = Z.of_nat (marked s (tseen th')) - Z.of_nat (marked s (tseen th));
  cl_grows pc : at_stamp th s pc -> at_stamp th' s pc;
  cl_other pc s' : s' <> s -> at_stamp th' s' pc -> at_stamp th s' pc;
  cl_sound pc : at_stamp th' s pc ->
    at_stamp th s pc \/ exists w, w ∈ work /\ rtc step (w, pos) (pc, pos);
  cl_list pc : pc ∈ tlist th' <->
    pc ∈ tlist th \/ (consuming pc /\ at_stamp th' s pc /\ ~ at_stamp th s pc);
  cl_hit : if hit then exists pc w, P !! pc = Some iMatch /\ w ∈ work
                        /\ rtc step (w, pos) (pc, pos)
    else (forall w, w ∈ work -> at_stamp th' s w)
      /\ forall pc, at_stamp th' s pc -> ~ at_stamp th s pc ->
           P !! pc <> Some iMatch
           /\ forall pc', step (pc, pos) (pc', pos) -> at_stamp th' s pc'
}.

Lemma closes_done s pos th : closes s pos [] th false th.
Proof.
  split; try done; try lia; try tauto.
  split; [|done]. intros w Hw. by apply elem_of_nil in Hw.
Qed.

Lemma closes_skip s pos at_ work th hit th' :
  at_stamp th s at_ -> closes s pos work th hit th' -> closes s pos (at_ :: work) th hit th'.
Proof.
  intros Hat H. split; try apply H.
  - intros pc Hpc. destruct (cl_sound _ _ _ _ _ _ H pc Hpc) as [?|(w & Hw & ?)]; [by left|].
    right. exists w. split; [by right|done].
  - pose proof (cl_hit _ _ _ _ _ _ H) as Hh. destruct hit.
    + destruct Hh as (pc & w & ? & ? & ?). exists pc, w. split; [done|]. split; [by right|done].
    + destruct Hh as [Hw Hc]. split; [|done]. intros w Hin. apply elem_of_cons in Hin as [->|Hin].
      * by apply (cl_grows _ _ _ _ _ _ H).
      * by apply Hw.
Qed.

(** The state after one instruction is processed. *)
Definition visit (s : Z) (at_ : nat) (i : Inst) (th : Threads) : Threads :=
  mkThreads (if is_consuming i then tlist th ++ [at_] else tlist th)
    (<[at_ := s]> (tseen th)) (tsteps th + 1).

Lemma visit_stamp s at_ i th s0 :
  tseen th !! at_ = Some s0 -> forall pc s', at_stamp (visit s at_ i th) s' pc
    <-> (pc = at_ /\ s' = s) \/ (pc <> at_ /\ at_stamp th s' pc).
Proof.
  intros H pc s'. unfold at_stamp, visit. simpl. destruct (decide (pc = at_)) as [->|].
  - rewrite list_lookup_insert_eq by by eapply lookup_lt_Some. naive_solver.
  - rewrite list_lookup_insert_ne by done. naive_solver.
Qed.

Lemma visit_list s at_ i th pc :
  P !! at_ = Some i -> pc ∈ tlist (visit s at_ i th) <->
  pc ∈ tlist th \/ (pc = at_ /\ consuming pc).
Proof.
  intros Hi. simpl. destruct (is_consuming i) eqn:E.
  - rewrite elem_of_app, list_elem_of_singleton. split; [|tauto].
    intros [?| ->]; [by left|]. right. split; [done|]. by exists i.
  - split; [by left|]. intros [?|[-> (i' & ? & ?)]]; [done|]. simplify_eq; congruence.
Qed.

Lemma closes_match s pos at_ work th s0 :
  tseen th !! at_ = Some s0 -> s0 <> s -> P !! at_ = Some iMatch ->
  closes s pos (at_ :: work) th true (visit s at_ iMatch th).
Proof.
  intros H0 Hne Hi. pose proof (visit_stamp s at_ iMatch th s0 H0) as Hv. split.
  - apply length_insert.
  - simpl. rewrite (marked_insert s _ _ s0) by done. lia.
  - intros pc Hpc. apply Hv. destruct (decide (pc = at_)) as [->|]; auto.
  - intros pc s' Hs'. rewrite Hv. intros [[_ ->]|[_ ?]]; done.
  - intros pc. rewrite Hv. intros [[-> _]|[_ ?]]; [|by left]. right. exists at_.
    split; [by left|done].
  - intros pc. simpl. split; [by left|]. intros [?|((i' & Hi' & Hc) & H1 & H2)]; [done|].
    apply Hv in H1 as [[-> _]|[_ ?]]; [|done]. by simplify_eq.
  - exists at_, at_. split; [done|]. split; [by left|done].
Qed.

Lemma closes_visit s pos at_ work th s0 i push hit th' :
  tseen th !! at_ = Some s0 -> s0 <> s -> P !! at_ = Some i ->
  closure_step t pos at_ i = Some push ->
  closes s pos (push ++ work) (visit s at_ i th) hit th' ->
  closes s pos (at_ :: work) th hit th'.
Proof.
  intros H0 Hne Hi Hs H. pose proof (visit_stamp s at_ i th s0 H0) as Hv.
  pose proof (closure_step_steps pos at_ i push) as Hp.
  assert (Hat : at_stamp th' s at_). { apply (cl_grows _ _ _ _ _ _ H), Hv. auto. }
  assert (Hold : forall pc, pc <> at_ -> at_stamp th s pc <-> at_stamp (visit s at_ i th) s pc).
  { intros pc Hpc. rewrite Hv. naive_solver. }
  assert (Hnot : ~ at_stamp th s at_) by (unfold at_stamp; congruence).
  assert (Hreach : forall w pc, w ∈ push ++ work -> rtc step (w, pos) (pc, pos) ->
    exists w', w' ∈ at_ :: work /\ rtc step (w', pos) (pc, pos)).
  { intros w pc Hw Hr. apply elem_of_app in Hw as [Hw|Hw].
    - exists at_. split; [by left|]. eapply rtc_l; [|exact Hr]. by apply (Hp w).
    - exists w. split; [by right|done]. }
  split.
  - rewrite (cl_length _ _ _ _ _ _ H). apply length_insert.
  - pose proof (cl_steps _ _ _ _ _ _ H) as E. simpl in E.
    rewrite (marked_insert s _ _ s0) in E by done. lia.
  - intros pc Hpc. apply (cl_grows _ _ _ _ _ _ H), Hv.
    destruct (decide (pc = at_)) as [->|]; auto.
  - intros pc s' Hs' Hpc. apply (cl_other _ _ _ _ _ _ H _ _ Hs'), Hv in Hpc. naive_solver.
  - intros pc Hpc. apply (cl_sound _ _ _ _ _ _ H) in Hpc as [Hpc|(w & Hw & Hr)]; [|eauto].
    apply Hv in Hpc as [[-> _]|[_ ?]]; [|by left]. right. exists at_. split; [by left|done].
  - intros pc. rewrite (cl_list _ _ _ _ _ _ H), (visit_list _ _ _ _ _ Hi). split.
    + intros [[?|[-> ?]]|(Hc & H1 & H2)]; [by left|by right|]. right. split; [done|].
      split; [done|]. contradict H2. apply Hv. destruct (decide (pc = at_)); auto.
    + intros [?|(Hc & H1 & H2)]; [auto|]. destruct (decide (pc = at_)) as [->|Hn]; [auto|].
      right. rewrite <- Hold by done. auto.
  - pose proof (cl_hit _ _ _ _ _ _ H) as Hh. destruct hit.
    + destruct Hh as (pc & w & Hm & Hw & Hr). destruct (Hreach _ _ Hw Hr) as (w' & ? & ?). eauto.
    + destruct Hh as [Hw Hc]. split.
      * intros w Hin. apply elem_of_cons in Hin as [->|Hin]; [done|]. apply Hw, elem_of_app. auto.
      * intros pc H1 H2. destruct (decide (pc = at_)) as [->|Hn].
        -- split; [intros Hm; by simplify_eq|]. intros pc' Hstep. apply Hw, elem_of_app. left.
           by apply (Hp pc').
        -- apply Hc; [done|]. by rewrite <- Hold.
Qed.

Lemma AddThread_loop_closes s pos fuel work th :
  length (tseen th) = size -> Forall (fun w => (w < size)%nat) work ->
  (2 * (size - marked s (tseen th)) + length work < fuel)%nat ->
  exists hit th', AddThread_loop fuel re s t pos work th = Some (hit, th')
    /\ closes s pos work th hit th'.
Proof.
  revert work th. induction fuel as [|fuel IH]; intros work th Hlen Hwork Hf; [lia|].
  destruct work as [|at_ work]; cbn [AddThread_loop].
  { exists false, th. split; [done|]. apply closes_done. }
  apply Forall_cons in Hwork as [Hat Hwork]. simpl in Hf.
  destruct (lookup_lt_is_Some_2 (tseen th) at_ ltac:(lia)) as [s0 Hs0]. rewrite Hs0. simpl.
  destruct (Z.eqb_spec s0 s) as [->|Hne].
  { destruct (IH work th Hlen Hwork ltac:(lia)) as (hit & th' & E & H). exists hit, th'.
    split; [done|]. by apply closes_skip. }
  destruct (lookup_lt_is_Some_2 P at_ Hat) as [i Hi]. rewrite Hi. simpl.
  fold (visit s at_ i th). destruct (closure_step t pos at_ i) as [push|] eqn:Hs.
  - destruct (push_in_range pos at_ i push Hat Hi Hs) as [Hp1 Hp2].
    destruct (IH (push ++ work) (visit s at_ i th)) as (hit & th' & E & H).
    + simpl. by rewrite length_insert.
    + by apply Forall_app.
    + simpl. rewrite (marked_insert s _ _ s0), length_app by done.
      pose proof (marked_le s (<[at_ := s]> (tseen th))) as Hm.
      rewrite (marked_insert s _ _ s0), length_insert in Hm by done. lia.
    + exists hit, th'. split; [done|]. by eapply closes_visit.
  - destruct i; try done.
    exists true, (visit s at_ iMatch th). split; [done|]. by eapply closes_match.
Qed.

Lemma AddThread_closes s pos pc th :
  length (tseen th) = size -> (pc < size)%nat ->
  exists hit th', AddThread re s pc t pos th = Some (hit, th') /\ closes s pos [pc] th hit th'.
Proof.
  intros Hlen Hpc. apply AddThread_loop_closes; [done|by apply Forall_singleton|].
  unfold closure_fuel. simpl. lia.
Qed.

(** ** The state between bytes *)

(** A thread started at some position up to [pos] can be at [pc]. *)
Definition reach (pc pos : nat) : Prop :=
  exists i, (i <= length t)%nat /\ rtc step (O, i) (pc, pos).

Definition stamp (pos : nat) : Z := Z.of_nat pos + 1.

Record frontier (pos : nat) (th : Threads) : Prop := {
  fr_length : length (tseen th) = size;
  fr_le pc s : at_stamp th s pc -> s <= stamp pos;
  fr_reach pc : at_stamp th (stamp pos) pc -> reach pc pos;
  fr_closed pc : at_stamp th (stamp pos) pc ->
    P !! pc <> Some iMatch
    /\ forall pc', step (pc, pos) (pc', pos) -> at_stamp th (stamp pos) pc';
  fr_list pc : pc ∈ tlist th <-> consuming pc /\ at_stamp th (stamp pos) pc;
  fr_steps : tsteps th
    <= Z.of_nat size * Z.of_nat pos + Z.of_nat (marked (stamp pos) (tseen th))
}.

(** The bound on the steps at any time of the turn for [pos]. *)
Definition steps_bound (pos : nat) (th : Threads) : Prop :=
  tsteps th <= Z.of_nat size * (Z.of_nat pos + 1).

Lemma marked_bound pos th :
  length (tseen th) = size ->
  tsteps th <= Z.of_nat size * Z.of_nat pos + Z.of_nat (marked (stamp pos) (tseen th)) ->
  steps_bound pos th.
Proof.
  intros Hl Hs. unfold steps_bound. pose proof (marked_le (stamp pos) (tseen th)). nia.
Qed.

(** Closing a reachable counter into a frontier. *)
Lemma frontier_add pos pc th :
  frontier pos th -> (pc < size)%nat -> reach pc pos ->
  exists hit th', AddThread re (stamp pos) pc t pos th = Some (hit, th') /\ steps_bound pos th'
    /\ if hit then exists m, P !! m = Some iMatch /\ reach m pos
       else frontier pos th' /\ at_stamp th' (stamp pos) pc
            /\ forall x, at_stamp th (stamp pos) x -> at_stamp th' (stamp pos) x.
Proof.
  intros F Hpc [i0 [Hi0 Hr]].
  destruct (AddThread_closes (stamp pos) pos pc th (fr_length _ _ F) Hpc) as (hit & th' & E & H).
  exists hit, th'. split; [done|].
  assert (Hl : length (tseen th') = size).
  { rewrite (cl_length _ _ _ _ _ _ H). apply F. }
  pose proof (cl_steps _ _ _ _ _ _ H). pose proof (fr_steps _ _ F).
  split; [apply marked_bound; [done|lia]|].
  assert (Hw : forall w pc', w ∈ [pc] -> rtc step (w, pos) (pc', pos) -> reach pc' pos).
  { intros w pc' Hw Hr'. apply list_elem_of_singleton in Hw as ->. exists i0.
    split; [done|]. by etrans. }
  pose proof (cl_hit _ _ _ _ _ _ H) as Hh. destruct hit.
  { destruct Hh as (m & w & Hm & Hin & Hr'). eauto. }
  destruct Hh as [Hin Hc]. split; [|split; [by apply Hin, list_elem_of_singleton|apply H]].
  assert (Hdec : forall x, at_stamp th (stamp pos) x \/ ~ at_stamp th (stamp pos) x).
  { intros x. unfold at_stamp. destruct (decide (tseen th !! x = Some (stamp pos))); auto. }
  split.
  - done.
  - intros x s Hx. destruct (decide (s = stamp pos)) as [->|Hne]; [done|].
    apply (fr_le _ _ F x). by apply (cl_other _ _ _ _ _ _ H).
  - intros x Hx. apply (cl_sound _ _ _ _ _ _ H) in Hx as [Hx|(w & Hw1 & Hw2)];
      [by apply (fr_reach _ _ F)|by eapply Hw].
  - intros x Hx. destruct (Hdec x) as [Ho|Hn]; [|by apply Hc].
    destruct (fr_closed _ _ F x Ho) as [Hx1 Hx2]. split; [done|]. intros pc' Hs.
    by apply (cl_grows _ _ _ _ _ _ H), Hx2.
  - intros x. rewrite (cl_list _ _ _ _ _ _ H), (fr_list _ _ F). split.
    + intros [[Hx1 Hx2]|(Hx1 & Hx2 & _)]; [|done]. split; [done|].
      by apply (cl_grows _ _ _ _ _ _ H).
    + intros [Hx1 Hx2]. destruct (Hdec x); auto.
  - lia.
Qed.

(** ** One byte *)

Lemma inst_matches_step pc i c pos :
  P !! pc = Some i -> is_consuming i = true -> t !! pos = Some c ->
  (S pc < size)%nat /\ exists m, inst_matches re i c = Some m
    /\ (m = true <-> step (pc, pos) (S pc, S pos)).
Proof.
  intros Hi Hc Ht. destruct (inst_at pc) as (i' & Hi' & [[-> _]|[Hin Hlt]]);
    [by eapply lookup_lt_Some|by simplify_eq|]. simplify_eq. split; [done|].
  destruct i as [b|arg|a|a|k|]; try done; simpl in *.
  - exists (byte_eqb b c). split; [done|]. destruct (byte_eqb_spec b c) as [->|Hne].
    + split; [|done]. intros _. by apply (step_byte _ _ _ _ _ c).
    + split; [done|]. inversion 1; simplify_eq.
  - destruct Hin as [cls Hcls]. rewrite Hcls. simpl. eexists. split; [done|]. split.
    + intros Hb. by eapply step_class.
    + inversion 1; simplify_eq. done.
Qed.

(** A step that reads a byte goes to the next counter. *)
Lemma consuming_step pc pos pc' :
  step (pc, pos) (pc', S pos) -> consuming pc /\ pc' = S pc.
Proof. inversion 1; subst; try lia; (split; [eexists; split; [done|done]|done]). Qed.

Lemma advance_frontier pos c current th :
  t !! pos = Some c -> stamp_at pos 2 = stamp (S pos) -> frontier (S pos) th ->
  Forall (fun pc => consuming pc /\ reach pc pos) current ->
  exists hit th', advance re t pos c current th = Some (hit, th') /\ steps_bound (S pos) th'
    /\ if hit then exists m, P !! m = Some iMatch /\ reach m (S pos)
       else frontier (S pos) th'
            /\ (forall x, at_stamp th (stamp (S pos)) x -> at_stamp th' (stamp (S pos)) x)
            /\ forall pc, pc ∈ current -> step (pc, pos) (S pc, S pos) ->
                 at_stamp th' (stamp (S pos)) (S pc).
Proof.
  intros Ht Hst. revert th. induction current as [|pc current IH]; intros th F Hcur; cbn [advance].
  { exists false, th. split; [done|]. split; [apply marked_bound; apply F|].
    split; [done|]. split; [done|]. intros pc Hpc. by apply elem_of_nil in Hpc. }
  apply Forall_cons in Hcur as [[(i & Hi & Hc) [i0 [Hi0 Hr]]] Hcur]. rewrite Hi. simpl.
  destruct (inst_matches_step pc i c pos Hi Hc Ht) as (Hlt & m & -> & Hm). simpl. destruct m.
  - assert (Hstep : step (pc, pos) (S pc, S pos)) by by apply Hm.
    destruct (frontier_add (S pos) (S pc) th F Hlt) as (hit & th1 & E & Hb & H).
    { exists i0. split; [done|]. by eapply rtc_r. }
    rewrite Hst, E. simpl. destruct hit; [by exists true, th1|].
    destruct H as (F1 & Hpc & Hg). destruct (IH th1 F1 Hcur) as (hit & th2 & -> & Hb2 & H2).
    exists hit, th2. split; [done|]. split; [done|]. destruct hit; [done|].
    destruct H2 as (F2 & Hg2 & Hall). split; [done|]. split; [auto|].
    intros x Hx Hs. apply elem_of_cons in Hx as [->|Hx]; auto.
  - destruct (IH th F Hcur) as (hit & th2 & -> & Hb2 & H2). exists hit, th2.
    split; [done|]. split; [done|]. destruct hit; [done|].
    destruct H2 as (F2 & Hg2 & Hall). split; [done|]. split; [done|].
    intros x Hx Hs. apply elem_of_cons in Hx as [->|Hx]; [|auto]. apply Hm in Hs. done.
Qed.

(** ** The whole search *)

(** Threads that read the byte before [pos] have been closed at [pos]. *)
Definition arrived (pos : nat) (th : Threads) : Prop :=
  forall pc p pc', S p = pos -> reach pc p -> step (pc, p) (pc', pos) ->
  at_stamp th (stamp pos) pc'.

Lemma step_cases pc i pc' j : step (pc, i) (pc', j) -> j = i \/ j = S i.
Proof. inversion 1; auto. Qed.

(** A frontier that also holds counter 0 holds every reachable counter. *)
Lemma frontier_full pos th :
  frontier pos th -> arrived pos th -> at_stamp th (stamp pos) 0 ->
  forall pc, reach pc pos -> at_stamp th (stamp pos) pc.
Proof.
  intros F Ha H0 pc (i0 & Hi0 & Hr).
  enough (forall y, rtc step (O, i0) y -> snd y = pos -> at_stamp th (stamp pos) (fst y)) as He.
  { by apply (He (pc, pos)). }
  clear pc Hr.
  apply (rtc_ind_r (fun y => snd y = pos -> at_stamp th (stamp pos) (fst y)) (O, i0)); [done|]. intros [pc i] [pc' j] Hr Hs IH. simpl in *. intros ->. destruct (step_cases _ _ _ _ Hs) as [->| ->].
  - by apply (fr_closed _ _ F pc (IH eq_refl)).
  - eapply Ha; [done| |exact Hs]. by exists i0.
Qed.

Lemma frontier_next pos th :
  frontier pos th -> frontier (S pos) (mkThreads [] (tseen th) (tsteps th)).
Proof.
  intros F.
  assert (Hno : forall pc, at_stamp (mkThreads [] (tseen th) (tsteps th)) (stamp (S pos)) pc -> False).
  { intros pc Hpc. apply (fr_le _ _ F) in Hpc. unfold stamp in Hpc. lia. }
  split.
  - apply F.
  - intros pc s Hs. apply (fr_le _ _ F) in Hs. unfold stamp in *. lia.
  - intros pc Hpc. by apply Hno in Hpc.
  - intros pc Hpc. by apply Hno in Hpc.
  - intros pc. split; [intros Hpc; by apply elem_of_nil in Hpc|].
    intros [_ Hpc]. by apply Hno in Hpc.
  - simpl. pose proof (fr_steps _ _ F). pose proof (marked_le (stamp pos) (tseen th)).
    rewrite (fr_length _ _ F) in *. lia.
Qed.

Definition no_match_at (pos : nat) : Prop := forall m, P !! m = Some iMatch -> ~ reach m pos.

Lemma stamp_at_small pos k :
  (pos <= length t)%nat -> len t + 2 < 2 ^ 32 -> 0 <= k <= 2 ->
  stamp_at pos k = Z.of_nat pos + k.
Proof. unfold len, stamp_at, wrap. intros. rewrite !Z.mod_small; lia. Qed.

(** The fresh attempt at [pos] completes the frontier. *)
Lemma frontier_start pos th :
  (pos <= length t)%nat -> len t + 2 < 2 ^ 32 -> frontier pos th -> arrived pos th ->
  exists hit th1, AddThread re (stamp_at pos 1) 0 t pos th = Some (hit, th1)
    /\ tsteps th1 <= Z.of_nat size * (len t + 1)
    /\ if hit then exists m p, P !! m = Some iMatch /\ reach m p
       else frontier pos th1 /\ no_match_at pos
            /\ forall pc, reach pc pos -> at_stamp th1 (stamp pos) pc.
Proof.
  intros Hpos Hlen F Ha. rewrite stamp_at_small by (done || lia). fold (stamp pos).
  destruct (frontier_add pos 0 th F) as (hit & th1 & E & Hb & H);
    [apply (compiled_size _ _ Hre)|by exists pos|].
  exists hit, th1. split; [done|]. split; [unfold steps_bound, len in *; nia|]. destruct hit.
  { destruct H as (m & Hm & Hr). by exists m, pos. }
  destruct H as (F1 & H0 & Hg).
  assert (Ha1 : arrived pos th1) by (intros pc p pc' Hp Hr Hs; by eapply Hg, Ha).
  pose proof (frontier_full pos th1 F1 Ha1 H0) as Hfull. split; [done|]. split; [|done].
  intros m Hm Hr. by apply (fr_closed _ _ F1 m (Hfull m Hr)).
Qed.

Lemma Search_loop_spec rest : forall pos th,
  drop pos t = rest -> (pos <= length t)%nat -> len t + 2 < 2 ^ 32 ->
  frontier pos th -> arrived pos th ->
  exists b steps, Search_loop re t pos rest th = Some (b, steps)
    /\ steps <= Z.of_nat size * (len t + 1)
    /\ if b then exists m p, P !! m = Some iMatch /\ reach m p
       else forall p, (pos <= p <= length t)%nat -> no_match_at p.
Proof.
  induction rest as [|c rest IH]; intros pos th Hdrop Hpos Hlen F Ha; cbn [Search_loop];
    destruct (frontier_start pos th Hpos Hlen F Ha) as (hit & th1 & -> & Hb & H); simpl;
    (destruct hit; [by exists true, (tsteps th1)|]); destruct H as (F1 & Hnone & Hfull).
  - exists false, (tsteps th1). split; [done|]. split; [done|]. intros p Hp.
    assert (length t <= pos)%nat by (apply (f_equal length) in Hdrop; rewrite length_drop in Hdrop;
      simpl in Hdrop; lia).
    by assert (p = pos) as -> by lia.
  - assert (Hc : t !! pos = Some c).
    { replace pos with (pos + 0)%nat by lia. by rewrite <- lookup_drop, Hdrop. }
    pose proof (lookup_lt_Some _ _ _ Hc) as Hlt.
    destruct (advance_frontier pos c (tlist th1) (mkThreads [] (tseen th1) (tsteps th1)))
      as (hit & th2 & -> & Hb2 & H2); [done| |by apply frontier_next| |].
    { rewrite stamp_at_small by (done || lia). unfold stamp. lia. }
    { apply Forall_forall. intros pc Hpc. apply (fr_list _ _ F1) in Hpc as [H1 H2].
      split; [done|]. by apply (fr_reach _ _ F1). }
    simpl. destruct hit.
    { exists true, (tsteps th2). split; [done|].
      split; [unfold steps_bound, len in *; nia|].
      destruct H2 as (m & Hm & Hr). by exists m, (S pos). }
    destruct H2 as (F2 & Hg2 & Hall).
    destruct (IH (S pos) th2) as (b & steps & -> & Hsteps & Hb3); [|lia|lia|done| |].
    + erewrite drop_S in Hdrop by done. by injection Hdrop.
    + intros pc p pc' [= ->] Hr Hs. destruct (consuming_step _ _ _ Hs) as [Hcons ->].
      apply Hall; [|done]. apply (fr_list _ _ F1). auto.
    + exists b, steps. split; [done|]. split; [done|]. destruct b; [done|].
      intros p Hp. destruct (decide (p = pos)) as [->|]; [done|]. apply Hb3. lia.
Qed.

(** Only the last instruction matches, and threads stay within the text. *)
Lemma match_is_last m : P !! m = Some iMatch -> m = (Here re - 1)%nat.
Proof.
  intros Hm. pose proof (lookup_lt_Some _ _ _ Hm) as Hl.
  destruct (inst_at m Hl) as (i & Hi & [[_ ->]|[Hin _]]); [done|]. simplify_eq. done.
Qed.

Lemma reach_in_text pc p : reach pc p -> (p <= length t)%nat.
Proof.
  intros (i & Hi & Hr).
  enough (forall y, rtc step (O, i) y -> (snd y <= length t)%nat) as He by by apply (He (pc, p)).
  apply (rtc_ind_r (fun y => (snd y <= length t)%nat) (O, i)); [done|]. intros [pc0 i0] [pc1 i1] _ Hs IH. simpl in *.
  inversion Hs; subst; try done;
    match goal with H : t !! _ = Some _ |- _ => apply lookup_lt_Some in H; lia end.
Qed.

Lemma reach_found p : reach (Here re - 1) p -> found t n.
Proof.
  intros (i & Hi & Hr). apply (code_found t P C n (Here re - 1)); [apply Hre|apply Hre|].
  by exists i, p.
Qed.

Lemma Search_spec :
  len t + 2 < 2 ^ 32 ->
  exists b steps, Search_steps re t = Some (b, steps)
    /\ steps <= Z.of_nat size * (len t + 1) /\ (b = true <-> found t n).
Proof.
  intros Hlen. pose proof (compiled_size _ _ Hre) as [Hsz _]. unfold Here in Hsz.
  unfold Search_steps. destruct P as [|i0 P0] eqn:EP; [simpl in Hsz; lia|]. rewrite <- EP.
  set (th0 := mkThreads [] (repeat 0 (length P)) 0).
  assert (Hno : forall pc s, at_stamp th0 s pc -> s = 0).
  { intros pc s Hs. unfold at_stamp in Hs. simpl in Hs.
    apply list_elem_of_lookup_2, list_elem_of_In, repeat_spec in Hs. done. }
  destruct (Search_loop_spec t 0 th0) as (b & steps & Hs & Hb & H); [done|lia|done| | |].
  - split.
    + simpl. by rewrite repeat_length.
    + intros pc s Hs. apply Hno in Hs as ->. unfold stamp. lia.
    + intros pc Hpc. by apply Hno in Hpc.
    + intros pc Hpc. by apply Hno in Hpc.
    + intros pc. split; [intros Hpc; by apply elem_of_nil in Hpc|].
      intros [_ Hpc]. by apply Hno in Hpc.
    + simpl. lia.
  - intros pc p pc' Hp. done.
  - exists b, steps. split; [done|]. split; [done|]. destruct b.
    + split; [|done]. intros _. destruct H as (m & p & Hm & Hr).
      apply match_is_last in Hm as ->. by eapply reach_found.
    + split; [done|]. intros Hf.
      apply (code_found t P C n (Here re - 1)) in Hf as (i & p & Hi & Hr); [|apply Hre|apply Hre].
      assert (Hreach : reach (Here re - 1) p) by by exists i.
      pose proof (reach_in_text _ _ Hreach). exfalso.
      apply (H p ltac:(lia) (Here re - 1)%nat); [apply Hre|done].
Qed.

End search.

(** ** Literal patterns *)

(** A byte with no meaning of its own in a pattern. *)
Definition plain (b : Byte.byte) : bool :=
  match b with
  | "^"%byte | "$"%byte | "."%byte | "("%byte | ")"%byte | "["%byte | "\"%byte
  | "*"%byte | "+"%byte | "?"%byte | "{"%byte | "|"%byte => false
  | _ => true
  end.

Lemma plain_atom f depth c s : plain c = true -> ParseAtom (S f) depth c s = success (kByte c) s.
Proof. by destruct c. Qed.

Lemma plain_quantifier atom s :
  forallb plain s = true -> apply_quantifier atom s = success atom s.
Proof. destruct s as [|c s]; [done|]. simpl. by destruct c. Qed.

Lemma plain_not_end c : plain c = true -> byte_eqb c "|"%byte || byte_eqb c ")"%byte = false.
Proof. by destruct c. Qed.

Lemma ParseConcat_plain depth p : forall f acc,
  forallb plain p = true -> (2 * length p + 1 <= f)%nat ->
  ParseConcat f depth acc p = success (concat_node (acc ++ map kByte p)) [].
Proof.
  induction p as [|c p IH]; intros [|f] acc Hp Hf; simpl in *; try lia.
  { by rewrite app_nil_r. }
  zbool. rewrite plain_not_end by done. destruct f as [|f]; [lia|].
  rewrite plain_atom by done. cbn [pbind success]. rewrite plain_quantifier by done.
  cbn [pbind success]. rewrite IH by (done || lia). by rewrite <- app_assoc.
Qed.

Lemma Parse_plain p : forallb plain p = true -> Parse p = Some (Ok (concat_node (map kByte p))).
Proof.
  intros Hp. unfold Parse. unfold parse_fuel.
  replace (4 * length p + 4)%nat with (S (4 * length p + 3))%nat by lia. cbn [ParseAlternation].
  rewrite ParseConcat_plain by (done || lia). done.
Qed.

Lemma Emit_plain p : forall re,
  len (program re) + len p <= kMaxProgramSize ->
  exists re', emit_all Emit (map kByte p) re = Ok re' /\ Here re' = (Here re + length p)%nat.
Proof.
  induction p as [|c p IH]; intros re Hl; simpl.
  { exists re. split; [done|]. lia. }
  rewrite len_cons in Hl. pose proof (len_nonneg p).
  assert (E : Add (iByte c) re = Ok (mkRegex (program re ++ [iByte c]) (classes re))).
  { unfold Add. destruct (Z.geb_spec (len (program re)) kMaxProgramSize); [lia|done]. }
  rewrite E. simpl. destruct (IH (mkRegex (program re ++ [iByte c]) (classes re))) as (re' & H1 & H2).
  { simpl. rewrite len_app. change (len [iByte c]) with 1. lia. }
  exists re'. split; [done|]. rewrite H2. unfold Here. simpl. rewrite length_app. simpl. lia.
Qed.

Lemma Emit_concat_node l re : Emit (concat_node l) re = emit_all Emit l re.
Proof.
  destruct l as [|m [|m2 l]]; try done. simpl. by destruct (Emit m re).
Qed.

Lemma matches_concat_node t l i j : matches t (concat_node l) i j <-> matches_seq (matches t) l i j.
Proof. destruct l as [|m [|m2 l]]; simpl; try done. naive_solver. Qed.

Lemma matches_plain t p i j :
  (i <= length t)%nat ->
  matches_seq (matches t) (map kByte p) i j
  <-> (exists a c, t = a ++ p ++ c /\ length a = i) /\ j = (i + length p)%nat.
Proof.
  revert i. induction p as [|x p IH]; intros i Hi; simpl.
  - split.
    + intros <-. split; [|lia]. exists (take i t), (drop i t).
      by rewrite take_drop, length_take, Nat.min_l.
    + intros [_ ->]. lia.
  - split.
    + intros (m & [Hx ->] & Hm). pose proof (lookup_lt_Some _ _ _ Hx).
      apply IH in Hm as [(a & c & Ht & Ha) ->]; [|lia]. split; [|lia].
      exists (take i t), c. rewrite length_take, Nat.min_l by lia. split; [|done].
      rewrite <- (take_drop i t) at 1. f_equal. rewrite (drop_S _ x) by done. f_equal.
      rewrite <- Ha, Ht. by rewrite drop_app_length.
    + intros [(a & c & -> & <-) ->]. exists (S (length a)).
      rewrite lookup_app_r, Nat.sub_diag by done. split; [done|].
      apply IH; [rewrite !length_app; simpl; lia|]. split; [|lia].
      exists (a ++ [x]), c. rewrite <- app_assoc, length_app. simpl. split; [done|lia].
Qed.

Lemma found_plain t p :
  found t (concat_node (map kByte p)) <-> exists a c, t = a ++ p ++ c.
Proof.
  unfold found. split.
  - intros (i & j & Hi & H). apply matches_concat_node, matches_plain in H as [(a & c & H & _) _]; eauto.
  - intros (a & c & ->). exists (length a), (length a + length p)%nat.
    rewrite length_app. split; [lia|]. apply matches_concat_node, matches_plain.
    { rewrite length_app. lia. }
    split; [|done]. by exists a, c.
Qed.

(** ** Claims *)

Lemma Compile_total_aux p : exists r, Compile p = Some r.
Proof. unfold Compile. pose proof (Parse_ok p). destruct (Parse p); [eauto|done]. Qed.

(** C4: [Regex::Search] decides the pattern: for every pattern that compiles and
    every text below 4 GiB it returns, without an out-of-range access, true
    exactly when the parsed pattern matches some span of the text. *)
Theorem Search_correct p re t :
  Compile p = Some (Ok re) -> len t + 2 < 2 ^ 32 ->
  exists n b, Parse p = Some (Ok n) /\ Search re t = Some b /\ (b = true <-> found t n).
Proof.
  intros Hc Hl. destruct (Compile_compiled p re Hc) as (n & Hn & Hre).
  destruct (Search_spec n re Hre t Hl) as (b & steps & Hs & _ & Hb).
  exists n, b. unfold Search. by rewrite Hs.
Qed.

Lemma Search_correct_witness :
  exists n b, Parse (lit "^(a|b)*\d{2,3}$") = Some (Ok n)
    /\ Search (mkRegex
         [iAssert kInputStart; iSplit 7; iSplit 5; iByte "a"; iJmp 6; iByte "b"; iJmp 1; iClass 0;
          iClass 0; iSplit 11; iClass 0; iAssert kInputEnd; iMatch] [DigitClass])
         (lit "abba42") = Some b
    /\ (b = true <-> found (lit "abba42") n).
Proof. apply (Search_correct (lit "^(a|b)*\d{2,3}$")); by vm_compute. Defined.

(** C6: matching is linear: [Search] processes at most [ProgramSize()]
    instructions per position of the text, whatever the pattern and the text,
    and the program never exceeds its cap of 65536 instructions. *)
Theorem Search_linear p re t :
  Compile p = Some (Ok re) -> len t + 2 < 2 ^ 32 ->
  exists b steps, Search_steps re t = Some (b, steps)
    /\ steps <= Z.of_nat (ProgramSize re) * (len t + 1)
    /\ Z.of_nat (ProgramSize re) <= kMaxProgramSize.
Proof.
  intros Hc Hl. destruct (Compile_compiled p re Hc) as (n & Hn & Hre).
  destruct (Search_spec n re Hre t Hl) as (b & steps & Hs & Hb & _).
  exists b, steps. split; [done|]. split; [done|]. apply (compiled_size _ _ Hre).
Qed.

Lemma Search_linear_witness :
  exists b steps, Search_steps (mkRegex
      [iAssert kInputStart; iClass 0; iSplit 5; iClass 0; iJmp 2;
       iSplit 11; iClass 0; iSplit 10; iClass 0; iJmp 7; iJmp 5; iAssert kInputEnd; iMatch]
      [DigitClass]) (lit "11111!") = Some (b, steps)
    /\ steps <= Z.of_nat 13 * (len (lit "11111!") + 1) /\ Z.of_nat 13 <= kMaxProgramSize.
Proof. apply (Search_linear (lit "^([0-9]+)+$")); by vm_compute. Defined.

(** C40: [Regex::Compile] always returns, and a program it returns keeps the VM
    in bounds: it is not empty, its last instruction is the only [kMatch], and
    every other instruction's targets, successor and class index exist. *)
Theorem Compile_well_formed p :
  exists r, Compile p = Some r /\
  match r with
  | Err _ => True
  | Ok re => (0 < ProgramSize re)%nat /\ Z.of_nat (ProgramSize re) <= kMaxProgramSize
    /\ forall pc, (pc < ProgramSize re)%nat -> exists i, program re !! pc = Some i
       /\ match i with
          | iMatch => pc = (ProgramSize re - 1)%nat
          | iSplit a => (a < ProgramSize re)%nat /\ (S pc < ProgramSize re)%nat
          | iJmp a => (a < ProgramSize re)%nat
          | iClass k => is_Some (classes re !! k) /\ (S pc < ProgramSize re)%nat
          | iByte _ | iAssert _ => (S pc < ProgramSize re)%nat
          end
  end.
Proof.
  destruct (Compile_total_aux p) as [[re|e] Hr]; [|by exists (Err e)]. exists (Ok re).
  split; [done|]. destruct (Compile_compiled p re Hr) as (n & _ & Hre).
  pose proof (compiled_size _ _ Hre) as [H0 H1]. split; [done|]. split; [done|]. intros pc Hpc.
  destruct (inst_at n re Hre pc Hpc) as (i & Hi & H). exists i. split; [done|].
  unfold ProgramSize in *. destruct H as [[-> ->]|[Hin Hlt]]; [done|].
  destruct i; simpl in *; (split; done || lia) || lia || done.
Qed.

(** a pattern without metacharacters (up to the program cap) compiles, and
    is found exactly in the texts that contain it as a substring. *)
Theorem regex_search_literal p t :
  forallb plain p = true -> len p < kMaxProgramSize -> len t + 2 < 2 ^ 32 ->
  exists b, regex_search p t = Some (Ok b) /\ (b = true <-> exists a c, t = a ++ p ++ c).
Proof.
  intros Hp Hl Ht. unfold regex_search.
  destruct (Emit_plain p (mkRegex [] [])) as (re1 & E1 & L1); [simpl; unfold len at 1; simpl; lia|].
  assert (Hc : exists re, Compile p = Some (Ok re)).
  { unfold Compile. rewrite Parse_plain by done. cbn [mbind Outcome_bind].
    rewrite Emit_concat_node, E1. cbn [mbind Outcome_bind]. unfold Add.
    destruct (Z.geb_spec (len (program re1)) kMaxProgramSize) as [Hge|]; [|eauto].
    unfold Here, len in *. simpl in L1. lia. }
  destruct Hc as [re Hc]. rewrite Hc. destruct (Compile_compiled p re Hc) as (n & Hn & Hre).
  rewrite Parse_plain in Hn by done. injection Hn as <-.
  destruct (Search_spec _ re Hre t Ht) as (b & steps & Hs & _ & Hb). exists b.
  unfold Search. rewrite Hs. split; [done|]. by rewrite Hb, found_plain.
Qed.

Lemma regex_search_literal_witness :
  exists b, regex_search (lit "ab-") (lit "xxab-y") = Some (Ok b)
    /\ (b = true <-> exists a c, lit "xxab-y" = a ++ lit "ab-" ++ c).
Proof. apply regex_search_literal; by vm_compute. Defined.
