(* ===== verification/Uri.v ===== *)
(** http/uri.cc: percent-encoding, the query-string builder, the request-target
    parser the server routes on and the endpoint parser of the clients.  The
    main theorem says that what a client builds the server takes apart. *)
From Stdlib Require Import ZArith Lia Strings.Byte.
From S2P Require Import Prelude Bytes.

Local Open Scope Z_scope.

(** ** Percent encoding *)

Definition kHex : bytes := Eval vm_compute in lit "0123456789ABCDEF".
Definition hex_char (d : Z) : Byte.byte := nth (Z.to_nat d) kHex "0"%byte.

Definition in_range (lo hi : Z) (c : Byte.byte) : bool := (lo <=? b2z c) && (b2z c <=? hi).

Definition IsUnreserved (c : Byte.byte) : bool :=
  in_range 65 90 c || in_range 97 122 c || in_range 48 57 c || byte_eqb c "-"%byte
  || byte_eqb c "_"%byte || byte_eqb c "."%byte || byte_eqb c "~"%byte.

Fixpoint Encode (text : bytes) (keep_slash : bool) : bytes :=
  match text with
  | [] => []
  | c :: text' =>
    if IsUnreserved c || (keep_slash && byte_eqb c "/"%byte) then c :: Encode text' keep_slash
    else "%"%byte :: hex_char (Z.shiftr (b2z c) 4) :: hex_char (Z.land (b2z c) 15)
         :: Encode text' keep_slash
  end.

Definition HexValue (c : Byte.byte) : Z :=
  if in_range 48 57 c then b2z c - 48
  else if in_range 65 70 c then b2z c - 65 + 10
  else if in_range 97 102 c then b2z c - 97 + 10
  else -1.

Definition EncodePathSegment (text : bytes) : bytes := Encode text false.
Definition EncodeGreedyPathSegment (text : bytes) : bytes := Encode text true.
Definition EncodeQueryComponent (text : bytes) : bytes := Encode text false.

Definition bad_escape : Error := Error_Serialization (lit "uri: malformed percent escape").

Fixpoint PercentDecode (text : bytes) : Outcome bytes :=
  match text with
  | [] => Ok []
  | c :: rest =>
    if negb (byte_eqb c "%"%byte) then out ← PercentDecode rest; Ok (c :: out)
    else
      match rest with
      | h :: l :: rest' =>
        if (HexValue h <? 0) || (HexValue l <? 0) then Err bad_escape
        else out ← PercentDecode rest';
             Ok (z2b (Z.lor (Z.shiftl (HexValue h) 4) (HexValue l)) :: out)
      | _ => Err bad_escape
      end
  end.

(** ** Query strings *)

Record Param := mkParam { p_key : bytes; p_value : bytes; p_flag : bool }.
Definition QueryString := list Param.

Definition Add (key value : bytes) (q : QueryString) : QueryString :=
  q ++ [mkParam (EncodeQueryComponent key) (EncodeQueryComponent value) false].
Definition AddFlag (key : bytes) (q : QueryString) : QueryString :=
  q ++ [mkParam (EncodeQueryComponent key) [] true].
Definition Has (key : bytes) (q : QueryString) : bool :=
  existsb (fun p => bytes_eqb (p_key p) (EncodeQueryComponent key)) q.

(** One parameter of the [ToString] loop. *)
Definition param_text (p : Param) : bytes :=
  if p_flag p then p_key p else p_key p ++ "="%byte :: p_value p.

Definition ToString (q : QueryString) : bytes :=
  match q with
  | [] => []
  | _ => "?"%byte :: join "&"%byte (map param_text q)
  end.

(** ** Request targets *)

Record RequestTarget := mkTarget {
  path_segments : list bytes;
  query_params : list (bytes * bytes)
}.

(** One turn of the query loop: an empty pair is skipped. *)
Definition query_pair (pair : bytes) : Outcome (option (bytes * bytes)) :=
  match pair with
  | [] => Ok None
  | _ =>
    let '(raw_key, rest) := cut "="%byte pair in
    let raw_value := match rest with Some v => v | None => [] end in
    key ← PercentDecode raw_key;
    value ← PercentDecode raw_value;
    Ok (Some (key, value))
  end.

Definition ParseRequestTarget (target : bytes) : Outcome RequestTarget :=
  let '(path, rest) := cut "?"%byte target in
  let query := match rest with Some q => q | None => [] end in
  match path with
  | "/"%byte :: path =>
    segments ← mapM PercentDecode (pieces true "/"%byte path);
    pairs ← mapM query_pair (pieces false "&"%byte query);
    Ok (mkTarget segments (omap id pairs))
  | _ => Err (Error_Serialization (lit "uri: request target must start with '/'"))
  end.

(** ** Endpoints *)

Record Endpoint := mkEndpoint {
  scheme : bytes;
  host : bytes;
  port : Z;
  path_prefix : bytes
}.

Definition tls (e : Endpoint) : bool := bytes_eqb (scheme e) (lit "https").

Definition invalid_port : Error := Error_Validation (lit "endpoint: invalid port").

Fixpoint port_loop (digits : bytes) (port : Z) : Outcome Z :=
  match digits with
  | [] => Ok port
  | c :: digits' =>
    if negb (is_digit c) then Err invalid_port
    else
      let port := port * 10 + digit_value c in
      if port >? 65535 then Err invalid_port else port_loop digits' port
  end.

(** The part after the scheme. *)
Definition parse_authority (scheme : bytes) (default_port : Z) (rest : bytes) : Outcome Endpoint :=
  let path_start := find_byte "/"%byte rest in
  let authority := match path_start with Some i => take i rest | None => rest end in
  let prefix := match path_start with
                | Some i => rdrop_while (is_byte "/"%byte) (drop i rest)
                | None => []
                end in
  '(authority, port) ←
    match rfind_byte ":"%byte authority with
    | Some colon =>
      port ← port_loop (drop (S colon) authority) 0;
      if port =? 0 then Err invalid_port else Ok (take colon authority, port)
    | None => Ok (authority, default_port)
    end;
  match authority with
  | [] => Err (Error_Validation (lit "endpoint: missing host"))
  | _ => Ok (mkEndpoint scheme authority port prefix)
  end.

Definition ParseEndpoint (url : bytes) : Outcome Endpoint :=
  if starts_with (lit "http://") url then parse_authority (lit "http") 80 (drop 7 url)
  else if starts_with (lit "https://") url then parse_authority (lit "https") 443 (drop 8 url)
  else Err (Error_Validation (lit "endpoint: expected an http:// or https:// URL (got: "
                              ++ url ++ lit ")")).

Example parse_target_example :
  ParseRequestTarget (lit "/cities/a%20b/?page=2&&x&size=%31") =
  Ok (mkTarget [lit "cities"; lit "a b"; []]
        [(lit "page", lit "2"); (lit "x", []); (lit "size", lit "1")]).
Proof. by vm_compute. Qed.

Example parse_endpoint_example :
  ParseEndpoint (lit "https://h.example:8443/base//") =
  Ok (mkEndpoint (lit "https") (lit "h.example") 8443 (lit "/base")).
Proof. by vm_compute. Qed.

(** ** Percent encoding: safe alphabet and round trip *)

(** The bytes an encoded component can hold. *)
Definition component_byte (keep_slash : bool) (c : Byte.byte) : bool :=
  IsUnreserved c || byte_eqb c "%"%byte || (keep_slash && byte_eqb c "/"%byte).

Lemma hex_char_unreserved d : 0 <= d < 16 -> IsUnreserved (hex_char d) = true.
Proof.
  intros H. assert (Hd : forall n, (n < 16)%nat -> IsUnreserved (nth n kHex "0"%byte) = true).
  { intros n Hn. do 16 (destruct n as [|n]; [by vm_compute|]). lia. }
  apply Hd. lia.
Qed.

Lemma nibbles c : 0 <= Z.shiftr (b2z c) 4 < 16 /\ 0 <= Z.land (b2z c) 15 < 16.
Proof.
  pose proof (b2z_range c). rewrite Z.shiftr_div_pow2 by lia.
  change 15 with (Z.ones 4). rewrite Z.land_ones by lia. simpl. lia.
Qed.

Lemma Encode_alphabet text keep :
  Forall (fun c => component_byte keep c = true) (Encode text keep).
Proof.
  unfold component_byte. induction text as [|c text IH]; simpl; [constructor|].
  destruct (nibbles c) as [H1 H2].
  destruct (IsUnreserved c || _) eqn:E; repeat constructor; try done.
  - destruct (IsUnreserved c); [done|]. simpl in E. rewrite E. by rewrite orb_true_r.
  - by rewrite hex_char_unreserved.
  - by rewrite hex_char_unreserved.
Qed.

Lemma Encode_avoids text keep c :
  component_byte keep c = false -> c ∉ Encode text keep.
Proof.
  intros Hc Hin. pose proof (Encode_alphabet text keep) as H. rewrite Forall_forall in H.
  specialize (H c Hin). simpl in H. congruence.
Qed.

Lemma hex_roundtrip c :
  HexValue (hex_char (Z.shiftr (b2z c) 4)) = Z.shiftr (b2z c) 4
  /\ HexValue (hex_char (Z.land (b2z c) 15)) = Z.land (b2z c) 15.
Proof.
  assert (Hd : forall n, (n < 16)%nat -> HexValue (nth n kHex "0"%byte) = Z.of_nat n).
  { intros n Hn. do 16 (destruct n as [|n]; [by vm_compute|]). lia. }
  destruct (nibbles c) as [H1 H2]. unfold hex_char. rewrite !Hd by lia. lia.
Qed.

Lemma nibbles_join c :
  z2b (Z.lor (Z.shiftl (Z.shiftr (b2z c) 4) 4) (Z.land (b2z c) 15)) = c.
Proof.
  rewrite <- (z2b_b2z c) at 3. f_equal. destruct (nibbles c) as [_ H2].
  rewrite lor_shiftl by lia. rewrite Z.shiftr_div_pow2 by lia.
  change 15 with (Z.ones 4). rewrite Z.land_ones by lia. simpl. lia.
Qed.

Lemma unreserved_not_percent c keep :
  IsUnreserved c || (keep && byte_eqb c "/"%byte) = true -> byte_eqb c "%"%byte = false.
Proof. destruct (byte_eqb_spec c "%"%byte) as [->|]; [|done]. by destruct keep. Qed.

Lemma PercentDecode_Encode_app text keep rest :
  PercentDecode (Encode text keep ++ rest) = (app text) <$> PercentDecode rest.
Proof.
  induction text as [|c text IH]; [simpl; by destruct (PercentDecode rest)|]. cbn [Encode].
  destruct (IsUnreserved c || _) eqn:E.
  - cbn [app PercentDecode]. rewrite (unreserved_not_percent c keep E), IH. simpl.
    by destruct (PercentDecode rest).
  - cbn [app PercentDecode]. rewrite byte_eqb_refl. cbn [negb].
    destruct (hex_roundtrip c) as [-> ->]. destruct (nibbles c) as [H1 H2].
    destruct (Z.ltb_spec (Z.shiftr (b2z c) 4) 0); [lia|].
    destruct (Z.ltb_spec (Z.land (b2z c) 15) 0); [lia|]. simpl orb. cbv iota.
    rewrite nibbles_join, IH. by destruct (PercentDecode rest).
Qed.

Lemma PercentDecode_Encode text keep : PercentDecode (Encode text keep) = Ok text.
Proof.
  rewrite <- (app_nil_r (Encode text keep)), PercentDecode_Encode_app. simpl.
  by rewrite app_nil_r.
Qed.

#[global] Instance percent_codec keep :
  Codec (fun t => Ok (Encode t keep)) PercentDecode (fun _ => True).
Proof. intros t e _ E. apply Ok_inj in E as <-. apply PercentDecode_Encode. Qed.

(** ** What a client builds *)

(** The calls a client makes on a [QueryString]: [Add] or, without a value,
    [AddFlag]. *)
Definition add_arg (q : QueryString) (arg : bytes * option bytes) : QueryString :=
  match snd arg with Some v => Add (fst arg) v q | None => AddFlag (fst arg) q end.
Definition build_query (args : list (bytes * option bytes)) : QueryString :=
  fold_left add_arg args [].

Definition arg_param (arg : bytes * option bytes) : Param :=
  match snd arg with
  | Some v => mkParam (EncodeQueryComponent (fst arg)) (EncodeQueryComponent v) false
  | None => mkParam (EncodeQueryComponent (fst arg)) [] true
  end.

Lemma build_query_map args : build_query args = map arg_param args.
Proof.
  assert (H : forall q, fold_left add_arg args q = q ++ map arg_param args).
  { induction args as [|[k [v|]] args IH]; intros q; simpl; [by rewrite app_nil_r| |];
      rewrite IH; unfold add_arg, Add, AddFlag; simpl; by rewrite <- app_assoc. }
  apply H.
Qed.

Lemma Encode_nil_inv text keep : Encode text keep = [] -> text = [].
Proof. destruct text as [|c text]; [done|]. simpl. by destruct (_ || _). Qed.

Lemma Encode_inj keep a b : Encode a keep = Encode b keep -> a = b.
Proof.
  intros E. apply Ok_inj. by rewrite <- (PercentDecode_Encode a keep), E, PercentDecode_Encode.
Qed.

Lemma component_avoids c : component_byte false c = false -> forall t, c ∉ Encode t false.
Proof. intros H t. by apply Encode_avoids. Qed.

Lemma param_text_ok arg :
  (snd arg = None -> fst arg <> []) ->
  "&"%byte ∉ param_text (arg_param arg) /\ param_text (arg_param arg) <> []
  /\ query_pair (param_text (arg_param arg)) = Ok (Some (fst arg, default [] (snd arg))).
Proof.
  destruct arg as [k [v|]]; simpl; intros Hk; unfold param_text, arg_param; simpl;
    unfold EncodeQueryComponent.
  - split; [|split].
    + intros [H|H]%elem_of_app; [by apply component_avoids in H|].
      apply elem_of_cons in H as [H|H]; [done|by apply component_avoids in H].
    + by intros [_ H]%app_eq_nil.
    + unfold query_pair.
      destruct (Encode k false ++ "="%byte :: Encode v false) eqn:E;
        [by apply app_eq_nil in E as [_ ?]|]. rewrite <- E, cut_app by by apply component_avoids. cbv iota zeta.
      rewrite PercentDecode_Encode. cbn [mbind Outcome_bind]. by rewrite PercentDecode_Encode.
  - assert (Hne : Encode k false <> []) by (intros H; apply Encode_nil_inv in H; naive_solver).
    split; [by apply component_avoids|]. split; [done|]. unfold query_pair.
    destruct (Encode k false) eqn:E; [done|]. rewrite <- E, cut_none by by apply component_avoids.
    by rewrite PercentDecode_Encode.
Qed.

Definition target_text (segments : list bytes) (q : QueryString) : bytes :=
  "/"%byte :: join "/"%byte (map EncodePathSegment segments) ++ ToString q.

Lemma join_avoids c sep l :
  c <> sep -> Forall (fun s => c ∉ s) l -> c ∉ join sep l.
Proof.
  intros Hc. induction 1 as [|s l Hs Hl IH]; [set_solver|].
  destruct l as [|s2 l]; [done|]. rewrite join_cons by done.
  intros [H|H]%elem_of_app; [done|]. apply elem_of_cons in H as [H|H]; [done|by apply IH].
Qed.

Lemma parse_query_args args :
  Forall (fun arg => snd arg = None -> fst arg <> []) args ->
  mapM query_pair (pieces false "&"%byte (join "&"%byte (map param_text (map arg_param args))))
  = Ok (map (fun arg => Some (fst arg, default [] (snd arg))) args).
Proof.
  intros H. rewrite Forall_forall in H. rewrite pieces_join_nonempty.
  - rewrite map_map. apply mapM_Ok_map. intros arg Hin. apply param_text_ok. auto.
  - rewrite !Forall_map. apply Forall_forall. intros arg Hin. simpl.
    destruct (param_text_ok arg) as (H1 & H2 & _); auto.
Qed.

Lemma omap_some {A B} (f : A -> B) l : omap id (map (fun x => Some (f x)) l) = map f l.
Proof. induction l as [|x l IH]; [done|]. simpl. by f_equal. Qed.

Lemma parse_target segments args :
  segments <> [[]] -> Forall (fun arg => snd arg = None -> fst arg <> []) args ->
  ParseRequestTarget (target_text segments (build_query args))
  = Ok (mkTarget segments (map (fun arg => (fst arg, default [] (snd arg))) args)).
Proof.
  intros Hs Ha. unfold ParseRequestTarget, target_text. rewrite build_query_map.
  set (path := join "/"%byte (map EncodePathSegment segments)).
  assert (Hq : "?"%byte ∉ "/"%byte :: path).
  { intros [H|H]%elem_of_cons; [done|]. revert H. apply join_avoids; [done|].
    apply Forall_map, Forall_forall. intros s _. by apply component_avoids. }
  assert (Hcut : cut "?"%byte ("/"%byte :: path ++ ToString (map arg_param args))
    = ("/"%byte :: path, match args with [] => None
        | _ => Some (join "&"%byte (map param_text (map arg_param args))) end)).
  { destruct args as [|arg args]; [simpl; rewrite app_nil_r; by apply cut_none|].
    rewrite app_comm_cons. by apply cut_app. }
  rewrite Hcut. unfold path. rewrite pieces_join.
  - rewrite (mapM_Ok_map PercentDecode EncodePathSegment id)
      by (intros s _; apply PercentDecode_Encode).
    rewrite map_id. cbn [mbind Outcome_bind].
    replace (match match args with [] => None
                   | _ => Some (join "&"%byte (map param_text (map arg_param args))) end
             with Some q => q | None => [] end)
      with (join "&"%byte (map param_text (map arg_param args))) by by destruct args.
    rewrite parse_query_args by done. cbn [mbind Outcome_bind]. by rewrite omap_some.
  - apply Forall_map, Forall_forall. intros s _. by apply component_avoids.
  - intros H. destruct segments as [|s [|s2 l]]; try done. injection H as H.
    apply Encode_nil_inv in H as ->. done.
Qed.

Lemma Has_iff key args :
  Has key (build_query args) = true <-> exists arg, arg ∈ args /\ fst arg = key.
Proof.
  rewrite build_query_map. unfold Has. rewrite existsb_exists. split.
  - intros (p & Hp & E). apply in_map_iff in Hp as (arg & <- & Hin). exists arg.
    split; [by apply list_elem_of_In|]. apply bytes_eqb_eq in E.
    apply (Encode_inj false). by destruct arg as [k [v|]].
  - intros (arg & Hin & <-). exists (arg_param arg). split.
    + apply in_map. by apply list_elem_of_In.
    + apply bytes_eqb_eq. by destruct arg as [k [v|]].
Qed.

(** ** Endpoints *)

Lemma port_loop_Ok digits p q :
  0 <= p <= 65535 -> port_loop digits p = Ok q -> 0 <= q <= 65535.
Proof.
  revert p. induction digits as [|c digits IH]; intros p Hp; simpl.
  - intros [= <-]. done.
  - destruct (is_digit c) eqn:E; [|done]. apply is_digit_range in E. simpl.
    destruct (Z.gtb_spec (p * 10 + digit_value c) 65535); [done|]. apply IH. lia.
Qed.

Lemma fold_digits_ge digits p :
  Forall (fun c => is_digit c = true) digits -> 0 <= p ->
  p <= fold_left (fun v c => v * 10 + digit_value c) digits p.
Proof.
  intros H. revert p. induction H as [|c digits Hc _ IH]; intros p Hp; simpl; [lia|].
  apply is_digit_range in Hc. specialize (IH (p * 10 + digit_value c)). lia.
Qed.

Lemma port_loop_digits digits p :
  Forall (fun c => is_digit c = true) digits -> 0 <= p ->
  fold_left (fun v c => v * 10 + digit_value c) digits p <= 65535 ->
  port_loop digits p = Ok (fold_left (fun v c => v * 10 + digit_value c) digits p).
Proof.
  intros H. revert p. induction H as [|c digits Hc H IH]; intros p Hp Hle; simpl in *; [done|].
  rewrite Hc. simpl. apply is_digit_range in Hc.
  pose proof (fold_digits_ge digits (p * 10 + digit_value c) H ltac:(lia)).
  destruct (Z.gtb_spec (p * 10 + digit_value c) 65535); [lia|]. apply IH; [lia|done].
Qed.

Lemma rfind_byte_app c a b : c ∉ b -> rfind_byte c (a ++ c :: b) = Some (length a).
Proof.
  intros H. unfold rfind_byte. rewrite reverse_app, reverse_cons, <- app_assoc.
  cbn [app]. rewrite find_byte_app by by rewrite elem_of_reverse. simpl. f_equal.
  rewrite length_reverse, length_app. simpl. lia.
Qed.

Lemma digits_avoid c s : is_digit c = false -> Forall (fun c => is_digit c = true) s -> c ∉ s.
Proof. intros Hc H Hin. rewrite Forall_forall in H. apply H in Hin. congruence. Qed.

(** [path_prefix] as the code keeps it: empty, or from '/' to a byte other than '/'. *)
Definition prefix_ok (s : bytes) : Prop :=
  s = [] \/ (exists t, s = "/"%byte :: t) /\ ends_with_byte "/"%byte s = false.

Lemma rdrop_while_last p s b : last (rdrop_while p s) = Some b -> p b = false.
Proof. unfold rdrop_while. rewrite last_reverse. apply drop_while_head. Qed.

Lemma rdrop_while_id p s : (forall b, last s = Some b -> p b = false) -> rdrop_while p s = s.
Proof.
  intros H. unfold rdrop_while. rewrite drop_while_id.
  - apply reverse_involutive.
  - intros b. rewrite head_reverse. apply H.
Qed.

Lemma rdrop_while_prefix p s : exists t, s = rdrop_while p s ++ t.
Proof.
  unfold rdrop_while. destruct (drop_while_suffix p (reverse s)) as (pre & E & _).
  exists (reverse pre). rewrite <- reverse_app, <- E. by rewrite reverse_involutive.
Qed.

Lemma rdrop_slashes_ok s :
  prefix_ok (rdrop_while (is_byte "/"%byte) ("/"%byte :: s)).
Proof.
  destruct (rdrop_while (is_byte "/"%byte) ("/"%byte :: s)) as [|c r] eqn:E; [by left|].
  right. destruct (rdrop_while_prefix (is_byte "/"%byte) ("/"%byte :: s)) as [t Ht].
  rewrite E in Ht. simpl in Ht. injection Ht as <- _. split; [by eexists|].
  unfold ends_with_byte. destruct (last _) as [b|] eqn:El; [|done].
  rewrite <- E in El. by apply rdrop_while_last in El.
Qed.

Lemma parse_authority_Ok sch dp rest e :
  1 <= dp <= 65535 -> parse_authority sch dp rest = Ok e ->
  scheme e = sch /\ 1 <= port e <= 65535 /\ host e <> [] /\ "/"%byte ∉ host e
  /\ prefix_ok (path_prefix e).
Proof.
  intros Hdp. unfold parse_authority.
  set (authority := match find_byte "/"%byte rest with Some i => take i rest | None => rest end).
  set (prefix := match find_byte "/"%byte rest with Some i => _ | None => [] end).
  assert (H : "/"%byte ∉ authority /\ prefix_ok prefix).
  { unfold authority, prefix. destruct (find_byte _ rest) as [i|] eqn:E.
    - apply find_byte_Some in E as (a & b & -> & <- & Ha).
      rewrite take_app_length, drop_app_length. split; [done|]. apply rdrop_slashes_ok.
    - split; [by apply find_byte_None|by left]. }
  destruct H as [Ha Hp]. intros H. apply bind_Ok in H as ([auth p] & Hauth & H).
  assert (Hauth' : "/"%byte ∉ auth /\ 1 <= p <= 65535).
  { destruct (rfind_byte ":"%byte authority) as [colon|]; [|by apply Ok_inj in Hauth as [= <- <-]].
    apply bind_Ok in Hauth as (q & Hq & Hz). destruct (Z.eqb_spec q 0); [done|].
    apply Ok_inj in Hz as [= <- <-]. apply port_loop_Ok in Hq; [|lia].
    split; [|lia]. intros Hin. apply Ha. by eapply elem_of_take in Hin as (? & ? & _);
      apply list_elem_of_lookup_2 in H0. }
  destruct auth as [|x auth]; [done|]. apply Ok_inj in H as <-. simpl.
  split; [done|]. split; [tauto|]. split; [done|]. tauto.
Qed.

(** The text of an endpoint. *)
Definition endpoint_text (e : Endpoint) : bytes :=
  scheme e ++ lit "://" ++ host e ++ ":"%byte :: to_string (port e) ++ path_prefix e.

Definition endpoint_ok (e : Endpoint) : Prop :=
  (scheme e = lit "http" \/ scheme e = lit "https") /\ 1 <= port e <= 65535
  /\ host e <> [] /\ "/"%byte ∉ host e /\ prefix_ok (path_prefix e).

Lemma parse_authority_text e dp :
  endpoint_ok e ->
  parse_authority (scheme e) dp (host e ++ ":"%byte :: to_string (port e) ++ path_prefix e) = Ok e.
Proof.
  intros (_ & Hport & Hne & Hhost & Hpre).
  destruct (to_string_spec (port e) ltac:(lia)) as [Hval Hdig].
  set (auth := host e ++ ":"%byte :: to_string (port e)).
  replace (host e ++ ":"%byte :: to_string (port e) ++ path_prefix e) with (auth ++ path_prefix e)
    by (unfold auth; by rewrite <- app_assoc).
  assert (Hauth : "/"%byte ∉ auth).
  { unfold auth. intros [H|H]%elem_of_app; [done|]. apply elem_of_cons in H as [H|H]; [done|].
    revert H. by apply digits_avoid. }
  unfold parse_authority.
  assert (Hcut : (match find_byte "/"%byte (auth ++ path_prefix e) with
                  | Some i => take i (auth ++ path_prefix e) | None => auth ++ path_prefix e end)
                 = auth
    /\ (match find_byte "/"%byte (auth ++ path_prefix e) with
        | Some i => rdrop_while (is_byte "/"%byte) (drop i (auth ++ path_prefix e))
        | None => [] end) = path_prefix e).
  { destruct Hpre as [->|[[t Ht] Hend]].
    - rewrite app_nil_r. apply find_byte_None in Hauth. by rewrite Hauth.
    - rewrite Ht, find_byte_app by done. rewrite take_app_length, drop_app_length.
      split; [done|]. rewrite <- Ht. apply rdrop_while_id. intros b Hb.
      unfold ends_with_byte in Hend. by rewrite Hb in Hend. }
  destruct Hcut as [-> ->]. unfold auth. rewrite rfind_byte_app by by apply digits_avoid.
  replace (S (length (host e))) with (length (host e) + 1)%nat by lia.
  rewrite <- drop_drop, drop_app_length, take_app_length. cbn [drop]. rewrite drop_0.
  unfold dec_value in Hval. rewrite port_loop_digits; [|done|lia|rewrite Hval; lia].
  rewrite Hval. cbn [mbind Outcome_bind].
  destruct (Z.eqb_spec (port e) 0); [lia|]. cbn [mbind Outcome_bind].
  destruct e as [sch [|x h] p pre]; done.
Qed.

Lemma ParseEndpoint_Ok url e : ParseEndpoint url = Ok e -> endpoint_ok e.
Proof.
  unfold ParseEndpoint. intros H. destruct (starts_with (lit "http://") url).
  { apply parse_authority_Ok in H as (H1 & H); [|lia]. split; [by left|done]. }
  destruct (starts_with (lit "https://") url); [|done].
  apply parse_authority_Ok in H as (H1 & H); [|lia]. split; [by right|done].
Qed.

Lemma ParseEndpoint_text e : endpoint_ok e -> ParseEndpoint (endpoint_text e) = Ok e.
Proof.
  unfold ParseEndpoint, endpoint_text. intros He. pose proof (parse_authority_text e) as Hp.
  destruct (proj1 He) as [Hs|Hs]; rewrite Hs in *.
  - change (starts_with (lit "http://") _) with true. by apply Hp.
  - change (starts_with (lit "http://") _) with false.
    change (starts_with (lit "https://") _) with true. by apply Hp.
Qed.

(** ** Claims *)

(** C8: a server takes apart what a client put together: for every list of
    path segments (but the single empty one, which a bare "/" cannot express)
    and every sequence of [Add] and [AddFlag] calls (flags with a key), parsing
    the target built from [EncodePathSegment] and [QueryString] gives back the
    raw segments and the raw keys and values in order. *)
Theorem ParseRequestTarget_roundtrip segments args :
  segments <> [[]] -> Forall (fun arg => snd arg = None -> fst arg <> []) args ->
  ParseRequestTarget (target_text segments (build_query args))
  = Ok (mkTarget segments (map (fun arg => (fst arg, default [] (snd arg))) args)).
Proof. apply parse_target. Qed.

Lemma ParseRequestTarget_roundtrip_witness :
  ParseRequestTarget
    (target_text [lit "cities"; lit "a/b %"; []]
       (build_query [(lit "q", Some (lit "x&y=?")); (lit "flag", None)]))
  = Ok (mkTarget [lit "cities"; lit "a/b %"; []] [(lit "q", lit "x&y=?"); (lit "flag", [])]).
Proof.
  apply (ParseRequestTarget_roundtrip [lit "cities"; lit "a/b %"; []]
           [(lit "q", Some (lit "x&y=?")); (lit "flag", None)]); [done|].
  repeat constructor; done.
Defined.

(** percent-encoding is lossless and safe: an encoded component decodes to
    its text and holds only unreserved bytes, '%' and, where kept, '/'. *)
Theorem Encode_lossless text keep :
  PercentDecode (Encode text keep) = Ok text
  /\ Forall (fun c => component_byte keep c = true) (Encode text keep).
Proof. split; [apply PercentDecode_Encode|apply Encode_alphabet]. Qed.

(** [QueryString::Has] answers on raw keys: it is true exactly for the keys
    that were added, whatever they encode to. *)
Theorem Has_added key args :
  Has key (build_query args) = true <-> exists arg, arg ∈ args /\ fst arg = key.
Proof. apply Has_iff. Qed.

(** [ParseEndpoint] returns only well-formed endpoints (a known scheme, a
    port from 1 to 65535, a host without '/', a prefix without trailing '/'),
    and parses the text of every well-formed endpoint back to it. *)
Theorem ParseEndpoint_correct :
  (forall url e, ParseEndpoint url = Ok e -> endpoint_ok e)
  /\ forall e, endpoint_ok e -> ParseEndpoint (endpoint_text e) = Ok e.
Proof. split; [apply ParseEndpoint_Ok|apply ParseEndpoint_text]. Qed.
