(* ===== verification/OrdMap.v ===== *)
(** [std::map<std::string, T>]: association lists in strictly increasing key
    order, with lookup, [insert_or_assign] and [try_emplace]. *)
From Stdlib Require Import ZArith Lia.
From S2P Require Import Prelude.

Local Open Scope Z_scope.

(** [std::string] comparison: unsigned bytes, lexicographic. *)
Fixpoint bcmp (a b : bytes) : comparison :=
  match a, b with
  | [], [] => Eq
  | [], _ :: _ => Lt
  | _ :: _, [] => Gt
  | x :: a', y :: b' =>
    match Z.compare (b2z x) (b2z y) with Eq => bcmp a' b' | c => c end
  end.

Lemma bcmp_refl a : bcmp a a = Eq.
Proof. induction a as [|x a IH]; simpl; [done|]. by rewrite Z.compare_refl. Qed.

Lemma bcmp_eq a b : bcmp a b = Eq <-> a = b.
Proof.
  split; [|intros ->; apply bcmp_refl]. revert b. induction a as [|x a IH]; intros [|y b]; simpl; try done.
  destruct (Z.compare_spec (b2z x) (b2z y)) as [E|E|E]; try done.
  intros H. apply b2z_inj in E as ->. f_equal. auto.
Qed.

Lemma bcmp_antisym a b : bcmp b a = CompOpp (bcmp a b).
Proof.
  revert b. induction a as [|x a IH]; intros [|y b]; simpl; try done.
  rewrite (Z.compare_antisym (b2z x) (b2z y)). destruct (Z.compare (b2z x) (b2z y)); simpl; auto.
Qed.

Lemma bcmp_trans a b c : bcmp a b = Lt -> bcmp b c = Lt -> bcmp a c = Lt.
Proof.
  revert b c. induction a as [|x a IH]; intros [|y b] [|z c]; simpl; try done.
  destruct (Z.compare_spec (b2z x) (b2z y)) as [E|E|E]; try done;
    destruct (Z.compare_spec (b2z y) (b2z z)) as [E'|E'|E']; try done;
    intros H1 H2; destruct (Z.compare_spec (b2z x) (b2z z)); try lia; try done; eauto.
Qed.

Lemma bcmp_gt a b : bcmp a b = Gt <-> bcmp b a = Lt.
Proof. rewrite (bcmp_antisym a b). by destruct (bcmp a b). Qed.

Section maps.
  Context {V : Type}.
  Notation smap := (list (bytes * V)).

Fixpoint sm_lookup (k : bytes) (m : smap) : option V :=
  match m with
  | [] => None
  | (k', v) :: m' => match bcmp k k' with Eq => Some v | _ => sm_lookup k m' end
  end.

(** [insert_or_assign]. *)
Fixpoint sm_insert (k : bytes) (v : V) (m : smap) : smap :=
  match m with
  | [] => [(k, v)]
  | (k', v') :: m' =>
    match bcmp k k' with
    | Lt => (k, v) :: m
    | Eq => (k, v) :: m'
    | Gt => (k', v') :: sm_insert k v m'
    end
  end.

(** [emplace], [try_emplace]: an existing value stays. *)
Definition sm_emplace (k : bytes) (v : V) (m : smap) : smap :=
  match sm_lookup k m with Some _ => m | None => sm_insert k v m end.

Fixpoint sm_erase (k : bytes) (m : smap) : smap :=
  match m with
  | [] => []
  | (k', v) :: m' => match bcmp k k' with Eq => m' | _ => (k', v) :: sm_erase k m' end
  end.

(** Strictly increasing keys. *)
Fixpoint sm_ok (m : smap) : Prop :=
  match m with
  | [] => True
  | (k, _) :: m' => Forall (fun e => bcmp k (fst e) = Lt) m' /\ sm_ok m'
  end.

Lemma sm_lookup_below k m :
  Forall (fun e => bcmp k (fst e) = Lt) m -> sm_lookup k m = None.
Proof.
  induction 1 as [|[k' v] m H _ IH]; simpl in *; [done|]. by rewrite H.
Qed.

Lemma sm_lookup_insert k k' v m :
  sm_ok m -> sm_lookup k (sm_insert k' v m) = if decide (k = k') then Some v else sm_lookup k m.
Proof.
  induction m as [|[k0 v0] m IH]; intros Hok; simpl.
  - destruct (decide (k = k')) as [->|Hne]; [by rewrite bcmp_refl|].
    destruct (bcmp k k') eqn:E; [|done..]. by apply bcmp_eq in E.
  - destruct Hok as [Hb Hok]. destruct (bcmp k' k0) eqn:E; simpl.
    + apply bcmp_eq in E as ->. destruct (decide (k = k0)) as [->|Hne]; [by rewrite bcmp_refl|].
      destruct (bcmp k k0) eqn:E; [|done..]. by apply bcmp_eq in E.
    + destruct (decide (k = k')) as [->|Hne]; [by rewrite bcmp_refl|].
      destruct (bcmp k k') eqn:E'; [by apply bcmp_eq in E'|done..].
    + rewrite IH by done. destruct (decide (k = k')) as [->|Hne]; [by rewrite E|done].
Qed.

Lemma sm_insert_keys k v m (P : bytes -> Prop) :
  P k -> Forall (fun e => P (fst e)) m -> Forall (fun e => P (fst e)) (sm_insert k v m).
Proof.
  intros Hk. induction 1 as [|[k0 v0] m H Hm IH]; simpl in *; [by repeat constructor|].
  destruct (bcmp k k0); repeat constructor; done.
Qed.

Lemma sm_insert_ok k v m : sm_ok m -> sm_ok (sm_insert k v m).
Proof.
  induction m as [|[k0 v0] m IH]; intros Hok; simpl; [done|].
  destruct Hok as [Hb Hok]. destruct (bcmp k k0) eqn:E; simpl.
  - apply bcmp_eq in E as ->. done.
  - split; [|done]. constructor; [done|]. eapply Forall_impl; [exact Hb|]. simpl. intros e He.
    by eapply bcmp_trans.
  - split; [|auto]. apply (sm_insert_keys k v m (fun x => bcmp k0 x = Lt)); [|done].
    by apply bcmp_gt.
Qed.

Lemma sm_emplace_ok k v m : sm_ok m -> sm_ok (sm_emplace k v m).
Proof. intros H. unfold sm_emplace. destruct (sm_lookup k m); [done|]. by apply sm_insert_ok. Qed.

Lemma sm_lookup_emplace k k' v m :
  sm_ok m -> sm_lookup k (sm_emplace k' v m)
  = if decide (k = k') then Some (default v (sm_lookup k m)) else sm_lookup k m.
Proof.
  intros Hok. unfold sm_emplace. destruct (sm_lookup k' m) eqn:E.
  - destruct (decide (k = k')) as [->|]; [by rewrite E|done].
  - rewrite sm_lookup_insert by done. destruct (decide (k = k')) as [->|]; [by rewrite E|done].
Qed.

Lemma sm_lookup_elem k v m : sm_ok m -> sm_lookup k m = Some v <-> (k, v) ∈ m.
Proof.
  induction m as [|[k0 v0] m IH]; intros Hok; simpl.
  - split; [done|]. intros H. by apply elem_of_nil in H.
  - destruct Hok as [Hb Hok]. rewrite elem_of_cons. destruct (bcmp k k0) eqn:E.
    + apply bcmp_eq in E as ->. split; [intros [= ->]; by left|].
      intros [[= ->]|H]; [done|]. rewrite Forall_forall in Hb. specialize (Hb _ H). simpl in Hb.
      by rewrite bcmp_refl in Hb.
    + rewrite IH by done. split; [by right|]. intros [[= -> ->]|H]; [|done].
      by rewrite bcmp_refl in E.
    + rewrite IH by done. split; [by right|]. intros [[= -> ->]|H]; [|done].
      by rewrite bcmp_refl in E.
Qed.

(** Inserting above every key appends. *)
Lemma sm_insert_last k v m :
  Forall (fun e => bcmp (fst e) k = Lt) m -> sm_insert k v m = m ++ [(k, v)].
Proof.
  induction 1 as [|[k0 v0] m H _ IH]; simpl in *; [done|].
  rewrite (bcmp_antisym k0 k), H. simpl. by rewrite IH.
Qed.

(** Rebuilding a map from its own entries. *)
Lemma sm_rebuild m acc :
  sm_ok (acc ++ m) -> fold_left (fun m e => sm_insert (fst e) (snd e) m) m acc = acc ++ m.
Proof.
  revert acc. induction m as [|[k v] m IH]; intros acc Hok; simpl; [by rewrite app_nil_r|].
  rewrite sm_insert_last.
  - rewrite IH by by rewrite <- app_assoc. by rewrite <- app_assoc.
  - clear IH. induction acc as [|[k0 v0] acc IH]; [done|]. simpl in Hok. destruct Hok as [Hb Hok].
    constructor; [|auto]. simpl. apply Forall_app in Hb as [_ Hb]. by apply Forall_cons in Hb as [? _].
Qed.

(** Inserting a key that is not there adds one entry. *)
Lemma sm_insert_fresh k v m : sm_lookup k m = None -> sm_insert k v m ≡ₚ (k, v) :: m.
Proof.
  induction m as [|[k0 v0] m IH]; simpl; [done|]. destruct (bcmp k k0) eqn:E; [done|done|].
  intros H. rewrite IH by done. apply Permutation_swap.
Qed.

Lemma sm_insert_Forall (P : bytes * V -> Prop) k v m :
  P (k, v) -> Forall P m -> Forall P (sm_insert k v m) /\ (length (sm_insert k v m) <= S (length m))%nat.
Proof.
  intros Hk Hm. induction Hm as [|[k0 v0] m H0 Hm IH]; cbn [sm_insert]; [by repeat constructor|].
  destruct IH as [IH1 IH2]. destruct (bcmp k k0); (split; [by rewrite ?Forall_cons|simpl; lia]).
Qed.

(** Replacing a value adds none. *)
Lemma sm_insert_present k v m : sm_ok m -> sm_lookup k m <> None -> length (sm_insert k v m) = length m.
Proof.
  induction m as [|[k0 v0] m IH]; intros Hok H; [done|]. destruct Hok as [Hb Hok]. cbn [sm_insert sm_lookup] in *.
  destruct (bcmp k k0) eqn:E; cbn [length]; [done| |by rewrite IH].
  destruct H. apply sm_lookup_below. eapply Forall_impl; [exact Hb|]. intros e He. by apply (bcmp_trans k k0).
Qed.

Lemma sm_erase_filter k m : sm_ok m -> sm_erase k m = filter (fun x => fst x <> k) m.
Proof.
  induction m as [|[k0 v0] m IH]; intros Hok; simpl; [done|]. destruct Hok as [Hb Hok].
  rewrite filter_cons. simpl. destruct (decide (k0 <> k)) as [Hne|Heq].
  - rewrite <- IH by done. destruct (bcmp k k0) eqn:E; [|done..]. apply bcmp_eq in E. congruence.
  - destruct (decide (k0 = k)) as [->|]; [|by destruct Heq]. rewrite bcmp_refl. symmetry.
    clear -Hb. induction m as [|[k1 v1] m IH]; [done|]. apply Forall_cons in Hb as [H1 H].
    rewrite filter_cons. simpl in *. destruct (decide (k1 <> k)); [|by destruct n; intros ->; rewrite bcmp_refl in H1].
    by rewrite IH.
Qed.

Lemma sm_ok_filter (P : bytes * V -> Prop) `{!forall x, Decision (P x)} m : sm_ok m -> sm_ok (filter P m).
Proof.
  induction m as [|[k v] m IH]; intros Hok; [done|]. destruct Hok as [Hb Hok].
  rewrite filter_cons. destruct (decide (P (k, v))); [|by apply IH]. split; [|by apply IH].
  rewrite Forall_forall in *. intros x [_ Hx]%list_elem_of_filter. by apply Hb.
Qed.

End maps.

Lemma omap_ext_in {A B} (f g : A -> option B) (l : list A) :
  (forall x, x ∈ l -> f x = g x) -> omap f l = omap g l.
Proof.
  induction l as [|x l IH]; intros H; [done|]. cbn [omap list_omap]. rewrite (H x) by left.
  rewrite IH; [done|]. intros y Hy. apply H. by right.
Qed.

(** A map whose keys are all among [ks] is the list of the members it has. *)
Fixpoint increasing (ks : list bytes) : Prop :=
  match ks with [] => True | k :: ks => Forall (fun l => bcmp k l = Lt) ks /\ increasing ks end.

Lemma sm_members {V} (ks : list bytes) : increasing ks -> forall m : list (bytes * V),
  sm_ok m -> Forall (fun e => fst e ∈ ks) m -> m = omap (fun k => pair k <$> sm_lookup k m) ks.
Proof.
  induction ks as [|k ks IH]; intros Hks m Hok Hin.
  - destruct m as [|e m]; [done|]. inversion Hin as [|? ? H _]; subst. by apply elem_of_nil in H.
  - destruct Hks as [Hk Hks]. cbn [omap list_omap]. destruct m as [|[k0 v] m].
    { clear. simpl. induction ks; [done|]. simpl. done. }
    destruct Hok as [Hb Hok]. inversion Hin as [|? ? H0 Hin']; subst. cbn [fst] in *.
    assert (Hlt : forall l, l ∈ ks -> bcmp k l = Lt) by (by apply Forall_forall).
    destruct (decide (k0 = k)) as [->|Hne].
    + cbn [sm_lookup]. rewrite bcmp_refl. cbn [fmap option_fmap option_map].
      assert (Hm : Forall (fun e => fst e ∈ ks) m).
      { rewrite Forall_forall in Hin', Hb. apply Forall_forall. intros e He.
        specialize (Hin' e He). specialize (Hb e He). apply elem_of_cons in Hin' as [E|E]; [|done].
        rewrite E, bcmp_refl in Hb. done. }
      f_equal. rewrite (IH Hks m Hok Hm) at 1. apply omap_ext_in. intros l Hl.
      specialize (Hlt l Hl). apply bcmp_gt in Hlt. cbn [sm_lookup]. by rewrite Hlt.
    + apply elem_of_cons in H0 as [->|H0]; [done|]. specialize (Hlt k0 H0).
      assert (E : sm_lookup k ((k0, v) :: m) = None).
      { apply sm_lookup_below. constructor; [exact Hlt|]. eapply Forall_impl; [exact Hb|].
        intros e He. by eapply bcmp_trans. }
      rewrite E. cbn [fmap option_fmap option_map]. apply IH; [done|by split|].
      apply Forall_forall. intros e He. rewrite Forall_forall in Hin. specialize (Hin e He).
      apply elem_of_cons in Hin as [Ek|?]; [|done].
      apply elem_of_cons in He as [->|He]; [done|]. rewrite Forall_forall in Hb. specialize (Hb e He).
      apply bcmp_gt in Hlt. congruence.
Qed.

(** ** Mapping the values *)

Definition sm_map {V W} (f : V -> W) (m : list (bytes * V)) : list (bytes * W) :=
  map (fun e => (fst e, f (snd e))) m.

Lemma sm_lookup_map {V W} (f : V -> W) k m : sm_lookup k (sm_map f m) = f <$> sm_lookup k m.
Proof. induction m as [|[k' v] m IH]; simpl; [done|]. by destruct (bcmp k k'). Qed.

Lemma sm_insert_map {V W} (f : V -> W) k v m :
  sm_map f (sm_insert k v m) = sm_insert k (f v) (sm_map f m).
Proof. induction m as [|[k' v'] m IH]; simpl; [done|]. destruct (bcmp k k'); simpl; by rewrite ?IH. Qed.

Lemma sm_emplace_map {V W} (f : V -> W) k v m :
  sm_map f (sm_emplace k v m) = sm_emplace k (f v) (sm_map f m).
Proof.
  unfold sm_emplace. rewrite sm_lookup_map. destruct (sm_lookup k m); simpl; [done|].
  apply sm_insert_map.
Qed.
