(* ===== verification/Calendar.v ===== *)
(** The civil calendar of std::chrono that core/timestamp.cc relies on:
    [sys_days(year_month_day)], its inverse, [year_month_day::ok()] and
    [weekday], on the proleptic Gregorian calendar, with the facts that pin them
    down: consecutive dates have consecutive day numbers, and the two
    conversions are inverse to each other. *)
From Stdlib Require Import ZArith Lia.
From S2P Require Import Prelude.

Local Open Scope Z_scope.

Definition is_leap (y : Z) : bool :=
  (y mod 4 =? 0) && (negb (y mod 100 =? 0) || (y mod 400 =? 0)).

Definition days_in_month (y m : Z) : Z :=
  if m =? 2 then (if is_leap y then 29 else 28)
  else if (m =? 4) || (m =? 6) || (m =? 9) || (m =? 11) then 30 else 31.

(** [year_month_day::ok()]. *)
Definition ymd_ok (y m d : Z) : bool :=
  (-32767 <=? y) && (y <=? 32767) && (1 <=? m) && (m <=? 12)
  && (1 <=? d) && (d <=? days_in_month y m).

(** Days from 0000-03-01 to March 1 of year [y], and from March 1 to the first
    of the month [mp] months later. *)
Definition year_start (y : Z) : Z := 365 * y + y / 4 - y / 100 + y / 400.
Definition month_start (mp : Z) : Z := (153 * mp + 2) / 5.

(** 1970-01-01 in days from 0000-03-01. *)
Definition kEpochShift : Z := 719468.

Definition days_of_civil (y m d : Z) : Z :=
  let y' := if m <=? 2 then y - 1 else y in
  let mp := if m <=? 2 then m + 9 else m - 3 in
  year_start y' + month_start mp + (d - 1) - kEpochShift.

(** The year (from March) of a day and its day in it: cycles of 400, 100, 4 and
    1 years. *)
Definition year_of_day (z : Z) : Z * Z :=
  let n400 := z / 146097 in
  let r400 := z mod 146097 in
  let n100 := Z.min 3 (r400 / 36524) in
  let r100 := r400 - 36524 * n100 in
  let n4 := r100 / 1461 in
  let r4 := r100 mod 1461 in
  let n1 := Z.min 3 (r4 / 365) in
  (400 * n400 + 100 * n100 + 4 * n4 + n1, r4 - 365 * n1).

Definition civil_of_days (days : Z) : Z * Z * Z :=
  let '(y, doy) := year_of_day (days + kEpochShift) in
  let mp := (5 * doy + 2) / 153 in
  let d := doy - month_start mp + 1 in
  if mp <? 10 then (y, mp + 3, d) else (y + 1, mp - 9, d).

(** [weekday(sys_days).c_encoding()]: 0 is Sunday. *)
Definition weekday (days : Z) : Z := (days + 4) mod 7.

Example epoch_day : days_of_civil 1970 1 1 = 0 /\ civil_of_days 0 = (1970, 1, 1).
Proof. by vm_compute. Qed.

(** ** Years *)

(** The length of the year from March of [y], by the leap day that ends it. *)
Lemma year_start_succ y :
  year_start (y + 1) = year_start y + (if is_leap (y + 1) then 366 else 365).
Proof.
  unfold year_start, is_leap.
  destruct (Z.eqb_spec ((y + 1) mod 4) 0), (Z.eqb_spec ((y + 1) mod 100) 0),
    (Z.eqb_spec ((y + 1) mod 400) 0); simpl; lia.
Qed.

Lemma year_of_day_spec z :
  let '(y, doy) := year_of_day z in
  z = year_start y + doy /\ 0 <= doy < (if is_leap (y + 1) then 366 else 365).
Proof.
  unfold year_of_day, year_start.
  set (n400 := z / 146097). set (r400 := z mod 146097).
  assert (Hz : z = 146097 * n400 + r400 /\ 0 <= r400 < 146097) by (unfold n400, r400; lia).
  clearbody n400 r400. destruct Hz as [-> Hr400].
  set (n100 := Z.min 3 (r400 / 36524)).
  assert (H100 : 0 <= n100 <= 3 /\ 0 <= r400 - 36524 * n100 <= 36524
    /\ (n100 < 3 -> r400 - 36524 * n100 < 36524)) by (unfold n100; lia).
  clearbody n100. set (r100 := r400 - 36524 * n100) in *.
  assert (E : r400 = 36524 * n100 + r100) by lia. clearbody r100. subst r400.
  set (n4 := r100 / 1461). set (r4 := r100 mod 1461).
  assert (H4 : r100 = 1461 * n4 + r4 /\ 0 <= r4 < 1461 /\ 0 <= n4 <= 24
    /\ (n100 < 3 -> n4 = 24 -> r4 < 1460)) by (unfold n4, r4; lia).
  clearbody n4 r4. destruct H4 as (-> & Hr4 & Hn4 & Hlast).
  set (n1 := Z.min 3 (r4 / 365)).
  assert (H1 : 0 <= n1 <= 3 /\ 0 <= r4 - 365 * n1 <= 365 /\ (n1 < 3 -> r4 - 365 * n1 < 365))
    by (unfold n1; lia).
  clearbody n1. set (doy := r4 - 365 * n1) in *. assert (E : r4 = 365 * n1 + doy) by lia.
  clearbody doy. subst r4.
  set (y := 400 * n400 + 100 * n100 + 4 * n4 + n1).
  assert (E4 : y / 4 = 100 * n400 + 25 * n100 + n4) by (unfold y; lia).
  assert (E100 : y / 100 = 4 * n400 + n100) by (unfold y; lia).
  assert (E400 : y / 400 = n400) by (unfold y; lia).
  rewrite E4, E100, E400. split; [unfold y; lia|]. split; [lia|].
  destruct (decide (doy < 365)); [destruct (is_leap (y + 1)); lia|].
  assert (n1 = 3) as -> by lia. assert (doy = 365) by lia.
  assert (Hl : is_leap (y + 1) = true); [|rewrite Hl; lia].
  unfold is_leap. assert ((y + 1) mod 4 = 0) as -> by (unfold y; lia).
  destruct (Z.eqb_spec ((y + 1) mod 100) 0) as [Hc|Hc]; [|done].
  assert (n4 = 24) by (unfold y in Hc; lia). assert (n100 = 3) by lia.
  assert ((y + 1) mod 400 = 0) as -> by (unfold y; lia). done.
Qed.

(** A year and a day in it determine each other. *)
Lemma year_start_mono y y' : y < y' -> year_start y + 365 <= year_start y'.
Proof. unfold year_start. lia. Qed.

Lemma year_of_day_unique y doy :
  0 <= doy < (if is_leap (y + 1) then 366 else 365) ->
  year_of_day (year_start y + doy) = (y, doy).
Proof.
  intros H. pose proof (year_of_day_spec (year_start y + doy)) as Hs.
  destruct (year_of_day (year_start y + doy)) as [y1 doy1]. destruct Hs as [E H1].
  assert (Hlt : forall a b da db, a < b -> year_start a + da = year_start b + db ->
    0 <= db -> da < (if is_leap (a + 1) then 366 else 365) -> False).
  { intros a b da db Hab Heq Hdb Hda. pose proof (year_start_succ a). destruct (decide (b = a + 1)) as [->|]; [lia|].
    pose proof (year_start_mono (a + 1) b ltac:(lia)). lia. }
  destruct (Z.lt_trichotomy y y1) as [Hc|[->|Hc]].
  - exfalso. by apply (Hlt y y1 doy doy1 Hc); lia.
  - f_equal. lia.
  - exfalso. by apply (Hlt y1 y doy1 doy Hc); lia.
Qed.

(** ** Months *)

Definition march_month (m : Z) : Z := if m <=? 2 then m + 9 else m - 3.

Lemma month_of_doy y m d :
  ymd_ok y m d = true ->
  let y' := if m <=? 2 then y - 1 else y in
  let doy := month_start (march_month m) + (d - 1) in
  (5 * doy + 2) / 153 = march_month m
  /\ 0 <= doy < (if is_leap (y' + 1) then 366 else 365).
Proof.
  unfold ymd_ok, days_in_month, march_month, month_start. intros H. zbool.
  assert (Hm : m = 1 \/ m = 2 \/ m = 3 \/ m = 4 \/ m = 5 \/ m = 6 \/ m = 7 \/ m = 8 \/ m = 9
    \/ m = 10 \/ m = 11 \/ m = 12) by lia.
  destruct_or! Hm; subst m; simpl in *; rewrite ?Z.sub_add in *;
    destruct (is_leap y) eqn:El; try destruct (is_leap (y + 1)); rewrite ?El; lia.
Qed.

Lemma doy_month doy :
  0 <= doy < 366 ->
  let mp := (5 * doy + 2) / 153 in
  0 <= mp <= 11 /\ month_start mp <= doy /\
  doy < month_start mp + (if mp =? 11 then 29 else
    if (mp =? 1) || (mp =? 3) || (mp =? 6) || (mp =? 8) then 30 else 31).
Proof.
  intros H mp. unfold month_start.
  assert (Hmp : 0 <= mp <= 11) by (unfold mp; lia).
  assert (Hb : 153 * mp <= 5 * doy + 2 < 153 * mp + 153) by (unfold mp; lia). clearbody mp.
  assert (E : mp = 0 \/ mp = 1 \/ mp = 2 \/ mp = 3 \/ mp = 4 \/ mp = 5 \/ mp = 6 \/ mp = 7
    \/ mp = 8 \/ mp = 9 \/ mp = 10 \/ mp = 11) by lia.
  destruct_or! E; subst mp; simpl; lia.
Qed.

(** ** The two conversions are inverse *)

Lemma civil_of_days_of_civil y m d :
  ymd_ok y m d = true -> civil_of_days (days_of_civil y m d) = (y, m, d).
Proof.
  intros H. pose proof (month_of_doy y m d H) as [Hmp Hdoy]. unfold march_month in *.
  unfold civil_of_days, days_of_civil.
  replace (_ - kEpochShift + kEpochShift)
    with (year_start (if m <=? 2 then y - 1 else y)
          + (month_start (if m <=? 2 then m + 9 else m - 3) + (d - 1))) by lia.
  rewrite year_of_day_unique by done. rewrite Hmp.
  unfold ymd_ok in H. zbool.
  destruct (Z.leb_spec m 2).
  - destruct (Z.ltb_spec (m + 9) 10); [lia|]. f_equal; [f_equal|]; lia.
  - destruct (Z.ltb_spec (m - 3) 10); [|lia]. f_equal; [f_equal|]; lia.
Qed.

Lemma days_of_civil_of_days days :
  let '(y, m, d) := civil_of_days days in
  days_of_civil y m d = days /\ 1 <= m <= 12 /\ 1 <= d <= days_in_month y m.
Proof.
  unfold civil_of_days. pose proof (year_of_day_spec (days + kEpochShift)) as Hs.
  destruct (year_of_day (days + kEpochShift)) as [y doy]. destruct Hs as [E Hdoy].
  destruct (doy_month doy) as (Hmp & Hlo & Hhi); [destruct (is_leap (y + 1)); lia|].
  set (mp := (5 * doy + 2) / 153) in *.
  assert (Hc : mp = 0 \/ mp = 1 \/ mp = 2 \/ mp = 3 \/ mp = 4 \/ mp = 5 \/ mp = 6 \/ mp = 7
    \/ mp = 8 \/ mp = 9 \/ mp = 10 \/ mp = 11) by lia.
  assert (Hfeb : mp = 11 -> doy - month_start mp + 1 <= (if is_leap (y + 1) then 29 else 28)).
  { intros ->. unfold month_start. simpl. destruct (is_leap (y + 1)); lia. }
  clearbody mp. unfold month_start in *.
  destruct_or! Hc; subst mp; zeval; cbv iota; unfold days_of_civil, days_in_month, month_start;
    zeval; cbn [orb]; cbv iota; replace (y + 1 - 1) with y by lia; repeat split;
    try (cbn in Hhi; lia); apply Hfeb; done.
Qed.

(** ** Consecutive dates *)

Definition next_day (y m d : Z) : Z * Z * Z :=
  if d <? days_in_month y m then (y, m, d + 1)
  else if m <? 12 then (y, m + 1, 1) else (y + 1, 1, 1).

(** The day number counts the days of the calendar. *)
Lemma days_of_civil_next y m d :
  ymd_ok y m d = true ->
  let '(y', m', d') := next_day y m d in
  days_of_civil y' m' d' = days_of_civil y m d + 1.
Proof.
  unfold ymd_ok, next_day. intros H. zbool.
  destruct (Z.ltb_spec d (days_in_month y m)) as [Hd|Hd]; [unfold days_of_civil; lia|].
  assert (d = days_in_month y m) as -> by lia. clear Hd. unfold days_in_month.
  pose proof (year_start_succ (y - 1)) as Hy. replace (y - 1 + 1) with y in Hy by lia.
  assert (Hm : m = 1 \/ m = 2 \/ m = 3 \/ m = 4 \/ m = 5 \/ m = 6 \/ m = 7 \/ m = 8 \/ m = 9
    \/ m = 10 \/ m = 11 \/ m = 12) by lia.
  destruct_or! Hm; subst m; zeval; cbn [orb]; cbv iota; unfold days_of_civil, month_start; zeval;
    cbv iota; replace (y + 1 - 1) with y by lia; try lia.
  destruct (is_leap y); lia.
Qed.

(** The days of the years 0000 to 9999. *)
Lemma civil_year_range days :
  -719528 <= days <= 2932896 ->
  let '(y, m, d) := civil_of_days days in 0 <= y <= 9999.
Proof.
  intros H. pose proof (days_of_civil_of_days days) as Hd.
  destruct (civil_of_days days) as [[y m] d]. destruct Hd as (E & Hm & Hdm).
  unfold days_of_civil, kEpochShift, month_start in E.
  assert (d <= 31).
  { unfold days_in_month in Hdm. repeat case_match; lia. }
  destruct (Z.leb_spec m 2).
  - split.
    + assert (~ y <= -1); [|lia]. intros Hy.
      assert (year_start (y - 1) <= year_start (-2)).
      { destruct (decide (y - 1 = -2)) as [->|]; [lia|].
        pose proof (year_start_mono (y - 1) (-2)). lia. }
      change (year_start (-2)) with (-731) in *. lia.
    + assert (~ 10000 <= y); [|lia]. intros Hy.
      assert (year_start 9999 <= year_start (y - 1)).
      { destruct (decide (y - 1 = 9999)) as [->|]; [lia|].
        pose proof (year_start_mono 9999 (y - 1)). lia. }
      change (year_start 9999) with 3652059 in *. lia.
  - split.
    + assert (~ y <= -1); [|lia]. intros Hy.
      assert (year_start y <= year_start (-1)).
      { destruct (decide (y = -1)) as [->|]; [lia|]. pose proof (year_start_mono y (-1)). lia. }
      change (year_start (-1)) with (-366) in *. lia.
    + assert (~ 10000 <= y); [|lia]. intros Hy.
      assert (year_start 10000 <= year_start y).
      { destruct (decide (y = 10000)) as [->|]; [lia|].
        pose proof (year_start_mono 10000 y). lia. }
      change (year_start 10000) with 3652425 in *. lia.
Qed.
