(* ===== verification/Timestamp.v ===== *)
(** core/timestamp.cc: instants in milliseconds, their three text formats and
    the parsers of untrusted text and numbers.  Calendar arithmetic is
    Calendar.v; doubles are binary64 [spec_float]s of the standard library. *)
From Stdlib Require Import ZArith Lia Strings.Byte.
From Stdlib Require Import Floats.SpecFloat.
From S2P Require Import Prelude Bytes Calendar.

Local Open Scope Z_scope.

(** ** Doubles *)

Definition double := spec_float.
Definition prec64 : Z := 53.
Definition emax64 : Z := 1024.

Definition dmul (x y : double) : double := SFmul prec64 emax64 x y.
Definition ddiv (x y : double) : double := SFdiv prec64 emax64 x y.

(** [static_cast<double>] of an integer, rounded to nearest. *)
Definition of_int (z : Z) : double :=
  match z with
  | Z0 => S754_zero false
  | Zpos p => binary_round prec64 emax64 false p 0
  | Zneg p => binary_round prec64 emax64 true p 0
  end.

Definition is_finite (x : double) : bool :=
  match x with S754_zero _ | S754_finite _ _ _ => true | _ => false end.

Definition dlt (x y : double) : bool := SFltb x y.

(** [std::llround] on a finite value: to nearest, halves away from zero. *)
Definition llround (x : double) : Z :=
  match x with
  | S754_finite s m e =>
    let a := if 0 <=? e then Z.pos m * 2 ^ e
             else (2 * Z.pos m + 2 ^ (- e)) / (2 * 2 ^ (- e)) in
    if s then - a else a
  | _ => 0
  end.

(** [static_cast<int64_t>] of a finite double: toward zero. *)
Definition trunc (x : double) : Z :=
  match x with
  | S754_finite s m e =>
    let a := if 0 <=? e then Z.pos m * 2 ^ e else Z.pos m / 2 ^ (- e) in
    if s then - a else a
  | _ => 0
  end.

(** ** Civil times *)

Inductive TimestampFormat := kEpochSeconds | kDateTime | kHttpDate.

Definition kMsPerSecond : Z := 1000.
Definition kMsPerDay : Z := 86400 * kMsPerSecond.

Definition kWeekdays : list bytes := Eval vm_compute in
  [lit "Sun"; lit "Mon"; lit "Tue"; lit "Wed"; lit "Thu"; lit "Fri"; lit "Sat"].
Definition kMonths : list bytes := Eval vm_compute in
  [lit "Jan"; lit "Feb"; lit "Mar"; lit "Apr"; lit "May"; lit "Jun";
   lit "Jul"; lit "Aug"; lit "Sep"; lit "Oct"; lit "Nov"; lit "Dec"].

Record CivilTime := mkCivil {
  year : Z; month : Z; day : Z; hour : Z; minute : Z; second : Z; millisecond : Z
}.

Definition civil_ok (c : CivilTime) : bool :=
  ymd_ok (year c) (month c) (day c) && (0 <=? hour c) && (hour c <=? 23)
  && (0 <=? minute c) && (minute c <=? 59) && (0 <=? second c) && (second c <=? 59).

(** C++ division truncates. *)
Definition FloorDiv (a b : Z) : Z :=
  Z.quot a b - (if negb (Z.rem a b =? 0) && negb (Bool.eqb (a <? 0) (b <? 0)) then 1 else 0).

Definition EpochDays (c : CivilTime) : Z := days_of_civil (year c) (month c) (day c).

Definition Decompose (ms : Z) : CivilTime :=
  let days := FloorDiv ms kMsPerDay in
  let ms_of_day := ms - days * kMsPerDay in
  let '(y, m, d) := civil_of_days days in
  let hour := Z.quot ms_of_day (3600 * kMsPerSecond) in
  let ms_of_day := Z.rem ms_of_day (3600 * kMsPerSecond) in
  let minute := Z.quot ms_of_day (60 * kMsPerSecond) in
  let ms_of_day := Z.rem ms_of_day (60 * kMsPerSecond) in
  mkCivil y m d hour minute (Z.quot ms_of_day kMsPerSecond) (Z.rem ms_of_day kMsPerSecond).

Definition Compose (c : CivilTime) : Z :=
  EpochDays c * kMsPerDay
  + (hour c * 3600 + minute c * 60 + second c) * kMsPerSecond + millisecond c.

Definition WeekdayIndex (epoch_days : Z) : nat := Z.to_nat (weekday epoch_days).

(** ** Formatting *)

(** [printf]'s [%0<w>d]. *)
Definition zero_pad (w : nat) (s : bytes) : bytes := repeat "0"%byte (w - length s) ++ s.
Definition fmt (w : nat) (z : Z) : bytes :=
  if z <? 0 then "-"%byte :: zero_pad (w - 1) (to_string (- z)) else zero_pad w (to_string z).

Definition AppendFraction (ms : Z) : bytes :=
  if ms =? 0 then [] else rdrop_while (is_byte "0"%byte) ("."%byte :: fmt 3 ms).

Definition Format (ms : Z) (format : TimestampFormat) : bytes :=
  match format with
  | kEpochSeconds =>
    let negative := ms <? 0 in
    let magnitude := if negative then wrap 64 (0 - wrap 64 ms) else wrap 64 ms in
    (if negative then ["-"%byte] else []) ++ to_string (magnitude / kMsPerSecond)
    ++ AppendFraction (magnitude mod kMsPerSecond)
  | kDateTime =>
    let c := Decompose ms in
    fmt 4 (year c) ++ "-"%byte :: fmt 2 (month c) ++ "-"%byte :: fmt 2 (day c)
    ++ "T"%byte :: fmt 2 (hour c) ++ ":"%byte :: fmt 2 (minute c) ++ ":"%byte :: fmt 2 (second c)
    ++ AppendFraction (millisecond c) ++ ["Z"%byte]
  | kHttpDate =>
    let c := Decompose ms in
    let weekday := WeekdayIndex (FloorDiv ms kMsPerDay) in
    nth weekday kWeekdays [] ++ lit ", " ++ fmt 2 (day c) ++ " "%byte
    :: nth (Z.to_nat (month c - 1)) kMonths [] ++ " "%byte :: fmt 4 (year c) ++ " "%byte
    :: fmt 2 (hour c) ++ ":"%byte :: fmt 2 (minute c) ++ ":"%byte :: fmt 2 (second c)
    ++ lit " GMT"
  end.

(** ** Parsing *)

Fixpoint digits_loop (s : bytes) (value : Z) : option Z :=
  match s with
  | [] => Some value
  | c :: s' => if is_digit c then digits_loop s' (value * 10 + digit_value c) else None
  end.

Definition ParseDigits (text : bytes) (pos count : nat) : option Z :=
  if (length text <? pos + count)%nat then None else digits_loop (take count (drop pos text)) 0.

(** [text[i] == c]. *)
Definition char_is (text : bytes) (i : nat) (c : Byte.byte) : bool :=
  match text !! i with Some b => byte_eqb b c | None => false end.

(** The fraction loop: [n] digits read so far; returns their count, the
    milliseconds and the rest. *)
Fixpoint fraction_loop (n : nat) (scale ms : Z) (s : bytes) : nat * Z * bytes :=
  match s with
  | c :: s' =>
    if is_digit c then
      if (n <? 3)%nat then fraction_loop (S n) (Z.quot scale 10) (ms + digit_value c * scale) s'
      else fraction_loop (S n) scale ms s'
    else (n, ms, s)
  | [] => (n, ms, [])
  end.

(** The fraction after the seconds: [None] when a dot has no digits. *)
Definition parse_fraction (s : bytes) : option (Z * bytes) :=
  match s with
  | "."%byte :: s' =>
    let '(n, ms, rest) := fraction_loop 0 100 0 s' in
    match n with O => None | _ => Some (ms, rest) end
  | _ => Some (0, s)
  end.

(** The offset, which must end the text. *)
Definition parse_offset (s : bytes) : option Z :=
  match s with
  | c :: _ =>
    if byte_eqb c "Z"%byte || byte_eqb c "z"%byte then
      if (length s =? 1)%nat then Some 0 else None
    else if byte_eqb c "+"%byte || byte_eqb c "-"%byte then
      oh ← ParseDigits s 1 2;
      if negb (char_is s 3 ":"%byte) then None
      else
        om ← ParseDigits s 4 2;
        if (oh >? 23) || (om >? 59) || negb (length s =? 6)%nat then None
        else
          let offset_ms := (oh * 3600 + om * 60) * kMsPerSecond in
          Some (if byte_eqb c "-"%byte then - offset_ms else offset_ms)
    else None
  | [] => None
  end.

Definition date_time_fields (text : bytes) : option (CivilTime * Z) :=
  y ← ParseDigits text 0 4;
  if (length text <? 20)%nat || negb (char_is text 4 "-"%byte) || negb (char_is text 7 "-"%byte)
     || (negb (char_is text 10 "T"%byte) && negb (char_is text 10 "t"%byte))
     || negb (char_is text 13 ":"%byte) || negb (char_is text 16 ":"%byte)
  then None
  else
    mo ← ParseDigits text 5 2; d ← ParseDigits text 8 2; h ← ParseDigits text 11 2;
    mi ← ParseDigits text 14 2; s ← ParseDigits text 17 2;
    '(ms, rest) ← parse_fraction (drop 19 text);
    offset_ms ← parse_offset rest;
    Some (mkCivil y mo d h mi s ms, offset_ms).

Definition ParseDateTime (text : bytes) : Outcome Z :=
  let invalid := Err (Error_Serialization (lit "timestamp: invalid date-time: " ++ text)) in
  match date_time_fields text with
  | Some (c, offset_ms) => if civil_ok c then Ok (Compose c - offset_ms) else invalid
  | None => invalid
  end.

(** The month loop: the last match wins, 0 when there is none. *)
Definition month_number (month_text : bytes) : Z :=
  fold_left (fun m i => if bytes_eqb (nth i kMonths []) month_text then Z.of_nat i + 1 else m)
    (seq 0 12) 0.

Definition http_date_fields (text : bytes) : option CivilTime :=
  if negb (length text =? 29)%nat || negb (bytes_eqb (substr 3 2 text) (lit ", "))
     || negb (char_is text 7 " "%byte) || negb (char_is text 11 " "%byte)
     || negb (char_is text 16 " "%byte) || negb (char_is text 19 ":"%byte)
     || negb (char_is text 22 ":"%byte) || negb (bytes_eqb (drop 25 text) (lit " GMT"))
  then None
  else
    d ← ParseDigits text 5 2; y ← ParseDigits text 12 4; h ← ParseDigits text 17 2;
    mi ← ParseDigits text 20 2; s ← ParseDigits text 23 2;
    Some (mkCivil y (month_number (substr 8 3 text)) d h mi s 0).

Definition ParseHttpDate (text : bytes) : Outcome Z :=
  let invalid := Err (Error_Serialization (lit "timestamp: invalid http-date: " ++ text)) in
  match http_date_fields text with
  | Some c =>
    if (month c =? 0) || negb (civil_ok c) then invalid
    else if negb (bytes_eqb (nth (WeekdayIndex (EpochDays c)) kWeekdays []) (substr 0 3 text))
    then invalid
    else Ok (Compose c)
  | None => invalid
  end.

Definition kMinRepresentableMs : Z := -62167219200000.
Definition kMaxRepresentableMs : Z := 253402300799999.

Definition CheckedFromMs (ms : Z) : Outcome Z :=
  if (ms <? kMinRepresentableMs) || (ms >? kMaxRepresentableMs) then
    Err (Error_Serialization
           (lit "timestamp: instant out of representable range (year 0000-9999)"))
  else Ok ms.

Definition FromEpochMillisecondsChecked (ms : Z) : Outcome Z := CheckedFromMs ms.

Definition FromEpochSeconds (seconds : double) : Z := llround (dmul seconds (of_int 1000)).

Definition FromEpochSecondsChecked (seconds : double) : Outcome Z :=
  if negb (is_finite seconds) then
    Err (Error_Serialization (lit "timestamp: epoch-seconds is not finite"))
  else if dlt seconds (of_int (-62167219200)) || dlt (of_int 253402300800) seconds then
    Err (Error_Serialization
           (lit "timestamp: epoch-seconds out of representable range (year 0000-9999)"))
  else CheckedFromMs (llround (dmul seconds (of_int 1000))).

(** [epoch_seconds()]. *)
Definition epoch_seconds (ms : Z) : double := ddiv (of_int ms) (of_int 1000).

(** The grammar scan of [ParseEpochSeconds]: [None] on a stray character, else
    (seen_dot, digits_before_dot, digits_after_dot). *)
Fixpoint scan_number (s : bytes) (seen_dot before after : bool) : option (bool * bool * bool) :=
  match s with
  | [] => Some (seen_dot, before, after)
  | c :: s' =>
    if is_digit c then scan_number s' seen_dot (before || negb seen_dot) (after || seen_dot)
    else if byte_eqb c "."%byte && negb seen_dot then scan_number s' true before after
    else None
  end.

Definition number_text (text : bytes) : bool :=
  let rest := match text with "-"%byte :: r => r | _ => text end in
  match rest with
  | [] => false
  | _ => match scan_number rest false false false with
         | Some (seen_dot, before, after) => before && (negb seen_dot || after)
         | None => false
         end
  end.

(** [std::strtod] on text of that grammar: the decimal value correctly rounded. *)
Definition strtod_number (text : bytes) : double :=
  let '(neg, rest) := match text with "-"%byte :: r => (true, r) | _ => (false, text) end in
  let '(int, frac) := cut "."%byte rest in
  let frac := match frac with Some f => f | None => [] end in
  match dec_value (int ++ frac) with
  | Zpos n => SFdiv prec64 emax64 (S754_finite neg n 0)
                (S754_finite false (Z.to_pos (10 ^ len frac)) 0)
  | _ => S754_zero neg
  end.

(** [errno == ERANGE] after it: an overflow, or an underflow if the C library
    reports it for this text, which the C standard leaves open. *)
Definition strtod_erange (underflow : bytes -> bool) (text : bytes) : bool :=
  match strtod_number text with
  | S754_infinity _ => true
  | _ => underflow text
  end.

Definition ParseEpochSeconds (underflow : bytes -> bool) (text : bytes) : Outcome Z :=
  let invalid := Err (Error_Serialization (lit "timestamp: invalid epoch-seconds: " ++ text)) in
  if negb (number_text text) then invalid
  else
    let seconds := strtod_number text in
    if strtod_erange underflow text || negb (is_finite seconds) then invalid
    else FromEpochSecondsChecked seconds.

Definition Parse (underflow : bytes -> bool) (text : bytes) (format : TimestampFormat) : Outcome Z :=
  match format with
  | kEpochSeconds => ParseEpochSeconds underflow text
  | kDateTime => ParseDateTime text
  | kHttpDate => ParseHttpDate text
  end.

Example format_date_time : Format 1398796238500 kDateTime = lit "2014-04-29T18:30:38.5Z".
Proof. by vm_compute. Qed.
Example format_http_date : Format 1398796238500 kHttpDate = lit "Tue, 29 Apr 2014 18:30:38 GMT".
Proof. by vm_compute. Qed.
Example format_epoch : Format (-500) kEpochSeconds = lit "-0.5".
Proof. by vm_compute. Qed.
Example parse_date_time :
  ParseDateTime (lit "2014-04-29T18:30:38.5129+01:30") = Ok (1398796238512 - 5400000).
Proof. by vm_compute. Qed.
Example parse_epoch :
  ParseEpochSeconds (fun _ => false) (lit "-1515531081.123") = Ok (-1515531081123).
Proof. by vm_compute. Qed.

(** ** Civil decomposition *)

Lemma FloorDiv_div a b : 0 < b -> FloorDiv a b = a / b.
Proof.
  intros Hb. unfold FloorDiv. destruct (Z.ltb_spec b 0); [lia|].
  pose proof (Z.quot_rem' a b) as E.
  destruct (Z.ltb_spec a 0) as [Ha|Ha]; destruct (Z.eqb_spec (Z.rem a b) 0) as [Er|Er]; cbn [negb andb Bool.eqb].
  - rewrite Z.sub_0_r. rewrite Er, Z.add_0_r in E.
    apply Z.div_unique_exact; [clear -Hb; lia|exact E].
  - pose proof (Z.rem_bound_pos_neg a b Hb ltac:(clear -Ha; lia)) as Hr.
    revert E Hr Er. generalize (Z.quot a b) (Z.rem a b). intros q r E Hr Er.
    apply (Z.div_unique_pos a b _ (r + b)); lia.
  - rewrite Z.sub_0_r. rewrite Er, Z.add_0_r in E.
    apply Z.div_unique_exact; [clear -Hb; lia|exact E].
  - pose proof (Z.rem_bound_pos a b Ha Hb) as Hr. rewrite Z.sub_0_r.
    revert E Hr Er. generalize (Z.quot a b) (Z.rem a b). intros q r E Hr Er.
    apply (Z.div_unique_pos a b _ r); lia.
Qed.

Definition representable (ms : Z) : Prop := kMinRepresentableMs <= ms <= kMaxRepresentableMs.

(** A civil time the four-digit formats can carry. *)
Definition civil_in_window (c : CivilTime) : Prop :=
  civil_ok c = true /\ 0 <= year c <= 9999 /\ 0 <= millisecond c <= 999.

Lemma Decompose_spec ms :
  representable ms ->
  civil_in_window (Decompose ms) /\ Compose (Decompose ms) = ms
  /\ EpochDays (Decompose ms) = FloorDiv ms kMsPerDay
  /\ millisecond (Decompose ms) = ms mod 1000.
Proof.
  intros H. unfold representable, kMinRepresentableMs, kMaxRepresentableMs in H.
  unfold Decompose. rewrite FloorDiv_div by done.
  change kMsPerDay with 86400000. unfold kMsPerSecond.
  set (days := ms / 86400000). set (r := ms - days * 86400000).
  assert (Hr : 0 <= r < 86400000 /\ ms = days * 86400000 + r /\ -719528 <= days <= 2932896)
    by (unfold r, days; lia).
  clearbody days r. destruct Hr as (Hr & -> & Hd).
  pose proof (civil_year_range days Hd) as Hy. pose proof (days_of_civil_of_days days) as Hc.
  destruct (civil_of_days days) as [[y m] d]. destruct Hc as (Ed & Hm & Hdm).
  rewrite !Z.quot_div_nonneg, !Z.rem_mod_nonneg by lia.
  unfold civil_in_window, civil_ok, ymd_ok, Compose, EpochDays, kMsPerSecond; simpl.
  rewrite Ed. change (3600 * 1000) with 3600000. change (60 * 1000) with 60000.
  change kMsPerDay with 86400000.
  repeat split; lia.
Qed.

(** ** Padded numbers *)

Lemma fold_digits_app a b v :
  fold_left (fun v c => v * 10 + digit_value c) (a ++ b) v
  = fold_left (fun v c => v * 10 + digit_value c) b
      (fold_left (fun v c => v * 10 + digit_value c) a v).
Proof. apply fold_left_app. Qed.

Lemma fold_digits_bounds s v :
  Forall (fun c => is_digit c = true) s -> 0 <= v ->
  v * 10 ^ len s <= fold_left (fun v c => v * 10 + digit_value c) s v
    < (v + 1) * 10 ^ len s.
Proof.
  intros H. revert v. induction H as [|c s Hc _ IH]; intros v Hv; simpl; [unfold len; simpl; lia|].
  apply is_digit_range in Hc. specialize (IH (v * 10 + digit_value c) ltac:(lia)).
  rewrite len_cons, Z.pow_add_r by (pose proof (len_nonneg s); lia).
  pose proof (Z.pow_pos_nonneg 10 (len s) ltac:(lia) (len_nonneg s)). nia.
Qed.

(** Digit strings of one length are determined by their value. *)
Lemma digits_unique s t :
  Forall (fun c => is_digit c = true) s -> Forall (fun c => is_digit c = true) t ->
  length s = length t -> forall v w, 0 <= v -> 0 <= w ->
  fold_left (fun v c => v * 10 + digit_value c) s v
  = fold_left (fun v c => v * 10 + digit_value c) t w -> v = w /\ s = t.
Proof.
  intros Hs. revert t. induction Hs as [|c s Hc Hs IH]; intros [|d t] Ht Hl v w Hv Hw E;
    simpl in *; try done. injection Hl as Hl. apply Forall_cons in Ht as [Hd Ht].
  pose proof (is_digit_range _ Hc). pose proof (is_digit_range _ Hd).
  destruct (IH t Ht Hl (v * 10 + digit_value c) (w * 10 + digit_value d)) as [E1 ->];
    [lia|lia|done|].
  assert (v = w) as -> by lia. split; [done|]. f_equal. apply b2z_inj.
  unfold digit_value in E1. lia.
Qed.

Lemma dec_aux_head fuel z acc :
  0 < z -> z < 2 ^ Z.of_nat fuel ->
  exists c r, dec_aux fuel z acc = c :: r /\ c <> "0"%byte.
Proof.
  revert z acc. induction fuel as [|f IH]; intros z acc H0 H1; [simpl in H1; lia|]. cbn [dec_aux].
  destruct (Z.ltb_spec z 10) as [Hz|Hz].
  - eexists _, _. split; [done|]. intros E. apply (f_equal digit_value) in E.
    rewrite digit_value_byte in E by lia. change (digit_value "0"%byte) with 0 in E. lia.
  - rewrite Nat2Z.inj_succ, Z.pow_succ_r in H1 by lia. apply IH; lia.
Qed.

Lemma to_string_length z n : 0 <= z < 10 ^ Z.of_nat n -> (0 < n)%nat -> (length (to_string z) <= n)%nat.
Proof.
  intros Hz Hn. destruct (to_string_spec z ltac:(lia)) as [Hv Hd].
  destruct (decide (z = 0)) as [->|]; [simpl; lia|].
  destruct (dec_aux_head (S (Z.to_nat (Z.log2 z))) z []) as (c & r & E & Hc); [lia| |].
  { rewrite Nat2Z.inj_succ, Z2Nat.id by apply Z.log2_nonneg. apply Z.log2_spec. lia. }
  unfold to_string in *. rewrite E in *. apply Forall_cons in Hd as [Hdc Hd].
  unfold dec_value in Hv. simpl in Hv. pose proof (is_digit_range _ Hdc).
  pose proof (fold_digits_bounds r (digit_value c) Hd ltac:(lia)) as Hb.
  assert (0 < digit_value c).
  { assert (digit_value c <> 0); [|lia]. intros E0. apply Hc, b2z_inj.
    unfold digit_value in E0. change (b2z "0"%byte) with 48. lia. }
  destruct (decide (length (c :: r) <= n)%nat) as [|Hlt]; [done|]. simpl in Hlt.
  assert (10 ^ Z.of_nat n <= 10 ^ len r) by (apply Z.pow_le_mono_r; unfold len; lia).
  change (0 * 10 + digit_value c) with (digit_value c) in Hv. exfalso.
  pose proof (Z.pow_pos_nonneg 10 (len r) ltac:(lia) (len_nonneg r)). nia.
Qed.

Lemma fmt_pad n z : 0 <= z < 10 ^ Z.of_nat n -> (0 < n)%nat -> fmt n z = pad_digits n z.
Proof.
  intros Hz Hn. unfold fmt. destruct (Z.ltb_spec z 0); [lia|]. unfold zero_pad.
  pose proof (to_string_length z n Hz Hn) as Hl.
  destruct (to_string_spec z ltac:(lia)) as [Hv Hd]. destruct (pad_digits_spec n z Hz) as [Hv2 Hd2].
  assert (Hzeros : forall k, fold_left (fun v c => v * 10 + digit_value c) (repeat "0"%byte k) 0 = 0).
  { induction k as [|k IH]; [done|]. exact IH. }
  apply (digits_unique _ _) with (v := 0) (w := 0); try done.
  - apply Forall_app. split; [|done]. apply Forall_forall. intros c Hc.
    apply list_elem_of_In, repeat_spec in Hc as ->. done.
  - rewrite length_app, repeat_length, length_pad_digits. lia.
  - rewrite fold_digits_app, Hzeros. unfold dec_value in *. lia.
Qed.

Lemma digits_loop_Some s v :
  Forall (fun c => is_digit c = true) s ->
  digits_loop s v = Some (fold_left (fun v c => v * 10 + digit_value c) s v).
Proof.
  intros H. revert v. induction H as [|c s Hc _ IH]; intros v; simpl; [done|]. by rewrite Hc, IH.
Qed.

(** Two and four digit fields as the bytes they are. *)
Lemma fmt2 z :
  0 <= z <= 99 -> exists a b, fmt 2 z = [a; b] /\ digits_loop [a; b] 0 = Some z.
Proof.
  intros Hz. rewrite fmt_pad by (simpl; lia). destruct (pad_digits_spec 2 z) as [Hv Hd]; [simpl; lia|].
  pose proof (length_pad_digits 2 z). destruct (pad_digits 2 z) as [|a [|b [|? ?]]]; try done.
  exists a, b. split; [done|]. rewrite digits_loop_Some by done. by f_equal.
Qed.

Lemma fmt4 z :
  0 <= z <= 9999 ->
  exists a b c d, fmt 4 z = [a; b; c; d] /\ digits_loop [a; b; c; d] 0 = Some z.
Proof.
  intros Hz. rewrite fmt_pad by (simpl; lia). destruct (pad_digits_spec 4 z) as [Hv Hd]; [simpl; lia|].
  pose proof (length_pad_digits 4 z).
  destruct (pad_digits 4 z) as [|a [|b [|c [|d [|? ?]]]]]; try done.
  exists a, b, c, d. split; [done|]. rewrite digits_loop_Some by done. by f_equal.
Qed.

(** ** Date-times *)

(** The text of a civil time up to the seconds. *)
Definition date_time_head (c : CivilTime) : bytes :=
  fmt 4 (year c) ++ "-"%byte :: fmt 2 (month c) ++ "-"%byte :: fmt 2 (day c)
  ++ "T"%byte :: fmt 2 (hour c) ++ ":"%byte :: fmt 2 (minute c) ++ ":"%byte :: fmt 2 (second c).

Lemma civil_two_digits c :
  civil_ok c = true -> 0 <= month c <= 99 /\ 0 <= day c <= 99 /\ 0 <= hour c <= 99
    /\ 0 <= minute c <= 99 /\ 0 <= second c <= 99.
Proof.
  unfold civil_ok, ymd_ok. intros H. zbool.
  assert (days_in_month (year c) (month c) <= 31) by (unfold days_in_month; repeat case_match; lia).
  lia.
Qed.

(** What follows the seconds is read by the fraction and offset parsers. *)
Lemma date_time_fields_head c rest :
  civil_ok c = true -> 0 <= year c <= 9999 -> rest <> [] ->
  date_time_fields (date_time_head c ++ rest)
  = ('(ms, rest) ← parse_fraction rest;
     offset_ms ← parse_offset rest;
     Some (mkCivil (year c) (month c) (day c) (hour c) (minute c) (second c) ms, offset_ms)).
Proof.
  intros Hok Hy Hr. destruct (civil_two_digits c Hok) as (H1 & H2 & H3 & H4 & H5).
  destruct (fmt4 _ Hy) as (y1 & y2 & y3 & y4 & Ey & Vy). destruct (fmt2 _ H1) as (m1 & m2 & Em & Vm).
  destruct (fmt2 _ H2) as (d1 & d2 & Ed & Vd). destruct (fmt2 _ H3) as (h1 & h2 & Eh & Vh).
  destruct (fmt2 _ H4) as (n1 & n2 & En & Vn). destruct (fmt2 _ H5) as (s1 & s2 & Es & Vs).
  unfold date_time_head. rewrite Ey, Em, Ed, Eh, En, Es.
  destruct rest as [|r rest]; [done|]. unfold date_time_fields, ParseDigits.
  cbn [app length Nat.add Nat.ltb Nat.leb drop take char_is]. unfold char_is. cbn [lookup list_lookup].
  rewrite Vy. cbn [mbind option_bind]. rewrite Vm, Vd, Vh, Vn, Vs. done.
Qed.

Lemma fraction_loop_app s : forall n scale ms c rest,
  Forall (fun c => is_digit c = true) s -> is_digit c = false ->
  fraction_loop n scale ms (s ++ c :: rest)
  = let '(n', ms', _) := fraction_loop n scale ms s in (n', ms', c :: rest).
Proof.
  induction s as [|x s IH]; intros n scale ms c rest Hs Hc; simpl; [by rewrite Hc|].
  apply Forall_cons in Hs as [Hx Hs]. rewrite Hx. destruct (n <? 3)%nat; by apply IH.
Qed.

(** The thousand fractions, checked one by one. *)
Definition fraction_ok (ms : Z) : bool :=
  match AppendFraction ms with
  | [] => ms =? 0
  | dot :: s =>
    byte_eqb dot "."%byte && forallb is_digit s &&
    match fraction_loop 0 100 0 s with
    | (n, ms', _) => negb (n =? 0)%nat && (ms' =? ms)
    end
  end.

Lemma all_fractions : forallb (fun n => fraction_ok (Z.of_nat n)) (seq 0 1000) = true.
Proof. by vm_compute. Qed.

Lemma AppendFraction_ok ms : 0 <= ms <= 999 -> fraction_ok ms = true.
Proof.
  intros H. pose proof all_fractions as Hall. rewrite forallb_forall in Hall.
  specialize (Hall (Z.to_nat ms)). rewrite Z2Nat.id in Hall by lia. apply Hall.
  apply in_seq. lia.
Qed.

Lemma parse_fraction_text ms c rest :
  0 <= ms <= 999 -> is_digit c = false -> c <> "."%byte ->
  parse_fraction (AppendFraction ms ++ c :: rest) = Some (ms, c :: rest).
Proof.
  intros Hms Hc Hdot. pose proof (AppendFraction_ok ms Hms) as H. unfold fraction_ok in H.
  destruct (AppendFraction ms) as [|dot s].
  - zbool. subst. simpl. destruct c; done.
  - destruct (fraction_loop 0 100 0 s) as [[n ms'] r] eqn:E. zbool.
    apply byte_eqb_eq in H as ->. subst ms'. cbn [app parse_fraction].
    rewrite fraction_loop_app; [|by apply forallb_Forall|done].
    rewrite E. by destruct n.
Qed.

(** The offsets the grammar allows, as the text and the milliseconds east. *)
Inductive offset_text : bytes -> Z -> Prop :=
| offset_Z : offset_text (lit "Z") 0
| offset_z : offset_text (lit "z") 0
| offset_east oh om : 0 <= oh <= 23 -> 0 <= om <= 59 ->
    offset_text ("+"%byte :: fmt 2 oh ++ ":"%byte :: fmt 2 om) ((oh * 3600 + om * 60) * 1000)
| offset_west oh om : 0 <= oh <= 23 -> 0 <= om <= 59 ->
    offset_text ("-"%byte :: fmt 2 oh ++ ":"%byte :: fmt 2 om) (- ((oh * 3600 + om * 60) * 1000)).

Lemma parse_offset_text s offset : offset_text s offset -> parse_offset s = Some offset.
Proof.
  intros H. destruct H as [| |oh om Ho Hm|oh om Ho Hm]; [done|done|..];
    destruct (fmt2 oh ltac:(lia)) as (a & b & E1 & V1);
    destruct (fmt2 om ltac:(lia)) as (e & f & E2 & V2); rewrite E1, E2;
    unfold parse_offset, ParseDigits; cbn [app length Nat.add Nat.ltb Nat.leb drop take];
    unfold char_is; cbn [lookup list_lookup]; rewrite V1; cbn [mbind option_bind]; rewrite V2;
    cbn [mbind option_bind]; destruct (Z.gtb_spec oh 23); try lia; destruct (Z.gtb_spec om 59);
    try lia; done.
Qed.

Lemma offset_text_head s offset :
  offset_text s offset -> exists c r, s = c :: r /\ is_digit c = false /\ c <> "."%byte.
Proof. destruct 1; by eexists _, _. Qed.

Lemma parse_date_time_text c offset otext :
  civil_in_window c -> offset_text otext offset ->
  ParseDateTime (date_time_head c ++ AppendFraction (millisecond c) ++ otext)
  = Ok (Compose c - offset).
Proof.
  intros (Hok & Hy & Hms) Ho. destruct (offset_text_head _ _ Ho) as (b & r & E & Hd & Hdot).
  unfold ParseDateTime. rewrite date_time_fields_head; [|done|done|].
  - rewrite E, parse_fraction_text by done. rewrite <- E. cbn [mbind option_bind].
    rewrite (parse_offset_text _ _ Ho). cbn [mbind option_bind].
    destruct c; simpl. unfold civil_ok in *; simpl in *. by rewrite Hok.
  - rewrite E. by intros [_ ?]%app_eq_nil.
Qed.

(** ** HTTP dates *)

Definition http_date_text (weekday : bytes) (c : CivilTime) : bytes :=
  weekday ++ lit ", " ++ fmt 2 (day c) ++ " "%byte
  :: nth (Z.to_nat (month c - 1)) kMonths [] ++ " "%byte :: fmt 4 (year c) ++ " "%byte
  :: fmt 2 (hour c) ++ ":"%byte :: fmt 2 (minute c) ++ ":"%byte :: fmt 2 (second c)
  ++ lit " GMT".

Lemma weekday_text days :
  exists a b c, nth (WeekdayIndex days) kWeekdays [] = [a; b; c].
Proof.
  unfold WeekdayIndex, weekday.
  assert (H : 0 <= (days + 4) mod 7 < 7) by lia. generalize dependent ((days + 4) mod 7).
  intros w H. assert (Hn : (Z.to_nat w < 7)%nat) by lia. revert Hn. generalize (Z.to_nat w) as n.
  intros n Hn. do 7 (destruct n as [|n]; [by eexists _, _, _|]). lia.
Qed.

Lemma month_text m :
  1 <= m <= 12 -> exists a b c, nth (Z.to_nat (m - 1)) kMonths [] = [a; b; c]
    /\ month_number [a; b; c] = m.
Proof.
  intros H. assert (Hm : m = 1 \/ m = 2 \/ m = 3 \/ m = 4 \/ m = 5 \/ m = 6 \/ m = 7 \/ m = 8
    \/ m = 9 \/ m = 10 \/ m = 11 \/ m = 12) by lia.
  destruct_or! Hm; subst m; by eexists _, _, _.
Qed.

Lemma http_date_fields_text w1 w2 w3 c :
  civil_ok c = true -> 0 <= year c <= 9999 ->
  http_date_fields (http_date_text [w1; w2; w3] c)
  = Some (mkCivil (year c) (month c) (day c) (hour c) (minute c) (second c) 0)
  /\ substr 0 3 (http_date_text [w1; w2; w3] c) = [w1; w2; w3].
Proof.
  intros Hok Hy. destruct (civil_two_digits c Hok) as (_ & H2 & H3 & H4 & H5).
  assert (Hm : 1 <= month c <= 12) by (unfold civil_ok, ymd_ok in Hok; zbool; lia).
  destruct (fmt4 _ Hy) as (y1 & y2 & y3 & y4 & Ey & Vy).
  destruct (month_text _ Hm) as (m1 & m2 & m3 & Em & Vm).
  destruct (fmt2 _ H2) as (d1 & d2 & Ed & Vd). destruct (fmt2 _ H3) as (h1 & h2 & Eh & Vh).
  destruct (fmt2 _ H4) as (n1 & n2 & En & Vn). destruct (fmt2 _ H5) as (s1 & s2 & Es & Vs).
  unfold http_date_text. rewrite Ey, Em, Ed, Eh, En, Es.
  change (lit ", ") with [","%byte; " "%byte].
  change (lit " GMT") with [" "%byte; "G"%byte; "M"%byte; "T"%byte]. cbn [app]. split; [|done].
  unfold http_date_fields, ParseDigits, substr, char_is.
  cbn [length Nat.add Nat.ltb Nat.leb Nat.eqb drop take lookup list_lookup].
  change (Z.to_nat 3) with 3%nat. change (Z.to_nat 2) with 2%nat. change (Z.to_nat 8) with 8%nat.
  cbn [drop take]. rewrite Vd, Vy, Vh, Vn, Vs. cbn [mbind option_bind]. by rewrite Vm.
Qed.

Lemma bytes_eqb_refl s : bytes_eqb s s = true.
Proof. by apply bytes_eqb_eq. Qed.

Lemma parse_http_date_text c :
  civil_ok c = true -> 0 <= year c <= 9999 ->
  ParseHttpDate (http_date_text (nth (WeekdayIndex (EpochDays c)) kWeekdays []) c)
  = Ok (Compose c - millisecond c).
Proof.
  intros Hok Hy. destruct (weekday_text (EpochDays c)) as (w1 & w2 & w3 & Ew). rewrite Ew.
  unfold ParseHttpDate. destruct (http_date_fields_text w1 w2 w3 c Hok Hy) as [-> ->].
  assert (Hm : 1 <= month c <= 12) by (unfold civil_ok, ymd_ok in Hok; zbool; lia).
  destruct c as [y m d h mi s ms]; simpl in *. destruct (Z.eqb_spec m 0); [lia|].
  unfold civil_ok in *; simpl in *. rewrite Hok. cbn [negb orb].
  unfold EpochDays in *. simpl in *. rewrite Ew, bytes_eqb_refl. cbn [negb]. f_equal.
  unfold Compose, EpochDays. simpl. lia.
Qed.

(** ** The instants the date-time parser can return *)

Lemma year_start_le y y' : y <= y' -> year_start y <= year_start y'.
Proof. intros H. unfold year_start. lia. Qed.

Lemma EpochDays_range c :
  civil_ok c = true -> 0 <= year c <= 9999 -> -719528 <= EpochDays c <= 2932896.
Proof.
  unfold civil_ok, ymd_ok, EpochDays, days_of_civil. intros H Hy. zbool.
  assert (Hd : day c <= (if month c =? 2 then 29 else 31))
    by (unfold days_in_month in *; repeat case_match; lia).
  pose proof (year_start_le (-1) (year c - 1)). pose proof (year_start_le 0 (year c)).
  pose proof (year_start_le (year c - 1) 9998). pose proof (year_start_le (year c) 9999).
  change (year_start (-1)) with (-366) in *. change (year_start 0) with 0 in *.
  change (year_start 9998) with 3651694 in *. change (year_start 9999) with 3652059 in *.
  unfold month_start, kEpochShift. destruct (Z.leb_spec (month c) 2).
  - destruct (Z.eqb_spec (month c) 2) as [E|E]; rewrite ?E; lia.
  - destruct (Z.eqb_spec (month c) 2); lia.
Qed.

Lemma digits_loop_range s v n :
  0 <= v -> digits_loop s v = Some n -> 0 <= n < (v + 1) * 10 ^ len s.
Proof.
  revert v. induction s as [|c s IH]; intros v Hv; simpl.
  - intros [= ->]. change (len ([] : bytes)) with 0. lia.
  - destruct (is_digit c) eqn:E; [|done]. apply is_digit_range in E. intros H.
    apply IH in H; [|lia]. rewrite len_cons, Z.pow_add_r by (pose proof (len_nonneg s); lia).
    pose proof (Z.pow_pos_nonneg 10 (len s) ltac:(lia) (len_nonneg s)). nia.
Qed.

Lemma ParseDigits_range text pos count n :
  ParseDigits text pos count = Some n -> 0 <= n < 10 ^ Z.of_nat count.
Proof.
  unfold ParseDigits. destruct (Nat.ltb_spec (length text) (pos + count)); [done|].
  intros Hn. apply digits_loop_range in Hn; [|lia].
  assert (E : len (take count (drop pos text)) = Z.of_nat count).
  { unfold len. rewrite length_take, length_drop. lia. }
  rewrite E in Hn. lia.
Qed.

Lemma fraction_loop_past s : forall n scale ms n' ms' rest,
  (3 <= n)%nat -> fraction_loop n scale ms s = (n', ms', rest) -> ms' = ms.
Proof.
  induction s as [|c s IH]; intros n scale ms n' ms' rest Hn; simpl; [intros; congruence|].
  destruct (is_digit c); [|intros; congruence].
  destruct (Nat.ltb_spec n 3); [lia|]. apply IH. lia.
Qed.

Lemma fraction_loop_range s : forall n scale ms n' ms' rest,
  (n <= 3)%nat -> scale = 10 ^ (2 - Z.of_nat n) -> 0 <= ms <= 1000 - 10 ^ (3 - Z.of_nat n) ->
  fraction_loop n scale ms s = (n', ms', rest) -> 0 <= ms' <= 999.
Proof.
  induction s as [|c s IH]; intros n scale ms n' ms' rest Hn Hs Hms H; simpl in H.
  - assert (ms' = ms) as -> by congruence. assert (Hc : n = O \/ n = 1%nat \/ n = 2%nat \/ n = 3%nat) by lia.
    destruct_or! Hc; subst n; simpl in Hms; lia.
  - assert (Hc : n = O \/ n = 1%nat \/ n = 2%nat \/ n = 3%nat) by lia.
    destruct (is_digit c) eqn:E.
    + apply is_digit_range in E. destruct (Nat.ltb_spec n 3).
      * assert (Hc' : n = O \/ n = 1%nat \/ n = 2%nat) by lia.
        apply IH in H; [done|lia|..]; destruct_or! Hc'; subst n scale; simpl in *; try lia; done.
      * assert (n = 3%nat) as -> by lia. apply fraction_loop_past in H as ->; [|lia]. simpl in Hms. lia.
    + assert (ms' = ms) as -> by congruence. destruct_or! Hc; subst n; simpl in Hms; lia.
Qed.

Lemma parse_fraction_range s ms rest : parse_fraction s = Some (ms, rest) -> 0 <= ms <= 999.
Proof.
  unfold parse_fraction.
  assert (H0 : Some (0, s) = Some (ms, rest) -> 0 <= ms <= 999) by (intros E; assert (ms = 0) by congruence; lia).
  destruct s as [|c s]; [exact H0|]. destruct c; try exact H0.
  destruct (fraction_loop 0 100 0 s) as [[n ms'] r] eqn:E. destruct n as [|n]; [done|].
  intros E'. assert (ms' = ms) as -> by congruence.
  by apply (fraction_loop_range s 0 100 0) in E; [|lia|done|simpl; lia].
Qed.

Lemma parse_offset_range s offset : parse_offset s = Some offset -> -86340000 <= offset <= 86340000.
Proof.
  unfold parse_offset, kMsPerSecond. destruct s as [|c s]; [done|].
  destruct (_ || _). { case_match; [intros [= <-]; lia|done]. }
  destruct (_ || _); [|done]. intros H. apply bind_Some in H as (oh & Ho & H).
  destruct (negb _); [done|]. apply bind_Some in H as (om & Hm & H).
  apply ParseDigits_range in Ho, Hm. destruct (_ || _ || _) eqn:E; [done|]. zbool.
  injection H as <-. case_match; lia.
Qed.

Lemma ParseDateTime_bounds text t :
  ParseDateTime text = Ok t ->
  kMinRepresentableMs - 86340000 <= t <= kMaxRepresentableMs + 86340000.
Proof.
  unfold ParseDateTime. destruct (date_time_fields text) as [[c offset]|] eqn:E; [|done].
  destruct (civil_ok c) eqn:Hok; [|done]. intros H. apply Ok_inj in H as <-.
  unfold date_time_fields in E.
  apply bind_Some in E as (y & Hy & E). destruct (_ || _); [done|].
  apply bind_Some in E as (mo & Hmo & E). apply bind_Some in E as (d & Hd & E).
  apply bind_Some in E as (h & Hh & E). apply bind_Some in E as (mi & Hmi & E).
  apply bind_Some in E as (s & Hs & E). apply bind_Some in E as ([ms rest] & Hf & E).
  apply bind_Some in E as (o & Ho & E). injection E as <- <-.
  apply ParseDigits_range in Hy. apply parse_fraction_range in Hf. apply parse_offset_range in Ho.
  change (10 ^ Z.of_nat 4) with 10000 in Hy.
  pose proof (EpochDays_range _ Hok ltac:(simpl; lia)) as Hr.
  unfold civil_ok in Hok. zbool. unfold Compose. simpl in *.
  unfold kMinRepresentableMs, kMaxRepresentableMs, kMsPerSecond. change kMsPerDay with 86400000. lia.
Qed.

(** ** Claims *)

Lemma ParseDateTime_Format ms :
  representable ms -> ParseDateTime (Format ms kDateTime) = Ok ms.
Proof.
  intros H. destruct (Decompose_spec ms H) as (Hw & Hc & _ & _).
  pose proof (parse_date_time_text _ _ _ Hw offset_Z) as E. rewrite Hc, Z.sub_0_r in E.
  rewrite <- E. unfold Format, date_time_head. f_equal.
  repeat (rewrite <- app_assoc; cbn [app]). done.
Qed.

(** date-time text is lossless: every instant of the years 0000 to 9999, to
    the millisecond, is parsed back from its RFC 3339 text. *)
Theorem date_time_roundtrip ms :
  representable ms -> ParseDateTime (Format ms kDateTime) = Ok ms.
Proof. apply ParseDateTime_Format. Qed.

Lemma date_time_roundtrip_witness : ParseDateTime (Format (-1) kDateTime) = Ok (-1).
Proof. apply date_time_roundtrip. split; by vm_compute. Defined.

Lemma ParseHttpDate_Format ms :
  representable ms -> ParseHttpDate (Format ms kHttpDate) = Ok (ms - ms mod 1000).
Proof.
  intros H. destruct (Decompose_spec ms H) as ((Hok & Hy & _) & Hc & He & Hms).
  pose proof (parse_http_date_text _ Hok Hy) as E. rewrite Hc, Hms, He in E.
  unfold http_date_text in E. exact E.
Qed.

(** HTTP-date text keeps the second: parsing the IMF-fixdate text of an
    instant of the years 0000 to 9999 gives the instant without its
    milliseconds. *)
Theorem http_date_roundtrip ms :
  representable ms -> ParseHttpDate (Format ms kHttpDate) = Ok (ms - ms mod 1000).
Proof. apply ParseHttpDate_Format. Qed.

Lemma http_date_roundtrip_witness :
  ParseHttpDate (Format 784111777250 kHttpDate) = Ok (784111777250 - 784111777250 mod 1000).
Proof. apply http_date_roundtrip. split; by vm_compute. Defined.

(** date-times with an offset: the text of a civil time of the years 0000
    to 9999 followed by Z or an offset of hours and minutes parses to its
    instant less the offset. *)
Theorem date_time_offset c offset otext :
  civil_in_window c -> offset_text otext offset ->
  ParseDateTime (date_time_head c ++ AppendFraction (millisecond c) ++ otext)
  = Ok (Compose c - offset).
Proof. apply parse_date_time_text. Qed.

Lemma date_time_offset_witness :
  ParseDateTime (date_time_head (mkCivil 2014 4 29 18 30 38 520) ++ AppendFraction 520
                 ++ "-"%byte :: fmt 2 5 ++ ":"%byte :: fmt 2 30)
  = Ok (Compose (mkCivil 2014 4 29 18 30 38 520) - - ((5 * 3600 + 30 * 60) * 1000)).
Proof.
  apply (date_time_offset (mkCivil 2014 4 29 18 30 38 520));
    [split; [by vm_compute|split; simpl; lia]|apply offset_west; lia].
Defined.

(** the civil fields of an instant: in the years 0000 to 9999 [Decompose]
    gives a valid date and time of day, [Compose] inverts it, and consecutive
    dates are consecutive days, the epoch being day 0. *)
Theorem civil_calendar :
  (forall ms, representable ms ->
     civil_in_window (Decompose ms) /\ Compose (Decompose ms) = ms)
  /\ (forall y m d, ymd_ok y m d = true ->
        let '(y', m', d') := next_day y m d in
        days_of_civil y' m' d' = days_of_civil y m d + 1)
  /\ days_of_civil 1970 1 1 = 0.
Proof.
  split; [|split; [apply days_of_civil_next|done]].
  intros ms H. by destruct (Decompose_spec ms H) as (? & ? & _).
Qed.

(** a date-time parsed from any text lies within a day of the years 0000 to
    9999, so the milliseconds arithmetic never overflows 64 bits. *)
Theorem ParseDateTime_range text t :
  ParseDateTime text = Ok t ->
  kMinRepresentableMs - 86340000 <= t <= kMaxRepresentableMs + 86340000.
Proof. apply ParseDateTime_bounds. Qed.

Lemma ParseDateTime_range_witness :
  kMinRepresentableMs - 86340000 <= 253402304399000 <= kMaxRepresentableMs + 86340000.
Proof. apply (ParseDateTime_range (lit "9999-12-31T23:59:59-01:00")). by vm_compute. Defined.

(** An offset can move a date-time out of the years 0000 to 9999: the parser
    accepts it, the checked factory would not, and its text does not parse. *)
Lemma date_time_escapes_window :
  ParseDateTime (lit "9999-12-31T23:59:59-01:00") = Ok 253402304399000
  /\ FromEpochMillisecondsChecked 253402304399000
     = Err (Error_Serialization (lit "timestamp: instant out of representable range (year 0000-9999)"))
  /\ is_ok (ParseDateTime (Format 253402304399000 kDateTime)) = false.
Proof. by vm_compute. Qed.
