(* ===== verification/Doubles.v ===== *)
(** Binary64 arithmetic: rounding to nearest never passes an integer below
    2^53.  A nonnegative double [m * 2^e] is compared with integers after
    scaling, so no reals are needed. *)
From Stdlib Require Import ZArith Lia.
From Stdlib Require Import Floats.SpecFloat.
From S2P Require Import Prelude Timestamp.

Local Open Scope Z_scope.

(** [m * 2^e <= c]. *)
Definition le_int (m e c : Z) : Prop :=
  exists K, 0 <= K /\ 0 <= e + K /\ m * 2 ^ (e + K) <= c * 2 ^ K.

Lemma le_int_scale m e c K : le_int m e c -> 0 <= K -> 0 <= e + K -> m * 2 ^ (e + K) <= c * 2 ^ K.
Proof.
  intros (K' & HK' & HeK' & H) HK HeK.
  pose proof (pow2_pos K HK) as H1. pose proof (pow2_pos K' HK') as H2.
  apply Z.mul_le_mono_pos_r with (p := 2 ^ K'); [done|].
  apply (Z.mul_le_mono_nonneg_r _ _ (2 ^ K)) in H; [|lia].
  replace (m * 2 ^ (e + K) * 2 ^ K') with (m * 2 ^ (e + K') * 2 ^ K).
  - lia.
  - rewrite <- !Z.mul_assoc, <- !Z.pow_add_r by lia. do 2 f_equal. lia.
Qed.

Lemma digits2_bounds p :
  2 ^ (Z.pos (digits2_pos p) - 1) <= Z.pos p < 2 ^ Z.pos (digits2_pos p).
Proof.
  induction p as [p IH|p IH|]; cbn [digits2_pos]; [| |simpl; lia];
    rewrite Pos2Z.inj_succ; unfold Z.succ;
    replace (Z.pos (digits2_pos p) + 1 - 1) with (Z.pos (digits2_pos p) - 1 + 1) by lia;
    rewrite !Z.pow_add_r by lia; change (2 ^ 1) with 2; lia.
Qed.

(** ** Shifting right *)

(** [r] is [M] shifted right by [n] bits, with a sticky record of the bits
    lost. *)
Definition shifted (M n : Z) (r : shr_record) : Prop :=
  0 <= shr_m r /\ shr_m r * 2 ^ n <= M < (shr_m r + 1) * 2 ^ n
  /\ (loc_of_shr_record r = loc_Exact <-> M = shr_m r * 2 ^ n).

Lemma shr_1_half m r s :
  0 <= m -> exists q (b : bool), m = 2 * q + Z.b2z b /\ 0 <= q
    /\ shr_1 {| shr_m := m; shr_r := r; shr_s := s |} = {| shr_m := q; shr_r := b; shr_s := r || s |}.
Proof.
  intros H. destruct m as [|[p|p|]|p]; cbn [shr_1]; [| | | |lia].
  - by exists 0, false.
  - by exists (Z.pos p), true.
  - by exists (Z.pos p), false.
  - by exists 0, true.
Qed.

Lemma loc_exact_iff m r s :
  loc_of_shr_record {| shr_m := m; shr_r := r; shr_s := s |} = loc_Exact <-> r = false /\ s = false.
Proof. destruct r, s; simpl; naive_solver. Qed.

Lemma shifted_1 M n r : 0 <= n -> shifted M n r -> shifted M (n + 1) (shr_1 r).
Proof.
  intros Hn (H0 & Hb & He). destruct r as [m r s]. cbn [shr_m] in *.
  rewrite loc_exact_iff in He. destruct (shr_1_half m r s H0) as (q & b & -> & Hq & ->).
  pose proof (pow2_pos n Hn) as Hp. unfold shifted. cbn [shr_m]. rewrite loc_exact_iff.
  rewrite Z.pow_add_r by lia. change (2 ^ 1) with 2. set (P := 2 ^ n) in *. clearbody P.
  assert (Hb01 : 0 <= Z.b2z b <= 1) by (destruct b; simpl; lia).
  split; [done|]. split; [nia|]. split.
  - intros [-> [-> ->]%orb_false_iff]. simpl in *. rewrite (proj1 He) by done. lia.
  - intros E. destruct b; simpl in *; [nia|]. split; [done|]. apply orb_false_iff, He. lia.
Qed.

Lemma shifted_iter k M n r : 0 <= n -> shifted M n r -> shifted M (n + Z.pos k) (SpecFloat.iter_pos shr_1 k r).
Proof.
  revert n r. induction k as [k IH|k IH|]; intros n r Hn H; cbn [SpecFloat.iter_pos].
  - apply shifted_1 in H; [|done]. apply IH in H; [|lia]. apply IH in H; [|lia].
    replace (n + Z.pos k~1) with (n + 1 + Z.pos k + Z.pos k) by lia. done.
  - apply IH in H; [|lia]. apply IH in H; [|lia].
    replace (n + Z.pos k~0) with (n + Z.pos k + Z.pos k) by lia. done.
  - by apply shifted_1.
Qed.

Lemma shr_fexp_shifted M E r e' :
  0 <= M -> shr_fexp prec64 emax64 M E loc_Exact = (r, e') ->
  shifted M (e' - E) r /\ e' = Z.max E (fexp prec64 emax64 (Zdigits2 M + E)).
Proof.
  intros HM. unfold shr_fexp. set (f := fexp _ _ _). unfold shr. cbn [shr_record_of_loc].
  assert (H0 : shifted M 0 {| shr_m := M; shr_r := false; shr_s := false |}).
  { unfold shifted. cbn [shr_m loc_of_shr_record]. rewrite Z.mul_1_r. repeat split; try lia. }
  destruct (f - E) as [|k|k] eqn:Ek; intros [= <- <-].
  - rewrite Z.sub_diag. split; [done|lia].
  - replace (E + Z.pos k - E) with (0 + Z.pos k) by lia. split; [|lia].
    apply shifted_iter; [lia|done].
  - rewrite Z.sub_diag. split; [done|lia].
Qed.

Lemma round_even_cases m l :
  round_nearest_even m l = m \/ (round_nearest_even m l = m + 1 /\ l <> loc_Exact).
Proof. destruct l as [|[]]; simpl; [auto| |auto|auto]. destruct (Z.even m); auto. Qed.

(** ** The bound *)

(** Dropping bits goes down. *)
Lemma shift_le M E c m e :
  E <= e -> m * 2 ^ (e - E) <= M -> le_int M E c -> le_int m e c.
Proof.
  intros He Hm (K & HK & HEK & H). exists K. split_and!; [done|lia|].
  etransitivity; [|exact H].
  replace (e + K) with (e - E + (E + K)) by lia. rewrite Z.pow_add_r by lia.
  pose proof (pow2_pos (E + K) HEK). nia.
Qed.

(** Rounding up an inexact shift stays below an integer of at most 53 bits. *)
Lemma shift_up_le M E c m e :
  0 < M -> 0 <= c < 2 ^ 53 -> le_int M E c -> 2 ^ (Zdigits2 M - 1) <= M ->
  e = Z.max E (fexp prec64 emax64 (Zdigits2 M + E)) ->
  m * 2 ^ (e - E) < M -> le_int (m + 1) e c.
Proof.
  intros HM Hc Hle Hd He Hm.
  destruct (Z.le_gt_cases e E) as [HeE|HeE].
  { apply (shift_le M E c); [lia| |done]. replace e with E in * by lia.
    rewrite Z.sub_diag in *. lia. }
  assert (Ee : e = Z.max (Zdigits2 M + E - 53) (- 1074)).
  { unfold fexp, emin, prec64, emax64 in He. lia. }
  destruct (Z.le_gt_cases e 0) as [He0|He0].
  - set (K := - E). pose proof (le_int_scale M E c K Hle ltac:(lia) ltac:(lia)) as H.
    exists K. split_and!; [lia|lia|]. replace (E + K) with 0 in H by lia.
    rewrite Z.mul_1_r in H. replace (e + K) with (e - E) by lia.
    replace (2 ^ K) with (2 ^ (- e) * 2 ^ (e - E)) in *
      by (rewrite <- Z.pow_add_r by lia; f_equal; lia).
    pose proof (pow2_pos (e - E) ltac:(lia)) as HP. rewrite Z.mul_assoc in *.
    apply Z.mul_le_mono_nonneg_r; [lia|].
    assert (m < c * 2 ^ (- e)) by (apply (Z.mul_lt_mono_pos_r (2 ^ (e - E))); lia). lia.
  - exfalso. replace (Zdigits2 M - 1) with (e - E + 52) in Hd by lia.
    set (K := Z.max 0 (- E)). pose proof (le_int_scale M E c K Hle ltac:(lia) ltac:(lia)) as H.
    assert (H1 : 2 ^ (e + K + 52) <= M * 2 ^ (E + K)).
    { replace (e + K + 52) with (e - E + 52 + (E + K)) by lia. rewrite Z.pow_add_r by lia.
      apply Z.mul_le_mono_nonneg_r; [apply Z.pow_nonneg; lia|done]. }
    assert (H2 : c * 2 ^ K < 2 ^ (53 + K)).
    { rewrite Z.pow_add_r by lia. apply Z.mul_lt_mono_pos_r; [apply pow2_pos; lia|lia]. }
    assert (2 ^ (53 + K) <= 2 ^ (e + K + 52)) by (apply Z.pow_le_mono_r; lia). lia.
Qed.

Lemma round_le M E c x :
  0 < M -> 0 <= c < 2 ^ 53 -> le_int M E c ->
  binary_round_aux prec64 emax64 false M E loc_Exact = x ->
  match x with
  | S754_zero s => s = false
  | S754_finite s m e => s = false /\ le_int (Z.pos m) e c
  | _ => False
  end.
Proof.
  intros HM Hc Hle. unfold binary_round_aux.
  destruct (shr_fexp prec64 emax64 M E loc_Exact) as [r e'] eqn:E1.
  apply shr_fexp_shifted in E1 as [(Hr0 & Hrb & Hre) He']; [|lia].
  set (m1 := round_nearest_even _ _).
  destruct (shr_fexp prec64 emax64 m1 e' loc_Exact) as [r2 e''] eqn:E2.
  assert (Hd : 2 ^ (Zdigits2 M - 1) <= M) by (destruct M; [lia|apply digits2_bounds|lia]).
  assert (Hm1 : 0 <= m1 /\ le_int m1 e' c).
  { destruct (round_even_cases (shr_m r) (loc_of_shr_record r)) as [Em|[Em Hx]]; fold m1 in Em;
      rewrite Em; (split; [lia|]).
    - apply (shift_le M E c (shr_m r) e'); [lia|lia|done].
    - apply (shift_up_le M E c (shr_m r) e'); try done. rewrite Hre in Hx.
      pose proof (Zle_lt_or_eq _ _ (proj1 Hrb)) as [?|?]; [done|]. by symmetry in H. }
  destruct Hm1 as [Hm0 Hm1]. clearbody m1.
  apply shr_fexp_shifted in E2 as [(Hr20 & Hr2b & _) He'']; [|done].
  assert (H2 : le_int (shr_m r2) e'' c) by (apply (shift_le m1 e' c); [lia|lia|done]).
  destruct (shr_m r2) as [|m2|m2]; [by intros <-| |lia].
  assert (He2 : e'' < 53).
  { destruct (Z.lt_ge_cases e'' 53) as [|Hge]; [done|]. exfalso.
    pose proof (le_int_scale _ _ _ 0 H2 ltac:(lia) ltac:(lia)) as H3. rewrite Z.add_0_r, Z.mul_1_r in H3.
    assert (2 ^ 53 <= 2 ^ e'') by (apply Z.pow_le_mono_r; lia). nia. }
  rewrite (proj2 (Z.leb_le _ _)) by (unfold emax64, prec64; lia). by intros <-.
Qed.

(** A double in [0, c]. *)
Definition within (c : Z) (x : double) : Prop :=
  match x with
  | S754_zero s => True
  | S754_finite s m e => s = false /\ le_int (Z.pos m) e c
  | _ => False
  end.

Lemma of_int_within c : 0 <= c < 2 ^ 53 -> within c (of_int c).
Proof.
  intros Hc. destruct c as [|p|p]; [done| |lia]. unfold of_int, binary_round.
  destruct (shl_align p 0 _) as [mz ez] eqn:E.
  assert (Hs : le_int (Z.pos mz) ez (Z.pos p)).
  { unfold shl_align in E. destruct (_ - 0) as [|d|d] eqn:Ed; injection E as <- <-.
    - exists 0. simpl. lia.
    - exists 0. simpl. lia.
    - set (f := fexp _ _ _) in *. exists (Z.pos d). split_and!; [lia|lia|].
      replace (f + Z.pos d) with 0 by lia. rewrite Z.mul_1_r.
      clear. revert p. induction d as [|d IH] using Pos.peano_ind; intros p.
      + simpl. lia.
      + rewrite Pos.iter_succ, Pos2Z.inj_succ, Z.pow_succ_r by lia. specialize (IH p).
        change (Z.pos (Pos.iter xO p d)~0) with (2 * Z.pos (Pos.iter xO p d)). lia. }
  pose proof (round_le (Z.pos mz) ez (Z.pos p) _ ltac:(lia) Hc Hs eq_refl) as H.
  by destruct (binary_round_aux _ _ _ _ _ _).
Qed.

(** Scaling by a factor in [0, 1]. *)
Lemma dmul_within c x j : 0 <= c < 2 ^ 53 -> within c x -> within 1 j -> within c (dmul x j).
Proof.
  intros Hc Hx Hj. destruct x as [sx| | |sx mx ex]; [by destruct j| done | done |].
  destruct j as [sj| | |sj mj ej]; [done|done|done|]. cbn [within] in Hx, Hj.
  destruct Hx as [-> Hx], Hj as [-> Hj]. unfold dmul, SFmul. cbn [xorb].
  assert (Hp : le_int (Z.pos (mx * mj)) (ex + ej) c).
  { destruct Hx as (K & HK & HeK & Hx), Hj as (L & HL & HeL & Hj).
    exists (K + L). split_and!; [lia|lia|]. rewrite Pos2Z.inj_mul.
    replace (ex + ej + (K + L)) with ((ex + K) + (ej + L)) by lia. rewrite !Z.pow_add_r by lia.
    pose proof (pow2_pos L HL). pose proof (pow2_pos K HK).
    pose proof (pow2_pos (ej + L) HeL). pose proof (pow2_pos (ex + K) HeK).
    replace (Z.pos mx * Z.pos mj * (2 ^ (ex + K) * 2 ^ (ej + L)))
      with ((Z.pos mx * 2 ^ (ex + K)) * (Z.pos mj * 2 ^ (ej + L))) by lia.
    rewrite Z.mul_1_l in Hj. rewrite (Z.pow_add_r 2 K L), (Z.mul_assoc c (2 ^ K) (2 ^ L)) by lia.
    apply Z.mul_le_mono_nonneg; [by apply Z.mul_nonneg_nonneg; [|apply Z.lt_le_incl]|exact Hx|by apply Z.mul_nonneg_nonneg; [|apply Z.lt_le_incl]|exact Hj]. }
  pose proof (round_le (Z.pos (mx * mj)) (ex + ej) c _ ltac:(lia) Hc Hp eq_refl) as H.
  by destruct (binary_round_aux _ _ _ _ _ _).
Qed.

(** ** Faithful rounding

    The magnitude of a double in units of 2^-1100, an integer for every double
    of this format. *)
Definition mag (x : double) : Z :=
  match x with S754_finite _ m e => Z.pos m * 2 ^ (e + 1100) | _ => 0 end.

(** [m] is one of the two multiples of [2^n] around [q], [q] itself when the
    shift is void and nothing was lost before. *)
Definition near (q n m : Z) : Prop :=
  (m - 1) * 2 ^ n <= q < (m + 1) * 2 ^ n.

Lemma shr_iter_bounds k : forall M n r,
  0 <= n -> 0 <= shr_m r -> shr_m r * 2 ^ n <= M < (shr_m r + 1) * 2 ^ n ->
  let r' := SpecFloat.iter_pos shr_1 k r in
  0 <= shr_m r' /\ shr_m r' * 2 ^ (n + Z.pos k) <= M < (shr_m r' + 1) * 2 ^ (n + Z.pos k).
Proof.
  induction k as [k IH|k IH|]; intros M n r Hn H0 H; cbn [SpecFloat.iter_pos] in *.
  - assert (H1 : 0 <= shr_m (shr_1 r)
      /\ shr_m (shr_1 r) * 2 ^ (n + 1) <= M < (shr_m (shr_1 r) + 1) * 2 ^ (n + 1)).
    { destruct r as [m a s]. destruct (shr_1_half m a s H0) as (q & b & -> & Hq & ->).
      cbn [shr_m] in *. rewrite Z.pow_add_r by lia. change (2 ^ 1) with 2.
      pose proof (pow2_pos n Hn). destruct b; simpl in *; nia. }
    destruct H1 as [H1 H2]. destruct (IH M (n + 1) (shr_1 r) ltac:(lia) H1 H2) as [H3 H4].
    destruct (IH M (n + 1 + Z.pos k) _ ltac:(lia) H3 H4) as [H5 H6].
    replace (n + Z.pos k~1) with (n + 1 + Z.pos k + Z.pos k) by lia. done.
  - destruct (IH M n r Hn H0 H) as [H3 H4].
    destruct (IH M (n + Z.pos k) _ ltac:(lia) H3 H4) as [H5 H6].
    replace (n + Z.pos k~0) with (n + Z.pos k + Z.pos k) by lia. done.
  - destruct r as [m a s]. destruct (shr_1_half m a s H0) as (q & b & -> & Hq & ->).
    cbn [shr_m] in *. rewrite Z.pow_add_r by lia. change (2 ^ 1) with 2.
    pose proof (pow2_pos n Hn). destruct b; simpl in *; nia.
Qed.

Lemma shr_fexp_bounds M E l r e' :
  0 <= M -> shr_fexp prec64 emax64 M E l = (r, e') ->
  e' = Z.max E (fexp prec64 emax64 (Zdigits2 M + E)) /\ 0 <= shr_m r
  /\ shr_m r * 2 ^ (e' - E) <= M < (shr_m r + 1) * 2 ^ (e' - E)
  /\ (e' = E -> shr_m r = M /\ loc_of_shr_record r = l).
Proof.
  intros HM. unfold shr_fexp. set (f := fexp _ _ _). unfold shr.
  assert (H0 : shr_m (shr_record_of_loc M l) = M /\ loc_of_shr_record (shr_record_of_loc M l) = l)
    by (by destruct l as [|[]]).
  destruct H0 as [H0 H1].
  destruct (f - E) as [|k|k] eqn:Ek; intros [= <- <-].
  - rewrite Z.sub_diag, H0. change (2 ^ 0) with 1. split_and!; try lia; done.
  - replace (E + Z.pos k - E) with (0 + Z.pos k) by lia.
    destruct (shr_iter_bounds k M 0 (shr_record_of_loc M l)) as [H2 H3]; rewrite ?H0; lia.
  - rewrite Z.sub_diag, H0. change (2 ^ 0) with 1. split_and!; try lia; done.
Qed.

Lemma fexp64 x : fexp prec64 emax64 x = Z.max (x - 53) (-1074).
Proof. done. Qed.

Lemma digits_lt p k : Z.pos p < 2 ^ k -> 0 <= k -> Z.pos (digits2_pos p) <= k.
Proof.
  intros H Hk. pose proof (digits2_bounds p) as [H1 _].
  destruct (Z.le_gt_cases (Z.pos (digits2_pos p)) k) as [|Hgt]; [done|].
  assert (2 ^ k <= 2 ^ (Z.pos (digits2_pos p) - 1)) by (apply Z.pow_le_mono_r; lia). lia.
Qed.

(** A mantissa of at most 53 bits, or 2^53, is renormalised exactly. *)
Lemma renormalize m e :
  0 < m <= 2 ^ 53 -> -1074 <= e <= 900 ->
  exists m' e', let '(r, e2) := shr_fexp prec64 emax64 m e loc_Exact in
    shr_m r = Z.pos m' /\ e2 = e' /\ e' <= 971 /\ Z.pos m' < 2 ^ 53 /\ (2 ^ 52 <= m -> 2 ^ 52 <= Z.pos m')
      /\ Z.pos m' * 2 ^ (e' + 1100) = m * 2 ^ (e + 1100).
Proof.
  intros Hm He. destruct (Z.eq_dec m (2 ^ 53)) as [->|Hne].
  - exists (2 ^ 52)%positive, (e + 1). unfold shr_fexp. rewrite fexp64.
    change (Zdigits2 (2 ^ 53)) with 54.
    replace (Z.max (54 + e - 53) (-1074) - e) with 1 by lia.
    change (shr _ _ _) with ({| shr_m := 2 ^ 52; shr_r := false; shr_s := false |}, e + 1).
    cbn [shr_m]. split_and!; [done|done|lia|done|done|].
    replace (e + 1 + 1100) with (1 + (e + 1100)) by lia. rewrite Z.pow_add_r by lia.
    change (2 ^ 53) with (2 ^ 52 * 2). change (Z.pos (2 ^ 52)) with (2 ^ 52). lia.
  - destruct m as [|p|p]; [lia| |lia]. exists p, e. unfold shr_fexp. rewrite fexp64.
    change (Zdigits2 (Z.pos p)) with (Z.pos (digits2_pos p)).
    pose proof (digits_lt p 53 ltac:(lia) ltac:(lia)) as Hd.
    destruct (Z.max _ _ - e) as [|k|k] eqn:Ek; [|lia|]; cbn [shr shr_record_of_loc shr_m]; split_and!; try done; lia.
Qed.

(** The rounding of a quotient [A / B] with integer part [q], in units of
    [2^E]. *)
Lemma round_near s q E l x :
  0 < q -> -1100 <= E -> Zdigits2 q + E <= 900 ->
  binary_round_aux prec64 emax64 s q E l = x ->
  let e := Z.max E (Z.max (Zdigits2 q + E - 53) (-1074)) in
  exists m, near q (e - E) m /\ 0 <= m /\ mag x = m * 2 ^ (e + 1100)
    /\ (e = E -> l = loc_Exact -> m = q)
    /\ (0 < m -> exists m' e', x = S754_finite s m' e' /\ -1100 <= e' /\ Z.pos m' < 2 ^ 53
        /\ (53 <= Zdigits2 q -> -1021 <= Zdigits2 q + E -> 2 ^ 52 <= Z.pos m')).
Proof.
  intros Hq HE Hd. unfold binary_round_aux.
  destruct (shr_fexp prec64 emax64 q E l) as [r e'] eqn:E1.
  apply shr_fexp_bounds in E1 as (He' & Hr0 & Hrb & Hre); [|lia]. rewrite fexp64 in He'.
  intros Hx. set (e := Z.max E (Z.max (Zdigits2 q + E - 53) (-1074))). assert (e' = e) as -> by (unfold e; lia). clear He'.
  set (m1 := round_nearest_even _ _) in *.
  assert (Hm : (m1 = shr_m r \/ m1 = shr_m r + 1) /\ (e = E -> l = loc_Exact -> m1 = q)).
  { split; [destruct (round_even_cases (shr_m r) (loc_of_shr_record r)) as [?|[? _]]; auto|].
    intros EE ->. destruct (Hre EE) as [Em El]. unfold m1. rewrite El, Em. done. }
  destruct Hm as [Hm Hexact].
  assert (HeE : 0 <= e - E) by (unfold e; lia). pose proof (pow2_pos _ HeE) as HP.
  assert (Hq53 : shr_m r < 2 ^ 53).
  { assert (Hqd : q < 2 ^ Zdigits2 q) by (destruct q; [lia|apply digits2_bounds|lia]).
    assert (H1 : 2 ^ Zdigits2 q <= 2 ^ 53 * 2 ^ (e - E)).
    { rewrite <- Z.pow_add_r by lia. apply Z.pow_le_mono_r; unfold e; lia. }
    apply (Z.mul_lt_mono_pos_r (2 ^ (e - E))); lia. }
  exists m1. split; [unfold near; destruct Hm as [->| ->]; lia|]. split; [lia|].
  destruct (Z.eq_dec m1 0) as [E0|E0].
  { assert (Hz : forall e2, shr_fexp prec64 emax64 0 e2 loc_Exact
      = ({| shr_m := 0; shr_r := false; shr_s := false |}, snd (shr_fexp prec64 emax64 0 e2 loc_Exact))).
    { intros e2. unfold shr_fexp, shr. destruct (fexp _ _ _ - e2) as [|k|k]; cbn [snd]; try done. f_equal.
      clear. induction k as [k IH|k IH|]; cbn [SpecFloat.iter_pos]; [|by rewrite !IH|done].
      change (shr_1 (shr_record_of_loc 0 loc_Exact)) with (shr_record_of_loc 0 loc_Exact).
      by rewrite !IH. }
    rewrite E0, Hz in Hx. cbn [shr_m] in Hx. subst x. cbn [mag]. rewrite E0. split_and!; [lia| |lia].
    intros EE El. rewrite <- (Hexact EE El). done. }
  assert (0 <= Zdigits2 q) by (by destruct q).
  destruct (renormalize m1 e) as (m' & e'' & Hn); [lia|unfold e; lia|].
  destruct (shr_fexp prec64 emax64 m1 e loc_Exact) as [r2 e2]. destruct Hn as (Hr2 & -> & He2 & Hm53 & Hm52 & Hv).
  rewrite Hr2 in Hx. rewrite (proj2 (Z.leb_le _ _)) in Hx by (unfold emax64, prec64; lia). subst x.
  cbn [mag]. split_and!; [done|done|]. intros _. exists m', e''. split; [done|]. split; [|split; [done|]].
  2:{ intros Hd53 Hd1. apply Hm52. apply Z.le_trans with (shr_m r); [|lia].
      assert (Hq1 : 2 ^ (Zdigits2 q - 1) <= q) by (destruct q; [lia|apply digits2_bounds|lia]).
      replace (Zdigits2 q - 1) with (52 + (e - E)) in Hq1 by (unfold e; lia).
      rewrite Z.pow_add_r in Hq1 by lia. apply Z.lt_succ_r, (Z.mul_lt_mono_pos_r (2 ^ (e - E))); lia. }
  destruct (Z.le_gt_cases (-1100) e'') as [|Hlt]; [done|]. exfalso.
  rewrite (Z.pow_neg_r 2 (e'' + 1100)) in Hv by lia.
  pose proof (pow2_pos (e + 1100) ltac:(unfold e; lia)). nia.
Qed.

(** ** Integers and seconds *)

Lemma digits_53 m : 2 ^ 52 <= Z.pos m < 2 ^ 53 -> Z.pos (digits2_pos m) = 53.
Proof.
  intros Hm. pose proof (digits_lt m 53 ltac:(lia) ltac:(lia)). pose proof (digits2_bounds m) as [_ H1].
  destruct (Z.le_gt_cases 53 (Z.pos (digits2_pos m))) as [|Hlt]; [lia|].
  assert (2 ^ Z.pos (digits2_pos m) <= 2 ^ 52) by (apply Z.pow_le_mono_r; lia). lia.
Qed.

Lemma round_normal s m e :
  2 ^ 52 <= Z.pos m < 2 ^ 53 -> -1074 <= e <= 900 ->
  binary_round_aux prec64 emax64 s (Z.pos m) e loc_Exact = S754_finite s m e.
Proof.
  intros Hm He. unfold binary_round_aux, shr_fexp. rewrite fexp64.
  change (Zdigits2 (Z.pos m)) with (Z.pos (digits2_pos m)). rewrite digits_53 by done.
  replace (Z.max (53 + e - 53) (-1074) - e) with 0 by lia. cbn [shr shr_record_of_loc shr_m].
  cbn [loc_of_shr_record round_nearest_even]. rewrite fexp64.
  change (Zdigits2 (Z.pos m)) with (Z.pos (digits2_pos m)). rewrite digits_53 by done.
  replace (Z.max (53 + e - 53) (-1074) - e) with 0 by lia. cbn [shr shr_m].
  by rewrite (proj2 (Z.leb_le _ _)) by (unfold emax64, prec64; lia).
Qed.

Lemma iter_xO p k : Z.pos (Pos.iter xO p k) = Z.pos p * 2 ^ Z.pos k.
Proof.
  induction k as [|k IH] using Pos.peano_ind.
  - simpl. lia.
  - rewrite Pos.iter_succ, Pos2Z.inj_succ, Z.pow_succ_r by lia.
    change (Z.pos (Pos.iter xO p k)~0) with (2 * Z.pos (Pos.iter xO p k)). lia.
Qed.

(** Mantissas of at most 53 bits are normalised exactly. *)
Lemma binary_round_exact s p e :
  Z.pos p < 2 ^ 53 -> -1000 <= e <= 800 ->
  exists m e', binary_round prec64 emax64 s p e = S754_finite s m e'
    /\ 2 ^ 52 <= Z.pos m < 2 ^ 53 /\ e - 52 <= e' <= e
    /\ Z.pos m * 2 ^ (e' + 1100) = Z.pos p * 2 ^ (e + 1100).
Proof.
  intros Hp He. pose proof (digits_lt p 53 Hp ltac:(lia)) as Hd. pose proof (digits2_bounds p) as Hb.
  set (d := Z.pos (digits2_pos p)) in *. assert (1 <= d) by (unfold d; lia).
  unfold binary_round. rewrite fexp64. fold d. replace (Z.max (d + e - 53) (-1074)) with (d + e - 53) by lia.
  destruct (53 - d) as [|k|k] eqn:Ek; [| |lia].
  - exists p, e. replace (d + e - 53) with e by lia. unfold shl_align. rewrite Z.sub_diag. cbv beta iota.
    replace d with 53 in Hb by lia. rewrite round_normal by lia. split_and!; try done; lia.
  - exists (Pos.iter xO p k), (d + e - 53). unfold shl_align. replace (d + e - 53 - e) with (Z.neg k) by lia.
    assert (Hm : 2 ^ 52 <= Z.pos (Pos.iter xO p k) < 2 ^ 53).
    { rewrite iter_xO. replace (2 ^ 52) with (2 ^ (d - 1) * 2 ^ Z.pos k)
        by (rewrite <- Z.pow_add_r by lia; f_equal; lia).
      replace (2 ^ 53) with (2 ^ d * 2 ^ Z.pos k) by (rewrite <- Z.pow_add_r by lia; f_equal; lia).
      pose proof (pow2_pos (Z.pos k) ltac:(lia)). split.
      - apply Z.mul_le_mono_nonneg_r; lia.
      - apply Z.mul_lt_mono_pos_r; lia. }
    cbv beta iota. rewrite round_normal by lia. split_and!; try done; try lia.
    rewrite iter_xO, <- Z.mul_assoc, <- Z.pow_add_r by lia. do 2 f_equal. lia.
Qed.

(** Integers of at most 53 bits are doubles. *)
Lemma of_int_exact c :
  0 < Z.abs c < 2 ^ 53 ->
  exists m e, of_int c = S754_finite (c <? 0) m e /\ 2 ^ 52 <= Z.pos m < 2 ^ 53 /\ -52 <= e <= 0
    /\ Z.pos m * 2 ^ (e + 1100) = Z.abs c * 2 ^ 1100.
Proof.
  intros Hc. destruct c as [|p|p]; [simpl in Hc; lia| |]; cbn [Z.abs] in *;
    apply (binary_round_exact _ p 0); lia.
Qed.

Definition thousand_m : positive := 8796093022208000.

Lemma of_int_1000 : of_int 1000 = S754_finite false thousand_m (-43).
Proof. by vm_compute. Qed.

(** Multiplying by 1000 rounds by at most 2^-52 of the product. *)
Lemma mul_1000 s m e :
  -200 <= e <= 100 -> Z.pos m <= 2 ^ 53 ->
  let x := S754_finite s m e in
  let y := dmul x (of_int 1000) in
  2 ^ 52 * Z.abs (mag y - 1000 * mag x) <= 1000 * mag x
  /\ (0 < mag y -> exists m' e', y = S754_finite s m' e' /\ -1100 <= e').
Proof.
  intros He Hm. cbv zeta. rewrite of_int_1000. unfold dmul, SFmul. rewrite xorb_false_r.
  set (q := Z.pos (m * thousand_m)).
  assert (Hq : q = 1000 * Z.pos m * 2 ^ 43) by (unfold q, thousand_m; rewrite Pos2Z.inj_mul; lia).
  assert (Hq0 : 0 < q) by (unfold q; lia).
  assert (Hd : 1 <= Zdigits2 q <= 106).
  { split; [unfold q; simpl; lia|]. unfold q. cbn [Zdigits2]. apply digits_lt; [|lia].
    fold q. rewrite Hq. change (2 ^ 106) with (2 ^ 53 * 2 ^ 53). lia. }
  destruct (round_near s q (e + -43) loc_Exact _ Hq0 ltac:(lia) ltac:(lia) eq_refl)
    as (mm & Hn & H0 & Hv & Hex & Hf).
  set (y := binary_round_aux _ _ _ _ _ _) in *. clearbody y.
  set (e1 := Z.max _ _) in *.
  assert (Hx : 1000 * mag (S754_finite s m e) = q * 2 ^ (e + -43 + 1100)).
  { cbn [mag]. rewrite Hq. replace (e + 1100) with (43 + (e + -43 + 1100)) by lia.
    rewrite Z.pow_add_r by lia. lia. }
  split.
  2:{ intros Hy. rewrite Hv in Hy. destruct (Hf ltac:(destruct (Z.eq_dec mm 0) as [->|]; lia))
        as (m' & e' & E & E' & _). eauto. }
  rewrite Hx, Hv. destruct (Z.eq_dec e1 (e + -43)) as [E|E].
  - rewrite (Hex E eq_refl), E, Z.sub_diag, Z.mul_0_r.
    apply Z.mul_nonneg_nonneg; [lia|apply Z.pow_nonneg; lia].
  - set (n := e1 - (e + -43)) in *. assert (Hnn : 0 < n) by lia.
    replace (e1 + 1100) with (n + (e + -43 + 1100)) by lia. rewrite (Z.pow_add_r 2 n) by lia.
    set (U := 2 ^ (e + -43 + 1100)). assert (HU : 0 < U) by (apply pow2_pos; lia).
    replace (mm * (2 ^ n * U) - q * U) with ((mm * 2 ^ n - q) * U) by lia.
    rewrite Z.abs_mul, (Z.abs_eq U), Z.mul_assoc by lia. apply Z.mul_le_mono_nonneg_r; [lia|].
    assert (H2n : 2 ^ 52 * 2 ^ n <= q).
    { rewrite <- Z.pow_add_r by lia. etransitivity; [|apply (digits2_bounds (m * thousand_m))].
      apply Z.pow_le_mono_r; [lia|]. unfold q in *. cbn [Zdigits2] in *. lia. }
    unfold near in Hn. pose proof (pow2_pos n ltac:(lia)). lia.
Qed.

(** Dividing by 1000 rounds by at most 2^-51 of the quotient. *)
Lemma div_1000 s m e :
  2 ^ 52 <= Z.pos m < 2 ^ 53 -> -52 <= e <= 0 ->
  let x := S754_finite s m e in
  let y := ddiv x (of_int 1000) in
  2 ^ 51 * Z.abs (1000 * mag y - mag x) <= mag x
  /\ (0 < mag y -> exists m' e', y = S754_finite s m' e' /\ -1100 <= e' /\ 2 ^ 52 <= Z.pos m' < 2 ^ 53).
Proof.
  intros Hm He. cbv zeta. rewrite of_int_1000. unfold ddiv, SFdiv. rewrite xorb_false_r.
  unfold SFdiv_core_binary. rewrite fexp64.
  change (Zdigits2 (Z.pos m)) with (Z.pos (digits2_pos m)). rewrite digits_53 by done.
  change (Zdigits2 (Z.pos thousand_m)) with 53.
  replace (Z.min (Z.max (53 + e - (53 + -43) - 53) (-1074)) (e - -43)) with (e - 10) by lia.
  replace (e - -43 - (e - 10)) with 53 by lia. rewrite Z.shiftl_mul_pow2 by lia.
  pose proof (Z_div_mod (Z.pos m * 2 ^ 53) (Z.pos thousand_m) ltac:(lia)) as Hdiv.
  destruct (Z.div_eucl _ _) as [q r]. destruct Hdiv as [HA Hr].
  set (B := Z.pos thousand_m) in *. assert (HB : B = 1000 * 2 ^ 43) by done. clearbody B.
  assert (Hq : 2 ^ 52 <= q < 2 ^ 54) by lia.
  destruct q as [|qp|qp]; [lia| |lia]. cbn [cond_Zopp] in *.
  destruct (round_near s (Z.pos qp) (e - 10) (new_location B r) _ ltac:(lia) ltac:(lia)
              ltac:(pose proof (digits_lt qp 54 ltac:(lia) ltac:(lia)); simpl; lia) eq_refl)
    as (mm & Hn & H0 & Hv & _ & Hf).
  set (y := binary_round_aux _ _ _ _ _ _) in *. clearbody y.
  pose proof (digits_lt qp 54 ltac:(lia) ltac:(lia)) as Hd. cbn [Zdigits2] in *.
  set (e1 := Z.max _ _) in *. set (n := e1 - (e - 10)) in *. assert (Hn1 : 0 <= n <= 1) by lia.
  split.
  2:{ intros Hy. rewrite Hv in Hy. destruct (Hf ltac:(destruct (Z.eq_dec mm 0) as [->|]; lia))
        as (m' & e' & E & E1 & E2 & E3). exists m', e'. split_and!; try done.
      assert (52 < Z.pos (digits2_pos qp)); [|apply E3; lia].
      apply (Z.pow_lt_mono_r_iff 2); [lia|lia|]. pose proof (digits2_bounds qp). lia. }
  set (U := 2 ^ (e - 10 + 1057)). assert (HU : 0 < U) by (apply pow2_pos; lia).
  assert (Hx : mag (S754_finite s m e) = Z.pos m * 2 ^ 53 * U).
  { cbn [mag]. unfold U. rewrite <- Z.mul_assoc, <- Z.pow_add_r by lia. do 2 f_equal. lia. }
  assert (Hy : 1000 * mag y = mm * 2 ^ n * B * U).
  { rewrite Hv, HB. replace (e1 + 1100) with (n + 43 + (e - 10 + 1057)) by lia.
    rewrite !Z.pow_add_r by lia. fold U. lia. }
  rewrite Hx, Hy. replace (mm * 2 ^ n * B * U - Z.pos m * 2 ^ 53 * U)
    with ((mm * 2 ^ n * B - Z.pos m * 2 ^ 53) * U) by lia.
  rewrite Z.abs_mul, (Z.abs_eq U), Z.mul_assoc by lia. apply Z.mul_le_mono_nonneg_r; [lia|].
  unfold near in Hn. assert (n = 0 \/ n = 1) as [En|En] by lia; rewrite En in *.
  - change (2 ^ 0) with 1 in *. nia.
  - change (2 ^ 1) with 2 in *. assert (2 ^ 53 <= Z.pos qp); [|nia].
    pose proof (digits2_bounds qp) as [Hl _]. etransitivity; [|exact Hl].
    apply Z.pow_le_mono_r; lia.
Qed.

Lemma llround_near s m e a :
  -1100 <= e -> 2 * Z.abs (Z.pos m * 2 ^ (e + 1100) - a * 2 ^ 1100) < 2 ^ 1100 ->
  llround (S754_finite s m e) = if s then - a else a.
Proof.
  intros He H. cbn [llround].
  assert (E : (if 0 <=? e then Z.pos m * 2 ^ e
               else (2 * Z.pos m + 2 ^ (- e)) / (2 * 2 ^ (- e))) = a); [|by rewrite E].
  destruct (Z.leb_spec 0 e) as [H0|H0].
  - rewrite Z.pow_add_r in H by lia. set (U := 2 ^ 1100) in *. assert (0 < U) by (by apply pow2_pos).
    clearbody U. nia.
  - replace (2 ^ 1100) with (2 ^ (- e) * 2 ^ (e + 1100)) in H
      by (rewrite <- Z.pow_add_r by lia; f_equal; lia).
    set (U := 2 ^ (e + 1100)) in *. assert (HU : 0 < U) by (apply pow2_pos; lia).
    set (P := 2 ^ (- e)) in *. assert (HP : 0 < P) by (apply pow2_pos; lia). clearbody U P.
    assert (H2 : 2 * Z.abs (Z.pos m - a * P) < P).
    { apply (Z.mul_lt_mono_pos_r U); [done|]. rewrite <- Z.mul_assoc, <- (Z.abs_eq U) at 1 by lia.
      rewrite <- Z.abs_mul. replace ((Z.pos m - a * P) * U) with (Z.pos m * U - a * (P * U)) by lia. lia. }
    symmetry. apply (Z.div_unique _ _ _ (2 * Z.pos m + P - a * (2 * P))); lia.
Qed.

Lemma mag_0_llround x : mag x = 0 -> (forall s m e, x = S754_finite s m e -> -1100 <= e) -> llround x = 0.
Proof.
  destruct x as [| | |s m e]; try done. intros H He. specialize (He s m e eq_refl). cbn [mag] in H.
  pose proof (pow2_pos (e + 1100) ltac:(lia)). nia.
Qed.

(** A double within 2^-1 of the integer, on the right side of zero. *)
Lemma llround_mag s a y :
  0 < a -> (0 < mag y -> exists m' e', y = S754_finite s m' e' /\ -1100 <= e') ->
  2 * Z.abs (mag y - a * 2 ^ 1100) < 2 ^ 1100 -> llround y = if s then - a else a.
Proof.
  intros Ha Hf H. assert (HU : 0 < 2 ^ 1100) by (by apply pow2_pos).
  set (U := 2 ^ 1100) in *. assert (Hy : 0 < mag y) by (clearbody U; nia).
  destruct (Hf Hy) as (m' & e' & -> & He). by apply llround_near.
Qed.

(** Seconds to milliseconds: exact integers, and the double nearest [ms / 1000]
    comes back to [ms]. *)
Lemma seconds_times_1000 c : Z.abs c < 2 ^ 38 -> llround (dmul (of_int c) (of_int 1000)) = c * 1000.
Proof.
  intros Hc. destruct (Z.eq_dec c 0) as [->|H0]; [by vm_compute|].
  destruct (of_int_exact c ltac:(lia)) as (m & e & -> & Hm & He & Hv).
  destruct (mul_1000 (c <? 0) m e ltac:(lia) ltac:(lia)) as [Herr Hf].
  rewrite (llround_mag (c <? 0) (Z.abs c * 1000)); [|lia|exact Hf|].
  - destruct (Z.ltb_spec c 0); lia.
  - cbn [mag] in Herr. rewrite Hv in Herr. assert (0 < 2 ^ 1100) by (by apply pow2_pos).
    set (U := 2 ^ 1100) in *. clearbody U. nia.
Qed.

Lemma epoch_seconds_shape ms :
  0 < Z.abs ms < 2 ^ 48 ->
  exists m e, epoch_seconds ms = S754_finite (ms <? 0) m e /\ 2 ^ 52 <= Z.pos m < 2 ^ 53
    /\ -200 <= e <= 100
    /\ 2 ^ 51 * Z.abs (1000 * (Z.pos m * 2 ^ (e + 1100)) - Z.abs ms * 2 ^ 1100) <= Z.abs ms * 2 ^ 1100.
Proof.
  intros Hc. unfold epoch_seconds. destruct (of_int_exact ms ltac:(lia)) as (m & e & -> & Hm & He & Hv).
  destruct (div_1000 (ms <? 0) m e Hm He) as [Hd Hf].
  set (y := ddiv _ _) in *. clearbody y. cbn [mag] in Hd. rewrite Hv in Hd.
  assert (HU : 2 ^ 1100 = 2 ^ 1088 * 2 ^ 12) by done.
  assert (HU0 : 0 < 2 ^ 1088) by (by apply pow2_pos).
  assert (Hy : 2 ^ 1088 < mag y < 2 ^ 48 * 2 ^ 1100).
  { rewrite HU in *. set (V := 2 ^ 1088) in *. clearbody V. nia. }
  destruct (Hf ltac:(lia)) as (m' & e' & -> & _ & Hm'). cbn [mag] in *.
  exists m', e'. split_and!; try done; try lia.
  - destruct (Z.le_gt_cases (-200) e') as [|Hlt]; [done|]. exfalso.
    assert (2 ^ (e' + 1100) <= 2 ^ 900) by (apply Z.pow_le_mono_r; lia).
    assert (2 ^ 53 * 2 ^ 900 < 2 ^ 1088) by done.
    assert (0 <= 2 ^ (e' + 1100)) by (apply Z.pow_nonneg; lia).
    assert (Z.pos m' * 2 ^ (e' + 1100) <= 2 ^ 53 * 2 ^ 900) by (apply Z.mul_le_mono_nonneg; lia). lia.
  - destruct (Z.le_gt_cases e' 100) as [|Hgt]; [done|]. exfalso.
    assert (2 ^ 1200 <= 2 ^ (e' + 1100)) by (apply Z.pow_le_mono_r; lia).
    assert (2 ^ 48 * 2 ^ 1100 < 2 ^ 1200) by done.
    assert (1 * 2 ^ (e' + 1100) <= Z.pos m' * 2 ^ (e' + 1100))
      by (apply Z.mul_le_mono_nonneg_r; [apply Z.pow_nonneg; lia|lia]). lia.
Qed.

Lemma epoch_seconds_ms ms : Z.abs ms < 2 ^ 48 -> llround (dmul (epoch_seconds ms) (of_int 1000)) = ms.
Proof.
  intros Hc. destruct (Z.eq_dec ms 0) as [->|H0]; [by vm_compute|].
  destruct (epoch_seconds_shape ms ltac:(lia)) as (m & e & -> & Hm & He & Hd).
  destruct (mul_1000 (ms <? 0) m e He ltac:(lia)) as [Herr Hf].
  rewrite (llround_mag (ms <? 0) (Z.abs ms)); [|lia|exact Hf|].
  - destruct (Z.ltb_spec ms 0); lia.
  - cbn [mag] in Herr. set (z := mag _) in *. clearbody z. clear Hf.
    set (x := Z.pos m * 2 ^ (e + 1100)) in *. clearbody x.
    assert (HU : 2 ^ 1100 = 2 ^ 1088 * 2 ^ 12) by done.
    assert (HU0 : 0 < 2 ^ 1088) by (by apply pow2_pos).
    rewrite HU in *. set (V := 2 ^ 1088) in *. clearbody V. clear HU Hm He. nia.
Qed.

(** ** Comparison *)

(** The signed value in units of 2^-1100. *)
Definition sval (x : double) : Z :=
  match x with S754_finite true m e => - (Z.pos m * 2 ^ (e + 1100)) | _ => mag x end.

Definition normal (x : double) : Prop :=
  match x with
  | S754_zero _ => True
  | S754_finite _ m e => 2 ^ 52 <= Z.pos m < 2 ^ 53 /\ -1100 <= e
  | _ => False
  end.

Lemma mag_exp_lt m e m' e' :
  Z.pos m < 2 ^ 53 -> 2 ^ 52 <= Z.pos m' -> -1100 <= e -> e < e' ->
  Z.pos m * 2 ^ (e + 1100) < Z.pos m' * 2 ^ (e' + 1100).
Proof.
  intros Hm Hm' He Hee. replace (e' + 1100) with (e' - e - 1 + 1 + (e + 1100)) by lia.
  rewrite (Z.pow_add_r 2 (e' - e - 1 + 1)), (Z.pow_add_r 2 (e' - e - 1)) by lia. change (2 ^ 1) with 2.
  pose proof (pow2_pos (e + 1100) ltac:(lia)) as H1. pose proof (pow2_pos (e' - e - 1) ltac:(lia)) as H2.
  rewrite Z.mul_assoc. apply Z.mul_lt_mono_pos_r; [done|].
  change (2 ^ 53) with (2 ^ 52 * 2) in Hm. nia.
Qed.

Lemma dlt_sval x y : normal x -> normal y -> dlt x y = (sval x <? sval y).
Proof.
  assert (Hpos : forall m e, -1100 <= e -> 0 < Z.pos m * 2 ^ (e + 1100)).
  { intros m e He. apply Z.mul_pos_pos; [lia|apply pow2_pos; lia]. }
  intros Hx Hy. unfold dlt, SFltb.
  destruct x as [sx| | |sx m e]; [|done|done|]; (destruct y as [sy| | |sy m' e']; [|done|done|]);
    cbn [normal] in *; cbn [SFcompare].
  - done.
  - destruct Hy as [_ He]. specialize (Hpos m' e' He). destruct sy; cbn [sval mag];
      symmetry; [apply Z.ltb_ge|apply Z.ltb_lt]; lia.
  - destruct Hx as [_ He]. specialize (Hpos m e He). destruct sx; cbn [sval mag];
      symmetry; [apply Z.ltb_lt|apply Z.ltb_ge]; lia.
  - destruct Hx as [Hm He], Hy as [Hm' He'].
    assert (Hlt : e < e' -> Z.pos m * 2 ^ (e + 1100) < Z.pos m' * 2 ^ (e' + 1100))
      by (apply mag_exp_lt; lia).
    assert (Hgt : e' < e -> Z.pos m' * 2 ^ (e' + 1100) < Z.pos m * 2 ^ (e + 1100))
      by (apply mag_exp_lt; lia).
    pose proof (Hpos m e He) as Hp. pose proof (Hpos m' e' He') as Hp'.
    assert (Hu : 0 < 2 ^ (e' + 1100)) by (apply pow2_pos; lia).
    destruct sx, sy; cbn [sval mag].
    + destruct (Z.compare_spec e e') as [->|H|H].
      * destruct (Pos.compare_cont Eq m m') eqn:Ec; cbn [CompOpp]; symmetry;
          change (Pos.compare_cont Eq m m') with (m ?= m')%positive in Ec;
          [apply Pos.compare_eq in Ec as ->|rewrite Pos.compare_lt_iff in Ec|rewrite Pos.compare_gt_iff in Ec];
          [apply Z.ltb_ge; lia|apply Z.ltb_ge; nia|apply Z.ltb_lt; nia].
      * symmetry. apply Z.ltb_ge. specialize (Hlt H). lia.
      * symmetry. apply Z.ltb_lt. specialize (Hgt H). lia.
    + symmetry. apply Z.ltb_lt. lia.
    + symmetry. apply Z.ltb_ge. lia.
    + destruct (Z.compare_spec e e') as [->|H|H].
      * destruct (Pos.compare_cont Eq m m') eqn:Ec; symmetry;
          change (Pos.compare_cont Eq m m') with (m ?= m')%positive in Ec;
          [apply Pos.compare_eq in Ec as ->|rewrite Pos.compare_lt_iff in Ec|rewrite Pos.compare_gt_iff in Ec];
          [apply Z.ltb_ge; lia|apply Z.ltb_lt; nia|apply Z.ltb_ge; nia].
      * symmetry. apply Z.ltb_lt. by apply Hlt.
      * symmetry. apply Z.ltb_ge. specialize (Hgt H). lia.
Qed.

Lemma of_int_normal c : Z.abs c < 2 ^ 53 -> normal (of_int c) /\ sval (of_int c) = c * 2 ^ 1100
  /\ is_finite (of_int c) = true.
Proof.
  intros Hc. destruct (Z.eq_dec c 0) as [->|H0]; [done|].
  destruct (of_int_exact c ltac:(lia)) as (m & e & -> & Hm & He & Hv). cbn [normal sval mag is_finite].
  split_and!; [lia|lia|lia| |done]. destruct (Z.ltb_spec c 0); lia.
Qed.

(** ** The checked factory *)

Lemma FromEpochSecondsChecked_in x ms :
  is_finite x = true -> normal x ->
  -62167219200 * 2 ^ 1100 <= sval x <= 253402300800 * 2 ^ 1100 ->
  llround (dmul x (of_int 1000)) = ms -> FromEpochSecondsChecked x = CheckedFromMs ms.
Proof.
  intros Hf Hn Hs <-. unfold FromEpochSecondsChecked. rewrite Hf. cbn [negb].
  destruct (of_int_normal (-62167219200) ltac:(lia)) as (N1 & V1 & _).
  destruct (of_int_normal 253402300800 ltac:(lia)) as (N2 & V2 & _).
  rewrite !dlt_sval, V1, V2 by done. rewrite !(proj2 (Z.ltb_ge _ _)) by lia. done.
Qed.

(** Whole seconds. *)
Lemma FromEpochSecondsChecked_int c :
  -62167219200 <= c <= 253402300800 -> FromEpochSecondsChecked (of_int c) = CheckedFromMs (c * 1000).
Proof.
  intros Hc. destruct (of_int_normal c ltac:(lia)) as (Hn & Hv & Hf).
  apply FromEpochSecondsChecked_in; [done|done| |apply seconds_times_1000; lia]. rewrite Hv.
  assert (0 < 2 ^ 1100) by (by apply pow2_pos). set (U := 2 ^ 1100) in *. clearbody U. nia.
Qed.

(** The double nearest [ms / 1000]. *)
Lemma FromEpochSecondsChecked_ms ms :
  kMinRepresentableMs <= ms <= kMaxRepresentableMs ->
  FromEpochSecondsChecked (epoch_seconds ms) = Ok ms.
Proof.
  unfold kMinRepresentableMs, kMaxRepresentableMs. intros Hms.
  destruct (Z.eq_dec ms 0) as [->|H0]; [by vm_compute|].
  destruct (Z.eq_dec ms kMinRepresentableMs) as [->|H1]; [by vm_compute|].
  unfold kMinRepresentableMs in H1.
  assert (Hok : CheckedFromMs ms = Ok ms).
  { unfold CheckedFromMs, kMinRepresentableMs, kMaxRepresentableMs.
    by rewrite Z.gtb_ltb, !(proj2 (Z.ltb_ge _ _)) by lia. }
  rewrite <- Hok. pose proof (epoch_seconds_ms ms ltac:(lia)) as Hr.
  destruct (epoch_seconds_shape ms ltac:(lia)) as (m & e & E & Hm & He & Hd). rewrite E in *.
  apply FromEpochSecondsChecked_in; [done| |clear Hr|done]; [cbn [normal]; lia|].
  assert (HU : 0 < 2 ^ 1100) by (by apply pow2_pos). set (U := 2 ^ 1100) in *. clearbody U.
  cbn [sval mag]. set (z := Z.pos m * 2 ^ (e + 1100)) in *. clearbody z. clear Hm He E Hok.
  assert (Hb : Z.abs ms * U <= (if ms <? 0 then 62167219199999 else 253402300799999) * U)
    by (apply Z.mul_le_mono_nonneg_r; [lia|destruct (Z.ltb_spec ms 0); lia]).
  set (V := Z.abs ms * U) in *. clearbody V. clear Hms H0 H1. destruct (ms <? 0); lia.
Qed.

(** ** Claims *)

(** epoch seconds keep milliseconds.  For every instant the runtime
    represents, [epoch_seconds()], a binary64 division, is turned back into
    exactly that instant by the range-checked factory, which multiplies and
    rounds in binary64; and whole seconds in range become exactly their
    milliseconds. *)
Theorem epoch_seconds_roundtrip :
  (forall ms, kMinRepresentableMs <= ms <= kMaxRepresentableMs ->
     FromEpochSecondsChecked (epoch_seconds ms) = Ok ms)
  /\ (forall c, -62167219200 <= c <= 253402300799 -> FromEpochSecondsChecked (of_int c) = Ok (c * 1000)).
Proof.
  split; [apply FromEpochSecondsChecked_ms|]. intros c Hc. rewrite FromEpochSecondsChecked_int by lia.
  unfold CheckedFromMs, kMinRepresentableMs, kMaxRepresentableMs.
  by rewrite Z.gtb_ltb, !(proj2 (Z.ltb_ge _ _)) by lia.
Qed.

Lemma epoch_seconds_roundtrip_witness : FromEpochSecondsChecked (epoch_seconds 1234567890123) = Ok 1234567890123.
Proof.
  exact (proj1 epoch_seconds_roundtrip 1234567890123
    ltac:(unfold kMinRepresentableMs, kMaxRepresentableMs; lia)).
Defined.

(** ** Equality of doubles *)

Lemma SFeqb_finite s m e x :
  SFeqb x (S754_finite s m e) = true -> x = S754_finite s m e.
Proof.
  unfold SFeqb. destruct x as [s'|s'| |s' m' e']; cbn [SFcompare]; try (by destruct s); try (by destruct s').
  destruct s', s; try done; destruct (Z.compare_spec e' e) as [->| |]; try done;
    change (Pos.compare_cont Eq m' m) with (m' ?= m)%positive;
    destruct (Pos.compare_spec m' m) as [->| |]; done.
Qed.
