(* ===== verification/Decimal.v ===== *)
(** Decimal text of binary64 numbers, as the C library's [snprintf] ("%.6f" and
    "%.15g" to "%.17g") and [strtod] convert it: both directions round to
    nearest, so seventeen significant digits determine a double. *)
From Stdlib Require Import ZArith Lia Strings.Byte.
From Stdlib Require Import Floats.SpecFloat.
From S2P Require Import Prelude Bytes Timestamp Doubles.

Local Open Scope Z_scope.

(** ** Printing *)

(** [n / d] rounded to nearest, ties to even. *)
Definition round_div (n d : Z) : Z :=
  let q := n / d in
  let r := n mod d in
  match 2 * r ?= d with
  | Lt => q
  | Eq => if Z.even q then q else q + 1
  | Gt => q + 1
  end.

(** [m * 2^e] is the decimal [coefficient * 10^exponent], exactly. *)
Definition coefficient (m e : Z) : Z := if 0 <=? e then m * 2 ^ e else m * 5 ^ (- e).
Definition exponent (e : Z) : Z := Z.min e 0.

(** The decimal [c * 10^x] in units of [10^p]. *)
Definition round_at (c x p : Z) : Z :=
  if p <=? x then c * 10 ^ (x - p) else round_div c (10 ^ (p - x)).

Definition minus (s : bool) : bytes := if s then lit "-" else [].

(** "%.6f". *)
Definition print_fixed (value : double) : bytes :=
  match value with
  | S754_nan => lit "nan"
  | S754_infinity s => minus s ++ lit "inf"
  | S754_zero s => minus s ++ lit "0.000000"
  | S754_finite s m e =>
    let n := round_at (coefficient (Z.pos m) e) (exponent e) (-6) in
    minus s ++ to_string (n / 10 ^ 6) ++ lit "." ++ pad_digits 6 (n mod 10 ^ 6)
  end.

(** A fraction without its trailing zeros, and without its point when nothing
    is left of it. *)
Definition fraction (digits : bytes) : bytes :=
  match rdrop_while (is_byte "0"%byte) digits with
  | [] => []
  | digits => lit "." ++ digits
  end.

(** The significant digits and the decimal exponent "%.{p}e" prints. *)
Definition significant (p : Z) (c x : Z) : Z * Z :=
  let first := len (to_string c) - 1 + x in
  let n := round_at c x (first - p + 1) in
  if n =? 10 ^ p then (10 ^ (p - 1), first + 1) else (n, first).

(** "%.{p}g". *)
Definition print_general (p : nat) (value : double) : bytes :=
  match value with
  | S754_nan => lit "nan"
  | S754_infinity s => minus s ++ lit "inf"
  | S754_zero s => minus s ++ lit "0"
  | S754_finite s m e =>
    let '(n, x) := significant (Z.of_nat p) (coefficient (Z.pos m) e) (exponent e) in
    let digits := pad_digits p n in
    minus s ++
    if (x <? -4) || (Z.of_nat p <=? x) then
      take 1 digits ++ fraction (drop 1 digits) ++ lit "e"
      ++ (if x <? 0 then lit "-" else lit "+")
      ++ (if Z.abs x <? 100 then pad_digits 2 (Z.abs x) else to_string (Z.abs x))
    else if x <? 0 then
      lit "0" ++ fraction (pad_digits (Z.to_nat (- x - 1)) 0 ++ digits)
    else take (Z.to_nat (x + 1)) digits ++ fraction (drop (Z.to_nat (x + 1)) digits)
  end.

(** ** Reading *)

(** The decimal [n * 10^x] correctly rounded. *)
Definition of_decimal (s : bool) (n x : Z) : double :=
  match n with
  | Zpos p =>
    if 0 <=? x then binary_round prec64 emax64 s (p * Z.to_pos (10 ^ x)) 0
    else SFdiv prec64 emax64 (S754_finite s p 0) (S754_finite false (Z.to_pos (10 ^ (- x))) 0)
  | _ => S754_zero s
  end.

(** [std::strtod] on what [snprintf] prints for a finite number: a sign,
    digits, a point and more digits, an exponent. *)
Definition strtod (text : bytes) : double :=
  let '(s, rest) := match text with "-"%byte :: r => (true, r) | _ => (false, text) end in
  let '(mantissa, power) := cut "e"%byte rest in
  let '(whole, frac) := cut "."%byte mantissa in
  let frac := default [] frac in
  let x := match power with
           | Some ("-"%byte :: digits) => - dec_value digits
           | Some ("+"%byte :: digits) => dec_value digits
           | Some digits => dec_value digits
           | None => 0
           end in
  of_decimal s (dec_value (whole ++ frac)) (x - len frac).

Definition tenth : double := ddiv (of_int 1) (of_int 10).

Example print_fixed_tenth : print_fixed tenth = lit "0.100000".
Proof. by vm_compute. Qed.
Example print_general_tenth : print_general 17 tenth = lit "0.10000000000000001".
Proof. by vm_compute. Qed.
Example print_general_15 : print_general 15 tenth = lit "0.1".
Proof. by vm_compute. Qed.
Example print_general_min : print_general 17 (S754_finite false 1 (-1074)) = lit "4.9406564584124654e-324".
Proof. by vm_compute. Qed.
Example print_general_million : print_general 15 (of_int (10 ^ 22)) = lit "1e+22".
Proof. by vm_compute. Qed.
Example print_general_max :
  print_general 17 (S754_finite true (2 ^ 53 - 1) 971) = lit "-1.7976931348623157e+308".
Proof. by vm_compute. Qed.
Example strtod_min : strtod (lit "4.9406564584124654e-324") = S754_finite false 1 (-1074).
Proof. by vm_compute. Qed.
Example strtod_max : strtod (lit "-1.7976931348623157e+308") = S754_finite true (2 ^ 53 - 1) 971.
Proof. by vm_compute. Qed.
Example strtod_tenth : strtod (lit "0.1") = tenth.
Proof. by vm_compute. Qed.

(** ** Correct rounding *)

(** A finite double as binary64 stores it. *)
Definition canonical (m e : Z) : Prop :=
  (2 ^ 52 <= m < 2 ^ 53 /\ -1074 <= e <= 971) \/ (0 < m < 2 ^ 52 /\ e = -1074).

(** [l] locates [A / B] between the integers [q] and [q + 1]. *)
Definition located (A B q : Z) (l : location) : Prop :=
  match l with
  | loc_Exact => A = q * B
  | loc_Inexact c => q * B < A < (q + 1) * B /\ (2 * (A - q * B) ?= B) = c
  end.

Lemma located_range A B q l : 0 < B -> located A B q l -> q * B <= A < (q + 1) * B.
Proof. destruct l; simpl; lia. Qed.

Lemma located_shr_1 A B r :
  0 < B -> 0 <= shr_m r -> located A B (shr_m r) (loc_of_shr_record r) ->
  0 <= shr_m (shr_1 r) /\ located A (B * 2) (shr_m (shr_1 r)) (loc_of_shr_record (shr_1 r)).
Proof.
  intros HB H0. destruct r as [m r s]. cbn [shr_m] in *.
  destruct (shr_1_half m r s H0) as (q & b & -> & Hq & ->). cbn [shr_m]. intros H. split; [done|].
  assert (Hc : forall c, located A B (2 * q + Z.b2z b) (loc_Inexact c) ->
    located A (B * 2) q (loc_Inexact (if b then Gt else Lt))).
  { intros c [H1 _]. simpl. split; [destruct b; simpl in *; nia|].
    destruct b; simpl in *; [apply Z.compare_gt_iff|apply Z.compare_lt_iff]; nia. }
  destruct r, s; simpl in H; cbn [loc_of_shr_record orb]; try (apply Hc in H; destruct b; exact H).
  subst A. destruct b; cbn [loc_of_shr_record Z.b2z]; simpl; [|lia].
  split; [nia|]. apply Z.compare_eq_iff. lia.
Qed.

Lemma located_iter k : forall A B r,
  0 < B -> 0 <= shr_m r -> located A B (shr_m r) (loc_of_shr_record r) ->
  let r' := SpecFloat.iter_pos shr_1 k r in
  0 <= shr_m r' /\ located A (B * 2 ^ Z.pos k) (shr_m r') (loc_of_shr_record r').
Proof.
  induction k as [k IH|k IH|]; intros A B r HB H0 H; cbn [SpecFloat.iter_pos].
  - destruct (located_shr_1 A B r HB H0 H) as [H1 H2].
    destruct (IH A (B * 2) _ ltac:(lia) H1 H2) as [H3 H4].
    destruct (IH A (B * 2 * 2 ^ Z.pos k) _ ltac:(pose proof (pow2_pos (Z.pos k)); nia) H3 H4) as [H5 H6].
    split; [done|]. replace (B * 2 ^ Z.pos k~1) with (B * 2 * 2 ^ Z.pos k * 2 ^ Z.pos k); [done|].
    replace (Z.pos k~1) with (1 + Z.pos k + Z.pos k) by lia. rewrite !Z.pow_add_r by lia. lia.
  - destruct (IH A B _ ltac:(lia) H0 H) as [H3 H4].
    destruct (IH A (B * 2 ^ Z.pos k) _ ltac:(pose proof (pow2_pos (Z.pos k)); nia) H3 H4) as [H5 H6].
    split; [done|]. replace (B * 2 ^ Z.pos k~0) with (B * 2 ^ Z.pos k * 2 ^ Z.pos k); [done|].
    replace (Z.pos k~0) with (Z.pos k + Z.pos k) by lia. rewrite !Z.pow_add_r by lia. lia.
  - by apply located_shr_1.
Qed.

Lemma located_shr_fexp A B q E l r e' :
  0 < B -> 0 <= q -> E <= fexp prec64 emax64 (Zdigits2 q + E) -> located A B q l ->
  shr_fexp prec64 emax64 q E l = (r, e') ->
  e' = fexp prec64 emax64 (Zdigits2 q + E)
  /\ 0 <= shr_m r /\ located A (B * 2 ^ (e' - E)) (shr_m r) (loc_of_shr_record r).
Proof.
  intros HB Hq HE Hl. unfold shr_fexp. set (f := fexp _ _ _) in *. unfold shr.
  assert (H0 : shr_m (shr_record_of_loc q l) = q /\ loc_of_shr_record (shr_record_of_loc q l) = l)
    by (by destruct l as [|[]]).
  destruct H0 as [H0 H1].
  destruct (f - E) as [|k|k] eqn:Ek; [| |lia]; intros [= <- <-].
  - rewrite Z.sub_diag, Z.mul_1_r, H0, H1. split; [lia|done].
  - replace (E + Z.pos k - E) with (Z.pos k) by lia. split; [lia|].
    apply (located_iter k A B); rewrite ?H0, ?H1; done.
Qed.

(** The nearest integer, when there is one strictly closer than the half. *)
Lemma located_nearest A B q l M :
  0 < B -> located A B q l -> 2 * Z.abs (A - M * B) < B -> round_nearest_even q l = M.
Proof.
  intros HB Hl HM. pose proof (located_range A B q l HB Hl) as Hr.
  assert (M = q \/ M = q + 1) as Hcase by nia.
  assert (0 <= A - q * B < B) as HD by lia.
  assert (M = q /\ 2 * (A - q * B) < B \/ M = q + 1 /\ B < 2 * (A - q * B)) as H'.
  { destruct Hcase as [-> | ->]; [left; lia|right].
    replace (A - (q + 1) * B) with (A - q * B - B) in HM by lia. lia. }
  destruct l as [|[]]; cbn [round_nearest_even located] in *.
  - lia.
  - destruct Hl as [_ Hc%Z.compare_eq_iff]. lia.
  - destruct Hl as [_ Hc]. change (2 * (A - q * B) < B) in Hc. lia.
  - destruct Hl as [_ Hc]. change (2 * (A - q * B) > B) in Hc. lia.
Qed.

Lemma Zdigits2_bounds q : 0 < q -> 2 ^ (Zdigits2 q - 1) <= q < 2 ^ Zdigits2 q.
Proof. destruct q as [|p|p]; try lia. intros _. apply digits2_bounds. Qed.

Lemma Zdigits2_unique q d : 2 ^ (d - 1) <= q < 2 ^ d -> 0 < d -> Zdigits2 q = d.
Proof.
  intros H Hd. pose proof (pow2_pos (d - 1) ltac:(lia)).
  pose proof (Zdigits2_bounds q ltac:(lia)) as H1.
  assert (Zdigits2 q - 1 < d) by (apply (Z.pow_lt_mono_r_iff 2); destruct q; simpl in *; lia).
  assert (d - 1 < Zdigits2 q) by (apply (Z.pow_lt_mono_r_iff 2); destruct q; simpl in *; lia). lia.
Qed.

(** [A / B * 2^E] is within half a unit of the seventeenth digit of
    [M * 2^e]. *)
Definition close (A B E M e : Z) : Prop :=
  2 * 10 ^ 16 * Z.abs (A * 2 ^ (E + 1100) - M * B * 2 ^ (e + 1100)) <= M * B * 2 ^ (e + 1100).

(** A close quotient has the exponent of the double, or the one below it at a
    power of two. *)
Lemma close_fexp A B q l E m e :
  0 < B -> 0 < q -> located A B q l -> canonical m e -> -1100 <= E -> close A B E m e ->
  let f := fexp prec64 emax64 (Zdigits2 q + E) in
  f = e \/ (f = e - 1 /\ m = 2 ^ 52).
Proof.
  intros HB Hq Hl Hc HE Hclose f. subst f. rewrite fexp64.
  pose proof (located_range A B q l HB Hl) as Hr. pose proof (Zdigits2_bounds q Hq) as Hd.
  assert (0 < Zdigits2 q) as Hd0 by (destruct q; simpl; lia). set (d := Zdigits2 q) in *.
  assert (He : -1074 <= e) by (destruct Hc; lia). assert (Hm : 0 < m < 2 ^ 53) by (destruct Hc; lia).
  unfold close in Hclose. pose proof (pow2_pos (E + 1100) ltac:(lia)) as HpE.
  pose proof (pow2_pos (e + 1100) ltac:(lia)) as Hpe.
  set (X := A * 2 ^ (E + 1100)) in *. set (V := m * B * 2 ^ (e + 1100)) in *.
  assert (HX1 : 2 ^ (d - 1) * B * 2 ^ (E + 1100) <= X) by (unfold X; apply Z.mul_le_mono_nonneg_r; nia).
  assert (HX2 : X < 2 ^ d * B * 2 ^ (E + 1100)) by (unfold X; apply Z.mul_lt_mono_pos_r; nia).
  replace (2 ^ (d - 1) * B * 2 ^ (E + 1100)) with (2 ^ (d - 1 + (E + 1100)) * B) in HX1
    by (rewrite Z.pow_add_r by lia; lia).
  replace (2 ^ d * B * 2 ^ (E + 1100)) with (2 ^ (d + (E + 1100)) * B) in HX2
    by (rewrite Z.pow_add_r by lia; lia).
  assert (Hup : X < 2 ^ (53 + (e + 1100)) * B).
  { rewrite Z.pow_add_r by lia. unfold V in Hclose. set (P := 2 ^ (e + 1100)) in *.
    assert (m * B * P <= (2 ^ 53 - 1) * (B * P)) by nia. lia. }
  assert (H1 : d - 1 + (E + 1100) < 53 + (e + 1100)) by (apply (Z.pow_lt_mono_r_iff 2); [lia|lia|nia]).
  destruct (Z.lt_ge_cases m (2 ^ 52)) as [Hsub|Hnorm]; [destruct Hc; lia|].
  assert (Hlow : 2 ^ (51 + (e + 1100)) * B < X).
  { rewrite Z.pow_add_r by lia. unfold V in Hclose. set (P := 2 ^ (e + 1100)) in *.
    assert (2 ^ 52 * (B * P) <= m * B * P) by nia. lia. }
  assert (H2 : 51 + (e + 1100) < d + (E + 1100)) by (apply (Z.pow_lt_mono_r_iff 2); [lia|lia|nia]).
  destruct (Z.eq_dec m (2 ^ 52)) as [->|Hne]; [lia|].
  assert (Hlow' : 2 ^ (52 + (e + 1100)) * B < X).
  { rewrite Z.pow_add_r by lia. unfold V in Hclose. set (P := 2 ^ (e + 1100)) in *.
    assert ((2 ^ 52 + 1) * (B * P) <= m * B * P <= 2 ^ 53 * (B * P)) by nia. lia. }
  assert (H3 : 52 + (e + 1100) < d + (E + 1100)) by (apply (Z.pow_lt_mono_r_iff 2); [lia|lia|nia]).
  left. lia.
Qed.

(** Below the least subnormal the quotient can be zero. *)
Lemma close_fexp_zero A B l m e :
  0 < B -> located A B 0 l -> canonical m e -> close A B (-1074) m e -> e = -1074.
Proof.
  intros HB Hl Hc Hclose. pose proof (located_range A B 0 l HB Hl) as Hr. unfold close in Hclose.
  destruct Hc as [[Hm He]|[_ ->]]; [|done]. exfalso.
  assert (2 ^ 26 <= 2 ^ (e + 1100)) by (apply Z.pow_le_mono_r; lia).
  replace (-1074 + 1100) with 26 in Hclose by done. set (P := 2 ^ (e + 1100)) in *.
  assert (2 ^ 52 * (B * P) <= m * (B * P)) by (apply Z.mul_le_mono_nonneg_r; nia).
  assert (B * 2 ^ 26 <= B * P) by (apply Z.mul_le_mono_nonneg_l; lia).
  rewrite <- Z.mul_assoc in Hclose.
  assert (A * 2 ^ 26 < B * 2 ^ 26) by lia. lia.
Qed.

Lemma canonical_fexp p e : canonical (Z.pos p) e -> fexp prec64 emax64 (Z.pos (digits2_pos p) + e) = e.
Proof.
  rewrite fexp64. intros [[Hm He]|[Hm ->]].
  - rewrite digits_53 by lia. lia.
  - pose proof (digits_lt p 52 ltac:(lia) ltac:(lia)). lia.
Qed.

(** The second normalisation of [binary_round_aux], of a mantissa that is the
    double's, or twice it at a power of two. *)
Lemma renormal p e f :
  canonical (Z.pos p) e -> f = e \/ (f = e - 1 /\ Z.pos p = 2 ^ 52) ->
  let '(r, e') := shr_fexp prec64 emax64 (Z.pos p * 2 ^ (e - f)) f loc_Exact in
  shr_m r = Z.pos p /\ e' = e.
Proof.
  intros Hc [->|[-> Ep]].
  - rewrite Z.sub_diag, Z.mul_1_r. unfold shr_fexp.
    change (Zdigits2 (Z.pos p)) with (Z.pos (digits2_pos p)). rewrite canonical_fexp by done.
    by rewrite Z.sub_diag.
  - rewrite Ep. replace (e - (e - 1)) with 1 by lia. unfold shr_fexp. rewrite fexp64.
    change (Zdigits2 (2 ^ 52 * 2 ^ 1)) with 54. assert (-1074 <= e) by (destruct Hc; lia).
    replace (Z.max (54 + (e - 1) - 53) (-1074) - (e - 1)) with 1 by lia.
    split; [done|cbn; lia].
Qed.

Lemma round_close s p q A B E e l :
  0 < B -> 0 < q \/ (q = 0 /\ E = -1074) -> located A B q l -> canonical (Z.pos p) e -> -1100 <= E ->
  E <= fexp prec64 emax64 (Zdigits2 q + E) -> close A B E (Z.pos p) e ->
  binary_round_aux prec64 emax64 s q E l = S754_finite s p e.
Proof.
  intros HB Hq Hl Hc HE Hf Hclose.
  assert (let f := fexp prec64 emax64 (Zdigits2 q + E) in f = e \/ (f = e - 1 /\ Z.pos p = 2 ^ 52)) as Hcase.
  { destruct Hq as [Hq|[-> ->]]; [by apply (close_fexp A B q l)|left].
    by rewrite (close_fexp_zero A B l _ e HB Hl Hc Hclose). }
  unfold binary_round_aux. destruct (shr_fexp prec64 emax64 q E l) as [r f] eqn:E1.
  destruct (located_shr_fexp A B q E l r f HB ltac:(lia) Hf Hl E1) as (-> & Hr0 & Hr).
  set (f := fexp _ _ _) in *. cbv zeta in Hcase. fold f in Hcase.
  assert (Hm : round_nearest_even (shr_m r) (loc_of_shr_record r) = Z.pos p * 2 ^ (e - f)).
  { assert (f <= e) as Hfe by (destruct Hcase as [?|[? _]]; lia).
    pose proof (pow2_pos (f - E) ltac:(lia)) as Hp1. pose proof (pow2_pos (E + 1100) ltac:(lia)) as Hp2.
    apply (located_nearest A (B * 2 ^ (f - E))); [nia|done|]. unfold close in Hclose.
    replace (Z.pos p * B * 2 ^ (e + 1100))
      with (Z.pos p * 2 ^ (e - f) * (B * 2 ^ (f - E)) * 2 ^ (E + 1100)) in Hclose.
    2: { replace (e + 1100) with (e - f + (f - E) + (E + 1100)) by lia.
         rewrite (Z.pow_add_r 2 (e - f + (f - E))), (Z.pow_add_r 2 (e - f)) by lia. lia. }
    rewrite <- Z.mul_sub_distr_r, Z.abs_mul, (Z.abs_eq (2 ^ (E + 1100))) in Hclose by lia.
    set (D := B * 2 ^ (f - E)) in *. assert (0 < D) by (unfold D; nia).
    assert (Z.pos p * 2 ^ (e - f) <= 2 ^ 53) as Hp.
    { destruct Hcase as [->|[-> ->]]; [rewrite Z.sub_diag; destruct Hc; lia|].
      replace (e - (e - 1)) with 1 by lia. lia. }
    set (m := Z.pos p * 2 ^ (e - f)) in *. apply (Z.mul_lt_mono_pos_r (2 ^ (E + 1100))); [done|].
    assert (m * D * 2 ^ (E + 1100) <= 2 ^ 53 * (D * 2 ^ (E + 1100))) by nia. nia. }
  rewrite Hm. pose proof (renormal p e f Hc Hcase) as Hn.
  destruct (shr_fexp _ _ (Z.pos p * _) f loc_Exact) as [r2 e2]. destruct Hn as [-> ->].
  rewrite (proj2 (Z.leb_le _ _)); [done|]. unfold emax64, prec64. destruct Hc; lia.
Qed.

Lemma located_div A B : 0 < B -> located A B (A / B) (new_location B (A mod B)).
Proof.
  intros HB. pose proof (Z.div_mod A B ltac:(lia)) as E. pose proof (Z.mod_pos_bound A B HB) as Hr.
  set (q := A / B) in *. set (r := A mod B) in *. clearbody q r. subst A.
  unfold new_location, new_location_even, new_location_odd.
  assert (Hin : forall c, 0 < r -> (2 * r ?= B) = c -> located (B * q + r) B q (loc_Inexact c)).
  { intros c H0 Hc. simpl. split; [lia|]. by replace (B * q + r - q * B) with r by lia. }
  destruct (Z.eq_dec r 0) as [->|Hne]; [destruct (Z.even B); simpl; lia|].
  assert (Hb : forall l l' : location, (if r =? 0 then l else l') = l')
    by (intros; by rewrite (proj2 (Z.eqb_neq r 0))).
  destruct (Z.even B) eqn:Ev.
  - rewrite Hb. by apply Hin; [lia|].
  - rewrite Hb. apply Hin; [lia|]. destruct (Z.compare_spec (2 * r + 1) B) as [H|H|H].
    + apply Z.compare_lt_iff. lia.
    + apply Z.compare_lt_iff. lia.
    + apply Z.compare_gt_iff. assert (2 * r <> B); [|lia]. intros <-.
      by rewrite Z.even_mul in Ev.
Qed.

Lemma close_shift A B E k m e :
  0 <= k -> -1100 <= E - k -> close A B E m e -> close (A * 2 ^ k) B (E - k) m e.
Proof.
  intros Hk HE. unfold close. replace (A * 2 ^ k * 2 ^ (E - k + 1100)) with (A * 2 ^ (E + 1100)); [done|].
  rewrite <- Z.mul_assoc, <- Z.pow_add_r by lia. do 2 f_equal. lia.
Qed.

(** [SFdiv]'s quotient has enough digits to be rounded once. *)
Lemma quotient_digits p d E :
  E <= fexp prec64 emax64 (Z.pos (digits2_pos p) - Z.pos (digits2_pos d)) -> -1074 <= E <= 0 ->
  let q := Z.pos p * 2 ^ (- E) / Z.pos d in
  (0 < q \/ (q = 0 /\ E = -1074)) /\ E <= fexp prec64 emax64 (Zdigits2 q + E).
Proof.
  set (D := Z.pos (digits2_pos p) - Z.pos (digits2_pos d)). intros HE HE0 q. rewrite fexp64 in *.
  assert (0 <= q) as Hq0 by (apply Z.div_pos; lia).
  assert (Hq : 0 < D - E -> 2 ^ (D - E - 1) <= q).
  { intros H. apply Z.div_le_lower_bound; [lia|].
    pose proof (digits2_bounds p) as [Hp _]. pose proof (digits2_bounds d) as [_ Hd].
    transitivity (2 ^ Z.pos (digits2_pos d) * 2 ^ (D - E - 1)).
    { apply Z.mul_le_mono_nonneg_r; [apply Z.pow_nonneg; lia|lia]. }
    transitivity (2 ^ (Z.pos (digits2_pos p) - 1) * 2 ^ (- E)).
    { rewrite <- !Z.pow_add_r by lia. apply Z.pow_le_mono_r; unfold D; lia. }
    apply Z.mul_le_mono_nonneg_r; [apply Z.pow_nonneg; lia|done]. }
  destruct (Z.eq_dec q 0) as [Hz|Hne].
  - rewrite Hz. destruct (Z.lt_ge_cases 0 (D - E)) as [H|H]; [|split; [right|]; simpl; lia].
    specialize (Hq H). pose proof (pow2_pos (D - E - 1) ltac:(lia)). lia.
  - split; [left; lia|]. pose proof (Zdigits2_bounds q ltac:(lia)) as [_ Hb].
    assert (0 < Zdigits2 q) by (destruct q; simpl; lia).
    assert (D - E <= Zdigits2 q); [|lia].
    destruct (Z.lt_ge_cases 0 (D - E)) as [H1|H1]; [|lia]. specialize (Hq H1).
    assert (D - E - 1 < Zdigits2 q); [|lia]. apply (Z.pow_lt_mono_r_iff 2); lia.
Qed.

Lemma div_close s p d m e :
  canonical (Z.pos m) e -> close (Z.pos p) (Z.pos d) 0 (Z.pos m) e ->
  SFdiv prec64 emax64 (S754_finite s p 0) (S754_finite false d 0) = S754_finite s m e.
Proof.
  intros Hc Hclose. cbn [SFdiv]. unfold SFdiv_core_binary. rewrite !Z.add_0_r. cbn [Zdigits2].
  rewrite (Z.sub_diag 0). set (E := Z.min (fexp _ _ _) 0). rewrite Z.sub_0_l.
  assert (HE0 : -1074 <= E <= 0) by (unfold E; rewrite fexp64; lia).
  destruct (quotient_digits p d E ltac:(unfold E; lia) HE0) as [Hq HEf].
  replace (match - E with Z0 => Z.pos p | Z.pos _ => Z.shiftl (Z.pos p) (- E) | Z.neg _ => 0 end)
    with (Z.pos p * 2 ^ (- E)).
  2: { rewrite <- Z.shiftl_mul_pow2 by lia. destruct (- E) eqn:E1; [done|done|lia]. }
  pose proof (located_div (Z.pos p * 2 ^ (- E)) (Z.pos d) ltac:(lia)) as Hl.
  destruct (Z.div_eucl (Z.pos p * 2 ^ (- E)) (Z.pos d)) as [q r] eqn:Ed.
  change (Z.pos p * 2 ^ (- E) / Z.pos d) with (fst (Z.div_eucl (Z.pos p * 2 ^ (- E)) (Z.pos d))) in *.
  change ((Z.pos p * 2 ^ (- E)) mod Z.pos d) with (snd (Z.div_eucl (Z.pos p * 2 ^ (- E)) (Z.pos d))) in Hl.
  rewrite Ed in *. cbn [fst snd] in *. rewrite xorb_false_r.
  apply (round_close s m q _ (Z.pos d) E e _ ltac:(lia) Hq Hl Hc ltac:(lia) HEf).
  pose proof (close_shift _ _ 0 (- E) _ _ ltac:(lia) ltac:(lia) Hclose) as H.
  by replace (0 - - E) with E in H by lia.
Qed.

Lemma binary_round_close s p m e :
  canonical (Z.pos m) e -> close (Z.pos p) 1 0 (Z.pos m) e ->
  binary_round prec64 emax64 s p 0 = S754_finite s m e.
Proof.
  intros Hc Hclose. unfold binary_round. set (f := fexp _ _ _). unfold shl_align.
  assert (-1074 <= f) by (unfold f; rewrite fexp64; lia).
  destruct (f - 0) as [|k|k] eqn:Ek.
  1-2: apply (round_close s m (Z.pos p) (Z.pos p) 1 0 e loc_Exact);
    [lia|left; lia|simpl; lia|done|lia|unfold f in *; cbn [Zdigits2]; lia|done].
  set (p' := Pos.iter xO p k). assert (Ep : Z.pos p' = Z.pos p * 2 ^ (- f)).
  { unfold p'. rewrite iter_xO. do 2 f_equal. lia. }
  apply (round_close s m (Z.pos p') (Z.pos p') 1 f e loc_Exact); [lia|left; lia|simpl; lia|done|lia| |].
  - cbn [Zdigits2]. assert (Ed : Z.pos (digits2_pos p') = Z.pos (digits2_pos p) - f).
    { change (Z.pos (digits2_pos p')) with (Zdigits2 (Z.pos p')). apply Zdigits2_unique; [|lia].
      pose proof (digits2_bounds p) as Hb. rewrite Ep.
      replace (Z.pos (digits2_pos p) - f - 1) with (Z.pos (digits2_pos p) - 1 + - f) by lia.
      replace (Z.pos (digits2_pos p) - f) with (Z.pos (digits2_pos p) + - f) by lia.
      rewrite !Z.pow_add_r by lia. pose proof (pow2_pos (- f) ltac:(lia)). nia. }
    rewrite Ed, Z.sub_add. unfold f at 1. rewrite Z.add_0_r. lia.
  - rewrite Ep. pose proof (close_shift _ _ 0 (- f) _ _ ltac:(lia) ltac:(lia) Hclose) as H'.
    by replace (0 - - f) with f in H' by lia.
Qed.

(** ** Decimals close to a double *)

(** The decimal [n * 10^x] as a fraction. *)
Definition numer (n x : Z) : Z := n * 10 ^ Z.max x 0.
Definition denom (x : Z) : Z := 10 ^ Z.max (- x) 0.

(** [n * 10^x] is within half a unit of the seventeenth digit of
    [c * 10^z], for [z <= 0]. *)
Definition dec_close (n x c z : Z) : Prop :=
  2 * 10 ^ 16 * Z.abs (numer n x * 10 ^ (- z) - c * denom x) <= c * denom x.

Lemma dec_close_close n x m e :
  -1100 <= e -> dec_close n x (coefficient m e) (exponent e) -> close (numer n x) (denom x) 0 m e.
Proof.
  intros He. unfold dec_close, close, coefficient, exponent. set (A := numer n x). set (B := denom x).
  rewrite Z.add_0_l. destruct (Z.leb_spec 0 e) as [H|H].
  - rewrite Z.min_r, Z.mul_1_r by lia. rewrite Z.pow_add_r by lia. intros Hd.
    replace (A * 2 ^ 1100 - m * B * (2 ^ e * 2 ^ 1100)) with ((A - m * 2 ^ e * B) * 2 ^ 1100) by lia.
    rewrite Z.abs_mul, (Z.abs_eq (2 ^ 1100)) by lia.
    replace (m * B * (2 ^ e * 2 ^ 1100)) with (m * 2 ^ e * B * 2 ^ 1100) by lia.
    rewrite Z.mul_assoc. apply Z.mul_le_mono_nonneg_r; [lia|done].
  - rewrite Z.min_l by lia. replace (10 ^ (- e)) with (2 ^ (- e) * 5 ^ (- e)) by (by rewrite <- Z.pow_mul_l).
    replace (2 ^ 1100) with (2 ^ (- e) * 2 ^ (e + 1100)) by (rewrite <- Z.pow_add_r by lia; f_equal; lia).
    pose proof (pow2_pos (e + 1100) ltac:(lia)) as H2. set (P := 2 ^ (e + 1100)) in *. set (Q := 2 ^ (- e)).
    assert (0 < 5 ^ (- e)) as H5 by (apply Z.pow_pos_nonneg; lia). set (F := 5 ^ (- e)) in *.
    replace (A * (Q * F) - m * F * B) with ((A * Q - m * B) * F) by lia.
    replace (A * (Q * P) - m * B * P) with ((A * Q - m * B) * P) by lia.
    rewrite !Z.abs_mul, (Z.abs_eq F), (Z.abs_eq P) by lia. intros Hd.
    rewrite Z.mul_assoc. apply Z.mul_le_mono_nonneg_r; [lia|].
    apply (Z.mul_le_mono_pos_r _ _ F); [done|]. lia.
Qed.

Lemma of_decimal_close s n x m e :
  canonical (Z.pos m) e -> 0 < n -> dec_close n x (coefficient (Z.pos m) e) (exponent e) ->
  of_decimal s n x = S754_finite s m e.
Proof.
  intros Hc Hn Hd. apply dec_close_close in Hd; [|destruct Hc; lia].
  destruct n as [|p|p]; [lia| |lia]. unfold of_decimal, numer, denom in *.
  destruct (Z.leb_spec 0 x) as [H|H].
  - rewrite (Z.max_l x), (Z.max_r (- x)) in Hd by lia. apply binary_round_close; [done|].
    rewrite Pos2Z.inj_mul, Z2Pos.id by (apply Z.pow_pos_nonneg; lia). exact Hd.
  - rewrite (Z.max_r x), (Z.max_l (- x)), Z.mul_1_r in Hd by lia. apply div_close; [done|].
    by rewrite Z2Pos.id by (apply Z.pow_pos_nonneg; lia).
Qed.

(** ** Seventeen digits *)

Lemma round_div_near n d : 0 < d -> 0 <= n ->
  0 <= round_div n d /\ 2 * Z.abs (round_div n d * d - n) <= d.
Proof.
  intros Hd Hn. unfold round_div. pose proof (Z.div_mod n d ltac:(lia)) as E.
  pose proof (Z.mod_pos_bound n d Hd) as Hr. pose proof (Z.div_pos n d Hn Hd) as Hq.
  set (q := n / d) in *. set (r := n mod d) in *. clearbody q r. subst n.
  destruct (Z.compare_spec (2 * r) d) as [H|H|H]; [destruct (Z.even q)| |]; split; try lia;
    try (replace (q * d - (d * q + r)) with (- r) by lia; lia);
    replace ((q + 1) * d - (d * q + r)) with (d - r) by lia; lia.
Qed.

Lemma dec_aux_bounds fuel z :
  0 < z < 2 ^ Z.of_nat fuel ->
  dec_aux fuel z [] <> [] /\ 10 ^ (len (dec_aux fuel z []) - 1) <= z < 10 ^ len (dec_aux fuel z []).
Proof.
  revert z. induction fuel as [|f IH]; intros z H; [simpl in H; lia|]. cbn [dec_aux].
  destruct (Z.ltb_spec z 10); [split; [done|]; change (len _) with 1; lia|].
  rewrite Nat2Z.inj_succ, Z.pow_succ_r in H by lia. rewrite dec_aux_acc.
  pose proof (Z.div_mod z 10 ltac:(lia)) as E. pose proof (Z.mod_pos_bound z 10 ltac:(lia)).
  destruct (IH (z / 10)) as [Hne Hb]; [split; [apply Z.div_str_pos; lia|apply Z.div_lt_upper_bound; lia]|].
  split; [by destruct (dec_aux f _ _)|]. rewrite len_app. change (len [_]) with 1. rewrite Z.add_simpl_r.
  assert (1 <= len (dec_aux f (z / 10) [])) by (destruct (dec_aux f _ _); [done|rewrite len_cons; pose proof (len_nonneg l); lia]).
  set (k := len (dec_aux f (z / 10) [])) in *. clearbody k. rewrite Z.pow_add_r by lia.
  replace (10 ^ k) with (10 ^ (k - 1) * 10) in * by (rewrite Z.mul_comm, <- Z.pow_succ_r by lia; f_equal; lia).
  lia.
Qed.

Lemma to_string_bounds c : 0 < c -> 10 ^ (len (to_string c) - 1) <= c < 10 ^ len (to_string c).
Proof.
  intros H. apply dec_aux_bounds. rewrite Nat2Z.inj_succ, Z2Nat.id by apply Z.log2_nonneg.
  split; [done|]. apply Z.log2_spec. done.
Qed.

Lemma numer_denom n x k :
  0 <= k -> exists r, 0 < r /\ numer (n * 10 ^ k) x = numer n (x + k) * r /\ denom x = denom (x + k) * r.
Proof.
  intros Hk. exists (10 ^ (Z.max (- x) 0 - Z.max (- (x + k)) 0)). unfold numer, denom.
  split; [apply Z.pow_pos_nonneg; lia|]. rewrite <- !Z.mul_assoc, <- !Z.pow_add_r by lia.
  split; [do 2 f_equal; lia|f_equal; lia].
Qed.

(** A decimal's trailing zeros do not matter. *)
Lemma dec_close_scale n x k c z : 0 <= k -> dec_close (n * 10 ^ k) x c z <-> dec_close n (x + k) c z.
Proof.
  intros Hk. destruct (numer_denom n x k Hk) as (r & Hr & En & Ed). unfold dec_close. rewrite En, Ed.
  set (A := numer n (x + k)). set (B := denom (x + k)). set (T := 10 ^ (- z)).
  replace (A * r * T - c * (B * r)) with ((A * T - c * B) * r) by lia.
  rewrite Z.abs_mul, (Z.abs_eq r) by lia.
  rewrite (Z.mul_le_mono_pos_r _ (c * B) r) by done. split; intros H; lia.
Qed.

Lemma dec_close_refl c z : 0 < c -> z <= 0 -> dec_close c z c z.
Proof.
  intros Hc Hz. unfold dec_close, numer, denom. rewrite (Z.max_r z), (Z.max_l (- z)), Z.mul_1_r by lia.
  rewrite Z.sub_diag. pose proof (Z.pow_pos_nonneg 10 (- z) ltac:(lia) ltac:(lia)). change (Z.abs 0) with 0. lia.
Qed.

(** Rounding [c] to seventeen digits. *)
Lemma round_at_close c z :
  let l := len (to_string c) in
  let n := round_at c z (l + z - 17) in
  0 < c -> z <= 0 -> 10 ^ 16 <= n <= 10 ^ 17 /\ dec_close n (l + z - 17) c z.
Proof.
  intros l n Hc Hz. subst n. pose proof (to_string_bounds c Hc) as Hb. fold l in Hb.
  assert (1 <= l) as Hl.
  { pose proof (to_string_nonempty c). unfold l. destruct (to_string c) as [|b s]; [done|].
    rewrite len_cons. pose proof (len_nonneg s). lia. }
  unfold round_at. destruct (Z.leb_spec (l + z - 17) z) as [H|H].
  - replace (z - (l + z - 17)) with (17 - l) by lia.
    assert (0 < 10 ^ (17 - l)) as Hp by (apply Z.pow_pos_nonneg; lia). split.
    + replace (10 ^ 16) with (10 ^ (l - 1) * 10 ^ (17 - l)) by (rewrite <- Z.pow_add_r by lia; f_equal; lia).
      replace (10 ^ 17) with (10 ^ l * 10 ^ (17 - l)) by (rewrite <- Z.pow_add_r by lia; f_equal; lia).
      split; apply Z.mul_le_mono_nonneg_r; lia.
    + apply dec_close_scale; [lia|]. replace (l + z - 17 + (17 - l)) with z by lia. by apply dec_close_refl.
  - replace (l + z - 17 - z) with (l - 17) by lia. set (d := 10 ^ (l - 17)).
    assert (0 < d) as Hd by (apply Z.pow_pos_nonneg; lia).
    destruct (round_div_near c d Hd ltac:(lia)) as [Hn0 Hn]. set (n := round_div c d) in *.
    replace (10 ^ (l - 1)) with (10 ^ 16 * d) in Hb by (unfold d; rewrite <- Z.pow_add_r by lia; f_equal; lia).
    replace (10 ^ l) with (10 ^ 17 * d) in Hb by (unfold d; rewrite <- Z.pow_add_r by lia; f_equal; lia).
    split; [split; nia|]. unfold dec_close, numer, denom. set (w := Z.max (- (l + z - 17)) 0).
    assert (0 < 10 ^ w) as Hw by (apply Z.pow_pos_nonneg; lia).
    replace (n * 10 ^ Z.max (l + z - 17) 0 * 10 ^ (- z)) with (n * d * 10 ^ w).
    2: { unfold d. rewrite <- !Z.mul_assoc, <- !Z.pow_add_r by lia. do 2 f_equal. lia. }
    rewrite <- Z.mul_sub_distr_r, Z.abs_mul, (Z.abs_eq (10 ^ w)), Z.mul_assoc by lia.
    apply Z.mul_le_mono_nonneg_r; lia.
Qed.

(** The seventeen digits of [c * 10^z]. *)
Lemma significant_close c z n x :
  0 < c -> z <= 0 -> significant 17 c z = (n, x) ->
  10 ^ 16 <= n < 10 ^ 17 /\ dec_close n (x - 16) c z.
Proof.
  intros Hc Hz. unfold significant. destruct (round_at_close c z Hc Hz) as [Hn Hclose].
  replace (len (to_string c) - 1 + z - 17 + 1) with (len (to_string c) + z - 17) by lia.
  set (n0 := round_at _ _ _) in *. destruct (Z.eqb_spec n0 (10 ^ 17)) as [E|E]; intros [= <- <-].
  - split; [lia|]. rewrite E in Hclose.
    replace (len (to_string c) - 1 + z + 1 - 16) with (len (to_string c) + z - 17 + 1) by lia.
    apply (dec_close_scale (10 ^ 16)); [lia|]. exact Hclose.
  - split; [lia|]. by replace (len (to_string c) - 1 + z - 16) with (len (to_string c) + z - 17) by lia.
Qed.

(** ** Reading back *)

Definition all_digits (s : bytes) : Prop := Forall (fun c => is_digit c = true) s.

Lemma dec_value_zeros s k : dec_value (s ++ replicate k "0"%byte) = dec_value s * 10 ^ Z.of_nat k.
Proof.
  induction k as [|k IH]; [rewrite app_nil_r; lia|].
  rewrite replicate_S_end, app_assoc, dec_value_snoc, IH, Nat2Z.inj_succ, Z.pow_succ_r by lia.
  change (digit_value "0"%byte) with 0. lia.
Qed.

Lemma dec_value_lead k s : dec_value (replicate k "0"%byte ++ s) = dec_value s.
Proof.
  unfold dec_value. rewrite fold_left_app. f_equal. induction k as [|k IH]; [done|exact IH].
Qed.

Lemma pad_zero k : pad_digits k 0 = replicate k "0"%byte.
Proof.
  induction k as [|k IH]; [done|]. rewrite replicate_S_end, <- IH. reflexivity.
Qed.

Lemma drop_zeros s : exists k, s = replicate k "0"%byte ++ drop_while (is_byte "0"%byte) s.
Proof.
  induction s as [|b s [k IH]]; [by exists 0%nat|]. cbn [drop_while].
  destruct (is_byte "0"%byte b) eqn:E; [|by exists 0%nat].
  apply is_byte_eq in E as ->. exists (S k). simpl. by f_equal.
Qed.

(** What is printed after the point. *)
Definition dotted (frac : bytes) : bytes := match frac with [] => [] | frac => lit "." ++ frac end.

Lemma fraction_spec frac : exists frac' k, frac = frac' ++ replicate k "0"%byte /\ fraction frac = dotted frac'.
Proof.
  destruct (drop_zeros (reverse frac)) as [k E]. exists (rdrop_while (is_byte "0"%byte) frac), k.
  split; [|unfold fraction, dotted; by destruct (rdrop_while _ _)]. unfold rdrop_while. apply (inj reverse).
  rewrite E at 1. by rewrite reverse_app, reverse_involutive, reverse_replicate.
Qed.

Lemma digit_neq c d : is_digit c = true -> is_digit d = false -> c <> d.
Proof. by intros H1 H2 ->; rewrite H2 in H1. Qed.

Lemma digits_notin s d : all_digits s -> is_digit d = false -> d ∉ s.
Proof. intros Hs Hd Hin. unfold all_digits in Hs. rewrite Forall_forall in Hs. specialize (Hs d Hin). congruence. Qed.

(** An exponent's text and value. *)
Inductive power_text : bytes -> Z -> Prop :=
| no_power : power_text [] 0
| power_minus s : power_text (lit "e-" ++ s) (- dec_value s)
| power_plus s : power_text (lit "e+" ++ s) (dec_value s).

Lemma strtod_text s whole frac epart x :
  whole <> [] -> all_digits whole -> all_digits frac -> power_text epart x ->
  strtod (minus s ++ whole ++ dotted frac ++ epart)
  = of_decimal s (dec_value (whole ++ frac)) (x - len frac).
Proof.
  intros Hne Hw Hf He. unfold strtod.
  assert (Hs : match minus s ++ whole ++ dotted frac ++ epart with
               | "-"%byte :: r => (true, r) | _ => (false, minus s ++ whole ++ dotted frac ++ epart) end
             = (s, whole ++ dotted frac ++ epart)).
  { destruct s; [done|]. destruct whole as [|c whole]; [done|]. inversion_clear Hw.
    simpl. by destruct c. }
  rewrite Hs. clear Hs. assert (Hm : "e"%byte ∉ whole ++ dotted frac).
  { rewrite elem_of_app. intros [H|H]; [by apply (digits_notin whole "e"%byte) in H|].
    destruct frac as [|c frac]; [by apply elem_of_nil in H|]. apply elem_of_cons in H as [|H]; [done|].
    by apply (digits_notin (c :: frac) "e"%byte) in H. }
  assert (Hc : cut "e"%byte (whole ++ dotted frac ++ epart)
               = (whole ++ dotted frac, match epart with [] => None | _ :: r => Some r end)).
  { rewrite app_assoc. inversion He; subst; simpl.
    - rewrite app_nil_r. by apply cut_none.
    - by apply cut_app.
    - by apply cut_app. }
  rewrite Hc. clear Hc Hm.
  assert (Hd : cut "."%byte (whole ++ dotted frac) = (whole, match frac with [] => None | _ => Some frac end)).
  { pose proof (digits_notin whole "."%byte Hw eq_refl). destruct frac; simpl; [|by apply cut_app].
    rewrite app_nil_r. by apply cut_none. }
  rewrite Hd. replace (default [] match frac with [] => None | _ => Some frac end) with frac by (by destruct frac).
  inversion He; subst; simpl; [|done|done]. by rewrite Z.sub_0_l.
Qed.

Lemma strtod_fraction s whole frac epart x m e :
  canonical (Z.pos m) e -> whole <> [] -> all_digits whole -> all_digits frac -> power_text epart x ->
  0 < dec_value (whole ++ frac) ->
  dec_close (dec_value (whole ++ frac)) (x - len frac) (coefficient (Z.pos m) e) (exponent e) ->
  strtod (minus s ++ whole ++ fraction frac ++ epart) = S754_finite s m e.
Proof.
  intros Hc Hne Hw Hf He H0 Hd. destruct (fraction_spec frac) as (frac' & k & -> & ->).
  unfold all_digits in Hf. rewrite Forall_app in Hf. destruct Hf as [Hf _].
  rewrite app_assoc, dec_value_zeros in H0, Hd. rewrite strtod_text with (x := x) by done.
  apply of_decimal_close; [done| |].
  - pose proof (Z.pow_pos_nonneg 10 (Z.of_nat k) ltac:(lia) ltac:(lia)). nia.
  - apply (dec_close_scale _ _ (Z.of_nat k)) in Hd; [|lia]. rewrite len_app in Hd.
    replace (len (replicate k "0"%byte)) with (Z.of_nat k) in Hd by (unfold len; by rewrite length_replicate).
    by replace (x - (len frac' + Z.of_nat k) + Z.of_nat k) with (x - len frac') in Hd by lia.
Qed.

Lemma power_text_general x :
  power_text (lit "e" ++ (if x <? 0 then lit "-" else lit "+")
              ++ (if Z.abs x <? 100 then pad_digits 2 (Z.abs x) else to_string (Z.abs x))) x.
Proof.
  set (d := if Z.abs x <? 100 then _ else _). assert (dec_value d = Z.abs x) as Hd.
  { unfold d. destruct (Z.ltb_spec (Z.abs x) 100).
    - apply pad_digits_spec. change (10 ^ Z.of_nat 2) with 100. lia.
    - apply to_string_spec. lia. }
  destruct (Z.ltb_spec x 0).
  - pose proof (power_minus d) as Hp. by replace (- dec_value d) with x in Hp by lia.
  - pose proof (power_plus d) as Hp. by replace (dec_value d) with x in Hp by lia.
Qed.

Lemma all_digits_pad n z : 0 <= z < 10 ^ Z.of_nat n -> all_digits (pad_digits n z).
Proof. intros H. by apply pad_digits_spec. Qed.

Lemma all_digits_take_drop n s : all_digits s -> all_digits (take n s) /\ all_digits (drop n s).
Proof. unfold all_digits. rewrite <- (take_drop n s) at 1. by rewrite Forall_app. Qed.

Lemma take_nonempty {A} n (l : list A) : (0 < n)%nat -> l <> [] -> take n l <> [].
Proof. destruct n, l; [lia|lia|done|done]. Qed.

(** Seventeen significant digits determine a finite double. *)
Lemma print_general_exact s m e :
  canonical (Z.pos m) e -> strtod (print_general 17 (S754_finite s m e)) = S754_finite s m e.
Proof.
  intros Hc. unfold print_general. change (Z.of_nat 17) with 17.
  destruct (significant 17 _ _) as [n x] eqn:E.
  assert (Hz : exponent e <= 0) by (unfold exponent; lia).
  assert (H0 : 0 < coefficient (Z.pos m) e).
  { unfold coefficient. destruct (Z.leb_spec 0 e); apply Z.mul_pos_pos; try lia; apply Z.pow_pos_nonneg; lia. }
  destruct (significant_close _ _ _ _ H0 Hz E) as [Hn Hclose].
  assert (Hr : 0 <= n < 10 ^ Z.of_nat 17) by (change (Z.of_nat 17) with 17; lia).
  destruct (pad_digits_spec 17 n Hr) as [Hv Hdig]. pose proof (length_pad_digits 17 n) as Hlen.
  set (digits := pad_digits 17 n) in *. fold (all_digits digits) in Hdig.
  assert (Hne : digits <> []) by (intros H; by rewrite H in Hlen).
  destruct ((x <? -4) || (17 <=? x)) eqn:Esci; [|apply orb_false_iff in Esci as [E1%Z.ltb_ge E2%Z.leb_gt];
    destruct (Z.ltb_spec x 0) as [Hx|Hx]].
  - destruct (all_digits_take_drop 1 digits Hdig) as [H1 H2].
    apply strtod_fraction with (x := x);
      [done|by apply take_nonempty; [lia|]|done|done|apply power_text_general| |].
    + rewrite take_drop. lia.
    + rewrite take_drop, Hv. unfold len. rewrite length_drop, Hlen. exact Hclose.
  - rewrite <- (app_nil_r (fraction _)). rewrite pad_zero.
    pose proof (dec_value_lead (S (Z.to_nat (- x - 1))) digits) as Hlead. rewrite Hv in Hlead.
    apply strtod_fraction with (x := 0); [done|done|by repeat constructor| |constructor| |].
    + apply Forall_app. split; [|done]. by apply Forall_replicate.
    + refine (eq_ind_r _ _ Hlead). lia.
    + refine (eq_ind_r (fun v => dec_close v _ _ _) _ Hlead).
      rewrite len_app. unfold len. rewrite length_replicate, Hlen.
      replace (0 - _) with (x - 16) by lia. exact Hclose.
  - destruct (all_digits_take_drop (Z.to_nat (x + 1)) digits Hdig) as [H1 H2].
    rewrite <- (app_nil_r (fraction _)). apply strtod_fraction with (x := 0);
      [done|by apply take_nonempty; [lia|]|done|done|constructor| |].
    + rewrite take_drop. lia.
    + rewrite take_drop, Hv. unfold len. rewrite length_drop, Hlen.
      replace (0 - _) with (x - 16) by lia. exact Hclose.
Qed.
