(* ===== verification/Headers.v ===== *)
(** http/headers.cc: the case-insensitive header collection, the list, media
    type and Accept helpers, the lenient HTTP-date parser of RFC 9110 and the
    outbound header-injection defense.  http/message.h's request and response
    records are here too. *)
From Stdlib Require Import ZArith Lia Strings.Byte.
From S2P Require Import Prelude Bytes Calendar Timestamp.

Local Open Scope Z_scope.

(** ** Names *)

Definition AsciiLower (c : Byte.byte) : Byte.byte :=
  if (65 <=? b2z c) && (b2z c <=? 90) then z2b (b2z c - 65 + 97) else c.

Definition lower (s : bytes) : bytes := map AsciiLower s.

(** [std::equal] with the case-insensitive comparison. *)
Fixpoint equal_lower (a b : bytes) : bool :=
  match a, b with
  | [], _ => true
  | x :: a', y :: b' => byte_eqb (AsciiLower x) (AsciiLower y) && equal_lower a' b'
  | _ :: _, [] => false
  end.

Definition HeaderNameEquals (a b : bytes) : bool := (len a =? len b) && equal_lower a b.

Definition HeaderNameStartsWith (name prefix : bytes) : bool :=
  (len prefix <=? len name) && equal_lower prefix name.

(** ** The collection *)

Abbreviation Headers := (list (bytes * bytes)).

Fixpoint Get (name : bytes) (h : Headers) : option bytes :=
  match h with
  | [] => None
  | (key, value) :: h' => if HeaderNameEquals key name then Some value else Get name h'
  end.

Definition GetAll (name : bytes) (h : Headers) : list bytes :=
  snd <$> filter (fun e => HeaderNameEquals (fst e) name = true) h.

Definition Has (name : bytes) (h : Headers) : bool :=
  match Get name h with Some _ => true | None => false end.

Definition Remove (name : bytes) (h : Headers) : Headers :=
  filter (fun e => HeaderNameEquals (fst e) name = false) h.

Definition Add (name value : bytes) (h : Headers) : Headers := h ++ [(name, value)].

Definition Set_ (name value : bytes) (h : Headers) : Headers := Add name value (Remove name h).

(** http/message.h. *)
Record HttpRequest := mkRequest {
  rq_method : bytes;
  rq_target : bytes;
  rq_headers : Headers;
  rq_body : bytes;
  rq_peer_address : bytes
}.

Record HttpResponse := mkResponse {
  rs_status : Z;
  rs_headers : Headers;
  rs_body : bytes;
  rs_operation : bytes
}.

(** ** Values *)

Definition is_blank (c : Byte.byte) : bool := byte_eqb c " "%byte || byte_eqb c "009"%byte.

Definition TrimSpaces (text : bytes) : bytes := rdrop_while is_blank (drop_while is_blank text).

(** One media range of an Accept header. *)
Definition range_accepts (content_type expected_type piece : bytes) : bool :=
  let range := TrimSpaces (fst (cut ";"%byte piece)) in
  bytes_eqb range (lit "*/*") || HeaderNameEquals range content_type
  || ((len range >? 2) && bytes_eqb (drop (length range - 2) range) (lit "/*")
      && HeaderNameEquals (take (length range - 2) range) expected_type).

Definition AcceptMatches (accept_header content_type : bytes) : bool :=
  let expected_type := fst (cut "/"%byte content_type) in
  existsb (range_accepts content_type expected_type) (pieces false ","%byte accept_header).

Definition SplitHeaderListValues (value : bytes) : list bytes :=
  TrimSpaces <$> match value with [] => [[]] | _ => pieces true ","%byte value end.

Definition MediaTypeOf (content_type : bytes) : bytes :=
  lower (TrimSpaces (fst (cut ";"%byte content_type))).

(** The pairing loop of [SplitHttpDateHeaderValues]. *)
Fixpoint rejoin_dates (tokens : list bytes) : list bytes :=
  match tokens with
  | a :: b :: tokens' => (a ++ lit ", " ++ b) :: rejoin_dates tokens'
  | [a] => match a with [] => [] | _ => [a] end
  | [] => []
  end.

Definition SplitHttpDateHeaderValues (value : bytes) : list bytes :=
  rejoin_dates (SplitHeaderListValues value).

(** ** Outbound safety *)

Definition ValidHeaderName (name : bytes) : bool :=
  negb (len name =? 0)
  && forallb (fun c => negb ((b2z c <=? 32) || (b2z c =? 127) || byte_eqb c ":"%byte)) name.

Definition ValidHeaderValue (value : bytes) : bool :=
  forallb (fun c => (b2z c =? 9) || ((32 <=? b2z c) && negb (b2z c =? 127))) value.

Fixpoint FindUnsafeHeader (h : Headers) : option bytes :=
  match h with
  | [] => None
  | (name, value) :: h' =>
    if negb (ValidHeaderName name) || negb (ValidHeaderValue value) then Some name
    else FindUnsafeHeader h'
  end.

Definition ValidRequestLineField (field : bytes) : bool :=
  forallb (fun c => negb ((b2z c <=? 32) || (b2z c =? 127))) field.

(** ** HTTP dates *)

Definition kAbbreviatedDays : list bytes := kWeekdays.
Definition kFullDays : list bytes := Eval vm_compute in
  [lit "Sunday"; lit "Monday"; lit "Tuesday"; lit "Wednesday"; lit "Thursday"; lit "Friday";
   lit "Saturday"].

Definition AllDigits (text : bytes) : bool := negb (len text =? 0) && forallb is_digit text.

(** [from_chars] on all-digit text that fits an int, as the callers ensure. *)
Definition ParseInt (text : bytes) : option Z :=
  if AllDigits text then (if dec_value text <? 2 ^ 31 then Some (dec_value text) else None)
  else None.

Definition ReferenceYear (reference : Z) : Z :=
  let rendered := Format reference kDateTime in
  if len rendered <? 4 then -1
  else
    let year := take 4 rendered in
    if AllDigits year then default (-1) (ParseInt year) else -1.

Definition int_text (z : Z) : bytes :=
  if z <? 0 then "-"%byte :: to_string (- z) else to_string z.

Definition ResolveTwoDigitYear (two_digits reference_year : Z) : bytes :=
  let century := Z.quot reference_year 100 * 100 in
  let year := century + two_digits in
  let year := if year >? reference_year + 50 then year - 100 else year in
  zero_pad 4 (int_text year).

(** The day-name loop: its index, the size when absent. *)
Fixpoint day_index (days : list bytes) (name : bytes) : nat :=
  match days with
  | [] => O
  | d :: days' => if bytes_eqb d name then O else S (day_index days' name)
  end.

Definition Rfc850AsFixdate (text : bytes) (reference : Z) : bytes :=
  match cut ","%byte text with
  | (_, None) => []
  | (name, Some rest) =>
    let day := day_index kFullDays name in
    if (day =? 7)%nat then []
    else if negb (length rest =? 23)%nat || negb (char_is rest 0 " "%byte)
            || negb (char_is rest 3 "-"%byte) || negb (char_is rest 7 "-"%byte)
            || negb (char_is rest 10 " "%byte) || negb (bytes_eqb (drop 19 rest) (lit " GMT"))
    then []
    else
      let day_of_month := substr 1 2 rest in
      let month := substr 4 3 rest in
      let two_digit_year := substr 8 2 rest in
      let time_of_day := substr 11 8 rest in
      if negb (AllDigits day_of_month) || negb (AllDigits two_digit_year) then []
      else
        let reference_year := ReferenceYear reference in
        match ParseInt two_digit_year with
        | Some year_digits =>
          if reference_year <? 0 then []
          else
            nth day kAbbreviatedDays [] ++ lit ", " ++ day_of_month ++ " "%byte :: month
            ++ " "%byte :: ResolveTwoDigitYear year_digits reference_year ++ " "%byte
            :: time_of_day ++ lit " GMT"
        | None => []
        end
  end.

Definition AsctimeAsFixdate (text : bytes) : bytes :=
  if negb (length text =? 24)%nat || negb (char_is text 3 " "%byte)
     || negb (char_is text 7 " "%byte) || negb (char_is text 10 " "%byte)
     || negb (char_is text 19 " "%byte)
  then []
  else
    let day := day_index kAbbreviatedDays (substr 0 3 text) in
    if (day =? 7)%nat then []
    else
      let month := substr 4 3 text in
      let time_of_day := substr 11 8 text in
      let year := substr 20 4 text in
      let day_of_month := if char_is text 8 " "%byte then "0"%byte :: substr 9 1 text
                          else substr 8 2 text in
      if negb (AllDigits day_of_month) || negb (AllDigits year) then []
      else
        nth day kAbbreviatedDays [] ++ lit ", " ++ day_of_month ++ " "%byte :: month
        ++ " "%byte :: year ++ " "%byte :: time_of_day ++ lit " GMT".

Definition ParseHttpDate (text : bytes) (reference : Z) : option Z :=
  match Timestamp.ParseHttpDate text with
  | Ok t => Some t
  | Err _ =>
    let normalized := Rfc850AsFixdate text reference in
    let normalized := match normalized with [] => AsctimeAsFixdate text | _ => normalized end in
    match normalized with
    | [] => None
    | _ => match Timestamp.ParseHttpDate normalized with Ok t => Some t | Err _ => None end
    end
  end.

Example http_date_forms :
  map (fun s => ParseHttpDate s 1700000000000)
    [lit "Sun, 06 Nov 1994 08:49:37 GMT"; lit "Sunday, 06-Nov-94 08:49:37 GMT";
     lit "Sun Nov  6 08:49:37 1994"; lit "Sun Nov 06 08:49:37 94"]
  = [Some 784111777000; Some 784111777000; Some 784111777000; None].
Proof. by vm_compute. Qed.
Example accept_example :
  AcceptMatches (lit "text/html;q=0.9, APPLICATION/*") (lit "application/json") = true.
Proof. by vm_compute. Qed.

(** ** Case-insensitive names *)

Lemma equal_lower_iff a b :
  length a = length b -> equal_lower a b = true <-> lower a = lower b.
Proof.
  revert b. induction a as [|x a IH]; intros [|y b] Hl; simpl in *; try done.
  injection Hl as Hl. rewrite andb_true_iff, byte_eqb_eq, IH by done.
  unfold lower. simpl. split; [intros [-> ->]; done|]. intros H. injection H as H1 H2. done.
Qed.

Lemma HeaderNameEquals_iff a b : HeaderNameEquals a b = true <-> lower a = lower b.
Proof.
  unfold HeaderNameEquals, len. rewrite andb_true_iff, Z.eqb_eq, Nat2Z.inj_iff. split.
  - intros [Hl H]. by apply equal_lower_iff.
  - intros H. assert (Hl : length a = length b).
    { apply (f_equal length) in H. unfold lower in H. by rewrite !length_map in H. }
    split; [done|]. by apply equal_lower_iff.
Qed.

(** Names up to case. *)
Definition name_equiv (a b : bytes) : Prop := HeaderNameEquals a b = true.

#[global] Instance name_equiv_equivalence : Equivalence name_equiv.
Proof.
  unfold name_equiv. split; intros ?; setoid_rewrite HeaderNameEquals_iff; congruence.
Qed.

#[global] Instance HeaderNameEquals_proper :
  Proper (name_equiv ==> name_equiv ==> eq) HeaderNameEquals.
Proof.
  unfold name_equiv. intros a a' Ha b b' Hb. apply HeaderNameEquals_iff in Ha, Hb.
  apply Bool.eq_iff_eq_true. rewrite !HeaderNameEquals_iff. by rewrite Ha, Hb.
Qed.

#[global] Instance Get_proper : Proper (name_equiv ==> eq ==> eq) Get.
Proof.
  intros a b Hab h ? <-. induction h as [|[k v] h IH]; simpl; [done|]. by rewrite Hab, IH.
Qed.

#[global] Instance Remove_proper : Proper (name_equiv ==> eq ==> eq) Remove.
Proof.
  intros a b Hab h ? <-. unfold Remove. apply list_filter_iff. intros e. by rewrite Hab.
Qed.

Lemma Get_Remove name name' h :
  Get name (Remove name' h) = if HeaderNameEquals name' name then None else Get name h.
Proof.
  unfold Remove. induction h as [|[k v] h IH].
  { by destruct (HeaderNameEquals name' name). }
  rewrite filter_cons. cbn [fst Get]. case_decide as Hd; cbn [Get]; rewrite IH.
  - destruct (HeaderNameEquals name' name) eqn:E; [|done].
    assert (Hk : HeaderNameEquals k name = false); [|by rewrite Hk].
    rewrite <- Hd. symmetry. by apply HeaderNameEquals_proper.
  - destruct (HeaderNameEquals name' name) eqn:E; [done|].
    assert (Hk : HeaderNameEquals k name = false); [|by rewrite Hk].
    rewrite <- E. apply not_false_is_true in Hd. by apply HeaderNameEquals_proper.
Qed.

Lemma Get_app name h h' :
  Get name (h ++ h') = match Get name h with Some v => Some v | None => Get name h' end.
Proof.
  induction h as [|[k v] h IH]; simpl; [done|]. by destruct (HeaderNameEquals k name).
Qed.

Lemma Get_Set name name' v h :
  Get name (Set_ name' v h) = if HeaderNameEquals name' name then Some v else Get name h.
Proof.
  unfold Set_, Add. rewrite Get_app, Get_Remove. simpl.
  destruct (HeaderNameEquals name' name); [done|]. by destruct (Get name h).
Qed.

Lemma GetAll_app name h h' : GetAll name (h ++ h') = GetAll name h ++ GetAll name h'.
Proof. unfold GetAll. by rewrite filter_app, fmap_app. Qed.

Lemma GetAll_Remove name name' h :
  GetAll name (Remove name' h) = if HeaderNameEquals name' name then [] else GetAll name h.
Proof.
  unfold GetAll, Remove. induction h as [|[k v] h IH].
  { by destruct (HeaderNameEquals name' name). }
  rewrite !filter_cons. cbn [fst]. case_decide as Hd.
  - rewrite filter_cons. cbn [fst]. destruct (HeaderNameEquals name' name) eqn:E.
    + rewrite decide_False; [done|]. intros Hk. rewrite <- Hd in *.
      assert (Hc : HeaderNameEquals k name' = true).
      { apply HeaderNameEquals_iff in Hk, E. apply HeaderNameEquals_iff. congruence. }
      congruence.
    + case_decide; by rewrite ?fmap_cons, IH.
  - rewrite IH. destruct (HeaderNameEquals name' name) eqn:E; [done|].
    rewrite decide_False; [done|]. intros Hk. apply not_false_is_true in Hd.
    apply HeaderNameEquals_iff in Hk, Hd.
    assert (Hc : HeaderNameEquals name' name = true) by (apply HeaderNameEquals_iff; congruence).
    congruence.
Qed.

Lemma GetAll_Set name name' v h :
  GetAll name (Set_ name' v h) = if HeaderNameEquals name' name then [v] else GetAll name h.
Proof.
  unfold Set_, Add. rewrite GetAll_app, GetAll_Remove. unfold GetAll. rewrite filter_cons. cbn [fst].
  destruct (HeaderNameEquals name' name); [by rewrite decide_True|].
  rewrite decide_False by done. by rewrite app_nil_r.
Qed.

(** [Get] is the head of [GetAll]. *)
Lemma Get_GetAll name h : Get name h = head (GetAll name h).
Proof.
  unfold GetAll. induction h as [|[k v] h IH]; [done|].
  rewrite filter_cons. cbn [fst Get]. destruct (HeaderNameEquals k name); [by rewrite decide_True|].
  by rewrite decide_False.
Qed.

(** ** List values *)

(** A list entry as [SplitHeaderListValues] keeps it. *)
Definition list_entry (s : bytes) : Prop := ","%byte ∉ s /\ TrimSpaces s = s.

Lemma TrimSpaces_blank s : TrimSpaces (" "%byte :: s) = TrimSpaces s.
Proof. done. Qed.

Lemma Split_joined l :
  Forall list_entry l -> l <> [] ->
  SplitHeaderListValues (join ","%byte l) = l
  /\ SplitHeaderListValues (join ","%byte (match l with [] => [] | s :: l => s :: map (cons " "%byte) l end)) = l.
Proof.
  intros H Hne.
  assert (Hg : forall l', Forall (fun s => ","%byte ∉ s) l' -> l' <> [] ->
    TrimSpaces <$> l' = l -> SplitHeaderListValues (join ","%byte l') = l).
  { intros l' Hl' Hne' <-. unfold SplitHeaderListValues.
    destruct (join ","%byte l') as [|x s] eqn:E.
    - destruct l' as [|a [|b l']]; [done| |].
      + simpl in E. by subst a.
      + simpl in E. by destruct a.
    - rewrite <- E, pieces_join; [done|done|]. by intros ->. }
  split; apply Hg.
  - eapply Forall_impl; [exact H|]. by intros s [? _].
  - done.
  - clear Hg Hne. induction H as [|s l [_ Hs] _ IH]; [done|]. by rewrite fmap_cons, Hs, IH.
  - destruct l as [|s l]; [done|]. apply Forall_cons in H as [[Hs _] H]. constructor; [done|].
    apply Forall_map. eapply Forall_impl; [exact H|]. intros x [Hx _].
    by intros [?|?]%elem_of_cons.
  - by destruct l.
  - destruct l as [|s l]; [done|]. apply Forall_cons in H as [[_ Hs] H]. rewrite fmap_cons, Hs.
    f_equal. clear Hg Hne Hs. induction H as [|x l [_ Hx] _ IH]; [done|].
    cbn [map]. by rewrite fmap_cons, TrimSpaces_blank, Hx, IH.
Qed.

(** ** Outbound safety *)

Definition splits_line (c : Byte.byte) : Prop := c = "013"%byte \/ c = "010"%byte.

Lemma ValidHeaderName_safe name c :
  ValidHeaderName name = true -> c ∈ name -> ~ splits_line c /\ c <> ":"%byte /\ c <> " "%byte.
Proof.
  unfold ValidHeaderName. intros H Hc. zbool. apply forallb_Forall in H0. rewrite Forall_forall in H0.
  apply H0 in Hc. unfold splits_line. repeat split; intros E; destruct_or?; subst c; done.
Qed.

Lemma ValidHeaderValue_safe value c :
  ValidHeaderValue value = true -> c ∈ value -> ~ splits_line c.
Proof.
  unfold ValidHeaderValue. intros H Hc. apply forallb_Forall in H. rewrite Forall_forall in H.
  apply H in Hc. unfold splits_line. intros E; destruct_or?; subst c; done.
Qed.

Lemma FindUnsafeHeader_None h :
  FindUnsafeHeader h = None
  <-> Forall (fun e => ValidHeaderName (fst e) = true /\ ValidHeaderValue (snd e) = true) h.
Proof.
  induction h as [|[n v] h IH]; simpl; [done|]. rewrite Forall_cons, <- IH. simpl.
  destruct (ValidHeaderName n), (ValidHeaderValue v); simpl; naive_solver.
Qed.

(** ** The three HTTP-date forms *)

Definition time_text (c : CivilTime) : bytes :=
  fmt 2 (hour c) ++ ":"%byte :: fmt 2 (minute c) ++ ":"%byte :: fmt 2 (second c).

Definition month_name (c : CivilTime) : bytes := nth (Z.to_nat (month c - 1)) kMonths [].

(** "Sunday, 06-Nov-94 08:49:37 GMT" *)
Definition rfc850_text (c : CivilTime) : bytes :=
  nth (WeekdayIndex (EpochDays c)) kFullDays [] ++ ","%byte :: " "%byte :: fmt 2 (day c)
  ++ "-"%byte :: month_name c ++ "-"%byte :: fmt 2 (year c mod 100) ++ " "%byte
  :: time_text c ++ lit " GMT".

(** "Sun Nov  6 08:49:37 1994" *)
Definition asctime_text (c : CivilTime) : bytes :=
  nth (WeekdayIndex (EpochDays c)) kWeekdays [] ++ " "%byte :: month_name c ++ " "%byte
  :: (if day c <? 10 then [" "%byte; digit_byte (day c)] else fmt 2 (day c)) ++ " "%byte
  :: time_text c ++ " "%byte :: fmt 4 (year c).

(** The years a two-digit year can stand for, seen from the reference year. *)
Definition year_in_reach (y ref : Z) : Prop :=
  (y / 100 = ref / 100 /\ y <= ref + 50) \/ (y / 100 = ref / 100 - 1 /\ ref + 50 < y + 100).

Lemma weekday_cases days :
  exists w, WeekdayIndex days = w /\ (w < 7)%nat.
Proof. unfold WeekdayIndex, weekday. eexists. split; [done|]. lia. Qed.

Lemma day_index_full w :
  (w < 7)%nat -> day_index kFullDays (nth w kFullDays []) = w
    /\ ","%byte ∉ nth w kFullDays []
    /\ (6 <= length (nth w kFullDays []))%nat.
Proof.
  intros H. do 7 (destruct w as [|w];
    [split; [by vm_compute|split; [by apply (bool_decide_unpack _); vm_compute|simpl; lia]]|]). lia.
Qed.

Lemma day_index_abbreviated w :
  (w < 7)%nat -> day_index kAbbreviatedDays (nth w kWeekdays []) = w.
Proof. intros H. do 7 (destruct w as [|w]; [by vm_compute|]). lia. Qed.

Lemma digits_loop_AllDigits s v n : digits_loop s v = Some n -> s <> [] -> AllDigits s = true.
Proof.
  intros H Hne. unfold AllDigits. apply andb_true_iff. split.
  - destruct s as [|c s]; [done|]. rewrite len_cons. pose proof (len_nonneg s).
    apply negb_true_iff, Z.eqb_neq. lia.
  - clear Hne. revert v H. induction s as [|c s IH]; intros v H; simpl in *; [done|].
    destruct (is_digit c); [|done]. simpl. by eapply IH.
Qed.

Lemma digits_loop_dec_value s n : digits_loop s 0 = Some n -> dec_value s = n.
Proof.
  unfold dec_value. generalize 0. induction s as [|c s IH]; intros v; simpl; [congruence|].
  destruct (is_digit c); [|done]. apply IH.
Qed.

Lemma ReferenceYear_spec ref :
  representable ref -> ReferenceYear ref = year (Decompose ref) /\ 0 <= year (Decompose ref) <= 9999.
Proof.
  intros H. destruct (Decompose_spec ref H) as ((_ & Hy & _) & _). split; [|done].
  destruct (fmt4 _ Hy) as (a & b & c & d & E & V). unfold ReferenceYear, Format. rewrite E.
  cbn [app]. rewrite !len_cons. match goal with |- context [len ?l] => pose proof (len_nonneg l) end.
  match goal with |- context [?x <? 4] => destruct (Z.ltb_spec x 4); [lia|] end.
  cbn [take]. unfold ParseInt. rewrite (digits_loop_AllDigits _ _ _ V) by done.
  rewrite (digits_loop_dec_value _ _ V). destruct (Z.ltb_spec (year (Decompose ref)) (2 ^ 31)); [done|lia].
Qed.

Lemma ResolveTwoDigitYear_spec y ref :
  0 <= y <= 9999 -> 0 <= ref -> year_in_reach y ref ->
  ResolveTwoDigitYear (y mod 100) ref = fmt 4 y.
Proof.
  intros Hy Hr H. unfold ResolveTwoDigitYear. rewrite Z.quot_div_nonneg by lia.
  assert (E : (if ref / 100 * 100 + y mod 100 >? ref + 50 then ref / 100 * 100 + y mod 100 - 100
               else ref / 100 * 100 + y mod 100) = y).
  { unfold year_in_reach in H.
    destruct (Z.gtb_spec (ref / 100 * 100 + y mod 100) (ref + 50)); lia. }
  rewrite E. unfold int_text, fmt. by destruct (Z.ltb_spec y 0); [lia|].
Qed.

(** The fields of a civil time as bytes. *)
Lemma civil_fields c :
  civil_ok c = true -> 0 <= year c <= 9999 ->
  exists d1 d2 h1 h2 n1 n2 s1 s2 m1 m2 m3,
    fmt 2 (day c) = [d1; d2] /\ AllDigits [d1; d2] = true
    /\ time_text c = [h1; h2; ":"%byte; n1; n2; ":"%byte; s1; s2]
    /\ fmt 2 (hour c) = [h1; h2] /\ fmt 2 (minute c) = [n1; n2] /\ fmt 2 (second c) = [s1; s2]
    /\ month_name c = [m1; m2; m3].
Proof.
  intros Hok Hy. destruct (civil_two_digits c Hok) as (_ & H2 & H3 & H4 & H5).
  assert (Hm : 1 <= month c <= 12) by (unfold civil_ok, ymd_ok in Hok; zbool; lia).
  destruct (month_text _ Hm) as (m1 & m2 & m3 & Em & _).
  destruct (fmt2 _ H2) as (d1 & d2 & Ed & Vd). destruct (fmt2 _ H3) as (h1 & h2 & Eh & _).
  destruct (fmt2 _ H4) as (n1 & n2 & En & _). destruct (fmt2 _ H5) as (s1 & s2 & Es & _).
  exists d1, d2, h1, h2, n1, n2, s1, s2, m1, m2, m3. unfold time_text, month_name.
  rewrite Eh, En, Es, Ed. repeat split; try done. by apply (digits_loop_AllDigits _ _ _ Vd).
Qed.

Ltac eval_slices :=
  unfold substr, char_is;
  change (Z.to_nat 0) with 0%nat; change (Z.to_nat 1) with 1%nat; change (Z.to_nat 2) with 2%nat;
  change (Z.to_nat 3) with 3%nat; change (Z.to_nat 4) with 4%nat; change (Z.to_nat 8) with 8%nat;
  change (Z.to_nat 9) with 9%nat; change (Z.to_nat 11) with 11%nat; change (Z.to_nat 20) with 20%nat;
  cbn [length Nat.eqb drop take lookup list_lookup].

Lemma Rfc850AsFixdate_text c ref :
  civil_ok c = true -> 0 <= year c <= 9999 -> representable ref ->
  year_in_reach (year c) (year (Decompose ref)) ->
  Rfc850AsFixdate (rfc850_text c) ref
  = http_date_text (nth (WeekdayIndex (EpochDays c)) kWeekdays []) c.
Proof.
  intros Hok Hy Href Hreach. destruct (ReferenceYear_spec ref Href) as [Er Hr].
  destruct (civil_fields c Hok Hy) as
    (d1 & d2 & h1 & h2 & n1 & n2 & s1 & s2 & m1 & m2 & m3 & Ed & Vd & Et & Eh & En & Es & Em).
  destruct (fmt2 (year c mod 100) ltac:(lia)) as (y1 & y2 & Eyy & Vyy).
  destruct (weekday_cases (EpochDays c)) as (w & Ew & Hw).
  destruct (day_index_full w Hw) as (Ei & Hcomma & _).
  unfold Rfc850AsFixdate, rfc850_text, http_date_text. rewrite Ew, cut_app by done.
  rewrite Ei. destruct (Nat.eqb_spec w 7); [lia|].
  unfold month_name in Em. rewrite Et, Ed, Eh, En, Es, Eyy. unfold month_name. rewrite Em.
  change (lit " GMT") with [" "%byte; "G"%byte; "M"%byte; "T"%byte]. cbn [app]. eval_slices.
  rewrite Vd, (digits_loop_AllDigits _ _ _ Vyy) by done.
  unfold ParseInt. rewrite (digits_loop_AllDigits _ _ _ Vyy) by done.
  rewrite (digits_loop_dec_value _ _ Vyy), Er.
  destruct (Z.ltb_spec (year c mod 100) (2 ^ 31)); [|lia].
  destruct (Z.ltb_spec (year (Decompose ref)) 0); [lia|].
  rewrite ResolveTwoDigitYear_spec by (done || lia). done.
Qed.

Lemma AsctimeAsFixdate_text c :
  civil_ok c = true -> 0 <= year c <= 9999 ->
  AsctimeAsFixdate (asctime_text c)
  = http_date_text (nth (WeekdayIndex (EpochDays c)) kWeekdays []) c.
Proof.
  intros Hok Hy.
  destruct (civil_fields c Hok Hy) as
    (d1 & d2 & h1 & h2 & n1 & n2 & s1 & s2 & m1 & m2 & m3 & Ed & Vd & Et & Eh & En & Es & Em).
  destruct (fmt4 _ Hy) as (y1 & y2 & y3 & y4 & Ey & Vy).
  destruct (weekday_text (EpochDays c)) as (w1 & w2 & w3 & Ew3).
  destruct (weekday_cases (EpochDays c)) as (w & Ew & Hw).
  pose proof (day_index_abbreviated w Hw) as Ei.
  assert (Hday : 1 <= day c) by (unfold civil_ok, ymd_ok in Hok; zbool; lia).
  set (dom := if day c <? 10 then [" "%byte; digit_byte (day c)] else [d1; d2]).
  assert (Hdom : exists e1 e2, dom = [e1; e2]
    /\ (if byte_eqb e1 " "%byte then "0"%byte :: [e2] else [e1; e2]) = [d1; d2]).
  { unfold dom. destruct (Z.ltb_spec (day c) 10).
    - eexists _, _. split; [done|]. rewrite <- Ed, fmt_pad by (simpl; lia).
      change (pad_digits 2 (day c)) with [digit_byte (day c / 10 mod 10); digit_byte (day c mod 10)].
      rewrite (Z.mod_small (day c)) by lia.
      by replace (day c / 10) with 0 by lia.
    - exists d1, d2. split; [done|]. unfold AllDigits in Vd. simpl in Vd.
      destruct (byte_eqb_spec d1 " "%byte) as [->|]; done. }
  destruct Hdom as (e1 & e2 & Edom & Hdom).
  unfold AsctimeAsFixdate, asctime_text, http_date_text. unfold month_name in *.
  rewrite Et, Ed, Eh, En, Es, Em, Ey, Ew3. fold dom. rewrite Edom. cbn [app]. eval_slices.
  rewrite Ew in Ew3. rewrite Ew3 in Ei. rewrite Ei. destruct (Nat.eqb_spec w 7); [lia|].
  unfold kAbbreviatedDays. rewrite Ew3, Hdom, Vd, (digits_loop_AllDigits _ _ _ Vy) by done. done.
Qed.

Lemma strict_needs_29 text : length text <> 29%nat -> is_ok (Timestamp.ParseHttpDate text) = false.
Proof.
  intros H. unfold Timestamp.ParseHttpDate, http_date_fields.
  by destruct (Nat.eqb_spec (length text) 29).
Qed.

Lemma http_date_text_nonempty w c : http_date_text w c <> [].
Proof.
  unfold http_date_text. intros H. apply (f_equal length) in H. rewrite !length_app in H.
  simpl in H. lia.
Qed.

Lemma lenient_via c text ref normalized :
  civil_ok c = true -> 0 <= year c <= 9999 -> length text <> 29%nat ->
  (match Rfc850AsFixdate text ref with
   | [] => AsctimeAsFixdate text
   | _ => Rfc850AsFixdate text ref
   end) = normalized ->
  normalized = http_date_text (nth (WeekdayIndex (EpochDays c)) kWeekdays []) c ->
  ParseHttpDate text ref = Some (Compose c - millisecond c).
Proof.
  intros Hok Hy Hl Hn ->. unfold ParseHttpDate. pose proof (strict_needs_29 text Hl) as Hs.
  destruct (Timestamp.ParseHttpDate text); [done|]. rewrite Hn.
  destruct (http_date_text _ c) eqn:E; [by apply http_date_text_nonempty in E|].
  rewrite <- E, parse_http_date_text by done. done.
Qed.

(** ** Claims *)

(** the header collection is a map up to letter case that keeps repeats:
    after [Set] every spelling of the name has exactly the new value and other
    names keep all of theirs, [Add] appends one, [Remove] drops all, and names
    equal up to case are interchangeable. *)
Theorem headers_laws name name' v h :
  GetAll name (Set_ name' v h) = (if HeaderNameEquals name' name then [v] else GetAll name h)
  /\ GetAll name (Add name' v h)
     = GetAll name h ++ (if HeaderNameEquals name' name then [v] else [])
  /\ GetAll name (Remove name' h) = (if HeaderNameEquals name' name then [] else GetAll name h)
  /\ Get name h = head (GetAll name h)
  /\ (HeaderNameEquals name name' = true -> Get name h = Get name' h).
Proof.
  split; [apply GetAll_Set|]. split.
  - unfold Add. rewrite GetAll_app. f_equal. unfold GetAll. rewrite filter_cons. cbn [fst].
    destruct (HeaderNameEquals name' name); [by rewrite decide_True|by rewrite decide_False].
  - split; [apply GetAll_Remove|]. split; [apply Get_GetAll|]. intros H. by apply Get_proper.
Qed.

(** list-valued headers: entries without commas or outer blanks, joined by
    commas with or without a space after each, are split back into the same
    list. *)
Theorem SplitHeaderListValues_joined l :
  Forall list_entry l -> l <> [] ->
  SplitHeaderListValues (join ","%byte l) = l
  /\ SplitHeaderListValues
       (join ","%byte (match l with [] => [] | s :: l => s :: map (cons " "%byte) l end)) = l.
Proof. apply Split_joined. Qed.

Lemma SplitHeaderListValues_joined_witness :
  SplitHeaderListValues (lit "a,b c,") = [lit "a"; lit "b c"; []]
  /\ SplitHeaderListValues (lit "a, b c, ") = [lit "a"; lit "b c"; []].
Proof.
  apply (SplitHeaderListValues_joined [lit "a"; lit "b c"; []]); [|done].
  repeat constructor; try (by vm_compute); apply (bool_decide_unpack _); by vm_compute.
Defined.

(** the outbound defense: when [FindUnsafeHeader] finds nothing, no name or
    value holds a CR or LF, and no name is empty or holds a colon or a space,
    so no entry can split its field line; when it reports a name, that entry
    fails the check. *)
Theorem FindUnsafeHeader_safe h :
  match FindUnsafeHeader h with
  | None => Forall (fun e => fst e <> []
      /\ (forall c, c ∈ fst e -> ~ splits_line c /\ c <> ":"%byte /\ c <> " "%byte)
      /\ (forall c, c ∈ snd e -> ~ splits_line c)) h
  | Some name => exists v, (name, v) ∈ h
      /\ (ValidHeaderName name = false \/ ValidHeaderValue v = false)
  end.
Proof.
  destruct (FindUnsafeHeader h) as [name|] eqn:E.
  - induction h as [|[n v] h IH]; simpl in E; [done|].
    destruct (negb (ValidHeaderName n) || negb (ValidHeaderValue v)) eqn:Ev.
    + injection E as <-. exists v. split; [by left|]. apply orb_true_iff in Ev as [Ev|Ev];
        apply negb_true_iff in Ev; auto.
    + destruct (IH E) as (w & Hw & H). exists w. split; [by right|done].
  - apply FindUnsafeHeader_None in E. eapply Forall_impl; [exact E|]. intros [n v] [Hn Hv]. simpl in *.
    split; [by intros ->|]. split; intros c Hc; [by eapply ValidHeaderName_safe|].
    by eapply ValidHeaderValue_safe.
Qed.

(** the lenient HTTP-date parser reads the two obsolete forms as RFC 9110
    asks: for every civil time of the years 0000 to 9999 the asctime text, and
    the rfc850 text when the year is in reach of the reference, give the same
    instant as the IMF-fixdate text. *)
Theorem ParseHttpDate_obsolete c ref :
  civil_ok c = true -> 0 <= year c <= 9999 -> representable ref ->
  year_in_reach (year c) (year (Decompose ref)) ->
  ParseHttpDate (rfc850_text c) ref = Some (Compose c - millisecond c)
  /\ ParseHttpDate (asctime_text c) ref = Some (Compose c - millisecond c)
  /\ ParseHttpDate (http_date_text (nth (WeekdayIndex (EpochDays c)) kWeekdays []) c) ref
     = Some (Compose c - millisecond c).
Proof.
  intros Hok Hy Href Hreach.
  destruct (civil_fields c Hok Hy) as
    (d1 & d2 & h1 & h2 & n1 & n2 & s1 & s2 & m1 & m2 & m3 & Ed & Vd & Et & Eh & En & Es & Em).
  destruct (fmt4 _ Hy) as (y1 & y2 & y3 & y4 & Ey & Vy). split; [|split].
  - pose proof (Rfc850AsFixdate_text c ref Hok Hy Href Hreach) as E.
    eapply (lenient_via c); [done|done| |reflexivity|].
    + unfold rfc850_text. destruct (weekday_cases (EpochDays c)) as (w & -> & Hw).
      destruct (day_index_full w Hw) as (_ & _ & Hl).
      destruct (fmt2 (year c mod 100) ltac:(lia)) as (a & b & -> & _). rewrite Ed, Et, Em.
      change (lit " GMT") with [" "%byte; "G"%byte; "M"%byte; "T"%byte].
      rewrite length_app. cbn [length app]. lia.
    + rewrite E. by destruct (http_date_text _ c) eqn:En0; [apply http_date_text_nonempty in En0|].
  - pose proof (AsctimeAsFixdate_text c Hok Hy) as E.
    destruct (weekday_text (EpochDays c)) as (w1 & w2 & w3 & Ew).
    assert (Hl : length (asctime_text c) = 24%nat).
    { unfold asctime_text. rewrite Ew, Em, Et, Ey. destruct (day c <? 10); [done|]. by rewrite Ed. }
    eapply (lenient_via c); [done|done|lia|reflexivity|]. rewrite <- E.
    assert (Hno : Rfc850AsFixdate (asctime_text c) ref = []); [|by rewrite Hno].
    unfold Rfc850AsFixdate. destruct (cut_cases ","%byte (asctime_text c)) as [[_ ->]|(a & b & Ea & _ & ->)];
      [done|]. destruct (Nat.eqb_spec (day_index kFullDays a) 7) as [|Hd]; [done|].
    assert (Hb : length b <> 23%nat); [|by destruct (Nat.eqb_spec (length b) 23)].
    rewrite Ea, length_app in Hl. simpl in Hl. destruct a as [|x a]; [done|]. simpl in Hl. lia.
  - unfold ParseHttpDate. by rewrite parse_http_date_text.
Qed.

Lemma ParseHttpDate_obsolete_witness :
  let c := mkCivil 1994 11 6 8 49 37 0 in
  ParseHttpDate (rfc850_text c) 1700000000000 = Some (Compose c - millisecond c)
  /\ ParseHttpDate (asctime_text c) 1700000000000 = Some (Compose c - millisecond c)
  /\ ParseHttpDate (http_date_text (nth (WeekdayIndex (EpochDays c)) kWeekdays []) c) 1700000000000
     = Some (Compose c - millisecond c).
Proof.
  intros c. apply (ParseHttpDate_obsolete c 1700000000000); [by vm_compute|simpl; lia| |].
  - split; by vm_compute.
  - right. split; by vm_compute.
Defined.
