(* ===== verification/Router.v ===== *)
(** server/router.cc: URI patterns, their matching and precedence, and method
    dispatch.  The route table is the [std::map] of OrdMap.v; handlers are
    functions stored in the entries. *)
From Stdlib Require Import ZArith Lia Strings.Byte.
From S2P Require Import Prelude Bytes Uri OrdMap Headers.

Local Open Scope Z_scope.

(** ** Patterns *)

Inductive Kind := kLiteral | kLabel | kGreedy.

#[global] Instance Kind_eq_dec : EqDecision Kind.
Proof. solve_decision. Defined.

Record Segment := mkSegment { kind : Kind; text : bytes }.

#[global] Instance Segment_eq_dec : EqDecision Segment.
Proof. solve_decision. Defined.

Definition router_error (what pattern : bytes) : Error := Error_Validation (what ++ pattern).

(** One raw segment of a pattern: the body of the [ParsePattern] loop. *)
Definition parse_segment (pattern raw : bytes) : Outcome Segment :=
  if (2 <=? len raw) && match head raw with Some c => byte_eqb c "{"%byte | None => false end
     && ends_with_byte "}"%byte raw
  then
    let name := substr 1 (len raw - 2) raw in
    let '(k, name) := if ends_with_byte "+"%byte name
                      then (kGreedy, take (length name - 1) name) else (kLabel, name) in
    match name with
    | [] => Err (router_error (lit "router: empty label in pattern: ") pattern)
    | _ => Ok (mkSegment k name)
    end
  else
    match raw with
    | [] => Err (router_error (lit "router: empty segment in pattern: ") pattern)
    | _ => Ok (mkSegment kLiteral raw)
    end.

Definition is_greedy (s : Segment) : bool := match kind s with kGreedy => true | _ => false end.

Fixpoint parse_segments (pattern : bytes) (raws : list bytes) : Outcome (list Segment) :=
  match raws with
  | [] => Ok []
  | raw :: raws' =>
    segment ← parse_segment pattern raw;
    match raws' with
    | [] => Ok [segment]
    | _ =>
      if is_greedy segment
      then Err (router_error (lit "router: greedy label must be the final segment: ") pattern)
      else segments ← parse_segments pattern raws'; Ok (segment :: segments)
    end
  end.

Definition ParsePattern (pattern : bytes) : Outcome (list Segment) :=
  match pattern with
  | "/"%byte :: rest => parse_segments pattern (pieces true "/"%byte rest)
  | _ => Err (router_error (lit "router: pattern must start with '/': ") pattern)
  end.

(** ** Matching *)

Notation PathLabels := (list (bytes * bytes)) (only parsing).

(** The segment loop of [MatchSegments]: the labels, or [None] for false. *)
Fixpoint match_loop (pattern : list Segment) (segments : list bytes) (labels : PathLabels)
    : option PathLabels :=
  match pattern with
  | [] => Some labels
  | expected :: pattern' =>
    match segments with
    | [] => None
    | s :: segments' =>
      match kind expected with
      | kLiteral => if bytes_eqb s (text expected) then match_loop pattern' segments' labels else None
      | kLabel =>
        match s with
        | [] => None
        | _ => match_loop pattern' segments' (sm_emplace (text expected) s labels)
        end
      | kGreedy =>
        match s, segments' with
        | [], [] => None
        | _, _ => Some (sm_emplace (text expected) (join "/"%byte segments) labels)
        end
      end
    end
  end.

Definition has_greedy (pattern : list Segment) : bool :=
  match last pattern with Some s => is_greedy s | None => false end.

(** [MatchSegments] with labels; a null [labels] asks only whether it matches. *)
Definition MatchLabels (pattern : list Segment) (segments : list bytes) : option PathLabels :=
  if has_greedy pattern then
    if len segments <? len pattern then None else match_loop pattern segments []
  else if negb (len segments =? len pattern) then None else match_loop pattern segments [].

Definition MatchSegments (pattern : list Segment) (segments : list bytes) : bool :=
  match MatchLabels pattern segments with Some _ => true | None => false end.

Definition rank (s : Segment) : Z :=
  match kind s with kLiteral => 0 | kLabel => 1 | kGreedy => 2 end.

Fixpoint MoreSpecific (a b : list Segment) : bool :=
  match a, b with
  | x :: a', y :: b' => if negb (rank x =? rank y) then rank x <? rank y else MoreSpecific a' b'
  | _, _ => len a >? len b
  end.

Definition same_segment (x y : Segment) : bool :=
  bool_decide (kind x = kind y)
  && (negb (bool_decide (kind x = kLiteral)) || bytes_eqb (text x) (text y)).

Definition SameShape (a b : list Segment) : bool :=
  (len a =? len b) && forallb (fun p => same_segment (fst p) (snd p)) (zip a b).

Definition NormalizedTarget (target : bytes) : Outcome RequestTarget :=
  t ← ParseRequestTarget target;
  let segments := path_segments t in
  Ok (mkTarget (match last segments with Some [] => take (length segments - 1) segments
                | _ => segments end) (query_params t)).

(** ** The router *)

Record RequestContext := mkContext {
  labels : list (bytes * bytes);
  ctx_query_params : list (bytes * bytes);
  request : HttpRequest
}.

Definition RouteHandler := HttpRequest -> RequestContext -> HttpResponse.

Record RouteEntry := mkEntry {
  segments : list Segment;
  handler : RouteHandler;
  operation : bytes
}.

Notation Router := (list (bytes * list RouteEntry)) (only parsing).

(** [Router::Add]: the outcome and the table afterwards. *)
Definition Add (method pattern : bytes) (h : RouteHandler) (op : bytes) (routes : Router)
    : Outcome unit * Router :=
  match ParsePattern pattern with
  | Err e => (Err e, routes)
  | Ok segs =>
    let routes := sm_emplace method [] routes in
    let bucket := default [] (sm_lookup method routes) in
    if existsb (fun existing => SameShape (segments existing) segs) bucket then
      (Err (Error_Validation (lit "router: conflicting route: " ++ method ++ " "%byte :: pattern)),
       routes)
    else (Ok tt, sm_insert method (bucket ++ [mkEntry segs h op]) routes)
  end.

Definition MakeErrorResponse (status : Z) (code message : bytes) : HttpResponse :=
  mkResponse status (Set_ (lit "content-type") (lit "application/json") [])
    ("{"%byte :: x22 :: lit "code" ++ [x22; ":"%byte; x22] ++ code ++ [x22; ","%byte; x22]
     ++ lit "message" ++ [x22; ":"%byte; x22] ++ message ++ [x22; "}"%byte]) [].

Definition route_matches (segs : list bytes) (route : RouteEntry) : bool :=
  MatchSegments (segments route) segs.

(** One turn of the scan for the best route. *)
Definition better (segs : list bytes) (best : option RouteEntry) (route : RouteEntry)
    : option RouteEntry :=
  if negb (route_matches segs route) then best
  else match best with
       | None => Some route
       | Some b => if MoreSpecific (segments route) (segments b) then Some route else best
       end.

Definition best_route (bucket : list RouteEntry) (segs : list bytes) : option RouteEntry :=
  fold_left (better segs) bucket None.

(** The methods of the Allow list, in map order. *)
Definition allowed_methods (method : bytes) (segs : list bytes) (routes : Router) : list bytes :=
  fst <$> filter (fun e => negb (bytes_eqb (fst e) method) && existsb (route_matches segs) (snd e)
                           = true) routes.

Definition allow_text (methods : list bytes) : bytes :=
  fold_left (fun allow m => match allow with [] => m | _ => allow ++ lit ", " ++ m end) methods [].

Definition Route (routes : Router) (rq : HttpRequest) : HttpResponse :=
  match NormalizedTarget (rq_target rq) with
  | Err _ => MakeErrorResponse 400 (lit "BadRequest") (lit "malformed request target")
  | Ok target =>
    let segs := path_segments target in
    let best := match sm_lookup (rq_method rq) routes with
                | Some bucket => best_route bucket segs
                | None => None
                end in
    match best with
    | None =>
      let allow := allow_text (allowed_methods (rq_method rq) segs routes) in
      match allow with
      | [] => MakeErrorResponse 404 (lit "NotFound") (lit "no route matches the request")
      | _ =>
        let response := MakeErrorResponse 405 (lit "MethodNotAllowed") (lit "method not allowed") in
        mkResponse (rs_status response) (Set_ (lit "allow") allow (rs_headers response))
          (rs_body response) (rs_operation response)
      end
    | Some best =>
      let context := mkContext (default [] (MatchLabels (segments best) segs))
                       (query_params target) rq in
      let response := handler best rq context in
      match operation best with
      | [] => response
      | op => mkResponse (rs_status response) (rs_headers response) (rs_body response) op
      end
    end
  end.

Example parse_pattern_example :
  ParsePattern (lit "/cities/{cityId}/{path+}")
  = Ok [mkSegment kLiteral (lit "cities"); mkSegment kLabel (lit "cityId");
        mkSegment kGreedy (lit "path")].
Proof. by vm_compute. Qed.

(** ** Patterns as parsed *)

(** Names and literals are not empty, and only the last segment is greedy. *)
Fixpoint pattern_ok (p : list Segment) : Prop :=
  match p with
  | [] => True
  | [s] => text s <> []
  | s :: p' => text s <> [] /\ is_greedy s = false /\ pattern_ok p'
  end.

Lemma pattern_ok_cons s p :
  pattern_ok (s :: p) <-> text s <> [] /\ (p <> [] -> is_greedy s = false) /\ pattern_ok p.
Proof. destruct p; simpl; naive_solver. Qed.

Lemma parse_segment_Ok pattern raw s : parse_segment pattern raw = Ok s -> text s <> [].
Proof.
  unfold parse_segment. destruct (_ && _ && _).
  - destruct (ends_with_byte _ _); case_match; try done; intros Hs; by apply Ok_inj in Hs as <-.
  - destruct raw; [done|]. intros H. by apply Ok_inj in H as <-.
Qed.

Lemma parse_segments_Ok pattern raws p : parse_segments pattern raws = Ok p -> pattern_ok p.
Proof.
  revert p. induction raws as [|raw raws IH]; intros p H; cbn [parse_segments] in H.
  - by apply Ok_inj in H as <-.
  - apply bind_Ok in H as (s & Hs & H). apply parse_segment_Ok in Hs.
    destruct raws as [|raw2 raws]; [by apply Ok_inj in H as <-|].
    destruct (is_greedy s) eqn:Eg; [done|]. apply bind_Ok in H as (q & Hq & H).
    apply Ok_inj in H as <-. apply pattern_ok_cons. auto.
Qed.

Lemma ParsePattern_Ok pattern p : ParsePattern pattern = Ok p -> pattern_ok p.
Proof.
  unfold ParsePattern. destruct pattern as [|c rest]; [done|].
  destruct c; try done. apply parse_segments_Ok.
Qed.

(** ** Precedence is a strict order *)

Lemma MoreSpecific_irrefl a : MoreSpecific a a = false.
Proof.
  induction a as [|x a IH]; [done|]. simpl. by rewrite Z.eqb_refl.
Qed.

Ltac len_facts :=
  rewrite ?len_cons in *;
  repeat match goal with |- context [len ?l] => lazymatch goal with
    | _ : 0 <= len l |- _ => fail | _ => pose proof (len_nonneg l) end
  | _ : context [len ?l] |- _ => lazymatch goal with
    | _ : 0 <= len l |- _ => fail | _ => pose proof (len_nonneg l) end end.

Lemma MoreSpecific_trans a b c :
  MoreSpecific a b = true -> MoreSpecific b c = true -> MoreSpecific a c = true.
Proof.
  revert b c. induction a as [|x a IH]; intros [|y b] [|z c]; cbn [MoreSpecific]; try done.
  destruct (Z.eqb_spec (rank x) (rank y)), (Z.eqb_spec (rank y) (rank z)),
    (Z.eqb_spec (rank x) (rank z)); cbn [negb]; try lia; eauto.
Qed.

Lemma MoreSpecific_total a b :
  MoreSpecific a b = false -> MoreSpecific b a = false ->
  length a = length b /\ map kind a = map kind b.
Proof.
  assert (Hl : forall (x : Segment) l, (len (x :: l) >? len ([] : list Segment)) = true).
  { intros x l. rewrite len_cons. pose proof (len_nonneg l). change (len ([] : list Segment)) with 0. lia. }
  revert b. induction a as [|x a IH]; intros [|y b]; cbn [MoreSpecific]; intros H1 H2.
  - done.
  - by rewrite Hl in H2.
  - by rewrite Hl in H1.
  - rewrite (Z.eqb_sym (rank y)) in H2. destruct (Z.eqb_spec (rank x) (rank y)) as [E|E]; simpl in *; [|lia].
    destruct (IH b H1 H2) as [E1 E2]. split; [by f_equal|]. f_equal; [|done].
    unfold rank in E. by destruct (kind x), (kind y).
Qed.

(** ** Two patterns of one rank that match one target have one shape *)

Lemma match_loop_same_shape a b segs la lb :
  pattern_ok a -> pattern_ok b -> map kind a = map kind b ->
  is_Some (match_loop a segs la) -> is_Some (match_loop b segs lb) ->
  forallb (fun p => same_segment (fst p) (snd p)) (zip a b) = true.
Proof.
  revert b segs la lb. induction a as [|x a IH]; intros [|y b] segs la lb Ha Hb Hk Hma Hmb; try done.
  injection Hk as Hkx Hk. apply pattern_ok_cons in Ha as (_ & Hga & Ha), Hb as (_ & Hgb & Hb).
  cbn [match_loop] in *. destruct segs as [|s segs]; [by destruct Hma|].
  rewrite Hkx in Hma. cbn [zip zip_with forallb fst snd]. unfold same_segment at 1.
  rewrite bool_decide_true by done. rewrite Hkx. destruct (kind y) eqn:Ey; simpl.
  - destruct (bytes_eqb s (text x)) eqn:E1; [|by destruct Hma].
    destruct (bytes_eqb s (text y)) eqn:E2; [|by destruct Hmb].
    apply bytes_eqb_eq in E1 as <-, E2 as <-. rewrite (proj2 (bytes_eqb_eq s s)) by done.
    simpl. by eapply IH.
  - destruct s; [by destruct Hma|]. by eapply IH.
  - assert (a = []) as ->; [|done]. destruct a; [done|]. unfold is_greedy in Hga.
    rewrite Hkx in Hga. by specialize (Hga ltac:(done)).
Qed.

Lemma MatchSegments_loop p segs :
  MatchSegments p segs = true -> is_Some (match_loop p segs []).
Proof.
  unfold MatchSegments. destruct (MatchLabels p segs) as [l|] eqn:E; [|done]. intros _. exists l.
  unfold MatchLabels in E.
  by destruct (has_greedy p), (len segs <? len p), (negb (len segs =? len p)).
Qed.

Lemma same_shape_of_tie a b segs :
  pattern_ok a -> pattern_ok b -> MatchSegments a segs = true -> MatchSegments b segs = true ->
  MoreSpecific a b = false -> MoreSpecific b a = false -> SameShape a b = true.
Proof.
  intros Ha Hb Hma Hmb H1 H2. destruct (MoreSpecific_total a b H1 H2) as [Hl Hk].
  unfold SameShape. apply andb_true_iff. split; [unfold len; lia|].
  by eapply match_loop_same_shape; [done|done|done|apply MatchSegments_loop|apply MatchSegments_loop].
Qed.

(** ** The scan for the best route *)

Definition wins (segs : list bytes) (bucket : list RouteEntry) (best : option RouteEntry) : Prop :=
  match best with
  | None => forall r, r ∈ bucket -> route_matches segs r = false
  | Some b => b ∈ bucket /\ route_matches segs b = true
      /\ forall r, r ∈ bucket -> route_matches segs r = true ->
           r = b \/ MoreSpecific (segments b) (segments r) = true
  end.

(** No two entries share a shape and every pattern is as parsed. *)
Definition bucket_ok (bucket : list RouteEntry) : Prop :=
  Forall (fun r => pattern_ok (segments r)) bucket
  /\ ForallPairs (fun r r' => SameShape (segments r) (segments r') = true -> r = r') bucket.

Lemma wins_step segs bucket best r :
  bucket_ok (bucket ++ [r]) -> wins segs bucket best -> wins segs (bucket ++ [r]) (better segs best r).
Proof.
  intros [Hok Hpairs] H. unfold better. destruct (route_matches segs r) eqn:Em; cbn [negb].
  2:{ destruct best as [b|]; simpl in *.
      - destruct H as (Hb & Hm & Hall). split; [apply elem_of_app; auto|]. split; [done|].
        intros r' [Hr'|Hr']%elem_of_app Hm'; [auto|]. apply list_elem_of_singleton in Hr' as ->. congruence.
      - intros r' [Hr'|Hr']%elem_of_app; [auto|]. by apply list_elem_of_singleton in Hr' as ->. }
  assert (Hr : r ∈ bucket ++ [r]) by (apply elem_of_app; right; by apply list_elem_of_singleton).
  destruct best as [b|]; simpl in *.
  - destruct H as (Hb & Hm & Hall). destruct (MoreSpecific (segments r) (segments b)) eqn:Es; simpl.
    + split; [done|]. split; [done|]. intros r' [Hr'|Hr']%elem_of_app Hm'.
      * right. destruct (Hall r' Hr' Hm') as [->|Hs]; [done|]. by eapply MoreSpecific_trans.
      * left. by apply list_elem_of_singleton in Hr'.
    + split; [apply elem_of_app; auto|]. split; [done|]. intros r' [Hr'|Hr']%elem_of_app Hm'; [auto|].
      apply list_elem_of_singleton in Hr' as ->. destruct (MoreSpecific (segments b) (segments r)) eqn:Es';
        [by right|]. left. rewrite Forall_forall in Hok.
      assert (Hb' : b ∈ bucket ++ [r]) by (apply elem_of_app; auto).
      apply Hpairs; [by apply list_elem_of_In|by apply list_elem_of_In|].
      eapply same_shape_of_tie; [by apply Hok|by apply Hok|exact Em|exact Hm|done|done].
  - split; [done|]. split; [done|]. intros r' [Hr'|Hr']%elem_of_app Hm'.
    + rewrite H in Hm' by done. done.
    + left. by apply list_elem_of_singleton in Hr'.
Qed.

Lemma bucket_ok_app_l a b : bucket_ok (a ++ b) -> bucket_ok a.
Proof.
  intros [H1 H2]. apply Forall_app in H1 as [H1 _]. split; [done|].
  intros r r' Hr Hr'. apply H2; apply in_or_app; auto.
Qed.

Lemma best_route_wins segs bucket : bucket_ok bucket -> wins segs bucket (best_route bucket segs).
Proof.
  unfold best_route. induction bucket as [|r bucket IH] using rev_ind; intros Hok.
  - simpl. intros r Hr. by apply elem_of_nil in Hr.
  - rewrite fold_left_app. simpl. apply wins_step; [done|]. apply IH. by eapply bucket_ok_app_l.
Qed.

(** The winner is unique, so the order of registration does not matter. *)
Lemma wins_unique segs bucket b b' : wins segs bucket b -> wins segs bucket b' -> b = b'.
Proof.
  destruct b as [b|], b' as [b'|]; simpl; try done.
  - intros (H1 & H2 & H3) (H1' & H2' & H3').
    destruct (H3 b' H1' H2') as [->|Hs]; [done|]. destruct (H3' b H1 H2) as [->|Hs']; [done|].
    pose proof (MoreSpecific_trans _ _ _ Hs Hs') as Hc. by rewrite MoreSpecific_irrefl in Hc.
  - intros (H1 & H2 & _) H. rewrite H in H2 by done. done.
  - intros H (H1 & H2 & _). rewrite H in H2 by done. done.
Qed.

Lemma wins_perm segs bucket bucket' b : bucket ≡ₚ bucket' -> wins segs bucket b -> wins segs bucket' b.
Proof. intros Hp. destruct b as [b|]; simpl; setoid_rewrite Hp; done. Qed.

Lemma best_route_perm segs bucket bucket' :
  bucket ≡ₚ bucket' -> bucket_ok bucket -> bucket_ok bucket' ->
  best_route bucket segs = best_route bucket' segs.
Proof.
  intros Hp H H'. apply (wins_unique segs bucket'); [|by apply best_route_wins].
  eapply wins_perm; [exact Hp|]. by apply best_route_wins.
Qed.

(** ** The route table *)

Definition router_ok (routes : list (bytes * list RouteEntry)) : Prop :=
  sm_ok routes /\ forall m bucket, sm_lookup m routes = Some bucket -> bucket_ok bucket.

Lemma same_segment_sym x y : same_segment x y = same_segment y x.
Proof.
  apply Bool.eq_iff_eq_true. unfold same_segment.
  rewrite !andb_true_iff, !orb_true_iff, !bool_decide_eq_true, !negb_true_iff,
    !bool_decide_eq_false, !bytes_eqb_eq.
  split; intros [-> H]; (split; [done|]); destruct H; auto.
Qed.

Lemma SameShape_sym a b : SameShape a b = SameShape b a.
Proof.
  unfold SameShape. f_equal; [apply Z.eqb_sym|]. revert b.
  induction a as [|x a IH]; intros [|y b]; simpl; try done. by rewrite IH, same_segment_sym.
Qed.

Lemma bucket_ok_snoc bucket r :
  bucket_ok bucket -> pattern_ok (segments r) ->
  existsb (fun e => SameShape (segments e) (segments r)) bucket = false ->
  bucket_ok (bucket ++ [r]).
Proof.
  intros [H1 H2] Hr Hno. split; [apply Forall_app; split; [done|by constructor]|].
  assert (Hn : forall e, In e bucket -> SameShape (segments e) (segments r) = false).
  { intros e He. apply not_true_is_false. intros Ht.
    assert (Hex : existsb (fun e => SameShape (segments e) (segments r)) bucket = true)
      by (apply existsb_exists; eauto). congruence. }
  intros x y Hx Hy Hs. apply in_app_or in Hx as [Hx|[<-|[]]], Hy as [Hy|[<-|[]]]; auto.
  - rewrite Hn in Hs by done. done.
  - rewrite SameShape_sym, Hn in Hs by done. done.
Qed.

Lemma Add_spec method pattern h op routes :
  router_ok routes ->
  match Add method pattern h op routes with
  | (Err _, routes') => routes' = routes
  | (Ok _, routes') => router_ok routes'
      /\ exists p, ParsePattern pattern = Ok p
         /\ forall m, sm_lookup m routes'
            = if decide (m = method)
              then Some (default [] (sm_lookup method routes) ++ [mkEntry p h op])
              else sm_lookup m routes
  end.
Proof.
  intros [Hok Hb]. unfold Add. destruct (ParsePattern pattern) as [p|e] eqn:Ep; [|done].
  apply ParsePattern_Ok in Ep as Hp.
  set (routes1 := sm_emplace method [] routes).
  assert (Hok1 : sm_ok routes1) by by apply sm_emplace_ok.
  assert (El : default [] (sm_lookup method routes1) = default [] (sm_lookup method routes)).
  { unfold routes1. rewrite sm_lookup_emplace, decide_True by done. by destruct (sm_lookup method routes). }
  rewrite El. assert (Hbk : bucket_ok (default [] (sm_lookup method routes))).
  { destruct (sm_lookup method routes) eqn:E; [by apply (Hb method)|]. split; [by constructor|].
    intros x y Hx. done. }
  destruct (existsb _ _) eqn:Ex.
  - unfold routes1, sm_emplace. destruct (sm_lookup method routes); done.
  - assert (Hl : forall m, sm_lookup m (sm_insert method
        (default [] (sm_lookup method routes) ++ [mkEntry p h op]) routes1)
      = if decide (m = method) then Some (default [] (sm_lookup method routes) ++ [mkEntry p h op])
        else sm_lookup m routes).
    { intros m. rewrite sm_lookup_insert by done. destruct (decide (m = method)); [done|].
      unfold routes1. by rewrite sm_lookup_emplace, decide_False. }
    split; [|by exists p]. split; [by apply sm_insert_ok|]. intros m bucket. rewrite Hl.
    destruct (decide (m = method)); [|by apply Hb]. intros [= <-]. by apply bucket_ok_snoc.
Qed.

(** ** Building a target for a pattern *)

Section target.
  (* The value of each label, as the caller gives it. *)
  Context (v : bytes -> bytes).

Definition segment_text (s : Segment) : bytes :=
  match kind s with
  | kLiteral => text s
  | kLabel => EncodePathSegment (v (text s))
  | kGreedy => EncodeGreedyPathSegment (v (text s))
  end.

Definition pattern_target (p : list Segment) : bytes :=
  "/"%byte :: join "/"%byte (map segment_text p).

(** The decoded segments such a target has. *)
Definition segment_values (s : Segment) : list bytes :=
  match kind s with
  | kLiteral => [text s]
  | kLabel => [v (text s)]
  | kGreedy => pieces true "/"%byte (v (text s))
  end.

Definition pattern_segments (p : list Segment) : list bytes := mjoin (map segment_values p).

(** Literals a URI can carry as they are, values that are not empty and greedy
    values that do not end in a slash. *)
Definition value_ok (s : Segment) : Prop :=
  match kind s with
  | kLiteral => Forall (fun c => IsUnreserved c = true) (text s)
  | kLabel => v (text s) <> []
  | kGreedy => v (text s) <> [] /\ ends_with_byte "/"%byte (v (text s)) = false
  end.

Lemma Encode_unreserved s keep :
  Forall (fun c => IsUnreserved c = true) s -> Encode s keep = s.
Proof. induction 1 as [|c s Hc _ IH]; simpl; [done|]. by rewrite Hc, IH. Qed.

Lemma Encode_app a b keep : Encode (a ++ b) keep = Encode a keep ++ Encode b keep.
Proof.
  induction a as [|c a IH]; simpl; [done|]. rewrite IH. by destruct (_ || _).
Qed.

Lemma Encode_slash_free s : "/"%byte ∉ s -> Encode s true = Encode s false.
Proof.
  induction s as [|c s IH]; intros H; simpl; [done|]. apply not_elem_of_cons in H as [Hc H].
  rewrite IH by done. destruct (byte_eqb_spec c "/"%byte); [congruence|]. done.
Qed.

Lemma Encode_join l :
  Forall (fun s => "/"%byte ∉ s) l ->
  Encode (join "/"%byte l) true = join "/"%byte (map (fun s => Encode s false) l).
Proof.
  induction 1 as [|s l Hs Hl IH]; [done|]. destruct l as [|s2 l]; [by apply Encode_slash_free|].
  cbn [map]. rewrite !join_cons, Encode_app by done. cbn [map] in IH.
  rewrite Encode_slash_free by done. f_equal.
  change (Encode ("/"%byte :: join "/"%byte (s2 :: l)) true)
    with ("/"%byte :: Encode (join "/"%byte (s2 :: l)) true). by rewrite IH.
Qed.

Lemma segment_text_values s :
  value_ok s -> text s <> [] ->
  segment_text s = join "/"%byte (map EncodePathSegment (segment_values s))
  /\ segment_values s <> [] /\ last (segment_values s) <> Some [].
Proof.
  unfold value_ok, segment_text, segment_values, EncodePathSegment, EncodeGreedyPathSegment.
  destruct (kind s); simpl.
  - intros H Hne. rewrite Encode_unreserved by done. split; [done|]. split; [done|]. congruence.
  - intros H _. split; [done|]. split; [done|]. congruence.
  - intros [H He] _. destruct (pieces_spec "/"%byte (v (text s)) H) as (H1 & H2 & H3 & H4).
    rewrite <- Encode_join, H1 by done. auto.
Qed.

Lemma join_app a b : a <> [] -> b <> [] -> join "/"%byte (a ++ b) = join "/"%byte a ++ "/"%byte :: join "/"%byte b.
Proof.
  intros Ha Hb. induction a as [|s a IH]; [done|]. destruct a as [|s2 a].
  - simpl. destruct b; done.
  - change ((s :: s2 :: a) ++ b) with (s :: (s2 :: a) ++ b). rewrite !join_cons by done.
    rewrite IH by done. by rewrite <- app_assoc.
Qed.

Lemma pattern_target_text p :
  Forall (fun s => value_ok s /\ text s <> []) p ->
  join "/"%byte (map segment_text p) = join "/"%byte (map EncodePathSegment (pattern_segments p))
  /\ (p <> [] -> pattern_segments p <> []) /\ last (pattern_segments p) <> Some [].
Proof.
  induction 1 as [|s p [Hv Hne] Hp (E & Hn & Hl)]; [done|].
  destruct (segment_text_values s Hv Hne) as (Es & Hns & Hls).
  unfold pattern_segments in *. cbn [map mjoin list_join]. destruct p as [|s2 p].
  - simpl. rewrite app_nil_r. auto.
  - specialize (Hn ltac:(done)). rewrite join_cons by done. rewrite Es, E, map_app.
    split; [|split].
    + rewrite join_app; [done| |]; by intros ?%map_eq_nil.
    + intros _ [? _]%app_eq_nil. done.
    + rewrite last_app. destruct (last (mjoin _)) eqn:El; [done|].
      apply last_None in El. done.
Qed.

(** The labels a match has collected so far are the caller's values. *)
Definition labels_ok (l : list (bytes * bytes)) : Prop :=
  sm_ok l /\ forall n w, sm_lookup n l = Some w -> w = v n.

Lemma labels_ok_emplace n l :
  labels_ok l -> labels_ok (sm_emplace n (v n) l) /\ sm_lookup n (sm_emplace n (v n) l) = Some (v n)
    /\ forall n', is_Some (sm_lookup n' l) -> is_Some (sm_lookup n' (sm_emplace n (v n) l)).
Proof.
  intros [Hok Hl]. split; [|split].
  - split; [by apply sm_emplace_ok|]. intros n' w. rewrite sm_lookup_emplace by done.
    destruct (decide (n' = n)) as [->|]; [|apply Hl].
    destruct (sm_lookup n l) eqn:E; simpl; [|congruence]. apply Hl in E. congruence.
  - rewrite sm_lookup_emplace, decide_True by done.
    destruct (sm_lookup n l) eqn:E; simpl; [|done]. apply Hl in E. congruence.
  - intros n' [w Hw]. rewrite sm_lookup_emplace by done. destruct (decide (n' = n)); eauto.
Qed.

Lemma match_loop_target p l :
  pattern_ok p -> Forall value_ok p -> labels_ok l ->
  exists l', match_loop p (pattern_segments p) l = Some l' /\ labels_ok l'
    /\ (forall n, is_Some (sm_lookup n l) -> is_Some (sm_lookup n l'))
    /\ forall s, s ∈ p -> kind s <> kLiteral -> is_Some (sm_lookup (text s) l').
Proof.
  revert l. induction p as [|s p IH]; intros l Hp Hv Hl.
  { exists l. split; [done|]. split; [done|]. split; [done|]. intros s Hs. by apply elem_of_nil in Hs. }
  apply pattern_ok_cons in Hp as (Hne & Hg & Hp). apply Forall_cons in Hv as [Hs Hv].
  unfold pattern_segments in *. cbn [map mjoin list_join match_loop].
  assert (Esv : segment_values s = match kind s with
    | kLiteral => [text s] | kLabel => [v (text s)]
    | kGreedy => pieces true "/"%byte (v (text s)) end) by done.
  rewrite Esv. clear Esv. unfold value_ok in Hs. unfold is_greedy in Hg.
  destruct (kind s) eqn:Ek; cbn [app].
  - rewrite (proj2 (bytes_eqb_eq _ _) eq_refl). destruct (IH l Hp Hv Hl) as (l' & H1 & H2 & H3 & H4).
    exists l'. split; [done|]. split; [done|]. split; [done|]. intros x [->|Hx]%elem_of_cons; [congruence|auto].
  - destruct (labels_ok_emplace (text s) l Hl) as (G1 & G2 & G3).
    destruct (IH _ Hp Hv G1) as (l' & H1 & H2 & H3 & H4). exists l'.
    split; [by destruct (v (text s))|]. split; [done|]. split; [auto|].
    intros x [->|Hx]%elem_of_cons; [|auto]. intros _. apply H3. by rewrite G2.
  - destruct Hs as [Hvn He]. destruct p as [|s2 p]; [|by specialize (Hg ltac:(done))]. simpl.
    rewrite app_nil_r. destruct (pieces_spec "/"%byte (v (text s)) Hvn) as (J & _ & Hnn & Hlast).
    destruct (labels_ok_emplace (text s) l Hl) as (G1 & G2 & G3).
    destruct (pieces true "/"%byte (v (text s))) as [|a b] eqn:Epi; [done|].
    exists (sm_emplace (text s) (v (text s)) l). rewrite J. split.
    { destruct a as [|x a]; [|done]. destruct b; [|done]. by specialize (Hlast He). }
    split; [done|]. split; [done|]. intros x [->|Hx]%elem_of_cons; [intros _; by rewrite G2|].
    by apply elem_of_nil in Hx.
Qed.

Lemma pattern_segments_size p :
  pattern_ok p -> Forall value_ok p ->
  if has_greedy p then len p <= len (pattern_segments p) else len (pattern_segments p) = len p.
Proof.
  unfold has_greedy, pattern_segments. induction p as [|s p IH]; intros Hp Hv; [done|].
  apply pattern_ok_cons in Hp as (Hne & Hg & Hp). apply Forall_cons in Hv as [Hs Hv].
  specialize (IH Hp Hv). cbn [map mjoin list_join]. rewrite len_app, len_cons.
  destruct p as [|s2 p].
  - simpl. unfold segment_values, value_ok, is_greedy in *. destruct (kind s); simpl; try done.
    destruct Hs as [Hvn _]. destruct (pieces_spec "/"%byte _ Hvn) as (_ & _ & Hnn & _).
    destruct (pieces true "/"%byte (v (text s))) as [|a b]; [done|].
    rewrite len_cons. pose proof (len_nonneg b). change (len ([] : list Segment)) with 0.
    change (len (mjoin [] : list bytes)) with 0. lia.
  - specialize (Hg ltac:(done)).
    assert (E : len (segment_values s) = 1) by (unfold segment_values, is_greedy in *; by destruct (kind s)).
    rewrite E. change (last (s :: s2 :: p)) with (last (s2 :: p)). revert IH.
    destruct (match last (s2 :: p) with Some s => is_greedy s | None => false end); intros H;
      [by apply Z.add_le_mono_l|by f_equal].
Qed.

Lemma pattern_target_matches p args :
  pattern_ok p -> Forall value_ok p ->
  Forall (fun arg => snd arg = None -> fst arg <> []) args ->
  exists labels,
    NormalizedTarget (pattern_target p ++ ToString (build_query args))
    = Ok (mkTarget (pattern_segments p) (map (fun arg => (fst arg, default [] (snd arg))) args))
    /\ MatchLabels p (pattern_segments p) = Some labels
    /\ forall s, s ∈ p -> kind s <> kLiteral -> sm_lookup (text s) labels = Some (v (text s)).
Proof.
  intros Hp Hv Ha.
  assert (Hpv : Forall (fun s => value_ok s /\ text s <> []) p).
  { clear Ha. induction p as [|s p IH]; [done|]. apply pattern_ok_cons in Hp as (? & _ & Hp).
    apply Forall_cons in Hv as [? Hv]. constructor; auto. }
  destruct (pattern_target_text p Hpv) as (E & Hn & Hl).
  destruct (match_loop_target p [] Hp Hv) as (l & Hm & [_ Hlv] & _ & Hall); [done|].
  exists l. split; [|split].
  - unfold NormalizedTarget, pattern_target. rewrite E.
    change ("/"%byte :: join "/"%byte (map EncodePathSegment (pattern_segments p)) ++ ToString (build_query args))
      with (target_text (pattern_segments p) (build_query args)).
    cbn [app]. fold (target_text (pattern_segments p) (build_query args)).
    rewrite parse_target; [|by intros E0; rewrite E0 in Hl|done]. cbn [mbind Outcome_bind].
    f_equal. unfold path_segments, query_params. f_equal.
    destruct (last (pattern_segments p)) as [[|x s]|]; [done|done|done].
  - pose proof (pattern_segments_size p Hp Hv) as Hsz. unfold MatchLabels.
    destruct (has_greedy p).
    + destruct (Z.ltb_spec (len (pattern_segments p)) (len p)); [lia|done].
    + by rewrite Hsz, Z.eqb_refl.
  - intros s Hs Hk. destruct (Hall s Hs Hk) as [w Hw]. rewrite Hw. f_equal. by apply Hlv.
Qed.

End target.

(** ** Dispatch *)

Lemma allowed_methods_iff method segs routes m :
  router_ok routes ->
  m ∈ allowed_methods method segs routes
  <-> m <> method /\ exists bucket r, sm_lookup m routes = Some bucket /\ r ∈ bucket
        /\ route_matches segs r = true.
Proof.
  intros [Hok _]. unfold allowed_methods. rewrite list_elem_of_fmap. split.
  - intros ([m' bucket] & -> & H). apply list_elem_of_filter in H as [H Hin]. simpl in *.
    zbool. apply existsb_exists in H0 as (r & Hr & Hm). split.
    + intros ->. by rewrite (proj2 (bytes_eqb_eq method method) eq_refl) in H.
    + exists bucket, r. split; [by apply sm_lookup_elem|]. split; [by apply list_elem_of_In|done].
  - intros (Hne & bucket & r & Hl & Hr & Hm). exists (m, bucket). split; [done|].
    apply list_elem_of_filter. split; [|by apply sm_lookup_elem]. simpl. apply andb_true_iff. split.
    + apply negb_true_iff, not_true_is_false. intros E. by apply bytes_eqb_eq in E.
    + apply existsb_exists. exists r. split; [by apply list_elem_of_In|done].
Qed.

Lemma allow_text_nil methods :
  Forall (fun m => m <> []) methods -> allow_text methods = [] -> methods = [].
Proof.
  unfold allow_text. destruct methods as [|m methods]; [done|]. intros H Hn. exfalso. revert Hn.
  apply Forall_cons in H as [Hm _]. simpl. generalize dependent m.
  induction methods as [|m2 methods IH]; intros m Hm; simpl; [done|]. destruct m as [|x m]; [done|].
  by apply IH.
Qed.

(** The handler's response with the operation stamped on it. *)
Definition stamp_operation (op : bytes) (response : HttpResponse) : HttpResponse :=
  match op with
  | [] => response
  | _ => mkResponse (rs_status response) (rs_headers response) (rs_body response) op
  end.

Definition dispatched (routes : list (bytes * list RouteEntry)) (rq : HttpRequest)
    (target : RequestTarget) (response : HttpResponse) : Prop :=
  let segs := path_segments target in
  let bucket := default [] (sm_lookup (rq_method rq) routes) in
  (exists r labels, wins segs bucket (Some r) /\ MatchLabels (segments r) segs = Some labels
     /\ response = stamp_operation (operation r)
          (handler r rq (mkContext labels (query_params target) rq)))
  \/ wins segs bucket None
     /\ ((exists m others b r, m <> rq_method rq /\ sm_lookup m routes = Some b /\ r ∈ b
           /\ route_matches segs r = true
           /\ rs_status response = 405
           /\ Get (lit "Allow") (rs_headers response) = Some (allow_text others)
           /\ forall m', m' ∈ others <-> m' <> rq_method rq /\ exists bucket r,
                sm_lookup m' routes = Some bucket /\ r ∈ bucket /\ route_matches segs r = true)
         \/ (forall m b r, sm_lookup m routes = Some b -> r ∈ b -> route_matches segs r = false)
            /\ rs_status response = 404).

Lemma wins_default routes method segs :
  router_ok routes ->
  wins segs (default [] (sm_lookup method routes))
    (match sm_lookup method routes with Some bucket => best_route bucket segs | None => None end).
Proof.
  intros [_ Hb]. destruct (sm_lookup method routes) as [bucket|] eqn:E; simpl.
  - apply best_route_wins. by apply (Hb method).
  - intros r Hr. by apply elem_of_nil in Hr.
Qed.

Lemma Route_dispatched routes rq target :
  router_ok routes -> Forall (fun e => fst e <> []) routes ->
  NormalizedTarget (rq_target rq) = Ok target -> dispatched routes rq target (Route routes rq).
Proof.
  intros Hok Hnames Ht. unfold Route. rewrite Ht. unfold dispatched.
  set (segs := path_segments target).
  pose proof (wins_default routes (rq_method rq) segs Hok) as Hw.
  destruct (match sm_lookup (rq_method rq) routes with Some b => _ | None => None end) as [r|].
  - left. pose proof Hw as (_ & Hm & _). unfold route_matches, MatchSegments in Hm.
    destruct (MatchLabels (segments r) segs) as [l|] eqn:El; [|done]. exists r, l.
    split; [done|]. split; [done|]. simpl. by destruct (operation r).
  - right. split; [done|].
    pose proof (fun m => allowed_methods_iff (rq_method rq) segs routes m Hok) as Hiff.
    assert (Hne : Forall (fun m => m <> []) (allowed_methods (rq_method rq) segs routes)).
    { apply Forall_forall. intros m Hm. apply Hiff in Hm as (_ & b & r & Hl & _).
      apply sm_lookup_elem in Hl; [|apply Hok]. rewrite Forall_forall in Hnames.
      by apply (Hnames _ Hl). }
    destruct (allow_text (allowed_methods (rq_method rq) segs routes)) as [|x a] eqn:Ea.
    + right. split; [|done]. apply allow_text_nil in Ea; [|done]. intros m b r Hl Hr.
      apply not_true_is_false. intros Hm. destruct (decide (m = rq_method rq)) as [->|Hne'].
      * rewrite Hl in Hw. simpl in Hw. rewrite Hw in Hm by done. done.
      * assert (Hin : m ∈ allowed_methods (rq_method rq) segs routes)
          by (apply Hiff; split; [done|]; by exists b, r).
        rewrite Ea in Hin. by apply elem_of_nil in Hin.
    + left. destruct (allowed_methods (rq_method rq) segs routes) as [|m others] eqn:Eo; [done|].
      assert (Hin : m ∈ allowed_methods (rq_method rq) segs routes) by (rewrite Eo; by left).
      rewrite <- Eo in *. apply Hiff in Hin as (Hne' & b & r & Hl & Hr & Hm).
      exists m, (allowed_methods (rq_method rq) segs routes), b, r. rewrite Ea.
      split; [done|]. split; [done|]. split; [done|]. split; [done|]. split; [done|].
      split; [|done]. cbn [rs_headers]. by rewrite Get_Set.
Qed.

(** ** Claims *)

(** C10: the most specific route wins whatever the order of registration: in a
    bucket without conflicts the scan returns a matching route that is more
    specific than every other matching one, none only when nothing matches, and
    the same route for every permutation of the bucket. *)
Theorem best_route_most_specific bucket segs :
  bucket_ok bucket ->
  wins segs bucket (best_route bucket segs)
  /\ forall bucket', bucket ≡ₚ bucket' -> best_route bucket' segs = best_route bucket segs.
Proof.
  intros Hok. split; [by apply best_route_wins|]. intros bucket' Hp.
  assert (Hok' : bucket_ok bucket').
  { destruct Hok as [H1 H2]. split; [by rewrite <- Hp|]. intros x y Hx Hy.
    apply H2; (eapply Permutation_in; [symmetry; exact Hp|done]). }
  symmetry. by apply best_route_perm.
Qed.

Lemma best_route_most_specific_witness :
  let r1 := mkEntry [mkSegment kLiteral (lit "a"); mkSegment kLabel (lit "x")] (fun _ _ => mkResponse 200 [] [] []) [] in
  let r2 := mkEntry [mkSegment kLiteral (lit "a"); mkSegment kGreedy (lit "y")] (fun _ _ => mkResponse 201 [] [] []) [] in
  wins [lit "a"; lit "b"] [r1; r2] (best_route [r1; r2] [lit "a"; lit "b"])
  /\ forall bucket', [r1; r2] ≡ₚ bucket' ->
       best_route bucket' [lit "a"; lit "b"] = best_route [r1; r2] [lit "a"; lit "b"].
Proof.
  intros r1 r2. apply best_route_most_specific. split.
  - repeat constructor; done.
  - intros x y [<-|[<-|[]]] [<-|[<-|[]]]; done.
Defined.

(** registration keeps the table sound: [Add] on a sound table either
    refuses and leaves it as it was, or adds exactly the parsed route to its
    method's bucket and the table stays sorted, conflict free and made of
    well-formed patterns. *)
Theorem Add_sound method pattern h op routes :
  router_ok routes ->
  match Add method pattern h op routes with
  | (Err _, routes') => routes' = routes
  | (Ok _, routes') => router_ok routes'
      /\ exists p, ParsePattern pattern = Ok p
         /\ forall m, sm_lookup m routes'
            = if decide (m = method)
              then Some (default [] (sm_lookup method routes) ++ [mkEntry p h op])
              else sm_lookup m routes
  end.
Proof. apply Add_spec. Qed.

Lemma Add_sound_witness :
  let h := fun _ _ => mkResponse 200 [] [] [] in
  match Add (lit "GET") (lit "/a/{b}") h [] [] with
  | (Err _, routes') => routes' = []
  | (Ok _, routes') => router_ok routes'
      /\ exists p, ParsePattern (lit "/a/{b}") = Ok p
         /\ forall m, sm_lookup m routes'
            = if decide (m = lit "GET")
              then Some (default [] (sm_lookup (lit "GET") []) ++ [mkEntry p h []])
              else sm_lookup m []
  end.
Proof. intros h. apply Add_sound. split; [done|]. intros m b. done. Defined.

(** C17: [Router::Route] is total and classifies every request: a malformed
    target is a 400; otherwise the most specific matching route of the method
    runs with the captured labels and its operation stamped on the response;
    without one, a match under another method is a 405 whose Allow header lists
    exactly the methods that match, and no match at all is a 404. *)
Theorem Route_classifies routes rq :
  router_ok routes -> Forall (fun e => fst e <> []) routes ->
  match NormalizedTarget (rq_target rq) with
  | Err _ => rs_status (Route routes rq) = 400
  | Ok target => dispatched routes rq target (Route routes rq)
  end.
Proof.
  intros Hok Hn. destruct (NormalizedTarget (rq_target rq)) eqn:E; [by apply Route_dispatched|].
  unfold Route. by rewrite E.
Qed.

(** A table of four registrations, under three methods. *)
Definition reply (name : bytes) : RouteHandler := fun rq context =>
  mkResponse 200 [] (name ++ mjoin (snd <$> labels context)) [].

Definition sample_table : list (bytes * list RouteEntry) :=
  let add method pattern name routes := snd (Add method pattern (reply name) name routes) in
  add (lit "PUT") (lit "/a/{x}") (lit "PutA") (add (lit "DELETE") (lit "/d/{rest+}") (lit "DropD")
    (add (lit "GET") (lit "/a/b") (lit "GetB") (add (lit "GET") (lit "/a/{x}") (lit "GetA") []))).

Lemma Add_router_ok method pattern h op routes : router_ok routes -> router_ok (snd (Add method pattern h op routes)).
Proof.
  intros Hok. pose proof (Add_spec method pattern h op routes Hok) as H.
  destruct (Add method pattern h op routes) as [[u|e] routes']; [by destruct H as [? _]|by subst].
Qed.

Lemma sample_ok : router_ok sample_table.
Proof. do 4 apply Add_router_ok. split; [done|]. by intros m b. Qed.

Notation sample method target := (mkRequest method target [] [] []).
(** A request of the sample, its normalized target, and the answer. *)
Notation classified rq target answer :=
  (NormalizedTarget (rq_target rq) = Ok target /\ dispatched sample_table rq target (Route sample_table rq)
   /\ Route sample_table rq = answer).

Lemma Route_classifies_witness :
  length sample_table = 3%nat
  /\ classified (sample (lit "GET") (lit "/a/b/")) (mkTarget [lit "a"; lit "b"] []) (mkResponse 200 [] (lit "GetB") (lit "GetB"))
  /\ classified (sample (lit "GET") (lit "/a/c?q=1")) (mkTarget [lit "a"; lit "c"] [(lit "q", lit "1")])
       (mkResponse 200 [] (lit "GetAc") (lit "GetA"))
  /\ classified (sample (lit "DELETE") (lit "/a/b")) (mkTarget [lit "a"; lit "b"] [])
       (mkResponse 405 [(lit "content-type", lit "application/json"); (lit "allow", lit "GET, PUT")]
          (rs_body (MakeErrorResponse 405 (lit "MethodNotAllowed") (lit "method not allowed"))) [])
  /\ classified (sample (lit "POST") (lit "/b")) (mkTarget [lit "b"] [])
       (MakeErrorResponse 404 (lit "NotFound") (lit "no route matches the request"))
  /\ is_ok (NormalizedTarget (lit "/%zz")) = false
  /\ rs_status (Route sample_table (sample (lit "GET") (lit "/%zz"))) = 400.
Proof.
  assert (Hn : Forall (fun e => fst e <> []) sample_table) by by repeat constructor.
  pose proof (Route_classifies sample_table (sample (lit "GET") (lit "/a/b/")) sample_ok Hn) as H1.
  pose proof (Route_classifies sample_table (sample (lit "GET") (lit "/a/c?q=1")) sample_ok Hn) as H2.
  pose proof (Route_classifies sample_table (sample (lit "DELETE") (lit "/a/b")) sample_ok Hn) as H3.
  pose proof (Route_classifies sample_table (sample (lit "POST") (lit "/b")) sample_ok Hn) as H4.
  pose proof (Route_classifies sample_table (sample (lit "GET") (lit "/%zz")) sample_ok Hn) as H5.
  split; [reflexivity|].
  split; [split; [reflexivity|split; [exact H1|reflexivity]]|].
  split; [split; [reflexivity|split; [exact H2|reflexivity]]|].
  split; [split; [reflexivity|split; [exact H3|reflexivity]]|].
  split; [split; [reflexivity|split; [exact H4|reflexivity]]|].
  split; [reflexivity|exact H5].
Defined.

(** client and server agree on label values: for a parsed pattern and
    non-empty label values, the target built by encoding each value in its
    place is parsed, normalized and matched by the pattern, and every label,
    greedy ones included, captures exactly the raw value (greedy values must
    not end in '/', which normalization drops). *)
Theorem pattern_target_roundtrip v p args :
  pattern_ok p -> Forall (value_ok v) p ->
  Forall (fun arg => snd arg = None -> fst arg <> []) args ->
  exists labels,
    NormalizedTarget (pattern_target v p ++ ToString (build_query args))
    = Ok (mkTarget (pattern_segments v p) (map (fun arg => (fst arg, default [] (snd arg))) args))
    /\ MatchLabels p (pattern_segments v p) = Some labels
    /\ forall s, s ∈ p -> kind s <> kLiteral -> sm_lookup (text s) labels = Some (v (text s)).
Proof. apply pattern_target_matches. Qed.

Lemma pattern_target_roundtrip_witness :
  let p := [mkSegment kLiteral (lit "files"); mkSegment kLabel (lit "id"); mkSegment kGreedy (lit "path")] in
  let v := fun n => if bytes_eqb n (lit "id") then lit "a/b %" else lit "x//y z" in
  exists labels,
    NormalizedTarget (pattern_target v p ++ ToString (build_query []))
    = Ok (mkTarget (pattern_segments v p) [])
    /\ MatchLabels p (pattern_segments v p) = Some labels
    /\ forall s, s ∈ p -> kind s <> kLiteral -> sm_lookup (text s) labels = Some (v (text s)).
Proof.
  intros p v. apply (pattern_target_roundtrip v p []).
  - by repeat split.
  - repeat constructor; by vm_compute.
  - constructor.
Defined.

(** A greedy value that ends in a slash comes back without it. *)
Lemma greedy_trailing_slash_lost :
  let p := [mkSegment kGreedy (lit "path")] in
  exists target, NormalizedTarget (pattern_target (fun _ => lit "a/b/") p) = Ok target
    /\ MatchLabels p (path_segments target) = Some [(lit "path", lit "a/b")].
Proof. eexists. by vm_compute. Qed.
