(* ===== verification/Http1.v ===== *)
(** http/http1.cc, the HTTP/1.1 message reader, and the request and response
    writers of http/socket_transport.cc that feed it.  The byte source is the
    sequence of results its [read] calls return; [None] means the reader is
    still waiting for the next one. *)
From Stdlib Require Import ZArith Lia Strings.Byte.
From S2P Require Import Prelude Bytes Headers.

Local Open Scope Z_scope.

Definition CR : Byte.byte := "013"%byte.
Definition LF : Byte.byte := "010"%byte.
Definition CRLF : bytes := [CR; LF].
Definition CRLF2 : bytes := [CR; LF; CR; LF].

Definition kMaxHeaderBytes : Z := 64 * 1024.
Definition kDefaultMaxBodyBytes : Z := 64 * 1024 * 1024.

Record Http1Message := mkMessage {
  start_line : bytes;
  headers : list (bytes * bytes);
  body : bytes
}.

(** What one [read] call returns: bytes, end of file, or an error. *)
Inductive ReadResult := Data (chunk : bytes) | Eof | Failed.

Definition transport_error (what : bytes) : Error := Error_Transport what true.

Definition BodyTooLarge (max_body_bytes : Z) : Error :=
  Error_Transport (lit "http: response body exceeds max_response_bytes ("
                   ++ to_string max_body_bytes ++ lit " bytes)") false.

(** The header-reading loop: the buffer, where the headers end in it, and the
    reads left. *)
Fixpoint read_head (reads : list ReadResult) (buffer : bytes)
    : option (Outcome (nat * bytes * list ReadResult)) :=
  if len buffer >? kMaxHeaderBytes then Some (Err (transport_error (lit "http: headers too large")))
  else
    match reads with
    | [] => None
    | Failed :: _ => Some (Err (transport_error (lit "http: read failed")))
    | Eof :: _ => Some (Err (transport_error (lit "http: connection closed mid-headers")))
    | Data chunk :: reads =>
      let buffer := buffer ++ chunk in
      match find_sub CRLF2 buffer with
      | Some header_end => Some (Ok (header_end, buffer, reads))
      | None => read_head reads buffer
      end
    end.

(** One field line. *)
Definition parse_line (line : bytes) : Outcome (bytes * bytes) :=
  match cut ":"%byte line with
  | (name, Some value) => Ok (name, TrimSpaces value)
  | (_, None) => Err (transport_error (lit "http: malformed header line"))
  end.

(** [find("\r\n")] and the text before and after it. *)
Definition cut_line (s : bytes) : bytes * option bytes :=
  match find_sub CRLF s with
  | Some i => (take i s, Some (drop (i + 2) s))
  | None => (s, None)
  end.

Fixpoint header_loop (fuel : nat) (header_block : bytes) (h : list (bytes * bytes))
    : Outcome (list (bytes * bytes)) :=
  match fuel, header_block with
  | S fuel', _ :: _ =>
    let '(line, rest) := cut_line header_block in
    '(name, value) ← parse_line line;
    let h := Add name value h in
    match rest with
    | None => Ok h
    | Some rest => header_loop fuel' rest h
    end
  | _, _ => Ok h
  end.

Definition parse_head (head : bytes) : Outcome (bytes * list (bytes * bytes)) :=
  let '(start, rest) := cut_line head in
  let header_block := match rest with Some b => b | None => [] end in
  h ← header_loop (length header_block) header_block [];
  Ok (start, h).

(** [strtoull] on digits: saturates. *)
Definition strtoull (digits : bytes) : Z := Z.min (dec_value digits) (2 ^ 64 - 1).

(** Reading a body of known length. *)
Fixpoint read_exact (reads : list ReadResult) (b : bytes) (length : Z) : option (Outcome bytes) :=
  if len b <? length then
    match reads with
    | [] => None
    | Data chunk :: reads => read_exact reads (b ++ chunk) length
    | _ :: _ => Some (Err (transport_error (lit "http: connection closed mid-body")))
    end
  else if negb (len b =? length) then Some (Err (transport_error (lit "http: excess body bytes")))
  else Some (Ok b).

(** Reading a body until the connection closes. *)
Fixpoint read_until_eof (reads : list ReadResult) (b : bytes) (max_body_bytes : Z)
    : option (Outcome bytes) :=
  if len b >? max_body_bytes then Some (Err (BodyTooLarge max_body_bytes))
  else
    match reads with
    | [] => None
    | Failed :: _ => Some (Err (transport_error (lit "http: read failed")))
    | Eof :: _ => Some (Ok b)
    | Data chunk :: reads => read_until_eof reads (b ++ chunk) max_body_bytes
    end.

Definition read_body (reads : list ReadResult) (body_until_eof : bool) (max_body_bytes : Z)
    (h : list (bytes * bytes)) (b : bytes) : option (Outcome bytes) :=
  match Get (lit "content-length") h with
  | Some length_text =>
    if negb (AllDigits length_text) then
      Some (Err (transport_error (lit "http: invalid content-length")))
    else
      let length := strtoull length_text in
      if length >? max_body_bytes then Some (Err (BodyTooLarge max_body_bytes))
      else read_exact reads b length
  | None => if body_until_eof then read_until_eof reads b max_body_bytes else Some (Ok b)
  end.

Definition ReadHttp1Message (reads : list ReadResult) (body_until_eof has_body : bool)
    (max_body_bytes : Z) : option (Outcome Http1Message) :=
  match read_head reads [] with
  | None => None
  | Some (Err e) => Some (Err e)
  | Some (Ok (header_end, buffer, reads)) =>
    match parse_head (take header_end buffer) with
    | Err e => Some (Err e)
    | Ok (start, h) =>
      if len (GetAll (lit "content-length") h) >? 1 then
        Some (Err (transport_error (lit "http: conflicting content-length")))
      else if Has (lit "transfer-encoding") h then
        Some (Err (transport_error (lit "http: transfer-encoding is not supported")))
      else if negb has_body then Some (Ok (mkMessage start h []))
      else
        match read_body reads body_until_eof max_body_bytes h (drop (header_end + 4) buffer) with
        | None => None
        | Some (Err e) => Some (Err e)
        | Some (Ok b) => Some (Ok (mkMessage start h b))
        end
    end
  end.

Definition ParseRequestLine (line : bytes) : option (bytes * bytes) :=
  match cut " "%byte line with
  | (method, Some rest) =>
    match cut " "%byte rest with
    | (target, Some _) => Some (method, target)
    | (_, None) => None
    end
  | (_, None) => None
  end.

(** [atoi] as glibc defines it, [(int)strtol(s, NULL, 10)]: blanks, a sign,
    digits, clamped to 64 bits and cut to 32. *)
Fixpoint atoi_digits (s : bytes) (v : Z) : Z :=
  match s with
  | c :: s' => if is_digit c then atoi_digits s' (v * 10 + digit_value c) else v
  | [] => v
  end.

Definition is_space (c : Byte.byte) : bool :=
  byte_eqb c " "%byte || ((9 <=? b2z c) && (b2z c <=? 13)).

Definition strtol (s : bytes) : Z :=
  Z.max (- 2 ^ 63) (Z.min (2 ^ 63 - 1)
    match drop_while is_space s with
    | "-"%byte :: s => - atoi_digits s 0
    | "+"%byte :: s => atoi_digits s 0
    | s => atoi_digits s 0
    end).

Definition atoi (s : bytes) : Z := swrap 32 (strtol s).

Definition ParseStatusLine (line : bytes) : Outcome Z :=
  match find_byte " "%byte line with
  | Some space =>
    if (len line <? Z.of_nat space + 4) || negb (starts_with (lit "HTTP/") line) then
      Err (transport_error (lit "http: malformed status line: " ++ line))
    else
      let status := atoi (drop (S space) line) in
      if (status <? 100) || (status >? 599) then
        Err (transport_error (lit "http: implausible status in: " ++ line))
      else Ok status
  | None => Err (transport_error (lit "http: malformed status line: " ++ line))
  end.

(** ** The writers of the socket transport *)

Definition field_line (e : bytes * bytes) : bytes := fst e ++ lit ": " ++ snd e ++ CRLF.

(** [SocketHttpClient::Send] up to the write: the refusals and the text. *)
Definition client_wire (rq : HttpRequest) (host port_text : bytes) : Outcome bytes :=
  if (len (rq_method rq) =? 0) || negb (ValidRequestLineField (rq_method rq)) then
    Err (Error_Validation (lit "http: request method contains forbidden bytes or is empty"))
  else if negb (ValidRequestLineField (rq_target rq)) then
    Err (Error_Validation (lit "http: request target contains forbidden bytes"))
  else
    match FindUnsafeHeader (rq_headers rq) with
    | Some unsafe =>
      Err (Error_Validation (lit "http: request header " ++ [x22] ++ unsafe ++ [x22]
                             ++ lit " contains forbidden bytes"))
    | None =>
      Ok (rq_method rq ++ " "%byte :: rq_target rq ++ lit " HTTP/1.1" ++ CRLF
          ++ field_line (lit "host", host ++ ":"%byte :: port_text)
          ++ (if Has (lit "content-length") (rq_headers rq) then []
              else field_line (lit "content-length", to_string (len (rq_body rq))))
          ++ field_line (lit "connection", lit "close")
          ++ mjoin (field_line <$> rq_headers rq) ++ CRLF ++ rq_body rq)
    end.

(** The response as the server frames it. *)
Definition framed_response (rs : HttpResponse) : HttpResponse :=
  let h := Remove (lit "connection")
             (Remove (lit "transfer-encoding") (Remove (lit "content-length") (rs_headers rs))) in
  match FindUnsafeHeader h with
  | Some _ =>
    mkResponse 500 (Set_ (lit "content-type") (lit "text/plain") [])
      (lit "internal error: response header contains forbidden bytes") []
  | None => mkResponse (rs_status rs) h (rs_body rs) (rs_operation rs)
  end.

Definition server_wire (rs : HttpResponse) (head : bool) : bytes :=
  let rs := framed_response rs in
  lit "HTTP/1.1 " ++ int_text (rs_status rs) ++ " "%byte :: CRLF
  ++ field_line (lit "content-length", to_string (len (rs_body rs)))
  ++ field_line (lit "connection", lit "close")
  ++ mjoin (field_line <$> rs_headers rs) ++ CRLF
  ++ (if head then [] else rs_body rs).

(** The request the server hands to its handler, or the 400 it answers. *)
Definition server_request (m : Outcome Http1Message) (peer_address : bytes)
    : HttpResponse + HttpRequest :=
  match m with
  | Err e => inl (mkResponse 400 [] (err_message e) [])
  | Ok m =>
    match ParseRequestLine (start_line m) with
    | None => inl (mkResponse 400 [] (lit "malformed request line") [])
    | Some (method, target) => inr (mkRequest method target (headers m) (body m) peer_address)
    end
  end.

(** The reading half of [SocketHttpClient::Send]. *)
Definition client_read (method : bytes) (reads : list ReadResult) (max_response_bytes : Z)
    : option (Outcome HttpResponse) :=
  m ← ReadHttp1Message reads true (negb (bytes_eqb method (lit "HEAD"))) max_response_bytes;
  Some (m ← m; status ← ParseStatusLine (start_line m);
        Ok (mkResponse status (headers m) (body m) [])).

(** ** Finding the end of the head *)

Lemma find_sub_app_l pat a b i : find_sub pat a = Some i -> find_sub pat (a ++ b) = Some i.
Proof.
  revert i. induction a as [|x a IH]; intros i; cbn [find_sub app].
  - destruct (starts_with pat []) eqn:E; [|done]. intros [= <-].
    destruct pat; [|done]. by destruct b.
  - destruct (starts_with pat (x :: a)) eqn:E.
    + intros [= <-]. apply starts_with_spec in E as [t E]. rewrite app_comm_cons, E, <- (app_assoc pat).
      destruct (starts_with pat (pat ++ t ++ b)) eqn:E'; [done|].
      by rewrite (proj2 (starts_with_spec pat (pat ++ t ++ b))) in E' by eauto.
    + rewrite fmap_Some. intros (j & Hj & ->).
      destruct (starts_with pat (x :: a ++ b)) eqn:E'; [|by rewrite (IH _ Hj)].
      exfalso. apply find_sub_Some in Hj as (pre & post & -> & _).
      apply starts_with_spec in E' as [t E'].
      assert (starts_with pat (x :: pre ++ pat ++ post) = true); [|congruence].
      apply starts_with_spec. exists (drop (length pat) (x :: pre ++ pat ++ post)).
      rewrite <- (take_drop (length pat) (x :: pre ++ pat ++ post)) at 1. f_equal.
      apply (f_equal (take (length pat))) in E'. rewrite take_app_length in E'.
      rewrite app_comm_cons, take_app_le in E'; [done|].
      simpl. rewrite !length_app. lia.
Qed.

Lemma find_sub_app_None pat a b i :
  find_sub pat a = None -> find_sub pat (a ++ b) = Some i -> (length a < i + length pat)%nat.
Proof.
  intros Ha Hab. destruct (Nat.lt_ge_cases (length a) (i + length pat)) as [|Hle]; [done|].
  exfalso. apply find_sub_Some in Hab as (pre & post & E & <-).
  assert (H : starts_with pat (drop (length pre) a) = false) by (apply find_sub_None; [done|lia]).
  assert (H' : starts_with pat (drop (length pre) a) = true); [|congruence].
  apply starts_with_spec. exists (drop (length pre + length pat) a).
  apply (f_equal (drop (length pre))) in E. rewrite drop_app_length, drop_app_le in E by lia.
  apply (f_equal (take (length pat))) in E. rewrite take_app_length in E.
  rewrite take_app_le in E by (rewrite length_drop; lia).
  rewrite <- E at 1. by rewrite <- drop_drop, take_drop.
Qed.

Lemma mjoin_cons (c : bytes) cs : mjoin (c :: cs) = c ++ mjoin cs.
Proof. done. Qed.

Lemma mjoin_nil : mjoin ([] : list bytes) = [].
Proof. done. Qed.

(** Any chunking of a stream stops at the same end of head. *)
Lemma read_head_chunks chunks rest buffer i :
  find_sub CRLF2 buffer = None ->
  find_sub CRLF2 (buffer ++ mjoin chunks) = Some i -> Z.of_nat i + 4 <= kMaxHeaderBytes ->
  exists c1 c2, mjoin chunks = mjoin c1 ++ mjoin c2
    /\ (i + 4 <= length (buffer ++ mjoin c1))%nat
    /\ read_head ((Data <$> chunks) ++ rest) buffer
       = Some (Ok (i, buffer ++ mjoin c1, (Data <$> c2) ++ rest)).
Proof.
  revert buffer. induction chunks as [|c chunks IH]; intros buffer Hn Hs Hi.
  { simpl in Hs. rewrite app_nil_r in Hs. congruence. }
  assert (Hb : (len buffer >? kMaxHeaderBytes) = false).
  { pose proof (find_sub_app_None _ _ _ _ Hn Hs) as H. unfold CRLF2 in H. simpl in H.
    rewrite Z.gtb_ltb. apply Z.ltb_ge. unfold len. lia. }
  rewrite fmap_cons. cbn [app read_head]. rewrite Hb.
  rewrite mjoin_cons, app_assoc in Hs.
  destruct (find_sub CRLF2 (buffer ++ c)) as [j|] eqn:E.
  - pose proof (find_sub_app_l _ _ (mjoin chunks) _ E) as E'. rewrite E' in Hs. injection Hs as ->.
    exists [c], chunks. rewrite !mjoin_cons, mjoin_nil, app_nil_r. split; [done|]. split; [|done].
    apply find_sub_Some in E as (pre & post & -> & <-). rewrite !length_app. simpl. lia.
  - destruct (IH _ E Hs Hi) as (c1 & c2 & E1 & Hl & E2). exists (c :: c1), c2.
    rewrite !mjoin_cons, E1, E2, !app_assoc in *. done.
Qed.

Lemma read_exact_chunks chunks rest b n :
  len (b ++ mjoin chunks) = n ->
  read_exact ((Data <$> chunks) ++ rest) b n = Some (Ok (b ++ mjoin chunks)).
Proof.
  revert b. induction chunks as [|c chunks IH]; intros b Hn.
  - simpl in *. rewrite app_nil_r in *. destruct rest; cbn [read_exact];
      rewrite (proj2 (Z.ltb_ge _ _)), (proj2 (Z.eqb_eq _ _) Hn) by lia; done.
  - rewrite fmap_cons. cbn [app read_exact]. rewrite mjoin_cons, app_assoc in *. destruct (Z.ltb_spec (len b) n) as [Hl|Hl]; [by apply IH|].
    rewrite !len_app in Hn. pose proof (len_nonneg c). pose proof (len_nonneg (mjoin chunks)).
    rewrite (proj2 (Z.eqb_eq _ _)) by lia. cbn [negb].
    assert (len c = 0 /\ len (mjoin chunks) = 0) as [Hc Hm] by lia.
    unfold len in Hc, Hm. destruct c; [|simpl in Hc; lia]. destruct (mjoin chunks); [|simpl in Hm; lia].
    by rewrite !app_nil_r.
Qed.

(** ** A written message is read back *)

Definition field_text (e : bytes * bytes) : bytes := fst e ++ lit ": " ++ snd e.

(** The field lines as [ReadHttp1Message] cuts them out. *)
Fixpoint block (fields : list (bytes * bytes)) : bytes :=
  match fields with
  | [] => []
  | [e] => field_text e
  | e :: fields => field_text e ++ CRLF ++ block fields
  end.

Definition message_text (start : bytes) (fields : list (bytes * bytes)) (b : bytes) : bytes :=
  start ++ CRLF ++ mjoin (field_line <$> fields) ++ CRLF ++ b.

(** Fields the writers let through. *)
Definition field_ok (e : bytes * bytes) : Prop :=
  ValidHeaderName (fst e) = true /\ ValidHeaderValue (snd e) = true.

(** What the reader makes of a field. *)
Definition as_read (e : bytes * bytes) : bytes * bytes := (fst e, TrimSpaces (snd e)).

Lemma block_cons e fields :
  fields <> [] -> block (e :: fields) = field_text e ++ CRLF ++ block fields.
Proof. by destruct fields. Qed.

Lemma message_text_block start fields b :
  fields <> [] -> message_text start fields b = start ++ CRLF ++ block fields ++ CRLF2 ++ b.
Proof.
  intros Hne. unfold message_text. do 2 f_equal.
  induction fields as [|e fields IH]; [done|]. rewrite fmap_cons, mjoin_cons.
  destruct fields as [|e' fields].
  - unfold field_line, field_text. change (block [e]) with (field_text e).
    unfold field_text. cbn [fmap list_fmap]. rewrite mjoin_nil, <- !app_assoc. done.
  - rewrite block_cons by done. rewrite <- (app_assoc (field_line e)), IH by done.
    unfold field_line, field_text. by rewrite <- !app_assoc.
Qed.

Lemma find_sub_line pat l s :
  CR ∉ l -> find_sub (CR :: pat) (l ++ s) = Nat.add (length l) <$> find_sub (CR :: pat) s.
Proof.
  induction l as [|x l IH]; intros Hl.
  - cbn [app length]. by destruct (find_sub (CR :: pat) s).
  - apply not_elem_of_cons in Hl as [Hx Hl]. cbn [app find_sub starts_with].
    destruct (byte_eqb_spec CR x) as [E|_]; [congruence|]. cbn [andb]. rewrite (IH Hl).
    by destruct (find_sub (CR :: pat) s).
Qed.

Lemma find_sub_CRLF x s :
  x <> CR -> find_sub CRLF2 (CRLF ++ x :: s) = Nat.add 2 <$> find_sub CRLF2 (x :: s).
Proof.
  intros Hx. assert (E : byte_eqb CR x = false) by (destruct (byte_eqb_spec CR x); congruence).
  assert (E1 : starts_with CRLF2 (CR :: LF :: x :: s) = false).
  { unfold CRLF2. cbn [starts_with]. by rewrite E, !andb_false_r. }
  unfold CRLF. cbn [app]. clear E Hx. revert E1. generalize (x :: s). intros t E1. cbn [find_sub].
  rewrite E1. change (starts_with CRLF2 (LF :: t)) with false. cbv iota.
  by destruct (find_sub CRLF2 t).
Qed.

Lemma cut_line_app l s : CR ∉ l -> cut_line (l ++ CRLF ++ s) = (l, Some s).
Proof.
  intros Hl. unfold cut_line. rewrite (find_sub_line [LF]) by done. change (find_sub [CR; LF] (CRLF ++ s)) with (Some O).
  cbn [fmap option_fmap option_map]. rewrite Nat.add_0_r, take_app_length.
  rewrite <- drop_drop, drop_app_length. done.
Qed.

Lemma cut_line_last l : CR ∉ l -> cut_line l = (l, None).
Proof.
  intros Hl. unfold cut_line. rewrite <- (app_nil_r l) at 1. by rewrite (find_sub_line [LF]).
Qed.

Lemma field_text_clean e : field_ok e -> CR ∉ field_text e /\ exists x s, field_text e = x :: s /\ x <> CR.
Proof.
  intros [Hn Hv]. assert (H1 : CR ∉ fst e).
  { intros H. apply (ValidHeaderName_safe _ _ Hn) in H as [H _]. apply H. by left. }
  assert (H2 : CR ∉ snd e).
  { intros H. apply (ValidHeaderValue_safe _ _ Hv) in H. apply H. by left. }
  split.
  - unfold field_text. rewrite !elem_of_app. intros [H|[H|H]]; [done| |done].
    by apply list_elem_of_In in H as [H|[H|[]]].
  - unfold field_text. destruct (fst e) as [|x n] eqn:E; [done|]. exists x. eexists. split; [done|].
    intros ->. apply H1. left.
Qed.

Lemma find_head start fields b :
  CR ∉ start -> Forall field_ok fields -> fields <> [] ->
  find_sub CRLF2 (message_text start fields b) = Some (length (start ++ CRLF ++ block fields)).
Proof.
  intros Hs Hf Hne. rewrite message_text_block by done.
  revert start Hs. induction Hf as [|e fields He Hf IH]; [done|]; intros start Hs.
  destruct (field_text_clean e He) as (Hc & x & s & Ex & Hx).
  assert (Hfirst : forall t, find_sub CRLF2 (start ++ CRLF ++ field_text e ++ t)
    = Nat.add (length start + 2) <$> find_sub CRLF2 (field_text e ++ t)).
  { intros t. unfold CRLF2 at 1. rewrite find_sub_line, Ex by done. cbn [app].
    rewrite find_sub_CRLF by done. fold CRLF2.
    destruct (find_sub CRLF2 (x :: s ++ t)); cbn [fmap option_fmap option_map]; [|done].
    f_equal. lia. }
  destruct fields as [|e' fields].
  - change (block [e]) with (field_text e). rewrite Hfirst. unfold CRLF2 at 1.
    rewrite find_sub_line by done.
    change (find_sub [CR; LF; CR; LF] (CRLF2 ++ b)) with (Some O). cbn [fmap option_fmap option_map].
    rewrite !length_app. f_equal. simpl. lia.
  - rewrite block_cons, <- !app_assoc, Hfirst, IH by done. cbn [fmap option_fmap option_map].
    rewrite !length_app. f_equal. simpl. lia.
Qed.

Lemma parse_line_field e : field_ok e -> parse_line (field_text e) = Ok (as_read e).
Proof.
  intros [Hn Hv]. unfold parse_line, field_text, as_read. cbn [lit String.list_byte_of_string].
  change (fst e ++ lit ": " ++ snd e) with (fst e ++ ":"%byte :: " "%byte :: snd e).
  rewrite cut_app; [done|]. intros H. by apply (ValidHeaderName_safe _ _ Hn) in H as (_ & H & _).
Qed.

Lemma header_loop_block fields fuel h :
  Forall field_ok fields -> fields <> [] -> (length fields <= fuel)%nat ->
  header_loop fuel (block fields) h = Ok (h ++ map as_read fields).
Proof.
  intros Hf. revert fuel h. induction Hf as [|e fields He Hf IH]; [done|]; intros fuel h _ Hl.
  destruct fuel as [|fuel]; [simpl in Hl; lia|]. simpl in Hl.
  destruct (field_text_clean e He) as (Hc & x & s & Ex & Hx).
  assert (Hcons : forall t, field_text e ++ t = x :: s ++ t) by (intros t; by rewrite Ex).
  destruct fields as [|e' fields].
  - change (block [e]) with (field_text e). cbn [header_loop]. rewrite Ex at 1.
    rewrite cut_line_last by done. rewrite parse_line_field by done. done.
  - rewrite block_cons by done. cbn [header_loop]. rewrite Hcons at 1. rewrite cut_line_app by done.
    rewrite parse_line_field by done. cbn [mbind Outcome_bind]. unfold Add, as_read at 1. cbv beta iota.
    rewrite IH by (simpl in *; first [done|lia]). f_equal. by rewrite <- app_assoc.
Qed.

Lemma length_block fields : Forall field_ok fields -> (length fields <= length (block fields))%nat.
Proof.
  induction 1 as [|e fields He Hf IH]; [done|].
  destruct (field_text_clean e He) as (_ & x & s & Ex & _).
  destruct fields as [|e' fields].
  - change (block [e]) with (field_text e). rewrite Ex. simpl. lia.
  - rewrite block_cons, Ex, !length_app by done. cbn [length] in *. lia.
Qed.

Lemma parse_head_block start fields :
  CR ∉ start -> Forall field_ok fields -> fields <> [] ->
  parse_head (start ++ CRLF ++ block fields) = Ok (start, map as_read fields).
Proof.
  intros Hs Hf Hne. unfold parse_head. rewrite cut_line_app by done.
  rewrite header_loop_block by (auto using length_block). done.
Qed.

(** The framing a reader accepts, and the body it then finds. *)
Definition framing_ok (fields : list (bytes * bytes)) : Prop :=
  (length (GetAll (lit "content-length") fields) <= 1)%nat
  /\ Has (lit "transfer-encoding") fields = false.

(** Whatever way the stream is cut, the reader gets the start line and the
    fields, and goes on to the body with the rest of the stream. *)
Lemma read_message_text start fields b chunks rest until_eof has_body max :
  CR ∉ start -> Forall field_ok fields -> fields <> [] -> framing_ok (map as_read fields) ->
  len (message_text start fields []) <= kMaxHeaderBytes ->
  mjoin chunks = message_text start fields b ->
  exists b1 c2, b = b1 ++ mjoin c2
    /\ ReadHttp1Message ((Data <$> chunks) ++ rest) until_eof has_body max
       = (if has_body then
            match read_body ((Data <$> c2) ++ rest) until_eof max (map as_read fields) b1 with
            | None => None
            | Some (Err e) => Some (Err e)
            | Some (Ok b) => Some (Ok (mkMessage start (map as_read fields) b))
            end
          else Some (Ok (mkMessage start (map as_read fields) []))).
Proof.
  intros Hs Hf Hne [Hcl Hte] Hlen Hc.
  pose proof (find_head start fields b Hs Hf Hne) as Hfind.
  assert (Hi : Z.of_nat (length (start ++ CRLF ++ block fields)) + 4 <= kMaxHeaderBytes).
  { rewrite message_text_block, app_nil_r in Hlen by done. unfold len in Hlen.
    rewrite !length_app in *. change (length CRLF2) with 4%nat in Hlen. lia. }
  destruct (read_head_chunks chunks rest [] _ eq_refl ltac:(by rewrite app_nil_l, Hc) Hi)
    as (c1 & c2 & E & Hl & Hread).
  rewrite app_nil_l in *. rewrite Hc, message_text_block in E by done.
  replace (start ++ CRLF ++ block fields ++ CRLF2 ++ b)
    with ((start ++ CRLF ++ block fields) ++ CRLF2 ++ b) in E by (by rewrite <- !app_assoc).
  remember (start ++ CRLF ++ block fields) as head eqn:Hhead.
  assert (Ed : b = drop (length head + 4) (mjoin c1) ++ mjoin c2).
  { apply (f_equal (drop (length head + 4))) in E.
    rewrite (drop_app_le (mjoin c1)), <- drop_drop, drop_app_length in E by done. exact E. }
  assert (Et : take (length head) (mjoin c1) = head).
  { apply (f_equal (take (length head))) in E.
    rewrite take_app_length, take_app_le in E by lia. done. }
  exists (drop (length head + 4) (mjoin c1)), c2. split; [done|].
  unfold ReadHttp1Message. rewrite Hread, Et, Hhead, parse_head_block by done.
  rewrite Hte, Z.gtb_ltb, (proj2 (Z.ltb_ge _ _)) by (unfold len; lia). by destruct has_body.
Qed.

(** ** Field lists *)

Lemma GetAll_cons n k v h :
  GetAll n ((k, v) :: h) = if HeaderNameEquals k n then v :: GetAll n h else GetAll n h.
Proof.
  unfold GetAll. rewrite filter_cons. cbn [fst].
  destruct (HeaderNameEquals k n); by destruct (decide _).
Qed.

Lemma GetAll_as_read n h : GetAll n (map as_read h) = map TrimSpaces (GetAll n h).
Proof.
  induction h as [|[k v] h IH]; [done|]. cbn [map]. unfold as_read at 1. cbn [fst snd].
  rewrite !GetAll_cons, IH. by destruct (HeaderNameEquals k n).
Qed.

Lemma Has_GetAll n h : Has n h = negb (bool_decide (GetAll n h = [])).
Proof. unfold Has. rewrite Get_GetAll. by destruct (GetAll n h). Qed.

Lemma Trim_clean s : Forall (fun c => is_blank c = false) s -> TrimSpaces s = s.
Proof.
  intros H. unfold TrimSpaces. rewrite (drop_while_id is_blank s).
  - unfold rdrop_while. rewrite drop_while_id; [apply reverse_involutive|].
    intros b Hb. rewrite Forall_forall in H. apply H, elem_of_reverse.
    destruct (reverse s); simplify_eq/=. left.
  - intros b Hb. destruct s; simplify_eq/=. by apply Forall_cons in H as [? _].
Qed.

Lemma to_string_clean z :
  0 <= z -> TrimSpaces (to_string z) = to_string z /\ AllDigits (to_string z) = true
    /\ ValidHeaderValue (to_string z) = true.
Proof.
  intros Hz. destruct (to_string_spec z Hz) as [_ Hd]. repeat split.
  - apply Trim_clean. eapply Forall_impl; [exact Hd|]. intros c Hc. apply negb_true_iff.
    revert c Hc. apply byte_implb. by vm_compute.
  - unfold AllDigits. apply andb_true_iff. split; [|by apply forallb_Forall].
    pose proof (to_string_nonempty z). by destruct (to_string z).
  - unfold ValidHeaderValue. apply forallb_Forall. eapply Forall_impl; [exact Hd|]. apply byte_implb. by vm_compute.
Qed.

(** A message whose one content-length states its body's length. *)
Lemma read_sized_message start fields b n chunks rest until_eof has_body max :
  CR ∉ start -> Forall field_ok fields -> fields <> [] ->
  GetAll (lit "content-length") fields = [to_string n] -> 0 <= n < 2 ^ 64 ->
  GetAll (lit "transfer-encoding") fields = [] ->
  len (message_text start fields []) <= kMaxHeaderBytes ->
  (has_body = true -> n = len b /\ n <= max) ->
  mjoin chunks = message_text start fields b ->
  ReadHttp1Message ((Data <$> chunks) ++ rest) until_eof has_body max
  = Some (Ok (mkMessage start (map as_read fields) (if has_body then b else []))).
Proof.
  intros Hs Hf Hne Hcl Hn Hte Hlen Hb Hc.
  destruct (to_string_clean n) as (Ht & Hd & _); [lia|].
  assert (Hcl' : GetAll (lit "content-length") (map as_read fields) = [to_string n])
    by (rewrite GetAll_as_read, Hcl; simpl; by rewrite Ht).
  destruct (read_message_text start fields b chunks rest until_eof has_body max)
    as (b1 & c2 & Eb & ->); try done.
  { split; [rewrite Hcl'; simpl; lia|]. rewrite Has_GetAll, GetAll_as_read, Hte. done. }
  destruct has_body; [|done]. destruct (Hb eq_refl) as [Hnb Hmax].
  unfold read_body. rewrite Get_GetAll, Hcl'. cbn [head]. rewrite Hd. cbn [negb].
  unfold strtoull. rewrite (proj1 (to_string_spec n ltac:(lia))), Z.min_l by lia.
  rewrite Z.gtb_ltb, (proj2 (Z.ltb_ge _ _)) by lia.
  rewrite read_exact_chunks by (by rewrite <- Eb). by rewrite <- Eb.
Qed.

(** ** The two writers *)

Definition request_fields (rq : HttpRequest) (host port_text : bytes) : list (bytes * bytes) :=
  (lit "host", host ++ ":"%byte :: port_text)
  :: (if Has (lit "content-length") (rq_headers rq) then []
      else [(lit "content-length", to_string (len (rq_body rq)))])
  ++ (lit "connection", lit "close") :: rq_headers rq.

Definition request_start (rq : HttpRequest) : bytes :=
  rq_method rq ++ " "%byte :: rq_target rq ++ lit " HTTP/1.1".

Definition response_fields (rs : HttpResponse) : list (bytes * bytes) :=
  (lit "content-length", to_string (len (rs_body rs)))
  :: (lit "connection", lit "close") :: rs_headers rs.

Definition response_start (rs : HttpResponse) : bytes :=
  lit "HTTP/1.1 " ++ int_text (rs_status rs) ++ lit " ".

Lemma client_wire_text rq host port_text wire :
  client_wire rq host port_text = Ok wire ->
  wire = message_text (request_start rq) (request_fields rq host port_text) (rq_body rq)
  /\ rq_method rq <> [] /\ ValidRequestLineField (rq_method rq) = true
  /\ ValidRequestLineField (rq_target rq) = true /\ Forall field_ok (rq_headers rq).
Proof.
  unfold client_wire. destruct (len (rq_method rq) =? 0) eqn:E1; [done|]. cbn [orb].
  destruct (ValidRequestLineField (rq_method rq)) eqn:E2; [|done].
  destruct (ValidRequestLineField (rq_target rq)) eqn:E3; [|done]. cbn [negb].
  destruct (FindUnsafeHeader (rq_headers rq)) eqn:E4; [done|]. intros <-%Ok_inj.
  apply FindUnsafeHeader_None in E4. split_and!; try done; [|by intros E; rewrite E in E1].
  unfold message_text, request_start, request_fields.
  generalize field_line, CRLF, (lit " HTTP/1.1"). intros line eol version.
  destruct (Has (lit "content-length") (rq_headers rq)); cbn [app];
    rewrite !fmap_cons, !mjoin_cons, <- !app_assoc; cbn [app]; by rewrite <- ?app_assoc.
Qed.

Lemma server_wire_text rs head :
  server_wire rs head
  = message_text (response_start (framed_response rs)) (response_fields (framed_response rs))
      (if head then [] else rs_body (framed_response rs)).
Proof.
  unfold server_wire, message_text, response_start, response_fields.
  generalize (framed_response rs). intros r. rewrite !fmap_cons, !mjoin_cons, <- !app_assoc. done.
Qed.

Lemma no_space_line s : ValidRequestLineField s = true -> " "%byte ∉ s /\ CR ∉ s.
Proof.
  unfold ValidRequestLineField. rewrite forallb_Forall, Forall_forall.
  intros H. split; intros Hc; by apply H in Hc.
Qed.

Lemma ParseRequestLine_start rq :
  ValidRequestLineField (rq_method rq) = true -> ValidRequestLineField (rq_target rq) = true ->
  ParseRequestLine (request_start rq) = Some (rq_method rq, rq_target rq) /\ CR ∉ request_start rq.
Proof.
  intros [Hm Hm']%no_space_line [Ht Ht']%no_space_line. unfold ParseRequestLine, request_start. split.
  - rewrite cut_app by done. change (lit " HTTP/1.1") with (" "%byte :: lit "HTTP/1.1").
    by rewrite cut_app.
  - rewrite elem_of_app, elem_of_cons, elem_of_app. intros [H|[H|[H|H]]]; try done.
    apply list_elem_of_In in H. cbv in H. destruct_or!; done.
Qed.

Lemma ParseStatusLine_start rs :
  100 <= rs_status rs <= 599 ->
  ParseStatusLine (response_start rs) = Ok (rs_status rs) /\ CR ∉ response_start rs.
Proof.
  intros H. unfold response_start.
  assert (Hall : forallb (fun n => let z := Z.of_nat n in
      bool_decide (ParseStatusLine (lit "HTTP/1.1 " ++ int_text z ++ lit " ") = Ok z)
      && bool_decide (CR ∉ lit "HTTP/1.1 " ++ int_text z ++ lit " ")) (seq 100 500) = true)
    by (by vm_compute).
  rewrite forallb_forall in Hall. specialize (Hall (Z.to_nat (rs_status rs))).
  rewrite Z2Nat.id in Hall by lia. apply andb_true_iff in Hall as [H1 H2].
  - by apply bool_decide_eq_true in H1, H2.
  - apply in_seq. lia.
Qed.

Lemma framed_fields rs :
  let rs := framed_response rs in
  Forall field_ok (rs_headers rs) /\ GetAll (lit "content-length") (rs_headers rs) = []
  /\ GetAll (lit "transfer-encoding") (rs_headers rs) = [].
Proof.
  unfold framed_response. destruct (FindUnsafeHeader _) eqn:E; cbn [rs_headers].
  - repeat constructor.
  - apply FindUnsafeHeader_None in E. rewrite !GetAll_Remove. done.
Qed.

Lemma fixed_field_ok n v : ValidHeaderName n = true -> ValidHeaderValue v = true -> field_ok (n, v).
Proof. done. Qed.

(** *** The server reads what the client wrote *)

(** The request as the server reads it: the fields are those the writer sent,
    trimmed. *)
Definition received (rq : HttpRequest) (host port_text peer : bytes) : HttpRequest :=
  mkRequest (rq_method rq) (rq_target rq) (map as_read (request_fields rq host port_text)) (rq_body rq) peer.

Lemma server_reads rq host port_text wire chunks rest peer :
  client_wire rq host port_text = Ok wire ->
  ValidHeaderValue (host ++ ":"%byte :: port_text) = true ->
  GetAll (lit "content-length") (rq_headers rq) ∈ [[]; [to_string (len (rq_body rq))]] ->
  GetAll (lit "transfer-encoding") (rq_headers rq) = [] ->
  len (rq_body rq) <= kDefaultMaxBodyBytes -> len wire - len (rq_body rq) <= kMaxHeaderBytes ->
  mjoin chunks = wire ->
  exists m, ReadHttp1Message ((Data <$> chunks) ++ rest) false true kDefaultMaxBodyBytes = Some m
  /\ server_request m peer = inr (received rq host port_text peer).
Proof.
  intros (-> & Hm & Hvm & Hvt & Hf)%client_wire_text Hhost Hcl Hte Hbody Hlen Hc.
  destruct (ParseRequestLine_start rq Hvm Hvt) as [Hparse Hcr].
  pose proof (len_nonneg (rq_body rq)) as Hb0.
  destruct (to_string_clean _ Hb0) as (_ & _ & Hval).
  rewrite (read_sized_message (request_start rq) (request_fields rq host port_text) (rq_body rq)
             (len (rq_body rq))); try done.
  - eexists. split; [reflexivity|]. unfold server_request. cbn [start_line]. by rewrite Hparse.
  - unfold request_fields. constructor; [done|]. apply Forall_app. split; [|by constructor].
    destruct (Has _ _); by repeat constructor.
  - unfold request_fields. rewrite GetAll_cons. change (HeaderNameEquals _ _) with false. cbv iota.
    rewrite GetAll_app, GetAll_cons, Has_GetAll. change (HeaderNameEquals _ _) with false. cbv iota.
    apply list_elem_of_In in Hcl as [<-|[<-|[]]]; done.
  - unfold kDefaultMaxBodyBytes in Hbody. lia.
  - unfold request_fields. rewrite GetAll_cons. change (HeaderNameEquals _ _) with false. cbv iota.
    rewrite GetAll_app, GetAll_cons, Hte. by destruct (Has _ _).
  - unfold message_text in *. rewrite !len_app in *. change (len []) with 0. lia.
Qed.

(** *** The client reads what the server wrote *)
Lemma client_response method rs chunks rest max :
  let head := bytes_eqb method (lit "HEAD") in
  let seen := framed_response rs in
  100 <= rs_status seen <= 599 -> len (server_wire rs true) <= kMaxHeaderBytes ->
  len (rs_body seen) < 2 ^ 64 -> (head = false -> len (rs_body seen) <= max) ->
  mjoin chunks = server_wire rs head ->
  client_read method ((Data <$> chunks) ++ rest) max
  = Some (Ok (mkResponse (rs_status seen) (map as_read (response_fields seen))
                (if head then [] else rs_body seen) [])).
Proof.
  intros head seen Hst Hlen H64 Hmax Hc. rewrite server_wire_text in Hlen, Hc. fold seen in Hlen, Hc.
  destruct (framed_fields rs) as (Hf & Hcl & Hte). fold seen in Hf, Hcl, Hte.
  pose proof (len_nonneg (rs_body seen)) as Hb0.
  destruct (to_string_clean _ Hb0) as (_ & _ & Hval).
  destruct (ParseStatusLine_start seen Hst) as [Hparse Hcr].
  unfold client_read. fold head.
  rewrite (read_sized_message (response_start seen) (response_fields seen) (if head then [] else rs_body seen)
             (len (rs_body seen))); try done.
  - cbn [mbind option_bind Outcome_bind start_line headers body]. rewrite Hparse. by destruct head.
  - by repeat constructor.
  - unfold response_fields. rewrite !GetAll_cons, Hcl. done.
  - destruct head; [done|]. intros _. split; [done|]. by apply Hmax.
Qed.

(** ** What an accepted message satisfies *)

(** The stream ends. *)
Definition ends (r : ReadResult) : Prop := r = Eof \/ r = Failed.

Lemma Exists_ends_cons c reads : Exists ends (Data c :: reads) -> Exists ends reads.
Proof. rewrite Exists_cons. by intros [[?|?]|?]. Qed.

Lemma read_exact_total reads b n : Exists ends reads -> is_Some (read_exact reads b n).
Proof.
  revert b. induction reads as [|r reads IH]; intros b H; [by apply Exists_nil in H|].
  cbn [read_exact]. destruct (len b <? n); [|by destruct (negb _)].
  destruct r; [by apply IH, (Exists_ends_cons chunk)|done|done].
Qed.

Lemma read_until_eof_total reads b max : Exists ends reads -> is_Some (read_until_eof reads b max).
Proof.
  revert b. induction reads as [|r reads IH]; intros b H; [by apply Exists_nil in H|].
  cbn [read_until_eof]. destruct (len b >? max); [done|].
  destruct r; [by apply IH, (Exists_ends_cons chunk)|done|done].
Qed.

Lemma read_head_total reads buffer :
  Exists ends reads ->
  exists r, read_head reads buffer = Some r
    /\ forall i b rest, r = Ok (i, b, rest) -> Exists ends rest.
Proof.
  revert buffer. induction reads as [|r reads IH]; intros buffer H; [by apply Exists_nil in H|].
  cbn [read_head]. destruct (len buffer >? kMaxHeaderBytes); [by eexists|].
  destruct r; [|by eexists|by eexists]. apply Exists_ends_cons in H.
  destruct (find_sub CRLF2 (buffer ++ chunk)); [|by apply IH].
  eexists. split; [done|]. by intros ? ? ? [= <- <- <-].
Qed.

Lemma ReadHttp1Message_ends reads until_eof has_body max :
  Exists ends reads -> is_Some (ReadHttp1Message reads until_eof has_body max).
Proof.
  intros H. unfold ReadHttp1Message. destruct (read_head_total reads [] H) as (r & -> & Hr).
  destruct r as [[[i b] rest]|e]; [|done]. specialize (Hr _ _ _ eq_refl).
  destruct (parse_head (take i b)) as [[s h]|e]; [|done].
  destruct (_ >? _); [done|]. destruct (Has _ _); [done|]. destruct (negb has_body); [done|].
  assert (Hb : forall b, is_Some (read_body rest until_eof max h b)).
  { intros b'. unfold read_body. destruct (Get _ h) as [t|].
    - destruct (negb _); [done|]. destruct (_ >? _); [done|]. by apply read_exact_total.
    - destruct until_eof; [|done]. by apply read_until_eof_total. }
  destruct (Hb (drop (i + 4) b)) as [[?|?] ->]; done.
Qed.

Lemma read_exact_Ok reads b n b' : read_exact reads b n = Some (Ok b') -> len b' = n.
Proof.
  revert b. induction reads as [|r reads IH]; intros b; cbn [read_exact].
  - destruct (len b <? n); [done|]. destruct (Z.eqb_spec (len b) n); [|done]. by intros [= <-].
  - destruct (len b <? n); [destruct r; [apply IH|done|done]|].
    destruct (Z.eqb_spec (len b) n); [|done]. by intros [= <-].
Qed.

Lemma read_until_eof_Ok reads b max b' :
  read_until_eof reads b max = Some (Ok b') -> len b' <= max.
Proof.
  revert b. induction reads as [|r reads IH]; intros b; cbn [read_until_eof];
    (destruct (len b >? max) eqn:E; [done|]); [done|].
  destruct r; [apply IH| |done]. intros [= <-]. rewrite Z.gtb_ltb, Z.ltb_ge in E. done.
Qed.

Lemma read_body_Ok reads until_eof max h b b' :
  max < 2 ^ 64 - 1 -> read_body reads until_eof max h b = Some (Ok b') ->
  match Get (lit "content-length") h with
  | Some text => AllDigits text = true /\ dec_value text = len b' /\ len b' <= max
  | None => if until_eof then len b' <= max else b' = b
  end.
Proof.
  intros Hmax. unfold read_body. destruct (Get _ h) as [text|].
  - destruct (AllDigits text); [|done]. cbn [negb].
    destruct (strtoull text >? max) eqn:E; [done|]. rewrite Z.gtb_ltb, Z.ltb_ge in E.
    intros Hr%read_exact_Ok. unfold strtoull in *. lia.
  - destruct until_eof; [apply read_until_eof_Ok|]. by intros [= ->].
Qed.

(** A request without content-length takes whatever bytes came with its
    headers as its body, so its meaning depends on how the stream was cut. *)
Lemma unframed_body_depends_on_chunks :
  let first := lit "GET / HTTP/1.1" ++ CRLF2 in
  ReadHttp1Message [Data (first ++ lit "GET /2")] false true kDefaultMaxBodyBytes
  = Some (Ok (mkMessage (lit "GET / HTTP/1.1") [] (lit "GET /2")))
  /\ ReadHttp1Message [Data first; Data (lit "GET /2")] false true kDefaultMaxBodyBytes
  = Some (Ok (mkMessage (lit "GET / HTTP/1.1") [] [])).
Proof. by vm_compute. Qed.

(** ** Claims *)

(** C5: [ReadHttp1Message] answers every stream that ends, and a message it
    accepts has unambiguous framing: at most one content-length, no
    transfer-encoding, and a body of exactly the declared length within the
    cap; without a declaration a response's body is within the cap. *)
Theorem ReadHttp1Message_framing reads until_eof has_body max :
  max < 2 ^ 64 - 1 ->
  (Exists ends reads -> is_Some (ReadHttp1Message reads until_eof has_body max))
  /\ forall m, ReadHttp1Message reads until_eof has_body max = Some (Ok m) ->
     (length (GetAll (lit "content-length") (headers m)) <= 1)%nat
     /\ GetAll (lit "transfer-encoding") (headers m) = []
     /\ (has_body = false -> body m = [])
     /\ (has_body = true ->
         match Get (lit "content-length") (headers m) with
         | Some text => AllDigits text = true /\ dec_value text = len (body m) /\ len (body m) <= max
         | None => until_eof = true -> len (body m) <= max
         end).
Proof.
  intros Hmax. split; [apply ReadHttp1Message_ends|]. intros m. unfold ReadHttp1Message.
  destruct (read_head reads []) as [[[[i b] rest]|]|]; [|done|done].
  destruct (parse_head (take i b)) as [[s h]|e]; [|done].
  destruct (_ >? _) eqn:E1; [done|]. rewrite Z.gtb_ltb, Z.ltb_ge in E1.
  destruct (Has _ _) eqn:E2; [done|]. rewrite Has_GetAll, negb_false_iff, bool_decide_eq_true in E2.
  destruct has_body; cbn [negb].
  - destruct (read_body _ _ _ _ _) as [[b'|]|] eqn:E3; [|done|done]. intros [= <-]. cbn [headers body].
    apply read_body_Ok in E3; [|done]. unfold len in E1. split_and!; [lia|done|done|]. intros _.
    destruct (Get _ h); [done|]. by intros ->.
  - intros [= <-]. cbn [headers body]. unfold len in E1. split_and!; [lia|done|done|done].
Qed.

Lemma ReadHttp1Message_framing_witness :
  (Exists ends [Data (lit "A b c" ++ CRLF ++ lit "Content-Length:1" ++ CRLF2 ++ lit "x"); Eof] -> is_Some (ReadHttp1Message [Data (lit "A b c" ++ CRLF ++ lit "Content-Length:1" ++ CRLF2 ++ lit "x"); Eof] true true 10))
  /\ forall m, ReadHttp1Message [Data (lit "A b c" ++ CRLF ++ lit "Content-Length:1" ++ CRLF2 ++ lit "x"); Eof] true true 10 = Some (Ok m) ->
     (length (GetAll (lit "content-length") (headers m)) <= 1)%nat
     /\ GetAll (lit "transfer-encoding") (headers m) = []
     /\ (true = false -> body m = [])
     /\ (true = true ->
         match Get (lit "content-length") (headers m) with
         | Some text => AllDigits text = true /\ dec_value text = len (body m) /\ len (body m) <= 10
         | None => true = true -> len (body m) <= 10
         end).
Proof. exact (ReadHttp1Message_framing [Data (lit "A b c" ++ CRLF ++ lit "Content-Length:1" ++ CRLF2 ++ lit "x"); Eof] true true 10 ltac:(lia)). Defined.
