(* ===== verification/Forwarded.v ===== *)
(** http/forwarded.cc: the trusted-proxy networks and the derivation of the
    client's address from the peer and x-forwarded-for.  The address library of
    the platform ([inet_pton], [inet_ntop]) is an interface: the class
    [InetLib], with what the code relies on in [InetLaws]. *)
From Stdlib Require Import ZArith Lia Strings.Byte.
From S2P Require Import Prelude Bytes Headers.

Local Open Scope Z_scope.

Inductive Family := AF_INET | AF_INET6.

#[global] Instance Family_eq_dec : EqDecision Family.
Proof. solve_decision. Defined.

(** [inet_pton] per family: the 4 or 16 address bytes of a numeric text;
    [inet_ntop]: the text of an address, [None] for [nullptr]. *)
Class InetLib := {
  inet_pton4 : bytes -> option bytes;
  inet_pton6 : bytes -> option bytes;
  inet_ntop : Family -> bytes -> option bytes
}.

Class InetLaws `{InetLib} : Prop := {
  inet_pton4_size : forall s b, inet_pton4 s = Some b -> length b = 4%nat;
  inet_pton6_size : forall s b, inet_pton6 s = Some b -> length b = 16%nat
}.

(** A parsed address: an array of 16 bytes, 4 of them significant in IPv4. *)
Record Address := mkAddress { addr_bytes : bytes; family : Family }.

Record Network := mkNetwork { net_bytes : bytes; net_family : Family; prefix_bits : Z }.

Definition TrustedProxies := list Network.

Inductive Source :=
  kDirectPeer | kUntrustedHeaderIgnored | kForwarded | kTrustedTier | kUnknown.

#[global] Instance Source_eq_dec : EqDecision Source.
Proof. solve_decision. Defined.

Record DerivedClient := mkDerived { address : bytes; source : Source }.

Definition INET6_ADDRSTRLEN : Z := 46.

Definition zeros (n : nat) : bytes := repeat "000"%byte n.

Definition kV4MappedPrefix : bytes := zeros 10 ++ ["255"%byte; "255"%byte].

Definition octet_ok (octet : bytes) : bool :=
  negb ((len octet =? 0) || (len octet >? 3)
        || ((len octet >? 1) && match octet with c :: _ => byte_eqb c "0"%byte | [] => false end)).

(** The loop takes an octet off the text each turn. *)
Fixpoint octets_loop (fuel : nat) (dotted : bytes) : bool :=
  match fuel with
  | O => false
  | S fuel =>
    match cut "."%byte dotted with
    | (octet, None) => octet_ok octet
    | (octet, Some dotted) => octet_ok octet && octets_loop fuel dotted
    end
  end.

Definition StrictDottedOctets (dotted : bytes) : bool := octets_loop (S (length dotted)) dotted.

Definition contains_byte (c : Byte.byte) (s : bytes) : bool := bool_decide (c ∈ s).

(** RFC 4007 zones. *)
Definition DropZone (text : bytes) : bytes :=
  match find_byte "%"%byte text with
  | None => text
  | Some percent => if Z.of_nat percent + 1 =? len text then text else take percent text
  end.

Definition PrefixMatch (network addr : bytes) (bits : Z) : bool :=
  let full_bytes := Z.to_nat (Z.quot bits 8) in
  if negb (bytes_eqb (take full_bytes network) (take full_bytes addr)) then false
  else
    let remainder := Z.rem bits 8 in
    if remainder =? 0 then true
    else
      let mask := wrap 8 (Z.shiftl 255 (8 - remainder)) in
      Z.land (b2z (nth full_bytes network "000"%byte)) mask
      =? Z.land (b2z (nth full_bytes addr "000"%byte)) mask.

Definition None_ : TrustedProxies := [].

Definition ContainsBytes (networks : TrustedProxies) (a : Address) : bool :=
  existsb (fun n => bool_decide (net_family n = family a)
                    && PrefixMatch (net_bytes n) (addr_bytes a) (prefix_bits n)) networks.

Definition proxies_error (what cidr : bytes) : Error :=
  Error_Validation (lit "TrustedProxies: " ++ what ++ lit " in " ++ [x22] ++ cidr ++ [x22]).

Section WithInet.
Context `{InetLib}.

Definition ParseAddress (text : bytes) : option Address :=
  if (len text =? 0) || (len text >=? INET6_ADDRSTRLEN) || contains_byte "000"%byte text then None
  else if contains_byte "%"%byte text then None
  else
    let tail := match rfind_byte ":"%byte text with
                | None => text
                | Some last_colon => drop (S last_colon) text
                end in
    if contains_byte "."%byte tail && negb (StrictDottedOctets tail) then None
    else
      match inet_pton4 text with
      | Some b => Some (mkAddress (b ++ zeros 12) AF_INET)
      | None =>
        match inet_pton6 text with
        | None => None
        | Some b =>
          if bytes_eqb (take 12 b) kV4MappedPrefix then
            Some (mkAddress (drop 12 b ++ zeros 12) AF_INET)
          else Some (mkAddress b AF_INET6)
        end
      end.

Definition FormatAddress (a : Address) : bytes := default [] (inet_ntop (family a) (addr_bytes a)).

Definition count_byte (c : Byte.byte) (s : bytes) : Z := len (filter (fun x => x = c) s).

Definition ParseEndpoint (entry : bytes) : option Address :=
  match entry with
  | [] => None
  | "["%byte :: inner =>
    match find_byte "]"%byte entry with
    | None => None
    | Some close =>
      let port := drop (S close) entry in
      if match port with
         | [] => false
         | c :: digits => negb (byte_eqb c ":"%byte) || negb (AllDigits digits)
         end then None
      else ParseAddress (DropZone (take (close - 1) inner))
    end
  | _ =>
    let colons := count_byte ":"%byte entry in
    if colons =? 1 then
      match cut ":"%byte entry with
      | (host, Some port) => if negb (AllDigits port) then None else ParseAddress host
      | (_, None) => None
      end
    else ParseAddress (if colons =? 0 then entry else DropZone entry)
  end.

(** One CIDR entry of [TrustedProxies::Parse]. *)
Definition parse_cidr (cidr : bytes) : Outcome Network :=
  let '(base_text, digits) := cut "/"%byte cidr in
  match ParseAddress base_text with
  | None => Err (proxies_error (lit "unparseable address") cidr)
  | Some base =>
    let max_bits := match family base with AF_INET => 32 | AF_INET6 => 128 end in
    match digits with
    | None => Ok (mkNetwork (addr_bytes base) (family base) max_bits)
    | Some digits =>
      if negb (AllDigits digits) || (len digits >? 3) then
        Err (proxies_error (lit "malformed prefix") cidr)
      else
        let bits := dec_value digits in
        let bits := if bool_decide (family base = AF_INET) && contains_byte ":"%byte base_text
                    then bits - 96 else bits in
        if (bits <? 0) || (bits >? max_bits) then Err (proxies_error (lit "prefix out of range") cidr)
        else Ok (mkNetwork (addr_bytes base) (family base) bits)
    end
  end.

(** The loop pushes a network per entry and stops at the first malformed one. *)
Fixpoint Parse (cidrs : list bytes) : Outcome TrustedProxies :=
  match cidrs with
  | [] => Ok []
  | cidr :: cidrs => n ← parse_cidr cidr; rest ← Parse cidrs; Ok (n :: rest)
  end.

Definition Contains (networks : TrustedProxies) (text : bytes) : bool :=
  match ParseAddress text with Some a => ContainsBytes networks a | None => false end.

(** The walk of [DeriveClient] over the entries, rightmost first. *)
Fixpoint walk (trusted : TrustedProxies) (client : Address) (entries : list bytes) : DerivedClient :=
  match entries with
  | [] => mkDerived (FormatAddress client) kTrustedTier
  | element :: entries =>
    match ParseEndpoint element with
    | None => mkDerived (FormatAddress client) kTrustedTier
    | Some client =>
      if negb (ContainsBytes trusted client) then mkDerived (FormatAddress client) kForwarded
      else walk trusted client entries
    end
  end.

Definition forwarded_entries (h : Headers) : list bytes :=
  mjoin (SplitHeaderListValues <$> GetAll (lit "x-forwarded-for") h).

Definition DeriveClient (rq : HttpRequest) (trusted : TrustedProxies) : DerivedClient :=
  match ParseEndpoint (rq_peer_address rq) with
  | None => mkDerived [] kUnknown
  | Some client =>
    if negb (ContainsBytes trusted client) then
      mkDerived (FormatAddress client)
        (if Has (lit "x-forwarded-for") (rq_headers rq) then kUntrustedHeaderIgnored else kDirectPeer)
    else walk trusted client (reverse (forwarded_entries (rq_headers rq)))
  end.

Definition ClientAddress (rq : HttpRequest) (trusted : TrustedProxies) : bytes :=
  address (DeriveClient rq trusted).

End WithInet.

(** ** Prefixes are bit prefixes *)

(** Bit [i] of an address, most significant first. *)
Definition addr_bit (l : bytes) (i : Z) : bool :=
  Z.testbit (b2z (nth (Z.to_nat (i / 8)) l "000"%byte)) (7 - i mod 8).

Lemma mask_bit r t :
  0 < r < 8 -> 0 <= t ->
  Z.testbit (wrap 8 (Z.shiftl 255 (8 - r))) t = (8 - r <=? t) && (t <? 8).
Proof.
  intros Hr Ht. unfold wrap. destruct (Z.ltb_spec t 8).
  - rewrite Z.mod_pow2_bits_low, Z.shiftl_spec, andb_true_r by lia.
    destruct (Z.leb_spec (8 - r) t); [|by apply Z.testbit_neg_r; lia].
    change 255 with (Z.ones 8). apply Z.ones_spec_low. lia.
  - rewrite Z.mod_pow2_bits_high by lia. by rewrite andb_false_r.
Qed.

Lemma land_mask_eq r x y :
  0 < r < 8 ->
  let mask := wrap 8 (Z.shiftl 255 (8 - r)) in
  Z.land x mask = Z.land y mask
  <-> forall t, 8 - r <= t < 8 -> Z.testbit x t = Z.testbit y t.
Proof.
  intros Hr mask. split.
  - intros E t Ht. apply (f_equal (fun z => Z.testbit z t)) in E.
    rewrite !Z.land_spec in E. unfold mask in E. rewrite mask_bit in E by lia.
    rewrite (proj2 (Z.leb_le _ _)), (proj2 (Z.ltb_lt _ _)), !andb_true_r in E by lia. done.
  - intros Hall. apply Z.bits_inj'. intros t Ht. rewrite !Z.land_spec. unfold mask.
    rewrite mask_bit by lia. destruct (Z.leb_spec (8 - r) t), (Z.ltb_spec t 8);
      rewrite ?andb_false_r; try done. rewrite Hall by lia. done.
Qed.

Lemma byte_bits_eq x y :
  x = y <-> forall t, 0 <= t < 8 -> Z.testbit (b2z x) t = Z.testbit (b2z y) t.
Proof.
  split; [by intros ->|]. intros Hall. apply b2z_eq_iff, Z.bits_inj'. intros t Ht.
  destruct (Z.ltb_spec t 8) as [|Ht8]; [by apply Hall|].
  assert (Hhigh : forall b, Z.testbit (b2z b) t = false).
  { intros b. pose proof (b2z_range b). rewrite <- (Z.mod_small (b2z b) (2 ^ 8)) by lia.
    apply Z.mod_pow2_bits_high. lia. }
  by rewrite !Hhigh.
Qed.

Lemma take_nth_eq k (a b : bytes) :
  length a = length b -> (k <= length a)%nat ->
  take k a = take k b <-> forall j, (j < k)%nat -> nth j a "000"%byte = nth j b "000"%byte.
Proof.
  revert a b. induction k as [|k IH]; intros a b Hl Hk.
  - split; [lia|done].
  - destruct a as [|x a]; [simpl in Hk; lia|]. destruct b as [|y b]; [done|].
    simpl in Hl, Hk. injection Hl as Hl. cbn [take]. split.
    + intros [= -> E] [|j] Hj; [done|]. apply (proj1 (IH a b Hl ltac:(lia)) E). lia.
    + intros Hall. f_equal; [apply (Hall O); lia|]. apply IH; [done|lia|].
      intros j Hj. apply (Hall (S j)). lia.
Qed.

Lemma addr_bit_split j t (l : bytes) :
  0 <= t < 8 -> Z.testbit (b2z (nth j l "000"%byte)) t = addr_bit l (8 * Z.of_nat j + (7 - t)).
Proof.
  intros Ht. unfold addr_bit.
  replace ((8 * Z.of_nat j + (7 - t)) / 8) with (Z.of_nat j) by (Z.div_mod_to_equations; lia).
  replace ((8 * Z.of_nat j + (7 - t)) mod 8) with (7 - t) by (Z.div_mod_to_equations; lia).
  rewrite Nat2Z.id. f_equal. lia.
Qed.

Lemma PrefixMatch_bits network addr bits :
  length network = 16%nat -> length addr = 16%nat -> 0 <= bits <= 128 ->
  PrefixMatch network addr bits = true
  <-> forall i, 0 <= i < bits -> addr_bit network i = addr_bit addr i.
Proof.
  intros Hn Ha Hb. unfold PrefixMatch.
  rewrite Z.quot_div_nonneg, Z.rem_mod_nonneg by lia.
  set (k := Z.to_nat (bits / 8)). set (r := bits mod 8).
  assert (Ek : bits = 8 * Z.of_nat k + r /\ 0 <= r < 8)
    by (unfold k, r; Z.div_mod_to_equations; lia).
  destruct Ek as [Ek Hr]. clearbody k r.
  assert (Hfull : take k network = take k addr
    <-> forall i, 0 <= i < 8 * Z.of_nat k -> addr_bit network i = addr_bit addr i).
  { rewrite take_nth_eq by lia. split.
    - intros Hj i Hi. unfold addr_bit. rewrite Hj; [done|]. Z.div_mod_to_equations; lia.
    - intros Hi j Hj. apply byte_bits_eq. intros t Ht. rewrite !addr_bit_split by lia. apply Hi. lia. }
  unfold bytes_eqb. case_bool_decide as Et; cbn [negb].
  2:{ split; [done|]. intros Hi. exfalso. apply Et, Hfull. intros i Hi'. apply Hi. lia. }
  pose proof (proj1 Hfull Et) as Hlow. destruct (Z.eqb_spec r 0) as [->|Hr0].
  { split; [|done]. intros _ i Hi. apply Hlow. lia. }
  rewrite Z.eqb_eq, land_mask_eq by lia. split.
  - intros Hall i Hi. destruct (Z.lt_ge_cases i (8 * Z.of_nat k)) as [|Hge]; [by apply Hlow; lia|].
    specialize (Hall (7 - (i - 8 * Z.of_nat k)) ltac:(lia)). rewrite !addr_bit_split in Hall by lia.
    replace (8 * Z.of_nat k + (7 - (7 - (i - 8 * Z.of_nat k)))) with i in Hall by lia. done.
  - intros Hi t Ht. rewrite !addr_bit_split by lia. apply Hi. lia.
Qed.

(** ** Networks *)

Definition max_bits (f : Family) : Z := match f with AF_INET => 32 | AF_INET6 => 128 end.

Definition network_ok (n : Network) : Prop :=
  length (net_bytes n) = 16%nat /\ 0 <= prefix_bits n <= max_bits (net_family n).

(** [a] is in the network [base/bits]. *)
Definition in_network (n : Network) (a : Address) : Prop :=
  net_family n = family a
  /\ forall i, 0 <= i < prefix_bits n -> addr_bit (net_bytes n) i = addr_bit (addr_bytes a) i.

Lemma max_bits_le f : max_bits f <= 128.
Proof. by destruct f. Qed.

Lemma ContainsBytes_spec networks a :
  Forall network_ok networks -> length (addr_bytes a) = 16%nat ->
  ContainsBytes networks a = true <-> Exists (fun n => in_network n a) networks.
Proof.
  intros Hok Ha. unfold ContainsBytes.
  rewrite existsb_exists, List.Exists_exists.
  split; intros (n & Hin & Hn); exists n; split; try done.
  - apply andb_true_iff in Hn as [Hf Hp]. apply bool_decide_eq_true in Hf. split; [done|].
    rewrite List.Forall_forall in Hok. destruct (Hok n Hin) as [Hl Hb].
    pose proof (max_bits_le (net_family n)). by apply (PrefixMatch_bits (net_bytes n) (addr_bytes a) (prefix_bits n) Hl Ha ltac:(lia)).
  - destruct Hn as [Hf Hp]. apply andb_true_iff. split; [by apply bool_decide_eq_true|].
    rewrite List.Forall_forall in Hok. destruct (Hok n Hin) as [Hl Hb].
    pose proof (max_bits_le (net_family n)). by apply (PrefixMatch_bits (net_bytes n) (addr_bytes a) (prefix_bits n) Hl Ha ltac:(lia)).
Qed.

Section Laws.
Context `{InetLaws}.

Lemma ParseAddress_size text a : ParseAddress text = Some a -> length (addr_bytes a) = 16%nat.
Proof.
  unfold ParseAddress. destruct (_ || _); [done|]. destruct (contains_byte _ text); [done|].
  destruct (_ && _); [done|]. destruct (inet_pton4 text) as [b|] eqn:E4.
  - intros [= <-]. simpl. by rewrite length_app, (inet_pton4_size _ _ E4).
  - destruct (inet_pton6 text) as [b|] eqn:E6; [|done]. apply inet_pton6_size in E6.
    destruct (bytes_eqb _ _); intros [= <-]; simpl; [|done].
    rewrite length_app, length_drop, E6. done.
Qed.

(** What a CIDR entry denotes. *)
Definition cidr_denotes (cidr : bytes) (n : Network) : Prop :=
  exists base_text a, ParseAddress base_text = Some a
    /\ net_bytes n = addr_bytes a /\ net_family n = family a
    /\ (cidr = base_text /\ "/"%byte ∉ cidr /\ prefix_bits n = max_bits (family a)
        \/ exists digits, cidr = base_text ++ "/"%byte :: digits /\ "/"%byte ∉ base_text
           /\ AllDigits digits = true
           /\ dec_value digits
              = prefix_bits n
                + (if bool_decide (family a = AF_INET /\ ":"%byte ∈ base_text) then 96 else 0)).

Lemma parse_cidr_spec cidr n : parse_cidr cidr = Ok n -> network_ok n /\ cidr_denotes cidr n.
Proof.
  unfold parse_cidr. destruct (cut_cases "/"%byte cidr) as [[Hs ->]|(a & b & -> & Hs & ->)]; cycle 1.
  - destruct (ParseAddress a) as [base|] eqn:Ea; [|done].
    pose proof (ParseAddress_size _ _ Ea) as Hsize.
    destruct (AllDigits b) eqn:Ed; [|done]. cbn [negb orb]. destruct (len b >? 3); [done|].
    fold (max_bits (family base)).
    set (bits := if _ && _ then _ else _). destruct (_ || _) eqn:Eb; [done|]. intros [= <-].
    zbool. apply Z.ltb_ge in H2. split; [split; [done|]; simpl; lia|].
    exists a, base. split_and!; try done. right. exists b. split_and!; try done. simpl. subst bits.
    unfold contains_byte. repeat case_bool_decide; try (by simpl; lia); naive_solver.
  - destruct (ParseAddress cidr) as [base|] eqn:Ea; [|done]. intros [= <-].
    pose proof (ParseAddress_size _ _ Ea) as Hsize. fold (max_bits (family base)).
    split; [split; [done|]; simpl; pose proof (max_bits_le (family base)); destruct (family base); simpl; lia|].
    exists cidr, base. split_and!; try done. by left.
Qed.

Lemma Parse_spec cidrs networks :
  Parse cidrs = Ok networks ->
  Forall network_ok networks /\ Forall2 cidr_denotes cidrs networks.
Proof.
  revert networks. induction cidrs as [|c cidrs IH]; intros networks; cbn [Parse].
  - intros [= <-]. auto.
  - intros E. outcome_inv. apply parse_cidr_spec in H1 as [Hok Hd].
    apply IH in H2 as [Hoks Hds]. auto.
Qed.

End Laws.

(** ** The walk *)

Section Walk.
Context `{InetLib}.
Implicit Types (trusted : TrustedProxies) (rq : HttpRequest).

(** An entry that parses to an address in, or outside, the trust set. *)
Definition trusted_entry trusted (e : bytes) : Prop :=
  exists a, ParseEndpoint e = Some a /\ ContainsBytes trusted a = true.

Lemma walk_vetted trusted client vetted rest :
  Forall (trusted_entry trusted) vetted ->
  exists last, walk trusted client (vetted ++ rest) = walk trusted last rest
    /\ (vetted = [] /\ last = client
        \/ exists e, list.last vetted = Some e /\ ParseEndpoint e = Some last).
Proof.
  intros Hv. revert client. induction Hv as [|e vetted (a & Ea & Ha) Hv IH]; intros client.
  - exists client. auto.
  - cbn [app walk]. rewrite Ea, Ha. cbn [negb]. destruct (IH a) as (last & E & Hl).
    exists last. split; [done|]. right. destruct Hl as [[-> ->]|(e' & Hl & Hp)]; [by exists e|].
    exists e'. split; [|done]. by destruct vetted.
Qed.

(** Every list of entries splits at the first one that is not vetted. *)
Lemma vetted_split trusted entries :
  exists vetted rest, entries = vetted ++ rest /\ Forall (trusted_entry trusted) vetted
    /\ match rest with
       | [] => True
       | e :: _ => forall a, ParseEndpoint e = Some a -> ContainsBytes trusted a = false
       end.
Proof.
  induction entries as [|e entries (vetted & rest & -> & Hv & Hr)]; [by exists [], []|].
  destruct (ParseEndpoint e) as [a|] eqn:Ea;
    [destruct (ContainsBytes trusted a) eqn:Ec|].
  - exists (e :: vetted), rest. split_and!; [done| |done]. constructor; [|done]. by exists a.
  - exists [], (e :: vetted ++ rest). split_and!; [done|done|]. intros a'. rewrite Ea.
    by intros [= <-].
  - exists [], (e :: vetted ++ rest). split_and!; [done|done|]. by rewrite Ea.
Qed.

(** A proxy appends its peer to the chain, as a further header. *)
Lemma entries_Add addr h :
  list_entry addr -> forwarded_entries (Add (lit "X-Forwarded-For") addr h) = forwarded_entries h ++ [addr].
Proof.
  intros Ha. unfold forwarded_entries, Add. rewrite GetAll_app, fmap_app, join_app.
  f_equal. change (GetAll (lit "x-forwarded-for") [(lit "X-Forwarded-For", addr)]) with [addr].
  cbn [fmap list_fmap mjoin list_join]. rewrite app_nil_r.
  destruct (Split_joined [addr]) as [E _]; [by constructor|done|]. exact E.
Qed.

(** The chain of proxies [hops]: the first one talks to [client]; each appends
    the address it heard from, and the last one connects to the server. *)
Fixpoint through (client : bytes) (hops : list bytes) (h : Headers) : bytes * Headers :=
  match hops with
  | [] => (client, h)
  | hop :: hops => through hop hops (Add (lit "X-Forwarded-For") client h)
  end.

Lemma through_entries client hops h :
  Forall list_entry (client :: hops) ->
  exists peer chain, through client hops h = (peer, snd (through client hops h))
    /\ client :: hops = chain ++ [peer]
    /\ forwarded_entries (snd (through client hops h)) = forwarded_entries h ++ chain.
Proof.
  revert client h. induction hops as [|hop hops IH]; intros client h Hl; cbn [through].
  - exists client, []. rewrite app_nil_r. done.
  - apply Forall_cons in Hl as [Hc Hl].
    destruct (IH hop (Add (lit "X-Forwarded-For") client h) Hl) as (peer & chain & E & Ec & Ef).
    exists peer, (client :: chain). split; [done|]. split; [by rewrite Ec|].
    rewrite Ef, entries_Add, <- app_assoc by done. done.
Qed.

End Walk.

(** ** Claims *)

(** [DeriveClient] on every request.  An unparseable peer gives no
    address.  A peer outside the trust set is the client, whatever the headers
    say.  Otherwise the entries, rightmost first, split into vetted ones (all
    inside the trust set) and a rest: when the rest starts with a parseable
    entry, it is outside the trust set and it is the client; when the rest is
    empty or starts with garbage, the client is the last vetted hop. *)
Theorem DeriveClient_spec `{InetLib} rq trusted :
  match ParseEndpoint (rq_peer_address rq) with
  | None => DeriveClient rq trusted = mkDerived [] kUnknown
  | Some peer =>
    if ContainsBytes trusted peer then
      exists vetted rest hop,
        reverse (forwarded_entries (rq_headers rq)) = vetted ++ rest
        /\ Forall (trusted_entry trusted) vetted
        /\ (vetted = [] /\ hop = peer \/ exists e, last vetted = Some e /\ ParseEndpoint e = Some hop)
        /\ match rest with
           | e :: _ =>
             match ParseEndpoint e with
             | Some client => ContainsBytes trusted client = false
                 /\ DeriveClient rq trusted = mkDerived (FormatAddress client) kForwarded
             | None => DeriveClient rq trusted = mkDerived (FormatAddress hop) kTrustedTier
             end
           | [] => DeriveClient rq trusted = mkDerived (FormatAddress hop) kTrustedTier
           end
    else DeriveClient rq trusted
         = mkDerived (FormatAddress peer)
             (if Has (lit "x-forwarded-for") (rq_headers rq) then kUntrustedHeaderIgnored
              else kDirectPeer)
  end.
Proof.
  unfold DeriveClient. destruct (ParseEndpoint (rq_peer_address rq)) as [peer|]; [|done].
  destruct (ContainsBytes trusted peer); [|done]. cbn [negb].
  destruct (vetted_split trusted (reverse (forwarded_entries (rq_headers rq))))
    as (vetted & rest & -> & Hv & Hr).
  destruct (walk_vetted trusted peer vetted rest Hv) as (hop & -> & Hhop).
  exists vetted, rest, hop. split_and!; [done|done|done|].
  destruct rest as [|e rest]; [done|]. cbn [walk]. destruct (ParseEndpoint e) as [client|]; [|done].
  rewrite (Hr client eq_refl). done.
Qed.

(** C32: the derived address cannot be forged.  A client outside the trust set
    that reaches the server through any chain of trusted proxies, each of which
    appends the address it was called from, is identified by its own address,
    whatever x-forwarded-for headers it sent. *)
Theorem DeriveClient_unforgeable `{InetLib} trusted client hops a forged method target body :
  Forall list_entry (client :: hops) ->
  ParseEndpoint client = Some a -> ContainsBytes trusted a = false ->
  Forall (trusted_entry trusted) hops ->
  let '(peer, h) := through client hops forged in
  DeriveClient (mkRequest method target h body peer) trusted
  = mkDerived (FormatAddress a)
      (match hops with
       | [] => if Has (lit "x-forwarded-for") forged then kUntrustedHeaderIgnored else kDirectPeer
       | _ => kForwarded
       end).
Proof.
  intros Hl Ha Hc Hhops. destruct hops as [|hop hops].
  { cbn [through]. unfold DeriveClient. cbn [rq_peer_address rq_headers]. by rewrite Ha, Hc. }
  destruct (through_entries client (hop :: hops) forged Hl) as (peer & chain & E & Ec & Ef).
  rewrite E. set (h := snd _) in *. clearbody h. clear E.
  destruct chain as [|c chain]; [by destruct hops|]. injection Ec as <- Ec.
  rewrite Ec in Hhops. apply Forall_app in Hhops as [Hv Hp].
  apply Forall_cons in Hp as [(p & Ep & Hp) _].
  unfold DeriveClient. cbn [rq_peer_address rq_headers]. rewrite Ep, Hp. cbn [negb].
  rewrite Ef, reverse_app, reverse_cons, <- app_assoc.
  destruct (walk_vetted trusted p (reverse chain) ([client] ++ reverse (forwarded_entries forged)))
    as (last & -> & _); [by apply Forall_reverse|].
  cbn [app walk]. by rewrite Ha, Hc.
Qed.

(** A library that knows only the addresses "a.b.c.d" of one-digit octets. *)
Definition toy_inet : InetLib := {|
  inet_pton4 s := match s with
    | [a; d1; b; d2; c; d3; d] =>
      if forallb is_digit [a; b; c; d] && bytes_eqb [d1; d2; d3] (lit "...")
      then Some [z2b (digit_value a); z2b (digit_value b); z2b (digit_value c); z2b (digit_value d)]
      else None
    | _ => None
    end;
  inet_pton6 _ := None;
  inet_ntop f b := match f, b with
    | AF_INET, a :: b :: c :: d :: _ => Some (join "."%byte [to_string (b2z a); to_string (b2z b);
                                          to_string (b2z c); to_string (b2z d)])
    | _, _ => None
    end |}.

Lemma toy_laws : @InetLaws toy_inet.
Proof.
  constructor; [|done]. intros s b. cbn.
  do 8 (destruct s as [|? s]; try done). destruct (_ && _); [|done]. by intros [= <-].
Qed.

Lemma DeriveClient_unforgeable_witness :
  let net := mkNetwork (z2b 9 :: zeros 15) AF_INET 8 in
  @DeriveClient toy_inet (mkRequest [] []
    [(lit "x-forwarded-for", lit "9.9.9.9, 6.6.6.6"); (lit "X-Forwarded-For", lit "1.2.3.4")]
    [] (lit "9.1.1.1")) [net] = mkDerived (lit "1.2.3.4") kForwarded.
Proof.
  exact (@DeriveClient_unforgeable toy_inet [mkNetwork (z2b 9 :: zeros 15) AF_INET 8]
    (lit "1.2.3.4") [lit "9.1.1.1"] (mkAddress (z2b 1 :: z2b 2 :: z2b 3 :: z2b 4 :: zeros 12) AF_INET)
    [(lit "x-forwarded-for", lit "9.9.9.9, 6.6.6.6")] [] [] []
    ltac:(repeat constructor; by apply (bool_decide_unpack _); vm_compute)
    ltac:(by vm_compute) ltac:(by vm_compute)
    ltac:(constructor; [|constructor]; exists (mkAddress (z2b 9 :: z2b 1 :: z2b 1 :: z2b 1 :: zeros 12) AF_INET);
          by vm_compute)).
Defined.

(** a trust boundary that [TrustedProxies::Parse] accepts is exactly the
    written one: every entry denotes its network (a host route without a
    prefix, an IPv4-mapped base counted from bit 96) with the prefix in range
    of its family, and [Contains] holds of an address exactly when it parses and
    shares one network's family and all its prefix bits. *)
Theorem TrustedProxies_exact `{InetLaws} cidrs networks :
  Parse cidrs = Ok networks ->
  Forall network_ok networks /\ Forall2 cidr_denotes cidrs networks
  /\ forall text, Contains networks text = true
     <-> exists a, ParseAddress text = Some a /\ Exists (fun n => in_network n a) networks.
Proof.
  intros [Hok Hd]%Parse_spec. split_and!; [done|done|]. intros text. unfold Contains.
  destruct (ParseAddress text) as [a|] eqn:E; [|naive_solver].
  rewrite ContainsBytes_spec by (eauto using ParseAddress_size). naive_solver.
Qed.

Lemma TrustedProxies_exact_witness :
  let networks := [mkNetwork (z2b 9 :: zeros 15) AF_INET 8] in
  Forall network_ok networks /\ Forall2 (@cidr_denotes toy_inet) [lit "9.0.0.0/8"] networks
  /\ forall text, @Contains toy_inet networks text = true
     <-> exists a, @ParseAddress toy_inet text = Some a /\ Exists (fun n => in_network n a) networks.
Proof.
  exact (@TrustedProxies_exact toy_inet toy_laws [lit "9.0.0.0/8"]
    [mkNetwork (z2b 9 :: zeros 15) AF_INET 8] ltac:(by vm_compute)).
Defined.
