(* ===== verification/TraceContext.v ===== *)
(** http/trace_context.cc: W3C traceparent values.  The random engine is the
    list of 64-bit words it yields; [None] means the list ran out before the
    code was done. *)
From Stdlib Require Import ZArith Lia Strings.Byte.
From S2P Require Import Prelude Bytes.

Local Open Scope Z_scope.

Record TraceContext := mkTrace { trace_id : bytes; parent_id : bytes; sampled : bool }.

Definition is_lower_hex (c : Byte.byte) : bool :=
  is_digit c || ((97 <=? b2z c) && (b2z c <=? 102)).

Definition IsLowerHex (text : bytes) : bool := forallb is_lower_hex text.

Definition AllZeros (text : bytes) : bool := forallb (fun c => byte_eqb c "0"%byte) text.

Definition kHex : bytes := Eval vm_compute in lit "0123456789abcdef".

Definition byte_at (i : nat) (s : bytes) : Byte.byte := nth i s "000"%byte.

Definition ParseTraceparent (value : bytes) : option TraceContext :=
  if (len value <? 55) || negb (byte_eqb (byte_at 2 value) "-"%byte)
     || negb (byte_eqb (byte_at 35 value) "-"%byte) || negb (byte_eqb (byte_at 52 value) "-"%byte)
  then None
  else if (len value >? 55) && negb (byte_eqb (byte_at 55 value) "-"%byte) then None
  else
    let version := substr 0 2 value in
    let trace_id := substr 3 32 value in
    let parent_id := substr 36 16 value in
    let flags := substr 53 2 value in
    if negb (IsLowerHex version) || bytes_eqb version (lit "ff") || negb (IsLowerHex trace_id)
       || negb (IsLowerHex parent_id) || negb (IsLowerHex flags) then None
    else if AllZeros trace_id || AllZeros parent_id then None
    else
      let low := b2z (byte_at 1 flags) in
      let low_value := if low <=? 57 then low - 48 else low - 97 + 10 in
      Some (mkTrace trace_id parent_id (negb (Z.land low_value 1 =? 0))).

Definition FormatTraceparent (c : TraceContext) : bytes :=
  lit "00-" ++ trace_id c ++ lit "-" ++ parent_id c ++ (if sampled c then lit "-01" else lit "-00").

(** [kHex[bits & 0xF]]. *)
Definition hex_digit (bits : Z) : Byte.byte := nth (Z.to_nat (Z.land bits 15)) kHex "000"%byte.
#[global] Opaque hex_digit.

(** The digits [i], [i+1], ... of [RandomHex]. *)
Fixpoint hex_loop (n : nat) (i : Z) (bits : Z) (draws : list Z) : option (bytes * list Z) :=
  match n with
  | O => Some ([], draws)
  | S n =>
    '(bits, draws) ← (if i mod 16 =? 0 then
                        match draws with [] => None | b :: draws => Some (b, draws) end
                      else Some (bits, draws));
    '(out, draws) ← hex_loop n (i + 1) (Z.shiftr bits 4) draws;
    Some (hex_digit bits :: out, draws)
  end.

Definition RandomHex (digits : nat) (draws : list Z) : option (bytes * list Z) :=
  hex_loop digits 0 0 draws.

(** [do { id = RandomHex(digits); } while (AllZeros(id));]: a turn consumes a
    draw, so the draws bound the turns. *)
Fixpoint nonzero_hex (fuel : nat) (digits : nat) (draws : list Z) : option (bytes * list Z) :=
  match fuel with
  | O => None
  | S fuel =>
    '(id, draws) ← RandomHex digits draws;
    if AllZeros id then nonzero_hex fuel digits draws else Some (id, draws)
  end.

Definition GenerateSpanId (draws : list Z) : option (bytes * list Z) :=
  nonzero_hex (S (length draws)) 16 draws.

Definition GenerateTraceContext (draws : list Z) : option (TraceContext * list Z) :=
  '(t, draws) ← nonzero_hex (S (length draws)) 32 draws;
  '(p, draws) ← GenerateSpanId draws;
  Some (mkTrace t p true, draws).

(** ** Well-formed contexts *)

Definition id_ok (n : Z) (id : bytes) : Prop :=
  len id = n /\ IsLowerHex id = true /\ AllZeros id = false.

Definition trace_ok (c : TraceContext) : Prop := id_ok 32 (trace_id c) /\ id_ok 16 (parent_id c).

Definition dash : bytes := ["-"%byte].

Lemma byte_at_mid i a b : len a = Z.of_nat i -> byte_at i (a ++ b) = byte_at 0 b.
Proof.
  unfold len, byte_at. intros E. rewrite app_nth2 by lia. f_equal. lia.
Qed.

(** Where the fields of a traceparent lie. *)
Lemma traceparent_layout v t p f more :
  len v = 2 -> len t = 32 -> len p = 16 -> len f = 2 ->
  let value := v ++ dash ++ t ++ dash ++ p ++ dash ++ f ++ more in
  (byte_at 2 value = "-"%byte /\ byte_at 35 value = "-"%byte /\ byte_at 52 value = "-"%byte
   /\ byte_at 55 value = byte_at 0 more /\ len value = 55 + len more)
  /\ substr 0 2 value = v /\ substr 3 32 value = t /\ substr 36 16 value = p /\ substr 53 2 value = f.
Proof.
  intros Hv Ht Hp Hf value.
  assert (E1 : value = (v ++ dash) ++ t ++ dash ++ p ++ dash ++ f ++ more)
    by (unfold value; by rewrite <- !app_assoc).
  assert (E2 : value = (v ++ dash ++ t) ++ dash ++ p ++ dash ++ f ++ more)
    by (unfold value; by rewrite <- !app_assoc).
  assert (E3 : value = (v ++ dash ++ t ++ dash) ++ p ++ dash ++ f ++ more)
    by (unfold value; by rewrite <- !app_assoc).
  assert (E4 : value = (v ++ dash ++ t ++ dash ++ p) ++ dash ++ f ++ more)
    by (unfold value; by rewrite <- !app_assoc).
  assert (E5 : value = (v ++ dash ++ t ++ dash ++ p ++ dash) ++ f ++ more)
    by (unfold value; by rewrite <- !app_assoc).
  assert (E6 : value = (v ++ dash ++ t ++ dash ++ p ++ dash ++ f) ++ more)
    by (unfold value; by rewrite <- !app_assoc).
  assert (Hd : len dash = 1) by done.
  split_and!.
  - unfold value. by rewrite byte_at_mid.
  - rewrite E2, byte_at_mid; [done|]. rewrite !len_app. lia.
  - rewrite E4, byte_at_mid; [done|]. rewrite !len_app. lia.
  - rewrite E6, byte_at_mid; [done|]. rewrite !len_app. lia.
  - rewrite E6, !len_app. lia.
  - unfold value. by apply substr_head.
  - rewrite E1. apply substr_mid; [rewrite !len_app; lia|done].
  - rewrite E3. apply substr_mid; [rewrite !len_app; lia|done].
  - rewrite E5. apply substr_mid; [rewrite !len_app; lia|done].
Qed.

(** The value of a hex digit. *)
Definition hex_value (c : Byte.byte) : Z := if b2z c <=? 57 then b2z c - 48 else b2z c - 97 + 10.

(** Any version but ff, any flags and any further fields parse to the ids and
    the low flag bit. *)
Lemma ParseTraceparent_fields v t p f more :
  len v = 2 -> IsLowerHex v = true -> v <> lit "ff" -> id_ok 32 t -> id_ok 16 p ->
  len f = 2 -> IsLowerHex f = true -> (more = [] \/ head more = Some "-"%byte) ->
  ParseTraceparent (v ++ dash ++ t ++ dash ++ p ++ dash ++ f ++ more)
  = Some (mkTrace t p (Z.odd (hex_value (byte_at 1 f)))).
Proof.
  intros Hv Hvh Hff (Ht & Hth & Htz) (Hp & Hph & Hpz) Hf Hfh Hm.
  destruct (traceparent_layout v t p f more Hv Ht Hp Hf) as ((E2 & E35 & E52 & E55 & El) & Es).
  unfold ParseTraceparent. destruct Es as (-> & -> & -> & ->).
  rewrite E2, E35, E52, E55, El. change (byte_eqb "-"%byte "-"%byte) with true. cbn [negb].
  pose proof (len_nonneg more) as Hn. rewrite (proj2 (Z.ltb_ge (55 + len more) 55)) by lia.
  assert (Em : (55 + len more >? 55) && negb (byte_eqb (byte_at 0 more) "-"%byte) = false).
  { destruct Hm as [->|Hm]; [done|]. destruct more; simplify_eq/=. by rewrite andb_false_r. }
  rewrite Em, Hvh, Hth, Hph, Hfh, Htz, Hpz. cbn [orb negb].
  rewrite (not_true_is_false (bytes_eqb v (lit "ff"))) by (by rewrite bytes_eqb_eq). cbn [orb].
  fold (hex_value (byte_at 1 f)). do 2 f_equal.
  rewrite <- Z.bit0_odd. change 1 with (Z.ones 1). rewrite Z.land_ones by lia.
  rewrite Z.bit0_odd. change (2 ^ 1) with 2. rewrite Zmod_odd. by destruct (Z.odd _).
Qed.

Lemma ParseTraceparent_ok value c : ParseTraceparent value = Some c -> trace_ok c.
Proof.
  unfold ParseTraceparent. destruct (_ || _) eqn:E1; [done|]. destruct (_ && _); [done|].
  destruct (_ || _) eqn:E2 at 1; [done|]. destruct (_ || _) eqn:E3 at 1; [done|]. intros [= <-].
  zbool. repeat split; cbn [trace_id parent_id]; try done; rewrite len_substr; lia.
Qed.

(** ** Random ids *)

Lemma hex_digit_cases bits :
  is_lower_hex (hex_digit bits) = true
  /\ (byte_eqb (hex_digit bits) "0"%byte = true -> bits mod 2 ^ 4 = 0).
Proof.
  Transparent hex_digit. unfold hex_digit. Opaque hex_digit.
  change 15 with (Z.ones 4). rewrite Z.land_ones by lia.
  pose proof (Z.mod_pos_bound bits (2 ^ 4) ltac:(lia)) as Hr. change (2 ^ 4) with 16 in *.
  remember (bits mod 16) as z eqn:Ez. clear Ez bits.
  assert (Hz : (Z.to_nat z < 16)%nat) by lia. remember (Z.to_nat z) as k eqn:Ek.
  destruct k as [|k]; [split; [done|lia]|].
  do 15 (destruct k as [|k]; [done|]). lia.
Qed.

Lemma hex_loop_ok n : forall i bits draws out rest,
  hex_loop n i bits draws = Some (out, rest) ->
  length out = n /\ IsLowerHex out = true /\ exists used, draws = used ++ rest.
Proof.
  induction n as [|n IH]; intros i bits draws out rest; cbn [hex_loop].
  - intros [= <- <-]. split_and!; [done|done|by exists []].
  - intros E. apply bind_Some in E as ([b d] & Ed & E). apply bind_Some in E as ([o r] & Eh & E).
    injection E as <- <-. apply IH in Eh as (Hl & Hh & used & ->). cbn [length].
    rewrite Hl. unfold IsLowerHex in *. cbn [forallb]. rewrite Hh, (proj1 (hex_digit_cases b)).
    split_and!; [done|done|]. destruct (i mod 16 =? 0).
    + destruct draws as [|x draws]; [done|]. injection Ed as <- ->. by exists (x :: used).
    + injection Ed as <- ->. by exists used.
Qed.

Lemma nonzero_hex_ok fuel digits : forall draws id rest,
  nonzero_hex fuel digits draws = Some (id, rest) -> id_ok (Z.of_nat digits) id.
Proof.
  induction fuel as [|fuel IH]; intros draws id rest; cbn [nonzero_hex]; [done|].
  intros E. apply bind_Some in E as ([id' d] & Eh & E). apply hex_loop_ok in Eh as (Hl & Hh & _).
  destruct (AllZeros id') eqn:Ez; [by eapply IH|]. injection E as <- <-.
  unfold id_ok, len. by rewrite Hl.
Qed.

Lemma GenerateTraceContext_ok draws c rest :
  GenerateTraceContext draws = Some (c, rest) -> trace_ok c /\ sampled c = true.
Proof.
  unfold GenerateTraceContext, GenerateSpanId. intros E.
  apply bind_Some in E as ([t d] & Et & E). apply bind_Some in E as ([p d'] & Ep & E).
  injection E as <- <-. apply nonzero_hex_ok in Et, Ep. done.
Qed.

(** A word with a nonzero bit gives a nonzero digit. *)
Lemma hex_loop_zero n : forall i bits draws out rest,
  (Z.of_nat n <= 16 - i) -> 0 <= i -> (i <> 0 \/ n = O \/ exists d, draws = bits :: d) -> 0 <= bits ->
  hex_loop n i bits draws = Some (out, rest) -> AllZeros out = true -> bits mod 2 ^ (4 * Z.of_nat n) = 0.
Proof.
  induction n as [|n IH]; intros i bits draws out rest Hn Hi Hd Hb E Hz; [by rewrite Z.mod_1_r|].
  cbn [hex_loop] in E. apply bind_Some in E as ([b d] & Ed & E).
  apply bind_Some in E as ([o r] & Eh & E). injection E as <- <-.
  assert (b = bits) as ->.
  { destruct (Z.eqb_spec (i mod 16) 0) as [E0|E0].
    - destruct Hd as [Hd|[Hd|[d' ->]]]; [|done|by injection Ed as <- _].
      rewrite Z.mod_small in E0 by lia. done.
    - by injection Ed as <- _. }
  unfold AllZeros in Hz. cbn [forallb] in Hz. apply andb_prop in Hz as [H0 Hz].
  apply IH in Eh; [|lia|lia|left; lia|by apply Z.shiftr_nonneg|done].
  apply (proj2 (hex_digit_cases bits)) in H0 as H4.
  rewrite Z.shiftr_div_pow2 in Eh by lia.
  replace (4 * Z.of_nat (S n)) with (4 + 4 * Z.of_nat n) by lia.
  rewrite Z.pow_add_r, Z.rem_mul_r by lia. rewrite H4, Eh. lia.
Qed.

Lemma hex_loop_rest n : forall i bits draws,
  0 < i -> i + Z.of_nat n <= 16 -> exists out, hex_loop n i bits draws = Some (out, draws).
Proof.
  induction n as [|n IH]; intros i bits draws Hi Hn; cbn [hex_loop]; [by exists []|].
  rewrite Z.mod_small, (proj2 (Z.eqb_neq i 0)) by lia. cbn [mbind option_bind].
  destruct (IH (i + 1) (Z.shiftr bits 4) draws) as [out ->]; [lia|lia|]. by eexists.
Qed.

Lemma RandomHex_span w draws :
  exists out, RandomHex 16 (w :: draws) = Some (out, draws)
    /\ (0 <= w < 2 ^ 64 -> AllZeros out = true -> w = 0).
Proof.
  assert (E : exists out, RandomHex 16 (w :: draws) = Some (out, draws)).
  { unfold RandomHex. cbn [hex_loop]. change (0 mod 16 =? 0) with true. cbn [mbind option_bind].
    destruct (hex_loop_rest 15 1 (Z.shiftr w 4) draws) as [out E]; [lia|lia|].
    cbn [hex_loop mbind option_bind] in E. change (0 + 1) with 1. rewrite E. by eexists. }
  destruct E as [out E]. exists out. split; [done|]. intros Hw Hz.
  assert (E' : hex_loop 16 0 w (w :: draws) = Some (out, draws)) by exact E.
  apply hex_loop_zero in E'; [|lia|lia|eauto|lia|done].
  change (4 * Z.of_nat 16) with 64 in E'. by rewrite Z.mod_small in E'.
Qed.

Lemma nonzero_hex_span draws fuel :
  Forall (fun w => 0 <= w < 2 ^ 64) draws -> Exists (fun w => w <> 0) draws ->
  (length draws < fuel)%nat -> is_Some (nonzero_hex fuel 16 draws).
Proof.
  revert fuel. induction draws as [|w draws IH]; intros fuel Hw He Hf; [by apply Exists_nil in He|].
  apply Forall_cons in Hw as [Hr Hw]. destruct fuel as [|fuel]; [lia|]. cbn [nonzero_hex length] in *.
  destruct (RandomHex_span w draws) as (out & -> & Hz). cbn [mbind option_bind].
  destruct (AllZeros out); [|done]. specialize (Hz Hr eq_refl).
  apply Exists_cons in He as [He|He]; [done|]. apply IH; [done|done|lia].
Qed.

(** [GenerateSpanId] ends at the first nonzero word of the engine. *)
Lemma GenerateSpanId_terminates draws :
  Forall (fun w => 0 <= w < 2 ^ 64) draws -> Exists (fun w => w <> 0) draws ->
  exists id rest, GenerateSpanId draws = Some (id, rest) /\ id_ok 16 id.
Proof.
  intros Hw He. destruct (nonzero_hex_span draws (S (length draws)) Hw He ltac:(lia)) as [[id rest] E].
  exists id, rest. split; [done|]. by apply nonzero_hex_ok in E.
Qed.

(** ** Claims *)

(** traceparent values round trip.  What [FormatTraceparent] writes of a
    context with well-formed ids is read back, and further dash-separated
    fields of a later version (any but ff) do not change the ids;
    [ParseTraceparent] and [GenerateTraceContext] give such contexts only. *)
Theorem traceparent_roundtrip c :
  (trace_ok c -> ParseTraceparent (FormatTraceparent c) = Some c)
  /\ (forall value, ParseTraceparent value = Some c -> trace_ok c)
  /\ (forall draws rest, GenerateTraceContext draws = Some (c, rest) -> trace_ok c /\ sampled c = true)
  /\ (forall v f more, trace_ok c -> len v = 2 -> IsLowerHex v = true -> v <> lit "ff" ->
        len f = 2 -> IsLowerHex f = true ->
        ParseTraceparent (v ++ dash ++ trace_id c ++ dash ++ parent_id c ++ dash ++ f ++ dash ++ more)
        = Some (mkTrace (trace_id c) (parent_id c) (Z.odd (hex_value (byte_at 1 f))))).
Proof.
  split_and!.
  - intros [Ht Hp]. unfold FormatTraceparent. destruct c as [t p s]. cbn [trace_id parent_id sampled] in *.
    pose proof (ParseTraceparent_fields (lit "00") t p (if s then lit "01" else lit "00") []) as E.
    rewrite app_nil_r in E.
    replace (lit "00-" ++ t ++ lit "-" ++ p ++ (if s then lit "-01" else lit "-00"))
      with (lit "00" ++ dash ++ t ++ dash ++ p ++ dash ++ (if s then lit "01" else lit "00"))
      by (by destruct s).
    rewrite E; try done; destruct s; try done; by left.
  - intros value. apply ParseTraceparent_ok.
  - intros draws rest. apply GenerateTraceContext_ok.
  - intros v f more [Ht Hp] Hv Hvh Hff Hf Hfh. apply ParseTraceparent_fields; try done. by right.
Qed.

Lemma traceparent_roundtrip_witness :
  let c := mkTrace (lit "0af7651916cd43dd8448eb211c80319c") (lit "b7ad6b7169203331") true in
  ParseTraceparent (FormatTraceparent c) = Some c.
Proof.
  exact (proj1 (traceparent_roundtrip (mkTrace (lit "0af7651916cd43dd8448eb211c80319c")
    (lit "b7ad6b7169203331") true)) ltac:(by repeat split; vm_compute)).
Defined.
