(* ===== verification/Retry.v ===== *)
(** client/retry.cc: delays, Retry-After, and the retry loop with its
    interceptors and streaming sinks; client/interceptor.h and
    client/observability.cc; the default [HttpClient::SendStreaming] of
    http/transport.h.  Everything the loop calls out to (the transport, the
    interceptors, the sink, sleeping, the jitter) works on a world [W]. *)
From Stdlib Require Import ZArith Lia Strings.Byte.
From Stdlib Require Import Floats.SpecFloat.
From S2P Require Import Prelude Bytes Timestamp Doubles Headers TraceContext.
From S2P Require Import Http1.

Local Open Scope Z_scope.

(** Durations are 64-bit counts of milliseconds. *)
Record RetryPolicy := mkPolicy {
  max_attempts : Z;
  initial_backoff : Z;
  max_backoff : Z;
  retry_after_cap : Z
}.

Definition default_policy : RetryPolicy := mkPolicy 3 100 20000 60000.

Definition RetryDelay (policy : RetryPolicy) (retry : Z) (jitter01 : double) : Z :=
  let exponent := Z.min (retry - 1) 20 in
  let ceiling := Z.min (max_backoff policy)
                   (swrap 64 (initial_backoff policy * Z.shiftl 1 exponent)) in
  trunc (dmul (of_int ceiling) jitter01).

Definition kMaxMs : Z := 2 ^ 63 - 1.
Definition kMaxSeconds : Z := kMaxMs / 1000.

Definition RetryAfterDelay (h : Headers) (now : Z) : option Z :=
  match Get (lit "retry-after") h with
  | None | Some [] => None
  | Some value =>
    if forallb is_digit value then
      let seconds := strtoull value in
      if seconds >? kMaxSeconds then Some kMaxMs else Some (seconds * 1000)
    else
      match ParseHttpDate value now with
      | None => None
      | Some when =>
        if when <=? now then Some 0
        else
          let ahead := wrap 64 (wrap 64 when - wrap 64 now) in
          Some (Z.min ahead kMaxMs)
      end
  end.

Definition RetryableStatus (status : Z) : bool :=
  (status =? 429) || (status =? 500) || (status =? 502) || (status =? 503) || (status =? 504).

Definition DelayBefore (policy : RetryPolicy) (retry : Z) (jitter01 : double)
    (outcome : Outcome HttpResponse) (now : Z) : Z :=
  let backoff := RetryDelay policy retry jitter01 in
  match outcome with
  | Err _ => backoff
  | Ok rs =>
    match RetryAfterDelay (rs_headers rs) now with
    | None => backoff
    | Some asked => Z.max backoff (Z.min asked (retry_after_cap policy))
    end
  end.

(** The loop's test of an outcome. *)
Definition retryable (outcome : Outcome HttpResponse) : bool :=
  match outcome with Ok rs => RetryableStatus (rs_status rs) | Err e => err_retryable e end.

Section World.
Context {W : Type}.

(** [BodySink]; [None] is an unset callback. *)
Record BodySink := mkSink {
  accept : option (W -> Z -> Headers -> bool * W);
  write : option (W -> bytes -> bool * W)
}.

Record Interceptor := mkInterceptor {
  ModifyBeforeTransmit : W -> HttpRequest -> Z -> HttpRequest * W;
  ReadAfterTransmit : W -> HttpRequest -> Outcome HttpResponse -> Z -> W
}.

(** [HttpClient] and the policy's injected [sleep] and [jitter]; [now] reads the
    clock. *)
Record Env := mkEnv {
  Send : W -> HttpRequest -> Outcome HttpResponse * W;
  SendStreaming : W -> HttpRequest -> BodySink -> Outcome HttpResponse * W;
  sleep : W -> Z -> W;
  jitter : W -> double * W;
  now : W -> Z
}.

(** [HttpClient::SendStreaming], the default. *)
Definition default_SendStreaming (send : W -> HttpRequest -> Outcome HttpResponse * W)
    (w : W) (rq : HttpRequest) (sink : BodySink) : Outcome HttpResponse * W :=
  let '(outcome, w) := send w rq in
  match outcome, accept sink, write sink with
  | Ok rs, Some accept, Some write =>
    let '(takes, w) := accept w (rs_status rs) (rs_headers rs) in
    if negb takes then (outcome, w)
    else
      let '(written, w) := match rs_body rs with [] => (true, w) | b => write w b end in
      if negb written then
        (Err (Error_Transport (lit "http: the response body sink aborted the transfer") false), w)
      else (Ok (mkResponse (rs_status rs) (rs_headers rs) [] (rs_operation rs)), w)
  | _, _, _ => (outcome, w)
  end.

(** The sink the attempts see. *)
Definition guarded (attempts : Z) (sink : BodySink) : BodySink :=
  match accept sink with
  | Some accept =>
    if attempts >? 1 then
      mkSink (Some (fun w status h => if RetryableStatus status then (false, w) else accept w status h))
        (write sink)
    else sink
  | None => sink
  end.

Fixpoint modify_all (ics : list Interceptor) (w : W) (rq : HttpRequest) (attempt : Z) : HttpRequest * W :=
  match ics with
  | [] => (rq, w)
  | ic :: ics => let '(rq, w) := ModifyBeforeTransmit ic w rq attempt in modify_all ics w rq attempt
  end.

Fixpoint read_all (ics : list Interceptor) (w : W) (rq : HttpRequest) (outcome : Outcome HttpResponse)
    (attempt : Z) : W :=
  match ics with
  | [] => w
  | ic :: ics => read_all ics (ReadAfterTransmit ic w rq outcome attempt) rq outcome attempt
  end.

Section Loop.
Variables (env : Env) (request : HttpRequest) (policy : RetryPolicy) (ics : list Interceptor)
  (sink : option BodySink).

Definition attempts : Z := Z.max (max_attempts policy) 1.

Definition send (w : W) (outgoing : HttpRequest) : Outcome HttpResponse * W :=
  match sink with
  | Some sink => SendStreaming env w outgoing (guarded attempts sink)
  | None => Send env w outgoing
  end.

Definition attempt_send (w : W) (attempt : Z) : Outcome HttpResponse * W :=
  match ics with
  | [] => send w request
  | _ =>
    let '(attempt_request, w) := modify_all ics w request attempt in
    let '(outcome, w) := send w attempt_request in
    (outcome, read_all ics w attempt_request outcome attempt)
  end.

(** [for (retry = ...; retry < attempts; ++retry)]: [fuel] turns are left. *)
Fixpoint retry_loop (fuel : nat) (retry : Z) (outcome : Outcome HttpResponse) (w : W)
    : Outcome HttpResponse * W :=
  match fuel with
  | O => (outcome, w)
  | S fuel =>
    if negb (retry <? attempts) then (outcome, w)
    else if negb (retryable outcome) then (outcome, w)
    else
      let '(j, w) := jitter env w in
      let w := sleep env w (DelayBefore policy retry j outcome (now env w)) in
      let '(outcome, w) := attempt_send w (retry + 1) in
      retry_loop fuel (retry + 1) outcome w
  end.

Definition SendWithRetriesImpl (w : W) : Outcome HttpResponse * W :=
  let '(outcome, w) := attempt_send w 1 in
  retry_loop (Z.to_nat (attempts - 1)) 1 outcome w.

End Loop.

Definition SendWithRetries (env : Env) (request : HttpRequest) (policy : RetryPolicy)
    (ics : list Interceptor) (w : W) : Outcome HttpResponse * W :=
  SendWithRetriesImpl env request policy ics None w.

Definition SendWithRetries_sink (env : Env) (request : HttpRequest) (policy : RetryPolicy)
    (ics : list Interceptor) (sink : BodySink) (w : W) : Outcome HttpResponse * W :=
  SendWithRetriesImpl env request policy ics (Some sink) w.

End World.
Arguments BodySink : clear implicits.
Arguments Interceptor : clear implicits.
Arguments Env : clear implicits.

(** ** client/observability.cc *)

Record AttemptObservation := mkObservation {
  ob_method : bytes; ob_target : bytes; ob_attempt : Z; ob_status : Z; ob_error : bytes
}.

Definition observation (rq : HttpRequest) (outcome : Outcome HttpResponse) (attempt : Z)
    : AttemptObservation :=
  match outcome with
  | Ok rs => mkObservation (rq_method rq) (rq_target rq) attempt (rs_status rs) []
  | Err e => mkObservation (rq_method rq) (rq_target rq) attempt (-1) (err_message e)
  end.

Definition ObserveAttempts {W} (callback : W -> AttemptObservation -> W) : Interceptor W :=
  mkInterceptor (fun w rq _ => (rq, w))
    (fun w rq outcome attempt => callback w (observation rq outcome attempt)).

(** [current] is the application's supplier, [generate] the random root
    context. *)
Definition PropagateTraceContext {W} (current : option (W -> option TraceContext * W))
    (generate : W -> TraceContext * W) : Interceptor W :=
  mkInterceptor
    (fun w rq _ =>
       match Get (lit "traceparent") (rq_headers rq) with
       | Some _ => (rq, w)
       | None =>
         let '(context, w) := match current with Some f => f w | None => (None, w) end in
         let '(context, w) := match context with Some c => (c, w) | None => generate w end in
         (mkRequest (rq_method rq) (rq_target rq)
            (Set_ (lit "traceparent") (FormatTraceparent context) (rq_headers rq))
            (rq_body rq) (rq_peer_address rq), w)
       end)
    (fun w _ _ _ => w).

(** ** Delays *)

Lemma trunc_within c x : 0 <= c -> within c x -> 0 <= trunc x <= c.
Proof.
  intros Hc. destruct x as [s|s| |s m e]; cbn [within trunc]; [lia|done|done|].
  intros [-> H]. destruct (Z.leb_spec 0 e) as [He|He].
  - pose proof (le_int_scale _ _ _ 0 H ltac:(lia) ltac:(lia)) as H'. rewrite Z.add_0_r, Z.mul_1_r in H'.
    pose proof (pow2_pos e He). split; [|done]. apply Z.mul_nonneg_nonneg; lia.
  - pose proof (le_int_scale _ _ _ (- e) H ltac:(lia) ltac:(lia)) as H'.
    rewrite Z.add_opp_diag_r, Z.mul_1_r in H'. pose proof (pow2_pos (- e) ltac:(lia)) as Hp.
    split; [apply Z.div_pos; lia|]. apply Z.div_le_upper_bound; lia.
Qed.

(** A policy whose backoffs do not overflow. *)
Definition policy_ok (policy : RetryPolicy) : Prop :=
  0 <= initial_backoff policy < 2 ^ 43 /\ 0 <= max_backoff policy < 2 ^ 53.

(** The backoff ceiling before retry [n]: the doubled start, capped. *)
Definition backoff_ceiling (policy : RetryPolicy) (retry : Z) : Z :=
  Z.min (max_backoff policy) (initial_backoff policy * 2 ^ Z.min (retry - 1) 20).

Lemma RetryDelay_bounds policy retry j :
  policy_ok policy -> 1 <= retry -> within 1 j ->
  0 <= RetryDelay policy retry j <= backoff_ceiling policy retry.
Proof.
  intros [Hi Hm] Hr Hj. unfold RetryDelay, backoff_ceiling.
  set (x := Z.min (retry - 1) 20). assert (Hx : 0 <= x <= 20) by lia. clearbody x.
  rewrite Z.shiftl_1_l.
  assert (Hp : 1 <= 2 ^ x <= 2 ^ 20) by (split; [apply (Z.pow_le_mono_r 2 0 x)|apply Z.pow_le_mono_r]; lia).
  rewrite swrap_small; [|lia|].
  - apply trunc_within; [nia|]. apply dmul_within; [nia|apply of_int_within; nia|done].
  - split; [nia|]. apply Z.lt_le_trans with (2 ^ 43 * 2 ^ 20); [nia|done].
Qed.

Lemma RetryAfterDelay_nonneg h now d : RetryAfterDelay h now = Some d -> 0 <= d <= kMaxMs.
Proof.
  unfold RetryAfterDelay. destruct (Get _ h) as [[|c value]|]; [done| |done].
  destruct (forallb is_digit (c :: value)) eqn:Ed.
  - assert (H0 : 0 <= strtoull (c :: value)).
    { unfold strtoull. apply forallb_Forall in Ed. revert Ed. generalize (c :: value). clear.
      intros s Hs. apply Z.min_glb; [|lia]. induction s as [|c s IH] using rev_ind; [done|].
      apply Forall_app in Hs as [Hs Hc]. apply Forall_cons in Hc as [Hc _].
      rewrite dec_value_snoc. apply is_digit_range in Hc. specialize (IH Hs). lia. }
    destruct (strtoull (c :: value) >? kMaxSeconds) eqn:E; intros [= <-].
    + unfold kMaxMs. lia.
    + rewrite Z.gtb_ltb, Z.ltb_ge in E. unfold kMaxSeconds in E. pose proof (Z.mul_div_le kMaxMs 1000).
      unfold kMaxMs in *. lia.
  - destruct (ParseHttpDate _ now) as [when|]; [|done].
    destruct (when <=? now); intros [= <-]; [unfold kMaxMs; lia|].
    pose proof (wrap_range 64 (wrap 64 when - wrap 64 now) ltac:(lia)). unfold kMaxMs. lia.
Qed.

(** ** Scripted runs *)

Inductive Event :=
| Sent (rq : HttpRequest)
| Slept (ms : Z)
| Wrote (piece : bytes)
| Observed (o : AttemptObservation).

(** A world that replays replies, jitters and one clock reading, and logs. *)
Record Script := mkScript {
  replies : list (Outcome HttpResponse);
  jitters : list double;
  clock : Z;
  log : list Event
}.

Definition logged (w : Script) (e : Event) : Script :=
  mkScript (replies w) (jitters w) (clock w) (log w ++ [e]).

Definition script_send (w : Script) (rq : HttpRequest) : Outcome HttpResponse * Script :=
  match replies w with
  | o :: rest => (o, mkScript rest (jitters w) (clock w) (log w ++ [Sent rq]))
  | [] => (Err (Error_Unknown (lit "end of script")), w)
  end.

Definition script_env : Env Script := {|
  Send := script_send;
  SendStreaming := default_SendStreaming script_send;
  sleep w d := logged w (Slept d);
  jitter w := match jitters w with
              | j :: js => (j, mkScript (replies w) js (clock w) (log w))
              | [] => (S754_zero false, w)
              end;
  now := clock |}.

(** An interceptor that edits the request by [f] and observes the attempt. *)
Definition script_interceptor (f : HttpRequest -> Z -> HttpRequest) : Interceptor Script :=
  mkInterceptor (fun w rq attempt => (f rq attempt, w))
    (fun w rq o attempt => logged w (Observed (observation rq o attempt))).

(** The request as every interceptor in turn edited it, always from the
    original one. *)
Definition edited (fs : list (HttpRequest -> Z -> HttpRequest)) (rq : HttpRequest) (attempt : Z)
    : HttpRequest := fold_left (fun rq f => f rq attempt) fs rq.

Definition attempt_log fs rq (attempt : Z) (o : Outcome HttpResponse) : list Event :=
  Sent (edited fs rq attempt)
  :: map (fun _ => Observed (observation (edited fs rq attempt) o attempt)) fs.

Definition next_jitter (js : list double) : double := default (S754_zero false) (head js).

(** The log of the attempts [attempt], [attempt + 1], ... with these outcomes. *)
Fixpoint schedule fs rq (policy : RetryPolicy) (clock : Z) (attempt : Z)
    (os : list (Outcome HttpResponse)) (js : list double) : list Event :=
  match os with
  | [] => []
  | [o] => attempt_log fs rq attempt o
  | o :: os =>
    attempt_log fs rq attempt o
    ++ Slept (DelayBefore policy attempt (next_jitter js) o clock)
    :: schedule fs rq policy clock (attempt + 1) os (tail js)
  end.

Lemma modify_all_script fs w rq attempt :
  modify_all (map script_interceptor fs) w rq attempt = (edited fs rq attempt, w).
Proof. revert rq. induction fs as [|f fs IH]; intros rq; [done|]. simpl. apply IH. Qed.

Lemma read_all_script fs w rq o attempt :
  read_all (map script_interceptor fs) w rq o attempt
  = mkScript (replies w) (jitters w) (clock w)
      (log w ++ map (fun _ => Observed (observation rq o attempt)) fs).
Proof.
  revert w. induction fs as [|f fs IH]; intros w; cbn [map read_all].
  - rewrite app_nil_r. by destruct w.
  - rewrite IH. cbn. by rewrite <- app_assoc.
Qed.

Lemma attempt_send_script fs rq policy o rest js c l attempt :
  attempt_send script_env rq policy (map script_interceptor fs) None (mkScript (o :: rest) js c l) attempt
  = (o, mkScript rest js c (l ++ attempt_log fs rq attempt o)).
Proof.
  unfold attempt_send. destruct fs as [|f fs].
  - unfold attempt_log. done.
  - change (map script_interceptor (f :: fs)) with (script_interceptor f :: map script_interceptor fs).
    cbv iota. change (script_interceptor f :: map script_interceptor fs)
      with (map script_interceptor (f :: fs)).
    rewrite modify_all_script. cbn [send Send script_env]. unfold send, script_send. cbn [replies].
    cbn [Send script_env script_send replies]. unfold script_send. cbn [replies jitters clock log].
    rewrite read_all_script. cbn [replies jitters clock log]. unfold attempt_log.
    by rewrite <- app_assoc.
Qed.

Lemma schedule_cons fs rq policy c attempt o os js :
  os <> [] ->
  schedule fs rq policy c attempt (o :: os) js
  = attempt_log fs rq attempt o
    ++ Slept (DelayBefore policy attempt (next_jitter js) o c)
    :: schedule fs rq policy c (attempt + 1) os (tail js).
Proof. by destruct os. Qed.

Lemma retry_loop_script fs rq policy fuel : forall retry o rest js c l,
  1 <= retry -> fuel = Z.to_nat (attempts policy - retry) -> (fuel <= length rest)%nat ->
  exists os last rest' js',
    o :: rest = os ++ last :: rest' /\ Forall (fun o => retryable o = true) os
    /\ (length os <= fuel)%nat /\ (retryable last = false \/ length os = fuel)
    /\ retry_loop script_env rq policy (map script_interceptor fs) None fuel retry o
         (mkScript rest js c (l ++ attempt_log fs rq retry o))
       = (last, mkScript rest' js' c (l ++ schedule fs rq policy c retry (os ++ [last]) js)).
Proof.
  induction fuel as [|fuel IH]; intros retry o rest js c l Hr Hf Hl; cbn [retry_loop].
  - exists [], o, rest, js. split_and!; try done; auto.
  - rewrite (proj2 (Z.ltb_lt _ _)) by lia. cbn [negb]. destruct (retryable o) eqn:Eo; cbn [negb].
    2:{ exists [], o, rest, js. split_and!; try done; [simpl; lia|by left]. }
    destruct rest as [|o2 rest]; [simpl in Hl; lia|]. simpl in Hl.
    set (d := DelayBefore policy retry (next_jitter js) o c).
    assert (Ej : jitter script_env (mkScript (o2 :: rest) js c (l ++ attempt_log fs rq retry o))
      = (next_jitter js, mkScript (o2 :: rest) (tail js) c (l ++ attempt_log fs rq retry o)))
      by (by destruct js).
    rewrite Ej. cbn [sleep now script_env]. unfold logged. cbn [replies jitters clock log]. fold d.
    rewrite attempt_send_script.
    destruct (IH (retry + 1) o2 rest (tail js) c
                ((l ++ attempt_log fs rq retry o) ++ [Slept d]) ltac:(lia) ltac:(lia) ltac:(lia))
      as (os & last & rest' & js' & E1 & E2 & E3 & E4 & E5).
    exists (o :: os), last, rest', js'. split_and!; [by rewrite E1|by constructor|simpl; lia| |].
    + destruct E4 as [E4|E4]; [by left|right; simpl; lia].
    + rewrite E5. do 2 f_equal. cbn [app]. rewrite schedule_cons by (by destruct os).
      fold d. rewrite <- !app_assoc. done.
Qed.

(** ** Sinks *)

(** A sink with fixed decisions that logs what it is given. *)
Definition script_sink (takes : Z -> Headers -> bool) (writes : bytes -> bool) : BodySink Script :=
  mkSink (Some (fun w status h => (takes status h, w)))
    (Some (fun w b => (writes b, logged w (Wrote b)))).

Definition wrote (l : list Event) : list bytes :=
  omap (fun e => match e with Wrote b => Some b | _ => None end) l.

Lemma wrote_app l l' : wrote (l ++ l') = wrote l ++ wrote l'.
Proof. apply omap_app. Qed.

(** What a streamed attempt adds to the writes, and whether the loop goes on. *)
Lemma attempt_sink rq policy takes writes w attempt :
  1 < attempts policy ->
  exists o w', attempt_send script_env rq policy [] (Some (script_sink takes writes)) w attempt = (o, w')
    /\ (wrote (log w') = wrote (log w)
        \/ retryable o = false
           /\ exists rs b, head (replies w) = Some (Ok rs) /\ rs_body rs = b /\ b <> []
              /\ RetryableStatus (rs_status rs) = false /\ takes (rs_status rs) (rs_headers rs) = true
              /\ wrote (log w') = wrote (log w) ++ [b]
              /\ o = if writes b then Ok (mkResponse (rs_status rs) (rs_headers rs) [] (rs_operation rs))
                     else Err (Error_Transport (lit "http: the response body sink aborted the transfer") false)).
Proof.
  intros Ha. unfold attempt_send, send. unfold guarded. cbn [accept script_sink].
  rewrite Z.gtb_ltb, (proj2 (Z.ltb_lt _ _)) by lia.
  cbn [SendStreaming script_env]. unfold default_SendStreaming, script_send.
  destruct (replies w) as [|o rest]; [eexists _, _; split; [done|by left]|].
  destruct o as [rs|e]; cbn [accept write script_sink].
  2:{ eexists _, _. split; [done|]. left. cbn [log]. by rewrite wrote_app, app_nil_r. }
  destruct (RetryableStatus (rs_status rs)) eqn:Er; cbn [negb].
  { eexists _, _. split; [done|]. left. cbn [log]. by rewrite wrote_app, app_nil_r. }
  destruct (takes (rs_status rs) (rs_headers rs)) eqn:Et; cbn [negb].
  2:{ eexists _, _. split; [done|]. left. cbn [log]. by rewrite wrote_app, app_nil_r. }
  destruct (rs_body rs) as [|x b] eqn:Eb; cbn [negb].
  { eexists _, _. split; [done|]. left. cbn [log]. by rewrite wrote_app, app_nil_r. }
  destruct (writes (x :: b)) eqn:Ew; cbn [negb]; eexists _, _; (split; [done|]); right;
    (split; [done|]); exists rs, (x :: b); cbn [logged log]; rewrite !wrote_app, Ew, app_nil_r; done.
Qed.

Lemma retry_loop_sink rq policy takes writes fuel : forall retry o w,
  1 < attempts policy ->
  exists o' w', retry_loop script_env rq policy [] (Some (script_sink takes writes)) fuel retry o w = (o', w')
    /\ (wrote (log w') = wrote (log w)
        \/ exists rs, rs_body rs <> [] /\ RetryableStatus (rs_status rs) = false
           /\ takes (rs_status rs) (rs_headers rs) = true
           /\ wrote (log w') = wrote (log w) ++ [rs_body rs]
           /\ o' = if writes (rs_body rs)
                   then Ok (mkResponse (rs_status rs) (rs_headers rs) [] (rs_operation rs))
                   else Err (Error_Transport (lit "http: the response body sink aborted the transfer") false)).
Proof.
  induction fuel as [|fuel IH]; intros retry o w Ha; cbn [retry_loop]; [eauto|].
  destruct (negb (retry <? attempts policy)); [eauto|]. destruct (negb (retryable o)); [eauto|].
  destruct (jitter script_env w) as [j w1] eqn:Ej.
  set (w2 := sleep script_env w1 _).
  assert (Hw2 : wrote (log w2) = wrote (log w)).
  { unfold w2. cbn [sleep script_env]. unfold logged. cbn [log]. rewrite wrote_app, app_nil_r.
    cbn [jitter script_env] in Ej. destruct (jitters w); injection Ej as <- <-; done. }
  clearbody w2.
  destruct (attempt_sink rq policy takes writes w2 (retry + 1) Ha) as (o2 & w3 & E & H). rewrite E.
  destruct H as [H|(Hn & rs & b & Hh & <- & Hb & Hs & Ht & Hw & Ho)].
  - destruct (IH (retry + 1) o2 w3 Ha) as (o' & w' & E' & H'). exists o', w'.
    split; [done|]. by rewrite <- Hw2, <- H.
  - exists o2, w3. split; [|right; exists rs; by rewrite Hw, Hw2].
    destruct fuel; cbn [retry_loop]; [done|]. rewrite Hn. by destruct (negb (_ <? _)).
Qed.

(** ** Claims *)

(** C19: the retry loop, end to end.  With at least as many replies as attempts,
    [SendWithRetries] makes the attempts up to the first outcome that is not
    retryable, at most [max(max_attempts, 1)] of them, returns the last outcome
    unchanged, and in order: sends the original request as edited by the
    interceptors (edits never accumulate across attempts), shows every
    interceptor the outcome, and sleeps [DelayBefore] between attempts. *)
Theorem SendWithRetries_schedule policy fs rq rs js c l :
  (Z.to_nat (attempts policy) <= length rs)%nat ->
  exists os last rest js',
    rs = os ++ last :: rest
    /\ Forall (fun o => retryable o = true) os
    /\ (length os < Z.to_nat (attempts policy))%nat
    /\ (retryable last = false \/ S (length os) = Z.to_nat (attempts policy))
    /\ SendWithRetries script_env rq policy (map script_interceptor fs) (mkScript rs js c l)
       = (last, mkScript rest js' c (l ++ schedule fs rq policy c 1 (os ++ [last]) js)).
Proof.
  intros Hl. assert (Ha : 1 <= attempts policy) by (unfold attempts; lia).
  destruct rs as [|o rs]; [simpl in Hl; lia|]. simpl in Hl.
  unfold SendWithRetries, SendWithRetriesImpl. rewrite attempt_send_script.
  destruct (retry_loop_script fs rq policy (Z.to_nat (attempts policy - 1)) 1 o rs js c l
              ltac:(lia) eq_refl ltac:(lia)) as (os & last & rest & js' & E & Hos & Hn & Hlast & Hr).
  exists os, last, rest, js'. split_and!; [done|done|lia|destruct Hlast; [by left|right; lia]|done].
Qed.

Lemma SendWithRetries_schedule_witness :
  let busy := Ok (mkResponse 503 [(lit "Retry-After", lit "2")] [] []) in
  let fine := Ok (mkResponse 200 [] (lit "ok") []) in
  exists os last rest js',
    [Err (Error_Timeout []); busy; fine] = os ++ last :: rest
    /\ Forall (fun o => retryable o = true) os
    /\ (length os < Z.to_nat (attempts default_policy))%nat
    /\ (retryable last = false \/ S (length os) = Z.to_nat (attempts default_policy))
    /\ SendWithRetries script_env (mkRequest [] [] [] [] []) default_policy
         (map script_interceptor [fun rq _ => rq])
         (mkScript [Err (Error_Timeout []); busy; fine] [] 0 [])
       = (last, mkScript rest js' 0 ([] ++ schedule [fun rq _ => rq] (mkRequest [] [] [] [] [])
                                       default_policy 0 1 (os ++ [last]) [])).
Proof.
  exact (SendWithRetries_schedule default_policy [fun rq _ => rq] (mkRequest [] [] [] [] [])
    [Err (Error_Timeout []); Ok (mkResponse 503 [(lit "Retry-After", lit "2")] [] []);
     Ok (mkResponse 200 [] (lit "ok") [])] [] 0 [] ltac:(vm_compute; lia)).
Defined.

(** The schedule of that run: no jitter, so the waits are the server's. *)
Example schedule_example :
  schedule [] (mkRequest [] [] [] [] []) default_policy 0 1
    [Ok (mkResponse 503 [(lit "Retry-After", lit "2")] [] []);
     Ok (mkResponse 429 [(lit "Retry-After", lit "99999999999999999999")] [] []);
     Ok (mkResponse 200 [] [] [])] []
  = [Sent (mkRequest [] [] [] [] []); Slept 2000; Sent (mkRequest [] [] [] [] []); Slept 60000;
     Sent (mkRequest [] [] [] [] [])].
Proof. by vm_compute. Qed.

(** with retries enabled, a body sink is given at most one body, however
    many attempts are made: that of the final response, whose status is not
    retryable and which the caller accepted; the call then returns that
    response with its body taken out, or a non-retryable error when the sink
    gave up. *)
Theorem SendWithRetries_sink_once policy rq takes writes w :
  1 < attempts policy ->
  exists o w',
    SendWithRetries_sink script_env rq policy [] (script_sink takes writes) w = (o, w')
    /\ (wrote (log w') = wrote (log w)
        \/ exists rs, rs_body rs <> [] /\ RetryableStatus (rs_status rs) = false
           /\ takes (rs_status rs) (rs_headers rs) = true
           /\ wrote (log w') = wrote (log w) ++ [rs_body rs]
           /\ o = if writes (rs_body rs)
                  then Ok (mkResponse (rs_status rs) (rs_headers rs) [] (rs_operation rs))
                  else Err (Error_Transport (lit "http: the response body sink aborted the transfer") false)).
Proof.
  intros Ha. unfold SendWithRetries_sink, SendWithRetriesImpl.
  destruct (attempt_sink rq policy takes writes w 1 Ha) as (o & w1 & E & H). rewrite E.
  destruct H as [H|(Hn & rs & b & Hh & <- & Hb & Hs & Ht & Hw & Ho)].
  - rewrite <- H. by apply retry_loop_sink.
  - exists o, w1. split; [|by right; exists rs].
    destruct (Z.to_nat _); cbn [retry_loop]; [done|]. rewrite Hn. by destruct (negb (_ <? _)).
Qed.

Lemma SendWithRetries_sink_once_witness :
  let w := mkScript [Ok (mkResponse 503 [] (lit "busy") []); Ok (mkResponse 200 [] (lit "x") [])] [] 0 [] in
  exists o w',
    SendWithRetries_sink script_env (mkRequest [] [] [] [] []) default_policy []
      (script_sink (fun _ _ => true) (fun _ => true)) w = (o, w')
    /\ (wrote (log w') = wrote (log w)
        \/ exists rs, rs_body rs <> [] /\ RetryableStatus (rs_status rs) = false
           /\ true = true
           /\ wrote (log w') = wrote (log w) ++ [rs_body rs]
           /\ o = if true
                  then Ok (mkResponse (rs_status rs) (rs_headers rs) [] (rs_operation rs))
                  else Err (Error_Transport (lit "http: the response body sink aborted the transfer") false)).
Proof.
  exact (SendWithRetries_sink_once default_policy (mkRequest [] [] [] [] []) (fun _ _ => true)
    (fun _ => true)
    (mkScript [Ok (mkResponse 503 [] (lit "busy") []); Ok (mkResponse 200 [] (lit "x") [])] [] 0 [])
    ltac:(by vm_compute)).
Defined.

(** the wait before a retry, with a policy that does not overflow and a
    jitter in [0, 1].  The client's own backoff is between zero and the doubled
    start capped by [max_backoff]; a Retry-After can only raise it, at least to
    what was asked within [retry_after_cap], and never past both caps. *)
Theorem DelayBefore_bounds policy retry j outcome now :
  policy_ok policy -> 1 <= retry -> within 1 j ->
  let backoff := RetryDelay policy retry j in
  let delay := DelayBefore policy retry j outcome now in
  0 <= backoff <= backoff_ceiling policy retry
  /\ backoff <= delay <= Z.max (backoff_ceiling policy retry) (retry_after_cap policy)
  /\ forall rs asked, outcome = Ok rs -> RetryAfterDelay (rs_headers rs) now = Some asked ->
     0 <= asked <= kMaxMs /\ Z.min asked (retry_after_cap policy) <= delay.
Proof.
  intros Hp Hr Hj backoff delay. pose proof (RetryDelay_bounds policy retry j Hp Hr Hj) as Hb.
  fold backoff in Hb. split; [done|]. unfold delay, DelayBefore. fold backoff. split.
  - destruct outcome as [rs|e]; [|lia]. destruct (RetryAfterDelay _ _); lia.
  - intros rs asked -> Hask. rewrite Hask. split; [by eapply RetryAfterDelay_nonneg|lia].
Qed.

Lemma DelayBefore_bounds_witness :
  let outcome := Ok (mkResponse 503 [(lit "retry-after", lit "30")] [] []) in
  let backoff := RetryDelay default_policy 2 (ddiv (of_int 1) (of_int 2)) in
  let delay := DelayBefore default_policy 2 (ddiv (of_int 1) (of_int 2)) outcome 0 in
  0 <= backoff <= backoff_ceiling default_policy 2
  /\ backoff <= delay <= Z.max (backoff_ceiling default_policy 2) (retry_after_cap default_policy)
  /\ forall rs asked, outcome = Ok rs -> RetryAfterDelay (rs_headers rs) 0 = Some asked ->
     0 <= asked <= kMaxMs /\ Z.min asked (retry_after_cap default_policy) <= delay.
Proof.
  exact (DelayBefore_bounds default_policy 2 (ddiv (of_int 1) (of_int 2))
    (Ok (mkResponse 503 [(lit "retry-after", lit "30")] [] [])) 0
    ltac:(unfold policy_ok; cbn; lia) ltac:(lia)
    ltac:(split; [reflexivity|exists 53; vm_compute; repeat split; congruence])).
Defined.
