(* ===== verification/Cbor.v ===== *)
(** core/document.h and cbor/cbor.cc: the document tree, its deterministic CBOR
    encoding and the tolerant decoder.  A double is its 64-bit pattern, so NaN
    payloads travel as the code's [memcpy] moves them.  The decoder's cursor is
    the unread input. *)
From Stdlib Require Import ZArith Lia Strings.Byte.
From Stdlib Require Import Floats.SpecFloat.
From S2P Require Import Prelude Bytes OrdMap Timestamp Doubles.

Local Open Scope Z_scope.

(** ** Documents *)

Inductive Document :=
| Null
| Bool (b : bool)
| Int (z : Z)
| Double (bits : Z)
| String_ (text : bytes)
| Blob_ (data : bytes)
| TimestampNode (ms : Z) (format : TimestampFormat)
| List_ (items : list Document)
| Map_ (entries : list (bytes * Document)).

(** ** Bit patterns of doubles *)

Definition of_bits (bits : Z) : double :=
  let s := Z.testbit bits 63 in
  let ex := Z.land (Z.shiftr bits 52) 2047 in
  let m := Z.land bits (2 ^ 52 - 1) in
  if ex =? 0 then
    match m with Z.pos p => S754_finite s p (-1074) | _ => S754_zero s end
  else if ex =? 2047 then (if m =? 0 then S754_infinity s else S754_nan)
  else match m + 2 ^ 52 with Z.pos p => S754_finite s p (ex - 1075) | _ => S754_nan end.

Definition sign_bit (s : bool) : Z := if s then 2 ^ 63 else 0.

Definition kInfinityBits : Z := 2047 * 2 ^ 52.
Definition kQuietNanBits : Z := kInfinityBits + 2 ^ 51.

Definition to_bits (x : double) : Z :=
  match x with
  | S754_zero s => sign_bit s
  | S754_infinity s => sign_bit s + kInfinityBits
  | S754_nan => kQuietNanBits
  | S754_finite s m e =>
    if Z.pos m <? 2 ^ 52 then sign_bit s + Z.pos m
    else sign_bit s + (e + 1075) * 2 ^ 52 + (Z.pos m - 2 ^ 52)
  end.

(** [static_cast<double>] of a float's bits; conversion quiets a NaN. *)
Definition bits_of_float (bits : Z) : Z :=
  let s := Z.testbit bits 31 in
  let ex := Z.land (Z.shiftr bits 23) 255 in
  let m := Z.land bits (2 ^ 23 - 1) in
  if ex =? 255 then
    sign_bit s + kInfinityBits + (if m =? 0 then 0 else Z.lor (2 ^ 51) (Z.shiftl m 29))
  else if ex =? 0 then
    match m with Z.pos p => to_bits (binary_round prec64 emax64 s p (-149)) | _ => sign_bit s end
  else
    match m + 2 ^ 23 with
    | Z.pos p => to_bits (binary_round prec64 emax64 s p (ex - 150))
    | _ => kQuietNanBits
    end.

Definition DecodeHalf (bits : Z) : Z :=
  let s := negb (Z.land (Z.shiftr bits 15) 1 =? 0) in
  let exponent := Z.land (Z.shiftr bits 10) 31 in
  let mantissa := Z.land bits 1023 in
  if exponent =? 0 then
    match mantissa with
    | Z.pos p => to_bits (binary_round prec64 emax64 s p (-24))
    | _ => sign_bit s
    end
  else if exponent =? 31 then
    sign_bit s + (if mantissa =? 0 then kInfinityBits else kQuietNanBits)
  else
    match mantissa + 1024 with
    | Z.pos p => to_bits (binary_round prec64 emax64 s p (exponent - 25))
    | _ => kQuietNanBits
    end.

(** ** Encoding *)

Definition kUnsigned : Z := 0.
Definition kNegative : Z := 1.
Definition kBytes : Z := 2.
Definition kText : Z := 3.
Definition kArray : Z := 4.
Definition kMap : Z := 5.
Definition kTag : Z := 6.
Definition kSimple : Z := 7.

Definition kBreak : Z := 255.
Definition kSimpleFalse : Z := 20.
Definition kSimpleTrue : Z := 21.
Definition kSimpleNull : Z := 22.
Definition kSimpleUndefined : Z := 23.
Definition kTagEpochTimestamp : Z := 1.

Definition WriteTypeAndValue (major value : Z) : bytes :=
  let initial := wrap 8 (Z.shiftl major 5) in
  if value <? 24 then [z2b (Z.lor initial value)]
  else if value <=? 255 then z2b (Z.lor initial 24) :: be_bytes 1 value
  else if value <=? 65535 then z2b (Z.lor initial 25) :: be_bytes 2 value
  else if value <=? 4294967295 then z2b (Z.lor initial 26) :: be_bytes 4 value
  else z2b (Z.lor initial 27) :: be_bytes 8 value.

Definition WriteInt (value : Z) : bytes :=
  if value >=? 0 then WriteTypeAndValue kUnsigned value
  else WriteTypeAndValue kNegative (- (value + 1)).

Definition WriteDouble (bits : Z) : bytes :=
  z2b (Z.lor (Z.shiftl kSimple 5) 27) :: be_bytes 8 bits.

Definition WriteString (major : Z) (text : bytes) : bytes :=
  WriteTypeAndValue major (len text) ++ text.

Fixpoint EncodeValue (doc : Document) : bytes :=
  match doc with
  | Null => [z2b (Z.lor (Z.shiftl kSimple 5) kSimpleNull)]
  | Bool b => [z2b (Z.lor (Z.shiftl kSimple 5) (if b then kSimpleTrue else kSimpleFalse))]
  | Int z => WriteInt z
  | Double bits => WriteDouble bits
  | String_ text => WriteString kText text
  | Blob_ data => WriteString kBytes data
  | TimestampNode ms _ =>
    WriteTypeAndValue kTag kTagEpochTimestamp
    ++ (if Z.rem ms 1000 =? 0 then WriteInt (Z.quot ms 1000)
        else WriteDouble (to_bits (epoch_seconds ms)))
  | List_ items => WriteTypeAndValue kArray (len items) ++ mjoin (map EncodeValue items)
  | Map_ entries =>
    WriteTypeAndValue kMap (len entries)
    ++ mjoin (map (fun e => WriteString kText (fst e) ++ EncodeValue (snd e)) entries)
  end.

Definition Encode (doc : Document) : bytes := EncodeValue doc.

(** ** Decoding *)

Definition Fail (what : bytes) : Error := Error_Serialization (lit "cbor: " ++ what).

Definition TakeBigEndian (n : nat) (s : bytes) : option (Z * bytes) :=
  if (length s <? n)%nat then None else Some (be_value (take n s), drop n s).

(** [ReadArgument]: the argument, whether the length is indefinite, the rest. *)
Definition ReadArgument (info : Z) (s : bytes) : Outcome (Z * bool * bytes) :=
  if info <? 24 then Ok (info, false, s)
  else if (24 <=? info) && (info <=? 27) then
    match TakeBigEndian (Z.to_nat (Z.shiftl 1 (info - 24))) s with
    | None => Err (Fail (lit "truncated argument"))
    | Some (value, s) => Ok (value, false, s)
    end
  else if info =? 31 then Ok (0, true, s)
  else Err (Fail (lit "reserved additional-information value")).

(** Never returned: the loops below take at least a byte of input a turn. *)
Definition out_of_fuel : Error := Error_Unknown (lit "out of fuel").

(** The chunks of an indefinite string. *)
Fixpoint chunks (fuel : nat) (major : Z) (out s : bytes) : Outcome (bytes * bytes) :=
  match fuel with
  | O => Err out_of_fuel
  | S fuel =>
    match s with
    | [] => Err (Fail (lit "unterminated indefinite string"))
    | initial :: s =>
      if b2z initial =? kBreak then Ok (out, s)
      else if negb (Z.shiftr (b2z initial) 5 =? major) then
        Err (Fail (lit "mixed types in indefinite string"))
      else
        '(chunk_length, chunk_indefinite, s) ← ReadArgument (Z.land (b2z initial) 31) s;
        if (chunk_indefinite : bool) then Err (Fail (lit "nested indefinite string chunk"))
        else if chunk_length >? len s then Err (Fail (lit "truncated string chunk"))
        else chunks fuel major (out ++ take (Z.to_nat chunk_length) s) (drop (Z.to_nat chunk_length) s)
    end
  end.

Definition DecodeChunkedString (major : Z) (indefinite : bool) (length_ : Z) (s : bytes)
    : Outcome (bytes * bytes) :=
  if negb indefinite then
    if length_ >? len s then Err (Fail (lit "truncated string"))
    else Ok (take (Z.to_nat length_) s, drop (Z.to_nat length_) s)
  else chunks (S (length s)) major [] s.

(** [indefinite && pos_ < size_ && data_[pos_] == kBreak]. *)
Definition at_break (indefinite : bool) (s : bytes) : bool :=
  indefinite && match s with b :: _ => b2z b =? kBreak | [] => false end.

(** The element loop of an array; [n] elements to go when not indefinite. *)
Fixpoint array_loop (dec : bytes -> Outcome (Document * bytes)) (fuel : nat) (indefinite : bool)
    (n : Z) (s : bytes) : Outcome (list Document * bytes) :=
  if negb (indefinite || (0 <? n)) then Ok ([], s)
  else if at_break indefinite s then Ok ([], drop 1 s)
  else
    match fuel with
    | O => Err out_of_fuel
    | S fuel =>
      '(item, s) ← dec s;
      '(items, s) ← array_loop dec fuel indefinite (n - 1) s;
      Ok (item :: items, s)
    end.

(** The entry loop of a map. *)
Fixpoint map_loop (dec : bytes -> Outcome (Document * bytes)) (fuel : nat) (indefinite : bool)
    (n : Z) (m : list (bytes * Document)) (s : bytes) : Outcome (list (bytes * Document) * bytes) :=
  if negb (indefinite || (0 <? n)) then Ok (m, s)
  else if at_break indefinite s then Ok (m, drop 1 s)
  else
    match fuel with
    | O => Err out_of_fuel
    | S fuel =>
      '(key, s) ← dec s;
      match key with
      | String_ k =>
        '(value, s) ← dec s;
        map_loop dec fuel indefinite (n - 1) (sm_insert k value m) s
      | _ => Err (Fail (lit "map key is not a text string"))
      end
    end.

Definition kMaxInt64 : Z := 2 ^ 63 - 1.

(** An integer argument: definite and within int64. *)
Definition read_int (info : Z) (s : bytes) : Outcome (Z * bytes) :=
  '(value, indefinite, s) ← ReadArgument info s;
  if (indefinite : bool) then Err (Fail (lit "indefinite length on integer"))
  else if value >? kMaxInt64 then Err (Fail (lit "integer exceeds int64 range"))
  else Ok (value, s).

(** Tag 1 on its decoded content. *)
Definition epoch_tag (inner : Document) : Outcome Document :=
  match inner with
  | Int z => ms ← FromEpochSecondsChecked (of_int z); Ok (TimestampNode ms kEpochSeconds)
  | Double bits => ms ← FromEpochSecondsChecked (of_bits bits); Ok (TimestampNode ms kEpochSeconds)
  | _ => Err (Fail (lit "tag 1 content is not a number"))
  end.

Definition simple_value (info : Z) (s : bytes) : Outcome (Document * bytes) :=
  if info =? kSimpleFalse then Ok (Bool false, s)
  else if info =? kSimpleTrue then Ok (Bool true, s)
  else if (info =? kSimpleNull) || (info =? kSimpleUndefined) then Ok (Null, s)
  else if (info =? 25) || (info =? 26) || (info =? 27) then
    match TakeBigEndian (Z.to_nat (Z.shiftl 1 (info - 24))) s with
    | None => Err (Fail (lit "truncated float"))
    | Some (bits, s) =>
      Ok (Double (if info =? 25 then DecodeHalf bits
                  else if info =? 26 then bits_of_float bits else bits), s)
    end
  else Err (Fail (lit "unsupported simple value")).

Fixpoint DecodeValue (depth : nat) (s : bytes) : Outcome (Document * bytes) :=
  match depth with
  | O => Err (Fail (lit "nesting too deep"))
  | S depth =>
    match s with
    | [] => Err (Fail (lit "truncated input"))
    | initial :: s =>
      let major := Z.shiftr (b2z initial) 5 in
      let info := Z.land (b2z initial) 31 in
      if major =? kUnsigned then '(value, s) ← read_int info s; Ok (Int value, s)
      else if major =? kNegative then '(value, s) ← read_int info s; Ok (Int (-1 - value), s)
      else if major =? kBytes then
        '(length, indefinite, s) ← ReadArgument info s;
        '(text, s) ← DecodeChunkedString kBytes indefinite length s;
        Ok (Blob_ text, s)
      else if major =? kText then
        '(length, indefinite, s) ← ReadArgument info s;
        '(text, s) ← DecodeChunkedString kText indefinite length s;
        Ok (String_ text, s)
      else if major =? kArray then
        '(n, indefinite, s) ← ReadArgument info s;
        '(items, s) ← array_loop (DecodeValue depth) (S (length s)) indefinite n s;
        Ok (List_ items, s)
      else if major =? kMap then
        '(n, indefinite, s) ← ReadArgument info s;
        '(entries, s) ← map_loop (DecodeValue depth) (S (length s)) indefinite n [] s;
        Ok (Map_ entries, s)
      else if major =? kTag then
        '(tag, indefinite, s) ← ReadArgument info s;
        if (indefinite : bool) then Err (Fail (lit "indefinite length on tag"))
        else
          '(inner, s) ← DecodeValue depth s;
          if tag =? kTagEpochTimestamp then doc ← epoch_tag inner; Ok (doc, s)
          else Ok (inner, s)
      else simple_value info s
    end
  end.

Definition kMaxDepth : nat := 64.

Definition Decode (data : bytes) : Outcome Document :=
  '(doc, s) ← DecodeValue kMaxDepth data;
  match s with
  | [] => Ok doc
  | _ => Err (Fail (lit "trailing bytes after value"))
  end.

Example decode_example :
  Decode ([z2b 191; z2b 97] ++ lit "b" ++ [z2b 249; z2b 60; z2b 0; z2b 97] ++ lit "a"
          ++ [z2b 193; z2b 26; z2b 0; z2b 0; z2b 0; z2b 10; z2b 255])
  = Ok (Map_ [(lit "a", TimestampNode 10000 kEpochSeconds); (lit "b", Double (1023 * 2 ^ 52))]).
Proof. by vm_compute. Qed.

(** ** Induction on documents *)

Lemma Document_ind' (P : Document -> Prop) :
  P Null -> (forall b, P (Bool b)) -> (forall z, P (Int z)) -> (forall b, P (Double b)) ->
  (forall t, P (String_ t)) -> (forall d, P (Blob_ d)) -> (forall ms f, P (TimestampNode ms f)) ->
  (forall l, Forall P l -> P (List_ l)) -> (forall m, Forall (fun e => P (snd e)) m -> P (Map_ m)) ->
  forall d, P d.
Proof.
  intros H1 H2 H3 H4 H5 H6 H7 H8 H9. fix IH 1.
  intros [ |b|z|b|t|t|ms f|l|m];
    [exact H1|apply H2|apply H3|apply H4|apply H5|apply H6|apply H7|apply H8|apply H9].
  - induction l as [|d l IHl]; constructor; [apply IH|exact IHl].
  - induction m as [|[k d] m IHm]; constructor; [apply IH|exact IHm].
Qed.

(** What the C++ type and the runtime's checked factories guarantee. *)
Fixpoint doc_ok (d : Document) : Prop :=
  match d with
  | Int z => - 2 ^ 63 <= z < 2 ^ 63
  | Double bits => 0 <= bits < 2 ^ 64
  | String_ t => len t < 2 ^ 64
  | Blob_ t => len t < 2 ^ 64
  | TimestampNode ms _ => kMinRepresentableMs <= ms <= kMaxRepresentableMs
  | List_ l =>
    len l < 2 ^ 64 /\ (fix all l := match l with [] => True | d :: l => doc_ok d /\ all l end) l
  | Map_ m =>
    len m < 2 ^ 64 /\ sm_ok m
    /\ (fix all m := match m with
                     | [] => True
                     | (k, d) :: m => len k < 2 ^ 64 /\ doc_ok d /\ all m
                     end) m
  | _ => True
  end.

Lemma doc_ok_list l : doc_ok (List_ l) <-> len l < 2 ^ 64 /\ Forall doc_ok l.
Proof.
  cbn [doc_ok]. apply and_iff_compat_l. induction l as [|d l IH]; [done|].
  by rewrite Forall_cons, <- IH.
Qed.

Lemma doc_ok_map m :
  doc_ok (Map_ m)
  <-> len m < 2 ^ 64 /\ sm_ok m /\ Forall (fun e => len (fst e) < 2 ^ 64 /\ doc_ok (snd e)) m.
Proof.
  cbn [doc_ok]. do 2 apply and_iff_compat_l. induction m as [|[k d] m IH]; [done|].
  rewrite Forall_cons, <- IH. simpl. tauto.
Qed.

(** The levels [DecodeValue] descends. *)
Fixpoint nesting (d : Document) : nat :=
  match d with
  | TimestampNode _ _ => 2
  | List_ l => S (list_max (map nesting l))
  | Map_ m => S (Nat.max (if m then 0 else 1)%nat (list_max (map (fun e => nesting (snd e)) m)))
  | _ => 1
  end.

(** The wire carries no timestamp format. *)
Fixpoint canon (d : Document) : Document :=
  match d with
  | TimestampNode ms _ => TimestampNode ms kEpochSeconds
  | List_ l => List_ (map canon l)
  | Map_ m => Map_ (map (fun e => (fst e, canon (snd e))) m)
  | d => d
  end.

(** ** Headers *)

Lemma initial_byte major info :
  0 <= major < 8 -> 0 <= info < 32 ->
  let b := z2b (Z.lor (wrap 8 (Z.shiftl major 5)) info) in
  b2z b = major * 32 + info /\ Z.shiftr (b2z b) 5 = major /\ Z.land (b2z b) 31 = info.
Proof.
  intros Hm Hi b.
  assert (Eb : b2z b = major * 32 + info).
  { unfold b. rewrite wrap_small by (rewrite Z.shiftl_mul_pow2 by lia; change (2 ^ 5) with 32; lia).
    rewrite lor_shiftl by (change (2 ^ 5) with 32; lia). change (2 ^ 5) with 32.
    rewrite b2z_z2b_small by lia. done. }
  rewrite Eb. split; [done|]. rewrite Z.shiftr_div_pow2 by lia. change 31 with (Z.ones 5).
  rewrite Z.land_ones by lia. change (2 ^ 5) with 32. Z.div_mod_to_equations; lia.
Qed.

Lemma TakeBigEndian_be n v rest :
  (n <= 8)%nat -> 0 <= v < 2 ^ (8 * Z.of_nat n) -> TakeBigEndian n (be_bytes n v ++ rest) = Some (v, rest).
Proof.
  intros Hn Hv. unfold TakeBigEndian. pose proof (length_be_bytes n v) as Hl.
  rewrite length_app, Hl, (proj2 (Nat.ltb_ge _ _)) by lia.
  rewrite take_app_length', drop_app_length' by done. by rewrite be_value_small.
Qed.

Lemma WriteTypeAndValue_read major value :
  0 <= major < 8 -> 0 <= value < 2 ^ 64 ->
  exists b body, WriteTypeAndValue major value = b :: body
    /\ Z.shiftr (b2z b) 5 = major /\ b2z b < major * 32 + 28
    /\ forall rest, ReadArgument (Z.land (b2z b) 31) (body ++ rest) = Ok (value, false, rest).
Proof.
  intros Hm Hv. unfold WriteTypeAndValue. destruct (Z.ltb_spec value 24) as [H|H].
  { destruct (initial_byte major value Hm ltac:(lia)) as (Eb & Es & El).
    eexists _, []. split; [done|]. split; [done|]. split; [lia|]. intros rest. rewrite El. unfold ReadArgument.
    by rewrite (proj2 (Z.ltb_lt _ _)). }
  assert (Hcase : forall info n, 24 <= info <= 27 -> n = Z.to_nat (Z.shiftl 1 (info - 24)) -> (n <= 8)%nat ->
    value < 2 ^ (8 * Z.of_nat n) ->
    let b := z2b (Z.lor (wrap 8 (Z.shiftl major 5)) info) in
    Z.shiftr (b2z b) 5 = major /\ b2z b < major * 32 + 28
    /\ forall rest, ReadArgument (Z.land (b2z b) 31) (be_bytes n value ++ rest) = Ok (value, false, rest)).
  { intros info n Hi Hn Hn8 Hvn. destruct (initial_byte major info Hm ltac:(lia)) as (Eb & Es & El).
    cbv zeta in *. split; [done|]. split; [lia|]. intros rest. rewrite El. unfold ReadArgument.
    rewrite (proj2 (Z.ltb_ge _ _)), (proj2 (Z.leb_le 24 _)), (proj2 (Z.leb_le _ 27)) by lia.
    cbn [andb]. rewrite <- Hn, TakeBigEndian_be by (done || lia). done. }
  destruct (Z.leb_spec value 255).
  { destruct (Hcase 24 1%nat) as (E1 & E2 & E3); [lia|done|lia|simpl; lia|]. eauto 10. }
  destruct (Z.leb_spec value 65535).
  { destruct (Hcase 25 2%nat) as (E1 & E2 & E3); [lia|done|lia|simpl; lia|]. eauto 10. }
  destruct (Z.leb_spec value 4294967295).
  { destruct (Hcase 26 4%nat) as (E1 & E2 & E3); [lia|done|lia|simpl; lia|]. eauto 10. }
  destruct (Hcase 27 8%nat) as (E1 & E2 & E3); [lia|done|lia|simpl; lia|]. eauto 10.
Qed.

Lemma read_int_written b body value rest :
  (forall rest, ReadArgument (Z.land (b2z b) 31) (body ++ rest) = Ok (value, false, rest)) ->
  value < 2 ^ 63 -> read_int (Z.land (b2z b) 31) (body ++ rest) = Ok (value, rest).
Proof.
  intros Hr Hv. unfold read_int. rewrite Hr. cbn [mbind Outcome_bind].
  rewrite Z.gtb_ltb, (proj2 (Z.ltb_ge _ _)) by (unfold kMaxInt64; lia). done.
Qed.

Lemma DecodeValue_WriteInt depth z rest :
  - 2 ^ 63 <= z < 2 ^ 63 -> DecodeValue (S depth) (WriteInt z ++ rest) = Ok (Int z, rest).
Proof.
  intros Hz. unfold WriteInt. rewrite Z.geb_leb. destruct (Z.leb_spec 0 z).
  - destruct (WriteTypeAndValue_read kUnsigned z) as (b & body & -> & Hm & _ & Hr);
      [unfold kUnsigned; lia|lia|].
    cbn [app DecodeValue]. rewrite Hm. cbn [Z.eqb kUnsigned].
    rewrite (read_int_written b body z) by (done || lia). done.
  - destruct (WriteTypeAndValue_read kNegative (- (z + 1))) as (b & body & -> & Hm & _ & Hr);
      [unfold kNegative; lia|lia|].
    cbn [app DecodeValue]. rewrite Hm. change (kNegative =? kUnsigned) with false.
    change (kNegative =? kNegative) with true. cbv iota.
    rewrite (read_int_written b body (- (z + 1))) by (done || lia). cbn [mbind Outcome_bind].
    by replace (-1 - - (z + 1)) with z by lia.
Qed.

Lemma DecodeValue_WriteDouble depth bits rest :
  0 <= bits < 2 ^ 64 -> DecodeValue (S depth) (WriteDouble bits ++ rest) = Ok (Double bits, rest).
Proof.
  intros Hb. unfold WriteDouble. cbn [app DecodeValue].
  change (z2b (Z.lor (Z.shiftl kSimple 5) 27)) with (z2b (Z.lor (wrap 8 (Z.shiftl kSimple 5)) 27)).
  destruct (initial_byte kSimple 27) as (Eb & Es & El); [unfold kSimple; lia|lia|]. cbv zeta in *.
  rewrite Es, El. change (simple_value 27) with (fun s => simple_value 27 s).
  change (DecodeValue (S depth)) with (DecodeValue (S depth)).
  unfold simple_value, kSimple, kUnsigned, kNegative, kBytes, kText, kArray, kMap, kTag. cbn [Z.eqb Pos.eqb].
  unfold kSimpleFalse, kSimpleTrue, kSimpleNull, kSimpleUndefined. cbn [Z.eqb Pos.eqb orb].
  change (Z.to_nat (Z.shiftl 1 (27 - 24))) with 8%nat.
  rewrite TakeBigEndian_be by (simpl; lia). done.
Qed.

Lemma DecodeValue_WriteString depth major text rest :
  major = kText \/ major = kBytes -> len text < 2 ^ 64 ->
  DecodeValue (S depth) (WriteString major text ++ rest)
  = Ok (if major =? kText then String_ text else Blob_ text, rest).
Proof.
  intros Hm Ht. unfold WriteString. pose proof (len_nonneg text).
  destruct (WriteTypeAndValue_read major (len text)) as (b & body & -> & Hmaj & _ & Hr);
    [destruct Hm as [->| ->]; unfold kText, kBytes; lia|lia|].
  rewrite <- app_assoc. cbn [app DecodeValue]. rewrite Hmaj, Hr. cbn [mbind Outcome_bind].
  unfold DecodeChunkedString. cbn [negb].
  rewrite len_app, Z.gtb_ltb, (proj2 (Z.ltb_ge _ _)) by (pose proof (len_nonneg rest); lia).
  unfold len at 1 3. rewrite Nat2Z.id, take_app_length. unfold len. rewrite Nat2Z.id, drop_app_length.
  by destruct Hm as [->| ->].
Qed.

(** ** Bit patterns round trip *)

Lemma bits_fields (s : bool) x y :
  0 <= x < 2048 -> 0 <= y < 2 ^ 52 ->
  let b := sign_bit s + x * 2 ^ 52 + y in
  0 <= b < 2 ^ 64 /\ Z.testbit b 63 = s /\ Z.land (Z.shiftr b 52) 2047 = x
  /\ Z.land b (2 ^ 52 - 1) = y.
Proof.
  intros Hx Hy b.
  assert (Eb : b = (Z.b2z s * 2048 + x) * 2 ^ 52 + y)
    by (unfold b, sign_bit; destruct s; simpl Z.b2z; change (2 ^ 63) with (2048 * 2 ^ 52); lia).
  assert (Hs : 0 <= Z.b2z s <= 1) by (destruct s; simpl; lia).
  split; [rewrite Eb; change (2 ^ 64) with (4096 * 2 ^ 52); nia|]. split_and!.
  - replace b with (Z.b2z s * 2 ^ 63 + (x * 2 ^ 52 + y))
      by (rewrite Eb; change (2 ^ 63) with (2048 * 2 ^ 52); lia).
    apply Z.b2z_inj. rewrite Z.testbit_spec' by lia.
    replace ((Z.b2z s * 2 ^ 63 + (x * 2 ^ 52 + y)) / 2 ^ 63) with (Z.b2z s).
    + rewrite Z.mod_small; [done|lia].
    + apply (Z.div_unique _ _ _ (x * 2 ^ 52 + y)); [|lia]. left.
      change (2 ^ 63) with (2048 * 2 ^ 52). nia.
  - rewrite Z.shiftr_div_pow2 by lia. change 2047 with (Z.ones 11). rewrite Z.land_ones by lia.
    replace (b / 2 ^ 52) with (Z.b2z s * 2048 + x) by (apply (Z.div_unique _ _ _ y); lia).
    change (2 ^ 11) with 2048. rewrite Z.add_comm, Z.mod_add, Z.mod_small by lia. done.
  - change (2 ^ 52 - 1) with (Z.ones 52). rewrite Z.land_ones by lia.
    rewrite Eb, Z.add_comm, Z.mod_add, Z.mod_small by lia. done.
Qed.

Lemma of_bits_to_bits s m e :
  2 ^ 52 <= Z.pos m < 2 ^ 53 -> -1074 <= e <= 971 ->
  of_bits (to_bits (S754_finite s m e)) = S754_finite s m e
  /\ 0 <= to_bits (S754_finite s m e) < 2 ^ 64.
Proof.
  intros Hm He. cbn [to_bits]. rewrite (proj2 (Z.ltb_ge _ _)) by lia.
  destruct (bits_fields s (e + 1075) (Z.pos m - 2 ^ 52) ltac:(lia) ltac:(lia)) as (Hr & Hs & Hx & Hy).
  cbv zeta in *. split; [|done]. unfold of_bits. rewrite Hs, Hx, Hy.
  rewrite (proj2 (Z.eqb_neq (e + 1075) 0)), (proj2 (Z.eqb_neq (e + 1075) 2047)) by lia.
  replace (Z.pos m - 2 ^ 52 + 2 ^ 52) with (Z.pos m) by lia. f_equal. lia.
Qed.

Lemma epoch_tag_written ms :
  kMinRepresentableMs <= ms <= kMaxRepresentableMs -> Z.rem ms 1000 <> 0 ->
  0 <= to_bits (epoch_seconds ms) < 2 ^ 64
  /\ FromEpochSecondsChecked (of_bits (to_bits (epoch_seconds ms))) = Ok ms.
Proof.
  intros Hms H0. assert (Hne : ms <> 0) by (by intros ->).
  destruct (epoch_seconds_shape ms) as (m & e & E & Hm & He & _).
  { unfold kMinRepresentableMs, kMaxRepresentableMs in Hms. lia. }
  destruct (of_bits_to_bits (ms <? 0) m e Hm ltac:(lia)) as [Eb Hb].
  rewrite E, Eb, <- E. split; [rewrite <- E in Hb; by rewrite E in *|].
  by apply FromEpochSecondsChecked_ms.
Qed.

(** ** The round trip *)

Lemma nesting_pos d : (1 <= nesting d)%nat.
Proof. destruct d; simpl; lia. Qed.

Lemma document_nonempty d : EncodeValue d <> [].
Proof.
  assert (H : forall major v rest, WriteTypeAndValue major v ++ rest <> []).
  { intros major v rest. unfold WriteTypeAndValue. by repeat destruct (_ <=? _) || destruct (_ <? _). }
  destruct d; cbn [EncodeValue]; try done; try apply H.
  unfold WriteInt. destruct (z >=? 0); [specialize (H kUnsigned z [])|specialize (H kNegative (- (z + 1)) [])];
    by rewrite app_nil_r in H.
Qed.

Lemma array_loop_written depth l rest :
  Forall (fun d => forall rest, DecodeValue depth (EncodeValue d ++ rest) = Ok (canon d, rest)) l ->
  forall fuel, (length l < fuel)%nat ->
  array_loop (DecodeValue depth) fuel false (len l) (mjoin (map EncodeValue l) ++ rest)
  = Ok (map canon l, rest).
Proof.
  induction 1 as [|d l Hd Hl IH]; intros fuel Hf.
  { destruct fuel; [simpl in Hf; lia|]. done. }
  destruct fuel as [|fuel]; [simpl in Hf; lia|]. cbn [array_loop].
  rewrite len_cons, (proj2 (Z.ltb_lt 0 _)) by (pose proof (len_nonneg l); lia). cbn [orb negb at_break andb].
  change (map EncodeValue (d :: l)) with (EncodeValue d :: map EncodeValue l).
  change (mjoin (EncodeValue d :: map EncodeValue l)) with (EncodeValue d ++ mjoin (map EncodeValue l)).
  rewrite <- app_assoc, Hd. cbn [mbind Outcome_bind].
  replace (1 + len l - 1) with (len l) by lia. rewrite IH by (simpl in Hf; lia). done.
Qed.

Definition encode_entry (e : bytes * Document) : bytes :=
  WriteString kText (fst e) ++ EncodeValue (snd e).

Definition canon_entry (e : bytes * Document) : bytes * Document := (fst e, canon (snd e)).

Lemma map_loop_written depth m rest :
  (1 <= depth)%nat ->
  Forall (fun e => len (fst e) < 2 ^ 64
    /\ forall rest, DecodeValue depth (EncodeValue (snd e) ++ rest) = Ok (canon (snd e), rest)) m ->
  forall fuel acc, (length m < fuel)%nat ->
  map_loop (DecodeValue depth) fuel false (len m) acc (mjoin (map encode_entry m) ++ rest)
  = Ok (fold_left (fun a e => sm_insert (fst e) (snd e) a) (map canon_entry m) acc, rest).
Proof.
  intros Hd. induction 1 as [|[k d] m [Hk Hm] _ IH]; intros fuel acc Hf.
  { destruct fuel; [simpl in Hf; lia|]. done. }
  destruct fuel as [|fuel]; [simpl in Hf; lia|]. cbn [map_loop].
  rewrite len_cons, (proj2 (Z.ltb_lt 0 _)) by (pose proof (len_nonneg m); lia). cbn [orb negb at_break andb].
  change (map encode_entry ((k, d) :: m)) with (encode_entry (k, d) :: map encode_entry m).
  change (mjoin (encode_entry (k, d) :: map encode_entry m))
    with (encode_entry (k, d) ++ mjoin (map encode_entry m)).
  unfold encode_entry at 1. cbn [fst snd] in *. rewrite <- !app_assoc.
  destruct depth as [|depth]; [lia|]. rewrite DecodeValue_WriteString by (by left || done).
  change (kText =? kText) with true. cbn [mbind Outcome_bind]. rewrite Hm. cbn [mbind Outcome_bind].
  replace (1 + len m - 1) with (len m) by lia. rewrite IH by (simpl in Hf; lia). done.
Qed.

Lemma length_mjoin_map {A} (f : A -> bytes) l :
  (forall x, f x <> []) -> (length l <= length (mjoin (map f l)))%nat.
Proof.
  intros Hf. induction l as [|x l IH]; [done|].
  change (mjoin (map f (x :: l))) with (f x ++ mjoin (map f l)). rewrite length_app.
  pose proof (Hf x). destruct (f x); [done|]. simpl. lia.
Qed.

Lemma canon_entries_ok m : sm_ok m -> sm_ok (map canon_entry m).
Proof.
  induction m as [|[k d] m IH]; [done|]. cbn [map canon_entry sm_ok fst]. intros [Hb Hm].
  split; [|auto]. apply Forall_map. eapply Forall_impl; [exact Hb|]. done.
Qed.

Lemma list_max_Forall (f : Document -> nat) l n :
  (list_max (map f l) <= n)%nat -> Forall (fun d => (f d <= n)%nat) l.
Proof. intros H%list_max_le. by apply Forall_map in H. Qed.

Lemma document_decodes d : forall depth rest,
  doc_ok d -> (nesting d <= depth)%nat ->
  DecodeValue depth (EncodeValue d ++ rest) = Ok (canon d, rest).
Proof.
  induction d as [ |b|z|bits|t|t|ms f|l IH|m IH] using Document_ind'; intros depth rest Hok Hd;
    (destruct depth as [|depth]; [pose proof (nesting_pos); simpl in Hd; lia|]).
  - done.
  - by destruct b.
  - by apply DecodeValue_WriteInt.
  - by apply DecodeValue_WriteDouble.
  - apply (DecodeValue_WriteString depth kText); [by left|done].
  - apply (DecodeValue_WriteString depth kBytes); [by right|done].
  - destruct depth as [|depth]; [simpl in Hd; lia|]. cbn [EncodeValue].
    rewrite <- app_assoc. cbn [WriteTypeAndValue kTag kTagEpochTimestamp].
    change (WriteTypeAndValue kTag kTagEpochTimestamp) with [z2b 193]. cbn [app].
    remember (S depth) as dd. cbn [DecodeValue].
    change (Z.shiftr (b2z (z2b 193)) 5) with kTag. change (Z.land (b2z (z2b 193)) 31) with 1.
    unfold kUnsigned, kNegative, kBytes, kText, kArray, kMap, kTag. cbn [Z.eqb Pos.eqb].
    assert (ER : forall s, ReadArgument 1 s = Ok (1, false, s)) by done. rewrite ER.
    assert (E : exists inner, DecodeValue dd ((if Z.rem ms 1000 =? 0 then WriteInt (Z.quot ms 1000)
        else WriteDouble (to_bits (epoch_seconds ms))) ++ rest) = Ok (inner, rest)
      /\ epoch_tag inner = Ok (TimestampNode ms kEpochSeconds)).
    { subst dd. cbn [doc_ok] in Hok. unfold kMinRepresentableMs, kMaxRepresentableMs in Hok.
      destruct (Z.eqb_spec (Z.rem ms 1000) 0) as [E|E].
      - assert (Eq : ms = 1000 * Z.quot ms 1000) by (pose proof (Z.quot_rem' ms 1000); lia).
        exists (Int (Z.quot ms 1000)). split; [apply DecodeValue_WriteInt; lia|]. cbn [epoch_tag].
        rewrite FromEpochSecondsChecked_int by lia. unfold CheckedFromMs, kMinRepresentableMs, kMaxRepresentableMs.
        replace (Z.quot ms 1000 * 1000) with ms by lia.
        by rewrite Z.gtb_ltb, !(proj2 (Z.ltb_ge _ _)) by lia.
      - destruct (epoch_tag_written ms) as [Hb Hf]; [done|done|].
        exists (Double (to_bits (epoch_seconds ms))). split; [by apply DecodeValue_WriteDouble|].
        cbn [epoch_tag]. by rewrite Hf. }
    destruct E as (inner & E1 & E2). cbn [mbind Outcome_bind]. rewrite E1. cbn [mbind Outcome_bind].
    change (1 =? kTagEpochTimestamp) with true. cbv iota. by rewrite E2.
  - apply doc_ok_list in Hok as [Hlen Hok]. cbn [nesting] in Hd. apply le_S_n in Hd.
    apply list_max_Forall in Hd. cbn [EncodeValue canon]. rewrite <- app_assoc.
    destruct (WriteTypeAndValue_read kArray (len l)) as (b & body & -> & Hm & _ & Hr);
      [unfold kArray; lia|pose proof (len_nonneg l); lia|].
    cbn [app DecodeValue]. rewrite Hm, Hr.
    unfold kUnsigned, kNegative, kBytes, kText, kArray. cbn [Z.eqb Pos.eqb mbind Outcome_bind].
    rewrite array_loop_written; [done| |].
    + rewrite Forall_forall in *. intros d Hin rest'. by apply IH; [|apply Hok|apply Hd].
    + rewrite length_app. pose proof (length_mjoin_map EncodeValue l document_nonempty). lia.
  - apply doc_ok_map in Hok as (Hlen & Hsm & Hok). cbn [nesting] in Hd. apply le_S_n in Hd.
    cbn [EncodeValue canon]. rewrite <- app_assoc.
    destruct (WriteTypeAndValue_read kMap (len m)) as (b & body & -> & Hm & _ & Hr);
      [unfold kMap; lia|pose proof (len_nonneg m); lia|].
    cbn [app DecodeValue]. rewrite Hm, Hr.
    unfold kUnsigned, kNegative, kBytes, kText, kArray, kMap. cbn [Z.eqb Pos.eqb mbind Outcome_bind].
    fold encode_entry canon_entry. destruct m as [|e0 m0]; [done|]. set (m := e0 :: m0) in *.
    assert (Hd1 : (1 <= depth)%nat) by (unfold m in Hd; lia).
    assert (Hd2 : Forall (fun e => (nesting (snd e) <= depth)%nat) m).
    { assert (H : (list_max (map (fun e => nesting (snd e)) m) <= depth)%nat) by lia.
      apply list_max_le in H. by apply Forall_map in H. }
    rewrite map_loop_written; [|done| |].
    + cbn [mbind Outcome_bind]. rewrite (sm_rebuild _ []); [done|]. by apply canon_entries_ok.
    + rewrite Forall_forall in *. intros e Hin. split; [by apply Hok|]. intros rest'.
      by apply IH; [|apply Hok|apply Hd2].
    + rewrite length_app. pose proof (length_mjoin_map encode_entry m) as H.
      change (length m < S (length (mjoin (map encode_entry m)) + length rest))%nat.
      enough (length m <= length (mjoin (map encode_entry m)))%nat by lia. apply H.
      intros e. unfold encode_entry, WriteString. rewrite <- !app_assoc.
      destruct (WriteTypeAndValue kText (len e.1)) eqn:E; [|done].
      unfold WriteTypeAndValue in E. by repeat destruct (_ <=? _) || destruct (_ <? _).
Qed.

(** ** What the decoder accepts *)

(** A read: a value satisfying [P] with at least [k] bytes consumed, or a
    serialization error. *)
Definition reads {A} (k : nat) (P : A -> Prop) (s : bytes) (o : Outcome (A * bytes)) : Prop :=
  match o with
  | Ok (a, s') => P a /\ (length s' + k <= length s)%nat
  | Err e => err_kind e = kSerialization
  end.

Lemma reads_bind {A B} k k' (P : A -> Prop) (Q : B -> Prop) s (o : Outcome (A * bytes)) f :
  reads k P s o ->
  (forall a s', P a -> (length s' + k <= length s)%nat -> reads k' Q s (f (a, s'))) ->
  reads k' Q s (o ≫= f).
Proof. destruct o as [[a s']|e]; cbn [mbind Outcome_bind reads]; [|done]. intros [Ha Hl] Hf. auto. Qed.

Lemma reads_weaken {A} k k' (P Q : A -> Prop) s s' (o : Outcome (A * bytes)) :
  reads k P s o -> (forall a, P a -> Q a) -> (length s + k' <= length s' + k)%nat -> reads k' Q s' o.
Proof. destruct o as [[a t]|e]; cbn [reads]; [|done]. intros [Ha Hl] HPQ Hk. split; [auto|lia]. Qed.

Lemma TakeBigEndian_reads n s v s' :
  (n <= 8)%nat -> TakeBigEndian n s = Some (v, s') ->
  0 <= v < 2 ^ (8 * Z.of_nat n) /\ (length s' <= length s)%nat.
Proof.
  intros Hn. unfold TakeBigEndian. destruct (Nat.ltb_spec (length s) n) as [|Hl]; [done|]. intros [= <- <-].
  split; [|rewrite length_drop; lia].
  pose proof (be_value_range (take n s)) as H. unfold len in H. rewrite length_take, Nat.min_l in H by done.
  by apply H.
Qed.

Lemma width_of_info info : 24 <= info <= 27 -> (Z.to_nat (Z.shiftl 1 (info - 24)) <= 8)%nat.
Proof. intros H. assert (info = 24 \/ info = 25 \/ info = 26 \/ info = 27) as [->|[->|[->| ->]]] by lia; vm_compute; lia. Qed.

Lemma pow_width n : (n <= 8)%nat -> 2 ^ (8 * Z.of_nat n) <= 2 ^ 64.
Proof. intros. apply Z.pow_le_mono_r; lia. Qed.

Lemma ReadArgument_reads info s :
  0 <= info < 32 -> reads 0 (fun a => 0 <= fst a < 2 ^ 64) s (ReadArgument info s).
Proof.
  intros Hi. unfold ReadArgument. destruct (Z.ltb_spec info 24).
  { cbn [reads fst]. lia. }
  destruct ((24 <=? info) && (info <=? 27)) eqn:E.
  - zbool. pose proof (width_of_info info ltac:(lia)) as Hw.
    destruct (TakeBigEndian _ s) as [[v s']|] eqn:Et; [|done].
    apply TakeBigEndian_reads in Et as [Hv Hl]; [|done]. pose proof (pow_width _ Hw).
    cbn [reads fst]. lia.
  - destruct (info =? 31); cbn [reads fst]; [lia|done].
Qed.

Lemma info_range b : 0 <= Z.land (b2z b) 31 < 32.
Proof.
  change 31 with (Z.ones 5). rewrite Z.land_ones by lia. apply (Z.mod_pos_bound _ (2 ^ 5)). lia.
Qed.

Lemma chunks_reads major : forall fuel out s,
  (length s < fuel)%nat ->
  match chunks fuel major out s with
  | Ok (t, s') => (length t + length s' <= length out + length s)%nat
  | Err e => err_kind e = kSerialization
  end.
Proof.
  induction fuel as [|fuel IH]; intros out s Hf; [lia|]. cbn [chunks].
  destruct s as [|b s]; [done|]. simpl in Hf. destruct (b2z b =? kBreak); [simpl; lia|].
  destruct (negb _); [done|]. pose proof (ReadArgument_reads _ s (info_range b)) as Hr.
  destruct (ReadArgument _ s) as [[[n ind] s']|e]; cbn [mbind Outcome_bind reads fst] in *; [|done].
  destruct Hr as [Hn Hl]. destruct ind; [done|]. destruct (n >? len s'); [done|].
  specialize (IH (out ++ take (Z.to_nat n) s') (drop (Z.to_nat n) s')).
  rewrite length_drop in IH. specialize (IH ltac:(lia)).
  destruct (chunks _ _ _ _) as [[t s'']|e]; [|done].
  rewrite length_app, length_take in IH. simpl. lia.
Qed.

Lemma DecodeChunkedString_reads major ind n s :
  match DecodeChunkedString major ind n s with
  | Ok (t, s') => (length t + length s' <= length s)%nat
  | Err e => err_kind e = kSerialization
  end.
Proof.
  unfold DecodeChunkedString. destruct ind; cbn [negb].
  - pose proof (chunks_reads major (S (length s)) [] s ltac:(lia)) as H.
    by destruct (chunks _ _ _ _) as [[t s']|e].
  - destruct (n >? len s); [done|]. rewrite length_take, length_drop. lia.
Qed.

(** A decoded value: well formed and within the depth. *)
Definition decoded (depth : nat) (d : Document) : Prop :=
  doc_ok d /\ canon d = d /\ (nesting d <= depth)%nat.

Lemma array_loop_reads dec depth ind : forall fuel n s,
  (forall s', (length s' <= length s)%nat -> reads 1 (decoded depth) s' (dec s')) -> (length s < fuel)%nat ->
  match array_loop dec fuel ind n s with
  | Ok (l, s') => Forall (decoded depth) l /\ (length l + length s' <= length s)%nat
  | Err e => err_kind e = kSerialization
  end.
Proof.
  induction fuel as [|fuel IH]; intros n s Hdec Hf; [lia|]. cbn [array_loop].
  destruct (negb _); [by split; [constructor|simpl; lia]|].
  destruct (at_break ind s); [split; [constructor|rewrite length_drop; simpl; lia]|].
  pose proof (Hdec s ltac:(lia)) as Hd. destruct (dec s) as [[d s1]|e]; cbn [mbind Outcome_bind reads] in *; [|done].
  destruct Hd as [Hd Hl]. specialize (IH (n - 1) s1 ltac:(intros; apply Hdec; lia) ltac:(lia)).
  destruct (array_loop _ _ _ _ _) as [[l s2]|e]; [|done]. destruct IH as [Hfl Hl2].
  split; [by constructor|]. simpl. lia.
Qed.

Lemma map_loop_reads dec depth ind L : forall fuel n m s,
  (forall s', (length s' <= length s)%nat -> reads 1 (decoded depth) s' (dec s')) -> (length s < fuel)%nat ->
  sm_ok m -> Forall (fun e => len (fst e) < 2 ^ 64 /\ decoded depth (snd e)) m ->
  (length m + length s <= L)%nat -> ((1 <= depth)%nat \/ m = []) ->
  match map_loop dec fuel ind n m s with
  | Ok (m, s') => sm_ok m /\ Forall (fun e => len (fst e) < 2 ^ 64 /\ decoded depth (snd e)) m
      /\ (length m + length s' <= L)%nat /\ (length s' <= length s)%nat /\ ((1 <= depth)%nat \/ m = [])
  | Err e => err_kind e = kSerialization
  end.
Proof.
  induction fuel as [|fuel IH]; intros n m s Hdec Hf Hok Hm HL Hd0; [lia|]. cbn [map_loop].
  destruct (negb _); [done|]. destruct (at_break ind s); [rewrite length_drop; split_and!; done || lia|].
  pose proof (Hdec s ltac:(lia)) as Hk. destruct (dec s) as [[k s1]|e]; cbn [mbind Outcome_bind reads] in *; [|done].
  destruct Hk as [Hk Hl1]. destruct k as [ | | | |k| | | | ]; try done.
  pose proof (Hdec s1 ltac:(lia)) as Hd. destruct (dec s1) as [[d s2]|e]; cbn [mbind Outcome_bind reads] in *; [|done].
  destruct Hd as [Hd Hl2].
  destruct (sm_insert_Forall (fun e => len (fst e) < 2 ^ 64 /\ decoded depth (snd e)) k d m) as [H1 H2];
    [by destruct Hk|done|].
  specialize (IH (n - 1) (sm_insert k d m) s2 ltac:(intros; apply Hdec; lia) ltac:(lia)
                (sm_insert_ok k d m Hok) H1 ltac:(lia)).
  assert (Hd1 : (1 <= depth)%nat) by (destruct Hk as (_ & _ & Hk); simpl in Hk; lia).
  specialize (IH (or_introl Hd1)).
  destruct (map_loop _ _ _ _ _ _) as [[m' s']|e]; [|done]. split_and!; try apply IH. lia.
Qed.

Lemma to_bits_round s p e :
  Z.pos p < 2 ^ 53 -> -1000 <= e <= 800 -> 0 <= to_bits (binary_round prec64 emax64 s p e) < 2 ^ 64.
Proof.
  intros Hp He. destruct (binary_round_exact s p e Hp He) as (m & e' & -> & Hm & He' & _).
  apply of_bits_to_bits; [done|lia].
Qed.

Lemma sign_bit_cases s : sign_bit s = 0 \/ sign_bit s = 2 ^ 63.
Proof. destruct s; auto. Qed.

Lemma land_ones_range x n : 0 <= n -> 0 <= Z.land x (Z.ones n) < 2 ^ n.
Proof. intros Hn. rewrite Z.land_ones by done. apply Z.mod_pos_bound. by apply pow2_pos. Qed.

Lemma DecodeHalf_range bits : 0 <= DecodeHalf bits < 2 ^ 64.
Proof.
  unfold DecodeHalf. set (s := negb _). clearbody s.
  pose proof (land_ones_range bits 10 ltac:(lia)) as Hm. change (Z.ones 10) with 1023 in Hm.
  pose proof (land_ones_range (Z.shiftr bits 10) 5 ltac:(lia)) as He. change (Z.ones 5) with 31 in He.
  set (m := Z.land bits 1023) in *. set (ex := Z.land _ 31) in *. clearbody m ex.
  assert (Hp53 : 2 ^ 10 + 1024 < 2 ^ 53) by done.
  unfold kInfinityBits, kQuietNanBits, kInfinityBits.
  destruct (Z.eqb_spec ex 0); [|destruct (Z.eqb_spec ex 31)].
  - destruct m as [|p|p]; [destruct (sign_bit_cases s) as [->| ->]; lia| |lia]. apply to_bits_round; lia.
  - destruct (m =? 0); destruct (sign_bit_cases s) as [->| ->]; lia.
  - destruct (m + 1024) as [|p|p] eqn:Ep; [lia| |lia]. apply to_bits_round; lia.
Qed.

Lemma bits_of_float_range bits : 0 <= bits_of_float bits < 2 ^ 64.
Proof.
  unfold bits_of_float. set (s := Z.testbit bits 31). clearbody s.
  pose proof (land_ones_range bits 23 ltac:(lia)) as Hm. change (Z.ones 23) with (2 ^ 23 - 1) in Hm.
  pose proof (land_ones_range (Z.shiftr bits 23) 8 ltac:(lia)) as He. change (Z.ones 8) with 255 in He.
  set (m := Z.land bits _) in *. set (ex := Z.land _ 255) in *. clearbody m ex.
  assert (Hp53 : 2 ^ 23 + 2 ^ 23 < 2 ^ 53) by done.
  unfold kInfinityBits, kQuietNanBits, kInfinityBits.
  destruct (Z.eqb_spec ex 255); [|destruct (Z.eqb_spec ex 0)].
  - assert (Hl : 0 <= Z.lor (2 ^ 51) (Z.shiftl m 29) < 2 ^ 52).
    { rewrite Z.shiftl_mul_pow2 by lia. assert (0 <= m * 2 ^ 29 < 2 ^ 52) by lia.
      split; [apply Z.lor_nonneg; lia|].
      assert (E : Z.lor (2 ^ 51) (m * 2 ^ 29) = Z.lor (2 ^ 51) (m * 2 ^ 29) mod 2 ^ 52).
      { rewrite <- Z.land_ones, Z.land_lor_distr_l, !Z.land_ones by lia. f_equal.
        symmetry. by apply Z.mod_small. }
      rewrite E. apply Z.mod_pos_bound. lia. }
    destruct (m =? 0); destruct (sign_bit_cases s) as [->| ->]; lia.
  - destruct m as [|p|p]; [destruct (sign_bit_cases s) as [->| ->]; lia| |lia]. apply to_bits_round; lia.
  - destruct (m + 2 ^ 23) as [|p|p] eqn:Ep; [lia| |lia]. apply to_bits_round; lia.
Qed.

Lemma simple_value_reads depth info s :
  (1 <= depth)%nat -> reads 0 (decoded depth) s (simple_value info s).
Proof.
  intros Hd. unfold simple_value. unfold decoded, reads.
  destruct (info =? kSimpleFalse); [simpl; repeat split; lia|].
  destruct (info =? kSimpleTrue); [simpl; repeat split; lia|].
  destruct (_ || _); [simpl; repeat split; lia|]. destruct (_ || _) eqn:E; [|done].
  assert (Hi : 24 <= info <= 27) by (apply orb_true_iff in E as [[?|?]%orb_true_iff|?]; zbool; lia).
  pose proof (width_of_info info Hi) as Hw. destruct (TakeBigEndian _ s) as [[bits s']|] eqn:Et; [|done].
  apply TakeBigEndian_reads in Et as [Hb Hl]; [|done]. pose proof (pow_width _ Hw).
  assert (Hr : 0 <= (if info =? 25 then DecodeHalf bits
    else if info =? 26 then bits_of_float bits else bits) < 2 ^ 64).
  { destruct (info =? 25); [apply DecodeHalf_range|].
    destruct (info =? 26); [apply bits_of_float_range|lia]. }
  cbn [doc_ok canon nesting]. repeat split; try lia; apply Hr.
Qed.

Lemma FromEpochSecondsChecked_reads x :
  match FromEpochSecondsChecked x with
  | Ok ms => kMinRepresentableMs <= ms <= kMaxRepresentableMs
  | Err e => err_kind e = kSerialization
  end.
Proof.
  unfold FromEpochSecondsChecked, CheckedFromMs. destruct (negb _); [done|]. destruct (_ || _); [done|].
  destruct (_ || _) eqn:E; [done|]. zbool. apply Z.ltb_ge in H0. lia.
Qed.

Lemma epoch_tag_reads inner :
  match epoch_tag inner with
  | Ok d => exists ms, d = TimestampNode ms kEpochSeconds /\ kMinRepresentableMs <= ms <= kMaxRepresentableMs
  | Err e => err_kind e = kSerialization
  end.
Proof.
  destruct inner as [ | |z|bits| | | | | ]; cbn [epoch_tag]; [done|done| | |done..].
  - pose proof (FromEpochSecondsChecked_reads (of_int z)) as H.
    destruct (FromEpochSecondsChecked (of_int z)); cbn [mbind Outcome_bind]; eauto.
  - pose proof (FromEpochSecondsChecked_reads (of_bits bits)) as H.
    destruct (FromEpochSecondsChecked (of_bits bits)); cbn [mbind Outcome_bind]; eauto.
Qed.

Lemma read_int_reads info s :
  0 <= info < 32 -> reads 0 (fun v => 0 <= v < 2 ^ 63) s (read_int info s).
Proof.
  intros Hi. unfold read_int. eapply reads_bind; [by apply ReadArgument_reads|].
  intros [v ind] s' Hv Hl. cbn [fst] in Hv. destruct ind; [done|].
  destruct (v >? kMaxInt64) eqn:E; [done|]. rewrite Z.gtb_ltb, Z.ltb_ge in E.
  unfold kMaxInt64 in E. cbn [reads]. lia.
Qed.

Lemma DecodeValue_reads depth : forall s, len s < 2 ^ 64 -> reads 1 (decoded depth) s (DecodeValue depth s).
Proof.
  induction depth as [|depth IH]; intros s Hs; [done|]. cbn [DecodeValue].
  destruct s as [|b s]; [done|]. rewrite len_cons in Hs.
  assert (Hcons : forall (o : Outcome (Document * bytes)),
    reads 0 (decoded (S depth)) s o -> reads 1 (decoded (S depth)) (b :: s) o).
  { intros o Ho. eapply reads_weaken; [exact Ho|done|simpl; lia]. }
  apply Hcons. clear Hcons. set (info := Z.land (b2z b) 31). pose proof (info_range b) as Hi. fold info in Hi.
  assert (Hsub : forall s' : bytes, (length s' + 0 <= length s)%nat -> len s' < 2 ^ 64) by (unfold len in *; lia).
  destruct (_ =? kUnsigned).
  { eapply reads_bind; [by apply read_int_reads|]. intros v s' Hv Hl. cbv beta in Hv. cbn [reads].
    repeat split; simpl; lia. }
  destruct (_ =? kNegative).
  { eapply reads_bind; [by apply read_int_reads|]. intros v s' Hv Hl. cbv beta in Hv. cbn [reads].
    repeat split; simpl; lia. }
  destruct (_ =? kBytes).
  { eapply reads_bind; [by apply ReadArgument_reads|]. intros [n ind] s' _ Hl.
    pose proof (DecodeChunkedString_reads kBytes ind n s') as Hc.
    destruct (DecodeChunkedString _ _ _ _) as [[t s'']|e]; [|done]. cbn [mbind Outcome_bind reads].
    repeat split; simpl; unfold len in *; lia. }
  destruct (_ =? kText).
  { eapply reads_bind; [by apply ReadArgument_reads|]. intros [n ind] s' _ Hl.
    pose proof (DecodeChunkedString_reads kText ind n s') as Hc.
    destruct (DecodeChunkedString _ _ _ _) as [[t s'']|e]; [|done]. cbn [mbind Outcome_bind reads].
    repeat split; simpl; unfold len in *; lia. }
  destruct (_ =? kArray).
  { eapply reads_bind; [by apply ReadArgument_reads|]. intros [n ind] s' _ Hl.
    pose proof (array_loop_reads (DecodeValue depth) depth ind (S (length s')) n s'
                  ltac:(intros; apply IH, Hsub; lia) ltac:(lia)) as Hc.
    destruct (array_loop _ _ _ _ _) as [[l s'']|e]; [|done]. cbn [mbind Outcome_bind reads].
    destruct Hc as [Hl1 Hl2]. split; [|lia]. split; [|split].
    - apply doc_ok_list. split; [unfold len in *; lia|]. eapply Forall_impl; [exact Hl1|]. by intros d [? _].
    - cbn [canon]. f_equal. induction Hl1 as [|d l (_ & Hd & _) _ IHl]; [done|]. cbn [map].
      rewrite Hd, IHl by (simpl in Hl2; lia). done.
    - cbn [nesting]. apply le_n_S, list_max_le, Forall_map. eapply Forall_impl; [exact Hl1|].
      by intros d (_ & _ & ?). }
  destruct (_ =? kMap).
  { eapply reads_bind; [by apply ReadArgument_reads|]. intros [n ind] s' _ Hl.
    pose proof (map_loop_reads (DecodeValue depth) depth ind (length s') (S (length s')) n [] s'
                  ltac:(intros; apply IH, Hsub; lia) ltac:(lia) I ltac:(by constructor)
                  ltac:(simpl; lia) ltac:(by right)) as Hc.
    destruct (map_loop _ _ _ _ _ _) as [[m s'']|e]; [|done]. cbn [mbind Outcome_bind reads].
    destruct Hc as (Hok & Hm & Hl1 & Hl2 & Hd1). split; [|lia]. split; [|split].
    - apply doc_ok_map. split_and!; [unfold len in *; lia|done|]. eapply Forall_impl; [exact Hm|].
      by intros e (? & ? & _).
    - cbn [canon]. f_equal. clear Hok Hl1 Hd1. induction Hm as [|[k d] m (_ & _ & Hd & _) _ IHm]; [done|].
      cbn [map fst snd] in *. by rewrite Hd, IHm.
    - cbn [nesting]. apply le_n_S, Nat.max_lub.
      + destruct Hd1 as [Hd1| ->]; [destruct m; lia|lia].
      + apply list_max_le, Forall_map. eapply Forall_impl; [exact Hm|]. by intros e (_ & _ & _ & ?). }
  destruct (_ =? kTag).
  { eapply reads_bind; [by apply ReadArgument_reads|]. intros [tag ind] s' _ Hl. destruct ind; [done|].
    pose proof (IH s' ltac:(by apply Hsub)) as Hin.
    destruct (DecodeValue depth s') as [[inner s'']|e]; [|done]. cbn [mbind Outcome_bind reads] in *.
    destruct Hin as [(Hok & Hc & Hn) Hl2]. destruct (tag =? kTagEpochTimestamp).
    - pose proof (epoch_tag_reads inner) as He. destruct (epoch_tag inner) as [d|e]; [|done].
      destruct He as (ms & -> & Hms). cbn [mbind Outcome_bind reads]. pose proof (nesting_pos inner).
      repeat split; simpl; lia.
    - cbn [reads]. repeat split; try done; lia. }
  apply simple_value_reads. lia.
Qed.

(** The CBOR codec as the layers above see it. *)
#[export] Instance cbor_codec :
  Codec (fun d => Ok (Encode d)) Decode (fun d => doc_ok d /\ (nesting d <= 64)%nat /\ canon d = d).
Proof.
  intros d b (Hok & Hd & Hc) <-%Ok_inj. unfold Decode, Encode. rewrite <- (app_nil_r (EncodeValue d)).
  by rewrite document_decodes, Hc.
Qed.

(** ** Claims *)

(** C22: CBOR round trip.  Every well-formed document nested within the
    decoder's 64 levels is decoded back from its encoding, doubles to the bit,
    timestamps to the millisecond through whole or fractional epoch seconds;
    only a timestamp's wire format is not kept. *)
Theorem cbor_roundtrip d :
  doc_ok d -> (nesting d <= 64)%nat -> Decode (Encode d) = Ok (canon d).
Proof.
  intros Hok Hd. unfold Decode, Encode. rewrite <- (app_nil_r (EncodeValue d)).
  by rewrite document_decodes.
Qed.

Lemma cbor_roundtrip_witness :
  let d := Map_ [(lit "a", TimestampNode 1500 kDateTime); (lit "b", List_ [Int (-500); Null])] in
  Decode (Encode d) = Ok (canon d).
Proof.
  exact (cbor_roundtrip (Map_ [(lit "a", TimestampNode 1500 kDateTime); (lit "b", List_ [Int (-500); Null])])
    ltac:(vm_compute; repeat split; try congruence; repeat constructor) ltac:(vm_compute; lia)).
Defined.

(** decoding untrusted bytes.  [Decode] always answers: a serialization
    error, or a well-formed document (64-bit integers and bit patterns, sorted
    maps, representable timestamps) nested within 64 levels, which re-encodes
    deterministically and decodes back to itself. *)
Theorem Decode_total data :
  len data < 2 ^ 64 ->
  match Decode data with
  | Ok d => doc_ok d /\ (nesting d <= 64)%nat /\ Decode (Encode d) = Ok d
  | Err e => err_kind e = kSerialization
  end.
Proof.
  intros Hl. unfold Decode at 1. pose proof (DecodeValue_reads kMaxDepth data Hl) as H.
  destruct (DecodeValue kMaxDepth data) as [[d [|x s]]|e]; cbn [mbind Outcome_bind reads] in *; [|done|done].
  destruct H as [(Hok & Hc & Hn) _]. split_and!; [done|done|]. unfold Decode, Encode.
  rewrite <- (app_nil_r (EncodeValue d)), document_decodes, Hc by done. done.
Qed.

Lemma Decode_total_witness :
  match Decode [z2b 159; z2b 1; z2b 255] with
  | Ok d => doc_ok d /\ (nesting d <= 64)%nat /\ Decode (Encode d) = Ok d
  | Err e => err_kind e = kSerialization
  end.
Proof. exact (Decode_total [z2b 159; z2b 1; z2b 255] ltac:(by vm_compute)). Defined.
