(* ===== verification/WebSocketPair.v ===== *)
(** http/websocket_pair.cc: the in-memory WebSocket session as a state machine.
    Every locked region of the code is one step of [step]; a blocking call is a
    step that joins the waiters and a step that passes the wait, enabled when
    its wake predicate holds; completions are what the region's thread calls, in
    its order, [fires_locked] saying which it calls before it unlocks.  The [bool]
    of a step says whether it called [notify_all].  The model lets other regions
    run between the two steps of a blocking call and lets any blocked receive
    time out, so its runs include those of the code. *)
From Stdlib Require Import ZArith Lia Strings.Byte.
From S2P Require Import Prelude Bytes Frame.

Local Open Scope Z_scope.

(** ** Two-element arrays; [false] is index 0 and [negb e] is [1 - e] *)

Record two (A : Type) := Two { at0 : A; at1 : A }.
Arguments Two {A} _ _.
Arguments at0 {A} _.
Arguments at1 {A} _.

Definition get {A} (e : bool) (t : two A) : A := if e then at1 t else at0 t.
Definition set {A} (e : bool) (v : A) (t : two A) : two A :=
  if e then Two (at0 t) v else Two v (at1 t).

Definition both {A} (v : A) : two A := Two v v.

Record CloseReason := mkCloseReason { close_code : Z; close_reason : bytes }.

Definition default_close : CloseReason := mkCloseReason 1000 [].

(** [CheckCloseReason]: what [Kick] accepts; anything else is fatal. *)
Definition CheckCloseReason (why : CloseReason) : bool :=
  ((close_code why =? 1000) || ((3000 <=? close_code why) && (close_code why <=? 4999)))
  && (len (close_reason why) <=? 123).

(** Calls are known by a number: what their completion is reported under. *)
Notation call := nat (only parsing).

(** [PairState].  The code counts blocked callers; here they are listed, each
    with what it waits to do, and the counts are the lengths.  [watchdogs] are
    the armed receive deadlines, each with the generation it was armed for. *)
Record PairState := mkPair {
  queues : two (list Message);
  pending_receive : two (option call);
  pending_send : two (option (Message * call));
  receive_park_generation : two Z;
  blocked_receivers : two (list call);
  blocked_senders : two (list (Message * call));
  closed : bool;
  peer_close : two (option CloseReason);
  watchdogs : two (list Z)
}.

Definition Create : PairState :=
  mkPair (both []) (both None) (both None) (both 0) (both []) (both []) false (both None) (both []).

Definition kQueueDepth : Z := 8.

(** What a call is told. *)
Inductive Completion :=
| SendDone (e : bool) (c : call) (m : Message) (o : Outcome unit)
| ReceiveDone (e : bool) (c : call) (o : Outcome (option Message)).

Inductive Action :=
| SendBegin (e : bool) (c : call) (m : Message)
| SendPass (e : bool) (c : call)
| SendAsync (e : bool) (c : call) (m : Message)
| ReceiveBegin (e : bool) (c : call)
| ReceivePass (e : bool) (c : call)
| ReceiveExpire (e : bool) (c : call)
| ReceiveAsync (e : bool) (c : call) (timeout : option Z)
| Deadline (e : bool) (generation : Z)
| ArmFails (e : bool) (generation : Z)
| End_ (e : bool) (why : CloseReason).

Definition session_closed : Error := Error_Transport (lit "websocket pair: session is closed") true.
Definition receive_deadline : Error :=
  Error_Timeout (lit "websocket pair: no message within the receive deadline").

(** ** The wake predicates *)

Definition can_send (e : bool) (s : PairState) : bool :=
  ((len (get e (queues s)) <? kQueueDepth)
   && match get e (pending_send s) with None => true | Some _ => false end)
  || closed s.

Definition arrived (e : bool) (s : PairState) : bool :=
  (match get (negb e) (queues s) with [] => false | _ => true end
   && match get e (pending_receive s) with None => true | Some _ => false end)
  || closed s.

Definition watchdog_released (e : bool) (generation : Z) (s : PairState) : bool :=
  match get e (pending_receive s) with
  | None => true
  | Some _ => negb (get e (receive_park_generation s) =? generation)
  end.

(** ** State updates *)

Definition with_queue (e : bool) (q : list Message) (s : PairState) : PairState :=
  mkPair (set e q (queues s)) (pending_receive s) (pending_send s) (receive_park_generation s)
    (blocked_receivers s) (blocked_senders s) (closed s) (peer_close s) (watchdogs s).

Definition with_pending_receive (e : bool) (p : option call) (s : PairState) : PairState :=
  mkPair (queues s) (set e p (pending_receive s)) (pending_send s) (receive_park_generation s)
    (blocked_receivers s) (blocked_senders s) (closed s) (peer_close s) (watchdogs s).

Definition with_pending_send (e : bool) (p : option (Message * call)) (s : PairState) : PairState :=
  mkPair (queues s) (pending_receive s) (set e p (pending_send s)) (receive_park_generation s)
    (blocked_receivers s) (blocked_senders s) (closed s) (peer_close s) (watchdogs s).

Definition with_blocked_receivers (e : bool) (l : list call) (s : PairState) : PairState :=
  mkPair (queues s) (pending_receive s) (pending_send s) (receive_park_generation s)
    (set e l (blocked_receivers s)) (blocked_senders s) (closed s) (peer_close s) (watchdogs s).

Definition with_blocked_senders (e : bool) (l : list (Message * call)) (s : PairState) : PairState :=
  mkPair (queues s) (pending_receive s) (pending_send s) (receive_park_generation s)
    (blocked_receivers s) (set e l (blocked_senders s)) (closed s) (peer_close s) (watchdogs s).

Definition with_generation (e : bool) (g : Z) (s : PairState) : PairState :=
  mkPair (queues s) (pending_receive s) (pending_send s) (set e g (receive_park_generation s))
    (blocked_receivers s) (blocked_senders s) (closed s) (peer_close s) (watchdogs s).

Definition with_watchdogs (e : bool) (l : list Z) (s : PairState) : PairState :=
  mkPair (queues s) (pending_receive s) (pending_send s) (receive_park_generation s)
    (blocked_receivers s) (blocked_senders s) (closed s) (peer_close s) (set e l (watchdogs s)).

(** ** The locked helpers *)

(** [TakePeerReceiverLocked], or queueing the message: the state, and the
    delivery owed when the peer had a receive parked. *)
Definition hand_over (e : bool) (m : Message) (s : PairState) : PairState * list Completion :=
  match get (negb e) (pending_receive s) with
  | Some c =>
    (with_pending_receive (negb e) None s, [ReceiveDone (negb e) c (Ok (Some m))])
  | None => (with_queue e (get e (queues s) ++ [m]) s, [])
  end.

(** [AbsorbPeerPendingSendLocked], after end [e] has popped a message. *)
Definition absorb (e : bool) (s : PairState) : PairState * list Completion :=
  match get (negb e) (pending_send s) with
  | Some (m, c) =>
    if len (get (negb e) (queues s)) >=? kQueueDepth then (s, [])
    else
      (with_pending_send (negb e) None (with_queue (negb e) (get (negb e) (queues s) ++ [m]) s),
       [SendDone (negb e) c m (Ok tt)])
  | None => (s, [])
  end.

(** Popping the head of the inbound queue, and the completions owed. *)
Definition take_message (e : bool) (c : call) (m : Message) (rest : list Message) (s : PairState)
    : PairState * list Completion :=
  let '(s, absorbed) := absorb e (with_queue (negb e) rest s) in
  (s, absorbed ++ [ReceiveDone e c (Ok (Some m))]).

(** [TerminalWaiters] of one end, its parked completions: the send fires
    first. *)
Definition terminal_waiters (e : bool) (s : PairState) : list Completion :=
  match get e (pending_send s) with
  | Some (m, c) => [SendDone e c m (Err session_closed)]
  | None => []
  end
  ++ match get e (pending_receive s) with
     | Some c => [ReceiveDone e c (Ok None)]
     | None => []
     end.

Definition refused (what : bytes) : Error := Error_Validation (lit "websocket pair: " ++ what).

(** What both ends of an armed deadline do to the park it was armed for: the
    watchdog that expires, and the spawn that fails. *)
Definition expire (e : bool) (generation : Z) (why : Error) (s : PairState)
    : PairState * list Completion * bool :=
  if watchdog_released e generation s then (s, [], false)
  else
    match get e (pending_receive s) with
    | Some c => (with_pending_receive e None s, [ReceiveDone e c (Err why)], true)
    | None => (s, [], false)
    end.

Definition cannot_arm : Error :=
  Error_Transport (lit "websocket pair: cannot arm the receive deadline") true.

(** Removes the first waiter with this number. *)
Fixpoint leave {A} (is_it : A -> bool) (l : list A) : option (A * list A) :=
  match l with
  | [] => None
  | a :: l =>
    if is_it a then Some (a, l) else '(b, l) ← leave is_it l; Some (b, a :: l)
  end.

(** ** Steps *)

Definition result : Type := option (PairState * list Completion * bool).

(** [PairEnd::Send] up to its wait, and past it. *)
Definition Send_begin (e : bool) (c : call) (m : Message) (s : PairState) : result :=
  match EncodeMessage m with
  | Err err => Some (s, [SendDone e c m (Err err)], false)
  | Ok _ => Some (with_blocked_senders e (get e (blocked_senders s) ++ [(m, c)]) s, [], false)
  end.

Definition Send_pass (e : bool) (c : call) (s : PairState) : result :=
  if negb (can_send e s) then None
  else
    '((m, _), waiting) ← leave (fun w => Nat.eqb (snd w) c) (get e (blocked_senders s));
    let s := with_blocked_senders e waiting s in
    if closed s then Some (s, [SendDone e c m (Err session_closed)], false)
    else
      let '(s, delivered) := hand_over e m s in
      Some (s, delivered ++ [SendDone e c m (Ok tt)], true).

(** [PairEnd::SendAsync]. *)
Definition SendAsync_region (e : bool) (c : call) (m : Message) (s : PairState) : result :=
  match EncodeMessage m with
  | Err err => Some (s, [SendDone e c m (Err err)], false)
  | Ok _ =>
    if closed s then Some (s, [SendDone e c m (Err session_closed)], false)
    else
      match get e (pending_send s), get e (blocked_senders s) with
      | None, [] =>
        if len (get e (queues s)) >=? kQueueDepth then
          Some (with_pending_send e (Some (m, c)) s, [], false)
        else
          let '(s, delivered) := hand_over e m s in
          Some (s, delivered ++ [SendDone e c m (Ok tt)], true)
      | _, _ =>
        Some (s, [SendDone e c m (Err (refused (lit "a send is already in flight")))], false)
      end
  end.

(** [PairEnd::ReceiveWithin]: joining the waiters; waking with something arrived; the
    deadline of the timed call. *)
Definition ReceiveWithin_begin (e : bool) (c : call) (s : PairState) : result :=
  Some (with_blocked_receivers e (get e (blocked_receivers s) ++ [c]) s, [], false).

Definition ReceiveWithin_pass (e : bool) (c : call) (s : PairState) : result :=
  if negb (arrived e s) then None
  else
    '(_, waiting) ← leave (Nat.eqb c) (get e (blocked_receivers s));
    let s := with_blocked_receivers e waiting s in
    match get (negb e) (queues s) with
    | [] => Some (s, [ReceiveDone e c (Ok None)], false)
    | m :: rest => let '(s, done) := take_message e c m rest s in Some (s, done, true)
    end.

Definition ReceiveWithin_expire (e : bool) (c : call) (s : PairState) : result :=
  if arrived e s then None
  else
    '(_, waiting) ← leave (Nat.eqb c) (get e (blocked_receivers s));
    Some (with_blocked_receivers e waiting s, [ReceiveDone e c (Err receive_deadline)], false).

(** [PairEnd::ReceiveAsyncWithin], the watchdog armed in the same step. *)
Definition ReceiveAsyncWithin (e : bool) (c : call) (timeout : option Z) (s : PairState) : result :=
  match get e (pending_receive s), get e (blocked_receivers s) with
  | None, [] =>
    match get (negb e) (queues s) with
    | m :: rest => let '(s, done) := take_message e c m rest s in Some (s, done, true)
    | [] =>
      if closed s then Some (s, [ReceiveDone e c (Ok None)], false)
      else if match timeout with Some t => t <=? 0 | None => false end then
        Some (s, [ReceiveDone e c (Err receive_deadline)], false)
      else
        let generation := wrap 64 (get e (receive_park_generation s) + 1) in
        let s := with_generation e generation (with_pending_receive e (Some c) s) in
        Some (match timeout with
              | Some _ => with_watchdogs e (generation :: get e (watchdogs s)) s
              | None => s
              end, [], false)
    end
  | _, _ =>
    Some (s, [ReceiveDone e c (Err (refused (lit "a receive is already outstanding")))], false)
  end.

(** [PairEnd::ArmReceiveDeadline]: the watchdog at its deadline or released early, and
    the spawn that fails. *)
Definition watchdog (e : bool) (generation : Z) (s : PairState) : result :=
  '(_, armed) ← leave (Z.eqb generation) (get e (watchdogs s));
  Some (expire e generation receive_deadline (with_watchdogs e armed s)).

Definition ArmReceiveDeadline_refused (e : bool) (generation : Z) (s : PairState) : result :=
  '(_, armed) ← leave (Z.eqb generation) (get e (watchdogs s));
  Some (expire e generation cannot_arm (with_watchdogs e armed s)).

(** [PairEnd::End]. *)
Definition End_region (e : bool) (why : CloseReason) (s : PairState) : result :=
  let peer := if closed s then peer_close s else set (negb e) (Some why) (peer_close s) in
  Some (mkPair (queues s) (both None) (both None) (receive_park_generation s)
          (blocked_receivers s) (blocked_senders s) true peer (watchdogs s),
        terminal_waiters false s ++ terminal_waiters true s, true).

Definition step (a : Action) (s : PairState) : result :=
  match a with
  | SendBegin e c m => Send_begin e c m s
  | SendPass e c => Send_pass e c s
  | SendAsync e c m => SendAsync_region e c m s
  | ReceiveBegin e c => ReceiveWithin_begin e c s
  | ReceivePass e c => ReceiveWithin_pass e c s
  | ReceiveExpire e c => ReceiveWithin_expire e c s
  | ReceiveAsync e c timeout => ReceiveAsyncWithin e c timeout s
  | Deadline e generation => watchdog e generation s
  | ArmFails e generation => ArmReceiveDeadline_refused e generation s
  | End_ e why => End_region e why s
  end.

(** The refusals that call back before the region unlocks: every other
    completion is called once the lock is released. *)
Definition fires_locked (a : Action) (s : PairState) : bool :=
  match a with
  | SendAsync e c m =>
    match EncodeMessage m with
    | Err _ => false
    | Ok _ =>
      closed s || (match get e (pending_send s) with Some _ => true | None => false end)
      || (0 <? len (get e (blocked_senders s)))
    end
  | ReceiveAsync e c timeout =>
    (match get e (pending_receive s) with Some _ => true | None => false end)
    || (0 <? len (get e (blocked_receivers s)))
  | _ => false
  end.

(** [Close] and [Kick]. *)
Definition Close (e : bool) : Action := End_ e default_close.
Definition Kick (e : bool) (why : CloseReason) : option Action :=
  if CheckCloseReason why then Some (End_ e why) else None.

Definition PeerCloseReason (e : bool) (s : PairState) : option CloseReason := get e (peer_close s).

(** A run: the actions taken from the created pair, and what was completed. *)
Inductive run : list Action -> PairState -> list Completion -> Prop :=
| run_nil : run [] Create []
| run_step acts s cs a s' new notified :
    run acts s cs -> step a s = Some (s', new, notified) -> run (acts ++ [a]) s' (cs ++ new).

(** Playing a list of actions. *)
Fixpoint exec (acts : list Action) (s : PairState) (cs : list Completion)
    : option (PairState * list Completion) :=
  match acts with
  | [] => Some (s, cs)
  | a :: acts => '(s', new, _) ← step a s; exec acts s' (cs ++ new)
  end.

Lemma exec_run acts acts' s cs s' cs' :
  run acts s cs -> exec acts' s cs = Some (s', cs') -> run (acts ++ acts') s' cs'.
Proof.
  revert acts s cs. induction acts' as [|a acts' IH]; intros acts s cs Hr; cbn [exec].
  - intros [= <- <-]. by rewrite app_nil_r.
  - intros H. apply bind_Some in H as ([[s1 new] n] & Hs & H).
    apply IH with (acts := acts ++ [a]) in H; [by rewrite <- app_assoc in H|by eapply run_step].
Qed.

(** ** What a run has done *)

Definition accepts (e : bool) (c : Completion) : option Message :=
  match c with
  | SendDone e' _ m (Ok _) => if Bool.eqb e e' then Some m else None
  | _ => None
  end.

Definition delivers (e : bool) (c : Completion) : option Message :=
  match c with
  | ReceiveDone e' _ (Ok (Some m)) => if Bool.eqb e e' then Some m else None
  | _ => None
  end.

(** The messages end [e] sent successfully, and those it received, in order. *)
Definition accepted (e : bool) (cs : list Completion) : list Message := omap (accepts e) cs.
Definition delivered (e : bool) (cs : list Completion) : list Message := omap (delivers e) cs.

Definition begins (a : Action) : list call :=
  match a with
  | SendBegin _ c _ | SendAsync _ c _ | ReceiveBegin _ c | ReceiveAsync _ c _ => [c]
  | _ => []
  end.

Definition call_of (c : Completion) : call :=
  match c with SendDone _ c _ _ | ReceiveDone _ c _ => c end.

Definition outstanding_at (e : bool) (s : PairState) : list call :=
  match get e (pending_receive s) with Some c => [c] | None => [] end
  ++ match get e (pending_send s) with Some (_, c) => [c] | None => [] end
  ++ get e (blocked_receivers s) ++ map snd (get e (blocked_senders s)).

(** The calls that have not been told their outcome. *)
Definition outstanding (s : PairState) : list call := outstanding_at false s ++ outstanding_at true s.

(** ** Invariants *)

Ltac open_step :=
  cbn [step begins fires_locked];
  unfold Send_begin, Send_pass, SendAsync_region, ReceiveWithin_begin, ReceiveWithin_pass,
    ReceiveWithin_expire, ReceiveAsyncWithin, watchdog, ArmReceiveDeadline_refused, End_region.

Record pair_ok (s : PairState) (cs : list Completion) : Prop := {
  ok_fifo : forall e, accepted e cs = delivered (negb e) cs ++ get e (queues s);
  ok_bound : forall e, len (get e (queues s)) <= kQueueDepth;
  ok_parked_receive : forall e, get e (pending_receive s) <> None ->
    get (negb e) (queues s) = [] /\ closed s = false;
  ok_parked_send : forall e, get e (pending_send s) <> None ->
    kQueueDepth <= len (get e (queues s)) /\ closed s = false
}.

Lemma get_set {A} e e' (v : A) t : get e (set e' v t) = if Bool.eqb e e' then v else get e t.
Proof. by destruct e, e'. Qed.

Lemma accepted_app e cs cs' : accepted e (cs ++ cs') = accepted e cs ++ accepted e cs'.
Proof. apply omap_app. Qed.

Lemma delivered_app e cs cs' : delivered e (cs ++ cs') = delivered e cs ++ delivered e cs'.
Proof. apply omap_app. Qed.

Lemma leave_cons {A} (f : A -> bool) l a l' :
  leave f l = Some (a, l') -> f a = true /\ l ≡ₚ a :: l'.
Proof.
  revert l'. induction l as [|x l IH]; intros l'; cbn [leave]; [done|].
  destruct (f x) eqn:E; [by intros [= <- <-]|]. intros H.
  apply bind_Some in H as ([b l2] & H & [= -> <-]). apply IH in H as [Hf Hp]. split; [done|].
  rewrite Hp. apply Permutation_swap.
Qed.

Lemma terminal_silent e e' s : accepted e (terminal_waiters e' s) = [] /\ delivered e (terminal_waiters e' s) = [].
Proof.
  unfold terminal_waiters. rewrite accepted_app, delivered_app.
  destruct (get e' (pending_send s)) as [[m c]|], (get e' (pending_receive s)) as [c'|]; done.
Qed.

Lemma hand_over_ok e c m s s' new cs :
  pair_ok s cs -> get e (pending_send s) = None -> closed s = false ->
  len (get e (queues s)) < kQueueDepth -> hand_over e m s = (s', new) ->
  pair_ok s' (cs ++ new ++ [SendDone e c m (Ok tt)]).
Proof.
  intros [Hf Hb Hr Hs] Hp Hc Hl. unfold hand_over.
  destruct (get (negb e) (pending_receive s)) as [c'|] eqn:Er; intros [= <- <-].
  - destruct (Hr (negb e)) as [Hq _]; [by rewrite Er|]. rewrite negb_involutive in Hq.
    split; cbn [with_pending_receive queues pending_receive pending_send closed]; [| done | | done].
    + intros e0. rewrite !accepted_app, !delivered_app, Hf. cbn [accepted delivered omap list_omap accepts delivers].
      destruct e, e0; simpl in *; rewrite ?app_nil_r, ?Hq, ?app_nil_r; done.
    + intros e0. rewrite get_set. destruct (Bool.eqb e0 (negb e)); [done|]. apply Hr.
  - split; cbn [with_queue queues pending_receive pending_send closed].
    + intros e0. rewrite !accepted_app, !delivered_app, Hf, get_set. simpl.
      destruct e, e0; simpl in *; rewrite ?app_nil_r, ?app_assoc; done.
    + intros e0. rewrite get_set. destruct (Bool.eqb e0 e); [|done]. rewrite len_app. change (len [m]) with 1. lia.
    + intros e0 He0. rewrite get_set. destruct (Hr e0 He0) as [Hq ?].
      destruct e, e0; simpl in *; done.
    + intros e0 He0. rewrite get_set. destruct (Bool.eqb e0 e) eqn:E; [|by apply Hs].
      apply eqb_prop in E as ->. congruence.
Qed.

Lemma take_message_ok e c m rest s s' new cs :
  pair_ok s cs -> get (negb e) (queues s) = m :: rest -> get e (pending_receive s) = None ->
  take_message e c m rest s = (s', new) -> pair_ok s' (cs ++ new).
Proof.
  intros [Hf Hb Hr Hs] Hq He. unfold take_message, absorb.
  cbn [with_queue queues pending_send]. rewrite get_set, eqb_reflx.
  pose proof (Hb (negb e)) as Hbe. rewrite Hq, len_cons in Hbe.
  assert (Hrest : forall q, (forall e0, get e0 (pending_receive s) <> None -> get (negb e0) (set (negb e) q (queues s)) = []
      /\ closed s = false)).
  { intros q e0 He0. rewrite get_set. destruct (Bool.eqb (negb e0) (negb e)) eqn:E; [|by apply Hr].
    assert (e0 = e) as -> by (by destruct e0, e). congruence. }
  destruct (get (negb e) (pending_send s)) as [[m2 c2]|] eqn:Ep.
  - destruct (Hs (negb e)) as [_ Hc]; [by rewrite Ep|].
    rewrite Z.geb_leb, (proj2 (Z.leb_gt _ _)) by lia. intros [= <- <-].
    split; cbn [with_pending_send with_queue queues pending_receive pending_send closed].
    + intros e0. rewrite !accepted_app, !delivered_app, Hf, !get_set. simpl.
      destruct e, e0; simpl in *; rewrite ?app_nil_r, ?Hq, <- ?app_assoc; done.
    + intros e0. rewrite !get_set. destruct (Bool.eqb e0 (negb e)); [|done].
      rewrite len_app. change (len [m2]) with 1. lia.
    + intros e0 He0. specialize (Hrest rest e0 He0). rewrite !get_set in *.
      destruct (Bool.eqb (negb e0) (negb e)) eqn:E; [|done].
      assert (e0 = e) as -> by (by destruct e0, e). congruence.
    + intros e0. rewrite !get_set. destruct (Bool.eqb e0 (negb e)) eqn:E; [done|]. apply Hs.
  - intros [= <- <-]. split; cbn [with_pending_send with_queue queues pending_receive pending_send closed].
    + intros e0. rewrite !accepted_app, !delivered_app, Hf, !get_set. simpl.
      destruct e, e0; simpl in *; rewrite ?app_nil_r, ?Hq, <- ?app_assoc; done.
    + intros e0. rewrite get_set. destruct (Bool.eqb e0 (negb e)); [lia|done].
    + apply Hrest.
    + intros e0 He0. rewrite get_set. destruct (Bool.eqb e0 (negb e)) eqn:E; [|by apply Hs].
      apply eqb_prop in E as ->. congruence.
Qed.

(** Completions that carry no message, with the protected fields unchanged. *)
Lemma silent_ok s s' cs new :
  pair_ok s cs -> (forall e, accepted e new = [] /\ delivered e new = []) ->
  queues s' = queues s -> closed s' = closed s ->
  (forall e, get e (pending_receive s') <> None -> get e (pending_receive s) <> None) ->
  (forall e, get e (pending_send s') <> None -> get e (pending_send s) <> None) ->
  pair_ok s' (cs ++ new).
Proof.
  intros [Hf Hb Hr Hs] Hn Hq Hc Hpr Hps. split; rewrite ?Hq, ?Hc.
  - intros e. destruct (Hn e) as [Ha _], (Hn (negb e)) as [_ Hd].
    rewrite accepted_app, delivered_app, Ha, Hd, !app_nil_r. apply Hf.
  - done.
  - intros e He. by apply Hr, Hpr.
  - intros e He. by apply Hs, Hps.
Qed.

(** Parking or unparking a waiter touches nothing the invariant speaks of. *)
Lemma frame_ok s s' cs :
  pair_ok s cs -> queues s' = queues s -> closed s' = closed s ->
  (forall e, get e (pending_receive s') <> None -> get e (pending_receive s) <> None) ->
  (forall e, get e (pending_send s') <> None -> get e (pending_send s) <> None) ->
  pair_ok s' cs.
Proof. intros. rewrite <- (app_nil_r cs). by apply (silent_ok s). Qed.

Lemma send_pass_ok e c s s' new notified cs :
  pair_ok s cs -> step (SendPass e c) s = Some (s', new, notified) -> pair_ok s' (cs ++ new).
Proof.
  intros Hok. open_step. destruct (can_send e s) eqn:Ecs; [|done]. cbn [negb]. intros H.
  apply bind_Some in H as ([[m c'] waiting] & Hl & H).
  set (s1 := with_blocked_senders e waiting s) in *.
  assert (Hok1 : pair_ok s1 cs) by (by apply (frame_ok s)).
  change (closed s1) with (closed s) in H. destruct (closed s) eqn:Ec.
  - injection H as <- <- <-. by apply (silent_ok s1).
  - destruct (hand_over e m s1) as [s2 d] eqn:Eh. injection H as <- <- <-.
    unfold can_send in Ecs. rewrite Ec, orb_false_r in Ecs. apply andb_prop in Ecs as [E1 E2].
    apply Z.ltb_lt in E1. eapply hand_over_ok; try done. cbn [s1 with_blocked_senders pending_send].
    by destruct (get e (pending_send s)).
Qed.

Lemma send_async_ok e c m s s' new notified cs :
  pair_ok s cs -> step (SendAsync e c m) s = Some (s', new, notified) -> pair_ok s' (cs ++ new).
Proof.
  intros Hok. open_step. destruct (EncodeMessage m); [|intros [= <- <- <-]; by apply (silent_ok s)].
  destruct (closed s) eqn:Ec; [intros [= <- <- <-]; by apply (silent_ok s)|].
  destruct (get e (pending_send s)) as [p|] eqn:Ep; [intros [= <- <- <-]; by apply (silent_ok s)|].
  destruct (get e (blocked_senders s)); [|intros [= <- <- <-]; by apply (silent_ok s)].
  destruct (len (get e (queues s)) >=? kQueueDepth) eqn:El.
  - intros [= <- <- <-]. rewrite app_nil_r. destruct Hok as [Hf Hb Hr Hs].
    split; cbn [with_pending_send queues pending_receive pending_send closed]; [done|done|done|].
    intros e0. rewrite get_set. destruct (Bool.eqb e0 e) eqn:E; [|apply Hs].
    apply eqb_prop in E as ->. rewrite Z.geb_leb, Z.leb_le in El. done.
  - destruct (hand_over e m s) as [s2 d] eqn:Eh. intros [= <- <- <-].
    rewrite Z.geb_leb, Z.leb_gt in El. by eapply hand_over_ok.
Qed.

Lemma receive_pass_ok e c s s' new notified cs :
  pair_ok s cs -> step (ReceivePass e c) s = Some (s', new, notified) -> pair_ok s' (cs ++ new).
Proof.
  intros Hok. open_step. destruct (arrived e s) eqn:Ea; [|done]. cbn [negb]. intros H.
  apply bind_Some in H as ([c' waiting] & Hl & H).
  set (s1 := with_blocked_receivers e waiting s) in *.
  assert (Hok1 : pair_ok s1 cs) by (by apply (frame_ok s)).
  change (queues s1) with (queues s) in H. destruct (get (negb e) (queues s)) as [|m rest] eqn:Eq.
  - injection H as <- <- <-. by apply (silent_ok s1).
  - destruct (take_message e c m rest s1) as [s2 d] eqn:Et. injection H as <- <- <-.
    eapply take_message_ok; try done. cbn [s1 with_blocked_receivers pending_receive].
    destruct (get e (pending_receive s)) eqn:Er; [|done]. exfalso.
    destruct (ok_parked_receive _ _ Hok e) as [Hq _]; [by rewrite Er|]. congruence.
Qed.

Lemma receive_async_ok e c timeout s s' new notified cs :
  pair_ok s cs -> step (ReceiveAsync e c timeout) s = Some (s', new, notified) -> pair_ok s' (cs ++ new).
Proof.
  intros Hok. open_step.
  destruct (get e (pending_receive s)) eqn:Er; [intros [= <- <- <-]; by apply (silent_ok s)|].
  destruct (get e (blocked_receivers s)); [|intros [= <- <- <-]; by apply (silent_ok s)].
  destruct (get (negb e) (queues s)) as [|m rest] eqn:Eq.
  - destruct (closed s) eqn:Ec; [intros [= <- <- <-]; by apply (silent_ok s)|].
    destruct (match timeout with Some t => t <=? 0 | None => false end);
      [intros [= <- <- <-]; by apply (silent_ok s)|].
    set (s1 := with_generation _ _ _). intros [= <- <- <-]. rewrite app_nil_r.
    assert (Hok1 : pair_ok s1 cs).
    { destruct Hok as [Hf Hb Hr Hs]. split; cbn; [done|done| |done].
      intros e0. rewrite get_set. destruct (Bool.eqb e0 e) eqn:E; [|apply Hr].
      apply eqb_prop in E as ->. done. }
    destruct timeout; [|done]. by apply (frame_ok s1).
  - destruct (take_message e c m rest s) as [s2 d] eqn:Et. intros [= <- <- <-].
    by eapply take_message_ok.
Qed.

Lemma expire_ok e g why armed s s' new notified cs :
  pair_ok s cs -> expire e g why (with_watchdogs e armed s) = (s', new, notified) -> pair_ok s' (cs ++ new).
Proof.
  intros Hok. unfold expire. set (s1 := with_watchdogs e armed s).
  assert (Hok1 : pair_ok s1 cs) by (by apply (frame_ok s)).
  destruct (watchdog_released e g s1); [intros [= <- <- <-]; by rewrite app_nil_r|].
  destruct (get e (pending_receive s1)); intros [= <- <- <-]; [|by rewrite app_nil_r].
  apply (silent_ok s1); try done. intros e0. cbn [with_pending_receive pending_receive].
  rewrite get_set. by destruct (Bool.eqb e0 e).
Qed.

Lemma end_ok e why s s' new notified cs :
  pair_ok s cs -> step (End_ e why) s = Some (s', new, notified) -> pair_ok s' (cs ++ new).
Proof.
  intros [Hf Hb Hr Hs]. open_step. intros [= <- <- <-].
  split; cbn [queues pending_receive pending_send closed].
  - intros e0. rewrite !accepted_app, !delivered_app, Hf.
    rewrite !(proj1 (terminal_silent _ _ _)), !(proj2 (terminal_silent _ _ _)). by rewrite !app_nil_r.
  - done.
  - intros e0. by destruct e0.
  - intros e0. by destruct e0.
Qed.

Lemma step_ok a s s' new notified cs :
  pair_ok s cs -> step a s = Some (s', new, notified) -> pair_ok s' (cs ++ new).
Proof.
  intros Hok H. destruct a as [e c m|e c|e c m|e c|e c|e c|e c timeout|e g|e g|e why].
  - revert H. open_step. destruct (EncodeMessage m); intros [= <- <- <-]; by apply (silent_ok s).
  - by eapply send_pass_ok.
  - by eapply send_async_ok.
  - revert H. open_step. intros [= <- <- <-]. by apply (silent_ok s).
  - by eapply receive_pass_ok.
  - revert H. open_step. destruct (arrived e s); [done|]. intros H.
    apply bind_Some in H as ([c' waiting] & Hl & H). injection H as <- <- <-. by apply (silent_ok s).
  - by eapply receive_async_ok.
  - revert H. open_step. intros H. apply bind_Some in H as ([? armed] & _ & [= H]). by eapply expire_ok.
  - revert H. open_step. intros H. apply bind_Some in H as ([? armed] & _ & [= H]). by eapply expire_ok.
  - by eapply end_ok.
Qed.

Lemma run_ok acts s cs : run acts s cs -> pair_ok s cs.
Proof.
  induction 1 as [|acts s cs a s' new notified _ IH Hstep].
  - split; intros []; done.
  - by eapply step_ok.
Qed.

(** ** Every call completes once *)

Definition cnt (x : call) (l : list call) : nat := count_occ Nat.eq_dec l x.

Lemma cnt_app x l l' : cnt x (l ++ l') = (cnt x l + cnt x l')%nat.
Proof. apply count_occ_app. Qed.

Lemma cnt_cons x c l : cnt x (c :: l) = (cnt x [c] + cnt x l)%nat.
Proof. apply (cnt_app x [c] l). Qed.

Lemma cnt_perm x l l' : l ≡ₚ l' -> cnt x l = cnt x l'.
Proof. intros H. by apply (Permutation_count_occ Nat.eq_dec). Qed.

Lemma leave_snd {A} (c : call) (l : list (A * call)) a c' l' :
  leave (fun w => Nat.eqb (snd w) c) l = Some ((a, c'), l') ->
  c' = c /\ forall x, cnt x (map snd l) = (cnt x [c] + cnt x (map snd l'))%nat.
Proof.
  intros [E%Nat.eqb_eq Hp]%leave_cons. simpl in E. subst c'. split; [done|]. intros x.
  rewrite <- (cnt_cons x c). apply cnt_perm. by apply (Permutation_map snd) in Hp.
Qed.

Lemma leave_call (c : call) l c' l' :
  leave (Nat.eqb c) l = Some (c', l') -> c' = c /\ forall x, cnt x l = (cnt x [c] + cnt x l')%nat.
Proof.
  intros [E%Nat.eqb_eq Hp]%leave_cons. subst c'. split; [done|]. intros x.
  rewrite (cnt_perm x _ _ Hp). apply cnt_cons.
Qed.

(** The calls outstanding, by where they wait. *)
Lemma cnt_outstanding x s e :
  cnt x (outstanding s)
  = (cnt x (outstanding_at e s) + cnt x (outstanding_at (negb e) s))%nat.
Proof. unfold outstanding. rewrite cnt_app. destruct e; simpl; lia. Qed.

Lemma cnt_outstanding_at x s e :
  cnt x (outstanding_at e s)
  = (cnt x (match get e (pending_receive s) with Some c => [c] | None => [] end)
     + cnt x (match get e (pending_send s) with Some (_, c) => [c] | None => [] end)
     + cnt x (get e (blocked_receivers s)) + cnt x (map snd (get e (blocked_senders s))))%nat.
Proof. unfold outstanding_at. rewrite !cnt_app. lia. Qed.

Lemma get_set_same {A} e (v : A) t : get e (set e v t) = v.
Proof. by destruct e. Qed.

Lemma get_set_other {A} e (v : A) t : get (negb e) (set e v t) = get (negb e) t.
Proof. by destruct e. Qed.

Lemma get_set_other' {A} e (v : A) t : get e (set (negb e) v t) = get e t.
Proof. by destruct e. Qed.

Ltac pair_simpl :=
  cbn [with_queue with_pending_receive with_pending_send with_blocked_receivers with_blocked_senders
       with_generation with_watchdogs queues pending_receive pending_send blocked_receivers
       blocked_senders closed receive_park_generation watchdogs] in *;
  rewrite ?negb_involutive, ?get_set_same, ?get_set_other, ?get_set_other' in *.

(** Splits the outstanding calls at end [e] and rewrites the updated fields. *)
Ltac count_at e :=
  rewrite !(cnt_outstanding _ _ e), !cnt_outstanding_at; pair_simpl;
  rewrite ?map_app, ?cnt_app; cbn [map snd call_of app].

Lemma hand_over_calls e m s s' new x :
  hand_over e m s = (s', new) ->
  cnt x (outstanding s) = (cnt x (map call_of new) + cnt x (outstanding s'))%nat.
Proof.
  unfold hand_over. destruct (get (negb e) (pending_receive s)) as [c|] eqn:E; intros [= <- <-].
  - count_at e. rewrite E. simpl. lia.
  - count_at e. simpl. lia.
Qed.

Lemma take_message_calls e c m rest s s' new x :
  take_message e c m rest s = (s', new) ->
  (cnt x [c] + cnt x (outstanding s) = cnt x (map call_of new) + cnt x (outstanding s'))%nat.
Proof.
  unfold take_message, absorb. pair_simpl.
  destruct (get (negb e) (pending_send s)) as [[m2 c2]|] eqn:E.
  - destruct (_ >=? _); intros [= <- <-].
    + count_at e. lia.
    + count_at e. rewrite E, (cnt_cons x c2 [c]). simpl. lia.
  - intros [= <- <-]. count_at e. lia.
Qed.

Lemma terminal_calls x s why :
  (cnt x (outstanding s)
   = cnt x (map call_of (terminal_waiters false s ++ terminal_waiters true s))
     + cnt x (outstanding (mkPair (queues s) (both None) (both None) (receive_park_generation s)
                (blocked_receivers s) (blocked_senders s) true why (watchdogs s))))%nat.
Proof.
  rewrite !(cnt_outstanding _ _ false), !cnt_outstanding_at. unfold terminal_waiters.
  rewrite !map_app, !cnt_app. pair_simpl. cbn [negb both get at0 at1].
  destruct (at0 (pending_send s)) as [[? ?]|], (at1 (pending_send s)) as [[? ?]|],
    (at0 (pending_receive s)), (at1 (pending_receive s)); cbn [map call_of]; simpl; lia.
Qed.

Lemma expire_calls e g why armed s s' new notified x :
  expire e g why (with_watchdogs e armed s) = (s', new, notified) ->
  (cnt x [] + cnt x (outstanding s) = cnt x (map call_of new) + cnt x (outstanding s'))%nat.
Proof.
  unfold expire. set (s1 := with_watchdogs e armed s).
  assert (H1 : cnt x (outstanding s) = cnt x (outstanding s1)) by (subst s1; count_at e; lia).
  rewrite H1. destruct (watchdog_released e g s1); [by intros [= <- <- <-]|].
  destruct (get e (pending_receive s1)) as [c|] eqn:Er; intros [= <- <- <-]; [|done].
  count_at e. rewrite Er. simpl. lia.
Qed.

Lemma step_calls a s s' new notified x :
  step a s = Some (s', new, notified) ->
  (cnt x (begins a) + cnt x (outstanding s) = cnt x (map call_of new) + cnt x (outstanding s'))%nat.
Proof.
  destruct a as [e c m|e c|e c m|e c|e c|e c|e c timeout|e g|e g|e why]; open_step.
  - destruct (EncodeMessage m); intros [= <- <- <-]; [|done]. count_at e. simpl. lia.
  - destruct (negb _); [done|]. intros H. apply bind_Some in H as ([[m c'] waiting] & Hl & H).
    apply leave_snd in Hl as [-> Hl]. specialize (Hl x).
    set (s1 := with_blocked_senders e waiting s) in *.
    assert (H1 : cnt x (outstanding s) = (cnt x [c] + cnt x (outstanding s1))%nat)
      by (subst s1; count_at e; lia).
    destruct (closed s1); [injection H as <- <- <-; cbn [map call_of]; simpl; simpl in H1; lia|].
    destruct (hand_over e m s1) as [s2 d] eqn:Eh. injection H as <- <- <-.
    apply (hand_over_calls e m s1 s2 d x) in Eh. rewrite map_app, cnt_app. cbn [map call_of]. simpl in *. lia.
  - destruct (EncodeMessage m); [|by intros [= <- <- <-]].
    destruct (closed s); [by intros [= <- <- <-]|].
    destruct (get e (pending_send s)) as [p|] eqn:Ep; [by intros [= <- <- <-]|].
    destruct (get e (blocked_senders s)) eqn:Eb; [|by intros [= <- <- <-]].
    destruct (_ >=? _).
    + intros [= <- <- <-]. count_at e. rewrite Ep. simpl. lia.
    + destruct (hand_over e m s) as [s2 d] eqn:Eh. intros [= <- <- <-].
      apply (hand_over_calls e m s s2 d x) in Eh. rewrite map_app, cnt_app. cbn [map call_of]. simpl in *. lia.
  - intros [= <- <- <-]. count_at e. simpl. lia.
  - destruct (negb _); [done|]. intros H. apply bind_Some in H as ([c' waiting] & Hl & H).
    apply leave_call in Hl as [-> Hl]. specialize (Hl x).
    set (s1 := with_blocked_receivers e waiting s) in *.
    assert (H1 : cnt x (outstanding s) = (cnt x [c] + cnt x (outstanding s1))%nat)
      by (subst s1; count_at e; lia).
    destruct (get (negb e) (queues s1)) as [|m rest].
    + injection H as <- <- <-. cbn [map call_of]. simpl in *. lia.
    + destruct (take_message e c m rest s1) as [s2 d] eqn:Et. injection H as <- <- <-.
      apply (take_message_calls e c m rest s1 s2 d x) in Et. simpl in *. lia.
  - destruct (arrived e s); [done|]. intros H. apply bind_Some in H as ([c' waiting] & Hl & H).
    apply leave_call in Hl as [-> Hl]. specialize (Hl x). injection H as <- <- <-.
    count_at e. simpl in *. lia.
  - destruct (get e (pending_receive s)) eqn:Er; [by intros [= <- <- <-]|].
    destruct (get e (blocked_receivers s)) eqn:Eb; [|by intros [= <- <- <-]].
    destruct (get (negb e) (queues s)) as [|m rest] eqn:Eq.
    + destruct (closed s); [by intros [= <- <- <-]|].
      destruct (match timeout with Some t => t <=? 0 | None => false end); [by intros [= <- <- <-]|].
      intros [= <- <- <-]. destruct timeout; count_at e; rewrite Er; simpl; lia.
    + destruct (take_message e c m rest s) as [s2 d] eqn:Et. intros [= <- <- <-].
      by apply (take_message_calls e c m rest s s2 d x) in Et.
  - intros H. apply bind_Some in H as ([? armed] & _ & [= H]). by eapply expire_calls.
  - intros H. apply bind_Some in H as ([? armed] & _ & [= H]). by eapply expire_calls.
  - intros [= <- <- <-]. apply terminal_calls.
Qed.

Lemma run_calls acts s cs :
  run acts s cs -> mjoin (map begins acts) ≡ₚ map call_of cs ++ outstanding s.
Proof.
  intros Hr. apply (Permutation_count_occ Nat.eq_dec). intros x. fold (cnt x (mjoin (map begins acts))).
  fold (cnt x (map call_of cs ++ outstanding s)). rewrite cnt_app.
  induction Hr as [|acts s cs a s' new notified _ IH Hstep]; [done|].
  apply (step_calls a s s' new notified x) in Hstep.
  rewrite !map_app, join_app, !cnt_app. cbn [map mjoin list_join]. rewrite app_nil_r. lia.
Qed.

(** ** Waking *)

(** A predicate some sleeper waits for has become true. *)
Definition woken (s s' : PairState) : Prop :=
  exists e, (can_send e s = false /\ can_send e s' = true)
  \/ (arrived e s = false /\ arrived e s' = true)
  \/ exists g, watchdog_released e g s = false /\ watchdog_released e g s' = true.

(** Steps that leave the predicates' fields alone wake nobody. *)
Lemma quiet_unwoken s s' :
  queues s' = queues s -> pending_receive s' = pending_receive s -> pending_send s' = pending_send s ->
  receive_park_generation s' = receive_park_generation s -> closed s' = closed s -> ~ woken s s'.
Proof.
  intros Hq Hr Hs Hg Hc (e & [[H0 H1]|[[H0 H1]|(g & H0 & H1)]]); revert H0 H1;
    unfold can_send, arrived, watchdog_released; rewrite ?Hq, ?Hr, ?Hs, ?Hg, ?Hc; congruence.
Qed.

Lemma park_send_unwoken e m c s :
  ~ woken s (with_pending_send e (Some (m, c)) s).
Proof.
  intros (e0 & [[H0 H1]|[[H0 H1]|(g & H0 & H1)]]); revert H0 H1;
    unfold can_send, arrived, watchdog_released; pair_simpl; try congruence.
  rewrite get_set. destruct (Bool.eqb e0 e); [|congruence].
  rewrite andb_false_r. cbn [orb]. intros Hf Hc. rewrite Hc, orb_true_r in Hf. done.
Qed.

Lemma park_receive_unwoken e c g s s' :
  get e (pending_receive s) = None ->
  queues s' = queues s -> pending_receive s' = set e (Some c) (pending_receive s) ->
  pending_send s' = pending_send s ->
  receive_park_generation s' = set e g (receive_park_generation s) -> closed s' = closed s ->
  ~ woken s s'.
Proof.
  intros He Hq Hr Hs Hg Hc (e0 & [[H0 H1]|[[H0 H1]|(g0 & H0 & H1)]]); revert H0 H1;
    unfold can_send, arrived, watchdog_released; rewrite ?Hq, ?Hr, ?Hs, ?Hg, ?Hc, ?get_set; try congruence.
  - destruct (Bool.eqb e0 e); [|congruence]. rewrite andb_false_r. cbn [orb].
    intros Hf H1. rewrite H1, orb_true_r in Hf. done.
  - destruct (Bool.eqb e0 e) eqn:E; [|congruence]. apply eqb_prop in E as ->. by rewrite He.
Qed.

Lemma expire_unwoken e g why armed s s' new :
  expire e g why (with_watchdogs e armed s) = (s', new, false) -> ~ woken s s'.
Proof.
  unfold expire. destruct (watchdog_released _ _ _); [intros [= <- <-]; by apply quiet_unwoken|].
  destruct (get e (pending_receive _)); intros [= <- <-]. by apply quiet_unwoken.
Qed.

Lemma step_unwoken a s s' new : step a s = Some (s', new, false) -> ~ woken s s'.
Proof.
  destruct a as [e c m|e c|e c m|e c|e c|e c|e c timeout|e g|e g|e why]; open_step.
  - destruct (EncodeMessage m); intros [= <- <-]; by apply quiet_unwoken.
  - destruct (negb _); [done|]. intros H. apply bind_Some in H as ([[m c'] waiting] & _ & H).
    destruct (closed _); [injection H as <- <-; by apply quiet_unwoken|].
    by destruct (hand_over _ _ _).
  - destruct (EncodeMessage m); [|intros [= <- <-]; by apply quiet_unwoken].
    destruct (closed s); [intros [= <- <-]; by apply quiet_unwoken|].
    destruct (get e (pending_send s)); [intros [= <- <-]; by apply quiet_unwoken|].
    destruct (get e (blocked_senders s)); [|intros [= <- <-]; by apply quiet_unwoken].
    destruct (_ >=? _); [intros [= <- <-]; apply park_send_unwoken|]. by destruct (hand_over _ _ _).
  - intros [= <- <-]. by apply quiet_unwoken.
  - destruct (negb _); [done|]. intros H. apply bind_Some in H as ([c' waiting] & _ & H).
    destruct (get (negb e) (queues _)); [injection H as <- <-; by apply quiet_unwoken|].
    by destruct (take_message _ _ _ _ _).
  - destruct (arrived e s); [done|]. intros H. apply bind_Some in H as ([c' waiting] & _ & H).
    injection H as <- <-. by apply quiet_unwoken.
  - destruct (get e (pending_receive s)) eqn:Er; [intros [= <- <-]; by apply quiet_unwoken|].
    destruct (get e (blocked_receivers s)); [|intros [= <- <-]; by apply quiet_unwoken].
    destruct (get (negb e) (queues s)); [|by destruct (take_message _ _ _ _ _)].
    destruct (closed s); [intros [= <- <-]; by apply quiet_unwoken|].
    destruct (match timeout with Some t => t <=? 0 | None => false end);
      [intros [= <- <-]; by apply quiet_unwoken|].
    intros [= <- <-]. by destruct timeout; eapply park_receive_unwoken.
  - intros H. apply bind_Some in H as ([? armed] & _ & [= H]). by eapply expire_unwoken.
  - intros H. apply bind_Some in H as ([? armed] & _ & [= H]). by eapply expire_unwoken.
  - done.
Qed.

(** ** Draining a closed session *)

Lemma hand_over_closed e m s s' new : hand_over e m s = (s', new) -> closed s' = closed s.
Proof. unfold hand_over. destruct (get _ (pending_receive s)); by intros [= <- <-]. Qed.

Lemma take_message_frame e c m rest s s' new :
  take_message e c m rest s = (s', new) ->
  closed s' = closed s /\ blocked_receivers s' = blocked_receivers s
  /\ blocked_senders s' = blocked_senders s.
Proof.
  unfold take_message, absorb. pair_simpl.
  destruct (get (negb e) (pending_send s)) as [[m2 c2]|]; [destruct (_ >=? _)|]; by intros [= <- <-].
Qed.

Definition waiting_at (e : bool) (s : PairState) : nat :=
  (length (get e (blocked_receivers s)) + length (get e (blocked_senders s)))%nat.

Definition waiting (s : PairState) : nat := (waiting_at false s + waiting_at true s)%nat.

Lemma leave_head {A} (f : A -> bool) a l : f a = true -> leave f (a :: l) = Some (a, l).
Proof. intros E. cbn [leave]. by rewrite E. Qed.

Lemma waiting_set_receivers e l s :
  (waiting (with_blocked_receivers e l s) + length (get e (blocked_receivers s)) = waiting s + length l)%nat.
Proof. unfold waiting, waiting_at. destruct e; simpl; lia. Qed.

Lemma waiting_set_senders e l s :
  (waiting (with_blocked_senders e l s) + length (get e (blocked_senders s)) = waiting s + length l)%nat.
Proof. unfold waiting, waiting_at. destruct e; simpl; lia. Qed.

(** A blocked sender of a closed session passes its wait, and so does a blocked
    receiver: one waiter fewer each time. *)
Lemma closed_sender_passes e m c l s :
  closed s = true -> get e (blocked_senders s) = (m, c) :: l ->
  step (SendPass e c) s
  = Some (with_blocked_senders e l s, [SendDone e c m (Err session_closed)], false).
Proof.
  intros Hc Hb. open_step. unfold can_send. rewrite Hc, orb_true_r, Hb. cbn [negb].
  rewrite leave_head by apply Nat.eqb_refl. simpl. by rewrite Hc.
Qed.

Lemma closed_receiver_passes e c l s :
  closed s = true -> get e (blocked_receivers s) = c :: l ->
  exists s' new notified, step (ReceivePass e c) s = Some (s', new, notified)
  /\ closed s' = true /\ S (waiting s') = waiting s.
Proof.
  intros Hc Hb. open_step. unfold arrived. rewrite Hc, orb_true_r, Hb. cbn [negb].
  rewrite leave_head by apply Nat.eqb_refl. cbn [mbind option_bind with_blocked_receivers queues].
  pose proof (waiting_set_receivers e l s) as Hw. rewrite Hb in Hw. simpl in Hw.
  destruct (get (negb e) (queues s)) as [|m rest].
  - eexists _, _, _. split; [done|]. split; [done|]. lia.
  - destruct (take_message e c m rest _) as [s2 d] eqn:Et.
    destruct (take_message_frame _ _ _ _ _ _ _ Et) as (Hc2 & Hr2 & Hs2).
    eexists _, _, _. split; [done|]. split; [by rewrite Hc2|].
    unfold waiting, waiting_at in *. rewrite Hr2, Hs2. lia.
Qed.

Lemma closed_step s :
  closed s = true -> waiting s <> O ->
  exists a s' new notified, step a s = Some (s', new, notified)
  /\ begins a = [] /\ closed s' = true /\ S (waiting s') = waiting s.
Proof.
  intros Hc Hw.
  assert (exists e, get e (blocked_senders s) <> [] \/ get e (blocked_receivers s) <> []) as (e & [Hs|Hr]).
  { unfold waiting, waiting_at in Hw.
    destruct (get false (blocked_senders s)) eqn:E1; [|exists false; left; congruence].
    destruct (get true (blocked_senders s)) eqn:E2; [|exists true; left; congruence].
    destruct (get false (blocked_receivers s)) eqn:E3; [|exists false; right; congruence].
    destruct (get true (blocked_receivers s)) eqn:E4; [|exists true; right; congruence]. done. }
  - destruct (get e (blocked_senders s)) as [|[m c] l] eqn:E; [done|].
    eexists _, _, _, _. split; [by apply (closed_sender_passes e m c l)|]. split; [done|]. split; [done|].
    pose proof (waiting_set_senders e l s) as H. rewrite E in H. simpl in H. lia.
  - destruct (get e (blocked_receivers s)) as [|c l] eqn:E; [done|].
    destruct (closed_receiver_passes e c l s Hc E) as (s' & new & n & H & H1 & H2). by eexists _, _, _, _.
Qed.

Lemma closed_drains acts s cs :
  run acts s cs -> closed s = true ->
  exists acts' s' cs', run (acts ++ acts') s' (cs ++ cs')
  /\ Forall (fun a => begins a = []) acts' /\ closed s' = true /\ waiting s' = O.
Proof.
  remember (waiting s) as n eqn:Hn. revert acts s cs Hn.
  induction n as [|n IH]; intros acts s cs Hn Hr Hc.
  - exists [], s, []. by rewrite !app_nil_r.
  - destruct (closed_step s Hc) as (a & s1 & new & nt & Hs & Hb & Hc1 & Hw); [lia|].
    destruct (IH (acts ++ [a]) s1 (cs ++ new)) as (acts' & s' & cs' & H & Hf & H1 & H2);
      [lia|by eapply run_step|done|].
    exists (a :: acts'), s', (new ++ cs'). rewrite <- !app_assoc in H.
    split; [done|]. split; [by constructor|]. done.
Qed.

Lemma closed_outstanding s cs :
  pair_ok s cs -> closed s = true -> waiting s = O -> outstanding s = [].
Proof.
  intros [_ _ Hr Hs] Hc Hw.
  assert (forall e, outstanding_at e s = []) as He.
  { intros e. unfold outstanding_at.
    destruct (get e (pending_receive s)) eqn:E1; [by destruct (Hr e) as [_ H]; [congruence|]; congruence|].
    destruct (get e (pending_send s)) eqn:E2; [by destruct (Hs e) as [_ H]; [congruence|]; congruence|].
    unfold waiting, waiting_at in Hw.
    assert (length (get e (blocked_receivers s)) = O /\ length (get e (blocked_senders s)) = O) as [H1 H2]
      by (destruct e; lia).
    apply length_zero_iff_nil in H1, H2. by rewrite H1, H2. }
  unfold outstanding. by rewrite !He.
Qed.

(** ** Claims *)

(** A run in which the left end's blocked sender waits behind its parked
    asynchronous send, and the right end drains the queue. *)
Definition hello (n : Z) : Message := mkMessage [] [z2b n].

Definition busy_run : list Action :=
  map (fun n => SendAsync false n (hello (Z.of_nat n))) (seq 0 9)
  ++ [SendBegin false 9 (hello 9); ReceiveAsync true 10 None; ReceiveBegin true 11; ReceivePass true 11;
      SendPass false 9; ReceiveAsync false 12 (Some 50); Deadline false 1].

(** C24: the pair is two bounded FIFO channels.  Whatever the interleaving of
    blocking and asynchronous calls, deadlines and closes, the messages end [e]
    was told it sent are, in order and without loss or repetition, the messages
    the other end has received followed by those still queued, and a queue
    never holds more than [kQueueDepth]; a parked receive means that queue is
    empty, a parked send that it is full, and neither survives the close. *)
Theorem pair_fifo acts s cs e :
  run acts s cs ->
  accepted e cs = delivered (negb e) cs ++ get e (queues s)
  /\ len (get e (queues s)) <= kQueueDepth
  /\ (get e (pending_receive s) <> None -> get (negb e) (queues s) = [] /\ closed s = false)
  /\ (get e (pending_send s) <> None -> len (get e (queues s)) = kQueueDepth /\ closed s = false).
Proof.
  intros [Hf Hb Hr Hs]%run_ok. split; [apply Hf|]. split; [apply Hb|]. split; [apply Hr|].
  intros H. destruct (Hs e H). split; [|done]. pose proof (Hb e). lia.
Qed.

Lemma pair_fifo_witness :
  exists s cs, run busy_run s cs
  /\ accepted false cs = delivered true cs ++ get false (queues s) /\ len (accepted false cs) = 10.
Proof.
  destruct (exec busy_run Create []) as [[s cs]|] eqn:E; [|by vm_compute in E].
  assert (Hr : run busy_run s cs) by (by apply (exec_run [] busy_run Create [] s cs run_nil)).
  exists s, cs. split; [done|]. split; [apply (pair_fifo busy_run s cs false Hr)|].
  vm_compute in E. injection E as <- <-. by vm_compute.
Defined.

(** every call is answered exactly once.  In any run the calls begun are, up
    to order, those completed and those still outstanding: none is dropped, none
    is completed twice. *)
Theorem pair_completes_once acts s cs :
  run acts s cs -> mjoin (map begins acts) ≡ₚ map call_of cs ++ outstanding s.
Proof. apply run_calls. Qed.

Lemma pair_completes_once_witness :
  exists s cs, run busy_run s cs /\ mjoin (map begins busy_run) ≡ₚ map call_of cs ++ outstanding s
  /\ len cs = 13.
Proof.
  destruct (exec busy_run Create []) as [[s cs]|] eqn:E; [|by vm_compute in E].
  assert (Hr : run busy_run s cs) by (by apply (exec_run [] busy_run Create [] s cs run_nil)).
  exists s, cs. split; [done|]. split; [by apply pair_completes_once|].
  vm_compute in E. injection E as <- <-. by vm_compute.
Defined.

(** no wakeup is lost.  Whenever a step makes the predicate of some sleeper
    true, a blocked sender's, a blocked receiver's or a deadline watchdog's,
    the step calls [notify_all]. *)
Theorem pair_no_lost_wakeup a s s' new notified :
  step a s = Some (s', new, notified) -> woken s s' -> notified = true.
Proof. intros H Hw. destruct notified; [done|]. by apply step_unwoken in H. Qed.

Lemma pair_no_lost_wakeup_witness :
  exists s' new notified, step (End_ true default_close) Create = Some (s', new, notified)
  /\ woken Create s' /\ notified = true.
Proof.
  destruct (step (End_ true default_close) Create) as [[[s' new] n]|] eqn:E; [|done].
  assert (Hw : woken Create s')
    by (vm_compute in E; injection E as <- _ _; exists false; right; left; split; reflexivity).
  exists s', new, n. split; [done|]. split; [done|]. by apply (pair_no_lost_wakeup _ _ _ _ _ E).
Defined.

(** a close lets everybody go.  Once the session is closed, blocked callers
    pass their waits one after the other, with no further call or message
    needed, until every call ever begun has been answered. *)
Theorem pair_close_drains acts s cs :
  run acts s cs -> closed s = true ->
  exists acts' s' cs', run (acts ++ acts') s' (cs ++ cs')
  /\ Forall (fun a => begins a = []) acts' /\ outstanding s' = []
  /\ mjoin (map begins acts) ≡ₚ map call_of (cs ++ cs').
Proof.
  intros Hr Hc. destruct (closed_drains _ _ _ Hr Hc) as (acts' & s' & cs' & H & Hf & Hc' & Hw).
  assert (Ho : outstanding s' = []) by (eapply closed_outstanding; [by eapply run_ok|done|done]).
  exists acts', s', cs'. split; [done|]. split; [done|]. split; [done|].
  apply run_calls in H. rewrite Ho, app_nil_r, map_app, join_app in H. rewrite <- H.
  assert (mjoin (map begins acts') = []) as ->; [|by rewrite app_nil_r].
  clear -Hf. induction Hf as [|a l Ha _ IH]; [done|].
  change (begins a ++ mjoin (map begins l) = []). by rewrite Ha, IH.
Qed.

Definition stuck_run : list Action :=
  busy_run ++ [ReceiveBegin false 13; ReceiveAsync true 14 (Some 10); ReceiveBegin true 15; Close false].

Lemma pair_close_drains_witness :
  exists s cs, run stuck_run s cs /\ closed s = true /\ outstanding s <> []
  /\ exists acts' s' cs', run (stuck_run ++ acts') s' (cs ++ cs')
     /\ Forall (fun a => begins a = []) acts' /\ outstanding s' = []
     /\ mjoin (map begins stuck_run) ≡ₚ map call_of (cs ++ cs').
Proof.
  destruct (exec stuck_run Create []) as [[s cs]|] eqn:E; [|by vm_compute in E].
  assert (Hr : run stuck_run s cs) by (by apply (exec_run [] stuck_run Create [] s cs run_nil)).
  assert (Hc : closed s = true /\ outstanding s <> []) by (vm_compute in E; injection E as <- _; by split).
  exists s, cs. split; [done|]. destruct Hc. split; [done|]. split; [done|]. by apply (pair_close_drains stuck_run s cs).
Defined.

(** The calls that are answered before the lock is released are refusals that
    change nothing; a send to a closed session is one of them. *)
Ltac answered := split; [reflexivity|]; split; [reflexivity|]; eexists; split; [reflexivity|]; eexists; reflexivity.

Lemma fires_locked_refusal a s s' new notified :
  step a s = Some (s', new, notified) -> fires_locked a s = true ->
  s' = s /\ notified = false
  /\ exists c, new = [c] /\ match c with SendDone _ _ _ o => exists w, o = Err w | ReceiveDone _ _ o => exists w, o = Err w end.
Proof.
  destruct a as [e c m|e c|e c m|e c|e c|e c|e c timeout|e g|e g|e why]; open_step; try done.
  - destruct (EncodeMessage m); [|done].
    destruct (closed s); [intros [= <- <- <-] _; answered|].
    destruct (get e (pending_send s)); [intros [= <- <- <-] _; answered|].
    destruct (get e (blocked_senders s)); [done|]. intros [= <- <- <-] _; answered.
  - destruct (get e (pending_receive s)); [intros [= <- <- <-] _; answered|].
    destruct (get e (blocked_receivers s)); [done|]. intros [= <- <- <-] _; answered.
Qed.

Lemma send_closed_fires_locked e c m frame s :
  EncodeMessage m = Ok frame -> closed s = true ->
  step (SendAsync e c m) s = Some (s, [SendDone e c m (Err session_closed)], false)
  /\ fires_locked (SendAsync e c m) s = true.
Proof. intros Hm Hc. open_step. by rewrite Hm, Hc. Qed.
