(* ===== verification/SessionQueue.v ===== *)
(** server/session_registry.h: delivery classes and the bounded outbound queue
    of a session, with the placement rules an event competes for room under. *)
From Stdlib Require Import ZArith Lia Strings.Byte.
From S2P Require Import Prelude Bytes.

Local Open Scope Z_scope.

Inductive Kind := kReliable | kDroppable | kCoalesce.

#[global] Instance Kind_eq_dec : EqDecision Kind.
Proof. solve_decision. Defined.

Record DeliveryClass := mkClass { kind : Kind; key : bytes }.

Definition Reliable : DeliveryClass := mkClass kReliable [].
Definition Droppable : DeliveryClass := mkClass kDroppable [].
Definition Coalesce (key : bytes) : DeliveryClass := mkClass kCoalesce key.

Inductive Placement := kQueued | kDropped | kFull.

Section queue.
  Context {Tx : Type}.

Record Queued := mkQueued { event : Tx; delivery : DeliveryClass }.

(** [find_if] over the pending events, then what is done to the one found. *)
Fixpoint update_first (p : Queued -> bool) (f : Queued -> Queued) (l : list Queued)
    : option (list Queued) :=
  match l with
  | [] => None
  | q :: l => if p q then Some (f q :: l) else cons q <$> update_first p f l
  end.

Fixpoint erase_first (p : Queued -> bool) (l : list Queued) : option (list Queued) :=
  match l with
  | [] => None
  | q :: l => if p q then Some l else cons q <$> erase_first p l
  end.

Definition coalesces (key0 : bytes) (q : Queued) : bool :=
  bool_decide (kind (delivery q) = kCoalesce) && bytes_eqb (key (delivery q)) key0.

Definition is_droppable (q : Queued) : bool := bool_decide (kind (delivery q) = kDroppable).
Definition is_reliable (q : Queued) : bool := bool_decide (kind (delivery q) = kReliable).

Definition replace_event (ev : Tx) (q : Queued) : Queued := mkQueued ev (delivery q).

(** [PlaceLocked] on the queue itself: while the chain is [delivering] the
    front is off limits.  The queue is unchanged unless the event is queued. *)
Definition place (capacity : Z) (delivering : bool) (queue : list Queued) (ev : Tx) (cls : DeliveryClass)
    : list Queued * Placement :=
  let front := if delivering then take 1 queue else [] in
  let pending := if delivering then drop 1 queue else queue in
  match (if bool_decide (kind cls = kCoalesce)
         then update_first (coalesces (key cls)) (replace_event ev) pending else None) with
  | Some pending' => (front ++ pending', kQueued)
  | None =>
    if len queue >=? capacity then
      match erase_first is_droppable pending with
      | Some pending' => (front ++ pending' ++ [mkQueued ev cls], kQueued)
      | None => (queue, if bool_decide (kind cls = kDroppable) then kDropped else kFull)
      end
    else (queue ++ [mkQueued ev cls], kQueued)
  end.

(** ** What placement does *)

Lemma update_first_Some p f l l' :
  update_first p f l = Some l' ->
  exists pre q post, l = pre ++ q :: post /\ l' = pre ++ f q :: post /\ p q = true
    /\ Forall (fun x => p x = false) pre.
Proof.
  revert l'. induction l as [|q l IH]; intros l'; cbn [update_first]; [done|].
  destruct (p q) eqn:E.
  - intros [= <-]. by exists [], q, l.
  - intros (l1 & H & ->)%fmap_Some. apply IH in H as (pre & q' & post & -> & -> & Hq & Hf).
    exists (q :: pre), q', post. split; [done|]. split; [done|]. split; [done|]. by constructor.
Qed.

Lemma update_first_None p f l :
  update_first p f l = None -> Forall (fun x => p x = false) l.
Proof.
  induction l as [|q l IH]; cbn [update_first]; [done|].
  destruct (p q) eqn:E; [done|]. intros H%fmap_None. by constructor; [|apply IH].
Qed.

Lemma erase_first_Some p l l' :
  erase_first p l = Some l' ->
  exists pre q post, l = pre ++ q :: post /\ l' = pre ++ post /\ p q = true
    /\ Forall (fun x => p x = false) pre.
Proof.
  revert l'. induction l as [|q l IH]; intros l'; cbn [erase_first]; [done|].
  destruct (p q) eqn:E.
  - intros [= <-]. by exists [], q, l.
  - intros (l1 & H & ->)%fmap_Some. apply IH in H as (pre & q' & post & -> & -> & Hq & Hf).
    exists (q :: pre), q', post. split; [done|]. split; [done|]. split; [done|]. by constructor.
Qed.

Lemma erase_first_None p l : erase_first p l = None -> Forall (fun x => p x = false) l.
Proof.
  induction l as [|q l IH]; cbn [erase_first]; [done|].
  destruct (p q) eqn:E; [done|]. intros H%fmap_None. by constructor; [|apply IH].
Qed.

(** The reliable events of a queue, in order. *)
Definition reliables (l : list Queued) : list Tx := event <$> filter (fun q => is_reliable q = true) l.

Lemma reliables_app l l' : reliables (l ++ l') = reliables l ++ reliables l'.
Proof. unfold reliables. by rewrite filter_app, fmap_app. Qed.

Lemma reliables_other q : is_reliable q = false -> reliables [q] = [].
Proof. intros E. unfold reliables. rewrite filter_cons_False by congruence. done. Qed.

Lemma reliables_cons q l : reliables (q :: l) = reliables [q] ++ reliables l.
Proof. apply (reliables_app [q] l). Qed.

Lemma droppable_not_reliable q : is_droppable q = true -> is_reliable q = false.
Proof. unfold is_droppable, is_reliable. intros H%bool_decide_eq_true. by rewrite H. Qed.

Lemma coalesces_not_reliable k q : coalesces k q = true -> is_reliable q = false.
Proof.
  unfold coalesces, is_reliable. intros [H%bool_decide_eq_true _]%andb_prop. by rewrite H.
Qed.

Lemma replace_event_reliable ev q : is_reliable (replace_event ev q) = is_reliable q.
Proof. done. Qed.

Lemma front_pending (delivering : bool) (queue : list Queued) :
  (if delivering then take 1 queue else []) ++ (if delivering then drop 1 queue else queue) = queue.
Proof. destruct delivering; [apply take_drop|done]. Qed.

(** Placement, case by case: what a queued event does to the queue. *)
Inductive placed (front pending : list Queued) (ev : Tx) (cls : DeliveryClass) : list Queued -> Prop :=
| placed_coalesced pre q post :
    kind cls = kCoalesce -> pending = pre ++ q :: post -> coalesces (key cls) q = true ->
    Forall (fun x => coalesces (key cls) x = false) pre ->
    placed front pending ev cls (front ++ pre ++ replace_event ev q :: post)
| placed_evicting pre q post :
    pending = pre ++ q :: post -> is_droppable q = true ->
    Forall (fun x => is_droppable x = false) pre ->
    placed front pending ev cls (front ++ pre ++ post ++ [mkQueued ev cls])
| placed_appended : placed front pending ev cls (front ++ pending ++ [mkQueued ev cls]).

Lemma place_queued capacity d queue ev cls queue' :
  place capacity d queue ev cls = (queue', kQueued) ->
  placed (if d then take 1 queue else []) (if d then drop 1 queue else queue) ev cls queue'.
Proof.
  unfold place. set (front := if d then take 1 queue else []). set (pending := if d then drop 1 queue else queue).
  destruct (if bool_decide (kind cls = kCoalesce) then _ else None) as [p'|] eqn:Em.
  - intros [= <-]. destruct (bool_decide_reflect (kind cls = kCoalesce)) as [Hk|]; [|done].
    apply update_first_Some in Em as (pre & q & post & Hp & -> & Hq & Hf).
    by apply (placed_coalesced _ _ _ _ pre q post).
  - destruct (len queue >=? capacity).
    + destruct (erase_first is_droppable pending) as [p'|] eqn:Ee.
      * intros [= <-]. apply erase_first_Some in Ee as (pre & q & post & Hp & -> & Hq & Hf).
        rewrite <- app_assoc. by apply (placed_evicting _ _ _ _ pre q post).
      * destruct (bool_decide (kind cls = kDroppable)); intros [= _ Hx]; discriminate Hx.
    + intros [= <-]. rewrite <- (front_pending d queue), <- app_assoc. apply placed_appended.
Qed.

(** An event that is not queued leaves the queue as it was: the queue is full
    and nothing pending may be dropped for it. *)
Lemma place_refused capacity d queue ev cls queue' p :
  place capacity d queue ev cls = (queue', p) -> p <> kQueued ->
  queue' = queue /\ capacity <= len queue
  /\ Forall (fun q => is_droppable q = false) (if d then drop 1 queue else queue)
  /\ p = if bool_decide (kind cls = kDroppable) then kDropped else kFull.
Proof.
  unfold place. destruct (if bool_decide (kind cls = kCoalesce) then _ else None); [by intros [= _ <-]|].
  destruct (Z.geb_spec (len queue) capacity); [|by intros [= _ <-]].
  destruct (erase_first _ _) eqn:E; [by intros [= _ <-]|]. intros [= <- <-] _.
  by apply erase_first_None in E.
Qed.

Lemma place_length capacity d queue ev cls queue' p :
  place capacity d queue ev cls = (queue', p) -> len queue <= capacity -> 1 <= capacity ->
  len queue' <= capacity.
Proof.
  unfold place. intros H Hl H1. revert H. pose proof (front_pending d queue) as Hfp.
  set (front := if d then take 1 queue else []) in *. set (pending := if d then drop 1 queue else queue) in *.
  assert (Hfl : len queue = len front + len pending) by (rewrite <- Hfp at 1; apply len_app).
  destruct (if bool_decide (kind cls = kCoalesce) then _ else None) as [p'|] eqn:Em.
  - intros [= <- _]. destruct (bool_decide _); [|done].
    apply update_first_Some in Em as (pre & q & post & Hp & -> & _). rewrite Hp in Hfl.
    rewrite !len_app, !len_cons in *. lia.
  - destruct (Z.geb_spec (len queue) capacity).
    + destruct (erase_first is_droppable pending) as [p'|] eqn:Ee; [|by intros [= <- _]].
      intros [= <- _]. apply erase_first_Some in Ee as (pre & q & post & Hp & -> & _). rewrite Hp in Hfl.
      rewrite !len_app, !len_cons in *. change (len (@nil Queued)) with 0. lia.
    + intros [= <- _]. rewrite len_app, len_cons. change (len (@nil Queued)) with 0. lia.
Qed.

(** Reliable events are never displaced: the reliable ones of the new queue are
    those of the old, then the event itself when it is reliable. *)
Lemma place_reliables capacity d queue ev cls queue' :
  place capacity d queue ev cls = (queue', kQueued) ->
  reliables queue' = reliables queue ++ (if bool_decide (kind cls = kReliable) then [ev] else []).
Proof.
  intros H%place_queued. rewrite <- (front_pending d queue) at 1.
  assert (Hev : kind cls <> kCoalesce \/ kind cls = kCoalesce) by (destruct (kind cls); auto).
  assert (Hnew : reliables [mkQueued ev cls] = if bool_decide (kind cls = kReliable) then [ev] else []).
  { unfold reliables, is_reliable. rewrite filter_cons. cbn [delivery].
    by destruct (bool_decide (kind cls = kReliable)). }
  inversion H as [pre q post Hk Hp Hq Hf|pre q post Hp Hq Hf|]; subst queue'; rewrite ?Hp.
  - rewrite bool_decide_eq_false_2 by congruence. apply coalesces_not_reliable in Hq.
    rewrite !reliables_app, (reliables_cons (replace_event ev q) post), (reliables_cons q post).
    by rewrite !reliables_other, app_nil_r.
  - rewrite !reliables_app, (reliables_cons q post), Hnew.
    rewrite (reliables_other q) by (by apply droppable_not_reliable). by rewrite app_nil_l, !app_assoc.
  - rewrite !reliables_app, Hnew. by rewrite !app_assoc.
Qed.

(** The event in flight is never touched. *)
Lemma place_front capacity queue ev cls queue' p :
  place capacity true queue ev cls = (queue', p) -> queue <> [] -> head queue' = head queue.
Proof.
  unfold place. destruct queue as [|q0 queue]; [done|]. cbn [take drop]. rewrite take_0. intros H _. revert H.
  destruct (if bool_decide (kind cls = kCoalesce) then _ else None); [by intros [= <- _]|].
  destruct (_ >=? _); [|by intros [= <- _]]. destruct (erase_first _ _); by intros [= <- _].
Qed.
End queue.

Arguments Queued : clear implicits.
Arguments mkQueued {Tx} _ _.
