(* ===== verification/SessionRegistry.v ===== *)
(** server/session_registry.h as a state machine.  Entries live in [heap] and
    are shared by index, as the code shares them by [shared_ptr]; every locked
    region is one step, and what it leaves to do after unlocking (an event
    submitted, a policy to run, an expiry to report) stays in the state as the
    thread that owes it.  A [Resume] that waits for delivery to quiesce holds
    the registry lock: while [resuming] is set, no step that takes it runs. *)
From Stdlib Require Import ZArith Lia Strings.Byte.
From S2P Require Import Prelude Bytes OrdMap WebSocketPair SessionQueue.

Local Open Scope Z_scope.

Definition Handle := nat.

Record Options := mkOptions {
  queue_capacity : Z;
  has_on_slow_consumer : bool;
  async_delivery : bool;
  grace_period : Z;
  has_on_expired : bool;
  queue_while_detached : bool
}.

Definition Normalize (o : Options) : Options :=
  mkOptions (if queue_capacity o <? 1 then 1 else queue_capacity o) (has_on_slow_consumer o)
    (async_delivery o) (if grace_period o <? 0 then 0 else grace_period o) (has_on_expired o)
    (queue_while_detached o).

Section registry.
  Context {Tx : Type}.
  Notation Queued := (SessionQueue.Queued Tx).

(** [WriterLoop]'s thread: not started or joined, before its wait, inside
    [Send], past the loop, returned. *)
Inductive Writer := NoThread | AtWait | InSend (ev : Tx) | AtExit | Ended.

Definition joinable (w : Writer) : bool := match w with NoThread => false | _ => true end.

(** [Entry].  [chains] are the events handed to [SendAsync] whose completion
    has not run yet. *)
Record Entry := mkEntry {
  handle : Handle;
  queue : list Queued;
  stopping : bool;
  done_ : bool;
  async_mode : bool;
  delivering : bool;
  detached : bool;
  deadline : Z;
  writer : Writer;
  chains : list Tx
}.

Definition with_handle (h : Handle) (e : Entry) : Entry :=
  mkEntry h (queue e) (stopping e) (done_ e) (async_mode e) (delivering e) (detached e) (deadline e) (writer e) (chains e).
Definition with_queue (q : list Queued) (e : Entry) : Entry :=
  mkEntry (handle e) q (stopping e) (done_ e) (async_mode e) (delivering e) (detached e) (deadline e) (writer e) (chains e).
Definition with_stopping (b : bool) (e : Entry) : Entry :=
  mkEntry (handle e) (queue e) b (done_ e) (async_mode e) (delivering e) (detached e) (deadline e) (writer e) (chains e).
Definition with_done (b : bool) (e : Entry) : Entry :=
  mkEntry (handle e) (queue e) (stopping e) b (async_mode e) (delivering e) (detached e) (deadline e) (writer e) (chains e).
Definition with_async_mode (b : bool) (e : Entry) : Entry :=
  mkEntry (handle e) (queue e) (stopping e) (done_ e) b (delivering e) (detached e) (deadline e) (writer e) (chains e).
Definition with_delivering (b : bool) (e : Entry) : Entry :=
  mkEntry (handle e) (queue e) (stopping e) (done_ e) (async_mode e) b (detached e) (deadline e) (writer e) (chains e).
Definition with_detached (b : bool) (e : Entry) : Entry :=
  mkEntry (handle e) (queue e) (stopping e) (done_ e) (async_mode e) (delivering e) b (deadline e) (writer e) (chains e).
Definition with_deadline (d : Z) (e : Entry) : Entry :=
  mkEntry (handle e) (queue e) (stopping e) (done_ e) (async_mode e) (delivering e) (detached e) d (writer e) (chains e).
Definition with_writer (w : Writer) (e : Entry) : Entry :=
  mkEntry (handle e) (queue e) (stopping e) (done_ e) (async_mode e) (delivering e) (detached e) (deadline e) w (chains e).
Definition with_chains (c : list Tx) (e : Entry) : Entry :=
  mkEntry (handle e) (queue e) (stopping e) (done_ e) (async_mode e) (delivering e) (detached e) (deadline e) (writer e) c.

Definition new_entry (h : Handle) : Entry :=
  mkEntry h [] false false false false false 0 NoThread [].

(** A [SendTo] or [Broadcast] past its lookup: the recipients still to do, each
    with its event and class, a policy run it owes, and its count so far. *)
Record Call := mkCall {
  todo : list (bytes * nat * Tx * DeliveryClass);
  charged : option (bytes * nat);
  queued_count : Z
}.

(** [now] is the steady clock; [firing] are the claimed expiries each thread
    still has to report; [joining] is what the destructor joins. *)
Record Registry := mkRegistry {
  now : Z;
  heap : list Entry;
  sessions : list (bytes * nat);
  retired : list nat;
  resuming : option (nat * Handle * bool);
  calls : list Call;
  firing : list (list bytes);
  joining : list nat
}.

Definition empty_registry : Registry := mkRegistry 0 [] [] [] None [] [] [].

Definition with_heap (h : list Entry) (s : Registry) : Registry :=
  mkRegistry (now s) h (sessions s) (retired s) (resuming s) (calls s) (firing s) (joining s).
Definition with_sessions (m : list (bytes * nat)) (s : Registry) : Registry :=
  mkRegistry (now s) (heap s) m (retired s) (resuming s) (calls s) (firing s) (joining s).
Definition with_retired (l : list nat) (s : Registry) : Registry :=
  mkRegistry (now s) (heap s) (sessions s) l (resuming s) (calls s) (firing s) (joining s).
Definition with_resuming (r : option (nat * Handle * bool)) (s : Registry) : Registry :=
  mkRegistry (now s) (heap s) (sessions s) (retired s) r (calls s) (firing s) (joining s).
Definition with_calls (l : list Call) (s : Registry) : Registry :=
  mkRegistry (now s) (heap s) (sessions s) (retired s) (resuming s) l (firing s) (joining s).
Definition with_firing (l : list (list bytes)) (s : Registry) : Registry :=
  mkRegistry (now s) (heap s) (sessions s) (retired s) (resuming s) (calls s) l (joining s).
Definition with_joining (l : list nat) (s : Registry) : Registry :=
  mkRegistry (now s) (heap s) (sessions s) (retired s) (resuming s) (calls s) (firing s) l.
Definition with_now (t : Z) (s : Registry) : Registry :=
  mkRegistry t (heap s) (sessions s) (retired s) (resuming s) (calls s) (firing s) (joining s).

Definition put (a : nat) (e : Entry) (s : Registry) : Registry := with_heap (<[a := e]> (heap s)) s.

(** What the outside sees of a step. *)
Inductive Effect :=
| Added (id : bytes) (a : nat)
| Refused (id : bytes)
| Removed (id : bytes) (a : nat)
| Detached (id : bytes) (a : nat)
| Resumed (id : bytes) (a : nat)
| Expired (id : bytes) (a : nat)
| OnExpired (id : bytes)
| Accepted (a : nat) (ev : Tx) (cls : DeliveryClass)
| Dropped (a : nat) (ev : Tx)
| Sent (a : nat) (h : Handle) (ev : Tx)
| SendFailed (a : nat) (ev : Tx)
| SendRefused (a : nat) (ev : Tx)
| Closed (h : Handle)
| Kicked (h : Handle) (why : CloseReason)
| SlowConsumer (id : bytes)
| Returned (queued : Z)
| Torn (a : nat).

(** What the socket tells a chain's completion. *)
Inductive SendResult := SendOk | SendValidation | SendError.

Inductive Action :=
| Tick (t : Z)
| Add (id : bytes) (h : Handle)
| Remove (id : bytes)
| Detach (id : bytes)
| Resume (id : bytes) (h : Handle)
| ResumePass
| SendTo (id : bytes) (ev : Tx) (cls : DeliveryClass)
| BroadcastTo (ids : list bytes) (make : bytes -> Tx) (cls : DeliveryClass)
| BroadcastAll (make : bytes -> Tx) (cls : DeliveryClass)
| CallStep (i : nat)
| Close (id : bytes)
| Kick (id : bytes) (why : CloseReason)
| CloseAll
| WriterTake (a : nat)
| WriterSent (a : nat) (ok : bool)
| WriterExit (a : nat)
| ChainDone (a k : nat) (r : SendResult)
| ExpiryPass
| ExpireDetachedNow
| Fire (i : nat)
| Teardown
| Join.

(** ** Helpers that run with a lock held *)

Context (given : Options) (SupportsAsync : Handle -> bool).

Definition options_ : Options := Normalize given.

(** [PlaceLocked]. *)
Definition PlaceLocked (e : Entry) (ev : Tx) (cls : DeliveryClass) : Entry * Placement :=
  let '(q, p) := place (queue_capacity options_) (delivering e) (queue e) ev cls in
  (with_queue q e, p).

(** [ClaimLocked]: the entry, the claimed copy already with its chain. *)
Definition ClaimLocked (e : Entry) : Entry :=
  match queue e with
  | q :: _ =>
    if stopping e then with_delivering false e
    else with_chains (chains e ++ [event q]) (with_delivering true e)
  | [] => with_delivering false e
  end.

(** [RequestStop]. *)
Definition RequestStop (e : Entry) : Entry := with_queue [] (with_stopping true e).

(** A delivery that failed: terminal, the queue kept only for a resume. *)
Definition delivery_failed (e : Entry) : Entry :=
  let e := with_stopping true e in
  if detached e then e else with_queue [] e.

(** [ReapLocked]: joins the retired writers that have returned. *)
Fixpoint ReapLocked (l : list nat) (h : list Entry) : list nat * list Entry :=
  match l with
  | [] => ([], h)
  | a :: l =>
    match h !! a with
    | None => ReapLocked l h
    | Some e =>
      if negb (joinable (writer e)) then ReapLocked l h
      else if done_ e then ReapLocked l (<[a := with_writer NoThread e]> h)
      else let '(l, h) := ReapLocked l h in (a :: l, h)
    end
  end.

Definition reap (s : Registry) : Registry :=
  let '(l, h) := ReapLocked (retired s) (heap s) in with_retired l (with_heap h s).

(** [TakeExpiredLocked] up to [limit] ([None] is [time_point::max()]): walks
    the sessions in order; what stays, what was claimed, what retires. *)
Fixpoint TakeExpiredLocked (limit : option Z) (h : list Entry) (m : list (bytes * nat))
    : list (bytes * nat) * list (bytes * nat) * list nat :=
  match m with
  | [] => ([], [], [])
  | (id, a) :: m =>
    let '(kept, expired, retire) := TakeExpiredLocked limit h m in
    match h !! a with
    | Some e =>
      if detached e && match limit with Some t => deadline e <=? t | None => true end then
        (kept, (id, a) :: expired, if joinable (writer e) then a :: retire else retire)
      else ((id, a) :: kept, expired, retire)
    | None => ((id, a) :: kept, expired, retire)
    end
  end.

(** ** Regions *)

Definition result : Type := option (Registry * list Effect).

Definition do_Add (id : bytes) (h : Handle) (s : Registry) : result :=
  let async := async_delivery options_ && SupportsAsync h in
  let s := reap s in
  match sm_lookup id (sessions s) with
  | Some _ => Some (s, [Refused id])
  | None =>
    let a := length (heap s) in
    let e := with_async_mode async (new_entry h) in
    let e := if async then e else with_writer AtWait e in
    Some (with_sessions (sm_emplace id a (sessions s)) (with_heap (heap s ++ [e]) s), [Added id a])
  end.

Definition do_Remove (id : bytes) (s : Registry) : result :=
  match sm_lookup id (sessions s) with
  | None => Some (s, [Refused id])
  | Some a =>
    match heap s !! a with
    | None => None
    | Some e =>
      let s := put a (RequestStop e) (with_sessions (sm_erase id (sessions s)) s) in
      let s := if joinable (writer e) then with_retired (retired s ++ [a]) s else s in
      Some (reap s, [Removed id a])
    end
  end.

Definition do_Detach (id : bytes) (s : Registry) : result :=
  if grace_period options_ =? 0 then Some (s, [Refused id])
  else
    match sm_lookup id (sessions s) with
    | None => Some (s, [Refused id])
    | Some a =>
      match heap s !! a with
      | None => None
      | Some e =>
        if detached e then Some (s, [Refused id])
        else
          let e' := with_stopping true
                      (with_deadline (now s + grace_period options_) (with_detached true e)) in
          let e' := if queue_while_detached options_ then e' else with_queue [] e' in
          Some (put a e' s, [Detached id a; Closed (handle e)])
      end
    end.

Definition do_Resume (id : bytes) (h : Handle) (s : Registry) : result :=
  if grace_period options_ =? 0 then Some (s, [Refused id])
  else
    match sm_lookup id (sessions s) with
    | None => Some (s, [Refused id])
    | Some a =>
      match heap s !! a with
      | None => None
      | Some e =>
        if negb (detached e) || (deadline e <=? now s) then Some (s, [Refused id])
        else Some (with_resuming (Some (a, h, async_delivery options_ && SupportsAsync h)) s, [])
      end
    end.

(** The wait of [Resume], and the swap. *)
Definition quiesced (e : Entry) : bool := (negb (joinable (writer e)) || done_ e) && negb (delivering e).

Definition swap (h : Handle) (async : bool) (e : Entry) : Entry :=
  let e := with_writer NoThread e in
  let e := with_async_mode async
             (with_done false (with_stopping false (with_detached false (with_handle h e)))) in
  if async then ClaimLocked e else with_writer AtWait e.

Definition id_of (a : nat) (s : Registry) : bytes :=
  match filter (fun x => snd x = a) (sessions s) with (id, _) :: _ => id | [] => [] end.

Definition do_ResumePass (s : Registry) : result :=
  '(a, h, async) ← resuming s;
  e ← heap s !! a;
  if quiesced e then
    Some (with_resuming None (put a (swap h async e) s), [Resumed (id_of a s) a])
  else None.

Definition start_call (todo : list (bytes * nat * Tx * DeliveryClass)) (s : Registry) : result :=
  Some (with_calls (calls s ++ [mkCall todo None 0]) s, []).

Definition do_SendTo (id : bytes) (ev : Tx) (cls : DeliveryClass) (s : Registry) : result :=
  match sm_lookup id (sessions s) with
  | None => Some (s, [Refused id])
  | Some a => start_call [(id, a, ev, cls)] s
  end.

Definition do_BroadcastTo (ids : list bytes) (make : bytes -> Tx) (cls : DeliveryClass)
    (s : Registry) : result :=
  start_call (omap (fun id => (fun a => (id, a, make id, cls)) <$> sm_lookup id (sessions s)) ids) s.

Definition do_BroadcastAll (make : bytes -> Tx) (cls : DeliveryClass) (s : Registry) : result :=
  start_call ((fun x => (fst x, snd x, make (fst x), cls)) <$> sessions s) s.

(** [Enqueue], its locked region: the entry, whether the event was queued, and
    whether the slow-consumer policy is owed. *)
Definition enqueue (e : Entry) (ev : Tx) (cls : DeliveryClass) : Entry * bool * bool :=
  if detached e then
    if negb (queue_while_detached options_) then (e, false, false)
    else
      match PlaceLocked e ev cls with
      | (e', kQueued) => (e', true, false)
      | (e', _) => (e', false, false)
      end
  else if stopping e then (e, false, false)
  else
    match PlaceLocked e ev cls with
    | (e', kQueued) =>
      (if async_mode e' && negb (delivering e') then ClaimLocked e' else e', true, false)
    | (e', kDropped) => (e', false, false)
    | (e', kFull) => (e', false, true)
    end.

(** One region of a call in flight: the policy it owes, its next recipient, or
    its return. *)
Definition do_CallStep (i : nat) (s : Registry) : result :=
  c ← calls s !! i;
  match charged c, todo c with
  | Some (id, a), rest =>
    e ← heap s !! a;
    Some (with_calls (<[i := mkCall rest None (queued_count c)]> (calls s)) s,
          [if has_on_slow_consumer options_ then SlowConsumer id else Closed (handle e)])
  | None, [] => Some (with_calls (delete i (calls s)) s, [Returned (queued_count c)])
  | None, (id, a, ev, cls) :: rest =>
    e ← heap s !! a;
    let '(e', ok, owed) := enqueue e ev cls in
    let c' := mkCall rest (if owed then Some (id, a) else None)
                (if ok then queued_count c + 1 else queued_count c) in
    Some (with_calls (<[i := c']> (calls s)) (put a e' s),
          [if ok then Accepted a ev cls else Dropped a ev])
  end.

Definition CurrentHandle (id : bytes) (s : Registry) : option Handle :=
  a ← sm_lookup id (sessions s); handle <$> heap s !! a.

Definition do_Close (id : bytes) (s : Registry) : result :=
  match CurrentHandle id s with
  | None => Some (s, [Refused id])
  | Some h => Some (s, [Closed h])
  end.

Definition do_Kick (id : bytes) (why : CloseReason) (s : Registry) : result :=
  if negb (CheckCloseReason why) then None
  else
    match CurrentHandle id s with
    | None => Some (s, [Refused id])
    | Some h => Some (s, [Kicked h why])
    end.

Definition do_CloseAll (s : Registry) : result :=
  Some (s, (fun x => Closed (from_option handle O (heap s !! snd x))) <$> sessions s).

(** [WriterLoop]. *)
Definition do_WriterTake (a : nat) (s : Registry) : result :=
  e ← heap s !! a;
  match writer e with
  | AtWait =>
    if stopping e then Some (put a (with_writer AtExit e) s, [])
    else
      match queue e with
      | [] => None
      | q :: rest => Some (put a (with_writer (InSend (event q)) (with_queue rest e)) s, [])
      end
  | _ => None
  end.

Definition do_WriterSent (a : nat) (ok : bool) (s : Registry) : result :=
  e ← heap s !! a;
  match writer e with
  | InSend ev =>
    if ok then Some (put a (with_writer AtWait e) s, [Sent a (handle e) ev])
    else Some (put a (with_writer AtExit (delivery_failed e)) s, [SendFailed a ev])
  | _ => None
  end.

Definition do_WriterExit (a : nat) (s : Registry) : result :=
  e ← heap s !! a;
  match writer e with
  | AtExit => Some (put a (with_writer Ended (with_done true e)) s, [])
  | _ => None
  end.

(** [SubmitAsync]'s completion for the [k]-th chain of the entry. *)
Definition chain_completed (r : SendResult) (e : Entry) : Entry :=
  match r with
  | SendOk => ClaimLocked (with_queue (drop 1 (queue e)) e)
  | SendValidation =>
    let e := with_delivering false e in
    if negb (stopping e) && negb (joinable (writer e)) then
      with_writer AtWait (with_async_mode false e)
    else e
  | SendError => with_delivering false (delivery_failed e)
  end.

Definition do_ChainDone (a k : nat) (r : SendResult) (s : Registry) : result :=
  e ← heap s !! a;
  ev ← chains e !! k;
  let e := with_chains (delete k (chains e)) e in
  Some (put a (chain_completed r e) s,
        [match r with
         | SendOk => Sent a (handle e) ev
         | SendValidation => SendRefused a ev
         | SendError => SendFailed a ev
         end]).

Definition expire (limit : option Z) (s : Registry) : result :=
  let '(kept, expired, retire) := TakeExpiredLocked limit (heap s) (sessions s) in
  match expired with
  | [] => Some (s, [])
  | _ =>
    let s := with_sessions kept (with_retired (retired s ++ retire) s) in
    let s := reap s in
    Some (with_firing (firing s ++ [map fst expired]) s, (fun x => Expired (fst x) (snd x)) <$> expired)
  end.

(** [FireExpiries]: the next claim of a batch is reported. *)
Definition do_Fire (i : nat) (s : Registry) : result :=
  l ← firing s !! i;
  match l with
  | [] => Some (with_firing (delete i (firing s)) s, [])
  | id :: l =>
    Some (with_firing (<[i := l]> (firing s)) s, if has_on_expired options_ then [OnExpired id] else [])
  end.

(** The destructor once the expiries have been reported: it empties the map,
    closes and stops what was registered or retired, and joins the writers. *)
Definition do_Teardown (s : Registry) : result :=
  let all := map snd (sessions s) ++ retired s in
  let h := fold_left (fun h a => match h !! a with
                                 | Some e => <[a := RequestStop e]> h
                                 | None => h
                                 end) all (heap s) in
  Some (with_joining (joining s ++ all) (with_retired [] (with_sessions [] (with_heap h s))),
        all ≫= fun a => [Closed (from_option handle O (heap s !! a)); Torn a]).

Definition do_Join (s : Registry) : result :=
  match joining s with
  | [] => None
  | a :: rest =>
    e ← heap s !! a;
    if negb (joinable (writer e)) then Some (with_joining rest s, [])
    else
      match writer e with
      | Ended => Some (with_joining rest (put a (with_writer NoThread e) s), [])
      | _ => None
      end
  end.

(** ** Steps *)

(** The registry lock, which a waiting [Resume] keeps. *)
Definition locking (r : result) (s : Registry) : result :=
  match resuming s with Some _ => None | None => r end.

Definition step (a : Action) (s : Registry) : result :=
  match a with
  | Tick t => if now s <=? t then Some (with_now t s, []) else None
  | Add id h => locking (do_Add id h s) s
  | Remove id => locking (do_Remove id s) s
  | Detach id => locking (do_Detach id s) s
  | Resume id h => locking (do_Resume id h s) s
  | ResumePass => do_ResumePass s
  | SendTo id ev cls => locking (do_SendTo id ev cls s) s
  | BroadcastTo ids make cls => locking (do_BroadcastTo ids make cls s) s
  | BroadcastAll make cls => locking (do_BroadcastAll make cls s) s
  | CallStep i => do_CallStep i s
  | Close id => locking (do_Close id s) s
  | Kick id why => locking (do_Kick id why s) s
  | CloseAll => locking (do_CloseAll s) s
  | WriterTake a => do_WriterTake a s
  | WriterSent a ok => do_WriterSent a ok s
  | WriterExit a => do_WriterExit a s
  | ChainDone a k r => do_ChainDone a k r s
  | ExpiryPass => locking (expire (Some (now s)) s) s
  | ExpireDetachedNow => locking (expire None s) s
  | Fire i => do_Fire i s
  | Teardown => locking (do_Teardown s) s
  | Join => do_Join s
  end.

Inductive run : list Action -> Registry -> list Effect -> Prop :=
| run_nil : run [] empty_registry []
| run_step acts s log a s' new :
    run acts s log -> step a s = Some (s', new) -> run (acts ++ [a]) s' (log ++ new).

(** Playing a list of actions. *)
Fixpoint exec (acts : list Action) (s : Registry) (log : list Effect) : option (Registry * list Effect) :=
  match acts with
  | [] => Some (s, log)
  | a :: acts => '(s', new) ← step a s; exec acts s' (log ++ new)
  end.

Lemma run_exec acts acts' s log s' log' :
  run acts s log -> exec acts' s log = Some (s', log') -> run (acts ++ acts') s' log'.
Proof.
  revert acts s log. induction acts' as [|a acts' IH]; intros acts s log Hr; cbn [exec].
  - intros [= <- <-]. by rewrite app_nil_r.
  - intros H. apply bind_Some in H as ([s1 new] & Hs & H).
    apply IH with (acts := acts ++ [a]) in H; [by rewrite <- app_assoc in H|by eapply run_step].
Qed.
End registry.
