(* ===== verification/RegistryEntries.v ===== *)
(** One entry of the session registry through time: every step of the registry
    acts on an entry as one of the transitions of [entry_step], so what holds
    of all entries is proved by induction on an entry's own history. *)
From Stdlib Require Import ZArith Lia Strings.Byte.
From S2P Require Import Prelude Bytes OrdMap WebSocketPair SessionQueue SessionRegistry.

Local Open Scope Z_scope.

Section entries.
  Context {Tx : Type} (given : Options) (SupportsAsync : Handle -> bool).
  Notation Entry := (@Entry Tx).
  Notation Registry := (@Registry Tx).
  Notation Effect := (@Effect Tx).
  Notation step := (step given SupportsAsync).
  Notation run := (run given SupportsAsync).

(** The effects that concern entry [a]. *)
Definition about (a : nat) (f : Effect) : bool :=
  match f with
  | Added _ b | Removed _ b | Detached _ b | Resumed _ b | Expired _ b | Accepted b _ _
  | Dropped b _ | Sent b _ _ | SendFailed b _ | SendRefused b _ | Torn b => Nat.eqb a b
  | _ => false
  end.

Definition proj (a : nat) (l : list Effect) : list Effect := filter (fun f => about a f = true) l.

Definition detach_entry (d : Z) (e : Entry) : Entry :=
  let e' := with_stopping true (with_deadline d (with_detached true e)) in
  if queue_while_detached (options_ given) then e' else with_queue [] e'.

Definition chain_effect (a : nat) (e : Entry) (ev : Tx) (r : SendResult) : Effect :=
  match r with
  | SendOk => Sent a (handle e) ev
  | SendValidation => SendRefused a ev
  | SendError => SendFailed a ev
  end.

Inductive entry_step (a : nat) : Entry -> list Effect -> Entry -> Prop :=
| es_same e : entry_step a e [] e
| es_reap e l e' : entry_step a e l e' -> done_ e' = true -> entry_step a e l (with_writer NoThread e')
| es_remove e id : entry_step a e [Removed id a] (RequestStop e)
| es_torn e n : entry_step a e (replicate (S n) (Torn a)) (RequestStop e)
| es_detach e id d : detached e = false -> entry_step a e [Detached id a] (detach_entry d e)
| es_resume e id h async :
    detached e = true -> quiesced e = true -> entry_step a e [Resumed id a] (swap h async e)
| es_expire e id : detached e = true -> entry_step a e [Expired id a] e
| es_enqueue e ev cls e' ok owed :
    enqueue given e ev cls = (e', ok, owed) ->
    entry_step a e [if ok then Accepted a ev cls else Dropped a ev] e'
| es_stop e : writer e = AtWait -> stopping e = true -> entry_step a e [] (with_writer AtExit e)
| es_take e q rest :
    writer e = AtWait -> stopping e = false -> queue e = q :: rest ->
    entry_step a e [] (with_writer (InSend (event q)) (with_queue rest e))
| es_sent e ev :
    writer e = InSend ev -> entry_step a e [Sent a (handle e) ev] (with_writer AtWait e)
| es_failed e ev :
    writer e = InSend ev ->
    entry_step a e [SendFailed a ev] (with_writer AtExit (delivery_failed e))
| es_join e : writer e = Ended -> entry_step a e [] (with_writer NoThread e)
| es_exit e : writer e = AtExit -> entry_step a e [] (with_writer Ended (with_done true e))
| es_chain e k ev r :
    chains e !! k = Some ev ->
    entry_step a e [chain_effect a e ev r] (chain_completed r (with_chains (delete k (chains e)) e)).

(** An entry's history from the moment it is added. *)
Inductive entry_run (a : nat) : list Effect -> Entry -> Prop :=
| er_added id h :
    let async := async_delivery (options_ given) && SupportsAsync h in
    entry_run a [Added id a]
      (if async then with_async_mode async (new_entry h)
       else with_writer AtWait (with_async_mode async (new_entry h)))
| er_step l e l' e' : entry_run a l e -> entry_step a e l' e' -> entry_run a (l ++ l') e'.

(** ** The registry's helpers *)

Lemma reap_spec l h l' h' :
  ReapLocked l h = (l', h') ->
  length h' = length h /\ l' ⊆ l
  /\ forall a, h' !! a = h !! a
     \/ exists e, h !! a = Some e /\ done_ e = true /\ h' !! a = Some (@with_writer Tx NoThread e).
Proof.
  clear SupportsAsync.
  revert h l' h'. induction l as [|b l IH]; intros h l' h'; cbn [ReapLocked].
  - intros [= <- <-]. auto.
  - destruct (h !! b) as [e|] eqn:Eb; [|intros H; apply IH in H as (? & ? & ?); split; [done|]; set_solver].
    destruct (negb (joinable (writer e)));
      [intros H; apply IH in H as (? & ? & ?); split; [done|]; set_solver|].
    destruct (done_ e) eqn:Ed.
    + intros H. apply IH in H as (Hl & Hs & Ha). rewrite length_insert in Hl.
      split; [done|]. split; [set_solver|]. intros a. destruct (decide (b = a)) as [->|Hne].
      * assert (Hi : <[a:=with_writer NoThread e]> h !! a = Some (with_writer NoThread e))
          by (apply list_lookup_insert_eq; by eapply lookup_lt_Some).
        right. exists e. split; [done|]. split; [done|].
        destruct (Ha a) as [->|(e1 & H1 & _ & ->)]; [done|]. rewrite Hi in H1. by injection H1 as <-.
      * specialize (Ha a). by rewrite list_lookup_insert_ne in Ha.
    + destruct (ReapLocked l h) as [l1 h1] eqn:E. intros [= <- <-].
      apply IH in E as (Hl & Hs & Ha). split; [done|]. split; [set_solver|done].
Qed.

Definition due (limit : option Z) (h : list Entry) (x : bytes * nat) : bool :=
  match h !! snd x with
  | Some e => detached e && match limit with Some t => deadline e <=? t | None => true end
  | None => false
  end.

(** The claimed sessions are the due ones, in order, and the others stay. *)
Lemma take_expired_spec limit h m kept expired retire :
  TakeExpiredLocked limit h m = (kept, expired, retire) ->
  kept = filter (fun x => due limit h x = false) m
  /\ expired = filter (fun x => due limit h x = true) m /\ retire ⊆ snd <$> expired.
Proof.
  clear SupportsAsync.
  revert kept expired retire. induction m as [|[id a] m IH]; intros kept expired retire; cbn [TakeExpiredLocked].
  - by intros [= <- <- <-].
  - destruct (TakeExpiredLocked limit h m) as [[k x] r] eqn:E. specialize (IH _ _ _ eq_refl) as (-> & -> & Hr).
    assert (Hd : due limit h (id, a) = match h !! a with
      | Some e => detached e && match limit with Some t => deadline e <=? t | None => true end
      | None => false end) by done.
    destruct (h !! a) as [e|]; [destruct (detached e && _)|]; intros [= <- <- <-].
    + rewrite filter_cons_False, filter_cons_True by (by rewrite Hd).
      split; [done|]. split; [done|]. destruct (joinable _); set_solver.
    + by rewrite filter_cons_True, filter_cons_False by (by rewrite Hd).
    + by rewrite filter_cons_True, filter_cons_False by (by rewrite Hd).
Qed.

(** What a step did to every entry, given what it said. *)
Definition local (h : list Entry) (new : list Effect) (h' : list Entry) : Prop :=
  forall a, match h !! a, h' !! a with
            | Some e, Some e' => entry_step a e (proj a new) e'
            | None, Some e' => exists id, proj a new = [Added id a] /\ detached e' = false
                /\ entry_run a [Added id a] e'
            | None, None => proj a new = []
            | Some _, None => False
            end.

Lemma local_same h new : (forall a, proj a new = []) -> local h new h.
Proof. intros H a. rewrite H. destruct (h !! a); [constructor|done]. Qed.

Lemma local_put h new a e e' :
  h !! a = Some e -> entry_step a e (proj a new) e' -> (forall b, b <> a -> proj b new = []) ->
  local h new (<[a := e']> h).
Proof.
  intros He Hs Hn b. destruct (decide (b = a)) as [->|Hne].
  - rewrite He, list_lookup_insert_eq by (by eapply lookup_lt_Some). done.
  - rewrite list_lookup_insert_ne, Hn by done. destruct (h !! b); [constructor|done].
Qed.

Lemma reap_lookup h l l' h' a e :
  ReapLocked l h = (l', h') -> h' !! a = Some e ->
  exists e0, h !! a = Some e0 /\ (e = e0 \/ (done_ e0 = true /\ e = @with_writer Tx NoThread e0)).
Proof.
  intros (_ & _ & H)%reap_spec He. destruct (H a) as [Ha|(e0 & H0 & Hd & Ha)].
  - rewrite Ha in He. exists e. auto.
  - rewrite Ha in He. injection He as <-. exists e0. auto.
Qed.

Lemma local_reap h new h1 l l' h' : local h new h1 -> ReapLocked l h1 = (l', h') ->
  (forall a e, h !! a = None -> h1 !! a = Some e -> done_ e = false) -> local h new h'.
Proof.
  intros H Hr Hf a. specialize (H a). pose proof (reap_spec _ _ _ _ Hr) as (_ & _ & Hl).
  destruct (Hl a) as [->|(e0 & H0 & Hd & ->)]; [done|]. rewrite H0 in H.
  destruct (h !! a) eqn:E; [by constructor|]. by rewrite (Hf a e0) in Hd.
Qed.

Lemma heap_reap (s : Registry) :
  exists l h, ReapLocked (retired s) (heap s) = (l, h) /\ reap s = with_retired l (with_heap h s).
Proof. unfold reap. destruct (ReapLocked _ _) as [l h]. by exists l, h. Qed.

Lemma proj_one a b f : about b f = Nat.eqb b a -> b <> a -> proj b [f] = [].
Proof.
  intros H Hne. unfold proj. rewrite filter_cons_False, filter_nil; [done|].
  rewrite H. by apply Nat.eqb_neq in Hne as ->.
Qed.

Lemma proj_self a f : about a f = true -> proj a [f] = [f].
Proof. intros H. unfold proj. by rewrite filter_cons_True, filter_nil. Qed.

Lemma proj_none a f : about a f = false -> proj a [f] = [].
Proof. intros H. unfold proj. rewrite filter_cons_False, filter_nil; [done|congruence]. Qed.

Lemma proj_app a l l' : proj a (l ++ l') = proj a l ++ proj a l'.
Proof. apply filter_app. Qed.

Record reg_ok (s : Registry) : Prop := {
  ro_sorted : sm_ok (sessions s);
  ro_nodup : NoDup (snd <$> sessions s);
  ro_bound : forall id a, (id, a) ∈ sessions s -> is_Some (heap s !! a);
  ro_retired : forall a, a ∈ retired s -> is_Some (heap s !! a);
  ro_resuming : forall a h b, resuming s = Some (a, h, b) ->
    exists id e, (id, a) ∈ sessions s /\ heap s !! a = Some e /\ detached e = true
}.

Lemma proj_silent a l : Forall (fun f => about a f = false) l -> proj a l = [].
Proof.
  induction 1 as [|f l Hf _ IH]; [done|]. unfold proj. rewrite filter_cons_False by congruence. exact IH.
Qed.

(** Effects that concern no entry. *)
Ltac silent := intros ?; apply proj_silent; repeat (constructor; [done|]); constructor.

Lemma reap_local h new l l' h' : (forall a, proj a new = []) -> ReapLocked l h = (l', h') -> local h new h'.
Proof. intros Hn Hr. eapply local_reap; [by apply local_same|done|congruence]. Qed.

Lemma add_local id h s s' new : do_Add given SupportsAsync id h s = Some (s', new) ->
  local (heap s) new (heap s').
Proof.
  unfold do_Add. destruct (heap_reap s) as (l & hp & Hr & ->).
  destruct (sm_lookup _ _); intros [= <- <-]; cbn [with_retired with_sessions with_heap heap sessions].
  - apply (reap_local _ _ _ _ _ ltac:(silent) Hr).
  - pose proof (reap_spec _ _ _ _ Hr) as (Hlen & _ & _). rewrite Hlen. intros a.
    destruct (decide (a = length (heap s))) as [->|Hne].
    + rewrite (lookup_ge_None_2 (heap s)) by lia.
      rewrite lookup_app_r, Hlen, Nat.sub_diag by lia. cbn [lookup list_lookup].
      exists id. rewrite proj_self by (simpl; apply Nat.eqb_refl). split; [done|].
      split; [by destruct (_ && _)|]. apply er_added.
    + rewrite proj_none by (simpl; by apply Nat.eqb_neq).
      pose proof (reap_local _ [] _ _ _ ltac:(silent) Hr a) as Ha. unfold proj in Ha. rewrite filter_nil in Ha.
      destruct (decide (a < length (heap s))%nat) as [Hlt|Hge].
      * rewrite lookup_app_l by lia. done.
      * rewrite (lookup_ge_None_2 (heap s)) by lia.
        by rewrite (lookup_ge_None_2 (_ ++ _)) by (rewrite ?length_app; simpl; lia).
Qed.

Lemma remove_local id s s' new : do_Remove id s = Some (s', new) -> local (heap s) new (heap s').
Proof.
  unfold do_Remove. destruct (sm_lookup _ _) as [a|]; [|intros [= <- <-]; apply local_same; silent].
  destruct (heap s !! a) as [e|] eqn:He; [|done]. intros [= <- <-].
  match goal with |- context [reap ?x] => set (s1 := x) end.
  destruct (heap_reap s1) as (l & hp & Hr & ->). cbn [with_retired with_heap heap].
  assert (Hs1 : heap s1 = <[a := RequestStop e]> (heap s)) by (subst s1; by destruct (joinable _)).
  eapply local_reap; [|exact Hr|].
  - rewrite Hs1. apply (local_put _ _ a e); [done| |intros b Hb; by apply (proj_one a)].
    rewrite proj_self by (simpl; apply Nat.eqb_refl). apply es_remove.
  - intros b eb Hb. rewrite Hs1, list_lookup_insert_ne by congruence. congruence.
Qed.

Lemma detach_local id s s' new : do_Detach given id s = Some (s', new) -> local (heap s) new (heap s').
Proof.
  unfold do_Detach. destruct (_ =? 0); [intros [= <- <-]; apply local_same; silent|].
  destruct (sm_lookup _ _) as [a|]; [|intros [= <- <-]; apply local_same; silent].
  destruct (heap s !! a) as [e|] eqn:He; [|done].
  destruct (detached e) eqn:Ed; intros [= <- <-]; [apply local_same; silent|].
  change [Detached id a; Closed (handle e)] with ([Detached id a] ++ [@Closed Tx (handle e)]).
  apply (local_put _ _ a e); [done| |intros b Hb].
  - rewrite proj_app, (proj_none a (Closed (handle e))), app_nil_r by done.
    rewrite proj_self by (simpl; apply Nat.eqb_refl). by apply es_detach.
  - by rewrite proj_app, (proj_none b (Closed (handle e))), (proj_one a) by done.
Qed.

Lemma resume_pass_local s s' new : reg_ok s -> do_ResumePass s = Some (s', new) ->
  local (heap s) new (heap s').
Proof.
  intros Hok H. apply bind_Some in H as ([[a h] async] & Hr & H).
  apply bind_Some in H as (e & He & H). destruct (quiesced e) eqn:Eq; [|done]. injection H as <- <-.
  destruct (ro_resuming _ Hok _ _ _ Hr) as (id & e0 & _ & H0 & Hd). rewrite He in H0. injection H0 as <-.
  apply (local_put _ _ a e); [done| |intros b Hb; by apply (proj_one a)].
  rewrite proj_self by (simpl; apply Nat.eqb_refl). by apply es_resume.
Qed.

Lemma call_local i s s' new : do_CallStep given i s = Some (s', new) -> local (heap s) new (heap s').
Proof.
  unfold do_CallStep. intros H. apply bind_Some in H as (c & _ & H).
  destruct (charged c) as [[id a]|].
  - apply bind_Some in H as (e & _ & [= <- <-]). apply local_same. intros b. apply proj_none.
    by destruct (has_on_slow_consumer _).
  - destruct (todo c) as [|[[[id a] ev] cls] rest]; [injection H as <- <-; apply local_same; silent|].
    apply bind_Some in H as (e & He & H). destruct (enqueue given e ev cls) as [[e' ok] owed] eqn:Eq.
    injection H as <- <-. apply (local_put _ _ a e); [done| |intros b Hb].
    + rewrite proj_self by (destruct ok; apply Nat.eqb_refl). by eapply es_enqueue.
    + apply (proj_one a); [by destruct ok|done].
Qed.

(** The steps of the writer, the chain and the destructor's joins. *)
Lemma one_local s a e e' new :
  heap s !! a = Some e -> entry_step a e new e' -> Forall (fun f => forall b, about b f = Nat.eqb b a) new ->
  local (heap s) new (<[a := e']> (heap s)).
Proof.
  intros He Hs Hn. apply (local_put _ _ a e); [done| |].
  - assert (proj a new = new) as ->; [|done]. clear Hs. induction Hn as [|f l Hf _ IH]; [done|].
    unfold proj. rewrite filter_cons_True by (rewrite Hf; apply Nat.eqb_refl). by f_equal.
  - intros b Hb. apply proj_silent. eapply Forall_impl; [exact Hn|]. intros f Hf. rewrite Hf. by apply Nat.eqb_neq.
Qed.

Lemma writer_take_local a s s' new : do_WriterTake a s = Some (s', new) -> local (heap s) new (heap s').
Proof.
  unfold do_WriterTake. intros H. apply bind_Some in H as (e & He & H).
  destruct (writer e) eqn:Ew; try done. destruct (stopping e) eqn:Es.
  - injection H as <- <-. apply (one_local s a e); [done|by apply es_stop|done].
  - destruct (queue e) as [|q rest] eqn:Eq; [done|]. injection H as <- <-.
    apply (one_local s a e); [done|by apply es_take|done].
Qed.

Lemma writer_sent_local a ok s s' new : do_WriterSent a ok s = Some (s', new) -> local (heap s) new (heap s').
Proof.
  unfold do_WriterSent. intros H. apply bind_Some in H as (e & He & H).
  destruct (writer e) eqn:Ew; try done. destruct ok; injection H as <- <-.
  - apply (one_local s a e); [done|by apply es_sent|by constructor].
  - apply (one_local s a e); [done|by apply es_failed|by constructor].
Qed.

Lemma writer_exit_local a s s' new : do_WriterExit a s = Some (s', new) -> local (heap s) new (heap s').
Proof.
  unfold do_WriterExit. intros H. apply bind_Some in H as (e & He & H).
  destruct (writer e) eqn:Ew; try done. injection H as <- <-.
  apply (one_local s a e); [done|by apply es_exit|done].
Qed.

Lemma chain_local a k r s s' new : do_ChainDone a k r s = Some (s', new) -> local (heap s) new (heap s').
Proof.
  unfold do_ChainDone. intros H. apply bind_Some in H as (e & He & H). apply bind_Some in H as (ev & Hk & H).
  injection H as <- <-. apply (one_local s a e); [done|by apply (es_chain a e k ev r)|].
  constructor; [by destruct r|constructor].
Qed.

Lemma join_local s s' new : do_Join s = Some (s', new) -> local (heap s) new (heap s').
Proof.
  unfold do_Join. destruct (joining s) as [|a rest]; [done|]. intros H. apply bind_Some in H as (e & He & H).
  destruct (negb _); [injection H as <- <-; apply local_same; silent|].
  destruct (writer e) eqn:Ew; try done. injection H as <- <-.
  apply (one_local s a e); [done|by apply es_join|done].
Qed.

(** A list of claims mentions an entry once. *)
Lemma proj_expired a (m : list (bytes * nat)) :
  NoDup (snd <$> m) ->
  proj a ((fun x => Expired (fst x) (snd x)) <$> m) = []
  \/ exists id, (id, a) ∈ m /\ proj a ((fun x => Expired (fst x) (snd x)) <$> m) = [Expired id a].
Proof.
  induction m as [|[id b] m IH]; intros Hn; [by left|]. rewrite fmap_cons in *.
  apply NoDup_cons in Hn as [Hb Hn]. change (proj a (?x :: ?l)) with (proj a ([x] ++ l)).
  rewrite proj_app. cbn [fst snd].
  destruct (decide (a = b)) as [<-|Hne].
  - rewrite proj_self by (simpl; apply Nat.eqb_refl). right. exists id. split; [set_solver|].
    destruct (IH Hn) as [->|(id' & Hin & _)]; [done|]. destruct Hb. by apply (list_elem_of_fmap_2 snd _ (id', a)).
  - rewrite (proj_one b) by done. destruct (IH Hn) as [->|(id' & Hin & ->)]; [by left|].
    right. exists id'. split; [set_solver|done].
Qed.

Lemma due_detached limit h id a : due limit h (id, a) = true -> exists e, h !! a = Some e /\ detached e = true.
Proof. unfold due. simpl. destruct (h !! a) as [e|]; [|done]. intros [H _]%andb_prop. by exists e. Qed.

Lemma NoDup_filter_snd (P : bytes * nat -> Prop) `{!forall x, Decision (P x)} (m : list (bytes * nat)) :
  NoDup (snd <$> m) -> NoDup (snd <$> filter P m).
Proof. intros Hn. eapply sublist_NoDup; [exact Hn|]. apply fmap_sublist, sublist_filter. Qed.

Lemma expire_local limit s s' new : reg_ok s -> expire limit s = Some (s', new) -> local (heap s) new (heap s').
Proof.
  intros Hok. unfold expire. destruct (TakeExpiredLocked _ _ _) as [[kept expired] retire] eqn:Et.
  apply take_expired_spec in Et as (_ & He & _).
  assert (Hl : local (heap s) ((fun x => Expired (fst x) (snd x)) <$> expired) (heap s)).
  { rewrite He. intros a.
    destruct (proj_expired a (filter (fun x => due limit (heap s) x = true) (sessions s))) as [->|(id & Hin & ->)].
    - apply NoDup_filter_snd, (ro_nodup _ Hok).
    - destruct (heap s !! a); [constructor|done].
    - apply list_elem_of_filter in Hin as [Hd _]. apply due_detached in Hd as (e & -> & Hd).
      by apply es_expire. }
  destruct expired as [|x expired]; [intros [= <- <-]; apply local_same; silent|].
  match goal with |- context [reap ?x] => set (s1 := x) end.
  destruct (heap_reap s1) as (l & hp & Hr & ->). intros [= <- <-].
  change (heap s1) with (heap s) in Hr. eapply local_reap; [exact Hl|exact Hr|congruence].
Qed.

Definition stop_at (h : list Entry) (a : nat) : list Entry :=
  match h !! a with Some e => <[a := RequestStop e]> h | None => h end.

Lemma stop_at_lookup h b a :
  stop_at h b !! a = if decide (a = b) then RequestStop <$> h !! a else h !! a.
Proof.
  unfold stop_at. destruct (h !! b) as [e|] eqn:E.
  - destruct (decide (a = b)) as [->|Hne].
    + rewrite list_lookup_insert_eq by (by eapply lookup_lt_Some). by rewrite E.
    + by rewrite list_lookup_insert_ne.
  - destruct (decide (a = b)) as [->|]; [by rewrite E|done].
Qed.

Lemma stop_all_lookup all h a :
  fold_left stop_at all h !! a = if decide (a ∈ all) then RequestStop <$> h !! a else h !! a.
Proof.
  revert h. induction all as [|b all IH]; intros h; cbn [fold_left]; [by destruct (decide _); [set_solver|]|].
  rewrite IH, stop_at_lookup.
  destruct (decide (a = b)) as [->|Hne], (decide (_ ∈ all)), (decide (_ ∈ _ :: all)); try set_solver.
  - by destruct (h !! b) .
Qed.

Lemma proj_torn (h : list Entry) a all :
  exists n, proj a (all ≫= fun b => [Closed (from_option handle O (h !! b)); Torn b]) = replicate n (Torn a)
  /\ (a ∈ all <-> n <> O).
Proof.
  induction all as [|b all (n & IH & Hn)]; [exists O; split; [done|set_solver]|].
  rewrite bind_cons, proj_app, IH.
  change [Closed ?x; Torn b] with ([@Closed Tx x] ++ [Torn b]). rewrite proj_app.
  rewrite (proj_silent a [Closed _]) by (by constructor). destruct (decide (b = a)) as [->|Hne].
  - exists (S n). rewrite proj_self by (simpl; apply Nat.eqb_refl). split; [done|]. set_solver.
  - exists n. rewrite (proj_one b) by done. split; [done|]. set_solver.
Qed.

Lemma teardown_local s s' new : reg_ok s -> do_Teardown s = Some (s', new) -> local (heap s) new (heap s').
Proof.
  intros Hok. unfold do_Teardown. intros [= <- <-] a.
  destruct (proj_torn (heap s) a (map snd (sessions s) ++ retired s)) as (n & -> & Hn).
  cbn [with_joining with_retired with_sessions with_heap heap].
  change (fold_left _ ?l (heap s)) with (fold_left stop_at l (heap s)). rewrite stop_all_lookup.
  destruct (decide _) as [Hin|Hout]; destruct (heap s !! a) as [e|] eqn:He; cbn [fmap option_fmap option_map].
  - destruct n as [|n]; [by destruct (proj1 Hn Hin)|]. apply es_torn.
  - exfalso. apply elem_of_app in Hin as [Hin|Hin].
    + apply (list_elem_of_fmap_1 snd) in Hin as ([id b] & -> & Hin).
      destruct (ro_bound _ Hok _ _ Hin) as [e H]. simpl in He. congruence.
    + destruct (ro_retired _ Hok _ Hin) as [e H]. congruence.
  - destruct n; [constructor|]. destruct Hout. by apply Hn.
  - destruct n; [done|]. destruct Hout. by apply Hn.
Qed.

Lemma step_local a s s' new : reg_ok s -> step a s = Some (s', new) -> local (heap s) new (heap s').
Proof.
  intros Hok. destruct a; cbn [SessionRegistry.step]; unfold locking;
    repeat match goal with |- context [match resuming s with _ => _ end] => destruct (resuming s); [done|] end.
  - destruct (_ <=? _); [|done]. intros [= <- <-]. apply local_same. silent.
  - apply add_local.
  - apply remove_local.
  - apply detach_local.
  - unfold do_Resume. repeat (case_match; try done); intros [= <- <-]; apply local_same; silent.
  - by apply resume_pass_local.
  - unfold do_SendTo. case_match; intros [= <- <-]; apply local_same; silent.
  - intros [= <- <-]. apply local_same. silent.
  - intros [= <- <-]. apply local_same. silent.
  - apply call_local.
  - unfold do_Close. case_match; intros [= <- <-]; apply local_same; silent.
  - unfold do_Kick. case_match; [done|]. case_match; intros [= <- <-]; apply local_same; silent.
  - unfold do_CloseAll. intros [= <- <-]. apply local_same. intros b. apply proj_silent.
    apply Forall_fmap, Forall_forall. done.
  - apply writer_take_local.
  - apply writer_sent_local.
  - apply writer_exit_local.
  - apply chain_local.
  - by apply expire_local.
  - by apply expire_local.
  - unfold do_Fire. intros H. apply bind_Some in H as (l & _ & H).
    destruct l; injection H as <- <-; apply local_same; intros b; [done|]. by destruct (has_on_expired _).
  - by apply teardown_local.
  - apply join_local.
Qed.

(** ** The structure of the registry *)

Lemma local_is_Some h new h' a : local h new h' -> is_Some (h !! a) -> is_Some (h' !! a).
Proof. intros H [e He]. specialize (H a). rewrite He in H. destruct (h' !! a); [by eexists|done]. Qed.

Lemma with_writer_detached w (e : Entry) : detached (with_writer w e) = detached e.
Proof. done. Qed.

Lemma enqueue_frame (e : Entry) ev cls e' ok owed :
  enqueue given e ev cls = (e', ok, owed) ->
  detached e' = detached e /\ stopping e' = stopping e /\ done_ e' = done_ e /\ handle e' = handle e
  /\ async_mode e' = async_mode e /\ writer e' = writer e.
Proof.
  unfold enqueue, PlaceLocked. destruct (place _ _ _ _ _) as [q p].
  destruct (detached e) eqn:Ed.
  - destruct (negb _); [intros [= <- _ _]; auto 10|]. destruct p; intros [= <- _ _]; simpl; auto 10.
  - destruct (stopping e) eqn:Es; [intros [= <- _ _]; auto 10|].
    destruct p; [|intros [= <- _ _]; simpl; auto 10..]. unfold ClaimLocked. cbn [with_queue queue stopping].
    destruct (_ && _); [|intros [= <- _ _]; simpl; auto 10].
    rewrite Es. destruct q; intros [= <- _ _]; simpl; auto 10.
Qed.

Lemma ClaimLocked_frame (e : Entry) :
  detached (ClaimLocked e) = detached e /\ stopping (ClaimLocked e) = stopping e
  /\ done_ (ClaimLocked e) = done_ e /\ handle (ClaimLocked e) = handle e
  /\ async_mode (ClaimLocked e) = async_mode e /\ writer (ClaimLocked e) = writer e
  /\ queue (ClaimLocked e) = queue e.
Proof.
  unfold ClaimLocked. destruct (queue e) eqn:Eq; [|destruct (stopping e) eqn:Es]; cbn; rewrite ?Eq, ?Es; auto 10.
Qed.

Lemma chain_detached r (e : Entry) : detached (chain_completed r e) = detached e.
Proof.
  destruct r; cbn [chain_completed].
  - apply (ClaimLocked_frame (with_queue (drop 1 (queue e)) e)).
  - by destruct (negb _ && _).
  - unfold delivery_failed. cbn. by destruct (detached e) eqn:E; cbn; rewrite ?E.
Qed.

Lemma entry_step_detached a e l e' :
  entry_step a e l e' -> detached e = true -> (forall id, Resumed id a ∉ l) -> detached e' = true.
Proof.
  induction 1 as [e|e l e' H IH Hd| | | | | |e ev cls e' ok owed H| | | |e ev Hw|e Hw|e Hw|e k ev r Hk]; intros He Hl; try done.
  - by apply IH.
  - cbn [detach_entry]. unfold detach_entry. by destruct (queue_while_detached _).
  - exfalso. apply (Hl id). set_solver.
  - apply enqueue_frame in H as (-> & _). done.
  - cbn. unfold delivery_failed. cbn. by destruct (detached e) eqn:E.
  - by rewrite chain_detached.
Qed.

Lemma reg_ok_frame s s' new :
  reg_ok s -> local (heap s) new (heap s') -> sessions s' = sessions s -> retired s' ⊆ retired s ->
  (resuming s' = resuming s /\ forall id a, Resumed id a ∉ new) \/ resuming s' = None -> reg_ok s'.
Proof.
  intros [Hs Hn Hb Hr Hre] Hl Es Er Hre'. split; rewrite ?Es; [done|done| | |].
  - intros id a Hin. eapply local_is_Some; [done|by eapply Hb].
  - intros a Hin. eapply local_is_Some; [done|by apply Hr, Er].
  - destruct Hre' as [[-> Hno]| -> ]; [|done]. intros a h b H. destruct (Hre _ _ _ H) as (id & e & Hin & He & Hd).
    specialize (Hl a). rewrite He in Hl. destruct (heap s' !! a) as [e'|]; [|done].
    exists id, e'. split; [done|]. split; [done|]. eapply entry_step_detached; [done|done|].
    intros id' Hx. apply list_elem_of_filter in Hx as [_ Hx]. by apply (Hno id' a).
Qed.

Definition resumes (f : Effect) : bool := match f with Resumed _ _ => true | _ => false end.

Lemma no_resume new : Forall (fun f => resumes f = false) new -> forall id a, Resumed id a ∉ new.
Proof. intros H id a Hin. rewrite Forall_forall in H. by apply H in Hin. Qed.

(** Steps that only touch entries keep the structure. *)
Lemma reg_ok_entries s s' new :
  reg_ok s -> local (heap s) new (heap s') -> sessions s' = sessions s -> retired s' = retired s ->
  resuming s' = resuming s -> Forall (fun f => resumes f = false) new -> reg_ok s'.
Proof.
  intros Hok Hl Hs Hr He Hn. apply (reg_ok_frame s s' new Hok Hl Hs); [by rewrite Hr|].
  left. split; [done|]. by apply no_resume.
Qed.

Lemma add_reg_ok id h s s' new : reg_ok s -> resuming s = None ->
  do_Add given SupportsAsync id h s = Some (s', new) -> reg_ok s'.
Proof.
  intros Hok Hn H. pose proof (add_local _ _ _ _ _ H) as Hl. revert H Hl. unfold do_Add.
  destruct (heap_reap s) as (l & hp & Hr & ->). pose proof (reap_spec _ _ _ _ Hr) as (Hlen & Hsub & _).
  destruct (sm_lookup _ _) eqn:Ef; cbn [with_retired with_heap sessions] in Ef; intros [= <- <-] Hl.
  - apply (reg_ok_frame s _ _ Hok Hl); [done|done|]. by right.
  - set (a := length hp) in *. unfold sm_emplace in *. cbn [with_retired with_heap sessions heap] in *.
    rewrite Ef in *. pose proof (sm_insert_fresh _ a _ Ef) as Hp.
    split; cbn [with_sessions with_retired with_heap sessions retired heap resuming].
    + apply sm_insert_ok, (ro_sorted _ Hok).
    + rewrite Hp. cbn [fmap list_fmap snd]. apply NoDup_cons. split; [|apply (ro_nodup _ Hok)].
      intros ([id' b] & -> & Hin)%list_elem_of_fmap_1. destruct (ro_bound _ Hok _ _ Hin) as [e He].
      apply lookup_lt_Some in He. simpl in *. lia.
    + intros id' b Hin. rewrite Hp in Hin. apply elem_of_cons in Hin as [[= -> ->]|Hin].
      * subst a. rewrite lookup_app_r, Nat.sub_diag by lia. by eexists.
      * eapply local_is_Some; [exact Hl|]. by eapply (ro_bound _ Hok).
    + intros b Hin. eapply local_is_Some; [exact Hl|]. by apply (ro_retired _ Hok), Hsub.
    + intros b h' as' Hx. congruence.
Qed.

Lemma remove_reg_ok id s s' new : reg_ok s -> resuming s = None ->
  do_Remove id s = Some (s', new) -> reg_ok s'.
Proof.
  intros Hok Hn H. pose proof (remove_local _ _ _ _ H) as Hl. revert H Hl. unfold do_Remove.
  destruct (sm_lookup _ _) as [a|] eqn:Ef; [|by intros [= <- <-]].
  destruct (heap s !! a) as [e|] eqn:He; [|done]. intros [= <- <-].
  match goal with |- context [reap ?x] => set (s1 := x) end. intros Hl.
  destruct (heap_reap s1) as (l & hp & Hr & E). rewrite E in *. pose proof (reap_spec _ _ _ _ Hr) as (_ & Hsub & _).
  assert (Hs : sessions s1 = sm_erase id (sessions s)) by (subst s1; by destruct (joinable _)).
  assert (Hre : resuming s1 = None) by (subst s1; by destruct (joinable _)).
  assert (Hrt : retired s1 ⊆ retired s ++ [a]) by (subst s1; destruct (joinable _); cbn; set_solver).
  rewrite sm_erase_filter in Hs by apply (ro_sorted _ Hok).
  split; cbn [with_retired with_heap sessions retired heap resuming]; rewrite ?Hs.
  - apply sm_ok_filter, (ro_sorted _ Hok).
  - apply NoDup_filter_snd, (ro_nodup _ Hok).
  - intros id' b [_ Hin]%list_elem_of_filter. eapply local_is_Some; [exact Hl|]. by eapply (ro_bound _ Hok).
  - intros b Hin. eapply local_is_Some; [exact Hl|]. apply Hsub, Hrt, elem_of_app in Hin as [Hin|Hin].
    + by apply (ro_retired _ Hok).
    + apply list_elem_of_singleton in Hin as ->. by eexists.
  - intros b h as' Hx. congruence.
Qed.

Lemma expire_reg_ok limit s s' new : reg_ok s -> resuming s = None ->
  expire limit s = Some (s', new) -> reg_ok s'.
Proof.
  intros Hok Hn H. pose proof (expire_local _ _ _ _ Hok H) as Hl. revert H Hl. unfold expire.
  destruct (TakeExpiredLocked _ _ _) as [[kept expired] retire] eqn:Et.
  apply take_expired_spec in Et as (Hk & Hx & Hret).
  destruct expired as [|x expired]; [by intros [= <- <-]|]. intros [= <- <-].
  match goal with |- context [reap ?x] => set (s1 := x) end. intros Hl.
  destruct (heap_reap s1) as (l & hp & Hr & E). rewrite E in *. pose proof (reap_spec _ _ _ _ Hr) as (_ & Hsub & _).
  split; cbn [with_firing with_retired with_heap with_sessions sessions retired heap resuming s1]; rewrite ?Hk.
  - apply sm_ok_filter, (ro_sorted _ Hok).
  - apply NoDup_filter_snd, (ro_nodup _ Hok).
  - intros id' b [_ Hin]%list_elem_of_filter. eapply local_is_Some; [exact Hl|]. by eapply (ro_bound _ Hok).
  - intros b Hin. eapply local_is_Some; [exact Hl|]. apply Hsub in Hin. cbn in Hin.
    apply elem_of_app in Hin as [Hin|Hin]; [by apply (ro_retired _ Hok)|].
    apply Hret in Hin. rewrite Hx in Hin. apply list_elem_of_fmap_1 in Hin as ([id b'] & -> & Hin).
    apply list_elem_of_filter in Hin as [_ Hin]. by eapply (ro_bound _ Hok).
  - intros b h as' Hx'. congruence.
Qed.

Ltac locked :=
  unfold locking;
  match goal with |- context [resuming ?s] => destruct (resuming s) eqn:?; [done|] end.

Lemma resume_reg_ok id h s s' new : reg_ok s -> do_Resume given SupportsAsync id h s = Some (s', new) -> reg_ok s'.
Proof.
  intros Hok. unfold do_Resume. destruct (_ =? 0); [by intros [= <- <-]|].
  destruct (sm_lookup _ _) as [a|] eqn:Ef; [|by intros [= <- <-]].
  destruct (heap s !! a) as [e|] eqn:He; [|done].
  destruct (detached e) eqn:Ed; [|by intros [= <- <-]]. destruct (_ <=? _); intros [= <- <-]; [done|].
  destruct Hok as [Hs Hn Hb Hr Hre]. split; try done. intros b h' as' [= <- <- <-].
  exists id, e. split; [|done]. by apply sm_lookup_elem.
Qed.

Lemma teardown_reg_ok s s' new : reg_ok s -> resuming s = None -> do_Teardown s = Some (s', new) -> reg_ok s'.
Proof.
  intros Hok Hn. unfold do_Teardown. intros [= <- <-].
  split; cbn [with_joining with_retired with_sessions with_heap heap sessions retired resuming].
  - done.
  - constructor.
  - intros ? ? H. by apply elem_of_nil in H.
  - intros ? H. by apply elem_of_nil in H.
  - congruence.
Qed.

Lemma step_reg_ok a s s' new : reg_ok s -> step a s = Some (s', new) -> reg_ok s'.
Proof.
  intros Hok H. pose proof (step_local _ _ _ _ Hok H) as Hl. revert H.
  destruct a; cbn [SessionRegistry.step].
  - destruct (_ <=? _); [|done]. intros [= <- <-]. by apply (reg_ok_entries s _ []).
  - locked. by apply add_reg_ok.
  - locked. by apply remove_reg_ok.
  - locked. intros H. apply (reg_ok_frame s s' new Hok Hl); revert H; unfold do_Detach;
      repeat (case_match; try done); intros [= <- <-]; try done; by right.
  - locked. by apply resume_reg_ok.
  - intros H. apply (reg_ok_frame s s' new Hok Hl); revert H; intros H;
      apply bind_Some in H as ([[a h] async] & _ & H); apply bind_Some in H as (e & _ & H);
      destruct (quiesced e); try done; injection H as <- <-; try done. by right.
  - locked. unfold do_SendTo. case_match; intros [= <- <-]; [|done]. by apply (reg_ok_entries s _ [] Hok).
  - locked. intros [= <- <-]. by apply (reg_ok_entries s _ [] Hok).
  - locked. intros [= <- <-]. by apply (reg_ok_entries s _ [] Hok).
  - intros H. apply (reg_ok_entries s s' new Hok Hl); revert H; unfold do_CallStep; intros H;
      apply bind_Some in H as (c & _ & H); destruct (charged c) as [[id a]|];
      [|destruct (todo c) as [|[[[id a] ev] cls] rest]| |destruct (todo c) as [|[[[id a] ev] cls] rest]
       | |destruct (todo c) as [|[[[id a] ev] cls] rest]| |destruct (todo c) as [|[[[id a] ev] cls] rest]];
      try (apply bind_Some in H as (e & _ & H)); try destruct (enqueue _ _ _ _) as [[e' ok] owed];
      injection H as <- <-; try done; repeat constructor.
    + by destruct (has_on_slow_consumer _).
    + by destruct ok.
  - locked. unfold do_Close. by case_match; intros [= <- <-].
  - locked. unfold do_Kick. case_match; [done|]. by case_match; intros [= <- <-].
  - locked. by intros [= <- <-].
  - intros H. apply (reg_ok_entries s s' new Hok Hl); revert H; unfold do_WriterTake; intros H;
      apply bind_Some in H as (e & _ & H); repeat (case_match; try done); by injection H as <- <-.
  - intros H. apply (reg_ok_entries s s' new Hok Hl); revert H; unfold do_WriterSent; intros H;
      apply bind_Some in H as (e & _ & H); repeat (case_match; try done); injection H as <- <-; try done;
      by repeat constructor.
  - intros H. apply (reg_ok_entries s s' new Hok Hl); revert H; unfold do_WriterExit; intros H;
      apply bind_Some in H as (e & _ & H); repeat (case_match; try done); by injection H as <- <-.
  - intros H. apply (reg_ok_entries s s' new Hok Hl); revert H; unfold do_ChainDone; intros H;
      apply bind_Some in H as (e & _ & H); apply bind_Some in H as (ev & _ & H); injection H as <- <-; try done.
    constructor; [by destruct r|constructor].
  - locked. by apply expire_reg_ok.
  - locked. by apply expire_reg_ok.
  - intros H. apply (reg_ok_entries s s' new Hok Hl); revert H; unfold do_Fire; intros H;
      apply bind_Some in H as (l & _ & H); destruct l; injection H as <- <-; try done.
    by destruct (has_on_expired _); repeat constructor.
  - locked. by apply teardown_reg_ok.
  - intros H. apply (reg_ok_entries s s' new Hok Hl); revert H; unfold do_Join; intros H;
      destruct (joining s); try done; apply bind_Some in H as (e & _ & H);
      repeat (case_match; try done); by injection H as <- <-.
Qed.

Lemma empty_reg_ok : reg_ok empty_registry.
Proof.
  split; simpl; [done|constructor| | |done].
  - intros ? ? H. by apply elem_of_nil in H.
  - intros ? H. by apply elem_of_nil in H.
Qed.

Lemma run_reg_ok acts s log : run acts s log -> reg_ok s.
Proof. induction 1; [apply empty_reg_ok|by eapply step_reg_ok]. Qed.

(** Every entry's part of the log is a history of its own. *)
Lemma run_entries acts s log :
  run acts s log ->
  forall a, match heap s !! a with Some e => entry_run a (proj a log) e | None => proj a log = [] end.
Proof.
  induction 1 as [|acts s log act s' new Hr IH Hs]; [done|]. intros a. specialize (IH a).
  pose proof (step_local _ _ _ _ (run_reg_ok _ _ _ Hr) Hs a) as Hl. rewrite proj_app.
  destruct (heap s !! a), (heap s' !! a); try done.
  - by eapply er_step.
  - destruct Hl as (id & -> & _ & Hl). by rewrite IH.
  - by rewrite IH, Hl.
Qed.
End entries.
