(* ===== verification/SessionDelivery.v ===== *)
(** Delivery in the session registry: the invariant of an entry (one deliverer
    at a time, a bounded queue, no event stranded), the order in which its
    events go out, its life from [Add] to removal or expiry, and that a waiting
    [Resume] gets its turn. *)
From Stdlib Require Import ZArith Lia Strings.Byte.
From S2P Require Import Prelude Bytes OrdMap WebSocketPair SessionQueue SessionRegistry RegistryEntries.

Local Open Scope Z_scope.

Lemma sublist_same_length {A} (l1 l2 : list A) : sublist l1 l2 -> length l1 = length l2 -> l1 = l2.
Proof.
  induction 1 as [|x l1 l2 H IH|x l1 l2 H IH]; intros Hl; [done| |].
  - f_equal. apply IH. simpl in Hl. lia.
  - apply sublist_length in H. simpl in Hl. lia.
Qed.

Section delivery.
  Context {Tx : Type} (given : Options) (SupportsAsync : Handle -> bool).
  Notation Entry := (@Entry Tx).
  Notation Registry := (@Registry Tx).
  Notation Effect := (@Effect Tx).
  Notation step := (step given SupportsAsync).
  Notation run := (run given SupportsAsync).
  Notation capacity := (queue_capacity (options_ given)).

Record entry_ok (e : Entry) : Prop := {
  eo_chains : length (chains e) = if delivering e then 1%nat else 0%nat;
  eo_async : delivering e = true -> async_mode e = true;
  eo_one : async_mode e = true -> writer e = NoThread;
  eo_bound : len (queue e) <= capacity;
  eo_detached : detached e = true -> stopping e = true;
  eo_done : done_ e = true -> writer e = Ended \/ writer e = NoThread;
  eo_ended : writer e = Ended -> done_ e = true;
  eo_fresh : done_ e = true -> stopping e = true;
  eo_exit : writer e = AtExit \/ writer e = Ended -> stopping e = true;
  eo_alive : stopping e = false -> async_mode e = false ->
    writer e = AtWait \/ exists ev, writer e = InSend ev;
  eo_flowing : stopping e = false -> async_mode e = true -> queue e <> [] -> delivering e = true;
  eo_inflight : stopping e = false -> delivering e = true ->
    exists q rest, queue e = q :: rest /\ chains e = [event q];
  eo_dropped : detached e = true -> queue_while_detached (options_ given) = false -> queue e = []
}.

Lemma capacity_pos : 1 <= capacity.
Proof. unfold options_, Normalize. simpl. destruct (Z.ltb_spec (queue_capacity given) 1); lia. Qed.

Ltac fields := cbn [handle queue stopping done_ async_mode delivering detached deadline writer chains
  with_handle with_queue with_stopping with_done with_async_mode with_delivering with_detached
  with_deadline with_writer with_chains new_entry RequestStop] in *.

Lemma len_nil_le : len (@nil (Queued Tx)) <= capacity.
Proof. pose proof capacity_pos. change (len (@nil (Queued Tx))) with 0. lia. Qed.

Lemma added_ok h (async : bool) :
  entry_ok (if async then with_async_mode async (new_entry h)
            else with_writer AtWait (with_async_mode async (new_entry h))).
Proof. pose proof len_nil_le. destruct async; split; fields; try done; auto; intros [?|?]; done. Qed.

Lemma reaped_ok e : entry_ok e -> done_ e = true -> entry_ok (with_writer NoThread e).
Proof.
  intros [] Hd. split; fields; auto; try done; try (intros [?|?]; done).
  intros Hs Ha. destruct (eo_alive0 Hs Ha) as [Hw|[ev Hw]]; destruct (eo_done0 Hd); congruence.
Qed.

Lemma stopped_ok e : entry_ok e -> entry_ok (RequestStop e).
Proof. intros []. pose proof len_nil_le. split; fields; auto; done. Qed.

Lemma detached_ok d e : entry_ok e -> entry_ok (detach_entry given d e).
Proof.
  intros []. pose proof len_nil_le. unfold detach_entry.
  destruct (queue_while_detached _) eqn:Eq; split; fields; auto; try done. congruence.
Qed.

Lemma claimed_ok e :
  chains e = [] -> async_mode e = true -> writer e = NoThread -> len (queue e) <= capacity ->
  (detached e = true -> stopping e = true) -> (done_ e = true -> stopping e = true) ->
  (detached e = true -> queue_while_detached (options_ given) = false -> queue e = []) ->
  entry_ok (ClaimLocked e).
Proof.
  intros Hc Ha Hw Hl Hd Hf Hq. destruct (ClaimLocked_frame e) as (E1 & E2 & E3 & E4 & E5 & E6 & E7).
  assert (Hcase : (delivering (ClaimLocked e) = false /\ chains (ClaimLocked e) = []
                   /\ (stopping e = true \/ queue e = []))
    \/ (delivering (ClaimLocked e) = true /\ exists q rest, queue e = q :: rest
        /\ chains (ClaimLocked e) = [event q])).
  { unfold ClaimLocked. destruct (queue e) as [|q rest] eqn:Eq; [left; cbn; auto|].
    destruct (stopping e) eqn:Es; [left; cbn; auto|]. right. cbn. rewrite Hc. eauto. }
  split; rewrite ?E1, ?E2, ?E3, ?E4, ?E5, ?E6, ?E7; auto; try congruence;
    try (intros [?|?]; congruence).
  - destruct Hcase as [(-> & -> & _)|(-> & q & rest & _ & ->)]; done.
  - intros Hs _ Hne. destruct Hcase as [(_ & _ & [?|?])|(? & _)]; [congruence|done|done].
  - intros Hs Hdl. destruct Hcase as [(? & _)|(_ & q & rest & ? & ?)]; [congruence|eauto].
Qed.

Lemma resumed_ok h async e : entry_ok e -> quiesced e = true -> entry_ok (swap h async e).
Proof.
  intros [] [Hw Hd]%andb_prop. apply negb_true_iff in Hd.
  assert (Hc : chains e = []) by (rewrite Hd in *; by apply length_zero_iff_nil).
  unfold swap. destruct async.
  - apply claimed_ok; fields; done.
  - split; fields; try done; auto; try congruence; try (intros [?|?]; done).
Qed.

Lemma placed_inflight (e : Entry) q p ev cls :
  place capacity true (queue e) ev cls = (q, p) -> queue e <> [] -> exists q0 rest rest0, queue e = q0 :: rest0 /\ q = q0 :: rest.
Proof.
  intros H Hn. apply place_front in H; [|done]. destruct (queue e) as [|q0 rest0]; [done|].
  destruct q as [|q1 rest]; [done|]. injection H as ->. eauto.
Qed.

(** Placing an event that is queued, the chain not claimed yet. *)
Lemma placed_ok e q ev cls :
  entry_ok e -> place capacity (delivering e) (queue e) ev cls = (q, kQueued) ->
  (detached e = true -> queue_while_detached (options_ given) = true) ->
  (stopping e = false -> async_mode e = true -> delivering e = true) ->
  entry_ok (with_queue q e).
Proof.
  intros [] Hp Hd Hf. pose proof (place_length _ _ _ _ _ _ _ Hp eo_bound0 capacity_pos).
  split; fields; auto.
  - intros Hs Hdl. destruct (eo_inflight0 Hs Hdl) as (q0 & rest & Hq & Hc). rewrite Hdl in Hp.
    destruct (placed_inflight e _ _ _ _ Hp) as (q1 & r1 & r2 & H1 & ->); [by rewrite Hq|].
    rewrite Hq in H1. injection H1 as -> ->. eauto.
  - intros H1 H2. apply Hd in H1. congruence.
Qed.

Lemma enqueued_ok e ev cls e' ok owed : entry_ok e -> enqueue given e ev cls = (e', ok, owed) -> entry_ok e'.
Proof.
  intros Hok. unfold enqueue, PlaceLocked.
  destruct (place _ _ _ _ _) as [q p] eqn:Ep.
  assert (Hno : p <> kQueued -> with_queue q e = e).
  { intros Hn. destruct (place_refused _ _ _ _ _ _ _ Ep Hn) as (-> & _). by destruct e. }
  destruct (detached e) eqn:Ed.
  - destruct (queue_while_detached (options_ given)) eqn:Eq; cbn [negb]; [|by intros [= <- _ _]].
    destruct p; intros [= <- _ _]; [|by rewrite Hno..].
    apply (placed_ok e q ev cls Hok Ep); [done|]. intros Hs. apply (eo_detached _ Hok) in Ed. congruence.
  - destruct (stopping e) eqn:Es; [by intros [= <- _ _]|].
    destruct p; [|intros [= <- _ _]; by rewrite Hno..]. intros [= <- _ _]. fields.
    destruct (async_mode e) eqn:Ea; cbn [andb]; [|by apply (placed_ok e q ev cls Hok Ep); congruence].
    destruct (delivering e) eqn:Edl; cbn [negb].
    + rewrite <- Edl in Ep. apply (placed_ok e q ev cls Hok Ep); congruence.
    + pose proof (place_length _ _ _ _ _ _ _ Ep (eo_bound _ Hok) capacity_pos).
      apply claimed_ok; fields; try congruence; try done.
      * apply length_zero_iff_nil. rewrite (eo_chains _ Hok). by rewrite Edl.
      * by apply (eo_one _ Hok).
      * intros Hx. apply (eo_fresh _ Hok) in Hx. congruence.
Qed.

Lemma delivering_writer e : entry_ok e -> delivering e = true -> writer e = NoThread.
Proof. intros [] H. auto. Qed.

(** The one chain there can be. *)
Lemma the_chain e k ev : entry_ok e -> chains e !! k = Some ev ->
  k = O /\ chains e = [ev] /\ delivering e = true /\ async_mode e = true /\ writer e = NoThread.
Proof.
  intros Hok Hk. pose proof (eo_chains _ Hok) as Hc. pose proof (lookup_lt_Some _ _ _ Hk) as Hlt.
  destruct (delivering e) eqn:Ed; [|lia]. destruct (chains e) as [|c [|? ?]]; try done.
  destruct k; [|done]. injection Hk as ->. split; [done|]. split; [done|]. split; [done|].
  split; [by apply eo_async|by apply delivering_writer].
Qed.

Lemma chain_ok e k ev r : entry_ok e -> chains e !! k = Some ev ->
  entry_ok (chain_completed r (with_chains (delete k (chains e)) e)).
Proof.
  intros Hok Hk. destruct (the_chain _ _ _ Hok Hk) as (-> & Hc & Hd & Ha & Hw). rewrite Hc. cbn [delete list_delete].
  destruct Hok. pose proof len_nil_le as Hnil.
  destruct r; cbn [chain_completed].
  - apply claimed_ok; fields; try done.
    + unfold len in *. rewrite length_drop. lia.
    + intros H1 H2. by rewrite eo_dropped0.
  - fields. rewrite Hw. cbn [joinable negb]. rewrite andb_true_r.
    destruct (stopping e) eqn:Es; cbn [negb]; split; fields; auto; try congruence;
      try (intros [?|?]; congruence); rewrite ?Es in *; auto.
    intros Hx. by apply eo_fresh0 in Hx.
  - unfold delivery_failed. fields. destruct (detached e) eqn:Ed; split; fields; auto; try congruence.
Qed.

Lemma writer_ok e l e' a : entry_ok e -> entry_step given a e l e' -> entry_ok e'.
Proof.
  intros Hok H. induction H as [e|e l e' H IH Hd|e id|e n|e id d Hd|e id h async Hd Hq|e id Hd
    |e ev cls e' ok owed H|e Hw Hs|e q rest Hw Hs Hq|e ev Hw|e ev Hw|e Hw|e Hw|e k ev r Hk].
  - done.
  - apply reaped_ok; auto.
  - by apply stopped_ok.
  - by apply stopped_ok.
  - by apply detached_ok.
  - by apply resumed_ok.
  - done.
  - by eapply enqueued_ok.
  - destruct Hok. split; fields; auto; try congruence.
    + intros Ha. apply eo_one0 in Ha. congruence.
    + intros Hx. destruct (eo_done0 Hx); congruence.
  - destruct Hok. assert (Ha : async_mode e = false) by (destruct (async_mode e); [by rewrite eo_one0 in Hw|done]).
    assert (Hdl : delivering e = false) by (destruct (delivering e); [by rewrite eo_async0 in Ha|done]).
    rewrite Hq, len_cons in *. split; fields; auto; try congruence; try lia.
    + intros Hx. destruct (eo_done0 Hx); congruence.
    + intros [?|?]; congruence.
    + eauto.
    + intros Hx. apply eo_detached0 in Hx. congruence.
  - destruct Hok. split; fields; auto; try congruence.
    + intros Ha. apply eo_one0 in Ha. congruence.
    + intros Hx. destruct (eo_done0 Hx); congruence.
    + intros [?|?]; congruence.
  - destruct Hok. pose proof len_nil_le.
    assert (Ha : async_mode e = false) by (destruct (async_mode e); [by rewrite eo_one0 in Hw|done]).
    unfold delivery_failed. fields. destruct (detached e) eqn:Ed; split; fields; auto; try congruence;
      intros Hx; destruct (eo_done0 Hx); congruence.
  - by apply reaped_ok; [|apply eo_ended].
  - destruct Hok. split; fields; auto; try congruence.
    + intros Ha. apply eo_one0 in Ha. congruence.
    + intros Hs. rewrite eo_exit0 in Hs by auto. done.
  - by eapply chain_ok.
Qed.

Lemma entry_run_ok a l e : entry_run given SupportsAsync a l e -> entry_ok e.
Proof. induction 1; [apply added_ok|by eapply writer_ok]. Qed.

(** ** Order *)

Definition accepted_event (a : nat) (f : Effect) : option Tx :=
  match f with Accepted b ev _ => if Nat.eqb a b then Some ev else None | _ => None end.
Definition sent_event (a : nat) (f : Effect) : option Tx :=
  match f with Sent b _ ev => if Nat.eqb a b then Some ev else None | _ => None end.

(** The events entry [a] took on, and those its sessions were sent. *)
Definition accepted (a : nat) (l : list Effect) : list Tx := omap (accepted_event a) l.
Definition sent (a : nat) (l : list Effect) : list Tx := omap (sent_event a) l.

Definition in_hand (e : Entry) : list Tx := match writer e with InSend ev => [ev] | _ => [] end.

(** [R] marks events that are always sent as reliable ones. *)
Variable R : Tx -> bool.

Definition marked (l : list Tx) : list Tx := filter (fun ev => R ev = true) l.

Definition honest (a : nat) (f : Effect) : Prop :=
  match f with Accepted b ev cls => a = b -> R ev = true -> kind cls = kReliable | _ => True end.

Definition class_ok (q : Queued Tx) : Prop := R (event q) = true -> is_reliable q = true.

Lemma marked_app l l' : marked (l ++ l') = marked l ++ marked l'.
Proof. apply filter_app. Qed.

Lemma marked_not ev : R ev = false -> marked [ev] = [].
Proof. intros H. unfold marked. by rewrite filter_cons_False, filter_nil by congruence. Qed.

Definition marks (l : list (Queued Tx)) : list Tx := marked (event <$> l).

Lemma marks_app l l' : marks (l ++ l') = marks l ++ marks l'.
Proof. unfold marks. by rewrite fmap_app, marked_app. Qed.

Lemma marks_cons q l : marks (q :: l) = marked [event q] ++ marks l.
Proof. apply (marks_app [q] l). Qed.

Lemma unreliable_unmarked q : class_ok q -> is_reliable q = false -> marked [event q] = [].
Proof. intros Hq Hr. apply marked_not. destruct (R (event q)) eqn:E; [|done]. apply Hq in E. congruence. Qed.

(** A queued event joins the marked ones at the end; no marked one leaves. *)
Lemma place_marked d queue ev cls q :
  place capacity d queue ev cls = (q, kQueued) -> Forall class_ok queue ->
  (R ev = true -> kind cls = kReliable) ->
  marks q = marks queue ++ marked [ev] /\ Forall class_ok q.
Proof.
  intros H%place_queued Hc Hev. rewrite <- (front_pending d queue) in Hc. rewrite <- (front_pending d queue) at 1.
  assert (Hnew : class_ok (mkQueued ev cls)) by (intros HR; apply bool_decide_eq_true_2; auto).
  inversion H as [pre x post Hk Hp Hx Hf|pre x post Hp Hx Hf|]; subst q; rewrite ?Hp in *.
  - assert (Hne : marked [ev] = []).
    { apply marked_not. destruct (R ev) eqn:E; [|done]. rewrite Hev in Hk by done. done. }
    apply Forall_app in Hc as [Hc1 [Hc2 [Hcx Hc3]%Forall_cons]%Forall_app]. apply coalesces_not_reliable in Hx.
    rewrite !marks_app, !marks_cons, Hne, (unreliable_unmarked x Hcx Hx). cbn [replace_event event]. rewrite Hne.
    rewrite app_nil_r. split; [done|]. apply Forall_app; split; [done|]. apply Forall_app; split; [done|].
    constructor; [|done]. intros HR. cbn in HR. rewrite Hev in Hk by done. done.
  - apply Forall_app in Hc as [Hc1 [Hc2 [Hcx Hc3]%Forall_cons]%Forall_app]. apply droppable_not_reliable in Hx.
    rewrite !marks_app, !marks_cons, (unreliable_unmarked x Hcx Hx). cbn [event]. unfold marks at 4. cbn [fmap list_fmap].
    rewrite app_nil_l, <- !app_assoc. split; [|repeat (apply Forall_app; split; [done|]); by constructor].
    do 3 f_equal. unfold marked. by rewrite app_nil_r.
  - rewrite !marks_app, marks_cons. cbn [event]. unfold marks at 3. cbn [fmap list_fmap].
    unfold marked at 2. rewrite filter_nil, app_nil_r, <- !app_assoc.
    split; [done|]. apply Forall_app in Hc as [Hc1 Hc2].
    repeat (apply Forall_app; split; [done|]). by constructor.
Qed.

(** The marked events sent, in hand and queued are accepted ones, in order; an
    event in flight is the front of the queue, unless the queue was cleared
    under it. *)
Definition ordered (e : Entry) (D A : list Tx) : Prop :=
  match chains e with
  | [] => sublist (D ++ marked (in_hand e) ++ marks (queue e)) A
  | c :: _ =>
    ((exists q rest, queue e = q :: rest /\ event q = c) /\ sublist (D ++ marks (queue e)) A)
    \/ sublist (D ++ marked [c] ++ marks (queue e)) A
  end.

Lemma ordered_same e e' D A :
  chains e' = chains e -> in_hand e' = in_hand e -> queue e' = queue e -> ordered e D A -> ordered e' D A.
Proof. intros Hc Hh Hq. unfold ordered. by rewrite Hc, Hh, Hq. Qed.

Lemma sublist_drop_mid (l1 l2 l3 A : list Tx) : sublist (l1 ++ l2 ++ l3) A -> sublist (l1 ++ l3) A.
Proof. intros H. etrans; [|exact H]. apply sublist_app; [done|]. by apply sublist_inserts_l. Qed.

Lemma sublist_drop_tail (l1 l2 A : list Tx) : sublist (l1 ++ l2) A -> sublist l1 A.
Proof. intros H. etrans; [|exact H]. by apply sublist_inserts_r. Qed.

(** Everything still queued or in hand, without the event in flight. *)
Lemma ordered_rest e D A :
  in_hand e = [] \/ chains e = [] -> ordered e D A -> sublist (D ++ marked (in_hand e) ++ marks (queue e)) A.
Proof.
  unfold ordered. destruct (chains e) as [|c l]; [done|]. intros [Hh|]; [|done]. rewrite Hh.
  intros [[_ H]|H]; [done|]. by apply sublist_drop_mid in H.
Qed.

Lemma ordered_clear e e' D A :
  in_hand e = [] \/ chains e = [] -> chains e' = chains e -> in_hand e' = in_hand e \/ in_hand e' = [] ->
  queue e' = [] -> ordered e D A -> ordered e' D A.
Proof.
  intros Hx Hc Hh Hq H. unfold ordered. rewrite Hc, Hq. unfold ordered in H. destruct (chains e) as [|c l].
  - change (marks []) with (@nil Tx). rewrite app_nil_r. destruct Hh as [-> | ->].
    + rewrite app_assoc in H. by apply sublist_drop_tail in H.
    + rewrite app_nil_r. by apply sublist_drop_tail in H.
  - right. change (marks []) with (@nil Tx). rewrite app_nil_r. destruct H as [[(q & rest & Hqq & Hev) H]|H].
    + rewrite Hqq, marks_cons, Hev, app_assoc in H. by apply sublist_drop_tail in H.
    + rewrite app_assoc in H. by apply sublist_drop_tail in H.
Qed.

Lemma ordered_claim e D A :
  chains e = [] -> in_hand e = [] -> sublist (D ++ marks (queue e)) A -> ordered (ClaimLocked e) D A.
Proof.
  intros Hc Hh H. unfold ClaimLocked, ordered. destruct (queue e) as [|q rest] eqn:Eq; [|destruct (stopping e)];
    cbn [with_chains with_delivering chains queue]; rewrite Hc; cbn [app].
  - change (in_hand (with_delivering false e)) with (in_hand e). by rewrite Hh, Eq.
  - change (in_hand (with_delivering false e)) with (in_hand e). by rewrite Hh, Eq.
  - left. rewrite Eq. eauto.
Qed.

(** Events taken on join both ends of the order. *)
Lemma sublist_accept (l A n : list Tx) : sublist l A -> sublist (l ++ n) (A ++ n).
Proof. intros H. by apply sublist_app. Qed.

Lemma enqueued_ordered e ev cls e' ok owed D A :
  entry_ok e -> Forall class_ok (queue e) -> (ok = true -> R ev = true -> kind cls = kReliable) ->
  enqueue given e ev cls = (e', ok, owed) -> ordered e D A ->
  Forall class_ok (queue e') /\ ordered e' D (if ok then A ++ marked [ev] else A).
Proof.
  intros Hok Hc Hev H Ho.
  assert (Hh : in_hand e = [] \/ chains e = []).
  { pose proof (eo_chains _ Hok) as Hl. destruct (delivering e) eqn:Ed.
    - left. unfold in_hand. by rewrite (delivering_writer _ Hok Ed).
    - right. by apply length_zero_iff_nil. }
  revert H. unfold enqueue, PlaceLocked. destruct (place _ _ _ _ _) as [q p] eqn:Ep.
  assert (Hno : p <> kQueued -> with_queue q e = e).
  { intros Hn. destruct (place_refused _ _ _ _ _ _ _ Ep Hn) as (-> & _). by destruct e. }
  assert (Hq : p = kQueued -> (R ev = true -> kind cls = kReliable) ->
    Forall class_ok q /\ ordered (with_queue q e) D (A ++ marked [ev])
    /\ (chains e = [] -> in_hand e = [] -> sublist (D ++ marks q) (A ++ marked [ev]))).
  { intros -> Hr. pose proof (place_marked _ _ _ _ _ Ep Hc Hr) as [Hm Hcq]. split; [done|].
    unfold ordered in *. cbn [with_queue chains queue]. change (in_hand (with_queue q e)) with (in_hand e).
    rewrite Hm. destruct (chains e) as [|c l] eqn:Ec.
    - rewrite !app_assoc in *. split; [by apply sublist_accept|]. intros _ Hx. rewrite Hx in Ho.
      cbn in Ho. rewrite app_nil_r in Ho. by apply sublist_accept.
    - split; [|done]. destruct Ho as [[(q0 & rest & Hqe & He) Ho]|Ho].
      + left. split; [|rewrite app_assoc; by apply sublist_accept].
        assert (Hdl : delivering e = true) by (pose proof (eo_chains _ Hok) as Hl; rewrite Ec in Hl; by destruct (delivering e)).
        rewrite Hdl in Ep. destruct (placed_inflight e _ _ _ _ Ep) as (q1 & r1 & r2 & H1 & ->); [by rewrite Hqe|].
        rewrite Hqe in H1. injection H1 as -> ->. eauto.
      + right. rewrite !app_assoc in *. by apply sublist_accept. }
  destruct (detached e).
  - destruct (negb _); [by intros [= <- <- _]|].
    destruct p; intros [= <- <- _]; [destruct Hq as (? & ? & _); auto|by rewrite Hno..].
  - destruct (stopping e); [by intros [= <- <- _]|].
    destruct p; intros [= <- <- _]; [|by rewrite Hno..]. destruct Hq as (H1 & H2 & H3); [done|auto|].
    destruct (async_mode _ && _) eqn:Ea; [|done]. apply andb_prop in Ea as [Ea Ed%negb_true_iff]. fields.
    split; [by destruct (ClaimLocked_frame (with_queue q e)) as (_ & _ & _ & _ & _ & _ & ->)|].
    pose proof (eo_chains _ Hok) as Hl. rewrite Ed in Hl. apply length_zero_iff_nil in Hl.
    assert (Hi : in_hand e = []) by (unfold in_hand; by rewrite (eo_one _ Hok)).
    apply ordered_claim; [done|done|]. by apply H3.
Qed.

Lemma offered_app a l l' : accepted a (l ++ l') = accepted a l ++ accepted a l'.
Proof. apply omap_app. Qed.

Lemma sent_app a l l' : sent a (l ++ l') = sent a l ++ sent a l'.
Proof. apply omap_app. Qed.

Lemma chain_ordered e k ev r D A :
  entry_ok e -> chains e !! k = Some ev -> Forall class_ok (queue e) -> ordered e D A ->
  let e' := chain_completed r (with_chains (delete k (chains e)) e) in
  Forall class_ok (queue e') /\ ordered e' (D ++ match r with SendOk => marked [ev] | _ => [] end) A.
Proof.
  intros Hok Hk Hc Ho. destruct (the_chain _ _ _ Hok Hk) as (-> & Hch & Hd & Ha & Hw).
  assert (Hi : in_hand e = []) by (unfold in_hand; by rewrite Hw).
  cbn zeta. rewrite Hch. cbn [delete list_delete]. set (e0 := with_chains [] e).
  assert (Hrest : sublist (D ++ marks (queue e)) A).
  { pose proof (ordered_rest e D A (or_introl Hi) Ho) as H. by rewrite Hi in H. }
  unfold ordered in Ho. rewrite Hch in Ho. destruct r; cbn [chain_completed].
  - set (e1 := with_queue _ e0).
    destruct (ClaimLocked_frame e1) as (_ & _ & _ & _ & _ & _ & Hq). rewrite Hq.
    split; [by apply Forall_drop|]. apply ordered_claim; [done|done|]. cbn [e1 with_queue queue e0 with_chains].
    destruct Ho as [[(q & rest & Hqe & He) Ho]|Ho].
    + rewrite Hqe in *. rewrite marks_cons, He in Ho. cbn [drop]. rewrite drop_0. by rewrite <- app_assoc.
    + destruct (queue e) as [|q rest]; cbn [drop]; rewrite ?drop_0, <- app_assoc; [done|].
      rewrite marks_cons, (app_assoc D) in Ho. apply sublist_drop_mid in Ho. by rewrite <- app_assoc in Ho.
  - rewrite app_nil_r. subst e0. fields. rewrite Hw. cbn [joinable negb]. rewrite andb_true_r.
    destruct (negb (stopping e)); (split; [exact Hc|]); unfold ordered, in_hand; fields; rewrite ?Hw; exact Hrest.
  - rewrite app_nil_r. subst e0. unfold delivery_failed. fields. destruct (detached e); unfold ordered, in_hand; fields; rewrite Hw.
    + split; [done|exact Hrest].
    + split; [done|]. cbn. rewrite app_nil_r. by apply sublist_drop_tail in Hrest.
Qed.

Lemma idle_hand e : entry_ok e -> in_hand e = [] \/ chains e = [].
Proof.
  intros Hok. pose proof (eo_chains _ Hok) as Hl. destruct (delivering e) eqn:Ed.
  - left. unfold in_hand. by rewrite (delivering_writer _ Hok Ed).
  - right. by apply length_zero_iff_nil.
Qed.

(** A running writer has no chain beside it. *)
Lemma writer_chains e : entry_ok e -> writer e <> NoThread -> chains e = [].
Proof.
  intros Hok Hw. pose proof (eo_chains _ Hok) as Hl. destruct (delivering e) eqn:Ed.
  - by rewrite (delivering_writer _ Hok Ed) in Hw.
  - by apply length_zero_iff_nil.
Qed.

Lemma resumed_ordered e h async D A :
  entry_ok e -> quiesced e = true -> Forall class_ok (queue e) -> ordered e D A ->
  Forall class_ok (queue (swap h async e)) /\ ordered (swap h async e) D A.
Proof.
  intros Hok [Hwr Hdl%negb_true_iff]%andb_prop Hc Ho.
  pose proof (eo_chains _ Hok) as Hl. rewrite Hdl in Hl. apply length_zero_iff_nil in Hl. apply orb_prop in Hwr.
  assert (Hi : in_hand e = []).
  { unfold in_hand. destruct Hwr as [Hwr|Hdn]; [by destruct (writer e)|]. by destruct (eo_done _ Hok Hdn) as [-> | ->]. }
  unfold ordered in Ho. rewrite Hl, Hi in Ho. unfold swap. destruct async.
  - match goal with |- context [ClaimLocked ?x] => set (e1 := x) end.
    split; [by destruct (ClaimLocked_frame e1) as (_ & _ & _ & _ & _ & _ & ->)|]. by apply ordered_claim.
  - split; [done|]. unfold ordered. fields. by rewrite Hl.
Qed.

Lemma taken_ordered e q rest D A :
  entry_ok e -> writer e = AtWait -> queue e = q :: rest -> ordered e D A ->
  ordered (with_writer (InSend (event q)) (with_queue rest e)) D A.
Proof.
  intros Hok Hw Hq. unfold ordered, in_hand. fields.
  rewrite (writer_chains e Hok), Hw, Hq, marks_cons by congruence. done.
Qed.

Lemma sent_ordered e ev D A :
  entry_ok e -> writer e = InSend ev -> ordered e D A -> ordered (with_writer AtWait e) (D ++ marked [ev]) A.
Proof.
  intros Hok Hw. unfold ordered, in_hand. fields. rewrite (writer_chains e Hok), Hw by congruence.
  by rewrite <- app_assoc.
Qed.

Lemma failed_ordered e ev D A :
  entry_ok e -> writer e = InSend ev -> Forall class_ok (queue e) -> ordered e D A ->
  let e' := with_writer AtExit (delivery_failed e) in Forall class_ok (queue e') /\ ordered e' D A.
Proof.
  intros Hok Hw Hc. unfold delivery_failed, ordered, in_hand. fields.
  destruct (detached e); fields; rewrite (writer_chains e Hok), Hw by congruence; intros Ho; (split; [done|]).
  - apply sublist_drop_mid in Ho. exact Ho.
  - cbn. rewrite app_nil_r. apply sublist_drop_tail in Ho. exact Ho.
Qed.

Lemma step_ordered a e l e' D A :
  entry_ok e -> entry_step given a e l e' -> Forall (honest a) l ->
  Forall class_ok (queue e) -> ordered e D A ->
  Forall class_ok (queue e') /\ ordered e' (D ++ marked (sent a l)) (A ++ marked (accepted a l)).
Proof.
  intros Hok H Hh Hc Ho. revert Hok Hh Hc Ho.
  assert (Hn : forall B : list Tx, B ++ marked [] = B) by apply app_nil_r.
  induction H as [e|e l e' H IH Hd|e id|e n|e id d Hd|e id h async Hd Hq|e id Hd
    |e ev cls e' ok owed H|e Hw Hs|e q rest Hw Hs Hq|e ev Hw|e ev Hw|e Hw|e Hw|e k ev r Hk]; intros Hok Hh Hc Ho;
    try (cbn [accepted sent omap list_omap accepted_event sent_event]; rewrite !Hn).
  - done.
  - destruct (IH Hok Hh Hc Ho) as [H1 H2]. split; [done|].
    pose proof (writer_ok _ _ _ _ Hok H) as Hok'. revert H2. apply ordered_same; try done.
    unfold in_hand. cbn. by destruct (eo_done _ Hok' Hd) as [-> | ->].
  - split; [constructor|]. pose proof (idle_hand e Hok). apply (ordered_clear e); auto.
  - assert (Hs : sent a (replicate (S n) (Torn a)) = [] /\ accepted a (replicate (S n) (Torn a)) = []).
    { clear. induction (S n) as [|m [IH1 IH2]]; [done|]. by cbn. }
    destruct Hs as [-> ->]. rewrite !Hn. split; [constructor|]. pose proof (idle_hand e Hok).
    apply (ordered_clear e); auto.
  - unfold detach_entry. pose proof (idle_hand e Hok). destruct (queue_while_detached _).
    + split; [done|]. revert Ho. by apply ordered_same.
    + split; [constructor|]. apply (ordered_clear e); auto.
  - by apply resumed_ordered.
  - done.
  - destruct (enqueued_ordered e ev cls e' ok owed D A Hok Hc) with (3 := Ho) as [H1 H2]; [|done|].
    + intros -> Hr. apply Forall_cons in Hh as [Hh _]. by apply Hh.
    + split; [done|]. destruct ok; cbn [accepted sent omap list_omap accepted_event sent_event];
        rewrite ?Nat.eqb_refl, !Hn; done.
  - split; [done|]. revert Ho. apply ordered_same; try done. unfold in_hand. cbn. by rewrite Hw.
  - split; [|by apply taken_ordered]. rewrite Hq in Hc. by apply Forall_cons in Hc as [_ Hc].
  - rewrite Nat.eqb_refl. split; [done|]. by apply sent_ordered.
  - by apply (failed_ordered e ev).
  - split; [done|]. revert Ho. apply ordered_same; try done. unfold in_hand. cbn. by rewrite Hw.
  - split; [done|]. revert Ho. apply ordered_same; try done. unfold in_hand. cbn. by rewrite Hw.
  - destruct (chain_ordered e k ev r D A Hok Hk Hc Ho) as [H1 H2]. split; [done|].
    destruct r; cbn [chain_effect accepted sent omap list_omap accepted_event sent_event] in *;
      rewrite ?Nat.eqb_refl, ?Hn, ?app_nil_r in *; done.
Qed.

Lemma entry_run_ordered a l e :
  entry_run given SupportsAsync a l e -> Forall (honest a) l ->
  Forall class_ok (queue e) /\ ordered e (marked (sent a l)) (marked (accepted a l)).
Proof.
  induction 1 as [id h async|l e l' e' Hr IH Hs]; intros Hh.
  - subst async. unfold ordered. destruct (async_delivery _ && _); (split; [constructor|apply sublist_nil_l]).
  - apply Forall_app in Hh as [Hh Hh']. destruct (IH Hh) as [Hc Ho].
    rewrite sent_app, offered_app, !marked_app. eapply step_ordered; try done. by eapply entry_run_ok.
Qed.

(** ** Nothing is lost while the session is live *)

(** Effects after which an entry's delivery may have stopped. *)
Definition disturbs (f : Effect) : bool :=
  match f with
  | Removed _ _ | Detached _ _ | Expired _ _ | SendFailed _ _ | Torn _ => true
  | _ => false
  end.

Definition intact (l : list Effect) : Prop := Forall (fun f => disturbs f = false) l.

Definition kept (a : nat) (l : list Effect) (e : Entry) : nat :=
  (length (marked (sent a l)) + length (marked (in_hand e)) + length (marks (queue e)))%nat.

Lemma length_marks_cons q l : length (marks (q :: l)) = (length (marked [event q]) + length (marks l))%nat.
Proof. by rewrite marks_cons, length_app. Qed.

Lemma enqueue_marks e ev cls e' ok owed :
  Forall class_ok (queue e) -> (ok = true -> R ev = true -> kind cls = kReliable) ->
  enqueue given e ev cls = (e', ok, owed) ->
  marks (queue e') = marks (queue e) ++ (if ok then marked [ev] else []).
Proof.
  intros Hc Hev. unfold enqueue, PlaceLocked. destruct (place _ _ _ _ _) as [q p] eqn:Ep.
  assert (Hno : p <> kQueued -> q = queue e) by (intros Hn; by destruct (place_refused _ _ _ _ _ _ _ Ep Hn)).
  assert (Hq : p = kQueued -> ok = true -> marks q = marks (queue e) ++ marked [ev]).
  { intros -> Ho. by apply (place_marked _ _ _ _ _ Ep Hc (Hev Ho)). }
  destruct (detached e).
  - destruct (negb _); [intros [= <- <- _]; by rewrite app_nil_r|].
    destruct p; intros [= <- <- _]; fields; [auto|by rewrite Hno, app_nil_r..].
  - destruct (stopping e); [intros [= <- <- _]; by rewrite app_nil_r|].
    destruct p; intros [= <- <- _]; fields; [|by rewrite Hno, app_nil_r..].
    destruct (_ && _); [|auto].
    destruct (ClaimLocked_frame (with_queue q e)) as (_ & _ & _ & _ & _ & _ & ->). auto.
Qed.

Lemma chain_kept e k ev r :
  entry_ok e -> chains e !! k = Some ev -> stopping e = false -> r <> SendError ->
  let e' := chain_completed r (with_chains (delete k (chains e)) e) in
  stopping e' = false /\ in_hand e' = [] /\ in_hand e = []
  /\ length (marks (queue e))
     = (match r with SendOk => length (marked [ev]) | _ => 0%nat end + length (marks (queue e')))%nat.
Proof.
  intros Hok Hk Hs Hr. destruct (the_chain _ _ _ Hok Hk) as (-> & Hch & Hd & Ha & Hw).
  destruct (eo_inflight _ Hok Hs Hd) as (q & rest & Hq & Hc). rewrite Hch in Hc. injection Hc as ->.
  unfold in_hand. destruct r; [| |done]; cbn [chain_completed].
  - match goal with |- context [ClaimLocked ?x] => set (e1 := x) end.
    destruct (ClaimLocked_frame e1) as (_ & -> & _ & _ & _ & -> & ->). subst e1. fields.
    rewrite Hw, Hq. cbn [drop]. by rewrite drop_0, length_marks_cons.
  - fields. rewrite Hs, Hw. cbn. fields. rewrite Hs. done.
Qed.

Lemma step_kept a l0 e l e' :
  entry_ok e -> entry_step given a e l e' -> Forall (honest a) l -> intact l -> Forall class_ok (queue e) ->
  stopping e = false -> kept a l0 e = length (marked (accepted a l0)) ->
  stopping e' = false /\ kept a (l0 ++ l) e' = length (marked (accepted a (l0 ++ l))).
Proof.
  intros Hok H Hh Hi Hc Hs Hk. unfold kept in *. rewrite sent_app, offered_app, !marked_app, !length_app.
  assert (Hz : length (marked []) = 0%nat) by done. revert Hok Hh Hi Hc Hs Hk.
  induction H as [e|e l e' H IH Hd|e id|e n|e id d Hd|e id h async Hd Hq|e id Hd
    |e ev cls e' ok owed H|e Hw Hs0|e q rest Hw Hs0 Hq|e ev Hw|e ev Hw|e Hw|e Hw|e k ev r Hk0];
    intros Hok Hh Hi Hc Hs Hk;
    try (apply Forall_cons in Hi as [Hi _]; discriminate Hi).
  - split; [done|]. simpl. lia.
  - destruct (IH Hok Hh Hi Hc Hs Hk) as [Hs' _]. pose proof (writer_ok _ _ _ _ Hok H) as Hok'.
    apply (eo_fresh _ Hok') in Hd. congruence.
  - apply (eo_detached _ Hok) in Hd. congruence.
  - assert (Hev : ok = true -> R ev = true -> kind cls = kReliable).
    { intros -> Hr. apply Forall_cons in Hh as [Hh _]. by apply Hh. }
    destruct (enqueue_frame given e ev cls e' ok owed H) as (_ & Hst & _ & _ & _ & Hwr).
    split; [congruence|]. rewrite (enqueue_marks _ _ _ _ _ _ Hc Hev H), length_app. unfold in_hand in *. rewrite Hwr.
    destruct ok; cbn [accepted sent omap list_omap accepted_event sent_event]; rewrite ?Nat.eqb_refl; simpl in *; lia.
  - congruence.
  - split; [done|]. unfold in_hand in *. fields. rewrite Hw, Hq, length_marks_cons in Hk. simpl in *. lia.
  - split; [done|]. cbn [accepted sent omap list_omap accepted_event sent_event]. rewrite Nat.eqb_refl.
    unfold in_hand in *. fields. rewrite Hw in Hk. simpl in *. lia.
  - rewrite (eo_exit _ Hok) in Hs by auto. done.
  - rewrite (eo_exit _ Hok) in Hs by auto. done.
  - assert (Hr : r <> SendError) by (intros ->; apply Forall_cons in Hi as [Hi _]; discriminate Hi).
    destruct (chain_kept e k ev r Hok Hk0 Hs Hr) as (H1 & H2 & H3 & H4). split; [done|].
    rewrite H2. rewrite H3 in Hk. destruct r; [| |done];
      cbn [chain_effect accepted sent omap list_omap accepted_event sent_event]; rewrite ?Nat.eqb_refl; simpl in *; lia.
Qed.

Lemma entry_run_kept a l e :
  entry_run given SupportsAsync a l e -> Forall (honest a) l -> intact l ->
  stopping e = false /\ kept a l e = length (marked (accepted a l)).
Proof.
  induction 1 as [id h async|l e l' e' Hr IH Hs]; intros Hh Hi.
  - subst async. by destruct (async_delivery _ && _).
  - apply Forall_app in Hh as [Hh Hh'], Hi as [Hi Hi']. destruct (IH Hh Hi) as [Hst Hk].
    eapply step_kept; try done; [by eapply entry_run_ok|]. by eapply entry_run_ordered.
Qed.

(** An entry's own part of the log says all there is to say about it. *)
Lemma accepted_proj a l : accepted a (proj a l) = accepted a l.
Proof.
  induction l as [|f l IH]; [done|]. change (f :: l) with ([f] ++ l).
  rewrite proj_app, !offered_app, IH. f_equal. unfold proj. destruct (about a f) eqn:E.
  - by rewrite filter_cons_True, filter_nil.
  - rewrite filter_cons_False, filter_nil by congruence. destruct f; try done. cbn in *. by rewrite E.
Qed.

Lemma sent_proj a l : sent a (proj a l) = sent a l.
Proof.
  induction l as [|f l IH]; [done|]. change (f :: l) with ([f] ++ l).
  rewrite proj_app, !sent_app, IH. f_equal. unfold proj. destruct (about a f) eqn:E.
  - by rewrite filter_cons_True, filter_nil.
  - rewrite filter_cons_False, filter_nil by congruence. destruct f; try done. cbn in *. by rewrite E.
Qed.

Lemma proj_Forall a (P : Effect -> Prop) l : Forall P l -> Forall P (proj a l).
Proof. intros H. rewrite Forall_forall in *. intros f [_ Hf]%list_elem_of_filter. by apply H. Qed.
End delivery.

(** ** Claims *)

(** a registered session's delivery never stalls, doubles or grows without
    bound.  In every reachable state each entry's queue holds at most the
    configured capacity (at least one); at most one event is being sent for it,
    by its writer thread or by a completion chain, never both; and while it is
    not stopping, a nonempty queue has somebody delivering it, a writer that
    will take the front or a chain whose event in flight is the front. *)
Theorem registry_delivers {Tx} (given : Options) (SupportsAsync : Handle -> bool) acts s log a
    (e : @Entry Tx) :
  run given SupportsAsync acts s log -> heap s !! a = Some e ->
  len (queue e) <= queue_capacity (options_ given)
  /\ (chains e = [] \/ (writer e = NoThread /\ exists ev, chains e = [ev]))
  /\ (stopping e = false -> queue e <> [] ->
      writer e = AtWait \/ (exists ev, writer e = InSend ev)
      \/ exists q rest, queue e = q :: rest /\ chains e = [event q])
  /\ (detached e = true -> stopping e = true).
Proof.
  intros Hr He. pose proof (run_entries _ _ _ _ _ Hr a) as H. rewrite He in H. apply entry_run_ok in H.
  split; [apply H|]. split.
  - pose proof (eo_chains _ _ H) as Hl. destruct (delivering e) eqn:Ed.
    + right. split; [by apply (delivering_writer given)|]. destruct (chains e) as [|ev [|? ?]]; try done. by exists ev.
    + left. by apply length_zero_iff_nil.
  - split; [|apply H]. intros Hs Hq. destruct (async_mode e) eqn:Ea.
    + do 2 right. apply (eo_inflight _ _ H Hs). by apply (eo_flowing _ _ H).
    + destruct (eo_alive _ _ H Hs Ea); auto.
Qed.

(** A room of two sessions, one delivered by a chain and one by a writer thread:
    a collision turns the chain into a writer, one session is detached with its
    queue retained and resumed, the other is removed. *)
Definition room : Options := mkOptions 2 false true 30 true true.

Definition room_async (h : Handle) : bool := Nat.even h.

Definition alice : bytes := lit "alice".
Definition bob : bytes := lit "bob".

Definition room_script : list (@Action nat) :=
  [Add alice 2%nat; Add bob 1%nat; Add alice 4%nat;
   BroadcastAll (fun _ => 10%nat) Reliable; CallStep 0%nat; CallStep 0%nat; CallStep 0%nat;
   SendTo alice 11%nat (Coalesce (lit "pos")); CallStep 0%nat; CallStep 0%nat;
   SendTo alice 12%nat (Coalesce (lit "pos")); CallStep 0%nat; CallStep 0%nat;
   SendTo alice 13%nat Reliable; CallStep 0%nat; CallStep 0%nat; CallStep 0%nat;
   ChainDone 0%nat 0%nat SendOk; ChainDone 0%nat 0%nat SendValidation; WriterTake 0%nat; WriterSent 0%nat true;
   WriterTake 1%nat; Detach alice; SendTo alice 14%nat Reliable; CallStep 0%nat; CallStep 0%nat;
   WriterTake 0%nat; WriterExit 0%nat; Tick 10; Resume alice 6%nat; ResumePass; ChainDone 0%nat 0%nat SendOk;
   Remove bob; WriterSent 1%nat true].

Lemma registry_delivers_witness :
  exists s log e, run room room_async room_script s log /\ heap s !! 0%nat = Some e
  /\ len (queue e) <= 2 /\ detached e = false.
Proof.
  destruct (exec room room_async room_script empty_registry []) as [[s log]|] eqn:E; [|by vm_compute in E].
  assert (Hr : run room room_async room_script s log)
    by (by apply (run_exec room room_async [] room_script empty_registry [] s log (run_nil _ _))).
  destruct (heap s !! 0%nat) as [e|] eqn:He; [|vm_compute in E; injection E as <- <-; by vm_compute in He].
  exists s, log, e. split; [done|]. split; [done|].
  split; [apply (registry_delivers room room_async room_script s log 0%nat e Hr He)|].
  vm_compute in E. injection E as <- <-. vm_compute in He. by injection He as <-.
Defined.

(** C14: reliable events keep their order and are never invented or repeated.
    Take any set of events that is only ever sent as reliable ones.  For every
    entry, those already sent, the one in the writer's hand and those queued
    form, in this order, a subsequence of those accepted, whatever was
    coalesced, evicted, refused, detached and resumed in between; and as long
    as nothing removed, detached or broke the session they are exactly those
    accepted: nothing is lost. *)
Theorem registry_delivery_order {Tx} (given : Options) (SupportsAsync : Handle -> bool) (R : Tx -> bool)
    acts s log a (e : @Entry Tx) :
  run given SupportsAsync acts s log -> heap s !! a = Some e -> Forall (honest R a) log ->
  let delivered := marked R (sent a log) ++ marked R (in_hand e) ++ marked R (event <$> queue e) in
  sublist delivered (marked R (accepted a log))
  /\ (intact (proj a log) -> delivered = marked R (accepted a log)).
Proof.
  intros Hr He Hh. pose proof (run_entries _ _ _ _ _ Hr a) as H. rewrite He in H.
  pose proof (proj_Forall a _ _ Hh) as Hp. pose proof (entry_run_ok _ _ _ _ _ H) as Hok.
  destruct (entry_run_ordered _ _ R _ _ _ H Hp) as [Hc Ho]. rewrite sent_proj, accepted_proj in Ho.
  pose proof (ordered_rest R e _ _ (idle_hand _ _ Hok) Ho) as Hsub. cbn zeta. split; [exact Hsub|]. intros Hi.
  apply sublist_same_length; [exact Hsub|].
  destruct (entry_run_kept _ _ R _ _ _ H Hp Hi) as [_ Hk]. unfold kept in Hk.
  rewrite sent_proj, accepted_proj in Hk. rewrite <- Hk, !length_app. unfold marks. lia.
Qed.

Definition is_news (ev : nat) : bool := bool_decide (ev ∈ [10; 13; 14]%nat).

Lemma registry_delivery_order_witness :
  exists s log e, run room room_async room_script s log /\ heap s !! 0%nat = Some e
  /\ sublist (marked is_news (sent 0%nat log) ++ marked is_news (in_hand e) ++ marked is_news (event <$> queue e))
       (marked is_news (accepted 0%nat log))
  /\ marked is_news (accepted 0%nat log) = [10; 14]%nat.
Proof.
  destruct (exec room room_async room_script empty_registry []) as [[s log]|] eqn:E; [|by vm_compute in E].
  assert (Hr : run room room_async room_script s log)
    by (by apply (run_exec room room_async [] room_script empty_registry [] s log (run_nil _ _))).
  destruct (heap s !! 0%nat) as [e|] eqn:He; [|vm_compute in E; injection E as <- <-; by vm_compute in He].
  assert (Hh : Forall (honest is_news 0%nat) log).
  { vm_compute in E. injection E as <- <-. repeat (constructor; [by intros|]). constructor. }
  exists s, log, e. split; [done|]. split; [done|].
  split; [apply (registry_delivery_order room room_async is_news room_script s log 0%nat e Hr He Hh)|].
  vm_compute in E. injection E as <- <-. by vm_compute.
Defined.
