(* ===== verification/SessionLifecycle.v ===== *)
(** The life of a registered session: the registry refines an automaton per
    entry (added, parked by [Detach], live again by [Resume], gone by [Remove],
    expiry or teardown), every expiry is reported once, and a waiting [Resume]
    gets its turn. *)
From Stdlib Require Import ZArith Lia Strings.Byte.
From S2P Require Import Prelude Bytes OrdMap WebSocketPair SessionQueue SessionRegistry RegistryEntries SessionDelivery.

Local Open Scope Z_scope.

(** ** The specification *)

Inductive Phase := Fresh | Live (id : bytes) | Parked (id : bytes) | Gone.

Section life.
  Context {Tx : Type} (given : Options) (SupportsAsync : Handle -> bool).
  Notation Entry := (@Entry Tx).
  Notation Registry := (@Registry Tx).
  Notation Effect := (@Effect Tx).
  Notation step := (step given SupportsAsync).
  Notation run := (run given SupportsAsync).

(** One effect on the life of entry [a]; [None] is a life the contract
    forbids: a resume of a live or expired session, an expiry of a live one, a
    second removal, an event of an id the entry is not registered under. *)
Definition life_step (a : nat) (p : Phase) (f : Effect) : option Phase :=
  match f with
  | Added id b =>
    if Nat.eqb a b then match p with Fresh => Some (Live id) | _ => None end else Some p
  | Detached id b =>
    if Nat.eqb a b then
      match p with Live id' => if bytes_eqb id id' then Some (Parked id) else None | _ => None end
    else Some p
  | Resumed id b =>
    if Nat.eqb a b then
      match p with Parked id' => if bytes_eqb id id' then Some (Live id) else None | _ => None end
    else Some p
  | Removed id b =>
    if Nat.eqb a b then
      match p with Live id' | Parked id' => if bytes_eqb id id' then Some Gone else None | _ => None end
    else Some p
  | Expired id b =>
    if Nat.eqb a b then
      match p with Parked id' => if bytes_eqb id id' then Some Gone else None | _ => None end
    else Some p
  | Torn b =>
    if Nat.eqb a b then match p with Fresh => None | _ => Some Gone end else Some p
  | _ => Some p
  end.

Fixpoint life (a : nat) (p : Phase) (log : list Effect) : option Phase :=
  match log with
  | [] => Some p
  | f :: log => p' ← life_step a p f; life a p' log
  end.

(** What the registry holds for an entry in each phase. *)
Definition phase_at (a : nat) (s : Registry) (p : Phase) : Prop :=
  match p with
  | Fresh => heap s !! a = None
  | Live id => (id, a) ∈ sessions s /\ exists e, heap s !! a = Some e /\ detached e = false
  | Parked id => (id, a) ∈ sessions s /\ exists e, heap s !! a = Some e /\ detached e = true
  | Gone => is_Some (heap s !! a) /\ a ∉ snd <$> sessions s
  end.

Lemma life_app a p l l' : life a p (l ++ l') = p' ← life a p l; life a p' l'.
Proof.
  revert p. induction l as [|f l IH]; intros p; [done|]. cbn [app life].
  destruct (life_step a p f); [apply IH|done].
Qed.

Lemma life_step_other a p f : about a f = false -> life_step a p f = Some p.
Proof. destruct f; try done; cbn; by intros ->. Qed.

Lemma life_proj a p l : life a p (proj a l) = life a p l.
Proof.
  revert p. induction l as [|f l IH]; intros p; [done|]. unfold proj. rewrite filter_cons. fold (proj a l).
  cbn [life]. destruct (decide (about a f = true)) as [Ha|Ha]; [cbn [life]; destruct (life_step a p f); [apply IH|done]|].
  rewrite life_step_other by (by apply not_true_is_false). apply IH.
Qed.

(** ** How a step changes the map *)

Definition touches (f : Effect) : bool :=
  match f with
  | Added _ _ | Removed _ _ | Expired _ _ | Torn _ | Detached _ _ | Resumed _ _ => true
  | _ => false
  end.

Definition sessions_step (s : Registry) (new : list Effect) (s' : Registry) : Prop :=
  (forall id a, (id, a) ∈ sessions s'
     <-> Added id a ∈ new
         \/ ((id, a) ∈ sessions s /\ Removed id a ∉ new /\ Expired id a ∉ new /\ Torn a ∉ new))
  /\ forall id a, Removed id a ∈ new \/ Expired id a ∈ new \/ Detached id a ∈ new \/ Resumed id a ∈ new ->
     (id, a) ∈ sessions s.

Lemma untouched new : Forall (fun f => touches f = false) new -> forall f, touches f = true -> f ∉ new.
Proof. intros H f Hf Hin. rewrite Forall_forall in H. apply H in Hin. congruence. Qed.

Lemma sessions_frame s s' new :
  sessions s' = sessions s -> Forall (fun f => touches f = false) new -> sessions_step s new s'.
Proof.
  intros Hs Hn. pose proof (untouched _ Hn) as Hu. split; [|intros id a [H|[H|[H|H]]]; by apply Hu in H].
  intros id a. rewrite Hs. split; [intros H; right; split; [done|]; by split; [|split]; apply Hu|]. intros [H|[H _]]; [by apply Hu in H|done].
Qed.

Ltac frame := apply sessions_frame; [done|repeat (constructor; [done|]); try constructor].

Lemma add_sessions id h s s' new : reg_ok s -> do_Add given SupportsAsync id h s = Some (s', new) -> sessions_step s new s'.
Proof.
  intros Hok. unfold do_Add. destruct (heap_reap s) as (l & hp & Hr & ->).
  destruct (sm_lookup _ _) eqn:Ef; intros [= <- <-]; [frame|].
  cbn [with_retired with_heap sessions] in Ef. unfold sm_emplace. cbn [with_retired with_heap sessions heap]. rewrite Ef.
  split; [|intros id' a'; set_solver]. intros id' a'. cbn [with_sessions sessions].
  rewrite (sm_insert_fresh id (length hp) _ Ef), elem_of_cons, list_elem_of_singleton.
  split; [intros [[= -> ->]|H]; [by left|right; set_solver]|intros [[= -> ->]|[H _]]; auto].
Qed.

Lemma remove_sessions id s s' new : reg_ok s -> do_Remove id s = Some (s', new) -> sessions_step s new s'.
Proof.
  intros Hok. unfold do_Remove. destruct (sm_lookup _ _) as [a|] eqn:Ef; [|intros [= <- <-]; frame].
  destruct (heap s !! a) as [e|]; [|done]. intros [= <- <-].
  match goal with |- context [reap ?x] => set (s1 := x) end.
  destruct (heap_reap s1) as (l & hp & Hr & ->).
  assert (Hs : sessions s1 = sm_erase id (sessions s)) by (subst s1; by destruct (joinable _)).
  pose proof (ro_sorted _ Hok) as Hsort. apply (sm_lookup_elem _ _ _ Hsort) in Ef as Hin.
  split; cbn [with_retired with_heap sessions].
  - intros id' a'. rewrite Hs, sm_erase_filter, list_elem_of_filter by done. cbn [fst]. split.
    + intros [Hne H]. right. set_solver.
    + intros [H|(H & Hn & _)]; [set_solver|]. split; [|done]. intros ->. apply Hn.
      apply (sm_lookup_elem _ _ _ Hsort) in H. rewrite H in Ef. injection Ef as ->. set_solver.
  - intros id' a' H. assert (Hx : Removed id' a' = @Removed Tx id a) by set_solver. by injection Hx as -> ->.
Qed.

Lemma id_of_in a s : (exists id, (id, a) ∈ sessions s) -> (@id_of Tx a s, a) ∈ sessions s.
Proof.
  intros [id Hin]. unfold id_of.
  assert (Hf : (id, a) ∈ filter (fun x => snd x = a) (sessions s)) by (by apply list_elem_of_filter).
  destruct (filter _ _) as [|[id' a'] l] eqn:E; [by apply elem_of_nil in Hf|].
  assert (Hx : (id', a') ∈ filter (fun x => snd x = a) (sessions s)) by (rewrite E; set_solver).
  apply list_elem_of_filter in Hx as [Ha Hx]. simpl in Ha. by subst a'.
Qed.

Lemma expire_sessions limit s s' new : reg_ok s -> expire limit s = Some (s', new) -> sessions_step s new s'.
Proof.
  intros Hok. unfold expire. destruct (TakeExpiredLocked _ _ _) as [[kept expired] retire] eqn:Et.
  apply take_expired_spec in Et as (Hk & Hx & _).
  assert (Hel : forall id a, Expired id a ∈ ((fun x => @Expired Tx (fst x) (snd x)) <$> expired)
      <-> (id, a) ∈ sessions s /\ due limit (heap s) (id, a) = true).
  { intros id a. rewrite list_elem_of_fmap, Hx. split.
    - intros ([id' a'] & [= -> ->] & H%list_elem_of_filter). tauto.
    - intros [H Hd]. exists (id, a). split; [done|]. by apply list_elem_of_filter. }
  assert (Hno : forall f, touches f = true -> (forall id a, f <> Expired id a) ->
      f ∉ ((fun x => @Expired Tx (fst x) (snd x)) <$> expired)).
  { intros f _ Hf Hin. apply list_elem_of_fmap in Hin as ([id' a'] & -> & _). by destruct (Hf id' a'). }
  destruct expired as [|x expired]; [intros [= <- <-]; frame|].
  match goal with |- context [reap ?x] => set (s1 := x) end.
  destruct (heap_reap s1) as (l & hp & Hr & ->). intros [= <- <-].
  split; cbn [with_firing with_retired with_heap sessions s1 with_sessions].
  - intros id a. rewrite Hk, list_elem_of_filter. split.
    + intros [Hd H]. right. split; [done|]. split; [by apply Hno|]. split; [|by apply Hno].
      intros Hin. apply Hel in Hin as [_ Hin]. congruence.
    + intros [H|(H & _ & Hn & _)]; [by apply Hno in H|]. split; [|done].
      apply not_true_is_false. intros Hd. by apply Hn, Hel.
  - intros id a [H|[H|[H|H]]]; [by apply Hno in H| |by apply Hno in H..]. by apply Hel.
Qed.

Lemma teardown_sessions s s' new : do_Teardown s = Some (s', new) -> sessions_step s new s'.
Proof.
  unfold do_Teardown. intros [= <- <-]. split; cbn [with_joining with_retired with_sessions with_heap sessions].
  - intros id a. split; [intros H; by apply elem_of_nil in H|].
    intros [H|(H & _ & _ & Hn)]; [apply list_elem_of_bind in H as (b & H & _); set_solver|].
    destruct Hn. apply list_elem_of_bind. exists a. split; [set_solver|].
    apply elem_of_app. left. change (map snd (sessions s)) with (snd <$> sessions s).
    by apply (list_elem_of_fmap_2 snd _ (id, a)).
  - intros id a H. exfalso. destruct H as [H|[H|[H|H]]]; apply list_elem_of_bind in H as (b & H & _); set_solver.
Qed.

Lemma resume_pass_sessions s s' new : reg_ok s -> do_ResumePass s = Some (s', new) -> sessions_step s new s'.
Proof.
  intros Hok H. apply bind_Some in H as ([[a h] async] & Hr & H). apply bind_Some in H as (e & _ & H).
  destruct (quiesced e); [|done]. injection H as <- <-.
  destruct (ro_resuming _ Hok _ _ _ Hr) as (id & e0 & Hin & _).
  pose proof (id_of_in a s (ex_intro _ id Hin)) as Hid. split.
  - intros id' a'. cbn [with_resuming put with_heap sessions]. split; [intros Hx; right; set_solver|]. set_solver.
  - intros id' a' Hx. assert (E : Resumed id' a' = @Resumed Tx (id_of a s) a) by set_solver. by injection E as -> ->.
Qed.

Ltac locked :=
  unfold locking;
  match goal with |- context [resuming ?s] => destruct (resuming s) eqn:?; [done|] end.

Lemma detach_sessions id s s' new : reg_ok s -> do_Detach given id s = Some (s', new) -> sessions_step s new s'.
Proof.
  intros Hok. unfold do_Detach. destruct (_ =? 0); [intros [= <- <-]; frame|].
  destruct (sm_lookup _ _) as [a|] eqn:Ef; [|intros [= <- <-]; frame].
  destruct (heap s !! a) as [e|]; [|done]. destruct (detached e); intros [= <- <-]; [frame|].
  apply (sm_lookup_elem _ _ _ (ro_sorted _ Hok)) in Ef. split; cbn [put with_heap sessions].
  - intros id' a'. split; [intros Hx; right; set_solver|]. set_solver.
  - intros id' a' Hx. assert (E : Detached id' a' = @Detached Tx id a) by set_solver. by injection E as -> ->.
Qed.

Lemma step_sessions a s s' new : reg_ok s -> step a s = Some (s', new) -> sessions_step s new s'.
Proof.
  intros Hok. destruct a; cbn [SessionRegistry.step].
  - destruct (_ <=? _); [|done]. intros [= <- <-]. frame.
  - locked. by apply add_sessions.
  - locked. by apply remove_sessions.
  - locked. by apply detach_sessions.
  - locked. unfold do_Resume. repeat (case_match; try done); intros [= <- <-]; frame.
  - by apply resume_pass_sessions.
  - locked. unfold do_SendTo. case_match; intros [= <- <-]; frame.
  - locked. intros [= <- <-]. frame.
  - locked. intros [= <- <-]. frame.
  - unfold do_CallStep. intros H. apply bind_Some in H as (c & _ & H).
    destruct (charged c) as [[id a]|].
    + apply bind_Some in H as (e & _ & [= <- <-]). apply sessions_frame; [done|].
      by destruct (has_on_slow_consumer _); repeat constructor.
    + destruct (todo c) as [|[[[id a] ev] cls] rest]; [injection H as <- <-; frame|].
      apply bind_Some in H as (e & _ & H). destruct (enqueue _ _ _ _) as [[e' ok] owed].
      injection H as <- <-. apply sessions_frame; [done|]. by destruct ok; repeat constructor.
  - locked. unfold do_Close. case_match; intros [= <- <-]; frame.
  - locked. unfold do_Kick. case_match; [done|]. case_match; intros [= <- <-]; frame.
  - locked. unfold do_CloseAll. intros [= <- <-]. apply sessions_frame; [done|].
    apply Forall_fmap, Forall_forall. done.
  - unfold do_WriterTake. intros H. apply bind_Some in H as (e & _ & H).
    repeat (case_match; try done); injection H as <- <-; frame.
  - unfold do_WriterSent. intros H. apply bind_Some in H as (e & _ & H).
    repeat (case_match; try done); injection H as <- <-; frame.
  - unfold do_WriterExit. intros H. apply bind_Some in H as (e & _ & H).
    repeat (case_match; try done); injection H as <- <-; frame.
  - unfold do_ChainDone. intros H. apply bind_Some in H as (e & _ & H). apply bind_Some in H as (ev & _ & H).
    injection H as <- <-. apply sessions_frame; [done|]. constructor; [by destruct r|constructor].
  - locked. by apply expire_sessions.
  - locked. by apply expire_sessions.
  - unfold do_Fire. intros H. apply bind_Some in H as (l & _ & H).
    destruct l; injection H as <- <-; [frame|]. apply sessions_frame; [done|].
    by destruct (has_on_expired _); repeat constructor.
  - locked. by apply teardown_sessions.
  - unfold do_Join. destruct (joining s); [done|]. intros H. apply bind_Some in H as (e & _ & H).
    repeat (case_match; try done); injection H as <- <-; frame.
Qed.

(** ** The refinement *)

(** The end of a life. *)
Definition ends (id : bytes) (a : nat) (l : list Effect) : Prop :=
  Removed id a ∈ l \/ Expired id a ∈ l \/ Torn a ∈ l.

Definition phase_of (id : bytes) (e : Entry) : Phase := if detached e then Parked id else Live id.

Lemma life_torn a p n : p <> Fresh -> life a p (replicate (S n) (Torn a)) = Some Gone.
Proof.
  intros Hp. cbn [replicate life life_step]. rewrite Nat.eqb_refl.
  assert (H : match p with Fresh => None | _ => Some Gone end = Some Gone) by (by destruct p).
  rewrite H. cbn [mbind option_bind]. clear. induction n as [|n IH]; [done|].
  cbn [replicate life life_step]. by rewrite Nat.eqb_refl.
Qed.

Lemma entry_step_life a e l e' id :
  entry_step given a e l e' ->
  (forall id', Removed id' a ∈ l \/ Expired id' a ∈ l \/ Detached id' a ∈ l \/ Resumed id' a ∈ l -> id' = id) ->
  (ends id a l /\ life a (phase_of id e) l = Some Gone)
  \/ (~ ends id a l /\ life a (phase_of id e) l = Some (phase_of id e')).
Proof.
  assert (Hb : bytes_eqb id id = true) by (by apply bool_decide_eq_true_2).
  assert (Hq : forall f, touches f = false -> ~ ends id a [f])
    by (intros f Hf [H|[H|H]]; apply list_elem_of_singleton in H; by subst f).
  assert (Hnil : ~ ends id a []) by (intros [H|[H|H]]; by apply elem_of_nil in H).
  induction 1 as [e|e l e' H IH Hd|e id0|e n|e id0 d Hd|e id0 h async Hd Hq0|e id0 Hd
    |e ev cls e' ok owed H|e Hw Hs|e q rest Hw Hs Hqe|e ev Hw|e ev Hw|e Hw|e Hw|e k ev r Hk]; intros Hid.
  - by right.
  - destruct (IH Hid) as [?|?]; [by left|by right].
  - rewrite (Hid id0) by set_solver. left. split; [left; set_solver|]. cbn [life life_step].
    unfold phase_of. rewrite Nat.eqb_refl. destruct (detached e); by rewrite Hb.
  - left. split; [do 2 right; set_solver|]. apply life_torn. unfold phase_of. by destruct (detached e).
  - rewrite (Hid id0) by set_solver. right. split; [intros [H|[H|H]]; set_solver|]. cbn [life life_step].
    unfold phase_of at 1. rewrite Nat.eqb_refl, Hd, Hb. unfold phase_of, detach_entry.
    by destruct (queue_while_detached _).
  - rewrite (Hid id0) by set_solver. right. split; [intros [H|[H|H]]; set_solver|]. cbn [life life_step].
    unfold phase_of at 1. rewrite Nat.eqb_refl, Hd, Hb. unfold phase_of, swap. destruct async; [|done].
    match goal with |- context [ClaimLocked ?x] => by destruct (ClaimLocked_frame x) as (-> & _) end.
  - rewrite (Hid id0) by set_solver. left. split; [right; left; set_solver|]. cbn [life life_step].
    unfold phase_of. by rewrite Nat.eqb_refl, Hd, Hb.
  - right. apply enqueue_frame in H as (Hd & _). unfold phase_of. rewrite Hd.
    destruct ok; (split; [by apply Hq|done]).
  - by right.
  - by right.
  - right. by split; [apply Hq|].
  - right. split; [by apply Hq|]. unfold phase_of, delivery_failed. cbn. by destruct (detached e) eqn:E; cbn; rewrite ?E.
  - by right.
  - by right.
  - right. split; [apply Hq; by destruct r|]. unfold phase_of. rewrite chain_detached. by destruct r.
Qed.

Lemma life_gone a l :
  Forall (fun f => touches f = false \/ exists b, f = Torn b) l -> life a Gone l = Some Gone.
Proof.
  induction 1 as [|f l Hf _ IH]; [done|]. cbn [life].
  assert (life_step a Gone f = Some Gone) as ->; [|done].
  destruct Hf as [Hf|[b ->]]; [by destruct f|]. cbn. by destruct (Nat.eqb a b).
Qed.

(** Two entries of the map with the same address are the same. *)
Lemma same_id (s : Registry) id id' a : reg_ok s -> (id, a) ∈ sessions s -> (id', a) ∈ sessions s -> id = id'.
Proof.
  intros Hok. pose proof (ro_nodup _ Hok) as Hn. induction (sessions s) as [|[i b] m IH]; [set_solver|].
  rewrite fmap_cons in Hn. apply NoDup_cons in Hn as [Hb Hn]. cbn in Hb.
  assert (Hin : forall j, (j, b) ∈ m -> False) by (intros j Hj; apply Hb; by apply (list_elem_of_fmap_2 snd _ (j, b))).
  rewrite !elem_of_cons. intros [E1|H1] [E2|H2].
  - congruence.
  - injection E1 as -> ->. by apply Hin in H2.
  - injection E2 as -> ->. by apply Hin in H1.
  - auto.
Qed.

Lemma ends_proj id a l : ends id a (proj a l) <-> ends id a l.
Proof.
  unfold ends, proj. rewrite !list_elem_of_filter. cbn [about]. rewrite Nat.eqb_refl. tauto.
Qed.

(** An entry is added once. *)
Lemma no_added a e (l : list Effect) e' : entry_step given a e l e' -> forall j, @Added Tx j a ∉ l.
Proof.
  induction 1; intros j Hj; try set_solver.
  - apply elem_of_replicate in Hj as [Hj _]. done.
  - destruct ok; set_solver.
  - destruct r; set_solver.
Qed.

Lemma registered_step a id s s' new act e :
  reg_ok s -> step act s = Some (s', new) -> (id, a) ∈ sessions s -> heap s !! a = Some e ->
  exists p', life a (phase_of id e) new = Some p' /\ phase_at a s' p'.
Proof.
  intros Hok Hst Hin He. pose proof (step_local _ _ _ _ _ _ Hok Hst a) as Hl. rewrite He in Hl.
  destruct (heap s' !! a) as [e'|] eqn:He'; [|done]. destruct (step_sessions _ _ _ _ Hok Hst) as [Hs Hfrom].
  pose proof (no_added a _ _ _ Hl) as Hadd.
  rewrite <- life_proj. destruct (entry_step_life a e (proj a new) e' id Hl) as [[Hend ->]|[Hend ->]].
  - intros id' H. apply (same_id s id' id a Hok); [|done]. apply Hfrom.
    destruct H as [H|[H|[H|H]]]; apply list_elem_of_filter in H as [_ H]; auto.
  - exists Gone. split; [done|]. split; [by eexists|]. intros ([j b] & -> & Hj)%list_elem_of_fmap_1. cbn [snd] in *.
    rewrite ends_proj in Hend. apply Hs in Hj as [Hj|(Hj & H1 & H2 & H3)].
    + apply (Hadd j). apply list_elem_of_filter. split; [apply Nat.eqb_refl|done].
    + assert (j = id) as -> by exact (same_id s j id b Hok Hj Hin). by destruct Hend as [?|[?|?]].
  - assert (Hin' : (id, a) ∈ sessions s').
    { apply Hs. right. split; [done|]. rewrite ends_proj in Hend. unfold ends in Hend. tauto. }
    eexists. split; [done|]. unfold phase_of. destruct (detached e') eqn:Ed; split; [done|eauto|done|eauto].
Qed.

Lemma phase_step a p s s' new act :
  reg_ok s -> step act s = Some (s', new) -> phase_at a s p ->
  exists p', life a p new = Some p' /\ phase_at a s' p'.
Proof.
  intros Hok Hst. destruct p as [|id|id|]; cbn [phase_at].
  - intros He. pose proof (step_local _ _ _ _ _ _ Hok Hst a) as Hl. rewrite He in Hl. rewrite <- life_proj.
    destruct (heap s' !! a) as [e'|] eqn:He'; [|rewrite Hl; by exists Fresh].
    destruct Hl as (id & Hp & Hd & _). rewrite Hp. exists (Live id). cbn [life life_step].
    rewrite Nat.eqb_refl. split; [done|]. split; [|eauto].
    apply (proj1 (step_sessions _ _ _ _ Hok Hst)). left.
    assert (H : Added id a ∈ proj a new) by (rewrite Hp; set_solver). by apply list_elem_of_filter in H as [_ H].
  - intros (Hin & e & He & Hd). replace (Live id) with (phase_of id e) by (unfold phase_of; by rewrite Hd).
    by eapply registered_step.
  - intros (Hin & e & He & Hd). replace (Parked id) with (phase_of id e) by (unfold phase_of; by rewrite Hd).
    by eapply registered_step.
  - intros [[e He] Hout]. pose proof (step_local _ _ _ _ _ _ Hok Hst a) as Hl. rewrite He in Hl.
    destruct (heap s' !! a) as [e'|] eqn:He'; [|done]. destruct (step_sessions _ _ _ _ Hok Hst) as [Hs Hfrom].
    assert (Hno : forall j, (j, a) ∉ sessions s)
      by (intros j Hj; apply Hout; by apply (list_elem_of_fmap_2 snd _ (j, a))).
    pose proof (no_added a _ _ _ Hl) as Hadd.
    exists Gone. rewrite <- life_proj. split.
    + apply life_gone, Forall_forall. intros f Hf. pose proof Hf as [Ha Hin]%list_elem_of_filter.
      destruct f; try (by left); cbn in Ha; apply Nat.eqb_eq in Ha as <-; [|exfalso; eapply Hno, Hfrom; eauto..|eauto].
      by apply Hadd in Hf.
    + split; [by eexists|]. intros ([j b] & -> & Hj)%list_elem_of_fmap_1. cbn [snd] in *.
      apply Hs in Hj as [Hj|(Hj & _)]; [|by apply Hno in Hj].
      apply (Hadd j). apply list_elem_of_filter. split; [apply Nat.eqb_refl|done].
Qed.

Lemma run_life acts s log a : run acts s log -> exists p, life a Fresh log = Some p /\ phase_at a s p.
Proof.
  induction 1 as [|acts s log act s' new Hr (p & Hp & Ha) Hs]; [by exists Fresh|].
  destruct (phase_step a p s s' new act (run_reg_ok _ _ _ _ _ Hr) Hs Ha) as (p' & Hp' & Ha').
  exists p'. split; [|done]. by rewrite life_app, Hp.
Qed.

(** ** Expiries are reported once *)

Definition expired_id (f : Effect) : option bytes := match f with Expired id _ => Some id | _ => None end.
Definition reported_id (f : Effect) : option bytes := match f with OnExpired id => Some id | _ => None end.

(** The ids whose grace ran out, and those [on_expired] was called for. *)
Definition expired_ids (l : list Effect) : list bytes := omap expired_id l.
Definition reported_ids (l : list Effect) : list bytes := omap reported_id l.

Definition expiry (f : Effect) : bool := match f with Expired _ _ | OnExpired _ => true | _ => false end.

Definition fires (s : Registry) (new : list Effect) (s' : Registry) : Prop :=
  expired_ids new ++ mjoin (firing s) ≡ₚ reported_ids new ++ mjoin (firing s').

Lemma fires_frame s s' new :
  firing s' = firing s -> Forall (fun f => expiry f = false) new -> fires s new s'.
Proof.
  intros Hf Hn. unfold fires. rewrite Hf.
  assert (expired_ids new = [] /\ reported_ids new = []) as [-> ->]; [|done].
  clear Hf. unfold expired_ids, reported_ids. induction Hn as [|f l H _ [IH1 IH2]]; [done|].
  destruct f; try done; cbn in *; by rewrite IH1, IH2.
Qed.

Ltac still := apply fires_frame; [done|repeat (constructor; [done|]); try constructor].

Lemma mjoin_perm (l l' : list (list bytes)) : l ≡ₚ l' -> mjoin l ≡ₚ mjoin l'.
Proof.
  induction 1 as [|x l l' _ IH|x y l|l l' l'' _ IH1 _ IH2]; [done|..].
  - change (x ++ mjoin l ≡ₚ x ++ mjoin l'). by rewrite IH.
  - change (y ++ x ++ mjoin l ≡ₚ x ++ y ++ mjoin l). by rewrite !app_assoc, (Permutation_app_comm y x).
  - by rewrite IH1.
Qed.

Lemma expire_fires limit s s' new : expire limit s = Some (s', new) -> fires s new s'.
Proof.
  unfold expire. destruct (TakeExpiredLocked _ _ _) as [[kept expired] retire].
  assert (Hids : forall m, expired_ids ((fun x => @Expired Tx (fst x) (snd x)) <$> m) = map fst m
                        /\ reported_ids ((fun x => @Expired Tx (fst x) (snd x)) <$> m) = []).
  { induction m as [|[id a] m [IH1 IH2]]; [done|]. split; cbn in *; [by f_equal|done]. }
  destruct (Hids expired) as [E1 E2].
  assert (Hf : forall s1, firing s1 = firing s ++ [map fst expired] ->
    fires s ((fun x => Expired (fst x) (snd x)) <$> expired) s1).
  { intros s1 Hs1. unfold fires. rewrite E1, E2, Hs1, join_app.
    assert (mjoin [map fst expired] = map fst expired) as -> by apply app_nil_r.
    rewrite app_nil_l. apply Permutation_app_comm. }
  destruct expired as [|x expired]; [intros [= <- <-]; still|].
  match goal with |- context [reap ?x] => set (s1 := x) end.
  destruct (heap_reap s1) as (l & hp & Hr & ->). intros [= <- <-]. by apply Hf.
Qed.

Lemma fire_fires i s s' new : has_on_expired (options_ given) = true ->
  do_Fire given i s = Some (s', new) -> fires s new s'.
Proof.
  intros Ho. unfold do_Fire. intros H. apply bind_Some in H as (l & Hl & H). rewrite Ho in H.
  pose proof (delete_Permutation _ _ _ Hl) as Hp. unfold fires.
  destruct l as [|id l]; injection H as <- <-; cbn [with_firing firing expired_ids reported_ids omap list_omap expired_id reported_id app].
  - by rewrite (mjoin_perm _ _ Hp).
  - rewrite (mjoin_perm _ _ Hp), (mjoin_perm (<[i:=l]> (firing s)) (l :: delete i (firing s))); [done|].
    rewrite insert_take_drop by (by eapply lookup_lt_Some). rewrite delete_take_drop. symmetry. apply Permutation_middle.
Qed.

Lemma step_fires a s s' new : has_on_expired (options_ given) = true ->
  step a s = Some (s', new) -> fires s new s'.
Proof.
  intros Ho. destruct a; cbn [SessionRegistry.step].
  - destruct (_ <=? _); [|done]. intros [= <- <-]. still.
  - locked. unfold do_Add. destruct (heap_reap s) as (l & hp & _ & ->). case_match; intros [= <- <-]; still.
  - locked. unfold do_Remove. case_match; [|intros [= <- <-]; still]. case_match; [|done]. intros [= <- <-].
    match goal with |- context [reap ?x] => set (s1 := x); destruct (heap_reap s1) as (l & hp & _ & ->) end.
    apply fires_frame; [|by repeat constructor]. subst s1. cbn. by case_match.
  - locked. unfold do_Detach. repeat (case_match; try done); intros [= <- <-]; still.
  - locked. unfold do_Resume. repeat (case_match; try done); intros [= <- <-]; still.
  - unfold do_ResumePass. intros H. apply bind_Some in H as ([[a h] async] & _ & H).
    apply bind_Some in H as (e & _ & H). case_match; [|done]. injection H as <- <-. still.
  - locked. unfold do_SendTo. case_match; intros [= <- <-]; still.
  - locked. intros [= <- <-]. still.
  - locked. intros [= <- <-]. still.
  - unfold do_CallStep. intros H. apply bind_Some in H as (c & _ & H).
    destruct (charged c) as [[id a]|].
    + apply bind_Some in H as (e & _ & [= <- <-]). apply fires_frame; [done|].
      by destruct (has_on_slow_consumer _); repeat constructor.
    + destruct (todo c) as [|[[[id a] ev] cls] rest]; [injection H as <- <-; still|].
      apply bind_Some in H as (e & _ & H). destruct (enqueue _ _ _ _) as [[e' ok] owed].
      injection H as <- <-. apply fires_frame; [done|]. by destruct ok; repeat constructor.
  - locked. unfold do_Close. case_match; intros [= <- <-]; still.
  - locked. unfold do_Kick. case_match; [done|]. case_match; intros [= <- <-]; still.
  - locked. unfold do_CloseAll. intros [= <- <-]. apply fires_frame; [done|]. by apply Forall_fmap, Forall_forall.
  - unfold do_WriterTake. intros H. apply bind_Some in H as (e & _ & H).
    repeat (case_match; try done); injection H as <- <-; still.
  - unfold do_WriterSent. intros H. apply bind_Some in H as (e & _ & H).
    repeat (case_match; try done); injection H as <- <-; still.
  - unfold do_WriterExit. intros H. apply bind_Some in H as (e & _ & H).
    repeat (case_match; try done); injection H as <- <-; still.
  - unfold do_ChainDone. intros H. apply bind_Some in H as (e & _ & H). apply bind_Some in H as (ev & _ & H).
    injection H as <- <-. apply fires_frame; [done|]. by destruct r; repeat constructor.
  - locked. apply expire_fires.
  - locked. apply expire_fires.
  - by apply fire_fires.
  - locked. unfold do_Teardown. intros [= <- <-]. apply fires_frame; [done|].
    apply Forall_forall. intros f Hf. apply list_elem_of_bind in Hf as (b & Hf & _). set_solver.
  - unfold do_Join. destruct (joining s); [done|]. intros H. apply bind_Some in H as (e & _ & H).
    repeat (case_match; try done); injection H as <- <-; still.
Qed.

Lemma run_fires acts s log : has_on_expired (options_ given) = true -> run acts s log ->
  expired_ids log ≡ₚ reported_ids log ++ mjoin (firing s).
Proof.
  intros Ho. induction 1 as [|acts s log act s' new Hr IH Hs]; [done|].
  apply (step_fires _ _ _ _ Ho) in Hs. unfold fires in Hs. unfold expired_ids, reported_ids in *.
  rewrite !omap_app, IH, <- !app_assoc. apply Permutation_app_head. rewrite Permutation_app_comm. exact Hs.
Qed.

(** ** A waiting [Resume] gets its turn *)

(** Steps of deliveries under way, and the swap: no call, no clock. *)
Definition delivery_action (a : @Action Tx) : bool :=
  match a with WriterTake _ | WriterSent _ _ | WriterExit _ | ChainDone _ _ _ | ResumePass => true | _ => false end.

(** From [s], deliveries under way let [Resume] swap in [h]. *)
Definition can_resume (a : nat) (h : Handle) (s : Registry) : Prop :=
  forall acts log, run acts s log ->
  exists acts' s' new id e, run (acts ++ acts') s' (log ++ new)
  /\ Forall (fun x => delivery_action x = true) acts' /\ resuming s' = None
  /\ Resumed id a ∈ new /\ (id, a) ∈ sessions s'
  /\ heap s' !! a = Some e /\ handle e = h /\ detached e = false.

Lemma can_resume_step a h act s s1 n1 :
  step act s = Some (s1, n1) -> delivery_action act = true -> can_resume a h s1 -> can_resume a h s.
Proof.
  intros Hs Hd H acts log Hr. destruct (H (acts ++ [act]) (log ++ n1)) as (acts' & s' & new & id & e & H1 & H2 & H3);
    [by eapply run_step|].
  exists (act :: acts'), s', (n1 ++ new), id, e. rewrite <- !app_assoc in H1. split; [done|].
  split; [by constructor|]. destruct H3 as (H4 & H5 & H6). split; [done|]. split; [set_solver|done].
Qed.

Lemma swap_handle h async (e : Entry) : handle (swap h async e) = h /\ detached (swap h async e) = false.
Proof.
  unfold swap. destruct async; [|done]. match goal with |- context [ClaimLocked ?x] =>
    destruct (ClaimLocked_frame x) as (-> & _ & _ & -> & _) end. done.
Qed.

Lemma resume_now a h async s e :
  resuming s = Some (a, h, async) -> heap s !! a = Some e -> quiesced e = true -> can_resume a h s.
Proof.
  intros Hre He Hq acts log Hr. pose proof (run_reg_ok _ _ _ _ _ Hr) as Hok.
  destruct (ro_resuming _ Hok _ _ _ Hre) as (id & e0 & Hin & _).
  exists [ResumePass], (with_resuming None (put a (swap h async e) s)), [Resumed (id_of a s) a], (id_of a s),
    (swap h async e).
  split; [eapply run_step; [exact Hr|]; cbn [SessionRegistry.step]; unfold do_ResumePass; rewrite Hre; cbn;
          rewrite He; cbn; by rewrite Hq|].
  split; [by constructor|]. split; [done|]. split; [set_solver|]. split; [apply (id_of_in a s); by exists id|].
  split; [|apply swap_handle]. cbn. apply list_lookup_insert_eq. by eapply lookup_lt_Some.
Qed.

Lemma put_lookup a e e' (s : Registry) : heap s !! a = Some e -> heap (put a e' s) !! a = Some e'.
Proof. intros H. cbn. apply list_lookup_insert_eq. by eapply lookup_lt_Some. Qed.

Lemma resume_exiting a h async s e :
  resuming s = Some (a, h, async) -> heap s !! a = Some e -> delivering e = false -> writer e = AtExit ->
  can_resume a h s.
Proof.
  intros Hre He Hd Hw. eapply (can_resume_step a h (WriterExit a)); [|done|].
  - cbn [SessionRegistry.step]. unfold do_WriterExit. rewrite He. cbn. rewrite Hw. done.
  - eapply (resume_now a h async); [done|by apply (put_lookup a e)|]. unfold quiesced. cbn. by rewrite Hd.
Qed.

Lemma resume_stopping a h async s e :
  resuming s = Some (a, h, async) -> heap s !! a = Some e -> delivering e = false -> stopping e = true ->
  writer e = AtWait -> can_resume a h s.
Proof.
  intros Hre He Hd Hs Hw. eapply (can_resume_step a h (WriterTake a)); [|done|].
  - cbn [SessionRegistry.step]. unfold do_WriterTake. rewrite He. cbn. rewrite Hw, Hs. done.
  - by eapply (resume_exiting a h async); [|apply (put_lookup a e)| |].
Qed.

Lemma resume_progress acts s log a h async :
  run acts s log -> resuming s = Some (a, h, async) -> can_resume a h s.
Proof.
  intros Hr Hre. pose proof (run_reg_ok _ _ _ _ _ Hr) as Hok.
  destruct (ro_resuming _ Hok _ _ _ Hre) as (id & e & Hin & He & Hdet).
  pose proof (run_entries _ _ _ _ _ Hr a) as Hrun. rewrite He in Hrun. apply entry_run_ok in Hrun as Heok.
  pose proof (eo_detached _ _ Heok Hdet) as Hst.
  destruct (delivering e) eqn:Hd.
  - pose proof (eo_chains _ _ Heok) as Hc. rewrite Hd in Hc. destruct (chains e) as [|ev [|? ?]] eqn:Ech; try done.
    eapply (can_resume_step a h (ChainDone a 0%nat SendOk)); [|done|].
    + cbn [SessionRegistry.step]. unfold do_ChainDone. rewrite He. cbn. rewrite Ech. done.
    + eapply (resume_now a h async); [done|by apply (put_lookup a e)|].
      unfold quiesced, chain_completed, ClaimLocked. cbn. rewrite Hst.
      pose proof (delivering_writer _ _ Heok Hd) as Hw.
      destruct (drop 1 (queue e)); cbn; by rewrite Hw.
  - destruct (writer e) eqn:Hw.
    + eapply (resume_now a h async); [done..|]. unfold quiesced. by rewrite Hw, Hd.
    + by eapply (resume_stopping a h async).
    + eapply (can_resume_step a h (WriterSent a true)); [|done|].
      * cbn [SessionRegistry.step]. unfold do_WriterSent. rewrite He. cbn. rewrite Hw. done.
      * by eapply (resume_stopping a h async); [|apply (put_lookup a e)| | |].
    + by eapply (resume_exiting a h async).
    + eapply (resume_now a h async); [done..|]. unfold quiesced.
      rewrite (eo_ended _ _ Heok Hw), Hd. by rewrite orb_true_r.
Qed.
End life.

(** ** Admission *)

Inductive Admission := kResumed | kAdded | kRefused.

Definition kMaxClock : Z := 2 ^ 63 - 1.
Definition ns_per_ms : Z := 1000000.
Definition kRetryInterval : Z := 50 * ns_per_ms.

(** The moment [ResumeOrAdd] gives up, on a 64-bit nanosecond clock. *)
Definition give_up_at (start deadline_ms : Z) : Z :=
  if deadline_ms >=? Z.quot (kMaxClock - start) ns_per_ms then kMaxClock
  else start + deadline_ms * ns_per_ms.

(** The retry loop: [attempt i] is whether the i-th [Resume] and [Add]
    succeed, [clock i] the time read after them; what it answers and the
    sleeps it took. *)
Fixpoint admission_loop (fuel : nat) (attempt : nat -> bool * bool) (clock : nat -> Z) (until : Z) (i : nat)
    : option (Admission * list Z) :=
  match fuel with
  | O => None
  | S fuel =>
    let '(resumed, added) := attempt i in
    if resumed then Some (kResumed, [])
    else if added then Some (kAdded, [])
    else if until <=? clock i then Some (kRefused, [])
    else
      '(r, sleeps) ← admission_loop fuel attempt clock until (S i);
      Some (r, Z.min kRetryInterval (until - clock i) :: sleeps)
  end.

Definition ResumeOrAdd (fuel : nat) (attempt : nat -> bool * bool) (clock : nat -> Z) (start deadline_ms : Z)
    : option (Admission * list Z) :=
  admission_loop fuel attempt clock (give_up_at start deadline_ms) 0.

Section admission.
  Context (attempt : nat -> bool * bool) (clock : nat -> Z) (until : Z).
  (** [sleep_for] sleeps at least as long as asked, on a steady clock. *)
  Hypothesis slept : forall i, clock i < until -> clock i + Z.min kRetryInterval (until - clock i) <= clock (S i).

Definition failed (i : nat) : Prop := attempt i = (false, false).

(** What the answer says of the attempts, the last being the one after the last sleep. *)
Definition admitted (i : nat) (r : Admission) (sleeps : list Z) : Prop :=
  (forall j, (j < length sleeps)%nat -> failed (i + j))
  /\ match r with
     | kResumed => fst (attempt (i + length sleeps)) = true
     | kAdded => attempt (i + length sleeps) = (false, true)
     | kRefused => failed (i + length sleeps) /\ until <= clock (i + length sleeps)
     end.

Lemma admission_loop_S fuel i :
  admission_loop (S fuel) attempt clock until i
  = let '(resumed, added) := attempt i in
    if resumed then Some (kResumed, [])
    else if added then Some (kAdded, [])
    else if until <=? clock i then Some (kRefused, [])
    else
      '(r, sleeps) ← admission_loop fuel attempt clock until (S i);
      Some (r, Z.min kRetryInterval (until - clock i) :: sleeps).
Proof. done. Qed.

Lemma admission_loop_total n i :
  until - clock i <= Z.of_nat n * kRetryInterval ->
  exists r sleeps, admission_loop (S n) attempt clock until i = Some (r, sleeps)
  /\ (length sleeps <= n)%nat /\ foldr Z.add 0 sleeps <= Z.max 0 (until - clock i)
  /\ admitted i r sleeps.
Proof.
  revert i. induction n as [|n IH]; intros i Hn; rewrite admission_loop_S;
    destruct (attempt i) as [[|] [|]] eqn:Ea;
    try (eexists _, []; split; [done|]; split; [simpl; lia|]; split; [simpl; lia|]; split; [simpl; lia|];
         rewrite Nat.add_0_r, ?Ea; done).
  - rewrite (proj2 (Z.leb_le until (clock i))) by lia.
    eexists _, []. split; [done|]. split; [simpl; lia|]. split; [simpl; lia|]. split; [simpl; lia|].
    rewrite Nat.add_0_r. split; [done|lia].
  - destruct (Z.leb_spec until (clock i)) as [Hle|Hlt].
    + eexists _, []. split; [done|]. split; [simpl; lia|]. split; [simpl; lia|]. split; [simpl; lia|].
      rewrite Nat.add_0_r. done.
    + pose proof (slept i Hlt) as Hs. unfold kRetryInterval, ns_per_ms in *.
      destruct (IH (S i)) as (r & sleeps & H1 & H2 & H3 & H4 & H5); [lia|].
      rewrite H1. cbn [mbind option_bind].
      eexists _, (_ :: sleeps). split; [done|]. split; [simpl; lia|]. split; [cbn [foldr]; lia|].
      split; cbn [length]; rewrite <- ?plus_n_Sm in *; [|exact H5].
      intros [|j] Hj; [by rewrite Nat.add_0_r|]. rewrite <- plus_n_Sm. apply (H4 j). lia.
Qed.
End admission.

Lemma give_up_range start deadline_ms :
  0 <= start <= kMaxClock -> 0 <= deadline_ms -> start <= give_up_at start deadline_ms <= kMaxClock.
Proof.
  intros Hs Hd. unfold give_up_at, kMaxClock, ns_per_ms in *.
  destruct (Z.geb_spec deadline_ms (Z.quot (2 ^ 63 - 1 - start) 1000000)) as [H|H]; [lia|].
  rewrite Z.quot_div_nonneg in H by lia. lia.
Qed.

(** ** Claims *)

(** C11: the registry refines the session life cycle.  For every entry, what the
    registry has reported about it is a path of the automaton [life_step]:
    added once under its id, parked by [Detach], live again by [Resume], gone
    for good by [Remove], expiry or teardown, each only where allowed, so a
    resume and an expiry of the same detachment exclude each other; the
    registry's map and flags are those of the phase reached; and with
    [on_expired] set every expiry has been reported to it exactly once, or is
    about to be by the thread that claimed it. *)
Theorem registry_lifecycle {Tx} (given : Options) (SupportsAsync : Handle -> bool) acts s log a :
  @run Tx given SupportsAsync acts s log ->
  (exists p, life a Fresh log = Some p /\ phase_at a s p)
  /\ (has_on_expired (options_ given) = true ->
      expired_ids log ≡ₚ reported_ids log ++ mjoin (firing s)).
Proof.
  intros Hr. split; [by apply (run_life given SupportsAsync acts)|]. intros Ho.
  by apply (run_fires given SupportsAsync acts).
Qed.

Definition grace_script : list (@Action nat) :=
  [Add alice 1%nat; Detach alice; Tick 10; Resume alice 3%nat; WriterTake 0%nat; WriterExit 0%nat; ResumePass;
   Detach alice; Tick 40; ExpiryPass; Fire 0%nat; Fire 0%nat; Add alice 5%nat].

Lemma registry_lifecycle_witness :
  exists s log, run room room_async grace_script s log
  /\ (exists p, life 0%nat Fresh log = Some p /\ phase_at 0%nat s p)
  /\ life 0%nat Fresh log = Some Gone /\ expired_ids log = [alice] /\ reported_ids log = [alice].
Proof.
  destruct (exec room room_async grace_script empty_registry []) as [[s log]|] eqn:E; [|by vm_compute in E].
  assert (Hr : run room room_async grace_script s log)
    by (by apply (run_exec room room_async [] grace_script empty_registry [] s log (run_nil _ _))).
  exists s, log. split; [done|].
  split; [apply (registry_lifecycle room room_async grace_script s log 0%nat Hr)|].
  vm_compute in E. injection E as <- <-. by vm_compute.
Defined.

(** C20: a [Resume] that waits gets its turn.  From any reachable state in which
    a reconnect waits, holding the registry lock, for the old connection's
    delivery to quiesce, the deliveries already under way, with no call and no
    clock, lead to the swap: the entry is live again under its id with the new
    handle. *)
Theorem registry_resume_progress {Tx} (given : Options) (SupportsAsync : Handle -> bool) acts s log a h async :
  @run Tx given SupportsAsync acts s log -> resuming s = Some (a, h, async) ->
  exists acts' s' new id e, run given SupportsAsync (acts ++ acts') s' (log ++ new)
  /\ Forall (fun x => delivery_action x = true) acts' /\ resuming s' = None
  /\ Resumed id a ∈ new /\ (id, a) ∈ sessions s'
  /\ heap s' !! a = Some e /\ handle e = h /\ detached e = false.
Proof. intros Hr Hre. by apply (resume_progress given SupportsAsync acts s log a h async). Qed.

Definition waiting_script : list (@Action nat) :=
  [Add alice 1%nat; SendTo alice 7%nat Reliable; CallStep 0%nat; WriterTake 0%nat; Detach alice; Resume alice 3%nat].

Lemma registry_resume_progress_witness :
  exists s log, run room room_async waiting_script s log /\ resuming s = Some (0%nat, 3%nat, false)
  /\ exists acts' s' new id e, run room room_async (waiting_script ++ acts') s' (log ++ new)
  /\ Forall (fun x => delivery_action x = true) acts' /\ resuming s' = None
  /\ Resumed id 0%nat ∈ new /\ (id, 0%nat) ∈ sessions s'
  /\ heap s' !! 0%nat = Some e /\ handle e = 3%nat /\ detached e = false.
Proof.
  destruct (exec room room_async waiting_script empty_registry []) as [[s log]|] eqn:E; [|by vm_compute in E].
  assert (Hr : run room room_async waiting_script s log)
    by (by apply (run_exec room room_async [] waiting_script empty_registry [] s log (run_nil _ _))).
  assert (Hre : resuming s = Some (0%nat, 3%nat, false)) by (vm_compute in E; by injection E as <- _).
  exists s, log. split; [done|]. split; [done|].
  apply (registry_resume_progress room room_async waiting_script s log 0%nat 3%nat false Hr Hre).
Defined.

(** [ResumeOrAdd] always answers.  On a steady clock that a sleep advances
    by at least what was asked, the loop ends within one attempt per 50 ms of
    the deadline and one more; it never sleeps past the deadline, which is
    clamped to the clock's range; and its answer is that of the last attempt:
    refused only once the deadline has passed and every attempt failed. *)
Theorem ResumeOrAdd_terminates (attempt : nat -> bool * bool) (clock : nat -> Z) start deadline_ms n :
  let until := give_up_at start deadline_ms in
  0 <= start <= kMaxClock -> 0 <= deadline_ms -> start <= clock O ->
  (forall i, clock i < until -> clock i + Z.min kRetryInterval (until - clock i) <= clock (S i)) ->
  until - start <= Z.of_nat n * kRetryInterval ->
  start <= until <= kMaxClock
  /\ exists r sleeps, ResumeOrAdd (S n) attempt clock start deadline_ms = Some (r, sleeps)
     /\ (length sleeps <= n)%nat /\ foldr Z.add 0 sleeps <= until - start
     /\ admitted attempt clock until 0 r sleeps.
Proof.
  intros u Hs Hd Hc Hsl Hn. pose proof (give_up_range start deadline_ms Hs Hd) as Hr. split; [done|].
  destruct (admission_loop_total attempt clock u Hsl n 0) as (r & sleeps & H1 & H2 & H3 & H4); [lia|].
  exists r, sleeps. split; [exact H1|]. split; [done|]. split; [unfold u in *; lia|done].
Qed.

Lemma ResumeOrAdd_terminates_witness :
  let attempt i := (false, Nat.eqb i 2) in
  let clock i := Z.of_nat i * kRetryInterval in
  ResumeOrAdd 3 attempt clock 0 100 = Some (kAdded, [kRetryInterval; kRetryInterval])
  /\ exists r sleeps, ResumeOrAdd 3 attempt clock 0 100 = Some (r, sleeps) /\ (length sleeps <= 2)%nat.
Proof.
  split; [by vm_compute|].
  destruct (ResumeOrAdd_terminates (fun i => (false, Nat.eqb i 2)) (fun i => Z.of_nat i * kRetryInterval) 0 100 2)
    as [_ (r & sleeps & H1 & H2 & _)].
  - by vm_compute.
  - done.
  - done.
  - change (give_up_at 0 100) with 100000000. intros i. unfold kRetryInterval, ns_per_ms. lia.
  - by vm_compute.
  - by exists r, sleeps.
Defined.
