(* ===== verification/Effects.v ===== *)
(** Effects of server callbacks: what runs on a request thread may write to
    [std::clog], change the environment it shares with the rest of the program
    and throw.  [Contain] is core/exception_guard.h, the primitive that keeps
    exceptions from crossing a boundary. *)
From Stdlib Require Import ZArith Lia Strings.Byte.
From S2P Require Import Prelude Bytes.

Local Open Scope Z_scope.

(** The log stream and everything else a callback can touch. *)
Record World (E : Type) := mkWorld { clog : bytes; env : E }.
Arguments mkWorld {E} _ _.
Arguments clog {E} _.
Arguments env {E} _.

(** A value or an exception: [Some what] for a [std::exception], [None] for
    any other. *)
Inductive Result (A : Type) :=
| Ret (a : A)
| Throw (what : option bytes).
Arguments Ret {A} _.
Arguments Throw {A} _.

Definition M (E A : Type) : Type := World E -> World E * Result A.

#[global] Instance M_ret E : MRet (M E) := fun A a w => (w, Ret a).
#[global] Instance M_bind E : MBind (M E) := fun A B f m w =>
  match m w with
  | (w, Ret a) => f a w
  | (w, Throw what) => (w, Throw what)
  end.

(** [std::clog << text]. *)
Definition log {E} (text : bytes) : M E unit :=
  fun w => (mkWorld (clog w ++ text) (env w), Ret tt).

Definition Contain {E A} (body : M E A) (on_throw : option bytes -> M E A) : M E A := fun w =>
  match body w with
  | (w, Ret a) => (w, Ret a)
  | (w, Throw what) => on_throw what w
  end.

(** [try { body } catch (...) { handler; throw; }]. *)
Definition rethrowing {E A} (body : M E A) (handler : M E unit) : M E A := fun w =>
  match body w with
  | (w, Ret a) => (w, Ret a)
  | (w, Throw what) => match handler w with
                       | (w, Ret _) => (w, Throw what)
                       | (w, Throw what) => (w, Throw what)
                       end
  end.

(** ** Computations that leave an observation of the environment alone *)

Section Keeps.
Context {E O : Type} (view : E -> O).

Definition keeps {A} (m : M E A) : Prop := forall w, view (env (fst (m w))) = view (env w).

Lemma keeps_ret {A} (a : A) : keeps (mret a : M E A).
Proof. done. Qed.

Lemma keeps_log text : keeps (log text).
Proof. done. Qed.

Lemma keeps_bind {A B} (m : M E A) (f : A -> M E B) :
  keeps m -> (forall a, keeps (f a)) -> keeps (m ≫= f).
Proof.
  intros Hm Hf w. cbv [mbind M_bind]. specialize (Hm w).
  destruct (m w) as [w' [a|what]]; simpl in *; [|done]. by rewrite Hf.
Qed.

Lemma keeps_Contain {A} (m : M E A) h :
  keeps m -> (forall what, keeps (h what)) -> keeps (Contain m h).
Proof.
  intros Hm Hh w. unfold Contain. specialize (Hm w).
  destruct (m w) as [w' [a|what]]; simpl in *; [done|]. by rewrite Hh.
Qed.

End Keeps.

#[export] Hint Resolve keeps_ret keeps_log keeps_bind keeps_Contain : opal.

(** A computation that returns whatever happens. *)
Definition returns {E A} (m : M E A) : Prop := forall w, exists a, snd (m w) = Ret a.

Lemma Contain_returns {E A} (m : M E A) h : (forall what, returns (h what)) -> returns (Contain m h).
Proof.
  intros Hh w. unfold Contain. destruct (m w) as [w' [a|what]]; simpl; [eauto|]. apply Hh.
Qed.

Lemma Contain_ret {E A} (m : M E A) h w w' a : m w = (w', Ret a) -> Contain m h w = (w', Ret a).
Proof. unfold Contain. by intros ->. Qed.

Lemma bind_returned {E A B} (m : M E A) (f : A -> M E B) w w' a :
  m w = (w', Ret a) -> (m ≫= f) w = f a w'.
Proof. cbv [mbind M_bind]. by intros ->. Qed.

Lemma returned {E A} (m : M E A) w : returns m -> exists w' a, m w = (w', Ret a).
Proof. intros H. destruct (H w) as [a Ha]. destruct (m w) as [w' r] eqn:?; simpl in *; subst. eauto. Qed.
