(* ===== verification/Middleware.v ===== *)
(** server/middleware.h and middleware.cc: handlers wrapped around handlers.
    A handler runs in the monad of Effects.v, so it may touch shared state and
    throw; a fatal error at composition time is [None]. *)
From Stdlib Require Import ZArith Lia Strings.Byte.
From S2P Require Import Prelude Bytes Headers Forwarded Effects.

Local Open Scope Z_scope.

(** [std::string_view::substr(0, s.find('?'))]. *)
Definition path_of (target : bytes) : bytes := fst (cut "?"%byte target).

Definition kUnmatchedRoute : bytes := Eval vm_compute in lit "unmatched".

Abbreviation RequestLabels := (list (bytes * bytes)).

Record RequestObservation := mkObservation {
  ob_method : bytes;
  ob_target : bytes;
  ob_operation : bytes;
  ob_trace_parent : bytes;
  ob_status : Z;
  ob_duration : Z;
  ob_request_bytes : Z;
  ob_response_bytes : Z;
  ob_client : DerivedClient;
  ob_handler_threw : bool;
  ob_labels : RequestLabels
}.

Record RequestStart := mkStart {
  st_method : bytes;
  st_target : bytes;
  st_labels : RequestLabels
}.

Section Middleware.
Context {E : Type}.

Definition RequestHandler := HttpRequest -> M E HttpResponse.

Definition MiddlewareOf := RequestHandler -> RequestHandler.

(** The wrapping loop runs over the reversed list. *)
Definition Chain (middleware : list MiddlewareOf) (handler : RequestHandler) : RequestHandler :=
  fold_left (fun handler (wrap : MiddlewareOf) => wrap handler) (reverse middleware) handler.

Definition Guard (accept : HttpRequest -> M E bool) (reject : RequestHandler) : MiddlewareOf :=
  fun next rq =>
    admitted ← accept rq;
    if negb admitted then reject rq else next rq.

Definition TooManyRequests (retry_after : option Z) : RequestHandler := fun _ =>
  let h := Set_ (lit "content-type") (lit "application/json") [] in
  let h := match retry_after with
           | Some count => Set_ (lit "retry-after") (int_text count) h
           | None => h
           end in
  mret (mkResponse 429 h (quoted (lit "{'error':'Too many requests'}")) []).

(** ** Contained callbacks *)

Definition threw_text (which : bytes) (what : option bytes) : bytes :=
  match what with
  | Some what => lit "opal: " ++ which ++ lit " callback threw: " ++ what ++ ["010"%byte]
  | None => lit "opal: " ++ which ++ lit " callback threw a non-std exception" ++ ["010"%byte]
  end.

(** A callback assigns its result to a local of the caller that holds
    [before] if it throws. *)
Definition CallContained {A} (before : A) (callback : M E A) (which : bytes) : M E A :=
  Contain callback (fun what => _ ← log (threw_text which what); mret before).

Record ReadinessCheck := mkCheck { check_name : bytes; probe : option (M E bool) }.

Definition probe_threw_text (name : bytes) (what : option bytes) : bytes :=
  match what with
  | Some what => lit "opal: readiness probe '" ++ name ++ lit "' threw: " ++ what ++ ["010"%byte]
  | None => lit "opal: readiness probe '" ++ name ++ lit "' threw a non-std exception" ++ ["010"%byte]
  end.

(** A null probe never gets here: [HealthEndpoint] aborted. *)
Definition ProbeContained (check : ReadinessCheck) : M E bool :=
  Contain (default (mret false) (probe check))
    (fun what => _ ← log (probe_threw_text (check_name check) what); mret false).

(** ** Health *)

Definition bad_name_byte (c : Byte.byte) : bool :=
  byte_eqb c x22 || byte_eqb c "\"%byte || (b2z c <? 32).

Definition check_ok (check : ReadinessCheck) : bool :=
  match probe check with
  | None => false
  | Some _ => negb (existsb bad_name_byte (check_name check))
  end.

(** The names of the checks that fail, as the body lists them. *)
Fixpoint failing_checks (checks : list ReadinessCheck) (failing : bytes) : M E bytes :=
  match checks with
  | [] => mret failing
  | check :: checks =>
    passed ← ProbeContained check;
    let failing :=
      if negb passed then
        let failing := match failing with [] => failing | _ => failing ++ [","%byte] end in
        failing ++ x22 :: check_name check ++ [x22]
      else failing in
    failing_checks checks failing
  end.

Definition is_probe (path : bytes) (rq : HttpRequest) : bool :=
  (bytes_eqb (rq_method rq) (lit "GET") || bytes_eqb (rq_method rq) (lit "HEAD"))
  && bytes_eqb (path_of (rq_target rq)) path.

Definition HealthEndpoint (path : bytes) (checks : list ReadinessCheck) : option MiddlewareOf :=
  if negb (forallb check_ok checks) then None
  else Some (fun next rq =>
    if is_probe path rq then
      failing ← failing_checks checks [];
      mret (mkResponse (match failing with [] => 200 | _ => 503 end)
              (Set_ (lit "content-type") (lit "application/json") [])
              (match failing with
               | [] => quoted (lit "{'status':'healthy'}")
               | _ => quoted (lit "{'status':'unhealthy','failing':[") ++ failing ++ lit "]}"
               end) path)
    else next rq).

(** ** Rate limits *)

Definition PerClientRateLimit `{InetLib} (allow : option (bytes -> M E bool)) (trusted : TrustedProxies)
    (retry_after : option Z) : option MiddlewareOf :=
  match allow with
  | None => None
  | Some allow =>
    Some (Guard (fun rq =>
      let client := DeriveClient rq trusted in
      if bool_decide (source client = kUnknown) then mret true else allow (address client))
      (TooManyRequests retry_after))
  end.

(** ** Observation *)

Definition duration_us (start stop : Z) : Z := Z.quot (stop - start) 1000.

(** [now] reads the steady clock, in nanoseconds. *)
Definition Observe `{InetLib} (on_complete : option (RequestObservation -> M E unit))
    (on_start : option (RequestStart -> M E unit)) (now : M E Z) (trusted : option TrustedProxies)
    (labeler : option (Headers -> M E RequestLabels)) : option MiddlewareOf :=
  match on_complete with
  | None => None
  | Some on_complete => Some (fun next rq =>
    labels ← match labeler with
             | Some labeler => CallContained [] (labeler (rq_headers rq)) (lit "Observe labeler")
             | None => mret []
             end;
    _ ← match on_start with
        | Some on_start =>
          CallContained tt (on_start (mkStart (rq_method rq) (rq_target rq) labels))
            (lit "Observe on_start")
        | None => mret tt
        end;
    let observed := mkObservation (rq_method rq) (rq_target rq) []
      (default [] (Get (lit "traceparent") (rq_headers rq))) 0 0 (len (rq_body rq)) 0
      match trusted with Some trusted => DeriveClient rq trusted | None => mkDerived [] kUnknown end
      false labels in
    start ← now;
    response ← rethrowing (next rq)
      (stop ← now;
       CallContained tt (on_complete
         (mkObservation (ob_method observed) (ob_target observed) (ob_operation observed)
            (ob_trace_parent observed) 500 (duration_us start stop) (ob_request_bytes observed)
            (ob_response_bytes observed) (ob_client observed) true (ob_labels observed)))
         (lit "Observe on_complete"));
    stop ← now;
    _ ← CallContained tt (on_complete
          (mkObservation (ob_method observed) (ob_target observed) (rs_operation response)
             (ob_trace_parent observed) (rs_status response) (duration_us start stop)
             (ob_request_bytes observed) (len (rs_body response)) (ob_client observed)
             (ob_handler_threw observed) (ob_labels observed)))
          (lit "Observe on_complete");
    mret response)
  end.

(** ** Credentials *)

Definition Unauthorized : HttpResponse := mkResponse 401 [] [] [].

Definition StripScheme (value scheme : bytes) : option bytes :=
  let prefix := len scheme + 1 in
  if (len value <=? prefix) || negb (byte_eqb (nth (length scheme) value "000"%byte) " "%byte) then None
  else if negb (equal_lower scheme value) then None
  else Some (drop (Z.to_nat prefix) value).

Definition RequireApiKeyHeader (header_name scheme : bytes) (validator : bytes -> M E bool)
    : MiddlewareOf := fun next rq =>
  let credential := Get header_name (rq_headers rq) in
  let credential := match credential, scheme with
                    | Some value, _ :: _ => StripScheme value scheme
                    | _, _ => credential
                    end in
  match credential with
  | None => mret Unauthorized
  | Some credential =>
    valid ← validator credential;
    if negb valid then mret Unauthorized else next rq
  end.

Definition RequireBearerAuth (validator : bytes -> M E bool) : MiddlewareOf :=
  RequireApiKeyHeader (lit "authorization") (lit "Bearer") validator.

End Middleware.
Arguments RequestHandler : clear implicits.
Arguments MiddlewareOf : clear implicits.
Arguments ReadinessCheck : clear implicits.

(** ** Chains *)

Section Chains.
Context {E : Type}.
Implicit Types (m : MiddlewareOf E) (rq : HttpRequest) (next : RequestHandler E).

Lemma Chain_cons m ms next : Chain (m :: ms) next = m (Chain ms next).
Proof. unfold Chain. by rewrite reverse_cons, fold_left_app. Qed.

Lemma Chain_nil next : Chain [] next = next.
Proof. done. Qed.

(** What a middleware does depends on the handler it wraps only through what
    that handler does with the same request. *)
Definition respects m : Prop := forall next next' rq,
  (forall w, next rq w = next' rq w) -> forall w, m next rq w = m next' rq w.

(** [rq] never reaches what [m] wraps. *)
Definition refuses m rq : Prop := forall next next' w, m next rq w = m next' rq w.

Lemma Chain_independent ms m rq next next' :
  Forall respects ms -> m ∈ ms -> refuses m rq -> forall w, Chain ms next rq w = Chain ms next' rq w.
Proof.
  intros Hall Hin Hm. induction Hin as [ms|m' ms Hin IH]; intros w; rewrite !Chain_cons.
  - apply Hm.
  - inversion Hall; subst. auto.
Qed.

Lemma bind_ext {A B} (c : M E A) (f g : A -> M E B) w :
  (forall a w, f a w = g a w) -> (c ≫= f) w = (c ≫= g) w.
Proof. intros Hfg. cbv [mbind M_bind]. destruct (c w) as [w' [a|what]]; auto. Qed.

Lemma rethrowing_ext {A} (c d : M E A) h w : (forall w, c w = d w) -> rethrowing c h w = rethrowing d h w.
Proof. intros Hcd. unfold rethrowing. by rewrite Hcd. Qed.

Lemma Guard_respects accept reject : respects (Guard accept reject).
Proof.
  intros next next' rq H w. unfold Guard. apply bind_ext. intros [] w'; simpl; [apply H|done].
Qed.

Lemma RequireApiKeyHeader_respects name scheme validator :
  respects (RequireApiKeyHeader name scheme validator).
Proof.
  intros next next' rq H w. unfold RequireApiKeyHeader.
  destruct (match Get _ _, scheme with Some _, _ :: _ => _ | _, _ => _ end); [|done].
  apply bind_ext. intros [] w'; simpl; [apply H|done].
Qed.

Lemma HealthEndpoint_respects path checks m : HealthEndpoint path checks = Some m -> respects m.
Proof.
  unfold HealthEndpoint. destruct (negb _); intros [= <-]. intros next next' rq H w.
  destruct (is_probe path rq); [done|apply H].
Qed.

Lemma PerClientRateLimit_respects `{InetLib} allow trusted retry_after m :
  PerClientRateLimit allow trusted retry_after = Some m -> respects m.
Proof. unfold PerClientRateLimit. destruct allow; intros [= <-]. apply Guard_respects. Qed.

Lemma Observe_respects `{InetLib} on_complete on_start now trusted labeler m :
  Observe on_complete on_start now trusted labeler = Some m -> respects m.
Proof.
  unfold Observe. destruct on_complete; intros [= <-]. intros next next' rq Hn w.
  do 3 (apply bind_ext; intros ? ?).
  cbv [mbind M_bind]. by rewrite (rethrowing_ext _ (next' rq)).
Qed.

End Chains.

(** The middleware the runtime provides. *)
Inductive provided {E} `{InetLib} : MiddlewareOf E -> Prop :=
| provided_guard accept reject : provided (Guard accept reject)
| provided_limit allow trusted retry_after m :
    PerClientRateLimit allow trusted retry_after = Some m -> provided m
| provided_health path checks m : HealthEndpoint path checks = Some m -> provided m
| provided_observe on_complete on_start now trusted labeler m :
    Observe on_complete on_start now trusted labeler = Some m -> provided m
| provided_key name scheme validator : provided (RequireApiKeyHeader name scheme validator)
| provided_bearer validator : provided (RequireBearerAuth validator).

Lemma provided_respects {E} `{InetLib} (m : MiddlewareOf E) : provided m -> respects m.
Proof.
  destruct 1; eauto using Guard_respects, PerClientRateLimit_respects, HealthEndpoint_respects,
    Observe_respects, RequireApiKeyHeader_respects.
Qed.

(** ** Credentials *)

Lemma equal_lower_spec a b : equal_lower a b = true <-> exists a' t, b = a' ++ t /\ lower a' = lower a.
Proof.
  revert b. induction a as [|x a IH]; intros b; simpl.
  - split; [|done]. intros _. by exists [], b.
  - destruct b as [|y b].
    + split; [done|]. by intros ([|] & t & E & E').
    + rewrite andb_true_iff, byte_eqb_eq, IH. split.
      * intros [Exy (a' & t & -> & Ea)]. exists (y :: a'), t. simpl. by rewrite Exy, Ea.
      * intros ([|z a'] & t & E & E'); simpl in *; [done|]. injection E as -> ->.
        injection E' as Ez Ea. split; [done|]. eauto.
Qed.

Lemma lower_length a b : lower a = lower b -> length a = length b.
Proof. intros E. apply (f_equal length) in E. unfold lower in E. by rewrite !length_map in E. Qed.

(** A credential follows the scheme, in any case, and one space. *)
Lemma StripScheme_spec value scheme c :
  StripScheme value scheme = Some c
  <-> c <> [] /\ exists s, value = s ++ " "%byte :: c /\ lower s = lower scheme.
Proof.
  unfold StripScheme, len. split.
  - destruct (_ || _) eqn:E1; [done|].
    destruct (equal_lower scheme value) eqn:E2; simpl; [|done]. intros [= <-].
    apply orb_false_iff in E1 as [E1 E3]. apply Z.leb_gt in E1.
    apply negb_false_iff in E3. apply equal_lower_spec in E2 as (s & t & -> & Es).
    pose proof (lower_length _ _ Es) as El. rewrite length_app in E1.
    destruct t as [|x t]; [simpl in E1; lia|]. rewrite <- El, nth_middle in E3.
    apply byte_eqb_eq in E3 as ->.
    replace (Z.to_nat (Z.of_nat (length scheme) + 1)) with (length (s ++ [" "%byte]))
      by (rewrite length_app; simpl; lia).
    replace (s ++ " "%byte :: t) with ((s ++ [" "%byte]) ++ t) by (by rewrite <- app_assoc).
    rewrite drop_app_length. split; [intros ->; simpl in E1; lia|].
    exists s. by rewrite <- app_assoc.
  - intros [Hc (s & -> & Es)]. pose proof (lower_length _ _ Es) as El.
    rewrite length_app. simpl. rewrite <- El, nth_middle.
    destruct c as [|x c]; [done|]. simpl.
    destruct (Z.leb_spec (Z.of_nat (length s + S (S (length c)))) (Z.of_nat (length s) + 1)); [lia|].
    simpl. rewrite (proj2 (equal_lower_spec scheme _)); [|by exists s, (" "%byte :: x :: c)].
    simpl. replace (Z.to_nat (Z.of_nat (length s) + 1)) with (length (s ++ [" "%byte]))
      by (rewrite length_app; simpl; lia).
    by replace (s ++ " "%byte :: x :: c) with ((s ++ [" "%byte]) ++ x :: c) by (by rewrite <- app_assoc);
      rewrite drop_app_length.
Qed.

(** The request's first [name] field carries credential [c] under [scheme]. *)
Definition presents (name scheme : bytes) (rq : HttpRequest) (c : bytes) : Prop :=
  exists value, Get name (rq_headers rq) = Some value
  /\ match scheme with
     | [] => c = value
     | _ => c <> [] /\ exists s, value = s ++ " "%byte :: c /\ lower s = lower scheme
     end.

Lemma presents_unique name scheme rq c c' :
  presents name scheme rq c -> presents name scheme rq c' -> c = c'.
Proof.
  intros (v & E & H) (v' & E' & H'). rewrite E in E'. injection E' as <-.
  destruct scheme as [|x scheme]; [congruence|].
  apply StripScheme_spec in H, H'. congruence.
Qed.

Lemma RequireApiKeyHeader_cases {E} name scheme (validator : bytes -> M E bool) next rq w :
  (exists c, presents name scheme rq c
     /\ RequireApiKeyHeader name scheme validator next rq w
        = (valid ← validator c; if negb valid then mret Unauthorized else next rq) w)
  \/ ((forall c, ~ presents name scheme rq c)
      /\ RequireApiKeyHeader name scheme validator next rq w = (w, Ret Unauthorized)).
Proof.
  unfold RequireApiKeyHeader, presents. destruct (Get name (rq_headers rq)) as [value|].
  2:{ right. split; [|by destruct scheme]. by intros c (v & ? & ?). }
  destruct scheme as [|x scheme]; [left; by exists value; split; [exists value|]|].
  destruct (StripScheme value (x :: scheme)) as [c|] eqn:Es.
  - left. exists c. split; [|done]. exists value. split; [done|]. by apply StripScheme_spec.
  - right. split; [|done]. intros c (v & [= <-] & H). apply StripScheme_spec in H. congruence.
Qed.

(** C9: Authentication cannot be bypassed: in any chain of the runtime's
    middleware with an API-key or bearer layer somewhere in it, a request that
    presents no credential its validator accepts (no such field, another
    scheme, an empty credential, or a refused one) never reaches the handler,
    whatever the order of the layers; and that layer answers 401 to it and
    passes on, untouched, a request whose credential is accepted. *)
Theorem Chain_protects {E} `{InetLib} (ms : list (MiddlewareOf E)) name scheme validator rq
  (Hms : Forall provided ms) (Hin : RequireApiKeyHeader name scheme validator ∈ ms) :
  ((forall c, presents name scheme rq c -> forall w, snd (validator c w) = Ret false) ->
   (forall handler handler' w, Chain ms handler rq w = Chain ms handler' rq w)
   /\ (forall next w, snd (RequireApiKeyHeader name scheme validator next rq w) = Ret Unauthorized))
  /\ (forall c w w' next, presents name scheme rq c -> validator c w = (w', Ret true) ->
      RequireApiKeyHeader name scheme validator next rq w = next rq w').
Proof.
  split; [intros Hno; assert (Hr : forall next w, exists w', forall next' : RequestHandler E,
            RequireApiKeyHeader name scheme validator next rq w = (w', Ret Unauthorized)
            /\ RequireApiKeyHeader name scheme validator next' rq w = (w', Ret Unauthorized));
          [|split]|].
  - intros next w. exists (fst (RequireApiKeyHeader name scheme validator next rq w)). intros next'.
    destruct (RequireApiKeyHeader_cases name scheme validator next rq w) as [(c & Hc & E1)|[Hn E1]],
      (RequireApiKeyHeader_cases name scheme validator next' rq w) as [(c' & Hc' & E2)|[Hn' E2]];
      rewrite E1, E2; try naive_solver.
    assert (c' = c) as -> by (apply (presents_unique name scheme rq); done).
    specialize (Hno c Hc w). cbv [mbind M_bind].
    destruct (validator c w) as [w' [[]|]]; simpl in *; naive_solver.
  - intros handler handler'. eapply Chain_independent; [|exact Hin|].
    { eapply Forall_impl; [exact Hms|apply provided_respects]. }
    intros next next' w. destruct (Hr next w) as [w' Hw]. by destruct (Hw next') as [-> ->].
  - intros next w. destruct (Hr next w) as [w' Hw]. by destruct (Hw next) as [-> _].
  - intros c w w' next Hc Hv.
    destruct (RequireApiKeyHeader_cases name scheme validator next rq w) as [(c' & Hc' & ->)|[Hn _]];
      [|by destruct (Hn c)].
    assert (c' = c) as -> by (apply (presents_unique name scheme rq); done).
    by rewrite (bind_returned _ _ _ _ _ Hv).
Qed.

Definition bearer_request (auth : bytes) : HttpRequest :=
  mkRequest (lit "GET") (lit "/tasks") [(lit "Authorization", auth)] [] [].

Lemma Chain_protects_witness :
  (forall (handler handler' : RequestHandler unit) w,
     Chain [Guard (fun _ => mret true) (TooManyRequests None);
            RequireBearerAuth (fun c => mret (bytes_eqb c (lit "secret")))] handler
       (bearer_request (lit "Basic secret")) w
     = Chain [Guard (fun _ => mret true) (TooManyRequests None);
              RequireBearerAuth (fun c => mret (bytes_eqb c (lit "secret")))] handler'
         (bearer_request (lit "Basic secret")) w)
  /\ StripScheme (lit "bEARER secret") (lit "Bearer") = Some (lit "secret").
Proof.
  split; [|by vm_compute].
  refine (proj1 (proj1 (Chain_protects (E := unit) (H := toy_inet) _ (lit "authorization")
                          (lit "Bearer") (fun c => mret (bytes_eqb c (lit "secret"))) _ _ _) _)).
  - apply Forall_cons; split; [apply provided_guard|].
    apply Forall_cons; split; [apply provided_bearer|apply Forall_nil_2].
  - right. left.
  - intros c (v & Hv & Hc & s & Hs & El). exfalso. vm_compute in Hv. injection Hv as <-.
    apply lower_length in El. change (length (lit "Bearer")) with 6%nat in El.
    do 7 (destruct s as [|? s]; [discriminate El || discriminate Hs|]). discriminate El.
Defined.

(** ** Observations come in pairs *)

Inductive Report := Started (s : RequestStart) | Completed (o : RequestObservation).

(** What a completion says of the request and of how handling it ended. *)
Definition completion_of (rq : HttpRequest) (labels : RequestLabels) (r : Result HttpResponse)
    (o : RequestObservation) : Prop :=
  ob_method o = rq_method rq /\ ob_target o = rq_target rq
  /\ ob_request_bytes o = len (rq_body rq) /\ ob_labels o = labels
  /\ match r with
     | Ret rs => ob_handler_threw o = false /\ ob_status o = rs_status rs
                 /\ ob_operation o = rs_operation rs /\ ob_response_bytes o = len (rs_body rs)
     | Throw _ => ob_handler_threw o = true /\ ob_status o = 500 /\ ob_operation o = []
                  /\ ob_response_bytes o = 0
     end.

Section Pairs.
Context {E : Type} (seen : E -> list Report).

(** A sink that files its argument, whether or not it throws afterwards. *)
Definition files {A} (report : A -> Report) (sink : A -> M E unit) : Prop :=
  forall a w, seen (env (fst (sink a w))) = seen (env w) ++ [report a].

Lemma CallContained_files {A} report (sink : A -> M E unit) a which w :
  files report sink ->
  exists w', CallContained tt (sink a) which w = (w', Ret tt)
             /\ seen (env w') = seen (env w) ++ [report a].
Proof.
  intros Hf. specialize (Hf a w). unfold CallContained, Contain.
  destruct (sink a w) as [w' [[]|what]]; simpl in *; eauto.
Qed.

Lemma CallContained_keeps {A} (before : A) callback which w :
  keeps seen callback ->
  exists w' a, CallContained before callback which w = (w', Ret a) /\ seen (env w') = seen (env w).
Proof.
  intros Hk. specialize (Hk w). unfold CallContained, Contain.
  destruct (callback w) as [w' [a|what]]; simpl in *; eauto.
Qed.

End Pairs.

(** A handler's outcome and an observation's duration need the clock to be
    read. *)
Definition ticks {E O} (seen : E -> O) (now : M E Z) : Prop := keeps seen now /\ returns now.

(** Start and completion reports pair up: wrapped in [Observe], a request
    files exactly one start and exactly one completion, in that order, even if
    the handler throws and even if the callbacks throw; the completion carries
    the request's own method, target, size and labels (those of its start) and
    the response's status, operation and size, or 500 and [handler_threw]; and
    the caller sees the handler's own response or exception. *)
Theorem Observe_pairs {E} `{InetLib} (seen : E -> list Report) on_complete on_start now trusted labeler
    m (next : RequestHandler E) rq w
  (Hm : Observe (Some on_complete) (Some on_start) now trusted labeler = Some m)
  (Hcomplete : files seen Completed on_complete) (Hstart : files seen Started on_start)
  (Hnow : ticks seen now) (Hnext : forall rq, keeps seen (next rq))
  (Hlabel : forall l, labeler = Some l -> forall h, keeps seen (l h)) :
  exists labels o w1,
    let r := snd (next rq w1) in
    seen (env (fst (m next rq w)))
      = seen (env w) ++ [Started (mkStart (rq_method rq) (rq_target rq) labels); Completed o]
    /\ completion_of rq labels r o
    /\ snd (m next rq w) = r.
Proof.
  unfold Observe in Hm. injection Hm as <-.
  assert (exists w0 labels, match labeler with
            | Some labeler => CallContained [] (labeler (rq_headers rq)) (lit "Observe labeler")
            | None => mret []
            end w = (w0, Ret labels) /\ seen (env w0) = seen (env w)) as (w0 & labels & E0 & S0).
  { destruct labeler as [l|]; [|by exists w, []]. apply CallContained_keeps. by apply Hlabel. }
  rewrite (bind_returned _ _ _ _ _ E0).
  set (s := mkStart _ _ labels).
  destruct (CallContained_files seen Started on_start s (lit "Observe on_start") w0 Hstart)
    as (w1 & E1 & S1).
  rewrite (bind_returned _ _ _ _ _ E1). destruct Hnow as [Hkeep Hret].
  destruct (returned now w1 Hret) as (w2 & start & E2). pose proof (Hkeep w1) as S2.
  rewrite E2 in S2. simpl in S2. rewrite (bind_returned _ _ _ _ _ E2).
  pose proof (Hnext rq w2) as S3. unfold rethrowing. cbv [mbind M_bind].
  destruct (next rq w2) as [w3 r] eqn:E3. simpl in S3.
  destruct (returned now w3 Hret) as (w4 & stop & E4). pose proof (Hkeep w3) as S4.
  rewrite E4 in S4. simpl in S4.
  destruct r as [rs|what]; rewrite E4;
    match goal with |- context [CallContained tt (on_complete ?o) ?n ?w] =>
      destruct (CallContained_files seen Completed on_complete o n w Hcomplete) as (w5 & E5 & S5);
      exists labels, o, w2; rewrite E5
    end; simpl; rewrite E3;
    (split; [by rewrite S5, S4, S3, S2, S1, S0, <- app_assoc|by repeat split]).
Qed.

(** Sinks that file and then throw, for the witness. *)
Definition throwing_sink {A} (report : A -> Report) (a : A) : M (list Report) unit := fun w =>
  (mkWorld (clog w) (env w ++ [report a]), Throw (Some (lit "full"))).

Definition throwing_handler : RequestHandler (list Report) := fun _ w => (w, Throw None).

Lemma Observe_pairs_witness :
  exists m : MiddlewareOf (list Report),
    @Observe _ toy_inet (Some (throwing_sink Completed)) (Some (throwing_sink Started)) (mret 7) None None
      = Some m
    /\ exists labels o w1,
       let r := snd (throwing_handler (bearer_request []) w1) in
       env (fst (m throwing_handler (bearer_request []) (mkWorld [] [])))
         = [] ++ [Started (mkStart (lit "GET") (lit "/tasks") labels); Completed o]
       /\ completion_of (bearer_request []) labels r o
       /\ snd (m throwing_handler (bearer_request []) (mkWorld [] [])) = r.
Proof.
  eexists. split; [reflexivity|].
  apply (Observe_pairs (H := toy_inet) (fun l : list Report => l) (throwing_sink Completed) (throwing_sink Started)
           (mret 7) None None _ throwing_handler (bearer_request []) (mkWorld [] []));
    try done.
  split; [done|]. intros w. by exists 7.
Defined.

(** ** Health *)

(** The probes asked one by one: a probe that throws has failed, and the log
    says so. *)
Fixpoint ask {E} (checks : list (ReadinessCheck E)) (w : World E) : World E * list (bytes * bool) :=
  match checks with
  | [] => (w, [])
  | check :: checks =>
    let '(w, passed) :=
      match default (mret false) (probe check) w with
      | (w, Ret passed) => (w, passed)
      | (w, Throw what) => (mkWorld (clog w ++ probe_threw_text (check_name check) what) (env w), false)
      end in
    let '(w, results) := ask checks w in
    (w, (check_name check, passed) :: results)
  end.

Definition quote (name : bytes) : bytes := x22 :: name ++ [x22].

Definition failed_names (results : list (bytes * bool)) : list bytes :=
  quote ∘ fst <$> filter (fun r => snd r = false) results.

Lemma ProbeContained_eq {E} (check : ReadinessCheck E) w :
  ProbeContained check w
  = let '(w, passed) :=
      match default (mret false) (probe check) w with
      | (w, Ret passed) => (w, passed)
      | (w, Throw what) => (mkWorld (clog w ++ probe_threw_text (check_name check) what) (env w), false)
      end in (w, Ret passed).
Proof.
  unfold ProbeContained, Contain. by destruct (default (mret false) (probe check) w) as [w' [a|what]].
Qed.

Lemma join_nil c names : (forall n, n ∈ names -> n <> []) -> join c names = [] -> names = [].
Proof.
  intros Hn E. destruct names as [|n names]; [done|]. assert (n <> []) by (apply Hn; left).
  destruct n; [done|]. by destruct names.
Qed.

Lemma join_snoc c names x :
  (forall n, n ∈ names -> n <> []) ->
  match join c names with [] => [] | _ => join c names ++ [c] end ++ x = join c (names ++ [x]).
Proof.
  intros Hn. assert (Ej : names <> [] -> join c (names ++ [x]) = join c names ++ c :: x).
  { clear. induction names as [|n [|n' names] IH]; intros Hne; [done..|].
    rewrite <- app_comm_cons, !join_cons, IH by done. by rewrite <- app_assoc. }
  destruct names as [|n names]; [done|]. rewrite Ej by done.
  destruct (join c (n :: names)) eqn:E; [|by rewrite <- app_assoc].
  by apply join_nil in E.
Qed.

Lemma failed_names_nonempty results n : n ∈ failed_names results -> n <> [].
Proof. unfold failed_names. rewrite list_elem_of_fmap. by intros (r & -> & _). Qed.

Lemma failed_names_nil results : forallb snd results = true <-> failed_names results = [].
Proof.
  unfold failed_names. induction results as [|[name []] results IH]; [done|..].
  - by rewrite filter_cons_False.
  - by rewrite filter_cons_True.
Qed.

Lemma failing_checks_ask {E} (checks : list (ReadinessCheck E)) : forall names w,
  (forall n, n ∈ names -> n <> []) ->
  failing_checks checks (join ","%byte names) w
  = let '(w, results) := ask checks w in
    (w, Ret (join ","%byte (names ++ failed_names results))).
Proof.
  assert (Hfail : forall names name checks (w : World E), (forall n, n ∈ names -> n <> []) ->
            (forall names w, (forall n, n ∈ names -> n <> []) ->
             failing_checks checks (join ","%byte names) w
             = let '(w, results) := ask checks w in (w, Ret (join ","%byte (names ++ failed_names results)))) ->
            failing_checks checks
              (match join ","%byte names with [] => join ","%byte names | _ => join ","%byte names ++ [","%byte] end
               ++ x22 :: name ++ [x22]) w
            = let '(w, results) := ask checks w in
              (w, Ret (join ","%byte (names ++ quote name :: failed_names results)))).
  { intros names name checks' w Hn IH.
    replace (match join _ names with [] => _ | _ => _ end)
      with (match join ","%byte names with [] => [] | _ => join ","%byte names ++ [","%byte] end)
      by (by destruct (join ","%byte names)).
    change (x22 :: name ++ [x22]) with (quote name). rewrite join_snoc by done. rewrite IH.
    - destruct (ask checks' w). by rewrite <- app_assoc.
    - intros n. rewrite elem_of_app, list_elem_of_singleton. intros [H| ->]; [by apply Hn|done]. }
  induction checks as [|check checks IH]; intros names w Hn; simpl; [by rewrite app_nil_r|].
  cbv [mbind M_bind]. rewrite ProbeContained_eq.
  destruct (default (mret false) (probe check) w) as [w1 [[]|what]]; simpl.
  - rewrite IH by done. by destruct (ask checks w1).
  - rewrite Hfail by done. by destruct (ask checks w1).
  - rewrite Hfail by done. by destruct (ask checks _).
Qed.

(** Readiness answers: on the endpoint's path (any query) GET and HEAD
    ask every probe once, in order; a probe that throws is logged and counts as
    failed and nothing unwinds; the answer is 200 and healthy when all passed,
    and otherwise 503 with exactly the names of the failed checks in order.
    Every other request goes to the next handler untouched. *)
Theorem HealthEndpoint_contained {E} path checks (m : MiddlewareOf E) next rq w
  (Hm : HealthEndpoint path checks = Some m) :
  (is_probe path rq = false -> m next rq w = next rq w)
  /\ (is_probe path rq = true ->
      let '(w', results) := ask checks w in
      let passed := forallb snd results in
      m next rq w = (w', Ret (mkResponse (if passed then 200 else 503)
        [(lit "content-type", lit "application/json")]
        (if passed then quoted (lit "{'status':'healthy'}")
         else quoted (lit "{'status':'unhealthy','failing':[")
              ++ join ","%byte (failed_names results) ++ lit "]}") path))).
Proof.
  unfold HealthEndpoint in Hm. destruct (negb _); [done|]. injection Hm as <-.
  split; intros ->; [done|].
  pose proof (failing_checks_ask checks [] w ltac:(intros n; by rewrite elem_of_nil)) as E1.
  simpl in E1. cbv [mbind M_bind]. rewrite E1. destruct (ask checks w) as [w' results].
  destruct (forallb snd results) eqn:Ea.
  - by rewrite (proj1 (failed_names_nil results)).
  - destruct (join _ _) eqn:Ej; [|done]. apply join_nil in Ej; [|by apply failed_names_nonempty].
    apply failed_names_nil in Ej. congruence.
Qed.

Definition two_checks : list (ReadinessCheck unit) :=
  [mkCheck (lit "db") (Some (fun w => (w, Throw (Some (lit "down")))));
   mkCheck (lit "cache") (Some (mret true))].

Lemma HealthEndpoint_contained_witness :
  exists m : MiddlewareOf unit, HealthEndpoint (lit "/readyz") two_checks = Some m
  /\ snd (m (fun _ => mret Unauthorized) (mkRequest (lit "HEAD") (lit "/readyz?x=1") [] [] []) (mkWorld [] tt))
     = Ret (mkResponse 503 [(lit "content-type", lit "application/json")]
              (quoted (lit "{'status':'unhealthy','failing':['db']}")) (lit "/readyz")).
Proof.
  eexists. split; [reflexivity|].
  pose proof (proj2 (HealthEndpoint_contained (lit "/readyz") two_checks _ (fun _ => mret Unauthorized)
    (mkRequest (lit "HEAD") (lit "/readyz?x=1") [] [] []) (mkWorld [] tt) eq_refl) ltac:(by vm_compute)) as E1.
  exact (f_equal snd E1).
Defined.
