(* ===== verification/ServerDispatch.v ===== *)
(** http/server_dispatch.cc: the guarded call of a server's handler (trace
    identity on the way in, exceptions contained and 5xx answers correlated on
    the way out); server/origin_gate.cc: the Origin allowlist of WebSocket
    upgrades. *)
From Stdlib Require Import ZArith Lia Strings.Byte.
From S2P Require Import Prelude Bytes Uri Headers Forwarded TraceContext Router Effects Middleware.

Local Open Scope Z_scope.

(** ** Peer addresses *)

(** [getnameinfo] answers the numeric host and service. *)
Definition FormatPeerAddress (getnameinfo : option (bytes * bytes)) (family : Family) : bytes :=
  match getnameinfo with
  | None => []
  | Some (host, service) =>
    match family with
    | AF_INET6 => "["%byte :: host ++ lit "]:" ++ service
    | AF_INET => host ++ ":"%byte :: service
    end
  end.

(** ** Trace identity *)

Definition with_headers (rq : HttpRequest) (h : Headers) : HttpRequest :=
  mkRequest (rq_method rq) (rq_target rq) h (rq_body rq) (rq_peer_address rq).

Definition valid_traceparent (values : list bytes) : bool :=
  match values with
  | [value] => match ParseTraceparent value with Some _ => true | None => false end
  | _ => false
  end.

(** The words of the random engine it draws are threaded through. *)
Definition EnsureInboundTraceIdentity (rq : HttpRequest) (draws : list Z)
    : option (HttpRequest * list Z) :=
  if valid_traceparent (GetAll (lit "traceparent") (rq_headers rq)) then Some (rq, draws)
  else
    '(context, draws) ← GenerateTraceContext draws;
    Some (with_headers rq
            (Remove (lit "tracestate")
               (Set_ (lit "traceparent") (FormatTraceparent context) (rq_headers rq))), draws).

Definition RequestTraceId (rq : HttpRequest) : bytes :=
  match ParseTraceparent (default [] (Get (lit "traceparent") (rq_headers rq))) with
  | Some context => trace_id context
  | None => []
  end.

Definition crash_line (rq : HttpRequest) (correlation_id what : bytes) : bytes :=
  lit "opal: handler threw; correlation-id=" ++ correlation_id ++ quoted (lit " request='")
  ++ rq_method rq ++ " "%byte :: rq_target rq ++ quoted (lit "' what='") ++ what
  ++ [x22; "010"%byte].

Definition internal_error_response (correlation_id : bytes) : HttpResponse :=
  mkResponse 500
    (Set_ (lit "x-correlation-id") correlation_id
       (Set_ (lit "content-type") (lit "application/json") []))
    (quoted (lit "{'message':'internal error','correlationId':'") ++ correlation_id
     ++ quoted (lit "'}")) [].

Definition InternalError {E} (rq : HttpRequest) (what : bytes) : M E HttpResponse :=
  let correlation_id := RequestTraceId rq in
  _ ← log (crash_line rq correlation_id what);
  mret (internal_error_response correlation_id).

Definition CorrelateServerError (rq : HttpRequest) (response : HttpResponse) : HttpResponse :=
  if (rs_status response <? 500) || Has (lit "x-correlation-id") (rs_headers response) then response
  else mkResponse (rs_status response)
         (Set_ (lit "x-correlation-id") (RequestTraceId rq) (rs_headers response))
         (rs_body response) (rs_operation response).

Definition InvokeHandlerGuarded {E} (handler : option (RequestHandler E)) (rq : HttpRequest)
    (draws : list Z) : option (M E HttpResponse * list Z) :=
  match handler with
  | None => Some (mret (mkResponse 503 [] [] []), draws)
  | Some handler =>
    '(rq, draws) ← EnsureInboundTraceIdentity rq draws;
    Some (Contain (response ← handler rq; mret (CorrelateServerError rq response))
            (fun what => InternalError rq (default (lit "unknown exception") what)), draws)
  end.

(** ** The Origin gate *)

Definition NormalizeOrigin (text : bytes) : option bytes :=
  let lowered := lower text in
  if bytes_eqb lowered (lit "null") then Some lowered
  else
    match Uri.ParseEndpoint lowered with
    | Err _ => None
    | Ok endpoint =>
      if negb (bytes_eqb (path_prefix endpoint) []) || contains_byte "@"%byte (Uri.host endpoint)
      then None
      else Some (scheme endpoint ++ lit "://" ++ Uri.host endpoint ++ lit ":"
                 ++ to_string (port endpoint))
    end.

(** The gate's answer: the refusal, if any.  [None] is the fatal error on an
    entry that is no origin. *)
Definition RequireOrigin (allowed_origins : list bytes)
    : option (HttpRequest -> option HttpResponse) :=
  allowed ← mapM NormalizeOrigin allowed_origins;
  Some (fun rq =>
    match GetAll (lit "origin") (rq_headers rq) with
    | [] => None
    | origins =>
      let admitted :=
        match origins with
        | [origin] => match NormalizeOrigin origin with
                      | Some normalized => bool_decide (normalized ∈ allowed)
                      | None => false
                      end
        | _ => false
        end in
      if admitted then None
      else Some (MakeErrorResponse 403 (lit "Forbidden") (lit "origin is not allowed"))
    end).

(** ** Dispatch: one trace identity in, one answer out *)

(** [rq'] is [rq] with exactly one trace identity, [c]. *)
Definition traced (rq rq' : HttpRequest) (c : TraceContext) : Prop :=
  (exists value, GetAll (lit "traceparent") (rq_headers rq') = [value] /\ ParseTraceparent value = Some c)
  /\ ((valid_traceparent (GetAll (lit "traceparent") (rq_headers rq)) = true /\ rq' = rq)
      \/ (valid_traceparent (GetAll (lit "traceparent") (rq_headers rq)) = false
          /\ sampled c = true
          /\ GetAll (lit "tracestate") (rq_headers rq') = []
          /\ rq' = with_headers rq (rq_headers rq')
          /\ forall name, HeaderNameEquals (lit "traceparent") name = false ->
             HeaderNameEquals (lit "tracestate") name = false ->
             GetAll name (rq_headers rq') = GetAll name (rq_headers rq))).

Lemma EnsureInbound_traced rq draws rq' rest :
  EnsureInboundTraceIdentity rq draws = Some (rq', rest) -> exists c, traced rq rq' c.
Proof.
  unfold EnsureInboundTraceIdentity, traced. destruct (valid_traceparent _) eqn:Ev.
  - intros [= <- <-]. unfold valid_traceparent in Ev.
    destruct (GetAll _ _) as [|value [|]]; try done. destruct (ParseTraceparent value) as [c|] eqn:Ep; [|done].
    exists c. split; [by exists value|by left].
  - destruct (GenerateTraceContext draws) as [[c draws']|] eqn:Eg; [|done].
    cbn [mbind option_bind]. intros [= <- <-]. exists c. simpl.
    apply GenerateTraceContext_ok in Eg as [Hc Hs].
    split; [|right; split; [done|]; split; [done|]; split; [|split; [done|]]].
    + exists (FormatTraceparent c). rewrite GetAll_Remove, GetAll_Set.
      split; [by vm_compute|]. by apply (traceparent_roundtrip c).
    + by rewrite GetAll_Remove.
    + intros name H1 H2. by rewrite GetAll_Remove, GetAll_Set, H1, H2.
Qed.

Lemma traced_id rq rq' c : traced rq rq' c -> RequestTraceId rq' = trace_id c.
Proof.
  intros [(value & Hv & Hp) _]. unfold RequestTraceId. rewrite Get_GetAll, Hv. simpl. by rewrite Hp.
Qed.

(** [response] is [answer] with the id it lacked, if it is a 5xx. *)
Definition correlated (id : bytes) (answer response : HttpResponse) : Prop :=
  rs_status response = rs_status answer /\ rs_body response = rs_body answer
  /\ rs_operation response = rs_operation answer
  /\ (forall name, HeaderNameEquals (lit "x-correlation-id") name = false ->
      GetAll name (rs_headers response) = GetAll name (rs_headers answer))
  /\ GetAll (lit "x-correlation-id") (rs_headers response)
     = if (500 <=? rs_status answer) && negb (Has (lit "x-correlation-id") (rs_headers answer))
       then [id] else GetAll (lit "x-correlation-id") (rs_headers answer).

Lemma CorrelateServerError_correlated rq answer :
  correlated (RequestTraceId rq) answer (CorrelateServerError rq answer).
Proof.
  unfold CorrelateServerError, correlated.
  destruct (Z.ltb_spec (rs_status answer) 500), (Z.leb_spec 500 (rs_status answer)); try lia; simpl; [done|].
  destruct (Has _ _); simpl; [done|].
  repeat split. 2: by rewrite GetAll_Set.
  intros name Hn. by rewrite GetAll_Set, Hn.
Qed.

Lemma guarded_contract {E} (handler : RequestHandler E) rq draws guarded rest
  (Hrun : InvokeHandlerGuarded (Some handler) rq draws = Some (guarded, rest)) :
  exists rq' c, traced rq rq' c
  /\ forall w, match handler rq' w with
     | (w', Ret answer) =>
       exists response, guarded w = (w', Ret response) /\ correlated (trace_id c) answer response
     | (w', Throw what) =>
       guarded w = (mkWorld (clog w' ++ crash_line rq' (trace_id c)
                                        (default (lit "unknown exception") what)) (env w'),
                    Ret (internal_error_response (trace_id c)))
     end.
Proof.
  unfold InvokeHandlerGuarded in Hrun.
  destruct (EnsureInboundTraceIdentity rq draws) as [[rq' draws']|] eqn:Ei; [|done].
  cbn [mbind option_bind] in Hrun. injection Hrun as <- <-.
  destruct (EnsureInbound_traced _ _ _ _ Ei) as [c Hc]. exists rq', c. split; [done|]. intros w.
  pose proof (traced_id _ _ _ Hc) as Hid.
  unfold Contain, InternalError. cbv [mbind M_bind log mret M_ret].
  destruct (handler rq' w) as [w' [answer|what]]; simpl.
  - eexists. split; [done|]. rewrite <- Hid. apply CorrelateServerError_correlated.
  - by rewrite Hid.
Qed.

(** C12: A server's handler runs under one trace identity and never throws
    out of the guard: it is called once, on the request with exactly one valid
    traceparent (the client's own when it sent a single valid one, else a fresh
    sampled root with tracestate dropped and every other header kept); an
    exception becomes a 500 that carries the trace id, in its header and body,
    after one log line with the same id; and any returned 5xx that lacks a
    correlation id gets the trace id, every other response passing unchanged. *)
Theorem InvokeHandlerGuarded_contract {E} (handler : RequestHandler E) rq draws guarded rest
  (Hrun : InvokeHandlerGuarded (Some handler) rq draws = Some (guarded, rest)) :
  exists rq' c, traced rq rq' c
  /\ forall w, match handler rq' w with
     | (w', Ret answer) =>
       exists response, guarded w = (w', Ret response) /\ correlated (trace_id c) answer response
     | (w', Throw what) =>
       guarded w = (mkWorld (clog w' ++ crash_line rq' (trace_id c)
                                        (default (lit "unknown exception") what)) (env w'),
                    Ret (internal_error_response (trace_id c)))
     end.
Proof. exact (guarded_contract handler rq draws guarded rest Hrun). Qed.

Lemma InvokeHandlerGuarded_contract_witness :
  exists guarded rest, InvokeHandlerGuarded (E := unit) (Some (fun _ w => (w, Throw (Some (lit "boom")))))
                         (mkRequest (lit "GET") (lit "/") [] [] []) [291; 5; 7] = Some (guarded, rest)
  /\ exists rq' c, traced (mkRequest (lit "GET") (lit "/") [] [] []) rq' c
     /\ guarded (mkWorld [] tt)
        = (mkWorld (crash_line rq' (trace_id c) (lit "boom")) tt, Ret (internal_error_response (trace_id c))).
Proof.
  eexists _, _. split; [reflexivity|].
  destruct (InvokeHandlerGuarded_contract (E := unit) (fun _ w => (w, Throw (Some (lit "boom"))))
    (mkRequest (lit "GET") (lit "/") [] [] []) [291; 5; 7] _ _ eq_refl) as (rq' & c & Hc & Hw).
  exists rq', c. split; [done|]. exact (Hw (mkWorld [] tt)).
Defined.

(** ** Origins *)

(** The origins of RFC 6454 that the gate knows. *)
Inductive Origin := opaque_origin | tuple_origin (scheme host : bytes) (port : Z).

Definition origin_of (text : bytes) : option Origin :=
  let lowered := lower text in
  if bytes_eqb lowered (lit "null") then Some opaque_origin
  else
    match Uri.ParseEndpoint lowered with
    | Ok e => if bool_decide (path_prefix e = [] /\ "@"%byte ∉ Uri.host e)
              then Some (tuple_origin (scheme e) (Uri.host e) (port e)) else None
    | Err _ => None
    end.

Definition origin_text (o : Origin) : bytes :=
  match o with
  | opaque_origin => lit "null"
  | tuple_origin scheme host port => endpoint_text (mkEndpoint scheme host port [])
  end.

Lemma NormalizeOrigin_text text : NormalizeOrigin text = origin_text <$> origin_of text.
Proof.
  unfold NormalizeOrigin, origin_of.
  destruct (bytes_eqb (lower text) (lit "null")) eqn:En; [by apply bytes_eqb_eq in En as ->|].
  destruct (Uri.ParseEndpoint (lower text)) as [e|e]; [|done].
  unfold contains_byte, bytes_eqb. repeat case_bool_decide; simpl; try tauto.
  unfold endpoint_text. simpl. by rewrite app_nil_r.
Qed.

Lemma origin_text_inj text text' o o' :
  origin_of text = Some o -> origin_of text' = Some o' -> origin_text o = origin_text o' -> o = o'.
Proof.
  intros H H' Et.
  assert (Hw : forall text o, origin_of text = Some o ->
            match o with
            | opaque_origin => True
            | tuple_origin s h p => Uri.ParseEndpoint (origin_text o) = Ok (mkEndpoint s h p [])
            end).
  { clear. unfold origin_of. intros text o H.
    destruct (bytes_eqb (lower text) _); [by injection H as <-|].
    destruct (Uri.ParseEndpoint (lower text)) as [e|e] eqn:Ee; [|done].
    case_bool_decide as Hc; [|done]. injection H as <-. apply ParseEndpoint_Ok in Ee.
    destruct e as [s h p pre]. simpl in *. destruct Hc as [-> _]. by apply ParseEndpoint_text. }
  apply Hw in H, H'. destruct o, o'; [done|..].
  - rewrite <- Et in H'. by vm_compute in H'.
  - rewrite Et in H. by vm_compute in H.
  - rewrite Et in H. congruence.
Qed.

Lemma normal_elem allowed normal text o :
  mapM NormalizeOrigin allowed = Some normal -> origin_of text = Some o ->
  (origin_text o ∈ normal <-> exists entry, entry ∈ allowed /\ origin_of entry = Some o).
Proof.
  intros Em Ho. apply mapM_Some in Em. revert normal Em.
  induction allowed as [|entry allowed IH]; intros normal Em; inversion Em as [|? y ? normal' Hy Hr]; subst.
  - split; [by intros ?%elem_of_nil|]. by intros (? & ?%elem_of_nil & _).
  - rewrite NormalizeOrigin_text in Hy. destruct (origin_of entry) as [o'|] eqn:Ee; [|done].
    injection Hy as <-. rewrite elem_of_cons, (IH normal' Hr). split.
    + intros [H|(e & Hin & He)].
      * exists entry. split; [left|]. rewrite Ee. f_equal. by eapply origin_text_inj.
      * exists e. split; [by right|done].
    + intros (e & [->|Hin]%elem_of_cons & He); [left; congruence|right; eauto].
Qed.

(** The Origin gate is exact: it can be built if and only if every entry
    of the allowlist is an origin, and it then admits an upgrade if and only if
    the request has no Origin field, or has exactly one and that is the same
    origin (scheme, host and port after case folding and default ports, or
    null) as an entry of the list; everything else is a 403. *)
Theorem RequireOrigin_exact allowed :
  (RequireOrigin allowed = None <-> exists entry, entry ∈ allowed /\ origin_of entry = None)
  /\ forall gate rq, RequireOrigin allowed = Some gate ->
     (gate rq = None
      <-> GetAll (lit "origin") (rq_headers rq) = []
          \/ exists text entry o, GetAll (lit "origin") (rq_headers rq) = [text]
             /\ entry ∈ allowed /\ origin_of text = Some o /\ origin_of entry = Some o)
     /\ (gate rq <> None -> exists rs, gate rq = Some rs /\ rs_status rs = 403).
Proof.
  unfold RequireOrigin. destruct (mapM NormalizeOrigin allowed) as [normal|] eqn:Em; cbn [mbind option_bind].
  - split.
    { split; [done|]. intros (entry & Hin & Hnone). exfalso. apply mapM_Some in Em.
      apply list_elem_of_lookup in Hin as [i Hi].
      destruct (Forall2_lookup_l _ _ _ _ _ Em Hi) as (y & _ & Hy).
      rewrite NormalizeOrigin_text, Hnone in Hy. done. }
    intros gate rq [= <-]. destruct (GetAll _ _) as [|text [|text' texts]].
    + split; [|done]. split; [by left|done].
    + assert (Hone : forall o, origin_of text = Some o ->
        (origin_text o ∈ normal <-> exists text' entry o', [text] = [text'] /\ entry ∈ allowed
           /\ origin_of text' = Some o' /\ origin_of entry = Some o')).
      { intros o Ho. rewrite (normal_elem _ _ _ _ Em Ho). naive_solver. }
      rewrite (NormalizeOrigin_text text). destruct (origin_of text) as [o|] eqn:Eo; simpl.
      * case_bool_decide as Hin; rewrite (Hone o eq_refl) in Hin.
        -- split; [|done]. split; [by right|done].
        -- split; [|by eexists]. split; [done|]. by intros [?|?].
      * split; [|by eexists]. split; [done|]. intros [?|(t & entry & o' & [= <-] & ? & ? & ?)]; [done|].
        congruence.
    + split; [|by eexists]. split; [done|]. intros [?|(t & entry & o' & ? & ?)]; done.
  - split; [|done]. split; [|done]. intros _. apply mapM_None in Em.
    apply Exists_exists in Em as (entry & Hin & Hn). exists entry. split; [done|].
    rewrite NormalizeOrigin_text in Hn. by destruct (origin_of entry).
Qed.

Definition example_origins : list bytes := [lit "https://A.com"].

Lemma RequireOrigin_exact_witness :
  exists gate, RequireOrigin example_origins = Some gate
  /\ gate (mkRequest [] [] [(lit "Origin", lit "https://a.com:443")] [] []) = None.
Proof.
  destruct (RequireOrigin_exact example_origins) as [Hnone Hgate].
  destruct (RequireOrigin example_origins) as [gate|].
  - exists gate. split; [done|]. apply (Hgate gate _ eq_refl). right.
    exists (lit "https://a.com:443"), (lit "https://A.com"), (tuple_origin (lit "https") (lit "a.com") 443).
    split; [by vm_compute|]. split; [left|]. split; by vm_compute.
  - exfalso. destruct (proj1 Hnone eq_refl) as (entry & Hin & Ho).
    apply list_elem_of_singleton in Hin as ->. by vm_compute in Ho.
Defined.
