(* ===== verification/SocketServer.v ===== *)
(** http/socket_transport.cc, [SocketHttpServer]: one turn of the accept loop,
    from the bytes that arrive to those that leave, with the guarded call of the
    handler between them; and the exchange between the socket client and it. *)
From Stdlib Require Import ZArith Lia Strings.Byte.
From S2P Require Import Prelude Bytes Headers Forwarded TraceContext Http1 Effects Middleware ServerDispatch.

Local Open Scope Z_scope.

(** What [accept] says of the peer: the answer of [getnameinfo] and its family. *)
Record Peer := mkPeer { peer_name : option (bytes * bytes); peer_family : Family }.

Definition peer_text (peer : Peer) : bytes := FormatPeerAddress (peer_name peer) (peer_family peer).

(** One turn of the accept loop on a connection: what it sends, and the words of
    the random engine that are left.  [None] when the reads given do not end the
    message, or the words do not do. *)
Definition serve {E} (handler : option (RequestHandler E)) (reads : list ReadResult) (peer : Peer)
    (draws : list Z) : option (M E bytes * list Z) :=
  message ← ReadHttp1Message reads false true kDefaultMaxBodyBytes;
  match server_request message (peer_text peer) with
  | inl response => Some (mret (server_wire response false), draws)
  | inr request =>
    let head := bytes_eqb (rq_method request) (lit "HEAD") in
    '(guarded, draws) ← InvokeHandlerGuarded handler request draws;
    Some (response ← guarded; mret (server_wire response head), draws)
  end.

(** What the call of [accept] gives the loop: nothing, or a connection; each with
    whether [stopping_] is set by then. *)
Inductive Accepted := Refused (stopping : bool) | Connection (stopping : bool) (peer : Peer) (reads : list ReadResult).

(** [AcceptLoop]: the texts sent, one per connection served, in order. *)
Fixpoint AcceptLoop {E} (handler : option (RequestHandler E)) (accepts : list Accepted) (draws : list Z)
    : option (M E (list bytes)) :=
  match accepts with
  | [] => Some (mret [])
  | Refused stopping :: accepts => if stopping then Some (mret []) else AcceptLoop handler accepts draws
  | Connection stopping peer reads :: accepts =>
    if stopping then Some (mret [])
    else
      '(turn, draws) ← serve handler reads peer draws;
      turns ← AcceptLoop handler accepts draws;
      Some (sent ← turn; rest ← turns; mret (sent :: rest))
  end.

Example serve_example :
  exists turn rest,
    serve (E := unit) (Some (fun rq => mret (mkResponse 200 [(lit "x-target", rq_target rq)] (rq_body rq) [])))
      [Data (lit "POST /a HTTP/1.1" ++ CRLF ++ lit "Content-Length:  3" ++ CRLF);
       Data (CRLF ++ lit "ab"); Data (lit "c")] (mkPeer None AF_INET) [291; 5; 7] = Some (turn, rest)
  /\ turn (mkWorld [] tt)
     = (mkWorld [] tt, Ret (lit "HTTP/1.1 200 " ++ CRLF ++ lit "content-length: 3" ++ CRLF ++ lit "connection: close"
                            ++ CRLF ++ lit "x-target: /a" ++ CRLF2 ++ lit "abc")).
Proof. eexists _, _. split; [reflexivity|]. by vm_compute. Qed.

(** ** The turn on a request of the socket client *)

Section Exchange.
Context {E : Type} (handler : RequestHandler E).
Context (rq : HttpRequest) (host port_text wire : bytes) (peer : Peer).

(** What the client writes and what the server's reader takes. *)
Record exchangeable : Prop := {
  ex_wire : client_wire rq host port_text = Ok wire;
  ex_host : ValidHeaderValue (host ++ ":"%byte :: port_text) = true;
  ex_length : GetAll (lit "content-length") (rq_headers rq) ∈ [[]; [to_string (len (rq_body rq))]];
  ex_encoding : GetAll (lit "transfer-encoding") (rq_headers rq) = [];
  ex_body : len (rq_body rq) <= kDefaultMaxBodyBytes;
  ex_head : len wire - len (rq_body rq) <= kMaxHeaderBytes
}.

(** What a client's reader takes of an answer. *)
Record readable (rs : HttpResponse) (head : bool) (max : Z) : Prop := {
  rd_status : 100 <= rs_status (framed_response rs) <= 599;
  rd_head : len (server_wire rs true) <= kMaxHeaderBytes;
  rd_size : len (rs_body (framed_response rs)) < 2 ^ 64;
  rd_cap : head = false -> len (rs_body (framed_response rs)) <= max
}.

(** The response as the client reads it. *)
Definition response_read (rs : HttpResponse) (head : bool) : HttpResponse :=
  mkResponse (rs_status (framed_response rs)) (map as_read (response_fields (framed_response rs)))
    (if head then [] else rs_body (framed_response rs)) [].

Lemma serve_turn chunks rest draws :
  exchangeable -> mjoin chunks = wire ->
  is_Some (EnsureInboundTraceIdentity (received rq host port_text (peer_text peer)) draws) ->
  exists guarded left,
    InvokeHandlerGuarded (Some handler) (received rq host port_text (peer_text peer)) draws = Some (guarded, left)
    /\ serve (Some handler) ((Data <$> chunks) ++ rest) peer draws
       = Some (response ← guarded; mret (server_wire response (bytes_eqb (rq_method rq) (lit "HEAD"))), left).
Proof.
  intros [Hw Hhost Hcl Hte Hb Hlen] Hc [[rq' left] Hd].
  destruct (server_reads rq host port_text wire chunks rest (peer_text peer)) as (m & Hm & Hr); try done.
  unfold serve. rewrite Hm. cbn [mbind option_bind]. rewrite Hr.
  unfold InvokeHandlerGuarded. rewrite Hd. cbn [mbind option_bind]. by eexists _, _.
Qed.

(** What the guarded call makes of the handler's run on [rq']: an answer gets
    the correlation id that a 5xx lacks, an exception becomes the 500 that names
    the trace, after its log line. *)
Definition guarded_answer (rq' : HttpRequest) (c : TraceContext) (w w' : World E) (response : HttpResponse) : Prop :=
  match handler rq' w with
  | (w1, Ret answer) => w' = w1 /\ correlated (trace_id c) answer response
  | (w1, Throw what) =>
    w' = mkWorld (clog w1 ++ crash_line rq' (trace_id c) (default (lit "unknown exception") what)) (env w1)
    /\ response = internal_error_response (trace_id c)
  end.

Lemma readable_short rs head max :
  100 <= rs_status rs <= 599 -> len (server_wire rs false) <= kMaxHeaderBytes ->
  len (server_wire rs false) <= max -> readable rs head max.
Proof.
  intros Hs H1 H2.
  assert (E0 : server_wire rs false = server_wire rs true ++ rs_body (framed_response rs)).
  { rewrite !server_wire_text. unfold message_text. by rewrite app_nil_r, <- !app_assoc. }
  rewrite E0, len_app in *. pose proof (len_nonneg (server_wire rs true)).
  pose proof (len_nonneg (rs_body (framed_response rs))).
  assert (kMaxHeaderBytes < 2 ^ 64) by by vm_compute.
  split; try lia. unfold framed_response. destruct (FindUnsafeHeader _); [done|exact Hs].
Qed.

(** C3: an exchange between the socket client and the socket server.  When
    [SocketHttpClient::Send] writes a request (at most one, exact content-length,
    no transfer-encoding, head within 64 KiB, body within the cap), then however
    TCP cuts the stream the server calls its handler once, on the method, target and
    body of that request and on the fields the writer sent (the host, the length
    and connection: close before the caller's own, all trimmed), under exactly one
    trace identity; what it sends is the framing of the handler's answer, with the
    correlation id a 5xx lacked, or of the 500 that an exception becomes, after the
    log line; and the client reads that back however it is cut: the status, the
    headers as the server framed them, and the body (none for HEAD). *)
Theorem http_exchange chunks rest draws :
  exchangeable -> mjoin chunks = wire ->
  is_Some (EnsureInboundTraceIdentity (received rq host port_text (peer_text peer)) draws) ->
  let head := bytes_eqb (rq_method rq) (lit "HEAD") in
  exists turn left rq' c,
    serve (Some handler) ((Data <$> chunks) ++ rest) peer draws = Some (turn, left)
    /\ traced (received rq host port_text (peer_text peer)) rq' c
    /\ forall w, exists w' response,
       guarded_answer rq' c w w' response
       /\ turn w = (w', Ret (server_wire response head))
       /\ forall chunks' rest' max, readable response head max -> mjoin chunks' = server_wire response head ->
          client_read (rq_method rq) ((Data <$> chunks') ++ rest') max = Some (Ok (response_read response head)).
Proof.
  intros Hex Hc Hd head.
  destruct (serve_turn chunks rest draws Hex Hc Hd) as (guarded & left & Hg & Hs).
  destruct (guarded_contract handler _ _ _ _ Hg) as (rq' & c & Ht & Hrun).
  eexists _, left, rq', c. split; [exact Hs|]. split; [exact Ht|]. intros w. specialize (Hrun w).
  unfold guarded_answer. destruct (handler rq' w) as [w1 [answer|what]].
  - destruct Hrun as (response & Hw & Hcorr). exists w1, response. split; [done|].
    split; [cbv [mbind M_bind]; by rewrite Hw|]. intros chunks' rest' max [? ? ? ?] Hc'. by apply client_response.
  - eexists _, _. split; [done|]. split; [cbv [mbind M_bind]; by rewrite Hrun|].
    intros chunks' rest' max [? ? ? ?] Hc'. by apply client_response.
Qed.

End Exchange.


Notation greeting := (mkRequest (lit "POST") (lit "/a") [(lit "x", lit " 1 ")] (lit "hi") []).
Notation greeting_wire := (lit "POST /a HTTP/1.1" ++ CRLF ++ lit "host: h:80" ++ CRLF ++ lit "content-length: 2"
  ++ CRLF ++ lit "connection: close" ++ CRLF ++ lit "x:  1 " ++ CRLF2 ++ lit "hi").
Notation greeting_peer := (mkPeer (Some (lit "::1", lit "9")) AF_INET6).
(** Answers 503 with a framing field of its own and the header it read. *)
Notation echo := (fun rq : HttpRequest => mret (M := M unit) (mkResponse 503
  [(lit "Connection", lit "upgrade"); (lit "x", default [] (Get (lit "x") (rq_headers rq)))] (rq_body rq) [])).
Notation echo_wire := (lit "HTTP/1.1 503 " ++ CRLF ++ lit "content-length: 2" ++ CRLF ++ lit "connection: close"
  ++ CRLF ++ lit "x: 1" ++ CRLF ++ lit "x-correlation-id: 32100000000000005000000000000000" ++ CRLF2 ++ lit "hi").

Lemma greeting_exchangeable : exchangeable greeting (lit "h") (lit "80") greeting_wire.
Proof.
  split; [vm_compute; reflexivity..| |vm_compute; reflexivity|by vm_compute|by vm_compute].
  apply (bool_decide_unpack _). by vm_compute.
Qed.

Lemma greeting_served turn left w out :
  serve (Some echo) ((Data <$> [take 7 greeting_wire; drop 7 greeting_wire]) ++ []) greeting_peer [291; 5; 7]
  = Some (turn, left) ->
  turn (mkWorld [] tt) = (w, Ret out) -> w = mkWorld [] tt /\ out = echo_wire.
Proof.
  intros [= <- _] Ht.
  assert (H : (mkWorld [] tt, Ret echo_wire) = (w, Ret out)) by (rewrite <- Ht; vm_compute; reflexivity).
  clear Ht. split; congruence.
Qed.

Lemma http_exchange_witness :
  exists turn left rq' c response,
    serve (Some echo) ((Data <$> [take 7 greeting_wire; drop 7 greeting_wire]) ++ []) greeting_peer [291; 5; 7]
      = Some (turn, left)
    /\ traced (received greeting (lit "h") (lit "80") (lit "[::1]:9")) rq' c
    /\ guarded_answer echo rq' c (mkWorld [] tt) (mkWorld [] tt) response
    /\ turn (mkWorld [] tt) = (mkWorld [] tt, Ret echo_wire)
    /\ client_read (lit "POST") ((Data <$> [take 9 echo_wire; drop 9 echo_wire]) ++ [Eof]) 1000
       = Some (Ok (response_read response false)).
Proof.
  destruct (http_exchange echo greeting (lit "h") (lit "80") greeting_wire greeting_peer
    [take 7 greeting_wire; drop 7 greeting_wire] [] [291; 5; 7] greeting_exchangeable
    ltac:(vm_compute; reflexivity) ltac:(vm_compute; eauto))
    as (turn & left & rq' & c & Hs & Ht & Hw).
  destruct (Hw (mkWorld [] tt)) as (w' & response & Hg & Hr & Hread).
  destruct (greeting_served _ _ _ _ Hs Hr) as [-> Hwire].
  change (bytes_eqb _ _) with false in Hwire.
  exists turn, left, rq', c, response. split; [exact Hs|]. split; [exact Ht|]. split; [exact Hg|].
  split; [by rewrite Hr, <- Hwire|].
  apply (Hread _ [Eof] 1000).
  - destruct Hg as [_ (Hstatus & _)]. apply readable_short.
    + rewrite Hstatus. by vm_compute.
    + rewrite Hwire. by vm_compute.
    + rewrite Hwire. by vm_compute.
  - symmetry. etransitivity; [exact Hwire|vm_compute; reflexivity].
Defined.
