(* ===== verification/Utf8.v ===== *)
(** Text in UTF-8: the sequence scanner of server/access_log.cc against the
    encoding of RFC 3629, and core/text.cc, which counts code points. *)
From Stdlib Require Import ZArith Lia Strings.Byte.
From S2P Require Import Prelude Bytes.

Local Open Scope Z_scope.

(** The code's [byte(k)] reads within the sequence only; [text] is the suffix
    that starts at index [i]. *)
Definition Utf8SequenceLength (text : bytes) : nat :=
  let byte k := b2z (nth k text "000"%byte) in
  let lead := byte 0%nat in
  let '(length, second_min, second_max) :=
    if (194 <=? lead) && (lead <=? 223) then (2%nat, 128, 191)
    else if (224 <=? lead) && (lead <=? 239) then
      (3%nat, if lead =? 224 then 160 else 128, if lead =? 237 then 159 else 191)
    else if (240 <=? lead) && (lead <=? 244) then
      (4%nat, if lead =? 240 then 144 else 128, if lead =? 244 then 143 else 191)
    else (0%nat, 128, 191) in
  if (length =? 0)%nat then 0%nat
  else if (List.length text <? length)%nat then 0%nat
  else if (byte 1%nat <? second_min) || (second_max <? byte 1%nat) then 0%nat
  else if forallb (fun k => negb ((byte k <? 128) || (191 <? byte k))) (seq 2 (length - 2)) then length
  else 0%nat.

(** U+FFFD. *)
Definition kReplacement : bytes := ["239"; "191"; "189"]%byte.

(** The scan of a key for malformed UTF-8. *)
Fixpoint well_formed_loop (fuel : nat) (key : bytes) : bool :=
  match fuel, key with
  | S fuel, c :: rest =>
    if b2z c <? 128 then well_formed_loop fuel rest
    else
      let length := Utf8SequenceLength key in
      if (length =? 0)%nat then false else well_formed_loop fuel (drop length key)
  | _, _ => true
  end.

(** core/text.cc: every byte that is no continuation byte counts. *)
Definition Utf8CodePointCount (text : bytes) : Z :=
  fold_left (fun count c => if negb (Z.land (b2z c) 192 =? 128) then count + 1 else count) text 0.

(** ** The encoding *)

(** The encoding of a scalar value, RFC 3629. *)
Definition utf8_encode (c : Z) : bytes :=
  if c <? 128 then [z2b c]
  else if c <? 2048 then [z2b (192 + c / 64); z2b (128 + c mod 64)]
  else if c <? 65536 then [z2b (224 + c / 4096); z2b (128 + c / 64 mod 64); z2b (128 + c mod 64)]
  else [z2b (240 + c / 262144); z2b (128 + c / 4096 mod 64); z2b (128 + c / 64 mod 64);
        z2b (128 + c mod 64)].

(** Scalar values outside ASCII. *)
Definition scalar (c : Z) : Prop := 128 <= c <= 1114111 /\ ~ (55296 <= c <= 57343).

Lemma scalar_ranges c : scalar c ->
  (128 <= c < 2048) \/ (2048 <= c < 65536 /\ ~ (55296 <= c <= 57343)) \/ (65536 <= c <= 1114111).
Proof. unfold scalar. lia. Qed.

Ltac decide_ifs :=
  repeat match goal with
  | |- context [if ?b then _ else _] =>
    match b with
    | context [if _ then _ else _] => fail 1
    | _ => first [replace b with true by lia | replace b with false by lia]
    end
  end.

Ltac split_ifs :=
  repeat match goal with
  | |- context [if ?b then _ else _] =>
    match b with
    | context [if _ then _ else _] => fail 1
    | _ => let E := fresh "E" in destruct b eqn:E
    end
  end.

Lemma Utf8SequenceLength_encode c rest :
  scalar c -> Utf8SequenceLength (utf8_encode c ++ rest) = length (utf8_encode c).
Proof.
  intros Hc. unfold utf8_encode, Utf8SequenceLength.
  destruct (scalar_ranges c Hc) as [H|[H|H]]; decide_ifs;
    cbn [nth app length]; rewrite !b2z_z2b_small by lia; decide_ifs;
    cbn [Nat.eqb Nat.ltb Nat.leb Nat.sub seq forallb nth];
    rewrite ?b2z_z2b_small by lia; decide_ifs; split_ifs; lia.
Qed.

Lemma utf8_encode_2 x y :
  194 <= x <= 223 -> 128 <= y <= 191 ->
  utf8_encode ((x - 192) * 64 + (y - 128)) = [z2b x; z2b y] /\ scalar ((x - 192) * 64 + (y - 128)).
Proof.
  intros Hx Hy. split; [|unfold scalar; lia]. unfold utf8_encode. decide_ifs. repeat f_equal; lia.
Qed.

Lemma utf8_encode_3 x y z :
  224 <= x <= 239 -> 128 <= z <= 191 ->
  (if x =? 224 then 160 else 128) <= y <= (if x =? 237 then 159 else 191) ->
  let c := (x - 224) * 4096 + (y - 128) * 64 + (z - 128) in
  utf8_encode c = [z2b x; z2b y; z2b z] /\ scalar c.
Proof.
  intros Hx Hz Hy c. assert (128 <= y <= 191) by (revert Hy; split_ifs; lia).
  assert (2048 <= c < 65536 /\ ~ (55296 <= c <= 57343)) by (revert Hy; split_ifs; lia).
  split; [|unfold scalar; lia]. unfold utf8_encode. decide_ifs. repeat f_equal; lia.
Qed.

Lemma utf8_encode_4 x y z u :
  240 <= x <= 244 -> 128 <= z <= 191 -> 128 <= u <= 191 ->
  (if x =? 240 then 144 else 128) <= y <= (if x =? 244 then 143 else 191) ->
  let c := (x - 240) * 262144 + (y - 128) * 4096 + (z - 128) * 64 + (u - 128) in
  utf8_encode c = [z2b x; z2b y; z2b z; z2b u] /\ scalar c.
Proof.
  intros Hx Hz Hu Hy c. assert (128 <= y <= 191) by (revert Hy; split_ifs; lia).
  assert (65536 <= c <= 1114111) by (revert Hy; split_ifs; lia).
  split; [|unfold scalar; lia]. unfold utf8_encode. decide_ifs. repeat f_equal; lia.
Qed.

(** What the scanner accepts is an encoding. *)
Lemma Utf8SequenceLength_inv text :
  Utf8SequenceLength text <> 0%nat ->
  exists c rest, scalar c /\ text = utf8_encode c ++ rest
                 /\ Utf8SequenceLength text = length (utf8_encode c).
Proof.
  intros Hn. enough (exists c rest, scalar c /\ text = utf8_encode c ++ rest) as (c & rest & Hc & ->).
  { exists c, rest. by rewrite Utf8SequenceLength_encode. }
  unfold Utf8SequenceLength in Hn.
  destruct text as [|b0 text]; [done|]. cbn [nth] in Hn.
  destruct ((194 <=? b2z b0) && (b2z b0 <=? 223)) eqn:E2;
    [|destruct ((224 <=? b2z b0) && (b2z b0 <=? 239)) eqn:E3;
      [|destruct ((240 <=? b2z b0) && (b2z b0 <=? 244)) eqn:E4; [|done]]].
  all: destruct text as [|b1 text]; [done|]; try (destruct text as [|b2 text]; [done|]);
    try (destruct text as [|b3 text]; [done|]); cbn -[Z.ltb] in Hn; zbool.
  all: destruct (_ || _) eqn:Es in Hn; [done|]; zbool.
  - destruct (utf8_encode_2 (b2z b0) (b2z b1)) as [He Hs]; [lia..|].
    eexists _, text. split; [exact Hs|]. by rewrite He, !z2b_b2z.
  - destruct (_ && _) eqn:Ef in Hn; [|done]. zbool.
    destruct (utf8_encode_3 (b2z b0) (b2z b1) (b2z b2)) as [He Hs]; [lia..|].
    eexists _, text. split; [exact Hs|]. by rewrite He, !z2b_b2z.
  - destruct (_ && _) eqn:Ef in Hn; [|done]. zbool.
    destruct (utf8_encode_4 (b2z b0) (b2z b1) (b2z b2) (b2z b3)) as [He Hs]; [lia..|].
    eexists _, text. split; [exact Hs|]. by rewrite He, !z2b_b2z.
Qed.

(** ** Code points *)

Definition unicode (c : Z) : Prop := 0 <= c < 128 \/ scalar c.

Definition utf8_text (cs : list Z) : bytes := mjoin (utf8_encode <$> cs).

Lemma continuation_byte b : (Z.land (b2z b) 192 =? 128) = (128 <=? b2z b) && (b2z b <? 192).
Proof.
  revert b. assert (H : forall b, Bool.eqb (Z.land (b2z b) 192 =? 128)
                                   ((128 <=? b2z b) && (b2z b <? 192)) = true).
  { apply byte_forall. by vm_compute. }
  intros b. by apply Bool.eqb_prop.
Qed.

Lemma count_encode c rest n :
  unicode c ->
  fold_left (fun count c => if negb (Z.land (b2z c) 192 =? 128) then count + 1 else count)
    (utf8_encode c ++ rest) n
  = fold_left (fun count c => if negb (Z.land (b2z c) 192 =? 128) then count + 1 else count) rest (n + 1).
Proof.
  intros Hc. unfold utf8_encode.
  destruct Hc as [Hc|Hc]; [|destruct (scalar_ranges c Hc) as [H|[H|H]]]; decide_ifs; cbn [app fold_left];
    rewrite !continuation_byte, !b2z_z2b_small by lia; decide_ifs; done.
Qed.

(** Every byte of an encoding outside ASCII is at least 0x80. *)
Lemma utf8_encode_high c : scalar c -> Forall (fun b => 128 <= b2z b) (utf8_encode c) /\ utf8_encode c <> [].
Proof.
  intros Hc. unfold utf8_encode.
  destruct (scalar_ranges c Hc) as [H|[H|H]]; decide_ifs; (split; [|done]);
    repeat constructor; rewrite b2z_z2b_small by lia; lia.
Qed.

(** How the loops over a text see its next piece. *)
Lemma next_piece (s : bytes) : s <> [] ->
  (exists c rest, s = c :: rest /\ b2z c < 128)
  \/ (exists c rest, s = c :: rest /\ 128 <= b2z c /\ Utf8SequenceLength s = 0%nat)
  \/ (exists u rest b l, s = utf8_encode u ++ rest /\ scalar u /\ utf8_encode u = b :: l /\ 128 <= b2z b
        /\ Utf8SequenceLength s = S (length l)).
Proof.
  intros Hs. destruct s as [|c rest]; [done|].
  destruct (Z.ltb_spec (b2z c) 128); [left; eauto|right].
  destruct (decide (Utf8SequenceLength (c :: rest) = 0%nat)) as [E|E]; [left; eauto 6|right].
  destruct (Utf8SequenceLength_inv _ E) as (u & rest' & Hu & Es & El).
  destruct (utf8_encode_high u Hu) as [Hhigh Hne].
  exists u, rest'. destruct (utf8_encode u) as [|b l]; [done|]. exists b, l.
  inversion Hhigh; subst. done.
Qed.

(** Text that is well-formed UTF-8. *)
Definition utf8 (s : bytes) : Prop := exists cs, Forall unicode cs /\ s = utf8_text cs.

Lemma well_formed_sound fuel : forall s, (length s <= fuel)%nat -> well_formed_loop fuel s = true -> utf8 s.
Proof.
  assert (Hcons : forall u rest, unicode u -> utf8 rest -> utf8 (utf8_encode u ++ rest)).
  { intros u rest Hu (cs & Hcs & ->). exists (u :: cs). by split; [constructor|]. }
  induction fuel as [|fuel IH]; intros s Hl Hw; [destruct s; [by exists []|simpl in Hl; lia]|].
  destruct (decide (s = [])) as [->|Hne]; [by exists []|].
  destruct (next_piece s Hne) as [(c & r & -> & Hc)|[(c & r & -> & Hc & Hn)|(u & r & b & l & Es & Hu & Eu & Hb & El)]].
  - cbn [well_formed_loop length] in *. replace (b2z c <? 128) with true in Hw by lia.
    pose proof (b2z_range c). apply IH in Hw; [|lia].
    specialize (Hcons (b2z c) r ltac:(left; lia) Hw). unfold utf8_encode in Hcons.
    replace (b2z c <? 128) with true in Hcons by lia. by rewrite z2b_b2z in Hcons.
  - cbn [well_formed_loop] in Hw. replace (b2z c <? 128) with false in Hw by lia. by rewrite Hn in Hw.
  - rewrite Es. apply Hcons; [by right|]. apply IH; rewrite Eu in Es; subst s; cbn [app length] in *.
    + rewrite length_app in Hl. lia.
    + cbn [well_formed_loop] in Hw. replace (b2z b <? 128) with false in Hw by lia. rewrite El in Hw.
      cbn [Nat.eqb] in Hw. change (b :: l ++ r) with ((b :: l) ++ r) in Hw.
      change (S (length l)) with (length (b :: l)) in Hw. by rewrite drop_app_length in Hw.
Qed.

Lemma well_formed_complete cs : Forall unicode cs -> forall fuel, (length (utf8_text cs) <= fuel)%nat ->
  well_formed_loop fuel (utf8_text cs) = true.
Proof.
  induction 1 as [|c cs Hc _ IH]; intros fuel Hf; [by destruct fuel|].
  change (utf8_text (c :: cs)) with (utf8_encode c ++ utf8_text cs) in *. rewrite length_app in Hf.
  destruct Hc as [Hc|Hc].
  - unfold utf8_encode in *. replace (c <? 128) with true in * by lia. cbn [app length] in *.
    destruct fuel as [|fuel]; [lia|]. cbn [well_formed_loop]. rewrite b2z_z2b_small by lia.
    replace (c <? 128) with true by lia. apply IH. lia.
  - pose proof (Utf8SequenceLength_encode c (utf8_text cs) Hc) as El.
    destruct (utf8_encode_high c Hc) as [Hh Hne]. destruct (utf8_encode c) as [|b l]; [done|].
    inversion Hh; subst. cbn [length] in Hf. destruct fuel as [|fuel]; [lia|].
    cbn [app well_formed_loop]. replace (b2z b <? 128) with false by lia.
    cbn [app] in El. rewrite El. change (length (b :: l) =? 0)%nat with false. cbv iota.
    rewrite app_comm_cons, drop_app_length. apply IH. lia.
Qed.

Lemma well_formed_utf8 s : well_formed_loop (length s) s = true <-> utf8 s.
Proof.
  split; [by apply well_formed_sound|]. intros (cs & Hcs & ->). by apply well_formed_complete.
Qed.

(** The length of a string that [@length] constraints see is its number of
    code points: on the UTF-8 encoding of any sequence of Unicode scalar values
    [Utf8CodePointCount] answers how many there are. *)
Theorem Utf8CodePointCount_exact cs (Hcs : Forall unicode cs) :
  Utf8CodePointCount (utf8_text cs) = len cs.
Proof.
  unfold Utf8CodePointCount. rewrite <- (Z.add_0_l (len cs)). generalize 0. unfold utf8_text.
  induction Hcs as [|c cs Hc Hcs IH]; intros n; [simpl; unfold len; simpl; lia|].
  cbn [fmap list_fmap mjoin list_join]. rewrite count_encode, IH, len_cons by done. lia.
Qed.

Lemma Utf8CodePointCount_exact_witness :
  Forall unicode [97; 233; 8364; 128512] /\ Utf8CodePointCount (utf8_text [97; 233; 8364; 128512]) = 4.
Proof.
  assert (Forall unicode [97; 233; 8364; 128512]) as H
    by (unfold unicode, scalar; repeat constructor; lia).
  split; [done|]. apply (Utf8CodePointCount_exact _ H).
Defined.
