(* ===== verification/StreamRouter.v ===== *)
(** server/websocket_router.cc: method and pattern dispatch of WebSocket
    upgrades, over the pattern grammar of Router.v.  The socket, its [Close] and
    what a route's callback touches are parameters; a null [std::function] is
    [None]. *)
From Stdlib Require Import ZArith Lia Strings.Byte.
From S2P Require Import Prelude Bytes Uri OrdMap Headers Router Effects.

Local Open Scope Z_scope.

Inductive Seam := kNone | kBorrowed | kShared.

#[global] Instance Seam_eq_dec : EqDecision Seam.
Proof. solve_decision. Defined.

Definition RouteName (method pattern : bytes) : bytes := method ++ " "%byte :: pattern.

(** What [log] writes at the end of every line. *)
Definition line (text : bytes) : bytes := text ++ [x0a].

Section StreamRouter.
Context {E W : Type} (Close : W -> M E unit).

Definition StreamServe : Type := HttpRequest -> RequestContext -> W -> M E unit.

Record StreamRoute := mkStreamRoute {
  stream_segments : list Segment;
  serve : option StreamServe;
  serve_session : option StreamServe;
  stream_operation : bytes
}.

Record WebSocketRouter := mkStreamRouter {
  stream_routes : list (bytes * list StreamRoute);
  seam_ : Seam
}.

Definition empty_router : WebSocketRouter := mkStreamRouter [] kNone.

(** [AddRoute]: the route arrives with its callback slot engaged. *)
Definition AddRoute (method pattern : bytes) (s c : option StreamServe) (op : bytes) (seam : Seam)
    (r : WebSocketRouter) : Outcome unit * WebSocketRouter :=
  match ParsePattern pattern with
  | Err e => (Err e, r)
  | Ok segs =>
    let routes := sm_emplace method [] (stream_routes r) in
    let bucket := default [] (sm_lookup method routes) in
    if existsb (fun existing => SameShape (stream_segments existing) segs) bucket then
      (Err (Error_Validation (lit "router: conflicting route: " ++ RouteName method pattern)),
       mkStreamRouter routes (seam_ r))
    else (Ok tt, mkStreamRouter (sm_insert method (bucket ++ [mkStreamRoute segs s c op]) routes) seam)
  end.

Definition AddStream (method pattern : bytes) (s : option StreamServe) (op : bytes)
    (r : WebSocketRouter) : Outcome unit * WebSocketRouter :=
  if decide (seam_ r = kShared) then
    (Err (Error_Validation (lit "router: cannot Add " ++ RouteName method pattern
       ++ lit ": this router serves the shared seam (AddSession/on_websocket_session); one router mounts one dispatcher, so its routes serve one seam")), r)
  else AddRoute method pattern s None op kBorrowed r.

Definition AddSession (method pattern : bytes) (s : option StreamServe) (op : bytes)
    (r : WebSocketRouter) : Outcome unit * WebSocketRouter :=
  if decide (seam_ r = kBorrowed) then
    (Err (Error_Validation (lit "router: cannot AddSession " ++ RouteName method pattern
       ++ lit ": this router serves the borrowed seam (Add/on_websocket); one router mounts one dispatcher, so its routes serve one seam")), r)
  else AddRoute method pattern None s op kShared r.

Definition stream_matches (segs : list bytes) (route : StreamRoute) : bool :=
  MatchSegments (stream_segments route) segs.

(** One turn of the scan in [FindBest]. *)
Definition better_stream (segs : list bytes) (best : option StreamRoute) (route : StreamRoute)
    : option StreamRoute :=
  if negb (stream_matches segs route) then best
  else match best with
       | None => Some route
       | Some b => if MoreSpecific (stream_segments route) (stream_segments b) then Some route else best
       end.

Definition FindBest (r : WebSocketRouter) (method : bytes) (segs : list bytes) : option StreamRoute :=
  match sm_lookup method (stream_routes r) with
  | None => None
  | Some bucket => fold_left (better_stream segs) bucket None
  end.

(** One turn of the Allow loop in [Gate]. *)
Definition allow_entry (method : bytes) (segs : list bytes) (allow : bytes)
    (e : bytes * list StreamRoute) : bytes :=
  if bytes_eqb (fst e) method then allow
  else if negb (existsb (stream_matches segs) (snd e)) then allow
  else (match allow with [] => [] | _ => allow ++ lit ", " end) ++ fst e.

(** [Gate]: [None] admits the upgrade. *)
Definition Gate (r : WebSocketRouter) (rq : HttpRequest) : option HttpResponse :=
  match NormalizedTarget (rq_target rq) with
  | Err _ => Some (MakeErrorResponse 400 (lit "BadRequest") (lit "malformed request target"))
  | Ok target =>
    match FindBest r (rq_method rq) (path_segments target) with
    | Some _ => None
    | None =>
      let allow := fold_left (allow_entry (rq_method rq) (path_segments target)) (stream_routes r) [] in
      match allow with
      | [] => Some (MakeErrorResponse 404 (lit "NotFound") (lit "no route matches the request"))
      | _ =>
        let response := MakeErrorResponse 405 (lit "MethodNotAllowed") (lit "method not allowed") in
        Some (mkResponse (rs_status response) (Set_ (lit "allow") allow (rs_headers response))
          (rs_body response) (rs_operation response))
      end
    end
  end.

Definition MatchForServe (r : WebSocketRouter) (rq : HttpRequest)
    : option (StreamRoute * RequestContext) :=
  match NormalizedTarget (rq_target rq) with
  | Err _ => None
  | Ok target =>
    best ← FindBest r (rq_method rq) (path_segments target);
    Some (best, mkContext (default [] (MatchLabels (stream_segments best) (path_segments target)))
      (query_params target) rq)
  end.

Definition wrong_seam_borrowed (op : bytes) : bytes :=
  line (lit "opal: router: route '" ++ op
    ++ lit "' serves the shared seam; mount ServeSession(), not Serve()").
Definition wrong_seam_shared (op : bytes) : bytes :=
  line (lit "opal: router: route '" ++ op
    ++ lit "' serves the borrowed seam; mount Serve(), not ServeSession()").

(** The callable [Serve] returns. *)
Definition serve_upgrade (r : WebSocketRouter) (rq : HttpRequest) (socket : W) : M E unit :=
  match MatchForServe r rq with
  | None => Close socket
  | Some (best, context) =>
    match serve best with
    | None => _ ← log (wrong_seam_borrowed (stream_operation best)); Close socket
    | Some f => f rq context socket
    end
  end.

Definition Serve (r : WebSocketRouter) : M E (HttpRequest -> W -> M E unit) :=
  _ ← (if decide (seam_ r = kShared)
       then log (line (lit "opal: router: every route here serves the shared seam (an async-handler server); mount options.on_websocket_session = ServeSession(), not Serve()"))
       else mret tt);
  mret (serve_upgrade r).

(** The callable [ServeSession] returns. *)
Definition serve_session_upgrade (r : WebSocketRouter) (rq : HttpRequest) (socket : W) : M E unit :=
  match MatchForServe r rq with
  | None => Close socket
  | Some (best, context) =>
    match serve_session best with
    | None => _ ← log (wrong_seam_shared (stream_operation best)); Close socket
    | Some f => f rq context socket
    end
  end.

Definition ServeSession (r : WebSocketRouter) : M E (HttpRequest -> W -> M E unit) :=
  _ ← (if decide (seam_ r = kBorrowed)
       then log (line (lit "opal: router: every route here serves the borrowed seam (a blocking-handler server); mount options.on_websocket = Serve(), not ServeSession()"))
       else mret tt);
  mret (serve_session_upgrade r).

End StreamRouter.

(** ** The unary router with the same table *)

Section Unary.
Context {E W : Type} (f : @StreamRoute E W -> RouteHandler).

Definition as_entry (s : @StreamRoute E W) : RouteEntry :=
  mkEntry (stream_segments s) (f s) (stream_operation s).

Definition unary (r : @WebSocketRouter E W) : list (bytes * list RouteEntry) :=
  sm_map (map as_entry) (stream_routes r).

Lemma better_unary segs best route :
  better segs (as_entry <$> best) (as_entry route) = as_entry <$> better_stream segs best route.
Proof.
  unfold better, better_stream, route_matches, stream_matches. simpl.
  destruct (MatchSegments _ _); simpl; [|done]. destruct best as [b|]; simpl; [|done].
  by destruct (MoreSpecific _ _).
Qed.

Lemma best_unary segs bucket : forall best,
  fold_left (better segs) (map as_entry bucket) (as_entry <$> best)
  = as_entry <$> fold_left (better_stream segs) bucket best.
Proof. induction bucket as [|s bucket IH]; intros best; simpl; [done|]. by rewrite better_unary, IH. Qed.

Lemma FindBest_unary r method segs :
  match sm_lookup method (unary r) with
  | Some bucket => best_route bucket segs
  | None => None
  end = as_entry <$> FindBest r method segs.
Proof.
  unfold unary, FindBest. rewrite sm_lookup_map. destruct (sm_lookup _ _); simpl; [|done].
  apply (best_unary segs l None).
Qed.

Lemma matches_unary segs bucket :
  existsb (route_matches segs) (map as_entry bucket) = existsb (stream_matches segs) bucket.
Proof. induction bucket; simpl; [done|]. f_equal. done. Qed.

Lemma allow_unary method segs routes : forall allow,
  fold_left (fun allow m => match allow with [] => m | _ => allow ++ lit ", " ++ m end)
    (allowed_methods method segs (sm_map (map as_entry) routes)) allow
  = fold_left (allow_entry method segs) routes allow.
Proof.
  unfold allowed_methods. induction routes as [|[m bucket] routes IH]; intros allow; [done|].
  cbn [sm_map map fold_left]. rewrite filter_cons. unfold allow_entry at 2. cbn [fst snd].
  rewrite matches_unary. destruct (bytes_eqb m method); cbn [negb andb].
  - rewrite decide_False by done. apply IH.
  - destruct (existsb _ _); cbn [negb].
    + rewrite decide_True by done. rewrite fmap_cons. cbn [fold_left fst]. rewrite IH. f_equal.
      destruct allow; [done|]. by rewrite app_assoc.
    + rewrite decide_False by done. apply IH.
Qed.

Lemma existsb_shape_unary segs bucket :
  existsb (fun existing => SameShape (segments existing) segs) (map as_entry bucket)
  = existsb (fun existing => SameShape (stream_segments existing) segs) bucket.
Proof. induction bucket; simpl; [done|]. f_equal. done. Qed.

(** What a call adds, once its pattern parses. *)
Definition route_added (pattern : bytes) (s c : option (@StreamServe E W)) (op : bytes) : @StreamRoute E W :=
  mkStreamRoute (match ParsePattern pattern with Ok p => p | Err _ => [] end) s c op.

Lemma AddRoute_unary method pattern s c op seam r :
  Add method pattern (f (route_added pattern s c op)) op (unary r)
  = (fst (AddRoute method pattern s c op seam r), unary (snd (AddRoute method pattern s c op seam r))).
Proof.
  unfold Add, AddRoute, route_added. destruct (ParsePattern pattern) as [segs|e] eqn:Ep; [|done].
  unfold unary. rewrite <- (sm_emplace_map (map as_entry) method []), sm_lookup_map.
  destruct (sm_lookup method (sm_emplace method [] (stream_routes r))) as [bucket|] eqn:El; simpl.
  - rewrite existsb_shape_unary. destruct (existsb _ _); [done|]. unfold unary. simpl.
    f_equal. by rewrite sm_insert_map, map_app.
  - unfold unary. simpl. f_equal. by rewrite sm_insert_map.
Qed.

End Unary.

(** ** Registration *)

Section Registration.
Context {E W : Type}.
Notation route := (@StreamRoute E W).
Notation router := (@WebSocketRouter E W).

Inductive StreamCall :=
| CallAdd (method pattern : bytes) (s : option (@StreamServe E W)) (op : bytes)
| CallAddSession (method pattern : bytes) (s : option (@StreamServe E W)) (op : bytes).

Definition apply_call (r : router) (c : StreamCall) : router :=
  match c with
  | CallAdd method pattern s op => snd (AddStream method pattern s op r)
  | CallAddSession method pattern s op => snd (AddSession method pattern s op r)
  end.

(** The router a server has after its wiring calls. *)
Definition register (calls : list StreamCall) : router := fold_left apply_call calls empty_router.

(** The call passes a callback, not a null [std::function]. *)
Definition engaged (c : StreamCall) : Prop :=
  match c with CallAdd _ _ s _ | CallAddSession _ _ s _ => s <> None end.

Definition of_seam (seam : Seam) (s : route) : Prop :=
  match seam with
  | kNone => False
  | kBorrowed => serve s <> None /\ serve_session s = None
  | kShared => serve s = None /\ serve_session s <> None
  end.

(** Every route belongs to the latched seam. *)
Definition one_seam (r : router) : Prop :=
  Forall (fun e => Forall (of_seam (seam_ r)) (snd e)) (stream_routes r).

Lemma emplaced_seam (P : route -> Prop) method routes :
  Forall (fun e => Forall P (snd e)) routes ->
  Forall (fun e => Forall P (snd e)) (sm_emplace method [] routes).
Proof.
  intros H. unfold sm_emplace. destruct (sm_lookup _ _); [done|].
  apply sm_insert_Forall; [by constructor|done].
Qed.

Lemma bucket_seam (P : route -> Prop) method routes bucket :
  Forall (fun e => Forall P (snd e)) routes -> sm_lookup method routes = Some bucket -> Forall P bucket.
Proof.
  induction 1 as [|[k b] routes Hb _ IH]; simpl; [done|].
  destruct (bcmp method k); [by intros [= <-]|done..].
Qed.

Lemma AddRoute_seam method pattern s c op seam (r : router) :
  one_seam r -> seam_ r = kNone \/ seam_ r = seam ->
  (forall segs, of_seam seam (mkStreamRoute segs s c op)) ->
  one_seam (snd (AddRoute method pattern s c op seam r)).
Proof.
  intros H Hs Hr. unfold AddRoute. destruct (ParsePattern pattern) as [segs|e]; [|done].
  pose proof (emplaced_seam _ method _ H) as He.
  destruct (existsb _ _); simpl; [exact He|]. unfold one_seam. simpl.
  assert (Hup : Forall (fun e => Forall (of_seam seam) (snd e)) (sm_emplace method [] (stream_routes r))).
  { destruct Hs as [Hn|Hs]; [|by rewrite Hs in He]. rewrite Hn in He. eapply Forall_impl; [exact He|].
    intros e Hf. eapply Forall_impl; [exact Hf|]. done. }
  apply sm_insert_Forall; [|done]. simpl. apply Forall_app. split; [|by constructor].
  destruct (sm_lookup _ _) eqn:El; simpl; [|by constructor]. by eapply bucket_seam.
Qed.

Lemma apply_call_seam r c : one_seam r -> engaged c -> one_seam (apply_call r c).
Proof.
  intros H Hc. destruct c as [method pattern s op|method pattern s op]; simpl in *.
  - unfold AddStream. destruct (decide _) as [|Hs]; [done|].
    apply AddRoute_seam; [done|destruct (seam_ r); auto; congruence|done].
  - unfold AddSession. destruct (decide _) as [|Hs]; [done|].
    apply AddRoute_seam; [done|destruct (seam_ r); auto; congruence|done].
Qed.

Lemma register_ind (P : router -> Prop) calls :
  P empty_router -> (forall r c, c ∈ calls -> P r -> P (apply_call r c)) -> P (register calls).
Proof.
  intros H0. unfold register. generalize (@empty_router E W) H0. induction calls as [|c calls IH];
    intros r Hr Hstep; simpl; [done|].
  apply IH; [apply Hstep; [by left|done]|]. intros r' c' Hc'. apply Hstep. by right.
Qed.

Lemma register_seam calls : Forall engaged calls -> one_seam (register calls).
Proof.
  intros H. rewrite Forall_forall in H. apply register_ind; [by constructor|].
  intros r c Hc Hr. apply apply_call_seam; auto.
Qed.

Lemma register_sound f calls : router_ok (unary f (register calls)).
Proof.
  apply register_ind; [by split; [|intros m b]|]. intros r c _ Hr.
  assert (Hadd : forall method pattern s c op seam,
    router_ok (unary f (snd (AddRoute method pattern s c op seam r)))).
  { intros method pattern s c' op seam.
    pose proof (Add_spec method pattern (f (route_added pattern s c' op)) op (unary f r) Hr) as Ha.
    rewrite (AddRoute_unary f method pattern s c' op seam) in Ha.
    destruct (fst _); [by destruct Ha|by rewrite Ha]. }
  destruct c; simpl; [unfold AddStream|unfold AddSession]; destruct (decide _); auto.
Qed.

Lemma FindBest_of_seam (r : router) method segs s :
  one_seam r -> FindBest r method segs = Some s -> of_seam (seam_ r) s.
Proof.
  unfold FindBest. intros Hr. destruct (sm_lookup _ _) as [bucket|] eqn:El; [|done].
  pose proof (bucket_seam _ _ _ _ Hr El) as Hb. clear El.
  assert (H0 : forall b, @None route = Some b -> of_seam (seam_ r) b) by done.
  revert H0. generalize (@None route). induction Hb as [|x bucket Hx _ IH]; intros best H0; simpl; [apply H0|].
  apply IH. intros b. unfold better_stream. destruct (stream_matches _ _); simpl; [|apply H0].
  destruct best as [b'|]; [destruct (MoreSpecific _ _); [|apply H0]|]; by intros [= <-].
Qed.

End Registration.

Arguments StreamCall : clear implicits.
Arguments register {E W} calls.

(** ** The claim *)

(** C13: upgrades route exactly as unary requests do, and one router serves one
    seam.  After any wiring calls with callbacks, the table read as a unary
    router (any handler per route) is sound; a refused upgrade gets the very
    response [Router::Route] gives, and both dispatchers close it; an admitted
    one has a route that [Router::Route] would dispatch to in the same context,
    and the dispatcher of the router's seam runs that route's callback on it
    while the other logs the mistake and closes the session. *)
Theorem upgrades_routed {E W} (Close : W -> M E unit) f (calls : list (StreamCall E W)) rq socket :
  Forall engaged calls ->
  let r := register calls in
  router_ok (unary f r)
  /\ match Gate r rq with
     | Some refusal =>
       Route (unary f r) rq = refusal
       /\ serve_upgrade Close r rq socket = Close socket
       /\ serve_session_upgrade Close r rq socket = Close socket
     | None => exists route context,
       MatchForServe r rq = Some (route, context)
       /\ Route (unary f r) rq = stamp_operation (stream_operation route) (f route rq context)
       /\ ((seam_ r = kBorrowed /\ exists g, serve route = Some g
            /\ serve_upgrade Close r rq socket = g rq context socket
            /\ serve_session_upgrade Close r rq socket
               = (_ ← log (wrong_seam_shared (stream_operation route)); Close socket))
           \/ (seam_ r = kShared /\ exists g, serve_session route = Some g
            /\ serve_session_upgrade Close r rq socket = g rq context socket
            /\ serve_upgrade Close r rq socket
               = (_ ← log (wrong_seam_borrowed (stream_operation route)); Close socket)))
     end.
Proof.
  intros Hc r. split; [apply register_sound|]. pose proof (register_seam calls Hc) as Hs. fold r in Hs.
  unfold Gate, Route, serve_upgrade, serve_session_upgrade, MatchForServe.
  destruct (NormalizedTarget (rq_target rq)) as [target|e]; [|done].
  rewrite FindBest_unary. destruct (FindBest r _ _) as [route|] eqn:Eb; simpl.
  - eexists _, _. split; [done|]. split; [by destruct (stream_operation route)|].
    pose proof (FindBest_of_seam _ _ _ _ Hs Eb) as Ho.
    destruct (seam_ r); [done|left|right]; destruct Ho as [Hx Hy].
    + split; [done|]. destruct (serve route) as [g|]; [|done]. exists g. by rewrite Hy.
    + split; [done|]. destruct (serve_session route) as [g|]; [|done]. exists g. by rewrite Hx.
  - unfold unary, allow_text. rewrite allow_unary. by destruct (fold_left _ _ _).
Qed.

(** A router of two borrowed routes; the second call's seam is refused. *)
Definition chat_serve : @StreamServe unit unit := fun rq context _ => log (rq_target rq).

Definition chat_calls : list (StreamCall unit unit) :=
  [CallAdd (lit "GET") (lit "/rooms/{room}/stream") (Some chat_serve) (lit "Chat");
   CallAddSession (lit "GET") (lit "/other") (Some chat_serve) (lit "Other");
   CallAdd (lit "GET") (lit "/rooms/lobby/stream") (Some chat_serve) (lit "Lobby")].

Example chat_admitted :
  Gate (register chat_calls) (mkRequest (lit "GET") (lit "/rooms/a%20b/stream") [] [] []) = None
  /\ (rs_status <$> Gate (register chat_calls) (mkRequest (lit "POST") (lit "/rooms/lobby/stream") [] [] []))
     = Some 405
  /\ (rs_status <$> Gate (register chat_calls) (mkRequest (lit "GET") (lit "/other") [] [] [])) = Some 404.
Proof. by vm_compute. Qed.

Lemma upgrades_routed_witness :
  let r := register chat_calls in
  let rq := mkRequest (lit "GET") (lit "/rooms/lobby/stream") [] [] [] in
  let f := fun (s : @StreamRoute unit unit) _ (_ : RequestContext) => mkResponse 200 [] [] [] in
  Gate r rq = None /\ router_ok (unary f r)
  /\ exists route context, MatchForServe r rq = Some (route, context)
     /\ Route (unary f r) rq = stamp_operation (stream_operation route) (f route rq context).
Proof.
  intros r rq f.
  assert (Hc : Forall engaged chat_calls) by (unfold chat_calls; repeat constructor; done).
  pose proof (upgrades_routed (fun _ => mret tt) f chat_calls rq tt Hc) as [Hok H].
  change (register chat_calls) with r in Hok, H.
  assert (Hg : Gate r rq = None) by (by vm_compute). rewrite Hg in H.
  destruct H as (route & context & Hm & Hr & _). eauto 6.
Defined.
