(* ===== verification/AccessLog.v ===== *)
(** server/access_log.cc: one request observation rendered as one line of
    JSON.  The reference is a strict reader of such a line, written from the
    grammar of RFC 8259 and RFC 3629 and independent of the writer. *)
From Stdlib Require Import ZArith Lia Strings.Byte.
From S2P Require Import Prelude Bytes Utf8 Headers Forwarded TraceContext Effects Middleware.

Local Open Scope Z_scope.

Definition SourceName (s : Source) : bytes :=
  match s with
  | kDirectPeer => lit "direct_peer"
  | kUntrustedHeaderIgnored => lit "untrusted_header_ignored"
  | kForwarded => lit "forwarded"
  | kTrustedTier => lit "trusted_tier"
  | kUnknown => lit "unknown"
  end.

(** The [switch] on a byte below 0x80. *)
Definition escape_byte (c : Byte.byte) : bytes :=
  if byte_eqb c x22 then ["\"%byte; x22]
  else if byte_eqb c "\"%byte then ["\"; "\"]%byte
  else if byte_eqb c "008"%byte then ["\"; "b"]%byte
  else if byte_eqb c "012"%byte then ["\"; "f"]%byte
  else if byte_eqb c "010"%byte then ["\"; "n"]%byte
  else if byte_eqb c "013"%byte then ["\"; "r"]%byte
  else if byte_eqb c "009"%byte then ["\"; "t"]%byte
  else if b2z c <? 32 then
    lit "\u00" ++ [nth (Z.to_nat (Z.shiftr (b2z c) 4)) kHex "000"%byte;
                   nth (Z.to_nat (Z.land (b2z c) 15)) kHex "000"%byte]
  else [c].

(** The loop: each turn consumes a byte or a whole sequence. *)
Fixpoint escape_loop (fuel : nat) (value : bytes) : bytes :=
  match fuel, value with
  | S fuel, c :: rest =>
    if b2z c >=? 128 then
      let length := Utf8SequenceLength value in
      if (length =? 0)%nat then kReplacement ++ escape_loop fuel rest
      else take length value ++ escape_loop fuel (drop length value)
    else escape_byte c ++ escape_loop fuel rest
  | _, _ => []
  end.

Definition AppendEscaped (out value : bytes) : bytes :=
  out ++ x22 :: escape_loop (length value) value ++ [x22].

Definition AppendKey (out key : bytes) : bytes :=
  let out := if len out >? 1 then out ++ [","%byte] else out in
  AppendEscaped out key ++ [":"%byte].

Definition AppendString (out key value : bytes) : bytes := AppendEscaped (AppendKey out key) value.

Definition AppendInteger (out key : bytes) (value : Z) : bytes := AppendKey out key ++ int_text value.

Definition kBuiltInKeys : list bytes := Eval vm_compute in
  [lit "http_method"; lit "target"; lit "route"; lit "status"; lit "duration_us"; lit "request_bytes";
   lit "response_bytes"; lit "client"; lit "client_source"; lit "handler_threw"; lit "trace_id"].

Abbreviation AccessLogFields := (list (bytes * bytes)).

(** [false] is the fatal error; [seen] holds the keys before this one. *)
Fixpoint CheckExtraKeys (seen : list bytes) (extra : AccessLogFields) : bool :=
  match extra with
  | [] => true
  | (key, _) :: extra =>
    negb (bytes_eqb key []) && well_formed_loop (length key) key
    && negb (existsb (bytes_eqb key) kBuiltInKeys) && negb (existsb (fun k => bytes_eqb k key) seen)
    && CheckExtraKeys (seen ++ [key]) extra
  end.

Definition FormatAccessLog (o : RequestObservation) (extra : AccessLogFields) : option bytes :=
  if negb (CheckExtraKeys [] extra) then None
  else
    let out := ["{"%byte] in
    let out := AppendString out (lit "http_method") (ob_method o) in
    let out := AppendString out (lit "target") (ob_target o) in
    let out := AppendString out (lit "route")
                 (match ob_operation o with [] => kUnmatchedRoute | op => op end) in
    let out := AppendInteger out (lit "status") (ob_status o) in
    let out := AppendInteger out (lit "duration_us") (ob_duration o) in
    let out := AppendInteger out (lit "request_bytes") (ob_request_bytes o) in
    let out := AppendInteger out (lit "response_bytes") (ob_response_bytes o) in
    let out := AppendString out (lit "client") (address (ob_client o)) in
    let out := AppendString out (lit "client_source") (SourceName (source (ob_client o))) in
    let out := AppendKey out (lit "handler_threw") in
    let out := out ++ (if ob_handler_threw o then lit "true" else lit "false") in
    let trace := ParseTraceparent (ob_trace_parent o) in
    let out := AppendString out (lit "trace_id")
                 (match trace with Some t => trace_id t | None => [] end) in
    let out := fold_left (fun out field => AppendString out (fst field) (snd field)) extra out in
    Some (out ++ ["}"%byte]).


(** ** A strict reader of JSON records *)

Definition hex_value_of (c : Byte.byte) : option Z :=
  if is_digit c then Some (digit_value c)
  else if (97 <=? b2z c) && (b2z c <=? 102) then Some (b2z c - 87)
  else if (65 <=? b2z c) && (b2z c <=? 70) then Some (b2z c - 55)
  else None.

(** The rest of a string literal after its opening quote: its text and what
    follows the closing quote.  Control characters and malformed UTF-8 are
    refused; an escape [\u] gives its code unit in UTF-8, surrogates refused. *)
Fixpoint read_string (fuel : nat) (s : bytes) : option (bytes * bytes) :=
  match fuel, s with
  | S fuel, c :: rest =>
    if byte_eqb c x22 then Some ([], rest)
    else if byte_eqb c "\"%byte then
      match rest with
      | e :: rest =>
        let plain :=
          if byte_eqb e x22 || byte_eqb e "\"%byte || byte_eqb e "/"%byte then Some e
          else if byte_eqb e "b"%byte then Some "008"%byte
          else if byte_eqb e "f"%byte then Some "012"%byte
          else if byte_eqb e "n"%byte then Some "010"%byte
          else if byte_eqb e "r"%byte then Some "013"%byte
          else if byte_eqb e "t"%byte then Some "009"%byte
          else None in
        match plain, rest with
        | Some e, _ => '(text, rest) ← read_string fuel rest; Some (e :: text, rest)
        | None, h3 :: h2 :: h1 :: h0 :: rest =>
          if negb (byte_eqb e "u"%byte) then None
          else
            a ← hex_value_of h3; b ← hex_value_of h2; c ← hex_value_of h1; d ← hex_value_of h0;
            let code := ((a * 16 + b) * 16 + c) * 16 + d in
            if (55296 <=? code) && (code <=? 57343) then None
            else '(text, rest) ← read_string fuel rest; Some (utf8_encode code ++ text, rest)
        | None, _ => None
        end
      | [] => None
      end
    else if b2z c <? 32 then None
    else if b2z c <? 128 then '(text, rest) ← read_string fuel rest; Some (c :: text, rest)
    else
      let length := Utf8SequenceLength s in
      if (length =? 0)%nat then None
      else '(text, rest) ← read_string fuel (drop length s); Some (take length s ++ text, rest)
  | _, _ => None
  end.

(** What a value is read as: a bad byte reads as U+FFFD, the rest as itself. *)
Fixpoint scrub_loop (fuel : nat) (value : bytes) : bytes :=
  match fuel, value with
  | S fuel, c :: rest =>
    if b2z c <? 128 then c :: scrub_loop fuel rest
    else
      let length := Utf8SequenceLength value in
      if (length =? 0)%nat then kReplacement ++ scrub_loop fuel rest
      else take length value ++ scrub_loop fuel (drop length value)
  | _, _ => []
  end.

Definition scrub (value : bytes) : bytes := scrub_loop (length value) value.

Inductive JsonValue := JString (s : bytes) | JInteger (z : Z) | JBool (b : bool).

(** An integer literal without a leading zero or plus. *)
Definition read_integer (s : bytes) : option (Z * bytes) :=
  let '(negative, s) := match s with "-"%byte :: s => (true, s) | _ => (false, s) end in
  let rest := drop_while is_digit s in
  let digits := take (length s - length rest) s in
  match digits with
  | [] => None
  | "0"%byte :: _ :: _ => None
  | _ => Some ((if negative then - dec_value digits else dec_value digits), rest)
  end.

Definition read_value (s : bytes) : option (JsonValue * bytes) :=
  match s with
  | "034"%byte :: rest => '(text, rest) ← read_string (length rest) rest; Some (JString text, rest)
  | "t"%byte :: _ => if starts_with (lit "true") s then Some (JBool true, drop 4 s) else None
  | "f"%byte :: _ => if starts_with (lit "false") s then Some (JBool false, drop 5 s) else None
  | _ => '(z, rest) ← read_integer s; Some (JInteger z, rest)
  end.

(** The members of an object after its opening brace, up to its closing one. *)
Fixpoint read_members (fuel : nat) (s : bytes) : option (list (bytes * JsonValue) * bytes) :=
  match fuel, s with
  | S fuel, c :: rest =>
    if negb (byte_eqb c x22) then None
    else
      '(key, rest) ← read_string (length rest) rest;
      match rest with
      | ":"%byte :: rest =>
        '(value, rest) ← read_value rest;
        match rest with
        | ","%byte :: rest => '(members, rest) ← read_members fuel rest; Some ((key, value) :: members, rest)
        | "}"%byte :: rest => Some ([(key, value)], rest)
        | _ => None
        end
      | _ => None
      end
  | _, _ => None
  end.

(** A whole line: one object with at least one member and nothing after it. *)
Definition read_record (line : bytes) : option (list (bytes * JsonValue)) :=
  match line with
  | "{"%byte :: rest =>
    '(members, rest) ← read_members (length rest) rest;
    match rest with [] => Some members | _ => None end
  | _ => None
  end.

(** ** The reader takes an escaped string apart *)

Lemma read_escape_byte c f rest :
  b2z c < 128 ->
  read_string (S f) (escape_byte c ++ rest) = ('(t, r) ← read_string f rest; Some (c :: t, r)).
Proof. intros H. destruct c; first [discriminate H|reflexivity]. Qed.

Lemma read_string_scalar c f more :
  scalar c ->
  read_string (S f) (utf8_encode c ++ more)
  = ('(t, r) ← read_string f more; Some (utf8_encode c ++ t, r)).
Proof.
  intros Hc. pose proof (Utf8SequenceLength_encode c more Hc) as Hl.
  destruct (utf8_encode_high c Hc) as [Hhigh Hne].
  destruct (utf8_encode c) as [|b l] eqn:El; [done|]. inversion Hhigh as [|? ? Hb _]; subst.
  cbn [app read_string].
  assert (byte_eqb b x22 = false /\ byte_eqb b "\"%byte = false) as [-> ->].
  { split; apply not_true_is_false; intros ->%byte_eqb_eq; revert Hb; vm_compute; congruence. }
  replace (b2z b <? 32) with false by lia. replace (b2z b <? 128) with false by lia.
  cbn [app] in Hl. rewrite Hl. change (length (b :: l) =? 0)%nat with false.
  by rewrite app_comm_cons, drop_app_length, take_app_length.
Qed.

Lemma kReplacement_scalar : kReplacement = utf8_encode 65533 /\ scalar 65533.
Proof. split; [by vm_compute|unfold scalar; lia]. Qed.

Lemma read_escape_loop fuel : forall value f rest,
  (length value <= fuel)%nat -> (length (escape_loop fuel value) < f)%nat ->
  read_string f (escape_loop fuel value ++ x22 :: rest) = Some (scrub_loop fuel value, rest).
Proof.
  induction fuel as [|fuel IH]; intros value f rest Hv Hf; (destruct f as [|f]; [lia|]).
  { by destruct value. }
  destruct (decide (value = [])) as [->|Hne]; [done|].
  destruct (next_piece value Hne) as [(c & r & -> & Hc)|[(c & r & -> & Hc & Hn)|(u & r & b & l & Es & Hu & Eu & Hb & El)]].
  - cbn [escape_loop scrub_loop length] in *. replace (b2z c >=? 128) with false in * by lia.
    replace (b2z c <? 128) with true by lia. rewrite length_app in Hf.
    assert (escape_byte c <> []) by (by destruct c). assert (0 < length (escape_byte c))%nat
      by (destruct (escape_byte c); [done|simpl; lia]).
    rewrite <- app_assoc, read_escape_byte, IH by lia. done.
  - cbn [escape_loop scrub_loop length] in *. replace (b2z c >=? 128) with true in * by lia.
    replace (b2z c <? 128) with false by lia. rewrite Hn in *. cbn [Nat.eqb] in *.
    destruct kReplacement_scalar as [Ek Hk]. rewrite length_app in Hf. change (length kReplacement) with 3%nat in Hf.
    rewrite Ek, <- app_assoc, read_string_scalar, IH by (done || lia). done.
  - rewrite Eu in Es. subst value. cbn [app] in *. cbn [escape_loop scrub_loop] in *. rewrite El in *.
    cbn [Nat.eqb length] in *. replace (b2z b >=? 128) with true in * by lia.
    replace (b2z b <? 128) with false by lia.
    change (b :: l ++ r) with ((b :: l) ++ r) in *. change (S (length l)) with (length (b :: l)) in *.
    rewrite take_app_length, drop_app_length in *. rewrite <- Eu in *.
    rewrite !length_app in *. assert (0 < length (utf8_encode u))%nat by (rewrite Eu; simpl; lia).
    rewrite <- app_assoc, read_string_scalar, IH by (done || lia). done.
Qed.

Lemma escape_visible fuel : forall value, Forall (fun b => 32 <= b2z b) (escape_loop fuel value).
Proof.
  induction fuel as [|fuel IH]; intros value; [done|]. destruct value as [|c rest]; [done|].
  cbn [escape_loop]. destruct (b2z c >=? 128) eqn:Ec.
  - destruct (Nat.eqb_spec (Utf8SequenceLength (c :: rest)) 0) as [E|E].
    + apply Forall_app. split; [|done]. by repeat constructor.
    + apply Forall_app. split; [|done].
      destruct (Utf8SequenceLength_inv _ E) as (u & r & Hu & Es & El).
      rewrite El, Es, take_app_length. destruct (utf8_encode_high u Hu) as [H _].
      eapply Forall_impl; [exact H|]. simpl. lia.
  - apply Forall_app. split; [|done]. clear -Ec. revert Ec. destruct c; intros Ec;
      first [discriminate Ec|repeat constructor; done].
Qed.

Lemma scrub_well_formed fuel : forall key, (length key <= fuel)%nat ->
  well_formed_loop fuel key = true -> scrub_loop fuel key = key.
Proof.
  induction fuel as [|fuel IH]; intros key Hl Hw; [by destruct key; simpl in *; [|lia]|].
  destruct (decide (key = [])) as [->|Hne]; [done|].
  destruct (next_piece key Hne) as [(c & r & -> & Hc)|[(c & r & -> & Hc & Hn)|(u & r & b & l & Es & Hu & Eu & Hb & El)]].
  - cbn [well_formed_loop scrub_loop length] in *. replace (b2z c <? 128) with true in * by lia.
    rewrite IH by (done || lia). done.
  - cbn [well_formed_loop] in Hw. replace (b2z c <? 128) with false in Hw by lia. by rewrite Hn in Hw.
  - rewrite Eu in Es. subst key. cbn [app] in *. cbn [well_formed_loop scrub_loop length] in *.
    rewrite El in *. cbn [Nat.eqb] in *. replace (b2z b <? 128) with false in * by lia.
    change (b :: l ++ r) with ((b :: l) ++ r) in *. change (S (length l)) with (length (b :: l)) in *.
    rewrite take_app_length, drop_app_length in *. rewrite length_app in Hl.
    rewrite IH by (done || lia). done.
Qed.

Lemma scrub_id key : utf8 key -> scrub key = key.
Proof. intros H%well_formed_utf8. by apply scrub_well_formed. Qed.

(** ** Members *)

(** [text] is read as [value] when a comma or the closing brace follows. *)
Definition value_text (text : bytes) (value : JsonValue) : Prop :=
  forall c rest, c = ","%byte \/ c = "}"%byte -> read_value (text ++ c :: rest) = Some (value, c :: rest).

Definition string_text (s : bytes) : bytes := x22 :: escape_loop (length s) s ++ [x22].

Definition member_text (member : bytes * bytes) : bytes :=
  string_text (fst member) ++ ":"%byte :: snd member.

Lemma read_string_text s rest :
  read_string (length (escape_loop (length s) s ++ x22 :: rest)) (escape_loop (length s) s ++ x22 :: rest)
  = Some (scrub s, rest).
Proof. apply read_escape_loop; [done|]. rewrite length_app. simpl. lia. Qed.

Lemma string_value_text s : value_text (string_text s) (JString (scrub s)).
Proof.
  intros c rest _. unfold string_text. rewrite <- app_comm_cons, <- app_assoc.
  change x22 with "034"%byte. cbn [read_value app]. by rewrite read_string_text.
Qed.

Lemma bool_value_text (b : bool) : value_text (if b then lit "true" else lit "false") (JBool b).
Proof. intros c rest _. by destruct b. Qed.

Lemma to_string_head z : 0 <= z -> forall t, to_string z = "0"%byte :: t -> t = [].
Proof.
  unfold to_string. assert (H : forall fuel z c t, 0 < z -> z < 2 ^ Z.of_nat fuel ->
    dec_aux fuel z [] = c :: t -> c <> "0"%byte).
  { clear. induction fuel as [|fuel IH]; intros z c t Hz Hf; cbn [dec_aux]; [done|].
    destruct (Z.ltb_spec z 10).
    - intros [= <- _]. rewrite Z.mod_small by lia. intros E. apply (f_equal digit_value) in E.
      rewrite digit_value_byte in E by lia. change (digit_value "0"%byte) with 0 in E. lia.
    - rewrite dec_aux_acc. destruct (dec_aux fuel (z / 10) []) as [|x l] eqn:E.
      + destruct fuel; [simpl in Hf; lia|]. cbn [dec_aux] in E. destruct (_ <? 10); [done|].
        rewrite dec_aux_acc in E. by destruct (dec_aux _ _ _).
      + intros [= <- _]. eapply IH; [| |exact E]; [lia|].
        rewrite Nat2Z.inj_succ, Z.pow_succ_r in Hf by lia. apply Z.div_lt_upper_bound; lia. }
  intros Hz t E. destruct (Z.eq_dec z 0) as [->|Hne]; [by vm_compute in E; injection E as <-|].
  exfalso. eapply H; [| |exact E|done]; [lia|].
  rewrite Nat2Z.inj_succ, Z2Nat.id by apply Z.log2_nonneg. apply Z.log2_spec. lia.
Qed.

Lemma read_digits z c rest :
  0 <= z -> c = ","%byte \/ c = "}"%byte ->
  let s := to_string z ++ c :: rest in
  drop_while is_digit s = c :: rest /\ take (length s - length (c :: rest)) s = to_string z.
Proof.
  intros Hz Hc s. destruct (to_string_spec z Hz) as [_ Hd]. split.
  - unfold s. induction Hd as [|x l Hx Hl IH]; simpl; [by destruct Hc as [-> | ->]|]. by rewrite Hx.
  - unfold s. rewrite length_app. replace (_ + _ - _)%nat with (length (to_string z)) by lia.
    apply take_app_length.
Qed.

Lemma integer_value_text z : value_text (int_text z) (JInteger z).
Proof.
  intros c rest Hc. assert (Hpos : forall z, 0 <= z -> forall sign,
    (let rest' := drop_while is_digit (to_string z ++ c :: rest) in
     let digits := take (length (to_string z ++ c :: rest) - length rest') (to_string z ++ c :: rest) in
     match digits with
     | [] => None
     | "0"%byte :: _ :: _ => None
     | _ => Some ((if sign : bool then - dec_value digits else dec_value digits), rest')
     end) = Some ((if sign then - z else z), c :: rest)).
  { clear z. intros z Hz sign. destruct (read_digits z c rest Hz Hc) as [E1 E2]. cbv zeta.
    rewrite E1, E2. destruct (to_string_spec z Hz) as [Ev _].
    pose proof (to_string_head z Hz) as Hh. pose proof (to_string_nonempty z) as Hne.
    clear E1 E2 Hz. revert Ev Hh Hne. generalize (to_string z). intros d <- Hh Hne.
    destruct d as [|x l]; [done|]. destruct l; [by destruct x|].
    destruct x; try done. by specialize (Hh _ eq_refl). }
  assert (Hr : read_integer (int_text z ++ c :: rest) = Some (z, c :: rest)
               /\ exists x l, int_text z ++ c :: rest = x :: l /\ (x = "-"%byte \/ is_digit x = true)).
  { unfold int_text. destruct (Z.ltb_spec z 0).
    - split; [|eauto]. rewrite <- (Z.opp_involutive z) at 2. exact (Hpos (- z) ltac:(lia) true).
    - destruct (to_string_spec z ltac:(lia)) as [_ Hd]. pose proof (to_string_nonempty z).
      specialize (Hpos z ltac:(lia) false).
      destruct (to_string z) as [|x l]; [done|]. inversion Hd as [|? ? Hx _]; subst.
      split; [|eauto]. destruct x; first [discriminate Hx|exact Hpos]. }
  destruct Hr as [Hr (x & l & El & Hx)]. rewrite El in *. unfold read_value. rewrite Hr.
  destruct x; first [reflexivity|exfalso; by destruct Hx].
Qed.

(** The output is an opening brace and the members so far, joined. *)
Definition open_record (members : list (bytes * bytes)) : bytes :=
  "{"%byte :: join ","%byte (member_text <$> members).

Lemma AppendKey_member members key text :
  AppendKey (open_record members) key ++ text = open_record (members ++ [(key, text)]).
Proof.
  unfold AppendKey, open_record, AppendEscaped. rewrite fmap_app. cbn [fmap list_fmap].
  rewrite <- join_snoc by (intros n; rewrite list_elem_of_fmap; by intros (m & -> & _)).
  rewrite len_cons.
  destruct (join ","%byte (member_text <$> members)) as [|x l] eqn:Ej.
  - simpl. unfold member_text, string_text. simpl. by rewrite <- !app_assoc.
  - rewrite len_cons. pose proof (len_nonneg l). replace (1 + (1 + len l) >? 1) with true by lia.
    unfold member_text, string_text. cbn [app fst snd].
    repeat (rewrite <- app_assoc || rewrite <- app_comm_cons). done.
Qed.

Lemma AppendString_member members key value :
  AppendString (open_record members) key value = open_record (members ++ [(key, string_text value)]).
Proof. unfold AppendString, AppendEscaped. by rewrite <- AppendKey_member. Qed.

Lemma AppendInteger_member members key z :
  AppendInteger (open_record members) key z = open_record (members ++ [(key, int_text z)]).
Proof. unfold AppendInteger. by rewrite <- AppendKey_member. Qed.

Lemma extra_members extra : forall members,
  fold_left (fun out field => AppendString out (fst field) (snd field)) extra (open_record members)
  = open_record (members ++ map (fun f => (fst f, string_text (snd f))) extra).
Proof.
  induction extra as [|f extra IH]; intros members; simpl; [by rewrite app_nil_r|].
  by rewrite AppendString_member, IH, <- app_assoc.
Qed.

Lemma read_member_texts members : forall values fuel,
  members <> [] -> (length (join ","%byte (member_text <$> members)) < fuel)%nat ->
  Forall2 (fun m v => value_text (snd m) v) members values ->
  read_members fuel (join ","%byte (member_text <$> members) ++ lit "}")
  = Some (zip (scrub ∘ fst <$> members) values, []).
Proof.
  assert (Hstep : forall key text value fuel c rest,
    value_text text value -> c = ","%byte \/ c = "}"%byte ->
    read_members (S fuel) (member_text (key, text) ++ c :: rest)
    = match c with
      | ","%byte => '(members, rest) ← read_members fuel rest; Some ((scrub key, value) :: members, rest)
      | "}"%byte => Some ([(scrub key, value)], rest)
      | _ => None
      end).
  { intros key text value fuel c rest Hv Hc. unfold member_text, string_text. cbn [fst snd].
    repeat (rewrite <- app_assoc || rewrite <- app_comm_cons). cbn [read_members app].
    change (byte_eqb x22 x22) with true. cbn [negb]. rewrite read_string_text.
    cbn [mbind option_bind]. rewrite Hv by done. by destruct Hc as [-> | ->]. }
  induction members as [|[key text] members IH]; intros values fuel Hne Hf Hall; [done|].
  inversion Hall as [|? value ? values' Hv Hvs]; subst. clear Hall. cbn [snd] in Hv.
  destruct fuel as [|fuel]; [lia|]. destruct members as [|m members].
  - inversion Hvs; subst. change (lit "}") with ["}"%byte]. cbn [fmap list_fmap join].
    rewrite (Hstep key text value) by tauto. done.
  - change ((member_text <$> (key, text) :: m :: members))
      with (member_text (key, text) :: (member_text <$> m :: members)) in *.
    rewrite join_cons in * by done. rewrite <- app_assoc, <- app_comm_cons.
    rewrite (Hstep key text value) by tauto. rewrite length_app in Hf. cbn [length] in Hf.
    rewrite (IH values') by (done || lia). done.
Qed.

Lemma read_record_texts members values :
  members <> [] -> Forall2 (fun m v => value_text (snd m) v) members values ->
  read_record (open_record members ++ lit "}") = Some (zip (scrub ∘ fst <$> members) values).
Proof.
  intros Hne Hall. unfold open_record, read_record. rewrite <- app_comm_cons.
  rewrite (read_member_texts members values) by (done || (rewrite length_app; simpl; lia)). done.
Qed.

(** ** Keys *)

Definition key_ok (key : bytes) : Prop :=
  key <> [] /\ utf8 key /\ key ∉ kBuiltInKeys.

Lemma CheckExtraKeys_iff extra : forall seen, NoDup seen ->
  CheckExtraKeys seen extra = true <-> Forall key_ok (fst <$> extra) /\ NoDup (seen ++ (fst <$> extra)).
Proof.
  assert (Hex : forall (k : bytes) l (f : bytes -> bytes -> bool), (forall a b, f a b = true <-> a = b) ->
    negb (existsb (f k) l) = true <-> k ∉ l).
  { intros k l f Hf. rewrite negb_true_iff, <- not_true_iff_false, existsb_exists. split; intros H Hin; apply H.
    - exists k. split; [by apply list_elem_of_In|by apply Hf].
    - destruct Hin as (x & Hx & E). apply Hf in E as ->. by apply list_elem_of_In. }
  induction extra as [|[key v] extra IH]; intros seen Hs; cbn [CheckExtraKeys fmap list_fmap fst].
  { rewrite app_nil_r. by intuition. }
  rewrite !andb_true_iff, (Hex key kBuiltInKeys bytes_eqb bytes_eqb_eq),
    (Hex key seen (fun a b => bytes_eqb b a)) by (intros a b; rewrite bytes_eqb_eq; naive_solver).
  replace (seen ++ key :: (fst <$> extra)) with ((seen ++ [key]) ++ (fst <$> extra)) by solve_app.
  assert (Hk : negb (bytes_eqb key []) = true <-> key <> []).
  { rewrite negb_true_iff, <- not_true_iff_false, bytes_eqb_eq. done. }
  rewrite Hk, well_formed_utf8, Forall_cons. unfold key_ok. split.
  - intros ((((H1 & H2) & H3) & H4) & H5). apply IH in H5; [tauto|].
    apply NoDup_app. split; [done|]. split; [|apply NoDup_singleton].
    intros x Hx ->%list_elem_of_singleton. done.
  - intros ((H1 & H2) & H3). pose proof H3 as H4. apply NoDup_app in H4 as (H4 & _).
    pose proof H4 as H5. apply NoDup_app in H5 as (_ & H5 & _).
    rewrite IH by done. split; [|tauto].
    split; [tauto|]. intros Hin. apply (H5 key Hin). left.
Qed.

(** ** The line *)

Definition route_of (o : RequestObservation) : bytes :=
  match ob_operation o with [] => kUnmatchedRoute | op => op end.

Definition trace_id_of (o : RequestObservation) : bytes :=
  match ParseTraceparent (ob_trace_parent o) with Some t => trace_id t | None => [] end.

Definition own_texts (o : RequestObservation) : list (bytes * bytes) :=
  [(lit "http_method", string_text (ob_method o)); (lit "target", string_text (ob_target o));
   (lit "route", string_text (route_of o)); (lit "status", int_text (ob_status o));
   (lit "duration_us", int_text (ob_duration o)); (lit "request_bytes", int_text (ob_request_bytes o));
   (lit "response_bytes", int_text (ob_response_bytes o));
   (lit "client", string_text (address (ob_client o)));
   (lit "client_source", string_text (SourceName (source (ob_client o))));
   (lit "handler_threw", if ob_handler_threw o then lit "true" else lit "false");
   (lit "trace_id", string_text (trace_id_of o))].

Definition own_values (o : RequestObservation) : list JsonValue :=
  [JString (scrub (ob_method o)); JString (scrub (ob_target o)); JString (scrub (route_of o));
   JInteger (ob_status o); JInteger (ob_duration o); JInteger (ob_request_bytes o);
   JInteger (ob_response_bytes o); JString (scrub (address (ob_client o)));
   JString (scrub (SourceName (source (ob_client o)))); JBool (ob_handler_threw o);
   JString (scrub (trace_id_of o))].

(** What the line says: the built-in keys in order, then the caller's. *)
Definition record_of (o : RequestObservation) (extra : AccessLogFields) : list (bytes * JsonValue) :=
  zip kBuiltInKeys (own_values o) ++ map (fun f => (fst f, JString (scrub (snd f)))) extra.

Lemma FormatAccessLog_texts o extra line :
  FormatAccessLog o extra = Some line ->
  CheckExtraKeys [] extra = true
  /\ line = open_record (own_texts o ++ map (fun f => (fst f, string_text (snd f))) extra) ++ lit "}".
Proof.
  unfold FormatAccessLog. destruct (CheckExtraKeys [] extra); [|done]. cbn [negb]. cbv zeta.
  intros H. apply (inj Some) in H as <-. split; [done|].
  change ["{"%byte] with (open_record []).
  rewrite !AppendString_member, !AppendInteger_member, !AppendString_member, AppendKey_member,
    AppendString_member, extra_members. done.
Qed.

Lemma app_not_nil_l {A} (a b : list A) : a <> [] -> a ++ b <> [].
Proof. by destruct a. Qed.

Lemma texts_values o extra :
  Forall2 (fun m v => value_text (snd m) v)
    (own_texts o ++ map (fun f => (fst f, string_text (snd f))) extra)
    (own_values o ++ map (fun f => JString (scrub (snd f))) extra).
Proof.
  apply Forall2_app.
  - unfold own_texts, own_values.
    repeat (constructor; [simpl; first [apply string_value_text|apply integer_value_text|apply bool_value_text]|]).
    constructor.
  - induction extra as [|f extra IH]; simpl; constructor; [apply string_value_text|done].
Qed.

Lemma record_of_zip o extra :
  Forall key_ok (fst <$> extra) ->
  zip (scrub ∘ fst <$> own_texts o ++ map (fun f => (fst f, string_text (snd f))) extra)
    (own_values o ++ map (fun f => JString (scrub (snd f))) extra) = record_of o extra.
Proof.
  intros Hk. rewrite fmap_app. unfold record_of.
  change (scrub ∘ fst <$> own_texts o) with kBuiltInKeys.
  rewrite zip_with_app by done. f_equal.
  induction extra as [|[k v] extra IH]; [done|].
  inversion Hk as [|? ? (_ & Hw & _) Hr]; subst. cbn [map fmap list_fmap zip zip_with fst snd].
  f_equal; [unfold compose; cbn [fst]; by rewrite scrub_id|exact (IH Hr)].
Qed.

Lemma keys_NoDup o extra :
  Forall key_ok (fst <$> extra) -> NoDup (fst <$> extra) -> NoDup (fst <$> record_of o extra).
Proof.
  intros Hk Hn. unfold record_of. rewrite fmap_app.
  change (fst <$> zip kBuiltInKeys (own_values o)) with kBuiltInKeys.
  replace (fst <$> map (fun f => (fst f, JString (scrub (snd f)))) extra) with (fst <$> extra)
    by (clear; induction extra as [|[k v] extra IH]; [done|]; cbn [map fmap list_fmap fst]; by f_equal).
  apply NoDup_app. split; [by apply (bool_decide_unpack _); vm_compute|].
  split; [|done]. intros k Hin Hex. rewrite Forall_forall in Hk. by apply Hk in Hex as (_ & _ & ?).
Qed.

Lemma member_text_visible key text :
  Forall (fun b => 32 <= b2z b) text -> Forall (fun b => 32 <= b2z b) (member_text (key, text)).
Proof.
  intros Ht. unfold member_text, string_text. simpl. repeat constructor; [done|].
  rewrite <- app_assoc. apply Forall_app. split; [apply escape_visible|]. by repeat constructor.
Qed.

Lemma join_visible l :
  Forall (Forall (fun b => 32 <= b2z b)) l -> Forall (fun b => 32 <= b2z b) (join ","%byte l).
Proof.
  induction 1 as [|s l Hs Hl IH]; [done|]. destruct l as [|s' l]; [done|]. rewrite join_cons by done.
  apply Forall_app. split; [done|]. by constructor.
Qed.

Lemma string_text_visible s : Forall (fun b => 32 <= b2z b) (string_text s).
Proof.
  unfold string_text. constructor; [done|]. apply Forall_app. split; [apply escape_visible|by repeat constructor].
Qed.

Lemma int_text_visible z : Forall (fun b => 32 <= b2z b) (int_text z).
Proof.
  assert (H : forall z, 0 <= z -> Forall (fun b => 32 <= b2z b) (to_string z)).
  { intros n Hn. destruct (to_string_spec n Hn) as [_ Hd]. eapply Forall_impl; [exact Hd|].
    simpl. intros b Hb. unfold is_digit in Hb. lia. }
  unfold int_text. destruct (Z.ltb_spec z 0); [constructor; [done|]|]; apply H; lia.
Qed.

Lemma own_texts_visible o : Forall (fun m => Forall (fun b => 32 <= b2z b) (member_text m)) (own_texts o).
Proof.
  unfold own_texts.
  repeat (apply Forall_cons_2; [apply member_text_visible;
            first [apply string_text_visible|apply int_text_visible|
                   destruct (ob_handler_threw o); apply (bool_decide_unpack _); by vm_compute]|]).
  apply Forall_nil_2.
Qed.

(** C15: An access-log line is one strict JSON record and says what happened:
    it is written unless a caller's key is empty, malformed, repeated or a
    built-in one (then composition aborts); a strict reader takes it as one
    object with nothing after it, whose keys are distinct and in the documented
    order and whose values are the observation's and the caller's, a string
    differing from the original only where a byte was no UTF-8; and no byte of
    it is a control character, so a crafted target cannot end the line. *)
Theorem FormatAccessLog_reads o extra :
  (FormatAccessLog o extra = None <-> ~ (Forall key_ok (fst <$> extra) /\ NoDup (fst <$> extra)))
  /\ forall line, FormatAccessLog o extra = Some line ->
     read_record line = Some (record_of o extra)
     /\ NoDup (fst <$> record_of o extra)
     /\ Forall (fun b => 32 <= b2z b) line.
Proof.
  split.
  - rewrite <- (CheckExtraKeys_iff extra [] (NoDup_nil_2)). unfold FormatAccessLog.
    destruct (CheckExtraKeys [] extra); cbn [negb]; split; intros H;
      [discriminate H|by destruct H|discriminate|reflexivity].
  - intros line H. apply FormatAccessLog_texts in H as [Hk ->].
    apply CheckExtraKeys_iff in Hk as [Hk Hn]; [|constructor]. simpl in Hn.
    split; [|split; [by apply keys_NoDup|]].
    + rewrite <- record_of_zip; [|exact Hk].
      apply read_record_texts; [|apply texts_values].
      apply app_not_nil_l. unfold own_texts. discriminate.
    + apply Forall_app. split; [|by repeat constructor]. unfold open_record. constructor; [done|].
      apply join_visible, Forall_fmap, Forall_app. split.
      * apply own_texts_visible.
      * apply Forall_forall. intros m Hm. apply list_elem_of_In, in_map_iff in Hm as (f & <- & _).
        apply member_text_visible, string_text_visible.
Qed.

Definition hostile_observation : RequestObservation :=
  mkObservation (lit "GET") (lit "/a" ++ [x22; ","%byte; "010"%byte; "255"%byte]) [] [] 404 (-3) 0 17
    (mkDerived (lit "1.2.3.4") kDirectPeer) false [].

Lemma FormatAccessLog_reads_witness :
  exists line, FormatAccessLog hostile_observation [(lit "service_name", lit "todo")] = Some line
  /\ read_record line = Some (record_of hostile_observation [(lit "service_name", lit "todo")])
  /\ (record_of hostile_observation [] !! 1%nat)
     = Some (lit "target", JString (lit "/a" ++ [x22; ","%byte; "010"%byte] ++ kReplacement)).
Proof.
  pose proof (proj2 (FormatAccessLog_reads hostile_observation [(lit "service_name", lit "todo")])) as H.
  eexists. split; [vm_compute; reflexivity|]. split; [|by vm_compute].
  apply H. by vm_compute.
Defined.
