(* ===== verification/Uuid.v ===== *)
(** core/uuid.cc: random version 4 UUIDs in canonical text.  The two 64-bit
    words drawn from the generator are parameters. *)
From Stdlib Require Import ZArith Lia Strings.Byte.
From S2P Require Import Prelude Bytes TraceContext AccessLog.

Local Open Scope Z_scope.

(** The version and variant bits forced into the words. *)
Definition versioned (high : Z) : Z := Z.lor (Z.land high 0xFFFFFFFFFFFF0FFF) 0x4000.
Definition varianted (low : Z) : Z := Z.lor (Z.land low 0x3FFFFFFFFFFFFFFF) 0x8000000000000000.

Definition kDashAfter : list Z := [0; 0; 0; 1; 0; 1; 0; 1; 0; 1; 0; 0; 0; 0; 0; 0].

(** The turn of the inner loop for one [byte]. *)
Definition uuid_byte (byte_index : nat) (word shift : Z) : bytes :=
  let byte := Z.land (Z.shiftr word shift) 0xFF in
  [nth (Z.to_nat (Z.shiftr byte 4)) kHex "000"%byte; nth (Z.to_nat (Z.land byte 0xF)) kHex "000"%byte]
  ++ (if nth byte_index kDashAfter 0 =? 0 then [] else ["-"%byte]).

(** [for (shift = 56; shift >= 0; shift -= 8, ++byte_index)]: [n] turns left. *)
Fixpoint uuid_word (n byte_index : nat) (word : Z) : bytes :=
  match n with
  | O => []
  | S n => uuid_byte byte_index word (8 * Z.of_nat n) ++ uuid_word n (S byte_index) word
  end.

Definition GenerateUuidV4 (high low : Z) : bytes :=
  uuid_word 8 0 (versioned high) ++ uuid_word 8 8 (varianted low).

Example uuid_example :
  GenerateUuidV4 0x0123456789abcdef 0xffffffffffffffff = lit "01234567-89ab-4def-bfff-ffffffffffff".
Proof. by vm_compute. Qed.

(** ** Reading a UUID back *)

Fixpoint hex_bytes (s : bytes) : option bytes :=
  match s with
  | [] => Some []
  | h :: l :: s =>
    a ← hex_value_of h; b ← hex_value_of l; rest ← hex_bytes s; Some (z2b (a * 16 + b) :: rest)
  | _ => None
  end.

Definition undashed (s : bytes) : bytes := filter (fun c => c <> "-"%byte) s.

(** The two words a text spells. *)
Definition read_uuid (s : bytes) : option (Z * Z) :=
  b ← hex_bytes (undashed s); Some (be_value (take 8 b), be_value (drop 8 b)).

Definition uuid_pair (b : Byte.byte) : bytes :=
  [nth (Z.to_nat (Z.shiftr (b2z b) 4)) kHex "000"%byte; nth (Z.to_nat (Z.land (b2z b) 0xF)) kHex "000"%byte].

Lemma uuid_byte_pair i word shift : 
  uuid_byte i word shift
  = uuid_pair (z2b (Z.shiftr word shift)) ++ (if nth i kDashAfter 0 =? 0 then [] else ["-"%byte]).
Proof.
  unfold uuid_byte, uuid_pair. rewrite b2z_z2b. change 0xFF with (Z.ones 8).
  by rewrite Z.land_ones by lia.
Qed.

Lemma uuid_pair_hex b :
  hex_bytes (uuid_pair b) = Some [b] /\ forallb (fun c => negb (byte_eqb c "-"%byte) && is_lower_hex c) (uuid_pair b) = true.
Proof.
  assert (H : forall b, (match hex_bytes (uuid_pair b) with Some [c] => byte_eqb b c | _ => false end)
    && forallb (fun c => negb (byte_eqb c "-"%byte) && is_lower_hex c) (uuid_pair b) = true)
    by (apply byte_forall; by vm_compute).
  specialize (H b). apply andb_true_iff in H as [H ->]. split; [|done].
  destruct (hex_bytes (uuid_pair b)) as [[|c [|]]|]; try done. by apply byte_eqb_eq in H as ->.
Qed.

Lemma undashed_pair b : undashed (uuid_pair b) = uuid_pair b.
Proof.
  destruct (uuid_pair_hex b) as [_ H]. revert H. unfold undashed. induction (uuid_pair b) as [|c s IH];
    [done|]. simpl. rewrite !andb_true_iff, negb_true_iff. intros [[Hc _] Hs].
  rewrite filter_cons, decide_True by (intros ->; by rewrite byte_eqb_refl in Hc). by rewrite IH.
Qed.

Lemma undashed_word n : forall i word,
  undashed (uuid_word n i word) = mjoin (map uuid_pair (be_bytes n word)).
Proof.
  induction n as [|n IH]; intros i word; [done|].
  change (uuid_word (S n) i word)
    with (uuid_byte i word (8 * Z.of_nat n) ++ uuid_word n (S i) word).
  change (mjoin (map uuid_pair (be_bytes (S n) word)))
    with (uuid_pair (z2b (Z.shiftr word (8 * Z.of_nat n))) ++ mjoin (map uuid_pair (be_bytes n word))).
  rewrite <- (IH (S i)), <- undashed_pair, uuid_byte_pair. unfold undashed. rewrite !filter_app.
  f_equal. destruct (nth i kDashAfter 0 =? 0); [|rewrite filter_cons, decide_False by naive_solver];
    by rewrite filter_nil, app_nil_r.
Qed.

Lemma hex_bytes_pairs l : hex_bytes (mjoin (map uuid_pair l)) = Some l.
Proof.
  induction l as [|b l IH]; [done|]. destruct (uuid_pair_hex b) as [H _].
  change (mjoin (map uuid_pair (b :: l))) with (uuid_pair b ++ mjoin (map uuid_pair l)).
  unfold uuid_pair in H |- * at 1. cbn [app hex_bytes] in *. rewrite IH.
  destruct (hex_value_of (nth (Z.to_nat (Z.shiftr (b2z b) 4)) kHex _)) as [x|]; [|done].
  destruct (hex_value_of (nth (Z.to_nat (Z.land (b2z b) _)) kHex _)) as [y|]; [|done].
  simpl in *. by injection H as ->.
Qed.

Lemma masked_mod x mask bits : Z.land mask (Z.ones 64) = mask -> Z.land bits (Z.ones 64) = bits ->
  Z.lor (Z.land x mask) bits mod 2 ^ 64 = Z.lor (Z.land x mask) bits.
Proof.
  intros Hm Hb. by rewrite <- (Z.land_ones _ 64), Z.land_lor_distr_l, <- Z.land_assoc, Hm, Hb by lia.
Qed.

(** A nibble of a word as its hexadecimal digit. *)
Definition nibble (word : Z) (k : Z) : Z := Z.land (Z.shiftr word (4 * k)) 0xF.

Lemma high_nibble word k : 0 <= k -> Z.shiftr (Z.land (Z.shiftr word (8 * k)) 0xFF) 4 = nibble word (2 * k + 1).
Proof.
  intros Hk. unfold nibble. rewrite Z.shiftr_land, Z.shiftr_shiftr by lia.
  by replace (8 * k + 4) with (4 * (2 * k + 1)) by lia.
Qed.

Lemma low_nibble word k : Z.land (Z.land (Z.shiftr word (8 * k)) 0xFF) 0xF = nibble word (2 * k).
Proof. unfold nibble. rewrite <- Z.land_assoc. by replace (4 * (2 * k)) with (8 * k) by lia. Qed.

Lemma nibble_range word k : 0 <= nibble word k < 16.
Proof. unfold nibble. change 0xF with (Z.ones 4). rewrite Z.land_ones by lia. apply Z.mod_pos_bound. lia. Qed.

Lemma nibble_hex word k : is_lower_hex (nth (Z.to_nat (nibble word k)) kHex "000"%byte) = true.
Proof.
  pose proof (nibble_range word k). remember (Z.to_nat (nibble word k)) as n.
  assert (Hn : (n < 16)%nat) by lia. clear -Hn. do 16 (destruct n as [|n]; [done|]). lia.
Qed.

Lemma version_nibble high : nibble (versioned high) 3 = 4.
Proof.
  unfold nibble, versioned. rewrite Z.shiftr_lor, Z.land_lor_distr_l, Z.shiftr_land, <- Z.land_assoc.
  change (Z.land (Z.shiftr 0xFFFFFFFFFFFF0FFF (4 * 3)) 0xF) with 0. by rewrite Z.land_0_r.
Qed.

Lemma variant_nibble low : 8 <= nibble (varianted low) 15 < 12.
Proof.
  unfold nibble, varianted. rewrite Z.shiftr_lor, Z.land_lor_distr_l, Z.shiftr_land, <- Z.land_assoc.
  change (Z.land (Z.shiftr 0x3FFFFFFFFFFFFFFF (4 * 15)) 0xF) with (Z.ones 2).
  change (Z.land (Z.shiftr 0x8000000000000000 (4 * 15)) 0xF) with (Z.shiftl 2 2).
  rewrite Z.land_ones by lia. rewrite Z.lor_comm, lor_shiftl by lia.
  pose proof (Z.mod_pos_bound (Z.shiftr low (4 * 15)) (2 ^ 2)). lia.
Qed.

Lemma lookup_cons_all {A} (P : nat -> A -> Prop) x l :
  P O x -> (forall i c, l !! i = Some c -> P (S i) c) -> forall i c, (x :: l) !! i = Some c -> P i c.
Proof. intros Hx Hl [|i] c H; [by injection H as <-|by apply Hl]. Qed.

Definition is_dash_at (i : nat) : bool := existsb (Nat.eqb i) [8; 13; 18; 23]%nat.

(** every generated UUID is canonical: 36 characters, dashes exactly at
    8, 13, 18 and 23, lower-case hexadecimal elsewhere, version digit 4 and a
    variant digit of [8], [9], [a] or [b]; and the text spells back the two
    words, so different words outside the six fixed bits give different texts. *)
Theorem uuid_canonical high low :
  let s := GenerateUuidV4 high low in
  len s = 36
  /\ (forall i c, s !! i = Some c -> if is_dash_at i then c = "-"%byte else is_lower_hex c = true)
  /\ s !! 14%nat = Some "4"%byte
  /\ (exists v, 8 <= v < 12 /\ s !! 19%nat = Some (nth (Z.to_nat v) kHex "000"%byte))
  /\ read_uuid s = Some (versioned high, varianted low).
Proof.
  intros s. assert (Hs : read_uuid s = Some (versioned high, varianted low)).
  { unfold read_uuid, s, GenerateUuidV4, undashed. rewrite filter_app.
    fold (undashed (uuid_word 8 0 (versioned high))) (undashed (uuid_word 8 8 (varianted low))).
    rewrite !undashed_word, <- join_app, <- map_app, hex_bytes_pairs. cbn [mbind option_bind].
    rewrite take_app_length', drop_app_length' by (by rewrite length_be_bytes).
    rewrite !be_value_be_bytes by lia. unfold versioned, varianted. by rewrite !masked_mod. }
  split_and!; [done| | | |exact Hs]; subst s; clear Hs; unfold GenerateUuidV4, uuid_word, uuid_byte;
    cbn [nth kDashAfter app Z.eqb]; rewrite ?high_nibble, ?low_nibble by lia.
  - repeat (apply lookup_cons_all; [first [exact (nibble_hex _ _)|exact eq_refl]|]). intros i c Hc. discriminate Hc.
  - cbn [lookup list_lookup]. cbn -[versioned nibble nth]. by rewrite version_nibble.
  - exists (nibble (varianted low) 15). split; [apply variant_nibble|]. done.
Qed.
