(* ===== verification/Pagination.v ===== *)
(** client/pagination.h: the input iterator over a generated paginator, and the
    loop that consumes it.  The paginator is the [Next] it exports over a state
    of its own; [Paginator] in Weather.v is a generated one. *)
From Stdlib Require Import ZArith Lia Strings.Byte.
From S2P Require Import Prelude.

Section Pagination.
Context {S Page : Type} (Next : S -> S * Outcome (option Page)).

(** [live] is [paginator_ != nullptr], [current] is [current_]. *)
Record PageIterator := mkIterator { live : bool; current : option (Outcome Page) }.

(** The default iterator, past the end. *)
Definition end_iterator : PageIterator := mkIterator false None.

(** [Advance]: the paginator's state afterwards and the iterator. *)
Definition Advance (s : S) : S * PageIterator :=
  let (s, next) := Next s in
  match next with
  | Err e => (s, mkIterator false (Some (Err e)))
  | Ok None => (s, mkIterator false None)
  | Ok (Some page) => (s, mkIterator true (Some (Ok page)))
  end.

Definition begin_iterator (s : S) : S * PageIterator := Advance s.

Definition increment (s : S) (it : PageIterator) : S * PageIterator :=
  if live it then Advance s else (s, mkIterator (live it) None).

Definition iterator_eqb (a b : PageIterator) : bool :=
  Bool.eqb (match current a with Some _ => true | None => false end)
    (match current b with Some _ => true | None => false end).

(** [for (auto& page : paginator)]: what the body sees, and the paginator's
    state at the end; [None] when [fuel] runs out. *)
Fixpoint range_loop (fuel : nat) (s : S) (it : PageIterator) : option (list (Outcome Page) * S) :=
  match fuel with
  | O => None
  | Datatypes.S fuel =>
    if iterator_eqb it end_iterator then Some ([], s)
    else match current it with
         | None => None
         | Some page => let (s, it) := increment s it in
                        '(pages, s) ← range_loop fuel s it; Some (page :: pages, s)
         end
  end.

Definition range_for (fuel : nat) (s : S) : option (list (Outcome Page) * S) :=
  let (s, it) := begin_iterator s in range_loop fuel s it.

(** Calling [Next] until it says stop: the pages, the failure if any, and the
    state after the last call. *)
Inductive paginates : S -> list Page -> option Error -> S -> Prop :=
| paginates_end s s' : Next s = (s', Ok None) -> paginates s [] None s'
| paginates_error s s' e : Next s = (s', Err e) -> paginates s [] (Some e) s'
| paginates_page s s1 p ps e s' :
    Next s = (s1, Ok (Some p)) -> paginates s1 ps e s' -> paginates s (p :: ps) e s'.

Definition yields (ps : list Page) (e : option Error) : list (Outcome Page) :=
  map Ok ps ++ match e with Some e => [Err e] | None => [] end.

Lemma range_loop_advance fuel ps : forall s s' e,
  paginates s ps e s' -> (length ps + 2 <= fuel)%nat ->
  (let (s1, it) := Advance s in range_loop fuel s1 it) = Some (yields ps e, s').
Proof.
  revert fuel. induction ps as [|p ps IH]; intros fuel s s' e Hp Hf.
  - destruct fuel as [|[|fuel]]; [simpl in Hf; lia..|].
    inversion Hp as [? ? Hn|? ? ? Hn|]; subst; unfold Advance; rewrite Hn; done.
  - destruct fuel as [|fuel]; [simpl in Hf; lia|].
    inversion Hp as [| |? s1 ? ? ? ? Hn Hr]; subst. unfold Advance. rewrite Hn.
    cbn [range_loop iterator_eqb current end_iterator Bool.eqb live increment].
    specialize (IH fuel s1 s' e Hr ltac:(simpl in Hf; lia)).
    destruct (Advance s1) as [s2 it]. by rewrite IH.
Qed.

(** A paginator stopped for good answers the end from then on. *)
Lemma increment_dead s it : live it = false -> increment s it = (s, mkIterator false None).
Proof. unfold increment. by intros ->. Qed.

End Pagination.

Arguments PageIterator Page : clear implicits.
