(* ===== verification/Exposition.v ===== *)
(** The text half of server/metrics.cc: escaping, method buckets, numbers, label
    sets and sample lines of the Prometheus exposition format, and a reader of
    that format to state what the lines say. *)
From Stdlib Require Import ZArith Lia Strings.Byte.
From Stdlib Require Import Floats.SpecFloat.
From Stdlib Require Import Sorting.Sorted.
From stdpp Require Import sorting.
From S2P Require Import Prelude Bytes OrdMap Timestamp Doubles Decimal.

Local Open Scope Z_scope.

(** ** Escapes *)

Definition newline : Byte.byte := x0a.
Definition backslash : Byte.byte := x5c.
Definition double_quote : Byte.byte := x22.

Definition escape_label_byte (c : Byte.byte) : bytes :=
  if byte_eqb c backslash then [backslash; backslash]
  else if byte_eqb c double_quote then [backslash; double_quote]
  else if byte_eqb c newline then [backslash; "n"%byte]
  else [c].

Definition EscapeLabel (value : bytes) : bytes := flat_map escape_label_byte value.

Definition escape_help_byte (c : Byte.byte) : bytes :=
  if byte_eqb c backslash then [backslash; backslash]
  else if byte_eqb c newline then [backslash; "n"%byte]
  else [c].

Definition EscapeHelp (help : bytes) : bytes := flat_map escape_help_byte help.

(** ** The contract *)

Definition kRequestsTotal : bytes := Eval vm_compute in lit "http_server_requests_total".
Definition kRequestsSuccess : bytes := Eval vm_compute in lit "http_server_requests_success_total".
Definition kRequestsFailure : bytes := Eval vm_compute in lit "http_server_requests_failure_total".
Definition kRequestsActive : bytes := Eval vm_compute in lit "http_server_requests_active_gauge".
Definition kRequestDuration : bytes := Eval vm_compute in lit "http_server_request_duration_microseconds".
Definition kObservationsDropped : bytes := Eval vm_compute in lit "metrics_observations_dropped_total".

Definition kRequestsTotalHelp : bytes := Eval vm_compute in lit "HTTP requests received".
Definition kRequestsSuccessHelp : bytes := Eval vm_compute in lit "HTTP requests completed successfully (2xx-3xx)".
Definition kRequestsFailureHelp : bytes := Eval vm_compute in lit "HTTP requests that returned 4xx or 5xx".
Definition kRequestsActiveHelp : bytes := Eval vm_compute in lit "HTTP requests currently in flight".
Definition kRequestDurationHelp : bytes := Eval vm_compute in lit "HTTP request duration in microseconds".
Definition kObservationsDroppedHelp : bytes := Eval vm_compute in
  lit "Observations dropped after the registry hit its series cap.".

Definition kServiceLabel : bytes := Eval vm_compute in lit "service_name".
Definition kMethodLabel : bytes := Eval vm_compute in lit "http_method".
Definition kRouteLabel : bytes := Eval vm_compute in lit "route".
Definition kCustomMethod : bytes := Eval vm_compute in lit "CUSTOM".
Definition kUnparsedMethod : bytes := Eval vm_compute in lit "(unparsed)".

Definition kKnown : list bytes := Eval vm_compute in
  [lit "GET"; lit "HEAD"; lit "POST"; lit "PUT"; lit "PATCH"; lit "DELETE"; lit "OPTIONS";
   lit "TRACE"; lit "CONNECT"].

Definition NormalizeMethod (method : bytes) : bytes :=
  match find (bytes_eqb method) kKnown with
  | Some known => known
  | None => kCustomMethod
  end.

(** ** Numbers *)

(** The trailing zeros of "%.6f" and a point left bare are dropped. *)
Definition trimmed (text : bytes) : bytes :=
  match find_byte "."%byte text with
  | Some _ =>
    let text := rdrop_while (is_byte "0"%byte) text in
    if ends_with_byte "."%byte text then removelast text else text
  | None => text
  end.

Definition kBuffer : Z := 64.

(** The formats in turn, the first that parses back. *)
Fixpoint first_exact (formats : list nat) (value : double) : bytes :=
  match formats with
  | [] => lit "0"
  | p :: formats =>
    let text := print_general p value in
    if (len text <? kBuffer) && SFeqb (strtod text) value then text else first_exact formats value
  end.

Definition FormatNumber (value : double) : bytes :=
  match value with
  | S754_infinity s => if s then lit "-Inf" else lit "+Inf"
  | S754_nan => lit "NaN"
  | _ =>
    let fixed := print_fixed value in
    let text := trimmed fixed in
    if (len fixed <? kBuffer) && negb (bytes_eqb text []) && SFeqb (strtod text) value then text
    else first_exact [15; 16; 17]%nat value
  end.

(** ** Names and labels *)

Definition letter (c : Byte.byte) : bool :=
  byte_eqb c "_"%byte || ((97 <=? b2z c) && (b2z c <=? 122)) || ((65 <=? b2z c) && (b2z c <=? 90)).

Definition name_byte (allow_colon first : bool) (c : Byte.byte) : bool :=
  letter c || (allow_colon && byte_eqb c ":"%byte) || (negb first && is_digit c).

Definition ValidName (name : bytes) (allow_colon : bool) : bool :=
  match name with
  | [] => false
  | c :: rest => name_byte allow_colon true c && forallb (name_byte allow_colon false) rest
  end.

Definition MetricLabels : Type := list (bytes * bytes).

(** [std::ranges::sort] by name; where two names are equal [RenderLabels]
    aborts whatever their order. *)
Fixpoint insert_label (l : bytes * bytes) (labels : MetricLabels) : MetricLabels :=
  match labels with
  | [] => [l]
  | l' :: rest => match bcmp (fst l') (fst l) with Lt => l' :: insert_label l rest | _ => l :: labels end
  end.

Definition sort_labels (labels : MetricLabels) : MetricLabels := foldr insert_label [] labels.

Definition label_text (l : bytes * bytes) : bytes :=
  fst l ++ lit "=" ++ [double_quote] ++ EscapeLabel (snd l) ++ [double_quote].

(** The loop of [RenderLabels]; [None] is the abort. *)
Fixpoint render_loop (histogram : bool) (previous : option bytes) (out : bytes) (sorted : MetricLabels)
    : option bytes :=
  match sorted with
  | [] => Some out
  | (name, value) :: rest =>
    if negb (ValidName name false) then None
    else if match previous with Some p => bytes_eqb name p | None => false end then None
    else if histogram && bytes_eqb name (lit "le") then None
    else
      let out := if bytes_eqb out [] then out else out ++ lit "," in
      render_loop histogram (Some name) (out ++ label_text (name, value)) rest
  end.

Definition RenderLabels (labels : MetricLabels) (histogram : bool) : option bytes :=
  render_loop histogram None [] (sort_labels labels).

(** ** Lines *)

Definition AppendSample (out name suffix labels value : bytes) : bytes :=
  out ++ name ++ suffix ++ (if bytes_eqb labels [] then [] else lit "{" ++ labels ++ lit "}")
      ++ lit " " ++ value ++ [newline].

Definition AppendFamilyHeader (out name type help : bytes) : bytes :=
  out ++ lit "# HELP " ++ name ++ lit " " ++ EscapeHelp help ++ [newline]
      ++ lit "# TYPE " ++ name ++ lit " " ++ type ++ [newline].

Example format_2500000 : FormatNumber (of_int 2500000) = lit "2500000".
Proof. by vm_compute. Qed.
Example format_half : FormatNumber (ddiv (of_int (-1)) (of_int 2)) = lit "-0.5".
Proof. by vm_compute. Qed.
Example format_tiny : FormatNumber (ddiv (of_int 1) (of_int 100000000)) = lit "1e-08".
Proof. by vm_compute. Qed.
Example format_zero : FormatNumber (S754_zero false) = lit "0".
Proof. by vm_compute. Qed.
Example render_sorts :
  RenderLabels [(lit "b", lit "2"); (lit "a", [double_quote])] false
  = Some (quoted_lit "a='" ++ [backslash] ++ quoted_lit "'',b='2'").
Proof. by vm_compute. Qed.
Example render_le : RenderLabels [(lit "le", lit "2")] true = None.
Proof. by vm_compute. Qed.

(** ** A reader of the format *)

Inductive Line :=
| Help (name help : bytes)
| TypeOf (name type : bytes)
| Sample (name : bytes) (labels : MetricLabels) (value : bytes).

(** A quoted label value up to its closing quote. *)
Fixpoint read_value (s : bytes) : option (bytes * bytes) :=
  match s with
  | [] => None
  | c :: r =>
    if byte_eqb c double_quote then Some ([], r)
    else if byte_eqb c newline then None
    else if byte_eqb c backslash then
      match r with
      | d :: r =>
        if byte_eqb d backslash then prod_map (cons backslash) id <$> read_value r
        else if byte_eqb d double_quote then prod_map (cons double_quote) id <$> read_value r
        else if byte_eqb d "n"%byte then prod_map (cons newline) id <$> read_value r
        else None
      | [] => None
      end
    else prod_map (cons c) id <$> read_value r
  end.

(** Help text to the end of its line. *)
Fixpoint read_help (s : bytes) : option bytes :=
  match s with
  | [] => Some []
  | c :: r =>
    if byte_eqb c backslash then
      match r with
      | d :: r =>
        if byte_eqb d backslash then cons backslash <$> read_help r
        else if byte_eqb d "n"%byte then cons newline <$> read_help r
        else None
      | [] => None
      end
    else cons c <$> read_help r
  end.

(** [name="value",...] and what follows. *)
Fixpoint read_labels (fuel : nat) (s : bytes) : option (MetricLabels * bytes) :=
  match fuel with
  | O => None
  | S fuel =>
    match cut "="%byte s with
    | (name, Some (q :: r)) =>
      if byte_eqb q double_quote then
        match read_value r with
        | Some (value, c :: r) =>
          if byte_eqb c ","%byte then prod_map (cons (name, value)) id <$> read_labels fuel r
          else Some ([(name, value)], c :: r)
        | Some (value, []) => Some ([(name, value)], [])
        | None => None
        end
      else None
    | _ => None
    end
  end.

(** The label set a rendered text denotes. *)
Definition labels_of (text : bytes) : option MetricLabels :=
  match text with
  | [] => Some []
  | _ => match read_labels (length text) text with Some (labels, []) => Some labels | _ => None end
  end.

Definition read_sample (line : bytes) : option Line :=
  match find_if (fun c => byte_eqb c "{"%byte || byte_eqb c " "%byte) line with
  | None => None
  | Some i =>
    let name := take i line in
    match drop i line with
    | c :: r =>
      if byte_eqb c "{"%byte then
        match read_labels (length r) r with
        | Some (labels, close :: space :: value) =>
          if byte_eqb close "}"%byte && byte_eqb space " "%byte then Some (Sample name labels value) else None
        | _ => None
        end
      else Some (Sample name [] r)
    | [] => None
    end
  end.

Definition read_line (line : bytes) : option Line :=
  if starts_with (lit "# HELP ") line then
    match cut " "%byte (drop 7 line) with
    | (name, Some help) => Help name <$> read_help help
    | (name, None) => None
    end
  else if starts_with (lit "# TYPE ") line then
    match cut " "%byte (drop 7 line) with
    | (name, Some type) => Some (TypeOf name type)
    | (name, None) => None
    end
  else read_sample line.

(** Every line is terminated. *)
Fixpoint split_lines (line s : bytes) : option (list bytes) :=
  match s with
  | [] => match line with [] => Some [] | _ => None end
  | c :: s => if byte_eqb c newline then cons line <$> split_lines [] s else split_lines (line ++ [c]) s
  end.

Definition read_text (s : bytes) : option (list Line) := lines ← split_lines [] s; mapM read_line lines.

(** ** What is written is read *)

Lemma read_value_escape v r : read_value (EscapeLabel v ++ double_quote :: r) = Some (v, r).
Proof.
  unfold EscapeLabel. induction v as [|c v IH]; [done|]. cbn [flat_map]. unfold escape_label_byte at 1.
  destruct (byte_eqb_spec c backslash) as [->|H1]; [simpl; by rewrite IH|].
  destruct (byte_eqb_spec c double_quote) as [->|H2]; [simpl; by rewrite IH|].
  destruct (byte_eqb_spec c newline) as [->|H3]; [simpl; by rewrite IH|].
  cbn [app read_value]. destruct (byte_eqb_spec c double_quote); [done|].
  destruct (byte_eqb_spec c newline); [done|]. destruct (byte_eqb_spec c backslash); [done|].
  by rewrite IH.
Qed.

Lemma read_help_escape h : read_help (EscapeHelp h) = Some h.
Proof.
  unfold EscapeHelp. induction h as [|c h IH]; [done|]. cbn [flat_map]. unfold escape_help_byte at 1.
  destruct (byte_eqb_spec c backslash) as [->|H1]; [simpl; by rewrite IH|].
  destruct (byte_eqb_spec c newline) as [->|H2]; [simpl; by rewrite IH|].
  cbn [app read_help]. destruct (byte_eqb_spec c backslash); [done|].
  by rewrite IH.
Qed.

Lemma flat_map_one_line (f : Byte.byte -> bytes) v :
  (forall c, forallb (fun d => negb (is_byte newline d)) (f c) = true) -> newline ∉ (flat_map f v : bytes).
Proof.
  intros Hf. rewrite list_elem_of_In, in_flat_map. intros (c & _ & Hin).
  specialize (Hf c). rewrite forallb_forall in Hf. by specialize (Hf _ Hin).
Qed.

Lemma escape_label_one_line v : newline ∉ EscapeLabel v.
Proof. apply flat_map_one_line. by intros []. Qed.

Lemma escape_help_one_line h : newline ∉ EscapeHelp h.
Proof. apply flat_map_one_line. by intros []. Qed.

Lemma split_lines_line l s line :
  newline ∉ l -> split_lines line (l ++ newline :: s) = cons (line ++ l) <$> split_lines [] s.
Proof.
  revert line. induction l as [|c l IH]; intros line Hl; [by rewrite app_nil_r|].
  apply not_elem_of_cons in Hl as [Hc Hl]. cbn [app split_lines].
  destruct (byte_eqb_spec c newline); [congruence|]. rewrite IH by done. by rewrite <- app_assoc.
Qed.

(** [out] is complete lines that say [ls]. *)
Definition says (out : bytes) (ls : list Line) : Prop :=
  forall s, read_text (out ++ s) = (app ls) <$> read_text s.

Lemma says_read out ls : says out ls -> read_text out = Some ls.
Proof. intros H. specialize (H []). rewrite !app_nil_r in H. rewrite H. simpl. by rewrite app_nil_r. Qed.

Lemma says_nil : says [] [].
Proof. intros s. simpl. by destruct (read_text s). Qed.

Lemma says_app out ls out' ls' : says out ls -> says out' ls' -> says (out ++ out') (ls ++ ls').
Proof.
  intros H H' s. rewrite <- app_assoc, H, H'. destruct (read_text s); [|done]. simpl. by rewrite app_assoc.
Qed.

Lemma says_line l x : newline ∉ l -> read_line l = Some x -> says (l ++ [newline]) [x].
Proof.
  intros Hl Hx s. unfold read_text. rewrite <- app_assoc. cbn [app]. rewrite split_lines_line by done.
  destruct (split_lines [] s) as [lines|]; [|done]. simpl. rewrite Hx. simpl. by destruct (mapM read_line lines).
Qed.

(** ** Label sets *)

Definition labels_text (labels : MetricLabels) : bytes := join ","%byte (map label_text labels).

Definition good_label (histogram : bool) (l : bytes * bytes) : Prop :=
  ValidName (fst l) false = true /\ (histogram = true -> fst l <> lit "le").

Fixpoint adjacent (previous : option bytes) (labels : MetricLabels) : Prop :=
  match labels with
  | [] => True
  | (name, _) :: rest => previous <> Some name /\ adjacent (Some name) rest
  end.

Lemma label_text_nonempty l : label_text l <> [].
Proof. unfold label_text. by destruct (fst l). Qed.

Lemma labels_text_nil labels : labels_text labels = [] <-> labels = [].
Proof.
  split; [|by intros ->]. destruct labels as [|l [|l' rest]]; [done| |].
  - intros H. by apply label_text_nonempty in H.
  - unfold labels_text. cbn [map join]. pose proof (label_text_nonempty l). by destruct (label_text l).
Qed.

Lemma labels_text_snoc pre l :
  labels_text (pre ++ [l]) = (if bytes_eqb (labels_text pre) [] then labels_text pre else labels_text pre ++ lit ",")
                             ++ label_text l.
Proof.
  assert (Hb : bytes_eqb (labels_text pre) [] = match pre with [] => true | _ => false end).
  { destruct pre; [done|]. apply bool_decide_eq_false. by rewrite labels_text_nil. }
  rewrite Hb. clear Hb. induction pre as [|a pre IH]; [done|].
  unfold labels_text in *. rewrite <- app_comm_cons. cbn [map]. rewrite join_cons by (by destruct pre).
  rewrite IH. destruct pre as [|b pre]; [by rewrite <- app_assoc|].
  rewrite (join_cons _ _ (map _ (b :: pre))) by done. solve_app.
Qed.

Lemma render_loop_iff histogram labels : forall previous pre key,
  render_loop histogram previous (labels_text pre) labels = Some key
  <-> Forall (good_label histogram) labels /\ adjacent previous labels /\ key = labels_text (pre ++ labels).
Proof.
  induction labels as [|[name value] rest IH]; intros previous pre key; cbn [render_loop adjacent].
  { rewrite app_nil_r. split; [intros [= <-]; by repeat split|by intros (_ & _ & ->)]. }
  rewrite Forall_cons. unfold good_label at 1. cbn [fst].
  destruct (ValidName name false) eqn:Hv; cbn [negb]; [|split; [done|intros ([[? _] _] & _); congruence]].
  assert (Hp : match previous with Some p => bytes_eqb name p | None => false end = true <-> previous = Some name).
  { destruct previous as [p|]; [|done]. rewrite bytes_eqb_eq. split; [by intros ->|by intros [= ->]]. }
  destruct (match previous with Some p => bytes_eqb name p | None => false end).
  { split; [done|]. intros (_ & [H _] & _). by rewrite (proj1 Hp eq_refl) in H. }
  destruct (histogram && bytes_eqb name (lit "le")) eqn:Hle.
  { apply andb_true_iff in Hle as [-> Hle%bytes_eqb_eq]. split; [done|]. intros ([[_ H] _] & _). by specialize (H eq_refl). }
  rewrite <- labels_text_snoc, IH, <- app_assoc. cbn [app].
  assert (histogram = true -> name <> lit "le") as H1 by (intros -> ->; by vm_compute in Hle).
  assert (previous <> Some name) as H2 by (intros H; by apply Hp in H).
  split; [intros (? & ? & ?)|intros ([_ ?] & [_ ?] & ?)]; done.
Qed.

(** ** Sorting *)

Definition before (a b : bytes * bytes) : Prop := bcmp (fst a) (fst b) <> Gt.
Definition strictly (a b : bytes * bytes) : Prop := bcmp (fst a) (fst b) = Lt.

Lemma before_trans a b c : before a b -> before b c -> before a c.
Proof.
  unfold before. destruct (bcmp (fst a) (fst b)) eqn:E1; [|intros _|done].
  - apply bcmp_eq in E1 as ->. done.
  - destruct (bcmp (fst b) (fst c)) eqn:E2; [|intros _|done].
    + apply bcmp_eq in E2 as <-. by rewrite E1.
    + by rewrite (bcmp_trans _ _ _ E1 E2).
Qed.

Lemma insert_label_perm l labels : insert_label l labels ≡ₚ l :: labels.
Proof.
  induction labels as [|l' rest IH]; [done|]. cbn [insert_label].
  destruct (bcmp (fst l') (fst l)); [done| |done]. rewrite IH. constructor.
Qed.

Lemma sort_labels_perm labels : sort_labels labels ≡ₚ labels.
Proof. induction labels as [|l rest IH]; [done|]. cbn [sort_labels foldr]. by rewrite insert_label_perm, IH. Qed.

Lemma insert_label_sorted l labels : StronglySorted before labels -> StronglySorted before (insert_label l labels).
Proof.
  induction 1 as [|l' rest Hs IH Hf]; [by repeat constructor|]. cbn [insert_label].
  destruct (bcmp (fst l') (fst l)) eqn:E.
  1, 3: assert (before l l') as Hb by
      (unfold before; rewrite (bcmp_antisym (fst l') (fst l)), E; done);
    constructor; [by constructor|]; constructor; [done|];
    eapply Forall_impl; [exact Hf|]; intros x; by apply before_trans.
  constructor; [done|]. rewrite insert_label_perm. constructor; [by unfold before; rewrite E|done].
Qed.

Lemma sort_labels_sorted labels : StronglySorted before (sort_labels labels).
Proof. induction labels as [|l rest IH]; [constructor|]. by apply insert_label_sorted. Qed.

Lemma adjacent_strict previous labels :
  StronglySorted before labels -> adjacent previous labels -> StronglySorted strictly labels.
Proof.
  intros Hs. revert previous. induction Hs as [|[n v] rest Hs IH Hf]; intros previous Ha; [constructor|].
  destruct Ha as [_ Ha]. specialize (IH _ Ha). constructor; [done|].
  destruct rest as [|[n' v'] rest]; [done|]. destruct Ha as [Hne _]. inversion_clear IH as [|? ? _ Hr].
  inversion_clear Hf.
  assert (strictly (n, v) (n', v')) as Hlt.
  { unfold strictly, before in *. simpl in *. destruct (bcmp n n') eqn:E; [|done|done].
    apply bcmp_eq in E as ->. done. }
  constructor; [done|]. eapply Forall_impl; [exact Hr|]. intros x Hx. unfold strictly in *.
  by apply (bcmp_trans _ n').
Qed.

Lemma strict_adjacent previous labels :
  StronglySorted strictly labels -> (forall p, previous = Some p -> p ∉ map fst labels) -> adjacent previous labels.
Proof.
  intros Hs. revert previous. induction Hs as [|[n v] rest Hs IH Hf]; intros previous Hp; [done|]. split.
  - intros ->. destruct (Hp n eq_refl). apply list_elem_of_In. by left.
  - apply IH. intros p [= <-]. rewrite list_elem_of_In, in_map_iff. intros (x & Hx & Hin).
    rewrite Forall_forall in Hf. apply list_elem_of_In in Hin. specialize (Hf _ Hin).
    unfold strictly in Hf. simpl in Hf. by rewrite Hx, bcmp_refl in Hf.
Qed.

Lemma strict_nodup labels : StronglySorted strictly labels -> NoDup (map fst labels).
Proof.
  induction 1 as [|[n v] rest Hs IH Hf]; simpl; constructor; [|done].
  rewrite list_elem_of_In, in_map_iff. intros (x & Hx & Hin).
  rewrite Forall_forall in Hf. apply list_elem_of_In in Hin. specialize (Hf _ Hin).
  unfold strictly in Hf. simpl in Hf. by rewrite Hx, bcmp_refl in Hf.
Qed.

Lemma nodup_strict labels : StronglySorted before labels -> NoDup (map fst labels) -> StronglySorted strictly labels.
Proof.
  induction 1 as [|[n v] rest Hs IH Hf]; simpl; intros Hn; constructor; inversion_clear Hn; [by apply IH|].
  rewrite Forall_forall in *. intros x Hx. specialize (Hf x Hx). unfold before, strictly in *. simpl in *.
  destruct (bcmp n (fst x)) eqn:E; [|done|done]. apply bcmp_eq in E as ->.
  destruct H. rewrite list_elem_of_In. apply in_map. by apply list_elem_of_In.
Qed.

Lemma sort_labels_unique labels labels' :
  NoDup (map fst labels) -> labels ≡ₚ labels' -> sort_labels labels = sort_labels labels'.
Proof.
  intros Hn Hp. apply (StronglySorted_unique_strong strictly).
  - intros x y _ _. unfold strictly. rewrite (bcmp_antisym (fst x) (fst y)). by intros ->.
  - apply nodup_strict; [apply sort_labels_sorted|]. by rewrite (Permutation_map fst (sort_labels_perm labels)).
  - apply nodup_strict; [apply sort_labels_sorted|].
    by rewrite (Permutation_map fst (sort_labels_perm labels')), <- (Permutation_map fst Hp).
  - by rewrite !sort_labels_perm.
Qed.

(** What [RenderLabels] accepts and what it renders. *)
Lemma RenderLabels_iff labels histogram key :
  RenderLabels labels histogram = Some key
  <-> NoDup (map fst labels) /\ Forall (good_label histogram) labels /\ key = labels_text (sort_labels labels).
Proof.
  unfold RenderLabels. rewrite (render_loop_iff histogram _ None []). cbn [app].
  assert (Forall (good_label histogram) (sort_labels labels) <-> Forall (good_label histogram) labels) as ->
    by (by rewrite sort_labels_perm).
  pose proof (sort_labels_sorted labels) as Hs. split.
  - intros (Hg & Ha & ->). split; [|done]. rewrite <- (Permutation_map fst (sort_labels_perm labels)).
    by eapply strict_nodup, adjacent_strict.
  - intros (Hn & Hg & ->). split; [done|]. split; [|done].
    apply strict_adjacent; [|done]. apply nodup_strict; [done|].
    by rewrite (Permutation_map fst (sort_labels_perm labels)).
Qed.

(** ** Reading label sets and samples *)

Definition no_equals (labels : MetricLabels) : Prop := Forall (fun l => "="%byte ∉ fst l) labels.

Lemma ValidName_bytes name allow_colon :
  ValidName name allow_colon = true -> name <> [] /\ Forall (fun c => name_byte true false c = true) name.
Proof.
  destruct name as [|c rest]; [done|]. cbn [ValidName]. intros [H1 H2]%andb_true_iff. split; [done|].
  assert (Hw : forall first c, name_byte allow_colon first c = true -> name_byte true false c = true).
  { unfold name_byte. intros first d H. destruct (letter d); [done|]. destruct allow_colon, first; simpl in *;
      try done; by rewrite ?orb_false_r, ?H, ?orb_true_r in *. }
  constructor; [by eapply Hw|]. apply forallb_Forall in H2. eapply Forall_impl; [exact H2|].
  intros d. apply (Hw false).
Qed.

Lemma ValidName_notin name allow_colon c :
  ValidName name allow_colon = true -> name_byte true false c = false -> c ∉ name.
Proof.
  intros [_ H]%ValidName_bytes Hc Hin. rewrite Forall_forall in H. specialize (H c Hin). congruence.
Qed.

Lemma good_no_equals histogram labels : Forall (good_label histogram) labels -> no_equals labels.
Proof. intros H. eapply Forall_impl; [exact H|]. intros l [Hv _]. by apply (ValidName_notin _ false). Qed.

Lemma read_labels_text labels : forall fuel rest,
  labels <> [] -> no_equals labels -> (length labels <= fuel)%nat -> head rest <> Some ","%byte ->
  read_labels fuel (labels_text labels ++ rest) = Some (labels, rest).
Proof.
  induction labels as [|[name value] labels IH]; intros fuel rest Hne Hok Hf Hr; [done|].
  apply Forall_cons in Hok as [Hn Hok]. cbn [fst] in Hn. destruct fuel as [|fuel]; [simpl in Hf; lia|].
  destruct labels as [|l labels].
  - change (labels_text [(name, value)]) with (label_text (name, value)).
    assert (label_text (name, value) ++ rest
            = name ++ "="%byte :: double_quote :: EscapeLabel value ++ double_quote :: rest) as ->
      by (unfold label_text; cbn [fst snd]; solve_app).
    cbn [read_labels]. rewrite cut_app, byte_eqb_refl, read_value_escape by done.
    destruct rest as [|c rest]; [done|]. destruct (byte_eqb_spec c ","%byte) as [->|]; done.
  - assert (labels_text ((name, value) :: l :: labels) ++ rest
            = name ++ "="%byte :: double_quote :: EscapeLabel value ++ double_quote :: ","%byte
              :: labels_text (l :: labels) ++ rest) as ->.
    { unfold labels_text at 1. cbn [map]. rewrite join_cons by done. unfold label_text at 1. cbn [fst snd].
      unfold labels_text. cbn [map]. solve_app. }
    cbn [read_labels]. rewrite cut_app, byte_eqb_refl, read_value_escape, byte_eqb_refl by done.
    by rewrite IH by (done || simpl in *; lia).
Qed.

Lemma length_labels_text labels : (length labels <= length (labels_text labels))%nat.
Proof.
  induction labels as [|l labels IH]; [done|].
  assert (1 <= length (label_text l))%nat by (pose proof (label_text_nonempty l); destruct (label_text l); simpl; [done|lia]).
  unfold labels_text in *. cbn [map]. destruct labels as [|l' labels]; [simpl; lia|].
  rewrite join_cons, length_app by done. simpl in *. lia.
Qed.

Lemma labels_of_text labels : no_equals labels -> labels_of (labels_text labels) = Some labels.
Proof.
  intros Hok. unfold labels_of. destruct (decide (labels = [])) as [->|Hne]; [done|].
  destruct (labels_text labels) as [|c t] eqn:E; [by apply labels_text_nil in E|]. rewrite <- E.
  pose proof (read_labels_text labels (length (labels_text labels)) [] Hne Hok (length_labels_text labels) ltac:(done)) as H.
  rewrite app_nil_r in H. by rewrite H.
Qed.

Lemma labels_text_one_line labels : Forall (fun l => newline ∉ fst l) labels -> newline ∉ labels_text labels.
Proof.
  assert (Hl : forall l, newline ∉ fst l -> newline ∉ label_text l).
  { intros l H. unfold label_text. rewrite !not_elem_of_app. split; [done|]. split; [by apply (bool_decide_unpack _)|].
    split; [by apply (bool_decide_unpack _)|]. split; [apply escape_label_one_line|by apply (bool_decide_unpack _)]. }
  unfold labels_text. induction 1 as [|l labels H Hs IH]; [by apply not_elem_of_nil|]. cbn [map].
  destruct labels as [|l' labels]; [by apply Hl|]. rewrite join_cons by done.
  rewrite not_elem_of_app, not_elem_of_cons. auto.
Qed.

Lemma find_if_stop (p : Byte.byte -> bool) name c rest :
  Forall (fun d => p d = false) name -> p c = true -> find_if p (name ++ c :: rest) = Some (length name).
Proof.
  intros Hn Hc. induction Hn as [|d name Hd Hn IH]; simpl; [by rewrite Hc|]. by rewrite Hd, IH.
Qed.

(** The name of a family or of one of its samples. *)
Definition sample_name (name : bytes) : Prop := name <> [] /\ Forall (fun c => name_byte true false c = true) name.

Lemma sample_name_notin name c : sample_name name -> name_byte true false c = false -> c ∉ name.
Proof. intros [_ H] Hc Hin. rewrite Forall_forall in H. specialize (H c Hin). congruence. Qed.

Lemma read_line_sample name rest :
  sample_name name -> read_line (name ++ rest) = read_sample (name ++ rest).
Proof.
  intros [Hne Hn]. destruct name as [|c name]; [done|]. inversion_clear Hn as [|? ? Hc _]. unfold read_line.
  assert (Hb : byte_eqb c "#"%byte = false) by (destruct (byte_eqb_spec c "#"%byte) as [->|]; done).
  assert (Hs : forall s, starts_with ("#"%byte :: s) ((c :: name) ++ rest) = false).
  { intros s. simpl. destruct (byte_eqb_spec "#"%byte c) as [<-|]; [|done]. done. }
  by rewrite (Hs (lit " HELP ") : starts_with (lit "# HELP ") _ = false),
    (Hs (lit " TYPE ") : starts_with (lit "# TYPE ") _ = false).
Qed.

(** A sample line says its name, its labels and its value. *)
Lemma says_sample name suffix labels value :
  sample_name (name ++ suffix) -> no_equals labels -> Forall (fun l => newline ∉ fst l) labels ->
  newline ∉ value ->
  says (AppendSample [] name suffix (labels_text labels) value) [Sample (name ++ suffix) labels value].
Proof.
  intros Hn He Hl Hv. pose proof (sample_name_notin _ newline Hn eq_refl) as Hnl.
  pose proof (labels_text_one_line _ Hl) as Ht.
  assert (Hp : Forall (fun c => byte_eqb c "{"%byte || byte_eqb c " "%byte = false) (name ++ suffix)).
  { destruct Hn as [_ Hn]. eapply Forall_impl; [exact Hn|]. intros c Hc. by destruct c. }
  set (mid := if bytes_eqb (labels_text labels) [] then [] else lit "{" ++ labels_text labels ++ lit "}").
  assert (AppendSample [] name suffix (labels_text labels) value
          = ((name ++ suffix) ++ mid ++ lit " " ++ value) ++ [newline]) as ->.
  { unfold AppendSample. fold mid. solve_app. }
  apply says_line.
  - rewrite !not_elem_of_app. split; [by rewrite not_elem_of_app in Hnl|]. split; [|split; [|done]].
    + unfold mid. destruct (bytes_eqb _ _); [by apply not_elem_of_nil|].
      rewrite !not_elem_of_app. split; [|split; [done|]]; by apply (bool_decide_unpack _).
    + by apply (bool_decide_unpack _).
  - rewrite read_line_sample by done. unfold read_sample, mid.
    destruct (bytes_eqb (labels_text labels) []) eqn:Eb.
    + apply bytes_eqb_eq, labels_text_nil in Eb as ->. cbn [app lit].
      change (lit " " ++ value) with (" "%byte :: value).
      rewrite (find_if_stop _ _ " "%byte) by done. by rewrite take_app_length, drop_app_length.
    + assert (Hne : labels <> []) by (intros ->; done).
      replace ((lit "{" ++ labels_text labels ++ lit "}") ++ lit " " ++ value)
        with ("{"%byte :: labels_text labels ++ "}"%byte :: " "%byte :: value) by solve_app.
      rewrite (find_if_stop _ _ "{"%byte) by done. rewrite take_app_length, drop_app_length.
      rewrite byte_eqb_refl. rewrite read_labels_text; [done|done|done| |done].
      rewrite length_app. pose proof (length_labels_text labels). lia.
Qed.

Lemma AppendSample_out out name suffix labels value :
  AppendSample out name suffix labels value = out ++ AppendSample [] name suffix labels value.
Proof. done. Qed.

Lemma AppendFamilyHeader_out out name type help :
  AppendFamilyHeader out name type help = out ++ AppendFamilyHeader [] name type help.
Proof. done. Qed.

Lemma says_header name type help :
  sample_name name -> newline ∉ type ->
  says (AppendFamilyHeader [] name type help) [Help name help; TypeOf name type].
Proof.
  intros Hn Ht. pose proof (sample_name_notin _ newline Hn eq_refl) as Hnl.
  pose proof (sample_name_notin _ " "%byte Hn eq_refl) as Hsp.
  pose proof (escape_help_one_line help) as Hh.
  assert (AppendFamilyHeader [] name type help
          = ((lit "# HELP " ++ name ++ " "%byte :: EscapeHelp help) ++ [newline])
            ++ ((lit "# TYPE " ++ name ++ " "%byte :: type) ++ [newline])) as ->.
  { unfold AppendFamilyHeader. solve_app. }
  apply (says_app _ [_] _ [_]); apply says_line.
  - rewrite !not_elem_of_app, not_elem_of_cons. split; [by apply (bool_decide_unpack _)|]. by split.
  - unfold read_line. change (starts_with (lit "# HELP ") (lit "# HELP " ++ ?x)) with (starts_with [] x).
    change (drop 7 (lit "# HELP " ++ ?x)) with x. cbn [starts_with]. by rewrite cut_app, read_help_escape.
  - rewrite !not_elem_of_app, not_elem_of_cons. split; [by apply (bool_decide_unpack _)|]. by split.
  - unfold read_line. change (starts_with (lit "# HELP ") (lit "# TYPE " ++ ?x)) with false.
    change (starts_with (lit "# TYPE ") (lit "# TYPE " ++ ?x)) with (starts_with [] x).
    change (drop 7 (lit "# TYPE " ++ ?x)) with x. cbn [starts_with]. by rewrite cut_app.
Qed.

(** ** Numbers read back *)

Definition numeric (c : Byte.byte) : bool :=
  is_digit c || letter c || byte_eqb c "-"%byte || byte_eqb c "+"%byte || byte_eqb c "."%byte.

Definition numeric_text (s : bytes) : Prop := Forall (fun c => numeric c = true) s.

Lemma numeric_digits s : all_digits s -> numeric_text s.
Proof. intros H. eapply Forall_impl; [exact H|]. intros c Hc. unfold numeric. by rewrite Hc. Qed.

Lemma numeric_pad n z : numeric_text (pad_digits n z).
Proof.
  apply numeric_digits. revert z. induction n as [|n IH]; intros z; [constructor|]. cbn [pad_digits].
  apply Forall_app. split; [apply IH|]. repeat constructor. apply is_digit_digit_byte.
  pose proof (Z.mod_pos_bound z 10 ltac:(lia)). lia.
Qed.

Lemma numeric_to_string z : 0 <= z -> numeric_text (to_string z).
Proof. intros H. apply numeric_digits. by apply to_string_spec. Qed.

Lemma numeric_rdrop p s : numeric_text s -> numeric_text (rdrop_while p s).
Proof.
  unfold rdrop_while, numeric_text. intros H. apply Forall_reverse.
  destruct (drop_while_suffix p (reverse s)) as (t & Ht & _).
  apply Forall_reverse in H. rewrite Ht, Forall_app in H. apply H.
Qed.

Lemma numeric_fraction s : numeric_text s -> numeric_text (fraction s).
Proof.
  intros H. unfold fraction. pose proof (numeric_rdrop (is_byte "0"%byte) s H) as Hr.
  destruct (rdrop_while _ s); [constructor|]. by constructor.
Qed.

Lemma numeric_minus s : numeric_text (minus s).
Proof. destruct s; by repeat constructor. Qed.

Lemma numeric_take n s : numeric_text s -> numeric_text (take n s).
Proof. apply Forall_take. Qed.

Lemma numeric_drop n s : numeric_text s -> numeric_text (drop n s).
Proof. apply Forall_drop. Qed.

Lemma numeric_app s t : numeric_text s -> numeric_text t -> numeric_text (s ++ t).
Proof. intros. by apply Forall_app. Qed.

#[local] Hint Resolve numeric_pad numeric_to_string numeric_rdrop numeric_fraction numeric_minus
  numeric_take numeric_drop numeric_app : numeric.

Lemma numeric_general p v : numeric_text (print_general p v).
Proof.
  destruct v as [s|s| |s m e]; cbn [print_general]; try (by destruct s; repeat constructor);
    [by repeat constructor|].
  destruct (significant _ _ _) as [n x]. apply numeric_app; [apply numeric_minus|].
  destruct ((x <? -4) || _); [|destruct (x <? 0)].
  - repeat apply numeric_app; auto with numeric; [by repeat constructor|by destruct (x <? 0); repeat constructor|].
    destruct (Z.abs x <? 100); [apply numeric_pad|apply numeric_to_string; lia].
  - apply numeric_app; [by repeat constructor|auto with numeric].
  - auto with numeric.
Qed.

Lemma coefficient_pos m e : 0 < coefficient (Z.pos m) e.
Proof.
  unfold coefficient. destruct (Z.leb_spec 0 e); apply Z.mul_pos_pos; try lia; apply Z.pow_pos_nonneg; lia.
Qed.

Lemma round_at_nonneg c x p : 0 <= c -> 0 <= round_at c x p.
Proof.
  intros Hc. unfold round_at. destruct (Z.leb_spec p x).
  - apply Z.mul_nonneg_nonneg; [done|apply Z.pow_nonneg; lia].
  - apply round_div_near; [apply Z.pow_pos_nonneg; lia|done].
Qed.

Lemma numeric_fixed v : numeric_text (print_fixed v).
Proof.
  destruct v as [s|s| |s m e]; cbn [print_fixed]; try (by destruct s; repeat constructor);
    [by repeat constructor|].
  apply numeric_app; [apply numeric_minus|]. apply numeric_app; [|apply (numeric_app (lit ".")); [by repeat constructor|apply numeric_pad]].
  apply numeric_to_string, Z.div_pos; [|lia]. apply round_at_nonneg. pose proof (coefficient_pos m e). lia.
Qed.

Lemma removelast_Forall {A} (P : A -> Prop) l : Forall P l -> Forall P (removelast l).
Proof. induction 1 as [|a l Ha Hl IH]; [constructor|]. destruct l; [constructor|]. by constructor. Qed.

Lemma FormatNumber_numeric v : numeric_text (FormatNumber v).
Proof.
  assert (Hf : numeric_text (first_exact [15; 16; 17]%nat v)).
  { cbn [first_exact]. repeat case_match; first [apply numeric_general|by repeat constructor]. }
  assert (Ht : numeric_text (trimmed (print_fixed v))).
  { unfold trimmed. pose proof (numeric_fixed v). case_match; [|done].
    destruct (ends_with_byte _ _); [apply removelast_Forall|]; by apply numeric_rdrop. }
  destruct v as [s|[]| |s m e]; [|by repeat constructor..|]; unfold FormatNumber; cbv zeta;
    destruct (_ && SFeqb _ _); assumption.
Qed.

(** A double as binary64 has them. *)
Definition valid_double (v : double) : Prop :=
  match v with S754_finite _ m e => canonical (Z.pos m) e | _ => True end.

Lemma significant_exponent m e n x :
  canonical (Z.pos m) e -> significant 17 (coefficient (Z.pos m) e) (exponent e) = (n, x) -> Z.abs x < 10 ^ 10.
Proof.
  intros Hc. assert (coefficient (Z.pos m) e < 10 ^ 1200) as Hb.
  { assert (Z.pos m < 2 ^ 53 /\ -1074 <= e <= 971) as [Hm He] by (destruct Hc; lia).
    assert (2 ^ 53 * 2 ^ 971 < 10 ^ 1200 /\ 2 ^ 53 * 5 ^ 1074 < 10 ^ 1200) as [H1 H2] by (split; by vm_compute).
    unfold coefficient. destruct (Z.leb_spec 0 e).
    - assert (2 ^ e <= 2 ^ 971) by (apply Z.pow_le_mono_r; lia). pose proof (pow2_pos e ltac:(lia)).
      eapply Z.le_lt_trans; [|exact H1]. apply Z.mul_le_mono_nonneg; lia.
    - assert (5 ^ (- e) <= 5 ^ 1074) by (apply Z.pow_le_mono_r; lia).
      assert (0 < 5 ^ (- e)) by (apply Z.pow_pos_nonneg; lia).
      eapply Z.le_lt_trans; [|exact H2]. apply Z.mul_le_mono_nonneg; lia. }
  pose proof (to_string_bounds _ (coefficient_pos m e)) as [Hl _].
  set (l := len (to_string (coefficient (Z.pos m) e))) in *.
  assert (l - 1 < 1200) by (apply (Z.pow_lt_mono_r_iff 10); lia).
  assert (0 <= l) by apply len_nonneg. assert (-1074 <= exponent e <= 0) by (unfold exponent; destruct Hc; lia).
  unfold significant. fold l. change (10 ^ 10) with 10000000000. case_match; intros [= <- <-]; lia.
Qed.

Lemma len_take_le {A} n (l : list A) : len (take n l) <= Z.of_nat n.
Proof. unfold len. rewrite length_take. lia. Qed.

Lemma len_fraction s : len (fraction s) <= 1 + len s.
Proof.
  destruct (fraction_spec s) as (t & k & -> & ->). rewrite len_app. pose proof (len_nonneg (replicate k "0"%byte)).
  pose proof (len_nonneg t). unfold dotted. destruct t; [simpl; lia|]. rewrite len_app. change (len (lit ".")) with 1. lia.
Qed.

Lemma len_pad n z : len (pad_digits n z) = Z.of_nat n.
Proof. unfold len. by rewrite length_pad_digits. Qed.

Lemma print_general_short s m e : canonical (Z.pos m) e -> len (print_general 17 (S754_finite s m e)) < kBuffer.
Proof.
  intros Hc. unfold print_general. change (Z.of_nat 17) with 17. destruct (significant 17 _ _) as [n x] eqn:E.
  pose proof (significant_exponent _ _ _ _ Hc E) as Hx. rewrite len_app.
  assert (len (minus s) <= 1) by (destruct s; by vm_compute). unfold kBuffer.
  pose proof (len_pad 17 n) as Hd. set (digits := pad_digits 17 n) in *. change (Z.of_nat 17) with 17 in Hd.
  destruct ((x <? -4) || (17 <=? x)) eqn:Esci;
    [|apply orb_false_iff in Esci as [E1%Z.ltb_ge E2%Z.leb_gt]; destruct (Z.ltb_spec x 0)].
  - rewrite !len_app. pose proof (len_take_le 1 digits). pose proof (len_fraction (drop 1 digits)) as Hf.
    assert (len (drop 1 digits) <= 17) by (unfold len in *; rewrite length_drop; lia).
    change (len (lit "e")) with 1. assert (len (if x <? 0 then lit "-" else lit "+") = 1) by (by destruct (x <? 0)).
    assert (len (if Z.abs x <? 100 then pad_digits 2 (Z.abs x) else to_string (Z.abs x)) <= 10); [|lia].
    destruct (Z.ltb_spec (Z.abs x) 100); [by rewrite len_pad|].
    pose proof (to_string_bounds (Z.abs x) ltac:(lia)) as [Hl _].
    assert (len (to_string (Z.abs x)) - 1 < 10) by (apply (Z.pow_lt_mono_r_iff 10); lia). lia.
  - rewrite len_app. pose proof (len_fraction (pad_digits (Z.to_nat (- x - 1)) 0 ++ digits)) as Hf.
    rewrite len_app, len_pad in Hf. change (len (lit "0")) with 1. lia.
  - rewrite len_app. pose proof (len_fraction (drop (Z.to_nat (x + 1)) digits)) as Hf.
    pose proof (len_take_le (Z.to_nat (x + 1)) digits).
    assert (len (drop (Z.to_nat (x + 1)) digits) <= 17) by (unfold len in *; rewrite length_drop; lia). lia.
Qed.

Lemma SFeqb_refl_number v : is_finite v = true -> SFeqb v v = true.
Proof.
  destruct v as [s|s| |s m e]; try done. intros _. unfold SFeqb. cbn [SFcompare].
  rewrite Z.compare_refl. change (Pos.compare_cont Eq m m) with (Pos.compare m m). rewrite Pos.compare_refl.
  by destruct s.
Qed.

Lemma first_exact_reads formats v :
  is_finite v = true -> (exists p, p ∈ formats /\ len (print_general p v) < kBuffer /\ SFeqb (strtod (print_general p v)) v = true) ->
  SFeqb (strtod (first_exact formats v)) v = true.
Proof.
  intros Hv. induction formats as [|p formats IH]; intros (q & Hq & Hl & He); [by apply elem_of_nil in Hq|].
  cbn [first_exact]. destruct ((len (print_general p v) <? kBuffer) && SFeqb (strtod (print_general p v)) v) eqn:E.
  - by apply andb_true_iff in E as [_ ?].
  - apply IH. apply elem_of_cons in Hq as [->|Hq]; [|by exists q].
    apply andb_false_iff in E as [E|E]; [apply Z.ltb_ge in E; lia|congruence].
Qed.

Lemma FormatNumber_reads v :
  valid_double v -> is_finite v = true -> SFeqb (strtod (FormatNumber v)) v = true.
Proof.
  intros Hv Hf. assert (SFeqb (strtod (first_exact [15; 16; 17]%nat v)) v = true) as Hg.
  { destruct v as [s|s| |s m e]; try done; [by destruct s; vm_compute|]. apply first_exact_reads; [done|].
    exists 17%nat. split; [by apply (bool_decide_unpack _)|]. split; [by apply print_general_short|].
    rewrite print_general_exact by done. by apply SFeqb_refl_number. }
  destruct v as [s|s| |s m e]; try done; unfold FormatNumber; cbv zeta;
    match goal with |- context [if ?b then _ else _] => destruct b eqn:E; [|exact Hg] end;
    by apply andb_true_iff in E as [_ E].
Qed.

(** Numbers are exact and identify their series: the text of every finite
    double is read back as that very value whether the fixed or a scientific
    form was chosen, so the fallback at the end is never reached; two finite
    values have the same text only if they are equal; infinities and NaN have
    texts of their own; and no text holds a byte that would end a value, a
    label or a line. *)
Theorem FormatNumber_exact v w (Hv : valid_double v) (Hw : valid_double w) :
  (is_finite v = true -> SFeqb (strtod (FormatNumber v)) v = true)
  /\ (is_finite v = true -> is_finite w = true -> FormatNumber v = FormatNumber w -> SFeqb v w = true)
  /\ FormatNumber (S754_infinity false) = lit "+Inf" /\ FormatNumber (S754_infinity true) = lit "-Inf"
  /\ FormatNumber S754_nan = lit "NaN"
  /\ Forall (fun c => c <> newline /\ c <> double_quote /\ c <> backslash /\ c <> " "%byte) (FormatNumber v).
Proof.
  split; [by apply FormatNumber_reads|]. split.
  { intros Fv Fw E. pose proof (FormatNumber_reads v Hv Fv) as Rv. pose proof (FormatNumber_reads w Hw Fw) as Rw.
    rewrite E in Rv. destruct v as [s|s| |s m e], w as [s'|s'| |s' m' e']; try done.
    - apply SFeqb_finite in Rw. rewrite Rw in Rv. by destruct s, s'.
    - apply SFeqb_finite in Rv. rewrite Rv in Rw. by destruct s, s'.
    - apply SFeqb_finite in Rv. by rewrite Rv in Rw. }
  split; [done|]. split; [done|]. split; [done|].
  eapply Forall_impl; [apply FormatNumber_numeric|]. intros c Hc. by split_and!; intros ->.
Qed.

Lemma FormatNumber_exact_witness :
  is_finite tenth = true /\ SFeqb (strtod (FormatNumber tenth)) tenth = true.
Proof.
  split; [done|]. refine (proj1 (FormatNumber_exact tenth tenth _ _) _); [| |done]; left; by vm_compute.
Defined.

(** Rendered labels are the identity of a series: [RenderLabels] aborts
    exactly on an invalid name, a name given twice, or "le" on a histogram; what
    it renders is read back as the very labels, sorted by name, whatever bytes
    their values hold; and two label sets address the same series if and only if
    one is a permutation of the other. *)
Theorem RenderLabels_identity labels labels' histogram key (H : RenderLabels labels histogram = Some key) :
  NoDup (map fst labels) /\ Forall (good_label histogram) labels
  /\ labels_of key = Some (sort_labels labels) /\ sort_labels labels ≡ₚ labels
  /\ newline ∉ key
  /\ (RenderLabels labels' histogram = Some key <-> labels' ≡ₚ labels).
Proof.
  pose proof (proj1 (RenderLabels_iff _ _ _) H) as (Hn & Hg & ->).
  assert (Hg' : Forall (good_label histogram) (sort_labels labels)) by (by rewrite sort_labels_perm).
  assert (Hr : labels_of (labels_text (sort_labels labels)) = Some (sort_labels labels))
    by (by eapply labels_of_text, good_no_equals).
  split; [done|]. split; [done|]. split; [done|]. split; [apply sort_labels_perm|]. split.
  { apply labels_text_one_line. eapply Forall_impl; [exact Hg'|]. intros l [Hv _]. by apply (ValidName_notin _ false). }
  rewrite RenderLabels_iff. split.
  - intros (Hn' & Hf' & E). assert (labels_of (labels_text (sort_labels labels')) = Some (sort_labels labels')) as Hr'.
    { eapply labels_of_text, good_no_equals. rewrite sort_labels_perm. exact Hf'. }
    rewrite <- E, Hr in Hr'. injection Hr' as Hr'. by rewrite <- (sort_labels_perm labels'), <- Hr', sort_labels_perm.
  - intros Hp. split; [by rewrite (Permutation_map fst Hp)|]. split; [by rewrite Hp|].
    f_equal. by apply sort_labels_unique.
Qed.

Lemma RenderLabels_identity_witness :
  let labels := [(lit "region", lit "us"); (lit "kind", [double_quote; newline])] in
  exists key, RenderLabels labels true = Some key /\ labels_of key = Some (sort_labels labels).
Proof.
  eexists. split; [vm_compute; reflexivity|].
  refine (proj1 (proj2 (proj2 (RenderLabels_identity _ [] true _ _)))). by vm_compute.
Defined.
