(* ===== verification/Metrics.v ===== *)
(** server/metrics.h and metrics.cc: application metric families, the built-in
    per-route tallies, registration, and the exposition of a registry.  Every
    operation runs under one mutex, so a concurrent history is a sequence of
    operations; [None] is the abort on misuse.  Families are shared objects:
    the registry and the handles refer to them by their place in a store. *)
From Stdlib Require Import ZArith Lia Strings.Byte.
From Stdlib Require Import Floats.SpecFloat.
From S2P Require Import Prelude Bytes OrdMap Timestamp Doubles Decimal Headers Effects Middleware Exposition.

Local Open Scope Z_scope.

Definition dadd (x y : double) : double := SFadd prec64 emax64 x y.
Definition zero : double := S754_zero false.

(** [++] on a [std::uint64_t]. *)
Definition bump (count : Z) : Z := wrap 64 (count + 1).

Definition HttpLatencyBuckets : list double := Eval vm_compute in
  map of_int [100; 250; 500; 1000; 2500; 5000; 10000; 25000; 50000; 100000; 250000; 500000; 1000000;
              2500000; 10000000].

(** [std::ranges::lower_bound] on an ascending ladder: the first bucket that is
    not below the value. *)
Fixpoint lower_bound (buckets : list double) (value : double) : option nat :=
  match buckets with
  | [] => None
  | b :: rest => if dlt b value then S <$> lower_bound rest value else Some 0%nat
  end.

(** [++counts[i]] for the bucket found, if any. *)
Definition count_bucket (buckets : list double) (value : double) (counts : list Z) : list Z :=
  match lower_bound buckets value with Some i => alter bump i counts | None => counts end.

(** ** Families *)

Inductive FamilyKind := kCounter | kGauge | kHistogram.

#[global] Instance FamilyKind_eq_dec : EqDecision FamilyKind.
Proof. solve_decision. Defined.

Definition is_histogram (kind : FamilyKind) : bool := match kind with kHistogram => true | _ => false end.

Record FamilySample := mkSample { sa_value : double; sa_count : Z; sa_buckets : list Z }.

Record MetricFamily := mkFamily {
  fa_name : bytes;
  fa_help : bytes;
  fa_kind : FamilyKind;
  fa_buckets : list double;
  fa_max_series : Z;
  fa_samples : list (bytes * FamilySample);
  fa_dropped : Z
}.

Definition with_samples (f : MetricFamily) samples dropped : MetricFamily :=
  mkFamily (fa_name f) (fa_help f) (fa_kind f) (fa_buckets f) (fa_max_series f) samples dropped.

(** A family at its series cap refuses a new series and counts the refusal. *)
Definition admit_sample (f : MetricFamily) (key : bytes) (sample : FamilySample) : MetricFamily :=
  if len (fa_samples f) >=? fa_max_series f then with_samples f (fa_samples f) (bump (fa_dropped f))
  else with_samples f (sm_insert key sample (fa_samples f)) (fa_dropped f).

Definition Add (f : MetricFamily) (labels : MetricLabels) (amount : double) (set : bool) : option MetricFamily :=
  key ← RenderLabels labels (is_histogram (fa_kind f));
  Some match sm_lookup key (fa_samples f) with
       | Some found =>
         let value := if set then amount else dadd (sa_value found) amount in
         with_samples f (sm_insert key (mkSample value (sa_count found) (sa_buckets found)) (fa_samples f))
           (fa_dropped f)
       | None => admit_sample f key (mkSample amount 0 [])
       end.

Definition observed (buckets : list double) (sample : FamilySample) (value : double) : FamilySample :=
  mkSample (dadd (sa_value sample) value) (bump (sa_count sample)) (count_bucket buckets value (sa_buckets sample)).

Definition baseline (f : MetricFamily) : FamilySample :=
  mkSample zero 0 (replicate (length (fa_buckets f)) 0).

Definition ObserveFamily (f : MetricFamily) (labels : MetricLabels) (value : double) : option MetricFamily :=
  key ← RenderLabels labels (is_histogram (fa_kind f));
  Some match sm_lookup key (fa_samples f) with
       | Some sample =>
         with_samples f (sm_insert key (observed (fa_buckets f) sample value) (fa_samples f)) (fa_dropped f)
       | None => admit_sample f key (observed (fa_buckets f) (baseline f) value)
       end.

Definition Declare_ (f : MetricFamily) (labels : MetricLabels) : option MetricFamily :=
  key ← RenderLabels labels (is_histogram (fa_kind f));
  Some match sm_lookup key (fa_samples f) with
       | Some _ => f
       | None => admit_sample f key (baseline f)
       end.

(** ** The registry *)

Record MetricsOptions := mkOptions { op_enabled : bool; op_service_name : bytes; op_max_series : Z }.

Record RouteKey := mkRouteKey { rk_method : bytes; rk_route : bytes }.

#[global] Instance RouteKey_eq_dec : EqDecision RouteKey.
Proof. solve_decision. Defined.

(** [operator<] as a comparison. *)
Definition route_cmp (a b : RouteKey) : comparison :=
  match bcmp (rk_method a) (rk_method b) with Eq => bcmp (rk_route a) (rk_route b) | c => c end.

Record RouteStats := mkStats {
  rt_requests : Z;
  rt_success : Z;
  rt_failure : Z;
  rt_buckets : list Z;
  rt_duration_sum : double;
  rt_duration_count : Z
}.

Record Metrics := mkMetrics {
  me_options : MetricsOptions;
  me_routes : list (RouteKey * RouteStats);
  me_in_flight : list (bytes * Z);
  me_dropped : Z;
  me_families : list (bytes * nat);
  me_store : list MetricFamily
}.

Definition with_routes (m : Metrics) routes dropped : Metrics :=
  mkMetrics (me_options m) routes (me_in_flight m) dropped (me_families m) (me_store m).
Definition with_in_flight (m : Metrics) in_flight : Metrics :=
  mkMetrics (me_options m) (me_routes m) in_flight (me_dropped m) (me_families m) (me_store m).
Definition with_families (m : Metrics) families store : Metrics :=
  mkMetrics (me_options m) (me_routes m) (me_in_flight m) (me_dropped m) families store.

Definition MetricsRegistry (options : MetricsOptions) : option Metrics :=
  if op_enabled options && bytes_eqb (op_service_name options) [] then None
  else Some (mkMetrics options [] [] 0 [] []).

Definition BuiltInLabels (m : Metrics) (labels : MetricLabels) : bytes :=
  fold_left (fun out l => out ++ lit "," ++ label_text l) labels
    (label_text (kServiceLabel, op_service_name (me_options m))).

Definition RecordStart (m : Metrics) (start : RequestStart) : Metrics :=
  if negb (op_enabled (me_options m)) then m
  else
    let method := NormalizeMethod (st_method start) in
    with_in_flight m (sm_insert method (default 0 (sm_lookup method (me_in_flight m)) + 1) (me_in_flight m)).

Definition find_route (key : RouteKey) (routes : list (RouteKey * RouteStats)) : option RouteStats :=
  snd <$> find (fun e => bool_decide (fst e = key)) routes.

(** The map with [f] applied to the stats of [key], which are inserted at
    their place if they are new. *)
Fixpoint update_route (key : RouteKey) (f : RouteStats -> RouteStats) (fresh : RouteStats)
    (routes : list (RouteKey * RouteStats)) : list (RouteKey * RouteStats) :=
  match routes with
  | [] => [(key, f fresh)]
  | (key', stats) :: rest =>
    match route_cmp key key' with
    | Eq => (key', f stats) :: rest
    | Lt => (key, f fresh) :: routes
    | Gt => (key', stats) :: update_route key f fresh rest
    end
  end.

Definition fresh_stats : RouteStats :=
  mkStats 0 0 0 (replicate (length HttpLatencyBuckets) 0) zero 0.

(** [AdmitRoute] and the update of what it points to: a refusal is counted. *)
Definition AdmitRoute (m : Metrics) (key : RouteKey) (f : RouteStats -> RouteStats) : Metrics :=
  match find_route key (me_routes m) with
  | Some _ => with_routes m (update_route key f fresh_stats (me_routes m)) (me_dropped m)
  | None =>
    if len (me_routes m) >=? op_max_series (me_options m) then with_routes m (me_routes m) (bump (me_dropped m))
    else with_routes m (update_route key f fresh_stats (me_routes m)) (me_dropped m)
  end.

(** [++requests] and the tally of the status. *)
Definition tally (status : Z) (s : RouteStats) : RouteStats :=
  mkStats (bump (rt_requests s)) (if status <? 400 then bump (rt_success s) else rt_success s)
    (if status <? 400 then rt_failure s else bump (rt_failure s))
    (rt_buckets s) (rt_duration_sum s) (rt_duration_count s).

Definition timed (duration : double) (s : RouteStats) : RouteStats :=
  mkStats (rt_requests s) (rt_success s) (rt_failure s)
    (count_bucket HttpLatencyBuckets duration (rt_buckets s)) (dadd (rt_duration_sum s) duration)
    (bump (rt_duration_count s)).

Definition record_key (observation : RequestObservation) : RouteKey :=
  mkRouteKey (NormalizeMethod (ob_method observation))
    (if bytes_eqb (ob_operation observation) [] then kUnmatchedRoute else ob_operation observation).

(** The gauge comes down before the route is admitted, and only if it is up. *)
Definition leave_flight (method : bytes) (m : Metrics) : Metrics :=
  match sm_lookup method (me_in_flight m) with
  | Some count => if count >? 0 then with_in_flight m (sm_insert method (count - 1) (me_in_flight m)) else m
  | None => m
  end.

Definition Record_ (m : Metrics) (observation : RequestObservation) : Metrics :=
  if negb (op_enabled (me_options m)) then m
  else
    let duration := of_int (ob_duration observation) in
    let key := record_key observation in
    AdmitRoute (leave_flight (rk_method key) m) key (fun s => timed duration (tally (ob_status observation) s)).

Definition RecordRejection (m : Metrics) (method : bytes) (status : Z) : Metrics :=
  if negb (op_enabled (me_options m)) then m
  else
    let key := mkRouteKey (if bytes_eqb method [] then kUnparsedMethod else NormalizeMethod method)
                 kUnmatchedRoute in
    AdmitRoute m key (tally status).

(** ** Registration and handles *)

Definition reserved_names : list bytes :=
  [kRequestsTotal; kRequestsSuccess; kRequestsFailure; kRequestsActive; kRequestDuration; kObservationsDropped].

(** [std::vector<double>] equality. *)
Fixpoint ladders_equal (a b : list double) : bool :=
  match a, b with
  | [], [] => true
  | x :: a, y :: b => SFeqb x y && ladders_equal a b
  | _, _ => false
  end.

Definition same_family (f : MetricFamily) (help : bytes) (kind : FamilyKind) (buckets : list double) : bool :=
  bool_decide (fa_kind f = kind) && bytes_eqb (fa_help f) help && ladders_equal (fa_buckets f) buckets.

Definition Register (m : Metrics) (name help : bytes) (kind : FamilyKind) (buckets : list double)
    : option (Metrics * nat) :=
  if negb (ValidName name true) then None
  else if existsb (bytes_eqb name) reserved_names then None
  else
    match sm_lookup name (me_families m) with
    | Some i =>
      existing ← me_store m !! i;
      if same_family existing help kind buckets then Some (m, i) else None
    | None =>
      let i := length (me_store m) in
      let family := mkFamily name help kind buckets (op_max_series (me_options m)) [] 0 in
      Some (with_families m (sm_insert name i (me_families m)) (me_store m ++ [family]), i)
    end.

(** A handle from a disabled registry holds no family. *)
Definition handle (m : Metrics) (i : nat) : option nat := if op_enabled (me_options m) then Some i else None.

Definition NewCounter (m : Metrics) (name help : bytes) : option (Metrics * option nat) :=
  '(m, i) ← Register m name help kCounter []; Some (m, handle m i).

Definition NewGauge (m : Metrics) (name help : bytes) : option (Metrics * option nat) :=
  '(m, i) ← Register m name help kGauge []; Some (m, handle m i).

(** The ladder is not empty, finite and strictly ascending. *)
Fixpoint ladder_ok (previous : option double) (buckets : list double) : bool :=
  match buckets with
  | [] => true
  | b :: rest =>
    is_finite b && match previous with Some p => negb (SFleb b p) | None => true end && ladder_ok (Some b) rest
  end.

Definition NewHistogram (m : Metrics) (name help : bytes) (buckets : list double)
    : option (Metrics * option nat) :=
  match buckets with
  | [] => None
  | _ => if negb (ladder_ok None buckets) then None
         else '(m, i) ← Register m name help kHistogram buckets; Some (m, handle m i)
  end.

(** [family_->f(...)]. *)
Definition on_family (m : Metrics) (i : nat) (f : MetricFamily -> option MetricFamily) : option Metrics :=
  family ← me_store m !! i;
  family' ← f family;
  Some (with_families m (me_families m) (<[i := family']> (me_store m))).

Definition through (h : option nat) (m : Metrics) (f : MetricFamily -> option MetricFamily) : option Metrics :=
  match h with Some i => on_family m i f | None => Some m end.

Definition CounterIncrement (m : Metrics) (h : option nat) (labels : MetricLabels) (amount : double)
    : option Metrics :=
  if dlt amount zero then None else through h m (fun f => Add f labels amount false).

Definition GaugeSet (m : Metrics) (h : option nat) (labels : MetricLabels) (value : double) : option Metrics :=
  through h m (fun f => Add f labels value true).

Definition GaugeIncrement (m : Metrics) (h : option nat) (labels : MetricLabels) (amount : double)
    : option Metrics :=
  through h m (fun f => Add f labels amount false).

Definition GaugeDecrement (m : Metrics) (h : option nat) (labels : MetricLabels) (amount : double)
    : option Metrics :=
  GaugeIncrement m h labels (SFopp amount).

Definition HistogramObserve (m : Metrics) (h : option nat) (labels : MetricLabels) (value : double)
    : option Metrics :=
  through h m (fun f => ObserveFamily f labels value).

Definition DeclareSeries (m : Metrics) (h : option nat) (labels : MetricLabels) : option Metrics :=
  through h m (fun f => Declare_ f labels).

(** ** The exposition *)

Definition route_labels (m : Metrics) (key : RouteKey) : bytes :=
  BuiltInLabels m [(kMethodLabel, rk_method key); (kRouteLabel, rk_route key)].

Definition counter_family (m : Metrics) (name help : bytes) (field : RouteStats -> Z) (out : bytes) : bytes :=
  fold_left (fun out e => AppendSample out name [] (route_labels m (fst e)) (to_string (field (snd e))))
    (me_routes m) (AppendFamilyHeader out name (lit "counter") help).

(** [le="..."] after labels that may be none. *)
Definition bucket_labels (labels le : bytes) : bytes :=
  (if bytes_eqb labels [] then [] else labels ++ lit ",") ++ lit "le=" ++ [double_quote] ++ le ++ [double_quote].

(** The cumulative bucket lines, then +Inf, the sum and the count. *)
Fixpoint bucket_lines (name labels : bytes) (buckets : list double) (counts : list Z) (cumulative : Z)
    (out : bytes) : bytes :=
  match buckets, counts with
  | b :: buckets, c :: counts =>
    let cumulative := wrap 64 (cumulative + c) in
    bucket_lines name labels buckets counts cumulative
      (AppendSample out name (lit "_bucket") (bucket_labels labels (FormatNumber b)) (to_string cumulative))
  | _, _ => out
  end.

Definition histogram_lines (name labels : bytes) (buckets : list double) (counts : list Z) (sum : double)
    (count : Z) (out : bytes) : bytes :=
  let out := bucket_lines name labels buckets counts 0 out in
  let out := AppendSample out name (lit "_bucket") (bucket_labels labels (lit "+Inf")) (to_string count) in
  let out := AppendSample out name (lit "_sum") labels (FormatNumber sum) in
  AppendSample out name (lit "_count") labels (to_string count).

Definition duration_family (m : Metrics) (out : bytes) : bytes :=
  fold_left (fun out e =>
      let stats := snd e in
      if rt_duration_count stats =? 0 then out
      else histogram_lines kRequestDuration (route_labels m (fst e)) HttpLatencyBuckets (rt_buckets stats)
             (rt_duration_sum stats) (rt_duration_count stats) out)
    (me_routes m) (AppendFamilyHeader out kRequestDuration (lit "histogram") kRequestDurationHelp).

Definition active_family (m : Metrics) (out : bytes) : bytes :=
  fold_left (fun out e =>
      AppendSample out kRequestsActive [] (BuiltInLabels m [(kMethodLabel, fst e)]) (int_text (snd e)))
    (me_in_flight m) (AppendFamilyHeader out kRequestsActive (lit "gauge") kRequestsActiveHelp).

(** [families] are the families as their own locks are taken, one by one. *)
Definition dropped_family (m : Metrics) (families : list MetricFamily) (out : bytes) : bytes :=
  let out := AppendFamilyHeader out kObservationsDropped (lit "counter") kObservationsDroppedHelp in
  let out := AppendSample out kObservationsDropped [] (BuiltInLabels m []) (to_string (me_dropped m)) in
  fold_left (fun out e =>
      match families !! snd e with
      | Some f =>
        if fa_dropped f =? 0 then out
        else AppendSample out kObservationsDropped [] (BuiltInLabels m [(lit "metric", fst e)])
               (to_string (fa_dropped f))
      | None => out
      end)
    (me_families m) out.

Definition kind_name (kind : FamilyKind) : bytes :=
  match kind with kCounter => lit "counter" | kGauge => lit "gauge" | kHistogram => lit "histogram" end.

Definition sample_lines (name : bytes) (f : MetricFamily) (out : bytes) (e : bytes * FamilySample) : bytes :=
  let '(labels, sample) := e in
  match fa_kind f with
  | kHistogram =>
    histogram_lines name labels (fa_buckets f) (sa_buckets sample) (sa_value sample) (sa_count sample) out
  | _ => AppendSample out name [] labels (FormatNumber (sa_value sample))
  end.

Definition application_family (families : list MetricFamily) (out : bytes) (e : bytes * nat) : bytes :=
  match families !! snd e with
  | Some f =>
    fold_left (sample_lines (fst e) f) (fa_samples f)
      (AppendFamilyHeader out (fst e) (kind_name (fa_kind f)) (fa_help f))
  | None => out
  end.

(** [drops] and [samples] are the families as seen by the two passes over
    them; on one thread both are the store. *)
Definition Expose (m : Metrics) (drops samples : list MetricFamily) : bytes :=
  if negb (op_enabled (me_options m)) then []
  else
    let out := counter_family m kRequestsTotal kRequestsTotalHelp rt_requests [] in
    let out := counter_family m kRequestsSuccess kRequestsSuccessHelp rt_success out in
    let out := counter_family m kRequestsFailure kRequestsFailureHelp rt_failure out in
    let out := duration_family m out in
    let out := active_family m out in
    let out := dropped_family m drops out in
    fold_left (application_family samples) (me_families m) out.
