(* ===== verification/MetricsState.v ===== *)
(** Invariants of the metrics registry over every history of its operations:
    the tallies agree, nothing recorded is lost unnoticed, the caps hold, and
    every series is well formed. *)
From Stdlib Require Import ZArith Lia Strings.Byte.
From Stdlib Require Import Floats.SpecFloat.
From Stdlib Require Import Sorting.Sorted.
From S2P Require Import Prelude Bytes OrdMap Timestamp Headers Effects Middleware Exposition Metrics.

Local Open Scope Z_scope.

(** ** Histories *)

Inductive MetricsOp :=
| OpStart (start : RequestStart)
| OpRecord (observation : RequestObservation)
| OpRejection (method : bytes) (status : Z)
| OpNewCounter (name help : bytes)
| OpNewGauge (name help : bytes)
| OpNewHistogram (name help : bytes) (buckets : list double)
| OpIncrement (h : option nat) (labels : MetricLabels) (amount : double)
| OpGaugeSet (h : option nat) (labels : MetricLabels) (value : double)
| OpGaugeIncrement (h : option nat) (labels : MetricLabels) (amount : double)
| OpGaugeDecrement (h : option nat) (labels : MetricLabels) (amount : double)
| OpObserve (h : option nat) (labels : MetricLabels) (value : double)
| OpDeclare (h : option nat) (labels : MetricLabels).

Definition apply_op (m : Metrics) (op : MetricsOp) : option Metrics :=
  match op with
  | OpStart start => Some (RecordStart m start)
  | OpRecord observation => Some (Record_ m observation)
  | OpRejection method status => Some (RecordRejection m method status)
  | OpNewCounter name help => fst <$> NewCounter m name help
  | OpNewGauge name help => fst <$> NewGauge m name help
  | OpNewHistogram name help buckets => fst <$> NewHistogram m name help buckets
  | OpIncrement h labels amount => CounterIncrement m h labels amount
  | OpGaugeSet h labels value => GaugeSet m h labels value
  | OpGaugeIncrement h labels amount => GaugeIncrement m h labels amount
  | OpGaugeDecrement h labels amount => GaugeDecrement m h labels amount
  | OpObserve h labels value => HistogramObserve m h labels value
  | OpDeclare h labels => DeclareSeries m h labels
  end.

(** A handle's class is the kind its family was made with. *)
Definition handle_kind (m : Metrics) (h : option nat) (kinds : list FamilyKind) : Prop :=
  forall i f, h = Some i -> me_store m !! i = Some f -> fa_kind f ∈ kinds.

Definition typed (m : Metrics) (op : MetricsOp) : Prop :=
  match op with
  | OpIncrement h _ _ => handle_kind m h [kCounter]
  | OpGaugeSet h _ _ | OpGaugeIncrement h _ _ | OpGaugeDecrement h _ _ => handle_kind m h [kGauge]
  | OpObserve h _ _ => handle_kind m h [kHistogram]
  | _ => True
  end.

Inductive history (options : MetricsOptions) : list MetricsOp -> Metrics -> Prop :=
| history_new m : MetricsRegistry options = Some m -> history options [] m
| history_op ops m op m' :
    history options ops m -> typed m op -> apply_op m op = Some m' -> history options (op :: ops) m'.

(** ** The invariant *)

Definition sumz (l : list Z) : Z := foldr Z.add 0 l.

(** Requests a history recorded. *)
Definition recorded (ops : list MetricsOp) : Z :=
  sumz (map (fun op => match op with OpRecord _ | OpRejection _ _ => 1 | _ => 0 end) ops).

Definition requests (m : Metrics) : Z := sumz (map (fun e => rt_requests (snd e)) (me_routes m)).

Definition counts_ok (width : nat) (counts : list Z) (total : Z) : Prop :=
  length counts = width /\ Forall (fun c => 0 <= c) counts /\ sumz counts <= total.

Definition stats_ok (s : RouteStats) : Prop :=
  rt_requests s = rt_success s + rt_failure s /\ 0 <= rt_success s /\ 0 <= rt_failure s
  /\ counts_ok (length HttpLatencyBuckets) (rt_buckets s) (rt_duration_count s)
  /\ 0 <= rt_duration_count s <= rt_requests s.

Definition route_lt (a b : RouteKey * RouteStats) : Prop := route_cmp (fst a) (fst b) = Lt.

Record routes_ok (max : Z) (routes : list (RouteKey * RouteStats)) : Prop := mkRoutesOk {
  routes_sorted : StronglySorted route_lt routes;
  routes_capped : len routes <= max;
  routes_stats : Forall (fun e => stats_ok (snd e)) routes
}.

Definition sample_ok (n : Z) (f : MetricFamily) (e : bytes * FamilySample) : Prop :=
  (exists labels, RenderLabels labels (is_histogram (fa_kind f)) = Some (fst e))
  /\ (fa_kind f = kHistogram ->
      0 <= sa_count (snd e) <= n /\ counts_ok (length (fa_buckets f)) (sa_buckets (snd e)) (sa_count (snd e))).

Record family_ok (n : Z) (f : MetricFamily) : Prop := mkFamilyOk {
  family_sorted : sm_ok (fa_samples f);
  family_capped : len (fa_samples f) <= fa_max_series f;
  family_samples : Forall (sample_ok n f) (fa_samples f);
  family_dropped : 0 <= fa_dropped f <= n;
  family_name : ValidName (fa_name f) true = true /\ fa_name f ∉ reserved_names;
  family_ladder : fa_kind f = kHistogram -> fa_buckets f <> [] /\ ladder_ok None (fa_buckets f) = true
}.

Record metrics_ok (n k : Z) (m : Metrics) : Prop := mkMetricsOk {
  ok_routes : routes_ok (op_max_series (me_options m)) (me_routes m);
  ok_accounts : op_enabled (me_options m) = true -> 0 <= me_dropped m /\ me_dropped m + requests m = k;
  ok_disabled : op_enabled (me_options m) = false -> me_routes m = [] /\ me_in_flight m = [];
  ok_flight : sm_ok (me_in_flight m) /\ Forall (fun e => 0 <= snd e <= n) (me_in_flight m);
  ok_families : sm_ok (me_families m)
    /\ Forall (fun e => exists f, me_store m !! snd e = Some f /\ fa_name f = fst e) (me_families m);
  ok_store : Forall (fun f => family_ok n f /\ fa_max_series f = op_max_series (me_options m)) (me_store m)
}.

(** ** Tallies *)

Lemma bump_small c : 0 <= c < 2 ^ 63 -> bump c = c + 1.
Proof. intros H. unfold bump. apply wrap_small. lia. Qed.

Lemma sumz_app l l' : sumz (l ++ l') = sumz l + sumz l'.
Proof. induction l as [|x l IH]; simpl in *; lia. Qed.

Lemma sumz_nonneg l : Forall (fun c => 0 <= c) l -> 0 <= sumz l.
Proof. induction 1; simpl in *; lia. Qed.

Lemma sumz_elem c l : Forall (fun c => 0 <= c) l -> c ∈ l -> c <= sumz l.
Proof.
  induction 1 as [|x l Hx Hl IH]; intros Hin; [by apply elem_of_nil in Hin|].
  pose proof (sumz_nonneg l Hl). apply elem_of_cons in Hin as [->|Hin]; simpl in *; [lia|].
  specialize (IH Hin). lia.
Qed.

Lemma lower_bound_lt buckets value i : lower_bound buckets value = Some i -> (i < length buckets)%nat.
Proof.
  revert i. induction buckets as [|b buckets IH]; intros i; cbn [lower_bound length]; [done|].
  destruct (dlt b value); [|intros [= <-]; lia].
  destruct (lower_bound buckets value); [|done]. intros [= <-]. specialize (IH _ eq_refl). lia.
Qed.

(** Counting one more value keeps the buckets within the count. *)
Lemma count_bucket_ok buckets value counts total :
  total < 2 ^ 63 -> counts_ok (length buckets) counts total ->
  counts_ok (length buckets) (count_bucket buckets value counts) (total + 1).
Proof.
  intros Ht (Hl & Hp & Hs). unfold count_bucket, counts_ok.
  destruct (lower_bound buckets value) as [i|] eqn:E; [|split_and!; [done|done|lia]].
  apply lower_bound_lt in E. rewrite length_alter.
  destruct (lookup_lt_is_Some_2 counts i ltac:(lia)) as [c Hc].
  pose proof (list_elem_of_lookup_2 _ _ _ Hc) as Hin. assert (c <= total) as Hcs by (pose proof (sumz_elem c counts Hp Hin); lia).
  assert (0 <= c) as Hc0 by (rewrite Forall_forall in Hp; by apply Hp).
  rewrite <- (take_drop_middle counts i c Hc) in Hs, Hp |- *.
  rewrite alter_app_r_alt by (rewrite length_take; lia). rewrite length_take.
  replace (i - i `min` length counts)%nat with 0%nat by lia.
  change (alter bump 0%nat (c :: ?l)) with (bump c :: l).
  apply Forall_app in Hp as [Hp1 Hp2]. apply Forall_cons in Hp2 as [_ Hp2].
  rewrite sumz_app in Hs |- *. simpl in Hs |- *. rewrite bump_small by lia.
  split; [by rewrite take_drop_middle|]. split; [|lia]. apply Forall_app. split; [done|]. constructor; [lia|done].
Qed.

Lemma counts_ok_fresh n : counts_ok n (replicate n 0) 0.
Proof.
  split; [apply length_replicate|]. split; [by apply Forall_replicate|].
  induction n; simpl in *; lia.
Qed.

Lemma stats_ok_fresh : stats_ok fresh_stats.
Proof.
  unfold stats_ok, fresh_stats. cbn [rt_requests rt_success rt_failure rt_buckets rt_duration_count].
  split_and!; try lia. apply counts_ok_fresh.
Qed.

Lemma tally_ok status s :
  stats_ok s -> rt_requests s < 2 ^ 63 ->
  stats_ok (tally status s) /\ rt_requests (tally status s) = rt_requests s + 1.
Proof.
  intros (Hr & Hs & Hf & Hb & Hd) Hn. unfold stats_ok, tally.
  cbn [rt_requests rt_success rt_failure rt_buckets rt_duration_count].
  rewrite (bump_small (rt_requests s)) by lia.
  destruct (status <? 400); rewrite bump_small by lia; split; [|done| |done]; split_and!; try lia; done.
Qed.

(** ** Routes *)

Lemma route_cmp_eq a b : route_cmp a b = Eq <-> a = b.
Proof.
  unfold route_cmp. destruct a as [m r], b as [m' r']. simpl. split.
  - destruct (bcmp m m') eqn:E; try done. apply bcmp_eq in E as ->. intros H. apply bcmp_eq in H as ->. done.
  - intros [= -> ->]. by rewrite !bcmp_refl.
Qed.

Lemma route_cmp_antisym a b : route_cmp b a = CompOpp (route_cmp a b).
Proof.
  unfold route_cmp. rewrite (bcmp_antisym (rk_method a)). destruct (bcmp _ _); simpl; [|done|done].
  apply bcmp_antisym.
Qed.

Lemma route_cmp_trans a b c : route_cmp a b = Lt -> route_cmp b c = Lt -> route_cmp a c = Lt.
Proof.
  unfold route_cmp. destruct (bcmp (rk_method a) (rk_method b)) eqn:E1; try done.
  - apply bcmp_eq in E1 as ->. destruct (bcmp (rk_method b) (rk_method c)); try done. apply bcmp_trans.
  - intros _. destruct (bcmp (rk_method b) (rk_method c)) eqn:E2; try done.
    + apply bcmp_eq in E2 as <-. by rewrite E1.
    + by rewrite (bcmp_trans _ _ _ E1 E2).
Qed.

Lemma find_route_below key routes :
  Forall (fun e => route_cmp key (fst e) = Lt) routes -> find_route key routes = None.
Proof.
  unfold find_route. induction 1 as [|e routes H Hr IH]; [done|]. cbn [find].
  rewrite bool_decide_false; [done|]. intros E. by rewrite E, (proj2 (route_cmp_eq _ _) eq_refl) in H.
Qed.

Lemma update_route_keys key f fresh routes (P : RouteKey -> Prop) :
  P key -> Forall (fun e => P (fst e)) routes -> Forall (fun e => P (fst e)) (update_route key f fresh routes).
Proof.
  intros Hk. induction 1 as [|[key' s] routes H Hr IH]; [by repeat constructor|]. cbn [update_route].
  destruct (route_cmp key key'); repeat constructor; done.
Qed.

(** What [update_route] does to the tallies when [f] counts one request. *)
Lemma update_route_ok key f routes :
  (forall s, stats_ok s -> 0 <= rt_requests s < 2 ^ 63 -> stats_ok (f s) /\ rt_requests (f s) = rt_requests s + 1) ->
  StronglySorted route_lt routes -> Forall (fun e => stats_ok (snd e)) routes ->
  Forall (fun e => rt_requests (snd e) < 2 ^ 63) routes ->
  let routes' := update_route key f fresh_stats routes in
  StronglySorted route_lt routes' /\ Forall (fun e => stats_ok (snd e)) routes'
  /\ sumz (map (fun e => rt_requests (snd e)) routes') = sumz (map (fun e => rt_requests (snd e)) routes) + 1
  /\ len routes' = len routes + (match find_route key routes with Some _ => 0 | None => 1 end).
Proof.
  intros Hf. induction 1 as [|[key' s] routes Hs IH Hlt]; intros Hok Hb; cbn [update_route].
  - destruct (Hf fresh_stats stats_ok_fresh ltac:(simpl; lia)) as [Hf1 Hf2].
    split_and!; [constructor; constructor|by constructor|simpl; rewrite Hf2; simpl; lia|done].
  - apply Forall_cons in Hok as [Hs0 Hok]. apply Forall_cons in Hb as [Hb0 Hb]. simpl in Hs0, Hb0.
    assert (0 <= rt_requests s) by (destruct Hs0 as (? & ? & ? & ? & ?); lia).
    unfold find_route. cbn [find fst]. destruct (route_cmp key key') eqn:E.
    + apply route_cmp_eq in E as ->. rewrite bool_decide_true by done. destruct (Hf s Hs0 ltac:(lia)) as [H1 H2].
      split_and!; [by constructor|by constructor|simpl; lia|by rewrite !len_cons; simpl; lia].
    + assert (Hlt' : Forall (fun e => route_cmp key (fst e) = Lt) ((key', s) :: routes)).
      { constructor; [done|]. eapply Forall_impl; [exact Hlt|]. intros e He. by apply (route_cmp_trans _ key'). }
      change (find _ ((key', s) :: routes)) with (find (fun e => bool_decide (fst e = key)) ((key', s) :: routes)).
      destruct (Hf fresh_stats stats_ok_fresh ltac:(simpl; lia)) as [H1 H2].
      pose proof (find_route_below _ _ Hlt') as Hn. unfold find_route in Hn. cbn [find fst] in Hn. rewrite Hn.
      split_and!; [|constructor; [done|by constructor]|simpl; rewrite H2; simpl; lia|rewrite !len_cons; lia].
      constructor; [by constructor|exact Hlt'].
    + rewrite bool_decide_false
        by (intros ->; by rewrite (proj2 (route_cmp_eq _ _) eq_refl) in E).
      destruct (IH Hok Hb) as (H1 & H2 & H3 & H4). fold (find_route key routes).
      split_and!; [|by constructor|simpl; lia|rewrite !len_cons, H4; lia].
      constructor; [done|]. apply (update_route_keys key f fresh_stats routes (fun k => route_cmp key' k = Lt)); [|done].
      by rewrite route_cmp_antisym, E.
Qed.

Lemma requests_bound routes max :
  routes_ok max routes -> Forall (fun e => 0 <= rt_requests (snd e) <= sumz (map (fun e => rt_requests (snd e)) routes)) routes.
Proof.
  intros [_ _ Hs]. assert (Hp : Forall (fun c => 0 <= c) (map (fun e => rt_requests (snd e)) routes)).
  { apply Forall_map. eapply Forall_impl; [exact Hs|]. intros e (? & ? & ? & ? & ?). simpl. lia. }
  rewrite Forall_forall. intros e He. rewrite Forall_map, Forall_forall in Hp. split; [by apply Hp|].
  apply sumz_elem; [rewrite Forall_map, Forall_forall; exact Hp|]. apply list_elem_of_In, in_map_iff.
  exists e. split; [done|]. by apply list_elem_of_In.
Qed.

(** One more request is tallied or counted as dropped. *)
Lemma AdmitRoute_ok m key f k :
  routes_ok (op_max_series (me_options m)) (me_routes m) ->
  0 <= me_dropped m -> me_dropped m + requests m = k -> k < 2 ^ 63 ->
  (forall s, stats_ok s -> 0 <= rt_requests s < 2 ^ 63 -> stats_ok (f s) /\ rt_requests (f s) = rt_requests s + 1) ->
  let m' := AdmitRoute m key f in
  routes_ok (op_max_series (me_options m)) (me_routes m')
  /\ 0 <= me_dropped m' /\ me_dropped m' + requests m' = k + 1
  /\ me_options m' = me_options m /\ me_in_flight m' = me_in_flight m
  /\ me_families m' = me_families m /\ me_store m' = me_store m.
Proof.
  intros Hr Hd Ha Hk Hf. pose proof (requests_bound _ _ Hr) as Hb. fold (requests m) in Hb.
  assert (Hb' : Forall (fun e => rt_requests (snd e) < 2 ^ 63) (me_routes m)).
  { eapply Forall_impl; [exact Hb|]. intros e He. simpl in He. lia. }
  assert (Hreq : 0 <= requests m).
  { apply sumz_nonneg, Forall_map. eapply Forall_impl; [exact Hb|]. intros e He. simpl in *. lia. }
  destruct Hr as [Hs Hc Hst]. destruct (update_route_ok key f _ Hf Hs Hst Hb') as (U1 & U2 & U3 & U4).
  cbv zeta in *. unfold AdmitRoute. destruct (find_route key (me_routes m)) eqn:E; try rewrite E in U4.
  - split_and!; try done; [constructor; [done|simpl; lia|done]|]. unfold requests in *. simpl. lia.
  - destruct (Z.geb_spec (len (me_routes m)) (op_max_series (me_options m))).
    + split_and!; try done; [simpl; rewrite bump_small by lia; lia|].
      unfold requests in *. simpl. rewrite bump_small by lia. lia.
    + split_and!; try done; [constructor; [done|simpl; lia|done]|]. unfold requests in *. simpl. lia.
Qed.

Lemma Record_counts status duration s :
  stats_ok s -> 0 <= rt_requests s < 2 ^ 63 ->
  stats_ok (timed duration (tally status s)) /\ rt_requests (timed duration (tally status s)) = rt_requests s + 1.
Proof.
  intros Hs Hn. destruct (tally_ok status s Hs ltac:(lia)) as [H1 H2].
  assert (rt_duration_count (tally status s) <= rt_requests s).
  { destruct Hs as (_ & _ & _ & _ & ?). simpl. lia. }
  unfold stats_ok, timed. rewrite <- H2.
  destruct H1 as (Hr & Hs1 & Hf & Hb & Hd). cbn [rt_requests rt_success rt_failure rt_buckets rt_duration_count].
  rewrite (bump_small (rt_duration_count _)) by lia. split; [|done]. split_and!; try lia.
  apply count_bucket_ok; [lia|done].
Qed.

(** ** Families *)

Lemma counts_ok_weaken width counts total total' :
  total <= total' -> counts_ok width counts total -> counts_ok width counts total'.
Proof. intros H (? & ? & ?). split_and!; [done|done|lia]. Qed.

Lemma family_ok_weaken n n' f : n <= n' -> family_ok n f -> family_ok n' f.
Proof.
  intros Hn [H1 H2 H3 H4 H5 H6]. constructor; try done; [|lia]. eapply Forall_impl; [exact H3|].
  intros e [He Hc]. split; [done|]. intros Hk. destruct (Hc Hk). split; [lia|done].
Qed.

Lemma lookup_sample_ok n f key sample :
  family_ok n f -> sm_lookup key (fa_samples f) = Some sample -> sample_ok n f (key, sample).
Proof.
  intros [Hs _ Hf _ _ _] H. apply sm_lookup_elem in H; [|done]. rewrite Forall_forall in Hf. by apply Hf.
Qed.

(** Replacing a sample. *)
Lemma replace_sample_ok n f key sample sample' :
  family_ok n f -> sm_lookup key (fa_samples f) = Some sample -> sample_ok n f (key, sample') ->
  family_ok n (with_samples f (sm_insert key sample' (fa_samples f)) (fa_dropped f)).
Proof.
  intros [Hs Hc Hf Hd Hn Hl] E H. constructor; try done; cbn [fa_samples with_samples].
  - by apply sm_insert_ok.
  - unfold len in *. rewrite sm_insert_present; [done|done|congruence].
  - by apply sm_insert_Forall.
Qed.

(** Admitting a sample, or counting that it was refused. *)
Lemma admit_sample_ok n f key sample :
  0 <= n < 2 ^ 63 -> family_ok n f -> sm_lookup key (fa_samples f) = None -> sample_ok (n + 1) f (key, sample) ->
  family_ok (n + 1) (admit_sample f key sample).
Proof.
  intros Hn0 Hok E H. apply (family_ok_weaken n (n + 1)) in Hok as Hok'; [|lia].
  destruct Hok' as [Hs Hc Hf _ Hn Hl]. destruct Hok as [_ _ _ Hd _ _]. unfold admit_sample.
  destruct (Z.geb_spec (len (fa_samples f)) (fa_max_series f)) as [Hge|Hlt]; constructor; try done;
    cbn [fa_samples fa_dropped fa_max_series with_samples].
  - rewrite bump_small by lia. lia.
  - by apply sm_insert_ok.
  - destruct (sm_insert_Forall (fun _ => True) key sample (fa_samples f)) as [_ Hlen]; [done|by apply Forall_true|].
    unfold len in *. lia.
  - by apply sm_insert_Forall.
  - lia.
Qed.

Lemma key_rendered n f labels key sample :
  RenderLabels labels (is_histogram (fa_kind f)) = Some key ->
  (fa_kind f = kHistogram -> 0 <= sa_count sample <= n
     /\ counts_ok (length (fa_buckets f)) (sa_buckets sample) (sa_count sample)) ->
  sample_ok n f (key, sample).
Proof. intros H Hc. split; [by exists labels|done]. Qed.

(** What a handle's operation may do to its family. *)
Definition keeps_family (n : Z) (f f' : MetricFamily) : Prop :=
  family_ok (n + 1) f' /\ fa_name f' = fa_name f /\ fa_max_series f' = fa_max_series f.

Lemma with_samples_keeps n f samples dropped :
  family_ok (n + 1) (with_samples f samples dropped) -> keeps_family n f (with_samples f samples dropped).
Proof. done. Qed.

Lemma admit_sample_keeps n f key sample :
  family_ok (n + 1) (admit_sample f key sample) -> keeps_family n f (admit_sample f key sample).
Proof. unfold keeps_family, admit_sample. by destruct (_ >=? _). Qed.

Lemma Add_ok n f labels amount set f' :
  0 <= n < 2 ^ 63 -> family_ok n f -> fa_kind f <> kHistogram -> Add f labels amount set = Some f' ->
  keeps_family n f f'.
Proof.
  intros Hn Hok Hk. unfold Add. destruct (RenderLabels _ _) as [key|] eqn:E; [|done]. intros [= <-].
  destruct (sm_lookup key (fa_samples f)) as [found|] eqn:El.
  - apply with_samples_keeps. eapply replace_sample_ok; [apply (family_ok_weaken n); [lia|done]|done|].
    by eapply key_rendered.
  - apply admit_sample_keeps, admit_sample_ok; [done|done|done|]. by eapply key_rendered.
Qed.

Lemma ObserveFamily_ok n f labels value f' :
  0 <= n < 2 ^ 63 -> family_ok n f -> ObserveFamily f labels value = Some f' -> keeps_family n f f'.
Proof.
  intros Hn Hok. unfold ObserveFamily. destruct (RenderLabels _ _) as [key|] eqn:E; [|done]. intros [= <-].
  destruct (sm_lookup key (fa_samples f)) as [found|] eqn:El.
  - apply with_samples_keeps. eapply replace_sample_ok; [apply (family_ok_weaken n); [lia|done]|done|].
    eapply key_rendered; [done|]. intros Hk. destruct (lookup_sample_ok _ _ _ _ Hok El) as [_ H].
    destruct (H Hk) as [Hc Hb]. simpl in *. rewrite bump_small by lia. split; [lia|]. apply count_bucket_ok; [lia|done].
  - apply admit_sample_keeps, admit_sample_ok; [done|done|done|]. eapply key_rendered; [done|]. intros Hk.
    cbn [observed baseline sa_count sa_buckets]. rewrite bump_small by lia. split; [lia|].
    apply count_bucket_ok; [lia|apply counts_ok_fresh].
Qed.

Lemma Declare_ok n f labels f' :
  0 <= n < 2 ^ 63 -> family_ok n f -> Declare_ f labels = Some f' -> keeps_family n f f'.
Proof.
  intros Hn Hok. unfold Declare_. destruct (RenderLabels _ _) as [key|] eqn:E; [|done]. intros [= <-].
  destruct (sm_lookup key (fa_samples f)) as [found|] eqn:El.
  - split; [|done]. apply (family_ok_weaken n); [lia|done].
  - apply admit_sample_keeps, admit_sample_ok; [done|done|done|]. eapply key_rendered; [done|]. intros Hk.
    cbn [baseline sa_count sa_buckets]. split; [lia|]. apply counts_ok_fresh.
Qed.

(** ** The operations keep the invariant *)

Lemma metrics_ok_weaken n k m : metrics_ok n k m -> metrics_ok (n + 1) k m.
Proof.
  intros [H1 H2 H3 [H4 H4'] H5 H6]. constructor; try done.
  - split; [done|]. eapply Forall_impl; [exact H4'|]. intros e He. simpl in *. lia.
  - eapply Forall_impl; [exact H6|]. intros f [Hf Hm]. split; [|done]. apply (family_ok_weaken n); [lia|done].
Qed.

Lemma through_ok n k m h f m' :
  metrics_ok n k m -> through h m f = Some m' ->
  (forall i fam fam', h = Some i -> me_store m !! i = Some fam -> family_ok n fam -> f fam = Some fam' ->
     keeps_family n fam fam') ->
  metrics_ok (n + 1) k m'.
Proof.
  intros Hok. apply metrics_ok_weaken in Hok as Hw. destruct h as [i|]; simpl; [|by intros [= <-]].
  unfold on_family. destruct (me_store m !! i) as [fam|] eqn:Ei; [|done]. simpl.
  destruct (f fam) as [fam'|] eqn:Ef; [|done]. simpl. intros [= <-] Hf.
  pose proof (ok_store _ _ _ Hok) as Hst. rewrite Forall_forall in Hst.
  destruct (Hst fam (list_elem_of_lookup_2 _ _ _ Ei)) as [Hfam Hmax].
  destruct (Hf i fam fam' eq_refl Ei Hfam Ef) as (H1 & H2 & H3).
  destruct Hw as [W1 W2 W3 W4 [W5 W5'] W6]. constructor; try done; cbn [me_families me_store with_families].
  - split; [done|]. eapply Forall_impl; [exact W5'|]. intros e (g & Hg & Hn).
    destruct (decide (snd e = i)) as [E|Hne].
    + rewrite E in *. exists fam'. rewrite list_lookup_insert_eq by (by eapply lookup_lt_Some). split; [done|congruence].
    + exists g. by rewrite list_lookup_insert_ne.
  - apply Forall_insert; [done|]. split; [done|]. cbn [me_options with_families]. congruence.
Qed.

Lemma Register_ok n k m name help kind buckets m' i :
  0 <= n -> 0 <= op_max_series (me_options m) -> metrics_ok n k m ->
  (kind = kHistogram -> buckets <> [] /\ ladder_ok None buckets = true) ->
  Register m name help kind buckets = Some (m', i) -> metrics_ok (n + 1) k m'.
Proof.
  intros Hn Hmax Hok Hl. apply metrics_ok_weaken in Hok as Hw. unfold Register.
  destruct (ValidName name true) eqn:Hv; [|done]. cbn [negb].
  destruct (existsb (bytes_eqb name) reserved_names) eqn:Hr; [done|].
  destruct (sm_lookup name (me_families m)) as [j|] eqn:El.
  { destruct (me_store m !! j) as [f|]; simpl; [|done]. destruct (same_family _ _ _ _); [|done]. by intros [= <- _]. }
  intros [= <- _]. destruct Hw as [W1 W2 W3 W4 [W5 W5'] W6].
  constructor; try done; cbn [me_families me_store me_options with_families].
  - split; [by apply sm_insert_ok|]. apply sm_insert_Forall.
    + eexists. split; [apply list_lookup_middle; reflexivity|done].
    + eapply Forall_impl; [exact W5'|]. intros e (f & Hf & Hnm). exists f. split; [|done].
      by apply lookup_app_l_Some.
  - apply Forall_app. split; [done|]. apply Forall_singleton. split; [|done]. constructor; try done.
    + cbn. lia.
    + split; [done|]. intros Hin. apply not_true_iff_false in Hr. destruct Hr. apply existsb_exists.
      exists name. split; [by apply list_elem_of_In|by apply bytes_eqb_eq].
Qed.

Lemma sm_set_flight n m method count :
  sm_ok (me_in_flight m) /\ Forall (fun e => 0 <= snd e <= n) (me_in_flight m) -> 0 <= count <= n ->
  sm_ok (sm_insert method count (me_in_flight m))
  /\ Forall (fun e => 0 <= snd e <= n) (sm_insert method count (me_in_flight m)).
Proof. intros [H1 H2] Hc. split; [by apply sm_insert_ok|]. by apply sm_insert_Forall. Qed.

Lemma flight_bound n k m method count :
  metrics_ok n k m -> sm_lookup method (me_in_flight m) = Some count -> 0 <= count <= n.
Proof.
  intros Hok H. destruct (ok_flight _ _ _ Hok) as [Hs Hf]. apply sm_lookup_elem in H; [|done].
  rewrite Forall_forall in Hf. by apply (Hf _ H).
Qed.

Lemma RecordStart_ok n k m start : 0 <= n -> metrics_ok n k m -> metrics_ok (n + 1) k (RecordStart m start).
Proof.
  intros Hn Hok. apply metrics_ok_weaken in Hok as Hw. unfold RecordStart.
  destruct (op_enabled (me_options m)) eqn:He; [|done]. simpl.
  assert (0 <= default 0 (sm_lookup (NormalizeMethod (st_method start)) (me_in_flight m)) + 1 <= n + 1) as Hb.
  { destruct (sm_lookup _ _) as [c|] eqn:E; simpl; [|lia]. pose proof (flight_bound _ _ _ _ _ Hok E). lia. }
  destruct Hw as [W1 W2 W3 W4 W5 W6]. constructor; try done.
  - cbn [me_options with_in_flight]. congruence.
  - by apply (sm_set_flight (n + 1) m).
Qed.

Lemma leave_flight_ok n k m method : metrics_ok n k m -> metrics_ok n k (leave_flight method m).
Proof.
  intros Hok. unfold leave_flight. destruct (sm_lookup method (me_in_flight m)) as [c|] eqn:E; [|done].
  destruct (Z.gtb_spec c 0); [|done]. pose proof (flight_bound _ _ _ _ _ Hok E).
  destruct Hok as [W1 W2 W3 W4 W5 W6]. constructor; try done.
  - intros Hd. destruct (W3 Hd) as [_ Hf]. by rewrite Hf in E.
  - apply (sm_set_flight n m); [done|lia].
Qed.

Lemma AdmitRoute_keeps n k m key f :
  metrics_ok n k m -> op_enabled (me_options m) = true -> k < 2 ^ 63 ->
  (forall s, stats_ok s -> 0 <= rt_requests s < 2 ^ 63 -> stats_ok (f s) /\ rt_requests (f s) = rt_requests s + 1) ->
  metrics_ok (n + 1) (k + 1) (AdmitRoute m key f).
Proof.
  intros Hok He Hk Hf. apply metrics_ok_weaken in Hok as Hw. destruct (ok_accounts _ _ _ Hok He) as [Hd Ha].
  destruct (AdmitRoute_ok m key f k (ok_routes _ _ _ Hok) Hd Ha Hk Hf) as (A1 & A2 & A3 & A4 & A5 & A6 & A7).
  destruct Hw as [_ _ W3 W4 W5 W6]. constructor; rewrite ?A4, ?A5, ?A6, ?A7; try done. congruence.
Qed.

Lemma leave_flight_options m method : me_options (leave_flight method m) = me_options m.
Proof. unfold leave_flight. destruct (sm_lookup _ _); [|done]. by destruct (_ >? _). Qed.

Lemma counted op : 0 <= match op with OpRecord _ | OpRejection _ _ => 1 | _ => 0 end <= 1.
Proof. destruct op; lia. Qed.

Lemma Add_through n k m h kind labels amount set m' :
  0 <= n < 2 ^ 63 -> metrics_ok n k m -> handle_kind m h [kind] -> kind <> kHistogram ->
  through h m (fun f => Add f labels amount set) = Some m' -> metrics_ok (n + 1) k m'.
Proof.
  intros Hn Hok Ht Hk Ha. eapply through_ok; [done|exact Ha|]. intros i f f' Hi Hf Hfo Hadd.
  apply (Add_ok n f labels amount set f'); [done|done| |done].
  specialize (Ht i f Hi Hf). apply list_elem_of_singleton in Ht as ->. done.
Qed.

(** One operation, on every branch. *)
Lemma apply_op_ok n k m op m' :
  0 <= n < 2 ^ 63 -> 0 <= k <= n -> 0 <= op_max_series (me_options m) -> metrics_ok n k m -> typed m op ->
  apply_op m op = Some m' ->
  metrics_ok (n + 1) (if op_enabled (me_options m)
                      then k + match op with OpRecord _ | OpRejection _ _ => 1 | _ => 0 end else k) m'.
Proof.
  intros Hn Hk Hmax Hok Ht Ha.
  assert (Hfin : metrics_ok (n + 1) k m' -> metrics_ok (n + 1) (if op_enabled (me_options m) then k + 0 else k) m').
  { intros H. rewrite Z.add_0_r. by destruct (op_enabled _). }
  destruct op as [start|observation|method status|name help|name help|name help buckets| | | | | |];
    cbn [apply_op typed] in *.
  - apply Hfin. injection Ha as <-. apply RecordStart_ok; [lia|done].
  - injection Ha as <-. unfold Record_. destruct (op_enabled (me_options m)) eqn:He; cbn [negb];
      [|by apply metrics_ok_weaken].
    apply AdmitRoute_keeps; [by apply leave_flight_ok|by rewrite leave_flight_options|lia|].
    intros s. apply Record_counts.
  - injection Ha as <-. unfold RecordRejection. destruct (op_enabled (me_options m)) eqn:He; cbn [negb];
      [|by apply metrics_ok_weaken].
    apply AdmitRoute_keeps; [done|done|lia|]. intros s Hs Hr. apply tally_ok; [done|lia].
  - apply Hfin. unfold NewCounter in Ha. destruct (Register _ _ _ _ _) as [[m1 i]|] eqn:E; [|done].
    injection Ha as <-. by eapply (Register_ok n k m); [lia|done|done| |exact E].
  - apply Hfin. unfold NewGauge in Ha. destruct (Register _ _ _ _ _) as [[m1 i]|] eqn:E; [|done].
    injection Ha as <-. by eapply (Register_ok n k m); [lia|done|done| |exact E].
  - apply Hfin. unfold NewHistogram in Ha. destruct buckets as [|b buckets]; [done|].
    destruct (ladder_ok None (b :: buckets)) eqn:Hl; [|done]. cbn [negb] in Ha.
    destruct (Register _ _ _ _ _) as [[m1 i]|] eqn:E; [|done]. injection Ha as <-.
    by eapply (Register_ok n k m); [lia|done|done| |exact E].
  - apply Hfin. unfold CounterIncrement in Ha. destruct (dlt amount zero); [done|].
    by eapply Add_through.
  - apply Hfin. by eapply Add_through.
  - apply Hfin. by eapply Add_through.
  - apply Hfin. by eapply Add_through.
  - apply Hfin. eapply through_ok; [done|exact Ha|]. intros i f f' Hi Hf Hfo Hobs.
    by apply (ObserveFamily_ok n f labels value f').
  - apply Hfin. eapply through_ok; [done|exact Ha|]. intros i f f' Hi Hf Hfo Hdec.
    by apply (Declare_ok n f labels f').
Qed.

Lemma on_family_options m i f m' : on_family m i f = Some m' -> me_options m' = me_options m.
Proof.
  unfold on_family. destruct (me_store m !! i) as [fam|]; simpl; [|done]. destruct (f fam); simpl; [|done].
  by intros [= <-].
Qed.

Lemma Register_options m name help kind buckets m' i :
  Register m name help kind buckets = Some (m', i) -> me_options m' = me_options m.
Proof.
  unfold Register. destruct (negb _); [done|]. destruct (existsb _ _); [done|].
  destruct (sm_lookup _ _) as [j|]; [|by intros [= <- _]].
  destruct (me_store m !! j) as [fam|]; simpl; [|done]. destruct (same_family _ _ _ _); [|done]. by intros [= <- _].
Qed.

Lemma AdmitRoute_options m key f : me_options (AdmitRoute m key f) = me_options m.
Proof. unfold AdmitRoute. destruct (find_route _ _); [done|]. by destruct (_ >=? _). Qed.

Lemma apply_op_options m op m' : apply_op m op = Some m' -> me_options m' = me_options m.
Proof.
  assert (Hn : forall name help kind buckets (h : Metrics -> nat -> option nat),
    fst <$> ('(m1, i) ← Register m name help kind buckets; Some (m1, h m1 i)) = Some m' -> me_options m' = me_options m).
  { intros name help kind buckets h. destruct (Register _ _ _ _ _) as [[m1 i]|] eqn:E; [|done]. intros [= <-].
    by eapply Register_options. }
  assert (Ht : forall h f, through h m f = Some m' -> me_options m' = me_options m).
  { intros [i|] f; [apply on_family_options|by intros [= <-]]. }
  destruct op; cbn [apply_op].
  - intros [= <-]. unfold RecordStart. by destruct (negb _).
  - intros [= <-]. unfold Record_. destruct (negb _); [done|]. by rewrite AdmitRoute_options, leave_flight_options.
  - intros [= <-]. unfold RecordRejection. destruct (negb _); [done|]. by rewrite AdmitRoute_options.
  - apply Hn.
  - apply Hn.
  - unfold NewHistogram. destruct buckets; [done|]. destruct (negb _); [done|]. apply Hn.
  - unfold CounterIncrement. destruct (dlt _ _); [done|]. apply Ht.
  - apply Ht.
  - apply Ht.
  - apply Ht.
  - apply Ht.
  - apply Ht.
Qed.

Lemma history_ok options ops m :
  0 <= op_max_series options -> len ops < 2 ^ 63 -> history options ops m ->
  metrics_ok (len ops) (if op_enabled options then recorded ops else 0) m /\ me_options m = options
  /\ 0 <= recorded ops <= len ops.
Proof.
  intros Hmax. induction 2 as [m Hm|ops m op m' Hh IH Ht Ha].
  - unfold MetricsRegistry in Hm. destruct (_ && _); [done|]. injection Hm as <-. split; [|done].
    constructor; try done; [|by destruct (op_enabled options)].
    constructor; [constructor|exact Hmax|done].
  - rewrite len_cons in H. destruct (IH ltac:(lia)) as (Hok & Ho & Hr). pose proof (len_nonneg ops).
    split; [|split; [by rewrite (apply_op_options _ _ _ Ha)|]].
    + rewrite len_cons, Z.add_comm. cbn [recorded map sumz foldr].
      replace (if op_enabled options then _ else 0)
        with (if op_enabled (me_options m) then (if op_enabled options then recorded ops else 0)
                + match op with OpRecord _ | OpRejection _ _ => 1 | _ => 0 end
              else (if op_enabled options then recorded ops else 0)).
      2: { rewrite Ho. destruct (op_enabled options); [|done]. unfold recorded. cbn [map sumz foldr]. unfold sumz. lia. }
      apply (apply_op_ok _ _ m op m'); try done; [lia|destruct (op_enabled options); lia|by rewrite Ho].
    + rewrite len_cons. pose proof (counted op). unfold recorded in *. cbn [map sumz foldr] in *. unfold sumz in *. lia.
Qed.

(** C23: After any history of fewer than 2^63 operations on a registry, in any
    order and through any handles, the exposed numbers agree with each other and
    with the traffic: every recorded or rejected request of an enabled registry
    is counted in exactly one route or in the drop counter; a route's requests
    are its successes plus its failures, its timed requests are at most its
    requests and its buckets at most its timed requests; no gauge is negative;
    no more routes or series exist than the cap; every series was rendered from
    valid labels, every family has a valid name that is no built-in's, and a
    histogram's ladder is finite and ascending with its buckets within its
    count. *)
Theorem metrics_consistent options ops m
  (Hmax : 0 <= op_max_series options) (Hlen : len ops < 2 ^ 63) (H : history options ops m) :
  (op_enabled options = true -> me_dropped m + requests m = recorded ops)
  /\ Forall (fun e => stats_ok (snd e)) (me_routes m)
  /\ Forall (fun e => 0 <= snd e) (me_in_flight m)
  /\ len (me_routes m) <= op_max_series options
  /\ Forall (family_ok (len ops)) (me_store m)
  /\ Forall (fun f => len (fa_samples f) <= op_max_series options) (me_store m).
Proof.
  destruct (history_ok options ops m Hmax Hlen H) as ([[_ Hc Hs] Ha _ [_ Hf] _ Hst] & Ho & _). rewrite Ho in *.
  split; [intros He; rewrite He in Ha; by apply Ha|]. split; [done|]. split.
  { eapply Forall_impl; [exact Hf|]. intros e He. simpl in *. lia. }
  split; [done|]. split; (eapply Forall_impl; [exact Hst|]); intros f [Hok Hm]; [done|rewrite <- Hm; by destruct Hok].
Qed.

Definition sample_options : MetricsOptions := mkOptions true (lit "todo") 1.

Definition sample_history : list MetricsOp :=
  [OpIncrement (Some 0%nat) [(lit "kind", lit "a")] (of_int 1); OpNewCounter (lit "jobs") [];
   OpRejection (lit "PUT") 413; OpRejection [] 431].

(** Extends a concrete history by one operation. *)
Ltac replay H op :=
  lazymatch type of H with
  | history ?options ?ops ?m =>
    let E := fresh in
    eassert (apply_op m op = Some _) as E by (vm_compute; reflexivity);
    let T := fresh in
    assert (typed m op) as T
      by (first [exact I | intros ? ? [= <-] [= <-]; by apply list_elem_of_singleton]);
    apply (fun h => history_op options ops m op _ h T E) in H; clear T E
  end.

Lemma metrics_consistent_witness :
  exists m, history sample_options sample_history m /\ me_dropped m + requests m = recorded sample_history
    /\ me_dropped m = 1.
Proof.
  eassert (MetricsRegistry sample_options = Some _) as E0 by (vm_compute; reflexivity).
  pose proof (history_new _ _ E0) as H0.
  replay H0 (OpRejection [] 431). replay H0 (OpRejection (lit "PUT") 413).
  replay H0 (OpNewCounter (lit "jobs") []).
  replay H0 (OpIncrement (Some 0%nat) [(lit "kind", lit "a")] (of_int 1)).
  eexists. split; [exact H0|]. split; [|done].
  refine (proj1 (metrics_consistent sample_options sample_history _ _ _ H0) _); [by vm_compute|by vm_compute|done].
Defined.
