(* ===== verification/MetricsText.v ===== *)
(** What a scrape says: [Expose] is read back, line by line, as the registry's
    own contents. *)
From Stdlib Require Import ZArith Lia Strings.Byte.
From Stdlib Require Import Floats.SpecFloat.
From S2P Require Import Prelude Bytes OrdMap Timestamp Decimal Headers Effects Middleware Exposition Metrics MetricsState.

Local Open Scope Z_scope.

(** ** The contents of a registry as lines *)

Definition builtin (m : Metrics) (labels : MetricLabels) : MetricLabels :=
  (kServiceLabel, op_service_name (me_options m)) :: labels.

Definition route_set (m : Metrics) (key : RouteKey) : MetricLabels :=
  builtin m [(kMethodLabel, rk_method key); (kRouteLabel, rk_route key)].

Definition counter_says (m : Metrics) (name help : bytes) (field : RouteStats -> Z) : list Line :=
  [Help name help; TypeOf name (lit "counter")]
  ++ flat_map (fun e => [Sample name (route_set m (fst e)) (to_string (field (snd e)))]) (me_routes m).

Fixpoint buckets_say (name : bytes) (labels : MetricLabels) (buckets : list double) (counts : list Z)
    (cumulative : Z) : list Line :=
  match buckets, counts with
  | b :: buckets, c :: counts =>
    let cumulative := wrap 64 (cumulative + c) in
    Sample (name ++ lit "_bucket") (labels ++ [(lit "le", FormatNumber b)]) (to_string cumulative)
    :: buckets_say name labels buckets counts cumulative
  | _, _ => []
  end.

Definition histogram_says (name : bytes) (labels : MetricLabels) (buckets : list double) (counts : list Z)
    (sum : double) (count : Z) : list Line :=
  buckets_say name labels buckets counts 0
  ++ [Sample (name ++ lit "_bucket") (labels ++ [(lit "le", lit "+Inf")]) (to_string count);
      Sample (name ++ lit "_sum") labels (FormatNumber sum);
      Sample (name ++ lit "_count") labels (to_string count)].

(** A route that was only ever rejected has no histogram. *)
Definition duration_says (m : Metrics) : list Line :=
  [Help kRequestDuration kRequestDurationHelp; TypeOf kRequestDuration (lit "histogram")]
  ++ flat_map (fun e =>
       if rt_duration_count (snd e) =? 0 then []
       else histogram_says kRequestDuration (route_set m (fst e)) HttpLatencyBuckets (rt_buckets (snd e))
              (rt_duration_sum (snd e)) (rt_duration_count (snd e)))
     (me_routes m).

Definition active_says (m : Metrics) : list Line :=
  [Help kRequestsActive kRequestsActiveHelp; TypeOf kRequestsActive (lit "gauge")]
  ++ flat_map (fun e => [Sample kRequestsActive (builtin m [(kMethodLabel, fst e)]) (to_string (snd e))])
     (me_in_flight m).

Definition dropped_says (m : Metrics) (families : list MetricFamily) : list Line :=
  [Help kObservationsDropped kObservationsDroppedHelp; TypeOf kObservationsDropped (lit "counter")]
  ++ [Sample kObservationsDropped (builtin m []) (to_string (me_dropped m))]
  ++ flat_map (fun e =>
       match families !! snd e with
       | Some f => if fa_dropped f =? 0 then []
                   else [Sample kObservationsDropped (builtin m [(lit "metric", fst e)]) (to_string (fa_dropped f))]
       | None => []
       end)
     (me_families m).

Definition sample_says (name : bytes) (f : MetricFamily) (e : bytes * FamilySample) : list Line :=
  let labels := default [] (labels_of (fst e)) in
  let sample := snd e in
  match fa_kind f with
  | kHistogram =>
    histogram_says name labels (fa_buckets f) (sa_buckets sample) (sa_value sample) (sa_count sample)
  | _ => [Sample name labels (FormatNumber (sa_value sample))]
  end.

Definition family_says (families : list MetricFamily) (e : bytes * nat) : list Line :=
  match families !! snd e with
  | Some f =>
    [Help (fst e) (fa_help f); TypeOf (fst e) (kind_name (fa_kind f))]
    ++ flat_map (sample_says (fst e) f) (fa_samples f)
  | None => []
  end.

Definition registry_says (m : Metrics) (drops samples : list MetricFamily) : list Line :=
  counter_says m kRequestsTotal kRequestsTotalHelp rt_requests
  ++ counter_says m kRequestsSuccess kRequestsSuccessHelp rt_success
  ++ counter_says m kRequestsFailure kRequestsFailureHelp rt_failure
  ++ duration_says m ++ active_says m ++ dropped_says m drops
  ++ flat_map (family_says samples) (me_families m).

(** ** Label sets of the two kinds *)

Definition plain_labels (labels : MetricLabels) : Prop :=
  no_equals labels /\ Forall (fun l => newline ∉ fst l) labels.

Lemma plain_cons name value labels :
  "="%byte ∉ name -> newline ∉ name -> plain_labels labels -> plain_labels ((name, value) :: labels).
Proof. intros H1 H2 [H3 H4]. split; by constructor. Qed.

Lemma plain_nil : plain_labels [].
Proof. split; constructor. Qed.

Lemma plain_app labels labels' : plain_labels labels -> plain_labels labels' -> plain_labels (labels ++ labels').
Proof. intros [H1 H2] [H3 H4]. split; by apply Forall_app. Qed.

Ltac not_in_name := by apply (bool_decide_unpack _).
Ltac plain_names := repeat (apply plain_cons; [not_in_name|not_in_name|]); apply plain_nil.

Lemma plain_good histogram labels : Forall (good_label histogram) labels -> plain_labels labels.
Proof.
  intros H. split; [by eapply good_no_equals|]. eapply Forall_impl; [exact H|].
  intros l [Hv _]. by apply (ValidName_notin _ false).
Qed.

Lemma BuiltInLabels_text m labels : BuiltInLabels m labels = labels_text (builtin m labels).
Proof.
  unfold BuiltInLabels, builtin, labels_text. cbn [map]. set (first := label_text _). clearbody first.
  revert first. induction labels as [|l labels IH]; intros first; [done|]. cbn [fold_left map].
  rewrite IH, (join_cons _ first) by done. destruct labels as [|l' labels]; cbn [map join]; [done|].
  solve_app.
Qed.

Lemma EscapeLabel_plain s : numeric_text s -> EscapeLabel s = s.
Proof.
  intros H. unfold EscapeLabel. induction H as [|c s Hc Hs IH]; [done|]. cbn [flat_map]. rewrite IH.
  unfold escape_label_byte. by destruct c.
Qed.

Lemma bucket_labels_text labels le :
  numeric_text le -> bucket_labels (labels_text labels) le = labels_text (labels ++ [(lit "le", le)]).
Proof.
  intros H. rewrite labels_text_snoc. unfold bucket_labels, label_text. cbn [fst snd]. rewrite EscapeLabel_plain by done.
  destruct (bytes_eqb (labels_text labels) []) eqn:E; [|done]. by apply bytes_eqb_eq in E as ->.
Qed.

Lemma numeric_one_line s : numeric_text s -> newline ∉ s.
Proof. intros H Hin. unfold numeric_text in H. rewrite Forall_forall in H. by specialize (H _ Hin). Qed.

(** ** Building up *)

Lemma says_sample_after out ls name suffix labels value :
  says out ls -> sample_name (name ++ suffix) -> plain_labels labels -> newline ∉ value ->
  says (AppendSample out name suffix (labels_text labels) value) (ls ++ [Sample (name ++ suffix) labels value]).
Proof.
  intros H Hn [H1 H2] Hv. rewrite AppendSample_out. apply says_app; [done|]. by apply says_sample.
Qed.

Lemma says_sample_plain out ls name labels value :
  says out ls -> sample_name name -> plain_labels labels -> newline ∉ value ->
  says (AppendSample out name [] (labels_text labels) value) (ls ++ [Sample name labels value]).
Proof.
  intros H Hn Hl Hv. pose proof (says_sample_after out ls name [] labels value H) as H'.
  rewrite app_nil_r in H'. by apply H'.
Qed.

Lemma says_header_after out ls name type help :
  says out ls -> sample_name name -> newline ∉ type ->
  says (AppendFamilyHeader out name type help) (ls ++ [Help name help; TypeOf name type]).
Proof. intros H Hn Ht. rewrite AppendFamilyHeader_out. apply says_app; [done|]. by apply says_header. Qed.

Lemma says_fold {A} (step : bytes -> A -> bytes) (g : A -> list Line) l : forall out ls,
  (forall out ls e, e ∈ l -> says out ls -> says (step out e) (ls ++ g e)) ->
  says out ls -> says (fold_left step l out) (ls ++ flat_map g l).
Proof.
  induction l as [|e l IH]; intros out ls Hstep H; [by rewrite app_nil_r|]. cbn [fold_left flat_map].
  rewrite app_assoc. apply IH; [|apply Hstep; [apply elem_of_cons; by left|done]].
  intros out' ls' e' He. apply Hstep. apply elem_of_cons. by right.
Qed.

Lemma sample_name_app name suffix :
  sample_name name -> forallb (name_byte true false) suffix = true -> sample_name (name ++ suffix).
Proof.
  intros [Hne H] Hs. split; [by destruct name|]. apply Forall_app. split; [done|]. by apply forallb_Forall.
Qed.

Lemma says_buckets name labels buckets : forall counts cumulative out ls,
  sample_name name -> plain_labels labels -> says out ls ->
  says (bucket_lines name (labels_text labels) buckets counts cumulative out)
    (ls ++ buckets_say name labels buckets counts cumulative).
Proof.
  induction buckets as [|b buckets IH]; intros [|c counts] cumulative out ls Hn Hl H; cbn [bucket_lines buckets_say];
    try (by rewrite app_nil_r).
  rewrite bucket_labels_text by apply FormatNumber_numeric.
  change (ls ++ ?x :: ?r) with (ls ++ [x] ++ r). rewrite app_assoc. apply IH; [done|done|].
  apply says_sample_after; [done|by apply sample_name_app| |].
  - apply plain_app; [done|]. plain_names.
  - apply numeric_one_line, numeric_to_string. apply wrap_range. lia.
Qed.

Lemma says_histogram name labels buckets counts sum count out ls :
  sample_name name -> plain_labels labels -> 0 <= count -> says out ls ->
  says (histogram_lines name (labels_text labels) buckets counts sum count out)
    (ls ++ histogram_says name labels buckets counts sum count).
Proof.
  intros Hn Hl Hc H. unfold histogram_lines, histogram_says.
  rewrite bucket_labels_text by (by repeat constructor).
  change [?a; ?b; ?c] with ([a] ++ [b] ++ [c]). rewrite !app_assoc.
  assert (newline ∉ to_string count) by (by apply numeric_one_line, numeric_to_string).
  apply says_sample_after; [|by apply sample_name_app|done|done].
  apply says_sample_after; [|by apply sample_name_app|done|apply numeric_one_line, FormatNumber_numeric].
  apply says_sample_after; [|by apply sample_name_app| |done].
  - by apply says_buckets.
  - apply plain_app; [done|]. plain_names.
Qed.

(** ** The families *)

Lemma valid_sample_name name : ValidName name true = true -> sample_name name.
Proof. intros H. by apply (ValidName_bytes name true). Qed.

Lemma plain_route m key : plain_labels (route_set m key).
Proof. plain_names. Qed.

Lemma to_string_one_line z : 0 <= z -> newline ∉ to_string z.
Proof. intros H. by apply numeric_one_line, numeric_to_string. Qed.

Lemma says_counter m name help field out ls :
  ValidName name true = true -> (forall e, e ∈ me_routes m -> 0 <= field (snd e)) -> says out ls ->
  says (counter_family m name help field out) (ls ++ counter_says m name help field).
Proof.
  intros Hn Hf H. unfold counter_family, counter_says. rewrite app_assoc. apply says_fold.
  - intros out' ls' e He H'. unfold route_labels. rewrite BuiltInLabels_text.
    apply says_sample_plain; [done|by apply valid_sample_name|apply plain_route|]. by apply to_string_one_line, Hf.
  - apply says_header_after; [done|by apply valid_sample_name|not_in_name].
Qed.

Lemma says_duration m out ls :
  (forall e, e ∈ me_routes m -> 0 <= rt_duration_count (snd e)) -> says out ls ->
  says (duration_family m out) (ls ++ duration_says m).
Proof.
  intros Hf H. unfold duration_family, duration_says. rewrite app_assoc. apply says_fold.
  - intros out' ls' e He H'. destruct (rt_duration_count (snd e) =? 0); [by rewrite app_nil_r|].
    unfold route_labels. rewrite BuiltInLabels_text.
    apply says_histogram; [by apply valid_sample_name|apply plain_route|by apply Hf|done].
  - apply says_header_after; [done|by apply valid_sample_name|not_in_name].
Qed.

Lemma says_active m out ls :
  Forall (fun e => 0 <= snd e) (me_in_flight m) -> says out ls ->
  says (active_family m out) (ls ++ active_says m).
Proof.
  intros Hf H. unfold active_family, active_says. rewrite app_assoc. apply says_fold.
  - intros out' ls' e He H'. rewrite Forall_forall in Hf. specialize (Hf e He). cbn beta in Hf.
    rewrite BuiltInLabels_text. unfold int_text. destruct (Z.ltb_spec (snd e) 0); [lia|].
    apply says_sample_plain; [done|by apply valid_sample_name|plain_names|by apply to_string_one_line].
  - apply says_header_after; [done|by apply valid_sample_name|not_in_name].
Qed.

Lemma says_dropped n m families out ls :
  0 <= me_dropped m -> Forall (family_ok n) families -> says out ls ->
  says (dropped_family m families out) (ls ++ dropped_says m families).
Proof.
  intros Hd Hf H. unfold dropped_family, dropped_says. rewrite !app_assoc. apply says_fold.
  - intros out' ls' e He H'. destruct (families !! snd e) as [f|] eqn:E; [|by rewrite app_nil_r].
    destruct (fa_dropped f =? 0); [by rewrite app_nil_r|].
    rewrite Forall_forall in Hf. pose proof (family_dropped _ _ (Hf f (list_elem_of_lookup_2 _ _ _ E))).
    rewrite BuiltInLabels_text.
    apply says_sample_plain; [done|by apply valid_sample_name|plain_names|apply to_string_one_line; lia].
  - rewrite BuiltInLabels_text.
    apply says_sample_plain; [|by apply valid_sample_name|plain_names|by apply to_string_one_line].
    apply says_header_after; [done|by apply valid_sample_name|not_in_name].
Qed.

Lemma says_family n families e f out ls :
  families !! snd e = Some f -> fa_name f = fst e -> family_ok n f -> says out ls ->
  says (application_family families out e) (ls ++ family_says families e).
Proof.
  intros E Hname Hok H. unfold application_family, family_says. rewrite E.
  destruct (family_name _ _ Hok) as [Hn _]. rewrite Hname in Hn. apply valid_sample_name in Hn.
  rewrite app_assoc. apply says_fold.
  - intros out' ls' [key sample] He H'. pose proof (family_samples _ _ Hok) as Hs.
    rewrite Forall_forall in Hs. destruct (Hs _ He) as [(labels & Hr) Hc]. cbn [fst snd] in *.
    apply RenderLabels_iff in Hr as (_ & Hg & ->). rewrite <- (sort_labels_perm labels) in Hg.
    unfold sample_lines, sample_says. cbn [fst snd]. rewrite labels_of_text by (by eapply good_no_equals).
    cbn [default]. apply plain_good in Hg.
    destruct (fa_kind f); [| |by apply says_histogram; [done|done|apply Hc|done]];
      (apply says_sample_plain; [done|done|done|apply numeric_one_line, FormatNumber_numeric]).
  - apply says_header_after; [done|done|destruct (fa_kind f); not_in_name].
Qed.

(** The families of a registry as seen while a scrape walks over them: the same
    objects, each in some well-formed state. *)
Definition seen (n : Z) (m : Metrics) (families : list MetricFamily) : Prop :=
  Forall (family_ok n) families
  /\ forall e, e ∈ me_families m -> exists f, families !! snd e = Some f /\ fa_name f = fst e.

Lemma says_expose options ops m drops samples :
  0 <= op_max_series options -> len ops < 2 ^ 63 -> history options ops m -> op_enabled options = true ->
  seen (len ops) m drops -> seen (len ops) m samples ->
  read_text (Expose m drops samples) = Some (registry_says m drops samples).
Proof.
  intros Hmax Hlen H He Hdrops Hsamples.
  destruct (history_ok options ops m Hmax Hlen H) as ([[_ Hc Hs] Ha _ [_ Hf] _ _] & Ho & _). rewrite Ho in *.
  destruct (Ha He) as [Hd _]. rewrite Forall_forall in Hs.
  assert (Hr : forall e, e ∈ me_routes m -> stats_ok (snd e)) by done.
  apply says_read. unfold Expose, registry_says. rewrite Ho, He. cbn [negb].
  assert (Hflight : Forall (fun e => 0 <= snd e) (me_in_flight m)).
  { eapply Forall_impl; [exact Hf|]. intros e H1. simpl in *. lia. }
  change (?a ++ ?b) with ([] ++ a ++ b) at 1. rewrite !app_assoc.
  apply says_fold.
  { intros out ls e Hin Hout. destruct Hsamples as [Hok Hsame]. destruct (Hsame e Hin) as (f & Hl & Hn).
    rewrite Forall_forall in Hok. eapply says_family; [exact Hl|exact Hn| |exact Hout].
    apply Hok. by eapply list_elem_of_lookup_2. }
  apply (says_dropped (len ops)); [done|apply Hdrops|]. apply says_active; [done|].
  apply says_duration; [intros e Hin; by destruct (Hr e Hin) as (? & ? & ? & ? & ? & ?)|].
  repeat apply says_counter; try done;
    [intros e Hin; destruct (Hr e Hin) as (? & ? & ? & ? & ?); lia..|]. apply says_nil.
Qed.

Lemma seen_store n k m : metrics_ok n k m -> seen n m (me_store m).
Proof.
  intros [_ _ _ _ [_ Hf] Hs]. split.
  - eapply Forall_impl; [exact Hs|]. by intros f [? _].
  - intros e Hin. rewrite Forall_forall in Hf. by apply Hf.
Qed.

(** A scrape on one thread. *)
Lemma says_scrape options ops m :
  0 <= op_max_series options -> len ops < 2 ^ 63 -> history options ops m -> op_enabled options = true ->
  read_text (Expose m (me_store m) (me_store m)) = Some (registry_says m (me_store m) (me_store m)).
Proof.
  intros Hmax Hlen H He. destruct (history_ok options ops m Hmax Hlen H) as [Hok _].
  by apply (says_expose options ops); [..|eapply seen_store|eapply seen_store].
Qed.

(** A scrape says exactly what the registry holds: for every history of
    an enabled registry, even if the application families change between the two
    passes over them, a strict reader of the exposition format takes the text
    apart into the registry's contents and nothing else: each family's help and
    type, then one sample per route, gauge, bucket or series with its labels and
    value; whatever bytes service names, routes, label values and help texts
    hold, none of them can end a line, a label or a value early. *)
Theorem Expose_reads options ops m drops samples
  (Hmax : 0 <= op_max_series options) (Hlen : len ops < 2 ^ 63) (H : history options ops m)
  (He : op_enabled options = true) (Hdrops : seen (len ops) m drops) (Hsamples : seen (len ops) m samples) :
  read_text (Expose m drops samples) = Some (registry_says m drops samples).
Proof. by apply (says_expose options ops). Qed.

Lemma Expose_reads_witness :
  exists m, history sample_options sample_history m
    /\ read_text (Expose m (me_store m) (me_store m)) = Some (registry_says m (me_store m) (me_store m)).
Proof.
  eassert (MetricsRegistry sample_options = Some _) as E0 by (vm_compute; reflexivity).
  pose proof (history_new _ _ E0) as H0.
  replay H0 (OpRejection [] 431). replay H0 (OpRejection (lit "PUT") 413).
  replay H0 (OpNewCounter (lit "jobs") []).
  replay H0 (OpIncrement (Some 0%nat) [(lit "kind", lit "a")] (of_int 1)).
  eexists. split; [exact H0|].
  destruct (history_ok sample_options sample_history _ ltac:(by vm_compute) ltac:(by vm_compute) H0) as [Hok _].
  refine (Expose_reads sample_options sample_history _ _ _ _ _ H0 _ (seen_store _ _ _ Hok) (seen_store _ _ _ Hok));
    [by vm_compute|by vm_compute|done].
Defined.
