(* ===== verification/MetricsServer.v ===== *)
(** The middlewares of server/metrics.cc over the registry: the recorder, which
    is the observation middleware wired to it, and the scrape endpoint. *)
From Stdlib Require Import ZArith Lia Strings.Byte.
From S2P Require Import Prelude Bytes OrdMap Timestamp Headers Forwarded Effects Middleware Exposition.
From S2P Require Import Metrics MetricsState MetricsText.

Local Open Scope Z_scope.

(** The registry is a shared object of the environment. *)
Class HasMetrics (E : Type) := {
  registry : E -> Metrics;
  put : Metrics -> E -> E;
  registry_put m e : registry (put m e) = m
}.

Section Server.
Context {E : Type} `{HasMetrics E}.

(** A call on the registry. *)
Definition update (f : Metrics -> Metrics) : M E unit := fun w =>
  (mkWorld (clog w) (put (f (registry (env w))) (env w)), Ret tt).

(** [current] is the registry at composition time, [None] the null pointer. *)
Definition RecordMetrics `{InetLib} (current : option Metrics) (now : M E Z) : option (MiddlewareOf E) :=
  match current with
  | None => None
  | Some m =>
    if negb (op_enabled (me_options m)) then Some (fun next => next)
    else Observe (Some (fun observation => update (fun m => Record_ m observation)))
           (Some (fun start => update (fun m => RecordStart m start))) now None None
  end.

(** The sink for requests the transport refuses. *)
Definition RecordRejections (current : option Metrics) : option (bytes -> Z -> M E unit) :=
  match current with
  | None => None
  | Some _ => Some (fun method status => update (fun m => RecordRejection m method status))
  end.

Definition MetricsEndpoint (current : option Metrics) (path : bytes) : option (MiddlewareOf E) :=
  match current with
  | None => None
  | Some m =>
    if negb (op_enabled (me_options m)) then Some (fun next => next)
    else Some (fun next rq =>
      if is_probe path rq then fun w =>
        let m := registry (env w) in
        (w, Ret (mkResponse 200
               (Set_ (lit "content-type") (lit "text/plain; version=0.0.4; charset=utf-8") [])
               (Expose m (me_store m) (me_store m)) path))
      else next rq)
  end.

(** ** One request through the recorder *)

Definition flight (m : Metrics) (method : bytes) : Z :=
  default 0 (sm_lookup (NormalizeMethod method) (me_in_flight m)).

Lemma update_contained f which w :
  CallContained tt (update f) which w
  = (mkWorld (clog w) (put (f (registry (env w))) (env w)), Ret tt).
Proof. done. Qed.

(** The start is filed before the handler, the completion after it. *)
Lemma RecordMetrics_run `{InetLib} current now m next rq w :
  op_enabled (me_options current) = true -> RecordMetrics (Some current) now = Some m -> ticks registry now ->
  exists w1 o, let '(w2, r) := next rq w1 in
    registry (env w1) = RecordStart (registry (env w)) (mkStart (rq_method rq) (rq_target rq) [])
    /\ completion_of rq [] r o
    /\ registry (env (fst (m next rq w))) = Record_ (registry (env w2)) o
    /\ snd (m next rq w) = r.
Proof.
  intros He Hm [Hkeep Hret]. unfold RecordMetrics in Hm. rewrite He in Hm. cbn [negb] in Hm.
  unfold Observe in Hm. injection Hm as <-.
  rewrite (bind_returned _ _ w w [] eq_refl).
  set (s := mkStart _ _ []).
  rewrite (bind_returned _ _ w _ tt (update_contained _ _ _)).
  set (w0 := mkWorld _ _).
  destruct (returned now w0 Hret) as (w1 & start & E1). pose proof (Hkeep w0) as S1. rewrite E1 in S1. simpl in S1.
  rewrite (bind_returned _ _ _ _ _ E1). unfold rethrowing. cbv [mbind M_bind].
  exists w1. destruct (next rq w1) as [w2 r] eqn:E2.
  destruct (returned now w2 Hret) as (w3 & stop & E3). pose proof (Hkeep w2) as S3. rewrite E3 in S3. simpl in S3.
  destruct r as [rs|what]; rewrite E3, update_contained; eexists;
    (split; [by rewrite S1, registry_put|split; [|split; [simpl; by rewrite registry_put, S3|done]]]; by repeat split).
Qed.

(** ** The gauge *)

Lemma flight_start m start method :
  op_enabled (me_options m) = true -> sm_ok (me_in_flight m) ->
  flight (RecordStart m start) method
  = flight m method + (if decide (NormalizeMethod method = NormalizeMethod (st_method start)) then 1 else 0).
Proof.
  intros He Hs. unfold RecordStart, flight. rewrite He. cbn [negb me_in_flight with_in_flight].
  rewrite sm_lookup_insert by done. destruct (decide _) as [->|]; simpl; lia.
Qed.

Lemma AdmitRoute_flight m key f : me_in_flight (AdmitRoute m key f) = me_in_flight m.
Proof. unfold AdmitRoute. destruct (find_route _ _); [done|]. by destruct (_ >=? _). Qed.

Lemma flight_record m o method :
  op_enabled (me_options m) = true -> sm_ok (me_in_flight m) -> 0 < flight m (ob_method o) ->
  flight (Record_ m o) method
  = flight m method - (if decide (NormalizeMethod method = NormalizeMethod (ob_method o)) then 1 else 0).
Proof.
  intros He Hs Hp. unfold Record_, flight in *. rewrite He. cbn [negb]. rewrite AdmitRoute_flight.
  unfold leave_flight. cbn [record_key rk_method]. destruct (sm_lookup (NormalizeMethod (ob_method o)) _) as [c|] eqn:El;
    simpl in Hp; [|lia].
  destruct (Z.gtb_spec c 0); [|lia]. cbn [me_in_flight with_in_flight]. rewrite sm_lookup_insert by done.
  destruct (decide _) as [Em|]; simpl; [|lia]. rewrite Em, El. simpl. lia.
Qed.

Lemma flight_nonneg n k m method : metrics_ok n k m -> 0 <= flight m method.
Proof.
  intros Hok. unfold flight. destruct (sm_lookup _ _) as [c|] eqn:El; simpl; [|lia].
  pose proof (flight_bound _ _ _ _ _ Hok El). lia.
Qed.

(** A handler that uses the registry only through its operations. *)
Definition well_behaved (options : MetricsOptions) (next : RequestHandler E) : Prop :=
  forall rq w ops, history options ops (registry (env w)) ->
    exists inner, history options (inner ++ ops) (registry (env (fst (next rq w)))).

(** C33: Metrics count exactly what was served and what was scraped says it.
    A request through the recorder, whatever its handler does with the registry
    and even if it throws, adds to the registry's history its start before the
    handler and one completion after it that carries the handler's outcome, and
    leaves the caller the handler's own response or exception; if the handler
    gives back the in-flight count it was started with, the gauge of every
    method is what it was before the request.  A scrape composed outside the
    recorder is answered from the registry without reaching the handler or being
    counted, other requests pass the endpoint untouched, and a disabled registry
    wraps nothing. *)
Theorem metrics_served `{InetLib} options ops current now path record endpoint next rq w
  (Hmax : 0 <= op_max_series options) (Hlen : len ops + 1 < 2 ^ 63)
  (Hcurrent : me_options current = options) (Hhist : history options ops (registry (env w)))
  (Hrecord : RecordMetrics (Some current) now = Some record)
  (Hendpoint : MetricsEndpoint (Some current) path = Some endpoint)
  (Hnow : ticks registry now) (Hnext : well_behaved options next) :
  (op_enabled options = true ->
   exists start o inner w1, let '(w2, r) := next rq w1 in
     history options (OpStart start :: ops) (registry (env w1))
     /\ history options (inner ++ OpStart start :: ops) (registry (env w2))
     /\ history options (OpRecord o :: inner ++ OpStart start :: ops) (registry (env (fst (record next rq w))))
     /\ st_method start = rq_method rq /\ completion_of rq [] r o
     /\ snd (record next rq w) = r
     /\ ((forall method, flight (registry (env w2)) method = flight (registry (env w1)) method) ->
         len inner + len ops + 1 < 2 ^ 63 ->
         forall method, flight (registry (env (fst (record next rq w)))) method = flight (registry (env w)) method))
  /\ (op_enabled options = true -> is_probe path rq = true ->
      exists body, Chain [endpoint; record] next rq w
        = (w, Ret (mkResponse 200
             (Set_ (lit "content-type") (lit "text/plain; version=0.0.4; charset=utf-8") []) body path))
        /\ read_text body
           = Some (registry_says (registry (env w)) (me_store (registry (env w))) (me_store (registry (env w)))))
  /\ (op_enabled options = true -> is_probe path rq = false -> endpoint next rq = next rq)
  /\ (op_enabled options = false -> Chain [endpoint; record] next = next).
Proof.
  destruct (history_ok options ops _ Hmax ltac:(lia) Hhist) as (Hok & Ho & _).
  split; [|split; [|split]]; intros He.
  - rewrite <- Hcurrent in He. destruct (RecordMetrics_run current now record next rq w He Hrecord Hnow)
      as (w1 & o & Hrun). rewrite Hcurrent in He.
    set (start := mkStart (rq_method rq) (rq_target rq) []) in *.
    pose proof (history_op options ops _ (OpStart start) _ Hhist I eq_refl) as H1.
    destruct (Hnext rq w1 (OpStart start :: ops)) as [inner H2].
    { destruct (next rq w1). destruct Hrun as (-> & _). exact H1. }
    exists start, o, inner, w1. destruct (next rq w1) as [w2 r]. destruct Hrun as (E1 & Hc & E2 & E3).
    cbn [fst] in H2. rewrite E1, E2. split; [exact H1|]. split; [exact H2|].
    split; [exact (history_op _ _ _ (OpRecord o) _ H2 I eq_refl)|]. split; [done|]. split; [done|]. split; [done|].
    intros Hsame Hl method.
    destruct (history_ok options (inner ++ OpStart start :: ops) _ Hmax ltac:(rewrite len_app, len_cons; lia) H2) as (Hok2 & Ho2 & _).
    assert (Hm : rq_method rq = ob_method o) by (by destruct Hc as [-> _]).
    assert (Hf : forall mth, flight (registry (env w2)) mth = flight (registry (env w)) mth
      + (if decide (NormalizeMethod mth = NormalizeMethod (ob_method o)) then 1 else 0)).
    { intros mth. rewrite Hsame, flight_start; [by rewrite <- Hm|by rewrite Ho|apply (ok_flight _ _ _ Hok)]. }
    rewrite flight_record; [rewrite Hf; lia|by rewrite Ho2|apply (ok_flight _ _ _ Hok2)|].
    rewrite Hf, decide_True by done. pose proof (flight_nonneg _ _ _ (ob_method o) Hok). lia.
  - intros Hp. unfold MetricsEndpoint in Hendpoint. rewrite Hcurrent, He in Hendpoint. cbn [negb] in Hendpoint.
    injection Hendpoint as <-. eexists. unfold Chain. cbn [reverse rev_append fold_left]. rewrite Hp.
    split; [reflexivity|]. apply (says_scrape options ops); [exact Hmax|lia|exact Hhist|exact He].
  - intros Hp. unfold MetricsEndpoint in Hendpoint. rewrite Hcurrent, He in Hendpoint. cbn [negb] in Hendpoint.
    injection Hendpoint as <-. by rewrite Hp.
  - unfold MetricsEndpoint, RecordMetrics in *. rewrite Hcurrent, He in Hendpoint, Hrecord. cbn [negb] in *.
    injection Hendpoint as <-. injection Hrecord as <-. done.
Qed.

End Server.

(** An environment that is the registry, a clock that stands still, a handler
    that throws. *)
#[global] Instance metrics_itself : HasMetrics Metrics := {|
  registry := fun m => m; put := fun m _ => m; registry_put := fun _ _ => eq_refl
|}.

Definition crashing : RequestHandler Metrics := fun _ w => (w, Throw (Some (lit "boom"))).

Definition sample_registry : Metrics := mkMetrics sample_options [] [] 0 [] [].

Lemma metrics_served_witness :
  exists m record,
    @RecordMetrics _ _ toy_inet (Some m) (mret 7) = Some record
    /\ exists o, completion_of (bearer_request []) [] (Throw (Some (lit "boom"))) o
       /\ snd (record crashing (bearer_request []) (mkWorld [] m)) = Throw (Some (lit "boom"))
       /\ exists ops, history sample_options (OpRecord o :: ops)
            (env (fst (record crashing (bearer_request []) (mkWorld [] m)))).
Proof.
  assert (history sample_options [] sample_registry) as H0 by (by apply history_new).
  exists sample_registry. eexists. split; [reflexivity|].
  assert (@well_behaved Metrics metrics_itself sample_options crashing) as Hw by (intros rq w ops Hh; by exists []).
  assert (ticks registry (mret 7 : M Metrics Z)) as Ht by (split; [done|intros w; by exists 7]).
  destruct (proj1 (metrics_served (H0 := toy_inet) sample_options [] sample_registry (mret 7) (lit "/metrics") _ _ crashing
    (bearer_request []) (mkWorld [] sample_registry) ltac:(by vm_compute) ltac:(by vm_compute) eq_refl H0 eq_refl eq_refl Ht Hw)
    eq_refl) as (start & o & inner & w1 & H).
  destruct H as (_ & _ & Hh & _ & Hc & Hr & _). exists o. split; [exact Hc|]. split; [exact Hr|]. eexists. exact Hh.
Defined.
