(* ===== verification/Json.v ===== *)
(** json/json.cc: documents to and from the tree of the JSON library and the
    nesting guard that scans a text before the library parses it.  The library
    (nlohmann::json, third party) is an interface: its value tree is
    [Backend], its [dump] and [parse] are the class [JsonLib]. *)
From Stdlib Require Import ZArith Lia Strings.Byte.
From Stdlib Require Import Floats.SpecFloat.
From S2P Require Import Prelude Bytes OrdMap Timestamp Doubles Base64 Cbor.

Local Open Scope Z_scope.

(** [nlohmann::json]: one constructor per [value_t]; objects are [std::map]s. *)
Inductive Backend :=
| JNull
| JBoolean (b : bool)
| JInteger (z : Z)
| JUnsigned (z : Z)
| JFloat (bits : Z)
| JString (text : bytes)
| JBinary (data : bytes)
| JArray (items : list Backend)
| JObject (entries : list (bytes * Backend)).

Class JsonLib := {
  dump : Backend -> bytes;
  parse : bytes -> option Backend
}.

(** ** To the library *)

(** [static_cast<double>(whole) == seconds]. *)
Definition epoch_node (ms : Z) : Backend :=
  let seconds := epoch_seconds ms in
  let whole := trunc seconds in
  if SFeqb (of_int whole) seconds then JInteger whole else JFloat (to_bits seconds).

Definition double_node (bits : Z) : Backend :=
  match of_bits bits with
  | S754_nan => JString (lit "NaN")
  | S754_infinity false => JString (lit "Infinity")
  | S754_infinity true => JString (lit "-Infinity")
  | _ => JFloat bits
  end.

Fixpoint ToBackend (doc : Document) : Backend :=
  match doc with
  | Null => JNull
  | Bool b => JBoolean b
  | Int z => JInteger z
  | Double bits => double_node bits
  | String_ text => JString text
  | Blob_ data => JString (Base64Encode data)
  | TimestampNode ms format =>
    match format with
    | kEpochSeconds => epoch_node ms
    | _ => JString (Format ms format)
    end
  | List_ items => JArray (map ToBackend items)
  | Map_ entries =>
    JObject (fold_left (fun out e => sm_insert (fst e) (ToBackend (snd e)) out) entries [])
  end.

(** ** The nesting guard *)

Definition kMaxNestingDepth : Z := 512.

(** The scan from depth [depth], inside a string or not, after a backslash or
    not. *)
Fixpoint scan (depth : Z) (in_string escaped : bool) (text : bytes) : bool :=
  match text with
  | [] => false
  | c :: text =>
    if in_string then
      if escaped then scan depth true false text
      else if byte_eqb c "\"%byte then scan depth true true text
      else if byte_eqb c x22 then scan depth false false text
      else scan depth true false text
    else if byte_eqb c x22 then scan depth true escaped text
    else if byte_eqb c "["%byte || byte_eqb c "{"%byte then
      if kMaxNestingDepth <? depth + 1 then true else scan (depth + 1) false escaped text
    else if byte_eqb c "]"%byte || byte_eqb c "}"%byte then scan (depth - 1) false escaped text
    else scan depth false escaped text
  end.

Definition ExceedsMaxDepth (text : bytes) : bool := scan 0 false false text.

(** ** From the library *)

Fixpoint FromBackend (value : Backend) : Outcome Document :=
  match value with
  | JNull => Ok Null
  | JBoolean b => Ok (Bool b)
  | JInteger z => Ok (Int z)
  | JUnsigned raw =>
    if raw >? kMaxInt64 then Err (Error_Serialization (lit "json: integer exceeds int64 range"))
    else Ok (Int raw)
  | JFloat bits => Ok (Double bits)
  | JString text => Ok (String_ text)
  | JArray items =>
    list ← (fix items_loop (items : list Backend) : Outcome (list Document) :=
              match items with
              | [] => Ok []
              | item :: items =>
                converted ← FromBackend item;
                list ← items_loop items;
                Ok (converted :: list)
              end) items;
    Ok (List_ list)
  | JObject entries =>
    (fix entries_loop (entries : list (bytes * Backend)) (map : list (bytes * Document))
         : Outcome Document :=
       match entries with
       | [] => Ok (Map_ map)
       | (key, item) :: entries =>
         converted ← FromBackend item;
         entries_loop entries (sm_insert key converted map)
       end) entries []
  | JBinary _ => Err (Error_Serialization (lit "json: unsupported value type"))
  end.

Section Codec.
Context `{JsonLib}.

Definition Encode (doc : Document) : bytes := dump (ToBackend doc).

Definition Decode (text : bytes) : Outcome Document :=
  if ExceedsMaxDepth text then Err (Error_Serialization (lit "json: nesting too deep"))
  else
    match parse text with
    | None => Err (Error_Serialization (lit "json: malformed document"))
    | Some parsed => FromBackend parsed
    end.

End Codec.

(** ** The guard measures nesting *)

(** The inside of a string literal: no bare quote, and no backslash left
    without the byte it escapes. *)
Inductive string_body : bytes -> Prop :=
| body_nil : string_body []
| body_byte c s : c <> x22 -> c <> "\"%byte -> string_body s -> string_body (c :: s)
| body_escape c s : string_body s -> string_body ("\"%byte :: c :: s).

Definition structural (c : Byte.byte) : Prop :=
  c ∈ [x22; "["; "]"; "{"; "}"]%byte.

(** Bracketed texts and how deep they nest; every JSON text is one. *)
Inductive json_text : nat -> bytes -> Prop :=
| text_plain s : Forall (fun c => ~ structural c) s -> json_text 0 s
| text_string b : string_body b -> json_text 0 (x22 :: b ++ [x22])
| text_seq n m s t : json_text n s -> json_text m t -> json_text (Nat.max n m) (s ++ t)
| text_array n s : json_text n s -> json_text (S n) ("["%byte :: s ++ ["]"%byte])
| text_object n s : json_text n s -> json_text (S n) ("{"%byte :: s ++ ["}"%byte]).

Lemma scan_body b : string_body b -> forall depth rest,
  scan depth true false (b ++ x22 :: rest) = scan depth false false rest.
Proof.
  induction 1 as [|c s H1 H2 _ IH|c s _ IH]; intros depth rest; cbn [app scan].
  - done.
  - destruct (byte_eqb_spec c "\"%byte), (byte_eqb_spec c x22); done || by rewrite IH.
  - change (byte_eqb "\"%byte "\"%byte) with true. cbv iota. by rewrite IH.
Qed.

Lemma scan_plain s : Forall (fun c => ~ structural c) s -> forall depth rest,
  scan depth false false (s ++ rest) = scan depth false false rest.
Proof.
  induction 1 as [|c s Hc _ IH]; intros depth rest; [done|]. cbn [app scan].
  assert (forall d, d ∈ [x22; "["; "]"; "{"; "}"]%byte -> byte_eqb c d = false) as E.
  { intros d Hd. apply not_true_is_false. intros ->%byte_eqb_eq. done. }
  rewrite !E by (by apply (bool_decide_unpack _)). apply IH.
Qed.

Lemma scan_text n s : json_text n s -> forall depth rest,
  0 <= depth <= kMaxNestingDepth ->
  scan depth false false (s ++ rest)
  = if kMaxNestingDepth <? depth + Z.of_nat n then true else scan depth false false rest.
Proof.
  assert (Hbr : forall op cl n s, (op = "["%byte /\ cl = "]"%byte) \/ (op = "{"%byte /\ cl = "}"%byte) ->
    (forall depth rest, 0 <= depth <= kMaxNestingDepth -> scan depth false false (s ++ rest)
      = if kMaxNestingDepth <? depth + Z.of_nat n then true else scan depth false false rest) ->
    forall depth rest, 0 <= depth <= kMaxNestingDepth ->
    scan depth false false ((op :: s ++ [cl]) ++ rest)
    = if kMaxNestingDepth <? depth + Z.of_nat (S n) then true else scan depth false false rest).
  { intros op cl m t Hop IH depth rest Hd. rewrite <- app_comm_cons, <- app_assoc.
    assert (E : scan depth false false (op :: t ++ [cl] ++ rest)
                = if kMaxNestingDepth <? depth + 1 then true else scan (depth + 1) false false (t ++ [cl] ++ rest))
      by (destruct Hop as [[-> ->]|[-> ->]]; done).
    rewrite E. destruct (Z.ltb_spec kMaxNestingDepth (depth + 1)).
    - by rewrite (proj2 (Z.ltb_lt _ _)) by lia.
    - rewrite IH by lia. replace (depth + 1 + Z.of_nat m) with (depth + Z.of_nat (S m)) by lia.
      destruct (_ <? _); [done|].
      replace depth with (depth + 1 - 1) at 2 by lia. by destruct Hop as [[-> ->]|[-> ->]]. }
  intros Ht. induction Ht as [s Hs|b Hb|n m s t _ IHs _ IHt|n s _ IH|n s _ IH]; intros depth rest Hd.
  - by rewrite scan_plain, (proj2 (Z.ltb_ge _ _)) by (done || lia).
  - rewrite (proj2 (Z.ltb_ge _ _)) by lia.
    rewrite <- app_comm_cons, <- app_assoc. by apply scan_body.
  - rewrite <- app_assoc, IHs, IHt by done.
    destruct (Z.ltb_spec kMaxNestingDepth (depth + Z.of_nat n)),
      (Z.ltb_spec kMaxNestingDepth (depth + Z.of_nat m));
      first [by rewrite (proj2 (Z.ltb_lt _ _)) by lia|by rewrite (proj2 (Z.ltb_ge _ _)) by lia].
  - apply (Hbr "["%byte "]"%byte); [by left|done|done].
  - apply (Hbr "{"%byte "}"%byte); [by right|done|done].
Qed.

(** The guard that keeps hostile nesting from the recursive parser is
    exact on every JSON text: with [n] the depth of its arrays and objects
    (brackets inside string literals do not count), it rejects the text if and
    only if [n] exceeds 512. *)
Theorem ExceedsMaxDepth_exact n text (Htext : json_text n text) :
  ExceedsMaxDepth text = true <-> (512 < n)%nat.
Proof.
  unfold ExceedsMaxDepth. pose proof (scan_text n text Htext 0 [] ltac:(unfold kMaxNestingDepth; lia)) as E.
  rewrite app_nil_r in E. rewrite E. unfold kMaxNestingDepth.
  destruct (Z.ltb_spec 512 (0 + Z.of_nat n)); split; try done; lia.
Qed.

Lemma ExceedsMaxDepth_exact_witness :
  json_text 1 (lit "[" ++ [x22; "["%byte; x22] ++ lit "]")
  /\ (ExceedsMaxDepth (lit "[" ++ [x22; "["%byte; x22] ++ lit "]") = true <-> (512 < 1)%nat).
Proof.
  assert (json_text 1 (lit "[" ++ [x22; "["%byte; x22] ++ lit "]")) as H.
  { apply (text_array 0 [x22; "["%byte; x22]), (text_string ["["%byte]). by repeat constructor. }
  split; [done|]. apply (ExceedsMaxDepth_exact _ _ H).
Defined.

(** ** What a document becomes *)

(** The tree read back: the library reads a nonnegative integer as unsigned. *)
Fixpoint reread (value : Backend) : Backend :=
  match value with
  | JInteger z => if z <? 0 then JInteger z else JUnsigned z
  | JArray items => JArray (map reread items)
  | JObject entries => JObject (map (fun e => (fst e, reread (snd e))) entries)
  | value => value
  end.

(** The document a JSON peer hands back: what JSON has no node for arrives as
    a string or a number. *)
Fixpoint jsonified (doc : Document) : Document :=
  match doc with
  | Double bits =>
    match of_bits bits with
    | S754_nan => String_ (lit "NaN")
    | S754_infinity s => String_ (if s then lit "-Infinity" else lit "Infinity")
    | _ => Double bits
    end
  | Blob_ data => String_ (Base64Encode data)
  | TimestampNode ms kEpochSeconds =>
    let seconds := epoch_seconds ms in
    if SFeqb (of_int (trunc seconds)) seconds then Int (trunc seconds) else Double (to_bits seconds)
  | TimestampNode ms format => String_ (Format ms format)
  | List_ items => List_ (map jsonified items)
  | Map_ entries => Map_ (map (fun e => (fst e, jsonified (snd e))) entries)
  | doc => doc
  end.

(** The levels of arrays and objects. *)
Fixpoint levels (doc : Document) : nat :=
  match doc with
  | List_ items => S (list_max (map levels items))
  | Map_ entries => S (list_max (map (fun e => levels (snd e)) entries))
  | _ => 0
  end.

(** ** The two translations meet *)

Lemma trunc_lt s m e c :
  -1100 <= e -> Z.pos m * 2 ^ (e + 1100) < c * 2 ^ 1100 -> Z.abs (trunc (S754_finite s m e)) < c.
Proof.
  intros He H. cbn [trunc].
  assert (Ha : 0 <= (if 0 <=? e then Z.pos m * 2 ^ e else Z.pos m / 2 ^ (- e)) < c).
  { destruct (Z.leb_spec 0 e) as [H0|H0].
    - rewrite Z.pow_add_r in H by lia. pose proof (pow2_pos e H0). pose proof (pow2_pos 1100 ltac:(lia)).
      set (U := 2 ^ 1100) in *. clearbody U. nia.
    - assert (Hp : 0 < 2 ^ (- e)) by (apply pow2_pos; lia).
      assert (Hq : 0 < 2 ^ (e + 1100)) by (apply pow2_pos; lia).
      replace (2 ^ 1100) with (2 ^ (- e) * 2 ^ (e + 1100)) in H
        by (rewrite <- Z.pow_add_r by lia; f_equal; lia).
      split; [apply Z.div_pos; lia|]. apply Z.div_lt_upper_bound; [done|].
      set (P := 2 ^ (- e)) in *. set (Q := 2 ^ (e + 1100)) in *. clearbody P Q. nia. }
  destruct s; lia.
Qed.

Lemma whole_seconds_range ms :
  kMinRepresentableMs <= ms <= kMaxRepresentableMs -> Z.abs (trunc (epoch_seconds ms)) < 2 ^ 48.
Proof.
  unfold kMinRepresentableMs, kMaxRepresentableMs. intros Hms.
  destruct (Z.eq_dec ms 0) as [->|H0]; [by vm_compute|].
  destruct (epoch_seconds_shape ms ltac:(lia)) as (m & e & -> & _ & He & Hd).
  apply trunc_lt; [lia|]. assert (HU : 0 < 2 ^ 1100) by (by apply pow2_pos).
  set (U := 2 ^ 1100) in *. set (v := Z.pos m * 2 ^ (e + 1100)) in *. clearbody U v.
  assert (Z.abs ms * U <= 253402300799999 * U) by (apply Z.mul_le_mono_nonneg_r; lia).
  set (w := Z.abs ms * U) in *. clearbody w. lia.
Qed.

Lemma sm_map_ok {A B} (f : A -> B) m : sm_ok m -> sm_ok (map (fun e => (fst e, f (snd e))) m).
Proof.
  induction m as [|[k d] m IH]; [done|]. cbn [map sm_ok fst snd]. intros [Hb Hm].
  split; [|auto]. apply Forall_map. by eapply Forall_impl; [exact Hb|].
Qed.

Lemma sm_build {A B} (f : A -> B) m acc :
  sm_ok (acc ++ map (fun e => (fst e, f (snd e))) m) ->
  fold_left (fun out e => sm_insert (fst e) (f (snd e)) out) m acc
  = acc ++ map (fun e => (fst e, f (snd e))) m.
Proof.
  intros Hok. rewrite <- (sm_rebuild _ _ Hok). clear Hok. revert acc.
  induction m as [|e m IH]; intros acc; [done|]. cbn [fold_left map fst snd]. apply IH.
Qed.

Lemma ToBackend_map entries :
  sm_ok entries ->
  ToBackend (Map_ entries) = JObject (map (fun e => (fst e, ToBackend (snd e))) entries).
Proof. intros Hok. cbn [ToBackend]. f_equal. rewrite sm_build; [done|]. by apply sm_map_ok. Qed.

Lemma FromBackend_array items docs :
  Forall2 (fun item d => FromBackend item = Ok d) items docs -> FromBackend (JArray items) = Ok (List_ docs).
Proof.
  intros H. cbn [FromBackend].
  match goal with |- (?loop items ≫= _) = _ => assert (loop items = Ok docs) as -> end; [|done].
  induction H as [|item d items docs Hd _ IH]; [done|]. by rewrite Hd, IH.
Qed.

Lemma FromBackend_object {A} (f : A -> Backend) (g : A -> Document) entries :
  sm_ok entries -> Forall (fun e => FromBackend (f (snd e)) = Ok (g (snd e))) entries ->
  FromBackend (JObject (map (fun e => (fst e, f (snd e))) entries))
  = Ok (Map_ (map (fun e => (fst e, g (snd e))) entries)).
Proof.
  intros Hok Hall. cbn [FromBackend].
  rewrite <- (app_nil_l (map (fun e => (fst e, g (snd e))) entries)).
  rewrite <- (sm_build g entries []) by (by apply sm_map_ok). clear Hok. generalize (@nil (bytes * Document)).
  induction Hall as [|[k a] entries Ha _ IH]; intros acc; [done|]. cbn [map fst snd fold_left] in *.
  rewrite Ha. cbn [mbind Outcome_bind]. apply IH.
Qed.

Lemma int_node z : - 2 ^ 63 <= z < 2 ^ 63 -> FromBackend (reread (JInteger z)) = Ok (Int z).
Proof.
  intros Hz. cbn [reread]. destruct (Z.ltb_spec z 0); [done|]. cbn [FromBackend].
  unfold kMaxInt64. rewrite Z.gtb_ltb, (proj2 (Z.ltb_ge _ _)) by lia. done.
Qed.

Lemma FromBackend_ToBackend d : doc_ok d -> FromBackend (reread (ToBackend d)) = Ok (jsonified d).
Proof.
  induction d as [|b|z|bits|t|t|ms f|l IH|m IH] using Document_ind'; intros Hok.
  - done.
  - done.
  - by apply int_node.
  - cbn [ToBackend jsonified]. unfold double_node. by destruct (of_bits bits) as [| []| |].
  - done.
  - done.
  - cbn [ToBackend jsonified]. destruct f; [|done|done]. unfold epoch_node.
    destruct (SFeqb _ _); [|done]. pose proof (whole_seconds_range ms Hok). apply int_node. lia.
  - apply doc_ok_list in Hok as [_ Hok]. cbn [ToBackend reread jsonified].
    apply FromBackend_array. rewrite map_map.
    induction IH as [|d l Hd _ IHl]; [constructor|]. inversion Hok; subst. constructor; auto.
  - apply doc_ok_map in Hok as (_ & Hs & Hok). rewrite ToBackend_map by done. cbn [reread jsonified].
    rewrite map_map. cbn [fst snd].
    apply (FromBackend_object (fun d => reread (ToBackend d)) jsonified); [done|].
    clear Hs. induction IH as [|e m Hd _ IHm]; [constructor|]. inversion Hok as [|? ? [_ ?] ?]; subst.
    constructor; auto.
Qed.

Lemma decode_encoded `{JsonLib} d
  (Hok : doc_ok d)
  (Hread : parse (dump (ToBackend d)) = Some (reread (ToBackend d)))
  (Htext : json_text (levels d) (dump (ToBackend d))) :
  Decode (Encode d)
  = if (512 <? levels d)%nat then Err (Error_Serialization (lit "json: nesting too deep"))
    else Ok (jsonified d).
Proof.
  unfold Decode, Encode, ExceedsMaxDepth.
  pose proof (scan_text _ _ Htext 0 [] ltac:(unfold kMaxNestingDepth; lia)) as E.
  rewrite app_nil_r in E. rewrite E. unfold kMaxNestingDepth.
  destruct (Z.ltb_spec 512 (0 + Z.of_nat (levels d))), (Nat.ltb_spec 512 (levels d)); try lia; [done|].
  cbn [scan]. rewrite Hread. by apply FromBackend_ToBackend.
Qed.

(** What a JSON peer gets is what was sent, up to what JSON can say: for
    every document, if the library's text for its tree is a JSON text of that
    nesting and the library reads its own text back (nonnegative integers as
    unsigned), then decoding the encoding gives the document with blobs as
    base64, non-finite doubles by name, and timestamps as numbers or formatted
    text; unless it nests deeper than 512 levels, which is refused. *)
Theorem json_roundtrip `{JsonLib} d
  (Hok : doc_ok d)
  (Hread : parse (dump (ToBackend d)) = Some (reread (ToBackend d)))
  (Htext : json_text (levels d) (dump (ToBackend d))) :
  Decode (Encode d)
  = if (512 <? levels d)%nat then Err (Error_Serialization (lit "json: nesting too deep"))
    else Ok (jsonified d).
Proof. by apply decode_encoded. Qed.

Definition one_key_document : Document := Map_ [(lit "a", Double kInfinityBits)].

Definition one_key_text : bytes :=
  lit "{" ++ ([x22; "a"%byte; x22] ++ (lit ":" ++ (x22 :: lit "Infinity" ++ [x22]))) ++ lit "}".

Definition one_key_lib : JsonLib := {|
  dump := fun _ => one_key_text;
  parse := fun text => if bytes_eqb text one_key_text then Some (reread (ToBackend one_key_document)) else None
|}.

Lemma json_roundtrip_witness :
  @Decode one_key_lib (@Encode one_key_lib one_key_document)
  = Ok (Map_ [(lit "a", String_ (lit "Infinity"))]).
Proof.
  apply (@json_roundtrip one_key_lib one_key_document).
  - by vm_compute.
  - by vm_compute.
  - apply (text_object 0), (text_seq 0 0); [apply (text_string (lit "a")); by repeat constructor|].
    apply (text_seq 0 0).
    + apply text_plain. constructor; [|done]. by apply (bool_decide_unpack _).
    + apply text_string. by repeat constructor.
Defined.
