(* ===== verification/Serde.v ===== *)
(** core/document_serde.cc: reading document nodes back into typed values.  A
    JSON peer sends numbers and strings where a CBOR peer sends typed nodes;
    the same readers take both. *)
From Stdlib Require Import ZArith Lia Strings.Byte.
From Stdlib Require Import Floats.SpecFloat.
From S2P Require Import Prelude Bytes OrdMap Timestamp Doubles Base64 Cbor Json.

Local Open Scope Z_scope.

(** [Document::AsNumber] of an integer or double node. *)
Definition AsNumber (doc : Document) : double :=
  match doc with
  | Int z => of_int z
  | Double bits => of_bits bits
  | _ => S754_nan
  end.

(** [underflow] is whether the C library reports ERANGE for a text. *)
Definition TimestampFromDocument (underflow : bytes -> bool) (doc : Document) (format : TimestampFormat)
    : Outcome Z :=
  match doc with
  | TimestampNode ms _ => Ok ms
  | Int _ | Double _ =>
    match format with
    | kEpochSeconds => FromEpochSecondsChecked (AsNumber doc)
    | _ => Err (Error_Serialization (lit "timestamp: numeric value for a string-formatted timestamp"))
    end
  | String_ text =>
    match format with
    | kEpochSeconds =>
      Err (Error_Serialization (lit "timestamp: string value for an epoch-seconds timestamp"))
    | _ => Parse underflow text format
    end
  | _ => Err (Error_Serialization (lit "timestamp: expected a timestamp, number, or string"))
  end.

Definition BlobFromDocument (doc : Document) : Outcome bytes :=
  match doc with
  | Blob_ data => Ok data
  | String_ text => Base64Decode text
  | _ => Err (Error_Serialization (lit "blob: expected a byte string or base64 text"))
  end.

Definition DoubleFromDocument (doc : Document) : Outcome double :=
  let rejected :=
    Err (Error_Serialization (lit "number: expected a number or NaN/Infinity/-Infinity")) in
  match doc with
  | Int _ | Double _ => Ok (AsNumber doc)
  | String_ text =>
    if bytes_eqb text (lit "NaN") then Ok S754_nan
    else if bytes_eqb text (lit "Infinity") then Ok (S754_infinity false)
    else if bytes_eqb text (lit "-Infinity") then Ok (S754_infinity true)
    else rejected
  | _ => rejected
  end.

(** 2^128 - 2^103, and [static_cast<float>]. *)
Definition kFloatOverflowBound : double := of_int (2 ^ 128 - 2 ^ 103).

Definition to_float (value : double) : spec_float :=
  match value with
  | S754_finite s m e => binary_round 24 128 s m e
  | value => value
  end.

Definition FloatFromDouble (value : double) : Outcome spec_float :=
  if is_finite value && (SFleb value (SFopp kFloatOverflowBound) || SFleb kFloatOverflowBound value)
  then Err (Error_Serialization (lit "number: value out of float range"))
  else Ok (to_float value).

(** [to_chars] is [std::to_chars] without a precision: the shortest decimal
    text that is read back as the same value. *)
Definition FormatFloating (to_chars : spec_float -> bytes) (value : spec_float) : bytes :=
  match value with
  | S754_nan => lit "NaN"
  | S754_infinity false => lit "Infinity"
  | S754_infinity true => lit "-Infinity"
  | _ =>
    let text := to_chars value in
    if match find_byte "."%byte text, find_byte "e"%byte text, find_sub (lit "inf") text,
             find_sub (lit "nan") text with
       | None, None, None, None => true
       | _, _, _, _ => false
       end
    then text ++ lit ".0" else text
  end.

(** ** Typed values survive both wires *)

(** An instant that goes out as a number comes back. *)
Lemma epoch_survives underflow ms :
  kMinRepresentableMs <= ms <= kMaxRepresentableMs ->
  TimestampFromDocument underflow (jsonified (TimestampNode ms kEpochSeconds)) kEpochSeconds = Ok ms.
Proof.
  intros Hms. pose proof (FromEpochSecondsChecked_ms ms Hms) as Hr. cbn [jsonified].
  destruct (Z.eq_dec ms 0) as [->|H0]; [by vm_compute|].
  destruct (epoch_seconds_shape ms) as (m & e & E & Hm & He & _).
  { unfold kMinRepresentableMs, kMaxRepresentableMs in Hms. lia. }
  destruct (SFeqb _ _) eqn:Eq; cbn [TimestampFromDocument AsNumber].
  - rewrite E in Eq at 2. apply SFeqb_finite in Eq as ->. by rewrite <- E.
  - rewrite E, (proj1 (of_bits_to_bits (ms <? 0) m e Hm ltac:(lia))), <- E. done.
Qed.

(** The instant a wire format keeps. *)
Definition kept (ms : Z) (format : TimestampFormat) : Z :=
  match format with kHttpDate => ms - ms mod 1000 | _ => ms end.

Lemma timestamp_survives underflow ms format :
  kMinRepresentableMs <= ms <= kMaxRepresentableMs ->
  TimestampFromDocument underflow (jsonified (TimestampNode ms format)) format = Ok (kept ms format).
Proof.
  intros Hms. destruct format; [by apply epoch_survives|..]; cbn [jsonified TimestampFromDocument Parse kept].
  - by apply ParseDateTime_Format.
  - by apply ParseHttpDate_Format.
Qed.

(** NaN payloads are not kept. *)
Lemma double_survives bits :
  DoubleFromDocument (jsonified (Double bits)) = Ok (of_bits bits).
Proof. cbn [jsonified]. destruct (of_bits bits) as [s|[]| |s m e] eqn:E; cbn; by rewrite ?E. Qed.

(** Typed values survive either wire: what the encoders make of a blob, a
    double or a timestamp, in a JSON document or a CBOR one, the tolerant
    readers turn back into that value: blobs exactly, doubles exactly (any NaN
    as NaN), instants to the millisecond, except that HTTP-date text drops the
    milliseconds; and the typed nodes a CBOR peer sends need no format. *)
Theorem typed_values_survive underflow :
  (forall data, BlobFromDocument (jsonified (Blob_ data)) = Ok data
                /\ BlobFromDocument (canon (Blob_ data)) = Ok data)
  /\ (forall bits, DoubleFromDocument (jsonified (Double bits)) = Ok (of_bits bits)
                   /\ DoubleFromDocument (canon (Double bits)) = Ok (of_bits bits))
  /\ (forall ms format, kMinRepresentableMs <= ms <= kMaxRepresentableMs ->
      TimestampFromDocument underflow (jsonified (TimestampNode ms format)) format = Ok (kept ms format)
      /\ forall format', TimestampFromDocument underflow (canon (TimestampNode ms format)) format' = Ok ms).
Proof.
  split; [|split].
  - intros data. split; [apply Base64Decode_Encode|done].
  - intros bits. split; [apply double_survives|done].
  - intros ms format Hms. split; [by apply timestamp_survives|done].
Qed.

Lemma typed_values_survive_witness :
  TimestampFromDocument (fun _ => false) (jsonified (TimestampNode 1500 kHttpDate)) kHttpDate = Ok (kept 1500 kHttpDate).
Proof.
  assert (kMinRepresentableMs <= 1500 <= kMaxRepresentableMs) as Hms by (split; by vm_compute).
  exact (proj1 (proj2 (proj2 (typed_values_survive (fun _ => false))) 1500 kHttpDate Hms)).
Defined.
