(* ===== verification/Envelope.v ===== *)
(** eventstream/envelope.cc, json_frame.cc and jsonrpc_frame.cc: the envelope
    that puts typed events and exceptions onto event-stream messages, and the
    two text wires that carry such messages as JSON.  The JSON codec is an
    interface, [JsonCodec]: json/json.cc implements it (Json.v). *)
From Stdlib Require Import ZArith Lia Strings.Byte.
From Stdlib Require Import Floats.SpecFloat.
From S2P Require Import Prelude Bytes Utf8 OrdMap Timestamp Headers Cbor Json.
From S2P Require Frame.
Import Frame(HeaderValue, HString, Header, mkHeader, hd_name, hd_value, Message, mkMessage, msg_headers,
  msg_payload, FindHeader, kMaxMessageBytes).

Local Open Scope Z_scope.

(** ** Envelopes *)

Definition kMessageTypeHeader : bytes := Eval vm_compute in lit ":message-type".
Definition kEventTypeHeader : bytes := Eval vm_compute in lit ":event-type".
Definition kExceptionTypeHeader : bytes := Eval vm_compute in lit ":exception-type".
Definition kContentTypeHeader : bytes := Eval vm_compute in lit ":content-type".
Definition kEventMessageType : bytes := Eval vm_compute in lit "event".
Definition kExceptionMessageType : bytes := Eval vm_compute in lit "exception".

Inductive EnvelopeKind := kEvent | kException.

Record EventEnvelope := mkEnvelope {
  en_kind : EnvelopeKind;
  en_type : bytes;
  en_content_type : bytes;
  en_payload : bytes
}.

Definition envelope_error (what : bytes) : Error :=
  Error_Serialization (lit "eventstream envelope: " ++ what).

Definition MakeMessage (message_type type_header type content_type payload : bytes) : Message :=
  mkMessage
    ([mkHeader kMessageTypeHeader (HString message_type); mkHeader type_header (HString type)]
     ++ match content_type with
        | [] => []
        | _ => [mkHeader kContentTypeHeader (HString content_type)]
        end) payload.

Definition MakeEventMessage (event_type content_type payload : bytes) : Message :=
  MakeMessage kEventMessageType kEventTypeHeader event_type content_type payload.

Definition MakeExceptionMessage (exception_type content_type payload : bytes) : Message :=
  MakeMessage kExceptionMessageType kExceptionTypeHeader exception_type content_type payload.

Definition ParseEnvelope (message : Message) : Outcome EventEnvelope :=
  match FindHeader message kMessageTypeHeader with
  | None => Err (envelope_error (lit "missing :message-type header"))
  | Some (HString message_type) =>
    '(kind, type_header) ←
      (if bytes_eqb message_type kEventMessageType then Ok (kEvent, kEventTypeHeader)
       else if bytes_eqb message_type kExceptionMessageType then Ok (kException, kExceptionTypeHeader)
       else Err (envelope_error (lit "unknown :message-type: " ++ message_type)));
    match FindHeader message type_header with
    | None => Err (envelope_error (lit "missing " ++ type_header ++ lit " header"))
    | Some (HString type) =>
      match FindHeader message kContentTypeHeader with
      | None => Ok (mkEnvelope kind type [] (msg_payload message))
      | Some (HString content_type) => Ok (mkEnvelope kind type content_type (msg_payload message))
      | Some _ => Err (envelope_error (lit ":content-type header is not a string"))
      end
    | Some _ => Err (envelope_error (type_header ++ lit " header is not a string"))
    end
  | Some _ => Err (envelope_error (lit ":message-type header is not a string"))
  end.

(** ** Documents as the wires see them *)

Class JsonCodec := {
  encode : Document -> bytes;
  decode : bytes -> Outcome Document;
  max_levels : nat
}.

Fixpoint utf8_doc (d : Document) : Prop :=
  match d with
  | String_ t => utf8 t
  | List_ l => (fix all l := match l with [] => True | d :: l => utf8_doc d /\ all l end) l
  | Map_ m => (fix all m := match m with
                            | [] => True
                            | (k, d) :: m => utf8 k /\ utf8_doc d /\ all m
                            end) m
  | _ => True
  end.

(** A document that JSON expresses as it is. *)
Definition plain (d : Document) : Prop := doc_ok d /\ jsonified d = d /\ utf8_doc d.

(** What the wires rely on: a plain document is read back as it was written,
    and what is decoded is a [Document] whose strings are UTF-8. *)
Class JsonCodecLaws `{JsonCodec} : Prop := {
  decode_encode d :
    plain d -> (levels d <= max_levels)%nat -> len (encode d) < 2 ^ 63 -> decode (encode d) = Ok d;
  decode_ok text d : decode text = Ok d -> doc_ok d /\ utf8_doc d
}.

(** [Document::Find]. *)
Definition Find (doc : Document) (key : bytes) : option Document :=
  match doc with Map_ m => sm_lookup key m | _ => None end.

Definition is_map (doc : Document) : bool := match doc with Map_ _ => true | _ => false end.

(** [operator==]: doubles compare as numbers. *)
Fixpoint doc_eqb (a b : Document) : bool :=
  match a, b with
  | Null, Null => true
  | Bool x, Bool y => Bool.eqb x y
  | Int x, Int y => x =? y
  | Double x, Double y => SFeqb (of_bits x) (of_bits y)
  | String_ x, String_ y => bytes_eqb x y
  | Blob_ x, Blob_ y => bytes_eqb x y
  | TimestampNode x f, TimestampNode y g =>
    (x =? y) && match f, g with
                | kEpochSeconds, kEpochSeconds | kDateTime, kDateTime | kHttpDate, kHttpDate => true
                | _, _ => false
                end
  | List_ x, List_ y =>
    (fix items x y := match x, y with
                      | [], [] => true
                      | a :: x, b :: y => doc_eqb a b && items x y
                      | _, _ => false
                      end) x y
  | Map_ x, Map_ y =>
    (fix entries x y := match x, y with
                        | [], [] => true
                        | (k, a) :: x, (l, b) :: y => bytes_eqb k l && doc_eqb a b && entries x y
                        | _, _ => false
                        end) x y
  | _, _ => false
  end.

(** The media type of a content type: parameters stripped, trimmed, lowered. *)
Definition MediaType (content_type : bytes) : bytes :=
  lower (rdrop_while is_blank (drop_while is_blank (fst (cut ";"%byte content_type)))).

Definition kJsonContentType : bytes := Eval vm_compute in lit "application/json".
Definition kEventMember : bytes := Eval vm_compute in lit "event".
Definition kExceptionMember : bytes := Eval vm_compute in lit "exception".
Definition kPayloadMember : bytes := Eval vm_compute in lit "payload".
Definition kVersionMember : bytes := Eval vm_compute in lit "jsonrpc".
Definition kVersionValue : bytes := Eval vm_compute in lit "2.0".
Definition kMethodMember : bytes := Eval vm_compute in lit "method".
Definition kParamsMember : bytes := Eval vm_compute in lit "params".
Definition kIdMember : bytes := Eval vm_compute in lit "id".
Definition kResultMember : bytes := Eval vm_compute in lit "result".
Definition kErrorMember : bytes := Eval vm_compute in lit "error".
Definition kCodeMember : bytes := Eval vm_compute in lit "code".
Definition kMessageMember : bytes := Eval vm_compute in lit "message".
Definition kDataMember : bytes := Eval vm_compute in lit "data".
Definition kTypeMember : bytes := Eval vm_compute in lit "__type".
Definition kFallbackExceptionType : bytes := Eval vm_compute in lit "JsonRpcError".
Definition kViolationExceptionType : bytes := Eval vm_compute in lit "SerializationException".

Definition kParseErrorCode : Z := -32700.
Definition kInvalidRequestCode : Z := -32600.

(** [fields.emplace(...)] one after the other. *)
Definition object (fields : list (bytes * Document)) : Document :=
  Map_ (fold_left (fun m e => sm_emplace (fst e) (snd e) m) fields []).

(** The first member of a map that is none of [known]. *)
Definition unknown_member (known : list bytes) (m : list (bytes * Document)) : option bytes :=
  fst <$> find (fun e => negb (existsb (bytes_eqb (fst e)) known)) m.

(** ** What an envelope says *)

Definition message_of (e : EventEnvelope) : Message :=
  match en_kind e with
  | kEvent => MakeEventMessage (en_type e) (en_content_type e) (en_payload e)
  | kException => MakeExceptionMessage (en_type e) (en_content_type e) (en_payload e)
  end.

Definition kind_text (k : EnvelopeKind) : bytes :=
  match k with kEvent => kEventMessageType | kException => kExceptionMessageType end.

Definition type_header_of (k : EnvelopeKind) : bytes :=
  match k with kEvent => kEventTypeHeader | kException => kExceptionTypeHeader end.

Lemma ParseEnvelope_made e : ParseEnvelope (message_of e) = Ok e.
Proof. destruct e as [[] type [|c ct] payload]; reflexivity. Qed.

Lemma ParseEnvelope_iff m e :
  ParseEnvelope m = Ok e
  <-> FindHeader m kMessageTypeHeader = Some (HString (kind_text (en_kind e)))
      /\ FindHeader m (type_header_of (en_kind e)) = Some (HString (en_type e))
      /\ (FindHeader m kContentTypeHeader = Some (HString (en_content_type e))
          \/ (FindHeader m kContentTypeHeader = None /\ en_content_type e = []))
      /\ en_payload e = msg_payload m.
Proof.
  destruct e as [kind type ct payload]. cbn [en_kind en_type en_content_type en_payload].
  unfold ParseEnvelope. split.
  - destruct (FindHeader m kMessageTypeHeader) as [[]|]; try done.
    destruct (bytes_eqb _ kEventMessageType) eqn:E1;
      [|destruct (bytes_eqb _ kExceptionMessageType) eqn:E2; [|done]]; cbn [mbind Outcome_bind].
    all: destruct (FindHeader m _) as [[]|] eqn:Et; try done;
      destruct (FindHeader m kContentTypeHeader) as [[]|] eqn:Ec; try done; intros [= <- <- <- <-];
      repeat match goal with H : bytes_eqb _ _ = true |- _ => apply bytes_eqb_eq in H as -> end;
      cbn [kind_text type_header_of]; auto 6.
  - intros (-> & Ht & Hc & ->). destruct kind; cbn [kind_text type_header_of] in *.
    + change (bytes_eqb kEventMessageType kEventMessageType) with true. cbn [mbind Outcome_bind].
      rewrite Ht. by destruct Hc as [-> | [-> ->]].
    + change (bytes_eqb kExceptionMessageType kEventMessageType) with false.
      change (bytes_eqb kExceptionMessageType kExceptionMessageType) with true. cbn [mbind Outcome_bind].
      rewrite Ht. by destruct Hc as [-> | [-> ->]].
Qed.

(** ** Plain documents *)

Lemma plain_map m :
  plain (Map_ m) <->
  len m < 2 ^ 64 /\ sm_ok m /\ Forall (fun e => len (fst e) < 2 ^ 64 /\ utf8 (fst e) /\ plain (snd e)) m.
Proof.
  unfold plain. rewrite doc_ok_map. cbn [jsonified utf8_doc]. split.
  - intros ((Hl & Hs & Hok) & Hj & Hu). split; [done|]. split; [done|]. injection Hj as Hj. clear Hl Hs.
    induction m as [|[k d] m IH]; [done|]. inversion Hok; subst. cbn [map fst snd] in *.
    injection Hj as Hd Hm. destruct Hu as (? & ? & ?). constructor; [naive_solver|auto].
  - intros (Hl & Hs & Hall). split; [|split].
    + split; [done|]. split; [done|]. eapply Forall_impl; [exact Hall|]. naive_solver.
    + f_equal. clear Hl Hs. induction Hall as [|[k d] m (_ & _ & _ & Hj & _) _ IH]; [done|].
      cbn [map fst snd] in *. by rewrite Hj, IH.
    + clear Hl Hs. induction Hall as [|[k d] m (_ & ? & _ & _ & ?) _ IH]; [done|]. cbn [fst snd] in *. auto.
Qed.

Lemma plain_string t : utf8 t -> len t < 2 ^ 64 -> plain (String_ t).
Proof. done. Qed.

Lemma utf8_ascii s : forallb (fun c => b2z c <? 128) s = true -> utf8 s.
Proof.
  intros H. exists (map b2z s). apply forallb_Forall in H. split.
  - apply Forall_map. eapply Forall_impl; [exact H|]. intros c Hc. left. pose proof (b2z_range c). simpl in Hc. lia.
  - unfold utf8_text. induction H as [|c s Hc _ IH]; [done|]. cbn [map fmap list_fmap mjoin list_join].
    rewrite IH at 1. unfold utf8_encode at 2. replace (b2z c <? 128) with true by done. by rewrite z2b_b2z.
Qed.

Lemma plain_int z : - 2 ^ 63 <= z < 2 ^ 63 -> plain (Int z).
Proof. done. Qed.

Lemma utf8_doc_map m : utf8_doc (Map_ m) <-> Forall (fun e => utf8 (fst e) /\ utf8_doc (snd e)) m.
Proof.
  cbn [utf8_doc]. induction m as [|[k d] m IH]; [done|]. rewrite Forall_cons, <- IH. simpl. tauto.
Qed.

(** ** json/json.cc is such a codec *)

(** The values of [nlohmann::json]. *)
Fixpoint backend_ok (v : Backend) : Prop :=
  match v with
  | JInteger z => - 2 ^ 63 <= z < 2 ^ 63
  | JUnsigned z => 0 <= z < 2 ^ 64
  | JFloat bits => 0 <= bits < 2 ^ 64
  | JString t => utf8 t /\ len t < 2 ^ 64
  | JArray l =>
    len l < 2 ^ 64 /\ (fix all l := match l with [] => True | v :: l => backend_ok v /\ all l end) l
  | JObject m =>
    len m < 2 ^ 64 /\ sm_ok m
    /\ (fix all m := match m with
                     | [] => True
                     | (k, v) :: m => utf8 k /\ len k < 2 ^ 64 /\ backend_ok v /\ all m
                     end) m
  | _ => True
  end.

Lemma Backend_ind' (P : Backend -> Prop) :
  P JNull -> (forall b, P (JBoolean b)) -> (forall z, P (JInteger z)) -> (forall z, P (JUnsigned z)) ->
  (forall b, P (JFloat b)) -> (forall t, P (JString t)) -> (forall d, P (JBinary d)) ->
  (forall l, Forall P l -> P (JArray l)) -> (forall m, Forall (fun e => P (snd e)) m -> P (JObject m)) ->
  forall v, P v.
Proof.
  intros H1 H2 H3 H4 H5 H6 H7 H8 H9. fix IH 1.
  intros [ |b|z|z|b|t|d|l|m];
    [exact H1|apply H2|apply H3|apply H4|apply H5|apply H6|apply H7|apply H8|apply H9].
  - induction l as [|d l IHl]; constructor; [apply IH|exact IHl].
  - induction m as [|[k d] m IHm]; constructor; [apply IH|exact IHm].
Qed.

Lemma sm_insert_length {V} k (v : V) m : len (sm_insert k v m) <= len m + 1.
Proof.
  induction m as [|[k0 v0] m IH]; [done|]. cbn [sm_insert].
  destruct (bcmp k k0); rewrite ?len_cons in *; lia.
Qed.

(** What the library can hold is translated into what a [Document] can. *)
Lemma FromBackend_ok v : backend_ok v -> forall d, FromBackend v = Ok d -> doc_ok d /\ utf8_doc d.
Proof.
  induction v as [|b|z|z|b|t|x|l IH|m IH] using Backend_ind'; intros Hv d Hd; cbn [FromBackend] in Hd.
  - by injection Hd as <-.
  - by injection Hd as <-.
  - by injection Hd as <-.
  - destruct (Z.gtb_spec z kMaxInt64); [done|]. injection Hd as <-. cbn [backend_ok] in Hv.
    split; [|done]. cbn [doc_ok]. unfold kMaxInt64 in *. lia.
  - by injection Hd as <-.
  - injection Hd as <-. by destruct Hv.
  - done.
  - destruct Hv as [Hl Hall]. apply bind_Ok in Hd as (docs & Hdocs & Hd). injection Hd as <-.
    assert (H : len docs = len l /\ Forall doc_ok docs /\ utf8_doc (List_ docs)).
    { clear Hl. revert docs Hdocs. induction IH as [|v l Hvi _ IHl]; intros docs Hdocs; [by injection Hdocs as <-|].
      destruct Hall as [Hv Hall]. apply bind_Ok in Hdocs as (d & Hd & Hr).
      apply bind_Ok in Hr as (ds & Hds & Hr). injection Hr as <-.
      destruct (Hvi Hv d Hd) as [Ho Hu]. destruct (IHl Hall ds Hds) as (El & Hos & Hus).
      rewrite !len_cons, El. split; [done|]. split; [by constructor|done]. }
    destruct H as (El & Hos & Hus). split; [|done]. apply doc_ok_list. by rewrite El.
  - destruct Hv as (Hl & _ & Hall).
    assert (H : forall acc, sm_ok acc -> Forall (fun e => len (fst e) < 2 ^ 64 /\ doc_ok (snd e)) acc ->
      utf8_doc (Map_ acc) -> len acc + len m < 2 ^ 64 ->
      (fix entries_loop (entries : list (bytes * Backend)) (map : list (bytes * Document)) : Outcome Document :=
         match entries with
         | [] => Ok (Map_ map)
         | (key, item) :: entries => converted ← FromBackend item; entries_loop entries (sm_insert key converted map)
         end) m acc = Ok d -> doc_ok d /\ utf8_doc d).
    2:{ apply (H []); done. }
    clear Hd Hl. induction IH as [|[k v] m Hvi _ IHm]; intros acc Hs Ho Hu Hlen Hd.
    + injection Hd as <-. split; [|done]. apply doc_ok_map. split; [|done]. rewrite Z.add_0_r in Hlen. done.
    + destruct Hall as (Hk & Hkl & Hv & Hall). apply bind_Ok in Hd as (d0 & Hd0 & Hd). cbn [snd] in Hvi.
      destruct (Hvi Hv d0 Hd0) as [Ho0 Hu0]. pose proof (sm_insert_length k d0 acc) as Hil.
      rewrite len_cons in Hlen. apply (IHm Hall (sm_insert k d0 acc)); [by apply sm_insert_ok| | |lia|done].
      * apply sm_insert_Forall; [done|]. done.
      * apply utf8_doc_map, sm_insert_Forall; [done|]. by apply utf8_doc_map.
Qed.

(** The codec, given what the library documents: it reads back its own text,
    which is a JSON text of the tree's nesting, and holds UTF-8 and 64-bit
    integers only. *)
#[export] Instance json_codec `{JsonLib} : JsonCodec := {|
  encode := Json.Encode; decode := Json.Decode; max_levels := 512
|}.

Lemma json_codec_laws `{JsonLib} :
  (forall d, plain d -> parse (dump (ToBackend d)) = Some (reread (ToBackend d))) ->
  (forall d, plain d -> json_text (levels d) (dump (ToBackend d))) ->
  (forall text v, parse text = Some v -> backend_ok v) ->
  JsonCodecLaws.
Proof.
  intros Hread Htext Hok. split.
  - intros d Hp Hl _. cbn [encode decode max_levels json_codec] in *.
    rewrite (decode_encoded d (proj1 Hp) (Hread d Hp) (Htext d Hp)).
    destruct (Nat.ltb_spec 512 (levels d)); [lia|]. by destruct Hp as (_ & -> & _).
  - intros text d Hd. cbn [decode json_codec] in Hd. unfold Json.Decode in Hd.
    destruct (ExceedsMaxDepth text); [done|]. destruct (parse text) as [v|] eqn:Ev; [|done].
    by eapply FromBackend_ok; [eapply Hok|].
Qed.
