(* ===== verification/StreamFrames.v ===== *)
(** eventstream/json_frame.cc and jsonrpc_frame.cc: event-stream messages as
    JSON text frames and as JSON-RPC 2.0 envelopes, over the codec interface of
    Envelope.v. *)
From Stdlib Require Import ZArith Lia Strings.Byte.
From Stdlib Require Import Floats.SpecFloat.
From S2P Require Import Prelude Bytes Utf8 OrdMap Timestamp Headers Cbor Json Envelope.
From S2P Require Frame.
Import Frame(Message, msg_headers, msg_payload, kMaxMessageBytes).

Local Open Scope Z_scope.

Definition too_big : bytes := lit "message over the 16 MiB limit".

Section Frames.
Context `{JsonCodec}.

(** ** JSON text frames *)

Definition frame_cannot (what : bytes) : Error :=
  Error_Validation (lit "eventstream json frame: " ++ what).
Definition frame_malformed (what : bytes) : Error :=
  Error_Serialization (lit "eventstream json frame: " ++ what).

(** The checks the two encoders share: the envelope and its payload document. *)
Definition representable (cannot : bytes -> Error) (message : Message) (envelope : EventEnvelope)
    : Outcome Document :=
  if negb (len (msg_headers message) =? match en_content_type envelope with [] => 2 | _ => 3 end) then
    Err (cannot (lit "message carries headers beyond the envelope's own"))
  else if negb (bytes_eqb (en_content_type envelope) [])
          && negb (bytes_eqb (MediaType (en_content_type envelope)) kJsonContentType) then
    Err (cannot (lit "content type is not application/json: " ++ en_content_type envelope))
  else
    match decode (msg_payload message) with
    | Ok (Map_ payload) => Ok (Map_ payload)
    | _ => Err (cannot (lit "payload is not a JSON object"))
    end.

Definition EncodeJsonFrame (message : Message) : Outcome bytes :=
  match ParseEnvelope message with
  | Err e => Err (frame_cannot (err_message e))
  | Ok envelope =>
    payload ← representable frame_cannot message envelope;
    let text := encode (object
      [(match en_kind envelope with kEvent => kEventMember | kException => kExceptionMember end,
        String_ (en_type envelope)); (kPayloadMember, payload)]) in
    if len text >? kMaxMessageBytes then Err (frame_cannot too_big) else Ok text
  end.

Definition DecodeJsonFrame (text : bytes) : Outcome Message :=
  if len text >? kMaxMessageBytes then Err (frame_malformed too_big)
  else
    match decode text with
    | Err e => Err (frame_malformed (lit "text frame is not JSON: " ++ err_message e))
    | Ok envelope =>
      match envelope with
      | Map_ members =>
        match unknown_member [kEventMember; kExceptionMember; kPayloadMember] members with
        | Some name => Err (frame_malformed (lit "unknown envelope member: " ++ name))
        | None =>
          let typed name type make :=
            match type with
            | String_ ((_ :: _) as type) =>
              match Find envelope kPayloadMember with
              | None => Err (frame_malformed (quoted_lit "envelope is missing 'payload'"))
              | Some (Map_ payload) => Ok (make type kJsonContentType (encode (Map_ payload)))
              | Some _ => Err (frame_malformed (quoted_lit "'payload' is not a JSON object"))
              end
            | _ => Err (frame_malformed (name ++ lit " is not a non-empty string"))
            end in
          match Find envelope kEventMember, Find envelope kExceptionMember with
          | Some _, Some _ => Err (frame_malformed (quoted_lit "envelope carries both 'event' and 'exception'"))
          | None, None => Err (frame_malformed (quoted_lit "envelope carries neither 'event' nor 'exception'"))
          | Some type, None => typed kEventMember type MakeEventMessage
          | None, Some type => typed kExceptionMember type MakeExceptionMessage
          end
        end
      | _ => Err (frame_malformed (lit "envelope is not a JSON object"))
      end
    end.

(** ** JSON-RPC envelopes *)

Definition rpc_cannot (what : bytes) : Error := Error_Validation (lit "jsonrpc stream: " ++ what).

(** [JsonRpcStreamFrame], one constructor per [Kind] with the fields it uses. *)
Inductive StreamFrame :=
| FrameEvent (message : Message)
| FrameException (message : Message)
| FrameResult (result : Document)
| FrameViolation (code : Z) (reason : bytes).

Definition Violation (reason : bytes) : StreamFrame := FrameViolation kInvalidRequestCode reason.

Definition DecodeNotification (envelope id : Document) : StreamFrame :=
  match Find envelope kMethodMember with
  | Some (String_ ((_ :: _) as method)) =>
    match Find envelope kParamsMember with
    | Some (Map_ members as params) =>
      match unknown_member [kIdMember; kPayloadMember] members with
      | Some name => Violation (lit "unknown notification params member: " ++ name)
      | None =>
        match Find params kIdMember with
        | None => Violation (quoted_lit "notification params carry no 'id' echo")
        | Some echoed =>
          if negb (doc_eqb echoed id) then
            Violation (lit "notification for a different call's id (one stream per socket)")
          else
            match Find params kPayloadMember with
            | Some (Map_ payload) =>
              FrameEvent (MakeEventMessage method kJsonContentType (encode (Map_ payload)))
            | _ => Violation (quoted_lit "notification 'payload' is missing or not a JSON object")
            end
        end
      end
    | _ => Violation (quoted_lit "notification 'params' is missing or not a JSON object")
    end
  | _ => Violation (quoted_lit "'method' is not a non-empty string")
  end.

(** The terminal error's message, from its checked members. *)
Definition exception_of (message : option bytes) (data : option (list (bytes * Document))) : StreamFrame :=
  let payload := default [] data in
  let payload := match message with
                 | Some ((_ :: _) as text) => sm_emplace kMessageMember (String_ text) payload
                 | _ => payload
                 end in
  let type := match data with
              | Some data => match sm_lookup kTypeMember data with
                             | Some (String_ ((_ :: _) as type)) => type
                             | _ => kFallbackExceptionType
                             end
              | None => kFallbackExceptionType
              end in
  FrameException (MakeExceptionMessage type kJsonContentType (encode (Map_ payload))).

Definition DecodeResponse (envelope id : Document) : StreamFrame :=
  match Find envelope kIdMember with
  | None => Violation (quoted_lit "response envelope carries no 'id'")
  | Some echoed =>
    if negb (doc_eqb echoed id) then
      Violation (lit "response for a different call's id (one stream per socket)")
    else
      match Find envelope kResultMember, Find envelope kErrorMember with
      | Some _, Some _ => Violation (quoted_lit "response carries both 'result' and 'error'")
      | None, None => Violation (lit "envelope is neither a notification nor a response")
      | Some result, None => FrameResult result
      | None, Some (Map_ members as error) =>
        match unknown_member [kCodeMember; kMessageMember; kDataMember] members with
        | Some name => Violation (lit "unknown error member: " ++ name)
        | None =>
          match Find error kCodeMember with
          | Some (Int _) =>
            match Find error kMessageMember with
            | (None | Some (String_ _)) as message =>
              match Find error kDataMember with
              | (None | Some (Map_ _)) as data =>
                exception_of (match message with Some (String_ m) => Some m | _ => None end)
                  (match data with Some (Map_ d) => Some d | _ => None end)
              | _ => Violation (quoted_lit "error 'data' is not a JSON object")
              end
            | _ => Violation (quoted_lit "error 'message' is not a string")
            end
          | _ => Violation (quoted_lit "error 'code' is missing or not an integer")
          end
        end
      | None, Some _ => Violation (quoted_lit "'error' is not a JSON object")
      end
  end.

Definition EncodeJsonRpcNotification (message : Message) (id : Document) : Outcome bytes :=
  match ParseEnvelope message with
  | Err e => Err (rpc_cannot (err_message e))
  | Ok envelope =>
    match en_kind envelope with
    | kException =>
      Err (rpc_cannot (lit "exceptions do not ride notifications: the terminal error envelope is the generated serve path's business (ADR-0023)"))
    | kEvent =>
      payload ← representable rpc_cannot message envelope;
      let params := object [(kIdMember, id); (kPayloadMember, payload)] in
      let text := encode (object
        [(kVersionMember, String_ kVersionValue); (kMethodMember, String_ (en_type envelope));
         (kParamsMember, params)]) in
      if len text >? kMaxMessageBytes then Err (rpc_cannot too_big) else Ok text
    end
  end.

Definition DecodeJsonRpcStreamFrame (text : bytes) (id : Document) : StreamFrame :=
  if len text >? kMaxMessageBytes then Violation too_big
  else
    match decode text with
    | Err _ => FrameViolation kParseErrorCode (lit "text frame is not JSON")
    | Ok envelope =>
      match envelope with
      | Map_ members =>
        match unknown_member [kVersionMember; kMethodMember; kParamsMember; kIdMember; kResultMember;
                              kErrorMember] members with
        | Some name => Violation (lit "unknown envelope member: " ++ name)
        | None =>
          let versioned := match Find envelope kVersionMember with
                           | Some (String_ version) => bytes_eqb version kVersionValue
                           | _ => false
                           end in
          if negb versioned then Violation (quoted_lit "expected jsonrpc: '2.0'")
          else
            match Find envelope kMethodMember with
            | Some _ =>
              match Find envelope kIdMember, Find envelope kResultMember, Find envelope kErrorMember with
              | Some _, _, _ => Violation (lit "a request envelope after the opening call")
              | None, None, None => DecodeNotification envelope id
              | None, _, _ => Violation (lit "envelope mixes a notification with a response")
              end
            | None => DecodeResponse envelope id
            end
        end
      | _ => Violation (lit "envelope is not a JSON object")
      end
    end.

Definition EncodeJsonRpcViolationResponse (code : Z) (reason : bytes) (id : Document) : bytes :=
  let data := object [(kTypeMember, String_ kViolationExceptionType)] in
  let error := object [(kCodeMember, Int code); (kDataMember, data); (kMessageMember, String_ reason)] in
  encode (object [(kVersionMember, String_ kVersionValue); (kErrorMember, error); (kIdMember, id)]).

End Frames.

(** ** Members of an envelope *)

Lemma unknown_member_None known m : unknown_member known m = None <-> Forall (fun e => fst e ∈ known) m.
Proof.
  unfold unknown_member. rewrite fmap_None. induction m as [|e m IH]; cbn [find]; [done|].
  rewrite Forall_cons, <- IH.
  assert (Hb : existsb (bytes_eqb (fst e)) known = true <-> fst e ∈ known).
  { rewrite existsb_exists. split.
    - intros (k & Hk & E). apply bytes_eqb_eq in E as ->. by apply list_elem_of_In.
    - intros Hk. exists (fst e). split; [by apply list_elem_of_In|by apply bytes_eqb_eq]. }
  destruct (existsb _ _) eqn:E; cbn [negb].
  - split; [intros Hf; split; [by apply Hb|done]|by intros [_ ?]].
  - split; [done|]. intros [Hk _]. apply Hb in Hk. congruence.
Qed.

(** A decoded object with known members, laid out in key order. *)
Lemma known_members known m :
  increasing known -> sm_ok m -> unknown_member known m = None ->
  m = omap (fun k => pair k <$> sm_lookup k m) known.
Proof. intros Hk Hok Hu. apply sm_members; [done|done|by apply unknown_member_None]. Qed.

Definition member_of (k : EnvelopeKind) : bytes :=
  match k with kEvent => kEventMember | kException => kExceptionMember end.

(** The JSON frame of an event or exception whose payload is the object [p]. *)
Definition frame_document (k : EnvelopeKind) (type : bytes) (p : list (bytes * Document)) : Document :=
  Map_ [(member_of k, String_ type); (kPayloadMember, Map_ p)].

(** The JSON-RPC notification of an event. *)
Definition notification_document (id : Document) (method : bytes) (p : list (bytes * Document)) : Document :=
  Map_ [(kVersionMember, String_ kVersionValue); (kMethodMember, String_ method);
        (kParamsMember, Map_ [(kIdMember, id); (kPayloadMember, Map_ p)])].

(** Plainness member by member. *)
Ltac plain_members :=
  apply plain_map; split; [done|]; split; [by vm_compute; auto 12|];
  repeat (apply Forall_cons_2; [split; [done|split; [by apply utf8_ascii|]]|]); try apply Forall_nil_2;
  cbn [snd].

Section Wires.
Context `{JsonCodecLaws}.

(** The message either wire carries. *)
Definition wire_message (k : EnvelopeKind) (type : bytes) (p : list (bytes * Document)) : Message :=
  message_of (mkEnvelope k type kJsonContentType (encode (Map_ p))).

Lemma representable_wire cannot k type p :
  plain (Map_ p) -> (levels (Map_ p) <= max_levels)%nat -> len (encode (Map_ p)) < 2 ^ 63 ->
  representable cannot (wire_message k type p) (mkEnvelope k type kJsonContentType (encode (Map_ p)))
  = Ok (Map_ p).
Proof.
  intros Hp Hl Hs. unfold representable, wire_message. cbn [en_content_type en_payload].
  replace (negb (len (msg_headers _) =? _)) with false by (by destruct k).
  change (bytes_eqb (MediaType kJsonContentType) kJsonContentType) with true. cbn [negb andb].
  rewrite andb_false_r.
  replace (msg_payload _) with (encode (Map_ p)) by (by destruct k).
  by rewrite decode_encode.
Qed.

Lemma EncodeJsonFrame_wire k type p :
  plain (Map_ p) -> (levels (Map_ p) <= max_levels)%nat -> len (encode (Map_ p)) < 2 ^ 63 ->
  EncodeJsonFrame (wire_message k type p)
  = let text := encode (frame_document k type p) in
    if len text >? kMaxMessageBytes then Err (frame_cannot too_big) else Ok text.
Proof.
  intros Hp Hl Hs. unfold EncodeJsonFrame, wire_message. rewrite ParseEnvelope_made.
  fold (wire_message k type p). rewrite representable_wire by done. by destruct k.
Qed.

Lemma EncodeJsonRpcNotification_wire type p id :
  plain (Map_ p) -> (levels (Map_ p) <= max_levels)%nat -> len (encode (Map_ p)) < 2 ^ 63 ->
  EncodeJsonRpcNotification (wire_message kEvent type p) id
  = let text := encode (notification_document id type p) in
    if len text >? kMaxMessageBytes then Err (rpc_cannot too_big) else Ok text.
Proof.
  intros Hp Hl Hs. unfold EncodeJsonRpcNotification, wire_message. rewrite ParseEnvelope_made.
  fold (wire_message kEvent type p). cbn [en_kind]. by rewrite representable_wire.
Qed.

(** What [DecodeJsonFrame] accepts. *)
Lemma DecodeJsonFrame_iff text m :
  DecodeJsonFrame text = Ok m
  <-> len text <= kMaxMessageBytes
      /\ exists k type p, decode text = Ok (frame_document k type p) /\ type <> [] /\ m = wire_message k type p.
Proof.
  unfold DecodeJsonFrame. rewrite Z.gtb_ltb. destruct (Z.ltb_spec kMaxMessageBytes (len text)).
  { split; [done|]. intros [? _]. lia. }
  split.
  - intros Hd. split; [done|]. destruct (decode text) as [d|] eqn:Ed; [|done].
    destruct d as [| | | | | | | |members]; try done.
    destruct (decode_ok _ _ Ed) as [Hok _]. apply doc_ok_map in Hok as (_ & Hs & _).
    destruct (unknown_member _ members) eqn:Eu; [done|].
    apply known_members in Eu; [|by vm_compute; auto|done]. cbn [Find] in Hd.
    destruct (sm_lookup kEventMember members) as [ev|] eqn:E1, (sm_lookup kExceptionMember members) as [ex|] eqn:E2;
      try done.
    all: match type of Hd with match ?t with _ => _ end = _ => destruct t as [| | | |type| | | |] eqn:?; try done end;
      destruct type as [|c type]; [done|];
      destruct (sm_lookup kPayloadMember members) as [[| | | | | | | |p]|] eqn:E3; try done;
      injection Hd as <-; cbn [omap list_omap] in Eu; rewrite E1, E2, E3 in Eu; cbn in Eu; subst members.
    + by exists kEvent, (c :: type), p.
    + by exists kException, (c :: type), p.
  - intros (_ & k & type & p & -> & Hne & ->). destruct type as [|c type]; [done|]. by destruct k.
Qed.

Lemma DecodeNotification_iff id method p' members m :
  sm_ok members -> Find (Map_ members) kMethodMember = Some method ->
  Find (Map_ members) kParamsMember = Some p' -> doc_ok p' ->
  DecodeNotification (Map_ members) id = FrameEvent m
  <-> exists type echoed p, method = String_ type /\ type <> []
      /\ p' = Map_ [(kIdMember, echoed); (kPayloadMember, Map_ p)]
      /\ doc_eqb echoed id = true /\ m = wire_message kEvent type p.
Proof.
  intros Hs Hm Hp Hok. unfold DecodeNotification. rewrite Hm, Hp. split.
  - destruct method as [| | | |type| | | |]; try done. destruct type as [|c type]; [done|].
    destruct p' as [| | | | | | | |params]; try done. apply doc_ok_map in Hok as (_ & Hps & _).
    destruct (unknown_member _ params) eqn:Eu; [done|].
    apply known_members in Eu; [|by vm_compute; auto|done]. cbn [Find].
    destruct (sm_lookup kIdMember params) as [echoed|] eqn:E1; [|done].
    destruct (doc_eqb echoed id) eqn:Ee; cbn [negb]; [|done].
    destruct (sm_lookup kPayloadMember params) as [[| | | | | | | |p]|] eqn:E2; try done.
    intros [= <-]. cbn [omap list_omap] in Eu. rewrite E1, E2 in Eu. cbn in Eu. subst params.
    by exists (c :: type), echoed, p.
  - intros (type & echoed & p & -> & Hne & -> & He & ->). destruct type as [|c type]; [done|].
    cbn -[encode]. by rewrite He.
Qed.

(** What [DecodeJsonRpcStreamFrame] takes for an event. *)
Lemma DecodeJsonRpc_event_iff text id m :
  DecodeJsonRpcStreamFrame text id = FrameEvent m
  <-> len text <= kMaxMessageBytes
      /\ exists type echoed p, decode text = Ok (notification_document echoed type p) /\ type <> []
         /\ doc_eqb echoed id = true /\ m = wire_message kEvent type p.
Proof.
  unfold DecodeJsonRpcStreamFrame. rewrite Z.gtb_ltb. destruct (Z.ltb_spec kMaxMessageBytes (len text)).
  { split; [done|]. intros [? _]. lia. }
  split.
  - intros Hd. split; [done|]. destruct (decode text) as [d|] eqn:Ed; [|done].
    destruct d as [| | | | | | | |members]; try done.
    destruct (decode_ok _ _ Ed) as [Hok _]. apply doc_ok_map in Hok as (_ & Hs & Hdocs).
    destruct (unknown_member _ members) eqn:Eu; [done|].
    apply unknown_member_None in Eu.
    assert (Eu' : Forall (fun e => fst e ∈ [kErrorMember; kIdMember; kVersionMember; kMethodMember;
                                            kParamsMember; kResultMember]) members).
    { eapply Forall_impl; [exact Eu|]. intros e. set_solver. }
    apply sm_members in Eu'; [|by vm_compute; auto 12|done]. cbn [Find] in Hd.
    destruct (sm_lookup kVersionMember members) as [[| | | |version| | | |]|] eqn:Ev; try done.
    destruct (bytes_eqb version kVersionValue) eqn:Eb; [|done]. cbn [negb] in Hd.
    apply bytes_eqb_eq in Eb as ->.
    destruct (sm_lookup kMethodMember members) as [method|] eqn:Em.
    + destruct (sm_lookup kIdMember members) eqn:Ei; [done|].
      destruct (sm_lookup kResultMember members) eqn:Er; [done|].
      destruct (sm_lookup kErrorMember members) eqn:Ee; [done|].
      destruct (sm_lookup kParamsMember members) as [params|] eqn:Ep.
      * assert (Hp : doc_ok params).
        { apply sm_lookup_elem in Ep; [|done]. rewrite Forall_forall in Hdocs. by apply Hdocs in Ep as [_ ?]. }
        apply (DecodeNotification_iff id method params members m Hs Em Ep Hp) in Hd
          as (type & echoed & p & -> & Hne & -> & He & ->).
        exists type, echoed, p. split; [|done]. cbn [omap list_omap] in Eu'.
        rewrite Ev, Em, Ei, Er, Ee, Ep in Eu'. cbn in Eu'. by rewrite Eu'.
      * unfold DecodeNotification in Hd. cbn [Find] in Hd. rewrite Em, Ep in Hd.
        destruct method as [| | | |type| | | |]; try done. by destruct type.
    + exfalso. unfold DecodeResponse in Hd. cbn [Find] in Hd.
      repeat match type of Hd with
      | match ?t with _ => _ end = _ => destruct t; try done
      | (if ?t then _ else _) = _ => destruct t; try done
      end.
  - intros (_ & type & echoed & p & -> & Hne & He & ->). destruct type as [|c type]; [done|].
    cbn -[encode]. by rewrite He.
Qed.

(** ** Refusals answered *)

(** The ids of JSON-RPC calls. *)
Definition rpc_id (id : Document) : Prop :=
  (exists z, id = Int z /\ - 2 ^ 63 <= z < 2 ^ 63) \/ (exists s, id = String_ s /\ utf8 s /\ len s < 2 ^ 64).

Lemma rpc_id_facts id : rpc_id id -> plain id /\ levels id = 0%nat /\ doc_eqb id id = true.
Proof.
  intros [(z & -> & Hz)|(s & -> & Hs & Hl)]; split_and!; try done.
  - cbn [doc_eqb]. apply Z.eqb_refl.
  - cbn [doc_eqb]. by apply bytes_eqb_eq.
Qed.

(** The answer's document and what its reader makes of it. *)
Definition violation_document (code : Z) (reason : bytes) (id : Document) : Document :=
  Map_ [(kErrorMember, Map_ [(kCodeMember, Int code);
                             (kDataMember, Map_ [(kTypeMember, String_ kViolationExceptionType)]);
                             (kMessageMember, String_ reason)]);
        (kIdMember, id); (kVersionMember, String_ kVersionValue)].

Definition violation_exception (reason : bytes) : Message :=
  MakeExceptionMessage kViolationExceptionType kJsonContentType
    (encode (Map_ [(kTypeMember, String_ kViolationExceptionType); (kMessageMember, String_ reason)])).

Lemma violation_plain code reason id :
  plain id -> - 2 ^ 31 <= code < 2 ^ 31 -> utf8 reason -> len reason < 2 ^ 64 ->
  plain (violation_document code reason id).
Proof.
  intros Hid Hc Hr Hl. unfold violation_document. plain_members; [|done|by apply plain_string; [apply utf8_ascii|]].
  plain_members; [apply plain_int; lia| |by apply plain_string].
  plain_members. apply plain_string; [by apply utf8_ascii|done].
Qed.

Lemma violation_read code reason id :
  rpc_id id -> - 2 ^ 31 <= code < 2 ^ 31 -> utf8 reason -> reason <> [] -> (3 <= max_levels)%nat ->
  len (EncodeJsonRpcViolationResponse code reason id) <= kMaxMessageBytes -> len reason < 2 ^ 64 ->
  DecodeJsonRpcStreamFrame (EncodeJsonRpcViolationResponse code reason id) id
  = FrameException (violation_exception reason).
Proof.
  intros Hid Hc Hr Hne Hm Hl Hlr. destruct (rpc_id_facts id Hid) as (Hp & Hlev & Heq).
  change (EncodeJsonRpcViolationResponse code reason id) with (encode (violation_document code reason id)) in *.
  unfold DecodeJsonRpcStreamFrame. rewrite Z.gtb_ltb, (proj2 (Z.ltb_ge _ _)) by done.
  assert (kMaxMessageBytes < 2 ^ 63) by done.
  rewrite decode_encode; [|by apply violation_plain| |lia].
  - destruct reason as [|c reason]; [done|]. cbn -[encode doc_eqb]. by rewrite Heq.
  - cbn -[max_levels]. rewrite Hlev. cbn -[max_levels]. lia.
Qed.

Lemma utf8_app a b : utf8 a -> utf8 b -> utf8 (a ++ b).
Proof.
  intros (cs & Hcs & ->) (ds & Hds & ->). exists (cs ++ ds). split; [by apply Forall_app|].
  unfold utf8_text. by rewrite fmap_app, join_app.
Qed.

Lemma Find_utf8 d key d' : utf8_doc d -> Find d key = Some d' -> utf8_doc d'.
Proof.
  destruct d as [| | | | | | | |m]; try done. rewrite utf8_doc_map. cbn [Find].
  induction 1 as [|[k x] m [_ Hx] _ IH]; cbn [sm_lookup]; [done|].
  destruct (bcmp key k); [by intros [= <-]|done|done].
Qed.

Lemma unknown_member_utf8 known m name : utf8_doc (Map_ m) -> unknown_member known m = Some name -> utf8 name.
Proof.
  rewrite utf8_doc_map. unfold unknown_member. intros Hm Hf. apply fmap_Some in Hf as (e & He & ->).
  induction Hm as [|x m [Hx _] _ IH]; cbn [find] in He; [done|].
  destruct (negb _); [by injection He as <-|auto].
Qed.

(** The reasons of the grammar's refusals. *)
Definition good_reason (f : StreamFrame) : Prop :=
  match f with
  | FrameViolation code reason => code = kInvalidRequestCode /\ reason <> [] /\ utf8 reason
  | _ => True
  end.

Lemma good_literal reason : reason <> [] -> forallb (fun c => b2z c <? 128) reason = true ->
  good_reason (Violation reason).
Proof. intros Hne Ha. split; [done|]. split; [done|]. by apply utf8_ascii. Qed.

Lemma good_named prefix name : prefix <> [] -> forallb (fun c => b2z c <? 128) prefix = true -> utf8 name ->
  good_reason (Violation (prefix ++ name)).
Proof.
  intros Hne Ha Hn. split; [done|]. split; [by destruct prefix|]. apply utf8_app; [by apply utf8_ascii|done].
Qed.

Ltac good_leaf := first [exact I | apply good_literal; [discriminate|reflexivity]].

Lemma DecodeNotification_reason envelope id :
  utf8_doc envelope -> good_reason (DecodeNotification envelope id).
Proof.
  intros Hu. unfold DecodeNotification.
  destruct (Find envelope kMethodMember) as [[| | | |[|c method]| | | |]|]; try good_leaf.
  destruct (Find envelope kParamsMember) as [[| | | | | | | |params]|] eqn:Ep; try good_leaf.
  apply Find_utf8 in Ep; [|done]. destruct (unknown_member _ params) eqn:Eu.
  { apply good_named; [discriminate|reflexivity|by eapply unknown_member_utf8]. }
  destruct (Find (Map_ params) kIdMember); [|good_leaf]. destruct (negb _); [good_leaf|].
  destruct (Find (Map_ params) kPayloadMember) as [[| | | | | | | |]|]; good_leaf.
Qed.

Lemma DecodeResponse_reason envelope id : utf8_doc envelope -> good_reason (DecodeResponse envelope id).
Proof.
  intros Hu. unfold DecodeResponse. destruct (Find envelope kIdMember); [|good_leaf].
  destruct (negb _); [good_leaf|].
  destruct (Find envelope kResultMember); [destruct (Find envelope kErrorMember); good_leaf|].
  destruct (Find envelope kErrorMember) as [[| | | | | | | |error]|] eqn:Ee; try good_leaf.
  apply Find_utf8 in Ee; [|done]. destruct (unknown_member _ error) eqn:Eu.
  { apply good_named; [discriminate|reflexivity|by eapply unknown_member_utf8]. }
  destruct (Find (Map_ error) kCodeMember) as [[| | | | | | | |]|]; try good_leaf.
  destruct (Find (Map_ error) kMessageMember) as [[| | | | | | | |]|]; try good_leaf;
    destruct (Find (Map_ error) kDataMember) as [[| | | | | | | |]|]; good_leaf.
Qed.

(** A violation's code says whether the text was JSON; its reason is not empty,
    and UTF-8 since what it quotes of the peer's text is. *)
Lemma violation_reason text id code reason :
  DecodeJsonRpcStreamFrame text id = FrameViolation code reason ->
  (code = kParseErrorCode \/ code = kInvalidRequestCode)
  /\ (code = kParseErrorCode <-> len text <= kMaxMessageBytes /\ is_ok (decode text) = false)
  /\ reason <> [] /\ utf8 reason.
Proof.
  unfold DecodeJsonRpcStreamFrame. rewrite Z.gtb_ltb. destruct (Z.ltb_spec kMaxMessageBytes (len text)).
  { intros [= <- <-]. split; [by right|]. split; [split; [done|intros [? _]; lia]|].
    split; [done|by apply utf8_ascii]. }
  destruct (decode text) as [d|e] eqn:Ed.
  - destruct (decode_ok _ _ Ed) as [_ Hu]. intros Hd.
    assert (Hgood : good_reason (FrameViolation code reason)); [|].
    { rewrite <- Hd. destruct d as [| | | | | | | |members]; try good_leaf.
      destruct (unknown_member _ members) eqn:Eu.
      { apply good_named; [discriminate|reflexivity|by eapply unknown_member_utf8]. }
      destruct (negb _); [good_leaf|].
      destruct (Find (Map_ members) kMethodMember); [|by apply DecodeResponse_reason].
      destruct (Find (Map_ members) kIdMember), (Find (Map_ members) kResultMember),
        (Find (Map_ members) kErrorMember); try good_leaf. by apply DecodeNotification_reason. }
    destruct Hgood as (-> & Hne & Hr). split; [by right|]. split; [|done]. split; [done|by intros [_ ?]].
  - intros [= <- <-]. split; [by left|]. split; [done|]. split; [done|by apply utf8_ascii].
Qed.

Lemma frame_plain k type p :
  utf8 type -> len type < 2 ^ 64 -> plain (Map_ p) -> plain (frame_document k type p).
Proof. intros Hu Hl Hp. unfold frame_document. destruct k; plain_members; first [done|by apply plain_string]. Qed.

Lemma notification_plain id type p :
  utf8 type -> len type < 2 ^ 64 -> plain (Map_ p) -> plain id -> plain (notification_document id type p).
Proof.
  intros Hu Hl Hp Hid. unfold notification_document.
  plain_members; [by apply plain_string; [apply utf8_ascii|]|by apply plain_string|].
  plain_members; done.
Qed.

Lemma frame_levels k type p : levels (frame_document k type p) = (levels (Map_ p) + 1)%nat.
Proof. cbn -[Nat.max]. lia. Qed.

Lemma notification_levels id type p :
  levels id = 0%nat -> levels (notification_document id type p) = (levels (Map_ p) + 2)%nat.
Proof. intros E. cbn -[Nat.max]. rewrite E. lia. Qed.

(** ** Claims *)

(** What the JSON encoder accepts the JSON decoder reads back. *)
Lemma json_wire k type p text :
  type <> [] -> utf8 type -> len type < 2 ^ 64 -> plain (Map_ p) -> len (encode (Map_ p)) < 2 ^ 63 ->
  (levels (Map_ p) + 1 <= max_levels)%nat ->
  EncodeJsonFrame (wire_message k type p) = Ok text -> DecodeJsonFrame text = Ok (wire_message k type p).
Proof.
  intros Hne Hu Hl Hp Hsize Hlevels. rewrite EncodeJsonFrame_wire by (done || lia). cbv zeta.
  assert (kMaxMessageBytes < 2 ^ 63) by done.
  destruct (Z.gtb_spec (len (encode (frame_document k type p))) kMaxMessageBytes); [done|]. intros [= <-].
  apply DecodeJsonFrame_iff. split; [done|]. exists k, type, p. split; [|done].
  apply decode_encode; [by apply frame_plain| |lia]. by rewrite frame_levels; lia.
Qed.

(** Typed events cross both text wires: for every event or exception with
    a type name in UTF-8 and an object payload that JSON expresses (one level
    less deep than the codec takes, two for JSON-RPC), what the JSON encoder
    writes the JSON decoder turns back into the same message, header by header
    and byte by byte, and so do the JSON-RPC encoder and decoder for events of
    a call; the encoders refuse such a message only when its text is over
    16 MiB. *)
Theorem text_wires_roundtrip k type p id
  (Htype : type <> [] /\ utf8 type /\ len type < 2 ^ 64)
  (Hp : plain (Map_ p)) (Hsize : len (encode (Map_ p)) < 2 ^ 63) (Hid : rpc_id id) :
  ((levels (Map_ p) + 1 <= max_levels)%nat ->
   match EncodeJsonFrame (wire_message k type p) with
   | Ok text => DecodeJsonFrame text = Ok (wire_message k type p)
   | Err e => e = frame_cannot too_big /\ len (encode (frame_document k type p)) > kMaxMessageBytes
   end)
  /\ ((levels (Map_ p) + 2 <= max_levels)%nat ->
      match EncodeJsonRpcNotification (wire_message kEvent type p) id with
      | Ok text => DecodeJsonRpcStreamFrame text id = FrameEvent (wire_message kEvent type p)
      | Err e => e = rpc_cannot too_big /\ len (encode (notification_document id type p)) > kMaxMessageBytes
      end).
Proof.
  destruct Htype as (Hne & Hu & Hl). destruct (rpc_id_facts id Hid) as (Hpid & Hlev & Heq).
  assert (kMaxMessageBytes < 2 ^ 63) by done. split; intros Hlevels.
  - rewrite EncodeJsonFrame_wire by (done || lia). cbv zeta.
    destruct (Z.gtb_spec (len (encode (frame_document k type p))) kMaxMessageBytes); [split; [done|lia]|].
    apply DecodeJsonFrame_iff. split; [done|]. exists k, type, p. split; [|done].
    apply decode_encode; [by apply frame_plain| |lia]. by rewrite frame_levels; lia.
  - rewrite EncodeJsonRpcNotification_wire by (done || lia). cbv zeta.
    destruct (Z.gtb_spec (len (encode (notification_document id type p))) kMaxMessageBytes); [split; [done|lia]|].
    apply DecodeJsonRpc_event_iff. split; [done|]. exists type, id, p. split; [|done].
    apply decode_encode; [by apply notification_plain| |lia]. by rewrite notification_levels; lia.
Qed.

(** The text wires are fail-closed: the JSON decoder accepts a text if
    and only if it is at most 16 MiB and its document is exactly an envelope
    {event or exception: non-empty name, payload: object}, and gives that
    message; the JSON-RPC decoder takes a text for an event if and only if its
    document is exactly a 2.0 notification whose params are exactly the opening
    call's id and an object payload. *)
Theorem text_wires_exact text id m :
  (DecodeJsonFrame text = Ok m
   <-> len text <= kMaxMessageBytes
       /\ exists k type p, decode text = Ok (frame_document k type p) /\ type <> []
          /\ m = wire_message k type p)
  /\ (DecodeJsonRpcStreamFrame text id = FrameEvent m
      <-> len text <= kMaxMessageBytes
          /\ exists type echoed p, decode text = Ok (notification_document echoed type p) /\ type <> []
             /\ doc_eqb echoed id = true /\ m = wire_message kEvent type p).
Proof. split; [apply DecodeJsonFrame_iff|apply DecodeJsonRpc_event_iff]. Qed.

(** Every refusal can be answered and is understood: when the JSON-RPC
    decoder classifies a text as a violation, the code is -32700 exactly if the
    text is not JSON and -32600 otherwise, and the reason is non-empty UTF-8
    even where it quotes the peer; the error envelope the server answers with
    is, to the decoder at the other end, the terminal exception
    SerializationException carrying that reason. *)
Theorem violation_answered text id code reason
  (Hid : rpc_id id) (Hlev : (3 <= max_levels)%nat)
  (Hv : DecodeJsonRpcStreamFrame text id = FrameViolation code reason)
  (Hsize : len (EncodeJsonRpcViolationResponse code reason id) <= kMaxMessageBytes)
  (Hreason : len reason < 2 ^ 64) :
  (code = kParseErrorCode \/ code = kInvalidRequestCode)
  /\ (code = kParseErrorCode <-> len text <= kMaxMessageBytes /\ is_ok (decode text) = false)
  /\ reason <> [] /\ utf8 reason
  /\ DecodeJsonRpcStreamFrame (EncodeJsonRpcViolationResponse code reason id) id
     = FrameException (violation_exception reason).
Proof.
  destruct (violation_reason _ _ _ _ Hv) as (Hc & Hp & Hne & Hu).
  split; [done|]. split; [done|]. split; [done|]. split; [done|].
  apply violation_read; try done. destruct Hc as [-> | ->]; by vm_compute.
Qed.

End Wires.

(** ** Two edges *)

(** A payload at the codec's own limit passes the encoder, which adds a level;
    the text it emits is then refused by every decoder. *)
Lemma deepest_payload_refused `{JsonLib} k type p :
  levels (Map_ p) = 512%nat -> plain (Map_ p) ->
  Json.Decode (Json.Encode (Map_ p)) = Ok (Map_ p) ->
  len (Json.Encode (frame_document k type p)) <= kMaxMessageBytes ->
  json_text 513 (Json.Encode (frame_document k type p)) ->
  exists text, EncodeJsonFrame (wire_message k type p) = Ok text /\ is_ok (DecodeJsonFrame text) = false.
Proof.
  intros Hl Hp Hd Hs Ht. exists (Json.Encode (frame_document k type p)). split.
  - unfold EncodeJsonFrame, wire_message. rewrite ParseEnvelope_made.
    assert (E : representable frame_cannot (wire_message k type p)
                  (mkEnvelope k type kJsonContentType (encode (Map_ p))) = Ok (Map_ p)).
    { unfold representable, wire_message. cbn [en_content_type en_payload].
      replace (negb (len (msg_headers _) =? _)) with false by (by destruct k).
      change (bytes_eqb (MediaType kJsonContentType) kJsonContentType) with true. cbn [negb andb].
      rewrite andb_false_r. replace (msg_payload _) with (encode (Map_ p)) by (by destruct k).
      change (decode (encode (Map_ p))) with (Json.Decode (Json.Encode (Map_ p))). by rewrite Hd. }
    fold (wire_message k type p). rewrite E. cbn [mbind Outcome_bind].
    change (encode (object _)) with (Json.Encode (object
      [(match k with kEvent => kEventMember | kException => kExceptionMember end, String_ type);
       (kPayloadMember, Map_ p)])).
    replace (object _) with (frame_document k type p) by (by destruct k).
    by rewrite Z.gtb_ltb, (proj2 (Z.ltb_ge _ _)) by done.
  - unfold DecodeJsonFrame. rewrite Z.gtb_ltb, (proj2 (Z.ltb_ge _ _)) by done.
    change (decode (Json.Encode (frame_document k type p))) with (Json.Decode (Json.Encode (frame_document k type p))).
    assert (E : ExceedsMaxDepth (Json.Encode (frame_document k type p)) = true).
    { unfold ExceedsMaxDepth. pose proof (scan_text _ _ Ht 0 [] ltac:(unfold kMaxNestingDepth; lia)) as E.
      by rewrite app_nil_r in E. }
    unfold Json.Decode. by rewrite E.
Qed.

(** A response that also carries params, which no response shape has, is taken
    for the clean end of the stream. *)
Lemma response_with_params_accepted `{JsonCodec} text id params result :
  len text <= kMaxMessageBytes -> rpc_id id ->
  decode text = Ok (Map_ [(kIdMember, id); (kVersionMember, String_ kVersionValue); (kParamsMember, params);
                          (kResultMember, result)]) ->
  DecodeJsonRpcStreamFrame text id = FrameResult result.
Proof.
  intros Hs Hid Hd. destruct (rpc_id_facts id Hid) as (_ & _ & Heq). unfold DecodeJsonRpcStreamFrame.
  rewrite Z.gtb_ltb, (proj2 (Z.ltb_ge _ _)) by done. rewrite Hd. cbn -[doc_eqb]. by rewrite Heq.
Qed.

(** ** A concrete codec for the witnesses: CBOR, strings checked for UTF-8 *)

Fixpoint utf8_docb (d : Document) : bool :=
  match d with
  | String_ t => well_formed_loop (length t) t
  | List_ l => forallb utf8_docb l
  | Map_ m => forallb (fun e => well_formed_loop (length (fst e)) (fst e) && utf8_docb (snd e)) m
  | _ => true
  end.

Lemma utf8_docb_iff d : utf8_docb d = true <-> utf8_doc d.
Proof.
  induction d as [|b|z|bits|t|t|ms f|l IH|m IH] using Document_ind'; try done.
  - apply well_formed_utf8.
  - cbn [utf8_docb utf8_doc]. induction IH as [|d l Hd _ IHl]; [done|]. cbn [forallb].
    by rewrite andb_true_iff, Hd, IHl.
  - rewrite utf8_doc_map. cbn [utf8_docb]. induction IH as [|[k d] m Hd _ IHm]; [done|]. cbn [forallb fst snd] in *.
    by rewrite !andb_true_iff, well_formed_utf8, Hd, IHm, Forall_cons.
Qed.

Lemma plain_nesting d : jsonified d = d -> canon d = d /\ (nesting d <= S (levels d))%nat.
Proof.
  assert (Hmax : forall (f g : Document -> nat) l, Forall (fun d => (f d <= S (g d))%nat) l ->
                   (list_max (map f l) <= S (list_max (map g l)))%nat).
  { intros f g l. induction 1; simpl; lia. }
  induction d as [|b|z|bits|t|t|ms f|l IH|m IH] using Document_ind'; intros Hj;
    try (split; [done|simpl; lia]).
  - exfalso. cbn [jsonified] in Hj. destruct f; [|done|done]. by destruct (SFeqb _ _).
  - cbn [jsonified canon nesting levels] in *. injection Hj as Hj.
    assert (H : Forall (fun d => canon d = d /\ (nesting d <= S (levels d))%nat) l).
    { clear Hmax. induction IH as [|d l Hd _ IHl]; [done|]. cbn [map] in Hj. injection Hj as H1 H2.
      constructor; auto. }
    split.
    + f_equal. rewrite <- (map_id l) at 2. apply map_ext_Forall. eapply Forall_impl; [exact H|]. by intros ? [? _].
    + specialize (Hmax nesting levels l). enough (list_max (map nesting l) <= S (list_max (map levels l)))%nat by lia.
      apply Hmax. eapply Forall_impl; [exact H|]. by intros ? [_ ?].
  - cbn [jsonified canon nesting levels] in *. injection Hj as Hj.
    assert (H : Forall (fun e => canon (snd e) = snd e /\ (nesting (snd e) <= S (levels (snd e)))%nat) m).
    { clear Hmax. induction IH as [|[k d] m Hd _ IHm]; [done|]. cbn [map fst snd] in *. injection Hj as H1 H2.
      constructor; auto. }
    split.
    + f_equal. rewrite <- (map_id m) at 2. apply map_ext_Forall. eapply Forall_impl; [exact H|].
      intros [k d] [E _]. cbn [fst snd] in *. by rewrite E.
    + assert (list_max (map (fun e => nesting (snd e)) m) <= S (list_max (map (fun e => levels (snd e)) m)))%nat.
      { clear -H. induction H as [|e m [_ He] _ IH]; simpl; lia. }
      destruct m; simpl in *; lia.
Qed.

Definition checked_decode (text : bytes) : Outcome Document :=
  if len text <? 2 ^ 64 then
    d ← Cbor.Decode text;
    if utf8_docb d then Ok d else Err (Error_Serialization (lit "not UTF-8"))
  else Err (Error_Serialization (lit "too long")).

Lemma Cbor_Decode_plain d : doc_ok d -> jsonified d = d -> (levels d <= 63)%nat -> Cbor.Decode (Cbor.Encode d) = Ok d.
Proof.
  intros Hok Hj Hl. destruct (plain_nesting d Hj) as [Hc Hn]. unfold Cbor.Decode, Cbor.Encode.
  rewrite <- (app_nil_r (EncodeValue d)), document_decodes, Hc by (done || (unfold kMaxDepth; lia)). done.
Qed.

Lemma checked_decode_plain d :
  plain d -> (levels d <= 63)%nat -> len (Cbor.Encode d) < 2 ^ 63 -> checked_decode (Cbor.Encode d) = Ok d.
Proof.
  intros (Hok & Hj & Hu) Hl Hs. unfold checked_decode. rewrite (proj2 (Z.ltb_lt _ _)) by lia.
  rewrite Cbor_Decode_plain by done. cbn [mbind Outcome_bind]. by rewrite (proj2 (utf8_docb_iff d) Hu).
Qed.

Lemma checked_decode_ok text d : checked_decode text = Ok d -> doc_ok d /\ utf8_doc d.
Proof.
  unfold checked_decode. destruct (Z.ltb_spec (len text) (2 ^ 64)) as [Hl|]; [|done].
  intros (d' & Hd & Hr)%bind_Ok. destruct (utf8_docb d') eqn:Eu; [|done]. injection Hr as <-.
  split; [|by apply utf8_docb_iff]. revert Hd. unfold Cbor.Decode.
  intros ([d1 s] & Hd1 & Hs)%bind_Ok. pose proof (DecodeValue_reads kMaxDepth text Hl) as Hr.
  rewrite Hd1 in Hr. destruct s; [|done]. injection Hs as <-. by apply Hr.
Qed.

Definition checked_cbor : JsonCodec := {|
  encode := Cbor.Encode; decode := checked_decode; max_levels := 63
|}.

Lemma checked_cbor_laws : @JsonCodecLaws checked_cbor.
Proof. exact (Build_JsonCodecLaws checked_cbor checked_decode_plain checked_decode_ok). Qed.

Definition chat_payload : list (bytes * Document) := [(lit "text", String_ (lit "hi"))].

Lemma chat_payload_plain : plain (Map_ chat_payload).
Proof. unfold chat_payload. plain_members. apply plain_string; [by apply utf8_ascii|done]. Qed.

Lemma text_wires_roundtrip_witness :
  let encode_json := @EncodeJsonFrame checked_cbor in
  let decode_json := @DecodeJsonFrame checked_cbor in
  let m := @wire_message checked_cbor kEvent (lit "message") chat_payload in
  match encode_json m with Ok text => decode_json text = Ok m | Err _ => False end.
Proof.
  pose proof (proj1 (@text_wires_roundtrip checked_cbor checked_cbor_laws kEvent (lit "message") chat_payload
    (Int 1) ltac:(split; [discriminate|split; [by apply utf8_ascii|done]]) chat_payload_plain
    ltac:(by vm_compute) ltac:(left; exists 1; split; [done|lia]))) as H.
  specialize (H ltac:(vm_compute; lia)). cbv zeta.
  destruct (EncodeJsonFrame _) as [text|e]; [exact H|]. exfalso. destruct H as [_ H]. by vm_compute in H.
Defined.

Lemma text_wires_exact_witness :
  @DecodeJsonFrame checked_cbor
    (Cbor.Encode (Map_ [(lit "event", String_ (lit "message")); (lit "payload", Map_ chat_payload)]))
  = Ok (@wire_message checked_cbor kEvent (lit "message") chat_payload).
Proof.
  apply (proj1 (@text_wires_exact checked_cbor checked_cbor_laws _ (Int 1) _)). split; [by vm_compute|].
  exists kEvent, (lit "message"), chat_payload. split; [by vm_compute|]. split; [discriminate|done].
Defined.

Lemma violation_answered_witness :
  @DecodeJsonRpcStreamFrame checked_cbor
    (@EncodeJsonRpcViolationResponse checked_cbor kParseErrorCode (lit "text frame is not JSON") (Int 7)) (Int 7)
  = FrameException (@violation_exception checked_cbor (lit "text frame is not JSON")).
Proof.
  refine (proj2 (proj2 (proj2 (proj2 (@violation_answered checked_cbor checked_cbor_laws [] (Int 7)
    kParseErrorCode (lit "text frame is not JSON") _ _ _ _ _))))).
  - left. exists 7. split; [done|lia].
  - cbn. lia.
  - by vm_compute.
  - by vm_compute.
  - by vm_compute.
Defined.
