(* ===== verification/StreamGrammar.v ===== *)
(** The grammar of the JSON-RPC event-stream wire, as eventstream/jsonrpc_frame.h
    describes it, and that the decoder of StreamFrames.v reads exactly it. *)
From Stdlib Require Import ZArith Lia Strings.Byte.
From S2P Require Import Prelude Bytes Utf8 OrdMap Timestamp Headers Cbor Json Envelope StreamFrames.
From S2P Require Frame.
Import Frame(Message, msg_headers, msg_payload, kMaxMessageBytes).
Local Open Scope Z_scope.

(** A response envelope; [params], which no response has, is let through. *)
Definition response_document (error : option Document) (echoed : Document) (params result : option Document) : Document :=
  Map_ (option_list (pair kErrorMember <$> error) ++ [(kIdMember, echoed); (kVersionMember, String_ kVersionValue)]
        ++ option_list (pair kParamsMember <$> params) ++ option_list (pair kResultMember <$> result)).

Definition error_document (code : Z) (data : option (list (bytes * Document))) (message : option bytes) : Document :=
  Map_ ((kCodeMember, Int code) :: option_list (pair kDataMember ∘ Map_ <$> data)
        ++ option_list (pair kMessageMember ∘ String_ <$> message)).

Section Grammar.
Context `{JsonCodec}.

(** The text is an event of the call [id], its clean end, or its terminal error,
    as the binary wire would have carried it. *)
Definition stream_event (id : Document) (text : bytes) (m : Message) : Prop :=
  len text <= kMaxMessageBytes
  /\ exists type echoed p, decode text = Ok (notification_document echoed type p) /\ type <> []
     /\ doc_eqb echoed id = true /\ m = wire_message kEvent type p.

Definition stream_end (id : Document) (text : bytes) (result : Document) : Prop :=
  len text <= kMaxMessageBytes
  /\ exists echoed params, decode text = Ok (response_document None echoed params (Some result))
     /\ doc_eqb echoed id = true.

(** Its type is the data's own, if that is a name; the message fills data that
    has none. *)
Definition terminal_type (data : option (list (bytes * Document))) : bytes :=
  match sm_lookup kTypeMember (default [] data) with
  | Some (String_ type) => if bool_decide (type = []) then lit "JsonRpcError" else type
  | _ => lit "JsonRpcError"
  end.

Definition terminal_payload (data : option (list (bytes * Document))) (message : option bytes) : list (bytes * Document) :=
  match message, sm_lookup kMessageMember (default [] data) with
  | Some text, None => if bool_decide (text = []) then default [] data
                       else sm_insert kMessageMember (String_ text) (default [] data)
  | _, _ => default [] data
  end.

Definition stream_error (id : Document) (text : bytes) (m : Message) : Prop :=
  len text <= kMaxMessageBytes
  /\ exists echoed params code data message,
     decode text = Ok (response_document (Some (error_document code data message)) echoed params None)
     /\ doc_eqb echoed id = true
     /\ m = wire_message kException (terminal_type data) (terminal_payload data message).

End Grammar.

Section Exact.
Context `{JsonCodecLaws}.

(** What a response's text may hold. *)
Lemma DecodeJsonRpc_response text id f :
  DecodeJsonRpcStreamFrame text id = f ->
  match f with FrameResult _ | FrameException _ => True | _ => False end ->
  len text <= kMaxMessageBytes
  /\ exists error echoed params result, decode text = Ok (response_document error echoed params result)
     /\ doc_eqb echoed id = true /\ DecodeResponse (response_document error echoed params result) id = f
     /\ doc_ok (response_document error echoed params result).
Proof.
  unfold DecodeJsonRpcStreamFrame. rewrite Z.gtb_ltb. destruct (Z.ltb_spec kMaxMessageBytes (len text)); [by intros <-|].
  intros Hd Hf. split; [done|]. destruct (decode text) as [d|] eqn:Ed; [|by subst f].
  destruct d as [| | | | | | | |members]; try by subst f.
  destruct (decode_ok _ _ Ed) as [Hok _]. pose proof Hok as Hok'. apply doc_ok_map in Hok as (_ & Hs & _).
  destruct (unknown_member _ members) eqn:Eu; [by subst f|].
  apply unknown_member_None in Eu.
  assert (Eu' : Forall (fun e => fst e ∈ [kErrorMember; kIdMember; kVersionMember; kMethodMember;
                                          kParamsMember; kResultMember]) members).
  { eapply Forall_impl; [exact Eu|]. intros e. set_solver. }
  apply sm_members in Eu'; [|by vm_compute; auto 12|done]. cbn [Find] in Hd.
  destruct (sm_lookup kVersionMember members) as [[| | | |version| | | |]|] eqn:Ev; try by subst f.
  destruct (bytes_eqb version kVersionValue) eqn:Eb; [|by subst f]. cbn [negb] in Hd.
  apply bytes_eqb_eq in Eb as ->.
  destruct (sm_lookup kMethodMember members) as [method|] eqn:Em.
  { exfalso. unfold DecodeNotification in Hd.
    repeat match type of Hd with
    | match ?t with _ => _ end = _ => destruct t; try by subst f
    | (if ?t then _ else _) = _ => destruct t; try by subst f
    end. }
  destruct (sm_lookup kIdMember members) as [echoed|] eqn:Ei.
  2:{ exfalso. unfold DecodeResponse in Hd. cbn [Find] in Hd. rewrite Ei in Hd. by subst f. }
  assert (Hdoc : Map_ members = response_document (sm_lookup kErrorMember members) echoed
                                  (sm_lookup kParamsMember members) (sm_lookup kResultMember members)).
  { unfold response_document. f_equal. rewrite Eu' at 1. cbn [omap list_omap]. rewrite Ev, Em, Ei.
    by destruct (sm_lookup kErrorMember members), (sm_lookup kParamsMember members), (sm_lookup kResultMember members). }
  rewrite Hdoc in *. eexists _, echoed, _, _. split; [done|]. split; [|done].
  destruct (doc_eqb echoed id) eqn:Ee; [done|]. exfalso. unfold DecodeResponse in Hd.
  rewrite <- Hdoc in Hd. cbn [Find] in Hd. rewrite Ei, Ee in Hd. by subst f.
Qed.

Lemma response_id error echoed params result :
  Find (response_document error echoed params result) kIdMember = Some echoed.
Proof. unfold response_document. destruct error, params, result; done. Qed.

Lemma response_error error echoed params result :
  Find (response_document error echoed params result) kErrorMember = error.
Proof. unfold response_document. destruct error, params, result; done. Qed.

Lemma response_result error echoed params result :
  Find (response_document error echoed params result) kResultMember = result.
Proof. unfold response_document. destruct error, params, result; done. Qed.

Lemma response_decoded text error echoed params result id :
  len text <= kMaxMessageBytes -> decode text = Ok (response_document error echoed params result) ->
  DecodeJsonRpcStreamFrame text id = DecodeResponse (response_document error echoed params result) id.
Proof.
  intros Hl Hd. unfold DecodeJsonRpcStreamFrame. rewrite Z.gtb_ltb, (proj2 (Z.ltb_ge _ _)), Hd by done.
  unfold response_document. destruct error, params, result; done.
Qed.

(** The clean end. *)
Lemma DecodeJsonRpc_result_iff text id result :
  DecodeJsonRpcStreamFrame text id = FrameResult result <-> stream_end id text result.
Proof.
  split.
  - intros Hd. apply DecodeJsonRpc_response in Hd as (Hl & error & echoed & params & r & Hd & He & Hr & _); [|done].
    split; [done|]. unfold DecodeResponse in Hr. rewrite response_id, response_error, response_result, He in Hr.
    cbn [negb] in Hr. destruct r as [r|], error as [error|]; try done.
    + injection Hr as ->. by exists echoed, params.
    + destruct error; try done. exfalso.
      repeat match type of Hr with match ?t with _ => _ end = _ => destruct t; try done end.
  - intros (Hl & echoed & params & Hd & He). rewrite (response_decoded _ _ _ _ _ _ Hl Hd).
    unfold DecodeResponse. by rewrite response_id, response_error, response_result, He.
Qed.

Lemma exception_of_terminal message data :
  exception_of message data = FrameException (wire_message kException (terminal_type data) (terminal_payload data message)).
Proof.
  unfold exception_of, wire_message, message_of, terminal_type, terminal_payload, sm_emplace.
  cbn [en_kind en_type en_content_type en_payload]. do 2 f_equal.
  - destruct data as [data|]; [|done]. cbn [default from_option id].
    by destruct (sm_lookup kTypeMember data) as [[| | | |[|]| | | |]|].
  - f_equal. f_equal. by destruct message as [[|]|], data as [data|]; cbn [default from_option id]; try destruct (sm_lookup kMessageMember data).
Qed.

(** The terminal error. *)
Lemma DecodeJsonRpc_exception_iff text id m :
  DecodeJsonRpcStreamFrame text id = FrameException m <-> stream_error id text m.
Proof.
  split.
  - intros Hd. apply DecodeJsonRpc_response in Hd as (Hl & error & echoed & params & r & Hd & He & Hr & Hok); [|done].
    split; [done|]. unfold DecodeResponse in Hr. rewrite response_id, response_error, response_result, He in Hr.
    cbn [negb] in Hr. destruct r as [r|], error as [error|]; try done.
    destruct error as [| | | | | | | |members]; try done.
    assert (Hs : sm_ok members).
    { assert (Hf : Find (response_document (Some (Map_ members)) echoed params None) kErrorMember = Some (Map_ members))
        by apply response_error. unfold response_document in *. apply doc_ok_map in Hok as (_ & _ & Hdocs).
      rewrite Forall_forall in Hdocs. specialize (Hdocs (kErrorMember, Map_ members)).
      destruct Hdocs as [_ Hm]; [by left|]. by apply doc_ok_map in Hm as (_ & ? & _). }
    destruct (unknown_member _ members) eqn:Eu; [done|]. cbn [Find] in Hr.
    apply unknown_member_None in Eu.
    assert (Eu' : Forall (fun e => fst e ∈ [kCodeMember; kDataMember; kMessageMember]) members).
    { eapply Forall_impl; [exact Eu|]. intros e. set_solver. }
    apply sm_members in Eu'; [|by vm_compute; auto 12|done]. cbn [omap list_omap] in Eu'.
    destruct (sm_lookup kCodeMember members) as [[| |code| | | | | |]|] eqn:Ec; try done.
    destruct (sm_lookup kMessageMember members) as [[| | | |message| | | |]|] eqn:Em; try done;
    destruct (sm_lookup kDataMember members) as [[| | | | | | | |data]|] eqn:Ea; try done.
    all: rewrite exception_of_terminal in Hr; injection Hr as <-; cbn in Eu'.
    + exists echoed, params, code, (Some data), (Some message). split; [|done]. by rewrite Hd, Eu'.
    + exists echoed, params, code, None, (Some message). split; [|done]. by rewrite Hd, Eu'.
    + exists echoed, params, code, (Some data), None. split; [|done]. by rewrite Hd, Eu'.
    + exists echoed, params, code, None, None. split; [|done]. by rewrite Hd, Eu'.
  - intros (Hl & echoed & params & code & data & message & Hd & He & ->).
    rewrite (response_decoded _ _ _ _ _ _ Hl Hd), <- exception_of_terminal.
    unfold DecodeResponse. rewrite response_id, response_error, response_result, He.
    unfold error_document. by destruct data, message.
Qed.

(** An event. *)
Lemma DecodeJsonRpc_stream_event text id m :
  DecodeJsonRpcStreamFrame text id = FrameEvent m <-> stream_event id text m.
Proof. apply DecodeJsonRpc_event_iff. Qed.

End Exact.
