(* ===== verification/WsSession.v ===== *)
(** http/beast_transport.cc, class [WsSession]: the production WebSocket session
    as a state machine over Beast.  Every locked region is one step; posted
    closures are tasks the executor may run in any order; Beast's operations are
    the reads, writes and closes outstanding, each completed by the environment
    with any result.  A step's [posts] bools say whether its [asio::post] (or timer)
    succeeded.  A result fixed under the lock is reported by that step, though
    the code may call the callback later on the executor. *)
From Stdlib Require Import ZArith Lia Strings.Byte.
From S2P Require Import Prelude Bytes Frame WebSocketPair Envelope StreamFrames.

Local Open Scope Z_scope.

(** ** The wire modes *)

Inductive Wire := kBinary | kJsonFrames | kRawText.

Definition EncodeRawTextFrame (m : Message) : Outcome bytes :=
  match msg_headers m with
  | _ :: _ => Err (Error_Validation (lit "websocket: the raw-text wire carries headerless messages only (framing belongs to the envelope layer above the transport, ADR-0023)"))
  | [] =>
    if len (msg_payload m) >? kMaxMessageBytes
    then Err (Error_Validation (lit "websocket: message over the 16 MiB limit"))
    else Ok (msg_payload m)
  end.

Section Codec.
Context `{JsonCodec}.

Definition EncodeForWire (wire : Wire) (m : Message) : Outcome bytes :=
  match wire with
  | kJsonFrames => EncodeJsonFrame m
  | kRawText => EncodeRawTextFrame m
  | kBinary => EncodeMessage m
  end.

(** What [OnRead] makes of one WebSocket message: the message to deliver or the
    reason of the protocol violation. *)
Definition decode_frame (wire : Wire) (got_binary : bool) (data : bytes) : Message + bytes :=
  match wire with
  | kRawText =>
    if got_binary then inr (lit "binary message on a raw-text websocket")
    else inl (mkMessage [] data)
  | kJsonFrames =>
    if got_binary then inr (lit "binary message on a JSON-text event-stream socket")
    else match DecodeJsonFrame data with
         | Err e => inr (err_message e)
         | Ok m => inl m
         end
  | kBinary =>
    if negb got_binary then inr (lit "text message on an event-stream socket")
    else match DecodeMessage data with
         | Err e => inr (err_message e)
         | Ok (Some (m, bytes_consumed)) =>
           if negb (bytes_consumed =? len data)
           then inr (lit "binary message is not exactly one event-stream frame") else inl m
         | Ok None => inr (lit "binary message is not exactly one event-stream frame")
         end
  end.

(** [ws_.binary(wire_ == Wire::kBinary)]. *)
Definition is_binary (wire : Wire) : bool := match wire with kBinary => true | _ => false end.

End Codec.

(** ** The session *)

Inductive ErrorCode := operation_aborted | error_code (what : bytes).

Definition error_message (ec : ErrorCode) : bytes :=
  match ec with operation_aborted => lit "Operation canceled" | error_code what => what end.

Inductive Task :=
| TPumpRead
| TStartWrite (frame : bytes)
| TPostFailed
| TClose
| TKick (why : CloseReason)
| TAbortSocket.

Record Inbox := mkInbox {
  received : list Message;
  pending_receive : option call;
  receive_park_generation : Z;
  timers : list Z;
  blocked_receivers : list call;
  read_paused : bool
}.

(** [send_turn] is the blocking [Send] that holds [send_mutex_], its frame and
    whether it has posted the write. *)
Record Outbox := mkOutbox {
  pending_send : option call;
  send_turn : option (call * bytes * bool);
  write_complete : bool;
  write_error : bytes;
  wire_write_busy : bool
}.

Record Ending := mkEnding {
  peer_closed : bool;
  failed : bool;
  error : bytes;
  close_requested : bool;
  close_started : bool;
  close_reason_ : CloseReason;
  kicked : bool;
  peer_close : option CloseReason
}.

(** What is posted to the executor and outstanding at Beast; [pumping] is the
    rest of [Deliver] after its callback. *)
Record Executor := mkExecutor {
  tasks : list Task;
  reads : nat;
  writes : list bytes;
  closes : list CloseReason;
  pumping : bool
}.

Record WsSession := mkSession {
  inbox :> Inbox;
  outbox :> Outbox;
  ending :> Ending;
  executor :> Executor
}.

(** A constructed session after [Start] armed the read pump. *)
Definition Started : WsSession :=
  mkSession (mkInbox [] None 0 [] [] false) (mkOutbox None None true [] false)
    (mkEnding false false [] false false default_close false None) (mkExecutor [] 1 [] [] false).

Definition kReceiveQueueDepth : Z := 8.

Definition with_inbox (i : Inbox) (s : WsSession) : WsSession :=
  mkSession i (outbox s) (ending s) (executor s).
Definition with_outbox (o : Outbox) (s : WsSession) : WsSession :=
  mkSession (inbox s) o (ending s) (executor s).
Definition with_ending (e : Ending) (s : WsSession) : WsSession :=
  mkSession (inbox s) (outbox s) e (executor s).
Definition with_executor (x : Executor) (s : WsSession) : WsSession :=
  mkSession (inbox s) (outbox s) (ending s) x.

Definition set_received (l : list Message) (s : WsSession) : WsSession :=
  with_inbox (mkInbox l (pending_receive s) (receive_park_generation s) (timers s)
    (blocked_receivers s) (read_paused s)) s.
Definition set_pending_receive (p : option call) (s : WsSession) : WsSession :=
  with_inbox (mkInbox (received s) p (receive_park_generation s) (timers s)
    (blocked_receivers s) (read_paused s)) s.
Definition set_blocked (l : list call) (s : WsSession) : WsSession :=
  with_inbox (mkInbox (received s) (pending_receive s) (receive_park_generation s) (timers s)
    l (read_paused s)) s.
Definition set_paused (b : bool) (s : WsSession) : WsSession :=
  with_inbox (mkInbox (received s) (pending_receive s) (receive_park_generation s) (timers s)
    (blocked_receivers s) b) s.
Definition set_pending_send (p : option call) (s : WsSession) : WsSession :=
  with_outbox (mkOutbox p (send_turn s) (write_complete s) (write_error s) (wire_write_busy s)) s.
Definition set_send_turn (t : option (call * bytes * bool)) (s : WsSession) : WsSession :=
  with_outbox (mkOutbox (pending_send s) t (write_complete s) (write_error s) (wire_write_busy s)) s.
Definition set_failed (why : bytes) (s : WsSession) : WsSession :=
  with_ending (mkEnding (peer_closed s) true why (close_requested s) (close_started s)
    (close_reason_ s) (kicked s) (peer_close s)) s.
Definition set_peer_closed (frame : option CloseReason) (s : WsSession) : WsSession :=
  with_ending (mkEnding true (failed s) (error s) (close_requested s) (close_started s)
    (close_reason_ s) (kicked s) frame) s.
Definition set_closing (requested started : bool) (why : CloseReason) (s : WsSession) : WsSession :=
  with_ending (mkEnding (peer_closed s) (failed s) (error s) requested started why (kicked s)
    (peer_close s)) s.
Definition set_kicked (s : WsSession) : WsSession :=
  with_ending (mkEnding (peer_closed s) (failed s) (error s) (close_requested s) (close_started s)
    (close_reason_ s) true (peer_close s)) s.
Definition post (t : Task) (s : WsSession) : WsSession :=
  with_executor (mkExecutor (tasks s ++ [t]) (reads s) (writes s) (closes s) (pumping s)) s.
Definition set_reads (n : nat) (s : WsSession) : WsSession :=
  with_executor (mkExecutor (tasks s) n (writes s) (closes s) (pumping s)) s.
Definition set_writes (l : list bytes) (s : WsSession) : WsSession :=
  with_executor (mkExecutor (tasks s) (reads s) l (closes s) (pumping s)) s.
Definition set_closes (l : list CloseReason) (s : WsSession) : WsSession :=
  with_executor (mkExecutor (tasks s) (reads s) (writes s) l (pumping s)) s.
Definition set_pumping (b : bool) (s : WsSession) : WsSession :=
  with_executor (mkExecutor (tasks s) (reads s) (writes s) (closes s) b) s.

(** What a call is told. *)
Inductive WsCompletion :=
| Received (c : call) (o : Outcome (option Message))
| Sent (c : call) (o : Outcome unit).

Definition transport (why : bytes) : Error := Error_Transport (lit "websocket: " ++ why) true.
Definition ws_refused (why : bytes) : Error := Error_Validation (lit "websocket: " ++ why).
Definition ws_deadline : Error :=
  Error_Timeout (lit "websocket: no message within the receive deadline").
Definition is_closed_text : bytes := Eval vm_compute in lit "session is closed".

Definition step_result : Type := option (WsSession * list WsCompletion).

(** ** Ending the session *)

(** [TakeAsyncWaitersLocked] and [CompleteAsyncWaiters]: the slots emptied and
    what their callbacks are told, the send first. *)
Definition take_waiters (clean : bool) (why : bytes) (s : WsSession) : WsSession * list WsCompletion :=
  (set_pending_send None (set_pending_receive None s),
   match pending_send s with
   | Some c => [Sent c (Err (transport (if clean then is_closed_text else why)))]
   | None => []
   end
   ++ match pending_receive s with
      | Some c => [Received c (if clean then Ok None else Err (transport why))]
      | None => []
      end).

(** [failed_ = true] unless the session has already ended. *)
Definition fail_once (why : bytes) (s : WsSession) : WsSession :=
  if failed s || peer_closed s then s else set_failed why s.

Definition FailSession (why : bytes) (s : WsSession) : WsSession * list WsCompletion :=
  let s := fail_once why s in take_waiters false (error s) s.

(** [StartCloseLocked]. *)
Definition start_close (s : WsSession) : WsSession :=
  set_closes (closes s ++ [close_reason_ s]) (set_closing (close_requested s) true (close_reason_ s) s).

Definition FailAndClose (why : bytes) (s : WsSession) : WsSession * list WsCompletion :=
  let s := fail_once why s in
  let '(s, done) := take_waiters false (error s) s in
  let s := set_closing true (close_started s) (mkCloseReason 1002 []) s in
  (if close_started s || wire_write_busy s then s else start_close s, done).

(** [RequestCloseLocked]; cancelling the socket only licenses the environment
    to complete what is outstanding with [operation_aborted]. *)
Definition request_close (s : WsSession) : WsSession :=
  if close_requested s || failed s || peer_closed s then s
  else let s := set_closing true (close_started s) (close_reason_ s) s in
       if wire_write_busy s then s else start_close s.

Definition Abort_ (why : bytes) (posts : bool) (s : WsSession) : WsSession * list WsCompletion :=
  let '(s, done) := FailSession why s in (if posts then post TAbortSocket s else s, done).

(** ** Receiving *)

Definition ResumeReadsIfPaused (posts : bool) (s : WsSession) : WsSession :=
  if negb (read_paused s) || failed s || peer_closed s || (len (received s) >=? kReceiveQueueDepth)
  then s
  else let s := set_paused false s in
       if posts then post TPumpRead s else set_failed (lit "cannot schedule the read") s.

Definition settled (s : WsSession) : bool :=
  (match received s with [] => false | _ => true end
   && match pending_receive s with None => true | Some _ => false end)
  || peer_closed s || failed s.

(** [ReceiveWithin]: joining the wait, leaving it settled, leaving it expired. *)
Definition receive_begin (c : call) (s : WsSession) : step_result :=
  Some (set_blocked (blocked_receivers s ++ [c]) s, []).

Definition receive_pass (c : call) (posts : bool) (s : WsSession) : step_result :=
  if negb (settled s) then None
  else
    '(_, waiting) ← leave (Nat.eqb c) (blocked_receivers s);
    let s := set_blocked waiting s in
    match received s, pending_receive s with
    | m :: rest, None => Some (ResumeReadsIfPaused posts (set_received rest s), [Received c (Ok (Some m))])
    | _, _ => if peer_closed s then Some (s, [Received c (Ok None)])
              else Some (s, [Received c (Err (transport (error s)))])
    end.

Definition receive_expire (c : call) (s : WsSession) : step_result :=
  if settled s then None
  else '(_, waiting) ← leave (Nat.eqb c) (blocked_receivers s);
       Some (set_blocked waiting s, [Received c (Err ws_deadline)]).

(** [ReceiveAsyncWithin]: [resumes], [completes] and [arms] say whether the
    posts and the timer it may need succeed. *)
Definition receive_async (c : call) (timeout : option Z) (resumes completes arms : bool) (s : WsSession)
    : step_result :=
  if (match pending_receive s with Some _ => true | None => false end)
     || (0 <? len (blocked_receivers s))
  then Some (s, [Received c (Err (ws_refused (lit "a receive is already outstanding")))])
  else
    match received s with
    | m :: rest =>
      Some (ResumeReadsIfPaused resumes (set_received rest s),
            [Received c (if completes then Ok (Some m)
                         else Err (transport (lit "cannot schedule the completion")))])
    | [] =>
      if peer_closed s then Some (s, [Received c (Ok None)])
      else if failed s then Some (s, [Received c (Err (transport (error s)))])
      else if match timeout with Some t => t <=? 0 | None => false end
      then Some (s, [Received c (Err ws_deadline)])
      else
        let generation := wrap 64 (receive_park_generation s + 1) in
        match timeout with
        | Some _ =>
          if arms
          then Some (with_inbox (mkInbox [] (Some c) generation (timers s ++ [generation])
                       (blocked_receivers s) (read_paused s)) s, [])
          else Some (with_inbox (mkInbox [] None generation (timers s)
                       (blocked_receivers s) (read_paused s)) s,
                     [Received c (Err (transport (lit "cannot schedule the receive deadline")))])
        | None => Some (with_inbox (mkInbox [] (Some c) generation (timers s)
                          (blocked_receivers s) (read_paused s)) s, [])
        end
    end.

(** [OnReceiveDeadline], for any wait ever armed: a cancelled one may still fire. *)
Definition receive_deadline_fires (generation : Z) (s : WsSession) : step_result :=
  if negb (bool_decide (generation ∈ timers s)) then None
  else match pending_receive s with
       | Some c =>
         if receive_park_generation s =? generation
         then Some (set_pending_receive None s, [Received c (Err ws_deadline)])
         else Some (s, [])
       | None => Some (s, [])
       end.

Definition PumpRead (s : WsSession) : WsSession :=
  if failed s || peer_closed s || close_started s then s
  else if len (received s) >=? kReceiveQueueDepth then set_paused true s
  else set_reads (S (reads s)) s.

Definition Deliver (m : Message) (s : WsSession) : WsSession * list WsCompletion :=
  match pending_receive s with
  | Some c => (set_pumping true (set_pending_receive None s), [Received c (Ok (Some m))])
  | None => (set_pumping true (set_received (received s ++ [m]) s), [])
  end.

(** What the outstanding [async_read] completes with. *)
Inductive ReadResult :=
| ReadClosed (frame : CloseReason)
| ReadError (ec : ErrorCode)
| ReadMessage (got_binary : bool) (data : bytes).

Definition OnRead `{JsonCodec} (wire : Wire) (r : ReadResult) (s : WsSession) : step_result :=
  match reads s with
  | O => None
  | S n =>
    let s := set_reads n s in
    match r with
    | ReadClosed frame => Some (take_waiters true [] (set_peer_closed (Some frame) s))
    | ReadError ec =>
      if close_requested s && match ec with operation_aborted => true | _ => false end
      then Some (s, [])
      else Some (FailSession (error_message ec) s)
    | ReadMessage got_binary data =>
      match decode_frame wire got_binary data with
      | inl m => Some (Deliver m s)
      | inr why => Some (FailAndClose why s)
      end
    end
  end.

(** ** Sending *)

Definition send_begin `{JsonCodec} (wire : Wire) (c : call) (m : Message) (s : WsSession) : step_result :=
  match EncodeForWire wire m with
  | Err e => Some (s, [Sent c (Err e)])
  | Ok frame => match send_turn s with
                | Some _ => None
                | None => Some (set_send_turn (Some (c, frame, false)) s, [])
                end
  end.

Definition may_send (s : WsSession) : bool :=
  (write_complete s && match pending_send s with None => true | Some _ => false end)
  || failed s || peer_closed s || close_requested s.

Definition cannot_schedule_write : Error := transport (lit "cannot schedule the write").

Definition closed_error (s : WsSession) : Error :=
  transport (if failed s then error s else is_closed_text).

Definition send_pass (c : call) (posts : bool) (s : WsSession) : step_result :=
  match send_turn s with
  | Some (c', frame, false) =>
    if negb (Nat.eqb c c' && may_send s) then None
    else if failed s || peer_closed s || close_requested s
    then Some (set_send_turn None s, [Sent c (Err (closed_error s))])
    else
      let s := with_outbox (mkOutbox (pending_send s) (send_turn s) false [] (wire_write_busy s)) s in
      if posts then Some (post (TStartWrite frame) (set_send_turn (Some (c, frame, true)) s), [])
      else Some (set_send_turn None s, [Sent c (Err cannot_schedule_write)])
  | _ => None
  end.

Definition send_end (c : call) (s : WsSession) : step_result :=
  match send_turn s with
  | Some (c', _, true) =>
    if negb (Nat.eqb c c' && (write_complete s || failed s)) then None
    else
      let why := match write_error s with [] => error s | e => e end in
      Some (set_send_turn None s,
            [Sent c (if write_complete s && match write_error s with [] => true | _ => false end
                     then Ok tt else Err (transport why))])
  | _ => None
  end.

Definition send_async `{JsonCodec} (wire : Wire) (c : call) (m : Message) (posts : bool) (s : WsSession)
    : step_result :=
  match EncodeForWire wire m with
  | Err e => Some (s, [Sent c (Err e)])
  | Ok frame =>
    if failed s || peer_closed s || close_requested s then Some (s, [Sent c (Err (closed_error s))])
    else if negb (write_complete s) || match pending_send s with Some _ => true | None => false end
    then Some (s, [Sent c (Err (ws_refused (lit "a send is already in flight")))])
    else Some (post (if posts then TStartWrite frame else TPostFailed)
                 (with_outbox (mkOutbox (Some c) (send_turn s) false [] (wire_write_busy s)) s), [])
  end.

(** The recovery of [SendAsync] when its post threw. *)
Definition post_failed (s : WsSession) : WsSession * list WsCompletion :=
  (with_outbox (mkOutbox None (send_turn s) true (write_error s) (wire_write_busy s)) s,
   match pending_send s with Some c => [Sent c (Err cannot_schedule_write)] | None => [] end).

Definition StartWrite (frame : bytes) (s : WsSession) : WsSession * list WsCompletion :=
  if failed s || peer_closed s || close_requested s then
    let why := if failed s then error s else is_closed_text in
    (with_outbox (mkOutbox None (send_turn s) true why (wire_write_busy s)) s,
     match pending_send s with Some c => [Sent c (Err (transport why))] | None => [] end)
  else
    (set_writes (writes s ++ [frame])
       (with_outbox (mkOutbox (pending_send s) (send_turn s) (write_complete s) (write_error s) true) s),
     []).

Definition OnWrite (ec : option ErrorCode) (s : WsSession) : step_result :=
  match writes s with
  | [] => None
  | _ :: rest =>
    let s := set_writes rest s in
    let why := match ec with
               | None => write_error s
               | Some operation_aborted =>
                 if close_requested s then lit "session closed while a send was in flight"
                 else error_message operation_aborted
               | Some ec => error_message ec
               end in
    let waiting := pending_send s in
    let s := with_outbox (mkOutbox None (send_turn s) true why false) s in
    let s := match ec with
             | Some _ => fail_once why s
             | None => if close_requested s && negb (close_started s) then start_close s else s
             end in
    Some (s, match waiting with
             | Some c => [Sent c (match why with [] => Ok tt | _ => Err (transport why) end)]
             | None => []
             end)
  end.

(** The completion of [async_close]. *)
Definition OnClose (ec : option ErrorCode) (s : WsSession) : step_result :=
  match closes s with
  | [] => None
  | _ :: rest =>
    let s := set_closes rest s in
    let s := if failed s || peer_closed s then s
             else match ec with
                  | Some ec => set_failed (error_message ec) s
                  | None => set_peer_closed (peer_close s) s
                  end in
    Some (take_waiters (negb (failed s)) (error s) s)
  end.

(** ** The steps *)

Definition run_kick (why : CloseReason) (s : WsSession) : WsSession :=
  if kicked s || peer_closed s then s
  else let s := set_kicked s in
       request_close (if close_requested s then s
                      else set_closing false (close_started s) why s).

Definition run_task (t : Task) (s : WsSession) : WsSession * list WsCompletion :=
  match t with
  | TPumpRead => (PumpRead s, [])
  | TStartWrite frame => StartWrite frame s
  | TPostFailed => post_failed s
  | TClose => (request_close s, [])
  | TKick why => (run_kick why s, [])
  | TAbortSocket => (s, [])
  end.

Inductive WsAction :=
| WReceiveBegin (c : call)
| WReceivePass (c : call) (posts : bool)
| WReceiveExpire (c : call)
| WReceiveAsync (c : call) (timeout : option Z) (resumes completes arms : bool)
| WDeadline (generation : Z)
| WSendBegin (c : call) (m : Message)
| WSendPass (c : call) (posts : bool)
| WSendEnd (c : call)
| WSendAsync (c : call) (m : Message) (posts : bool)
| WClose (posts : bool)
| WKick (why : CloseReason) (posts : bool)
| WAbort (why : bytes) (posts : bool)
| WRun (i : nat)
| WPump
| WOnRead (r : ReadResult)
| WOnWrite (ec : option ErrorCode)
| WOnClose (ec : option ErrorCode).

(** The executor runs one completion at a time: nothing else of it runs while
    [Deliver] has still to re-arm the pump. *)
Definition on_executor (s : WsSession) (r : step_result) : step_result :=
  if pumping s then None else r.

Definition ws_step `{JsonCodec} (wire : Wire) (a : WsAction) (s : WsSession) : step_result :=
  match a with
  | WReceiveBegin c => receive_begin c s
  | WReceivePass c posts => receive_pass c posts s
  | WReceiveExpire c => receive_expire c s
  | WReceiveAsync c timeout resumes completes arms => receive_async c timeout resumes completes arms s
  | WDeadline generation => on_executor s (receive_deadline_fires generation s)
  | WSendBegin c m => send_begin wire c m s
  | WSendPass c posts => send_pass c posts s
  | WSendEnd c => send_end c s
  | WSendAsync c m posts => send_async wire c m posts s
  | WClose posts =>
    Some (if posts then (post TClose s, []) else Abort_ (lit "websocket: cannot schedule the close") true s)
  | WKick why posts =>
    if negb (CheckCloseReason why) then None
    else Some (if posts then (post (TKick why) s, [])
               else Abort_ (lit "websocket: cannot schedule the kick") true s)
  | WAbort why posts => Some (Abort_ why posts s)
  | WRun i =>
    on_executor s
      (t ← tasks s !! i;
       Some (run_task t (with_executor (mkExecutor (delete i (tasks s)) (reads s) (writes s) (closes s)
                                          (pumping s)) s)))
  | WPump => if pumping s then Some (PumpRead (set_pumping false s), []) else None
  | WOnRead r => on_executor s (OnRead wire r s)
  | WOnWrite ec => on_executor s (OnWrite ec s)
  | WOnClose ec => on_executor s (OnClose ec s)
  end.

Fixpoint ws_exec `{JsonCodec} (wire : Wire) (acts : list WsAction) (s : WsSession)
    : option (WsSession * list WsCompletion) :=
  match acts with
  | [] => Some (s, [])
  | a :: acts => '(s, done) ← ws_step wire a s; '(s, done') ← ws_exec wire acts s; Some (s, done ++ done')
  end.
