(* ===== verification/WsInvariants.v ===== *)
(** What every run of the WebSocket session of WsSession.v keeps: Beast's
    operation contract, exactly-once completion, message order, and the parked
    receive that a failed write forgets. *)
From Stdlib Require Import ZArith Lia Strings.Byte.
From S2P Require Import Prelude Bytes Frame WebSocketPair Envelope StreamFrames WsSession.

Local Open Scope Z_scope.

(** ** Counting *)

Definition countb {A} (p : A -> bool) (l : list A) : nat := length (List.filter p l).

Lemma countb_app {A} (p : A -> bool) l l' : countb p (l ++ l') = (countb p l + countb p l')%nat.
Proof. unfold countb. by rewrite List.filter_app, length_app. Qed.

Lemma countb_cons {A} (p : A -> bool) x l : countb p (x :: l) = (Nat.b2n (p x) + countb p l)%nat.
Proof. unfold countb. simpl. by destruct (p x). Qed.

Lemma countb_delete {A} (p : A -> bool) l i x :
  l !! i = Some x -> countb p l = (Nat.b2n (p x) + countb p (delete i l))%nat.
Proof.
  revert i. induction l as [|y l IH]; intros [|i]; simpl; try done.
  - intros [= ->]. apply countb_cons.
  - intros H. rewrite !countb_cons, (IH i H). lia.
Qed.

Lemma countb_exists {A} (p : A -> bool) l : countb p l = 1%nat -> existsb p l = true.
Proof.
  unfold countb. intros E. destruct (List.filter p l) as [|x r] eqn:Ef; [done|].
  apply existsb_exists. exists x. apply filter_In. rewrite Ef. by left.
Qed.

Definition is_pump (t : Task) : bool := match t with TPumpRead => true | _ => false end.
Definition is_write (t : Task) : bool := match t with TStartWrite _ | TPostFailed => true | _ => false end.

Definition engaged_slot {A} (o : option A) : bool := match o with Some _ => true | None => false end.

(** What keeps the read side going, and what the write side owes. *)
Definition pump_tokens (s : WsSession) : nat :=
  (reads s + countb is_pump (tasks s) + Nat.b2n (pumping s) + Nat.b2n (read_paused s))%nat.
Definition write_tokens (s : WsSession) : nat := (countb is_write (tasks s) + length (writes s))%nat.

(** ** The invariant *)

Definition parked (s : WsSession) : bool := engaged_slot (pending_receive s).
Definition sending (s : WsSession) : bool := engaged_slot (pending_send s).

Record ws_ok (s : WsSession) : Prop := {
  ok_pump : (pump_tokens s <= 1)%nat;
  ok_alive : failed s = false -> peer_closed s = false -> close_requested s = false ->
    pump_tokens s = 1%nat;
  ok_write : (write_tokens s <= 1)%nat;
  ok_complete : write_complete s = true -> write_tokens s = 0%nat;
  ok_busy : (length (writes s) = Nat.b2n (wire_write_busy s))%nat;
  ok_closes : (length (closes s) <= 1)%nat;
  ok_unclosed : close_started s = false -> length (closes s) = 0%nat;
  ok_closed : close_started s = true -> close_requested s = true /\ length (writes s) = 0%nat;
  ok_closing : close_requested s = true -> failed s = false -> peer_closed s = false ->
    (length (closes s) + length (writes s) = 1)%nat;
  ok_queue : len (received s) <= 8;
  ok_reading : (0 < reads s)%nat -> len (received s) < 8;
  ok_paused : read_paused s = true -> failed s = false -> peer_closed s = false ->
    len (received s) = 8;
  ok_parked : parked s = true -> len (received s) = 0;
  ok_sending : sending s = true -> write_tokens s = 1%nat;
  ok_clean : peer_closed s = true -> parked s = false /\ sending s = false
}.

Ltac ws_open :=
  unfold pump_tokens, write_tokens, parked, sending, set_received, set_pending_receive, set_blocked,
    set_paused, set_pending_send, set_send_turn, set_failed, set_peer_closed, set_closing, set_kicked, post,
    set_reads, set_writes, set_closes, set_pumping, with_inbox, with_outbox, with_ending, with_executor,
    kReceiveQueueDepth in *;
  cbn [inbox outbox ending executor received pending_receive receive_park_generation timers
    blocked_receivers read_paused pending_send send_turn write_complete write_error wire_write_busy
    peer_closed failed error close_requested close_started close_reason_ kicked peer_close tasks reads
    writes closes pumping fst snd engaged_slot orb andb negb] in *.

(** A session as its fields. *)
Ltac ws_fields s :=
  destruct s as [[q p g t b paused] [sd tn wc we busy] [pc fl er cr cs rs kk pf] [tk rd wr cl pu]].

(** Implications between flags already known. *)
Ltac ws_flags :=
  repeat match goal with
  | H : ?P -> _, H' : ?P |- _ => specialize (H H')
  | H : true = true -> _ |- _ => specialize (H eq_refl)
  | H : false = false -> _ |- _ => specialize (H eq_refl)
  | H : true = false -> _ |- _ => clear H
  | H : false = true -> _ |- _ => clear H
  | H : _ /\ _ |- _ => destruct H
  | H : false = true |- _ => discriminate H
  | H : true = false |- _ => discriminate H
  end.

Ltac ws_counts :=
  rewrite ?countb_app, ?countb_cons, ?length_app, ?len_app, ?len_cons in *;
  cbn [is_pump is_write Nat.b2n length countb List.filter] in *; change (@len Message []) with 0 in *.

Ltac forget_implications := repeat match goal with H : _ -> _ |- _ => clear H end.

(** Proves [ws_ok] of a state given [ws_ok] of the one it updates. *)
Ltac ws_solve :=
  split; ws_open; intros; ws_flags; ws_counts; repeat apply conj;
  first [assumption | reflexivity | congruence | forget_implications; lia | lia].

(** Case analysis of every test in the goal. *)
Ltac ws_cases :=
  repeat match goal with
  | |- context [?x >=? ?y] => destruct (Z.geb_spec x y)
  | |- context [if ?b then _ else _] => destruct b eqn:?
  end.

Lemma Started_ok : ws_ok Started.
Proof. unfold Started. ws_solve. Qed.

Lemma take_waiters_ok clean why s : ws_ok s -> ws_ok (fst (take_waiters clean why s)).
Proof. intros []. unfold take_waiters. ws_solve. Qed.

Lemma fail_once_ok why s : ws_ok s -> ws_ok (fail_once why s).
Proof.
  intros []. unfold fail_once. ws_fields s. ws_open. destruct fl, pc; ws_flags; ws_solve.
Qed.

Lemma request_close_ok s : ws_ok s -> ws_ok (request_close s).
Proof.
  intros []. unfold request_close, start_close. ws_fields s. ws_open.
  destruct fl, pc, cr, cs, busy; ws_open; ws_flags; ws_solve.
Qed.

Lemma FailAndClose_ok why s : ws_ok s -> ws_ok (fst (FailAndClose why s)).
Proof.
  intros H. apply (fail_once_ok why) in H. unfold FailAndClose.
  assert (Hf : failed (fail_once why s) || peer_closed (fail_once why s) = true).
  { unfold fail_once. by destruct (failed s || peer_closed s) eqn:E. }
  generalize dependent (fail_once why s). clear s. intros s [] Hf. unfold take_waiters, start_close.
  ws_fields s. ws_open. destruct fl, pc, cs, busy; ws_open; ws_flags; ws_solve.
Qed.

Lemma ResumeReadsIfPaused_ok posts s m rest :
  ws_ok s -> received s = m :: rest -> parked s = false ->
  ws_ok (ResumeReadsIfPaused posts (set_received rest s)).
Proof.
  intros [] Hr Hp. unfold ResumeReadsIfPaused. ws_fields s. ws_open. subst q. rewrite len_cons in *.
  pose proof (len_nonneg rest). destruct paused, fl, pc, p, posts; ws_open; ws_flags;
    ws_cases; ws_solve.
Qed.

Lemma FailSession_ok why s : ws_ok s -> ws_ok (fst (FailSession why s)).
Proof. intros H. unfold FailSession. by apply take_waiters_ok, fail_once_ok. Qed.

Lemma post_ok task s : ws_ok s -> is_pump task || is_write task = false -> ws_ok (post task s).
Proof. intros [] Ht. ws_fields s. ws_open. destruct task; try discriminate Ht; ws_solve. Qed.

Lemma Abort_ok why posts s : ws_ok s -> ws_ok (fst (Abort_ why posts s)).
Proof.
  intros H. apply (FailSession_ok why) in H. unfold Abort_. destruct (FailSession why s) as [s' done'].
  destruct posts; [|done]. by apply post_ok.
Qed.

Lemma set_blocked_ok l s : ws_ok s -> ws_ok (set_blocked l s).
Proof. intros []. ws_solve. Qed.

Lemma set_send_turn_ok t s : ws_ok s -> ws_ok (set_send_turn t s).
Proof. intros []. ws_solve. Qed.

Lemma unpark_ok s : ws_ok s -> ws_ok (set_pending_receive None s).
Proof. intros []. ws_solve. Qed.

Lemma ws_receive_pass_ok c posts s s' new :
  ws_ok s -> receive_pass c posts s = Some (s', new) -> ws_ok s'.
Proof.
  intros H. unfold receive_pass. destruct (negb (settled s)); [done|]. intros Hl.
  apply bind_Some in Hl as ([c' waiting] & _ & Hl). apply (set_blocked_ok waiting) in H.
  destruct (received (set_blocked waiting s)) as [|m rest] eqn:Er;
    destruct (pending_receive (set_blocked waiting s)) eqn:Ep;
    try (destruct (peer_closed _); injection Hl as <- <-; done).
  injection Hl as <- <-. eapply ResumeReadsIfPaused_ok; [done|exact Er|]. unfold parked. by rewrite Ep.
Qed.

Lemma ws_receive_async_ok c timeout resumes completes arms s s' new :
  ws_ok s -> receive_async c timeout resumes completes arms s = Some (s', new) -> ws_ok s'.
Proof.
  intros H. unfold receive_async. destruct (pending_receive s) eqn:Ep; [by intros [= <- <-]|]. simpl.
  destruct (0 <? _); [by intros [= <- <-]|]. destruct (received s) as [|m rest] eqn:Er.
  - destruct (peer_closed s) eqn:Epc; [by intros [= <- <-]|].
    destruct (failed s) eqn:Ef; [by intros [= <- <-]|].
    assert (Hpark : forall p g t, ws_ok (with_inbox (mkInbox [] p g t (blocked_receivers s) (read_paused s)) s)).
    { intros p g t. destruct H. ws_open. rewrite Er in *. ws_solve. }
    destruct timeout as [t|]; [destruct (t <=? 0); [by intros [= <- <-]|]; destruct arms|];
      intros [= <- <-]; apply Hpark.
  - intros [= <- <-]. eapply ResumeReadsIfPaused_ok; [done|exact Er|]. unfold parked. by rewrite Ep.
Qed.

Lemma some_pair {A B} (p : A * B) a b : Some p = Some (a, b) -> a = fst p /\ b = snd p.
Proof. by intros [= ->]. Qed.

Lemma some_fst {A B} (p : A * B) a b : Some p = Some (a, b) -> a = fst p.
Proof. by intros [-> _]%some_pair. Qed.

(** The pump re-armed in place of the token [Deliver] or the task held. *)
Lemma PumpRead_ok s : ws_ok (set_pumping true s) -> pumping s = false -> ws_ok (PumpRead s).
Proof.
  intros [] Hp. unfold PumpRead. ws_fields s. ws_open. subst pu.
  destruct fl, pc, cs, paused; ws_open; ws_flags; ws_counts; try (exfalso; lia); ws_cases; ws_solve.
Qed.

Lemma less_reads_ok n s :
  ws_ok s -> failed s || peer_closed s || close_requested s = true -> (n <= reads s)%nat ->
  ws_ok (set_reads n s).
Proof.
  intros [] He Hn. ws_fields s. ws_open. destruct fl, pc, cr; try discriminate He; ws_flags; ws_solve.
Qed.

Lemma fail_once_ended why s : failed (fail_once why s) || peer_closed (fail_once why s) = true.
Proof. unfold fail_once. by destruct (failed s || peer_closed s) eqn:E. Qed.

Lemma fail_once_reads why n s : fail_once why (set_reads n s) = set_reads n (fail_once why s).
Proof. unfold fail_once. ws_fields s. ws_open. by destruct fl, pc. Qed.

Lemma FailSession_read_ok why n s :
  ws_ok s -> (n <= reads s)%nat -> ws_ok (fst (FailSession why (set_reads n s))).
Proof.
  intros H Hn. unfold FailSession. rewrite fail_once_reads. apply take_waiters_ok, less_reads_ok.
  - by apply fail_once_ok.
  - by rewrite fail_once_ended.
  - unfold fail_once. ws_cases; done.
Qed.

Lemma FailAndClose_read_ok why n s :
  ws_ok s -> (n <= reads s)%nat -> ws_ok (fst (FailAndClose why (set_reads n s))).
Proof.
  intros H Hn. assert (E : fst (FailAndClose why (set_reads n s)) = set_reads n (fst (FailAndClose why s))).
  { unfold FailAndClose, take_waiters, start_close. rewrite fail_once_reads. ws_open. ws_cases; done. }
  rewrite E. apply less_reads_ok; [by apply FailAndClose_ok| |].
  - unfold FailAndClose, take_waiters, start_close. ws_open. ws_cases; ws_open; apply orb_true_r.
  - unfold FailAndClose, take_waiters, start_close, fail_once. ws_open. ws_cases; done.
Qed.

Lemma peer_closed_ok frame s : ws_ok s -> ws_ok (set_peer_closed frame (set_pending_send None (set_pending_receive None s))).
Proof. intros []. ws_fields s. ws_open. destruct fl; ws_flags; ws_solve. Qed.

Lemma Deliver_ok m n s :
  ws_ok s -> reads s = S n -> pumping s = false -> ws_ok (fst (Deliver m (set_reads n s))).
Proof.
  intros [] Hr Hp. unfold Deliver. ws_fields s. ws_open. subst rd pu.
  destruct p; ws_open; ws_flags; ws_solve.
Qed.

Lemma OnRead_ok `{JsonCodec} wire r s s' new :
  ws_ok s -> pumping s = false -> OnRead wire r s = Some (s', new) -> ws_ok s'.
Proof.
  intros Hs Hp. unfold OnRead. destruct (reads s) as [|n] eqn:Er; [done|].
  assert (Hn : (n <= reads s)%nat) by lia. destruct r as [frame|ec|got_binary data]; cbn [inbox ending].
  - intros [= <- <-]. unfold take_waiters. cbn [fst].
    assert (E : set_pending_send None (set_pending_receive None (set_peer_closed (Some frame) (set_reads n s)))
      = set_reads n (set_peer_closed (Some frame) (set_pending_send None (set_pending_receive None s))))
      by done.
    rewrite E. apply less_reads_ok; [by apply peer_closed_ok| |done].
    ws_open. by rewrite orb_true_r.
  - destruct (close_requested (set_reads n s) && _) eqn:E.
    + intros [= <- <-]. apply less_reads_ok; [done| |done]. apply andb_true_iff in E as [E _].
      rewrite <- orb_assoc. change (close_requested s = true) in E. by rewrite E, !orb_true_r.
    + intros ->%some_fst. by apply FailSession_read_ok.
  - destruct (decode_frame wire got_binary data) as [m|why]; intros ->%some_fst.
    + by apply Deliver_ok.
    + by apply FailAndClose_read_ok.
Qed.

Lemma ws_send_pass_ok c posts s s' new : ws_ok s -> send_pass c posts s = Some (s', new) -> ws_ok s'.
Proof.
  intros Hs. unfold send_pass. destruct (send_turn s) as [[[c' frame] []]|] eqn:Et; try done.
  destruct (negb _) eqn:Em; [done|]. apply negb_false_iff, andb_true_iff in Em as [_ Em].
  destruct (failed s || peer_closed s || close_requested s) eqn:Ee;
    [intros [= <- <-]; by apply set_send_turn_ok|].
  destruct Hs. unfold may_send in Em. ws_fields s. ws_open. simpl in Et. subst tn.
  destruct fl, pc, cr; try discriminate Ee. destruct wc, sd; try discriminate Em.
  destruct posts; intros [= <- <-]; ws_flags; ws_solve.
Qed.

Lemma ws_send_async_ok `{JsonCodec} wire c m posts s s' new :
  ws_ok s -> send_async wire c m posts s = Some (s', new) -> ws_ok s'.
Proof.
  intros Hs. unfold send_async. destruct (EncodeForWire wire m) as [frame|e]; [|by intros [= <- <-]].
  destruct (failed s || peer_closed s || close_requested s) eqn:Ee; [by intros [= <- <-]|].
  destruct (negb (write_complete s) || _) eqn:Ew; [by intros [= <- <-]|].
  destruct Hs. ws_fields s. ws_open.
  destruct fl, pc, cr; try discriminate Ee. destruct wc, sd; try discriminate Ew.
  intros [= <- <-]. destruct posts; ws_flags; ws_solve.
Qed.

Lemma OnWrite_ok ec s s' new : ws_ok s -> OnWrite ec s = Some (s', new) -> ws_ok s'.
Proof.
  intros []. unfold OnWrite. destruct (writes s) as [|f rest] eqn:Ew; [done|]. intros [= <- <-].
  ws_fields s. ws_open. simpl in Ew. subst wr. unfold fail_once, start_close. ws_open.
  destruct ec; destruct fl, pc, cr, cs; ws_open; ws_flags; ws_counts; try lia; ws_solve.
Qed.

Lemma OnClose_ok ec s s' new : ws_ok s -> OnClose ec s = Some (s', new) -> ws_ok s'.
Proof.
  intros []. unfold OnClose. destruct (closes s) as [|f rest] eqn:Ew; [done|]. intros [= <- <-].
  ws_fields s. ws_open. simpl in Ew. subst cl. unfold take_waiters. ws_open.
  destruct ec; destruct fl, pc, cs; ws_open; ws_flags; ws_counts; try lia; ws_solve.
Qed.

(** The executor takes a task off its queue. *)
Definition untask (i : nat) (s : WsSession) : WsSession :=
  with_executor (mkExecutor (delete i (tasks s)) (reads s) (writes s) (closes s) (pumping s)) s.

Lemma untask_ok i task s :
  ws_ok s -> tasks s !! i = Some task -> is_pump task || is_write task = false -> ws_ok (untask i s).
Proof.
  intros [] Hi Ht. pose proof (countb_delete is_pump _ _ _ Hi). pose proof (countb_delete is_write _ _ _ Hi).
  unfold untask. ws_fields s. ws_open. destruct task; try discriminate Ht; cbn [is_pump is_write Nat.b2n] in *;
    ws_solve.
Qed.

Lemma run_kick_ok why s : ws_ok s -> ws_ok (run_kick why s).
Proof.
  intros H. unfold run_kick. destruct (kicked s || peer_closed s); [done|]. apply request_close_ok.
  destruct (close_requested (set_kicked s)) eqn:Ec; destruct H; ws_fields s; ws_open; [ws_solve|].
  subst cr. ws_flags. ws_solve.
Qed.

Lemma run_task_ok i task s :
  ws_ok s -> pumping s = false -> tasks s !! i = Some task -> ws_ok (fst (run_task task (untask i s))).
Proof.
  intros Hs Hp Hi. destruct task as [|frame| | |why|]; cbn [run_task fst];
    try (pose proof (untask_ok _ _ _ Hs Hi eq_refl); auto using request_close_ok, run_kick_ok; fail);
    pose proof (countb_delete is_pump _ _ _ Hi) as Ep; pose proof (countb_delete is_write _ _ _ Hi) as Ew;
    cbn [is_pump is_write Nat.b2n] in Ep, Ew.
  - apply PumpRead_ok; [|done]. destruct Hs. unfold untask. ws_fields s. ws_open. subst pu. ws_solve.
  - unfold StartWrite, untask. destruct Hs. ws_fields s. ws_open.
    destruct fl, pc, cr; ws_open; ws_flags; ws_solve.
  - unfold post_failed, untask. destruct Hs. ws_fields s. ws_open. ws_solve.
Qed.

Lemma ws_step_ok `{JsonCodec} wire a s s' new :
  ws_ok s -> ws_step wire a s = Some (s', new) -> ws_ok s'.
Proof.
  intros Hs. destruct a; cbn [ws_step]; unfold on_executor.
  - intros [= <- <-]. by apply set_blocked_ok.
  - by apply ws_receive_pass_ok.
  - unfold receive_expire. destruct (settled s); [done|]. intros Hl.
    apply bind_Some in Hl as ([? ?] & _ & [= <- <-]). by apply set_blocked_ok.
  - by apply ws_receive_async_ok.
  - destruct (pumping s); [done|]. unfold receive_deadline_fires. destruct (negb _); [done|].
    destruct (pending_receive s); [destruct (_ =? _)|]; intros [= <- <-]; auto using unpark_ok.
  - unfold send_begin. destruct (EncodeForWire _ _); [|by intros [= <- <-]].
    destruct (send_turn s); [done|]. intros [= <- <-]. by apply set_send_turn_ok.
  - by apply ws_send_pass_ok.
  - unfold send_end. destruct (send_turn s) as [[[? ?] []]|]; try done. destruct (negb _); [done|].
    intros [= <- <-]. by apply set_send_turn_ok.
  - by apply ws_send_async_ok.
  - intros ->%some_fst. destruct posts; [by apply post_ok|by apply Abort_ok].
  - destruct (negb _); [done|]. intros ->%some_fst. destruct posts; [by apply post_ok|by apply Abort_ok].
  - intros ->%some_fst. by apply Abort_ok.
  - destruct (pumping s) eqn:Ep; [done|]. intros Hl. apply bind_Some in Hl as (task & Hi & ->%some_fst).
    pose proof (run_task_ok i task s Hs Ep Hi) as Hd. unfold untask in Hd. by rewrite Ep in Hd.
  - destruct (pumping s) eqn:Ep; [|done]. intros [= <- <-]. apply PumpRead_ok; [|done].
    destruct Hs. ws_fields s. ws_open. subst pu. ws_solve.
  - destruct (pumping s) eqn:Ep; [done|]. by apply OnRead_ok.
  - destruct (pumping s) eqn:Ep; [done|]. by apply OnWrite_ok.
  - destruct (pumping s) eqn:Ep; [done|]. by apply OnClose_ok.
Qed.

(** ** Runs *)

Inductive ws_run `{JsonCodec} (wire : Wire) : list WsAction -> WsSession -> list WsCompletion -> Prop :=
| ws_run_start : ws_run wire [] Started []
| ws_run_step acts s done a s' new :
    ws_run wire acts s done -> ws_step wire a s = Some (s', new) ->
    ws_run wire (acts ++ [a]) s' (done ++ new).

Lemma ws_exec_run `{JsonCodec} wire acts' : forall acts s cs s' cs',
  ws_run wire acts s cs -> ws_exec wire acts' s = Some (s', cs') ->
  ws_run wire (acts ++ acts') s' (cs ++ cs').
Proof.
  induction acts' as [|a acts' IH]; intros acts s cs s' cs' Hr; cbn [ws_exec].
  - intros [= <- <-]. by rewrite !app_nil_r.
  - intros Hx. apply bind_Some in Hx as ([s1 new] & Hs & Hx).
    apply bind_Some in Hx as ([s2 new'] & Hx & [= <- <-]).
    rewrite (app_assoc cs). replace (acts ++ a :: acts') with ((acts ++ [a]) ++ acts') by (by rewrite <- app_assoc).
    eapply IH; [by eapply ws_run_step|done].
Qed.

Lemma ws_run_ok `{JsonCodec} wire acts s cs : ws_run wire acts s cs -> ws_ok s.
Proof. induction 1; [apply Started_ok|by eapply ws_step_ok]. Qed.

(** ** Every call completes once *)

Definition begun (a : WsAction) : list call :=
  match a with
  | WReceiveBegin c | WReceiveAsync c _ _ _ _ | WSendBegin c _ | WSendAsync c _ _ => [c]
  | _ => []
  end.

Definition ws_call (c : WsCompletion) : call := match c with Received c _ | Sent c _ => c end.

Definition slot (o : option call) : list call := match o with Some c => [c] | None => [] end.

Definition turn_call (t : option (call * bytes * bool)) : list call :=
  match t with Some (c, _, _) => [c] | None => [] end.

(** The calls not told their outcome yet. *)
Definition waiting (s : WsSession) : list call :=
  slot (pending_receive s) ++ slot (pending_send s) ++ blocked_receivers s ++ turn_call (send_turn s).

Definition pend (x : call) (s : WsSession) : nat := cnt x (waiting s).

Lemma pend_eq x s :
  pend x s = (cnt x (slot (pending_receive s)) + cnt x (slot (pending_send s))
              + cnt x (blocked_receivers s) + cnt x (turn_call (send_turn s)))%nat.
Proof. unfold pend, waiting. rewrite !cnt_app. lia. Qed.

Ltac ws_count := rewrite ?pend_eq; ws_open; rewrite ?cnt_app; cbn [map ws_call slot turn_call app].

Ltac count_lia :=
  cbn [map ws_call slot turn_call app];
  repeat match goal with
  | |- context [cnt ?x (?c :: ?c' :: ?l)] => rewrite (cnt_cons x c (c' :: l))
  | |- context [cnt ?x []] => change (cnt x []) with 0%nat
  end; lia.

Lemma take_waiters_calls x clean why s :
  pend x s = (cnt x (map ws_call (snd (take_waiters clean why s))) + pend x (fst (take_waiters clean why s)))%nat.
Proof.
  unfold take_waiters. cbn [fst snd]. ws_count. destruct (pending_send s), (pending_receive s); count_lia.
Qed.

Lemma fail_once_pend x why s : pend x (fail_once why s) = pend x s.
Proof. unfold fail_once. by ws_cases. Qed.

Lemma FailSession_calls x why s :
  pend x s = (cnt x (map ws_call (snd (FailSession why s))) + pend x (fst (FailSession why s)))%nat.
Proof. unfold FailSession. by rewrite <- (fail_once_pend x why s), <- take_waiters_calls. Qed.

Lemma FailAndClose_calls x why s :
  pend x s = (cnt x (map ws_call (snd (FailAndClose why s))) + pend x (fst (FailAndClose why s)))%nat.
Proof.
  rewrite <- (fail_once_pend x why s), (take_waiters_calls x false (error (fail_once why s))).
  unfold FailAndClose, take_waiters, start_close. cbn [fst snd]. f_equal. ws_open. by ws_cases.
Qed.

Lemma Abort_calls x why posts s :
  pend x s = (cnt x (map ws_call (snd (Abort_ why posts s))) + pend x (fst (Abort_ why posts s)))%nat.
Proof.
  rewrite (FailSession_calls x why s). unfold Abort_. destruct (FailSession why s) as [s' new]. by destruct posts.
Qed.

Lemma request_close_pend x s : pend x (request_close s) = pend x s.
Proof. unfold request_close, start_close. ws_open. by ws_cases. Qed.

Lemma resume_pend x posts s : pend x (ResumeReadsIfPaused posts s) = pend x s.
Proof. unfold ResumeReadsIfPaused. by ws_cases. Qed.

Lemma pump_pend x s : pend x (PumpRead s) = pend x s.
Proof. unfold PumpRead. by ws_cases. Qed.

Lemma receive_pass_calls x c posts s s' new :
  receive_pass c posts s = Some (s', new) -> pend x s = (cnt x (map ws_call new) + pend x s')%nat.
Proof.
  unfold receive_pass. destruct (negb (settled s)); [done|]. intros Hl.
  apply bind_Some in Hl as ([c' rest] & [-> Hc]%leave_call & Hl).
  assert (E : pend x s = (cnt x [c] + pend x (set_blocked rest s))%nat) by (ws_count; rewrite Hc; lia).
  rewrite E. destruct (received (set_blocked rest s)) as [|m ms], (pending_receive (set_blocked rest s));
    try (destruct (peer_closed _); by injection Hl as <- <-). injection Hl as <- <-. by rewrite resume_pend.
Qed.

Lemma receive_async_calls x c timeout resumes completes arms s s' new :
  receive_async c timeout resumes completes arms s = Some (s', new) ->
  (cnt x [c] + pend x s = cnt x (map ws_call new) + pend x s')%nat.
Proof.
  unfold receive_async. destruct (pending_receive s) as [c'|] eqn:Ep; [by intros [= <- <-]|]. cbn [orb].
  destruct (0 <? _); [by intros [= <- <-]|].
  assert (Hpark : forall g t, (cnt x [c] + pend x s = pend x
    (with_inbox (mkInbox [] (Some c) g t (blocked_receivers s) (read_paused s)) s))%nat)
    by (intros g t; ws_count; rewrite Ep; count_lia).
  destruct (received s) as [|m rest]; [|intros [= <- <-]; by rewrite resume_pend].
  destruct (peer_closed s); [by intros [= <- <-]|]. destruct (failed s); [by intros [= <- <-]|].
  destruct timeout as [t|]; [destruct (t <=? 0); [by intros [= <- <-]|]; destruct arms|];
    intros [= <- <-]; [apply Hpark| |apply Hpark]. ws_count. rewrite Ep. count_lia.
Qed.

Lemma OnRead_calls `{JsonCodec} x wire r s s' new :
  OnRead wire r s = Some (s', new) -> pend x s = (cnt x (map ws_call new) + pend x s')%nat.
Proof.
  unfold OnRead. destruct (reads s) as [|n]; [done|]. change (pend x s) with (pend x (set_reads n s)).
  destruct r as [frame|ec|got_binary data].
  - intros [-> ->]%some_pair. apply (take_waiters_calls x true [] (set_peer_closed (Some frame) (set_reads n s))).
  - destruct (_ && _); [by intros [= <- <-]|]. intros [-> ->]%some_pair. apply FailSession_calls.
  - destruct (decode_frame wire got_binary data) as [m|why]; intros [-> ->]%some_pair; [|apply FailAndClose_calls].
    unfold Deliver. destruct (pending_receive (set_reads n s)) as [c|] eqn:Ep; [|done].
    cbn [fst snd]. ws_count. rewrite Ep. count_lia.
Qed.

Lemma send_pass_calls x c posts s s' new :
  send_pass c posts s = Some (s', new) -> pend x s = (cnt x (map ws_call new) + pend x s')%nat.
Proof.
  unfold send_pass. destruct (send_turn s) as [[[c' frame] []]|] eqn:Et; try done.
  destruct (negb _) eqn:Em; [done|]. apply negb_false_iff, andb_true_iff in Em as [->%Nat.eqb_eq _].
  ws_cases; intros [-> ->]%some_pair; ws_count; rewrite Et; count_lia.
Qed.

Lemma send_end_calls x c s s' new :
  send_end c s = Some (s', new) -> pend x s = (cnt x (map ws_call new) + pend x s')%nat.
Proof.
  unfold send_end. destruct (send_turn s) as [[[c' frame] []]|] eqn:Et; try done.
  destruct (negb _) eqn:Em; [done|]. apply negb_false_iff, andb_true_iff in Em as [->%Nat.eqb_eq _].
  intros [-> ->]%some_pair. ws_count. rewrite Et. count_lia.
Qed.

Lemma send_async_calls `{JsonCodec} x wire c m posts s s' new :
  send_async wire c m posts s = Some (s', new) ->
  (cnt x [c] + pend x s = cnt x (map ws_call new) + pend x s')%nat.
Proof.
  unfold send_async. destruct (EncodeForWire wire m); [|by intros [= <- <-]].
  destruct (_ || _); [by intros [= <- <-]|].
  destruct (negb (write_complete s)); [by intros [= <- <-]|]. cbn [orb].
  destruct (pending_send s) eqn:Ep; [by intros [= <- <-]|].
  intros [-> ->]%some_pair. ws_count. rewrite Ep. count_lia.
Qed.

Lemma OnWrite_calls x ec s s' new :
  OnWrite ec s = Some (s', new) -> pend x s = (cnt x (map ws_call new) + pend x s')%nat.
Proof.
  unfold OnWrite. destruct (writes s) as [|f rest]; [done|]. intros [-> ->]%some_pair. cbn [fst snd].
  assert (E : forall o, pend x s = (cnt x (slot (pending_send s)) + pend x
    (with_outbox (mkOutbox None (send_turn s) true o false) (set_writes rest s)))%nat)
    by (intros o; ws_count; count_lia).
  match goal with |- context [mkOutbox None _ true ?o false] => set (why := o) end. rewrite (E why).
  f_equal; [change (pending_send (set_writes rest s)) with (pending_send s); by destruct (pending_send s)|].
  destruct ec; [by rewrite fail_once_pend|]. unfold start_close. by ws_cases.
Qed.

Lemma OnClose_calls x ec s s' new :
  OnClose ec s = Some (s', new) -> pend x s = (cnt x (map ws_call new) + pend x s')%nat.
Proof.
  unfold OnClose. destruct (closes s) as [|f rest]; [done|]. intros [-> ->]%some_pair.
  rewrite <- take_waiters_calls. ws_cases; try done. by destruct ec.
Qed.

Lemma run_task_calls x task s :
  pend x s = (cnt x (map ws_call (snd (run_task task s))) + pend x (fst (run_task task s)))%nat.
Proof.
  destruct task as [|frame| | |why|]; cbn [run_task fst snd].
  - by rewrite pump_pend.
  - unfold StartWrite. destruct (failed s || peer_closed s || close_requested s); [|done]. ws_count. destruct (pending_send s); count_lia.
  - unfold post_failed. cbn [fst snd]. ws_count. destruct (pending_send s); count_lia.
  - by rewrite request_close_pend.
  - unfold run_kick. destruct (kicked s || peer_closed s); [done|]. rewrite request_close_pend. by ws_cases.
  - done.
Qed.

Lemma ws_step_calls `{JsonCodec} x wire a s s' new :
  ws_step wire a s = Some (s', new) ->
  (cnt x (begun a) + pend x s = cnt x (map ws_call new) + pend x s')%nat.
Proof.
  destruct a; cbn [ws_step begun]; unfold on_executor; rewrite ?(eq_refl : cnt x [] = 0%nat).
  - intros [= <- <-]. ws_count. count_lia.
  - intros Hs. by apply (receive_pass_calls x) in Hs.
  - unfold receive_expire. destruct (settled s); [done|]. intros Hl.
    apply bind_Some in Hl as ([c' rest] & [-> Hc]%leave_call & [-> ->]%some_pair). ws_count. rewrite Hc. count_lia.
  - by apply receive_async_calls.
  - destruct (pumping s); [done|]. unfold receive_deadline_fires. destruct (negb _); [done|].
    destruct (pending_receive s) eqn:Ep; [destruct (_ =? _)|]; intros [-> ->]%some_pair; try done.
    ws_count. rewrite Ep. count_lia.
  - unfold send_begin. destruct (EncodeForWire _ _); [|by intros [= <- <-]].
    destruct (send_turn s) eqn:Et; [done|]. intros [-> ->]%some_pair. ws_count. rewrite Et. count_lia.
  - intros Hs. by apply (send_pass_calls x) in Hs.
  - intros Hs. by apply (send_end_calls x) in Hs.
  - by apply send_async_calls.
  - intros [-> ->]%some_pair. destruct posts; [done|apply Abort_calls].
  - destruct (negb _); [done|]. intros [-> ->]%some_pair. destruct posts; [done|apply Abort_calls].
  - intros [-> ->]%some_pair. apply Abort_calls.
  - destruct (pumping s) eqn:Ep; [done|]. intros Hl. apply bind_Some in Hl as (task & Hi & [-> ->]%some_pair).
    by rewrite <- run_task_calls.
  - destruct (pumping s); [|done]. intros [-> ->]%some_pair. cbn [fst snd]. by rewrite pump_pend.
  - destruct (pumping s); [done|]. intros Hs. by apply (OnRead_calls x) in Hs.
  - destruct (pumping s); [done|]. intros Hs. by apply (OnWrite_calls x) in Hs.
  - destruct (pumping s); [done|]. intros Hs. by apply (OnClose_calls x) in Hs.
Qed.
