(* ===== verification/WsSessionSpec.v ===== *)
(** What the WebSocket session of WsSession.v promises its callers and Beast:
    the claims about its runs, over the invariants of WsInvariants.v. *)
From Stdlib Require Import ZArith Lia Strings.Byte.
From S2P Require Import Prelude Bytes Utf8 OrdMap Cbor Json Frame WebSocketPair Envelope StreamFrames WsSession WsInvariants.

Local Open Scope Z_scope.

(** ** Messages in order *)

(** The message a read completes with. *)
Definition arrival `{JsonCodec} (wire : Wire) (a : WsAction) : list Message :=
  match a with
  | WOnRead (ReadMessage got_binary data) =>
    match decode_frame wire got_binary data with inl m => [m] | inr _ => [] end
  | _ => []
  end.

Definition arrivals `{JsonCodec} (wire : Wire) (acts : list WsAction) : list Message :=
  mjoin (map (arrival wire) acts).

Definition message_given (c : WsCompletion) : option Message :=
  match c with Received _ (Ok (Some m)) => Some m | _ => None end.

Definition given (done : list WsCompletion) : list Message := omap message_given done.

(** Every ready message could be posted to its receiver. *)
Definition completes (a : WsAction) : bool :=
  match a with WReceiveAsync _ _ _ k _ => k | _ => true end.

Lemma given_app l l' : given (l ++ l') = given l ++ given l'.
Proof. apply omap_app. Qed.

Lemma take_waiters_given clean why s :
  given (snd (take_waiters clean why s)) = [] /\ received (fst (take_waiters clean why s)) = received s.
Proof.
  split; [|done]. unfold take_waiters. cbn [snd]. rewrite given_app.
  destruct (pending_send s), (pending_receive s), clean; done.
Qed.

Lemma fail_once_received why s : received (fail_once why s) = received s.
Proof. unfold fail_once. by ws_cases. Qed.

Lemma FailSession_given why s :
  given (snd (FailSession why s)) = [] /\ received (fst (FailSession why s)) = received s.
Proof.
  unfold FailSession. destruct (take_waiters_given false (error (fail_once why s)) (fail_once why s)) as [-> ->].
  by rewrite fail_once_received.
Qed.

Lemma FailAndClose_given why s :
  given (snd (FailAndClose why s)) = [] /\ received (fst (FailAndClose why s)) = received s.
Proof.
  destruct (take_waiters_given false (error (fail_once why s)) (fail_once why s)) as [Hg _].
  rewrite <- (fail_once_received why s). unfold FailAndClose, take_waiters, start_close in *.
  cbn [fst snd] in *. split; [exact Hg|]. by ws_cases.
Qed.

Lemma Abort_given why posts s :
  given (snd (Abort_ why posts s)) = [] /\ received (fst (Abort_ why posts s)) = received s.
Proof.
  pose proof (FailSession_given why s) as H. unfold Abort_. destruct (FailSession why s) as [s' new].
  by destruct posts.
Qed.

Lemma request_close_received s : received (request_close s) = received s.
Proof. unfold request_close, start_close. by ws_cases. Qed.

Lemma resume_received posts s : received (ResumeReadsIfPaused posts s) = received s.
Proof. unfold ResumeReadsIfPaused. by ws_cases. Qed.

Lemma pump_received s : received (PumpRead s) = received s.
Proof. unfold PumpRead. by ws_cases. Qed.

Lemma run_task_given task s :
  given (snd (run_task task s)) = [] /\ received (fst (run_task task s)) = received s.
Proof.
  destruct task as [|frame| | |why|]; cbn [run_task fst snd]; split; try done; try apply pump_received;
    try apply request_close_received.
  - unfold StartWrite. ws_cases; cbn [snd]; by destruct (pending_send s).
  - unfold StartWrite. by ws_cases.
  - unfold post_failed. cbn [snd]. by destruct (pending_send s).
  - unfold run_kick. destruct (kicked s || peer_closed s); [done|]. rewrite request_close_received. by ws_cases.
Qed.

(** A step that moves no message. *)
Ltac unmoved := intros [-> ->]%some_pair; rewrite app_nil_r; cbn [fst snd].

Lemma OnRead_given `{JsonCodec} wire r s s' new :
  ws_ok s -> OnRead wire r s = Some (s', new) ->
  received s ++ arrival wire (WOnRead r) = given new ++ received s'.
Proof.
  intros Hs. unfold OnRead. destruct (reads s) as [|n]; [done|].
  destruct r as [frame|ec|got_binary data]; cbn [arrival].
  - unmoved. by destruct (take_waiters_given true [] (set_peer_closed (Some frame) (set_reads n s))) as [-> ->].
  - destruct (_ && _); unmoved; [done|]. by destruct (FailSession_given (error_message ec) (set_reads n s)) as [-> ->].
  - destruct (decode_frame wire got_binary data) as [m|why].
    + intros [-> ->]%some_pair. unfold Deliver. destruct (pending_receive (set_reads n s)) as [c|] eqn:Ep; [|done].
      cbn [fst snd]. pose proof (ok_parked _ Hs) as Hq. unfold parked in Hq. change (pending_receive s = Some c) in Ep.
      rewrite Ep in Hq. specialize (Hq eq_refl).
      assert (E : received s = []) by (destruct (received s); [done|rewrite len_cons in Hq; pose proof (len_nonneg l); lia]).
      simpl. by rewrite E.
    + unmoved. by destruct (FailAndClose_given why (set_reads n s)) as [-> ->].
Qed.

Lemma ws_step_given `{JsonCodec} wire a s s' new :
  ws_ok s -> completes a = true -> ws_step wire a s = Some (s', new) ->
  received s ++ arrival wire a = given new ++ received s'.
Proof.
  intros Hs Hk. destruct a; cbn [ws_step]; unfold on_executor; cbn [arrival].
  - unmoved. done.
  - unfold receive_pass. destruct (negb (settled s)); [done|]. intros Hl.
    apply bind_Some in Hl as ([c' rest] & _ & Hl). revert Hl.
    change (received (set_blocked rest s)) with (received s).
    destruct (received s) as [|m ms] eqn:Er, (pending_receive (set_blocked rest s));
      try (destruct (peer_closed _); unmoved; simpl; by rewrite Er).
    unmoved. by rewrite resume_received.
  - unfold receive_expire. destruct (settled s); [done|]. intros Hl.
    apply bind_Some in Hl as ([c' rest] & _ & Hl). revert Hl. by unmoved.
  - simpl in Hk. subst completes0. unfold receive_async. destruct (pending_receive s); [by unmoved|].
    cbn [orb]. destruct (0 <? _); [by unmoved|]. destruct (received s) as [|m rest] eqn:Er.
    + destruct (peer_closed s); [unmoved; simpl; by rewrite Er|].
      destruct (failed s); [unmoved; simpl; by rewrite Er|].
      destruct timeout as [t|]; [destruct (t <=? 0); [unmoved; simpl; by rewrite Er|]; destruct arms|]; by unmoved.
    + unmoved. by rewrite resume_received.
  - destruct (pumping s); [done|]. unfold receive_deadline_fires. destruct (negb _); [done|].
    destruct (pending_receive s); [destruct (_ =? _)|]; by unmoved.
  - unfold send_begin. destruct (EncodeForWire _ _); [|by unmoved]. destruct (send_turn s); [done|]. by unmoved.
  - unfold send_pass. destruct (send_turn s) as [[[c' frame] []]|]; try done. destruct (negb _); [done|].
    ws_cases; by unmoved.
  - unfold send_end. destruct (send_turn s) as [[[c' frame] []]|]; try done. destruct (negb _); [done|]. by unmoved.
  - unfold send_async. destruct (EncodeForWire _ _); [|by unmoved]. destruct (failed s || _ || _); [by unmoved|].
    destruct (negb _ || _); by unmoved.
  - unmoved. destruct posts; [done|]. by destruct (Abort_given (lit "websocket: cannot schedule the close") true s) as [-> ->].
  - destruct (negb _); [done|]. unmoved. destruct posts; [done|].
    by destruct (Abort_given (lit "websocket: cannot schedule the kick") true s) as [-> ->].
  - unmoved. by destruct (Abort_given why posts s) as [-> ->].
  - destruct (pumping s) eqn:Ep; [done|]. intros Hl. apply bind_Some in Hl as (task & Hi & Hl). revert Hl. unmoved.
    match goal with |- context [run_task task ?x] => destruct (run_task_given task x) as [-> ->] end. done.
  - destruct (pumping s); [|done]. unmoved. cbn [fst snd]. by rewrite pump_received.
  - destruct (pumping s); [done|]. by apply OnRead_given.
  - destruct (pumping s); [done|]. unfold OnWrite. destruct (writes s) as [|f rest]; [done|]. unmoved.
    cbn [fst snd]. change (pending_send (set_writes rest s)) with (pending_send s).
    destruct ec as [ec|]; rewrite ?fail_once_received; unfold start_close; ws_cases; by destruct (pending_send s).
  - destruct (pumping s); [done|]. unfold OnClose. destruct (closes s) as [|f rest]; [done|]. unmoved.
    match goal with |- context [take_waiters ?b ?w ?x] => destruct (take_waiters_given b w x) as [-> ->] end.
    ws_cases; try done. by destruct ec.
Qed.

Lemma ws_run_given `{JsonCodec} wire acts s done :
  ws_run wire acts s done -> Forall (fun a => completes a = true) acts ->
  arrivals wire acts = given done ++ received s.
Proof.
  induction 1 as [|acts s done a s' new Hr IH Hs]; [done|]. intros [Ha Hk]%Forall_app.
  apply Forall_cons in Hk as [Hk _].
  assert (E : arrivals wire (acts ++ [a]) = arrivals wire acts ++ arrival wire a).
  { unfold arrivals. rewrite map_app, join_app. simpl. by rewrite app_nil_r. }
  pose proof (ws_step_given wire a s s' new (ws_run_ok _ _ _ _ Hr) Hk Hs) as Hg.
  by rewrite E, IH, <- app_assoc, Hg, given_app, app_assoc by done.
Qed.

(** ** A session that ended without a failed write has nothing parked *)

Definition write_fails (a : WsAction) : bool := match a with WOnWrite (Some _) => true | _ => false end.

Definition unstuck (s : WsSession) : Prop := failed s = true -> parked s = false.

Lemma take_waiters_unstuck clean why s : unstuck (fst (take_waiters clean why s)).
Proof. done. Qed.

Lemma FailAndClose_unstuck why s : unstuck (fst (FailAndClose why s)).
Proof. intros _. unfold FailAndClose, take_waiters, start_close. cbn [fst]. by ws_cases. Qed.

Lemma Abort_unstuck why posts s : unstuck (fst (Abort_ why posts s)).
Proof. unfold Abort_, FailSession, take_waiters. by destruct posts. Qed.

Lemma request_close_unstuck s : unstuck s -> unstuck (request_close s).
Proof. unfold request_close, start_close, unstuck, parked. ws_cases; auto. Qed.

Lemma resume_unstuck posts s : parked s = false -> unstuck (ResumeReadsIfPaused posts s).
Proof. unfold ResumeReadsIfPaused, unstuck, parked. ws_cases; auto. Qed.

Lemma run_task_unstuck task s : unstuck s -> unstuck (fst (run_task task s)).
Proof.
  intros Hu. destruct task as [|frame| | |why|]; cbn [run_task fst]; try done; try by apply request_close_unstuck.
  - revert Hu. unfold PumpRead. ws_cases; exact (fun H => H).
  - revert Hu. unfold StartWrite. ws_cases; exact (fun H => H).
  - unfold run_kick. destruct (kicked s || peer_closed s); [done|]. apply request_close_unstuck.
    revert Hu. ws_cases; exact (fun H => H).
Qed.

Lemma ws_step_unstuck `{JsonCodec} wire a s s' new :
  unstuck s -> write_fails a = false -> ws_step wire a s = Some (s', new) -> unstuck s'.
Proof.
  intros Hu Hw. destruct a; cbn [ws_step]; unfold on_executor.
  - by intros ->%some_fst.
  - unfold receive_pass. destruct (negb (settled s)); [done|]. intros Hl.
    apply bind_Some in Hl as ([c' rest] & _ & Hl). revert Hl.
    destruct (received _), (pending_receive (set_blocked rest s)) eqn:Ep;
      try (destruct (peer_closed _); intros ->%some_fst; exact Hu).
    intros ->%some_fst. apply resume_unstuck. unfold parked. change (engaged_slot (pending_receive (set_blocked rest s)) = false).
    by rewrite Ep.
  - unfold receive_expire. destruct (settled s); [done|]. intros Hl.
    by apply bind_Some in Hl as ([c' rest] & _ & ->%some_fst).
  - unfold receive_async. destruct (pending_receive s) eqn:Ep; [by intros ->%some_fst|]. cbn [orb].
    destruct (0 <? _); [by intros ->%some_fst|]. destruct (received s).
    + destruct (peer_closed s); [by intros ->%some_fst|]. destruct (failed s) eqn:Ef; [by intros ->%some_fst|].
      assert (Hv : forall i, unstuck (with_inbox i s)) by (intros i; unfold unstuck; simpl; by rewrite Ef).
      destruct timeout as [t|]; [destruct (t <=? 0); [by intros ->%some_fst|]; destruct arms|];
        intros ->%some_fst; apply Hv.
    + intros ->%some_fst. apply resume_unstuck. unfold parked. simpl. by rewrite Ep.
  - destruct (pumping s); [done|]. unfold receive_deadline_fires. destruct (negb _); [done|].
    destruct (pending_receive s) eqn:?; [destruct (_ =? _)|]; by intros ->%some_fst.
  - unfold send_begin. destruct (EncodeForWire _ _); [|by intros ->%some_fst].
    destruct (send_turn s); [done|]. by intros ->%some_fst.
  - unfold send_pass. destruct (send_turn s) as [[[c' frame] []]|]; try done. destruct (negb _); [done|].
    ws_cases; by intros ->%some_fst.
  - unfold send_end. destruct (send_turn s) as [[[c' frame] []]|]; try done. destruct (negb _); [done|].
    by intros ->%some_fst.
  - unfold send_async. destruct (EncodeForWire _ _); [|by intros ->%some_fst].
    destruct (_ || _); [by intros ->%some_fst|]. destruct (negb _ || _); by intros ->%some_fst.
  - intros ->%some_fst. destruct posts; [done|apply Abort_unstuck].
  - destruct (negb _); [done|]. intros ->%some_fst. destruct posts; [done|apply Abort_unstuck].
  - intros ->%some_fst. apply Abort_unstuck.
  - destruct (pumping s); [done|]. intros Hl. apply bind_Some in Hl as (task & Hi & ->%some_fst).
    by apply run_task_unstuck.
  - destruct (pumping s); [|done]. intros ->%some_fst. by apply (run_task_unstuck TPumpRead).
  - destruct (pumping s); [done|]. unfold OnRead. destruct (reads s) as [|n]; [done|].
    destruct r as [frame|ec|got_binary data]; [by intros ->%some_fst| |].
    + destruct (_ && _); by intros ->%some_fst.
    + destruct (decode_frame _ _ _); intros ->%some_fst; [|apply FailAndClose_unstuck].
      unfold Deliver. destruct (pending_receive _) eqn:?; [done|exact Hu].
  - destruct (pumping s); [done|]. destruct ec; [done|]. unfold OnWrite. destruct (writes s); [done|].
    intros ->%some_fst. revert Hu. unfold start_close. ws_cases; exact (fun H => H).
  - destruct (pumping s); [done|]. unfold OnClose. destruct (closes s); [done|]. by intros ->%some_fst.
Qed.

Lemma ws_run_unstuck `{JsonCodec} wire acts s done :
  ws_run wire acts s done -> Forall (fun a => write_fails a = false) acts -> unstuck s.
Proof.
  induction 1 as [|acts s done a s' new Hr IH Hs]; [done|]. intros [Ha Hk]%Forall_app.
  apply Forall_cons in Hk as [Hk _]. by eapply ws_step_unstuck; eauto.
Qed.

(** ** The wires *)

(** What a message must be for the text wire to carry it unchanged. *)
Definition carried `{JsonCodecLaws} (wire : Wire) (m : Message) : Prop :=
  match wire with
  | kBinary => message_typed m = true
  | kRawText => True
  | kJsonFrames => exists k type p, m = wire_message k type p /\ type <> [] /\ utf8 type /\ len type < 2 ^ 64
      /\ plain (Map_ p) /\ len (encode (Map_ p)) < 2 ^ 63 /\ (levels (Map_ p) + 1 <= max_levels)%nat
  end.

Lemma decode_frame_sent `{JsonCodecLaws} wire m frame :
  carried wire m -> EncodeForWire wire m = Ok frame -> decode_frame wire (is_binary wire) frame = inl m.
Proof.
  destruct wire; cbn [carried EncodeForWire is_binary decode_frame negb].
  - intros Ht He. pose proof (decode_encode_message m frame [] Ht He) as Hd. rewrite app_nil_r in Hd.
    by rewrite Hd, Z.eqb_refl.
  - intros (k & type & p & -> & Hne & Hu & Hl & Hp & Hs & Hlev) He. by rewrite (json_wire k type p frame).
  - intros _. unfold EncodeRawTextFrame. destruct (msg_headers m) eqn:Eh; [|done].
    destruct (_ >? _); [done|]. intros [= <-]. by destruct m; simpl in *; subst.
Qed.

Lemma decode_frame_wrong `{JsonCodec} wire data : exists why, decode_frame wire (negb (is_binary wire)) data = inr why.
Proof. destruct wire; cbn; eauto. Qed.

(** ** A parked receive forgotten *)

(** What a session is after its write failed under a requested close. *)
Record stranded (c : call) (s : WsSession) : Prop := {
  st_failed : failed s = true;
  st_parked : pending_receive s = Some c;
  st_reads : reads s = 0%nat;
  st_writes : writes s = [];
  st_closes : closes s = [];
  st_timers : receive_park_generation s ∉ timers s;
  st_pumping : pumping s = false;
  st_blocked : c ∉ blocked_receivers s
}.

(** Everything but ending the session by force, with the posts it needs. *)
Definition no_abort (a : WsAction) : bool :=
  match a with WAbort _ _ | WClose false | WKick _ false => false | _ => true end.

Definition told (c : call) (done : list WsCompletion) : Prop := exists o, Received c o ∈ done.

Lemma told_cons c d done : told c (d :: done) -> (exists o, d = Received c o) \/ told c done.
Proof. intros [o [Hd|Ho]%elem_of_cons]; [left; by exists o|right; by exists o]. Qed.

Lemma told_nil c : ~ told c [].
Proof. intros [o Ho]. by apply elem_of_nil in Ho. Qed.

Ltac stepped := intros [-> ->]%some_pair; cbn [fst snd].

Lemma request_close_stranded c s : stranded c s -> stranded c (request_close s).
Proof. intros Hs. unfold request_close. by rewrite (st_failed _ _ Hs), orb_true_r. Qed.

Lemma run_task_stranded c i task s :
  stranded c s -> stranded c (fst (run_task task (untask i s))) /\ ~ told c (snd (run_task task (untask i s))).
Proof.
  intros Hs. assert (Hu : stranded c (untask i s)) by (destruct Hs; by split).
  generalize dependent (untask i s). clear s Hs. intros s Hs.
  destruct task as [|frame| | |why|]; cbn [run_task fst snd].
  - unfold PumpRead. rewrite (st_failed _ _ Hs). split; [done|apply told_nil].
  - unfold StartWrite. rewrite (st_failed _ _ Hs). destruct Hs. cbn [orb fst snd]. split; [by split|].
    destruct (pending_send s); [|apply told_nil]. intros [(o & [=])|Ht]%told_cons. by apply told_nil in Ht.
  - unfold post_failed. destruct Hs. cbn [fst snd]. split; [by split|].
    destruct (pending_send s); [|apply told_nil]. intros [(o & [=])|Ht]%told_cons. by apply told_nil in Ht.
  - split; [by apply request_close_stranded|apply told_nil].
  - split; [|apply told_nil]. unfold run_kick. destruct (kicked s || peer_closed s); [done|].
    apply request_close_stranded. destruct Hs. ws_cases; by split.
  - split; [done|apply told_nil].
Qed.

Lemma leave_stranded c c' s rest :
  stranded c s -> leave (Nat.eqb c') (blocked_receivers s) = Some (c', rest) ->
  stranded c (set_blocked rest s) /\ c <> c'.
Proof.
  intros [] Hl. destruct (leave_cons _ _ _ _ Hl) as [_ Hp]. rewrite Hp in st_blocked0.
  apply not_elem_of_cons in st_blocked0 as [Hne Hr]. split; [by split|done].
Qed.

Lemma told_one c c' o : c <> c' -> ~ told c [Received c' o].
Proof. intros Hne [(o' & [= <- _])|Ht]%told_cons; [done|by apply told_nil in Ht]. Qed.

Lemma told_sent c c' o : ~ told c [Sent c' o].
Proof. intros [(o' & [=])|Ht]%told_cons. by apply told_nil in Ht. Qed.

Lemma ws_step_stranded `{JsonCodec} wire c a s s' new :
  stranded c s -> c ∉ begun a -> no_abort a = true -> ws_step wire a s = Some (s', new) ->
  stranded c s' /\ ~ told c new.
Proof.
  intros Hs Hc Ha. destruct a; cbn [ws_step begun no_abort] in *; unfold on_executor;
    try rewrite (st_pumping _ _ Hs).
  - stepped. split; [|apply told_nil]. destruct Hs. split; try done. simpl.
    intros [?|Hi]%elem_of_app; [done|]. apply Hc. done.
  - unfold receive_pass. destruct (negb (settled s)); [done|]. intros Hl.
    apply bind_Some in Hl as ([c' rest] & Hv & Hl). pose proof Hv as [-> _]%leave_call.
    destruct (leave_stranded _ _ _ _ Hs Hv) as [Hs' Hne]. rewrite (st_parked _ _ Hs') in Hl.
    destruct (received _); destruct (peer_closed _); apply some_pair in Hl as [-> ->]; cbn [fst snd]; auto using told_one.
  - unfold receive_expire, settled. rewrite (st_failed _ _ Hs), orb_true_r. done.
  - unfold receive_async. rewrite (st_parked _ _ Hs). stepped. split; [done|].
    apply told_one. intros ->. apply Hc. by left.
  - unfold receive_deadline_fires. destruct (bool_decide_reflect (generation ∈ timers s)) as [Ht|]; [|done].
    cbn [negb]. rewrite (st_parked _ _ Hs). destruct (Z.eqb_spec (receive_park_generation s) generation) as [<-|].
    + by destruct (st_timers _ _ Hs).
    + stepped. auto using told_nil.
  - unfold send_begin. destruct (EncodeForWire _ _); [destruct (send_turn s); [done|]|];
      stepped; split; auto using told_nil, told_sent. destruct Hs. by split.
  - unfold send_pass. destruct (send_turn s) as [[[c' frame] []]|]; try done. destruct (negb _); [done|].
    rewrite (st_failed _ _ Hs). stepped. split; [destruct Hs; by split|apply told_sent].
  - unfold send_end. destruct (send_turn s) as [[[c' frame] []]|]; try done. destruct (negb _); [done|].
    stepped. split; [destruct Hs; by split|apply told_sent].
  - unfold send_async. destruct (EncodeForWire _ _); [rewrite (st_failed _ _ Hs)|];
      stepped; auto using told_sent.
  - destruct posts; [|done]. stepped. split; [destruct Hs; by split|apply told_nil].
  - destruct (negb _); [done|]. destruct posts; [|done]. stepped.
    split; [destruct Hs; by split|apply told_nil].
  - done.
  - intros Hl. apply bind_Some in Hl as (task & Hi & [-> ->]%some_pair).
    pose proof (run_task_stranded c i task s Hs) as Hr. unfold untask in Hr. by rewrite (st_pumping _ _ Hs) in Hr.
  - done.
  - unfold OnRead. by rewrite (st_reads _ _ Hs).
  - unfold OnWrite. by rewrite (st_writes _ _ Hs).
  - unfold OnClose. by rewrite (st_closes _ _ Hs).
Qed.

Lemma ws_exec_stranded `{JsonCodec} wire c acts : forall s s' done,
  stranded c s -> Forall (fun a => c ∉ begun a /\ no_abort a = true) acts ->
  ws_exec wire acts s = Some (s', done) -> stranded c s' /\ ~ told c done.
Proof.
  induction acts as [|a acts IH]; intros s s' new Hs Hf; cbn [ws_exec].
  - intros [-> ->]%some_pair. auto using told_nil.
  - apply Forall_cons in Hf as [[Hc Ha] Hf]. intros Hx.
    apply bind_Some in Hx as ([s1 new1] & Hst & Hx). apply bind_Some in Hx as ([s2 new2] & Hx & [-> ->]%some_pair).
    destruct (ws_step_stranded wire c a s s1 new1 Hs Hc Ha Hst) as [Hs1 Ht1].
    destruct (IH s1 s2 new2 Hs1 Hf Hx) as [Hs2 Ht2]. split; [done|].
    intros [o [Ho|Ho]%elem_of_app]; [apply Ht1|apply Ht2]; by exists o.
Qed.

(** ** Claims *)

(** C34: Beast's operation contract, in every run of a session, whatever the
    application and the environment do: at most one read is outstanding and at
    most one write-class operation (a message write or the close); once the
    close has started nothing is being written; at most eight messages are
    queued and no read is outstanding while eight are; and a live session that
    is not closing always has its read armed, about to be armed, or paused by a
    full queue. *)
Theorem ws_one_operation_each `{JsonCodec} wire acts s done :
  ws_run wire acts s done ->
  (reads s <= 1)%nat /\ (length (writes s) + length (closes s) <= 1)%nat
  /\ (close_started s = true -> writes s = [])
  /\ len (received s) <= kReceiveQueueDepth
  /\ (reads s = 1%nat -> len (received s) < kReceiveQueueDepth)
  /\ (failed s = false -> peer_closed s = false -> close_requested s = false ->
      reads s = 1%nat \/ TPumpRead ∈ tasks s \/ pumping s = true
      \/ read_paused s = true /\ len (received s) = kReceiveQueueDepth).
Proof.
  intros Hr. pose proof (ws_run_ok _ _ _ _ Hr) as
    [Hpump Halive Hwrite _ _ Hcl Hun Hcd _ Hq Hrd Hps _ _ _]. unfold pump_tokens, write_tokens, kReceiveQueueDepth in *.
  split; [lia|]. split; [destruct (close_started s) eqn:?; [destruct (Hcd eq_refl)|specialize (Hun eq_refl)]; lia|].
  split; [intros Hc; apply length_zero_iff_nil; by apply Hcd|].
  split; [done|]. split; [intros; apply Hrd; lia|]. intros Hf Hp Hc. specialize (Halive Hf Hp Hc).
  destruct (reads s) as [|[|n]]; [|by left|lia]. right.
  destruct (countb is_pump (tasks s)) eqn:Et.
  - destruct (pumping s); [auto|]. destruct (read_paused s); [auto 6|simpl in *; lia].
  - left. replace (S n) with 1%nat in Et by lia. apply countb_exists, existsb_exists in Et as (t & Ht & Hp').
    apply list_elem_of_In. by destruct t.
Qed.

(** C30: every call is told its outcome exactly once and messages arrive in
    order: in every run, the calls begun are, as a multiset, those told plus
    those still waiting; and unless a ready message could not be posted to its
    receiver, the messages the peer's frames decode to are those handed out, in
    order, followed by those queued: none lost, duplicated or reordered. *)
Theorem ws_calls_and_messages `{JsonCodec} wire acts s done :
  ws_run wire acts s done ->
  mjoin (map begun acts) ≡ₚ map ws_call done ++ waiting s
  /\ (Forall (fun a => completes a = true) acts -> arrivals wire acts = given done ++ received s).
Proof.
  intros Hr. split; [|by apply ws_run_given]. apply (Permutation_count_occ Nat.eq_dec). intros x.
  change (cnt x (mjoin (map begun acts)) = cnt x (map ws_call done ++ waiting s)). rewrite cnt_app.
  fold (pend x s). clear -Hr. induction Hr as [|acts s done a s' new Hr IH Hs]; [done|].
  pose proof (ws_step_calls x wire a s s' new Hs) as Hx.
  assert (E : mjoin (map begun (acts ++ [a])) = mjoin (map begun acts) ++ begun a).
  { rewrite map_app, join_app. simpl. by rewrite app_nil_r. }
  rewrite E, map_app, !cnt_app, IH. lia.
Qed.

(** C36: nothing parked is forgotten while the session is live, or after it
    ended without a failed write.  In every run a parked send has its write
    posted or outstanding; a parked receive of a session that has not failed has
    a read armed or about to be, or a write or the close outstanding whose
    completion ends the session; and when no write failed, a session that failed
    or was closed has nothing parked at all. *)
Theorem ws_waiters_attended `{JsonCodec} wire acts s done :
  ws_run wire acts s done ->
  (pending_send s <> None -> existsb is_write (tasks s) = true \/ writes s <> [])
  /\ (pending_receive s <> None -> failed s = false ->
      reads s = 1%nat \/ TPumpRead ∈ tasks s \/ pumping s = true \/ writes s <> [] \/ closes s <> [])
  /\ (Forall (fun a => write_fails a = false) acts -> failed s = true \/ peer_closed s = true ->
      pending_receive s = None).
Proof.
  intros Hr. pose proof (ws_run_ok _ _ _ _ Hr) as
    [Hpump Halive Hwrite _ _ Hcl _ _ Hcg _ _ Hps Hpk Hsd Hcn].
  unfold pump_tokens, write_tokens, parked, sending in *. split; [|split].
  - intros Hp. destruct (pending_send s); [|done]. specialize (Hsd eq_refl).
    destruct (writes s); [left|by right]. simpl in Hsd. rewrite Nat.add_0_r in Hsd. by apply countb_exists.
  - intros Hp Hf. destruct (pending_receive s); [|done]. specialize (Hpk eq_refl).
    destruct (peer_closed s); [by destruct Hcn|].
    destruct (close_requested s).
    + specialize (Hcg eq_refl Hf eq_refl). destruct (writes s); [|auto 6]. destruct (closes s); [done|auto 6].
    + specialize (Halive Hf eq_refl eq_refl). destruct (read_paused s); [specialize (Hps eq_refl Hf eq_refl); lia|].
      destruct (reads s) as [|[|k]]; [|by left|lia]. right.
      destruct (pumping s); [auto|]. left. simpl in Halive. rewrite !Nat.add_0_r in Halive.
      apply countb_exists in Halive. apply existsb_exists in Halive as (t & Ht & Hp').
      apply list_elem_of_In. by destruct t.
  - intros Hw [Hf|Hp]; [pose proof (ws_run_unstuck _ _ _ _ Hr Hw Hf) as Hu|destruct (Hcn Hp) as [Hu _]];
      unfold parked in Hu; by destruct (pending_receive s).
Qed.

(** The run of the defect: a send in flight, a receive parked, then [Close],
    which cancels both operations instead of deferring behind the write. *)
Definition closed_over_a_write (m : Message) : list WsAction :=
  [WSendAsync 0 m true; WRun 0; WReceiveAsync 1 None true true true; WClose true; WRun 0;
   WOnRead (ReadError operation_aborted); WOnWrite (Some operation_aborted)].

(** C35: a receive that no later event completes.  [Close] over a write in
    flight fails the session when the cancelled write completes, but the receive
    parked beside it stays parked with nothing outstanding: whatever happens
    next, short of aborting the session, its callback is never called, although
    [Close] promises to complete every parked operation. *)
Theorem close_strands_receive `{JsonCodec} wire m frame :
  EncodeForWire wire m = Ok frame ->
  exists s, ws_exec wire (closed_over_a_write m) Started
      = Some (s, [Sent 0 (Err (transport (lit "session closed while a send was in flight")))])
    /\ failed s = true /\ pending_receive s = Some 1%nat
    /\ reads s = 0%nat /\ writes s = [] /\ closes s = [] /\ tasks s = [] /\ timers s = []
    /\ forall acts s' done, Forall (fun a => 1%nat ∉ begun a /\ no_abort a = true) acts ->
         ws_exec wire acts s = Some (s', done) ->
         pending_receive s' = Some 1%nat /\ ~ told 1 done.
Proof.
  intros He. eexists. split.
  { unfold closed_over_a_write. cbn [ws_exec ws_step]. unfold send_async. rewrite He. reflexivity. }
  do 7 (split; [reflexivity|]). intros acts s' done Hf Hx.
  match type of Hx with ws_exec _ _ ?s0 = _ => assert (Hs : stranded 1 s0) end.
  { split; try reflexivity; apply not_elem_of_nil. }
  destruct (ws_exec_stranded wire 1 acts _ s' done Hs Hf Hx) as [Hs' Ht]. split; [apply Hs'|done].
Qed.

(** the three wires carry the same messages between two sessions of one
    mode: what an accepted send puts on the wire, as the kind of frame the mode
    uses, a session with a read outstanding hands to its receiver or queues as
    the same message; and a frame of the other kind ends the session, delivers
    nothing and asks for a close with a protocol error. *)
Theorem ws_wires_agree `{JsonCodecLaws} wire m frame s :
  carried wire m -> EncodeForWire wire m = Ok frame -> ws_ok s -> reads s = 1%nat -> pumping s = false ->
  (exists s' new, ws_step wire (WOnRead (ReadMessage (is_binary wire) frame)) s = Some (s', new)
   /\ received s ++ [m] = given new ++ received s')
  /\ (exists s' new, ws_step wire (WOnRead (ReadMessage (negb (is_binary wire)) frame)) s = Some (s', new)
   /\ failed s' || peer_closed s' = true /\ close_requested s' = true /\ given new = []
   /\ received s' = received s /\ close_reason_ s' = mkCloseReason 1002 []).
Proof.
  intros Hm He Hs Hr Hp. split.
  - destruct (ws_step wire (WOnRead (ReadMessage (is_binary wire) frame)) s) as [[s' new]|] eqn:Hst.
    + exists s', new. split; [done|].
      pose proof (ws_step_given wire (WOnRead (ReadMessage (is_binary wire) frame)) s s' new Hs eq_refl Hst) as Hg.
      cbn [arrival] in Hg. by rewrite (decode_frame_sent wire m frame Hm He) in Hg.
    + exfalso. revert Hst. cbn [ws_step]. unfold on_executor, OnRead. rewrite Hp, Hr. by destruct (decode_frame _ _ _).
  - cbn [ws_step]. unfold on_executor, OnRead. rewrite Hp, Hr. destruct (decode_frame_wrong wire frame) as [why ->].
    eexists _, _. split; [f_equal; apply surjective_pairing|].
    destruct (FailAndClose_given why (set_reads 0 s)) as [Hg Hrc].
    pose proof (fail_once_ended why (set_reads 0 s)) as Hf. revert Hg Hrc Hf.
    unfold FailAndClose, take_waiters, start_close. cbn [fst snd]. intros Hg Hrc Hf.
    split_and!; try done; ws_cases; done.
Qed.

(** ** Witnesses *)

Definition hello_ws : Message := mkMessage [] (lit "hi").

(** A session of the binary wire with a send on the wire and a receive parked. *)
Definition sample_acts : list WsAction := take 4 (closed_over_a_write hello_ws).

Definition sample_outcome : option (WsSession * list WsCompletion) :=
  Eval vm_compute in @ws_exec checked_cbor kBinary sample_acts Started.

Definition sample_session : WsSession := match sample_outcome with Some (s, _) => s | None => Started end.

Lemma sample_ran : @ws_exec checked_cbor kBinary sample_acts Started = Some (sample_session, []).
Proof. by vm_compute. Qed.

Lemma sample_run : @ws_run checked_cbor kBinary sample_acts sample_session [].
Proof. exact (@ws_exec_run checked_cbor kBinary sample_acts [] Started [] _ [] (@ws_run_start checked_cbor kBinary) sample_ran). Qed.

Lemma ws_one_operation_each_witness :
  (reads sample_session <= 1)%nat /\ (length (writes sample_session) + length (closes sample_session) <= 1)%nat.
Proof.
  destruct (@ws_one_operation_each checked_cbor kBinary sample_acts sample_session [] sample_run) as (H1 & H2 & _).
  exact (conj H1 H2).
Defined.

Lemma ws_calls_and_messages_witness : [0; 1]%nat ≡ₚ waiting sample_session.
Proof. exact (proj1 (@ws_calls_and_messages checked_cbor kBinary sample_acts sample_session [] sample_run)). Defined.

Lemma ws_waiters_attended_witness :
  pending_send sample_session = Some 0%nat
  /\ (existsb is_write (tasks sample_session) = true \/ writes sample_session <> []).
Proof.
  split; [done|].
  apply (proj1 (@ws_waiters_attended checked_cbor kBinary sample_acts sample_session [] sample_run)). done.
Defined.

Lemma close_strands_receive_witness : exists s : WsSession, failed s = true /\ pending_receive s = Some 1%nat.
Proof.
  assert (He : exists frame, @EncodeForWire checked_cbor kBinary hello_ws = Ok frame) by (eexists; by vm_compute).
  destruct He as [frame He].
  destruct (@close_strands_receive checked_cbor kBinary hello_ws frame He) as (s & _ & Hf & Hp & _).
  exact (ex_intro _ s (conj Hf Hp)).
Defined.

Lemma ws_wires_agree_witness :
  exists frame s' new, @EncodeForWire checked_cbor kBinary hello_ws = Ok frame
  /\ @ws_step checked_cbor kBinary (WOnRead (ReadMessage true frame)) Started = Some (s', new)
  /\ [hello_ws] = given new ++ received s'.
Proof.
  assert (He : exists frame, @EncodeForWire checked_cbor kBinary hello_ws = Ok frame) by (eexists; by vm_compute).
  destruct He as [frame He].
  destruct (proj1 (@ws_wires_agree checked_cbor checked_cbor_laws kBinary hello_ws frame Started eq_refl He
    Started_ok eq_refl eq_refl)) as (s' & new & Hst & Hg).
  exists frame, s', new. exact (conj He (conj Hst Hg)).
Defined.
