(* ===== verification/Binary32.v ===== *)
(** The language's [float]: conversion to [double] is exact and comes back.
    Serde.v narrows a double with [FloatFromDouble]. *)
From Stdlib Require Import ZArith Lia Strings.Byte.
From Stdlib Require Import Floats.SpecFloat.
From S2P Require Import Prelude Timestamp Doubles Cbor Json Serde.

Local Open Scope Z_scope.

(** A value of the type: 24-bit mantissas, in canonical form. *)
Definition float_ok (f : spec_float) : Prop := valid_binary 24 128 f = true.

(** [static_cast<double>]. *)
Definition to_double (f : spec_float) : double :=
  match f with
  | S754_finite s m e => binary_round prec64 emax64 s m e
  | f => f
  end.

(** A finite [float]: the mantissa's width fixes the exponent. *)
Lemma float_shape s m e :
  float_ok (S754_finite s m e) ->
  1 <= Z.pos (digits2_pos m) <= 24 /\ -149 <= e <= 104
  /\ e = Z.max (Z.pos (digits2_pos m) + e - 24) (-149).
Proof.
  unfold float_ok. cbn [valid_binary]. unfold bounded, canonical_mantissa, fexp, emin.
  intros [He%Z.eqb_eq H2%Zle_bool_imp_le]%andb_true_iff. lia.
Qed.

(** Shifting a padded mantissa back drops nothing. *)
Lemma shr_padded m k E r e' :
  shr_record_of_loc (Z.pos m * 2 ^ Z.pos k) loc_Exact = r ->
  shr r E (Z.pos k) = (fst (shr r E (Z.pos k)), e') ->
  shr_m (fst (shr r E (Z.pos k))) = Z.pos m
  /\ loc_of_shr_record (fst (shr r E (Z.pos k))) = loc_Exact /\ e' = E + Z.pos k.
Proof.
  intros <-. cbn [shr fst]. intros [= <-].
  assert (H0 : shifted (Z.pos m * 2 ^ Z.pos k) 0 (shr_record_of_loc (Z.pos m * 2 ^ Z.pos k) loc_Exact)).
  { unfold shifted. cbn [shr_record_of_loc shr_m loc_of_shr_record]. rewrite Z.mul_1_r.
    pose proof (pow2_pos (Z.pos k) ltac:(lia)). repeat split; lia. }
  apply (shifted_iter k) in H0; [|lia]. destruct H0 as (Hp & Hb & He).
  pose proof (pow2_pos (Z.pos k) ltac:(lia)) as H2. rewrite Z.add_0_l in *.
  set (q := shr_m _) in *. assert (q = Z.pos m) as Eq by nia. rewrite Eq in *.
  split; [done|]. split; [by apply He|done].
Qed.

Lemma narrow_padded s m e k :
  float_ok (S754_finite s m e) -> 24 < Z.pos (digits2_pos m) + Z.pos k ->
  binary_round 24 128 s (Pos.iter xO m k) (e - Z.pos k) = S754_finite s m e.
Proof.
  intros Hf Hk. destruct (float_shape s m e Hf) as (Hd & He & Ee).
  assert (Hdk : Z.pos (digits2_pos (Pos.iter xO m k)) = Z.pos (digits2_pos m) + Z.pos k).
  { clear. induction k as [|k IH] using Pos.peano_ind; [simpl; lia|].
    rewrite Pos.iter_succ. cbn [digits2_pos]. lia. }
  assert (Hfe : forall x, fexp 24 128 x = Z.max (x - 24) (-149)) by done.
  unfold binary_round. rewrite Hdk, Hfe.
  replace (Z.pos (digits2_pos m) + Z.pos k + (e - Z.pos k)) with (Z.pos (digits2_pos m) + e) by lia.
  rewrite <- Ee. unfold shl_align. replace (e - (e - Z.pos k)) with (Z.pos k) by lia. cbv beta iota.
  unfold binary_round_aux, shr_fexp. cbn [Zdigits2]. rewrite Hdk, iter_xO, Hfe.
  replace (Z.pos (digits2_pos m) + Z.pos k + (e - Z.pos k)) with (Z.pos (digits2_pos m) + e) by lia.
  rewrite <- Ee. replace (e - (e - Z.pos k)) with (Z.pos k) by lia.
  destruct (shr (shr_record_of_loc _ _) (e - Z.pos k) (Z.pos k)) as [r e1] eqn:Er.
  destruct (shr_padded m k (e - Z.pos k) _ e1 eq_refl) as (Hm & Hl & ->); [by rewrite Er|].
  rewrite Er in Hm, Hl. cbn [fst] in Hm, Hl. rewrite Hm, Hl. cbn [round_nearest_even Zdigits2].
  replace (e - Z.pos k + Z.pos k) with e by lia. rewrite Hfe, <- Ee, Z.sub_diag. cbn [shr shr_record_of_loc shr_m].
  by rewrite (proj2 (Z.leb_le e (128 - 24))) by lia.
Qed.

(** The double of a finite [float]: its mantissa padded to 53 bits. *)
Lemma to_double_padded s m e :
  float_ok (S754_finite s m e) ->
  exists k, Z.pos (digits2_pos m) + Z.pos k = 53
    /\ to_double (S754_finite s m e) = S754_finite s (Pos.iter xO m k) (e - Z.pos k)
    /\ 2 ^ 52 <= Z.pos (Pos.iter xO m k) < 2 ^ 53.
Proof.
  intros Hf. destruct (float_shape s m e Hf) as (Hd & He & Ee). pose proof (digits2_bounds m) as Hb.
  set (d := Z.pos (digits2_pos m)) in *.
  destruct (53 - d) as [|k|k] eqn:Ek; [lia| |lia]. exists k.
  assert (Hm : 2 ^ 52 <= Z.pos (Pos.iter xO m k) < 2 ^ 53).
  { rewrite iter_xO. replace 52 with (d - 1 + Z.pos k) by lia. replace 53 with (d + Z.pos k) by lia.
    rewrite !Z.pow_add_r by lia. pose proof (pow2_pos (Z.pos k) ltac:(lia)) as Hp. revert Hp Hb.
    generalize (2 ^ Z.pos k), (2 ^ (d - 1)), (2 ^ d). intros. nia. }
  split; [lia|]. split; [|done]. cbn [to_double]. unfold binary_round. rewrite fexp64. fold d.
  replace (Z.max (d + e - 53) (-1074)) with (e - Z.pos k) by lia.
  unfold shl_align. replace (e - Z.pos k - e) with (Z.neg k) by lia. cbv beta iota.
  apply round_normal; [done|lia].
Qed.

(** Below the bound that rounds to infinity. *)
Lemma compare_mantissas m m' : (m < m')%positive ->
  Pos.compare_cont Eq m m' = Lt /\ Pos.compare_cont Eq m' m = Gt.
Proof. intros H. split; [by apply Pos.compare_lt_iff|]. by apply Pos.compare_gt_iff. Qed.

Lemma to_double_in_range s m e :
  float_ok (S754_finite s m e) ->
  SFleb (to_double (S754_finite s m e)) (SFopp kFloatOverflowBound) = false
  /\ SFleb kFloatOverflowBound (to_double (S754_finite s m e)) = false.
Proof.
  intros Hf. destruct (to_double_padded s m e Hf) as (k & Hk & -> & Hm).
  destruct (float_shape s m e Hf) as (Hd & He & Ee). pose proof (digits2_bounds m) as [_ Hb].
  replace kFloatOverflowBound with (S754_finite false (2 ^ 53 - 2 ^ 28)%positive 75) by (by vm_compute).
  assert (Hlt : e - Z.pos k < 75
                \/ e - Z.pos k = 75 /\ (Pos.iter xO m k < 2 ^ 53 - 2 ^ 28)%positive).
  { destruct (Z.lt_ge_cases (e - Z.pos k) 75) as [|Hge]; [by left|right]. split; [lia|].
    assert (Z.pos (Pos.iter xO m k) < 2 ^ 53 - 2 ^ 28) by
      (rewrite iter_xO; replace (Z.pos (digits2_pos m)) with 24 in * by lia;
       replace (Z.pos k) with 29 by lia; lia). lia. }
  unfold SFleb, SFcompare, SFopp.
  destruct Hlt as [H|[-> [H1 H2]%compare_mantissas]].
  - rewrite (proj2 (Z.compare_lt_iff _ _) H), (proj2 (Z.compare_gt_iff 75 _)) by lia. by destruct s.
  - rewrite Z.compare_refl, H1, H2. by destruct s.
Qed.

(** A [float] put on the wire as a double is read back as that [float]. *)
Lemma float_survives f :
  float_ok f ->
  exists d, DoubleFromDocument (jsonified (Double (to_bits (to_double f)))) = Ok d
    /\ FloatFromDouble d = Ok f.
Proof.
  intros Hf. exists (to_double f). rewrite double_survives.
  destruct f as [[]|[]| |s m e]; try done; [].
  destruct (to_double_padded s m e Hf) as (k & Hk & E & Hm).
  destruct (float_shape s m e Hf) as (Hd & He & Ee). destruct (to_double_in_range s m e Hf) as [H1 H2].
  unfold FloatFromDouble. rewrite H1, H2, E. split.
  - by rewrite (proj1 (of_bits_to_bits s _ (e - Z.pos k) Hm ltac:(lia))).
  - cbn [is_finite andb orb to_float]. f_equal. apply narrow_padded; [done|lia].
Qed.

Lemma to_double_bits f : float_ok f -> 0 <= to_bits (to_double f) < 2 ^ 64.
Proof.
  intros Hf. destruct f as [[]|[]| |s m e]; try done; [].
  destruct (to_double_padded s m e Hf) as (k & Hk & E & Hm).
  destruct (float_shape s m e Hf) as (Hd & He & Ee). rewrite E. apply of_bits_to_bits; [done|lia].
Qed.
