(* ===== verification/JsonValues.v ===== *)
(** What generated code relies on of the JSON codec: every value a document
    holds, plain or not, is read back as the value JSON makes of it.  The codec of
    Json.v satisfies it for a library that reads back what it dumps. *)
From Stdlib Require Import ZArith Lia Strings.Byte.
From Stdlib Require Import Floats.SpecFloat.
From S2P Require Import Prelude Bytes Utf8 OrdMap Timestamp Doubles Cbor Json Serde Binary32 Envelope StreamFrames.

Local Open Scope Z_scope.

Class JsonValueLaws `{JsonCodec} : Prop := {
  decode_values d :
    doc_ok d -> plain (jsonified d) -> (levels d <= max_levels)%nat -> len (encode d) < 2 ^ 63 ->
    decode (encode d) = Ok (jsonified d);
  encode_nonempty d : encode d <> []
}.

Lemma json_codec_values `{JsonLib} :
  (forall d, doc_ok d -> plain (jsonified d) -> parse (dump (ToBackend d)) = Some (reread (ToBackend d))) ->
  (forall d, doc_ok d -> plain (jsonified d) -> json_text (levels d) (dump (ToBackend d))) ->
  (forall v, dump v <> []) ->
  JsonValueLaws.
Proof.
  intros Hread Htext Hne. split; [|intros d; apply Hne]. intros d Hok Hp Hl _. cbn [encode decode max_levels json_codec] in *.
  rewrite (decode_encoded d Hok (Hread d Hok Hp) (Htext d Hok Hp)).
  destruct (Nat.ltb_spec 512 (levels d)); [lia|done].
Qed.

Lemma levels_jsonified d : levels (jsonified d) = levels d.
Proof.
  induction d as [|b|z|bits|t|t|ms f|l IH|m IH] using Document_ind'; try done.
  - cbn [jsonified]. by destruct (of_bits bits) as [| []| |].
  - cbn [jsonified]. destruct f; [|done|done]. by destruct (SFeqb _ _).
  - cbn [jsonified levels]. rewrite map_map. do 2 f_equal. apply map_ext_Forall. exact IH.
  - cbn [jsonified levels]. rewrite map_map. do 2 f_equal. apply map_ext_Forall.
    eapply Forall_impl; [exact IH|]. by intros [k d].
Qed.

(** A codec with the laws: the JSON form of a document in CBOR. *)
Definition values_cbor : JsonCodec := {|
  encode d := Cbor.Encode (jsonified d); decode := checked_decode; max_levels := 63
|}.

Lemma values_cbor_laws : @JsonValueLaws values_cbor.
Proof.
  split; [|intros d; apply document_nonempty]. intros d Hok Hp Hl Hs. cbn [encode decode max_levels values_cbor] in *.
  apply checked_decode_plain; [done| |done]. by rewrite levels_jsonified.
Qed.

(** ** Values that travel *)

Definition text_ok (t : bytes) : Prop := utf8 t /\ len t < 2 ^ 64.

(** A value both ends hold: its JSON form is a document. *)
Record carried_doc (n : nat) (d : Document) : Prop := {
  carried_ok : doc_ok d;
  carried_plain : plain (jsonified d);
  carried_levels : (levels d <= n)%nat
}.

Lemma carried_text n t : text_ok t -> carried_doc n (String_ t).
Proof. intros [Hu Hl]. split; [done|by apply plain_string|simpl; lia]. Qed.

Lemma carried_int n z : - 2 ^ 63 <= z < 2 ^ 63 -> carried_doc n (Int z).
Proof. intros Hz. split; [done|by apply plain_int|simpl; lia]. Qed.

Lemma carried_float n f : float_ok f -> carried_doc n (Double (to_bits (to_double f))).
Proof.
  intros Hf. split; [by apply to_double_bits| |simpl; lia]. pose proof (to_double_bits f Hf) as Hb.
  cbn [jsonified]. destruct (of_bits (to_bits (to_double f))) as [s|s| |s m e] eqn:E.
  - split; [done|]. split; [|done]. cbn [jsonified]. by rewrite E.
  - destruct s; (split; [done|split; [done|by apply utf8_ascii]]).
  - split; [done|split; [done|by apply utf8_ascii]].
  - split; [done|]. split; [|done]. cbn [jsonified]. by rewrite E.
Qed.

Lemma carried_instant n ms :
  kMinRepresentableMs <= ms <= kMaxRepresentableMs -> carried_doc n (TimestampNode ms kEpochSeconds).
Proof.
  intros Hms. split; [done| |simpl; lia]. cbn [jsonified]. pose proof (whole_seconds_range ms Hms) as Hw.
  destruct (SFeqb _ _) eqn:Eq; [apply plain_int; lia|].
  destruct (Z.eq_dec ms 0) as [->|H0]; [by vm_compute in Eq|].
  destruct (epoch_seconds_shape ms) as (m & e & E & Hm & He & _).
  { unfold kMinRepresentableMs, kMaxRepresentableMs in Hms. lia. }
  rewrite E. destruct (of_bits_to_bits (ms <? 0) m e Hm ltac:(lia)) as [Eb Hr].
  split; [done|]. split; [|done]. cbn [jsonified]. by rewrite Eb.
Qed.

Lemma carried_map n m :
  len m < 2 ^ 64 -> sm_ok m ->
  Forall (fun e => len (fst e) < 2 ^ 64 /\ utf8 (fst e) /\ carried_doc n (snd e)) m ->
  carried_doc (S n) (Map_ m).
Proof.
  intros Hl Hs Hall. split.
  - apply doc_ok_map. split; [done|]. split; [done|]. eapply Forall_impl; [exact Hall|].
    intros e (H1 & _ & [H2 _ _]). done.
  - cbn [jsonified]. apply plain_map. unfold len in *. rewrite length_map. split; [done|].
    split; [by apply sm_map_ok|]. apply Forall_map. eapply Forall_impl; [exact Hall|].
    intros e (H1 & H2 & [_ H3 _]). done.
  - cbn [levels]. apply le_n_S, list_max_le. apply Forall_map. eapply Forall_impl; [exact Hall|].
    intros e (_ & _ & [_ _ H3]). done.
Qed.

Lemma plain_list l : plain (List_ l) <-> len l < 2 ^ 64 /\ Forall plain l.
Proof.
  unfold plain. rewrite doc_ok_list. cbn [jsonified utf8_doc]. split.
  - intros ((Hl & Hok) & Hj & Hu). split; [done|]. injection Hj as Hj. clear Hl.
    induction l as [|d l IH]; [done|]. inversion Hok; subst. cbn [map] in Hj. injection Hj as Hd Hm.
    destruct Hu. constructor; [naive_solver|auto].
  - intros (Hl & Hall). split; [|split].
    + split; [done|]. eapply Forall_impl; [exact Hall|]. naive_solver.
    + f_equal. clear Hl. induction Hall as [|d l (_ & Hj & _) _ IH]; [done|]. cbn [map]. by rewrite Hj, IH.
    + clear Hl. induction Hall as [|d l (_ & _ & ?) _ IH]; [done|]. auto.
Qed.

Lemma carried_list n l : len l < 2 ^ 64 -> Forall (carried_doc n) l -> carried_doc (S n) (List_ l).
Proof.
  intros Hl Hall. split.
  - apply doc_ok_list. split; [done|]. eapply Forall_impl; [exact Hall|]. by intros d [].
  - cbn [jsonified]. apply plain_list. unfold len in *. rewrite length_map. split; [done|].
    apply Forall_map. eapply Forall_impl; [exact Hall|]. by intros d [].
  - cbn [levels]. apply le_n_S, list_max_le. apply Forall_map. eapply Forall_impl; [exact Hall|].
    by intros d [].
Qed.

(** Sortedness depends on the keys alone. *)
Fixpoint sorted_keys (ks : list bytes) : bool :=
  match ks with
  | [] => true
  | k :: ks => forallb (fun k' => match bcmp k k' with Lt => true | _ => false end) ks && sorted_keys ks
  end.

Lemma sorted_keys_ok {A} (m : list (bytes * A)) : sorted_keys (map fst m) = true -> sm_ok m.
Proof.
  induction m as [|[k a] m IH]; [done|]. cbn [map fst sorted_keys sm_ok].
  intros [Hk Hm]%andb_true_iff. split; [|auto]. apply forallb_Forall, Forall_map in Hk.
  eapply Forall_impl; [exact Hk|]. intros e He. cbn beta in He. revert He. by destruct (bcmp k (fst e)).
Qed.

(** Splits the goal [carried_doc] of an object with concrete keys into those of
    its members. *)
Ltac carried_members :=
  apply carried_map; [reflexivity|apply sorted_keys_ok; reflexivity|];
  repeat (apply Forall_cons_2; [split; [reflexivity|split; [by apply utf8_ascii|]]|]); try apply Forall_nil_2;
  cbn [snd].
