(* ===== verification/WeatherSerde.v ===== *)
(** examples/weather/generated/src/serde.cc and types.h: the shapes of a generated
    service and their documents, and the interface its client and server share:
    a shape's value survives the JSON wire. *)
From Stdlib Require Import ZArith Lia Strings.Byte.
From Stdlib Require Import Floats.SpecFloat.
From S2P Require Import Prelude Bytes Utf8 OrdMap Timestamp Doubles Cbor Json Serde Binary32 Envelope.
From S2P Require Import StreamFrames JsonValues.

Local Open Scope Z_scope.

(** ** Shapes *)

Record DeleteCityInput := mkDeleteCityInput { delete_cityId : bytes }.
Record DeleteCityOutput := mkDeleteCityOutput {}.
Record NoSuchResource := mkNoSuchResource { resourceType : bytes }.
Record GetForecastInput := mkGetForecastInput { forecast_cityId : bytes }.
Record GetForecastOutput := mkGetForecastOutput { chanceOfRain : option spec_float }.
Record GetCityInput := mkGetCityInput { city_cityId : bytes }.
Record CityCoordinates := mkCityCoordinates { latitude : spec_float; longitude : spec_float }.
Record GetCityOutput := mkGetCityOutput { city_name : bytes; coordinates : CityCoordinates }.
Record ListCitiesInput := mkListCitiesInput { in_nextToken : option bytes; pageSize : option Z }.
Record CitySummary := mkCitySummary { summary_cityId : bytes; summary_name : bytes }.
Record ListCitiesOutput := mkListCitiesOutput { out_nextToken : option bytes; items : list CitySummary }.
Record GetCurrentTimeInput := mkGetCurrentTimeInput {}.
Record GetCurrentTimeOutput := mkGetCurrentTimeOutput { current_time : Z }.
Record GetReportInput := mkGetReportInput { reportPath : bytes }.
Record GetReportOutput := mkGetReportOutput { path : bytes; sizeBytes : Z }.

(** ** The blocks the generator repeats *)

Definition serde_error (what : bytes) : Error := Error_Serialization what.

Definition is_null (d : Document) : bool := match d with Null => true | _ => false end.

Definition expect_map (shape : bytes) (doc : Document) : Outcome unit :=
  if is_map doc then Ok tt else Err (serde_error (shape ++ lit ": expected a map on the wire")).

Definition required_member (shape member : bytes) (doc : Document) : Outcome Document :=
  match Find doc member with
  | Some m => if is_null m then Err (serde_error (shape ++ lit ": missing required member: " ++ member)) else Ok m
  | None => Err (serde_error (shape ++ lit ": missing required member: " ++ member))
  end.

Definition optional_member (member : bytes) (doc : Document) : option Document :=
  match Find doc member with
  | Some m => if is_null m then None else Some m
  | None => None
  end.

Definition string_member (path : bytes) (m : Document) : Outcome bytes :=
  match m with
  | String_ t => Ok t
  | _ => Err (serde_error (path ++ lit ": unexpected type on the wire"))
  end.

Definition int64_member (path : bytes) (m : Document) : Outcome Z :=
  match m with
  | Int z => Ok z
  | _ => Err (serde_error (path ++ lit ": unexpected type on the wire"))
  end.

Definition int32_member (path : bytes) (m : Document) : Outcome Z :=
  z ← int64_member path m;
  if (z <? -2147483648) || (z >? 2147483647) then Err (serde_error (path ++ lit ": value out of range"))
  else Ok z.

Definition float_member (path : bytes) (m : Document) : Outcome spec_float :=
  match DoubleFromDocument m with
  | Err _ => Err (serde_error (path ++ lit ": expected a number"))
  | Ok parsed =>
    match FloatFromDouble parsed with
    | Err _ => Err (serde_error (path ++ lit ": value out of range"))
    | Ok narrowed => Ok narrowed
    end
  end.

(** [if (m present) out.m = read(m);]. *)
Definition when_present {A} (read : Document -> Outcome A) (m : option Document) : Outcome (option A) :=
  match m with
  | None => Ok None
  | Some m => v ← read m; Ok (Some v)
  end.

Definition emplace (key : bytes) (d : Document) (map : list (bytes * Document)) : list (bytes * Document) :=
  sm_emplace key d map.

Definition emplace_if {A} (key : bytes) (f : A -> Document) (v : option A) (map : list (bytes * Document))
    : list (bytes * Document) :=
  match v with Some v => emplace key (f v) map | None => map end.

Definition float_document (f : spec_float) : Document := Double (to_bits (to_double f)).

(** ** serde.cc *)

Definition SerializeDeleteCityInput (value : DeleteCityInput) : Document :=
  Map_ (emplace (lit "cityId") (String_ (delete_cityId value)) []).

Definition DeserializeDeleteCityInput (doc : Document) : Outcome DeleteCityInput :=
  _ ← expect_map (lit "DeleteCityInput") doc;
  member ← required_member (lit "DeleteCityInput") (lit "cityId") doc;
  cityId ← string_member (lit "DeleteCityInput.cityId") member;
  Ok (mkDeleteCityInput cityId).

Definition SerializeDeleteCityOutput (value : DeleteCityOutput) : Document := Map_ [].

Definition DeserializeDeleteCityOutput (doc : Document) : Outcome DeleteCityOutput :=
  _ ← expect_map (lit "DeleteCityOutput") doc; Ok mkDeleteCityOutput.

Definition SerializeNoSuchResource (value : NoSuchResource) : Document :=
  Map_ (emplace (lit "resourceType") (String_ (resourceType value)) []).

Definition DeserializeNoSuchResource (doc : Document) : Outcome NoSuchResource :=
  _ ← expect_map (lit "NoSuchResource") doc;
  member ← required_member (lit "NoSuchResource") (lit "resourceType") doc;
  resourceType ← string_member (lit "NoSuchResource.resourceType") member;
  Ok (mkNoSuchResource resourceType).

Definition SerializeGetForecastInput (value : GetForecastInput) : Document :=
  Map_ (emplace (lit "cityId") (String_ (forecast_cityId value)) []).

Definition DeserializeGetForecastInput (doc : Document) : Outcome GetForecastInput :=
  _ ← expect_map (lit "GetForecastInput") doc;
  member ← required_member (lit "GetForecastInput") (lit "cityId") doc;
  cityId ← string_member (lit "GetForecastInput.cityId") member;
  Ok (mkGetForecastInput cityId).

Definition SerializeGetForecastOutput (value : GetForecastOutput) : Document :=
  Map_ (emplace_if (lit "chanceOfRain") float_document (chanceOfRain value) []).

Definition DeserializeGetForecastOutput (doc : Document) : Outcome GetForecastOutput :=
  _ ← expect_map (lit "GetForecastOutput") doc;
  chanceOfRain ← when_present (float_member (lit "GetForecastOutput.chanceOfRain"))
                   (optional_member (lit "chanceOfRain") doc);
  Ok (mkGetForecastOutput chanceOfRain).

Definition SerializeGetCityInput (value : GetCityInput) : Document :=
  Map_ (emplace (lit "cityId") (String_ (city_cityId value)) []).

Definition DeserializeGetCityInput (doc : Document) : Outcome GetCityInput :=
  _ ← expect_map (lit "GetCityInput") doc;
  member ← required_member (lit "GetCityInput") (lit "cityId") doc;
  cityId ← string_member (lit "GetCityInput.cityId") member;
  Ok (mkGetCityInput cityId).

Definition SerializeCityCoordinates (value : CityCoordinates) : Document :=
  Map_ (emplace (lit "longitude") (float_document (longitude value))
          (emplace (lit "latitude") (float_document (latitude value)) [])).

Definition DeserializeCityCoordinates (doc : Document) : Outcome CityCoordinates :=
  _ ← expect_map (lit "CityCoordinates") doc;
  member ← required_member (lit "CityCoordinates") (lit "latitude") doc;
  latitude ← float_member (lit "CityCoordinates.latitude") member;
  member ← required_member (lit "CityCoordinates") (lit "longitude") doc;
  longitude ← float_member (lit "CityCoordinates.longitude") member;
  Ok (mkCityCoordinates latitude longitude).

Definition SerializeGetCityOutput (value : GetCityOutput) : Document :=
  Map_ (emplace (lit "coordinates") (SerializeCityCoordinates (coordinates value))
          (emplace (lit "name") (String_ (city_name value)) [])).

Definition DeserializeGetCityOutput (doc : Document) : Outcome GetCityOutput :=
  _ ← expect_map (lit "GetCityOutput") doc;
  member ← required_member (lit "GetCityOutput") (lit "name") doc;
  name ← string_member (lit "GetCityOutput.name") member;
  member ← required_member (lit "GetCityOutput") (lit "coordinates") doc;
  coordinates ← DeserializeCityCoordinates member;
  Ok (mkGetCityOutput name coordinates).

Definition SerializeListCitiesInput (value : ListCitiesInput) : Document :=
  Map_ (emplace_if (lit "pageSize") Int (pageSize value)
          (emplace_if (lit "nextToken") String_ (in_nextToken value) [])).

Definition DeserializeListCitiesInput (doc : Document) : Outcome ListCitiesInput :=
  _ ← expect_map (lit "ListCitiesInput") doc;
  nextToken ← when_present (string_member (lit "ListCitiesInput.nextToken"))
                (optional_member (lit "nextToken") doc);
  pageSize ← when_present (int32_member (lit "ListCitiesInput.pageSize"))
               (optional_member (lit "pageSize") doc);
  Ok (mkListCitiesInput nextToken pageSize).

Definition SerializeCitySummary (value : CitySummary) : Document :=
  Map_ (emplace (lit "name") (String_ (summary_name value))
          (emplace (lit "cityId") (String_ (summary_cityId value)) [])).

Definition DeserializeCitySummary (doc : Document) : Outcome CitySummary :=
  _ ← expect_map (lit "CitySummary") doc;
  member ← required_member (lit "CitySummary") (lit "cityId") doc;
  cityId ← string_member (lit "CitySummary.cityId") member;
  member ← required_member (lit "CitySummary") (lit "name") doc;
  name ← string_member (lit "CitySummary.name") member;
  Ok (mkCitySummary cityId name).

Definition SerializeCitySummaries (value : list CitySummary) : Document :=
  List_ (map SerializeCitySummary value).

(** The element loop. *)
Fixpoint summaries_loop (docs : list Document) : Outcome (list CitySummary) :=
  match docs with
  | [] => Ok []
  | item :: docs =>
    if is_null item
    then Err (serde_error (lit "std::vector<CitySummary>: null element in a dense list"))
    else parsed ← DeserializeCitySummary item; out ← summaries_loop docs; Ok (parsed :: out)
  end.

Definition DeserializeCitySummaries (doc : Document) : Outcome (list CitySummary) :=
  match doc with
  | List_ docs => summaries_loop docs
  | _ => Err (serde_error (lit "std::vector<CitySummary>: expected a list on the wire"))
  end.

Definition SerializeListCitiesOutput (value : ListCitiesOutput) : Document :=
  Map_ (emplace (lit "items") (SerializeCitySummaries (items value))
          (emplace_if (lit "nextToken") String_ (out_nextToken value) [])).

Definition DeserializeListCitiesOutput (doc : Document) : Outcome ListCitiesOutput :=
  _ ← expect_map (lit "ListCitiesOutput") doc;
  nextToken ← when_present (string_member (lit "ListCitiesOutput.nextToken"))
                (optional_member (lit "nextToken") doc);
  member ← required_member (lit "ListCitiesOutput") (lit "items") doc;
  items ← DeserializeCitySummaries member;
  Ok (mkListCitiesOutput nextToken items).

Definition SerializeGetCurrentTimeInput (value : GetCurrentTimeInput) : Document := Map_ [].

Definition DeserializeGetCurrentTimeInput (doc : Document) : Outcome GetCurrentTimeInput :=
  _ ← expect_map (lit "GetCurrentTimeInput") doc; Ok mkGetCurrentTimeInput.

Definition SerializeGetCurrentTimeOutput (value : GetCurrentTimeOutput) : Document :=
  Map_ (emplace (lit "time") (TimestampNode (current_time value) kEpochSeconds) []).

Definition DeserializeGetCurrentTimeOutput (underflow : bytes -> bool) (doc : Document)
    : Outcome GetCurrentTimeOutput :=
  _ ← expect_map (lit "GetCurrentTimeOutput") doc;
  member ← required_member (lit "GetCurrentTimeOutput") (lit "time") doc;
  time ← TimestampFromDocument underflow member kEpochSeconds;
  Ok (mkGetCurrentTimeOutput time).

Definition SerializeGetReportInput (value : GetReportInput) : Document :=
  Map_ (emplace (lit "reportPath") (String_ (reportPath value)) []).

Definition DeserializeGetReportInput (doc : Document) : Outcome GetReportInput :=
  _ ← expect_map (lit "GetReportInput") doc;
  member ← required_member (lit "GetReportInput") (lit "reportPath") doc;
  reportPath ← string_member (lit "GetReportInput.reportPath") member;
  Ok (mkGetReportInput reportPath).

Definition SerializeGetReportOutput (value : GetReportOutput) : Document :=
  Map_ (emplace (lit "sizeBytes") (Int (sizeBytes value))
          (emplace (lit "path") (String_ (path value)) [])).

Definition DeserializeGetReportOutput (doc : Document) : Outcome GetReportOutput :=
  _ ← expect_map (lit "GetReportOutput") doc;
  member ← required_member (lit "GetReportOutput") (lit "path") doc;
  path ← string_member (lit "GetReportOutput.path") member;
  member ← required_member (lit "GetReportOutput") (lit "sizeBytes") doc;
  sizeBytes ← int64_member (lit "GetReportOutput.sizeBytes") member;
  Ok (mkGetReportOutput path sizeBytes).

(** ** The interface: shapes that survive the JSON wire *)

Class Shape (T : Type) := {
  serialize : T -> Document;
  deserialize : Document -> Outcome T;
  fits : T -> Prop
}.

Class ShapeLaws (T : Type) `{Shape T} : Prop := {
  fits_carried v : fits v -> carried_doc 3 (serialize v);
  survives v : fits v -> deserialize (jsonified (serialize v)) = Ok v
}.

Lemma shape_roundtrip `{JsonValueLaws} `{ShapeLaws T} v :
  fits v -> (3 <= max_levels)%nat -> len (encode (serialize v)) < 2 ^ 63 ->
  (doc ← decode (encode (serialize v)); deserialize doc) = Ok v.
Proof.
  intros Hv Hm Hs. destruct (fits_carried v Hv) as [Hok Hp Hl].
  rewrite decode_values by (done || lia). by apply survives.
Qed.

(** *** Members of an object that was serialized *)

Lemma required_found shape k m d :
  sm_lookup k m = Some d -> is_null d = false -> required_member shape k (Map_ m) = Ok d.
Proof. unfold required_member, Find. by intros -> ->. Qed.

Lemma optional_found k m d :
  sm_lookup k m = Some d -> is_null d = false -> optional_member k (Map_ m) = Some d.
Proof. unfold optional_member, Find. by intros -> ->. Qed.

Lemma optional_absent k m : sm_lookup k m = None -> optional_member k (Map_ m) = None.
Proof. unfold optional_member, Find. by intros ->. Qed.

Lemma float_document_not_null f : is_null (jsonified (float_document f)) = false.
Proof. unfold float_document. cbn [jsonified]. by destruct (of_bits _) as [|[]| |]. Qed.

Lemma instant_not_null ms : is_null (jsonified (TimestampNode ms kEpochSeconds)) = false.
Proof. cbn [jsonified]. by destruct (SFeqb _ _). Qed.

Lemma float_member_survives path f : float_ok f -> float_member path (jsonified (float_document f)) = Ok f.
Proof.
  intros Hf. destruct (float_survives f Hf) as (d & Hd & Hn). unfold float_member, float_document.
  by rewrite Hd, Hn.
Qed.

Lemma int32_member_fits path z : - 2 ^ 31 <= z < 2 ^ 31 -> int32_member path (Int z) = Ok z.
Proof.
  intros Hz. unfold int32_member. cbn [int64_member mbind Outcome_bind].
  rewrite (proj2 (Z.ltb_ge z _)), Z.gtb_ltb, (proj2 (Z.ltb_ge _ z)) by lia. done.
Qed.

(** Reads the next member of an object with concrete keys. *)
Ltac not_null := first [reflexivity|apply float_document_not_null|apply instant_not_null].

Ltac next_member :=
  first [erewrite required_found; [|reflexivity|not_null]
        |erewrite optional_found; [|reflexivity|not_null]
        |rewrite optional_absent by reflexivity];
  cbn [mbind Outcome_bind string_member int64_member when_present].

Ltac read_object := cbn [expect_map is_map mbind Outcome_bind]; repeat next_member.

(** *** The shapes of the wire *)

#[export] Instance NoSuchResource_shape : Shape NoSuchResource := {|
  serialize := SerializeNoSuchResource; deserialize := DeserializeNoSuchResource;
  fits v := text_ok (resourceType v)
|}.

#[export] Instance NoSuchResource_laws : ShapeLaws NoSuchResource.
Proof.
  split; intros [t] Ht; cbn [serialize deserialize fits NoSuchResource_shape] in *.
  - change (SerializeNoSuchResource _) with (Map_ [(lit "resourceType", String_ t)]).
    carried_members. by apply carried_text.
  - change (SerializeNoSuchResource _) with (Map_ [(lit "resourceType", String_ t)]).
    cbn [jsonified map fst snd]. unfold DeserializeNoSuchResource. by read_object.
Qed.

#[export] Instance GetForecastOutput_shape : Shape GetForecastOutput := {|
  serialize := SerializeGetForecastOutput; deserialize := DeserializeGetForecastOutput;
  fits v := match chanceOfRain v with Some f => float_ok f | None => True end
|}.

#[export] Instance GetForecastOutput_laws : ShapeLaws GetForecastOutput.
Proof.
  split; intros [[f|]] Hf; cbn [serialize deserialize fits GetForecastOutput_shape chanceOfRain] in *.
  - change (SerializeGetForecastOutput _) with (Map_ [(lit "chanceOfRain", float_document f)]).
    carried_members. by apply carried_float.
  - by apply carried_map.
  - change (SerializeGetForecastOutput _) with (Map_ [(lit "chanceOfRain", float_document f)]).
    cbn [jsonified map fst snd]. unfold DeserializeGetForecastOutput. read_object.
    by rewrite float_member_survives.
  - done.
Qed.

Definition coordinates_fit (c : CityCoordinates) : Prop := float_ok (latitude c) /\ float_ok (longitude c).

Lemma coordinates_document c :
  SerializeCityCoordinates c
  = Map_ [(lit "latitude", float_document (latitude c)); (lit "longitude", float_document (longitude c))].
Proof. done. Qed.

Lemma coordinates_carried n c : coordinates_fit c -> carried_doc (S n) (SerializeCityCoordinates c).
Proof.
  intros [Ha Ho]. rewrite coordinates_document. carried_members; by apply carried_float.
Qed.

Lemma coordinates_survive c :
  coordinates_fit c -> DeserializeCityCoordinates (jsonified (SerializeCityCoordinates c)) = Ok c.
Proof.
  intros [Ha Ho]. rewrite coordinates_document. cbn [jsonified map fst snd].
  unfold DeserializeCityCoordinates. read_object. rewrite float_member_survives by done.
  cbn [mbind Outcome_bind]. read_object. rewrite float_member_survives by done. by destruct c.
Qed.

#[export] Instance GetCityOutput_shape : Shape GetCityOutput := {|
  serialize := SerializeGetCityOutput; deserialize := DeserializeGetCityOutput;
  fits v := text_ok (city_name v) /\ coordinates_fit (coordinates v)
|}.

Lemma city_document v :
  SerializeGetCityOutput v
  = Map_ [(lit "coordinates", SerializeCityCoordinates (coordinates v)); (lit "name", String_ (city_name v))].
Proof. done. Qed.

#[export] Instance GetCityOutput_laws : ShapeLaws GetCityOutput.
Proof.
  split; intros v [Hn Hc]; cbn [serialize deserialize GetCityOutput_shape]; rewrite city_document.
  - carried_members; [by apply coordinates_carried|by apply carried_text].
  - cbn [jsonified map fst snd]. unfold DeserializeGetCityOutput. read_object.
    fold (jsonified (SerializeCityCoordinates (coordinates v))).
    rewrite coordinates_survive by done. by destruct v.
Qed.

Definition summary_fits (c : CitySummary) : Prop := text_ok (summary_cityId c) /\ text_ok (summary_name c).

Lemma summary_document c :
  SerializeCitySummary c = Map_ [(lit "cityId", String_ (summary_cityId c)); (lit "name", String_ (summary_name c))].
Proof. done. Qed.

Lemma summaries_survive l :
  Forall summary_fits l -> summaries_loop (map jsonified (map SerializeCitySummary l)) = Ok l.
Proof.
  induction 1 as [|c l [Hi Hn] _ IH]; [done|]. cbn [map summaries_loop]. rewrite summary_document.
  cbn [jsonified map fst snd is_null]. unfold DeserializeCitySummary. read_object.
  rewrite IH. by destruct c.
Qed.

#[export] Instance ListCitiesOutput_shape : Shape ListCitiesOutput := {|
  serialize := SerializeListCitiesOutput; deserialize := DeserializeListCitiesOutput;
  fits v := match out_nextToken v with Some t => text_ok t | None => True end
            /\ len (items v) < 2 ^ 64 /\ Forall summary_fits (items v)
|}.

Lemma list_document v :
  SerializeListCitiesOutput v
  = Map_ ((lit "items", SerializeCitySummaries (items v))
          :: match out_nextToken v with Some t => [(lit "nextToken", String_ t)] | None => [] end).
Proof. by destruct v as [[t|] l]. Qed.

Lemma summaries_carried n l :
  len l < 2 ^ 64 -> Forall summary_fits l -> carried_doc (S (S n)) (SerializeCitySummaries l).
Proof.
  intros Hl Hall. apply carried_list; [unfold len in *; by rewrite length_map|].
  apply Forall_map. eapply Forall_impl; [exact Hall|]. intros c [Hi Hn]. rewrite summary_document.
  carried_members; by apply carried_text.
Qed.

#[export] Instance ListCitiesOutput_laws : ShapeLaws ListCitiesOutput.
Proof.
  split; intros [t l] (Ht & Hl & Hall); cbn [serialize deserialize ListCitiesOutput_shape out_nextToken items] in *;
    rewrite list_document; cbn [out_nextToken items].
  - destruct t as [t|]; carried_members; try (by apply summaries_carried); by apply carried_text.
  - unfold DeserializeListCitiesOutput, SerializeCitySummaries.
    destruct t as [t|]; cbn [jsonified map fst snd]; read_object; cbn [DeserializeCitySummaries];
      by rewrite summaries_survive.
Qed.

#[export] Instance GetReportOutput_shape : Shape GetReportOutput := {|
  serialize := SerializeGetReportOutput; deserialize := DeserializeGetReportOutput;
  fits v := text_ok (path v) /\ - 2 ^ 63 <= sizeBytes v < 2 ^ 63
|}.

#[export] Instance GetReportOutput_laws : ShapeLaws GetReportOutput.
Proof.
  assert (E : forall v, SerializeGetReportOutput v
                        = Map_ [(lit "path", String_ (path v)); (lit "sizeBytes", Int (sizeBytes v))]) by done.
  split; intros v [Hp Hs]; cbn [serialize deserialize GetReportOutput_shape]; rewrite E.
  - carried_members; [by apply carried_text|by apply carried_int].
  - cbn [jsonified map fst snd]. unfold DeserializeGetReportOutput. read_object. by destruct v.
Qed.

(** The reader of instants is given how the C library reports underflow. *)
#[export] Instance GetCurrentTimeOutput_shape (underflow : bytes -> bool) : Shape GetCurrentTimeOutput := {|
  serialize := SerializeGetCurrentTimeOutput; deserialize := DeserializeGetCurrentTimeOutput underflow;
  fits v := kMinRepresentableMs <= current_time v <= kMaxRepresentableMs
|}.

#[export] Instance GetCurrentTimeOutput_laws underflow :
  @ShapeLaws GetCurrentTimeOutput (GetCurrentTimeOutput_shape underflow).
Proof.
  assert (E : forall v, SerializeGetCurrentTimeOutput v
                        = Map_ [(lit "time", TimestampNode (current_time v) kEpochSeconds)]) by done.
  split; intros v Ht; cbn [serialize deserialize GetCurrentTimeOutput_shape fits] in *; rewrite E.
  - carried_members. by apply carried_instant.
  - unfold DeserializeGetCurrentTimeOutput. set (node := TimestampNode _ _).
    change (jsonified (Map_ [(lit "time", node)])) with (Map_ [(lit "time", jsonified node)]).
    read_object.
    unfold node. rewrite epoch_survives by done. by destruct v.
Qed.

#[export] Instance ListCitiesInput_shape : Shape ListCitiesInput := {|
  serialize := SerializeListCitiesInput; deserialize := DeserializeListCitiesInput;
  fits v := match in_nextToken v with Some t => text_ok t | None => True end
            /\ match pageSize v with Some z => - 2 ^ 31 <= z < 2 ^ 31 | None => True end
|}.

#[export] Instance ListCitiesInput_laws : ShapeLaws ListCitiesInput.
Proof.
  split; intros [[t|] [z|]] [Ht Hz]; cbn [serialize deserialize fits ListCitiesInput_shape in_nextToken pageSize] in *;
    unfold SerializeListCitiesInput; cbn [in_nextToken pageSize emplace_if emplace];
    try (carried_members; first [by apply carried_text|apply carried_int; lia]); try by apply carried_map.
  all: unfold DeserializeListCitiesInput, emplace; cbn [jsonified map fst snd].
  - change (sm_emplace (lit "pageSize") (Int z) (sm_emplace (lit "nextToken") (String_ t) []))
      with [(lit "nextToken", String_ t); (lit "pageSize", Int z)].
    cbn [map fst snd jsonified]. read_object. by rewrite int32_member_fits.
  - change (sm_emplace (lit "nextToken") (String_ t) []) with [(lit "nextToken", String_ t)].
    cbn [map fst snd jsonified]. by read_object.
  - change (sm_emplace (lit "pageSize") (Int z) []) with [(lit "pageSize", Int z)].
    cbn [map fst snd jsonified]. read_object. by rewrite int32_member_fits.
  - done.
Qed.
