(* ===== verification/WeatherServer.v ===== *)
(** examples/weather/generated/src/server.cc: binding of requests to inputs,
    constraint validation, error responses and the routes of a generated
    server. *)
From Stdlib Require Import ZArith Lia Strings.Byte.
From Stdlib Require Import Floats.SpecFloat.
From S2P Require Import Prelude Bytes RegexSyntax RegexVM RegexCompile RegexSearch Uri OrdMap Headers Router.
From S2P Require Import Timestamp Doubles Cbor Json Serde Binary32 Envelope StreamFrames JsonValues WeatherSerde.

Local Open Scope Z_scope.

(** An [Error] with its [detail<NoSuchResource>()]. *)
Definition ServiceError : Type := Error * option NoSuchResource.

(** What a handler or a client call answers. *)
Definition Answer (A : Type) : Type := A + ServiceError.

Definition plain_error (e : Error) : ServiceError := (e, None).

Record WeatherHandler := mkWeatherHandler {
  DeleteCity : DeleteCityInput -> RequestContext -> Answer DeleteCityOutput;
  GetCity : GetCityInput -> RequestContext -> Answer GetCityOutput;
  GetCurrentTime : GetCurrentTimeInput -> RequestContext -> Answer GetCurrentTimeOutput;
  GetForecast : GetForecastInput -> RequestContext -> Answer GetForecastOutput;
  GetReport : GetReportInput -> RequestContext -> Answer GetReportOutput;
  ListCities : ListCitiesInput -> RequestContext -> Answer ListCitiesOutput
}.

(** ** Text bindings *)

(** [std::from_chars] of a [std::int64_t] that must take the whole text. *)
Definition from_chars_int64 (text : bytes) : option Z :=
  let '(negative, digits) := match text with "-"%byte :: rest => (true, rest) | _ => (false, text) end in
  match digits with
  | [] => None
  | _ => if forallb is_digit digits then
           let value := if negative : bool then - dec_value digits else dec_value digits in
           if (- 2 ^ 63 <=? value) && (value <? 2 ^ 63) then Some value else None
         else None
  end.

Definition ParseInt64Text (text : bytes) (min_value max_value : Z) : Outcome Z :=
  match from_chars_int64 text with
  | Some value =>
    if (value <? min_value) || (value >? max_value)
    then Err (Error_Serialization (lit "invalid integer: " ++ text)) else Ok value
  | None => Err (Error_Serialization (lit "invalid integer: " ++ text))
  end.

(** ** Errors *)

Section Server.
Context `{JsonCodec}.

Definition json_response (status : Z) (body : Document) : HttpResponse :=
  mkResponse status (Set_ (lit "content-type") (lit "application/json") []) (encode body) [].

Definition with_header (name value : bytes) (response : HttpResponse) : HttpResponse :=
  mkResponse (rs_status response) (Set_ name value (rs_headers response)) (rs_body response)
    (rs_operation response).

Definition error_members (code message : bytes) (body : list (bytes * Document)) : list (bytes * Document) :=
  let body := match code with [] => body | _ => sm_insert (lit "__type") (String_ code) body end in
  match message with [] => body | _ => sm_insert (lit "message") (String_ message) body end.

Definition JsonError (status : Z) (code message : bytes) (body : list (bytes * Document)) : HttpResponse :=
  json_response status (Map_ (error_members code message body)).

(** The body of a [NoSuchResource]: the typed detail and the generic message. *)
Definition no_such_resource_body (error : ServiceError) : list (bytes * Document) :=
  let body := match snd error with
              | Some detail => match SerializeNoSuchResource detail with Map_ m => m | _ => [] end
              | None => []
              end in
  let has_message := match sm_lookup (lit "message") body, sm_lookup (lit "Message") body with
                     | None, None => false
                     | _, _ => true
                     end in
  if negb has_message && negb (len (err_message (fst error)) =? 0)
  then sm_emplace (lit "message") (String_ (err_message (fst error))) body else body.

Definition ErrorToResponse (error : ServiceError) : HttpResponse :=
  let e := fst error in
  match err_kind e with
  | kModeled =>
    if bytes_eqb (err_code e) (lit "NoSuchResource")
    then with_header (lit "x-error-type") (err_code e) (JsonError 404 [] [] (no_such_resource_body error))
    else JsonError 400 (err_code e) (err_message e) []
  | kValidation | kSerialization =>
    with_header (lit "x-error-type") (lit "SerializationException") (JsonError 400 [] (err_message e) [])
  | _ => JsonError 500 (lit "InternalFailure") (lit "internal failure") []
  end.

(** ** Constraint validation *)

Record ValidationFailure := mkFailure { failure_path : bytes; failure_message : bytes }.

Definition kPattern : bytes := Eval vm_compute in lit "^[A-Za-z0-9 ]+$".

(** [kPattern.ok() && kPattern->Search(value)]. *)
Definition satisfies (pattern value : bytes) : bool :=
  match regex_search pattern value with Some (Ok found) => found | _ => false end.

Definition pattern_failure (member_path pattern : bytes) : ValidationFailure :=
  mkFailure member_path
    (quoted_lit "Value at '" ++ member_path
     ++ quoted_lit "' failed to satisfy constraint: Member must satisfy regular expression pattern: " ++ pattern).

(** The three validators differ in their input type only. *)
Definition validate_city (cityId path : bytes) : list ValidationFailure :=
  let member_path := path ++ lit "/cityId" in
  if satisfies kPattern cityId then [] else [pattern_failure member_path kPattern].

Definition ValidateDeleteCityInput (value : DeleteCityInput) (path : bytes) : list ValidationFailure :=
  validate_city (delete_cityId value) path.
Definition ValidateGetForecastInput (value : GetForecastInput) (path : bytes) : list ValidationFailure :=
  validate_city (forecast_cityId value) path.
Definition ValidateGetCityInput (value : GetCityInput) (path : bytes) : list ValidationFailure :=
  validate_city (city_cityId value) path.

Definition validation_summary (failures : list ValidationFailure) : bytes :=
  to_string (len failures) ++ lit " validation error" ++ (if len failures =? 1 then [] else lit "s")
  ++ lit " detected. " ++ mjoin (imap (fun i f => (if (0 <? i)%nat then lit "; " else []) ++ failure_message f) failures).

Definition failure_field (f : ValidationFailure) : Document :=
  Map_ (emplace (lit "path") (String_ (failure_path f)) (emplace (lit "message") (String_ (failure_message f)) [])).

Definition ValidationErrorResponse (failures : list ValidationFailure) : HttpResponse :=
  with_header (lit "x-error-type") (lit "ValidationException")
    (JsonError 400 [] (validation_summary failures)
       (emplace (lit "fieldList") (List_ (map failure_field failures)) [])).

(** ** Binding *)

(** [context.labels.at(name)], which the matched pattern always holds. *)
Definition label (context : RequestContext) (name : bytes) : bytes :=
  default [] (sm_lookup name (labels context)).

Definition ParseDeleteCityInput (rq : HttpRequest) (context : RequestContext) : Outcome DeleteCityInput :=
  Ok (mkDeleteCityInput (label context (lit "cityId"))).
Definition ParseGetCityInput (rq : HttpRequest) (context : RequestContext) : Outcome GetCityInput :=
  Ok (mkGetCityInput (label context (lit "cityId"))).
Definition ParseGetCurrentTimeInput (rq : HttpRequest) (context : RequestContext) : Outcome GetCurrentTimeInput :=
  Ok mkGetCurrentTimeInput.
Definition ParseGetForecastInput (rq : HttpRequest) (context : RequestContext) : Outcome GetForecastInput :=
  Ok (mkGetForecastInput (label context (lit "cityId"))).
Definition ParseGetReportInput (rq : HttpRequest) (context : RequestContext) : Outcome GetReportInput :=
  Ok (mkGetReportInput (label context (lit "reportPath"))).

(** The query loop: a later parameter overrides an earlier one. *)
Fixpoint list_cities_params (params : list (bytes * bytes)) (input : ListCitiesInput) : Outcome ListCitiesInput :=
  match params with
  | [] => Ok input
  | (key, value) :: params =>
    if bytes_eqb key (lit "nextToken")
    then list_cities_params params (mkListCitiesInput (Some value) (pageSize input))
    else if bytes_eqb key (lit "pageSize") then
      parsed_num ← ParseInt64Text value (-2147483648) 2147483647;
      list_cities_params params (mkListCitiesInput (in_nextToken input) (Some parsed_num))
    else list_cities_params params input
  end.

Definition ParseListCitiesInput (rq : HttpRequest) (context : RequestContext) : Outcome ListCitiesInput :=
  list_cities_params (ctx_query_params context) (mkListCitiesInput None None).

Definition BuildDeleteCityResponse (output : DeleteCityOutput) : HttpResponse := mkResponse 204 [] [] [].

Definition BuildGetCityResponse (output : GetCityOutput) : HttpResponse :=
  json_response 200 (Map_ (emplace (lit "coordinates") (SerializeCityCoordinates (coordinates output))
                             (emplace (lit "name") (String_ (city_name output)) []))).

Definition BuildGetCurrentTimeResponse (output : GetCurrentTimeOutput) : HttpResponse :=
  json_response 200 (Map_ (emplace (lit "time") (TimestampNode (current_time output) kEpochSeconds) [])).

Definition BuildGetForecastResponse (output : GetForecastOutput) : HttpResponse :=
  json_response 200 (Map_ (emplace_if (lit "chanceOfRain") float_document (chanceOfRain output) [])).

Definition BuildGetReportResponse (output : GetReportOutput) : HttpResponse :=
  json_response 200 (Map_ (emplace (lit "sizeBytes") (Int (sizeBytes output))
                             (emplace (lit "path") (String_ (path output)) []))).

Definition BuildListCitiesResponse (output : ListCitiesOutput) : HttpResponse :=
  json_response 200 (Map_ (emplace (lit "items") (SerializeCitySummaries (items output))
                             (emplace_if (lit "nextToken") String_ (out_nextToken output) []))).

(** ** Routes *)

Definition unsupported_media_type : HttpResponse :=
  with_header (lit "x-error-type") (lit "UnsupportedMediaTypeException")
    (JsonError 415 [] (lit "unsupported media type") []).

Definition not_acceptable : HttpResponse :=
  with_header (lit "x-error-type") (lit "NotAcceptableException")
    (JsonError 406 [] (lit "not acceptable") []).

Definition wrong_content_type (rq : HttpRequest) : bool :=
  match Get (lit "content-type") (rq_headers rq) with
  | Some content_type => negb (bytes_eqb (MediaTypeOf content_type) (lit "application/json"))
  | None => false
  end.

Definition any_content_type (rq : HttpRequest) : bool := Has (lit "content-type") (rq_headers rq).

Definition wrong_accept (rq : HttpRequest) : bool :=
  match Get (lit "accept") (rq_headers rq) with
  | Some accept => negb (AcceptMatches accept (lit "application/json"))
  | None => false
  end.

(** The lambda registered for an operation: [refused] its content-type check,
    [accepts] whether it has an Accept check. *)
Definition route {I O} (refused : HttpRequest -> bool) (accepts : bool)
    (parse : HttpRequest -> RequestContext -> Outcome I) (validate : I -> list ValidationFailure)
    (operation : I -> RequestContext -> Answer O) (build : O -> HttpResponse)
    (rq : HttpRequest) (context : RequestContext) : HttpResponse :=
  if refused rq then unsupported_media_type
  else if accepts && wrong_accept rq then not_acceptable
  else
    match parse rq context with
    | Err e => ErrorToResponse (plain_error e)
    | Ok input =>
      match validate input with
      | (_ :: _) as failures => ValidationErrorResponse failures
      | [] =>
        match operation input context with
        | inr error => ErrorToResponse error
        | inl output => build output
        end
      end
    end.

Definition add_route (method pattern : bytes) (h : RouteHandler) (op : bytes)
    (routes : list (bytes * list RouteEntry)) : list (bytes * list RouteEntry) :=
  snd (Router.Add method pattern h op routes).

Definition no_validation {I} (input : I) : list ValidationFailure := [].

(** [WeatherServer::WeatherServer]. *)
Definition WeatherServer (h : WeatherHandler) : list (bytes * list RouteEntry) :=
  add_route (lit "GET") (lit "/cities")
    (route wrong_content_type true ParseListCitiesInput no_validation (ListCities h)
       BuildListCitiesResponse) (lit "ListCities")
  (add_route (lit "GET") (lit "/reports/{reportPath+}")
    (route wrong_content_type true ParseGetReportInput no_validation (GetReport h)
       BuildGetReportResponse) (lit "GetReport")
  (add_route (lit "GET") (lit "/cities/{cityId}/forecast")
    (route wrong_content_type true ParseGetForecastInput (fun i => ValidateGetForecastInput i [])
       (GetForecast h) BuildGetForecastResponse) (lit "GetForecast")
  (add_route (lit "GET") (lit "/current-time")
    (route any_content_type true ParseGetCurrentTimeInput no_validation (GetCurrentTime h)
       BuildGetCurrentTimeResponse) (lit "GetCurrentTime")
  (add_route (lit "GET") (lit "/cities/{cityId}")
    (route wrong_content_type true ParseGetCityInput (fun i => ValidateGetCityInput i []) (GetCity h)
       BuildGetCityResponse) (lit "GetCity")
  (add_route (lit "DELETE") (lit "/cities/{cityId}")
    (route wrong_content_type false ParseDeleteCityInput (fun i => ValidateDeleteCityInput i [])
       (DeleteCity h) BuildDeleteCityResponse) (lit "DeleteCity") []))))).

Definition Handler (h : WeatherHandler) (rq : HttpRequest) : HttpResponse := Route (WeatherServer h) rq.

End Server.
