(* ===== verification/WeatherClient.v ===== *)
(** examples/weather/generated/src/client.cc: building requests, reading responses
    and errors back, and the paginator of a generated client. *)
From Stdlib Require Import ZArith Lia Strings.Byte.
From Stdlib Require Import Floats.SpecFloat.
From S2P Require Import Prelude Bytes Uri OrdMap Headers.
From S2P Require Import Timestamp Doubles Retry Cbor Pagination Json Serde Binary32 Envelope.
From S2P Require Import StreamFrames JsonValues WeatherSerde WeatherServer.

Local Open Scope Z_scope.

(** ** Errors on the wire *)

Definition SanitizeErrorCode (raw : bytes) : bytes :=
  let raw := match find_byte ":"%byte raw with Some colon => take colon raw | None => raw end in
  match find_byte "#"%byte raw with Some hash => drop (S hash) raw | None => raw end.

Record ParsedError := mkParsedError {
  pe_status : Z;
  pe_code : bytes;
  pe_message : bytes;
  pe_doc : Document
}.

Definition kUnknownError : bytes := Eval vm_compute in lit "UnknownError".

Definition string_or (d : option Document) (text : bytes) : bytes :=
  match d with Some (String_ t) => t | _ => text end.

Section Client.
Context `{JsonCodec} (underflow : bytes -> bool).

Definition ParseError (response : HttpResponse) : ParsedError :=
  let doc := match decode (rs_body response) with Ok d => d | Err _ => Null end in
  let code := match Get (lit "x-error-type") (rs_headers response) with
              | Some type_header => SanitizeErrorCode type_header
              | None => kUnknownError
              end in
  let message := lit "HTTP " ++ int_text (rs_status response) in
  if is_map doc then
    let type := match Find doc (lit "__type") with Some t => Some t | None => Find doc (lit "code") end in
    let code := match type with
                | Some (String_ t) => if bytes_eqb code kUnknownError then SanitizeErrorCode t else code
                | _ => code
                end in
    mkParsedError (rs_status response) code (string_or (Find doc (lit "message")) message) doc
  else mkParsedError (rs_status response) code message doc.

Definition GenericError (parsed : ParsedError) : ServiceError :=
  let retryable := pe_status parsed >=? 500 in
  plain_error
    (if bytes_eqb (pe_code parsed) kUnknownError
     then mkError kUnknown (pe_code parsed) (pe_message parsed) retryable
     else Error_Modeled (pe_code parsed) (pe_message parsed) retryable).

Definition MakeNoSuchResourceError (parsed : ParsedError) : ServiceError :=
  let retryable := pe_status parsed >=? 500 in
  let doc := if is_map (pe_doc parsed) then pe_doc parsed else Map_ [] in
  (Error_Modeled (lit "NoSuchResource") (pe_message parsed) retryable,
   match DeserializeNoSuchResource doc with Ok detail => Some detail | Err _ => None end).

(** [ParseDeleteCityError], [ParseGetCityError] and [ParseGetForecastError]. *)
Definition ParseResourceError (response : HttpResponse) : ServiceError :=
  let parsed := ParseError response in
  if bytes_eqb (pe_code parsed) (lit "NoSuchResource") then MakeNoSuchResourceError parsed
  else if bytes_eqb (pe_code parsed) kUnknownError && (pe_status parsed =? 404)
  then MakeNoSuchResourceError parsed
  else GenericError parsed.

Definition ParseGenericError (response : HttpResponse) : ServiceError := GenericError (ParseError response).

(** ** The client *)

Context {W : Type}.

(** [opal::ClientConfig], the fields the client reads. *)
Record ClientConfig := mkConfig {
  endpoint : bytes;
  request_timeout_ms : Z;
  max_response_bytes : Z;
  user_agent : bytes;
  bearer_token : option (W -> bytes * W);
  retry : RetryPolicy;
  interceptors : list (Interceptor W);
  http_client : option (Env W)
}.

Record WeatherClient := mkClient {
  config_ : ClientConfig;
  transport_ : Env W;
  path_prefix_ : bytes
}.

Definition https_error : Error :=
  Error_Validation (lit "WeatherClient: https endpoints need a TLS-capable transport (set config.http_client, e.g. opal::http::BeastHttpClient::FromConfig)").

Definition no_transport_error : Error :=
  Error_Validation (lit "WeatherClient: config needs an endpoint or an http_client").

(** [WeatherClient::Create]; [SocketHttpClient] is the constructor of the
    built-in transport. *)
Definition Create (SocketHttpClient : bytes -> Z -> Z -> Z -> Env W) (config : ClientConfig) : Outcome WeatherClient :=
  match endpoint config with
  | [] =>
    match http_client config with
    | None => Err no_transport_error
    | Some transport => Ok (mkClient config transport [])
    end
  | url =>
    endpoint ← ParseEndpoint url;
    match http_client config with
    | Some transport => Ok (mkClient config transport (path_prefix endpoint))
    | None =>
      if tls endpoint then Err https_error
      else Ok (mkClient config
                 (SocketHttpClient (host endpoint) (port endpoint) (request_timeout_ms config)
                    (max_response_bytes config)) (path_prefix endpoint))
    end
  end.

(** The headers [WeatherClient::Send] puts on a request. *)
Definition outgoing (c : WeatherClient) (rq : HttpRequest) (w : W) : HttpRequest * W :=
  let h := rq_headers rq in
  let h := if Headers.Has (lit "accept") h then h else Set_ (lit "accept") (lit "application/json") h in
  let h := Set_ (lit "user-agent") (user_agent (config_ c)) h in
  let '(h, w) := match bearer_token (config_ c) with
                 | Some token => let '(t, w) := token w in (Set_ (lit "authorization") (lit "Bearer " ++ t) h, w)
                 | None => (h, w)
                 end in
  let h := match rq_body rq with
           | [] => h
           | b => Set_ (lit "content-length") (to_string (len b)) h
           end in
  (mkRequest (rq_method rq) (rq_target rq) h (rq_body rq) (rq_peer_address rq), w).

Definition Send (c : WeatherClient) (rq : HttpRequest) (w : W) : Outcome HttpResponse * W :=
  let '(rq, w) := outgoing c rq w in
  SendWithRetries (transport_ c) rq (retry (config_ c)) (interceptors (config_ c)) w.

(** The shape of every call: send, map a status other than [expected] with
    [on_error], read the response with [read]. *)
Definition call {A} (c : WeatherClient) (method target : bytes) (expected : Z)
    (on_error : HttpResponse -> ServiceError) (read : HttpResponse -> Answer A) (w : W) : Answer A * W :=
  let '(response, w) := Send c (mkRequest method target [] [] []) w in
  (match response with
   | Err e => inr (plain_error e)
   | Ok response => if negb (rs_status response =? expected) then inr (on_error response) else read response
   end, w).

(** [json::Decode] and the shape's [Deserialize]. *)
Definition read_body {A} (deserialize : Document -> Outcome A) (response : HttpResponse) : Answer A :=
  match decode (rs_body response) with
  | Err e => inr (plain_error e)
  | Ok body_doc => match deserialize body_doc with Ok output => inl output | Err e => inr (plain_error e) end
  end.

Definition CallDeleteCity (c : WeatherClient) (input : DeleteCityInput) : W -> Answer DeleteCityOutput * W :=
  call c (lit "DELETE") (path_prefix_ c ++ lit "/cities" ++ lit "/" ++ EncodePathSegment (delete_cityId input))
    204 ParseResourceError (fun _ => inl mkDeleteCityOutput).

Definition CallGetCity (c : WeatherClient) (input : GetCityInput) : W -> Answer GetCityOutput * W :=
  call c (lit "GET") (path_prefix_ c ++ lit "/cities" ++ lit "/" ++ EncodePathSegment (city_cityId input))
    200 ParseResourceError (read_body DeserializeGetCityOutput).

Definition CallGetCurrentTime (c : WeatherClient) (input : GetCurrentTimeInput)
    : W -> Answer GetCurrentTimeOutput * W :=
  call c (lit "GET") (path_prefix_ c ++ lit "/current-time")
    200 ParseGenericError (read_body (DeserializeGetCurrentTimeOutput underflow)).

Definition read_forecast (response : HttpResponse) : Answer GetForecastOutput :=
  match rs_body response with
  | [] => inl (mkGetForecastOutput None)
  | _ => read_body DeserializeGetForecastOutput response
  end.

Definition CallGetForecast (c : WeatherClient) (input : GetForecastInput) : W -> Answer GetForecastOutput * W :=
  call c (lit "GET")
    (path_prefix_ c ++ lit "/cities" ++ lit "/" ++ EncodePathSegment (forecast_cityId input) ++ lit "/forecast")
    200 ParseResourceError read_forecast.

Definition CallGetReport (c : WeatherClient) (input : GetReportInput) : W -> Answer GetReportOutput * W :=
  call c (lit "GET") (path_prefix_ c ++ lit "/reports" ++ lit "/" ++ EncodeGreedyPathSegment (reportPath input))
    200 ParseGenericError (read_body DeserializeGetReportOutput).

Definition list_cities_query (input : ListCitiesInput) : QueryString :=
  let query := match in_nextToken input with Some t => Uri.Add (lit "nextToken") t [] | None => [] end in
  match pageSize input with Some z => Uri.Add (lit "pageSize") (int_text z) query | None => query end.

Definition CallListCities (c : WeatherClient) (input : ListCitiesInput) : W -> Answer ListCitiesOutput * W :=
  call c (lit "GET") (path_prefix_ c ++ lit "/cities" ++ ToString (list_cities_query input))
    200 ParseGenericError (read_body DeserializeListCitiesOutput).

(** [ListCitiesPaginator]: the client, the world its calls run in, the next
    call's input and [done_]. *)
Record ListCitiesPaginator := mkPaginator {
  client_ : WeatherClient;
  input_ : ListCitiesInput;
  done_ : bool
}.

Definition PaginateListCities (c : WeatherClient) (input : ListCitiesInput) : ListCitiesPaginator :=
  mkPaginator c input false.

(** [Next], on the paginator and the world; an error keeps its detail. *)
Definition Next (s : ListCitiesPaginator * W) : (ListCitiesPaginator * W) * Answer (option ListCitiesOutput) :=
  let '(p, w) := s in
  if done_ p then (s, inl None)
  else
    let '(page, w) := CallListCities (client_ p) (input_ p) w in
    match page with
    | inr error => ((mkPaginator (client_ p) (input_ p) true, w), inr error)
    | inl page =>
      match out_nextToken page with
      | None | Some [] => ((mkPaginator (client_ p) (input_ p) true, w), inl (Some page))
      | Some token =>
        ((mkPaginator (client_ p) (mkListCitiesInput (Some token) (pageSize (input_ p))) false, w),
         inl (Some page))
      end
    end.

(** [Next] for the page iterator, which reads errors as [Error]s. *)
Definition NextOutcome (s : ListCitiesPaginator * W) : (ListCitiesPaginator * W) * Outcome (option ListCitiesOutput) :=
  let (s, next) := Next s in
  (s, match next with inl page => Ok page | inr error => Err (fst error) end).

End Client.
Arguments ClientConfig : clear implicits.
Arguments WeatherClient : clear implicits.
Arguments ListCitiesPaginator : clear implicits.
