(* ===== verification/Transports.v ===== *)
(** What a generated client asks of its transport, and two transports that give
    it: http/loopback.h over the guarded dispatch of ServerDispatch.v, and the
    socket exchange of SocketServer.v.  The retry loop of Retry.v keeps the promise. *)
From Stdlib Require Import ZArith Lia Strings.Byte.
From Stdlib Require Import Floats.SpecFloat.
From S2P Require Import Prelude Bytes Headers Http1 TraceContext Retry Effects Middleware ServerDispatch SocketServer.

Local Open Scope Z_scope.

(** ** The interface *)

(** The headers a generated server or client reads. *)
Definition request_headers_read : list bytes := [lit "content-type"; lit "accept"].
Definition response_headers_read : list bytes := [lit "x-error-type"].

(** [rq'] is [rq] as the server sees it. *)
Record arrives (rq rq' : HttpRequest) : Prop := {
  arrives_method : rq_method rq' = rq_method rq;
  arrives_target : rq_target rq' = rq_target rq;
  arrives_body : rq_body rq' = rq_body rq;
  arrives_headers : Forall (fun n => Get n (rq_headers rq') = Get n (rq_headers rq)) request_headers_read
}.

(** [rs'] is [rs] as the client sees it. *)
Record answered (rs rs' : HttpResponse) : Prop := {
  answered_status : rs_status rs' = rs_status rs;
  answered_body : rs_body rs' = rs_body rs;
  answered_headers : Forall (fun n => Get n (rs_headers rs') = Get n (rs_headers rs)) response_headers_read;
  answered_size : len (rs_body rs) < 2 ^ 63
}.

(** A transport that delivers [sendable] requests to [handler]. *)
Class Transport {W} (send : W -> HttpRequest -> Outcome HttpResponse * W)
    (handler : HttpRequest -> HttpResponse) (sendable : HttpRequest -> Prop) : Prop :=
  delivers rq w : sendable rq -> exists rq' rs' w',
    arrives rq rq' /\ send w rq = (Ok rs', w') /\ answered (handler rq') rs'.

#[global] Instance arrives_preorder : PreOrder arrives.
Proof.
  split.
  - intros rq. split; try done; []. by apply Forall_forall.
  - intros x y z [H1 H2 H3 H4] [G1 G2 G3 G4]. split; try congruence; [].
    rewrite Forall_forall in *. intros n Hn. by rewrite G4, H4.
Qed.

(** ** Retries *)

Section Retries.
Context {W : Type} (env : Env W) (handler : HttpRequest -> HttpResponse) (sendable : HttpRequest -> Prop).
Context `{!Transport (Send env) handler sendable}.

(** Interceptors that keep a request sendable and what a server reads of it. *)
Definition transparent (ic : Interceptor W) : Prop := forall w rq attempt,
  sendable rq ->
  let rq' := fst (ModifyBeforeTransmit ic w rq attempt) in sendable rq' /\ arrives rq rq'.

(** The outcome of one exchange for [rq]. *)
Definition exchanged (rq : HttpRequest) (outcome : Outcome HttpResponse) : Prop :=
  exists rq' rs', arrives rq rq' /\ outcome = Ok rs' /\ answered (handler rq') rs'.

Lemma modify_all_transparent ics : Forall transparent ics -> forall w rq attempt,
  sendable rq ->
  let rq' := fst (modify_all ics w rq attempt) in sendable rq' /\ arrives rq rq'.
Proof.
  induction 1 as [|ic ics Hic _ IH]; intros w rq attempt Hs; cbn [modify_all]; [done|].
  destruct (Hic w rq attempt Hs) as [H1 H2].
  destruct (ModifyBeforeTransmit ic w rq attempt) as [rq1 w1]. cbn [fst] in *.
  destruct (IH w1 rq1 attempt H1) as [H3 H4]. split; [done|]. by etransitivity.
Qed.

Lemma attempt_exchanged rq policy ics w attempt :
  Forall transparent ics -> sendable rq -> exchanged rq (fst (attempt_send env rq policy ics None w attempt)).
Proof.
  intros Hi Hs. unfold attempt_send, send.
  destruct ics as [|ic ics'] eqn:Ei.
  - destruct (delivers rq w Hs) as (rq' & rs' & w' & Ha & -> & Hr). by exists rq', rs'.
  - rewrite <- Ei in *. destruct (modify_all_transparent ics Hi w rq attempt Hs) as [H1 H2].
    destruct (modify_all ics w rq attempt) as [rq1 w1]. cbn [fst] in *.
    destruct (delivers rq1 w1 H1) as (rq' & rs' & w' & Ha & -> & Hr). exists rq', rs'.
    split; [by etransitivity|done].
Qed.

Lemma SendWithRetries_exchanged rq policy ics w :
  Forall transparent ics -> sendable rq -> exchanged rq (fst (SendWithRetries env rq policy ics w)).
Proof.
  intros Hi Hs. unfold SendWithRetries, SendWithRetriesImpl.
  assert (Hat : forall w attempt, exchanged rq (fst (attempt_send env rq policy ics None w attempt)))
    by (intros; apply attempt_exchanged; done).
  pose proof (Hat w 1) as H0. destruct (attempt_send env rq policy ics None w 1) as [outcome w1].
  cbn [fst] in H0. set (fuel := Z.to_nat (attempts policy - 1)). clearbody fuel. revert outcome w1 H0.
  generalize 1 as retry. induction fuel as [|fuel IH]; intros retry outcome w1 H0; cbn [retry_loop]; [done|].
  destruct (negb _); [done|]. destruct (negb _); [done|]. destruct (jitter env w1) as [j w2].
  pose proof (Hat (sleep env w2 (DelayBefore policy retry j outcome (now env w2))) (retry + 1)) as H1.
  destruct (attempt_send env rq policy ics None _ _) as [outcome' w3]. by apply IH.
Qed.

End Retries.

(** ** In memory *)

Section Loopback.
Context {E : Type} (supply : World E -> list Z).

(** [Loopback::Send]; [supply] is what the random engine would draw.  [None]
    when it ran dry or the guard let an exception out. *)
Definition Loopback_Send (handler : option (RequestHandler E)) (rq : HttpRequest) (w : World E)
    : option (Outcome HttpResponse * World E) :=
  match handler with
  | None => Some (Err (Error_Transport (lit "loopback: no handler installed") false), w)
  | Some _ =>
    '(guarded, _) ← InvokeHandlerGuarded handler rq (supply w);
    match guarded w with
    | (w, Ret response) => Some (Ok response, w)
    | (_, Throw _) => None
    end
  end.

Definition loopback (handler : option (RequestHandler E)) (w : World E) (rq : HttpRequest)
    : Outcome HttpResponse * World E :=
  default (Err (Error_Unknown (lit "no response")), w) (Loopback_Send handler rq w).

(** A handler without effects. *)
Definition pure_handler (handler : HttpRequest -> HttpResponse) : option (RequestHandler E) :=
  Some (fun rq => mret (handler rq)).

Lemma Get_of_GetAll n h h' : GetAll n h = GetAll n h' -> Get n h = Get n h'.
Proof. intros E0. by rewrite !Get_GetAll, E0. Qed.

Lemma traced_arrives rq rq' c : traced rq rq' c -> arrives rq rq'.
Proof.
  intros [_ [[_ ->]|(_ & _ & _ & -> & Hh)]]; [done|]. split; try done; [].
  repeat constructor; apply Get_of_GetAll, Hh; by vm_compute.
Qed.

Lemma correlated_answered id rs rs' : len (rs_body rs) < 2 ^ 63 -> correlated id rs rs' -> answered rs rs'.
Proof.
  intros Hl (Hs & Hb & _ & Hh & _). split; try done; [].
  repeat constructor; apply Get_of_GetAll, Hh; by vm_compute.
Qed.

(** With an engine that yields enough words, the loopback delivers the requests
    the handler answers with bodies that fit the address space. *)
Lemma loopback_transport handler (sendable : HttpRequest -> Prop) :
  (forall w rq, is_Some (EnsureInboundTraceIdentity rq (supply w))) ->
  (forall rq rq', sendable rq -> arrives rq rq' -> len (rs_body (handler rq')) < 2 ^ 63) ->
  Transport (loopback (pure_handler handler)) handler sendable.
Proof.
  intros Hd Hl rq w Hsend. destruct (Hd w rq) as [[rq' draws] Hi].
  destruct (EnsureInbound_traced _ _ _ _ Hi) as [c Hc].
  exists rq', (CorrelateServerError rq' (handler rq')), w. split; [by eapply traced_arrives|].
  split; [|eapply correlated_answered, CorrelateServerError_correlated; eapply Hl, traced_arrives; done].
  unfold loopback, Loopback_Send, pure_handler, InvokeHandlerGuarded. by rewrite Hi.
Qed.

End Loopback.

(** ** Over sockets *)

Section Socket.
Context {E : Type} (supply : World E -> list Z).
Context (host port_text : bytes) (peer : Peer) (max_response_bytes : Z).
Context (cut_client cut_server : bytes -> list bytes).

(** [SocketHttpClient::Send] against one turn of the server's accept loop; the
    cuts are how TCP delivers each side's bytes before it half-closes, [supply]
    is what the server's random engine would draw. *)
Definition socket_send (handler : option (RequestHandler E)) (w : World E) (rq : HttpRequest)
    : Outcome HttpResponse * World E :=
  match client_wire rq host port_text with
  | Err e => (Err e, w)
  | Ok wire =>
    match serve handler ((Data <$> cut_client wire) ++ [Eof]) peer (supply w) with
    | None => (Err (transport_error (lit "the server is still reading")), w)
    | Some (turn, _) =>
      match turn w with
      | (w, Throw _) => (Err (transport_error (lit "the server is gone")), w)
      | (w, Ret answer) =>
        (default (Err (transport_error (lit "the client is still reading")))
           (client_read (rq_method rq) ((Data <$> cut_server answer) ++ [Eof]) max_response_bytes), w)
      end
    end
  end.

(** A header both ends read, with nothing for the reader to trim. *)
Definition trimmed (names : list bytes) (h : Headers) : Prop :=
  Forall (fun n => forall value, Get n h = Some value -> TrimSpaces value = value) names.

Record socket_sendable (rq : HttpRequest) : Prop := {
  ss_method : rq_method rq <> lit "HEAD";
  ss_line : rq_method rq <> [] /\ ValidRequestLineField (rq_method rq) = true
            /\ ValidRequestLineField (rq_target rq) = true;
  ss_safe : FindUnsafeHeader (rq_headers rq) = None;
  ss_length : GetAll (lit "content-length") (rq_headers rq) ∈ [[]; [to_string (len (rq_body rq))]];
  ss_encoding : GetAll (lit "transfer-encoding") (rq_headers rq) = [];
  ss_body : len (rq_body rq) <= kDefaultMaxBodyBytes;
  ss_head : len (message_text (request_start rq) (request_fields rq host port_text) []) <= kMaxHeaderBytes;
  ss_trimmed : trimmed request_headers_read (rq_headers rq)
}.

Record socket_answerable (rs : HttpResponse) : Prop := {
  sa_status : 100 <= rs_status rs <= 599;
  sa_safe : FindUnsafeHeader (Remove (lit "connection")
              (Remove (lit "transfer-encoding") (Remove (lit "content-length") (rs_headers rs)))) = None;
  sa_head : len (server_wire rs true) <= kMaxHeaderBytes;
  sa_body : len (rs_body rs) < 2 ^ 63 /\ len (rs_body rs) <= max_response_bytes;
  sa_trimmed : trimmed response_headers_read (rs_headers rs)
}.

Lemma Get_as_read n h : Get n (map as_read h) = TrimSpaces <$> Get n h.
Proof. rewrite !Get_GetAll, GetAll_as_read. by destruct (GetAll n h). Qed.

Lemma trimmed_read (names : list bytes) h n : trimmed names h -> n ∈ names -> TrimSpaces <$> Get n h = Get n h.
Proof.
  unfold trimmed. rewrite Forall_forall. intros Ht Hn. specialize (Ht n Hn).
  destruct (Get n h); [|done]. simpl. f_equal. by apply Ht.
Qed.

Lemma sendable_exchangeable rq :
  ValidHeaderValue (host ++ ":"%byte :: port_text) = true -> socket_sendable rq ->
  exists wire, exchangeable rq host port_text wire.
Proof.
  intros Hh [Hm (Hne & Hvm & Hvt) Hsafe Hcl Hte Hb Hl Ht].
  assert (Hw : exists wire, client_wire rq host port_text = Ok wire).
  { unfold client_wire. rewrite Hvm, Hvt, Hsafe. destruct (Z.eqb_spec (len (rq_method rq)) 0); [|eauto].
    destruct (rq_method rq); [done|]. rewrite len_cons in *. pose proof (len_nonneg l). lia. }
  destruct Hw as [wire Hw]. exists wire. pose proof (client_wire_text _ _ _ _ Hw) as (Ew & _).
  split; try done; []. rewrite Ew in *. unfold message_text in *.
  rewrite !len_app in *. change (len []) with 0 in Hl. lia.
Qed.

(** What the server's reader makes of the fields the handler reads. *)
Lemma received_arrives rq peer_text : trimmed request_headers_read (rq_headers rq) ->
  arrives rq (received rq host port_text peer_text).
Proof.
  intros Ht. split; try done; []. cbn [rq_headers received]. unfold request_headers_read.
  apply Forall_forall. intros n Hn. rewrite Get_as_read.
  rewrite <- (trimmed_read _ _ _ Ht Hn). f_equal. unfold request_fields.
  apply list_elem_of_In in Hn as [<-|[<-|[]]]; by destruct (Has (lit "content-length") _).
Qed.

Lemma answerable_framed rs : socket_answerable rs ->
  framed_response rs = mkResponse (rs_status rs) (Remove (lit "connection")
    (Remove (lit "transfer-encoding") (Remove (lit "content-length") (rs_headers rs)))) (rs_body rs)
    (rs_operation rs).
Proof. intros [_ Gf _ _ _]. unfold framed_response. by rewrite Gf. Qed.

Lemma answerable_readable rs head : socket_answerable rs -> readable rs head max_response_bytes.
Proof.
  intros Ha. pose proof (answerable_framed _ Ha) as Hf. destruct Ha as [Gs Gf Gh [G63 Gm] Gt].
  split; rewrite ?Hf; cbn [rs_status rs_body]; [done|done|lia|done].
Qed.

(** What the client's reader makes of an answer. *)
Lemma read_answered rs : socket_answerable rs -> answered rs (response_read rs false).
Proof.
  intros Ha. pose proof (answerable_framed _ Ha) as Hf. destruct Ha as [Gs Gf Gh [G63 Gm] Gt].
  unfold response_read. rewrite Hf.
  split; cbn [rs_status rs_body rs_headers]; try done; [].
  unfold response_headers_read. apply Forall_forall. intros n Hn. rewrite Get_as_read.
  rewrite <- (trimmed_read _ _ _ Gt Hn). f_equal. unfold response_fields. cbn [rs_headers].
  apply list_elem_of_In in Hn as [<-|[]]. cbn [Get]. rewrite !Get_Remove.
  by repeat change (HeaderNameEquals _ _) with false.
Qed.

(** The socket exchange is such a transport, whatever the cuts, with an engine
    that yields enough words. *)
Lemma socket_transport handler :
  (forall b, mjoin (cut_client b) = b) -> (forall b, mjoin (cut_server b) = b) ->
  ValidHeaderValue (host ++ ":"%byte :: port_text) = true ->
  (forall w rq, is_Some (EnsureInboundTraceIdentity rq (supply w))) ->
  (forall rq, socket_answerable (CorrelateServerError rq (handler rq))) ->
  Transport (socket_send (pure_handler handler)) handler socket_sendable.
Proof.
  intros Hc Hs Hh Hd Ha rq w Hsend.
  destruct (sendable_exchangeable rq Hh Hsend) as [wire Hex]. pose proof (ex_wire _ _ _ _ Hex) as Hw.
  pose proof (received_arrives rq (peer_text peer) (ss_trimmed _ Hsend)) as Har.
  set (rq1 := received rq host port_text (peer_text peer)) in *.
  destruct (Hd w rq1) as [[rq' draws] Hi]. destruct (EnsureInbound_traced _ _ _ _ Hi) as [c Ht].
  set (rs := CorrelateServerError rq' (handler rq')). specialize (Ha rq'). fold rs in Ha.
  exists rq', (response_read rs false), w. split; [|split].
  - etransitivity; [exact Har|]. by eapply traced_arrives.
  - unfold socket_send. rewrite Hw. unfold pure_handler.
    set (h := (fun rq => mret (handler rq)) : RequestHandler E). change (Some _) with (Some h).
    destruct (serve_turn h rq host port_text wire peer (cut_client wire) [Eof] (supply w) Hex (Hc wire) (Hd _ _))
      as (guarded & left & Hg & Hserve).
    rewrite Hserve. unfold InvokeHandlerGuarded in Hg. fold rq1 in Hg. rewrite Hi in Hg.
    cbn [mbind option_bind] in Hg. injection Hg as <- _.
    assert (Hnh : bytes_eqb (rq_method rq) (lit "HEAD") = false).
    { destruct (bytes_eqb _ _) eqn:Eh; [|done]. apply bytes_eqb_eq in Eh. by destruct (ss_method _ Hsend). }
    rewrite Hnh. cbv [h Contain mbind M_bind mret M_ret]. fold rs.
    destruct (answerable_readable rs false Ha) as [R1 R2 R3 R4].
    rewrite (client_response (rq_method rq) rs); rewrite ?Hnh; done.
  - destruct (read_answered rs Ha) as [A1 A2 A3 A4].
    destruct (correlated_answered (trace_id c) (handler rq') rs) as [B1 B2 B3 B4].
    { pose proof (CorrelateServerError_correlated rq' (handler rq')) as (_ & Eb & _). by rewrite <- Eb. }
    { rewrite <- (traced_id _ _ _ Ht). apply CorrelateServerError_correlated. }
    split; [congruence|congruence| |done]. rewrite Forall_forall in *. intros n Hn. by rewrite A3, B3.
Qed.

End Socket.
