(* ===== verification/WeatherCalls.v ===== *)
(** A generated client calling its generated server: what every stage between the
    two does to inputs, outputs and errors. *)
From Stdlib Require Import ZArith Lia Strings.Byte.
From Stdlib Require Import Floats.SpecFloat.
From S2P Require Import Prelude Bytes Utf8 RegexSyntax RegexVM RegexCompile RegexSearch Uri OrdMap Headers Router.
From S2P Require Import Timestamp Doubles Http1 Retry Cbor Pagination Effects ServerDispatch.
From S2P Require Import Json Serde Binary32 Envelope StreamFrames JsonValues WeatherSerde WeatherServer WeatherClient.
From S2P Require Import Transports.

Local Open Scope Z_scope.

(** ** Integers in a query *)

Lemma from_chars_int_text z : - 2 ^ 63 <= z < 2 ^ 63 -> from_chars_int64 (int_text z) = Some z.
Proof.
  intros Hz. unfold from_chars_int64, int_text. destruct (Z.ltb_spec z 0) as [Hn|Hp].
  - destruct (to_string_spec (- z) ltac:(lia)) as [Hv Hd]. pose proof (to_string_nonempty (- z)) as Hne.
    destruct (to_string (- z)) as [|c s] eqn:E; [done|]. rewrite (proj2 (forallb_Forall _ _) Hd), Hv.
    rewrite Z.opp_involutive, (proj2 (Z.leb_le _ _)), (proj2 (Z.ltb_lt _ _)) by lia. done.
  - destruct (to_string_spec z ltac:(lia)) as [Hv Hd]. pose proof (to_string_nonempty z) as Hne.
    destruct (to_string z) as [|c s] eqn:E; [done|].
    assert (Hc : c <> "-"%byte) by (intros ->; by inversion Hd).
    replace (match c :: s with "-"%byte :: rest => (true, rest) | _ => (false, c :: s) end)
      with (false, c :: s) by (by destruct c).
    cbv iota beta. rewrite (proj2 (forallb_Forall _ _) Hd), Hv.
    rewrite (proj2 (Z.leb_le _ _)), (proj2 (Z.ltb_lt _ _)) by lia. done.
Qed.

Lemma ParseInt64Text_int_text z lo hi :
  - 2 ^ 63 <= z < 2 ^ 63 -> lo <= z <= hi -> ParseInt64Text (int_text z) lo hi = Ok z.
Proof.
  intros Hz Hr. unfold ParseInt64Text. rewrite from_chars_int_text by done.
  rewrite (proj2 (Z.ltb_ge _ _)), Z.gtb_ltb, (proj2 (Z.ltb_ge _ _)) by lia. done.
Qed.

(** ** The constraint on city ids *)

Definition city_byte (b : Byte.byte) : bool :=
  let z := b2z b in
  ((48 <=? z) && (z <=? 57)) || ((65 <=? z) && (z <=? 90)) || ((97 <=? z) && (z <=? 122)) || (z =? 32).

Definition city_class : bitset := Eval vm_compute in
  match RegexSyntax.Parse kPattern with
  | Some (Ok (kConcat [_; kRepeat _ _ (kClass cls); _])) => cls
  | _ => 0
  end.

Lemma kPattern_parsed :
  RegexSyntax.Parse kPattern = Some (Ok (kConcat [kAssert kInputStart; kRepeat 1 (-1) (kClass city_class); kAssert kInputEnd])).
Proof. by vm_compute. Qed.

Lemma city_class_test b : bs_test city_class b = city_byte b.
Proof. by destruct b. Qed.

Lemma class_run t cls k : forall i j,
  span_iter (matches t (kClass cls)) k i j <->
  j = (i + k)%nat /\ forall n, (i <= n < j)%nat -> exists b, t !! n = Some b /\ bs_test cls b = true.
Proof.
  induction k as [|k IH]; intros i j; cbn [span_iter].
  - split; [intros <-; split; [lia|intros; lia]|intros [-> _]; lia].
  - split.
    + intros (m & (b & Hb & Ht & ->) & [-> Hr]%IH). split; [lia|]. intros n Hn.
      destruct (decide (n = i)) as [->|]; [eauto|]. apply Hr. lia.
    + intros [-> Hr]. destruct (Hr i ltac:(lia)) as (b & Hb & Ht). exists (S i).
      split; [by exists b|]. apply IH. split; [lia|]. intros n Hn. apply Hr. lia.
Qed.

Lemma city_found t :
  found t (kConcat [kAssert kInputStart; kRepeat 1 (-1) (kClass city_class); kAssert kInputEnd])
  <-> t <> [] /\ Forall (fun b => city_byte b = true) t.
Proof.
  unfold found. cbn [matches matches_seq assert_holds]. split.
  - intros (i & j & Hi & i1 & [Hs <-] & j1 & (k & Hk & _ & [-> Hr]%class_run) & j2 & [He <-] & <-).
    apply Nat.eqb_eq in Hs, He. subst i. rewrite Nat.add_0_l in *. split.
    + intros ->. simpl in He. lia.
    + apply Forall_lookup. intros n b Hb. pose proof (lookup_lt_Some _ _ _ Hb).
      destruct (Hr n ltac:(lia)) as (b' & Hb' & Ht). rewrite <- city_class_test. congruence.
  - intros [Hne Hall]. exists 0%nat, (length t). split; [lia|]. exists 0%nat. split; [done|].
    exists (length t). split.
    + exists (length t). split; [destruct t; [done|simpl; lia]|]. split; [lia|].
      apply class_run. split; [lia|]. intros n Hn. destruct (lookup_lt_is_Some_2 t n ltac:(lia)) as [b Hb].
      exists b. split; [done|]. rewrite city_class_test. by eapply Forall_lookup_1 in Hall.
    + exists (length t). split; [|done]. split; [by apply Nat.eqb_eq|done].
Qed.

(** A city id is accepted when it is made of letters, digits and spaces. *)
Lemma satisfies_city t :
  len t + 2 < 2 ^ 32 -> satisfies kPattern t = true <-> t <> [] /\ Forall (fun b => city_byte b = true) t.
Proof.
  intros Hl. unfold satisfies, regex_search.
  assert (Hc : exists re, Compile kPattern = Some (Ok re)) by (eexists; by vm_compute).
  destruct Hc as [re Hc]. rewrite Hc. destruct (Compile_compiled _ re Hc) as (n & Hn & Hre).
  rewrite kPattern_parsed in Hn. injection Hn as <-.
  destruct (Search_spec _ re Hre t Hl) as (b & steps & Hs & _ & Hb).
  unfold Search. rewrite Hs. cbn [fmap option_fmap option_map fst]. by rewrite Hb, city_found.
Qed.

(** ** Error bodies *)

(** Objects of text members. *)
Lemma text_object n m :
  len m < 2 ^ 64 -> sm_ok m ->
  Forall (fun e => len (fst e) < 2 ^ 64 /\ utf8 (fst e) /\ text_ok (snd e)) m ->
  carried_doc (S n) (Map_ (map (fun e => (fst e, String_ (snd e))) m)).
Proof.
  intros Hl Hs Hall. apply carried_map.
  - unfold len in *. by rewrite length_map.
  - by apply sm_map_ok.
  - apply Forall_map. eapply Forall_impl; [exact Hall|]. intros [k t] (H1 & H2 & H3).
    split; [done|]. split; [done|]. by apply carried_text.
Qed.

Definition quoted_failures (fs : list ValidationFailure) : Prop :=
  len fs < 2 ^ 64 /\ Forall (fun f => text_ok (failure_path f) /\ text_ok (failure_message f)) fs.

Section Errors.
Context `{JsonValueLaws}.

(** What is left of an error when the client has read its response:
    [typed] for the calls that model [NoSuchResource]. *)
Definition text_or (text fallback : bytes) : bytes := match text with [] => fallback | _ => text end.

Definition error_as_seen (typed : bool) (error : ServiceError) : ServiceError :=
  let e := fst error in
  match err_kind e with
  | kModeled =>
    if bytes_eqb (err_code e) (lit "NoSuchResource")
    then (Error_Modeled (lit "NoSuchResource") (text_or (err_message e) (lit "HTTP 404")) false,
          if typed then snd error else None)
    else
      let code := match err_code e with [] => kUnknownError | c => SanitizeErrorCode c end in
      let message := text_or (err_message e) (lit "HTTP 400") in
      (if bytes_eqb code kUnknownError then mkError kUnknown code message false
       else Error_Modeled code message false, None)
  | kValidation | kSerialization =>
    (Error_Modeled (lit "SerializationException") (text_or (err_message e) (lit "HTTP 400")) false, None)
  | _ => (Error_Modeled (lit "InternalFailure") (lit "internal failure") true, None)
  end.

(** Errors whose texts JSON can carry. *)
Definition error_fits (error : ServiceError) : Prop :=
  text_ok (err_code (fst error)) /\ text_ok (err_message (fst error))
  /\ match snd error with Some detail => text_ok (resourceType detail) | None => True end.

(** A response whose body decodes to [body]. *)
Definition carries_body (body : Document) (rs : HttpResponse) : Prop := decode (rs_body rs) = Ok body.

Lemma json_error_body status code message body rs' :
  carried_doc 3 (Map_ (error_members code message body)) -> (3 <= max_levels)%nat ->
  answered (JsonError status code message body) rs' ->
  decode (rs_body rs') = Ok (jsonified (Map_ (error_members code message body))).
Proof.
  intros [Hok Hp Hl] Hm [_ Hb _ Hs]. rewrite Hb. apply decode_values; try done; lia.
Qed.

(** The members an error response has, for plain codes and messages. *)
Definition text_members (code message : bytes) : list (bytes * bytes) :=
  match code with [] => [] | _ => [(lit "__type", code)] end
  ++ match message with [] => [] | _ => [(lit "message", message)] end.

Lemma error_members_text code message :
  error_members code message [] = map (fun e => (fst e, String_ (snd e))) (text_members code message).
Proof. by destruct code, message. Qed.

Lemma text_members_carried code message :
  text_ok code -> text_ok message ->
  carried_doc 3 (Map_ (error_members code message []))
  /\ jsonified (Map_ (error_members code message [])) = Map_ (error_members code message []).
Proof.
  intros Hc Hm. rewrite error_members_text. split.
  - apply (text_object 2); [by destruct code, message|apply sorted_keys_ok; by destruct code, message|].
    unfold text_members. destruct code, message; cbn [app];
      repeat (apply Forall_cons_2; [split; [reflexivity|split; [by apply utf8_ascii|done]]|]); apply Forall_nil_2.
  - cbn [jsonified]. f_equal. by rewrite map_map.
Qed.

Lemma text_ok_ascii s : forallb (fun c => b2z c <? 128) s = true -> len s < 2 ^ 64 -> text_ok s.
Proof. intros Ha Hl. split; [by apply utf8_ascii|done]. Qed.

(** What the client parses out of a plain error response. *)
Lemma ParseError_text status code message rs' :
  text_ok code -> text_ok message -> (3 <= max_levels)%nat ->
  answered (JsonError status code message []) rs' ->
  ParseError rs' = mkParsedError status (match code with [] => kUnknownError | c => SanitizeErrorCode c end)
                     (text_or message (lit "HTTP " ++ int_text status)) (Map_ (error_members code message [])).
Proof.
  intros Hc Hm Hl Ha. destruct (text_members_carried code message Hc Hm) as [Hcar Hj].
  pose proof (json_error_body _ _ _ _ _ Hcar Hl Ha) as Hb. rewrite Hj in Hb.
  destruct Ha as [Hs _ Hh _]. unfold ParseError. rewrite Hb. cbn [is_map].
  apply Forall_cons in Hh as [Hh _]. rewrite Hh. change (rs_headers (JsonError _ _ _ _))
    with (Set_ (lit "content-type") (lit "application/json") []).
  change (Get (lit "x-error-type") _) with (@None bytes). rewrite Hs. change (rs_status (JsonError _ _ _ _)) with status.
  destruct code, message; reflexivity.
Qed.

(** The same with the [x-error-type] header set to a plain code. *)
Lemma ParseError_typed status code message body rs' :
  SanitizeErrorCode code = code -> bytes_eqb code kUnknownError = false ->
  decode (rs_body rs') = Ok (Map_ body) ->
  rs_status rs' = status -> Get (lit "x-error-type") (rs_headers rs') = Some code ->
  sm_lookup (lit "message") body = message ->
  ParseError rs' = mkParsedError status code
                     (string_or message (lit "HTTP " ++ int_text status)) (Map_ body).
Proof.
  intros Hc Hu Hb <- Hh <-. unfold ParseError. rewrite Hb, Hh, Hc. cbn [is_map Find].
  rewrite Hu. f_equal. by destruct (match sm_lookup (lit "__type") body with Some t => Some t | None => _ end) as [[]|].
Qed.
(** The body of a [NoSuchResource]. *)
Definition resource_members (error : ServiceError) : list (bytes * bytes) :=
  match err_message (fst error) with [] => [] | m => [(lit "message", m)] end
  ++ match snd error with Some detail => [(lit "resourceType", resourceType detail)] | None => [] end.

Lemma no_such_resource_text error :
  error_members [] [] (no_such_resource_body error)
  = map (fun e => (fst e, String_ (snd e))) (resource_members error).
Proof. destruct error as [e [[t]|]]; destruct e as [k c [|x m] r]; reflexivity. Qed.

Lemma resource_members_carried error :
  error_fits error ->
  carried_doc 3 (Map_ (error_members [] [] (no_such_resource_body error)))
  /\ jsonified (Map_ (error_members [] [] (no_such_resource_body error)))
     = Map_ (map (fun e => (fst e, String_ (snd e))) (resource_members error)).
Proof.
  intros (_ & Hm & Hd). rewrite no_such_resource_text. split.
  - destruct error as [e [[t]|]]; destruct e as [k c [|x m] r]; cbn [fst snd err_message resourceType] in *;
      (apply (text_object 2); [reflexivity|apply sorted_keys_ok; reflexivity|]);
      unfold resource_members; cbn [fst snd err_message resourceType app];
      repeat (apply Forall_cons_2; [split; [reflexivity|split; [by apply utf8_ascii|done]]|]); apply Forall_nil_2.
  - cbn [jsonified]. f_equal. by rewrite map_map.
Qed.

Definition parse_error (typed : bool) (response : HttpResponse) : ServiceError :=
  if typed then ParseResourceError response else ParseGenericError response.

Definition refused_status (status : Z) : Prop := status <> 200 /\ status <> 204.

Lemma GenericError_parsed status code message doc :
  bytes_eqb code kUnknownError = false ->
  GenericError (mkParsedError status code message doc)
  = (Error_Modeled code message (status >=? 500), None).
Proof. unfold GenericError. cbn [pe_status pe_code pe_message]. by intros ->. Qed.

(** A code that is neither [NoSuchResource] nor unknown is read the same way by
    every call. *)
Lemma parse_error_other typed rs status code message doc :
  ParseError rs = mkParsedError status code message doc ->
  bytes_eqb code (lit "NoSuchResource") = false -> bytes_eqb code kUnknownError && (status =? 404) = false ->
  parse_error typed rs = GenericError (mkParsedError status code message doc).
Proof.
  intros Hp H1 H2. unfold parse_error, ParseResourceError, ParseGenericError. rewrite Hp.
  cbn [pe_code pe_status]. rewrite H1, H2. by destruct typed.
Qed.

Lemma resource_relayed typed error rs' :
  error_fits error -> (3 <= max_levels)%nat -> err_code (fst error) = lit "NoSuchResource" ->
  answered (with_header (lit "x-error-type") (err_code (fst error))
              (JsonError 404 [] [] (no_such_resource_body error))) rs' ->
  parse_error typed rs'
  = (Error_Modeled (lit "NoSuchResource") (text_or (err_message (fst error)) (lit "HTTP 404")) false,
     if typed then snd error else None).
Proof.
  intros Hf Hl Hc Ha. destruct (resource_members_carried error Hf) as [Hcar Hj].
  pose proof Ha as [Hs Hbody Hh Hsize]. apply Forall_cons in Hh as [Hh _]. rewrite Hc in Hh.
  change (Get (lit "x-error-type") (rs_headers (with_header _ _ _))) with (Some (lit "NoSuchResource")) in Hh.
  assert (Hb : decode (rs_body rs') = Ok (Map_ (map (fun e => (fst e, String_ (snd e))) (resource_members error)))).
  { rewrite Hbody, <- Hj. destruct Hcar. apply decode_values; try done; lia. }
  pose proof (ParseError_typed 404 (lit "NoSuchResource") _ _ rs' eq_refl eq_refl Hb Hs Hh eq_refl) as Hp.
  unfold parse_error, ParseResourceError, ParseGenericError. rewrite Hp. cbn [pe_code pe_status].
  destruct error as [e [[t]|]]; destruct e as [k c [|x m] r]; destruct typed; reflexivity.
Qed.

Lemma coded_relayed typed code message rs' :
  text_ok code -> text_ok message -> (3 <= max_levels)%nat ->
  answered (JsonError 400 code message []) rs' ->
  let seen := match code with [] => kUnknownError | c => SanitizeErrorCode c end in
  parse_error typed rs'
  = (if bytes_eqb seen kUnknownError then mkError kUnknown seen (text_or message (lit "HTTP 400")) false
     else Error_Modeled seen (text_or message (lit "HTTP 400")) false, None).
Proof.
  intros Hc Hm Hl Ha seen. pose proof (ParseError_text 400 code message rs' Hc Hm Hl Ha) as Hp.
  fold seen in Hp. change (lit "HTTP " ++ int_text 400) with (lit "HTTP 400") in Hp.
  destruct (bytes_eqb seen (lit "NoSuchResource")) eqn:En.
  - apply bytes_eqb_eq in En. unfold parse_error, ParseResourceError, ParseGenericError. rewrite Hp. cbn [pe_code pe_status].
    rewrite En. change (bytes_eqb (lit "NoSuchResource") kUnknownError) with false.
    unfold MakeNoSuchResourceError. cbn [pe_doc is_map].
    assert (Hd : exists e, DeserializeNoSuchResource (Map_ (error_members code message [])) = Err e)
      by (rewrite error_members_text; destruct code, message; by eexists).
    destruct Hd as [e ->]. by destruct typed.
  - rewrite (parse_error_other typed rs' _ _ _ _ Hp En) by (by rewrite andb_false_r).
    unfold GenericError. cbn [pe_status pe_code pe_message]. by destruct (bytes_eqb seen kUnknownError).
Qed.

Lemma typed_relayed typed type message rs' :
  SanitizeErrorCode type = type -> bytes_eqb type kUnknownError = false ->
  bytes_eqb type (lit "NoSuchResource") = false ->
  text_ok message -> (3 <= max_levels)%nat ->
  answered (with_header (lit "x-error-type") type (JsonError 400 [] message [])) rs' ->
  parse_error typed rs' = (Error_Modeled type (text_or message (lit "HTTP 400")) false, None).
Proof.
  intros Hs Hu Hn Hm Hl Ha.
  destruct (text_members_carried [] message ltac:(split; [by apply utf8_ascii|done]) Hm) as [Hcar Hj].
  pose proof Ha as [Hst Hbody Hh Hsize]. apply Forall_cons in Hh as [Hh _].
  assert (Hb : decode (rs_body rs') = Ok (Map_ (error_members [] message []))).
  { rewrite Hbody, <- Hj. destruct Hcar. apply decode_values; try done; lia. }
  change (Get (lit "x-error-type") (rs_headers (with_header _ type _))) with (Some type) in Hh.
  pose proof (ParseError_typed 400 type _ _ rs' Hs Hu Hb Hst Hh eq_refl) as Hp.
  rewrite (parse_error_other typed rs' _ _ _ _ Hp Hn) by (by rewrite Hu).
  rewrite GenericError_parsed by done. by destruct message.
Qed.

(** Every error response is read back as the error the call reports. *)
Lemma error_relayed typed error rs' :
  error_fits error -> (3 <= max_levels)%nat -> answered (ErrorToResponse error) rs' ->
  parse_error typed rs' = error_as_seen typed error /\ refused_status (rs_status rs').
Proof.
  intros Hf Hl. pose proof Hf as (Hc & Hm & _). unfold ErrorToResponse, error_as_seen.
  assert (Hint : text_ok (lit "internal failure")) by (by apply text_ok_ascii).
  assert (Hif : text_ok (lit "InternalFailure")) by (by apply text_ok_ascii).
  assert (Hinternal : answered (JsonError 500 (lit "InternalFailure") (lit "internal failure") []) rs' ->
    parse_error typed rs' = (Error_Modeled (lit "InternalFailure") (lit "internal failure") true, None)
    /\ refused_status (rs_status rs')).
  { intros Ha. pose proof (ParseError_text 500 _ _ rs' Hif Hint Hl Ha) as Hp. split.
    - rewrite (parse_error_other typed rs' _ _ _ _ Hp) by done. by rewrite GenericError_parsed.
    - destruct Ha as [-> _ _ _]. done. }
  assert (Hser : answered (with_header (lit "x-error-type") (lit "SerializationException")
                             (JsonError 400 [] (err_message (fst error)) [])) rs' ->
    parse_error typed rs'
    = (Error_Modeled (lit "SerializationException") (text_or (err_message (fst error)) (lit "HTTP 400")) false, None)
    /\ refused_status (rs_status rs')).
  { intros Ha. split; [by apply typed_relayed|]. destruct Ha as [-> _ _ _]. done. }
  destruct (err_kind (fst error)); try done; [].
  destruct (bytes_eqb (err_code (fst error)) (lit "NoSuchResource")) eqn:En; intros Ha.
  - apply bytes_eqb_eq in En. split; [by apply resource_relayed|]. destruct Ha as [-> _ _ _]. done.
  - split; [|by destruct Ha as [-> _ _ _]]. rewrite (coded_relayed typed _ _ rs' Hc Hm Hl Ha).
    by destruct (err_code (fst error)).
Qed.

(** A refused city id. *)
Definition city_failures : list ValidationFailure := [pattern_failure (lit "/cityId") kPattern].

Definition city_refused : ServiceError :=
  (Error_Modeled (lit "ValidationException") (validation_summary city_failures) false, None).

Lemma validate_city_spec cityId :
  validate_city cityId [] = if satisfies kPattern cityId then [] else city_failures.
Proof. done. Qed.

Definition city_refused_members : list (bytes * Document) :=
  [(lit "fieldList", List_ (map failure_field city_failures));
   (lit "message", String_ (validation_summary city_failures))].

Lemma city_refused_carried : carried_doc 3 (Map_ city_refused_members).
Proof.
  unfold city_refused_members. carried_members.
  - apply carried_list; [done|]. apply Forall_cons_2; [|apply Forall_nil_2].
    change (failure_field _) with (Map_ [(lit "message", String_ (failure_message (pattern_failure (lit "/cityId") kPattern)));
      (lit "path", String_ (lit "/cityId"))]).
    carried_members; apply carried_text; by apply text_ok_ascii.
  - apply carried_text. by apply text_ok_ascii.
Qed.

Lemma validation_relayed typed rs' :
  (3 <= max_levels)%nat -> answered (ValidationErrorResponse city_failures) rs' ->
  parse_error typed rs' = city_refused /\ refused_status (rs_status rs').
Proof.
  intros Hl [Hs Hbody Hh Hsize]. apply Forall_cons in Hh as [Hh _].
  change (rs_body (ValidationErrorResponse city_failures)) with (encode (Map_ city_refused_members)) in *.
  change (Get (lit "x-error-type") (rs_headers (ValidationErrorResponse city_failures)))
    with (Some (lit "ValidationException")) in Hh.
  assert (Hb : decode (rs_body rs') = Ok (Map_ city_refused_members)).
  { rewrite Hbody. destruct city_refused_carried. rewrite decode_values by (done || lia). by f_equal. }
  change (rs_status (ValidationErrorResponse city_failures)) with 400 in Hs.
  pose proof (ParseError_typed 400 (lit "ValidationException") _ _ rs' eq_refl eq_refl Hb Hs Hh eq_refl) as Hp.
  split; [|by rewrite Hs]. rewrite (parse_error_other typed rs' _ _ _ _ Hp) by done.
  by rewrite GenericError_parsed.
Qed.

End Errors.
