(* ===== verification/WeatherSpec.v ===== *)
(** A call on a generated client is a call on the server's handler: the
    composition of the client, its transport, the router, the server's binding and
    validation, the handler and both serializers. *)
From Stdlib Require Import ZArith Lia Strings.Byte.
From Stdlib Require Import Floats.SpecFloat.
From S2P Require Import Prelude Bytes Utf8 Uri OrdMap Headers Router.
From S2P Require Import Timestamp Doubles Http1 TraceContext Retry Cbor Pagination Effects ServerDispatch.
From S2P Require Import Json Serde Binary32 Envelope StreamFrames JsonValues WeatherSerde WeatherServer WeatherClient.
From S2P Require Import Transports WeatherCalls.

Local Open Scope Z_scope.

(** ** Dispatch *)

Lemma Route_to routes rq target bucket r :
  NormalizedTarget (rq_target rq) = Ok target -> sm_lookup (rq_method rq) routes = Some bucket ->
  best_route bucket (path_segments target) = Some r ->
  Route routes rq = stamp_operation (operation r)
    (handler r rq (mkContext (default [] (MatchLabels (segments r) (path_segments target))) (query_params target) rq)).
Proof. intros Ht Hb Hr. unfold Route. rewrite Ht, Hb, Hr. by destruct (operation r). Qed.

Lemma answered_stamp op rs rs' : answered (stamp_operation op rs) rs' -> answered rs rs'.
Proof. by destruct op; [|intros [? ? ? ?]]. Qed.

Section Calls.
Context `{JsonValueLaws} (underflow : bytes -> bool) {W : Type}.
Context (c : WeatherClient W) (h : WeatherHandler) (sendable : HttpRequest -> Prop).

(** The client's transport reaches the server, and its interceptors only add
    what the server does not read. *)
Record deployment : Prop := {
  dep_levels : (3 <= max_levels)%nat;
  dep_transport : Transport (Retry.Send (transport_ c)) (Handler h) sendable;
  dep_interceptors : Forall (transparent sendable) (interceptors (config_ c));
  dep_prefix : path_prefix_ c = []
}.

(** The request of a call, as the client sends it, is one the transport takes. *)
Definition sends (method target : bytes) : Prop :=
  forall w, sendable (fst (outgoing c (mkRequest method target [] [] []) w)).

(** A request the server may receive for a call. *)
Definition call_arrived (method target : bytes) (rq : HttpRequest) : Prop :=
  rq_method rq = method /\ rq_target rq = target
  /\ Get (lit "content-type") (rq_headers rq) = None
  /\ Get (lit "accept") (rq_headers rq) = Some (lit "application/json").

Lemma outgoing_headers method target w :
  let rq := fst (outgoing c (mkRequest method target [] [] []) w) in call_arrived method target rq.
Proof.
  unfold outgoing, call_arrived. cbn [rq_headers rq_body rq_method rq_target].
  change (Headers.Has (lit "accept") []) with false. cbv iota.
  destruct (bearer_token (config_ c)) as [token|].
  - destruct (token w) as [t w1]. cbn [fst rq_headers rq_method rq_target]. by rewrite !Get_Set.
  - cbn [fst rq_headers rq_method rq_target]. by rewrite !Get_Set.
Qed.

Lemma call_reaches {A} method target expected on_error (read : HttpResponse -> Answer A) w :
  deployment -> sends method target ->
  exists rq' rs', call_arrived method target rq' /\ answered (Handler h rq') rs'
    /\ fst (call c method target expected on_error read w)
       = if negb (rs_status rs' =? expected) then inr (on_error rs') else read rs'.
Proof.
  intros [_ Ht Hi _] Hs. unfold call, Send. pose proof (outgoing_headers method target w) as Ho.
  specialize (Hs w). destruct (outgoing c _ w) as [rq w1]. cbn [fst] in *.
  destruct (SendWithRetries_exchanged (transport_ c) (Handler h) sendable rq (retry (config_ c)) _ w1 Hi Hs)
    as (rq' & rs' & [Am At _ Ah] & Hr & Ha).
  destruct (SendWithRetries _ _ _ _ w1) as [outcome w2]. cbn [fst] in *. subst outcome.
  exists rq', rs'. split; [|done]. destruct Ho as (H1 & H2 & H3 & H4).
  unfold call_arrived. apply Forall_cons in Ah as [A1 [A2 _]%Forall_cons]. by rewrite Am, At, A1, A2.
Qed.

(** ** One operation *)

(** What a call reports of a handler's answer. *)
Definition seen {A} (typed : bool) (answer : Answer A) : Answer A :=
  match answer with inl output => inl output | inr error => inr (error_as_seen typed error) end.

Definition answer_fits {A} (fits : A -> Prop) (answer : Answer A) : Prop :=
  match answer with inl output => fits output | inr error => error_fits error end.

Lemma route_reached {I O} method target refused accepts (parse : HttpRequest -> RequestContext -> Outcome I)
    validate (operation : I -> RequestContext -> Answer O) build rq context :
  call_arrived method target rq -> refused = wrong_content_type \/ refused = any_content_type ->
  route refused accepts parse validate operation build rq context
  = match parse rq context with
    | Err e => ErrorToResponse (plain_error e)
    | Ok input => match validate input with
                  | (_ :: _) as failures => ValidationErrorResponse failures
                  | [] => match operation input context with
                          | inr error => ErrorToResponse error
                          | inl output => build output
                          end
                  end
    end.
Proof.
  intros (_ & _ & Hc & Ha) Hr. unfold route.
  assert (refused rq = false) as ->.
  { destruct Hr as [-> | ->]; unfold wrong_content_type, any_content_type, Headers.Has; by rewrite Hc. }
  assert (wrong_accept rq = false) as -> by (unfold wrong_accept; rewrite Ha; by vm_compute).
  by rewrite andb_false_r.
Qed.

(** An operation whose route is reached with [labels] and [query], binds
    [input] and succeeds with [expected]. *)
Lemma operation_called {I O} method target labels query op_name refused accepts
    (parse : HttpRequest -> RequestContext -> Outcome I) validate (operation : I -> RequestContext -> Answer O)
    build (fits : O -> Prop) typed expected on_error read input w :
  deployment -> sends method target ->
  (forall rq, call_arrived method target rq ->
     Handler h rq = stamp_operation op_name
       (route refused accepts parse validate operation build rq (mkContext labels query rq))) ->
  refused = wrong_content_type \/ refused = any_content_type ->
  (forall rq, parse rq (mkContext labels query rq) = Ok input) ->
  validate input = [] \/ validate input = city_failures ->
  on_error = parse_error typed -> expected = 200 \/ expected = 204 ->
  (forall context, answer_fits fits (operation input context)) ->
  (forall output rs', fits output -> answered (build output) rs' -> rs_status rs' = expected /\ read rs' = inl output) ->
  exists rq', call_arrived method target rq'
    /\ fst (call c method target expected on_error read w)
       = match validate input with
         | [] => seen typed (operation input (mkContext labels query rq'))
         | _ => inr city_refused
         end.
Proof.
  intros Hd Hs Hroute Href Hparse Hval -> Hexp Hfits Hread.
  destruct (call_reaches method target expected (parse_error typed) read w Hd Hs) as (rq' & rs' & Hrq & Ha & ->).
  exists rq'. split; [done|]. rewrite (Hroute rq' Hrq) in Ha. apply answered_stamp in Ha.
  rewrite (route_reached method target) in Ha by done. rewrite Hparse in Ha.
  pose proof (dep_levels Hd) as Hl.
  assert (Hrefused : refused_status (rs_status rs') -> negb (rs_status rs' =? expected) = true).
  { intros [H1 H2]. apply negb_true_iff, Z.eqb_neq. by destruct Hexp as [-> | ->]. }
  destruct Hval as [E|E]; rewrite E in *.
  - specialize (Hfits (mkContext labels query rq')). destruct (operation input _) as [output|error]; cbn [answer_fits seen] in *.
    + destruct (Hread output rs' Hfits Ha) as [-> ->]. by rewrite Z.eqb_refl.
    + destruct (error_relayed typed error rs' Hfits Hl Ha) as [-> Hst]. by rewrite Hrefused.
  - destruct (validation_relayed typed rs' Hl Ha) as [-> Hst]. by rewrite Hrefused.
Qed.

(** A shape that arrives as JSON is read as it was built. *)
Lemma shape_read {T} `{ShapeLaws T} (build : T -> HttpResponse) (output : T) rs' :
  (3 <= max_levels)%nat -> fits output -> build output = json_response 200 (serialize output) ->
  answered (build output) rs' -> rs_status rs' = 200 /\ read_body deserialize rs' = inl output.
Proof.
  intros Hl Hf Hb [Hs Hbody _ Hsize]. rewrite Hb in *. cbn [json_response rs_status rs_body] in *.
  split; [done|]. unfold read_body. rewrite Hbody.
  pose proof (shape_roundtrip output Hf Hl Hsize) as Hr.
  destruct (decode _) as [d|e]; [|done]. cbn [mbind Outcome_bind] in Hr. by rewrite Hr.
Qed.

(** ** The six routes *)

Lemma target_of p v :
  pattern_ok p -> Forall (value_ok v) p ->
  NormalizedTarget (pattern_target v p) = Ok (mkTarget (pattern_segments v p) []).
Proof.
  intros Hp Hv. destruct (pattern_target_matches v p [] Hp Hv ltac:(constructor)) as (labels & Ht & _).
  by rewrite app_nil_r in Ht.
Qed.

Definition literal (t : bytes) : Segment := mkSegment kLiteral t.

Lemma literal_differs t p s segs : bytes_eqb s t = false -> MatchSegments (literal t :: p) (s :: segs) = false.
Proof.
  intros Hd. unfold MatchSegments, MatchLabels. cbn [match_loop kind text literal]. rewrite Hd.
  destruct (has_greedy _); [by destruct (_ <? _)|by destruct (negb _)].
Qed.

(** A route whose first literal differs is passed over. *)
Lemma better_skip segs best t p s f op :
  bytes_eqb s t = false -> better (s :: segs) best (mkEntry (literal t :: p) f op) = best.
Proof. intros Hd. unfold better, route_matches. cbn [segments]. by rewrite literal_differs. Qed.

Definition id_label : Segment := mkSegment kLabel (lit "cityId").

Lemma get_bucket :
  sm_lookup (lit "GET") (WeatherServer h) = Some
    [mkEntry [literal (lit "cities"); id_label]
       (route wrong_content_type true ParseGetCityInput (fun i => ValidateGetCityInput i []) (GetCity h) BuildGetCityResponse)
       (lit "GetCity");
     mkEntry [literal (lit "current-time")]
       (route any_content_type true ParseGetCurrentTimeInput no_validation (GetCurrentTime h) BuildGetCurrentTimeResponse)
       (lit "GetCurrentTime");
     mkEntry [literal (lit "cities"); id_label; literal (lit "forecast")]
       (route wrong_content_type true ParseGetForecastInput (fun i => ValidateGetForecastInput i []) (GetForecast h)
          BuildGetForecastResponse) (lit "GetForecast");
     mkEntry [literal (lit "reports"); mkSegment kGreedy (lit "reportPath")]
       (route wrong_content_type true ParseGetReportInput no_validation (GetReport h) BuildGetReportResponse)
       (lit "GetReport");
     mkEntry [literal (lit "cities")]
       (route wrong_content_type true ParseListCitiesInput no_validation (ListCities h) BuildListCitiesResponse)
       (lit "ListCities")].
Proof. reflexivity. Qed.

Lemma city_routed method rq id : id <> [] -> rq_method rq = method ->
  rq_target rq = lit "/cities" ++ lit "/" ++ EncodePathSegment id ->
  (method = lit "GET" ->
   Handler h rq = stamp_operation (lit "GetCity")
     (route wrong_content_type true ParseGetCityInput (fun i => ValidateGetCityInput i []) (GetCity h)
        BuildGetCityResponse rq (mkContext [(lit "cityId", id)] [] rq)))
  /\ (method = lit "DELETE" ->
   Handler h rq = stamp_operation (lit "DeleteCity")
     (route wrong_content_type false ParseDeleteCityInput (fun i => ValidateDeleteCityInput i []) (DeleteCity h)
        BuildDeleteCityResponse rq (mkContext [(lit "cityId", id)] [] rq))).
Proof.
  intros Hid Hm Ht.
  assert (Hn : NormalizedTarget (rq_target rq) = Ok (mkTarget [lit "cities"; id] [])).
  { rewrite Ht. apply (target_of [literal (lit "cities"); mkSegment kLabel (lit "cityId")] (fun _ => id));
      [by repeat split|]. apply Forall_cons_2; [by repeat constructor|]. by apply Forall_cons_2. }
  unfold Handler. split; intros ->; erewrite Route_to; try exact Hn; try (rewrite Hm; reflexivity);
    destruct id; try done; reflexivity.
Qed.

Lemma forecast_routed rq id : id <> [] -> rq_method rq = lit "GET" ->
  rq_target rq = lit "/cities" ++ lit "/" ++ EncodePathSegment id ++ lit "/forecast" ->
  Handler h rq = stamp_operation (lit "GetForecast")
     (route wrong_content_type true ParseGetForecastInput (fun i => ValidateGetForecastInput i [])
        (GetForecast h) BuildGetForecastResponse rq (mkContext [(lit "cityId", id)] [] rq)).
Proof.
  intros Hid Hm Ht.
  assert (Hn : NormalizedTarget (rq_target rq) = Ok (mkTarget [lit "cities"; id; lit "forecast"] [])).
  { rewrite Ht. apply (target_of [literal (lit "cities"); mkSegment kLabel (lit "cityId"); literal (lit "forecast")]
      (fun _ => id)); [by repeat split|]. repeat (apply Forall_cons_2; [by repeat constructor|]); constructor. }
  unfold Handler. erewrite Route_to; try exact Hn; try (rewrite Hm; reflexivity); destruct id; try done; reflexivity.
Qed.

Lemma time_routed rq : rq_method rq = lit "GET" -> rq_target rq = lit "/current-time" ->
  Handler h rq = stamp_operation (lit "GetCurrentTime")
     (route any_content_type true ParseGetCurrentTimeInput no_validation (GetCurrentTime h)
        BuildGetCurrentTimeResponse rq (mkContext [] [] rq)).
Proof.
  intros Hm Ht. unfold Handler. erewrite Route_to; [|rewrite Ht; by vm_compute|rewrite Hm; reflexivity|reflexivity].
  reflexivity.
Qed.

Lemma report_routed rq file : file <> [] -> ends_with_byte "/"%byte file = false -> rq_method rq = lit "GET" ->
  rq_target rq = lit "/reports" ++ lit "/" ++ EncodeGreedyPathSegment file ->
  Handler h rq = stamp_operation (lit "GetReport")
     (route wrong_content_type true ParseGetReportInput no_validation (GetReport h)
        BuildGetReportResponse rq (mkContext [(lit "reportPath", file)] [] rq)).
Proof.
  intros Hf He Hm Ht. destruct (pieces_spec "/"%byte file Hf) as (J & _ & Hnn & Hlast).
  assert (Hn : NormalizedTarget (rq_target rq) = Ok (mkTarget (lit "reports" :: pieces true "/"%byte file) [])).
  { rewrite Ht. rewrite <- (app_nil_r (pieces true _ _)).
    apply (target_of [literal (lit "reports"); mkSegment kGreedy (lit "reportPath")] (fun _ => file));
      [by repeat split|]. apply Forall_cons_2; [by repeat constructor|]. by apply Forall_cons_2. }
  destruct (pieces true "/"%byte file) as [|a q] eqn:Ep; [done|].
  assert (Hl : MatchLabels [literal (lit "reports"); mkSegment kGreedy (lit "reportPath")] (lit "reports" :: a :: q)
               = Some [(lit "reportPath", file)]).
  { unfold MatchLabels. change (has_greedy _) with true. cbv iota.
    rewrite (proj2 (Z.ltb_ge _ _)) by (rewrite !len_cons; change (len []) with 0; pose proof (len_nonneg q); lia).
    rewrite <- J. destruct a as [|x a]; [|done]. destruct q; [|done]. by specialize (Hlast He). }
  unfold Handler. erewrite Route_to; [|exact Hn|rewrite Hm; exact get_bucket|]; cycle 1.
  - cbn [path_segments]. unfold best_route. cbn [fold_left].
    rewrite !(better_skip _ _ (lit "cities")), (better_skip _ _ (lit "current-time")) by reflexivity.
    unfold better, route_matches, MatchSegments. cbn [segments]. rewrite Hl. reflexivity.
  - cbn [path_segments query_params segments operation handler]. by rewrite Hl.
Qed.

Lemma list_routed rq args : rq_method rq = lit "GET" -> Forall (fun arg => snd arg = None -> fst arg <> []) args ->
  rq_target rq = lit "/cities" ++ ToString (build_query args) ->
  Handler h rq = stamp_operation (lit "ListCities")
     (route wrong_content_type true ParseListCitiesInput no_validation (ListCities h)
        BuildListCitiesResponse rq (mkContext [] (map (fun arg => (fst arg, default [] (snd arg))) args) rq)).
Proof.
  intros Hm Ha Ht.
  destruct (pattern_target_matches (fun _ => []) [literal (lit "cities")] args ltac:(by repeat split)
    ltac:(apply Forall_cons_2; [by repeat constructor|constructor]) Ha) as (labels & Hn & _).
  unfold Handler. erewrite Route_to; [|rewrite Ht; exact Hn|rewrite Hm; reflexivity|reflexivity]. reflexivity.
Qed.

(** ** Every call *)

Record handler_fits : Prop := {
  fits_DeleteCity i context : answer_fits (fun _ => True) (DeleteCity h i context);
  fits_GetCity i context : answer_fits fits (GetCity h i context);
  fits_GetCurrentTime i context :
    answer_fits (@fits _ (GetCurrentTimeOutput_shape underflow)) (GetCurrentTime h i context);
  fits_GetForecast i context : answer_fits fits (GetForecast h i context);
  fits_GetReport i context : answer_fits fits (GetReport h i context);
  fits_ListCities i context : answer_fits fits (ListCities h i context)
}.

(** The outcome of a call that validates a city id. *)
Definition validated {A} (id : bytes) (answer : Answer A) : Answer A :=
  if satisfies kPattern id then answer else inr city_refused.

Lemma validated_eq {A} id (answer : Answer A) :
  match validate_city id [] with [] => answer | _ => inr city_refused end = validated id answer.
Proof. rewrite validate_city_spec. unfold validated. by destruct (satisfies kPattern id). Qed.

Lemma validate_city_cases id : validate_city id [] = [] \/ validate_city id [] = city_failures.
Proof. rewrite validate_city_spec. destruct (satisfies kPattern id); auto. Qed.

Lemma city_called id w :
  deployment -> handler_fits -> id <> [] ->
  sends (lit "GET") (lit "/cities" ++ lit "/" ++ EncodePathSegment id) ->
  exists rq, rq_method rq = lit "GET"
    /\ fst (CallGetCity c (mkGetCityInput id) w)
       = validated id (seen true (GetCity h (mkGetCityInput id) (mkContext [(lit "cityId", id)] [] rq))).
Proof.
  intros Hd Hf Hid Hs. unfold CallGetCity. rewrite (dep_prefix Hd). cbn [app city_cityId].
  destruct (operation_called (lit "GET") _ [(lit "cityId", id)] [] (lit "GetCity") wrong_content_type true
    ParseGetCityInput (fun i => ValidateGetCityInput i []) (GetCity h) BuildGetCityResponse fits true 200
    ParseResourceError (read_body DeserializeGetCityOutput) (mkGetCityInput id) w Hd Hs) as (rq & (Hm & _) & Hc);
    try done; try (by left); try (by right).
  - intros rq (Hm & Ht & _). by apply (city_routed (lit "GET") rq id).
  - apply validate_city_cases.
  - apply Hf.
  - intros output rs' Ho Ha. exact (shape_read BuildGetCityResponse output rs' (dep_levels Hd) Ho eq_refl Ha).
  - exists rq. split; [done|]. etransitivity; [exact Hc|apply validated_eq].
Qed.

Lemma delete_called id w :
  deployment -> handler_fits -> id <> [] ->
  sends (lit "DELETE") (lit "/cities" ++ lit "/" ++ EncodePathSegment id) ->
  exists rq, rq_method rq = lit "DELETE"
    /\ fst (CallDeleteCity c (mkDeleteCityInput id) w)
       = validated id (seen true (DeleteCity h (mkDeleteCityInput id) (mkContext [(lit "cityId", id)] [] rq))).
Proof.
  intros Hd Hf Hid Hs. unfold CallDeleteCity. rewrite (dep_prefix Hd). cbn [app delete_cityId].
  destruct (operation_called (lit "DELETE") _ [(lit "cityId", id)] [] (lit "DeleteCity") wrong_content_type false
    ParseDeleteCityInput (fun i => ValidateDeleteCityInput i []) (DeleteCity h) BuildDeleteCityResponse (fun _ => True)
    true 204 ParseResourceError (fun _ => inl mkDeleteCityOutput) (mkDeleteCityInput id) w Hd Hs) as (rq & (Hm & _) & Hc);
    try done; try (by left); try (by right).
  - intros rq (Hm & Ht & _). by apply (city_routed (lit "DELETE") rq id).
  - apply validate_city_cases.
  - apply Hf.
  - intros [] rs' _ [Hst _ _ _]. done.
  - exists rq. split; [done|]. etransitivity; [exact Hc|apply validated_eq].
Qed.

Lemma read_forecast_body rs : rs_body rs <> [] -> read_forecast rs = read_body DeserializeGetForecastOutput rs.
Proof. unfold read_forecast. by destruct (rs_body rs). Qed.

Lemma forecast_called id w :
  deployment -> handler_fits -> id <> [] ->
  sends (lit "GET") (lit "/cities" ++ lit "/" ++ EncodePathSegment id ++ lit "/forecast") ->
  exists rq, rq_method rq = lit "GET"
    /\ fst (CallGetForecast c (mkGetForecastInput id) w)
       = validated id (seen true (GetForecast h (mkGetForecastInput id) (mkContext [(lit "cityId", id)] [] rq))).
Proof.
  intros Hd Hf Hid Hs. unfold CallGetForecast. rewrite (dep_prefix Hd). cbn [app forecast_cityId].
  destruct (operation_called (lit "GET") _ [(lit "cityId", id)] [] (lit "GetForecast") wrong_content_type true
    ParseGetForecastInput (fun i => ValidateGetForecastInput i []) (GetForecast h) BuildGetForecastResponse fits true 200
    ParseResourceError read_forecast (mkGetForecastInput id) w Hd Hs) as (rq & (Hm & _) & Hc);
    try done; try (by left); try (by right).
  - intros rq (Hm & Ht & _). by apply forecast_routed.
  - apply validate_city_cases.
  - apply Hf.
  - intros output rs' Ho Ha. rewrite read_forecast_body.
    + exact (shape_read BuildGetForecastResponse output rs' (dep_levels Hd) Ho eq_refl Ha).
    + destruct Ha as [_ -> _ _]. apply encode_nonempty.
  - exists rq. split; [done|]. etransitivity; [exact Hc|apply validated_eq].
Qed.

Lemma time_called w :
  deployment -> handler_fits -> sends (lit "GET") (lit "/current-time") ->
  exists rq, rq_method rq = lit "GET"
    /\ fst (CallGetCurrentTime underflow c mkGetCurrentTimeInput w)
       = seen false (GetCurrentTime h mkGetCurrentTimeInput (mkContext [] [] rq)).
Proof.
  intros Hd Hf Hs. unfold CallGetCurrentTime. rewrite (dep_prefix Hd). cbn [app].
  destruct (operation_called (lit "GET") _ [] [] (lit "GetCurrentTime") any_content_type true
    ParseGetCurrentTimeInput no_validation (GetCurrentTime h) BuildGetCurrentTimeResponse
    (@fits _ (GetCurrentTimeOutput_shape underflow)) false 200
    ParseGenericError (read_body (DeserializeGetCurrentTimeOutput underflow)) mkGetCurrentTimeInput w Hd Hs)
    as (rq & (Hm & _) & Hc); try done; try (by left); try (by right).
  - intros rq (Hm & Ht & _). by apply time_routed.
  - apply Hf.
  - intros output rs' Ho Ha.
    exact (shape_read (H1 := GetCurrentTimeOutput_shape underflow) BuildGetCurrentTimeResponse output rs' (dep_levels Hd) Ho eq_refl Ha).
  - exists rq. split; [done|exact Hc].
Qed.

Lemma report_called file w :
  deployment -> handler_fits -> file <> [] -> ends_with_byte "/"%byte file = false ->
  sends (lit "GET") (lit "/reports" ++ lit "/" ++ EncodeGreedyPathSegment file) ->
  exists rq, rq_method rq = lit "GET"
    /\ fst (CallGetReport c (mkGetReportInput file) w)
       = seen false (GetReport h (mkGetReportInput file) (mkContext [(lit "reportPath", file)] [] rq)).
Proof.
  intros Hd Hf Hne He Hs. unfold CallGetReport. rewrite (dep_prefix Hd). cbn [app reportPath].
  destruct (operation_called (lit "GET") _ [(lit "reportPath", file)] [] (lit "GetReport") wrong_content_type true
    ParseGetReportInput no_validation (GetReport h) BuildGetReportResponse fits false 200
    ParseGenericError (read_body DeserializeGetReportOutput) (mkGetReportInput file) w Hd Hs) as (rq & (Hm & _) & Hc);
    try done; try (by left); try (by right).
  - intros rq (Hm & Ht & _). by apply report_routed.
  - apply Hf.
  - intros output rs' Ho Ha. exact (shape_read BuildGetReportResponse output rs' (dep_levels Hd) Ho eq_refl Ha).
  - exists rq. split; [done|exact Hc].
Qed.

(** The query a listing sends, as the server's router hands it on. *)
Definition list_args (input : ListCitiesInput) : list (bytes * option bytes) :=
  match in_nextToken input with Some t => [(lit "nextToken", Some t)] | None => [] end
  ++ match pageSize input with Some z => [(lit "pageSize", Some (int_text z))] | None => [] end.

Definition list_params (input : ListCitiesInput) : list (bytes * bytes) :=
  map (fun arg => (fst arg, default [] (snd arg))) (list_args input).

Lemma list_query_args input : list_cities_query input = build_query (list_args input).
Proof. by destruct input as [[t|] [z|]]. Qed.

Definition page_size_ok (input : ListCitiesInput) : Prop :=
  match pageSize input with Some z => - 2 ^ 31 <= z < 2 ^ 31 | None => True end.

Lemma list_params_parsed input :
  page_size_ok input -> list_cities_params (list_params input) (mkListCitiesInput None None) = Ok input.
Proof.
  unfold page_size_ok. destruct input as [[t|] [z|]]; cbn [pageSize]; intros Hz; try done;
    unfold list_params, list_args; cbn [in_nextToken pageSize app map fst snd default].
  - transitivity (parsed_num ← ParseInt64Text (int_text z) (-2147483648) 2147483647;
                  Ok (mkListCitiesInput (Some t) (Some parsed_num))); [reflexivity|].
    by rewrite ParseInt64Text_int_text by lia.
  - transitivity (parsed_num ← ParseInt64Text (int_text z) (-2147483648) 2147483647;
                  Ok (mkListCitiesInput None (Some parsed_num))); [reflexivity|].
    by rewrite ParseInt64Text_int_text by lia.
Qed.

Lemma list_called input w :
  deployment -> handler_fits -> page_size_ok input ->
  sends (lit "GET") (lit "/cities" ++ ToString (list_cities_query input)) ->
  exists rq, rq_method rq = lit "GET"
    /\ fst (CallListCities c input w)
       = seen false (ListCities h input (mkContext [] (list_params input) rq)).
Proof.
  intros Hd Hf Hz Hs. unfold CallListCities. rewrite (dep_prefix Hd). cbn [app].
  destruct (operation_called (lit "GET") _ [] (list_params input) (lit "ListCities") wrong_content_type true
    ParseListCitiesInput no_validation (ListCities h) BuildListCitiesResponse fits false 200
    ParseGenericError (read_body DeserializeListCitiesOutput) input w Hd Hs) as (rq & (Hm & _) & Hc);
    try done; try (by left); try (by right).
  - intros rq (Hm & Ht & _). rewrite list_query_args in Ht. apply list_routed; [done| |done].
    unfold list_args. destruct (in_nextToken input), (pageSize input); repeat constructor; done.
  - intros rq. by apply list_params_parsed.
  - apply Hf.
  - intros output rs' Ho Ha. exact (shape_read BuildListCitiesResponse output rs' (dep_levels Hd) Ho eq_refl Ha).
  - exists rq. split; [done|exact Hc].
Qed.

(** ** Pages *)

(** What the server's handler makes of a listing from [input]: its pages in
    order and the error it stops with, if any. *)
Inductive listing : ListCitiesInput -> list ListCitiesOutput -> option Error -> Prop :=
| listing_last input page :
    (forall context, ListCities h input context = inl page) ->
    out_nextToken page = None \/ out_nextToken page = Some [] -> listing input [page] None
| listing_more input page token ps e :
    (forall context, ListCities h input context = inl page) ->
    out_nextToken page = Some token -> token <> [] ->
    listing (mkListCitiesInput (Some token) (pageSize input)) ps e -> listing input (page :: ps) e
| listing_error input error :
    (forall context, ListCities h input context = inr error) ->
    listing input [] (Some (fst (error_as_seen false error))).

Definition sends_listings (size : option Z) : Prop := forall token,
  sends (lit "GET") (lit "/cities" ++ ToString (list_cities_query (mkListCitiesInput token size))).

Lemma listing_paginates input ps e :
  deployment -> handler_fits -> listing input ps e -> page_size_ok input -> sends_listings (pageSize input) ->
  forall w, exists s, paginates NextOutcome (mkPaginator c input false, w) ps e s /\ done_ (fst s) = true.
Proof.
  intros Hd Hf. induction 1 as [input page Ha Ht|input page token ps e Ha Ht Hne _ IH|input error Ha];
    intros Hz Hs w; assert (Hs' : sends (lit "GET") (lit "/cities" ++ ToString (list_cities_query input)))
      by (destruct input as [t z]; apply Hs);
    destruct (list_called input w Hd Hf Hz Hs') as (rq & _ & Hc); rewrite Ha in Hc;
    destruct (CallListCities c input w) as [page' w'] eqn:Ec; cbn [fst] in Hc; subst page'.
  - exists (mkPaginator c input true, w'). split; [|done].
    apply (paginates_page _ _ (mkPaginator c input true, w')); [|by apply paginates_end].
    unfold NextOutcome, Next. cbn [done_ client_ input_]. rewrite Ec. cbn [seen]. by destruct Ht as [-> | ->].
  - destruct (IH Hz Hs w') as (s & Hp & Hdone). exists s. split; [|done].
    eapply paginates_page; [|exact Hp]. unfold NextOutcome, Next. cbn [done_ client_ input_]. rewrite Ec. cbn [seen].
    rewrite Ht. by destruct token.
  - exists (mkPaginator c input true, w'). split; [|done]. apply paginates_error. unfold NextOutcome, Next. cbn [done_ client_ input_].
    by rewrite Ec.
Qed.

Lemma NextOutcome_done s : done_ (fst s) = true -> @NextOutcome H W s = (s, Ok None).
Proof. destruct s as [p w]. unfold NextOutcome, Next. cbn [fst]. by intros ->. Qed.

End Calls.

(** ** Claims *)

(** C7: a call is the handler's call.  When a client's transport reaches the
    server and what both exchange fits the wire, every operation of the client
    answers what the handler answers for the very same input, with the labels and
    query of that input in its context: outputs unchanged, errors as the generated
    error mapping leaves them; and a city id that is not letters, digits and
    spaces is refused with the constraint it broke, without calling the handler. *)
Theorem weather_calls `{JsonValueLaws} underflow {W} (c : WeatherClient W) h sendable :
  deployment c h sendable -> handler_fits underflow h ->
  (forall id w, id <> [] -> sends c sendable (lit "DELETE") (lit "/cities" ++ lit "/" ++ EncodePathSegment id) ->
     exists rq, fst (CallDeleteCity c (mkDeleteCityInput id) w)
     = validated id (seen true (DeleteCity h (mkDeleteCityInput id) (mkContext [(lit "cityId", id)] [] rq))))
  /\ (forall id w, id <> [] -> sends c sendable (lit "GET") (lit "/cities" ++ lit "/" ++ EncodePathSegment id) ->
     exists rq, fst (CallGetCity c (mkGetCityInput id) w)
     = validated id (seen true (GetCity h (mkGetCityInput id) (mkContext [(lit "cityId", id)] [] rq))))
  /\ (forall id w, id <> [] ->
     sends c sendable (lit "GET") (lit "/cities" ++ lit "/" ++ EncodePathSegment id ++ lit "/forecast") ->
     exists rq, fst (CallGetForecast c (mkGetForecastInput id) w)
     = validated id (seen true (GetForecast h (mkGetForecastInput id) (mkContext [(lit "cityId", id)] [] rq))))
  /\ (forall w, sends c sendable (lit "GET") (lit "/current-time") ->
     exists rq, fst (CallGetCurrentTime underflow c mkGetCurrentTimeInput w)
     = seen false (GetCurrentTime h mkGetCurrentTimeInput (mkContext [] [] rq)))
  /\ (forall file w, file <> [] -> ends_with_byte "/"%byte file = false ->
     sends c sendable (lit "GET") (lit "/reports" ++ lit "/" ++ EncodeGreedyPathSegment file) ->
     exists rq, fst (CallGetReport c (mkGetReportInput file) w)
     = seen false (GetReport h (mkGetReportInput file) (mkContext [(lit "reportPath", file)] [] rq)))
  /\ (forall input w, page_size_ok input ->
     sends c sendable (lit "GET") (lit "/cities" ++ ToString (list_cities_query input)) ->
     exists rq, fst (CallListCities c input w)
     = seen false (ListCities h input (mkContext [] (list_params input) rq)))
  /\ (forall id, len id + 2 < 2 ^ 32 ->
     satisfies kPattern id = true <-> id <> [] /\ Forall (fun b => city_byte b = true) id).
Proof.
  intros Hd Hf. split_and!; [intros id w Hid Hs|intros id w Hid Hs|intros id w Hid Hs|intros w Hs
    |intros file w Hne He Hs|intros input w Hz Hs|apply satisfies_city].
  - destruct (delete_called underflow c h sendable id w Hd Hf Hid Hs) as (rq & _ & Hc). eauto.
  - destruct (city_called underflow c h sendable id w Hd Hf Hid Hs) as (rq & _ & Hc). eauto.
  - destruct (forecast_called underflow c h sendable id w Hd Hf Hid Hs) as (rq & _ & Hc). eauto.
  - destruct (time_called underflow c h sendable w Hd Hf Hs) as (rq & _ & Hc). eauto.
  - destruct (report_called underflow c h sendable file w Hd Hf Hne He Hs) as (rq & _ & Hc). eauto.
  - destruct (list_called underflow c h sendable input w Hd Hf Hz Hs) as (rq & _ & Hc). eauto.
Qed.

(** C38: ranging over a paginator ends, and yields exactly the handler's pages.
    When the handler's listing from an input is finite, the range loop over
    [PaginateListCities] makes one call per page, yields the pages in order and
    then the error the listing stops with, if any, once; and the paginator it
    leaves behind answers the end for good. *)
Theorem weather_pages `{JsonValueLaws} underflow {W} (c : WeatherClient W) h sendable input ps e w :
  deployment c h sendable -> handler_fits underflow h -> page_size_ok input ->
  sends_listings c sendable (pageSize input) -> listing h input ps e ->
  exists s, range_for NextOutcome (length ps + 2) (PaginateListCities c input, w) = Some (yields ps e, s)
    /\ NextOutcome s = (s, Ok None).
Proof.
  intros Hd Hf Hz Hs Hl.
  destruct (listing_paginates underflow c h sendable input ps e Hd Hf Hl Hz Hs w) as (s & Hp & Hdone).
  exists s. split; [|by apply NextOutcome_done]. by apply range_loop_advance.
Qed.

(** ** A deployment in memory *)

Definition oslo : GetCityOutput :=
  mkGetCityOutput (lit "Oslo") (mkCityCoordinates (S754_finite false 15712000 (-18)) (S754_finite false 11272192 (-20))).

Definition demo_pages : list ListCitiesOutput :=
  [mkListCitiesOutput (Some (lit "n")) [mkCitySummary (lit "1") (lit "Oslo")];
   mkListCitiesOutput None [mkCitySummary (lit "2") (lit "Bergen")]].

Definition demo_list (input : ListCitiesInput) : ListCitiesOutput :=
  match in_nextToken input with
  | None => nth 0 demo_pages (mkListCitiesOutput None [])
  | Some _ => nth 1 demo_pages (mkListCitiesOutput None [])
  end.

Definition demo : WeatherHandler := {|
  DeleteCity _ _ := inr (Error_Modeled (lit "NoSuchResource") [] false, Some (mkNoSuchResource (lit "City")));
  GetCity _ _ := inl oslo;
  GetCurrentTime _ _ := inl (mkGetCurrentTimeOutput 1500);
  GetForecast _ _ := inl (mkGetForecastOutput None);
  GetReport _ _ := inr (plain_error (Error_Validation (lit "no")));
  ListCities input _ := inl (demo_list input)
|}.

Definition demo_supply (w : World unit) : list Z := [291; 5; 7].

Definition demo_send : World unit -> HttpRequest -> Outcome HttpResponse * World unit :=
  loopback demo_supply (pure_handler (@Handler values_cbor demo)).

Definition demo_env : Env (World unit) := {|
  Retry.Send := demo_send; SendStreaming := default_SendStreaming demo_send;
  sleep w _ := w; jitter w := (S754_zero false, w); now _ := 0
|}.

Definition demo_client : WeatherClient (World unit) :=
  mkClient (mkConfig [] 30000 kDefaultMaxBodyBytes (lit "opal-cpp") None default_policy [] (Some demo_env)) demo_env [].

Lemma demo_draws (w : World unit) rq : is_Some (EnsureInboundTraceIdentity rq (demo_supply w)).
Proof.
  unfold EnsureInboundTraceIdentity. destruct (valid_traceparent _); [eauto|].
  destruct (GenerateTraceContext (demo_supply w)) as [[c l]|] eqn:E; [eauto|by vm_compute in E].
Qed.

Lemma demo_fits : handler_fits (fun _ => false) demo.
Proof.
  assert (Ha : forall s, forallb (fun c => b2z c <? 128) s = true -> (len s <? 2 ^ 64) = true -> text_ok s)
    by (intros s H1 H2; apply text_ok_ascii; [done|by apply Z.ltb_lt]).
  split; intros i context; cbn [answer_fits DeleteCity GetCity GetCurrentTime GetForecast GetReport ListCities demo].
  - split; [by apply Ha|split; by apply Ha].
  - split; [by apply Ha|split; by vm_compute].
  - split; by vm_compute.
  - done.
  - split; [by apply Ha|split; [by apply Ha|done]].
  - unfold demo_list. destruct (in_nextToken i); cbn [fits ListCitiesOutput_shape out_nextToken nth demo_pages items];
      repeat (split || constructor); try done; by apply Ha.
Qed.

Lemma demo_deployment sendable :
  (forall rq, sendable rq -> exists method target, call_arrived method target rq
     /\ forall rq', call_arrived method target rq' -> len (rs_body (@Handler values_cbor demo rq')) < 2 ^ 63) ->
  @deployment values_cbor _ demo_client demo sendable.
Proof.
  intros Hb. split; [by vm_compute; lia| |constructor|done].
  apply loopback_transport; [apply demo_draws|]. intros rq rq' Hs [Hm Ht _ Hh].
  destruct (Hb rq Hs) as (method & target & (C1 & C2 & C3 & C4) & Hlen). apply Hlen.
  apply Forall_cons in Hh as [A1 [A2 _]%Forall_cons]. unfold call_arrived. by rewrite Hm, Ht, A1, A2.
Qed.

Lemma weather_calls_witness :
  fst (@CallGetCity values_cbor _ demo_client (mkGetCityInput (lit "Oslo")) (mkWorld [] tt)) = inl oslo.
Proof.
  set (sendable := call_arrived (lit "GET") (lit "/cities" ++ lit "/" ++ EncodePathSegment (lit "Oslo"))).
  assert (Hd : @deployment values_cbor _ demo_client demo sendable).
  { apply demo_deployment. intros rq Hrq. exists (lit "GET"), (lit "/cities" ++ lit "/" ++ EncodePathSegment (lit "Oslo")).
    split; [exact Hrq|]. intros rq' (Hm & Ht & Hc).
    rewrite (proj1 (@city_routed values_cbor demo (lit "GET") rq' (lit "Oslo") ltac:(done) Hm Ht) eq_refl).
    rewrite (@route_reached values_cbor _ _ (lit "GET") (lit "/cities/Oslo")) by (done || by left).
    by vm_compute. }
  destruct (@weather_calls values_cbor values_cbor_laws (fun _ => false) _ demo_client demo sendable Hd demo_fits)
    as (_ & Hcity & _).
  destruct (Hcity (lit "Oslo") (mkWorld [] tt) ltac:(done)) as [rq Hrq].
  { intros w. apply outgoing_headers. }
  rewrite Hrq. unfold validated. by replace (satisfies kPattern (lit "Oslo")) with true by (by vm_compute).
Defined.

Lemma demo_listing : listing demo (mkListCitiesInput None None) demo_pages None.
Proof.
  apply (listing_more demo _ _ (lit "n")); [done|done|done|].
  apply listing_last; [done|]. by left.
Qed.

(** The listing requests of the paginator. *)
Definition listing_sendable (rq : HttpRequest) : Prop := exists token,
  call_arrived (lit "GET") (lit "/cities" ++ ToString (list_cities_query (mkListCitiesInput token None))) rq.

Lemma demo_listing_deployed : @deployment values_cbor _ demo_client demo listing_sendable.
Proof.
  apply demo_deployment. intros rq [token Hrq]. eexists _, _. split; [exact Hrq|]. intros rq' Hc'.
  pose proof Hc' as (Hm & Ht & _). rewrite list_query_args in Ht.
  rewrite (@list_routed values_cbor demo rq' (list_args (mkListCitiesInput token None)) Hm) by
    (try done; destruct token; repeat constructor; done).
  rewrite (@route_reached values_cbor _ _ _ _ _ _ _ _ _ _ _ _ Hc') by by left.
  unfold ParseListCitiesInput. cbn [ctx_query_params]. fold (list_params (mkListCitiesInput token None)).
  rewrite (list_params_parsed (fun _ => false)) by done. cbn [no_validation ListCities demo].
  destruct token; by vm_compute.
Qed.

Lemma weather_pages_witness :
  exists s, range_for (@NextOutcome values_cbor _) 4 (PaginateListCities demo_client (mkListCitiesInput None None), mkWorld [] tt)
  = Some (map Ok demo_pages, s).
Proof.
  destruct (@weather_pages values_cbor values_cbor_laws (fun _ => false) _ demo_client demo listing_sendable
    (mkListCitiesInput None None) demo_pages None (mkWorld [] tt) demo_listing_deployed demo_fits I) as (s & Hs & _).
  - intros token w. exists token. apply outgoing_headers.
  - exact demo_listing.
  - exists s. exact Hs.
Defined.
