(* ===== verification/BeastClient.v ===== *)
(** http/beast_transport.cc, the client: [BeastHttpClient] with its pool of
    keep-alive connections, one exchange over a connection, and the sends.
    What Boost.Asio and Beast answer is an interface; every call made to them
    and to the sink is recorded, in order. *)
From Stdlib Require Import ZArith Lia Strings.Byte.
From S2P Require Import Prelude Bytes Uri Headers Http1 Effects Retry.

Local Open Scope Z_scope.

(** [BeastHttpClient::Options] without the TLS knobs. *)
Record Options := mkOptions {
  opt_host : bytes;
  opt_port : Z;
  opt_tls : bool;
  opt_request_timeout_ms : Z;
  opt_max_idle_connections : Z;
  opt_max_response_bytes : Z
}.

(** A [bhttp::request<bhttp::string_body>]: version 1.1. *)
Record WireRequest := mkWire {
  wire_method : bytes;
  wire_target : bytes;
  wire_fields : list (bytes * bytes);
  wire_body : bytes
}.

(** A [boost::system::error_code], told apart as far as the code does. *)
Inductive error_code :=
| Success
| NeedBuffer (message : bytes)
| TimedOut (message : bytes)
| Broken (message : bytes).

Definition failure (ec : error_code) : option bytes :=
  match ec with
  | Success => None
  | NeedBuffer message | TimedOut message | Broken message => Some message
  end.

(** [need_buffer] says that the window is full. *)
Definition unless_full (ec : error_code) : error_code :=
  match ec with NeedBuffer _ => Success | _ => ec end.

(** A response as its parser reports it: after the header, at each read of the
    body until the parser is done or a read fails, and at the end. *)
Record Incoming := mkIncoming {
  in_status : Z;
  in_fields : list (bytes * bytes);
  in_length : option Z;
  in_reads : list (error_code * bytes);
  in_final : list (bytes * bytes);
  in_keep_alive : bool
}.

(** A connection is known by the number of its dial. *)
Definition ClientConnection : Type := nat.

(** A sink whose callbacks may throw; [None] is an unset callback. *)
Record Sink (S : Type) := mkSink {
  sink_accept : option (Z -> Headers -> M S bool);
  sink_write : option (bytes -> M S bool)
}.
Arguments mkSink {S} _ _.
Arguments sink_accept {S} _.
Arguments sink_write {S} _.

(** The operations of the libraries. *)
Record Beast (E : Type) := mkBeast {
  resolve : bytes -> bytes -> M E error_code;
  set_sni : bytes -> M E bool;
  set_verify : bytes -> M E error_code;
  verify_peer : bool;
  async_connect : ClientConnection -> M E error_code;
  async_handshake : ClientConnection -> M E error_code;
  keep_alive_on : WireRequest -> WireRequest;
  prepare_payload : WireRequest -> WireRequest;
  async_write : ClientConnection -> WireRequest -> M E error_code;
  async_read_header : ClientConnection -> bool -> M E (error_code * bool * Incoming)
}.
Arguments resolve {E} _ _ _.
Arguments set_sni {E} _ _.
Arguments set_verify {E} _ _.
Arguments verify_peer {E} _.
Arguments async_connect {E} _ _.
Arguments async_handshake {E} _ _.
Arguments keep_alive_on {E} _ _.
Arguments prepare_payload {E} _ _.
Arguments async_write {E} _ _ _.
Arguments async_read_header {E} _ _ _.

(** What a send did to the outside, in order. *)
Inductive Event :=
| Dialed (c : ClientConnection)
| Wrote (c : ClientConnection) (wire : WireRequest)
| Heard (c : ClientConnection) (got_some : bool) (head : option Incoming)
| Handed (piece : bytes).

(** [BeastHttpClient::State]: the pool, the connections made so far, the record
    of events, and everything outside. *)
Record State (E : Type) := mkState {
  idle : list ClientConnection;
  dialled : nat;
  history : list Event;
  outside : E
}.
Arguments mkState {E} _ _ _ _.
Arguments idle {E} _.
Arguments dialled {E} _.
Arguments history {E} _.
Arguments outside {E} _.

Section Client.
Context {E : Type} (lib : Beast E) (opts : Options) (setup_error : bytes).

Notation IO := (M (State E)).

(** Calls that leave the client's own state alone. *)
Definition outer {A} (m : M E A) : IO A := fun w =>
  let s := env w in
  match m (mkWorld (clog w) (outside s)) with
  | (w', r) => (mkWorld (clog w') (mkState (idle s) (dialled s) (history s) (env w')), r)
  end.

Definition note (e : Event) : IO unit := fun w =>
  let s := env w in
  (mkWorld (clog w) (mkState (idle s) (dialled s) (history s ++ [e]) (outside s)), Ret tt).

Definition OverResponseCap : Error :=
  Error_Transport (lit "beast client: response body exceeds max_response_bytes ("
                   ++ to_string (opt_max_response_bytes opts) ++ lit " bytes)") false.

Definition beast_error (what : bytes) (retryable : bool) : Error :=
  Error_Transport (lit "beast client: " ++ what) retryable.

Definition TakeIdle : IO (option ClientConnection) := fun w =>
  let s := env w in
  match last (idle s) with
  | None => (w, Ret None)
  | Some connection =>
    (mkWorld (clog w) (mkState (take (length (idle s) - 1) (idle s)) (dialled s) (history s) (outside s)),
     Ret (Some connection))
  end.

Definition ReturnIdle (connection : ClientConnection) : IO unit := fun w =>
  let s := env w in
  if len (idle s) <? opt_max_idle_connections opts
  then (mkWorld (clog w) (mkState (idle s ++ [connection]) (dialled s) (history s) (outside s)), Ret tt)
  else (w, Ret tt).

(** [make_unique<ClientConnection>] of a dial. *)
Definition new_connection : IO ClientConnection := fun w =>
  let s := env w in
  (mkWorld (clog w) (mkState (idle s) (S (dialled s)) (history s ++ [Dialed (dialled s)]) (outside s)),
   Ret (dialled s)).

(** The TLS half of [Dial]'s stream setup. *)
Definition secure_setup : IO (option Error) :=
  sni ← outer (set_sni lib (opt_host opts));
  if negb sni then mret (Some (beast_error (lit "cannot set SNI host name") true))
  else if verify_peer lib then
    ec ← outer (set_verify lib (opt_host opts));
    mret (match failure ec with
          | Some message => Some (beast_error (lit "cannot enable hostname verification: " ++ message) true)
          | None => None
          end)
  else mret None.

Definition handshake (connection : ClientConnection) : IO (option Error) :=
  ec ← outer (async_handshake lib connection);
  mret (match failure ec with
        | Some message =>
          Some (beast_error (lit "TLS handshake with " ++ opt_host opts ++ lit " failed: " ++ message) false)
        | None => None
        end).

Definition Dial : IO (Outcome ClientConnection) :=
  connection ← new_connection;
  ec ← outer (resolve lib (opt_host opts) (int_text (opt_port opts)));
  match failure ec with
  | Some message =>
    mret (Err (beast_error (lit "cannot resolve " ++ opt_host opts ++ lit ": " ++ message) true))
  | None =>
    unsecured ← (if opt_tls opts then secure_setup else mret None);
    match unsecured with
    | Some error => mret (Err error)
    | None =>
      ec ← outer (async_connect lib connection);
      match failure ec with
      | Some message =>
        mret (Err (beast_error (lit "cannot connect to " ++ opt_host opts ++ lit ":"
                                ++ int_text (opt_port opts) ++ lit ": " ++ message) true))
      | None =>
        unsecured ← (if opt_tls opts then handshake connection else mret None);
        mret (match unsecured with Some error => Err error | None => Ok connection end)
      end
    end
  end.

Definition ToWireRequest (request : HttpRequest) : WireRequest :=
  let default_port := if opt_tls opts then 443 else 80 in
  let host := if opt_port opts =? default_port then opt_host opts
              else opt_host opts ++ lit ":" ++ int_text (opt_port opts) in
  let target := match rq_target request with [] => lit "/" | t => t end in
  let wire := mkWire (rq_method request) target ((lit "Host", host) :: rq_headers request) (rq_body request) in
  prepare_payload lib (keep_alive_on lib wire).

Definition FieldsOf (message : list (bytes * bytes)) : Headers :=
  fold_left (fun headers field => Headers.Add (fst field) (snd field) headers) message [].

(** The loop that reads the body: what is buffered (or the error) and whether
    the sink took bytes. *)
Fixpoint body_loop (write : option (bytes -> IO bool)) (reads : list (error_code * bytes))
    (body : bytes) (sink_took_bytes : bool) : IO (Outcome bytes * bool) :=
  match reads with
  | [] => mret (Ok body, sink_took_bytes)
  | (ec, piece) :: reads =>
    match failure (unless_full ec) with
    | Some message =>
      mret (Err (beast_error (lit "read failed: " ++ message) (negb sink_took_bytes)), sink_took_bytes)
    | None =>
      match piece, write with
      | [], _ => body_loop write reads body sink_took_bytes
      | _, Some write' =>
        note (Handed piece);;
        written ← write' piece;
        if negb written
        then mret (Err (beast_error (lit "the response body sink aborted the transfer") false), sink_took_bytes)
        else body_loop write reads body true
      | _, None =>
        if len body + len piece >? opt_max_response_bytes opts
        then mret (Err OverResponseCap, sink_took_bytes)
        else body_loop write reads (body ++ piece) sink_took_bytes
      end
    end
  end.

(** [stream]: the callback that takes the body, when the sink accepts it. *)
Definition accepted (sink : option (Sink (State E))) (status : Z) (header_fields : Headers)
    : IO (option (bytes -> IO bool)) :=
  match sink with
  | Some (mkSink (Some accept) (Some write)) =>
    takes ← accept status header_fields; mret (if takes : bool then Some write else None)
  | _ => mret None
  end.

(** The outcome of a [RoundTrip] with its three out-parameters. *)
Record Trip := mkTrip {
  trip_outcome : Outcome HttpResponse;
  stale : bool;
  keep_alive : bool;
  sink_took_bytes : bool
}.

Definition failed_trip (e : Error) (stale : bool) : Trip := mkTrip (Err e) stale false false.

(** The part of [RoundTrip] after the response's header. *)
Definition read_body (incoming : Incoming) (sink : option (Sink (State E))) : IO Trip :=
  let status := in_status incoming in
  stream ← accepted sink status (FieldsOf (in_fields incoming));
  let over := match stream, in_length incoming with
              | None, Some declared => declared >? opt_max_response_bytes opts
              | _, _ => false
              end in
  if over then mret (failed_trip OverResponseCap false)
  else
    '(body, took) ← body_loop stream (in_reads incoming) [] false;
    mret (match body with
          | Err e => mkTrip (Err e) false false took
          | Ok body => mkTrip (Ok (mkResponse status (FieldsOf (in_final incoming)) body [])) false
                         (in_keep_alive incoming) took
          end).

Definition RoundTrip (connection : ClientConnection) (wire : WireRequest) (sink : option (Sink (State E))) : IO Trip :=
  note (Wrote connection wire);;
  write_ec ← outer (async_write lib connection wire);
  match failure write_ec with
  | Some message => mret (failed_trip (beast_error (lit "write failed: " ++ message) true) true)
  | None =>
    '(read_ec, got_some, incoming) ←
      outer (async_read_header lib connection (bytes_eqb (wire_method wire) (lit "HEAD")));
    note (Heard connection got_some (match failure read_ec with Some _ => None | None => Some incoming end));;
    match failure read_ec with
    | Some message =>
      let timeout := match read_ec with TimedOut _ => true | _ => false end in
      mret (failed_trip (beast_error (lit "read failed: " ++ message) true) (negb got_some && negb timeout))
    | None => read_body incoming sink
    end
  end.

(** The checks before anything is dialed. *)
Definition refused (request : HttpRequest) : option Error :=
  if len (opt_host opts) =? 0 then Some (Error_Validation (lit "beast client: options need a host"))
  else if (len (rq_method request) =? 0) || negb (ValidRequestLineField (rq_method request))
  then Some (Error_Validation (lit "beast client: request method contains forbidden bytes or is empty"))
  else if negb (ValidRequestLineField (rq_target request))
  then Some (Error_Validation (lit "beast client: request target contains forbidden bytes"))
  else match FindUnsafeHeader (rq_headers request) with
       | Some name => Some (Error_Validation (quoted_lit "beast client: request header '" ++ name
                                              ++ quoted_lit "' contains forbidden bytes"))
       | None => if negb (len setup_error =? 0) then Some (Error_Validation setup_error) else None
       end.

(** A pooled connection, or a new one; whether it is reused. *)
Definition acquire : IO (Outcome (ClientConnection * bool)) :=
  taken ← TakeIdle;
  match taken with
  | Some connection => mret (Ok (connection, true))
  | None => dialed ← Dial;
            mret (match dialed with Ok connection => Ok (connection, false) | Err e => Err e end)
  end.

(** The end of a send: a connection that may be kept goes back to the pool. *)
Definition settle (connection : ClientConnection) (trip : Trip) : IO (Outcome HttpResponse) :=
  match trip_outcome trip with
  | Err e => mret (Err e)
  | Ok response =>
    (if keep_alive trip then ReturnIdle connection else mret tt);; mret (Ok response)
  end.

Definition retries_fresh (reused : bool) (trip : Trip) : bool :=
  match trip_outcome trip with
  | Err _ => reused && stale trip && negb (sink_took_bytes trip)
  | Ok _ => false
  end.

Definition SendContained (request : HttpRequest) (sink : option (Sink (State E))) : IO (Outcome HttpResponse) :=
  match refused request with
  | Some e => mret (Err e)
  | None =>
    let wire := ToWireRequest request in
    acquired ← acquire;
    match acquired with
    | Err e => mret (Err e)
    | Ok (connection, reused) =>
      trip ← RoundTrip connection wire sink;
      if retries_fresh reused trip then
        dialed ← Dial;
        match dialed with
        | Err e => mret (Err e)
        | Ok connection => trip ← RoundTrip connection wire sink; settle connection trip
        end
      else settle connection trip
    end
  end.

Definition send_failed (what : option bytes) (retryable : bool) : Error :=
  beast_error (lit "send failed: " ++ default (lit "unknown exception") what) retryable.

Definition Send (request : HttpRequest) : IO (Outcome HttpResponse) :=
  Contain (SendContained request None) (fun what => mret (Err (send_failed what true))).

Definition SendStreaming (request : HttpRequest) (sink : Sink (State E)) : IO (Outcome HttpResponse) :=
  Contain (SendContained request (Some sink)) (fun what => mret (Err (send_failed what false))).

End Client.

(** [FromConfig]: the options of an endpoint. *)
Definition FromConfig (endpoint : bytes) (request_timeout_ms max_idle_connections max_response_bytes : Z)
    : Outcome Options :=
  endpoint ← ParseEndpoint endpoint;
  Ok (mkOptions (host endpoint) (port endpoint) (tls endpoint) request_timeout_ms max_idle_connections
        max_response_bytes).
