(* ===== verification/BeastClientSpec.v ===== *)
(** What [BeastHttpClient] promises: the trace of one send, and with the retry
    loop of client/retry.cc above it. *)
From Stdlib Require Import ZArith Lia Strings.Byte.
From S2P Require Import Prelude Bytes Uri Headers Http1 Effects Retry BeastClient.

Local Open Scope Z_scope.

(** ** Reasoning about traces *)

Section Runs.
Context {E : Type}.
Notation IO := (M (State E)).

(** From state [s], [m] adds events [h] to the history and ends as [P] says. *)
Definition runs {A} (s : State E) (m : IO A) (P : list Event -> State E -> Result A -> Prop) : Prop :=
  forall k w' r, m (mkWorld k s) = (w', r) ->
    exists h, history (env w') = history s ++ h /\ P h (env w') r.

Lemma runs_ret {A} s (a : A) (P : list Event -> State E -> Result A -> Prop) :
  P [] s (Ret a) -> runs s (mret a) P.
Proof. intros HP k w' r [= <- <-]. exists []. by rewrite app_nil_r. Qed.

Lemma runs_bind {A B} s (m : IO A) (f : A -> IO B) P Q :
  runs s m P ->
  (forall a h s', P h s' (Ret a) -> runs s' (f a) (fun h' => Q (h ++ h'))) ->
  (forall what h s', P h s' (Throw what) -> Q h s' (Throw what)) ->
  runs s (m ≫= f) Q.
Proof.
  intros Hm Hf Ht k w' r. cbv [mbind M_bind]. destruct (m (mkWorld k s)) as [w1 r1] eqn:Em.
  destruct (Hm _ _ _ Em) as (h & Hh & HP). destruct r1 as [a|what]; intros Er.
  - destruct w1 as [k1 s1]. cbn [env] in *. destruct (Hf a h s1 HP _ _ _ Er) as (h' & Hh' & HQ).
    exists (h ++ h'). by rewrite Hh', Hh, <- app_assoc.
  - injection Er as <- <-. eauto.
Qed.

Lemma runs_weaken {A} s (m : IO A) (P Q : list Event -> State E -> Result A -> Prop) :
  runs s m P -> (forall h s' r, P h s' r -> Q h s' r) -> runs s m Q.
Proof. intros Hm HPQ k w' r Er. destruct (Hm _ _ _ Er) as (h & ? & ?). eauto. Qed.

Lemma runs_ext {A} s (m m' : IO A) P : (forall w, m w = m' w) -> runs s m' P -> runs s m P.
Proof. intros Hm Hr k w' r. rewrite Hm. apply Hr. Qed.

(** The pool as it was. *)
Definition same_pool (s s' : State E) : Prop := idle s' = idle s /\ dialled s' = dialled s.

(** A computation that keeps to itself. *)
Definition outsider {A} (m : IO A) : Prop := forall s, runs s m (fun h s' _ => h = [] /\ same_pool s s').

Lemma runs_outer {A} (m : M E A) : outsider (outer m).
Proof.
  intros s k w' r. unfold outer. cbn [env clog]. destruct (m _) as [w1 r1]. intros [= <- <-].
  exists []. by rewrite app_nil_r.
Qed.

Lemma runs_note s e : runs s (note e) (fun h s' r => h = [e] /\ same_pool s s' /\ r = Ret tt).
Proof. intros k w' r [= <- <-]. by exists [e]. Qed.

(** Sequencing after such a computation, a library call, or an event. *)
Lemma runs_after {A B} s (m : IO A) (f : A -> IO B) Q :
  outsider m ->
  (forall a s', same_pool s s' -> runs s' (f a) Q) ->
  (forall what s', same_pool s s' -> Q [] s' (Throw what)) ->
  runs s (m ≫= f) Q.
Proof.
  intros Hm Hf Ht. eapply runs_bind; [apply Hm| |].
  - intros a h s' [-> Hs]. apply Hf, Hs.
  - intros what h s' [-> Hs]. apply Ht, Hs.
Qed.

Lemma runs_after_outer {A B} s (m : M E A) (f : A -> IO B) Q :
  (forall a s', same_pool s s' -> runs s' (f a) Q) ->
  (forall what s', same_pool s s' -> Q [] s' (Throw what)) ->
  runs s (outer m ≫= f) Q.
Proof. apply runs_after, runs_outer. Qed.

Lemma runs_after_note {B} s e (f : unit -> IO B) Q :
  (forall s', same_pool s s' -> runs s' (f tt) (fun h => Q (e :: h))) -> runs s (note e ≫= f) Q.
Proof.
  intros Hf. eapply runs_bind; [apply runs_note| |].
  - intros [] h s' (-> & Hs & _). apply Hf, Hs.
  - by intros what h s' (_ & _ & ?).
Qed.

End Runs.

#[export] Instance same_pool_equiv {E} : Equivalence (@same_pool E).
Proof.
  split; [done|intros s s' []; done|]. intros s1 s2 s3 [] []. split; congruence.
Qed.

(** ** One exchange *)

(** Events that touch no new connection and repeat no request. *)
Definition quiet (e : Event) : Prop :=
  match e with Dialed _ | Wrote _ _ => False | Heard _ _ _ | Handed _ => True end.

(** Events of a response on [c]. *)
Definition within (c : ClientConnection) (e : Event) : Prop :=
  match e with Dialed _ | Wrote _ _ => False | Heard c' _ _ => c' = c | Handed _ => True end.

Lemma within_handed c pieces : Forall (within c) (map Handed pieces).
Proof. apply Forall_forall. by intros e (piece & -> & _)%list_elem_of_fmap. Qed.

Lemma within_quiet c h : Forall (within c) h -> Forall quiet h.
Proof. intros Hh. eapply Forall_impl; [exact Hh|]. by intros []. Qed.

Definition handed_pieces (h : list Event) : list bytes :=
  omap (fun e => match e with Handed piece => Some piece | _ => None end) h.

(** The body a response carries. *)
Definition received (incoming : Incoming) : bytes := mjoin (snd <$> in_reads incoming).

Section Exchange.
Context {E : Type} (lib : Beast E) (opts : Options) (setup_error : bytes).
Context (Hcap : 0 <= opt_max_response_bytes opts).
(** The statuses the sink at hand may accept. *)
Context (takes : Z -> Prop).
Notation IO := (M (State E)).

(** What the body loop leaves: the pieces handed over, and its result. *)
Definition body_read (streamed : bool) (reads : list (error_code * bytes)) (body : bytes) (took : bool)
    (pieces : list bytes) (r : Result (Outcome bytes * bool)) : Prop :=
  (streamed = false -> pieces = []) /\
  match r with
  | Throw _ => streamed = true
  | Ret (Err e, _) => pieces <> [] \/ took = true -> err_retryable e = false
  | Ret (Ok body', _) =>
    if streamed then body' = body /\ mjoin pieces = mjoin (snd <$> reads)
    else body' = body ++ mjoin (snd <$> reads)
         /\ (len body <= opt_max_response_bytes opts -> len body' <= opt_max_response_bytes opts)
  end.

(** A sink whose callbacks do not use the client that calls them. *)
Definition polite (sink : option (Sink (State E))) : Prop :=
  match sink with
  | None => True
  | Some (mkSink accept write) =>
    (forall f, accept = Some f -> forall status h, outsider (f status h)
       /\ forall w w', f status h w = (w', Ret true) -> takes status)
    /\ (forall f, write = Some f -> forall piece, outsider (f piece))
  end.

Lemma body_loop_streamed write reads : (forall piece, outsider (write piece)) -> forall (s : State E) body took,
  runs s (body_loop opts (Some write) reads body took)
    (fun h s' r => same_pool s s' /\ exists pieces, h = map Handed pieces /\ body_read true reads body took pieces r).
Proof.
  intros Hw. induction reads as [|[ec piece] reads IH]; intros s body took; cbn [body_loop].
  { apply runs_ret. split; [done|]. exists []. done. }
  destruct (failure (unless_full ec)) as [message|].
  { apply runs_ret. split; [done|]. exists []. split; [done|]. split; [done|]. cbn. intros [?| ->]; done. }
  destruct piece as [|x piece]; [apply IH|].
  apply runs_after_note. intros s1 H1. apply runs_after; [apply Hw| |].
  2:{ intros what s2 H2. split; [by etransitivity|]. by exists [x :: piece]. }
  intros written s2 H2. destruct (negb written).
  { apply runs_ret. split; [by etransitivity|]. exists [x :: piece]. done. }
  eapply runs_weaken; [apply IH|]. intros h s3 r (H3 & pieces & -> & _ & Hr).
  split; [by rewrite H1, H2|]. exists ((x :: piece) :: pieces). split; [done|]. split; [done|].
  destruct r as [[[body'|e] took']|what]; [|auto|done]. destruct Hr as [-> Hr].
  split; [done|]. exact (f_equal (app (x :: piece)) Hr).
Qed.

Lemma body_loop_buffered reads : forall (s : State E) body took,
  runs s (body_loop opts None reads body took)
    (fun h s' r => same_pool s s' /\ exists pieces, h = map Handed pieces /\ body_read false reads body took pieces r).
Proof.
  induction reads as [|[ec piece] reads IH]; intros s body took; cbn [body_loop].
  { apply runs_ret. split; [done|]. exists []. split; [done|]. split; [done|]. cbn. by rewrite app_nil_r. }
  destruct (failure (unless_full ec)) as [message|].
  { apply runs_ret. split; [done|]. exists []. split; [done|]. split; [done|]. cbn. intros [?| ->]; done. }
  destruct piece as [|x piece]; [apply IH|].
  destruct (_ >? _) eqn:Eo.
  { apply runs_ret. split; [done|]. exists []. done. }
  eapply runs_weaken; [apply IH|]. intros h s3 r (H3 & pieces & -> & Hp & Hr).
  split; [done|]. exists pieces. split; [done|]. split; [done|].
  destruct r as [[[body'|e] took']|what]; [|auto|done]. destruct Hr as [-> Hr]. cbn. rewrite <- app_assoc.
  split; [done|]. intros _. rewrite <- app_assoc in Hr. apply Hr. rewrite Z.gtb_ltb in Eo. apply Z.ltb_ge in Eo.
  unfold len in *. rewrite length_app. lia.
Qed.

(** A response, the pieces of it the sink was handed, and what is returned. *)
Definition delivered (streaming : bool) (incoming : Incoming) (pieces : list bytes) (rs : HttpResponse) : Prop :=
  rs_status rs = in_status incoming
  /\ rs_headers rs = FieldsOf (in_final incoming)
  /\ (streaming = true /\ takes (in_status incoming) /\ rs_body rs = [] /\ mjoin pieces = received incoming
      \/ pieces = [] /\ rs_body rs = received incoming /\ len (rs_body rs) <= opt_max_response_bytes opts).

(** What follows the request on the wire, by how the exchange ended. *)
Inductive exchanged (streaming : bool) (c : ClientConnection) : list Event -> Result Trip -> Prop :=
| unsent e : exchanged streaming c [] (Ret (failed_trip e true))
| unheard got_some e st :
  (st = true -> got_some = false) ->
  exchanged streaming c [Heard c got_some None] (Ret (failed_trip e st))
| cut_short got_some incoming pieces e took :
  (streaming = false -> pieces = []) -> (pieces <> [] -> err_retryable e = false) ->
  exchanged streaming c (Heard c got_some (Some incoming) :: map Handed pieces) (Ret (mkTrip (Err e) false false took))
| whole got_some incoming pieces rs took :
  delivered streaming incoming pieces rs ->
  exchanged streaming c (Heard c got_some (Some incoming) :: map Handed pieces)
    (Ret (mkTrip (Ok rs) false (in_keep_alive incoming) took))
| thrown h what :
  Forall (within c) h -> (streaming = false -> handed_pieces h = []) -> exchanged streaming c h (Throw what).

Definition streaming (sink : option (Sink (State E))) : bool := match sink with Some _ => true | None => false end.

Lemma accepted_runs sink status h s :
  polite sink ->
  runs s (accepted sink status h) (fun h s' r => h = [] /\ same_pool s s' /\
    match r with
    | Ret (Some write) => streaming sink = true /\ takes status /\ forall piece, outsider (write piece)
    | _ => True
    end).
Proof.
  intros Hp. destruct sink as [[[accept|] [write|]]|]; cbn [accepted]; try (by apply runs_ret).
  destruct Hp as [Ha Hw]. destruct (Ha _ eq_refl status h) as [Ho Ht]. intros k w' r. cbv [mbind M_bind].
  destruct (accept status h _) as [w1 r1] eqn:Ea. destruct (Ho s _ _ _ Ea) as (h' & Hh & -> & Hs).
  destruct r1 as [[]|what]; intros [= <- <-]; exists []; (split; [done|]); (split; [done|]); (split; [done|]); [|done|done].
  split; [done|]. split; [by eapply Ht|]. by apply Hw.
Qed.

Lemma read_body_runs incoming sink c got_some s :
  polite sink ->
  runs s (read_body opts incoming sink)
    (fun h s' r => same_pool s s' /\ exchanged (streaming sink) c (Heard c got_some (Some incoming) :: h) r).
Proof.
  intros Hpol. unfold read_body. eapply runs_bind; [by apply accepted_runs| |].
  2:{ intros what h s' (-> & Hs & _). split; [done|]. apply thrown; [by repeat constructor|done]. }
  intros stream h s1 (-> & H1 & Hst). destruct (match stream, in_length incoming with None, Some _ => _ | _, _ => _ end).
  { apply runs_ret. split; [done|]. by apply (cut_short _ _ _ _ []). }
  eapply runs_bind with (P := fun h s' r => same_pool s1 s' /\ exists pieces, h = map Handed pieces
    /\ body_read (match stream with Some _ => true | None => false end) (in_reads incoming) [] false pieces r).
  { destruct stream; [apply body_loop_streamed, Hst|apply body_loop_buffered]. }
  2:{ intros what h s2 (H2 & pieces & -> & _ & Hr). split; [by etransitivity|]. apply thrown.
      - constructor; [done|apply within_handed].
      - intros Hs. destruct stream; [destruct Hst; congruence|done]. }
  intros [[body|e] took] h s2 (H2 & pieces & -> & Hp & Hr); apply runs_ret; rewrite app_nil_r;
    (split; [by etransitivity|]).
  - apply whole. split; [done|]. split; [done|]. destruct stream as [write|].
    + left. destruct Hr as [-> Hr]. destruct Hst as (? & ? & _). done.
    + right. destruct Hr as [-> Hr]. split; [by apply Hp|]. split; [done|]. by apply Hr.
  - apply cut_short; [|by eauto]. intros Hs. apply Hp. destruct stream; [|done]. destruct Hst; congruence.
Qed.

Lemma RoundTrip_runs c wire sink s :
  polite sink ->
  runs s (RoundTrip lib opts c wire sink)
    (fun h s' r => same_pool s s' /\ exists t, h = Wrote c wire :: t /\ exchanged (streaming sink) c t r).
Proof.
  intros Hpol. unfold RoundTrip. apply runs_after_note. intros s1 H1. apply runs_after_outer.
  2:{ intros what s2 H2. split; [by etransitivity|]. eexists. split; [done|]. by apply thrown. }
  intros ec s2 H2. destruct (failure ec) as [message|].
  { apply runs_ret. split; [by etransitivity|]. eexists. split; [done|]. apply unsent. }
  apply runs_after_outer.
  2:{ intros what s3 H3. split; [by rewrite H1, H2|]. eexists. split; [done|]. by apply thrown. }
  intros [[rec got_some] incoming] s3 H3. apply runs_after_note. intros s4 H4.
  assert (H : same_pool s s4) by by rewrite H1, H2, H3.
  destruct (failure rec) as [message|].
  - apply runs_ret. split; [done|]. eexists. split; [done|]. apply unheard. by destruct got_some.
  - eapply runs_weaken; [by apply (read_body_runs _ _ c got_some)|]. intros h s5 r [H5 Hr].
    split; [by etransitivity|]. eauto.
Qed.

Lemma secure_setup_runs s : runs s (secure_setup lib opts) (fun h s' _ => h = [] /\ same_pool s s').
Proof.
  unfold secure_setup. apply runs_after_outer; [|done]. intros sni s1 H1.
  destruct (negb sni); [by apply runs_ret|]. destruct (verify_peer lib); [|by apply runs_ret].
  apply runs_after_outer; [|intros what s2 H2; split; [done|by etransitivity]]. intros ec s2 H2.
  apply runs_ret. split; [done|by etransitivity].
Qed.

Lemma handshake_runs c s : runs s (handshake lib opts c) (fun h s' _ => h = [] /\ same_pool s s').
Proof. unfold handshake. apply runs_after_outer; [|done]. intros ec s1 H1. by apply runs_ret. Qed.

(** A dial makes one connection, the next one. *)
Definition dialed_one (s : State E) (h : list Event) (s' : State E) (r : Result (Outcome ClientConnection)) : Prop :=
  h = [Dialed (dialled s)] /\ idle s' = idle s /\ dialled s' = S (dialled s)
  /\ forall c, r = Ret (Ok c) -> c = dialled s.

Lemma Dial_runs s : runs s (Dial lib opts) (dialed_one s).
Proof.
  unfold Dial. eapply runs_bind with (P := fun h s' r => h = [Dialed (dialled s)] /\ idle s' = idle s
    /\ dialled s' = S (dialled s) /\ r = Ret (dialled s)).
  { intros k w' r [= <- <-]. by eexists. }
  2:{ by intros what h s' (_ & _ & _ & ?). }
  intros c h s1 (-> & Hi & Hd & [= ->]).
  assert (Hfin : forall s' r, same_pool s1 s' -> (forall c, r = Ret (Ok c) -> c = dialled s) ->
    dialed_one s [Dialed (dialled s)] s' r).
  { intros s' r [? ?] Hr. split; [done|]. split; [congruence|]. split; [congruence|done]. }
  assert (Hset : forall s' (b : bool) (m : IO (option Error)),
    runs s' m (fun h s'' _ => h = [] /\ same_pool s' s'') ->
    runs s' (if b then m else mret None) (fun h s'' _ => h = [] /\ same_pool s' s'')).
  { intros s' [] m Hm; [done|by apply runs_ret]. }
  apply runs_after_outer; [|intros; by apply Hfin]. intros ec s2 H2.
  destruct (failure ec); [apply runs_ret; by apply Hfin|].
  eapply runs_bind; [apply Hset, secure_setup_runs| |].
  2:{ intros what h s3 [-> H3]. apply Hfin; [by etransitivity|done]. }
  intros unsecured h s3 [-> H3]. destruct unsecured; [apply runs_ret; apply Hfin; [by etransitivity|done]|].
  apply runs_after_outer; [|intros what s4 H4; apply Hfin; [by rewrite H2, H3|done]]. intros ec' s4 H4.
  destruct (failure ec'); [apply runs_ret; apply Hfin; [by rewrite H2, H3|done]|].
  eapply runs_bind; [apply Hset, handshake_runs| |].
  2:{ intros what h s5 [-> H5]. apply Hfin; [by rewrite H2, H3, H4|done]. }
  intros failed h s5 [-> H5]. apply runs_ret. apply Hfin; [by rewrite H2, H3, H4|].
  destruct failed; [done|]. by intros c [= ->].
Qed.

(** ** One send *)

Definition no_response (r : Result (Outcome HttpResponse)) : Prop :=
  match r with Ret (Ok _) => False | _ => True end.

(** How an exchange's ending is returned. *)
Definition returned_as (r : Result Trip) : Result (Outcome HttpResponse) :=
  match r with Ret trip => Ret (trip_outcome trip) | Throw what => Throw what end.

Definition ended (streaming : bool) (c : ClientConnection) (t : list Event) (r : Result (Outcome HttpResponse)) : Prop :=
  exists trip, exchanged streaming c t trip /\ r = returned_as trip.

(** Nothing of a response arrived. *)
Definition unanswered (c : ClientConnection) (t : list Event) : Prop := t = [] \/ t = [Heard c false None].

(** The trace of a send that passed the checks, with [pooled] the newest idle
    connection, if any, and [fresh] the next connection to be dialed. *)
Inductive send_trace (wire : WireRequest) (streaming : bool) (pooled : option ClientConnection) (fresh : ClientConnection)
    : list Event -> Result (Outcome HttpResponse) -> Prop :=
| not_connected r :
  pooled = None -> no_response r -> send_trace wire streaming pooled fresh [Dialed fresh] r
| on_new t r :
  pooled = None -> ended streaming fresh t r ->
  send_trace wire streaming pooled fresh (Dialed fresh :: Wrote fresh wire :: t) r
| on_pooled c t r :
  pooled = Some c -> ended streaming c t r -> send_trace wire streaming pooled fresh (Wrote c wire :: t) r
| not_reconnected c t r :
  pooled = Some c -> unanswered c t -> no_response r ->
  send_trace wire streaming pooled fresh (Wrote c wire :: t ++ [Dialed fresh]) r
| on_second c t t' r :
  pooled = Some c -> unanswered c t -> ended streaming fresh t' r ->
  send_trace wire streaming pooled fresh (Wrote c wire :: t ++ Dialed fresh :: Wrote fresh wire :: t') r.

(** What the last exchange does to the pool: its connection may join it. *)
Definition kept (s : State E) (c : ClientConnection) (s' : State E) : Prop :=
  dialled s' = dialled s
  /\ (idle s' = idle s \/ idle s' = idle s ++ [c] /\ len (idle s) < opt_max_idle_connections opts).

(** The pool a send leaves: without the connection it took, and with the one it
    used last if that may be kept and there is room. *)
Definition rest_of (pool : list ClientConnection) : list ClientConnection := take (length pool - 1) pool.

Definition pool_left (s s' : State E) : Prop :=
  (dialled s <= dialled s')%nat
  /\ (idle s' = rest_of (idle s)
      \/ exists c, idle s' = rest_of (idle s) ++ [c] /\ len (rest_of (idle s)) < opt_max_idle_connections opts
                 /\ (last (idle s) = Some c \/ c = dialled s /\ (dialled s < dialled s')%nat)).

Lemma stale_unanswered streaming c t trip :
  exchanged streaming c t (Ret trip) -> stale trip = true -> unanswered c t.
Proof.
  intros Ht Hs. inversion Ht as [e|got_some e st Hst|got_some incoming pieces e took|got_some incoming pieces rs took|];
    subst; [by left| |done|done]. right. by rewrite (Hst Hs).
Qed.

Lemma settle_runs (s : State E) c trip :
  runs s (settle opts c trip) (fun h s' r => h = [] /\ r = returned_as (Ret trip) /\ kept s c s').
Proof.
  assert (Hid : forall r : Result (Outcome HttpResponse), r = returned_as (Ret trip) -> forall k,
    exists h, history (env (mkWorld k s)) = history s ++ h /\ h = [] /\ r = returned_as (Ret trip) /\ kept s c s).
  { intros r -> k. exists []. rewrite app_nil_r. split; [done|]. split; [done|]. split; [done|]. by split; [|left]. }
  unfold settle. intros k w' r. destruct trip as [[rs|e] st [] took]; cbn [trip_outcome keep_alive].
  - cbv [mbind M_bind]. unfold ReturnIdle. cbn [env]. destruct (_ <? _) eqn:El; intros [= <- <-]; [|by apply Hid].
    exists []. rewrite app_nil_r. split; [done|]. split; [done|]. split; [done|]. split; [done|]. right.
    by apply Z.ltb_lt in El.
  - intros [= <- <-]. by apply Hid.
  - intros [= <- <-]. by apply Hid.
  - intros [= <- <-]. by apply Hid.
Qed.

Lemma TakeIdle_runs (s : State E) :
  runs s TakeIdle (fun h s' r => h = [] /\ r = Ret (last (idle s)) /\ idle s' = rest_of (idle s)
                                 /\ dialled s' = dialled s).
Proof.
  intros k w' r. unfold TakeIdle. cbn [env]. destruct (last (idle s)) as [c|] eqn:El; intros [= <- <-];
    exists []; rewrite app_nil_r; [done|]. apply last_None in El. cbn [env]. unfold rest_of. by rewrite El.
Qed.

(** An exchange that is the last of its send. *)
Lemma last_exchange_runs c wire sink s :
  polite sink ->
  runs s (trip ← RoundTrip lib opts c wire sink; settle opts c trip)
    (fun h s' r => (exists t, h = Wrote c wire :: t /\ ended (streaming sink) c t r) /\ kept s c s').
Proof.
  intros Hp. eapply runs_bind; [by apply RoundTrip_runs| |].
  - intros trip h s1 ([Hi Hd] & t & -> & Ht). eapply runs_weaken; [apply settle_runs|].
    intros h' s' r (-> & -> & Hd' & Hk). rewrite app_nil_r. split; [by exists t; split; [|exists (Ret trip)]|].
    unfold kept. by rewrite <- Hi, <- Hd.
  - intros what h s1 ([Hi Hd] & t & -> & Ht). split; [by exists t; split; [|exists (Throw what)]|].
    split; [done|]. by left.
Qed.

(** A dial and, when it succeeds, a last exchange on the new connection. *)
Definition dialed_exchange (wire : WireRequest) (sink : option (Sink (State E))) : IO (Outcome HttpResponse) :=
  dialed ← Dial lib opts;
  match dialed with
  | Err e => mret (Err e)
  | Ok connection => trip ← RoundTrip lib opts connection wire sink; settle opts connection trip
  end.

Lemma dialed_exchange_runs wire sink s :
  polite sink ->
  runs s (dialed_exchange wire sink) (fun h s' r =>
    (h = [Dialed (dialled s)] /\ no_response r
     \/ exists t, h = Dialed (dialled s) :: Wrote (dialled s) wire :: t /\ ended (streaming sink) (dialled s) t r)
    /\ dialled s' = S (dialled s)
    /\ (idle s' = idle s \/ idle s' = idle s ++ [dialled s] /\ len (idle s) < opt_max_idle_connections opts)).
Proof.
  intros Hp. eapply runs_bind; [apply Dial_runs| |].
  2:{ intros what h s1 (-> & Hi & Hd & _). split; [by left|]. split; [done|]. by left. }
  intros [c|e] h s1 (-> & Hi & Hd & Hc).
  - rewrite (Hc c eq_refl). eapply runs_weaken; [by apply last_exchange_runs|].
    intros h' s' r [(t & -> & Ht) [Hd' Hk]]. split; [right; by exists t|]. rewrite Hd', Hd, <- Hi. done.
  - apply runs_ret. split; [by left|]. split; [done|]. by left.
Qed.

Lemma rest_of_last (pool : list ClientConnection) : last pool = None -> rest_of pool = [].
Proof. by intros ->%last_None. Qed.

Lemma acquire_then s (f : ClientConnection * bool -> IO (Outcome HttpResponse)) Q :
  (forall c s', last (idle s) = Some c -> idle s' = rest_of (idle s) -> dialled s' = dialled s ->
     runs s' (f (c, true)) Q) ->
  (last (idle s) = None -> forall s', idle s' = [] -> dialled s' = dialled s ->
     runs s' (dialed ← Dial lib opts; match dialed with Err e => mret (Err e) | Ok c => f (c, false) end) Q) ->
  runs s (acquired ← acquire lib opts; match acquired with Err e => mret (Err e) | Ok a => f a end) Q.
Proof.
  intros Hpooled Hnew k w' r Er. unfold acquire in Er. cbv [mbind M_bind] in Er.
  destruct (TakeIdle _) as [[k1 s1] r1] eqn:Et. destruct (TakeIdle_runs _ _ _ _ Et) as (h & Hh & -> & -> & Hi & Hd).
  cbn [env] in *. rewrite app_nil_r in Hh. destruct (last (idle s)) as [c|] eqn:El.
  - cbn in Er. rewrite <- Hh. by apply (Hpooled c s1 eq_refl Hi Hd k1).
  - rewrite <- Hh. apply (Hnew eq_refl s1) with (k := k1); [by rewrite Hi, rest_of_last|done|].
    cbv [mbind M_bind]. destruct (Dial _ _ _) as [w2 [[c|e]|what]]; cbn in Er |- *; done.
Qed.

Lemma pool_left_new s s' :
  last (idle s) = None -> dialled s' = S (dialled s) ->
  idle s' = [] \/ idle s' = [] ++ [dialled s] /\ len (@nil ClientConnection) < opt_max_idle_connections opts ->
  pool_left s s'.
Proof.
  intros El Hd Hk. split; [lia|]. rewrite (rest_of_last _ El). destruct Hk as [?|[? ?]]; [by left|right].
  exists (dialled s). split; [done|]. split; [done|]. right. split; [done|lia].
Qed.

Lemma SendContained_runs request sink s :
  polite sink -> refused opts setup_error request = None ->
  runs s (SendContained lib opts setup_error request sink) (fun h s' r =>
    send_trace (ToWireRequest lib opts request) (streaming sink) (last (idle s)) (dialled s) h r /\ pool_left s s').
Proof.
  intros Hp Hr. unfold SendContained. rewrite Hr. set (wire := ToWireRequest lib opts request).
  change (runs s (acquired ← acquire lib opts; match acquired with Err e => mret (Err e) | Ok a =>
    (fun '(connection, reused) => trip ← RoundTrip lib opts connection wire sink;
       if retries_fresh reused trip then dialed_exchange wire sink else settle opts connection trip) a end)
    (fun h s' r => send_trace wire (streaming sink) (last (idle s)) (dialled s) h r /\ pool_left s s')).
  apply acquire_then.
  - intros c s1 El Hi1 Hd1. eapply runs_bind; [by apply RoundTrip_runs| |].
    2:{ intros what h s2 ([Hi Hd] & t & -> & Ht). split; [apply on_pooled; [done|by exists (Throw what)]|].
        split; [lia|]. left. congruence. }
    intros trip h s2 ([Hi Hd] & t & -> & Ht). destruct (retries_fresh true trip) eqn:Ef.
    + eapply runs_weaken; [by apply dialed_exchange_runs|]. intros h' s3 r (Hh & Hd3 & Hk).
      assert (Hu : unanswered c t).
      { apply (stale_unanswered _ _ _ _ Ht). unfold retries_fresh in Ef. destruct (trip_outcome trip); [done|].
        by destruct (stale trip). }
      rewrite Hd, Hd1 in Hh, Hd3, Hk. rewrite Hi, Hi1 in Hk. split.
      * destruct Hh as [[-> Hn]|(t' & -> & Ht')]; [by apply not_reconnected|by apply on_second].
      * split; [lia|]. destruct Hk as [Hk|[Hk Hl]]; [by left|right].
        exists (dialled s). split; [done|]. split; [done|]. right. split; [done|lia].
    + eapply runs_weaken; [apply settle_runs|]. intros h' s3 r (-> & -> & Hd3 & Hk).
      split; [rewrite app_nil_r; apply on_pooled; [done|by exists (Ret trip)]|]. split; [lia|].
      rewrite Hi, Hi1 in Hk. destruct Hk as [?|[? ?]]; [by left|right]. exists c. by split; [|split; [|left]].
  - intros El s1 Hi1 Hd1. apply (runs_ext _ _ (dialed_exchange wire sink)).
    { intros w. unfold dialed_exchange. cbv [mbind M_bind]. destruct (Dial _ _ w) as [w1 [[c|e]|what]]; [|done|done].
      destruct (RoundTrip _ _ _ _ _ w1) as [w2 [[[rs|e] st kp took]|what]]; done. }
    eapply runs_weaken; [by apply dialed_exchange_runs|]. intros h s2 r (Hh & Hd2 & Hk). rewrite Hd1 in *. rewrite Hi1 in Hk.
    split; [|by apply pool_left_new].
    destruct Hh as [[-> Hn]|(t & -> & Ht)]; [by apply not_connected|by apply on_new].
Qed.

End Exchange.

(** ** Reading a trace *)

Definition heads (h : list Event) : list Incoming :=
  omap (fun e => match e with Heard _ _ head => head | _ => None end) h.

Definition requests (h : list Event) : list WireRequest :=
  omap (fun e => match e with Wrote _ wire => Some wire | _ => None end) h.

(** Once a piece of a body is handed over, nothing is dialed or written. *)
Fixpoint handed_last (h : list Event) : Prop :=
  match h with
  | [] => True
  | Handed _ :: h => Forall quiet h
  | _ :: h => handed_last h
  end.

Lemma handed_pieces_app h h' : handed_pieces (h ++ h') = handed_pieces h ++ handed_pieces h'.
Proof. apply omap_app. Qed.

Lemma handed_pieces_map pieces : handed_pieces (map Handed pieces) = pieces.
Proof. induction pieces as [|p ps IH]; [done|]. cbn. by f_equal. Qed.

Lemma requests_quiet h : Forall quiet h -> requests h = [].
Proof. induction 1 as [|[] h Hq Hh IH]; done. Qed.

Lemma requests_app h h' : requests (h ++ h') = requests h ++ requests h'.
Proof. apply omap_app. Qed.

Lemma handed_last_quiet h : Forall quiet h -> handed_last h.
Proof. induction 1 as [|[] h Hq Hh IH]; done. Qed.

Lemma handed_last_app h h' : handed_pieces h = [] -> handed_last h' -> handed_last (h ++ h').
Proof. intros Hh Hh'. induction h as [|[] h IH]; cbn in *; auto; done. Qed.

Lemma handed_last_nothing h : handed_pieces h = [] -> handed_last h.
Proof. intros Hh. rewrite <- (app_nil_r h). by apply handed_last_app. Qed.

(** What is returned fits what was handed over. *)
Definition answers (opts : Options) (takes : Z -> Prop) (streaming : bool) (h : list Event) (o : Outcome HttpResponse) : Prop :=
  match o with
  | Err e => handed_pieces h <> [] -> err_retryable e = false
  | Ok rs => exists incoming, incoming ∈ heads h /\ delivered opts takes streaming incoming (handed_pieces h) rs
  end.

Definition fits_answer (opts : Options) takes streaming h (r : Result (Outcome HttpResponse)) : Prop :=
  match r with Ret o => answers opts takes streaming h o | Throw _ => streaming = false -> handed_pieces h = [] end.

Section Trace.
Context (opts : Options) (takes : Z -> Prop) (streaming : bool).

Lemma exchanged_within c t r : exchanged opts takes streaming c t r -> Forall (within c) t.
Proof.
  intros [e|got_some e st Hst|got_some incoming pieces e took|got_some incoming pieces rs took|h what ? ?];
    [constructor|by repeat constructor| | |done]; (constructor; [done|apply within_handed]).
Qed.

Lemma exchanged_quiet c t r : exchanged opts takes streaming c t r -> Forall quiet t.
Proof. intros H%exchanged_within. by eapply within_quiet. Qed.

Lemma ended_answers c t r : ended opts takes streaming c t r -> fits_answer opts takes streaming t r.
Proof.
  intros ([trip|what] & Ht & ->); [|by inversion Ht]. cbn. inversion Ht as [e|got_some e st Hst|got_some incoming pieces e took _ He|
    got_some incoming pieces rs took Hd|]; subst; cbn [trip_outcome failed_trip answers]; try done.
  - cbn. by rewrite handed_pieces_map.
  - exists incoming. split; [cbn; by left|]. cbn. by rewrite handed_pieces_map.
Qed.

Lemma fits_answer_after h t r :
  handed_pieces h = [] -> fits_answer opts takes streaming t r -> fits_answer opts takes streaming (h ++ t) r.
Proof.
  intros Hh. destruct r as [[rs|e]|what]; [|by cbn; rewrite handed_pieces_app, Hh..].
  intros (incoming & Hin & Hd). exists incoming. cbn. rewrite handed_pieces_app, Hh. split; [|done].
  unfold heads. rewrite omap_app. apply elem_of_app. by right.
Qed.

Lemma unanswered_handed c t : unanswered c t -> handed_pieces t = [] /\ requests t = [].
Proof. by intros [-> | ->]. Qed.

Lemma no_response_fits h r : handed_pieces h = [] -> no_response r -> fits_answer opts takes streaming h r.
Proof. intros Hh Hr. destruct r as [[rs|e]|what]; [done|by cbn; rewrite Hh..]. Qed.

Lemma send_trace_facts wire pooled fresh h r :
  send_trace opts takes wire streaming pooled fresh h r ->
  handed_last h /\ fits_answer opts takes streaming h r
  /\ requests h ∈ [[]; [wire]; [wire; wire]].
Proof.
  intros [r' Hp Hn|t r' Hp Ht|c t r' Hp Ht|c t r' Hp Hu Hn|c t t' r' Hp Hu Ht].
  - split; [done|]. split; [by apply no_response_fits|]. by repeat constructor.
  - pose proof Ht as (trip & Hx%exchanged_quiet & _). split; [by apply (handed_last_quiet t)|].
    split; [by apply (fits_answer_after [_; _]), (ended_answers fresh)|].
    cbn. rewrite requests_quiet by done. by repeat constructor.
  - pose proof Ht as (trip & Hx%exchanged_quiet & _). split; [by apply (handed_last_quiet t)|].
    split; [by apply (fits_answer_after [_]), (ended_answers c)|].
    cbn. rewrite requests_quiet by done. by repeat constructor.
  - destruct (unanswered_handed _ _ Hu) as [Hh Hr].
    assert (Hh' : handed_pieces (Wrote c wire :: t ++ [Dialed fresh]) = []) by (cbn; by rewrite handed_pieces_app, Hh).
    split; [by apply handed_last_nothing|]. split; [by apply no_response_fits|].
    cbn. rewrite requests_app, Hr. by repeat constructor.
  - destruct (unanswered_handed _ _ Hu) as [Hh Hr]. pose proof Ht as (trip & Hx%exchanged_quiet & _).
    split. { apply handed_last_app; [done|]. by apply (handed_last_quiet t'). }
    split. { apply (fits_answer_after (Wrote c wire :: t)); [done|].
             by apply (fits_answer_after [_; _]), (ended_answers fresh). }
    cbn. rewrite requests_app, Hr. cbn. rewrite requests_quiet by done. by repeat constructor.
Qed.

End Trace.

(** ** The sends *)

Section Sends.
Context {E : Type} (lib : Beast E) (opts : Options) (setup_error : bytes).
Context (Hcap : 0 <= opt_max_response_bytes opts).

(** [Send] without a sink, [SendStreaming] with one. *)
Definition send_with (request : HttpRequest) (sink : option (Sink (State E))) : M (State E) (Outcome HttpResponse) :=
  match sink with
  | None => Send lib opts setup_error request
  | Some sink => SendStreaming lib opts setup_error request sink
  end.

(** What a send of [request] from state [s] may do: [h] happens, [s'] is left
    and [o] is returned. *)
Definition send_spec (takes : Z -> Prop) (request : HttpRequest) (streaming : bool) (s : State E)
    (h : list Event) (s' : State E) (o : Outcome HttpResponse) : Prop :=
  match refused opts setup_error request with
  | Some e => o = Err e /\ h = [] /\ idle s' = idle s
  | None =>
    (exists r, send_trace opts takes (ToWireRequest lib opts request) streaming (last (idle s)) (dialled s) h r
       /\ o = match r with Ret o => o | Throw what => Err (send_failed what (negb streaming)) end)
    /\ handed_last h
    /\ answers opts takes streaming h o
    /\ requests h ∈ [[]; [ToWireRequest lib opts request]; [ToWireRequest lib opts request; ToWireRequest lib opts request]]
    /\ pool_left opts s s'
  end.

Lemma send_with_spec takes request sink w :
  polite takes sink ->
  exists w' o h, send_with request sink w = (w', Ret o) /\ history (env w') = history (env w) ++ h
    /\ send_spec takes request (streaming sink) (env w) h (env w') o.
Proof.
  intros Hp. destruct w as [k s].
  assert (Hc : send_with request sink = Contain (SendContained lib opts setup_error request sink)
    (fun what => mret (Err (send_failed what (negb (streaming sink)))))) by by destruct sink.
  rewrite Hc. unfold Contain, send_spec. cbn [env]. destruct (refused opts setup_error request) as [e|] eqn:Hr.
  { unfold SendContained. rewrite Hr. eexists _, _, []. split; [reflexivity|]. by rewrite app_nil_r. }
  destruct (SendContained _ _ _ _ _ _) as [w1 r] eqn:Es.
  destruct (SendContained_runs lib opts setup_error Hcap takes request sink s Hp Hr _ _ _ Es) as (h & Hh & Ht & Hpool).
  pose proof (send_trace_facts opts takes (streaming sink) _ _ _ _ _ Ht) as (Hl & Ha & Hq).
  destruct r as [o|what]; eexists w1, _, h; (split; [reflexivity|]); (split; [done|]);
    (split; [by eexists; split; [exact Ht|]|]); (split; [done|]); (split; [|by split]); [exact Ha|].
  cbn in Ha |- *. intros Hne. destruct (streaming sink); [done|]. by destruct Hne; apply Ha.
Qed.

End Sends.
