(* ===== verification/BeastRetries.v ===== *)
(** [BeastHttpClient] under the retry loop of client/retry.cc: a streamed body
    reaches the caller's sink once, whatever the network does. *)
From Stdlib Require Import ZArith Lia Strings.Byte.
From Stdlib Require Import Floats.SpecFloat.
From S2P Require Import Prelude Bytes Timestamp Uri Headers Http1 Effects Retry BeastClient BeastClientSpec.

Local Open Scope Z_scope.

Section Retries.
Context {E : Type} (lib : Beast E) (opts : Options) (setup_error : bytes).
Context (Hcap : 0 <= opt_max_response_bytes opts).
Notation W := (World (State E)).

(** The caller's sink, as the client runs it. *)
Definition of_sink (sink : BodySink W) : Sink (State E) :=
  mkSink ((fun f status h w => let '(takes, w) := f w status h in (w, Ret takes)) <$> accept sink)
         ((fun f piece w => let '(written, w) := f w piece in (w, Ret written)) <$> write sink).

Definition as_outcome (r : W * Result (Outcome HttpResponse)) : Outcome HttpResponse * W :=
  match r with
  | (w, Ret o) => (o, w)
  | (w, Throw what) => (Err (send_failed what false), w)
  end.

(** The client as the retry loop's transport. *)
Definition beast_env (sleep : W -> Z -> W) (jitter : W -> double * W) (now : W -> Z) : Env W := {|
  Retry.Send w rq := as_outcome (BeastClient.Send lib opts setup_error rq w);
  Retry.SendStreaming w rq sink := as_outcome (BeastClient.SendStreaming lib opts setup_error rq (of_sink sink) w);
  Retry.sleep := sleep;
  Retry.jitter := jitter;
  Retry.now := now
|}.

(** A step that does not use the client. *)
Definition bystander (f : W -> W) : Prop := forall w,
  history (env (f w)) = history (env w) /\ same_pool (env w) (env (f w)).

Definition bystander_sink (sink : BodySink W) : Prop :=
  (forall f, accept sink = Some f -> forall status h, bystander (fun w => snd (f w status h)))
  /\ (forall f, write sink = Some f -> forall piece, bystander (fun w => snd (f w piece))).

Definition bystander_interceptor (ic : Interceptor W) : Prop :=
  (forall rq attempt, bystander (fun w => snd (ModifyBeforeTransmit ic w rq attempt)))
  /\ (forall rq o attempt, bystander (fun w => ReadAfterTransmit ic w rq o attempt)).

Lemma bystander_outsider {A} (f : W -> A * W) :
  bystander (fun w => snd (f w)) -> outsider (fun w => let '(a, w') := f w in (w', Ret a)).
Proof.
  intros Hf s k w' r. destruct (Hf (mkWorld k s)) as [Hh Hs]. destruct (f _) as [a w1]. intros [= <- <-].
  exists []. by rewrite app_nil_r.
Qed.

Context (policy : RetryPolicy).

(** The statuses whose body an attempt may stream. *)
Definition may_stream (status : Z) : Prop := 1 < attempts policy -> RetryableStatus status = false.

Lemma guarded_polite sink :
  bystander_sink sink -> polite may_stream (Some (of_sink (guarded (attempts policy) sink))).
Proof.
  intros [Ha Hw]. assert (Hg : write (guarded (attempts policy) sink) = write sink).
  { unfold guarded. destruct (accept sink); [|done]. by destruct (_ >? 1). }
  unfold polite, of_sink. rewrite Hg. split.
  2:{ intros f Hf piece. destruct (write sink) as [g|]; [|done]. injection Hf as <-.
      by apply (bystander_outsider (fun w => g w piece)), Hw. }
  intros f Hf status h. unfold guarded in Hf. destruct (accept sink) as [g|] eqn:Eg; [|by rewrite Eg in Hf].
  destruct (_ >? 1) eqn:En; cbn [accept] in Hf; rewrite ?Eg in Hf; injection Hf as <-; split.
  - apply (bystander_outsider (fun w => if RetryableStatus status then (false, w) else g w status h)).
    destruct (RetryableStatus status); [by intros w|by apply Ha].
  - intros w w'. destruct (RetryableStatus status) eqn:Er; [done|]. intros _ _. exact Er.
  - by apply (bystander_outsider (fun w => g w status h)), Ha.
  - intros w w' _ Hn. rewrite Z.gtb_ltb in En. apply Z.ltb_ge in En. lia.
Qed.

Context (sleep : W -> Z -> W) (jitter : W -> double * W) (now : W -> Z).
Context (ics : list (Interceptor W)) (sink : BodySink W) (request : HttpRequest).
Context (Hsleep : forall ms, bystander (fun w => sleep w ms)) (Hjitter : bystander (fun w => snd (jitter w))).
Context (Hics : Forall bystander_interceptor ics) (Hsink : bystander_sink sink).
Notation env_ := (beast_env sleep jitter now).

(** What attempts have done so far, and their last outcome. *)
Definition attempted (n : Z) (w w' : W) (o : Outcome HttpResponse) : Prop := exists h,
  history (env w') = history (env w) ++ h
  /\ handed_last h
  /\ answers opts may_stream true h o
  /\ Z.of_nat (length (requests h)) <= 2 * n.

Lemma send_attempted w rq o w' :
  send env_ policy (Some sink) w rq = (o, w') -> attempted 1 w w' o.
Proof.
  unfold send. cbn [Retry.SendStreaming beast_env].
  destruct (send_with_spec lib opts setup_error Hcap may_stream rq (Some (of_sink (guarded (attempts policy) sink))) w
    (guarded_polite sink Hsink)) as (w1 & o1 & h & Es & Hh & Hspec).
  cbn [send_with] in Es. rewrite Es. intros [= <- <-]. exists h. split; [done|].
  unfold send_spec in Hspec. destruct (refused _ _ _) as [e|].
  - destruct Hspec as (-> & -> & _). split_and!; [done|by intros []|cbn; lia].
  - destruct Hspec as (_ & Hl & Ha & Hq & _). split; [done|]. split; [done|].
    apply list_elem_of_In in Hq. cbn [In] in Hq. destruct Hq as [<-|[<-|[<-|[]]]]; cbn; lia.
Qed.

Lemma bystander_attempted n (f g : W -> W) w w' o :
  bystander f -> bystander g -> attempted n (f w) w' o -> attempted n w (g w') o.
Proof.
  intros Hf Hg (h & Hh & H). exists h. destruct (Hf w) as [Ef _], (Hg w') as [Eg _]. by rewrite Eg, Hh, Ef.
Qed.

Lemma modify_all_bystander l rq attempt :
  Forall bystander_interceptor l -> bystander (fun w => snd (modify_all l w rq attempt)).
Proof.
  intros Hl. revert rq. induction Hl as [|ic l [Hm _] Hl IH]; intros rq w; [done|]. cbn [modify_all].
  specialize (Hm rq attempt w). cbn in Hm. destruct (ModifyBeforeTransmit ic w rq attempt) as [rq' w1].
  destruct Hm as [Hh Hs], (IH rq' w1) as [Hh' Hs']. cbn in *. split; [congruence|exact (transitivity Hs Hs')].
Qed.

Lemma read_all_bystander l rq o attempt :
  Forall bystander_interceptor l -> bystander (fun w => read_all l w rq o attempt).
Proof.
  intros Hl. induction Hl as [|ic l [_ Hr] Hl IH]; intros w; [done|]. cbn [read_all].
  destruct (Hr rq o attempt w) as [Hh Hs], (IH (ReadAfterTransmit ic w rq o attempt)) as [Hh' Hs'].
  cbn in *. split; [congruence|exact (transitivity Hs Hs')].
Qed.

Lemma attempt_send_attempted w attempt o w' :
  attempt_send env_ request policy ics (Some sink) w attempt = (o, w') -> attempted 1 w w' o.
Proof.
  assert (Heq : attempt_send env_ request policy ics (Some sink) w attempt
    = let '(rq, w1) := modify_all ics w request attempt in
      let '(o, w2) := send env_ policy (Some sink) w1 rq in (o, read_all ics w2 rq o attempt)).
  { unfold attempt_send. destruct ics; [|done]. cbn [modify_all read_all]. by destruct (send _ _ _ _ _). }
  rewrite Heq. pose proof (modify_all_bystander ics request attempt Hics w) as Hm. cbn in Hm.
  destruct (modify_all _ w request attempt) as [rq w1].
  destruct (send _ _ _ w1 rq) as [o1 w2] eqn:Es. intros [= <- <-].
  apply send_attempted in Es as (h & Hh & H). exists h.
  destruct (read_all_bystander ics rq o1 attempt Hics w2) as [Er _]. cbn in Er. rewrite Er. split; [|done].
  rewrite Hh. f_equal. apply Hm.
Qed.

(** A retried outcome left nothing with the sink. *)
Lemma retried_nothing_handed h o :
  1 < attempts policy -> answers opts may_stream true h o -> retryable o = true -> handed_pieces h = [].
Proof.
  intros Hn Ha Hr. destruct o as [rs|e]; cbn in *.
  - destruct Ha as (incoming & _ & Hs & _ & [(_ & Ht & _)|(Hp & _)]); [|done]. rewrite Hs, (Ht Hn) in Hr. done.
  - destruct (handed_pieces h); [done|]. by rewrite Ha in Hr.
Qed.

Lemma attempted_again n w w1 w2 o1 o2 :
  1 < attempts policy -> attempted n w w1 o1 -> retryable o1 = true -> attempted 1 w1 w2 o2 ->
  attempted (n + 1) w w2 o2.
Proof.
  intros Hn (h & Hh & Hl & Ha & Hc) Hr (h' & Hh' & Hl' & Ha' & Hc').
  pose proof (retried_nothing_handed h o1 Hn Ha Hr) as Hp. exists (h ++ h'). split; [by rewrite Hh', Hh, <- app_assoc|].
  split; [by apply handed_last_app|]. split; [by apply (fits_answer_after _ _ _ _ _ (Ret o2))|].
  rewrite requests_app, length_app. lia.
Qed.

Lemma retry_loop_attempted w0 fuel : forall retry o w o' w',
  1 <= retry -> attempted retry w0 w o ->
  retry_loop env_ request policy ics (Some sink) fuel retry o w = (o', w') ->
  retry <= attempts policy -> attempted (attempts policy) w0 w' o'.
Proof.
  induction fuel as [|fuel IH]; intros retry o w o' w' Hge Hat; cbn [retry_loop].
  { intros [= <- <-] Hle. destruct Hat as (h & ? & ? & ? & ?). exists h. split_and!; [done..|lia]. }
  destruct (retry <? attempts policy) eqn:El; cbn [negb];
    [|intros [= <- <-] Hle; destruct Hat as (h & ? & ? & ? & ?); exists h; split_and!; [done..|lia]].
  apply Z.ltb_lt in El. destruct (retryable o) eqn:Er; cbn [negb];
    [|intros [= <- <-] Hle; destruct Hat as (h & ? & ? & ? & ?); exists h; split_and!; [done..|lia]].
  pose proof (Hjitter w) as Hjw. cbn in Hjw. cbn [Retry.jitter Retry.sleep Retry.now beast_env].
  destruct (jitter w) as [j w1]. set (w2 := sleep w1 _).
  destruct (attempt_send _ _ _ _ _ w2 _) as [o2 w3] eqn:Es. intros Hloop Hle.
  apply attempt_send_attempted in Es as (h & Hh & H).
  eapply IH; [| |exact Hloop|]; [lia| |lia]. eapply attempted_again; [lia|exact Hat|done|]. exists h. split; [|done].
  destruct (Hsleep (DelayBefore policy retry j o (now w1)) w1) as [Ew _]. fold w2 in Ew.
  rewrite Hh, Ew. f_equal. apply Hjw.
Qed.

End Retries.

(** ** A scripted network *)

(** The answers the next header reads get; everything else succeeds. *)
Definition Network : Type := list (error_code * bool * Incoming).

Definition no_response_left : error_code * bool * Incoming :=
  (Broken (lit "end of stream"), false, mkIncoming 0 [] None [] [] false).

Definition scripted : Beast Network := {|
  resolve _ _ := mret Success;
  set_sni _ := mret true;
  set_verify _ := mret Success;
  verify_peer := true;
  async_connect _ := mret Success;
  async_handshake _ := mret Success;
  keep_alive_on wire := wire;
  prepare_payload wire := wire;
  async_write _ _ := mret Success;
  async_read_header _ _ := fun w =>
    match env w with
    | [] => (w, Ret no_response_left)
    | answer :: rest => (mkWorld (clog w) rest, Ret answer)
    end
|}.

Definition demo_options : Options := mkOptions (lit "example.com") 8080 false 30000 4 1024.

Definition demo_request : HttpRequest := mkRequest (lit "GET") (lit "/report") [] [] [].

Definition demo_incoming (status : Z) (reads : list (error_code * bytes)) : Incoming :=
  mkIncoming status [(lit "content-type", lit "text/csv")] None reads [(lit "content-type", lit "text/csv")] true.

(** A dead pooled connection, a 503, and a download in two pieces. *)
Definition demo_world : World (State Network) :=
  mkWorld [] (mkState [0%nat] 1 []
    [no_response_left;
     (Success, true, demo_incoming 503 [(Success, lit "busy")]);
     (Success, true, demo_incoming 200 [(NeedBuffer [], lit "a,b"); (Success, lit ",c")])]).

Definition demo_sink : BodySink (World (State Network)) :=
  Retry.mkSink (Some (fun w _ _ => (true, w))) (Some (fun w _ => (true, w))).

Definition demo_beast : Env (World (State Network)) :=
  beast_env scripted demo_options [] (fun w _ => w) (fun w => (S754_zero false, w)) (fun _ => 0).

(** What happens: the dead connection is found out before a byte of a response,
    a new one is dialed, its 503 is buffered and it goes back to the pool, and the
    retry streams over it. *)
Example demo_download :
  let '(o, w) := SendWithRetries_sink demo_beast demo_request default_policy [] demo_sink demo_world in
  o = Ok (mkResponse 200 [(lit "content-type", lit "text/csv")] [] [])
  /\ map (fun e => match e with Dialed c => (0, c) | Wrote c _ => (1, c) | Heard c _ _ => (2, c) | Handed _ => (3, 0%nat) end)
       (history (env w))
     = [(1, 0%nat); (2, 0%nat); (0, 1%nat); (1, 1%nat); (2, 1%nat); (1, 1%nat); (2, 1%nat); (3, 0%nat); (3, 0%nat)]
  /\ handed_pieces (history (env w)) = [lit "a,b"; lit ",c"] /\ idle (env w) = [1%nat].
Proof. by vm_compute. Qed.

(** ** Claims *)

(** C29: one send.  Whatever the network, the libraries and the sink do, a send
    returns an outcome, and an exception becomes an error that is not retryable
    when a sink is involved.  A request that could split a message is refused
    before anything is dialed.  Otherwise the request is written once, or a second
    time on a new connection when the first was pooled and nothing of a response
    arrived; after a piece of the body reached the sink nothing is written, and a
    failure is not retryable; a success is the response that arrived, streamed
    whole or buffered within the cap; and only the connection used last may join
    the pool, if there is room. *)
Theorem beast_sends {E} (lib : Beast E) opts setup_error takes request sink w :
  0 <= opt_max_response_bytes opts -> polite takes sink ->
  exists w' o h, send_with lib opts setup_error request sink w = (w', Ret o)
    /\ history (env w') = history (env w) ++ h
    /\ send_spec lib opts setup_error takes request (streaming sink) (env w) h (env w') o.
Proof. intros Hcap Hp. by apply send_with_spec. Qed.

Lemma demo_sink_bystander : bystander_sink demo_sink.
Proof. split; intros f [= <-] *; by intros w. Qed.

Lemma beast_sends_witness :
  exists w' o h, send_with scripted demo_options [] demo_request (Some (of_sink demo_sink)) demo_world = (w', Ret o)
    /\ history (env w') = history (env demo_world) ++ h
    /\ send_spec scripted demo_options [] (fun _ => True) demo_request true (env demo_world) h (env w') o.
Proof.
  apply (beast_sends scripted demo_options [] (fun _ => True) demo_request (Some (of_sink demo_sink)) demo_world);
    [by vm_compute|].
  destruct demo_sink_bystander as [Ha Hw]. split.
  - intros f [= <-] status h. split; [|done].
    by apply (bystander_outsider (fun w => (true, w))).
  - intros f [= <-] piece. by apply (bystander_outsider (fun w => (true, w))).
Defined.

(** C39: a download under retries.  However often the retry loop sends a request
    over the client, and whatever each attempt meets (dead pooled connections,
    retryable statuses, failures before or in the body, exceptions), no request is
    written after a piece of a body reached the caller's sink; what the sink got
    is then the whole body of the response returned, or the call fails with an
    error that is not retryable; and each attempt writes at most twice. *)
Theorem retried_stream_once {E} (lib : Beast E) opts setup_error policy sleep jitter now ics sink request w :
  0 <= opt_max_response_bytes opts ->
  (forall ms, bystander (fun w => sleep w ms)) -> bystander (fun w => snd (jitter w)) ->
  Forall bystander_interceptor ics -> bystander_sink sink ->
  exists o w' h,
    SendWithRetries_sink (beast_env lib opts setup_error sleep jitter now) request policy ics sink w = (o, w')
    /\ history (env w') = history (env w) ++ h
    /\ handed_last h
    /\ answers opts (may_stream policy) true h o
    /\ Z.of_nat (length (requests h)) <= 2 * attempts policy.
Proof.
  intros Hcap Hsl Hj Hics Hs. unfold SendWithRetries_sink, SendWithRetriesImpl.
  destruct (attempt_send _ _ _ _ _ w 1) as [o w1] eqn:Ea.
  destruct (retry_loop _ _ _ _ _ _ 1 o w1) as [o' w'] eqn:El.
  apply (attempt_send_attempted lib opts setup_error Hcap) in Ea; [|done|done].
  assert (H : attempted opts policy (attempts policy) w w' o').
  { eapply retry_loop_attempted; [done..| |exact Ea|exact El|]; [done|]. unfold attempts. lia. }
  destruct H as (h & H). by exists o', w', h.
Qed.

Lemma retried_stream_once_witness :
  exists o w' h,
    SendWithRetries_sink demo_beast demo_request default_policy [] demo_sink demo_world = (o, w')
    /\ history (env w') = history (env demo_world) ++ h
    /\ handed_last h
    /\ answers demo_options (may_stream default_policy) true h o
    /\ Z.of_nat (length (requests h)) <= 2 * attempts default_policy.
Proof.
  apply (retried_stream_once scripted demo_options [] default_policy (fun w _ => w) (fun w => (S754_zero false, w))
    (fun _ => 0) [] demo_sink demo_request demo_world).
  - by vm_compute.
  - by intros ms w.
  - by intros w.
  - constructor.
  - apply demo_sink_bystander.
Defined.
