(* ===== verification/BeastPool.v ===== *)
(** The pool of [BeastHttpClient] under concurrent sends: each send as the
    sequence of its regions (the two that lock, a dial, an exchange), and the
    interleavings of many. *)
From Stdlib Require Import ZArith Lia Strings.Byte.
From stdpp Require Import relations.
From S2P Require Import Prelude Bytes Uri Headers Http1 Effects BeastClient BeastClientSpec BeastRetries.

Local Open Scope Z_scope.

Section Pool.
Context {E : Type} (lib : Beast E) (opts : Options) (setup_error : bytes).
Context (Hcap : 0 <= opt_max_response_bytes opts) (Hmax : 0 <= opt_max_idle_connections opts).

Notation IO := (M (State E)).

Record Call := mkCall { call_request : HttpRequest; call_sink : option (Sink (State E)) }.

(** Where a send is. *)
Inductive Phase :=
| AtStart
| AtTake
| AtDial
| AtTrip (c : ClientConnection) (reused : bool)
| AtSettle (c : ClientConnection) (trip : Trip)
| Returned (o : Outcome HttpResponse).

(** One region of a send. *)
Definition advance (call : Call) (p : Phase) : IO Phase :=
  match p with
  | AtStart => mret (match refused opts setup_error (call_request call) with
                     | Some e => Returned (Err e)
                     | None => AtTake
                     end)
  | AtTake => taken ← TakeIdle;
              mret (match taken with Some c => AtTrip c true | None => AtDial end)
  | AtDial => dialed ← Dial lib opts;
              mret (match dialed with Ok c => AtTrip c false | Err e => Returned (Err e) end)
  | AtTrip c reused =>
    trip ← RoundTrip lib opts c (ToWireRequest lib opts (call_request call)) (call_sink call);
    mret (if retries_fresh reused trip then AtDial else AtSettle c trip)
  | AtSettle c trip => o ← settle opts c trip; mret (Returned o)
  | Returned o => mret (Returned o)
  end.

(** The region within the [Contain] of its send. *)
Definition step_call (call : Call) (p : Phase) (w : World (State E)) : World (State E) * Phase :=
  match advance call p w with
  | (w, Ret p) => (w, p)
  | (w, Throw what) => (w, Returned (Err (send_failed what (negb (streaming (call_sink call))))))
  end.

Fixpoint run_call (fuel : nat) (call : Call) (p : Phase) (w : World (State E)) : World (State E) * Phase :=
  match fuel with
  | O => (w, p)
  | S fuel => let '(w, p) := step_call call p w in run_call fuel call p w
  end.

(** The regions of a send, run one after the other, are the send. *)
Definition failed_call (call : Call) (what : option bytes) : Outcome HttpResponse :=
  Err (send_failed what (negb (streaming (call_sink call)))).

Definition contained (call : Call) (r : World (State E) * Result (Outcome HttpResponse)) : World (State E) * Phase :=
  match r with
  | (w, Ret o) => (w, Returned o)
  | (w, Throw what) => (w, Returned (failed_call call what))
  end.

Lemma run_returned n call o w : run_call n call (Returned o) w = (w, Returned o).
Proof. induction n as [|n IH]; [done|exact IH]. Qed.

Lemma run_settle n call c trip w :
  run_call (S n) call (AtSettle c trip) w = contained call (settle opts c trip w).
Proof.
  cbn [run_call]. unfold step_call. cbn [advance]. cbv [mbind M_bind].
  destruct (settle _ _ _ _) as [w1 [o|what]]; apply run_returned.
Qed.

Lemma run_trip_new n call c w :
  run_call (S (S n)) call (AtTrip c false) w
  = contained call ((trip ← RoundTrip lib opts c (ToWireRequest lib opts (call_request call)) (call_sink call);
                     settle opts c trip) w).
Proof.
  cbn [run_call]. unfold step_call at 1. cbn [advance]. cbv [mbind M_bind].
  destruct (RoundTrip _ _ _ _ _ _) as [w1 [trip|what]]; [|apply run_returned].
  assert (Hr : retries_fresh false trip = false) by (unfold retries_fresh; by destruct (trip_outcome trip)).
  cbn [mret M_ret]. rewrite Hr. apply (run_settle n).
Qed.

Lemma run_dial n call w :
  run_call (S (S (S n))) call AtDial w
  = contained call (dialed_exchange lib opts (ToWireRequest lib opts (call_request call)) (call_sink call) w).
Proof.
  unfold dialed_exchange. cbn [run_call]. unfold step_call at 1. cbn [advance].
  cbv [mbind M_bind]. destruct (Dial _ _ _) as [w1 [[c|e]|what]];
    [apply (run_trip_new n)|apply run_returned|apply run_returned].
Qed.

Lemma run_trip_pooled n call c w :
  run_call (S (S (S (S n)))) call (AtTrip c true) w
  = contained call ((trip ← RoundTrip lib opts c (ToWireRequest lib opts (call_request call)) (call_sink call);
       if retries_fresh true trip
       then dialed_exchange lib opts (ToWireRequest lib opts (call_request call)) (call_sink call)
       else settle opts c trip) w).
Proof.
  cbn [run_call]. unfold step_call at 1. cbn [advance]. cbv [mbind M_bind].
  destruct (RoundTrip _ _ _ _ _ _) as [w1 [trip|what]]; [|apply run_returned].
  cbn [mret M_ret]. destruct (retries_fresh true trip); [apply (run_dial n)|apply (run_settle (S (S n)))].
Qed.

Lemma run_call_send call w :
  run_call 6 call AtStart w = contained call (SendContained lib opts setup_error (call_request call) (call_sink call) w).
Proof.
  unfold SendContained. cbn [run_call]. unfold step_call at 1. cbn [advance mret M_ret].
  destruct (refused _ _ _); [apply (run_returned 5 call)|]. unfold step_call at 1. cbn [advance]. unfold acquire.
  cbv [mbind M_bind]. destruct (TakeIdle w) as [w1 [[c|]|what]]; cbn [mret M_ret].
  - apply (run_trip_pooled 0).
  - etransitivity; [apply (run_dial 1)|]. unfold dialed_exchange. cbv [mbind M_bind].
    destruct (Dial _ _ _) as [w2 [[c|e]|what]]; [|done|done]. cbn [mret M_ret].
    destruct (RoundTrip _ _ _ _ _ _) as [w3 [[[rs|e] st kp took]|what]]; done.
  - apply (run_returned 4 call).
Qed.

(** ** The interleavings *)

Record System := mkSystem { client : World (State E); calls : list (Call * Phase) }.

(** A send begins, runs a region, or something outside the client happens. *)
Inductive system_step : System -> System -> Prop :=
| begin_send w cs call :
  polite (fun _ => True) (call_sink call) ->
  system_step (mkSystem w cs) (mkSystem w (cs ++ [(call, AtStart)]))
| region w l1 call p l2 w' p' :
  step_call call p w = (w', p') ->
  system_step (mkSystem w (l1 ++ (call, p) :: l2)) (mkSystem w' (l1 ++ (call, p') :: l2))
| elsewhere w w' cs :
  same_pool (env w) (env w') -> history (env w') = history (env w) ->
  system_step (mkSystem w cs) (mkSystem w' cs).

(** The connections a send has taken. *)
Definition held (p : Phase) : list ClientConnection :=
  match p with AtTrip c _ | AtSettle c _ => [c] | _ => [] end.

Definition holdings (cs : list (Call * Phase)) : list ClientConnection := cs ≫= (fun cp => held (snd cp)).

(** The exchanges on a connection, and those that touch no other. *)
Definition on (c : ClientConnection) (e : Event) : bool :=
  match e with Wrote c' _ | Heard c' _ _ => bool_decide (c' = c) | _ => false end.

Definition only (c : ClientConnection) (e : Event) : Prop :=
  match e with Dialed _ => False | Wrote c' _ | Heard c' _ _ => c' = c | Handed _ => True end.

(** The last exchange on the connection was a response that permits another. *)
Definition clean (c : ClientConnection) (h : list Event) : Prop := exists got_some incoming,
  last (List.filter (on c) h) = Some (Heard c got_some (Some incoming)) /\ in_keep_alive incoming = true.

Definition keeps (trip : Trip) : bool :=
  match trip_outcome trip with Ok _ => keep_alive trip | Err _ => false end.

Definition settles_clean (h : list Event) (p : Phase) : Prop :=
  match p with AtSettle c trip => keeps trip = true -> clean c h | _ => True end.

Record pool_inv (s : State E) (cs : list (Call * Phase)) : Prop := {
  inv_distinct : NoDup (idle s ++ holdings cs);
  inv_dialled : Forall (fun c => (c < dialled s)%nat) (idle s ++ holdings cs);
  inv_room : len (idle s) <= opt_max_idle_connections opts;
  inv_clean : Forall (fun c => clean c (history s)) (idle s);
  inv_settle : Forall (fun cp => settles_clean (history s) (snd cp)) cs;
  inv_polite : Forall (fun cp => polite (fun _ => True) (call_sink (fst cp))) cs
}.

(** What a region does to the pool. *)
Inductive stepped (s s' : State E) : Phase -> Phase -> list Event -> Prop :=
| st_same p p' : held p' = [] -> same_pool s s' -> stepped s s' p p' []
| st_take c :
  idle s = idle s' ++ [c] -> dialled s' = dialled s -> stepped s s' AtTake (AtTrip c true) []
| st_dial p' :
  idle s' = idle s -> dialled s' = S (dialled s) -> (p' = AtTrip (dialled s) false \/ held p' = []) ->
  stepped s s' AtDial p' [Dialed (dialled s)]
| st_trip c reused p' h :
  same_pool s s' -> Forall (only c) h ->
  (held p' = [] \/ exists trip, p' = AtSettle c trip /\ (keeps trip = true -> clean c h)) ->
  stepped s s' (AtTrip c reused) p' h
| st_settle c trip o :
  dialled s' = dialled s ->
  (idle s' = idle s
   \/ keeps trip = true /\ idle s' = idle s ++ [c] /\ len (idle s) < opt_max_idle_connections opts) ->
  stepped s s' (AtSettle c trip) (Returned o) [].

Lemma clean_app c h h' : clean c h' -> clean c (h ++ h').
Proof.
  intros (g & incoming & Hl & Hk). exists g, incoming. split; [|done]. rewrite List.filter_app, last_app, Hl. done.
Qed.

Lemma clean_other c c' h h' : c' <> c -> Forall (only c') h' -> clean c h -> clean c (h ++ h').
Proof.
  intros Hc Ho (g & incoming & Hl & Hk). exists g, incoming. split; [|done].
  assert (Hf : List.filter (on c) h' = []).
  { induction Ho as [|e h' He Ho IH]; [done|]. cbn. destruct e; cbn in *; subst; try done; by rewrite bool_decide_eq_false_2. }
  by rewrite List.filter_app, Hf, app_nil_r.
Qed.

Lemma clean_dialed c c' h : clean c h -> clean c (h ++ [Dialed c']).
Proof. intros (g & incoming & Hl & Hk). exists g, incoming. by rewrite List.filter_app, app_nil_r. Qed.

Lemma within_only c h : Forall (within c) h -> Forall (only c) h.
Proof. intros Hh. eapply Forall_impl; [exact Hh|]. by intros []. Qed.

(** A response read whole on a connection that may be kept. *)
Lemma kept_clean streaming c wire t trip :
  exchanged opts (fun _ => True) streaming c t (Ret trip) -> keeps trip = true -> clean c (Wrote c wire :: t).
Proof.
  intros Ht. inversion Ht as [e|got_some e st Hst|got_some incoming pieces e took Hp He|got_some incoming pieces rs took Hd|];
    subst; cbn [keeps trip_outcome failed_trip]; try done.
  cbn [keep_alive]. intros Hk. exists got_some, incoming. split; [|done].
  assert (Hf : List.filter (on c) (map Handed pieces) = []) by (clear; induction pieces as [|x l IH]; [done|exact IH]).
  cbn. by rewrite bool_decide_eq_true_2, Hf.
Qed.

Lemma trip_stepped call c reused s :
  polite (fun _ => True) (call_sink call) ->
  runs s (advance call (AtTrip c reused)) (fun h s' r =>
    stepped s s' (AtTrip c reused) (match r with Ret p => p | Throw what => Returned (failed_call call what) end) h).
Proof.
  intros Hp. cbn [advance]. eapply runs_bind; [by apply RoundTrip_runs| |].
  - intros trip h s1 (Hs & t & -> & Ht). apply runs_ret. rewrite app_nil_r. apply st_trip; [done| |].
    + constructor; [done|]. by eapply within_only, exchanged_within.
    + destruct (retries_fresh reused trip); [by left|right]. exists trip. split; [done|]. by eapply kept_clean.
  - intros what h s1 (Hs & t & -> & Ht). apply st_trip; [done| |by left].
    constructor; [done|]. by eapply within_only, exchanged_within.
Qed.

Lemma settle_stepped call c trip s :
  runs s (advance call (AtSettle c trip)) (fun h s' r =>
    stepped s s' (AtSettle c trip) (match r with Ret p => p | Throw what => Returned (failed_call call what) end) h).
Proof.
  cbn [advance]. assert (Hid : forall o k, exists h, history (env (mkWorld k s)) = history s ++ h
    /\ stepped s s (AtSettle c trip) (Returned o) h).
  { intros o k. exists []. rewrite app_nil_r. split; [done|]. apply st_settle; [done|by left]. }
  intros k w' r. unfold settle. cbv [mbind M_bind]. destruct (trip_outcome trip) as [rs|e] eqn:Eo.
  2:{ intros [= <- <-]. apply Hid. }
  destruct (keep_alive trip) eqn:Ek; [|intros [= <- <-]; apply Hid].
  unfold ReturnIdle. cbn [env]. destruct (_ <? _) eqn:El; intros [= <- <-]; [|apply Hid].
  exists []. rewrite app_nil_r. split; [done|]. apply st_settle; [done|right]. split; [by unfold keeps; rewrite Eo|].
  split; [done|]. by apply Z.ltb_lt.
Qed.

Lemma advance_stepped call p s :
  polite (fun _ => True) (call_sink call) ->
  runs s (advance call p) (fun h s' r =>
    stepped s s' p (match r with Ret p => p | Throw what => Returned (failed_call call what) end) h).
Proof.
  intros Hp. destruct p as [| | |c reused|c trip|o]; [| | |by apply trip_stepped|apply settle_stepped|].
  - apply runs_ret. apply st_same; [|done]. by destruct (refused _ _ _).
  - eapply runs_bind; [apply TakeIdle_runs| |]; [|by intros what h s1 (_ & ? & _)].
    intros taken h s1 (-> & [= ->] & Hi & Hd). apply runs_ret. destruct (last (idle s)) as [c|] eqn:El.
    + apply st_take; [|done]. rewrite Hi. apply last_Some in El as [rest ->]. unfold rest_of.
      rewrite length_app. cbn. by rewrite Nat.add_sub, take_app_length.
    + apply st_same; [done|]. split; [|done]. by rewrite Hi, (rest_of_last _ El), (proj1 (last_None _) El).
  - cbn [advance]. eapply runs_bind; [apply Dial_runs| |].
    + intros [c|e] h s1 (-> & Hi & Hd & Hc); apply runs_ret; apply st_dial; [done|done| |done|done|by right].
      left. by rewrite (Hc c eq_refl).
    + intros what h s1 (-> & Hi & Hd & _). apply st_dial; [done|done|by right].
  - apply runs_ret. by apply st_same.
Qed.

(** ** The invariant *)

Lemma holdings_split l1 call p l2 :
  holdings (l1 ++ (call, p) :: l2) = holdings l1 ++ held p ++ holdings l2.
Proof. unfold holdings. by rewrite bind_app. Qed.

Lemma taken_split (s : State E) l1 call p l2 :
  idle s ++ holdings (l1 ++ (call, p) :: l2) ≡ₚ held p ++ idle s ++ holdings (l1 ++ l2).
Proof. rewrite holdings_split. unfold holdings. rewrite bind_app. solve_Permutation. Qed.

(** What the other sends rely on across a region that adds [h]. *)
Definition undisturbed (cs : list ClientConnection) (h h' : list Event) : Prop :=
  forall c, c ∈ cs -> clean c h -> clean c (h ++ h').

Lemma undisturbed_nil cs h : undisturbed cs h [].
Proof. intros c _. by rewrite app_nil_r. Qed.

Lemma undisturbed_dialed cs h c : undisturbed cs h [Dialed c].
Proof. intros c' _. apply clean_dialed. Qed.

Lemma undisturbed_only c cs h h' : c ∉ cs -> Forall (only c) h' -> undisturbed cs h h'.
Proof. intros Hc Ho c' Hc'. apply (clean_other c' c); [|done]. intros ->. done. Qed.

Lemma settles_undisturbed h h' cs :
  undisturbed (holdings cs) h h' ->
  Forall (fun cp => settles_clean h (snd cp)) cs -> Forall (fun cp => settles_clean (h ++ h') (snd cp)) cs.
Proof.
  intros Hu Hs. apply Forall_forall. intros [call p] Hin. rewrite Forall_forall in Hs.
  specialize (Hs _ Hin). destruct p as [| | | |c trip|]; try done. cbn in *. intros Hk. apply Hu; [|by apply Hs].
  apply list_elem_of_bind. exists (call, AtSettle c trip). split; [by left|done].
Qed.

(** The invariant after a region: what is left to show of the send that ran. *)
Lemma pool_inv_region s s' call p p' l1 l2 h :
  pool_inv s (l1 ++ (call, p) :: l2) ->
  history s' = history s ++ h ->
  (NoDup (held p ++ idle s ++ holdings (l1 ++ l2)) ->
   Forall (fun c => (c < dialled s)%nat) (held p ++ idle s ++ holdings (l1 ++ l2)) ->
   undisturbed (holdings (l1 ++ l2)) (history s) h
   /\ NoDup (held p' ++ idle s' ++ holdings (l1 ++ l2))
   /\ Forall (fun c => (c < dialled s')%nat) (held p' ++ idle s' ++ holdings (l1 ++ l2))
   /\ len (idle s') <= opt_max_idle_connections opts
   /\ Forall (fun c => clean c (history s ++ h)) (idle s')
   /\ settles_clean (history s ++ h) p') ->
  pool_inv s' (l1 ++ (call, p') :: l2).
Proof.
  intros [Hd Hl Hr Hc Hs Hp] Hh Hstep. rewrite taken_split in Hd, Hl.
  destruct (Hstep Hd Hl) as (Hu & Hd' & Hl' & Hr' & Hc' & Hs').
  apply Forall_app in Hs as [Hs1 [Hsp Hs2]%Forall_cons], Hp as [Hp1 [Hpp Hp2]%Forall_cons].
  split; [by rewrite taken_split|by rewrite taken_split|done|by rewrite Hh| |by apply Forall_app; split; [|constructor]].
  assert (Hall : Forall (fun cp => settles_clean (history s') (snd cp)) (l1 ++ l2)).
  { rewrite Hh. apply settles_undisturbed; [done|]. by apply Forall_app. }
  apply Forall_app in Hall as [? ?]. apply Forall_app. split; [done|]. constructor; [|done]. by rewrite Hh.
Qed.

Lemma settles_clean_unheld h p : held p = [] -> settles_clean h p.
Proof. by destruct p. Qed.

Lemma pool_inv_stepped s s' call p p' l1 l2 h :
  pool_inv s (l1 ++ (call, p) :: l2) -> stepped s s' p p' h -> history s' = history s ++ h ->
  pool_inv s' (l1 ++ (call, p') :: l2).
Proof.
  intros Hinv Hst Hh. apply (pool_inv_region s s' call p p' l1 l2 h Hinv Hh).
  destruct Hinv as [_ _ Hr Hc Hs _]. apply Forall_app in Hs as [_ [Hsp _]%Forall_cons].
  set (R := holdings (l1 ++ l2)). clearbody R.
  destruct Hst as [p p' Hp [Hi Hd]|c Hi Hd|p' Hi Hd Hp|c reused p' h [Hi Hd] Ho Hp|c trip o Hd Hi]; intros Hnd Hlt.
  - rewrite Hp, Hi, Hd, app_nil_r. cbn [app]. apply NoDup_app in Hnd as (_ & _ & ?). apply Forall_app in Hlt as [_ ?].
    split_and!; [apply undisturbed_nil|done..|by apply settles_clean_unheld].
  - cbn [held app] in *. rewrite Hi in *. rewrite app_nil_r, Hd. apply Forall_app in Hc as [? _].
    rewrite len_app in Hr. pose proof (len_nonneg [c]).
    assert (Hperm : (idle s' ++ [c]) ++ R ≡ₚ c :: idle s' ++ R) by solve_Permutation.
    rewrite Hperm in Hnd, Hlt. split_and!; [apply undisturbed_nil|done|done|lia|done|done].
  - cbn [held app] in *. rewrite Hi, Hd. split_and!; [apply undisturbed_dialed| | |done| |].
    + destruct Hp as [-> | ->]; [|done]. cbn [held app]. constructor; [|done]. intros Hin.
      rewrite Forall_forall in Hlt. specialize (Hlt _ Hin). cbn in Hlt. lia.
    + assert (Hlt' : Forall (fun c => (c < S (dialled s))%nat) (idle s ++ R)).
      { eapply Forall_impl; [exact Hlt|]. intros c Hc'. cbn in *. lia. }
      destruct Hp as [-> | ->]; [|done]. constructor; [lia|done].
    + eapply Forall_impl; [exact Hc|]. intros c. apply clean_dialed.
    + destruct Hp as [-> |Hp]; [done|by apply settles_clean_unheld].
  - cbn [held app] in Hnd, Hlt. apply NoDup_cons in Hnd as [Hn Hnd]. apply Forall_cons in Hlt as [Hc0 Hlt].
    rewrite Hi, Hd. assert (Hheld : held p' = [] \/ held p' = [c]) by (destruct Hp as [?|(trip & -> & _)]; auto).
    split_and!; [eapply undisturbed_only; [|done]; set_solver| | |done| |].
    + destruct Hheld as [-> | ->]; [done|]. by constructor.
    + destruct Hheld as [-> | ->]; [done|]. by constructor.
    + apply Forall_forall. intros c' Hin. rewrite Forall_forall in Hc. apply (clean_other c' c); [|done|by apply Hc].
      intros ->. apply Hn, elem_of_app. by left.
    + destruct Hp as [Hp|(trip & -> & Hk)]; [by apply settles_clean_unheld|]. intros Hk'. by apply clean_app, Hk.
  - cbn [held app] in *. rewrite app_nil_r, Hd. apply NoDup_cons in Hnd as [Hn Hnd].
    apply Forall_cons in Hlt as [Hc0 Hlt]. destruct Hi as [-> |(Hk & -> & Hl)].
    + split_and!; [apply undisturbed_nil|done..].
    + assert (Hperm : (idle s ++ [c]) ++ R ≡ₚ c :: idle s ++ R) by solve_Permutation. rewrite Hperm.
      split_and!; [apply undisturbed_nil|by constructor|by constructor| | |done].
      * unfold len in *. rewrite length_app. cbn [length]. lia.
      * apply Forall_app. split; [done|]. by repeat constructor; apply Hsp.
Qed.

Lemma step_call_inv call p w w' p' l1 l2 :
  step_call call p w = (w', p') ->
  pool_inv (env w) (l1 ++ (call, p) :: l2) -> pool_inv (env w') (l1 ++ (call, p') :: l2).
Proof.
  intros Es Hinv. pose proof (inv_polite _ _ Hinv) as [_ [Hp _]%Forall_cons]%Forall_app.
  unfold step_call in Es. destruct w as [k s]. destruct (advance call p (mkWorld k s)) as [w1 r] eqn:Ea.
  destruct (advance_stepped call p s Hp _ _ _ Ea) as (h & Hh & Hst). cbn [env] in Hinv.
  destruct r as [p1|what]; injection Es as <- <-; by eapply pool_inv_stepped.
Qed.

Lemma system_step_inv x y :
  system_step x y -> pool_inv (env (client x)) (calls x) -> pool_inv (env (client y)) (calls y).
Proof.
  intros [w cs call Hp|w l1 call p l2 w' p' Es|w w' cs [Hi Hd] Hh]; cbn [client calls].
  - intros [Hnd Hlt Hr Hc Hs Hpol].
    assert (Hhold : holdings (cs ++ [(call, AtStart)]) = holdings cs).
    { unfold holdings. rewrite bind_app. cbn. apply app_nil_r. }
    split; rewrite ?Hhold; try done; apply Forall_app; by split; [|repeat constructor].
  - by apply step_call_inv.
  - intros [Hnd Hlt Hr Hc Hs Hpol]. split; by rewrite ?Hi, ?Hd, ?Hh.
Qed.

Lemma reachable_inv x y :
  rtc system_step x y -> pool_inv (env (client x)) (calls x) -> pool_inv (env (client y)) (calls y).
Proof. induction 1 as [|x y z Hxy _ IH]; [done|]. intros Hx. apply IH. by eapply system_step_inv. Qed.

Lemma pool_inv_empty s : idle s = [] -> pool_inv s [].
Proof. intros Hi. split; rewrite ?Hi; try constructor. done. Qed.

Lemma held_once cs : NoDup (holdings cs) -> forall i j x y c,
  cs !! i = Some x -> cs !! j = Some y -> c ∈ held (snd x) -> c ∈ held (snd y) -> i = j.
Proof.
  assert (Hin : forall l k (z : Call * Phase) c, l !! k = Some z -> c ∈ held (snd z) -> c ∈ holdings l).
  { intros l k z c Hk Hc. apply list_elem_of_bind. exists z. split; [done|]. by eapply list_elem_of_lookup_2. }
  induction cs as [|z cs IH]; [done|]. cbn. intros (_ & Hd & Hn)%NoDup_app [|i] [|j] x y c; cbn; [done| | |].
  - intros [= ->] Hj Hx Hy. by destruct (Hd c Hx); eapply Hin.
  - intros Hi [= ->] Hx Hy. by destruct (Hd c Hy); eapply Hin.
  - intros Hi Hj Hx Hy. f_equal. by eapply IH.
Qed.

End Pool.

(** ** Claims *)

(** C31: concurrent sends share the pool safely.  On every interleaving of the
    regions of any number of sends, no two sends hold the same connection and none
    holds one that is in the pool; the pool keeps within its limit; and a pooled
    connection's last exchange was a response read to its end that permits
    another, so a request never meets the rest of an older response.  The regions
    of one send, run without interruption, are [SendContained]. *)
Theorem pool_exclusive {E} (lib : Beast E) opts setup_error x y :
  0 <= opt_max_response_bytes opts -> 0 <= opt_max_idle_connections opts ->
  idle (env (client x)) = [] -> calls x = [] ->
  rtc (system_step lib opts setup_error) x y ->
  (forall i j a b c, calls y !! i = Some a -> calls y !! j = Some b ->
     c ∈ held (snd a) -> c ∈ held (snd b) -> i = j)
  /\ (forall i a c, calls y !! i = Some a -> c ∈ held (snd a) -> c ∉ idle (env (client y)))
  /\ len (idle (env (client y))) <= opt_max_idle_connections opts
  /\ (forall c, c ∈ idle (env (client y)) -> clean c (history (env (client y))))
  /\ (forall call w, run_call lib opts setup_error 6 call AtStart w
       = contained call (SendContained lib opts setup_error (call_request call) (call_sink call) w)).
Proof.
  intros Hcap Hmax Hi Hc Hr.
  assert (Hinv : pool_inv opts (env (client y)) (calls y)).
  { eapply reachable_inv; [done|done|exact Hr|]. rewrite Hc. by apply pool_inv_empty. }
  destruct Hinv as [(_ & Hd & Hn)%NoDup_app _ Hroom Hclean _ _]. split_and!.
  - by apply held_once.
  - intros i a c Ha Hca Hin. apply (Hd c Hin). apply list_elem_of_bind. exists a.
    split; [done|]. by eapply list_elem_of_lookup_2.
  - done.
  - by apply Forall_forall.
  - intros call w. apply run_call_send.
Qed.

(** Two downloads over a scripted network. *)
Definition two_sends : World (State Network) :=
  mkWorld [] (mkState [] 0 []
    [(Success, true, demo_incoming 200 [(Success, lit "one")]); (Success, true, demo_incoming 200 [(Success, lit "two")])]).

Definition demo_call : Call (E := Network) := mkCall demo_request None.

(** The sends take turns: both dial before either exchanges, and both return
    their connection. *)
Definition turns : list nat := [0; 1; 0; 1; 0; 1; 0; 1; 0; 1; 0; 1]%nat.

Fixpoint run_turns (ts : list nat) (x : System (E := Network)) : System (E := Network) :=
  match ts with
  | [] => x
  | i :: ts =>
    match calls x !! i with
    | Some (call, p) =>
      let '(w, p) := step_call scripted demo_options [] call p (client x) in
      run_turns ts (mkSystem w (take i (calls x) ++ (call, p) :: drop (S i) (calls x)))
    | None => run_turns ts x
    end
  end.

Lemma run_turns_reachable ts : forall x, rtc (system_step scripted demo_options []) x (run_turns ts x).
Proof.
  induction ts as [|i ts IH]; intros [w cs]; cbn [run_turns calls client]; [constructor|].
  destruct (cs !! i) as [[call p]|] eqn:Ei; [|apply IH].
  destruct (step_call _ _ _ call p w) as [w' p'] eqn:Es. eapply rtc_l; [|apply IH].
  rewrite <- (take_drop_middle cs i (call, p) Ei) at 1. by apply region.
Qed.

Definition both_done : System (E := Network) :=
  run_turns turns (mkSystem two_sends [(demo_call, AtStart); (demo_call, AtStart)]).

Example both_done_pool : idle (env (client both_done)) = [0; 1]%nat /\ length (calls both_done) = 2%nat.
Proof. by vm_compute. Qed.

Lemma pool_exclusive_witness :
  clean 0%nat (history (env (client both_done))) /\ clean 1%nat (history (env (client both_done))).
Proof.
  destruct (pool_exclusive scripted demo_options [] (mkSystem two_sends []) both_done) as (_ & _ & _ & Hc & _);
    [by vm_compute|by vm_compute|done|done| |refine (conj (Hc 0%nat _) (Hc 1%nat _)); rewrite (proj1 both_done_pool); repeat constructor].
  eapply rtc_l; [by apply (begin_send _ _ _ _ [] demo_call)|].
  eapply rtc_l; [by apply (begin_send _ _ _ _ [(demo_call, AtStart)] demo_call)|]. apply run_turns_reachable.
Defined.
