(* ===== verification/BeastWire.v ===== *)
(** http/beast_transport.cc, what the server writes and reads as messages: the
    request as a handler sees it, the response as it goes to the wire, the
    subprotocol offer of an upgrade, and the ALPN choice.  Beast's messages are
    an interface. *)
From Stdlib Require Import ZArith Lia Strings.Byte.
From S2P Require Import Prelude Bytes Uri Headers Http1 Effects BeastClient WsSession.

Local Open Scope Z_scope.

(** A [bhttp::response]: its body is [None] under [empty_body]. *)
Record WireResponse := mkWireResponse {
  wr_status : Z;
  wr_version : Z;
  wr_fields : list (bytes * bytes);
  wr_body : option bytes
}.

(** The operations of Beast's message that the transport uses; those that
    store what they are given may throw. *)
Class Messages := {
  result : Z -> WireResponse -> Result WireResponse;
  status_of : WireResponse -> Z;
  insert_field : bytes -> bytes -> WireResponse -> Result WireResponse;
  keep_alive : bool -> WireResponse -> WireResponse;
  prepare_payload : WireResponse -> Result WireResponse;
  content_length : Z -> WireResponse -> WireResponse
}.

Definition calling {E A} (r : Result A) : M E A := fun w => (w, r).

Definition new_wire (body : option bytes) : WireResponse := mkWireResponse 200 11 [] body.

Definition IsFramingHeader (name : bytes) : bool :=
  HeaderNameEquals name (lit "content-length") || HeaderNameEquals name (lit "transfer-encoding")
  || HeaderNameEquals name (lit "connection").

Definition ToSmithyRequest (wire : WireRequest) : HttpRequest :=
  mkRequest (wire_method wire) (wire_target wire)
    (fold_left (fun headers field => Headers.Add (fst field) (snd field) headers) (wire_fields wire) [])
    (wire_body wire) [].

Section Wire.
Context `{Messages} {E : Type}.

(** The fields for which [skip] is false, in order. *)
Fixpoint insert_fields (skip : bytes -> bool) (entries : list (bytes * bytes)) (wire : WireResponse)
    : M E WireResponse :=
  match entries with
  | [] => mret wire
  | (name, value) :: entries =>
    if skip name then insert_fields skip entries wire
    else wire ← calling (insert_field name value wire); insert_fields skip entries wire
  end.

Definition with_body (body : option bytes) (wire : WireResponse) : WireResponse :=
  mkWireResponse (wr_status wire) (wr_version wire) (wr_fields wire) body.

Definition ToWireResponse (response : HttpResponse) (alive : bool) : M E WireResponse :=
  wire ← calling (result (rs_status response) (new_wire (Some [])));
  wire ← insert_fields IsFramingHeader (rs_headers response) wire;
  calling (prepare_payload (keep_alive alive (with_body (Some (rs_body response)) wire))).

Definition is_content_length (name : bytes) : bool := HeaderNameEquals name (lit "content-length").

Definition ToHeadWireResponse (full : WireResponse) (alive : bool) : M E WireResponse :=
  wire ← calling (result (status_of full) (new_wire None));
  wire ← insert_fields is_content_length (wr_fields full)
           (mkWireResponse (wr_status wire) (wr_version full) (wr_fields wire) None);
  let wire := keep_alive alive wire in
  mret (if existsb (fun field => is_content_length (fst field)) (wr_fields full)
        then content_length (len (default [] (wr_body full))) wire else wire).

(** The answer to a response whose headers are not safe to write. *)
Definition forbidden_bytes_response : HttpResponse :=
  mkResponse 500 (Set_ (lit "content-type") (lit "text/plain") [])
    (lit "internal error: response header contains forbidden bytes") [].

Definition checked_response (response : HttpResponse) : HttpResponse :=
  match FindUnsafeHeader (rs_headers response) with
  | Some _ => forbidden_bytes_response
  | None => response
  end.

(** The message [Respond] gives to [WriteWire]. *)
Definition respond_message (response : HttpResponse) (alive head : bool) : M E WireResponse :=
  full ← ToWireResponse (checked_response response) alive;
  if head then ToHeadWireResponse full alive else mret full.

(** The answer [RejectOverLimit] writes; it sets its one field in a message
    that has none of that name. *)
Definition over_limit_text (status : Z) : bytes :=
  if status =? 413 then lit "request body exceeds the server's limit"
  else lit "request headers exceed the server's limit".

Definition rejection_message (status : Z) : M E WireResponse :=
  wire ← calling (result status (new_wire (Some [])));
  wire ← calling (insert_field (lit "content-type") (lit "text/plain") (keep_alive false wire));
  calling (prepare_payload (with_body (Some (over_limit_text status)) wire)).

End Wire.

(** Whether an upgrade request offers the JSON-frames subprotocol. *)
Definition OffersJsonFrames (request : HttpRequest) : bool :=
  existsb (fun value => existsb (fun token => bytes_eqb token (lit "smithy.eventstream.v1+json"))
                          (SplitHeaderListValues value))
    (GetAll (lit "sec-websocket-protocol") (rq_headers request)).

(** [SelectHttp11Alpn]: the slice of the offer it selects, or the alert. *)
Fixpoint alpn_loop (fuel : nat) (i : nat) (offer : bytes) : option (nat * bytes) :=
  match fuel with
  | O => None
  | S fuel =>
    match drop i offer with
    | [] => None
    | n :: rest =>
      let length := Z.to_nat (b2z n) in
      if (List.length rest <? length)%nat then None
      else if bytes_eqb (take length rest) (lit "http/1.1") then Some (S i, take length rest)
      else alpn_loop fuel (i + 1 + length) offer
    end
  end.

Definition SelectHttp11Alpn (offer : bytes) : option (nat * bytes) :=
  alpn_loop (S (List.length offer)) 0 offer.

(** ** What the messages promise *)

Definition held (fits : bytes -> bytes -> bool) (wire : WireResponse) : Prop :=
  Forall (fun e => fits (fst e) (snd e) = true) (wr_fields wire).

(** The fields that say where a message ends, and with those the field that says
    whether another one follows on the connection (RFC 9112). *)
Definition says_length (name : bytes) : bool :=
  bool_decide (lower name ∈ [lit "content-length"; lit "transfer-encoding"]).
Definition transport_owned (name : bytes) : bool :=
  bool_decide (lower name ∈ [lit "content-length"; lit "transfer-encoding"; lit "connection"]).

(** The values of Connection that say so in HTTP/1.1. *)
Definition connection_values (alive : bool) : list bytes := if alive then [] else [lit "close"].

(** The documented behaviour of [bhttp::message]: [known] is the list of named
    status codes, [fits] what a field can hold, [allows_payload] the statuses
    [prepare_payload] accepts with a body. *)
Class MessageLaws `{Messages} := {
  known : Z -> bool;
  fits : bytes -> bytes -> bool;
  allows_payload : Z -> bool;
  result_in_range v wire : 0 <= v <= 999 ->
    result v wire = Ret (mkWireResponse v (wr_version wire) (wr_fields wire) (wr_body wire));
  result_out_of_range v wire : ~ 0 <= v <= 999 -> exists what, result v wire = Throw what;
  status_of_known wire : status_of wire = if known (wr_status wire) then wr_status wire else 0;
  insert_fits name value wire : fits name value = true -> exists wire', insert_field name value wire = Ret wire';
  insert_law name value wire wire' : insert_field name value wire = Ret wire' ->
    wr_status wire' = wr_status wire /\ wr_version wire' = wr_version wire /\ wr_body wire' = wr_body wire
    /\ (held fits wire -> held fits wire')
    /\ forall n, GetAll n (wr_fields wire')
                = GetAll n (wr_fields wire) ++ if HeaderNameEquals name n then [value] else [];
  keep_alive_law alive wire :
    wr_status (keep_alive alive wire) = wr_status wire /\ wr_version (keep_alive alive wire) = wr_version wire
    /\ wr_body (keep_alive alive wire) = wr_body wire
    /\ (held fits wire -> held fits (keep_alive alive wire))
    /\ (wr_version wire = 11 -> GetAll (lit "connection") (wr_fields wire) ∈ [[]; [lit "close"]] ->
        GetAll (lit "connection") (wr_fields (keep_alive alive wire)) = connection_values alive)
    /\ forall n, HeaderNameEquals n (lit "connection") = false ->
               GetAll n (wr_fields (keep_alive alive wire)) = GetAll n (wr_fields wire);
  prepare_allowed wire : wr_body wire = Some [] \/ allows_payload (wr_status wire) = true ->
    exists wire', prepare_payload wire = Ret wire';
  prepare_law wire wire' b : prepare_payload wire = Ret wire' -> wr_body wire = Some b ->
    GetAll (lit "transfer-encoding") (wr_fields wire) = [] ->
    wr_status wire' = wr_status wire /\ wr_version wire' = wr_version wire /\ wr_body wire' = Some b
    /\ (held fits wire -> held fits wire')
    /\ (GetAll (lit "content-length") (wr_fields wire') = [to_string (len b)]
        \/ GetAll (lit "content-length") (wr_fields wire') = [] /\ b = [])
    /\ GetAll (lit "transfer-encoding") (wr_fields wire') = []
    /\ forall n, says_length n = false -> GetAll n (wr_fields wire') = GetAll n (wr_fields wire);
  content_length_law size wire : GetAll (lit "transfer-encoding") (wr_fields wire) = [] ->
    wr_status (content_length size wire) = wr_status wire /\ wr_body (content_length size wire) = wr_body wire
    /\ GetAll (lit "content-length") (wr_fields (content_length size wire)) = [to_string size]
    /\ GetAll (lit "transfer-encoding") (wr_fields (content_length size wire)) = []
    /\ forall n, says_length n = false ->
               GetAll n (wr_fields (content_length size wire)) = GetAll n (wr_fields wire)
}.

Section Framing.
Context `{HL : MessageLaws} {E : Type}.

Notation IO := (M E).

Definition by_name (skip : bytes -> bool) : Prop := forall a b, HeaderNameEquals a b = true -> skip a = skip b.

Lemma names_equal a b c : HeaderNameEquals a b = true -> HeaderNameEquals a c = HeaderNameEquals b c.
Proof. rewrite HeaderNameEquals_iff. intros Hab. apply eq_true_iff_eq. rewrite !HeaderNameEquals_iff. by rewrite Hab. Qed.

Lemma GetAll_same a b h : HeaderNameEquals a b = true -> GetAll a h = GetAll b h.
Proof.
  intros Hab. induction h as [|[n v] h IH]; [done|]. rewrite !GetAll_cons, IH.
  rewrite HeaderNameEquals_iff in Hab.
  assert (HeaderNameEquals n a = HeaderNameEquals n b) as ->; [|done].
  apply eq_true_iff_eq. rewrite !HeaderNameEquals_iff. by rewrite Hab.
Qed.

Lemma framing_by_name : by_name IsFramingHeader.
Proof. intros a b Hab. unfold IsFramingHeader. by rewrite !(names_equal a b). Qed.

Lemma framing_owned name : IsFramingHeader name = transport_owned name.
Proof.
  unfold IsFramingHeader, transport_owned. apply eq_true_iff_eq.
  rewrite !orb_true_iff, !HeaderNameEquals_iff, bool_decide_eq_true, !elem_of_cons, elem_of_nil.
  change (lower (lit "content-length")) with (lit "content-length").
  change (lower (lit "transfer-encoding")) with (lit "transfer-encoding").
  change (lower (lit "connection")) with (lit "connection"). tauto.
Qed.

Lemma owned_cases name : transport_owned name = says_length name || HeaderNameEquals name (lit "connection").
Proof.
  unfold transport_owned, says_length. apply eq_true_iff_eq.
  rewrite orb_true_iff, HeaderNameEquals_iff, !bool_decide_eq_true, !elem_of_cons, elem_of_nil.
  change (lower (lit "connection")) with (lit "connection"). tauto.
Qed.

Lemma length_cases name :
  says_length name = HeaderNameEquals name (lit "content-length") || HeaderNameEquals name (lit "transfer-encoding").
Proof.
  unfold says_length. apply eq_true_iff_eq.
  rewrite orb_true_iff, !HeaderNameEquals_iff, bool_decide_eq_true, !elem_of_cons, elem_of_nil.
  change (lower (lit "content-length")) with (lit "content-length").
  change (lower (lit "transfer-encoding")) with (lit "transfer-encoding"). tauto.
Qed.

Lemma content_length_by_name : by_name is_content_length.
Proof. intros a b Hab. unfold is_content_length. by rewrite (names_equal a b). Qed.

Lemma insert_fields_spec skip entries wire (w : World E) : by_name skip ->
  exists r, insert_fields skip entries wire w = (w, r)
  /\ (Forall (fun e => skip (fst e) = false -> fits (fst e) (snd e) = true) entries -> exists wire', r = Ret wire')
  /\ forall wire', r = Ret wire' ->
     wr_status wire' = wr_status wire /\ wr_version wire' = wr_version wire /\ wr_body wire' = wr_body wire
     /\ (held fits wire -> held fits wire')
     /\ forall n, GetAll n (wr_fields wire')
                = GetAll n (wr_fields wire) ++ if skip n then [] else GetAll n entries.
Proof.
  intros Hs. revert wire. induction entries as [|[name value] entries IH]; intros wire; cbn [insert_fields].
  { exists (Ret wire). split; [done|]. split; [eauto|]. intros wire' [= <-].
    split_and!; [done..|]. intros n. by destruct (skip n); rewrite app_nil_r. }
  destruct (skip name) eqn:Ek.
  { destruct (IH wire) as (r & Er & Hr & Hf). exists r. split; [done|]. split.
    - intros Ha. apply Hr. by inversion Ha.
    - intros wire' Ew. destruct (Hf wire' Ew) as (? & ? & ? & ? & Hg). split_and!; [done..|].
      intros n. rewrite Hg, GetAll_cons. destruct (HeaderNameEquals name n) eqn:En; [|done].
      by rewrite <- (Hs name n En), Ek. }
  cbv [mbind M_bind calling]. destruct (insert_field name value wire) as [wire1|what] eqn:Ei.
  - destruct (IH wire1) as (r & Er & Hr & Hf). exists r. split; [done|]. split.
    + intros Ha. apply Hr. by inversion Ha.
    + intros wire' Ew. destruct (Hf wire' Ew) as (? & ? & ? & ? & Hg).
      destruct (insert_law _ _ _ _ Ei) as (? & ? & ? & ? & Hi). split_and!; [congruence..|auto|].
      intros n. rewrite Hg, Hi, GetAll_cons, <- app_assoc. f_equal.
      destruct (HeaderNameEquals name n) eqn:En; [|done]. by rewrite <- (Hs name n En), Ek.
  - exists (Throw what). split; [done|]. split; [|done].
    intros Ha. apply Forall_cons_1 in Ha as [Hh _]. destruct (insert_fits name value wire (Hh Ek)) as [? ?]. congruence.
Qed.

(** What goes out for a response whose headers are safe, before the choice of
    HEAD: HTTP/1.1, the transport's own framing fields, one value each, and the
    handler's other fields. *)
Definition framed (alive : bool) (status : Z) (h : Headers) (b : bytes) (wire : WireResponse) : Prop :=
  0 <= status <= 999 /\ wr_status wire = status /\ wr_version wire = 11
  /\ wr_body wire = Some b /\ held fits wire
  /\ (GetAll (lit "content-length") (wr_fields wire) = [to_string (len b)]
      \/ GetAll (lit "content-length") (wr_fields wire) = [] /\ b = [])
  /\ GetAll (lit "transfer-encoding") (wr_fields wire) = []
  /\ GetAll (lit "connection") (wr_fields wire) = connection_values alive
  /\ forall n, transport_owned n = false -> GetAll n (wr_fields wire) = GetAll n h.

Definition answerable (rs : HttpResponse) : Prop :=
  0 <= rs_status rs <= 999
  /\ Forall (fun e => transport_owned (fst e) = false -> fits (fst e) (snd e) = true) (rs_headers rs)
  /\ (rs_body rs = [] \/ allows_payload (rs_status rs) = true).

Lemma ToWireResponse_spec rs alive (w : World E) :
  exists r, ToWireResponse rs alive w = (w, r)
  /\ (answerable rs -> exists wire, r = Ret wire)
  /\ forall wire, r = Ret wire -> framed alive (rs_status rs) (rs_headers rs) (rs_body rs) wire.
Proof.
  unfold ToWireResponse, answerable. cbv [mbind M_bind calling].
  destruct (decide (0 <= rs_status rs <= 999)) as [Hr|Hr].
  2: { destruct (result_out_of_range (rs_status rs) (new_wire (Some [])) Hr) as [what ->].
       exists (Throw what). split; [done|]. split; [by intros [? _]|done]. }
  rewrite result_in_range by done. cbn.
  match goal with |- context [insert_fields _ _ ?x w] =>
    destruct (insert_fields_spec IsFramingHeader (rs_headers rs) x w framing_by_name) as (r & -> & Hr1 & Hf) end.
  destruct r as [wire|what]; [|exists (Throw what); split; [done|]; split; [|done];
    intros (_ & Ha & _); destruct Hr1; [|congruence]; eapply Forall_impl; [exact Ha|];
    intros e He; by rewrite framing_owned].
  destruct (Hf wire eq_refl) as (Es & Ev & Eb & Hh & Hg). cbn in Es, Ev, Eb, Hg.
  set (wire1 := keep_alive alive (with_body (Some (rs_body rs)) wire)).
  destruct (keep_alive_law alive (with_body (Some (rs_body rs)) wire)) as (Es1 & Ev1 & Eb1 & Hh1 & Hc1 & Hg1).
  fold wire1 in Es1, Ev1, Eb1, Hc1, Hg1. cbn [with_body wr_status wr_version wr_body wr_fields] in Es1, Ev1, Eb1, Hc1, Hg1.
  exists (prepare_payload wire1). split; [done|]. split.
  - intros (_ & _ & Hp). apply prepare_allowed. rewrite Eb1, Es1, Es. destruct Hp as [->|]; auto.
  - intros full Ef. destruct (prepare_law wire1 full (rs_body rs) Ef Eb1) as (Es2 & Ev2 & Eb2 & Hh2 & Hc & Ht & Hn).
    { by rewrite Hg1, Hg. }
    split_and!; [lia|lia|congruence|lia|done|by apply Hh2, Hh1, Hh; constructor|done|done| |].
    + rewrite Hn by done. apply Hc1; [lia|]. rewrite Hg. by left.
    + intros n En. pose proof En as Ef'. rewrite <- framing_owned in Ef'.
      rewrite owned_cases, orb_false_iff in En. destruct En as [En Ec].
      by rewrite Hn, Hg1, Hg, Ef'.
Qed.

Lemma existsb_content_length fields :
  existsb (fun field => is_content_length (fst field)) fields
  = negb (bool_decide (GetAll (lit "content-length") fields = [])).
Proof.
  induction fields as [|[n v] fields IH]; [done|]. cbn [existsb fst]. rewrite GetAll_cons, IH.
  unfold is_content_length. by destruct (HeaderNameEquals n _).
Qed.

(** The HEAD answer made from it. *)
Definition headed (full wire : WireResponse) : Prop :=
  wr_status wire = status_of full /\ wr_body wire = None
  /\ forall n, GetAll n (wr_fields wire) = GetAll n (wr_fields full).

Lemma ToHeadWireResponse_spec status h b full alive (w : World E) : framed alive status h b full ->
  exists wire, ToHeadWireResponse full alive w = (w, Ret wire) /\ headed full wire.
Proof.
  intros (Hr & Es & Ev & Eb & Hh & Hc & Ht & Hk & Hn). unfold ToHeadWireResponse. cbv [mbind M_bind calling].
  rewrite result_in_range by (rewrite status_of_known, Es; destruct (known _); lia). cbn [wr_status wr_fields new_wire].
  match goal with |- context [insert_fields _ _ ?x w] =>
    destruct (insert_fields_spec is_content_length (wr_fields full) x w content_length_by_name) as (r & -> & Hr1 & Hf) end.
  destruct Hr1 as [wire ->]. { eapply Forall_impl; [exact Hh|]. by intros e He _. }
  destruct (Hf wire eq_refl) as (Es1 & Ev1 & Eb1 & _ & Hg).
  cbn [wr_status wr_version wr_body wr_fields] in Es1, Ev1, Eb1, Hg.
  destruct (keep_alive_law alive wire) as (Es2 & _ & Eb2 & _ & Hk2 & Hg2).
  assert (Hsame : forall n, is_content_length n = false ->
          GetAll n (wr_fields (keep_alive alive wire)) = GetAll n (wr_fields full)).
  { intros n Hcl. destruct (HeaderNameEquals n (lit "connection")) eqn:Ec; [|by rewrite Hg2, Hg, Hcl].
    rewrite !(GetAll_same n (lit "connection")) by done. rewrite Hk. apply Hk2; [congruence|].
    rewrite Hg. change (is_content_length (lit "connection")) with false. cbn [GetAll fmap app]. rewrite Hk.
    destruct alive; [left|right; left]. }
  cbv [mret M_ret]. eexists. split; [done|]. rewrite existsb_content_length, Eb. cbv [default id from_option].
  destruct Hc as [Hc|[Hc ->]]; rewrite Hc; cbn [bool_decide negb].
  - rewrite bool_decide_false by done. cbn [negb].
    destruct (content_length_law (len b) (keep_alive alive wire)) as (E1 & E2 & E3 & E4 & E5).
    { by rewrite Hsame. }
    split_and!; [congruence..|]. intros n. destruct (says_length n) eqn:Ef.
    + rewrite length_cases in Ef. apply orb_true_iff in Ef as [Ef|Ef].
      * by rewrite !(GetAll_same n (lit "content-length")), E3, Hc.
      * by rewrite !(GetAll_same n (lit "transfer-encoding")), E4, Ht.
    + rewrite E5 by done. apply Hsame. rewrite length_cases in Ef. by apply orb_false_iff in Ef as [Ef _].
  - rewrite bool_decide_true by done. cbn [negb].
    split_and!; [congruence..|]. intros n. destruct (is_content_length n) eqn:Ecl; [|by apply Hsame].
    unfold is_content_length in Ecl. rewrite !(GetAll_same n (lit "content-length")) by done.
    rewrite Hc, Hg2, Hg by done. done.
Qed.

Lemma checked_response_safe rs : FindUnsafeHeader (rs_headers (checked_response rs)) = None.
Proof. unfold checked_response. by destruct (FindUnsafeHeader (rs_headers rs)) eqn:Eu. Qed.

Lemma respond_message_spec response alive hd (w : World E) :
  let rs := checked_response response in
  exists r, respond_message response alive hd w = (w, r)
  /\ (answerable rs -> exists wire, r = Ret wire)
  /\ forall wire, r = Ret wire ->
     exists full, framed alive (rs_status rs) (rs_headers rs) (rs_body rs) full
     /\ if hd then headed full wire else wire = full.
Proof.
  cbn zeta. unfold respond_message. cbv [mbind M_bind].
  destruct (ToWireResponse_spec (checked_response response) alive w) as (r & -> & Hr & Hf).
  destruct r as [full|what]; [|exists (Throw what); split; [done|]; split; [|done]; intros Ha; destruct (Hr Ha); congruence].
  specialize (Hf full eq_refl). destruct hd.
  - destruct (ToHeadWireResponse_spec _ _ _ full alive w Hf) as (wire & -> & Hw).
    exists (Ret wire). split_and!; [done|eauto|]. intros ? [= <-]. eauto.
  - exists (Ret full). split_and!; [done|eauto|]. intros ? [= <-]. eauto.
Qed.

(** C16: the answers of the socket.  A handler's response goes out
    with its own headers unless one of them holds bytes that could start another
    header or response, when a fixed 500 replaces it whole; the framing fields are
    the transport's alone, whatever the handler put there: one Content-Length,
    that of the body (none only where there is no body), no Transfer-Encoding, and
    Connection: close exactly when the connection is not kept alive; a HEAD request
    gets every field the GET would have sent, the framing included, and no body.
    It does go out where the library can hold it. *)
Theorem respond_framed response alive hd (w : World E) :
  let rs := checked_response response in
  FindUnsafeHeader (rs_headers rs) = None
  /\ exists r, respond_message response alive hd w = (w, r)
  /\ (answerable rs -> exists wire, r = Ret wire)
  /\ forall wire, r = Ret wire ->
     exists full, framed alive (rs_status rs) (rs_headers rs) (rs_body rs) full
     /\ if hd then headed full wire else wire = full.
Proof.
  split; [apply checked_response_safe|apply respond_message_spec].
Qed.

End Framing.

(** Messages as their documentation describes them, with no limit on fields. *)
#[global] Instance plain_messages : Messages := {|
  result v wire := if (0 <=? v) && (v <=? 999)
                   then Ret (mkWireResponse v (wr_version wire) (wr_fields wire) (wr_body wire))
                   else Throw (Some (lit "invalid status-code"));
  status_of wire := if bool_decide (wr_status wire ∈ [200; 404; 413; 431; 500]) then wr_status wire else 0;
  insert_field name value wire :=
    Ret (mkWireResponse (wr_status wire) (wr_version wire) (Headers.Add name value (wr_fields wire)) (wr_body wire));
  keep_alive alive wire :=
    mkWireResponse (wr_status wire) (wr_version wire)
      (if alive then Remove (lit "connection") (wr_fields wire)
       else Set_ (lit "connection") (lit "close") (wr_fields wire)) (wr_body wire);
  prepare_payload wire :=
    Ret (mkWireResponse (wr_status wire) (wr_version wire)
           (Set_ (lit "content-length") (to_string (len (default [] (wr_body wire)))) (wr_fields wire)) (wr_body wire));
  content_length size wire :=
    mkWireResponse (wr_status wire) (wr_version wire)
      (Set_ (lit "content-length") (to_string size) (wr_fields wire)) (wr_body wire)
|}.

Lemma other_than n : says_length n = false -> HeaderNameEquals (lit "content-length") n = false.
Proof.
  rewrite length_cases, orb_false_iff. intros [En _]. apply not_true_is_false. rewrite HeaderNameEquals_iff.
  intros Hl. apply not_true_iff_false in En. by rewrite HeaderNameEquals_iff in En.
Qed.

Lemma held_all wire : held (fun _ _ => true) wire.
Proof. by apply Forall_forall. Qed.

#[global] Instance plain_messages_laws : MessageLaws.
Proof.
  refine {| known v := bool_decide (v ∈ [200; 404; 413; 431; 500]); fits _ _ := true; allows_payload _ := true |}.
  - intros v wire Hv. cbn. rewrite (proj2 (Z.leb_le _ _)), (proj2 (Z.leb_le _ _)) by lia. done.
  - intros v wire Hv. cbn. destruct (Z.leb_spec 0 v), (Z.leb_spec v 999); cbn; eauto; lia.
  - done.
  - intros name value wire _. eexists. reflexivity.
  - intros name value wire wire' [= <-]. cbn [wr_status wr_version wr_body wr_fields].
    split_and!; [done..|intros _; apply held_all|]. intros n. unfold Headers.Add. by rewrite GetAll_app, GetAll_cons.
  - intros alive wire. cbn [keep_alive plain_messages wr_status wr_version wr_body wr_fields].
    split_and!; [done..|intros _; apply held_all| |].
    { intros _ _. by destruct alive; rewrite ?GetAll_Remove, ?GetAll_Set. }
    intros n En. assert (HeaderNameEquals (lit "connection") n = false) as Ec.
    { apply not_true_is_false. rewrite HeaderNameEquals_iff. intros Hl.
      by rewrite (proj2 (HeaderNameEquals_iff n (lit "connection"))) in En. }
    destruct alive; [by rewrite GetAll_Remove, Ec|by rewrite GetAll_Set, Ec].
  - intros wire _. eexists. reflexivity.
  - intros wire wire' b [= <-] Eb Ht. cbn [wr_status wr_version wr_body wr_fields].
    split_and!; [done..|intros _; apply held_all|left; rewrite GetAll_Set, Eb; done|by rewrite GetAll_Set|].
    intros n En. by rewrite GetAll_Set, other_than.
  - intros size wire Ht. cbn [content_length plain_messages wr_status wr_body wr_fields].
    split_and!; [done..|by rewrite GetAll_Set|by rewrite GetAll_Set|].
    intros n En. by rewrite GetAll_Set, other_than.
Defined.

Definition greeting : HttpResponse :=
  mkResponse 200 [(lit "Content-Length", lit "999"); (lit "x-name", lit "v"); (lit "Connection", lit "close")]
    (lit "hello") [].

Lemma respond_framed_witness :
  exists full wire, respond_message greeting true true (mkWorld [] tt) = (mkWorld [] tt, Ret wire)
  /\ framed true 200 (rs_headers greeting) (lit "hello") full /\ headed full wire
  /\ wr_fields wire = [(lit "x-name", lit "v"); (lit "content-length", lit "5")].
Proof.
  destruct (respond_framed greeting true true (mkWorld [] tt)) as (_ & r & Er & Ha & Hf).
  destruct Ha as [wire ->].
  { split; [by vm_compute|]. split; [by apply Forall_forall; intros|by right]. }
  destruct (Hf wire eq_refl) as (full & Hfull & Hw). exists full, wire.
  split; [exact Er|]. split; [exact Hfull|]. split; [exact Hw|].
  revert Er. vm_compute. by intros [= <-].
Defined.

(** The same response on a connection that is to end. *)
Example greeting_closing :
  exists wire, respond_message greeting false false (mkWorld [] tt) = (mkWorld [] tt, Ret wire)
  /\ wr_fields wire = [(lit "x-name", lit "v"); (lit "connection", lit "close"); (lit "content-length", lit "5")].
Proof. eexists. split; vm_compute; reflexivity. Qed.

(** A status that Beast has no name for is lost by a HEAD answer. *)
Example head_loses_status :
  let rs := mkResponse 299 [] [] [] in
  (exists wire, respond_message rs true false (mkWorld [] tt) = (mkWorld [] tt, Ret wire) /\ wr_status wire = 299)
  /\ exists wire, respond_message rs true true (mkWorld [] tt) = (mkWorld [] tt, Ret wire) /\ wr_status wire = 0.
Proof. cbn zeta. split; eexists; split; vm_compute; reflexivity. Qed.

(** ** The ALPN choice *)

(** The offer of a list of protocol names. *)
Definition offer_of (protocols : list bytes) : bytes :=
  flat_map (fun name => z2b (len name) :: name) protocols.

Lemma alpn_loop_spec fuel pre protocols :
  Forall (fun name => len name < 256) protocols -> (length protocols < fuel)%nat ->
  match alpn_loop fuel (length pre) (pre ++ offer_of protocols) with
  | Some (i, name) => name = lit "http/1.1" /\ name ∈ protocols
                      /\ take (length name) (drop i (pre ++ offer_of protocols)) = name
  | None => lit "http/1.1" ∉ protocols
  end.
Proof.
  intros Hp. revert pre fuel. induction Hp as [|name protocols Hn Hp IH]; intros pre fuel Hf;
    (destruct fuel as [|fuel]; [cbn in Hf; lia|]); cbn [alpn_loop]; rewrite drop_app_length.
  { cbn. by apply not_elem_of_nil. }
  cbn [offer_of flat_map app]. fold (offer_of protocols).
  rewrite b2z_z2b_small by (unfold len in *; lia). unfold len. rewrite Nat2Z.id.
  rewrite (proj2 (Nat.ltb_ge _ _)) by (rewrite length_app; lia). rewrite take_app_length.
  destruct (bytes_eqb name (lit "http/1.1")) eqn:En.
  - apply bytes_eqb_eq in En. split_and!; [done|by left|].
    change (S (length pre)) with (1 + length pre)%nat. rewrite Nat.add_comm, <- drop_drop, drop_app_length.
    cbn [drop]. apply take_app_length.
  - specialize (IH (pre ++ z2b (len name) :: name) fuel ltac:(cbn in Hf; lia)).
    rewrite <- app_assoc in IH. cbn [app] in IH. rewrite length_app in IH. cbn [length] in IH.
    replace (length pre + 1 + length name)%nat with (length pre + S (length name))%nat by lia.
    unfold len in IH. destruct (alpn_loop _ _ _) as [[i found]|].
    + destruct IH as (? & ? & ?). split_and!; [done|by right|done].
    + intros [Eq|Hin]%elem_of_cons; [|done]. rewrite <- Eq in En. by apply not_true_iff_false in En as []; apply bytes_eqb_eq.
Qed.

(** The server selects [http/1.1] exactly when it is offered, as a slice of the
    offer. *)
Lemma SelectHttp11Alpn_spec protocols : Forall (fun name => len name < 256) protocols ->
  match SelectHttp11Alpn (offer_of protocols) with
  | Some (i, name) => name = lit "http/1.1" /\ name ∈ protocols
                      /\ take (length name) (drop i (offer_of protocols)) = name
  | None => lit "http/1.1" ∉ protocols
  end.
Proof.
  intros Hp. apply (alpn_loop_spec _ [] protocols Hp).
  enough (length protocols <= length (offer_of protocols))%nat by lia.
  clear Hp. induction protocols as [|name protocols IH]; [done|].
  unfold offer_of in *. cbn [flat_map length app]. rewrite length_app. lia.
Qed.
