(* ===== verification/BeastServer.v ===== *)
(** http/beast_transport.cc, the server: [BeastServerTransport] as a machine
    whose actions are the completions that Boost.Asio runs, over the accept
    loop, the connections, the handler pool, the live WebSocket sessions and
    [Stop].  An action is one completion handler, or the part of one up to its
    next read of state that other threads write. *)
From Stdlib Require Import ZArith Lia Strings.Byte.
From S2P Require Import Prelude Bytes Uri Headers Forwarded Http1 Effects Retry Middleware ServerDispatch BeastClient WsSession BeastWire.

Local Open Scope Z_scope.

(** ** Data *)

(** A connection is known by its place in the order of acceptance. *)
Definition ConnectionId : Type := nat.

Definition Labels : Type := list (bytes * bytes).

Record RejectedRequest := mkRejected {
  rej_status : Z;
  rej_peer_address : bytes;
  rej_method : bytes;
  rej_target : bytes;
  rej_labels : Labels
}.

Inductive EventKind := kTlsHandshakeFailure | kFramingError | kReadTimeout | kDropped | kUpgradeFailure.

Record ConnectionEvent := mkEvent {
  ev_kind : EventKind;
  ev_peer_address : bytes;
  ev_detail : bytes;
  ev_elapsed : Z
}.

(** A [boost::system::error_code], told apart as far as the server does. *)
Inductive error_kind :=
| end_of_stream
| stream_truncated
| eof
| timeout
| partial_message
| body_limit
| header_limit
| http_category
| other_category.

Record wire_error := mkError { ec_kind : error_kind; ec_message : bytes }.

(** What the parser of a read holds: the request so far, [keep_alive()],
    [is_upgrade], [got_some()]. *)
Record Parser := mkParser {
  ps_message : WireRequest;
  ps_keep_alive : bool;
  ps_upgrade : bool;
  ps_got_some : bool
}.

Record PhaseStart := mkPhaseStart { ph_peer : bytes; ph_at : Z }.

(** [BeastServerTransport::Options]. *)
Record ServerOptions (E : Type) := mkServerOptions {
  so_address : bytes;
  so_port : Z;
  so_handler_threads : Z;
  so_max_connections : Z;
  so_on_rejected : option (RejectedRequest -> M E unit);
  so_on_connection_event : option (ConnectionEvent -> M E unit);
  so_websocket_gate : option (HttpRequest -> M E (option HttpResponse));
  so_on_websocket : option (HttpRequest -> ConnectionId -> M E unit);
  so_on_websocket_session : option (HttpRequest -> ConnectionId -> M E unit);
  so_websocket_accept_json_frames : bool;
  so_websocket_raw_text_frames : bool;
  so_tls_certificate_chain_pem : bytes;
  so_tls_private_key_pem : bytes;
  so_label_rejection : option (Headers -> M E Labels)
}.
Arguments so_address {E} _.
Arguments so_port {E} _.
Arguments so_handler_threads {E} _.
Arguments so_max_connections {E} _.
Arguments so_on_rejected {E} _.
Arguments so_on_connection_event {E} _.
Arguments so_websocket_gate {E} _.
Arguments so_on_websocket {E} _.
Arguments so_on_websocket_session {E} _.
Arguments so_websocket_accept_json_frames {E} _.
Arguments so_websocket_raw_text_frames {E} _.
Arguments so_tls_certificate_chain_pem {E} _.
Arguments so_tls_private_key_pem {E} _.
Arguments so_label_rejection {E} _.

(** The operations of the system and of the libraries; an error is its
    message. *)
Record Asio (E : Type) := mkAsio {
  remote_endpoint : ConnectionId -> E -> E * option (option (bytes * bytes) * Family);
  steady_now : E -> E * Z;
  use_certificate_chain : bytes -> M E (option bytes);
  use_private_key : bytes -> M E (option bytes);
  tls_posture : M E bool;
  make_address : bytes -> bool;
  listen : bytes -> Z -> M E (option bytes)
}.
Arguments remote_endpoint {E} _ _.
Arguments steady_now {E} _.
Arguments use_certificate_chain {E} _ _.
Arguments use_private_key {E} _ _.
Arguments tls_posture {E} _.
Arguments make_address {E} _ _.
Arguments listen {E} _ _ _.

(** Where a connection is: the operation outstanding on it, or the task of it
    that a queue holds.  [Admitting] and [Settling] are inside a handler, after
    the change of the count of pending responses. *)
Inductive Phase :=
| Handshaking (start : PhaseStart)
| Reading (start : PhaseStart)
| Admitting
| ToHandler (request : HttpRequest) (alive : bool)
| ToRespond (response : HttpResponse) (alive : bool) (peer : bytes) (head : bool)
| Writing (wire : WireResponse) (alive : bool) (start : PhaseStart)
| Settling
| Rejecting (wire : WireResponse)
| Draining (budget : Z)
| ToGate (request : HttpRequest) (parser : Parser)
| ToUpgrade (request : HttpRequest) (parser : Parser) (refusal : option HttpResponse)
| ToRefuse (refusal : HttpResponse) (peer : bytes) (parser : Parser)
| Upgrading (request : HttpRequest) (mode : Wire) (start : PhaseStart)
| ToRegister (request : HttpRequest)
| Serving (request : HttpRequest)
| Streaming
| Gone.

(** The acceptor's strand: [accepting] is the outstanding [async_accept],
    [close_notices] counts the posted [OnSessionClosed] calls. *)
Record Acceptor := mkAcceptor {
  open_connections : Z;
  accept_paused : bool;
  accepting : bool;
  acceptor_open : bool;
  close_posted : bool;
  close_notices : nat
}.

(** The registry of live sessions; [aborts] lists the sessions aborted so far. *)
Record Sockets := mkSockets {
  websockets : list ConnectionId;
  websockets_aborted : bool;
  aborts : list ConnectionId
}.

(** Where [Shutdown] is. *)
Inductive Stage := Running | Drain | Sweep (live : list ConnectionId) | Halted.

(** [BeastServerTransport::State].  [leaked] and [observed] are records of the
    model: pending responses whose connection an exception took, and the
    connections reported to an observer. *)
Record Server (E : Type) := mkServer {
  acceptor : Acceptor;
  stopping : bool;
  active : Z;
  leaked : Z;
  sockets : Sockets;
  conns : list Phase;
  observed : list ConnectionId;
  stage : Stage;
  environment : E
}.
Arguments mkServer {E} _ _ _ _ _ _ _ _ _.
Arguments acceptor {E} _.
Arguments stopping {E} _.
Arguments active {E} _.
Arguments leaked {E} _.
Arguments sockets {E} _.
Arguments conns {E} _.
Arguments observed {E} _.
Arguments stage {E} _.
Arguments environment {E} _.

Section Operations.
Context {E : Type}.

Notation St := (Server E).

Definition with_acceptor (f : Acceptor -> Acceptor) (s : St) : St :=
  mkServer (f (acceptor s)) (stopping s) (active s) (leaked s) (sockets s) (conns s) (observed s) (stage s) (environment s).

Definition with_stopping (b : bool) (s : St) : St :=
  mkServer (acceptor s) b (active s) (leaked s) (sockets s) (conns s) (observed s) (stage s) (environment s).

Definition with_active (f : Z -> Z) (s : St) : St :=
  mkServer (acceptor s) (stopping s) (f (active s)) (leaked s) (sockets s) (conns s) (observed s) (stage s) (environment s).

Definition with_leaked (f : Z -> Z) (s : St) : St :=
  mkServer (acceptor s) (stopping s) (active s) (f (leaked s)) (sockets s) (conns s) (observed s) (stage s) (environment s).

Definition with_sockets (f : Sockets -> Sockets) (s : St) : St :=
  mkServer (acceptor s) (stopping s) (active s) (leaked s) (f (sockets s)) (conns s) (observed s) (stage s) (environment s).

Definition with_conns (f : list Phase -> list Phase) (s : St) : St :=
  mkServer (acceptor s) (stopping s) (active s) (leaked s) (sockets s) (f (conns s)) (observed s) (stage s) (environment s).

Definition with_observed (id : ConnectionId) (s : St) : St :=
  mkServer (acceptor s) (stopping s) (active s) (leaked s) (sockets s) (conns s) (observed s ++ [id]) (stage s) (environment s).

Definition with_stage (st : Stage) (s : St) : St :=
  mkServer (acceptor s) (stopping s) (active s) (leaked s) (sockets s) (conns s) (observed s) st (environment s).

Definition with_environment (e : E) (s : St) : St :=
  mkServer (acceptor s) (stopping s) (active s) (leaked s) (sockets s) (conns s) (observed s) (stage s) e.

Definition set_open (n : Z) (a : Acceptor) : Acceptor :=
  mkAcceptor n (accept_paused a) (accepting a) (acceptor_open a) (close_posted a) (close_notices a).

Definition set_paused (b : bool) (a : Acceptor) : Acceptor :=
  mkAcceptor (open_connections a) b (accepting a) (acceptor_open a) (close_posted a) (close_notices a).

Definition set_accepting (b : bool) (a : Acceptor) : Acceptor :=
  mkAcceptor (open_connections a) (accept_paused a) b (acceptor_open a) (close_posted a) (close_notices a).

Definition set_acceptor_open (b : bool) (a : Acceptor) : Acceptor :=
  mkAcceptor (open_connections a) (accept_paused a) (accepting a) b (close_posted a) (close_notices a).

Definition set_close_posted (b : bool) (a : Acceptor) : Acceptor :=
  mkAcceptor (open_connections a) (accept_paused a) (accepting a) (acceptor_open a) b (close_notices a).

Definition set_notices (n : nat) (a : Acceptor) : Acceptor :=
  mkAcceptor (open_connections a) (accept_paused a) (accepting a) (acceptor_open a) (close_posted a) n.

Definition gets {A} (f : St -> A) : M St A := fun w => (w, Ret (f (env w))).

Definition modify (f : St -> St) : M St unit := fun w => (mkWorld (clog w) (f (env w)), Ret tt).

(** A weak entry has expired once its connection is gone. *)
Definition expired (s : St) (id : ConnectionId) : bool :=
  match conns s !! id with Some Gone | None => true | _ => false end.

Definition live_sockets (s : St) : list ConnectionId :=
  filter (fun id => expired s id = false) (websockets (sockets s)).

Definition push_socket (id : ConnectionId) (s : St) : St :=
  with_sockets (fun k => mkSockets (live_sockets s ++ [id]) (websockets_aborted k) (aborts k)) s.

Definition sockets_closed (s : St) : bool := websockets_aborted (sockets s).

Definition counted (p : Phase) : bool :=
  match p with Admitting | ToHandler _ _ | ToRespond _ _ _ _ | Writing _ _ _ => true | _ => false end.

(** Whether a response of the connection is pending. *)
Definition pending (id : ConnectionId) (s : St) : bool :=
  match conns s !! id with Some p => counted p | None => false end.

(** Whether a closed connection resumes the accept loop. *)
Definition resumes (s : St) : bool := accept_paused (acceptor s) && negb (stopping s).

Definition next_id (s : St) : ConnectionId := length (conns s).

(** A call of a library or of the application, which leaves the server's own
    state alone. *)
Definition outer {A} (m : M E A) : M St A := fun w =>
  match m (mkWorld (clog w) (environment (env w))) with
  | (w', r) => (mkWorld (clog w') (with_environment (env w') (env w)), r)
  end.

(** A question to the system that cannot fail. *)
Definition asking {A} (f : E -> E * A) : M St A := fun w =>
  let '(e, a) := f (environment (env w)) in (mkWorld (clog w) (with_environment e (env w)), Ret a).

(** [std::clog] after a callback threw. *)
Definition threw {X} (what_threw : bytes) (what : option bytes) : M X unit :=
  Effects.log (lit "opal: " ++ what_threw
       ++ match what with Some what => lit " threw: " ++ what | None => lit " threw a non-std exception" end
       ++ ["010"%byte]).

Definition contained {X} (what_threw : bytes) (body : M X unit) : M X unit := Contain body (threw what_threw).

End Operations.

Section ServerSection.
Context {E : Type} `{Messages} (lib : Asio E) (opts : ServerOptions E) (handler : option (RequestHandler E)).

Notation St := (Server E).
Notation IO := (M (Server E)).

Definition serves : bool :=
  match so_on_websocket opts, so_on_websocket_session opts with None, None => false | _, _ => true end.

Definition serves_tls : bool := negb (bytes_eqb (so_tls_certificate_chain_pem opts) []).

Definition pooled : bool := 0 <? so_handler_threads opts.

(** ** Connections *)

Definition set_phase (id : ConnectionId) (p : Phase) : IO unit := modify (with_conns (insert id p)).

(** The last owner of the stream lets go: [~Session]. *)
Definition drop_connection (id : ConnectionId) : IO unit :=
  _ ← set_phase id Gone;
  modify (with_acceptor (fun a => set_notices (S (close_notices a)) a)).

Definition PeerAddressOf (id : ConnectionId) : IO bytes :=
  endpoint ← asking (remote_endpoint lib id);
  mret (match endpoint with Some (name, family) => FormatPeerAddress name family | None => [] end).

Definition start_phase (id : ConnectionId) : IO PhaseStart :=
  peer ← match so_on_connection_event opts with Some _ => PeerAddressOf id | None => mret [] end;
  at_ ← asking (steady_now lib);
  mret (mkPhaseStart peer at_).

(** ** Observation *)

Definition NotifyConnectionEvent (id : ConnectionId) (kind : EventKind) (ec : wire_error) (start : PhaseStart)
    : IO unit :=
  match so_on_connection_event opts with
  | None => mret tt
  | Some observer =>
    stopping ← gets (E:=E) stopping;
    if (stopping : bool) then mret tt
    else
      now ← asking (steady_now lib);
      _ ← modify (with_observed id);
      contained (lit "on_connection_event observer")
        (outer (observer (mkEvent kind (ph_peer start) (ec_message ec) (now - ph_at start))))
  end.

Definition rejection_labels (partial : WireRequest) : IO Labels :=
  match so_label_rejection opts with
  | None => mret []
  | Some label =>
    Contain (outer (label (rq_headers (ToSmithyRequest partial))))
      (fun what => _ ← threw (lit "label_rejection callback") what; mret [])
  end.

Definition NotifyRejected (id : ConnectionId) (partial : WireRequest) (status : Z) : IO unit :=
  match so_on_rejected opts with
  | None => mret tt
  | Some observer =>
    peer ← PeerAddressOf id;
    labels ← rejection_labels partial;
    _ ← modify (with_observed id);
    contained (lit "on_rejected observer")
      (outer (observer (mkRejected status peer (wire_method partial) (wire_target partial) labels)))
  end.

(** The event for a failed read of a request; none for the healthy ends. *)
Definition read_failure_event (ec : wire_error) (got_some : bool) : option EventKind :=
  match ec_kind ec with
  | end_of_stream => None
  | stream_truncated => if got_some then Some kDropped else None
  | timeout => if got_some then Some kReadTimeout else None
  | partial_message => Some kDropped
  | http_category | body_limit | header_limit => Some kFramingError
  | eof | other_category => Some kDropped
  end.

Definition NotifyReadFailure (id : ConnectionId) (ec : wire_error) (got_some : bool) (start : PhaseStart) : IO unit :=
  match read_failure_event ec got_some with
  | None => mret tt
  | Some kind => NotifyConnectionEvent id kind ec start
  end.

(** ** The wire *)

Definition kOverLimitDrainBudgetBytes : Z := 256 * 1024.

Definition ReadNext (id : ConnectionId) : IO unit :=
  start ← start_phase id; set_phase id (Reading start).

Definition RejectOverLimit (id : ConnectionId) (status : Z) : IO unit :=
  message ← rejection_message status; set_phase id (Rejecting message).

Definition DrainThenClose (id : ConnectionId) (budget : Z) : IO unit := set_phase id (Draining budget).

Definition WriteWire (id : ConnectionId) (wire : WireResponse) (alive : bool) (peer : bytes) : IO unit :=
  at_ ← asking (steady_now lib); set_phase id (Writing wire alive (mkPhaseStart peer at_)).

Definition Respond (id : ConnectionId) (response : HttpResponse) (alive : bool) (peer : bytes) (head : bool) : IO unit :=
  wire ← respond_message response alive head; WriteWire id wire alive peer.

(** A response is pending from here on. *)
Definition admit_request (id : ConnectionId) : IO unit :=
  _ ← modify (with_active (Z.add 1)); set_phase id Admitting.

(** The task of [Dispatch] that runs the handler, on the pool or in place. *)
Definition Dispatch (id : ConnectionId) (request : HttpRequest) (alive : bool) : IO unit :=
  set_phase id (ToHandler request alive).

Definition is_head (request : HttpRequest) : bool := bytes_eqb (rq_method request) (lit "HEAD").

Definition dispatched (id : ConnectionId) (request : HttpRequest) (alive : bool) (guarded : M E HttpResponse)
    : IO unit :=
  response ← outer guarded;
  if pooled then set_phase id (ToRespond response alive (rq_peer_address request) (is_head request))
  else Respond id response alive (rq_peer_address request) (is_head request).

Definition with_peer (request : HttpRequest) (peer : bytes) : HttpRequest :=
  mkRequest (rq_method request) (rq_target request) (rq_headers request) (rq_body request) peer.

(** ** Upgrades *)

Definition InvokeGateGuarded (request : HttpRequest) : IO (option HttpResponse) :=
  match so_websocket_gate opts with
  | None => mret None
  | Some gate =>
    Contain (outer (gate request))
      (fun what => _ ← threw (lit "websocket_gate") what; mret (Some (mkResponse 500 [] [] [])))
  end.

Definition Upgrade (id : ConnectionId) (parser : Parser) : IO unit :=
  let request := ToSmithyRequest (ps_message parser) in
  peer ← PeerAddressOf id;
  set_phase id (ToGate (with_peer request peer) parser).

Definition upgrade_mode (request : HttpRequest) : Wire :=
  if so_websocket_raw_text_frames opts then kRawText
  else if so_websocket_accept_json_frames opts && OffersJsonFrames request then kJsonFrames
  else kBinary.

Definition CompleteUpgrade (id : ConnectionId) (request : HttpRequest) : IO unit :=
  start ← start_phase id;
  set_phase id (Upgrading request (upgrade_mode request) start).

Definition Abort (id : ConnectionId) : IO unit :=
  modify (with_sockets (fun k => mkSockets (websockets k) (websockets_aborted k) (aborts k ++ [id]))).

Definition RegisterWebSocket (id : ConnectionId) : IO unit :=
  aborted ← gets (E:=E) sockets_closed;
  if (aborted : bool) then Abort id else modify (push_socket id).

(** The serve callback's task, up to the session's own end. *)
Definition serve (id : ConnectionId) (request : HttpRequest) : IO unit :=
  _ ← match so_on_websocket_session opts with
      | Some serve => contained (lit "on_websocket_session") (outer (serve request id))
      | None =>
        match so_on_websocket opts with
        | Some serve => contained (lit "on_websocket") (outer (serve request id))
        | None => mret tt
        end
      end;
  set_phase id Streaming.

(** ** The accept loop *)

Definition Accept : IO unit :=
  a ← gets (E:=E) acceptor;
  if (0 <? so_max_connections opts) && (so_max_connections opts <=? open_connections a)
  then modify (with_acceptor (set_paused true))
  else modify (with_acceptor (set_accepting true)).

Definition RunSession : IO unit :=
  id ← gets (E:=E) next_id;
  _ ← modify (with_acceptor (fun a => set_open (open_connections a + 1) a));
  _ ← modify (with_conns (fun l => l ++ [Settling]));
  if serves_tls then start ← start_phase id; set_phase id (Handshaking start)
  else ReadNext id.

Definition OnSessionClosed : IO unit :=
  _ ← modify (with_acceptor (fun a => set_open (open_connections a - 1) a));
  resuming ← gets (E:=E) resumes;
  if (resuming : bool)
  then _ ← modify (with_acceptor (set_paused false)); Accept
  else mret tt.

(** ** Completions *)

(** The completion of [async_accept]. *)
Definition on_accept (ec : bool) : IO unit :=
  stopping ← gets (E:=E) stopping;
  if ec || stopping then mret tt else _ ← RunSession; Accept.

Definition probe_shape (ec : wire_error) : bool :=
  match ec_kind ec with eof | stream_truncated | timeout => true | _ => false end.

Definition on_handshake (id : ConnectionId) (start : PhaseStart) (ec : option wire_error) : IO unit :=
  match ec with
  | None => ReadNext id
  | Some ec =>
    _ ← (if probe_shape ec then mret tt else NotifyConnectionEvent id kTlsHandshakeFailure ec start);
    drop_connection id
  end.

Definition over_limit_status (ec : wire_error) : option Z :=
  match ec_kind ec with body_limit => Some 413 | header_limit => Some 431 | _ => None end.

Definition on_read (id : ConnectionId) (start : PhaseStart) (ec : option wire_error) (parser : Parser) : IO unit :=
  match ec with
  | Some ec =>
    match over_limit_status ec with
    | Some status => _ ← NotifyRejected id (ps_message parser) status; RejectOverLimit id status
    | None => _ ← NotifyReadFailure id ec (ps_got_some parser) start; drop_connection id
    end
  | None =>
    stopping ← gets (E:=E) stopping;
    if serves && ps_upgrade parser then
      if (stopping : bool) then drop_connection id else Upgrade id parser
    else
      _ ← admit_request id;
      peer ← PeerAddressOf id;
      Dispatch id (with_peer (ToSmithyRequest (ps_message parser)) peer) (ps_keep_alive parser && negb stopping)
  end.

Definition on_write (id : ConnectionId) (alive : bool) (start : PhaseStart) (ec : option wire_error) : IO unit :=
  _ ← modify (with_active (fun n => n - 1));
  _ ← set_phase id Settling;
  match ec with
  | Some ec => _ ← NotifyConnectionEvent id kDropped ec start; drop_connection id
  | None => if alive then ReadNext id else drop_connection id
  end.

Definition on_reject_written (id : ConnectionId) (ec : bool) : IO unit :=
  if ec then drop_connection id else DrainThenClose id kOverLimitDrainBudgetBytes.

Definition on_drained (id : ConnectionId) (budget : Z) (ec : bool) (n : Z) : IO unit :=
  if ec || (budget <=? n) then drop_connection id else DrainThenClose id (budget - n).

(** The gate, on the pool. *)
Definition run_gate (id : ConnectionId) (request : HttpRequest) (parser : Parser) : IO unit :=
  refusal ← InvokeGateGuarded request; set_phase id (ToUpgrade request parser refusal).

Definition on_gated (id : ConnectionId) (request : HttpRequest) (parser : Parser) (refusal : option HttpResponse)
    : IO unit :=
  stopping ← gets (E:=E) stopping;
  if (stopping : bool) then drop_connection id
  else match refusal with
       | Some refusal => set_phase id (ToRefuse refusal (rq_peer_address request) parser)
       | None => CompleteUpgrade id request
       end.

(** The rest of the refusal, which reads [stopping] again. *)
Definition refuse (id : ConnectionId) (refusal : HttpResponse) (peer : bytes) (parser : Parser) : IO unit :=
  _ ← admit_request id;
  stopping ← gets (E:=E) stopping;
  Respond id refusal (ps_keep_alive parser && negb stopping) peer false.

Definition on_upgraded (id : ConnectionId) (request : HttpRequest) (start : PhaseStart) (ec : option wire_error)
    : IO unit :=
  match ec with
  | Some ec => _ ← NotifyConnectionEvent id kUpgradeFailure ec start; drop_connection id
  | None =>
    stopping ← gets (E:=E) stopping;
    if (stopping : bool) then _ ← Abort id; set_phase id Streaming else set_phase id (ToRegister request)
  end.

Definition register (id : ConnectionId) (request : HttpRequest) : IO unit :=
  _ ← RegisterWebSocket id; set_phase id (Serving request).

(** ** Threads *)

(** What an exception leaves of the connection whose handler it unwound. *)
Definition abandon (id : ConnectionId) : IO unit :=
  lost ← gets (E:=E) (pending id);
  _ ← (if (lost : bool) then modify (with_leaked (Z.add 1)) else mret tt);
  drop_connection id.

Definition RunIoThread_line (what : option bytes) : bytes :=
  lit "opal: beast server io thread caught"
  ++ match what with Some what => lit ": " ++ what | None => lit " a non-std exception" end
  ++ lit "; re-entering run()" ++ ["010"%byte].

(** A completion of a connection on an io thread. *)
Definition on_io (id : ConnectionId) (m : IO unit) : IO unit :=
  Contain m (fun what => _ ← Effects.log (RunIoThread_line what); abandon id).

(** A task of the pool, within [InvokeCompletion]. *)
Definition on_pool (id : ConnectionId) (which : bytes) (m : IO unit) : IO unit :=
  Contain m (fun what => _ ← threw (which ++ lit " callback") what; abandon id).

(** ** Stop *)

Definition StopBegins : IO unit :=
  _ ← modify (with_stopping true);
  _ ← modify (with_acceptor (set_close_posted true));
  modify (with_stage Drain).

Definition AcceptorCloses : IO unit :=
  modify (with_acceptor (fun a => set_acceptor_open false (set_close_posted false a))).

(** [AbortWebSockets] up to the end of its lock. *)
Definition begin_sweep : IO unit :=
  live ← gets (E:=E) live_sockets;
  _ ← modify (with_sockets (fun k => mkSockets (websockets k) true (aborts k)));
  modify (with_stage (Sweep live)).

(** ** The machine *)

(** A completion with what the library reports, or a step of [Stop]; [draws]
    are the words of the random engine. *)
Inductive Action :=
| Accepted (ec : bool)
| SessionClosed
| AcceptorClosed
| HandshakeDone (id : ConnectionId) (ec : option wire_error)
| ReadDone (id : ConnectionId) (ec : option wire_error) (parser : Parser)
| HandlerRuns (id : ConnectionId) (draws : list Z)
| Responds (id : ConnectionId)
| WriteDone (id : ConnectionId) (ec : option wire_error)
| RejectWritten (id : ConnectionId) (ec : bool)
| Drained (id : ConnectionId) (ec : bool) (n : Z)
| GateRuns (id : ConnectionId)
| GateAnswered (id : ConnectionId)
| Refuses (id : ConnectionId)
| UpgradeDone (id : ConnectionId) (ec : option wire_error)
| Registers (id : ConnectionId)
| ServeReturns (id : ConnectionId)
| SessionEnds (id : ConnectionId)
| Stops
| DrainEnds (deadline_passed : bool)
| AbortsNext
| Halts.

Definition when {A} (b : bool) (a : A) : option A := if b then Some a else None.

(** The actions of a connection, by where it is. *)
Definition connection_action (action : Action) (p : Phase) : option (IO unit) :=
  match action, p with
  | HandshakeDone id ec, Handshaking start => Some (on_io id (on_handshake id start ec))
  | ReadDone id ec parser, Reading start => Some (on_io id (on_read id start ec parser))
  | HandlerRuns id draws, ToHandler request alive =>
    '(guarded, _) ← InvokeHandlerGuarded handler request draws;
    Some ((if pooled then on_pool id (lit "beast handler dispatch") else on_io id)
            (dispatched id request alive guarded))
  | Responds id, ToRespond response alive peer head => Some (on_io id (Respond id response alive peer head))
  | WriteDone id ec, Writing wire alive start => Some (on_io id (on_write id alive start ec))
  | RejectWritten id ec, Rejecting wire => Some (on_io id (on_reject_written id ec))
  | Drained id ec n, Draining budget => when (ec || (0 <? n)) (on_io id (on_drained id budget ec n))
  | GateRuns id, ToGate request parser => Some (on_pool id (lit "beast upgrade dispatch") (run_gate id request parser))
  | GateAnswered id, ToUpgrade request parser refusal => Some (on_io id (on_gated id request parser refusal))
  | Refuses id, ToRefuse refusal peer parser => Some (on_io id (refuse id refusal peer parser))
  | UpgradeDone id ec, Upgrading request mode start => Some (on_io id (on_upgraded id request start ec))
  | Registers id, ToRegister request => Some (on_io id (register id request))
  | ServeReturns id, Serving request => Some (serve id request)
  | SessionEnds id, Streaming => Some (drop_connection id)
  | _, _ => None
  end.

Definition connection_of (action : Action) : option ConnectionId :=
  match action with
  | HandshakeDone id _ | ReadDone id _ _ | HandlerRuns id _ | Responds id | WriteDone id _ | RejectWritten id _
  | Drained id _ _ | GateRuns id | GateAnswered id | Refuses id | UpgradeDone id _ | Registers id
  | ServeReturns id | SessionEnds id => Some id
  | _ => None
  end.

(** The actions of the acceptor and of [Shutdown]. *)
Definition server_action (action : Action) (s : St) : option (IO unit) :=
  match action with
  | Accepted ec =>
    when (accepting (acceptor s) && (ec || acceptor_open (acceptor s)))
      (_ ← modify (with_acceptor (set_accepting false)); on_accept ec)
  | SessionClosed =>
    match close_notices (acceptor s) with
    | O => None
    | S n => Some (_ ← modify (with_acceptor (set_notices n)); OnSessionClosed)
    end
  | AcceptorClosed => when (close_posted (acceptor s)) AcceptorCloses
  | Stops => match stage s with Running => Some StopBegins | _ => None end
  | DrainEnds deadline_passed =>
    match stage s with Drain => when (deadline_passed || (active s <=? 0)) begin_sweep | _ => None end
  | AbortsNext =>
    match stage s with
    | Sweep (id :: live) => Some (_ ← Abort id; modify (with_stage (Sweep live)))
    | _ => None
    end
  | Halts => match stage s with Sweep [] => Some (modify (with_stage Halted)) | _ => None end
  | _ => None
  end.

(** [None] where the action cannot happen: once halted no handler runs. *)
Definition perform (action : Action) (w : World St) : option (World St) :=
  match stage (env w) with
  | Halted => None
  | _ =>
    m ← match connection_of action with
        | Some id => p ← conns (env w) !! id; connection_action action p
        | None => server_action action (env w)
        end;
    Some (fst (m w))
  end.

Fixpoint run (actions : list Action) (w : World St) : option (World St) :=
  match actions with
  | [] => Some w
  | action :: actions => w ← perform action w; run actions w
  end.

(** ** Start *)

Definition validation (message : bytes) : option Error := Some (Error_Validation (lit "beast: " ++ message)).

(** The options that [StartContained] refuses. *)
Definition refused_options : option Error :=
  let set {A} (f : option A) := match f with Some _ => true | None => false end in
  if set (so_on_websocket opts) && set (so_on_websocket_session opts) then
    validation (lit "on_websocket and on_websocket_session cannot both be set (the borrowed and shared serve seams cannot both claim an upgrade)")
  else if serves && (so_handler_threads opts <=? 0) then
    validation (lit "on_websocket / on_websocket_session needs handler_threads > 0")
  else if set (so_websocket_gate opts) && negb serves then
    validation (lit "websocket_gate without on_websocket / on_websocket_session never runs")
  else if so_websocket_accept_json_frames opts && negb serves then
    validation (lit "websocket_accept_json_frames without on_websocket / on_websocket_session never negotiates")
  else if so_websocket_raw_text_frames opts && negb serves then
    validation (lit "websocket_raw_text_frames without on_websocket / on_websocket_session never applies")
  else if so_websocket_raw_text_frames opts && so_websocket_accept_json_frames opts then
    validation (lit "websocket_raw_text_frames and websocket_accept_json_frames cannot both be set (raw text claims every upgrade; nothing is left to negotiate)")
  else if negb (Bool.eqb serves_tls (negb (bytes_eqb (so_tls_private_key_pem opts) []))) then
    validation (lit "TLS termination needs both tls_certificate_chain_pem and tls_private_key_pem")
  else None.

Definition setup_tls : M E (option Error) :=
  chain ← use_certificate_chain lib (so_tls_certificate_chain_pem opts);
  key ← match chain with None => use_private_key lib (so_tls_private_key_pem opts) | Some _ => mret chain end;
  match key with
  | Some message => mret (validation (lit "invalid TLS certificate/key: " ++ message))
  | None =>
    applied ← tls_posture lib;
    mret (if (applied : bool) then None else validation (lit "cannot apply the TLS posture (version floor/ciphers)"))
  end.

Definition StartContained (started : bool) : M E (option Error) :=
  if started then mret (validation (lit "transport already started"))
  else
    match refused_options with
    | Some error => mret (Some error)
    | None =>
      unsecured ← (if serves_tls then setup_tls else mret None);
      match unsecured with
      | Some error => mret (Some error)
      | None =>
        if negb (make_address lib (so_address opts)) then
          mret (validation (lit "invalid bind address: " ++ so_address opts))
        else
          failed ← listen lib (so_address opts) (so_port opts);
          mret (match failed with
                | Some message =>
                  Some (Error_Transport (lit "beast: cannot listen on " ++ so_address opts ++ lit ":"
                                         ++ int_text (so_port opts) ++ lit ": " ++ message) true)
                | None => None
                end)
      end
    end.

Definition Start (started : bool) : M E (option Error) :=
  Contain (StartContained started)
    (fun what => mret (Some (Error_Transport (lit "beast: start failed: "
                                              ++ default (lit "unknown exception") what) true))).

(** The state of a server that [Start] started. *)
Definition started_state (e : E) : St :=
  mkServer (mkAcceptor 0 false false true false 0) false 0 0 (mkSockets [] false []) [] [] Running e.

Definition started (w : World E) : World St := fst (Accept (mkWorld (clog w) (started_state (env w)))).

End ServerSection.
