(* ===== verification/BeastServerSteps.v ===== *)
(** What each completion of the server does to its state, whatever the
    libraries, the handler and the callbacks answer: a relation on the state
    without its environment, and the proof that every action is a step of it. *)
From Stdlib Require Import ZArith Lia Strings.Byte.
From S2P Require Import Prelude Bytes Uri Headers Http1 Effects Middleware ServerDispatch BeastClient WsSession BeastWire BeastServer.

Local Open Scope Z_scope.

(** ** States without their environment *)

Definition Core : Type := Server unit.

Definition core {E} (s : Server E) : Core :=
  mkServer (acceptor s) (stopping s) (active s) (leaked s) (sockets s) (conns s) (observed s) (stage s) tt.

Section Posts.
Context {E : Type}.

Notation St := (Server E).
Notation IO := (M (Server E)).

(** From a state that looks like [c], [m] ends in one that satisfies [Q]. *)
Definition post {A} (m : IO A) (c : Core) (Q : Core -> Result A -> Prop) : Prop :=
  forall w, core (env w) = c -> Q (core (env (fst (m w)))) (snd (m w)).

Class Reads {A} (f : St -> A) (f' : Core -> A) := reads : forall s, f s = f' (core s).
Class Updates (f : St -> St) (f' : Core -> Core) := updates : forall s, core (f s) = f' (core s).

#[export] Instance acceptor_reads : Reads acceptor acceptor. Proof. done. Qed.
#[export] Instance stopping_reads : Reads stopping stopping. Proof. done. Qed.
#[export] Instance resumes_reads : Reads resumes resumes. Proof. done. Qed.
#[export] Instance next_id_reads : Reads next_id next_id. Proof. done. Qed.
#[export] Instance pending_reads id : Reads (pending id) (pending id). Proof. done. Qed.
#[export] Instance sockets_closed_reads : Reads sockets_closed sockets_closed. Proof. done. Qed.
#[export] Instance live_sockets_reads : Reads live_sockets live_sockets. Proof. done. Qed.
#[export] Instance acceptor_updates f : Updates (with_acceptor f) (with_acceptor f). Proof. done. Qed.
#[export] Instance stopping_updates b : Updates (with_stopping b) (with_stopping b). Proof. done. Qed.
#[export] Instance active_updates f : Updates (with_active f) (with_active f). Proof. done. Qed.
#[export] Instance leaked_updates f : Updates (with_leaked f) (with_leaked f). Proof. done. Qed.
#[export] Instance sockets_updates f : Updates (with_sockets f) (with_sockets f). Proof. done. Qed.
#[export] Instance conns_updates f : Updates (with_conns f) (with_conns f). Proof. done. Qed.
#[export] Instance observed_updates id : Updates (with_observed id) (with_observed id). Proof. done. Qed.
#[export] Instance stage_updates st : Updates (with_stage st) (with_stage st). Proof. done. Qed.
#[export] Instance push_socket_updates id : Updates (push_socket id) (push_socket id). Proof. done. Qed.

Lemma post_ret {A} (a : A) c (Q : Core -> Result A -> Prop) : Q c (Ret a) -> post (mret a) c Q.
Proof. by intros HQ w <-. Qed.

Lemma post_bind {A B} (m : IO A) (f : A -> IO B) c Q :
  post m c (fun c r => match r with Ret a => post (f a) c Q | Throw what => Q c (Throw what) end) ->
  post (m ≫= f) c Q.
Proof.
  intros Hm w Hw. specialize (Hm w Hw). cbv [mbind M_bind].
  destruct (m w) as [w' [a|what]]; cbn in *; [by apply Hm|done].
Qed.

Lemma post_Contain {A} (m : IO A) h c (Q : Core -> Result A -> Prop) :
  post m c (fun c r => match r with Ret a => Q c (Ret a) | Throw what => post (h what) c Q end) ->
  post (Contain m h) c Q.
Proof.
  intros Hm w Hw. specialize (Hm w Hw). unfold Contain.
  destruct (m w) as [w' [a|what]]; cbn in *; [done|by apply Hm].
Qed.

Lemma post_gets {A} (f : St -> A) f' c (Q : Core -> Result A -> Prop) `{!Reads f f'} :
  Q c (Ret (f' c)) -> post (gets f) c Q.
Proof. intros HQ w <-. cbn. by rewrite (Reads0 (env w)). Qed.

Lemma post_modify (f : St -> St) f' c (Q : Core -> Result unit -> Prop) `{!Updates f f'} :
  Q (f' c) (Ret tt) -> post (modify f) c Q.
Proof. intros HQ w <-. cbn. by rewrite (Updates0 (env w)). Qed.

Lemma post_outer {A} (m : M E A) c (Q : Core -> Result A -> Prop) :
  (forall r, (exists w w', m w = (w', r)) -> Q c r) -> post (outer m) c Q.
Proof. intros HQ w <-. unfold outer. destruct (m _) as [w' r] eqn:Em. cbn. apply HQ. eauto. Qed.

Lemma post_outer_returns {A} (m : M E A) c (Q : Core -> Result A -> Prop) :
  returns m -> (forall a, (exists w w', m w = (w', Ret a)) -> Q c (Ret a)) -> post (outer m) c Q.
Proof.
  intros Hm HQ. apply post_outer. intros r (w & w' & Er). destruct (Hm w) as [a Ha]. rewrite Er in Ha. cbn in Ha.
  subst r. eauto.
Qed.

Lemma post_asking {A} (f : E -> E * A) c (Q : Core -> Result A -> Prop) : (forall a, Q c (Ret a)) -> post (asking f) c Q.
Proof. intros HQ w <-. unfold asking. destruct (f _) as [e a]. apply HQ. Qed.

Lemma post_log text c (Q : Core -> Result unit -> Prop) : Q c (Ret tt) -> post (Effects.log text) c Q.
Proof. by intros HQ w <-. Qed.

Lemma post_contained which (m : M E unit) c (Q : Core -> Result unit -> Prop) :
  Q c (Ret tt) -> post (contained which (outer m)) c Q.
Proof.
  intros HQ. apply post_Contain, post_outer. intros [[]|what] _; [done|]. by apply post_log.
Qed.

Lemma post_weaken {A} (m : IO A) c (Q Q' : Core -> Result A -> Prop) :
  post m c Q -> (forall c r, Q c r -> Q' c r) -> post m c Q'.
Proof. intros Hm HQ w Hw. by apply HQ, Hm. Qed.

(** Messages are built without a look at the state. *)
Lemma insert_fields_still `{Messages} skip entries wire : forall w : World St,
  exists r, insert_fields skip entries wire w = (w, r).
Proof.
  revert wire. induction entries as [|[n v] entries IH]; intros wire w; cbn [insert_fields]; [by eexists|].
  destruct (skip n); [apply IH|]. cbv [mbind M_bind calling].
  destruct (insert_field n v wire); [apply IH|by eexists].
Qed.

Lemma ToWireResponse_still `{Messages} rs alive (w : World St) : exists r, ToWireResponse rs alive w = (w, r).
Proof.
  unfold ToWireResponse. cbv [mbind M_bind calling]. destruct (result _ _) as [x|]; [|by eexists].
  destruct (insert_fields_still IsFramingHeader (rs_headers rs) x w) as [[wire|] ->]; by eexists.
Qed.

(** A response that the library refuses to hold. *)
Definition unwritable `{Messages} (rs : HttpResponse) : Prop :=
  exists alive head (w : World St) what, snd (respond_message rs alive head w) = Throw what.

Lemma post_respond_message `{Messages} rs alive head c (Q : Core -> Result WireResponse -> Prop) :
  (forall r, (forall what, r = Throw what -> unwritable rs) -> Q c r) -> post (respond_message rs alive head) c Q.
Proof.
  intros HQ0 w Hw.
  assert (exists r, respond_message rs alive head w = (w, r)) as [r Hr].
  2: { rewrite Hr. cbn. rewrite Hw. apply HQ0. intros what ->. exists alive, head, w, what. by rewrite Hr. }
  unfold respond_message. cbv [mbind M_bind].
  destruct (ToWireResponse_still (checked_response rs) alive w) as [[full|] ->]; [|eauto].
  destruct head; [|eauto]. unfold ToHeadWireResponse. cbv [mbind M_bind calling].
  destruct (result _ _) as [x|]; [|eauto].
  match goal with |- context [insert_fields ?a ?b ?d w] => destruct (insert_fields_still a b d w) as [[wire|] ->] end;
    eauto.
Qed.

Lemma post_rejection_message `{Messages} status c (Q : Core -> Result WireResponse -> Prop) :
  (forall r, Q c r) -> post (rejection_message status) c Q.
Proof.
  intros HQ w <-. unfold rejection_message. cbv [mbind M_bind calling].
  destruct (result _ _); [|apply HQ]. destruct (insert_field _ _ _); apply HQ.
Qed.

End Posts.

(** ** The steps of a connection *)

Section Relation.
Context (answers unwritable : HttpResponse -> Prop).

(** From where to where a completion takes a connection; [st] is whether the
    server was stopping, [answers] what the handler and the gate may answer. *)
Inductive edge (st : bool) : Phase -> Phase -> Prop :=
| edge_gone p : p <> Gone -> edge st p Gone
| edge_secured a b : edge st (Handshaking a) (Reading b)
| edge_rejected a wire : edge st (Reading a) (Rejecting wire)
| edge_request a rq alive : (alive = true -> st = false) -> edge st (Reading a) (ToHandler rq alive)
| edge_upgrade a rq parser : st = false -> edge st (Reading a) (ToGate rq parser)
| edge_drain wire : edge st (Rejecting wire) (Draining kOverLimitDrainBudgetBytes)
| edge_drained budget n : 0 < n < budget -> edge st (Draining budget) (Draining (budget - n))
| edge_answer rq alive rs peer head : answers rs -> edge st (ToHandler rq alive) (ToRespond rs alive peer head)
| edge_inline rq alive wire a : edge st (ToHandler rq alive) (Writing wire alive a)
| edge_respond rs alive peer head wire a : edge st (ToRespond rs alive peer head) (Writing wire alive a)
| edge_next wire a b : edge st (Writing wire true a) (Reading b)
| edge_gate rq parser refusal : (forall rs, refusal = Some rs -> answers rs) -> edge st (ToGate rq parser) (ToUpgrade rq parser refusal)
| edge_refused rq parser rs peer : st = false -> edge st (ToUpgrade rq parser (Some rs)) (ToRefuse rs peer parser)
| edge_admitted rq parser refusal mode a : st = false -> edge st (ToUpgrade rq parser refusal) (Upgrading rq mode a)
| edge_refuse rs peer parser wire alive a : (alive = true -> st = false) ->
    edge st (ToRefuse rs peer parser) (Writing wire alive a)
| edge_late rq mode a : st = true -> edge st (Upgrading rq mode a) Streaming
| edge_upgraded rq mode a : st = false -> edge st (Upgrading rq mode a) (ToRegister rq)
| edge_registered rq : edge st (ToRegister rq) (Serving rq)
| edge_served rq : edge st (Serving rq) Streaming.

(** What becomes of the registry of sessions. *)
Definition sockets_after (id : ConnectionId) (p p' : Phase) (c : Core) : Sockets :=
  let k := sockets c in
  let aborted := mkSockets (websockets k) (websockets_aborted k) (aborts k ++ [id]) in
  match p, p' with
  | ToRegister _, Serving _ => if websockets_aborted k then aborted else sockets (push_socket id c)
  | Upgrading _ _ _, Streaming => aborted
  | _, _ => k
  end.

Definition acceptor_after (p' : Phase) (a : Acceptor) : Acceptor :=
  match p' with Gone => set_notices (S (close_notices a)) a | _ => a end.

Definition pends (p : Phase) : Z := Z.b2z (counted p).

(** A rejected or vanished request, or a connection that is: what may be
    reported. *)
Definition ended (p : Phase) : bool := match p with Rejecting _ | Draining _ | Gone => true | _ => false end.

Definition observed_after (id : ConnectionId) (p p' : Phase) (o o' : list ConnectionId) : Prop :=
  o' = o \/ o' = o ++ [id] /\ ended p = false /\ ended p' = true.

(** A response that a handler at [p] may be writing. *)
Definition asked (p : Phase) (rs : HttpResponse) : Prop :=
  match p with
  | ToHandler _ _ => answers rs
  | ToRespond rs' _ _ _ | ToRefuse rs' _ _ => rs' = rs
  | _ => False
  end.

(** One step of a connection, from [p] to [p']. *)
Record moved (id : ConnectionId) (p p' : Phase) (c c' : Core) : Prop := {
  moved_edge : edge (stopping c) p p';
  moved_conns : conns c' = <[id := p']> (conns c);
  moved_acceptor : acceptor c' = acceptor_after p' (acceptor c);
  moved_stopping : stopping c' = stopping c;
  moved_stage : stage c' = stage c;
  moved_sockets : sockets c' = sockets_after id p p' c;
  moved_active : active c' - leaked c' = active c - leaked c + pends p' - pends p;
  moved_leaked : leaked c' = leaked c
    \/ (exists rs, asked p rs /\ unwritable rs) /\ leaked c' = leaked c + 1;
  moved_observed : observed_after id p p' (observed c) (observed c')
}.

Definition connection_step (id : ConnectionId) (p : Phase) (c c' : Core) : Prop :=
  exists p', moved id p p' c c'.

End Relation.

(** The steps of the accept loop and of [Shutdown]. *)
Definition loop_after (opts_max : Z) (c : Core) : Core :=
  if (0 <? opts_max) && (opts_max <=? open_connections (acceptor c))
  then with_acceptor (set_paused true) c else with_acceptor (set_accepting true) c.

Definition taken_connection (p : Phase) (c : Core) : Core :=
  with_conns (fun l => l ++ [p]) (with_acceptor (fun a => set_open (open_connections a + 1) a) c).

Ltac post_step :=
  lazymatch goal with
  | |- post (mret _) _ _ => apply post_ret
  | |- post (_ ≫= _) _ _ => apply post_bind
  | |- post (Contain _ _) _ _ => apply post_Contain
  | |- post (gets _) _ _ => eapply post_gets; [apply _|]
  | |- post (modify _) _ _ => eapply post_modify; [apply _|]
  | |- post (contained _ (outer _)) _ _ => apply post_contained
  | |- post (outer _) _ _ => apply post_outer; intros ? ?
  | |- post (asking _) _ _ => apply post_asking; intros ?
  | |- post (Effects.log _) _ _ => apply post_log
  | |- post (threw _ _) _ _ => apply post_log
  | |- post (rejection_message _) _ _ => apply post_rejection_message; intros ?
  | |- post (if ?b then _ else _) _ _ => let Eb := fresh "Eb" in destruct b eqn:Eb
  | |- post (match ?x with _ => _ end) _ _ => let Ex := fresh "Ex" in destruct x eqn:Ex
  | |- match ?r with Ret _ => _ | Throw _ => _ end => is_var r; destruct r
  end.

Section Connections.
Context {E : Type} `{Messages} (lib : Asio E) (opts : ServerOptions E) (handler : option (RequestHandler E)).

Notation IO := (M (Server E)).

Lemma post_start_phase id c (Q : Core -> Result PhaseStart -> Prop) :
  (forall start, Q c (Ret start)) -> post (start_phase lib opts id) c Q.
Proof. intros HQ. unfold start_phase, PeerAddressOf. repeat (post_step; cbn [mbind]). all: apply HQ. Qed.

Lemma post_NotifyConnectionEvent id kind ec start c (Q : Core -> Result unit -> Prop) :
  (forall c', c' = c \/ c' = with_observed id c /\ stopping c = false -> Q c' (Ret tt)) ->
  post (NotifyConnectionEvent lib opts id kind ec start) c Q.
Proof.
  intros HQ. unfold NotifyConnectionEvent. repeat (post_step; cbn [mbind]); apply HQ; auto.
Qed.

Lemma post_NotifyRejected id partial status c (Q : Core -> Result unit -> Prop) :
  (forall c', c' = c \/ c' = with_observed id c -> Q c' (Ret tt)) ->
  post (NotifyRejected lib opts id partial status) c Q.
Proof.
  intros HQ. unfold NotifyRejected, PeerAddressOf, rejection_labels.
  repeat (post_step; cbn [mbind]); apply HQ; auto.
Qed.

Lemma post_NotifyReadFailure id ec got_some start c (Q : Core -> Result unit -> Prop) :
  (forall c', c' = c \/ c' = with_observed id c /\ stopping c = false -> Q c' (Ret tt)) ->
  post (NotifyReadFailure lib opts id ec got_some start) c Q.
Proof.
  intros HQ. unfold NotifyReadFailure. destruct (read_failure_event ec got_some).
  - by apply post_NotifyConnectionEvent.
  - apply post_ret, HQ. auto.
Qed.

(** The state once the connection is gone, and once an exception took it. *)
Definition gone (id : ConnectionId) (c : Core) : Core :=
  with_acceptor (fun a => set_notices (S (close_notices a)) a) (with_conns (insert id Gone) c).

Definition abandoned (id : ConnectionId) (c : Core) : Core :=
  gone id (if pending id c then with_leaked (Z.add 1) c else c).

Lemma post_drop id c (Q : Core -> Result unit -> Prop) : Q (gone id c) (Ret tt) -> post (drop_connection (E:=E) id) c Q.
Proof. intros HQ. unfold drop_connection, set_phase. by repeat (post_step; cbn [mbind]). Qed.

Lemma post_abandon id c (Q : Core -> Result unit -> Prop) : Q (abandoned id c) (Ret tt) -> post (abandon (E:=E) id) c Q.
Proof.
  intros HQ. unfold abandon, abandoned in *. do 2 (post_step; cbn [mbind]). post_step.
  destruct (pending id c); post_step; by apply post_drop.
Qed.

Lemma post_on_io id (m : IO unit) c (Q : Core -> Result unit -> Prop) :
  post m c (fun c r => match r with Ret _ => Q c (Ret tt) | Throw _ => Q (abandoned id c) (Ret tt) end) ->
  post (on_io id m) c Q.
Proof.
  intros Hm. apply post_Contain. eapply post_weaken; [exact Hm|]. intros c' [[]|what] HQ; [done|].
  do 2 (post_step; cbn [mbind]). by apply post_abandon.
Qed.

Lemma post_on_pool id which (m : IO unit) c (Q : Core -> Result unit -> Prop) :
  post m c (fun c r => match r with Ret _ => Q c (Ret tt) | Throw _ => Q (abandoned id c) (Ret tt) end) ->
  post (on_pool id which m) c Q.
Proof.
  intros Hm. apply post_Contain. eapply post_weaken; [exact Hm|]. intros c' [[]|what] HQ; [done|].
  do 2 (post_step; cbn [mbind]). by apply post_abandon.
Qed.

(** *** From states to steps *)

(** What the handler and the gate may answer. *)
Definition answers (rs : HttpResponse) : Prop :=
  (exists rq draws m d w w', InvokeHandlerGuarded handler rq draws = Some (m, d) /\ m w = (w', Ret rs))
  \/ (exists gate rq w w', so_websocket_gate opts = Some gate /\ gate rq w = (w', Ret (Some rs)))
  \/ rs = mkResponse 500 [] [] [].

Notation moved := (moved answers (unwritable (E:=E))).
Notation connection_step := (connection_step answers (unwritable (E:=E))).
Notation edge := (edge answers).
Notation lost p := (exists rs, asked answers p rs /\ unwritable (E:=E) rs).

Lemma moved_gone id p c o :
  conns c !! id = Some p -> p <> Gone -> observed_after id p Gone (observed c) (observed o) ->
  o = c \/ o = with_observed id c ->
  counted p = false -> moved id p Gone c (gone id o).
Proof.
  intros Hp Hg Ho [-> | ->] Ec; (split; [by apply edge_gone|done|done|done|done|by destruct p| |by left|done]);
    unfold pends; rewrite Ec; cbn; lia.
Qed.

Lemma moved_abandoned id p q c o :
  conns c !! id = Some p -> p <> Gone -> pends q = pends p + (active o - active c) ->
  conns o = <[id := q]> (conns c) -> acceptor o = acceptor c -> stopping o = stopping c -> stage o = stage c ->
  sockets o = sockets c -> leaked o = leaked c -> observed_after id p Gone (observed c) (observed o) ->
  counted q = false \/ lost p -> moved id p Gone c (abandoned id o).
Proof.
  intros Hp Hg Ha Hc Hacc Hst Hsg Hk Hl Ho Hu. apply lookup_lt_Some in Hp as Hlt.
  assert (pending id o = counted q) as Eq.
  { unfold pending. by rewrite Hc, list_lookup_insert_eq by done. }
  unfold abandoned. rewrite Eq. unfold pends in *.
  destruct (counted q) eqn:Ec; cbn [Z.b2z] in Ha; (split; cbn [gone with_leaked with_acceptor with_conns conns acceptor stopping stage
      sockets active leaked observed counted Z.b2z acceptor_after];
    [by apply edge_gone|by rewrite Hc, list_insert_insert_eq|by rewrite Hacc|done|done|by destruct p| | |done]);
    unfold pends; cbn [counted Z.b2z]; try lia.
  - right. destruct Hu as [|Hu]; [done|]. split; [done|lia].
Qed.


(** *** The completions *)

Definition steps (id : ConnectionId) (p : Phase) (c c' : Core) (r : Result unit) : Prop :=
  connection_step id p c c'.

Lemma post_set_phase id p c (Q : Core -> Result unit -> Prop) :
  Q (with_conns (insert id p) c) (Ret tt) -> post (set_phase (E:=E) id p) c Q.
Proof. intros HQ. unfold set_phase. by post_step. Qed.

Lemma steps_to id p p' c o :
  conns c !! id = Some p -> edge (stopping c) p p' -> p' <> Gone ->
  conns o = <[id := p']> (conns c) -> acceptor o = acceptor c -> stopping o = stopping c -> stage o = stage c ->
  sockets o = sockets_after id p p' c -> active o - active c = pends p' - pends p -> leaked o = leaked c ->
  observed_after id p p' (observed c) (observed o) -> connection_step id p c o.
Proof.
  intros Hp He Hg Hc Ha Hst Hsg Hk Hact Hl Ho. exists p'. split; try done.
  - rewrite Ha. by destruct p'.
  - lia.
  - by left.
Qed.

Lemma steps_gone id p c o r :
  conns c !! id = Some p -> p <> Gone -> counted p = false ->
  o = c \/ o = with_observed id c /\ ended p = false -> steps id p c (gone id o) r.
Proof.
  intros Hp Hg Hc Ho. exists Gone. destruct Ho as [-> |[-> He]]; apply moved_gone; auto; [by left|by right].
Qed.

Lemma post_ReadNext id c (Q : Core -> Result unit -> Prop) :
  (forall start, Q (with_conns (insert id (Reading start)) c) (Ret tt)) -> post (ReadNext lib opts id) c Q.
Proof.
  intros HQ. unfold ReadNext. apply post_bind, post_start_phase. intros start. by apply post_set_phase.
Qed.

Lemma post_Respond id rs alive peer head c (Q : Core -> Result unit -> Prop) :
  (forall what, unwritable (E:=E) rs -> Q c (Throw what)) ->
  (forall wire start, Q (with_conns (insert id (Writing wire alive start)) c) (Ret tt)) ->
  post (Respond lib id rs alive peer head) c Q.
Proof.
  intros Ht HQ. unfold Respond, WriteWire. apply post_bind, post_respond_message. intros [wire|what] Hu; [|by eapply Ht, Hu].
  apply post_bind, post_asking. intros at_. by apply post_set_phase.
Qed.

Ltac stepping id p' :=
  eapply (steps_to id _ p'); try done; try (by left); try (by right); cbn;
  rewrite ?list_insert_insert_eq; try done; try lia; try (by constructor).

Section At.
Context (id : ConnectionId) (p : Phase) (c : Core) (Hp : conns c !! id = Some p).

Lemma handshake_steps start ec : p = Handshaking start ->
  post (on_io id (on_handshake lib opts id start ec)) c (steps id p c).
Proof.
  intros ->. apply post_on_io. unfold on_handshake. destruct ec as [ec|].
  - apply post_bind. destruct (probe_shape ec).
    + apply post_ret, post_drop. by apply (steps_gone id _ c); [..|by left].
    + apply post_NotifyConnectionEvent. intros c' Hc'. apply post_drop. apply (steps_gone id _ c); [done..|].
      destruct Hc' as [-> |[-> _]]; [by left|by right].
  - apply post_ReadNext. intros b. stepping id (Reading b).
Qed.

Lemma read_steps start ec parser : p = Reading start ->
  post (on_io id (on_read lib opts id start ec parser)) c (steps id p c).
Proof.
  intros ->. apply post_on_io. unfold on_read. destruct ec as [ec|].
  - destruct (over_limit_status ec) as [status|].
    + apply post_bind, post_NotifyRejected. intros c' Hc'. unfold RejectOverLimit.
      assert (observed_after id (Reading start) Gone (observed c) (observed c')) as Ho.
      { destruct Hc' as [-> | ->]; [by left|by right]. }
      apply post_bind, post_rejection_message. intros [wire|what].
      * apply post_set_phase. destruct Hc' as [-> | ->];
          stepping id (Rejecting wire).
      * exists Gone. destruct Hc' as [-> | ->];
          (eapply (moved_abandoned id _ (Reading start)); try done; [cbn; lia|by rewrite list_insert_id|by left]).
    + apply post_bind, post_NotifyReadFailure. intros c' Hc'. apply post_drop. apply (steps_gone id _ c); [done..|].
      destruct Hc' as [-> |[-> _]]; [by left|by right].
  - do 2 (post_step; cbn [mbind]). unfold admit_request, Upgrade, Dispatch, PeerAddressOf, set_phase.
    destruct (serves opts && ps_upgrade parser); [destruct (stopping c) eqn:Est|].
    + apply post_drop. by apply (steps_gone id _ c); [..|by left].
    + repeat (post_step; cbn [mbind]);
        match goal with |- context [insert id ?q] => stepping id q end.
    + repeat (post_step; cbn [mbind]);
        match goal with |- context [ToHandler ?rq ?alive] => stepping id (ToHandler rq alive) end;
        constructor; intros Ha; apply andb_true_iff in Ha as [_ Ha]; by destruct (stopping c).
Qed.

Lemma dispatched_steps rq alive guarded which : p = ToHandler rq alive -> returns guarded ->
  (forall rs, (exists w w', guarded w = (w', Ret rs)) -> answers rs) ->
  post ((if pooled opts then on_pool id which else on_io id) (dispatched lib opts id rq alive guarded)) c (steps id p c).
Proof.
  intros -> Hg Hans.
  assert (post (dispatched lib opts id rq alive guarded) c (fun c' r =>
    match r with Ret _ => steps id (ToHandler rq alive) c c' (Ret tt)
               | Throw _ => steps id (ToHandler rq alive) c (abandoned id c') (Ret tt) end)) as Hd.
  { assert (lost (ToHandler rq alive) -> steps id (ToHandler rq alive) c (abandoned id c) (Ret tt)) as Ht.
    { intros Hu. exists Gone. apply (moved_abandoned id _ (ToHandler rq alive)); try done;
        [cbn; lia|by rewrite list_insert_id|by left|by right]. }
    unfold dispatched. apply post_bind, post_outer_returns; [done|]. intros rs Hrs%Hans.
    destruct (pooled opts).
    - apply post_set_phase. stepping id (ToRespond rs alive (rq_peer_address rq) (is_head rq)).
    - apply post_Respond; [intros what Hu; apply Ht; by exists rs|]. intros wire start. stepping id (Writing wire alive start). }
  destruct (pooled opts); [by apply post_on_pool|by apply post_on_io].
Qed.

Lemma respond_steps rs alive peer head : p = ToRespond rs alive peer head ->
  post (on_io id (Respond lib id rs alive peer head)) c (steps id p c).
Proof.
  intros ->. apply post_on_io, post_Respond.
  - intros what Hu. exists Gone. apply (moved_abandoned id _ (ToRespond rs alive peer head)); try done;
      [cbn; lia|by rewrite list_insert_id|by left|right; by exists rs].
  - intros wire start. stepping id (Writing wire alive start).
Qed.

Lemma write_steps wire alive start ec : p = Writing wire alive start ->
  post (on_io id (on_write lib opts id alive start ec)) c (steps id p c).
Proof.
  intros ->. apply post_on_io. unfold on_write.
  apply post_bind. eapply post_modify; [apply _|]. apply post_bind, post_set_phase.
  assert (forall o, o = with_conns (insert id Settling) (with_active (fun n => n - 1) c)
             \/ o = with_observed id (with_conns (insert id Settling) (with_active (fun n => n - 1) c)) ->
          steps id (Writing wire alive start) c (gone id o) (Ret tt)) as Hgone.
  { intros o Ho. exists Gone. destruct Ho as [-> | ->];
      (split; cbn; rewrite ?list_insert_insert_eq; try done; [by apply edge_gone|unfold pends; cbn; lia|by left|]);
      [by left|by right]. }
  destruct ec as [ec|].
  - apply post_bind, post_NotifyConnectionEvent. intros c' Hc'. apply post_drop, Hgone.
    destruct Hc' as [-> |[-> _]]; auto.
  - destruct alive; [|apply post_drop, Hgone; by left].
    apply post_ReadNext. intros b. stepping id (Reading b).
Qed.

Lemma reject_written_steps wire ec : p = Rejecting wire ->
  post (on_io id (on_reject_written (E:=E) id ec)) c (steps id p c).
Proof.
  intros ->. apply post_on_io. unfold on_reject_written, DrainThenClose. destruct ec.
  - apply post_drop. by apply (steps_gone id _ c); [..|by left].
  - apply post_set_phase. stepping id (Draining kOverLimitDrainBudgetBytes).
Qed.

Lemma drained_steps budget ec n : p = Draining budget -> ec = true \/ 0 < n ->
  post (on_io id (on_drained (E:=E) id budget ec n)) c (steps id p c).
Proof.
  intros -> Hn. apply post_on_io. unfold on_drained, DrainThenClose.
  destruct (ec || (budget <=? n)) eqn:Eb.
  - apply post_drop. by apply (steps_gone id _ c); [..|by left].
  - apply orb_false_iff in Eb as [-> Eb]. apply Z.leb_gt in Eb. destruct Hn as [|Hn]; [done|].
    apply post_set_phase. stepping id (Draining (budget - n)).
Qed.

Lemma gate_steps rq parser which : p = ToGate rq parser ->
  post (on_pool id which (run_gate opts id rq parser)) c (steps id p c).
Proof.
  intros ->. apply post_on_pool. unfold run_gate, InvokeGateGuarded.
  assert (forall refusal, (forall rs, refusal = Some rs -> answers rs) ->
    steps id (ToGate rq parser) c (with_conns (insert id (ToUpgrade rq parser refusal)) c) (Ret tt)) as Hto.
  { intros refusal Ha. stepping id (ToUpgrade rq parser refusal). }
  destruct (so_websocket_gate opts) as [gate|] eqn:Eg.
  - apply post_bind, post_Contain, post_outer. intros [refusal|what] (w & w' & Er).
    + apply post_set_phase, Hto. intros rs ->. right. left. by exists gate, rq, w, w'.
    + apply post_bind, post_log, post_ret, post_set_phase, Hto. intros rs [= <-]. by right; right.
  - by apply post_bind, post_ret, post_set_phase, Hto.
Qed.

Lemma gated_steps rq parser refusal : p = ToUpgrade rq parser refusal ->
  post (on_io id (on_gated lib opts id rq parser refusal)) c (steps id p c).
Proof.
  intros ->. apply post_on_io. unfold on_gated, CompleteUpgrade. apply post_bind. eapply post_gets; [apply _|].
  destruct (stopping c) eqn:Est.
  - apply post_drop. by apply (steps_gone id _ c); [..|by left].
  - destruct refusal as [refusal|].
    + apply post_set_phase. stepping id (ToRefuse refusal (rq_peer_address rq) parser).
    + apply post_bind, post_start_phase. intros start. apply post_set_phase.
      stepping id (Upgrading rq (upgrade_mode opts rq) start).
Qed.

Lemma refuse_steps refusal peer parser : p = ToRefuse refusal peer parser ->
  post (on_io id (refuse lib id refusal peer parser)) c (steps id p c).
Proof.
  intros ->. apply post_on_io. unfold refuse, admit_request, set_phase.
  repeat (post_step; cbn [mbind]). apply post_Respond.
  - intros what Hu. exists Gone. apply (moved_abandoned id _ Admitting); try done; [cbn; lia|by left|right; by exists refusal].
  - intros wire start. stepping id (Writing wire (ps_keep_alive parser && negb (stopping c)) start).
    constructor. intros Ha. apply andb_true_iff in Ha as [_ Ha]. by destruct (stopping c).
Qed.

Lemma upgraded_steps rq mode start ec : p = Upgrading rq mode start ->
  post (on_io id (on_upgraded lib opts id rq start ec)) c (steps id p c).
Proof.
  intros ->. apply post_on_io. unfold on_upgraded, Abort. destruct ec as [ec|].
  - apply post_bind, post_NotifyConnectionEvent. intros c' Hc'. apply post_drop. apply (steps_gone id _ c); [done..|].
    destruct Hc' as [-> |[-> _]]; [by left|by right].
  - apply post_bind. eapply post_gets; [apply _|]. destruct (stopping c) eqn:Est.
    + apply post_bind. eapply post_modify; [apply _|]. apply post_set_phase. stepping id Streaming.
    + apply post_set_phase. stepping id (ToRegister rq).
Qed.

Lemma register_steps rq : p = ToRegister rq -> post (on_io id (register (E:=E) id rq)) c (steps id p c).
Proof.
  intros ->. apply post_on_io. unfold register, RegisterWebSocket, Abort.
  apply post_bind, post_bind. eapply post_gets; [apply _|]. unfold sockets_closed.
  destruct (websockets_aborted (sockets c)) eqn:Ea;
    (eapply post_modify; [apply _|]); apply post_set_phase;
    stepping id (Serving rq); by rewrite Ea.
Qed.

Lemma serve_steps rq : p = Serving rq -> post (serve opts id rq) c (steps id p c).
Proof.
  intros ->. unfold serve. repeat (post_step; cbn [mbind]); apply post_set_phase; stepping id Streaming.
Qed.

Lemma ends_steps : p = Streaming -> post (drop_connection (E:=E) id) c (steps id p c).
Proof. intros ->. apply post_drop. by apply (steps_gone id _ c); [..|by left]. Qed.

End At.

Lemma guarded_returns rq draws m d : InvokeHandlerGuarded handler rq draws = Some (m, d) -> returns m.
Proof.
  unfold InvokeHandlerGuarded. destruct handler as [f|]; [|intros [= <- _] w; by eexists].
  intros ([rq' d'] & _ & [= <- _])%bind_Some. apply Contain_returns. intros what w. by eexists.
Qed.

(** Every action of a connection is a step of it, and nothing of it escapes. *)
Lemma connection_action_steps action id p m c :
  connection_of action = Some id -> conns c !! id = Some p ->
  connection_action lib opts handler action p = Some m -> post m c (steps id p c).
Proof.
  intros Hid Hp Hm. destruct action; try done; injection Hid as ->; destruct p; try done;
    try (injection Hm as <-); eauto using handshake_steps, read_steps, respond_steps, write_steps,
      reject_written_steps, gate_steps, gated_steps, refuse_steps, upgraded_steps, register_steps, serve_steps,
      ends_steps.
  - cbn [connection_action mbind option_bind] in Hm.
    destruct (InvokeHandlerGuarded handler request draws) as [[guarded d]|] eqn:Eg; [|done]. injection Hm as <-.
    apply dispatched_steps; [done..|by eapply guarded_returns|].
    intros rs (w & w' & Er). left. by exists request, draws, guarded, d, w, w'.
  - cbn [connection_action] in Hm. unfold when in Hm.
    destruct (ec || (0 <? n)) eqn:En; [|done]. injection Hm as <-. apply drained_steps; [done..|].
    apply orb_true_iff in En as [|Hn]; [by left|right; by apply Z.ltb_lt].
Qed.

(** *** The accept loop and [Shutdown] *)

Lemma post_Accept c (Q : Core -> Result unit -> Prop) :
  Q (loop_after (so_max_connections opts) c) (Ret tt) -> post (Accept opts) c Q.
Proof.
  intros HQ. unfold Accept, loop_after in *. apply post_bind. eapply post_gets; [apply _|].
  destruct (_ && _); by (eapply post_modify; [apply _|]).
Qed.

Lemma post_RunSession c (Q : Core -> Result unit -> Prop) :
  (forall p, (exists start, p = Reading start \/ p = Handshaking start) -> Q (taken_connection p c) (Ret tt)) ->
  post (RunSession lib opts) c Q.
Proof.
  intros HQ. unfold RunSession. apply post_bind. eapply post_gets; [apply _|].
  do 2 (apply post_bind; eapply post_modify; [apply _|]).
  assert (forall p, insert (next_id c) p (conns c ++ [Settling]) = conns c ++ [p]) as Hi.
  { intros p. unfold next_id. by rewrite <- (Nat.add_0_r (length _)), insert_app_r. }
  destruct serves_tls.
  - apply post_bind, post_start_phase. intros start. apply post_set_phase.
    specialize (HQ (Handshaking start)). unfold taken_connection, with_conns in *. cbn in *. rewrite Hi.
    apply HQ. eauto.
  - apply post_ReadNext. intros start. specialize (HQ (Reading start)).
    unfold taken_connection, with_conns in *. cbn in *. rewrite Hi. apply HQ. eauto.
Qed.

End Connections.
