(* ===== verification/BeastServerSpec.v ===== *)
(** The server as a whole: its actions as steps of one relation, the counts it
    keeps, the abort of its WebSocket sessions, the bound on what it still does
    once it stops. *)
From Stdlib Require Import ZArith Lia Strings.Byte.
From S2P Require Import Prelude Bytes Uri Headers Http1 Effects Middleware ServerDispatch BeastClient WsSession BeastWire BeastServer BeastServerSteps.

Local Open Scope Z_scope.

(** ** The relation *)

#[export] Instance stage_eq_dec : EqDecision Stage.
Proof. solve_decision. Defined.

Definition fresh_phase (p : Phase) : Prop := exists start, p = Reading start \/ p = Handshaking start.

(** [OnSessionClosed], with [n] more notices to come. *)
Definition closed_after (opts_max : Z) (n : nat) (c : Core) : Core :=
  let c := with_acceptor (fun a => set_open (open_connections a - 1) a) (with_acceptor (set_notices n) c) in
  if resumes c then loop_after opts_max (with_acceptor (set_paused false) c) else c.

Definition swept (c : Core) : Core :=
  with_stage (Sweep (live_sockets c))
    (with_sockets (fun k => mkSockets (websockets k) true (aborts k)) c).

Definition aborted (id : ConnectionId) (c : Core) : Core :=
  with_sockets (fun k => mkSockets (websockets k) (websockets_aborted k) (aborts k ++ [id])) c.

Definition stopped (c : Core) : Core :=
  with_stage Drain (with_acceptor (set_close_posted true) (with_stopping true c)).

Section Relation.
Context (answers unwritable : HttpResponse -> Prop).

Inductive server_step (opts_max : Z) : Action -> Core -> Core -> Prop :=
| of_connection action id p c c' :
    connection_of action = Some id -> conns c !! id = Some p -> connection_step answers unwritable id p c c' ->
    server_step opts_max action c c'
| accept_ends ec c : accepting (acceptor c) = true -> ec || stopping c = true ->
    server_step opts_max (Accepted ec) c (with_acceptor (set_accepting false) c)
| accepts p c : accepting (acceptor c) = true -> stopping c = false -> fresh_phase p ->
    server_step opts_max (Accepted false) c
      (loop_after opts_max (taken_connection p (with_acceptor (set_accepting false) c)))
| closes n c : close_notices (acceptor c) = S n -> server_step opts_max SessionClosed c (closed_after opts_max n c)
| acceptor_closes c : close_posted (acceptor c) = true ->
    server_step opts_max AcceptorClosed c
      (with_acceptor (fun a => set_acceptor_open false (set_close_posted false a)) c)
| stops c : stage c = Running -> server_step opts_max Stops c (stopped c)
| drains deadline_passed c : stage c = Drain -> deadline_passed || (active c <=? 0) = true ->
    server_step opts_max (DrainEnds deadline_passed) c (swept c)
| aborts_next id live c : stage c = Sweep (id :: live) ->
    server_step opts_max AbortsNext c (with_stage (Sweep live) (aborted id c))
| halts c : stage c = Sweep [] -> server_step opts_max Halts c (with_stage Halted c).

End Relation.

Section Server.
Context {E : Type} `{Messages} (lib : Asio E) (opts : ServerOptions E) (handler : option (RequestHandler E)).

Notation St := (Server E).
Notation IO := (M (Server E)).
Notation cap := (so_max_connections opts).
Notation server_step := (server_step (answers opts handler) (unwritable (E:=E))).

Lemma post_at {A} (m : IO A) w Q : post m (core (env w)) Q -> Q (core (env (fst (m w)))) (snd (m w)).
Proof. intros Hm. by apply Hm. Qed.

Lemma accepted_post ec c :
  post (_ ← modify (E:=E) (with_acceptor (set_accepting false)); on_accept lib opts ec) c
    (fun c' _ => accepting (acceptor c) = true -> server_step cap (Accepted ec) c c').
Proof.
  apply post_bind. eapply post_modify; [apply _|]. unfold on_accept. apply post_bind. eapply post_gets; [apply _|].
  destruct (ec || stopping _) eqn:Ee.
  - apply post_ret. intros Ha. by apply accept_ends.
  - apply orb_false_iff in Ee as [-> Es]. apply post_bind, post_RunSession. intros p Hp.
    apply post_Accept. intros Ha. by apply accepts.
Qed.

Lemma closed_post n c :
  post (_ ← modify (E:=E) (with_acceptor (set_notices n)); OnSessionClosed opts) c
    (fun c' _ => c' = closed_after cap n c).
Proof.
  unfold OnSessionClosed, closed_after. do 2 (apply post_bind; eapply post_modify; [apply _|]).
  apply post_bind. eapply post_gets; [apply _|]. cbn zeta.
  match goal with |- context [resumes ?x] => destruct (resumes x) end; [|by apply post_ret].
  apply post_bind. eapply post_modify; [apply _|]. by apply post_Accept.
Qed.

Lemma perform_running action w : stage (env w) <> Halted ->
  perform lib opts handler action w
  = (m ← match connection_of action with
         | Some id => p ← conns (env w) !! id; connection_action lib opts handler action p
         | None => server_action lib opts action (env w)
         end;
     Some (fst (m w))).
Proof. unfold perform. by destruct (stage (env w)). Qed.

Lemma perform_step action w w' :
  perform lib opts handler action w = Some w' ->
  stage (env w) <> Halted /\ server_step cap action (core (env w)) (core (env w')).
Proof.
  intros Hw. destruct (decide (stage (env w) = Halted)) as [Hh|Hh]; [unfold perform in Hw; by rewrite Hh in Hw|].
  split; [done|]. rewrite perform_running in Hw by done. apply bind_Some in Hw as (m & Hm & [= <-]).
  destruct (connection_of action) as [id|] eqn:Hid.
  { apply bind_Some in Hm as (p & Hp & Hm). eapply of_connection; [exact Hid|exact Hp|].
    by apply (post_at m w (steps opts handler id p (core (env w)))), (connection_action_steps lib opts handler action). }
  destruct action; try done; cbn [server_action] in Hm; unfold when in Hm.
  - destruct (accepting _) eqn:Ea; [|done]. destruct (_ || _); [|done]. injection Hm as <-.
    exact (post_at _ w _ (accepted_post ec (core (env w))) Ea).
  - destruct (close_notices _) as [|n] eqn:En; [done|]. injection Hm as <-.
    rewrite (post_at _ w _ (closed_post n (core (env w)))). by apply closes.
  - destruct (close_posted _) eqn:Ec; [|done]. injection Hm as <-. by apply acceptor_closes.
  - destruct (stage (env w)) eqn:Es; try done. injection Hm as <-. by apply stops.
  - destruct (stage (env w)) eqn:Es; try done. destruct (_ || _) eqn:Ed; [|done]. injection Hm as <-. by apply drains.
  - destruct (stage (env w)) as [| |[|id live]|] eqn:Es; try done. injection Hm as <-. by apply aborts_next.
  - destruct (stage (env w)) as [| |[|id live]|] eqn:Es; try done. injection Hm as <-. by apply halts.
Qed.

(** What every step keeps, every run keeps. *)
Lemma run_keeps (I : Core -> Prop) (fine : Action -> Prop) actions w w' :
  (forall action c c', fine action -> stage c <> Halted -> I c -> server_step cap action c c' -> I c') ->
  Forall fine actions -> I (core (env w)) -> run lib opts handler actions w = Some w' -> I (core (env w')).
Proof.
  intros HI Hf. revert w. induction Hf as [|action actions Ha Hf IH]; intros w Hw Hr; cbn [run] in Hr.
  { by injection Hr as <-. }
  apply bind_Some in Hr as (w1 & Ep & Hr).
  destruct (perform_step action w w1 Ep) as [Hh Hs]. eapply IH; [|exact Hr]. by apply (HI action (core (env w))).
Qed.

End Server.

(** ** Counts *)

Definition total (f : Phase -> Z) (l : list Phase) : Z := foldr (fun p n => f p + n) 0 l.

Lemma total_snoc f l p : total f (l ++ [p]) = total f l + f p.
Proof. unfold total. induction l as [|q l IH]; cbn; lia. Qed.

Lemma total_insert f l i p p' : l !! i = Some p -> total f (<[i := p']> l) = total f l - f p + f p'.
Proof.
  unfold total. revert i. induction l as [|q l IH]; intros [|i] Hi; try done.
  - injection Hi as ->. cbn. lia.
  - change (<[S i := p']> (q :: l)) with (q :: <[i := p']> l). cbn [foldr]. rewrite (IH i Hi). lia.
Qed.

Lemma total_nonneg f l : (forall p, 0 <= f p) -> 0 <= total f l.
Proof. intros Hf. unfold total. induction l as [|p l IH]; cbn; [lia|]. specialize (Hf p). lia. Qed.

Lemma total_zero f l : (forall p, 0 <= f p) -> total f l <= 0 -> forall i p, l !! i = Some p -> f p = 0.
Proof.
  intros Hf. induction l as [|q l IH]; intros Ht i p Hi; [done|]. cbn in Ht. fold (total f l) in Ht.
  pose proof (Hf q). pose proof (total_nonneg f l Hf).
  destruct i as [|i]; [injection Hi as <-; lia|]. eapply IH; [lia|exact Hi].
Qed.

Arguments total : simpl never.

(** A connection whose descriptor is open. *)
Definition live (p : Phase) : Z := match p with Gone => 0 | _ => 1 end.

Lemma edge_from_live answers st p p' : edge answers st p p' -> live p = 1.
Proof. destruct 1; try done. by destruct p. Qed.

Lemma live_nonneg p : 0 <= live p.
Proof. by destruct p. Qed.

Lemma pends_nonneg p : 0 <= pends p.
Proof. unfold pends. by destruct (counted p). Qed.

Record counts (opts_max : Z) (c : Core) : Prop := {
  c_open : open_connections (acceptor c) = total live (conns c) + Z.of_nat (close_notices (acceptor c));
  c_active : active c = total pends (conns c) + leaked c;
  c_leaked : 0 <= leaked c;
  c_cap : 0 < opts_max -> open_connections (acceptor c) <= opts_max;
  c_accepting : accepting (acceptor c) = true ->
    accept_paused (acceptor c) = false /\ (0 < opts_max -> open_connections (acceptor c) < opts_max);
  c_paused : accept_paused (acceptor c) = true ->
    0 < opts_max /\ (stopping c = false -> opts_max <= open_connections (acceptor c))
}.

(** The step into [Accept], from an acceptor neither accepting nor paused. *)
Lemma counts_loop opts_max c :
  counts opts_max c -> accepting (acceptor c) = false -> accept_paused (acceptor c) = false ->
  counts opts_max (loop_after opts_max c).
Proof.
  intros [Ho Ha Hl Hc _ _] Hacc Hp. unfold loop_after.
  destruct (0 <? opts_max) eqn:E1; cbn [andb]; [destruct (opts_max <=? _) eqn:E2|];
    split; cbn; try done; try congruence; intros _; split; try done; lia.
Qed.

Lemma counts_moved answers unwritable opts_max id p c c' :
  conns c !! id = Some p -> connection_step answers unwritable id p c c' -> counts opts_max c -> counts opts_max c'.
Proof.
  intros Hp [p' Hm] [Ho Ha Hl Hc Hacc Hpa]. pose proof (edge_from_live _ _ _ _ (moved_edge _ _ _ _ _ _ _ Hm)) as Hlive.
  destruct Hm as [_ Hconns Hac Hst _ _ Hact Hlk _].
  assert (0 <= leaked c') by (destruct Hlk as [->|[_ ->]]; lia).
  assert (live p' + Z.of_nat (close_notices (acceptor c'))
          = 1 + Z.of_nat (close_notices (acceptor c))) as Hn.
  { rewrite Hac. destruct p'; cbn; lia. }
  assert (open_connections (acceptor c') = open_connections (acceptor c)
          /\ accept_paused (acceptor c') = accept_paused (acceptor c)
          /\ accepting (acceptor c') = accepting (acceptor c)) as (Eo & Ep & Ea).
  { rewrite Hac. by destruct p'. }
  split; rewrite ?Eo, ?Ep, ?Ea, ?Hst, ?Hconns; try done.
  - rewrite (total_insert _ _ _ p) by done. lia.
  - rewrite (total_insert _ _ _ p) by done. lia.
Qed.

Lemma counts_kept answers unwritable opts_max action c c' :
  server_step answers unwritable opts_max action c c' -> counts opts_max c -> counts opts_max c'.
Proof.
  intros Hs Hi. destruct Hs as [action id p c c' _ Hp Hm|ec c Ha _|p c Ha Hst Hp|n c Hn|c Hc|c Hs|d c Hs _|id l c Hs|c Hs].
  - by eapply counts_moved.
  - destruct Hi. split; cbn; try done.
  - destruct Hi as [Ho Hac Hl Hc Hacc Hpa]. destruct (Hacc Ha) as [Hpf Hlt].
    apply counts_loop; [|done..]. split; cbn; rewrite ?total_snoc; try done.
    + assert (live p = 1) as -> by (by destruct Hp as [s [-> | ->]]). lia.
    + assert (pends p = 0) as -> by (by destruct Hp as [s [-> | ->]]). lia.
    + lia.
    + by rewrite Hpf.
  - destruct Hi as [Ho Hac Hl Hc Hacc Hpa]. unfold closed_after. cbn zeta.
    unfold resumes. cbn. destruct (accept_paused (acceptor c)) eqn:Epa; cbn; [destruct (stopping c) eqn:Est; cbn|].
    + split; cbn; try done; [lia|lia|intros Hacc'; destruct (Hacc Hacc'); congruence|].
      intros _. destruct (Hpa eq_refl). split; [done|congruence].
    + apply counts_loop; [|cbn|done].
      * split; cbn; try done; [lia|lia|intros Hacc'; destruct (Hacc Hacc'); congruence].
      * destruct (accepting (acceptor c)) eqn:Ea; [|done]. by destruct (Hacc eq_refl).
    + split; cbn; try done; [lia|lia|intros Hacc'; destruct (Hacc Hacc'); split; [congruence|lia]|congruence].
  - destruct Hi. split; cbn; try done.
  - destruct Hi as [Ho Hac Hl Hc Hacc Hpa]. split; cbn; try done. intros Hp. by destruct (Hpa Hp).
  - destruct Hi. split; cbn; try done.
  - destruct Hi. split; cbn; try done.
  - destruct Hi. split; cbn; try done.
Qed.

(** The accept loop has not ended: an accept is outstanding, or the cap holds it. *)
Definition looping (c : Core) : Prop :=
  stopping c = true \/ accepting (acceptor c) = true \/ accept_paused (acceptor c) = true.

Lemma loop_after_looping opts_max c : looping (loop_after opts_max c).
Proof. unfold loop_after. destruct (_ && _); [right; right|right; left]; done. Qed.

Lemma looping_kept answers unwritable opts_max action c c' :
  action <> Accepted true -> server_step answers unwritable opts_max action c c' -> looping c -> looping c'.
Proof.
  intros Hf Hs Hl. destruct Hs as [action id p c c' _ Hp [p' Hm]|ec c Ha He|p c Ha Hst Hp|n c Hn|c Hc|c Hs|d c Hs _|id l c Hs|c Hs];
    try (destruct Hl as [Hl|[Hl|Hl]]; [by left|by right; left|by right; right]).
  - destruct Hm as [_ _ Hac Hst _ _ _ _ _]. unfold looping in *. rewrite Hst, Hac. by destruct p'.
  - left. destruct ec; [done|exact He].
  - apply loop_after_looping.
  - unfold closed_after. cbn zeta. destruct (resumes _); [apply loop_after_looping|].
    destruct Hl as [Hl|[Hl|Hl]]; [by left|by right; left|by right; right].
Qed.

(** ** Sessions *)

Definition sweeping (st : Stage) : bool := match st with Sweep _ | Halted => true | _ => false end.

Definition in_session (p : Phase) : bool := match p with Serving _ | Streaming => true | _ => false end.

(** Aborted, or where the abort will find it. *)
Definition attended (id : ConnectionId) (c : Core) : Prop :=
  id ∈ aborts (sockets c)
  \/ match stage c with
     | Running | Drain => id ∈ websockets (sockets c)
     | Sweep live => id ∈ live
     | Halted => False
     end.

Record sessions (c : Core) : Prop := {
  s_flag : websockets_aborted (sockets c) = sweeping (stage c);
  s_stop : stopping c = match stage c with Running => false | _ => true end;
  s_attended : forall id p, conns c !! id = Some p -> in_session p = true -> attended id c
}.

Lemma in_session_live (c : Core) id p : conns c !! id = Some p -> in_session p = true -> expired c id = false.
Proof. unfold expired. intros ->. by destruct p. Qed.

Lemma live_socket (c : Core) id p : conns c !! id = Some p -> in_session p = true -> id ∈ websockets (sockets c) ->
  id ∈ live_sockets c.
Proof. intros Hp Hs Hw. apply list_elem_of_filter. eauto using in_session_live. Qed.

Lemma sessions_moved answers unwritable id p c c' :
  conns c !! id = Some p -> connection_step answers unwritable id p c c' -> sessions c -> sessions c'.
Proof.
  intros Hp [p' Hm] [Hf Hst Ha]. destruct Hm as [He Hconns _ Estop Estage Hk _ _ _]. split.
  - rewrite Hk, Estage, <- Hf. unfold sockets_after.
    destruct p, p'; try done. by destruct (websockets_aborted _) eqn:Ea; cbn; rewrite ?Ea.
  - by rewrite Estop, Estage.
  - intros j q Hj Hq. unfold attended. rewrite Estage, Hk. rewrite Hconns in Hj.
    destruct (decide (j = id)) as [->|Hne].
    + rewrite list_lookup_insert_eq in Hj by by eapply lookup_lt_Some. injection Hj as <-.
      destruct He; try done; cbn.
      * left. set_solver.
      * destruct (websockets_aborted (sockets c)) eqn:Ea; cbn; [left; set_solver|].
        rewrite Hf in Ea. right. destruct (stage c); try done; set_solver.
      * by apply (Ha id _ Hp).
    + rewrite list_lookup_insert_ne in Hj by done.
      destruct (Ha j q Hj Hq) as [Hab|Hw].
      * left. unfold sockets_after. destruct p, p'; try done; [set_solver|].
        destruct (websockets_aborted _); [set_solver|done].
      * right. destruct (stage c); try done; unfold sockets_after; destruct p, p'; try done;
          destruct (websockets_aborted _); cbn; try done; apply elem_of_app; left; by eapply live_socket.
Qed.

Lemma sessions_same c c' :
  sockets c' = sockets c -> stage c' = stage c -> stopping c' = stopping c ->
  (forall id p, conns c' !! id = Some p -> in_session p = true -> conns c !! id = Some p) ->
  sessions c -> sessions c'.
Proof.
  intros Hk Hsg Hst Hc [Hf Hs Ha]. split; rewrite ?Hk, ?Hsg, ?Hst; [done..|].
  intros id p Hp Hin. unfold attended. rewrite Hk, Hsg. by eapply Ha; [eapply Hc|].
Qed.

Lemma loop_after_same opts_max c :
  sockets (loop_after opts_max c) = sockets c /\ stage (loop_after opts_max c) = stage c
  /\ stopping (loop_after opts_max c) = stopping c /\ conns (loop_after opts_max c) = conns c.
Proof. unfold loop_after. by destruct (_ && _). Qed.

Lemma sessions_kept answers unwritable opts_max action c c' :
  server_step answers unwritable opts_max action c c' -> sessions c -> sessions c'.
Proof.
  intros Hs Hi. destruct Hs as [action id p c c' _ Hp Hm|ec c Ha _|p c Ha Hst Hp|n c Hn|c Hc|c Hs|d c Hs _|id l c Hs|c Hs].
  - by eapply sessions_moved.
  - by apply (sessions_same c); [..|exact Hi].
  - destruct (loop_after_same opts_max (taken_connection p (with_acceptor (set_accepting false) c))) as (E1 & E2 & E3 & E4).
    apply (sessions_same c); [by rewrite E1|by rewrite E2|by rewrite E3| |exact Hi].
    intros id q. rewrite E4. cbn. intros Hq Hin. apply lookup_app_Some in Hq as [Hq|[_ Hq]]; [done|].
    apply list_lookup_singleton_Some in Hq as [_ <-]. by destruct Hp as [s [-> | ->]].
  - unfold closed_after. cbn zeta. destruct (resumes _).
    + match goal with |- sessions (loop_after _ ?x) => destruct (loop_after_same opts_max x) as (E1 & E2 & E3 & E4) end.
      apply (sessions_same c); [by rewrite E1|by rewrite E2|by rewrite E3| |exact Hi]. intros id q. by rewrite E4.
    + by apply (sessions_same c); [..|exact Hi].
  - by apply (sessions_same c); [..|exact Hi].
  - destruct Hi as [Hf Hst Ha]. split; cbn; [by rewrite Hf, Hs|done|].
    intros id p Hp Hin. specialize (Ha id p Hp Hin). unfold attended in *. by rewrite Hs in Ha.
  - destruct Hi as [Hf Hst Ha]. split; cbn; [done|by rewrite Hst, Hs|].
    intros id p Hp Hin. destruct (Ha id p Hp Hin) as [Hab|Hw]; [by left|]. rewrite Hs in Hw.
    right. by eapply live_socket.
  - destruct Hi as [Hf Hst Ha]. split; cbn; [by rewrite Hf, Hs|by rewrite Hst, Hs|].
    intros j p Hp Hin. destruct (Ha j p Hp Hin) as [Hab|Hw]; [left; cbn; set_solver|]. rewrite Hs in Hw.
    apply elem_of_cons in Hw as [->|Hw]; [left; cbn; set_solver|by right].
  - destruct Hi as [Hf Hst Ha]. split; cbn; [by rewrite Hf, Hs|by rewrite Hst, Hs|].
    intros id p Hp Hin. destruct (Ha id p Hp Hin) as [Hab|Hw]; [by left|]. rewrite Hs in Hw. by apply not_elem_of_nil in Hw.
Qed.

(** ** The work that is left *)

(** What a connection still does once the server stops, as a bound. *)
Definition weight (p : Phase) : Z :=
  let reading := 10 + kOverLimitDrainBudgetBytes in
  match p with
  | Gone => 0
  | Admitting | Settling | Streaming | ToUpgrade _ _ _ => 2
  | Serving _ | ToGate _ _ => 3
  | Writing _ alive _ => if alive then reading + 1 else 2
  | ToRespond _ alive _ _ => if alive then reading + 2 else 3
  | ToHandler _ alive => if alive then reading + 3 else 4
  | ToRefuse _ _ _ => 5
  | ToRegister _ => 6
  | Upgrading _ _ _ => 7
  | Draining budget => 2 + Z.max 0 budget
  | Rejecting _ => 3 + kOverLimitDrainBudgetBytes
  | Reading _ => reading
  | Handshaking _ => reading + 1
  end.

Definition stage_weight (c : Core) : Z :=
  match stage c with
  | Running => 0
  | Drain => 3 + Z.of_nat (length (websockets (sockets c)))
  | Sweep live => 1 + Z.of_nat (length live)
  | Halted => 0
  end.

Definition work_left (c : Core) : Z :=
  total weight (conns c) + Z.of_nat (close_notices (acceptor c)) + Z.b2z (accepting (acceptor c))
  + Z.b2z (close_posted (acceptor c)) + stage_weight c.

Lemma weight_nonneg p : 0 <= weight p.
Proof. unfold weight, kOverLimitDrainBudgetBytes. destruct p; try destruct alive; lia. Qed.

Lemma weight_edge answers p p' : edge answers true p p' ->
  weight p' + live p - live p' + match p, p' with ToRegister _, Serving _ => 1 | _, _ => 0 end < weight p.
Proof.
  destruct 1; unfold weight, kOverLimitDrainBudgetBytes in *; cbn; try discriminate; try lia.
  - destruct p; try done; cbn; try destruct alive; lia.
  - destruct alive; [by specialize (H eq_refl)|lia].
  - destruct alive; lia.
  - destruct alive; lia.
  - destruct alive; lia.
  - destruct alive; [by specialize (H eq_refl)|lia].
Qed.

Lemma length_live_sockets (c : Core) : (length (live_sockets c) <= length (websockets (sockets c)))%nat.
Proof. apply length_filter. Qed.

Lemma stage_weight_moved id p p' c c' :
  stage c' = stage c -> sockets c' = sockets_after id p p' c ->
  stage_weight c' <= stage_weight c + match p, p' with ToRegister _, Serving _ => 1 | _, _ => 0 end.
Proof.
  intros Hs Hk. unfold stage_weight. rewrite Hs. pose proof (length_live_sockets c).
  destruct (stage c); try (by destruct p, p'; lia). rewrite Hk. unfold sockets_after.
  destruct p, p'; try lia; cbn; try lia. destruct (websockets_aborted _); cbn; [lia|]. rewrite length_app. cbn. lia.
Qed.

(** While it stops, every action leaves less to do. *)
Lemma work_decreases answers unwritable opts_max action c c' :
  server_step answers unwritable opts_max action c c' -> stopping c = true -> stage c <> Running ->
  work_left c' < work_left c /\ stopping c' = true /\ stage c' <> Running.
Proof.
  intros Hs Hst Hr. destruct Hs as [action id p c c' _ Hp [p' Hm]|ec c Ha _|p c Ha Hst' Hp|n c Hn|c Hc|c Hs|d c Hs _|id l c Hs|c Hs];
    unfold work_left.
  - destruct Hm as [He Hconns Hac Estop Estage Hk _ _ _]. rewrite Hst in He.
    pose proof (weight_edge _ _ _ He). pose proof (stage_weight_moved _ _ _ _ _ Estage Hk).
    pose proof (edge_from_live _ _ _ _ He) as Hl.
    rewrite Hconns, (total_insert _ _ _ p) by done. split; [|by rewrite Estop, Estage].
    assert (Z.of_nat (close_notices (acceptor c')) = Z.of_nat (close_notices (acceptor c)) + live p - live p'
            /\ accepting (acceptor c') = accepting (acceptor c)
            /\ close_posted (acceptor c') = close_posted (acceptor c)) as (-> & -> & ->).
    { rewrite Hac, Hl. destruct p'; cbn; (split; [lia|done]). }
    lia.
  - split; [|done]. unfold stage_weight. cbn. rewrite Ha. cbn. lia.
  - congruence.
  - unfold closed_after. cbn zeta. unfold resumes. cbn. rewrite Hst, andb_false_r. cbn. split; [|done].
    unfold stage_weight. cbn. lia.
  - split; [|done]. unfold stage_weight. cbn. rewrite Hc. cbn. lia.
  - congruence.
  - split; [|done]. unfold stage_weight. cbn. rewrite Hs. pose proof (length_live_sockets c). lia.
  - split; [|done]. unfold stage_weight. cbn. rewrite Hs. cbn. lia.
  - split; [|done]. unfold stage_weight. cbn. rewrite Hs. cbn. lia.
Qed.

Lemma work_nonneg c : 0 <= work_left c.
Proof.
  unfold work_left, stage_weight. pose proof (total_nonneg weight (conns c) weight_nonneg).
  destruct (stage c), (accepting (acceptor c)), (close_posted (acceptor c)); cbn [Z.b2z]; lia.
Qed.

(** ** What is to be written *)

(** Each response on its way is one that the handler or the gate answered. *)
Definition given (answers : HttpResponse -> Prop) (c : Core) : Prop :=
  forall id p, conns c !! id = Some p ->
  match p with
  | ToRespond rs _ _ _ | ToRefuse rs _ _ | ToUpgrade _ _ (Some rs) => answers rs
  | _ => True
  end.

Lemma given_same answers c c' :
  (forall id p, conns c' !! id = Some p -> conns c !! id = Some p \/ fresh_phase p) -> given answers c -> given answers c'.
Proof.
  intros Hc Hi id p Hp. destruct (Hc id p Hp) as [Hp'|[start [-> | ->]]]; [|done..]. by apply (Hi id).
Qed.

Lemma given_kept answers unwritable opts_max action c c' :
  server_step answers unwritable opts_max action c c' -> given answers c -> given answers c'.
Proof.
  intros Hs Hi. destruct Hs as [action id p c c' _ Hp [p' Hm]|ec c Ha _|p c Ha Hst Hp|n c Hn|c Hc|c Hs|d c Hs _|id l c Hs|c Hs];
    try done.
  - intros j q Hj. rewrite (moved_conns _ _ _ _ _ _ _ Hm) in Hj. destruct (decide (j = id)) as [->|Hne].
    + rewrite list_lookup_insert_eq in Hj by by eapply lookup_lt_Some. injection Hj as <-.
      specialize (Hi id p Hp). destruct (moved_edge _ _ _ _ _ _ _ Hm); try done. destruct refusal; auto.
    + rewrite list_lookup_insert_ne in Hj by done. by apply (Hi j).
  - apply (given_same _ c); [|done]. intros id q. rewrite (proj2 (proj2 (proj2 (loop_after_same _ _)))). cbn.
    intros [Hq|[_ Hq]]%lookup_app_Some; [by left|]. apply list_lookup_singleton_Some in Hq as [_ <-]. by right.
  - apply (given_same _ c); [|done]. unfold closed_after. cbn zeta.
    destruct (resumes _); [|by left]. intros id q. rewrite (proj2 (proj2 (proj2 (loop_after_same _ _)))). by left.
Qed.

Lemma leaked_kept (answers unwritable : HttpResponse -> Prop) opts_max action c c' :
  (forall rs, answers rs -> ~ unwritable rs) ->
  server_step answers unwritable opts_max action c c' -> given answers c -> leaked c' = leaked c.
Proof.
  intros Hu Hs Hi. destruct Hs as [action id p c c' _ Hp [p' Hm]| | |n c Hn| | | | |]; try done.
  - destruct (moved_leaked _ _ _ _ _ _ _ Hm) as [->|[(rs & Ha & Hn) _]]; [done|].
    specialize (Hi id p Hp). by destruct p; try done; cbn in Ha; subst; destruct (Hu rs).
  - unfold loop_after. by destruct (_ && _).
  - unfold closed_after. cbn zeta. destruct (resumes _); [unfold loop_after; by destruct (_ && _)|done].
Qed.

(** ** Reports *)

Record reports (c : Core) : Prop := {
  r_once : NoDup (observed c);
  r_ended : forall id, id ∈ observed c -> exists p, conns c !! id = Some p /\ ended p = true
}.

Lemma ended_edge answers st p p' : edge answers st p p' -> ended p = true -> ended p' = true.
Proof. by destruct 1. Qed.

Lemma reports_same c c' :
  observed c' = observed c -> (forall id p, conns c !! id = Some p -> conns c' !! id = Some p) -> reports c -> reports c'.
Proof. intros Ho Hc [Hn He]. split; rewrite Ho; [done|]. intros id Hid. destruct (He id Hid) as (p & ? & ?). eauto. Qed.

Lemma observed_loop opts_max c : observed (loop_after opts_max c) = observed c.
Proof. unfold loop_after. by destruct (_ && _). Qed.

Lemma reports_moved answers unwritable id p c c' :
  conns c !! id = Some p -> connection_step answers unwritable id p c c' -> reports c -> reports c'.
Proof.
  intros Hp [p' Hm] [Hn He]. destruct Hm as [Hedge Hc _ _ _ _ _ _ Ho].
  assert (conns c' !! id = Some p') as Hp'.
  { rewrite Hc. apply list_lookup_insert_eq. by eapply lookup_lt_Some. }
  split.
  - destruct Ho as [->|(-> & Hep & _)]; [done|]. apply NoDup_app. split; [done|].
    split; [|apply NoDup_singleton]. intros j Hj ->%list_elem_of_singleton.
    destruct (He id Hj) as (q & Hq & Hend). congruence.
  - intros j Hj. destruct (decide (j = id)) as [->|Hne].
    + exists p'. split; [done|]. destruct Ho as [Ho|(_ & _ & Hend)]; [|done].
      rewrite Ho in Hj. destruct (He id Hj) as (q & Hq & Hend). eapply ended_edge; [exact Hedge|congruence].
    + rewrite Hc, list_lookup_insert_ne by done. apply He.
      destruct Ho as [Ho|[Ho _]]; rewrite Ho in Hj; [done|]. apply elem_of_app in Hj as [Hj|Hj]; [done|].
      by apply list_elem_of_singleton in Hj.
Qed.

Lemma reports_kept answers unwritable opts_max action c c' :
  server_step answers unwritable opts_max action c c' -> reports c -> reports c'.
Proof.
  intros Hs. destruct Hs as [action id p c c' _ Hp Hm| |p c Ha Hst Hp|n c Hn| | | | |];
    try (by apply reports_same); [by eapply reports_moved| |].
  - apply reports_same; [by rewrite observed_loop|]. intros id q Hq.
    rewrite (proj2 (proj2 (proj2 (loop_after_same _ _)))). cbn. by apply lookup_app_l_Some.
  - unfold closed_after. cbn zeta. destruct (resumes _); [|by apply reports_same].
    apply reports_same; [by rewrite observed_loop|]. intros id q Hq.
    by rewrite (proj2 (proj2 (proj2 (loop_after_same _ _)))).
Qed.

Section Claims.
Context {E : Type} `{Messages} (lib : Asio E) (opts : ServerOptions E) (handler : option (RequestHandler E)).

Notation cap := (so_max_connections opts).
Notation runs_to actions w w' := (run lib opts handler actions w = Some w').

Lemma counts_started (w : World E) : counts cap (core (env (started opts w))).
Proof.
  unfold started. refine (post_at (Accept opts) _ (fun c _ => counts cap c) _). apply post_Accept, counts_loop; [|done..]. by split; cbn; try lia.
Qed.

Lemma counts_run actions w w' : runs_to actions (started opts w) w' -> counts cap (core (env w')).
Proof.
  intros Hr. eapply (run_keeps lib opts handler _ (fun _ => True)); [|by apply Forall_forall| |exact Hr].
  - intros action c c' _ _ Hi Hs. by eapply counts_kept.
  - apply counts_started.
Qed.

Lemma sessions_run actions w w' : runs_to actions (started opts w) w' -> sessions (core (env w')).
Proof.
  intros Hr. eapply (run_keeps lib opts handler _ (fun _ => True)); [|by apply Forall_forall| |exact Hr].
  - intros action c c' _ _ Hi Hs. by eapply sessions_kept.
  - unfold started. refine (post_at (Accept opts) _ (fun c _ => sessions c) _). apply post_Accept.
    eapply (sessions_same (core (started_state (env w)))); try apply loop_after_same.
    + intros id p. by rewrite (proj2 (proj2 (proj2 (loop_after_same _ _)))).
    + split; done.
Qed.

Lemma looping_run actions w w' : Accepted true ∉ actions -> runs_to actions (started opts w) w' ->
  looping (core (env w')).
Proof.
  intros Hf Hr. eapply (run_keeps lib opts handler _ (fun a => a <> Accepted true)); [| | |exact Hr].
  - intros action c c' Ha _ Hi Hs. by eapply looping_kept.
  - apply Forall_forall. intros a Ha ->. by apply Hf, list_elem_of_In.
  - unfold started. refine (post_at (Accept opts) _ (fun c _ => looping c) _). apply post_Accept, loop_after_looping.
Qed.

(** Without a response that the library refuses nothing is leaked. *)
Definition writable : Prop := forall rs, answers opts handler rs -> ~ unwritable (E:=E) rs.

Lemma answerable_writable `{!MessageLaws} :
  (forall rs, answers opts handler rs -> answerable (checked_response rs)) -> writable.
Proof.
  intros Ha rs Hrs (alive & head & w & what & Hw).
  destruct (respond_message_spec rs alive head w) as (r & Er & Hr & _).
  destruct (Hr (Ha rs Hrs)) as [wire ->]. by rewrite Er in Hw.
Qed.

Lemma leaked_run actions w w' : writable -> runs_to actions (started opts w) w' -> leaked (env w') = 0.
Proof.
  intros Hu Hr.
  enough (leaked (core (env w')) = 0 /\ given (answers opts handler) (core (env w'))) as [? _] by done.
  eapply (run_keeps lib opts handler (fun c => leaked c = 0 /\ given (answers opts handler) c) (fun _ => True));
    [|by apply Forall_forall| |exact Hr].
  - intros action c c' _ _ [Hi Hg] Hs. split; [by rewrite (leaked_kept _ _ _ _ _ _ Hu Hs Hg)|by eapply given_kept].
  - unfold started. refine (post_at (Accept opts) _ (fun c _ => leaked c = 0 /\ given _ c) _). apply post_Accept.
    unfold loop_after. by destruct (_ && _).
Qed.

Lemma not_pending l : total pends l <= 0 <-> forall id p, l !! id = Some p -> counted p = false.
Proof.
  split.
  - intros Ht id p Hp. pose proof (total_zero pends l pends_nonneg Ht id p Hp) as Hz. unfold pends in Hz.
    by destruct (counted p).
  - intros Hc. induction l as [|p l IH]; [done|]. change (total pends (p :: l)) with (pends p + total pends l).
    unfold pends at 1. rewrite (Hc 0%nat p eq_refl). cbn [Z.b2z].
    enough (total pends l <= 0) by lia. apply IH. intros id q Hq. by apply (Hc (S id) q).
Qed.

(** C25: the accept loop.  In every state the server reaches,
    the count it keeps is that of the connections whose descriptor is open or whose
    release is still posted, and it never exceeds the cap; unless an accept failed,
    a server that is not stopping has an accept outstanding or waits at the cap;
    and the first release then puts the accept back. *)
Theorem connections_bounded actions w w' :
  run lib opts handler actions (started opts w) = Some w' ->
  let s := env w' in
  open_connections (acceptor s) = total live (conns s) + Z.of_nat (close_notices (acceptor s))
  /\ (0 < cap -> open_connections (acceptor s) <= cap)
  /\ (Accepted true ∉ actions -> stopping s = false ->
      accepting (acceptor s) = true \/ accept_paused (acceptor s) = true /\ open_connections (acceptor s) = cap)
  /\ (accept_paused (acceptor s) = true -> stopping s = false -> (0 < close_notices (acceptor s))%nat ->
      exists w'', perform lib opts handler SessionClosed w' = Some w'' /\ accepting (acceptor (env w'')) = true).
Proof.
  intros Hr. cbn zeta. pose proof (counts_run _ _ _ Hr) as [Ho _ _ Hc _ Hp].
  pose proof (sessions_run _ _ _ Hr) as [_ Hst _]. cbn in *.
  split_and!; [done|done| |].
  - intros Hf Hs. destruct (looping_run _ _ _ Hf Hr) as [Hl|[Hl|Hl]]; cbn in Hl; [congruence|by left|right].
    split; [done|]. destruct (Hp Hl). specialize (Hc ltac:(done)). lia.
  - intros Hpa Hs Hn. assert (stage (env w') <> Halted) as Hh by (intros Hh; rewrite Hh in Hst; congruence).
    rewrite perform_running by done. cbn [connection_of server_action].
    destruct (close_notices (acceptor (env w'))) as [|n] eqn:En; [lia|]. eexists. split; [reflexivity|].
    pose proof (closed_post (E:=E) opts n (core (env w')) w' eq_refl) as Hpost.
    refine (eq_trans (f_equal (fun c => accepting (acceptor c)) Hpost) _). clear Hpost.
    unfold closed_after, resumes. cbn. rewrite Hpa, Hs. cbn. unfold loop_after. cbn. destruct (Hp Hpa) as [Hpos _].
    specialize (Hc Hpos). rewrite (proj2 (Z.leb_gt _ _)) by lia. by rewrite andb_false_r.
Qed.

(** C26: the drain of [Stop].  The count of active requests is that
    of the requests read and not yet answered on the wire, and of those whose
    response the library refused to hold; [Stop] leaves the drain before its deadline
    only when no response is pending, and, when the library holds every response, it
    can leave as soon as that is so. *)
Theorem drain_waits actions w w' :
  run lib opts handler actions (started opts w) = Some w' ->
  let s := env w' in
  active s = total pends (conns s) + leaked s /\ 0 <= leaked s
  /\ (writable -> leaked s = 0)
  /\ (forall w'', perform lib opts handler (DrainEnds false) w' = Some w'' ->
      forall id p, conns s !! id = Some p -> counted p = false)
  /\ (writable -> stage s = Drain -> (forall id p, conns s !! id = Some p -> counted p = false) ->
      exists w'', perform lib opts handler (DrainEnds false) w' = Some w'').
Proof.
  intros Hr. cbn zeta. pose proof (counts_run _ _ _ Hr) as [_ Ha Hl _ _ _]. cbn in Ha, Hl.
  split_and!; [done|done| | |].
  - intros Hu. by eapply leaked_run.
  - intros w'' Hd. apply not_pending. apply perform_step in Hd as [_ Hs]. cbn in Hs.
    inversion Hs as [? ? ? ? ? Hid| | | | | |? ? _ Hz| |]; [done|]. cbn in Hz. apply Z.leb_le in Hz. lia.
  - intros Hu Hd Hc. apply not_pending in Hc. pose proof (leaked_run _ _ _ Hu Hr).
    rewrite perform_running by (rewrite Hd; done). cbn [connection_of server_action]. rewrite Hd.
    rewrite (proj2 (Z.leb_le _ _)) by lia. by eexists.
Qed.

(** C27: the abort of live sessions.  Whatever the race between
    an upgrade and [Stop], each WebSocket session the server has opened, the handshakes
    that complete during and after the sweep included, is aborted or in reach of the sweep;
    once the sweep is over, and when the pool is about to be joined, all of them have
    been aborted, so that no serve callback waits on a live one. *)
Theorem sessions_swept actions w w' :
  run lib opts handler actions (started opts w) = Some w' ->
  let s := env w' in
  (forall id p, conns s !! id = Some p -> in_session p = true -> attended id (core s))
  /\ (forall w'', perform lib opts handler Halts w' = Some w'' ->
      forall id p, conns s !! id = Some p -> in_session p = true -> id ∈ aborts (sockets s)).
Proof.
  intros Hr. cbn zeta. pose proof (sessions_run _ _ _ Hr) as [_ _ Ha]. cbn in Ha. split; [done|].
  intros w'' Hh id p Hp Hs. apply perform_step in Hh as [_ Hstep].
  inversion Hstep as [? ? ? ? ? Hid| | | | | | | |? Hst]; [done|]. cbn in Hst.
  destruct (Ha id p Hp Hs) as [Hab|Hw]; [done|]. cbn in Hw. rewrite Hst in Hw. by apply not_elem_of_nil in Hw.
Qed.

Lemma work_bounds actions w w' :
  stopping (env w) = true -> stage (env w) <> Running -> run lib opts handler actions w = Some w' ->
  Z.of_nat (length actions) + work_left (core (env w')) <= work_left (core (env w))
  /\ stopping (env w') = true /\ stage (env w') <> Running.
Proof.
  revert w. induction actions as [|action actions IH]; intros w Hs Hg Hr; cbn [run] in Hr.
  { injection Hr as <-. split; [cbn; lia|done]. }
  apply bind_Some in Hr as (w1 & Hp & Hr). apply perform_step in Hp as [_ Hstep].
  destruct (work_decreases _ _ _ _ _ _ Hstep Hs Hg) as (Hlt & Hs1 & Hg1).
  destruct (IH w1 Hs1 Hg1 Hr) as (Hle & ? & ?). split; [cbn [length]; lia|done].
Qed.

(** The steps of [Shutdown] alone. *)
Definition own_step (action : Action) : bool :=
  match action with DrainEnds _ | AbortsNext | Halts => true | _ => false end.

Lemma sweep_halts live : forall w, stage (env w) = Sweep live ->
  exists own w', forallb own_step own = true /\ run lib opts handler own w = Some w' /\ stage (env w') = Halted.
Proof.
  induction live as [|id live IH]; intros w Hw.
  - exists [Halts]. eexists. split; [done|]. cbn [run]. rewrite perform_running by (rewrite Hw; done).
    cbn [connection_of server_action]. by rewrite Hw.
  - assert (exists w1, perform lib opts handler AbortsNext w = Some w1 /\ stage (env w1) = Sweep live) as (w1 & Hp & Hs).
    { rewrite perform_running by (rewrite Hw; done). cbn [connection_of server_action]. rewrite Hw. by eexists. }
    destruct (IH w1 Hs) as (own & w' & Ho & Hr & Hh). exists (AbortsNext :: own), w'.
    split; [done|]. split; [|done]. cbn [run]. by rewrite Hp.
Qed.

(** C28: [Stop] comes to an end.  Once it has begun, the whole server, its
    connections, its sessions and [Stop] itself, makes no more steps than a number
    that its state at that moment gives, whatever the peers, the handlers and the order of
    completions; and from any state it is in meanwhile the steps of [Stop] alone lead
    to the halt. *)
Theorem stop_bounded w w1 actions w2 :
  perform lib opts handler Stops w = Some w1 -> run lib opts handler actions w1 = Some w2 ->
  Z.of_nat (length actions) <= work_left (core (env w1))
  /\ exists own w3, forallb own_step own = true /\ run lib opts handler own w2 = Some w3 /\ stage (env w3) = Halted.
Proof.
  intros Hstop Hr. apply perform_step in Hstop as [_ Hs].
  assert (stopping (env w1) = true /\ stage (env w1) <> Running) as [Hs1 Hg1].
  { change (stopping (core (env w1)) = true /\ stage (core (env w1)) <> Running).
    remember (core (env w1)) as c1. inversion Hs; [done|by subst]. }
  destruct (work_bounds actions w1 w2 Hs1 Hg1 Hr) as (Hle & Hs2 & Hg2).
  split; [pose proof (work_nonneg (core (env w2))); lia|].
  destruct (stage (env w2)) as [| |live|] eqn:Es; [done| |by eapply sweep_halts|by exists [], w2].
  assert (exists w3, perform lib opts handler (DrainEnds true) w2 = Some w3
                  /\ stage (env w3) = Sweep (live_sockets (env w2))) as (w3 & Hp & Hs3).
  { rewrite perform_running by (rewrite Es; done). cbn [connection_of server_action]. rewrite Es. by eexists. }
  destruct (sweep_halts _ w3 Hs3) as (own & w4 & Ho & Hr4 & Hh). exists (DrainEnds true :: own), w4.
  split; [done|]. split; [|done]. cbn [run]. by rewrite Hp.
Qed.

(** A connection is reported at most once, as rejected or as ended by the
    transport. *)
Lemma observed_once actions w w' : runs_to actions (started opts w) w' -> reports (core (env w')).
Proof.
  intros Hr. eapply (run_keeps lib opts handler _ (fun _ => True)); [|by apply Forall_forall| |exact Hr].
  - intros action c c' _ _ Hi Hs. by eapply reports_kept.
  - unfold started. refine (post_at (Accept opts) _ (fun c _ => reports c) _). apply post_Accept.
    split; rewrite observed_loop; [constructor|]. by intros id Hid%not_elem_of_nil.
Qed.

(** An accept that failed while the server runs is the last: the loop does not
    come back. *)
Lemma failed_accept_stalls actions w w' :
  accepting (acceptor (env w)) = false -> accept_paused (acceptor (env w)) = false ->
  run lib opts handler actions w = Some w' -> accepting (acceptor (env w')) = false.
Proof.
  intros Ha Hp Hr.
  enough (accepting (acceptor (core (env w'))) = false /\ accept_paused (acceptor (core (env w'))) = false) by tauto.
  eapply (run_keeps lib opts handler
    (fun c => accepting (acceptor c) = false /\ accept_paused (acceptor c) = false) (fun _ => True));
    [|by apply Forall_forall|exact (conj Ha Hp)|exact Hr].
  intros action c c' _ _ [Hi1 Hi2] Hs. destruct Hs as [action id p c c' _ _ [p' Hm]| |p c Hacc|n c Hn| | | | |]; try done.
  - rewrite (moved_acceptor _ _ _ _ _ _ _ Hm). by destruct p'.
  - congruence.
  - unfold closed_after, resumes. cbn. by rewrite Hi2.
Qed.

End Claims.

(** ** A server at work *)

(** A system without time or peers; one connection at a time, no handler. *)
Definition plain_asio : Asio unit :=
  mkAsio _ (fun _ e => (e, None)) (fun e => (e, 0)) (fun _ => mret None) (fun _ => mret None) (mret true)
    (fun _ => true) (fun _ _ => mret None).

Definition small_options (upgrades : bool) : ServerOptions unit :=
  mkServerOptions _ (lit "127.0.0.1") 0 1 1 None None None None
    (if upgrades then Some (fun _ _ => mret tt) else None) false false [] [] None.

Definition quiet : World unit := mkWorld [] tt.

Definition a_read : Parser := mkParser (mkWire (lit "GET") (lit "/") [] []) true false true.

Definition an_upgrade : Parser := mkParser (mkWire (lit "GET") (lit "/") [] []) true true true.

#[local] Notation play upgrades actions :=
  (run plain_asio (small_options upgrades) None actions (started (small_options upgrades) quiet)).

(** A connection is accepted, the loop waits at the cap, a request is answered
    and its connection closes. *)
Definition one_request : list Action :=
  [Accepted false; ReadDone 0%nat None a_read; HandlerRuns 0%nat []; Responds 0%nat;
   WriteDone 0%nat (Some (mkError other_category (lit "broken pipe")))].

Definition after {X} (o : option X) (x : X) : X := default x o.

Definition at_cap : World (Server unit) := Eval vm_compute in
  after (play false one_request) (started (small_options false) quiet).

Lemma at_cap_reached : play false one_request = Some at_cap.
Proof. by vm_compute. Qed.

Lemma connections_bounded_witness :
  exists w, perform plain_asio (small_options false) None SessionClosed at_cap = Some w
  /\ accepting (acceptor (env w)) = true.
Proof.
  destruct (connections_bounded plain_asio (small_options false) None one_request quiet at_cap at_cap_reached) as (_ & _ & _ & Hres).
  apply Hres; [reflexivity|reflexivity|apply le_n].
Defined.

(** The request is being handled when the server stops. *)
Definition stopping_script : list Action := [Accepted false; ReadDone 0%nat None a_read; Stops; HandlerRuns 0%nat []].

Definition drain_script : list Action :=
  stopping_script ++ [Responds 0%nat; WriteDone 0%nat None; ReadDone 0%nat None a_read;
    HandlerRuns 0%nat []; Responds 0%nat; WriteDone 0%nat None].

Definition draining : World (Server unit) := Eval vm_compute in after (play false drain_script) at_cap.

Lemma draining_reached : play false drain_script = Some draining.
Proof. by vm_compute. Qed.

Lemma no_handler_answerable rs : answers (small_options false) None rs -> answerable (checked_response rs).
Proof.
  intros [(rq & draws & m & d & w & w' & Hm & Hrs)|[(gate & rq & w & w' & Hg & _)| -> ]]; [|done|].
  - cbn in Hm. injection Hm as <- <-. cbv [mret M_ret] in Hrs. injection Hrs as _ <-.
    split; [cbn; lia|]. split; [by apply Forall_forall; intros|by left].
  - split; [cbn; lia|]. split; [by apply Forall_forall; intros|by left].
Qed.

(** A request in flight when the server stops is answered, and so is another
    that its connection then reads. *)
Lemma drain_waits_witness :
  leaked (env draining) = 0
  /\ exists w, perform plain_asio (small_options false) None (DrainEnds false) draining = Some w.
Proof.
  assert (writable (small_options false) None) as Hw by (apply (answerable_writable _ _ no_handler_answerable)).
  destruct (drain_waits plain_asio (small_options false) None drain_script quiet draining draining_reached) as (_ & _ & Hl & _ & Hd).
  split; [by apply Hl|]. apply Hd; [exact Hw|reflexivity|].
  intros [|id] p Hp; [|done]. cbn in Hp. injection Hp as <-. reflexivity.
Defined.

(** [Stop] against a connection that has just upgraded. *)
Definition racing_script : list Action :=
  [Accepted false; ReadDone 0%nat None an_upgrade; GateRuns 0%nat; GateAnswered 0%nat; UpgradeDone 0%nat None;
   Stops; DrainEnds false; Registers 0%nat].

Definition raced : World (Server unit) := Eval vm_compute in after (play true racing_script) at_cap.

Lemma raced_reached : play true racing_script = Some raced.
Proof. by vm_compute. Qed.

Lemma sessions_swept_witness : (0%nat : ConnectionId) ∈ aborts (sockets (env raced)).
Proof.
  destruct (sessions_swept plain_asio (small_options true) None racing_script quiet raced raced_reached) as (_ & Hh).
  by eapply (Hh _ eq_refl 0%nat).
Defined.

Definition before_stop : World (Server unit) := Eval vm_compute in
  after (play false [Accepted false; ReadDone 0%nat None a_read]) at_cap.

Definition just_stopped : World (Server unit) := Eval vm_compute in
  after (perform plain_asio (small_options false) None Stops before_stop) at_cap.

Lemma stop_bounded_witness :
  exists own w, forallb own_step own = true
  /\ run plain_asio (small_options false) None own just_stopped = Some w /\ stage (env w) = Halted.
Proof.
  destruct (stop_bounded plain_asio (small_options false) None before_stop just_stopped [] just_stopped) as [_ Hs];
    [vm_compute; reflexivity|reflexivity|exact Hs].
Defined.

(** A keep-alive read while the server drains: the answer in flight was promised
    another. *)
Example reads_while_stopping :
  exists w start, play false (stopping_script ++ [Responds 0%nat; WriteDone 0%nat None]) = Some w
  /\ stopping (env w) = true /\ conns (env w) !! 0%nat = Some (Reading start).
Proof. eexists _, _. split; [vm_compute; reflexivity|]. by split. Qed.

(** A handler's response that the library refuses leaves the drain of [Stop] to
    its deadline: the connection is gone and the count is not taken back. *)
Definition traced_read : Parser :=
  mkParser (mkWire (lit "GET") (lit "/")
    [(lit "traceparent", lit "00-4bf92f3577b34da6a3ce929d0e0e4736-00f067aa0ba902b7-01")] []) true false true.

Example refused_status_holds_stop :
  exists w, run plain_asio (small_options false) (Some (fun _ => mret (mkResponse 1000 [] [] [])))
    [Accepted false; ReadDone 0%nat None traced_read; HandlerRuns 0%nat []; Responds 0%nat; Stops]
    (started (small_options false) quiet) = Some w
  /\ conns (env w) = [Gone] /\ active (env w) = 1
  /\ perform plain_asio (small_options false) None (DrainEnds false) w = None.
Proof. eexists. split; [vm_compute; reflexivity|]. split_and!; by vm_compute. Qed.
