(* ===== verification/BeastDial.v ===== *)
(** http/beast_transport.cc, [BeastWebSocketClient]: the checks of a dial, its
    connection and handshakes, the choice of the wire, and the agreement of that
    choice with the one [BeastServerTransport] makes for the same upgrade. *)
From Stdlib Require Import ZArith Lia Strings.Byte.
From S2P Require Import Prelude Bytes Uri Headers Http1 Effects BeastClient WsSession BeastWire BeastServer.

Local Open Scope Z_scope.

Record TlsOptions := mkTls { tls_verify_peer : bool; tls_ca_pem : bytes }.

(** [BeastWebSocketClient::Options]. *)
Record DialOptions := mkDialOptions {
  do_host : bytes;
  do_port : Z;
  do_tls : bool;
  do_tls_options : TlsOptions;
  do_target : bytes;
  do_headers : Headers;
  do_offer_json_frames : bool;
  do_raw_text_frames : bool;
  do_handshake_timeout_ms : Z;
  do_idle_timeout_seconds : Z
}.

(** [WebSocketDialRequest]. *)
Record WebSocketDialRequest := mkDialRequest {
  dr_host : bytes;
  dr_port : Z;
  dr_tls : bool;
  dr_tls_options : TlsOptions;
  dr_target : bytes;
  dr_headers : Headers;
  dr_raw_text_frames : bool;
  dr_handshake_timeout_ms : Z;
  dr_idle_timeout_seconds : Z
}.

(** What the decorator does to the fields of the upgrade request. *)
Inductive FieldEdit := InsertField (name value : bytes) | SetField (name value : bytes).

Record UpgradeRequest := mkUpgrade { ug_host : bytes; ug_target : bytes; ug_edits : list FieldEdit }.

(** The timeouts of the WebSocket stream; its message bound is
    [Frame.kMaxMessageBytes]. *)
Record StreamOptions := mkStreamOptions { st_handshake_timeout_ms : Z; st_idle_timeout_seconds : Z }.

(** The answer to the upgrade: its status and reason, and its
    Sec-WebSocket-Protocol field, empty when absent. *)
Record HandshakeResponse := mkHandshake { hr_status : Z; hr_reason : bytes; hr_protocol : bytes }.

Inductive upgrade_error := UpgradeDeclined | UpgradeFailed (message : bytes).

(** The operations of the libraries; an error is its message. *)
Record DialLib (E : Type) := mkDialLib {
  dl_tls12_floor : M E bool;
  dl_set_verify_mode : bool -> M E (option bytes);
  dl_add_certificate_authority : bytes -> M E (option bytes);
  dl_set_default_verify_paths : M E (option bytes);
  dl_resolve : bytes -> bytes -> M E (option bytes);
  dl_set_host_name : bytes -> M E bool;
  dl_host_name_verification : bytes -> M E (option bytes);
  dl_connect : Z -> M E (option bytes);
  dl_tls_handshake : Z -> M E (option bytes);
  dl_upgrade : UpgradeRequest -> StreamOptions -> M E (option upgrade_error * HandshakeResponse)
}.
Arguments dl_tls12_floor {E} _.
Arguments dl_set_verify_mode {E} _ _.
Arguments dl_add_certificate_authority {E} _ _.
Arguments dl_set_default_verify_paths {E} _.
Arguments dl_resolve {E} _ _ _.
Arguments dl_set_host_name {E} _ _.
Arguments dl_host_name_verification {E} _ _.
Arguments dl_connect {E} _ _.
Arguments dl_tls_handshake {E} _ _.
Arguments dl_upgrade {E} _ _ _.

(** What a dial does to the network, in order. *)
Inductive DialEvent := Resolves (host service : bytes) | Connects | Secures | Upgrades (ug : UpgradeRequest) (answer : option HandshakeResponse).

Record Dialing (E : Type) := mkDialing { dial_trace : list DialEvent; dial_env : E }.
Arguments mkDialing {E} _ _.
Arguments dial_trace {E} _.
Arguments dial_env {E} _.

(** The session a dial returns: its wire and its stream's options. *)
Record DialedSession := mkDialed { dialed_wire : Wire; dialed_stream : StreamOptions }.

Section Dial.
Context {E : Type} (lib : DialLib E).

Notation IO := (M (Dialing E)).

(** A call of a library, on record when it goes out to the network. *)
Definition calls {A} (event : A -> list DialEvent) (m : M E A) : IO A := fun w =>
  match m (mkWorld (clog w) (dial_env (env w))) with
  | (w', Ret a) => (mkWorld (clog w') (mkDialing (dial_trace (env w) ++ event a) (env w')), Ret a)
  | (w', Throw what) => (mkWorld (clog w') (mkDialing (dial_trace (env w)) (env w')), Throw what)
  end.

Definition local_call {A} (m : M E A) : IO A := calls (fun _ => []) m.

Definition dial_error (what : bytes) (retryable : bool) : Error :=
  Error_Transport (lit "beast websocket: " ++ what) retryable.

Definition invalid_dial (what : bytes) : Error := Error_Validation (lit "beast websocket: " ++ what).

(** The message of the failure, empty on success. *)
Definition SetupClientTlsContext (tls : TlsOptions) : IO bytes :=
  floor ← local_call (dl_tls12_floor lib);
  if negb (floor : bool) then mret (lit "cannot set the TLS 1.2 version floor")
  else if negb (tls_verify_peer tls) then _ ← local_call (dl_set_verify_mode lib false); mret []
  else
    failed ← local_call (dl_set_verify_mode lib true);
    match failed with
    | Some message => mret (lit "cannot enable TLS verification: " ++ message)
    | None =>
      if bytes_eqb (tls_ca_pem tls) [] then _ ← local_call (dl_set_default_verify_paths lib); mret []
      else
        failed ← local_call (dl_add_certificate_authority lib (tls_ca_pem tls));
        mret (match failed with Some message => lit "invalid ca_pem: " ++ message | None => [] end)
    end.

Section Options.
Context (opts : DialOptions).

(** The options that [Dial] refuses. *)
Definition dial_refused : option Error :=
  if bytes_eqb (do_host opts) [] then Some (invalid_dial (lit "options need a host"))
  else
    match FindUnsafeHeader (do_headers opts) with
    | Some unsafe =>
      Some (invalid_dial (quoted (lit "upgrade header '") ++ unsafe ++ quoted (lit "' contains forbidden bytes")))
    | None =>
      if negb (ValidRequestLineField (do_target opts)) then
        Some (invalid_dial (lit "upgrade target contains forbidden bytes"))
      else if do_raw_text_frames opts && do_offer_json_frames opts then
        Some (invalid_dial (lit "raw_text_frames and offer_json_frames cannot both be set (raw text is unnegotiated; the JSON-frames offer would select a different wire)"))
      else None
    end.

Definition default_port : Z := if do_tls opts then 443 else 80.

Definition dial_port : Z := if do_port opts =? 0 then default_port else do_port opts.

Definition handshake_budget : Z := Z.max (do_handshake_timeout_ms opts) 1.

Definition JsonFramesToken : bytes := lit "smithy.eventstream.v1+json".

Definition upgrade_edits : list FieldEdit :=
  map (fun field => InsertField (fst field) (snd field)) (do_headers opts)
  ++ if do_offer_json_frames opts then [SetField (lit "sec-websocket-protocol") JsonFramesToken] else [].

Definition upgrade_request : UpgradeRequest :=
  mkUpgrade
    (if dial_port =? default_port then do_host opts else do_host opts ++ lit ":" ++ int_text dial_port)
    (match do_target opts with [] => lit "/" | target => target end)
    upgrade_edits.

Definition stream_options : StreamOptions :=
  mkStreamOptions handshake_budget (Z.max (do_idle_timeout_seconds opts) 1).

Definition upgrade_refusal (ec : upgrade_error) (answer : HandshakeResponse) : Error :=
  dial_error (lit "upgrade of " ++ do_host opts ++ do_target opts
              ++ match ec with
                 | UpgradeDeclined =>
                   lit " refused: HTTP " ++ int_text (hr_status answer)
                   ++ match hr_reason answer with [] => [] | reason => lit " " ++ reason end
                 | UpgradeFailed message => lit " failed: " ++ message
                 end) false.

(** The wire of a session whose upgrade was answered. *)
Definition choose_wire (answer : HandshakeResponse) : Outcome Wire :=
  let selected := hr_protocol answer in
  let unraw :=
    if bytes_eqb selected [] then Ok kBinary
    else if negb (do_offer_json_frames opts) || negb (bytes_eqb selected JsonFramesToken) then
      Err (dial_error (lit "server selected an unoffered subprotocol: " ++ selected) false)
    else Ok kJsonFrames in
  match unraw with
  | Ok wire => Ok (if do_raw_text_frames opts then kRawText else wire)
  | Err error => Err error
  end.

Definition FinishDial : IO (Outcome DialedSession) :=
  handshake ← calls (fun r => [Upgrades upgrade_request
                                 (match fst r with None => Some (snd r) | Some _ => None end)])
                (dl_upgrade lib upgrade_request stream_options);
  mret (match fst handshake with
        | Some ec => Err (upgrade_refusal ec (snd handshake))
        | None =>
          match choose_wire (snd handshake) with
          | Ok wire => Ok (mkDialed wire stream_options)
          | Err error => Err error
          end
        end).

(** The TLS half of the stream's setup. *)
Definition secure_stream : IO (option Error) :=
  tls_error ← SetupClientTlsContext (do_tls_options opts);
  if negb (bytes_eqb tls_error []) then mret (Some (invalid_dial tls_error))
  else
    named ← local_call (dl_set_host_name lib (do_host opts));
    if negb (named : bool) then mret (Some (dial_error (lit "cannot set SNI host name") true))
    else if tls_verify_peer (do_tls_options opts) then
      failed ← local_call (dl_host_name_verification lib (do_host opts));
      mret (match failed with
            | Some message => Some (dial_error (lit "cannot enable hostname verification: " ++ message) true)
            | None => None
            end)
    else mret None.

Definition tls_handshake : IO (option Error) :=
  failed ← calls (fun _ => [Secures]) (dl_tls_handshake lib handshake_budget);
  mret (match failed with
        | Some message =>
          Some (dial_error (lit "TLS handshake with " ++ do_host opts ++ lit " failed: " ++ message) false)
        | None => None
        end).

Definition Dial : IO (Outcome DialedSession) :=
  match dial_refused with
  | Some error => mret (Err error)
  | None =>
    failed ← calls (fun _ => [Resolves (do_host opts) (int_text dial_port)])
               (dl_resolve lib (do_host opts) (int_text dial_port));
    match failed with
    | Some message => mret (Err (dial_error (lit "cannot resolve " ++ do_host opts ++ lit ": " ++ message) true))
    | None =>
      unsecured ← (if do_tls opts then secure_stream else mret None);
      match unsecured with
      | Some error => mret (Err error)
      | None =>
        failed ← calls (fun _ => [Connects]) (dl_connect lib handshake_budget);
        match failed with
        | Some message =>
          mret (Err (dial_error (lit "cannot connect to " ++ do_host opts ++ lit ":" ++ int_text dial_port
                                 ++ lit ": " ++ message) true))
        | None =>
          unsecured ← (if do_tls opts then tls_handshake else mret None);
          match unsecured with
          | Some error => mret (Err error)
          | None => FinishDial
          end
        end
      end
    end
  end.

End Options.

(** The dialer a generated streaming client calls. *)
Definition options_of (request : WebSocketDialRequest) : DialOptions :=
  mkDialOptions (dr_host request) (dr_port request) (dr_tls request) (dr_tls_options request) (dr_target request)
    (dr_headers request) false (dr_raw_text_frames request) (dr_handshake_timeout_ms request)
    (dr_idle_timeout_seconds request).

Definition Dialer (request : WebSocketDialRequest) : IO (Outcome DialedSession) := Dial (options_of request).

End Dial.

(** ** What a dial does *)

Section Spec.
Context {E : Type} (lib : DialLib E).

Notation IO := (M (Dialing E)).

Definition does {A} (m : IO A) (Q : list DialEvent -> Result A -> Prop) : Prop :=
  forall w, exists h, dial_trace (env (fst (m w))) = dial_trace (env w) ++ h /\ Q h (snd (m w)).

Lemma does_ret {A} (a : A) (Q : list DialEvent -> Result A -> Prop) : Q [] (Ret a) -> does (mret a) Q.
Proof. intros HQ w. exists []. by rewrite app_nil_r. Qed.

Lemma does_bind {A B} (m : IO A) (f : A -> IO B) Q :
  does m (fun h r => match r with
                     | Ret a => does (f a) (fun h' r' => Q (h ++ h') r')
                     | Throw what => Q h (Throw what)
                     end) ->
  does (m ≫= f) Q.
Proof.
  intros Hm w. destruct (Hm w) as (h & Ht & HQ). cbv [mbind M_bind]. destruct (m w) as [w1 [a|what]]; cbn in *; [|eauto].
  destruct (HQ w1) as (h' & Ht' & HQ'). exists (h ++ h'). split; [|done]. by rewrite Ht', Ht, app_assoc.
Qed.

Lemma does_calls {A} (event : A -> list DialEvent) (m : M E A) (Q : list DialEvent -> Result A -> Prop) :
  (forall a, Q (event a) (Ret a)) -> (forall what, Q [] (Throw what)) -> does (calls event m) Q.
Proof.
  intros Hr Ht w. unfold calls. destruct (m _) as [w' [a|what]]; cbn; [by eauto|exists []; by rewrite app_nil_r].
Qed.

Lemma does_weaken {A} (m : IO A) (Q Q' : list DialEvent -> Result A -> Prop) :
  does m Q -> (forall h r, Q h r -> Q' h r) -> does m Q'.
Proof. intros Hm HQ w. destruct (Hm w) as (h & ? & ?). eauto. Qed.

(** Nothing goes out. *)
Definition silent {A} (m : IO A) : Prop := does m (fun h _ => h = []).

Lemma silent_bind {A B} (m : IO A) (f : A -> IO B) : silent m -> (forall a, silent (f a)) -> silent (m ≫= f).
Proof.
  intros Hm Hf. apply does_bind. eapply does_weaken; [exact Hm|]. intros h [a|what] ->; [|done].
  eapply does_weaken; [apply Hf|]. by intros h' r ->.
Qed.

Lemma silent_local {A} (m : M E A) : silent (local_call m).
Proof. by apply does_calls. Qed.

Lemma silent_ret {A} (a : A) : silent (mret a).
Proof. by apply does_ret. Qed.

Lemma secure_stream_silent opts : silent (secure_stream lib opts).
Proof.
  unfold secure_stream, SetupClientTlsContext.
  repeat first [apply silent_bind; [|intros ?]|apply silent_local|apply silent_ret
               |match goal with |- silent (match ?x with _ => _ end) => destruct x end].
Qed.

(** The phases before the upgrade, as far as they got. *)
Definition reaching (opts : DialOptions) (h : list DialEvent) : Prop :=
  h `prefix_of` [Resolves (do_host opts) (int_text (dial_port opts)); Connects]
                ++ if do_tls opts then [Secures] else [].

(** The upgrade went out on a connection that all the phases prepared. *)
Definition upgrading (opts : DialOptions) (answer : option HandshakeResponse) (h : list DialEvent) : Prop :=
  h = [Resolves (do_host opts) (int_text (dial_port opts)); Connects] ++ (if do_tls opts then [Secures] else [])
      ++ [Upgrades (upgrade_request opts) answer].

(** The ways a dial can go. *)
Inductive dialed (opts : DialOptions) : list DialEvent -> Result (Outcome DialedSession) -> Prop :=
| dial_refuses e : dial_refused opts = Some e -> dialed opts [] (Ret (Err e))
| dial_throws h what : dial_refused opts = None -> reaching opts h -> dialed opts h (Throw what)
| dial_stops h e : dial_refused opts = None -> reaching opts h -> dialed opts h (Ret (Err e))
| dial_declined h e : dial_refused opts = None -> upgrading opts None h -> err_retryable e = false ->
    dialed opts h (Ret (Err e))
| dial_answered h answer : dial_refused opts = None -> upgrading opts (Some answer) h ->
    dialed opts h (Ret (match choose_wire opts answer with
                        | Ok wire => Ok (mkDialed wire (stream_options opts))
                        | Err e => Err e
                        end)).

Lemma Dial_dialed opts : does (Dial lib opts) (dialed opts).
Proof.
  unfold Dial. destruct (dial_refused opts) as [e|] eqn:Er; [by apply does_ret; constructor|].
  set (resolved := Resolves (do_host opts) (int_text (dial_port opts))).
  assert (forall h, h = [] \/ h = [resolved] \/ h = [resolved; Connects]
          \/ do_tls opts = true /\ h = [resolved; Connects; Secures] -> reaching opts h) as Hreach.
  { unfold reaching. fold resolved. intros h [->|[->|[->|[-> ->]]]]; by eexists. }
  apply does_bind, does_calls; [|intros what; apply dial_throws; auto].
  intros [message|]; [apply does_ret, dial_stops; auto|].
  assert (silent (if do_tls opts then secure_stream lib opts else mret None)) as Hsec.
  { destruct (do_tls opts); [apply secure_stream_silent|apply silent_ret]. }
  apply does_bind. eapply does_weaken; [exact Hsec|]. intros h [[e|]|what] ->;
    [apply does_ret, dial_stops; auto| |apply dial_throws; auto].
  apply does_bind, does_calls; [|intros what; apply dial_throws; auto].
  intros [message|]; [apply does_ret, dial_stops; auto|].
  apply does_bind.
  assert (does (if do_tls opts then tls_handshake lib opts else mret None)
            (fun h r => match r with
                        | Ret None => h = if do_tls opts then [Secures] else []
                        | Ret (Some _) => do_tls opts = true /\ h = [Secures]
                        | Throw _ => h = []
                        end)) as Htls.
  { destruct (do_tls opts); [|by apply does_ret]. unfold tls_handshake. apply does_bind, does_calls; [|done].
    by intros [message|]; apply does_ret. }
  eapply does_weaken; [exact Htls|]. intros h [[e|]|what] Hh.
  - apply does_ret, dial_stops; [done|]. apply Hreach. destruct Hh as [? ->]. auto.
  - unfold FinishDial. apply does_bind, does_calls.
    + intros [[ec|] answer]; apply does_ret; cbn [fst snd].
      * apply dial_declined; [done| |done]. unfold upgrading. fold resolved. by rewrite Hh.
      * apply dial_answered; [done|]. unfold upgrading. fold resolved. by rewrite Hh.
    + intros what. apply dial_throws; [done|]. apply Hreach. rewrite Hh. destruct (do_tls opts); auto.
  - apply dial_throws; [done|]. apply Hreach. rewrite Hh. auto.
Qed.

End Spec.

(** ** The two ends of an upgrade *)

(** The values of Sec-WebSocket-Protocol after the edits: an insertion adds one,
    a setting replaces them. *)
Definition offered (edits : list FieldEdit) : list bytes :=
  fold_left (fun values edit =>
    match edit with
    | InsertField name value => if HeaderNameEquals name (lit "sec-websocket-protocol") then values ++ [value] else values
    | SetField name value => if HeaderNameEquals name (lit "sec-websocket-protocol") then [value] else values
    end) edits [].

(** The wire that a server with options [so] gives the session of an upgrade, and
    the subprotocol its answer selects. *)
Definition server_wire {E} (so : ServerOptions E) (ug : UpgradeRequest) : Wire :=
  upgrade_mode so
    (mkRequest (lit "GET") (ug_target ug)
       (map (fun value => (lit "sec-websocket-protocol", value)) (offered (ug_edits ug))) [] []).

Definition selected_protocol {E} (so : ServerOptions E) (ug : UpgradeRequest) : bytes :=
  match server_wire so ug with kJsonFrames => JsonFramesToken | _ => [] end.

Lemma offered_inserts h : offered (map (fun field => InsertField (fst field) (snd field)) h)
  = GetAll (lit "sec-websocket-protocol") h.
Proof.
  unfold offered. enough (forall values, fold_left _ (map _ h) values = values ++ GetAll (lit "sec-websocket-protocol") h)
    as Hv by apply Hv.
  induction h as [|[n v] h IH]; intros values; cbn [map fold_left fst snd]; [by rewrite app_nil_r|].
  rewrite GetAll_cons, IH. destruct (HeaderNameEquals n _); [by rewrite <- app_assoc|done].
Qed.

Lemma offered_upgrade opts :
  offered (upgrade_edits opts)
  = if do_offer_json_frames opts then [JsonFramesToken] else GetAll (lit "sec-websocket-protocol") (do_headers opts).
Proof.
  unfold upgrade_edits. destruct (do_offer_json_frames opts).
  - unfold offered. rewrite fold_left_app. reflexivity.
  - rewrite app_nil_r. apply offered_inserts.
Qed.

Lemma offers_selected {E} (so : ServerOptions E) ug :
  server_wire so ug = kJsonFrames -> offered (ug_edits ug) <> [].
Proof.
  unfold server_wire, upgrade_mode. destruct (so_websocket_raw_text_frames so); [done|].
  intros Hs He. rewrite He in Hs. destruct (so_websocket_accept_json_frames so); done.
Qed.

Lemma unraw_server {E} (so : ServerOptions E) ug :
  server_wire so ug = kRawText <-> so_websocket_raw_text_frames so = true.
Proof. unfold server_wire, upgrade_mode. destruct (so_websocket_raw_text_frames so); [done|]. by destruct (_ && _). Qed.

Lemma choose_wire_agrees {E} (so : ServerOptions E) opts answer :
  do_raw_text_frames opts = so_websocket_raw_text_frames so ->
  hr_protocol answer = selected_protocol so (upgrade_request opts) ->
  match choose_wire opts answer with
  | Ok wire => wire = server_wire so (upgrade_request opts)
  | Err _ => do_offer_json_frames opts = false /\ GetAll (lit "sec-websocket-protocol") (do_headers opts) <> []
  end.
Proof.
  intros Hraw Hsel. unfold choose_wire. rewrite Hsel. unfold selected_protocol.
  destruct (server_wire so (upgrade_request opts)) eqn:Ew.
  - replace (do_raw_text_frames opts) with false; [done|].
    destruct (so_websocket_raw_text_frames so) eqn:Es; [|done]. apply (unraw_server so (upgrade_request opts)) in Es. congruence.
  - replace (do_raw_text_frames opts) with false.
    2: { destruct (so_websocket_raw_text_frames so) eqn:Es; [|done].
         apply (unraw_server so (upgrade_request opts)) in Es. congruence. }
    pose proof (offers_selected _ _ Ew) as Ho. cbn [ug_edits upgrade_request] in Ho. rewrite offered_upgrade in Ho.
    destruct (do_offer_json_frames opts); [done|]. split; [done|exact Ho].
  - apply unraw_server in Ew. by rewrite Hraw, Ew.
Qed.

Lemma reaching_quiet opts h ug answer : reaching opts h -> Upgrades ug answer ∉ h.
Proof.
  intros [k Hk] Hin. assert (Upgrades ug answer ∈ h ++ k) as Hin' by (apply elem_of_app; by left).
  rewrite <- Hk in Hin'. destruct (do_tls opts); cbn in Hin'; set_solver.
Qed.

Lemma upgrading_once opts answer h ug answer' :
  upgrading opts answer h -> Upgrades ug answer' ∈ h -> ug = upgrade_request opts /\ answer' = answer.
Proof. unfold upgrading. intros ->. destruct (do_tls opts); cbn; set_solver. Qed.

(** The dialer and the server agree on the wire.  A dial whose
    options are refused touches no network; an upgrade goes out at most once, after
    its connection is ready, with a target and headers that hold no byte that could
    forge a line of it; against a server with the same choice of raw text, an answered
    upgrade gives both ends the same wire, whatever each offers or accepts, and fails
    only when the caller's own headers asked for a subprotocol that its options do not
    offer. *)
Theorem dialed_wires_agree {E E'} (lib : DialLib E) opts (so : ServerOptions E') w w' r :
  Dial lib opts w = (w', r) ->
  do_raw_text_frames opts = so_websocket_raw_text_frames so ->
  exists h, dial_trace (env w') = dial_trace (env w) ++ h
  /\ (forall e, dial_refused opts = Some e -> h = [] /\ r = Ret (Err e))
  /\ (forall ug answer, Upgrades ug answer ∈ h ->
      FindUnsafeHeader (do_headers opts) = None /\ ValidRequestLineField (do_target opts) = true
      /\ ug = upgrade_request opts)
  /\ (forall d, r = Ret (Ok d) -> exists answer, Upgrades (upgrade_request opts) (Some answer) ∈ h)
  /\ forall answer, Upgrades (upgrade_request opts) (Some answer) ∈ h ->
     hr_protocol answer = selected_protocol so (upgrade_request opts) ->
     match r with
     | Ret (Ok d) => dialed_wire d = server_wire so (upgrade_request opts)
     | _ => do_offer_json_frames opts = false /\ GetAll (lit "sec-websocket-protocol") (do_headers opts) <> []
     end.
Proof.
  intros Hd Hraw. destruct (Dial_dialed lib opts w) as (h & Ht & Hh). rewrite Hd in Ht, Hh. exists h. split; [done|].
  assert (dial_refused opts = None ->
    FindUnsafeHeader (do_headers opts) = None /\ ValidRequestLineField (do_target opts) = true) as Hsafe.
  { unfold dial_refused. destruct (bytes_eqb _ _); [done|]. destruct (FindUnsafeHeader _); [done|].
    by destruct (ValidRequestLineField _). }
  cbn [snd] in Hh. destruct Hh as [e He|h what Hn Hr|h e Hn Hr|h e Hn Hu Hret|h answer Hn Hu].
  - split_and!; [intros ? ?; split; [done|congruence]|by intros ? ? ?%not_elem_of_nil|done|by intros ? ?%not_elem_of_nil].
  - split_and!; [congruence|by intros ? ? ?%(reaching_quiet opts)|done|by intros ? ?%(reaching_quiet opts)].
  - split_and!; [congruence|by intros ? ? ?%(reaching_quiet opts)|done|by intros ? ?%(reaching_quiet opts)].
  - split_and!; [congruence| |done|by intros ? [_ ?]%(upgrading_once _ _ _ _ _ Hu)].
    intros ug a [-> _]%(upgrading_once _ _ _ _ _ Hu). by destruct (Hsafe Hn).
  - split_and!; [congruence| | |].
    + intros ug a [-> _]%(upgrading_once _ _ _ _ _ Hu). by destruct (Hsafe Hn).
    + intros d _. exists answer. unfold upgrading in Hu. rewrite Hu. set_solver.
    + intros a [_ [= ->]]%(upgrading_once _ _ _ _ _ Hu) Hp.
      pose proof (choose_wire_agrees so opts answer Hraw Hp) as Hc. by destruct (choose_wire opts answer).
Qed.

(** A peer that accepts JSON frames. *)
Definition json_server : ServerOptions unit :=
  mkServerOptions _ (lit "127.0.0.1") 0 1 0 None None None None (Some (fun _ _ => mret tt)) true false [] [] None.

Definition json_dial : DialOptions :=
  mkDialOptions (lit "stream.example.com") 0 true (mkTls true []) (lit "/events") [(lit "authorization", lit "t")]
    true false 30000 300.

Definition json_lib : DialLib unit :=
  mkDialLib _ (mret true) (fun _ => mret None) (fun _ => mret None) (mret None) (fun _ _ => mret None) (fun _ => mret true)
    (fun _ => mret None) (fun _ => mret None) (fun _ => mret None)
    (fun ug _ => mret (None, mkHandshake 101 (lit "Switching Protocols") (selected_protocol json_server ug))).

Definition json_dialed : World (Dialing unit) * Result (Outcome DialedSession) :=
  Dial json_lib json_dial (mkWorld [] (mkDialing [] tt)).

Lemma dialed_wires_agree_witness :
  exists d, snd json_dialed = Ret (Ok d) /\ dialed_wire d = server_wire json_server (upgrade_request json_dial)
  /\ dialed_wire d = kJsonFrames.
Proof.
  destruct (dialed_wires_agree json_lib json_dial json_server (mkWorld [] (mkDialing [] tt)) (fst json_dialed)
              (snd json_dialed) eq_refl eq_refl) as (h & Ht & _ & _ & _ & Ha).
  specialize (Ha (mkHandshake 101 (lit "Switching Protocols") JsonFramesToken)).
  vm_compute in Ht. eexists. split; [vm_compute; reflexivity|]. split; [|reflexivity].
  apply Ha; [|reflexivity]. rewrite <- Ht. vm_compute. set_solver.
Defined.

(** [Dial] is not contained: what a library throws crosses it. *)
Example dial_lets_through :
  snd (Dial (mkDialLib unit (mret true) (fun _ => mret None) (fun _ => mret None) (mret None)
               (fun _ _ w => (w, Throw (Some (lit "bad_alloc")))) (fun _ => mret true) (fun _ => mret None)
               (fun _ => mret None) (fun _ => mret None) (fun _ _ => mret (None, mkHandshake 101 [] [])))
         json_dial (mkWorld [] (mkDialing [] tt)))
  = Throw (Some (lit "bad_alloc")).
Proof. by vm_compute. Qed.
