(* ===== verification/SessionHandles.v ===== *)
(** eventstream/event_stream.h, the seam between a stream and its handles:
    [SharedSessionState], [EventStreamHandle]'s holds and [SharedViewOwner::End],
    as a state machine whose steps are the regions between lock and unlock, the
    socket calls, and the waits. *)
From Stdlib Require Import ZArith Lia Strings.Byte.
From stdpp Require Import relations.
From S2P Require Import Prelude Bytes.

(** [Hold]: a socket the stream owns is held by reference, a borrowed one is
    pinned. *)
Inductive Hold := Referenced | Pinned.

(** A handle call: not begun or over, inside the socket's call (for [SendAsync],
    until the completion), or over without the socket. *)
Inductive HandleCall := Idle | Inside (hold : Hold) | StreamEnded.

(** The stream that owns the view: serving, or in [End]: the pointer is null,
    the socket is closed, the wait for [active] sleeps or was notified, and
    [End] has returned. *)
Inductive StreamPhase := Serving | Revoked | Shut | Asleep | Notified | Ended.

Record Session := mkSession {
  socket : bool;               (* [SharedSessionState::socket] is not null *)
  active : nat;
  owned : bool;                (* [owner] was engaged *)
  references : nat;            (* of the owned socket *)
  closed : bool;               (* [Close] was called on the socket by [End] *)
  stream : StreamPhase;
  handles : list HandleCall
}.

(** Whether the socket exists: while it is referenced, or while its borrow
    lasts, which [End] must outlive. *)
Definition alive (s : Session) : bool :=
  if owned s then (0 <? references s)%nat else match stream s with Ended => false | _ => true end.

(** [EventStreamHandle::Acquire]. *)
Definition Acquire (s : Session) : Session * option Hold :=
  if negb (socket s) then (s, None)
  else if owned s && (0 <? references s)%nat
  then (mkSession (socket s) (active s) (owned s) (S (references s)) (closed s) (stream s) (handles s), Some Referenced)
  else (mkSession (socket s) (S (active s)) (owned s) (references s) (closed s) (stream s) (handles s), Some Pinned).

(** [ReleasePin], with its notification. *)
Definition ReleasePin (s : Session) : Session :=
  let active' := (active s - 1)%nat in
  mkSession (socket s) active' (owned s) (references s) (closed s)
    (match active', stream s with O, Asleep => Notified | _, p => p end) (handles s).

(** [EventStreamHandle::Release]; a reference is dropped with its [Hold]. *)
Definition Release (hold : Hold) (s : Session) : Session :=
  match hold with
  | Pinned => ReleasePin s
  | Referenced => mkSession (socket s) (active s) (owned s) (references s - 1) (closed s) (stream s) (handles s)
  end.

Definition with_handle (i : nat) (h : HandleCall) (s : Session) : Session :=
  mkSession (socket s) (active s) (owned s) (references s) (closed s) (stream s) (<[i:=h]> (handles s)).

Definition with_stream (p : StreamPhase) (s : Session) : Session :=
  mkSession (socket s) (active s) (owned s) (references s) (closed s) p (handles s).

(** [SharedViewOwner::End], region by region. *)
Definition revoke (s : Session) : Session :=
  mkSession false (active s) (owned s) (references s) (closed s) Revoked (handles s).

Definition shut (s : Session) : Session :=
  mkSession (socket s) (active s) (owned s) (references s) true Shut (handles s).

(** The wait on [idle], when first reached and after a notification; the stream
    then drops its own reference. *)
Definition drain (s : Session) : Session :=
  match active s with
  | O => mkSession (socket s) (active s) (owned s)
           (if owned s then references s - 1 else references s)%nat (closed s) Ended (handles s)
  | S _ => with_stream Asleep s
  end.

Inductive session_step : Session -> Session -> Prop :=
| begin_call s i s' hold :
  handles s !! i = Some Idle -> Acquire s = (s', hold) ->
  session_step s (with_handle i (match hold with Some hold => Inside hold | None => StreamEnded end) s')
| end_call s i hold :
  handles s !! i = Some (Inside hold) -> session_step s (with_handle i Idle (Release hold s))
| call_again s i : handles s !! i = Some StreamEnded -> session_step s (with_handle i Idle s)
| copy_handle s :
  session_step s (mkSession (socket s) (active s) (owned s) (references s) (closed s) (stream s) (handles s ++ [Idle]))
| end_revokes s : stream s = Serving -> session_step s (revoke s)
| end_closes s : stream s = Revoked -> session_step s (shut s)
| end_waits s : stream s = Shut -> session_step s (drain s)
| end_wakes s : stream s = Notified -> session_step s (drain s).

(** [Ensure]: the first [Share] of a stream, borrowing or owning. *)
Definition shared (owned : bool) : Session := mkSession true 0 owned (if owned then 1 else 0) false Serving [Idle].

(** ** The invariant *)

Definition is_inside (hold : Hold) (h : HandleCall) : bool :=
  match hold, h with
  | Pinned, Inside Pinned | Referenced, Inside Referenced => true
  | _, _ => false
  end.

(** How many calls hold the socket so. *)
Definition holding (hold : Hold) (l : list HandleCall) : nat := length (List.filter (is_inside hold) l).

Record session_inv (s : Session) : Prop := {
  inv_active : active s = holding Pinned (handles s);
  inv_references : references s
    = (holding Referenced (handles s) + if owned s then match stream s with Ended => 0 | _ => 1 end else 0)%nat;
  inv_owned : if owned s then holding Pinned (handles s) = 0%nat else holding Referenced (handles s) = 0%nat;
  inv_revoked : socket s = match stream s with Serving => true | _ => false end;
  inv_closed : closed s = match stream s with Serving | Revoked => false | _ => true end;
  inv_asleep : stream s = Asleep -> (0 < active s)%nat;
  inv_over : match stream s with Notified | Ended => active s = 0%nat | _ => True end
}.

Lemma filter_insert (f : HandleCall -> bool) i h h0 (l : list HandleCall) :
  l !! i = Some h0 ->
  (length (List.filter f (<[i:=h]> l)) + Nat.b2n (f h0) = length (List.filter f l) + Nat.b2n (f h))%nat.
Proof.
  revert i. induction l as [|x l IH]; [done|]. intros [|i]; cbn.
  - intros [= ->]. destruct (f h), (f h0); cbn; lia.
  - intros Hi. specialize (IH i Hi). destruct (f x); [exact (f_equal S IH)|exact IH].
Qed.

Lemma holding_insert hold i h h0 l :
  l !! i = Some h0 ->
  (holding hold (<[i:=h]> l) + Nat.b2n (is_inside hold h0) = holding hold l + Nat.b2n (is_inside hold h))%nat.
Proof. apply filter_insert. Qed.

Lemma holding_copy hold l : holding hold (l ++ [Idle]) = holding hold l.
Proof. unfold holding. rewrite List.filter_app, length_app. by destruct hold; cbn; rewrite Nat.add_0_r. Qed.

Lemma shared_inv o : session_inv (shared o).
Proof. by destruct o. Qed.

(** ** Preservation *)

(** Counts the holds after a step on handle [i], whose call was [h0], then
    decides the invariant. *)
Ltac recount Hi h :=
  let HP := fresh "Hpinned" in let HR := fresh "Hreferenced" in
  pose proof (holding_insert Pinned _ h _ _ Hi) as HP;
  pose proof (holding_insert Referenced _ h _ _ Hi) as HR;
  cbn [is_inside Nat.b2n] in HP, HR;
  split; cbn [active references owned stream handles socket closed with_handle].

Lemma Acquire_inv s i s' hold :
  session_inv s -> handles s !! i = Some Idle -> Acquire s = (s', hold) ->
  session_inv (with_handle i (match hold with Some hold => Inside hold | None => StreamEnded end) s').
Proof.
  destruct s as [sk ac ow rf cl st hs]. intros [Ha Hr Ho Hs Hc Hz He] Hi. unfold Acquire.
  cbn [active references owned stream handles socket closed] in *.
  destruct sk; cbn [negb].
  2:{ intros [= <- <-]. recount Hi StreamEnded; try done; destruct ow, st; try done; lia. }
  destruct st; try done. destruct ow; cbn [andb].
  - replace (0 <? rf)%nat with true by (symmetry; apply Nat.ltb_lt; lia). intros [= <- <-]. recount Hi (Inside Referenced); try done; lia.
  - intros [= <- <-]. recount Hi (Inside Pinned); try done; lia.
Qed.

Lemma Release_inv s i hold :
  session_inv s -> handles s !! i = Some (Inside hold) -> session_inv (with_handle i Idle (Release hold s)).
Proof.
  destruct s as [sk ac ow rf cl st hs]. intros [Ha Hr Ho Hs Hc Hz He] Hi.
  cbn [active references owned stream handles socket closed] in *.
  destruct hold; unfold Release, ReleasePin; cbn [active references owned stream handles socket closed].
  - recount Hi Idle; try done; destruct ow, st; try done; lia.
  - assert (Hac : (0 < ac)%nat).
    { pose proof (holding_insert Pinned _ Idle _ _ Hi) as Hp. cbn [is_inside Nat.b2n] in Hp. lia. }
    destruct (ac - 1)%nat eqn:Ea; destruct st; recount Hi Idle; try done; destruct ow; try done; lia.
Qed.

Lemma session_step_inv s s' : session_step s s' -> session_inv s -> session_inv s'.
Proof.
  intros [s1 i s2 hold Hi Ha|s1 i hold Hi|s1 i Hi|s1|s1 Es|s1 Es|s1 Es|s1 Es] Hinv;
    [by eapply Acquire_inv|by apply Release_inv|..];
    destruct s1 as [sk ac ow rf cl st hs], Hinv as [Ha Hr Ho Hs Hc Hz He];
    cbn [active references owned stream handles socket closed] in *.
  - recount Hi Idle; try done; destruct ow, st; try done; lia.
  - split; cbn [active references owned stream handles socket closed]; rewrite ?holding_copy; done.
  - subst st. by split.
  - subst st. by split.
  - subst st. unfold drain, with_stream. cbn [active references owned stream handles socket closed].
    destruct ac; split; cbn [active references owned stream handles socket closed]; try done; try (by destruct ow; lia).
  - subst st. unfold drain, with_stream. cbn [active references owned stream handles socket closed].
    destruct ac; split; cbn [active references owned stream handles socket closed]; try done; try (by destruct ow; lia).
Qed.

Lemma session_step_owned s s' : session_step s s' -> owned s' = owned s.
Proof.
  intros [s1 i s2 hold Hi Ha|s1 i hold Hi|s1 i Hi|s1|s1 Es|s1 Es|s1 Es|s1 Es]; try done.
  - unfold Acquire in Ha. destruct (negb _); [by injection Ha as <- _|]. by destruct (_ && _); injection Ha as <- _.
  - by destruct hold.
  - unfold drain. by destruct (active s1).
  - unfold drain. by destruct (active s1).
Qed.

Lemma reachable_session o s : rtc session_step (shared o) s -> session_inv s /\ owned s = o.
Proof.
  intros Hr. remember (shared o) as s0 eqn:E0.
  assert (H0 : session_inv s0 /\ owned s0 = o) by (subst; split; [apply shared_inv|done]). clear E0.
  induction Hr as [s|s1 s2 s3 Hs _ IH]; [done|]. destruct H0 as [H0 Ho]. apply IH.
  split; [by eapply session_step_inv|]. by rewrite (session_step_owned _ _ Hs).
Qed.

Lemma holding_pos hold i l : l !! i = Some (Inside hold) -> (0 < holding hold l)%nat.
Proof.
  intros Hi. pose proof (holding_insert hold i Idle _ _ Hi) as Hh. destruct hold; cbn [is_inside Nat.b2n] in Hh; lia.
Qed.

Lemma holding_someone hold l : (0 < holding hold l)%nat -> exists i, l !! i = Some (Inside hold).
Proof.
  induction l as [|h l IH]; [unfold holding; cbn; lia|]. unfold holding in *. cbn [List.filter].
  destruct (is_inside hold h) eqn:Eh; intros Hl.
  - exists 0%nat. by destruct hold, h as [|[]|].
  - destruct (IH Hl) as [i Hi]. by exists (S i).
Qed.

(** ** The end of the view *)

(** What moves [End] forward: its own regions, and the end of a pinned call,
    which the socket's [Close] brings about. *)
Inductive end_step : Session -> Session -> Prop :=
| step_closes s : stream s = Revoked -> end_step s (shut s)
| step_waits s : stream s = Shut -> end_step s (drain s)
| step_wakes s : stream s = Notified -> end_step s (drain s)
| step_drops s i : handles s !! i = Some (Inside Pinned) -> end_step s (with_handle i Idle (Release Pinned s)).

(** The work left before [End] returns. *)
Definition end_work (s : Session) : nat :=
  (active s + match stream s with Serving => 4 | Revoked => 3 | Shut => 2 | Asleep | Notified => 1 | Ended => 0 end)%nat.

Lemma end_step_session s s' : end_step s s' -> session_step s s'.
Proof. intros []; by constructor. Qed.

Lemma end_step_less s s' : session_inv s -> end_step s s' -> (end_work s' < end_work s)%nat.
Proof.
  intros Hinv Hst. destruct Hst as [s1 Es|s1 Es|s1 Es|s1 i Hi]; unfold end_work.
  - rewrite Es. cbn. lia.
  - unfold drain. rewrite Es. destruct (active s1) eqn:Ea; cbn; rewrite ?Ea; lia.
  - unfold drain. rewrite Es. pose proof (inv_over _ Hinv) as Ho. rewrite Es in Ho. rewrite Ho. cbn. lia.
  - pose proof (holding_pos _ _ _ Hi) as Hp. rewrite <- (inv_active _ Hinv) in Hp.
    cbn [with_handle Release ReleasePin active stream]. destruct (active s1 - 1)%nat eqn:Ea, (stream s1); lia.
Qed.

Lemma end_step_enabled s : session_inv s -> stream s <> Serving -> stream s <> Ended -> exists s', end_step s s'.
Proof.
  intros Hinv Hs He. destruct (stream s) eqn:Es; try done.
  - eexists. by apply step_closes.
  - eexists. by apply step_waits.
  - pose proof (inv_asleep _ Hinv Es) as Ha. rewrite (inv_active _ Hinv) in Ha.
    destruct (holding_someone _ _ Ha) as [i Hi]. eexists. by apply (step_drops s i).
  - eexists. by apply step_wakes.
Qed.

Lemma end_begun s s' : session_step s s' -> stream s <> Serving -> stream s' <> Serving.
Proof.
  intros [s1 i s2 hold Hi Ha|s1 i hold Hi|s1 i Hi|s1|s1 Es|s1 Es|s1 Es|s1 Es] Hs; try done.
  - unfold Acquire in Ha. destruct (negb _); [by injection Ha as <- _|]. by destruct (_ && _); injection Ha as <- _.
  - destruct hold; [done|]. cbn. by destruct (active s1 - 1)%nat, (stream s1).
  - unfold drain. by destruct (active s1).
  - unfold drain. by destruct (active s1).
Qed.

Lemma end_reached n : forall s, session_inv s -> stream s <> Serving -> (end_work s <= n)%nat ->
  exists s', rtc end_step s s' /\ stream s' = Ended.
Proof.
  induction n as [|n IH]; intros s Hinv Hs Hn.
  - exists s. split; [constructor|]. unfold end_work in Hn. by destruct (stream s); try lia.
  - assert (Hd : stream s = Ended \/ stream s <> Ended) by (destruct (stream s); auto; by right).
    destruct Hd as [Hd|Hd]; [by exists s|].
    destruct (end_step_enabled s Hinv Hs Hd) as [s1 H1]. pose proof (end_step_less _ _ Hinv H1).
    pose proof (end_step_session _ _ H1) as H1'.
    destruct (IH s1) as (s' & Hr & He); [by eapply session_step_inv|by eapply end_begun|lia|].
    exists s'. split; [by eapply rtc_l|done].
Qed.

(** No step adds to the work once [End] has begun. *)
Lemma session_step_work s s' :
  session_inv s -> session_step s s' -> stream s <> Serving -> (end_work s' <= end_work s)%nat.
Proof.
  intros Hinv Hst Hs. destruct Hst as [s1 i s2 hold Hi Ha|s1 i hold Hi|s1 i Hi|s1|s1 Es|s1 Es|s1 Es|s1 Es]; try done.
  - unfold Acquire in Ha. rewrite (inv_revoked _ Hinv) in Ha. destruct (stream s1) eqn:Est; [done|injection Ha as <- <-; unfold end_work; cbn; by rewrite Est..].
  - destruct hold; [done|]. apply Nat.lt_le_incl, end_step_less, step_drops; done.
  - by apply Nat.lt_le_incl, end_step_less, step_closes.
  - by apply Nat.lt_le_incl, end_step_less, step_waits.
  - by apply Nat.lt_le_incl, end_step_less, step_wakes.
Qed.

(** ** Claims *)

(** C18: a handle never outlives its session dangerously.  On every interleaving
    of handle calls with the end of the stream they came from: a call inside the
    socket finds it alive, whether owned or borrowed, and so does every call that
    may still start; once the end has begun no call reaches the socket; when [End]
    has returned it has closed the socket and no borrowed call is left inside it;
    and the end of a stream that owns its socket never waits for a handle, so a
    completion may end the session it runs in. *)
Theorem handles_safe o s :
  rtc session_step (shared o) s ->
  (forall i hold, handles s !! i = Some (Inside hold) -> alive s = true)
  /\ (socket s = true -> alive s = true)
  /\ (stream s <> Serving -> Acquire s = (s, None))
  /\ (stream s = Ended -> closed s = true /\ forall i, handles s !! i <> Some (Inside Pinned))
  /\ (o = true -> active s = 0%nat /\ stream s <> Asleep).
Proof.
  intros Hr. destruct (reachable_session o s Hr) as [[Ha Hrf Ho Hs Hc Hz He] <-]. unfold alive. split_and!.
  - intros i [] Hi; pose proof (holding_pos _ _ _ Hi); destruct (owned s), (stream s); try done;
      try (apply Nat.ltb_lt); lia.
  - rewrite Hs. destruct (owned s), (stream s); try done. intros _. apply Nat.ltb_lt. lia.
  - intros Hn. unfold Acquire. rewrite Hs. by destruct (stream s).
  - intros Es. rewrite Hc, Es. split; [done|]. intros i Hi. pose proof (holding_pos _ _ _ Hi).
    rewrite Es in He. lia.
  - intros Eo. rewrite Eo in Ho. split; [lia|]. intros Es. specialize (Hz Es). lia.
Qed.

(** Two calls over a borrowed socket, one of them in flight when the stream goes. *)
Definition in_flight : Session :=
  mkSession false 1 false 0 true Asleep [Inside Pinned; StreamEnded].

Lemma in_flight_reachable : rtc session_step (shared false) in_flight.
Proof.
  eapply rtc_l; [apply (copy_handle (shared false))|].
  eapply rtc_l; [by eapply (begin_call _ 0)|]. cbn.
  eapply rtc_l; [by apply end_revokes|]. cbn. eapply rtc_l; [by apply end_closes|]. cbn.
  eapply rtc_l; [by eapply (begin_call _ 1)|]. cbn. eapply rtc_l; [by apply end_waits|]. constructor.
Qed.

Lemma handles_safe_witness : alive in_flight = true /\ Acquire in_flight = (in_flight, None).
Proof.
  destruct (handles_safe false in_flight in_flight_reachable) as (Hi & _ & Ha & _).
  split; [by apply (Hi 0%nat Pinned)|by apply Ha].
Defined.

(** the end of a view ends.  Once [End] has begun, no step of any handle adds
    to its work, which is at most four regions and one return per call inside a
    borrowed socket; while it has not returned one of those is always possible
    and lessens the work (so no notification is lost: a sleeping wait has a call
    to wait for); and they alone bring it to return. *)
Theorem End_returns o s :
  rtc session_step (shared o) s -> stream s <> Serving ->
  (forall s', session_step s s' -> (end_work s' <= end_work s)%nat)
  /\ (forall s', end_step s s' -> session_step s s' /\ (end_work s' < end_work s)%nat)
  /\ (stream s <> Ended -> exists s', end_step s s')
  /\ (exists s', rtc end_step s s' /\ stream s' = Ended)
  /\ (end_work s <= 4 + holding Pinned (handles s))%nat.
Proof.
  intros Hr Hs. destruct (reachable_session o s Hr) as [Hinv _]. split_and!.
  - intros s' Hst. by apply session_step_work.
  - intros s' Hst. split; [by apply end_step_session|by apply end_step_less].
  - by apply end_step_enabled.
  - by apply (end_reached (end_work s)).
  - unfold end_work. rewrite (inv_active _ Hinv). destruct (stream s); lia.
Qed.

Lemma End_returns_witness : exists s', rtc end_step in_flight s' /\ stream s' = Ended.
Proof.
  destruct (End_returns false in_flight in_flight_reachable ltac:(done)) as (_ & _ & _ & H & _). exact H.
Defined.
