(* ===== verification/EventSessions.v ===== *)
(** Event-stream sessions: eventstream/jsonrpc_stream_socket.cc, the socket that
    speaks JSON-RPC over another socket; the typed stream of
    eventstream/event_stream.h over either; and the race between an awaitable of
    eventstream/async_event_stream.h and its completion. *)
From Stdlib Require Import ZArith Lia Strings.Byte.
From stdpp Require Import relations.
From S2P Require Import Prelude Bytes Utf8 OrdMap Cbor Json Serde Envelope StreamFrames StreamGrammar.
From S2P Require Frame.
Import Frame(Message, mkMessage, msg_headers, msg_payload, kMaxMessageBytes).

Local Open Scope Z_scope.

(** [http::WebSocket], on a world [W]: a deadline is optional, and an
    asynchronous call is given what to do on completion. *)
Record WebSocket (W : Type) := mkWebSocket {
  Receive : option Z -> W -> Outcome (option Message) * W;
  Send : Message -> W -> Outcome unit * W;
  Close : W -> W;
  ReceiveAsync : option Z -> (Outcome (option Message) -> W -> W) -> W -> W;
  SendAsync : Message -> (Outcome unit -> W -> W) -> W -> W
}.
Arguments Receive {W} _ _ _.
Arguments Send {W} _ _ _.
Arguments Close {W} _ _.
Arguments ReceiveAsync {W} _ _ _ _.
Arguments SendAsync {W} _ _ _ _.

Inductive Role := kClient | kServer.

Section JsonRpc.
Context `{JsonCodec}.

Definition TranslateOutbound (message : Message) (id : Document) : Outcome Message :=
  text ← EncodeJsonRpcNotification message id; Ok (mkMessage [] text).

Record Inbound := mkInbound {
  result : Outcome (option Message);
  violation_text : option bytes;
  close : bool
}.

Definition FromViolation (code : Z) (reason : bytes) (id : Document) (role : Role) : Inbound :=
  mkInbound (Err (Error_Serialization (lit "jsonrpc stream: " ++ reason)))
    (match role with kServer => Some (EncodeJsonRpcViolationResponse code reason id) | kClient => None end) true.

Definition framed_message : bytes := Eval vm_compute in lit "an event-stream framed message on the JSON-RPC text wire".
Definition client_response : bytes := Eval vm_compute in lit "a response envelope from the client".

Definition ClassifyInbound (raw : Outcome (option Message)) (id : Document) (role : Role) : Inbound :=
  match raw with
  | Err _ | Ok None => mkInbound raw None false
  | Ok (Some message) =>
    match msg_headers message with
    | _ :: _ => FromViolation kInvalidRequestCode framed_message id role
    | [] =>
      match DecodeJsonRpcStreamFrame (msg_payload message) id with
      | FrameEvent message => mkInbound (Ok (Some message)) None false
      | FrameException message =>
        match role with
        | kServer => FromViolation kInvalidRequestCode client_response id role
        | kClient => mkInbound (Ok (Some message)) None false
        end
      | FrameResult _ =>
        match role with
        | kServer => FromViolation kInvalidRequestCode client_response id role
        | kClient => mkInbound (Ok None) None false
        end
      | FrameViolation code reason => FromViolation code reason id role
      end
    end
  end.

Section Socket.
Context {W : Type} (inner : WebSocket W) (id : Document) (role : Role).

(** [Police]: answer a violation, close, hand back the rest. *)
Definition Police (raw : Outcome (option Message)) (w : W) : Outcome (option Message) * W :=
  let inbound := ClassifyInbound raw id role in
  let w := match violation_text inbound with
           | Some text => snd (Send inner (mkMessage [] text) w)
           | None => w
           end in
  let w := if close inbound then Close inner w else w in
  (result inbound, w).

Definition PoliceAsync (callback : Outcome (option Message) -> W -> W) (raw : Outcome (option Message)) (w : W) : W :=
  let inbound := ClassifyInbound raw id role in
  match violation_text inbound with
  | Some text =>
    SendAsync inner (mkMessage [] text) (fun _ w => callback (result inbound) (Close inner w)) w
  | None => callback (result inbound) (if close inbound then Close inner w else w)
  end.

Definition JsonRpcStreamSocket : WebSocket W := {|
  Receive timeout w := let '(raw, w) := Receive inner timeout w in Police raw w;
  Send message w := match TranslateOutbound message id with
                    | Err e => (Err e, w)
                    | Ok raw => Send inner raw w
                    end;
  Close := Close inner;
  ReceiveAsync timeout callback w := ReceiveAsync inner timeout (PoliceAsync callback) w;
  SendAsync message callback w := match TranslateOutbound message id with
                                  | Err e => callback (Err e) w
                                  | Ok raw => SendAsync inner raw callback w
                                  end
|}.

End Socket.
End JsonRpc.

(** ** The typed stream *)

Definition SparesSession (decode_error : Error) : bool :=
  match err_kind decode_error with kValidation => true | _ => false end.

Section Stream.
Context {W Tx Rx : Type} (socket : WebSocket W).
Context (encode_ : Tx -> Outcome Message) (decode_ : Message -> Outcome Rx).

(** [EventStream::Decode], and [ReceiveAwaitable::await_resume]. *)
Definition Decode (received : Outcome (option Message)) (w : W) : Outcome (option Rx) * W :=
  match received with
  | Err e => (Err e, w)
  | Ok None => (Ok None, w)
  | Ok (Some message) =>
    match decode_ message with
    | Err e => (Err e, if SparesSession e then w else Close socket w)
    | Ok event => (Ok (Some event), w)
    end
  end.

Definition EventStream_Receive (timeout : option Z) (w : W) : Outcome (option Rx) * W :=
  let '(received, w) := Receive socket timeout w in Decode received w.

Definition EventStream_Send (event : Tx) (w : W) : Outcome unit * W :=
  match encode_ event with
  | Err e => (Err e, w)
  | Ok message => Send socket message w
  end.

Definition EventStream_ReceiveAsync (timeout : option Z) (resume : Outcome (option Rx) -> W -> W) (w : W) : W :=
  ReceiveAsync socket timeout (fun raw w => let '(event, w) := Decode raw w in resume event w) w.

Definition EventStream_SendAsync (event : Tx) (resume : Outcome unit -> W -> W) (w : W) : W :=
  match encode_ event with
  | Err e => resume (Err e) w
  | Ok message => SendAsync socket message resume w
  end.

End Stream.

(** ** Awaitables *)

(** The coroutine: running [await_suspend] (the call is issued, then the flag is
    exchanged), suspended, or resumed. *)
Inductive Coroutine := Issuing | Exchanging | Suspended | Running.

(** The completion: not called, with its result stored, or after its exchange. *)
Inductive Completion := NotYet | Stored | Done.

Record Await := mkAwait {
  coroutine : Coroutine;
  completion : Completion;
  arrived : bool;
  stored : bool;         (* the awaited result is in the awaitable *)
  resumes : nat;         (* how often the coroutine was let run *)
  touched_late : bool    (* the awaitable was used after the coroutine ran on *)
}.

Definition awaiting : Await := mkAwait Issuing NotYet false false 0 false.

Definition running (a : Await) : bool := match coroutine a with Running => true | _ => false end.

Inductive await_step : Await -> Await -> Prop :=
(* the socket's call returns to [await_suspend] *)
| call_returns a :
  coroutine a = Issuing ->
  await_step a (mkAwait Exchanging (completion a) (arrived a) (stored a) (resumes a) (touched_late a))
(* [return !arrived_.exchange(true)] *)
| suspends a :
  coroutine a = Exchanging ->
  await_step a (if arrived a
                then mkAwait Running (completion a) true (stored a) (S (resumes a)) (touched_late a)
                else mkAwait Suspended (completion a) true (stored a) (resumes a) (touched_late a))
(* the completion stores its result, from the call itself or from elsewhere *)
| completes a :
  completion a = NotYet ->
  await_step a (mkAwait (coroutine a) Stored (arrived a) true (resumes a) (touched_late a || running a))
(* [if (arrived_.exchange(true)) coroutine.resume()] *)
| hands_over a :
  completion a = Stored ->
  await_step a (if arrived a
                then mkAwait Running Done true (stored a) (S (resumes a)) (touched_late a || running a)
                else mkAwait (coroutine a) Done true (stored a) (resumes a) (touched_late a || running a)).

(** The reachable states. *)
Definition await_inv (a : Await) : Prop :=
  arrived a = match coroutine a, completion a with Issuing, Done | Exchanging, Done => true | Issuing, _ | Exchanging, _ => false | _, _ => true end
  /\ stored a = match completion a with NotYet => false | _ => true end
  /\ match coroutine a, completion a with
     | Running, Done => resumes a = 1%nat
     | Running, _ | Suspended, Done => False
     | _, _ => resumes a = 0%nat
     end
  /\ touched_late a = false.

Lemma await_step_inv a a' : await_step a a' -> await_inv a -> await_inv a'.
Proof.
  intros [[co cm ar st n late] E|[co cm ar st n late] E|[co cm ar st n late] E|[co cm ar st n late] E];
    cbn [coroutine completion] in E; subst; unfold await_inv, running;
    cbn [coroutine completion arrived stored resumes touched_late]; intros (Ha & Hs & Hr & ->).
  - by destruct cm.
  - destruct cm; subst; cbn; try done; by subst.
  - destruct co; subst; cbn; done.
  - destruct co; subst; cbn; try done; by subst.
Qed.

Lemma await_reachable a : rtc await_step awaiting a -> await_inv a.
Proof.
  intros Hr. remember awaiting as a0 eqn:E0. assert (H0 : await_inv a0) by by subst. clear E0.
  induction Hr as [|a1 a2 a3 Hs _ IH]; [done|]. by apply IH, (await_step_inv a1).
Qed.

(** Steps left. *)
Definition await_work (a : Await) : nat :=
  (match coroutine a with Issuing => 2 | Exchanging => 1 | _ => 0 end
   + match completion a with NotYet => 2 | Stored => 1 | Done => 0 end)%nat.

Lemma await_step_less a a' : await_inv a -> await_step a a' -> (await_work a' < await_work a)%nat.
Proof.
  intros (Ha & _ & Hr & _) Hst. destruct Hst as [a E|a E|a E|a E]; unfold await_work; rewrite E in *.
  - cbn. lia.
  - destruct (arrived a); cbn; lia.
  - cbn. lia.
  - destruct (arrived a) eqn:Ea; cbn; [|lia]. destruct (coroutine a); lia.
Qed.

Lemma await_stuck a : await_inv a -> (forall a', ~ await_step a a') -> running a = true.
Proof.
  intros (_ & _ & Hr & _) Hs. unfold running. destruct (coroutine a) eqn:Ec; try done.
  - by destruct (Hs _ (call_returns a Ec)).
  - by destruct (Hs _ (suspends a Ec)).
  - destruct (completion a) eqn:Em; [by destruct (Hs _ (completes a Em))|by destruct (Hs _ (hands_over a Em))|done].
Qed.

(** ** The JSON-RPC socket *)

(** Asynchronous calls that complete at once, as on the in-memory pair when
    there is something to complete with. *)
Definition immediate {W} (s : WebSocket W) : Prop :=
  (forall timeout k w, ReceiveAsync s timeout k w = let '(raw, w) := Receive s timeout w in k raw w)
  /\ (forall message k w, SendAsync s message k w = let '(sent, w) := Send s message w in k sent w).

(** A socket that receives [raw] and reads it as [m]. *)
Definition reads_as `{JsonCodec} (id : Document) (role : Role) (raw : Message) (m : Message) : Prop :=
  forall W (inner : WebSocket W) timeout w w',
    Receive inner timeout w = (Ok (Some raw), w') ->
    Receive (JsonRpcStreamSocket inner id role) timeout w = (Ok (Some m), w').

Section Claims.
Context `{JsonCodecLaws}.

Lemma classified_reads id role raw m :
  ClassifyInbound (Ok (Some raw)) id role = mkInbound (Ok (Some m)) None false -> reads_as id role raw m.
Proof.
  intros Hc W inner timeout w w' Hr. unfold JsonRpcStreamSocket. cbn [Receive]. rewrite Hr. unfold Police.
  by rewrite Hc.
Qed.

Lemma event_reads id role text m :
  DecodeJsonRpcStreamFrame text id = FrameEvent m -> reads_as id role (mkMessage [] text) m.
Proof. intros Hd. apply classified_reads. cbn [ClassifyInbound msg_headers msg_payload]. by rewrite Hd. Qed.

(** ** What policing makes of a message *)

(** An event of the call, or to the client its terminal error, as [m]; or to the
    client the clean end of the call. *)
Definition taken (id : Document) (role : Role) (raw m : Message) : Prop :=
  msg_headers raw = []
  /\ (stream_event id (msg_payload raw) m \/ role = kClient /\ stream_error id (msg_payload raw) m).

Definition ended (id : Document) (role : Role) (raw : Message) : Prop :=
  msg_headers raw = [] /\ role = kClient /\ exists d, stream_end id (msg_payload raw) d.

(** Everything else is refused, with a code and a reason. *)
Definition refused (id : Document) (role : Role) (raw : Message) (code : Z) (reason : bytes) : Prop :=
  (forall m, ~ taken id role raw m) /\ ~ ended id role raw
  /\ (code = -32700 /\ msg_headers raw = [] /\ len (msg_payload raw) <= kMaxMessageBytes
         /\ is_ok (decode (msg_payload raw)) = false
      \/ code = -32600 /\ (msg_headers raw = [] -> len (msg_payload raw) <= kMaxMessageBytes ->
                           is_ok (decode (msg_payload raw)) = true))
  /\ (msg_headers raw <> [] /\ reason = lit "an event-stream framed message on the JSON-RPC text wire"
      \/ msg_headers raw = [] /\ DecodeJsonRpcStreamFrame (msg_payload raw) id = FrameViolation code reason
      \/ msg_headers raw = [] /\ role = kServer /\ reason = lit "a response envelope from the client"
         /\ ((exists m, stream_error id (msg_payload raw) m) \/ exists d, stream_end id (msg_payload raw) d))
  /\ reason <> [] /\ utf8 reason.

Lemma frame_taken id role raw m : msg_headers raw = [] ->
  taken id role raw m <-> DecodeJsonRpcStreamFrame (msg_payload raw) id = FrameEvent m
                          \/ role = kClient /\ DecodeJsonRpcStreamFrame (msg_payload raw) id = FrameException m.
Proof. intros Hh. unfold taken. rewrite DecodeJsonRpc_stream_event, DecodeJsonRpc_exception_iff. tauto. Qed.

Lemma frame_ended id role raw : msg_headers raw = [] ->
  ended id role raw <-> role = kClient /\ exists d, DecodeJsonRpcStreamFrame (msg_payload raw) id = FrameResult d.
Proof. intros Hh. unfold ended. setoid_rewrite DecodeJsonRpc_result_iff. tauto. Qed.

Lemma ClassifyInbound_cases raw id role :
  (exists m, taken id role raw m /\ ClassifyInbound (Ok (Some raw)) id role = mkInbound (Ok (Some m)) None false)
  \/ ended id role raw /\ ClassifyInbound (Ok (Some raw)) id role = mkInbound (Ok None) None false
  \/ exists code reason, refused id role raw code reason
     /\ ClassifyInbound (Ok (Some raw)) id role = FromViolation code reason id role.
Proof.
  cbn [ClassifyInbound]. destruct (msg_headers raw) as [|h hs] eqn:Eh.
  2:{ right; right. exists kInvalidRequestCode, framed_message. split; [|done]. unfold refused, taken, ended. rewrite Eh.
      split_and!; [by intros m [? _]|by intros [? _]|by right|by left|done|by apply utf8_ascii]. }
  assert (Hp : forall code reason, DecodeJsonRpcStreamFrame (msg_payload raw) id = FrameViolation code reason ->
            refused id role raw code reason).
  { intros code reason Ed. destruct (violation_reason _ _ _ _ Ed) as (Hc & Hj & Hne & Hu).
    split_and!; [| | | |done|done].
    - intros m. rewrite frame_taken, Ed by done. by intros [?|[_ ?]].
    - rewrite frame_ended, Ed by done. by intros [_ [? ?]].
    - destruct Hc as [-> | ->]; [left; split; [done|]; split; [done|]; by apply Hj|right; split; [done|]].
      intros _ Hl. destruct (is_ok _) eqn:Eo; [done|]. pose proof (proj2 Hj (conj Hl eq_refl)) as Hx. by vm_compute in Hx.
    - right; left. by split. }
  assert (Hr : role = kServer -> (forall code reason, DecodeJsonRpcStreamFrame (msg_payload raw) id <> FrameViolation code reason) ->
            (forall m, DecodeJsonRpcStreamFrame (msg_payload raw) id <> FrameEvent m) ->
            refused id role raw kInvalidRequestCode client_response).
  { intros -> Hv He. destruct (DecodeJsonRpcStreamFrame (msg_payload raw) id) as [m|m|d|code reason] eqn:Ed;
      [by destruct (He m)| | |by destruct (Hv code reason)].
    all: split_and!; [intros m'; rewrite frame_taken, Ed by done; by intros [?|[? _]]
                     |rewrite frame_ended, Ed by done; by intros [? _]|right; split; [done|]|
                     right; right; split; [done|]; split; [done|]; split; [done|]|done|by apply utf8_ascii].
    all: try (intros _ Hl; destruct (is_ok _) eqn:Eo; [done|]; exfalso;
              unfold DecodeJsonRpcStreamFrame in Ed; rewrite Z.gtb_ltb, (proj2 (Z.ltb_ge _ _)) in Ed by done;
              by destruct (decode (msg_payload raw))).
    - left. exists m. by apply DecodeJsonRpc_exception_iff.
    - right. exists d. by apply DecodeJsonRpc_result_iff. }
  destruct (DecodeJsonRpcStreamFrame (msg_payload raw) id) as [m|m|d|code reason] eqn:Ed.
  - left. exists m. split; [|done]. rewrite frame_taken, Ed by done. by left.
  - destruct role.
    + left. exists m. split; [|done]. rewrite frame_taken, Ed by done. by right.
    + right; right. eexists _, _. split; [|done]. by apply Hr.
  - destruct role.
    + right; left. split; [|done]. rewrite frame_ended, Ed by done. eauto.
    + right; right. eexists _, _. split; [|done]. by apply Hr.
  - right; right. exists code, reason. split; [|done]. by apply Hp.
Qed.

Lemma violation_reads code reason id :
  rpc_id id -> (3 <= max_levels)%nat -> (code = kParseErrorCode \/ code = kInvalidRequestCode) ->
  reason <> [] -> utf8 reason -> len reason < 2 ^ 64 ->
  len (EncodeJsonRpcViolationResponse code reason id) <= kMaxMessageBytes ->
  reads_as id kClient (mkMessage [] (EncodeJsonRpcViolationResponse code reason id)) (violation_exception reason).
Proof.
  intros Hid Hm Hc Hne Hu Hl Hs. apply classified_reads. cbn [ClassifyInbound msg_headers msg_payload].
  rewrite violation_read; try done. destruct Hc as [-> | ->]; by vm_compute.
Qed.

Lemma socket_immediate {W} (inner : WebSocket W) id role :
  immediate inner -> immediate (JsonRpcStreamSocket inner id role).
Proof.
  intros [Hr Hs]. split.
  - intros timeout k w. cbn [ReceiveAsync Receive JsonRpcStreamSocket]. rewrite Hr.
    destruct (Receive inner timeout w) as [raw w1]. unfold PoliceAsync, Police.
    destruct (violation_text _) as [text|] eqn:Ev; [|done]. rewrite Hs.
    assert (Hc : close (ClassifyInbound raw id role) = true).
    { destruct raw as [[raw|]|e]; try done. destruct (ClassifyInbound_cases raw id role)
        as [(m & _ & Hc)|[[_ Hc]|(code & reason & _ & Hc)]]; rewrite Hc in Ev |- *; done. }
    rewrite Hc. by destruct (Send inner _ w1).
  - intros message k w. cbn [SendAsync Send JsonRpcStreamSocket]. by destruct (TranslateOutbound message id).
Qed.

(** C21: a socket over a socket.  The JSON-RPC socket carries the messages of the
    binary wire: an event of the opening call goes out as exactly one headerless
    message, which the socket at the other end, of either role, reads back as the
    same event.  Deadlines, failures and the peer's close pass untouched.  Of what
    arrives exactly the grammar is taken: a notification of the call is an event,
    to the client alone an error response is the terminal error and a result the
    clean end, and none of these touches the inner socket further.  Anything else,
    a message with headers and a client's response to the server included, is
    fatal: the caller gets a serialization error, the inner socket is closed, and
    the server first sends the violation's code (-32700 for a text that is not JSON,
    -32600 for the rest) and reason under the call's id, which the client's socket
    reads as the terminal exception.  The asynchronous calls do what the blocking
    ones do when completions come at once. *)
Theorem jsonrpc_socket {W} (inner : WebSocket W) id role (Hid : rpc_id id) (Hm : (3 <= max_levels)%nat) :
  let s := JsonRpcStreamSocket inner id role in
  (forall type p w, type <> [] -> utf8 type -> len type < 2 ^ 64 ->
     plain (Map_ p) -> len (encode (Map_ p)) < 2 ^ 63 -> (levels (Map_ p) + 2 <= max_levels)%nat ->
     match EncodeJsonRpcNotification (wire_message kEvent type p) id with
     | Ok text => Send s (wire_message kEvent type p) w = Send inner (mkMessage [] text) w
                  /\ forall role', reads_as id role' (mkMessage [] text) (wire_message kEvent type p)
     | Err e => Send s (wire_message kEvent type p) w = (Err e, w) /\ e = rpc_cannot too_big
     end)
  /\ (forall timeout w w' e, Receive inner timeout w = (Err e, w') -> Receive s timeout w = (Err e, w'))
  /\ (forall timeout w w', Receive inner timeout w = (Ok None, w') -> Receive s timeout w = (Ok None, w'))
  /\ (forall timeout w w' raw, Receive inner timeout w = (Ok (Some raw), w') ->
      (exists m, taken id role raw m /\ Receive s timeout w = (Ok (Some m), w'))
      \/ ended id role raw /\ Receive s timeout w = (Ok None, w')
      \/ exists code reason,
         let answer := EncodeJsonRpcViolationResponse code reason id in
         refused id role raw code reason
         /\ Receive s timeout w
            = (Err (Error_Serialization (lit "jsonrpc stream: " ++ reason)),
               Close inner (match role with kServer => snd (Send inner (mkMessage [] answer) w') | kClient => w' end))
         /\ (len answer <= kMaxMessageBytes -> len reason < 2 ^ 64 ->
             reads_as id kClient (mkMessage [] answer) (violation_exception reason)))
  /\ (immediate inner -> immediate s).
Proof.
  cbv zeta. split_and!; [| | | |apply socket_immediate].
  - intros type p w Hne Hu Hl Hp Hs Hlv. destruct (rpc_id_facts id Hid) as (Hpid & Hlev & Heq).
    assert (kMaxMessageBytes < 2 ^ 63) by done.
    cbn [Send JsonRpcStreamSocket]. unfold TranslateOutbound.
    rewrite EncodeJsonRpcNotification_wire by (done || lia). cbv zeta.
    destruct (Z.gtb_spec (len (encode (notification_document id type p))) kMaxMessageBytes) as [|Hle]; [done|].
    split; [done|]. intros role'. apply event_reads, DecodeJsonRpc_event_iff. split; [done|].
    exists type, id, p. split; [|done].
    apply decode_encode; [by apply notification_plain| |lia]. rewrite notification_levels; [lia|done].
  - intros timeout w w' e Hr. cbn [Receive JsonRpcStreamSocket]. by rewrite Hr.
  - intros timeout w w' Hr. cbn [Receive JsonRpcStreamSocket]. by rewrite Hr.
  - intros timeout w w' raw Hr. cbn [Receive JsonRpcStreamSocket]. rewrite Hr. unfold Police.
    destruct (ClassifyInbound_cases raw id role) as [(m & Ht & Hc)|[[He Hc]|(code & reason & Hv & Hc)]]; rewrite Hc.
    + left. by exists m.
    + by right; left.
    + right; right. exists code, reason. cbv zeta. split; [done|]. split; [by destruct role|].
      destruct Hv as (_ & _ & Hcode & _ & Hne & Hu). intros Hs Hl. apply violation_reads; try done.
      destruct Hcode as [(-> & _)|(-> & _)]; [by left|by right].
Qed.

End Claims.

(** An inner socket that keeps what is sent on it. *)
Record Ends := mkEnds { inbox : list Message; outbox : list Message; closed : bool }.

Definition recorder : WebSocket Ends := {|
  Receive _ w := match inbox w with
                 | m :: rest => (Ok (Some m), mkEnds rest (outbox w) (closed w))
                 | [] => (Ok None, w)
                 end;
  Send m w := (Ok tt, mkEnds (inbox w) (outbox w ++ [m]) (closed w));
  Close w := mkEnds (inbox w) (outbox w) true;
  ReceiveAsync _ k w := match inbox w with
                        | m :: rest => k (Ok (Some m)) (mkEnds rest (outbox w) (closed w))
                        | [] => k (Ok None) w
                        end;
  SendAsync m k w := k (Ok tt) (mkEnds (inbox w) (outbox w ++ [m]) (closed w))
|}.

(** An event, a result, a text that the codec cannot read and a message of the
    binary wire. *)
Definition an_event : Message :=
  mkMessage [] (@encode checked_cbor (notification_document (Int 7) (lit "message") chat_payload)).
Definition a_result : Message :=
  mkMessage [] (@encode checked_cbor (response_document None (Int 7) None (Some (Map_ [])))).
Definition garbage : Message := mkMessage [] (lit "{").
Definition binary : Message := @wire_message checked_cbor kEvent (lit "message") chat_payload.

Notation ends := (@JsonRpcStreamSocket checked_cbor _ recorder (Int 7)).
Notation received role raw := (Receive (ends role) None (mkEnds [raw] [] false)).
Notation answer code reason := (mkMessage [] (@EncodeJsonRpcViolationResponse checked_cbor code reason (Int 7))).

Lemma garbage_refused code reason : @refused checked_cbor (Int 7) kServer garbage code reason ->
  code = -32700 /\ reason = lit "text frame is not JSON".
Proof.
  intros (_ & _ & [(-> & _)|(-> & Hc)] & [[Hh _]|[[_ Hd]|(_ & _ & _ & He)]] & _);
    try (exfalso; specialize (Hc eq_refl); revert Hc; vm_compute; intros Hc; by discriminate Hc); try done.
  - split; [done|]. revert Hd. vm_compute. by intros [= <-].
  - exfalso. destruct He as [[m (_ & ? & ? & ? & ? & ? & He & _)]|[d (_ & ? & ? & He & _)]]; vm_compute in He; done.
Qed.

(** How each is taken, for the cases of the claim that it excludes. *)
Lemma kinds :
  (exists m w, received kServer an_event = (Ok (Some m), w)) /\ (exists w, received kClient a_result = (Ok None, w))
  /\ (exists e w, received kServer a_result = (Err e, w)) /\ (exists e w, received kClient binary = (Err e, w))
  /\ exists e w, received kServer garbage = (Err e, w).
Proof. split_and!; repeat eexists; vm_compute; reflexivity. Qed.

Lemma jsonrpc_socket_witness :
  (exists m, @taken checked_cbor (Int 7) kServer an_event m
             /\ received kServer an_event = (Ok (Some m), mkEnds [] [] false))
  /\ received kClient a_result = (Ok None, mkEnds [] [] false)
  /\ (exists code reason, @refused checked_cbor (Int 7) kServer a_result code reason
        /\ received kServer a_result = (Err (Error_Serialization (lit "jsonrpc stream: " ++ reason)),
                                        mkEnds [] [answer code reason] true))
  /\ (exists code reason, @refused checked_cbor (Int 7) kClient binary code reason
        /\ received kClient binary = (Err (Error_Serialization (lit "jsonrpc stream: " ++ reason)), mkEnds [] [] true))
  /\ received kServer garbage = (Err (Error_Serialization (lit "jsonrpc stream: text frame is not JSON")),
                                 mkEnds [] [answer (-32700) (lit "text frame is not JSON")] true)
  /\ @reads_as checked_cbor (Int 7) kClient (answer (-32700) (lit "text frame is not JSON"))
       (@violation_exception checked_cbor (lit "text frame is not JSON"))
  /\ immediate (ends kServer).
Proof.
  destruct (@jsonrpc_socket checked_cbor checked_cbor_laws _ recorder (Int 7) kServer) as (_ & _ & _ & Hs & Hi);
    [left; by exists 7|by vm_compute; lia|].
  destruct (@jsonrpc_socket checked_cbor checked_cbor_laws _ recorder (Int 7) kClient) as (_ & _ & _ & Hc & _);
    [left; by exists 7|by vm_compute; lia|].
  pose proof (Hs None (mkEnds [an_event] [] false) _ an_event eq_refl) as H1.
  pose proof (Hc None (mkEnds [a_result] [] false) _ a_result eq_refl) as H2.
  pose proof (Hs None (mkEnds [a_result] [] false) _ a_result eq_refl) as H3.
  pose proof (Hc None (mkEnds [binary] [] false) _ binary eq_refl) as H4.
  pose proof (Hs None (mkEnds [garbage] [] false) _ garbage eq_refl) as H5. clear Hs Hc.
  destruct kinds as ((m1 & w1 & E1) & (w2 & E2) & (e3 & w3 & E3) & (e4 & w4 & E4) & (e5 & w5 & E5)).
  destruct H1 as [H1|[[_ H1]|(? & ? & _ & H1 & _)]];
    [|rewrite E1 in H1; discriminate H1..].
  destruct H2 as [(? & _ & H2)|[[_ H2]|(? & ? & _ & H2 & _)]];
    [rewrite E2 in H2; discriminate H2| |rewrite E2 in H2; discriminate H2].
  destruct H3 as [(? & _ & H3)|[[_ H3]|(code3 & reason3 & H3 & H3' & _)]]; [rewrite E3 in H3; discriminate H3..|].
  destruct H4 as [(? & _ & H4)|[[_ H4]|(code4 & reason4 & H4 & H4' & _)]]; [rewrite E4 in H4; discriminate H4..|].
  destruct H5 as [(? & _ & H5)|[[_ H5]|(code5 & reason5 & H5 & H5' & H5'')]]; [rewrite E5 in H5; discriminate H5..|].
  clear m1 w1 E1 w2 E2 e3 w3 E3 e4 w4 E4 e5 w5 E5.
  destruct (garbage_refused _ _ H5) as [-> ->].
  split; [exact H1|]. split; [exact H2|]. split; [by exists code3, reason3|]. split; [by exists code4, reason4|].
  split; [exact H5'|]. split; [apply H5''; by vm_compute|].
  apply Hi. split; [by intros timeout k [[|m rest] out cl]|done].
Defined.

(** C37: an await resumes once.  Whether the completion comes from inside the
    call, before the coroutine has suspended or after, from any thread: the
    coroutine runs on at most once, and only with its result stored; the awaitable,
    which may die when the coroutine runs on, is not used afterwards; and once
    neither side can move, which takes at most four steps, the coroutine has run
    on, so no completion is lost. *)
Theorem await_resumes_once a :
  rtc await_step awaiting a ->
  (resumes a <= 1)%nat
  /\ (running a = true <-> resumes a = 1%nat)
  /\ (running a = true -> stored a = true)
  /\ touched_late a = false
  /\ (forall a', await_step a a' -> (await_work a' < await_work a <= 4)%nat)
  /\ ((forall a', ~ await_step a a') -> running a = true).
Proof.
  intros Hr. pose proof (await_reachable a Hr) as Hinv. pose proof Hinv as (Ha & Hs & Hn & Hl).
  split_and!; [..|done| |by apply await_stuck].
  - destruct (coroutine a), (completion a); lia.
  - unfold running. destruct (coroutine a), (completion a); try done; split; try done; lia.
  - unfold running. rewrite Hs. by destruct (coroutine a), (completion a).
  - intros a' Hst. split; [by apply await_step_less|]. unfold await_work. destruct (coroutine a), (completion a); lia.
Qed.

(** The completion overtakes the suspension. *)
Definition overtaken : Await := mkAwait Running Done true true 1 false.

Lemma await_resumes_once_witness : running overtaken = true /\ stored overtaken = true.
Proof.
  refine (conj eq_refl (proj1 (proj2 (proj2 (await_resumes_once overtaken _))) eq_refl)).
  eapply rtc_l; [by apply (completes awaiting)|]. eapply rtc_l; [by apply call_returns|].
  eapply rtc_l; [by apply hands_over|]. eapply rtc_l; [by apply suspends|]. constructor.
Defined.
